(* ===== verification/_CoqProject ===== *)
-Q . S2P
Prelude.v
RustStd.v
ApTypes.v
ApServer.v
ApReference.v
Namespace.v
NamespaceFacts.v
Process.v
ProcessFacts.v
SrvFs.v
MountFs.v
MountFacts.v
MountBacking.v
MountWalk.v
ProcFs.v
ProcFsFacts.v
ProcEvents.v
Bootstrap.v
Knowledge.v
KnowledgeFacts.v
KnowledgeGc.v
MemFs.v
MemFsFacts.v
BranchFs.v
RustText.v
EditFs.v
Policy.v
PolicyFacts.v
Tape.v
TapeFacts.v
ApWire.v
ApWireFacts.v
ApImported.v
ApImportedFacts.v
RouteFs.v
RouteFsFacts.v
Protocol.v
InputQueue.v
QueueControls.v
QueueFacts.v
QueueLedger.v
QueueRun.v
QueueKept.v
MachineState.v
MachineFacts.v
AgentFs.v
AgentFsFacts.v
AgentTape.v
RustChars.v
BashSyntax.v
BashClassifier.v
BashFacts.v
SandboxSyntax.v
SandboxCommands.v
SandboxPaths.v
Sandbox.v
TextPathFacts.v
SandboxFacts.v
ReifiedPlan.v
ReifiedPlanFacts.v
BootUnits.v
ServiceManager.v
Supervisor.v
SupervisorFacts.v
BootRun.v
HostMounts.v
HostMountFs.v
HostMountSteps.v
HostMountGrants.v
HostMountRequests.v
HostMountReach.v
HostMountChild.v
HostMountTheorems.v
HostMountView.v
LlmProviders.v
LlmGen.v
LlmFs.v
LlmGenFacts.v
LlmFacts.v
LlmViews.v
