(* ===== verification/Prelude.v ===== *)
(** * alan9: a verification development

    Alan's substrate is a Plan 9 style operating-system layer: every resource is
    a file server that speaks one protocol, aP (walk, open, read, write, stat,
    create, remove, clunk over fids), and every process sees the servers that
    were mounted into its own namespace. Authority is what is mounted and with
    which access; nothing else. This library models that substrate as the Rust
    code under [src/crates] writes it and proves the properties the rest of the
    system rests on.

    ** Parts, files and source

    - Prelude: results, the state-and-error monad, frame conditions
      ([step_rel]), invariants with a postcondition ([keeps]), triples, tactics
      and the hint database [alan].
    - RustStd: machine integers, bytes, strings, UTF-8, decimal printing and
      parsing, ordered maps, as the source uses them.
    - ApTypes: [ap/src/types.rs], [version.rs], [stream.rs].
    - ApServer: the [FileServer] trait and [InProcessTransport] of
      [ap/src/server.rs] with the requests and responses of [wire.rs]; the fid
      discipline [FidContract] that servers promise; the chunked write of an
      imported server.
    - ApReference: the in-memory reference server, [ap/src/reference.rs].
    - Namespace, NamespaceFacts: [kernel/src/namespace.rs], the mount table and
      its resolution, restriction and projection.
    - Process, ProcessFacts: [kernel/src/process.rs], exec specs, namespace
      manifests and the process table.
    - SrvFs: [kernel/src/srvfs.rs], the rendezvous device and its filtered views.
    - MountFs: [kernel/src/mountfs.rs] and [mountfs/walk_owner.rs], a namespace
      as one file server. MountFacts, MountBacking and MountWalk hold its
      theorems; MountWalk interleaves the critical sections of concurrent walks.
    - ProcFs: [kernel/src/procfs.rs] and [procfs/file_server.rs], the process
      device, its views, spawn and events. ProcFsFacts and ProcEvents hold its
      theorems.
    - Bootstrap: [kernel/src/bootstrap.rs], the boot namespace over the two
      devices.
    - Knowledge, KnowledgeFacts, KnowledgeGc: [knowledge/src/lib.rs], the
      content-addressed store: blocks, Merkle nodes, bound and pinned roots and
      garbage collection.
    - MemFs, MemFsFacts: [memfs/src/lib.rs], named documents over that store.
    - BranchFs: [branchfs/src/lib.rs], speculative branches over
      that store, committed through [ctl] and logged as events.
    - RustText: prefix stripping, splitting and trimming of text, Unix path
      components, JSON values and their accessors.
    - EditFs: [editfs/src/lib.rs], an editable buffer with
      revision-bound addresses and gated execution.
    - Policy, PolicyFacts: [agent-engine/src/policy.rs] and the part of
      [file_tree.rs] it reads, the policy that decides tool calls.
    - Tape, TapeFacts: [agent-engine/src/tape.rs] with the content parts of
      [agent-protocol/src/content.rs], the conversation an agent keeps, its
      context items, token estimates and compaction.
    - ApWire, ApWireFacts: [ap/src/wire.rs] and the wire client and the export
      loop of [ap/src/server.rs]: framed requests over a byte stream. The codec is
      the class [WireCodec] with its laws [WireCodecLaws]; [binary_codec] is an
      instance. ApImported, ApImportedFacts: the multiplexed connection of an
      imported server as a transition system, a step for each critical section.
    - RouteFs, RouteFsFacts: [routefs/src/lib.rs], the message router: rules,
      ports and the routed log.
    - Protocol: [agent-protocol/src/op.rs], [user_input.rs],
      [reasoning.rs] and the input-queue bindings: submissions and their records,
      with the serde parsers behind the classes [SubmissionSerde] and
      [SubmissionSerdeLaws] and an instance of them.
    - InputQueue: [runtime/input_queue.rs], [queue_publication.rs] and the queue
      primitives of [engine.rs], the durable queue of submitted work and its
      event log. QueueControls: [engine_queue_controls.rs], the capture of input
      and the request resolution of [request_controls.rs]. QueueFacts,
      QueueLedger, QueueRun and QueueKept hold their theorems.
    - MachineState, MachineFacts: [runtime/transition_state.rs],
      [runtime_control.rs] and the parts of [agent_machine.rs], [approval.rs] and
      [adaptive.rs] they work on: pending requests, the guardian's counters,
      rollback, the plan.
    - AgentFs, AgentFsFacts, AgentTape: [agentfs/src/lib.rs], [surface_state.rs],
      [request_control.rs] and [machine_projection.rs], the files of one agent: its
      streams, the tape with its checkpoint, requests and recorded actions.
    - RustChars: text as its characters, and Unix paths over it. BashSyntax,
      BashClassifier, BashFacts: [tools/src/bash_classifier], the capability a shell command is given.
      TextPathFacts holds the facts of those paths; the class [HostFs] stands for
      the host's file system.
    - SandboxSyntax, SandboxCommands, SandboxPaths, Sandbox, SandboxFacts:
      [agent-engine/src/tools/sandbox.rs], its [sandbox/] files and
      [sandbox_backend/seatbelt.rs], the guard every file access and command goes
      through, and the confined process a command becomes.
    - ReifiedPlan, ReifiedPlanFacts: [tools/reified_namespace/plan.rs], the view of
      the host a command of the Linux backend gets.
    - BootUnits: [service-manager/src/boot_unit.rs] and the documents of
      [system/boot], the system's services and the order they start in.
      ServiceManager: [control_fs.rs], which services run and the control tree.
      Supervisor, SupervisorFacts, BootRun: [runtime/supervisor.rs] and the boot
      loop of [runtime.rs]; each launch takes what the rest of the system answers.
    - HostMounts: [service-manager/src/host_mount.rs] and
      [host_mount/delegation.rs], directories of the host granted to processes;
      HostMountFs: [host_mount/file_server.rs], the view a process has of them.
      HostMountSteps interleaves the sections of all callers;
      HostMountGrants, HostMountRequests, HostMountReach, HostMountChild,
      HostMountTheorems and HostMountView hold the invariants and theorems, the
      last with a run of the service.
    - LlmProviders: [llmfs/src/provider_catalog.rs], [request_wire.rs] and the
      values of the crate [llm] they work on. LlmGen: [llmfs/src/generation.rs] and
      [generation/evaluation.rs], connections, generations and the steps of the
      calls and tasks that share one. LlmFs: [llmfs/src/lib.rs], the model file
      server, its narrowed views and snapshots. LlmGenFacts, LlmFacts and LlmViews
      hold the invariants and theorems, the last with a run of the server.
    ** How state and effects are modelled

    A server's state is a record with the fields of the Rust struct; a handler is
    a definition in the monad [Op S A], a function from a state to a state and a
    [result]: a value, an error code, [Park] (the call has no answer yet: a
    stream read at its live edge, or a bounded loop that ran out of fuel) or
    [Panic] (an index out of range, a failed assertion). The state is returned on
    every outcome because handlers mutate before they fail. Data behind an [Arc]
    is one store that all its users reach: the registry of all views of [/srv],
    the device of all views of [/proc], the live namespace of a handle.
    [MountFs] forwards to a world of trees through [tree_call]; what it relies on
    there is [BackingContract], which any family of [FidContract] servers and the
    kernel's own devices satisfy (instances [servers_contract] and
    [kernel_contract]).

    Parameters stand for code that is not in the repository: serde_json's parsers
    and printers, serde_yaml's and toml's parsers, SHA-256, Unicode lower-casing,
    floating-point scores, the host file system of the policy loader and of the
    sandbox, the
    unspecified algorithm of the standard library's default hasher and the
    iteration order of its hash maps, the outcomes of the engine's durable reads
    and writes, the answers of model providers, and the servers behind a namespace
    where a theorem speaks of all of them.

    ** What the theorems show

    Authority: restriction, projection and spawning never add authority
    ([restrict_never_escalates], [project_never_escalates],
    [spawn_within_grant]); a tree mounted read-only is never sent a mutating
    request ([read_only_mount_never_written]); names a view of [/srv] denies change
    nothing but the numbers of qids it is shown, and those only once it is shown a
    service posted later ([srv_denied_unobservable]); the boot root is the substrate only
    ([boot_root_is_substrate]).

    Fids: reference, rendezvous and process servers keep the fid discipline; a
    namespace holds exactly one backing fid for each of its own, and one for each
    remove a server refused, which it never releases, and releases all others
    ([connection_releases_fids]); a walk clunked in flight is never
    published, in any interleaving ([clunked_walk_never_published]).

    Processes: the table's invariant and the finality of a process record over
    every sequence of operations; spawn is all or nothing; a manifest restores
    the namespace it describes; input keeps message boundaries; observers get
    the whole history once, and those of all events or io what they missed first
    ([subscribers_see_history]); qid paths identify files.

    Resolution and listing: candidates are the mounts of longest prefix and
    [resolve] is the first of them; mount points are listed exactly; a listing is
    read to its end.

    Content: after any sequence of operations every bound root of the store reads
    its exact contents, a collection keeps exactly what the roots reach, a root
    hash authenticates what it reads in any store, and the graph walks return on
    every store. The memory server refines a table of documents and a stale
    writer never commits; the branch server's event stream replays to its table,
    with exactly one branch selected; an address of the editor executes the text
    it designated when it was read, or nothing. Statements about stored bytes
    assume no SHA-256 collision among the byte strings involved, and say so.

    Policy: exactly which calls the built-in policy approves without a human, that
    a policy file which is named or present is used or everything is denied, and
    that a directory prefix matches by whole path components.

    Conversation: a compaction keeps whole recent turns and never separates the tool
    results directly after a request from it ([compaction_keeps_recent_turns],
    [compaction_keeps_tool_blocks]); cached token estimates are exact; the prompt
    shows the context items applied last.

    Wire: how a stream is cut into chunks is unobservable
    ([framing_ignores_chunking]); a call whose frames are within the size limit is the
    call in process ([wire_call_is_in_process]); a client that failed stays refused; on a
    multiplexed connection every call returns, with the response to its own tag
    ([imported_calls_return], [response_reaches_its_caller]).

    Routing: every accepted message is in the log and in exactly one port, once,
    under the first rule that matches it; a fid that observed an older rule cannot
    change the newer one.

    Durable input: replaying the log of a queue restores every submission that was
    acknowledged and not settled, and none that was settled
    ([recovery_restores_unsettled]), and under
    the engine's own operations a submission leaves the queue only by being
    settled or by an explicit control ([queued_input_never_lost]).

    Machine state: the pending requests are an ordered list with one entry for
    each identifier ([pending_requests_refine_list]); the guardian stops a turn at
    exactly its thresholds ([guardian_trips_exactly]); a rollback removes exactly
    the last turns ([rollback_removes_last_turns]); the plan a compaction shows
    keeps its position ([plan_position_survives_compaction]).

    Agent files: the checkpoint of the tape materializes to exactly what the
    holders of its write lease wrote ([tape_checkpoint_is_tape]), and there is one
    holder at a time ([tape_has_one_writer]); a settled request is final
    while the numbers of requests last ([settled_request_is_final]); a recorded action output reads back until its
    own expiry ([recorded_output_kept]).

    Commands: the scanner that cuts a command into fragments is the grammar's
    ([split_matches_grammar]); a command has the strongest capability of its fragments
    ([command_capability_is_strongest]); the guard returns on every command
    ([guard_fuel_enough]) and starts only what passed all its tests
    ([started_command_checked]). What the classifier and the tests miss is shown by
    examples ([reads_that_write], [dots_through_missing_directory_accepted],
    [read_only_grant_runs_removal]): neither is claimed to confine a command.

    Native view: in a derived plan mounts do not overlap, writable ones stay apart from
    read-only ones and from the execution substrate, and no mount covers the scratch
    ([plan_keeps_grants_apart]); paths of the host are translated
    through the deepest mount ([translation_is_deepest_mount]); a private directory
    is always found ([private_environment_is_free]).

    Services: there is a start order exactly if no services wait for each other
    ([boot_order_exists_unless_deadlock]); boot comes to a service when what it
    depends on is ready and always ends ([boot_starts_after_dependencies],
    [boot_ends]); supervision keeps every service within its restart budget and its
    handles published only while it runs ([supervision_within_budget]); the backoff
    doubles up to its maximum ([backoff_doubles]).

    Host mounts: a process reaches the trees of active grants it holds only, with no
    more access than granted, unless it or a forebear was registered with mounts
    copied from a parent that was gone ([processes_reach_active_grants_only], whose
    [callers_ok] says what the callers of the service guarantee, and
    [orphan_keeps_revoked_grant]); a request is decided once and grants are
    those of approved requests ([requests_are_decided_once]); a child gets what its
    parent may pass on and nothing else ([child_gets_what_was_delegated]); the
    projections of a process are apart ([projections_stay_apart]) and tools run under
    the one that contains their directory ([reconcile_follows_active_grants]); the
    view of a process is confined to its requests ([process_view_is_isolated]).

    Models: a generation ends once, with the one record of how it ended
    ([generation_ends_once]), and calls its provider at most once
    ([provider_called_once]); an abort goes through without the provider
    ([abort_needs_no_provider]); a connection starts no more than its limits allow,
    through whatever names, views and snapshots ([starts_within_limits]); of the
    generations that ended the newest are kept ([reaping_keeps_newest]); a narrowed
    view is confined to its connections ([narrowed_view_is_confined]).
    ** Bounds and fuel

    Loops that end only when a peer says so take fuel: [read_all] (a chunk more
    than the listing needs suffices, [read_all_whole]) and [collect_output].
    The walks of the knowledge graph take one level of fuel per stored node and
    one more, which always suffices ([graph_walks_terminate]). The span loop of
    the tape takes the number of messages as fuel; each round consumes one. The
    loops over wrapped commands take a turn for each word, the path guard a level
    for each character of the command and the AWK scanner a turn for each character
    ([wrapped_command_found], [guard_fuel_enough], [awk_fuel_enough]). The loops of
    booting take a script of answers, one for each launch, and say so when it runs
    out; one launch more than the restart limit is enough ([boot_ends]).
    Machine-width arithmetic is written out where the code relies on it (u32
    versions wrap, buffer offsets are checked at 64 bits, the number of an agent's next
    request wraps at 64 bits since a restored request can bring it there); the other
    allocators of 64-bit identifiers, which only count up from their start (pids, view
    ids, backing fids, qid paths, file generations, revisions, actions of an agent,
    generations), are not wrapped.

    ** Not modelled

    Tokio's scheduler and locks are modelled by critical sections in MountWalk,
    ApImported, HostMountSteps and LlmGen, by the sections and single deliveries of
    ProcFs's events, and by whole handlers elsewhere; timeouts
    by abandoning a call that has no answer, or as an event of their own. The wire's
    JSON text is behind the codec's laws. The clients of model providers, the host
    file server, the engine's turn loop, prompt assembly, tool runtime and rollout
    file format, the packages and connections of the service manager and the front
    ends are not modelled. The two functions of the sandbox
    over the tree-sitter parser, the kernel rulesets and the processes it starts are
    the operating system's and other packages'. *)
From stdpp Require Export base list gmap strings sorting.
From Stdlib Require Export ZArith Lia.
From Stdlib Require Export Strings.Byte Strings.Ascii.

Open Scope Z_scope.

(** ** Results, parked calls and the state-and-error monad *)

(** The outcome of polling an operation: a value, an error, [Park] when the
    call has no answer yet (a stream read at its live edge), or [Panic] when
    the Rust code panics (an index out of range, a failed [assert!]). *)
Inductive result (E A : Type) : Type :=
  | Ok (a : A)
  | Err (e : E)
  | Park
  | Panic.
Arguments Ok {_ _} _.
Arguments Err {_ _} _.
Arguments Park {_ _}.
Arguments Panic {_ _}.

(** An operation on a state [S] that may fail with an [E]. The state is
    returned on every outcome: the code mutates before it fails in places. *)
Definition M (S E A : Type) : Type := S → S * result E A.

Section monad.
Context {S E : Type}.

Global Instance m_ret : MRet (M S E) := λ A a s, (s, Ok a).
Global Instance m_bind : MBind (M S E) := λ A B f m s,
  match m s with
  | (s', Ok a) => f a s'
  | (s', Err e) => (s', Err e)
  | (s', Park) => (s', Park)
  | (s', Panic) => (s', Panic)
  end.

Definition mfail {A} (e : E) : M S E A := λ s, (s, Err e).
Definition mget : M S E S := λ s, (s, Ok s).
Definition mmodify (f : S → S) : M S E unit := λ s, (f s, Ok tt).
(** [o.ok_or(e)?] *)
Definition mlift {A} (o : option A) (e : E) : M S E A := λ s,
  match o with Some a => (s, Ok a) | None => (s, Err e) end.
(** [v[i]]: an index out of range panics *)
Definition mindex {A} (o : option A) : M S E A := λ s,
  match o with Some a => (s, Ok a) | None => (s, Panic) end.
(** [r?] for a pure fallible computation *)
Definition mresult {A} (r : result E A) : M S E A := λ s, (s, r).
(** The outcome of [m] as a value, as [m.await] without [?] gives it. *)
Definition mtry {A} (m : M S E A) : M S E (result E A) := λ s,
  match m s with
  | (s', Ok a) => (s', Ok (Ok a))
  | (s', Err e) => (s', Ok (Err e))
  | (s', Park) => (s', Park)
  | (s', Panic) => (s', Panic)
  end.
(** [tokio::time::timeout]: a call that has no answer yet is abandoned. *)
Definition with_timeout {A} (m : M S E A) : M S E (option (result E A)) := λ s,
  match m s with
  | (s', Ok a) => (s', Ok (Some (Ok a)))
  | (s', Err e) => (s', Ok (Some (Err e)))
  | (s', Park) => (s', Ok None)
  | (s', Panic) => (s', Panic)
  end.

(** One step of a run *)
Lemma run_get {A} (f : S → M S E A) s : (mget ≫= f) s = f s s.
Proof. done. Qed.
Lemma run_try {A B} (m : M S E A) (f : result E A → M S E B) s :
  (mtry m ≫= f) s = match m s with
                    | (s', Ok a) => f (Ok a) s'
                    | (s', Err e) => f (Err e) s'
                    | (s', Park) => (s', Park)
                    | (s', Panic) => (s', Panic)
                    end.
Proof. unfold mtry, mbind, m_bind. by destruct (m s) as [s' []]. Qed.
End monad.

(** [Option::ok_or] and [Result::map] on values *)
Definition ok_or {E A} (o : option A) (e : E) : result E A :=
  match o with Some a => Ok a | None => Err e end.
Definition result_map {E A B} (f : A → B) (r : result E A) : result E B :=
  match r with Ok a => Ok (f a) | Err e => Err e | Park => Park | Panic => Panic end.
Definition map_err {E E' A} (f : E → E') (r : result E A) : result E' A :=
  match r with Ok a => Ok a | Err e => Err (f e) | Park => Park | Panic => Panic end.
Definition is_ok {E A} (r : result E A) : bool :=
  match r with Ok _ => true | _ => false end.

(** [Result::ok] *)
Definition result_ok {E A} (r : result E A) : option A :=
  match r with Ok a => Some a | _ => None end.

Global Instance result_eq_dec {E A} `{EqDecision E, EqDecision A} :
  EqDecision (result E A).
Proof. solve_decision. Defined.

(** [Option::is_some] as a test *)
Definition isSome {A} (o : option A) : bool :=
  match o with Some _ => true | None => false end.

Lemma isSome_true {A} (o : option A) : isSome o = true ↔ is_Some o.
Proof. destruct o; simpl; split; intros H; try done; by destruct H. Qed.
Lemma isSome_false {A} (o : option A) : isSome o = false ↔ o = None.
Proof. by destruct o. Qed.

(** ** Lists *)

Lemma list_filter_fmap {A B} (f : A → B) (P : B → Prop) `{!∀ x, Decision (P x)}
    (l : list A) :
  filter P (f <$> l) = f <$> filter (λ x, P (f x)) l.
Proof.
  induction l as [|x l IH]; [done|].
  rewrite fmap_cons, !filter_cons, IH. by case_decide.
Qed.

Lemma NoDup_fmap_filter {A B} (f : A → B) (P : A → Prop) `{!∀ x, Decision (P x)}
    (l : list A) :
  NoDup (f <$> l) → NoDup (f <$> filter P l).
Proof.
  induction l as [|x l IH]; [done|]. rewrite fmap_cons, filter_cons, NoDup_cons.
  intros [Hx Hl]. case_decide; [|auto]. rewrite fmap_cons, NoDup_cons. split; [|auto].
  intros (y & Hy & Hin)%list_elem_of_fmap. apply Hx. rewrite Hy.
  apply list_elem_of_fmap_2. by apply list_elem_of_filter in Hin as [_ Hin].
Qed.

(** ** Automation *)

Create HintDb alan.

(** Unfold the monad and reduce. *)
Ltac munfold :=
  unfold mbind, m_bind, mret, m_ret, mfail, mget, mmodify, mlift, mindex, mresult in *;
  simpl in *.

(** Unfold the monad in the goal without simplifying the code it runs. *)
Ltac mrun :=
  unfold mbind, m_bind, mret, m_ret, mfail, mget, mmodify, mlift, mindex, mresult;
  cbv beta iota zeta.

(** Case split on every test of an unfolded handler. *)
Ltac mcases :=
  munfold;
  repeat (case_match; simplify_eq/=).

(** Turn boolean tests in the context into propositions. *)
Ltac bool_facts :=
  repeat match goal with
  | H : bool_decide _ = true |- _ => apply bool_decide_eq_true in H
  | H : bool_decide _ = false |- _ => apply bool_decide_eq_false in H
  | H : _ || _ = true |- _ => apply orb_true_iff in H
  | H : _ || _ = false |- _ => apply orb_false_iff in H; destruct H
  | H : _ && _ = true |- _ => apply andb_true_iff in H; destruct H
  | H : _ && _ = false |- _ => apply andb_false_iff in H
  | H : negb _ = true |- _ => apply negb_true_iff in H
  | H : negb _ = false |- _ => apply negb_false_iff in H
  | H : isSome _ = true |- _ => apply isSome_true in H
  | H : isSome _ = false |- _ => apply isSome_false in H
  | H : (_ <? _) = true |- _ => apply Z.ltb_lt in H
  | H : (_ <? _) = false |- _ => apply Z.ltb_ge in H
  | H : (_ <=? _) = true |- _ => apply Z.leb_le in H
  | H : (_ <=? _) = false |- _ => apply Z.leb_gt in H
  | H : (_ =? _) = true |- _ => apply Z.eqb_eq in H
  | H : (_ =? _) = false |- _ => apply Z.eqb_neq in H
  end.

(** ** Frame conditions of operations

    [step_rel R m]: whatever its outcome, [m] relates the state before to the
    state after by [R]. With [R] equality this says that [m] only reads; with
    [R s s' := inv s → inv s'] that [m] preserves an invariant. *)
Section step_rel.
Context {S E : Type} (R : relation S).

Definition step_rel {A} (m : M S E A) : Prop := ∀ s, R s (m s).1.

Context `{!PreOrder R}.

Lemma step_ret {A} (a : A) : step_rel (mret a).
Proof. intros s. reflexivity. Qed.
Lemma step_fail {A} e : step_rel (A := A) (mfail e).
Proof. intros s. reflexivity. Qed.
Lemma step_get : step_rel mget.
Proof. intros s. reflexivity. Qed.
Lemma step_lift {A} (o : option A) e : step_rel (mlift o e).
Proof. intros s. unfold mlift. destruct o; reflexivity. Qed.
Lemma step_index {A} (o : option A) : step_rel (mindex o).
Proof. intros s. unfold mindex. destruct o; reflexivity. Qed.
Lemma step_result {A} (r : result E A) : step_rel (mresult r).
Proof. intros s. reflexivity. Qed.
Lemma step_modify f : (∀ s, R s (f s)) → step_rel (mmodify f).
Proof. intros Hf s. apply Hf. Qed.
Lemma step_bind {A B} (m : M S E A) (f : A → M S E B) :
  step_rel m → (∀ a, step_rel (f a)) → step_rel (m ≫= f).
Proof.
  intros Hm Hf s. specialize (Hm s). unfold mbind, m_bind.
  destruct (m s) as [s' [a|e| |]]; simpl in *; [|done..].
  etrans; [exact Hm|apply Hf].
Qed.

Lemma step_try {A} (m : M S E A) : step_rel m → step_rel (mtry m).
Proof. intros Hm s. specialize (Hm s). unfold mtry. by destruct (m s) as [s' []]. Qed.

Lemma step_rel_elim {A} (m : M S E A) s s' r :
  step_rel m → m s = (s', r) → R s s'.
Proof. intros Hm Hs. specialize (Hm s). by rewrite Hs in Hm. Qed.
End step_rel.

Global Hint Resolve step_ret step_fail step_get step_lift step_index
  step_result step_try : alan.

(** Walk through an operation's binds, branches and matches. *)
Ltac msteps :=
  repeat first
    [ solve [eauto with alan typeclass_instances]
    | apply step_bind; [by apply _| |intros ?]
    | match goal with
      | |- step_rel _ (match ?x with _ => _ end) => destruct x
      end ].

(** Use the read-only facts of the hint database: identify the states around
    every call that only reads. *)
Ltac frame_reads :=
  repeat match goal with
  | H : ?m ?s = (?s', ?r) |- _ =>
      is_var s';
      let Hs := fresh in
      assert (s = s') as Hs
        by (refine (step_rel_elim (=) m s s' r _ H); solve [eauto with alan]);
      first [subst s' | subst s]
  end.

(** ** Invariants with a postcondition

    [keeps I m φ]: from a state in [I] the operation ends in [I] on every
    outcome, and a value it returns satisfies [φ]. *)
Section keeps.
Context {S E : Type} (I : S → Prop).

Definition keeps {A} (m : M S E A) (φ : A → Prop) : Prop := ∀ s, I s →
  I (m s).1 ∧ match (m s).2 with Ok a => φ a | _ => True end.

Lemma keeps_ret {A} (a : A) (φ : A → Prop) : φ a → keeps (mret a) φ.
Proof. by intros Ha s Hs. Qed.
Lemma keeps_fail {A} e (φ : A → Prop) : keeps (mfail e) φ.
Proof. by intros s Hs. Qed.
Lemma keeps_get : keeps mget I.
Proof. by intros s Hs. Qed.
Lemma keeps_lift {A} (o : option A) e : keeps (mlift o e) (λ a, o = Some a).
Proof. intros s Hs. unfold mlift. by destruct o. Qed.
Lemma keeps_index {A} (o : option A) : keeps (mindex o) (λ a, o = Some a).
Proof. intros s Hs. unfold mindex. by destruct o. Qed.
Lemma keeps_result {A} (r : result E A) : keeps (mresult r) (λ a, r = Ok a).
Proof. intros s Hs. unfold mresult. by destruct r. Qed.
Lemma keeps_modify f : (∀ s, I s → I (f s)) → keeps (mmodify f) (λ _, True).
Proof. intros Hf s Hs. split; [by apply Hf|done]. Qed.
Lemma keeps_bind {A B} (m : M S E A) (f : A → M S E B) φ ψ :
  keeps m φ → (∀ a, φ a → keeps (f a) ψ) → keeps (m ≫= f) ψ.
Proof.
  intros Hm Hf s Hs. destruct (Hm s Hs) as [Hs' Ha]. unfold mbind, m_bind.
  destruct (m s) as [s' [a|e| |]]; simpl in *; [|done..]. by apply Hf.
Qed.
Lemma keeps_weaken {A} (m : M S E A) (φ ψ : A → Prop) :
  keeps m φ → (∀ a, φ a → ψ a) → keeps m ψ.
Proof.
  intros Hm Hw s Hs. destruct (Hm s Hs) as [Hs' Ha]. split; [done|].
  destruct (m s).2; auto.
Qed.
Lemma keeps_try {A} (m : M S E A) φ :
  keeps m φ → keeps (mtry m) (λ r, match r with Ok a => φ a | _ => True end).
Proof.
  intros Hm s Hs. destruct (Hm s Hs) as [Hs' Ha]. unfold mtry.
  by destruct (m s) as [s' []].
Qed.
Lemma keeps_timeout {A} (m : M S E A) φ :
  keeps m φ → keeps (with_timeout m) (λ _, True).
Proof.
  intros Hm s Hs. destruct (Hm s Hs) as [Hs' Ha]. unfold with_timeout.
  by destruct (m s) as [s' []].
Qed.
End keeps.

(** Walk through an operation, taking the postcondition of each step from the
    hint database or by trying the rules above. *)
Ltac ksteps :=
  repeat first
    [ solve [eauto with alan]
    | apply keeps_fail
    | apply keeps_ret; first [done | assumption | idtac]
    | (eapply keeps_weaken; [apply keeps_result|done])
    | match goal with
      | |- keeps _ (match ?x with _ => _ end) _ => destruct x eqn:?
      | |- keeps _ (mmodify _) _ =>
          eapply keeps_weaken; [apply keeps_modify|done]
      | |- keeps _ mget _ => eapply keeps_weaken; [apply keeps_get|done]
      | |- keeps _ (mget ≫= _) _ => eapply keeps_bind; [apply keeps_get|intros ? ?; cbv beta in *]
      | |- keeps _ (mlift _ _ ≫= _) _ => eapply keeps_bind; [apply keeps_lift|intros ? ?; cbv beta in *]
      | |- keeps _ (mindex _ ≫= _) _ => eapply keeps_bind; [apply keeps_index|intros ? ?; cbv beta in *]
      | |- keeps _ (mresult _ ≫= _) _ =>
          eapply keeps_bind; [apply keeps_result|intros ? ?; cbv beta in *]
      | |- keeps _ (mmodify _ ≫= _) _ => eapply keeps_bind; [apply keeps_modify|intros ? ?; cbv beta in *]
      | |- keeps _ (mtry _ ≫= _) _ =>
          eapply keeps_bind; [apply keeps_try; solve [eauto with alan]|intros ? ?; cbv beta in *]
      | |- keeps _ (with_timeout _ ≫= _) _ =>
          eapply keeps_bind; [eapply keeps_timeout; solve [eauto with alan]|intros ? ?; cbv beta in *]
      | |- keeps _ ((match ?x with _ => _ end) ≫= _) _ => destruct x eqn:?
      | |- keeps ?I (mret ?a ≫= ?f) ?φ => change (keeps I (f a) φ); cbv beta
      | |- keeps _ (_ ≫= _) _ => eapply keeps_bind; [solve [eauto with alan]|intros ? ?; cbv beta in *]
      end ].

(** ** Hoare triples of completed operations

    [triple P m Q X]: from a state in [P] a value leaves a state in [Q] and an
    error one in [X]. A parked call and a panic are not completed. *)
Section triple.
Context {S E : Type}.

Definition triple {A} (P : S → Prop) (m : M S E A) (Q : A → S → Prop)
    (X : E → S → Prop) : Prop :=
  ∀ s, P s → match m s with
             | (s', Ok a) => Q a s'
             | (s', Err e) => X e s'
             | _ => True
             end.

Lemma triple_ret {A} (a : A) (P : S → Prop) (Q : A → S → Prop) X :
  (∀ s, P s → Q a s) → triple P (mret a) Q X.
Proof. intros H s Hs. by apply H. Qed.
Lemma triple_fail {A} e (P : S → Prop) (Q : A → S → Prop) (X : E → S → Prop) :
  (∀ s, P s → X e s) → triple P (mfail e) Q X.
Proof. intros H s Hs. by apply H. Qed.
Lemma triple_get P X : triple P mget (λ a s, a = s ∧ P s) X.
Proof. by intros s Hs. Qed.
Lemma triple_lift {A} (o : option A) e (P : S → Prop) (X : E → S → Prop) :
  (o = None → ∀ s, P s → X e s) →
  triple P (mlift o e) (λ a s, o = Some a ∧ P s) X.
Proof. intros H s Hs. unfold mlift. destruct o; [done|]. by apply H. Qed.
Lemma triple_index {A} (o : option A) (P : S → Prop) X :
  triple P (mindex o) (λ a s, o = Some a ∧ P s) X.
Proof. intros s Hs. unfold mindex. by destruct o. Qed.
Lemma triple_modify f (P : S → Prop) (Q : unit → S → Prop) X :
  (∀ s, P s → Q tt (f s)) → triple P (mmodify f) Q X.
Proof. intros H s Hs. by apply H. Qed.
Lemma triple_bind {A B} (m : M S E A) (f : A → M S E B) P R Q X :
  triple P m R X → (∀ a, triple (R a) (f a) Q X) → triple P (m ≫= f) Q X.
Proof.
  intros Hm Hf s Hs. specialize (Hm s Hs). unfold mbind, m_bind.
  destruct (m s) as [s' [a|e| |]]; try done. by apply Hf.
Qed.
Lemma triple_weaken {A} (m : M S E A) (P P' : S → Prop) (Q Q' : A → S → Prop)
    (X X' : E → S → Prop) :
  triple P m Q X → (∀ s, P' s → P s) → (∀ a s, Q a s → Q' a s) →
  (∀ e s, X e s → X' e s) → triple P' m Q' X'.
Proof.
  intros Hm HP HQ HX s Hs. specialize (Hm s (HP s Hs)).
  destruct (m s) as [s' []]; auto.
Qed.
Lemma triple_try {A} (m : M S E A) P Q X X' :
  triple P m Q X →
  triple P (mtry m)
    (λ r s, match r with Ok a => Q a s | Err e => X e s | _ => False end) X'.
Proof.
  intros Hm s Hs. specialize (Hm s Hs). unfold mtry. by destruct (m s) as [s' []].
Qed.
(** Facts known of the state before can be fixed first. *)
Lemma triple_pure {A} (φ : Prop) (m : M S E A) (P : S → Prop) Q X :
  (φ → triple P m Q X) → triple (λ s, φ ∧ P s) m Q X.
Proof. intros Hm s [Hφ Hs]. by apply Hm. Qed.
Lemma triple_elim {A} (m : M S E A) (P : S → Prop) Q X s s' r :
  triple P m Q X → P s → m s = (s', r) →
  match r with Ok a => Q a s' | Err e => X e s' | _ => True end.
Proof. intros Hm Hs Hr. specialize (Hm s Hs). rewrite Hr in Hm. by destruct r. Qed.
End triple.
