(* ===== verification/RustStd.v ===== *)
(** * The parts of Rust's core library the modelled crates use

    Fixed-width integers, byte vectors ([Vec<u8>]), strings, path splitting
    and joining, decimal printing and parsing, ordered-map key listings.
    A Rust [String] is a byte string; [usize] is 64 bits wide, as on every
    target the crates are built for. *)
From S2P Require Import Prelude.

(** ** Machine integers *)

Definition u8_size : Z := 2 ^ 8.
Definition u32_size : Z := 2 ^ 32.
Definition u64_size : Z := 2 ^ 64.
Definition u32_max : Z := u32_size - 1.
Definition usize_max : Z := u64_size - 1.

(** [u32::wrapping_add] *)
Definition wrapping_add32 (a b : Z) : Z := (a + b) mod u32_size.
(** [u64::wrapping_add] *)
Definition wrapping_add64 (a b : Z) : Z := (a + b) mod u64_size.
(** [x as u32] for a non-negative [x] *)
Definition as_u32 (a : Z) : Z := a mod u32_size.
(** [usize::checked_add] and [u64::checked_add] *)
Definition checked_add64 (a b : Z) : option Z :=
  if a + b <=? usize_max then Some (a + b) else None.
(** [usize::saturating_add] *)
Definition saturating_add64 (a b : Z) : Z := Z.min (a + b) usize_max.
(** [usize::try_from(x : u64)] on a 64-bit target *)
Definition usize_try_from (a : Z) : option Z :=
  if a <=? usize_max then Some a else None.

Lemma wrapping_add32_distinct v :
  0 ≤ v < u32_size → wrapping_add32 v 1 ≠ v.
Proof.
  unfold wrapping_add32, u32_size. intros Hv.
  destruct (decide (v = 2 ^ 32 - 1)) as [->|]; [by vm_compute|].
  rewrite Z.mod_small; lia.
Qed.

Lemma wrapping_add32_range a b : 0 ≤ wrapping_add32 a b < u32_size.
Proof. apply Z.mod_pos_bound. done. Qed.

(** ** Byte vectors *)

Abbreviation bytes := (list byte).

Global Instance byte_eq_dec : EqDecision byte := Byte.byte_eq_dec.

Definition len (b : bytes) : Z := Z.of_nat (length b).
Definition newline : byte := x0a.

(** [s.into_bytes()] and its inverse on byte strings *)
Definition into_bytes (s : string) : bytes := String.list_byte_of_string s.
Definition of_bytes (b : bytes) : string := String.string_of_list_byte b.

Lemma of_into_bytes s : of_bytes (into_bytes s) = s.
Proof. apply String.string_of_list_byte_of_string. Qed.
Lemma into_of_bytes b : into_bytes (of_bytes b) = b.
Proof. apply String.list_byte_of_string_of_list_byte. Qed.

Global Instance into_bytes_inj : Inj (=) (=) into_bytes.
Proof. intros s1 s2 H. by rewrite <-(of_into_bytes s1), H, of_into_bytes. Qed.

Lemma len_nonneg b : 0 ≤ len b.
Proof. unfold len. lia. Qed.
Lemma len_app a b : len (a ++ b) = len a + len b.
Proof. unfold len. rewrite length_app. lia. Qed.
Lemma len_nil : len [] = 0.
Proof. done. Qed.
Global Hint Resolve len_nonneg : alan.

(** [bytes[from..to].to_vec()] for in-range bounds *)
Definition sub_range (b : bytes) (from to : Z) : bytes :=
  take (Z.to_nat (to - from)) (drop (Z.to_nat from) b).

(** The [slice] helper every aP server ends its [read] with:
    [start = min(offset, len)], [end = min(len, start + count)]. *)
Definition slice (b : bytes) (offset count : Z) : bytes :=
  let start := Z.min offset (len b) in
  let stop := Z.min (len b) (start + count) in
  sub_range b start stop.

(** [if buf.len() < end { buf.resize(end, 0) }
     buf[start..end].copy_from_slice(data)] with [end = start + data.len()]. *)
Definition resize_to (b : bytes) (n : Z) : bytes :=
  if len b <? n then b ++ replicate (Z.to_nat (n - len b)) x00 else b.
Definition splice (b : bytes) (start : Z) (data : bytes) : bytes :=
  let b' := resize_to b (start + len data) in
  take (Z.to_nat start) b' ++ data ++ drop (Z.to_nat (start + len data)) b'.

Section slice_facts.
Implicit Types b data : bytes.

Lemma slice_length b offset count :
  0 ≤ offset → 0 ≤ count →
  len (slice b offset count) = Z.min count (Z.max 0 (len b - offset)).
Proof.
  intros Ho Hc. unfold slice, sub_range, len.
  rewrite length_take, length_drop. lia.
Qed.

Lemma slice_past_end b offset count :
  len b ≤ offset → slice b offset count = [].
Proof.
  intros Ho. unfold slice, sub_range.
  rewrite drop_ge; [by rewrite take_nil|]. unfold len in *. lia.
Qed.

Lemma slice_all b count : len b ≤ count → slice b 0 count = b.
Proof.
  intros Hc. unfold slice, sub_range. pose proof (len_nonneg b).
  replace (Z.min 0 (len b)) with 0 by lia.
  rewrite drop_0. apply take_ge. unfold len in *. lia.
Qed.

(** Two adjacent reads return what one long read does. *)
Lemma slice_app b offset c1 c2 :
  0 ≤ offset → 0 ≤ c1 → 0 ≤ c2 →
  slice b offset c1 ++ slice b (offset + c1) c2 = slice b offset (c1 + c2).
Proof.
  intros Ho H1 H2. unfold slice, sub_range, len.
  set (n := length b).
  assert (Z.of_nat n = Z.of_nat (length b)) by done.
  destruct (decide (offset + c1 ≤ Z.of_nat n)).
  - replace (Z.to_nat (Z.min (offset + c1) (Z.of_nat n)))
      with (Z.to_nat (Z.min offset (Z.of_nat n)) + Z.to_nat c1)%nat by lia.
    rewrite <-drop_drop.
    replace (Z.to_nat (Z.min (Z.of_nat n) (Z.min offset (Z.of_nat n) + c1)
               - Z.min offset (Z.of_nat n)))
      with (Z.to_nat c1) by lia.
    rewrite take_take_drop. f_equal. lia.
  - rewrite (drop_ge _ (Z.to_nat (Z.min (offset + c1) _))) by lia.
    rewrite take_nil, app_nil_r. f_equal. lia.
Qed.

Lemma resize_to_length b n : 0 ≤ n → len (resize_to b n) = Z.max (len b) n.
Proof.
  intros Hn. unfold resize_to. case_match; bool_facts; [|lia].
  rewrite len_app. unfold len at 2. rewrite length_replicate.
  pose proof (len_nonneg b). lia.
Qed.

Lemma splice_length b start data :
  0 ≤ start → len (splice b start data) = Z.max (len b) (start + len data).
Proof.
  intros Hs. unfold splice. pose proof (len_nonneg data).
  pose proof (resize_to_length b (start + len data)) as Hl.
  rewrite !len_app. unfold len in *. rewrite length_take, length_drop. lia.
Qed.

(** What a write stored is what a read at the same offset returns. *)
Lemma slice_splice b start data :
  0 ≤ start → slice (splice b start data) start (len data) = data.
Proof.
  intros Hs. unfold slice. rewrite splice_length by done.
  pose proof (len_nonneg data). pose proof (len_nonneg b).
  rewrite (Z.min_l start), Z.min_r by lia.
  unfold sub_range, splice.
  pose proof (resize_to_length b (start + len data)) as Hl.
  rewrite drop_app_ge.
  2:{ rewrite length_take. lia. }
  rewrite length_take. unfold len in *.
  replace (Z.to_nat start - _)%nat with 0%nat by lia. rewrite drop_0.
  rewrite take_app_le by lia. apply take_ge. lia.
Qed.

(** Writing at the end of a buffer appends. *)
Lemma splice_append b data : splice b (len b) data = b ++ data.
Proof.
  unfold splice, resize_to. pose proof (len_nonneg data).
  destruct (Z.ltb_spec (len b) (len b + len data)).
  - rewrite take_app_le by (unfold len; lia).
    rewrite take_ge by (unfold len; lia).
    rewrite drop_ge, app_nil_r; [done|].
    rewrite length_app, length_replicate. unfold len in *. lia.
  - assert (data = []) as -> by (apply nil_length_inv; unfold len in *; lia).
    rewrite drop_ge, take_ge by (unfold len; simpl; lia). done.
Qed.

(** A write does not change bytes outside its range. *)
Lemma splice_lookup_before b start data i :
  0 ≤ start → Z.of_nat i < start → Z.of_nat i < len b →
  splice b start data !! i = b !! i.
Proof.
  intros Hs Hi Hb. unfold splice.
  pose proof (resize_to_length b (start + len data)) as Hl.
  pose proof (len_nonneg data).
  rewrite lookup_app_l.
  2:{ rewrite length_take. unfold len in *. lia. }
  rewrite lookup_take_lt by lia. unfold resize_to.
  case_match; [|done]. rewrite lookup_app_l; [done|]. unfold len in *. lia.
Qed.

Lemma splice_lookup_after b start data i :
  0 ≤ start → start + len data ≤ Z.of_nat i →
  splice b start data !! i = b !! i.
Proof.
  intros Hs Hi. unfold splice.
  pose proof (resize_to_length b (start + len data)) as Hl.
  pose proof (len_nonneg data).
  rewrite lookup_app_r.
  2:{ rewrite length_take. unfold len in *. lia. }
  rewrite length_take, lookup_app_r by (unfold len in *; lia).
  rewrite lookup_drop.
  replace (Z.to_nat (start + len data) + _)%nat with i by (unfold len in *; lia).
  unfold resize_to. case_match; [|done]. bool_facts.
  rewrite (lookup_ge_None_2 b) by (unfold len in *; lia).
  apply lookup_ge_None_2. rewrite length_app, length_replicate.
  unfold len in *. lia.
Qed.

Lemma splice_lookup_inside b start data i :
  0 ≤ start → start ≤ Z.of_nat i < start + len data →
  splice b start data !! i = data !! (i - Z.to_nat start)%nat.
Proof.
  intros Hs Hi. unfold splice.
  pose proof (resize_to_length b (start + len data)) as Hl.
  rewrite lookup_app_r.
  2:{ rewrite length_take. unfold len in *. lia. }
  rewrite length_take, lookup_app_l by (unfold len in *; lia).
  f_equal. unfold len in *. lia.
Qed.

Lemma splice_lookup_gap b start data i :
  0 ≤ start → Z.of_nat i < start → len b ≤ Z.of_nat i →
  splice b start data !! i = Some x00.
Proof.
  intros Hs Hi Hb. unfold splice.
  pose proof (resize_to_length b (start + len data)) as Hl.
  pose proof (len_nonneg data).
  rewrite lookup_app_l.
  2:{ rewrite length_take. unfold len in *. lia. }
  rewrite lookup_take_lt by lia. unfold resize_to.
  case_match; bool_facts; [|unfold len in *; lia].
  rewrite lookup_app_r by (unfold len in *; lia).
  apply lookup_replicate_2. unfold len in *. lia.
Qed.

(** Two adjacent writes store what one long write does. *)
Lemma splice_adjacent b start a c :
  0 ≤ start →
  splice (splice b start a) (start + len a) c = splice b start (a ++ c).
Proof.
  intros Hs. apply list_eq. intros i.
  pose proof (len_nonneg a). pose proof (len_nonneg c).
  pose proof (splice_length b start a Hs) as Hl.
  pose proof (len_app a c) as Hac.
  destruct (decide (Z.of_nat i < start)).
  { rewrite splice_lookup_before by lia.
    destruct (decide (Z.of_nat i < len b)).
    - by rewrite !splice_lookup_before by lia.
    - by rewrite !splice_lookup_gap by lia. }
  destruct (decide (start + len (a ++ c) ≤ Z.of_nat i)).
  { by rewrite !splice_lookup_after by lia. }
  rewrite (splice_lookup_inside b start (a ++ c)) by lia.
  destruct (decide (Z.of_nat i < start + len a)).
  - rewrite splice_lookup_before, splice_lookup_inside by lia.
    rewrite lookup_app_l; [done|]. unfold len in *. lia.
  - rewrite splice_lookup_inside by lia.
    rewrite lookup_app_r by (unfold len in *; lia).
    f_equal. unfold len in *. lia.
Qed.
End slice_facts.

(** ** Strings: splitting, joining, replacing *)

(** [s.split(c)] *)
Fixpoint split_on (c : ascii) (s : string) : list string :=
  match s with
  | EmptyString => [EmptyString]
  | String a s' =>
      if bool_decide (a = c) then EmptyString :: split_on c s'
      else match split_on c s' with
           | w :: ws => String a w :: ws
           | [] => [String a EmptyString]
           end
  end.

(** [v.join(sep)] *)
Fixpoint join (sep : string) (l : list string) : string :=
  match l with
  | [] => EmptyString
  | [x] => x
  | x :: l' => x +:+ (sep +:+ join sep l')
  end.

(** [s.starts_with(p)] *)
Fixpoint starts_with (p s : string) : bool :=
  match p, s with
  | EmptyString, _ => true
  | String a p', String b s' => bool_decide (a = b) && starts_with p' s'
  | _, EmptyString => false
  end.

(** [s.contains(c)] for a character [c] *)
Fixpoint str_contains (c : ascii) (s : string) : bool :=
  match s with
  | EmptyString => false
  | String a s' => bool_decide (a = c) || str_contains c s'
  end.

(** [s.replace(token, by)] for a non-empty token: occurrences are found left to
    right and do not overlap. [skip] counts the bytes of the occurrence that
    are still to be dropped. *)
Fixpoint replace_go (token by_ : string) (skip : nat) (s : string) : string :=
  match s with
  | EmptyString => EmptyString
  | String a s' =>
      match skip with
      | S k => replace_go token by_ k s'
      | O => if starts_with token s
             then by_ +:+ replace_go token by_ (String.length token - 1) s'
             else String a (replace_go token by_ 0 s')
      end
  end.
Definition str_replace (token by_ s : string) : string :=
  replace_go token by_ 0 s.

(** [s.lines()]: newline-separated, a trailing carriage return dropped, no empty
    piece after a final newline. *)
Definition strip_cr (s : string) : string :=
  match reverse (String.list_ascii_of_string s) with
  | c :: r => if bool_decide (c = ascii_of_nat 13)
              then String.string_of_list_ascii (reverse r) else s
  | [] => s
  end.
Definition str_lines (s : string) : list string :=
  let pieces := split_on (ascii_of_nat 10) s in
  let pieces := match reverse pieces with
                | EmptyString :: r => reverse r
                | _ => pieces
                end in
  strip_cr <$> pieces.

(** A path component: non-empty and without the separator. *)
Definition valid_component (s : string) : bool :=
  negb (bool_decide (s = EmptyString)) && negb (str_contains "/"%char s).

Definition split_path (path : string) : list string :=
  filter (λ s, s ≠ EmptyString) (split_on "/" path).

(** [mount_path] of namespace.rs and [join_path] of mountfs.rs. *)
Definition join_path (components : list string) : string :=
  match components with
  | [] => "/"
  | _ => "/" +:+ join "/" components
  end.

Section path_facts.
Lemma string_app_cons a (s t : string) : String a s +:+ t = String a (s +:+ t).
Proof. done. Qed.
Lemma string_app_nil (s : string) : s +:+ "" = s.
Proof. induction s as [|a s IH]; [done|]. by rewrite string_app_cons, IH. Qed.

Lemma into_bytes_app a b : into_bytes (a +:+ b) = into_bytes a ++ into_bytes b.
Proof.
  unfold into_bytes, String.list_byte_of_string.
  induction a as [|c a IH]; [done|]. rewrite string_app_cons. simpl. by rewrite IH.
Qed.

Lemma split_on_app c w rest :
  str_contains c w = false →
  split_on c (w +:+ String c rest) = w :: split_on c rest.
Proof.
  induction w as [|a w IH]; simpl; intros H.
  - change ("" +:+ String c rest) with (String c rest). simpl.
    by rewrite bool_decide_eq_true_2.
  - apply orb_false_iff in H as [Ha Hw].
    rewrite ?string_app_cons. simpl. rewrite Ha, IH by done. done.
Qed.

Lemma split_on_sep c s : split_on c (String c s) = "" :: split_on c s.
Proof. simpl. by rewrite bool_decide_eq_true_2. Qed.

Lemma split_on_single c w : str_contains c w = false → split_on c w = [w].
Proof.
  induction w as [|a w IH]; simpl; intros H; [done|].
  apply orb_false_iff in H as [Ha Hw]. by rewrite Ha, IH.
Qed.

Lemma split_on_join ws :
  ws ≠ [] → Forall (λ w, str_contains "/" w = false) ws →
  split_on "/" (join "/" ws) = ws.
Proof.
  induction ws as [|w ws IH]; intros Hne Hws; [done|].
  apply Forall_cons in Hws as [Hw Hws].
  destruct ws as [|w' ws'].
  - by apply split_on_single.
  - change (split_on "/" (w +:+ String "/" (join "/" (w' :: ws')))
            = w :: w' :: ws').
    rewrite split_on_app by done. f_equal. by apply IH.
Qed.

(** Splitting the printed form of a component list gives the list back. *)
Lemma split_join_path ws :
  Forall (λ w, valid_component w = true) ws → split_path (join_path ws) = ws.
Proof.
  intros Hws. unfold split_path, join_path.
  destruct ws as [|w ws]; [done|].
  change ("/" +:+ join "/" (w :: ws)) with (String "/" (join "/" (w :: ws))).
  assert (Forall (λ w, w ≠ "" ∧ str_contains "/" w = false) (w :: ws)) as Hv.
  { eapply Forall_impl; [exact Hws|]. intros x Hx. unfold valid_component in Hx.
    bool_facts. done. }
  rewrite split_on_sep, (split_on_join (w :: ws)).
  2: done. 2:{ eapply Forall_impl; [exact Hv|]. intros ? []; done. }
  rewrite filter_cons_False by naive_solver.
  clear Hws. induction Hv as [|x l [Hx _] _ IH]; [done|].
  by rewrite filter_cons_True, IH.
Qed.

Lemma split_on_no_sep c s : Forall (λ w, str_contains c w = false) (split_on c s).
Proof.
  induction s as [|a s IH]; simpl; [by repeat constructor|].
  case_bool_decide; [by constructor|].
  destruct (split_on c s) as [|w ws]; [by repeat constructor; simpl;
    rewrite bool_decide_eq_false_2|].
  apply Forall_cons in IH as [Hw Hws]. constructor; [|done].
  simpl. rewrite bool_decide_eq_false_2, Hw by done. done.
Qed.

(** [split_path] only yields valid components. *)
Lemma split_path_valid p :
  Forall (λ w, valid_component w = true) (split_path p).
Proof.
  unfold split_path. apply Forall_forall. intros w Hw.
  apply list_elem_of_filter in Hw as [Hne Hw].
  pose proof (split_on_no_sep "/" p) as HF. rewrite Forall_forall in HF.
  unfold valid_component. rewrite (HF w Hw), bool_decide_eq_false_2; done.
Qed.
End path_facts.

(** ** Decimal printing and parsing *)

Definition digit_char (d : N) : ascii := ascii_of_N (48 + d).
Definition char_digit (c : ascii) : option N :=
  let n := N_of_ascii c in
  if (48 <=? n)%N && (n <=? 57)%N then Some (n - 48)%N else None.

Fixpoint dec_go (fuel : nat) (n : N) (acc : string) : string :=
  match fuel with
  | O => acc
  | S f =>
      let acc' := String (digit_char (n mod 10)) acc in
      if (n <? 10)%N then acc' else dec_go f (n / 10) acc'
  end.
(** [n.to_string()] for an unsigned [n]; one step per binary digit is enough. *)
Definition dec_string (n : N) : string := dec_go (S (N.size_nat n)) n "".
(** [n.to_string()] for a signed [n] *)
Definition dec_string_Z (z : Z) : string :=
  if z <? 0 then "-" +:+ dec_string (Z.to_N (- z)) else dec_string (Z.to_N z).

Fixpoint parse_digits (acc : N) (s : string) : option N :=
  match s with
  | EmptyString => Some acc
  | String c s' => match char_digit c with
                   | Some d => parse_digits (10 * acc + d) s'
                   | None => None
                   end
  end.
(** [s.parse::<u64>()]: an optional [+], then digits, within range. *)
Definition parse_u64 (s : string) : option Z :=
  let body := match s with
              | String "+" s' => s'
              | _ => s
              end in
  match body with
  | EmptyString => None
  | _ => match parse_digits 0 body with
         | Some n => if Z.of_N n <? u64_size then Some (Z.of_N n) else None
         | None => None
         end
  end.

Section decimal_facts.
Local Open Scope N_scope.

Lemma char_digit_char d : d < 10 → char_digit (digit_char d) = Some d.
Proof.
  intros Hd. unfold char_digit, digit_char.
  rewrite N_ascii_embedding by lia.
  rewrite (proj2 (N.leb_le _ _)), (proj2 (N.leb_le _ _)) by lia.
  simpl. f_equal. lia.
Qed.

Lemma parse_dec_go fuel n acc a :
  n < 2 ^ N.of_nat fuel →
  parse_digits a (dec_go fuel n acc) =
  parse_digits (a * 10 ^ N.of_nat (String.length (dec_go fuel n acc)
                                   - String.length acc) + n) acc.
Proof.
  revert n acc a. induction fuel as [|fuel IH]; intros n acc a Hn.
  { simpl in *. assert (n = 0) as -> by lia.
    rewrite Nat.sub_diag. simpl. f_equal. lia. }
  simpl dec_go. destruct (N.ltb_spec n 10) as [Hlt|Hge].
  - simpl. rewrite N.mod_small, char_digit_char by lia.
    rewrite Nat.sub_succ_l by lia. rewrite Nat.sub_diag. simpl N.of_nat.
    f_equal. lia.
  - assert (n / 10 < 2 ^ N.of_nat fuel) as Hq.
    { apply N.Div0.div_lt_upper_bound.
      rewrite Nat2N.inj_succ, N.pow_succ_r' in Hn. lia. }
    rewrite IH by done. simpl.
    rewrite char_digit_char by (apply N.mod_lt; lia).
    set (L := String.length (dec_go fuel (n / 10) _)).
    assert (String.length (String (digit_char (n mod 10)) acc) ≤ L)%nat as HL.
    { clear. subst L. generalize (String (digit_char (n mod 10)) acc).
      generalize (n / 10). induction fuel as [|f IH]; intros k s; simpl; [lia|].
      case_match; simpl; [lia|]. etrans; [|apply IH]. simpl. lia. }
    simpl in HL.
    replace (L - String.length acc)%nat
      with (S (L - S (String.length acc)))%nat by lia.
    rewrite Nat2N.inj_succ, N.pow_succ_r'. f_equal.
    pose proof (N.div_mod n 10). lia.
Qed.

Lemma dec_string_head n :
  ∃ d s, d < 10 ∧ dec_string n = String (digit_char d) s.
Proof.
  unfold dec_string. simpl. case_match.
  - eexists _, _. split; [|done]. apply N.mod_lt. lia.
  - generalize (n / 10). assert (∃ d s, d < 10 ∧
      String (digit_char (n mod 10)) "" = String (digit_char d) s) as Hacc.
    { eexists _, _. split; [|done]. apply N.mod_lt. lia. }
    revert Hacc. generalize (String (digit_char (n mod 10)) "").
    generalize (N.size_nat n).
    intros f. induction f as [|f IH]; intros s Hs k; simpl; [done|].
    case_match.
    + eexists _, _. split; [|done]. apply N.mod_lt. lia.
    + apply IH. eexists _, _. split; [|done]. apply N.mod_lt. lia.
Qed.

Lemma N_size_nat_bound n : n < 2 ^ N.of_nat (S (N.size_nat n)).
Proof.
  destruct n as [|p]; [simpl; lia|].
  assert (N.of_nat (Pos.size_nat p) = N.pos (Pos.size p)) as Heq.
  { induction p as [p IH|p IH|]; simpl Pos.size_nat; simpl Pos.size;
      rewrite ?Nat2N.inj_succ, ?IH; simpl; lia. }
  pose proof (Pos.size_gt p) as Hgt. simpl N.size_nat.
  assert (N.pos p < 2 ^ N.pos (Pos.size p)) by exact Hgt.
  rewrite <-Heq in *.
  rewrite Nat2N.inj_succ, N.pow_succ_r'. lia.
Qed.

Lemma parse_digits_dec_string n : parse_digits 0 (dec_string n) = Some n.
Proof.
  unfold dec_string. rewrite parse_dec_go by apply N_size_nat_bound.
  simpl. f_equal.
Qed.

Global Instance dec_string_inj : Inj (=) (=) dec_string.
Proof.
  intros n m Hnm. apply (f_equal (parse_digits 0)) in Hnm.
  rewrite !parse_digits_dec_string in Hnm. congruence.
Qed.

(** Printing an in-range unsigned integer and parsing it back is the
    identity. *)
Lemma parse_dec_string n :
  (Z.of_N n < u64_size)%Z → parse_u64 (dec_string n) = Some (Z.of_N n).
Proof.
  intros Hn. unfold parse_u64.
  destruct (dec_string_head n) as (d & s & Hd & Hs).
  assert (match dec_string n with String "+" s' => s' | _ => dec_string n end
          = dec_string n) as ->.
  { rewrite Hs.
    assert (d = 0 ∨ d = 1 ∨ d = 2 ∨ d = 3 ∨ d = 4 ∨ d = 5 ∨ d = 6 ∨ d = 7
            ∨ d = 8 ∨ d = 9) as Hcase by lia.
    destruct_or!; by subst. }
  rewrite parse_digits_dec_string, Hs. by rewrite (proj2 (Z.ltb_lt _ _)) by lia.
Qed.
End decimal_facts.

Lemma dec_string_Z_inj a b :
  0 ≤ a → 0 ≤ b → dec_string_Z a = dec_string_Z b → a = b.
Proof.
  intros Ha Hb. unfold dec_string_Z.
  rewrite (proj2 (Z.ltb_ge _ _)), (proj2 (Z.ltb_ge _ _)) by lia.
  intros Hab%(inj dec_string). lia.
Qed.

(** A printed number has only digits, so no newline. *)
Lemma parse_digits_all acc s n c :
  parse_digits acc s = Some n → char_digit (ascii_of_byte c) = None →
  c ∉ into_bytes s.
Proof.
  revert acc. induction s as [|a s IH]; intros acc; simpl; [by intros _ _ ?%not_elem_of_nil|].
  destruct (char_digit a) as [d|] eqn:Hd; [|done]. intros Hp Hc [Heq|Hin]%elem_of_cons.
  - rewrite Heq, ascii_of_byte_of_ascii in Hc. congruence.
  - by eapply IH.
Qed.
Lemma dec_string_no_newline n : newline ∉ into_bytes (dec_string n).
Proof. eapply parse_digits_all; [apply parse_digits_dec_string|done]. Qed.

Lemma parse_dec_string_Z z :
  0 ≤ z < u64_size → parse_u64 (dec_string_Z z) = Some z.
Proof.
  intros Hz. unfold dec_string_Z. rewrite (proj2 (Z.ltb_ge _ _)) by lia.
  rewrite parse_dec_string; rewrite Z2N.id by lia; [done|lia].
Qed.

(** ** Ordered maps *)

(** [map.keys()] of a [BTreeMap<String, V>]: byte-wise ascending. *)
Definition sorted_keys {V} (m : gmap string V) : list string :=
  merge_sort String.le (map_to_list m).*1.
(** [map.keys()] of a [BTreeMap] keyed by an integer newtype. *)
Definition sorted_int_keys {V} (m : gmap Z V) : list Z :=
  merge_sort Z.le (map_to_list m).*1.

Section sorted_keys_facts.
Lemma elem_of_sorted_keys {V} (m : gmap string V) k :
  k ∈ sorted_keys m ↔ is_Some (m !! k).
Proof.
  unfold sorted_keys. rewrite merge_sort_Permutation, list_elem_of_fmap.
  split.
  - intros [[k' v] [-> Hk]]. apply elem_of_map_to_list in Hk. by exists v.
  - intros [v Hv]. exists (k, v). by rewrite elem_of_map_to_list.
Qed.

Lemma elem_of_sorted_int_keys {V} (m : gmap Z V) k :
  k ∈ sorted_int_keys m ↔ is_Some (m !! k).
Proof.
  unfold sorted_int_keys. rewrite merge_sort_Permutation, list_elem_of_fmap.
  split.
  - intros [[k' v] [-> Hk]]. apply elem_of_map_to_list in Hk. by exists v.
  - intros [v Hv]. exists (k, v). by rewrite elem_of_map_to_list.
Qed.

Lemma sorted_int_keys_sorted {V} (m : gmap Z V) :
  StronglySorted Z.lt (sorted_int_keys m).
Proof.
  assert (NoDup (sorted_int_keys m)) as Hnd.
  { unfold sorted_int_keys. rewrite merge_sort_Permutation.
    apply NoDup_fst_map_to_list. }
  assert (StronglySorted Z.le (sorted_int_keys m)) as Hs.
  { unfold sorted_int_keys. apply StronglySorted_merge_sort; [apply _|].
    intros x y. lia. }
  induction Hs as [|x l Hl IH Hx]; [constructor|].
  apply NoDup_cons in Hnd as [Hn Hnd]. constructor; [by apply IH|].
  rewrite Forall_forall in Hx |- *. intros y Hy.
  assert (x ≠ y) by congruence. pose proof (Hx y Hy). lia.
Qed.
End sorted_keys_facts.

(** ** UTF-8 *)

(** The continuation bytes a leading byte asks for, as inclusive ranges;
    [None] for a byte that cannot start a character. *)
Definition utf8_lead (v : N) : option (list (N * N)) :=
  let cont := (0x80, 0xBF)%N in
  if (v <=? 0x7F)%N then Some []
  else if (v <? 0xC2)%N then None
  else if (v <=? 0xDF)%N then Some [cont]
  else if (v =? 0xE0)%N then Some [(0xA0, 0xBF)%N; cont]
  else if (v =? 0xED)%N then Some [(0x80, 0x9F)%N; cont]
  else if (v <=? 0xEF)%N then Some [cont; cont]
  else if (v =? 0xF0)%N then Some [(0x90, 0xBF)%N; cont; cont]
  else if (v <=? 0xF3)%N then Some [cont; cont; cont]
  else if (v =? 0xF4)%N then Some [(0x80, 0x8F)%N; cont; cont]
  else None.

Fixpoint utf8_go (pending : list (N * N)) (b : bytes) : bool :=
  match b with
  | [] => match pending with [] => true | _ => false end
  | x :: b' =>
      let v := Byte.to_N x in
      match pending with
      | (lo, hi) :: p => (lo <=? v)%N && (v <=? hi)%N && utf8_go p b'
      | [] => match utf8_lead v with
              | Some p => utf8_go p b'
              | None => false
              end
      end
  end.
(** [String::from_utf8(bytes)] *)
Definition from_utf8 (b : bytes) : option string :=
  if utf8_go [] b then Some (of_bytes b) else None.

Definition replacement_char : bytes := [xef; xbf; xbd].
(** [String::from_utf8_lossy]: each maximal ill-formed subpart becomes one
    U+FFFD. [acc] holds the bytes of the character being read. *)
Fixpoint utf8_lossy_go (acc : bytes) (pending : list (N * N)) (b : bytes) : bytes :=
  match b with
  | [] => match pending with [] => [] | _ => replacement_char end
  | x :: b' =>
      let v := Byte.to_N x in
      let start :=
        match utf8_lead v with
        | Some [] => x :: utf8_lossy_go [] [] b'
        | Some p => utf8_lossy_go [x] p b'
        | None => replacement_char ++ utf8_lossy_go [] [] b'
        end in
      match pending with
      | (lo, hi) :: p =>
          if (lo <=? v)%N && (v <=? hi)%N then
            match p with
            | [] => (acc ++ [x]) ++ utf8_lossy_go [] [] b'
            | _ => utf8_lossy_go (acc ++ [x]) p b'
            end
          else replacement_char ++ start
      | [] => start
      end
  end.
Definition from_utf8_lossy (b : bytes) : string := of_bytes (utf8_lossy_go [] [] b).

(** [s.is_char_boundary(i)]: the ends, or an index whose byte is no
    continuation byte. *)
Definition is_char_boundary (s : string) (i : Z) : bool :=
  let b := into_bytes s in
  if i =? 0 then true
  else if i =? len b then true
  else match b !! Z.to_nat i with
       | Some x => negb ((0x80 <=? Byte.to_N x)%N && (Byte.to_N x <=? 0xBF)%N)
       | None => false
       end.

(** Lossy decoding is the identity on valid text. *)
Lemma from_utf8_lossy_valid b s : from_utf8 b = Some s → from_utf8_lossy b = s.
Proof.
  unfold from_utf8, from_utf8_lossy. case_match eqn:Hu; [|done].
  intros [= <-]. f_equal.
  assert (∀ acc p, utf8_go p b = true → (p = [] → acc = []) →
            utf8_lossy_go acc p b = acc ++ b) as Hgo.
  { clear Hu. induction b as [|x b IH]; intros acc p Hp Hacc; simpl in *.
    - case_match; [|done]. by rewrite Hacc.
    - destruct p as [|[lo hi] p].
      + rewrite Hacc by done. destruct (utf8_lead (Byte.to_N x)) as [[|r p]|];
          [| |done]; rewrite IH; done.
      + apply andb_true_iff in Hp as [Hr Hp]. rewrite Hr.
        destruct p as [|r p]; rewrite IH by done;
          rewrite <-?app_assoc; done. }
  by apply Hgo.
Qed.
