(* ===== verification/ApTypes.v ===== *)
(** * aP value types (crates/ap/src/types.rs, version.rs, stream.rs)

    Fids, qids, open modes, stat and error codes; the qid version table; the
    append-only byte stream behind every aP stream file. *)
From S2P Require Import Prelude RustStd.

(** ** types.rs *)

Abbreviation Fid := Z.
Definition ROOT : Fid := 0.
Abbreviation Offset := Z.

Inductive FileKind : Set := Dir | File | StreamKind | Clone.
Inductive OpenMode : Set := Read | Write | ReadWrite.

Record Qid : Set := mkQid { kind : FileKind; version : Z; path : Z }.

Record Stat : Set := mkStat {
  stat_name : string;
  stat_qid : Qid;
  stat_length : Z;
  executable : bool;
  writable : bool;
}.

Inductive ErrorCode : Set :=
  NotFound | NoAccess | RateLimited | BadRequest
| NotDirectory | IsDirectory | Unsupported | Io.

Global Instance FileKind_eq_dec : EqDecision FileKind.
Proof. solve_decision. Defined.
Global Instance OpenMode_eq_dec : EqDecision OpenMode.
Proof. solve_decision. Defined.
Global Instance Qid_eq_dec : EqDecision Qid.
Proof. solve_decision. Defined.
Global Instance Stat_eq_dec : EqDecision Stat.
Proof. solve_decision. Defined.
Global Instance ErrorCode_eq_dec : EqDecision ErrorCode.
Proof. solve_decision. Defined.

(** [matches!(mode, Some(OpenMode::Write | OpenMode::ReadWrite))] and the
    read-side test, as every server writes them. *)
Definition mode_writes (m : OpenMode) : bool :=
  match m with Write | ReadWrite => true | Read => false end.
Definition mode_reads (m : OpenMode) : bool :=
  match m with Read | ReadWrite => true | Write => false end.
Definition opened_for_write (m : option OpenMode) : bool :=
  match m with Some m => mode_writes m | None => false end.
Definition opened_for_read (m : option OpenMode) : bool :=
  match m with Some m => mode_reads m | None => false end.

(** An aP operation of a server with state [S]. *)
Abbreviation Op S A := (M S ErrorCode A).

(** ** version.rs *)
Module VersionTable.
Abbreviation t := (gmap Z Z).
Definition new : t := ∅.
Definition get (tbl : t) (key : Z) : Z := default 0 (tbl !! key).
Definition bump (tbl : t) (key : Z) : t :=
  <[key := wrapping_add32 (default 0 (tbl !! key)) 1]> tbl.

(** Every stored version is a [u32]. *)
Definition wf (tbl : t) : Prop := map_Forall (λ _ v, 0 ≤ v < u32_size) tbl.

Lemma versions_wf_new : wf new.
Proof. apply map_Forall_empty. Qed.
Lemma wf_bump tbl key : wf tbl → wf (bump tbl key).
Proof.
  intros Hwf. apply map_Forall_insert_2; [|done]. apply wrapping_add32_range.
Qed.
Lemma get_range tbl key : wf tbl → 0 ≤ get tbl key < u32_size.
Proof.
  intros Hwf. unfold get. destruct (tbl !! key) eqn:E; simpl.
  - exact (Hwf _ _ E).
  - split; [lia|]. done.
Qed.
Lemma get_bump_eq tbl key : get (bump tbl key) key = wrapping_add32 (get tbl key) 1.
Proof. unfold get, bump. by rewrite lookup_insert_eq. Qed.
Lemma get_bump_ne tbl key key' :
  key ≠ key' → get (bump tbl key) key' = get tbl key'.
Proof. intros. unfold get, bump. by rewrite lookup_insert_ne. Qed.
(** A bump is observable: the version it leaves differs from the one before,
    also when the 32-bit counter wraps. *)
Lemma bump_distinct tbl key : wf tbl → get (bump tbl key) key ≠ get tbl key.
Proof.
  intros Hwf. rewrite get_bump_eq. apply wrapping_add32_distinct.
  by apply get_range.
Qed.
End VersionTable.
Global Hint Resolve VersionTable.versions_wf_new VersionTable.wf_bump : alan.

(** ** stream.rs *)
Module Stream.
(** [Inner]: the retained log and the length the watch channel carries. The
    handle is shared by reference; servers below own one log per stream. *)
Record t : Type := mkStream { buf : bytes; len_tx : Z }.

Definition new : t := mkStream [] 0.

Definition append (s : t) (data : bytes) : t :=
  let buf' := buf s ++ data in
  mkStream buf' (len buf').

Definition length (s : t) : Z := len (buf s).
Definition is_empty (s : t) : bool := bool_decide (buf s = []).

(** One pass of the [read] loop: the bytes, or [Park] when the reader has to
    wait for the next append. *)
Definition read {E} (s : t) (offset : Offset) (count : Z) : result E bytes :=
  let start := offset in
  if start <? len (buf s) then
    let stop := Z.min (len (buf s)) (start + count) in
    Ok (sub_range (buf s) start stop)
  else Park.

(** The watch channel always carries the retained length. *)
Definition wf (s : t) : Prop := len_tx s = len (buf s).

Lemma stream_wf_new : wf new.
Proof. done. Qed.
Lemma wf_append s data : wf (append s data).
Proof. done. Qed.

Lemma read_slice {E} s offset count :
  0 ≤ offset →
  read (E := E) s offset count =
  if offset <? len (buf s) then Ok (slice (buf s) offset count) else Park.
Proof.
  intros Ho. unfold read, slice. case_match; [|done]. bool_facts.
  by rewrite (Z.min_l offset) by lia.
Qed.

(** History is retained: an append never changes the bytes a completed read
    returned, it only lets a read run further. *)
Lemma append_keeps_prefix s data i :
  Z.of_nat i < length s → buf (append s data) !! i = buf s !! i.
Proof. intros Hi. simpl. apply lookup_app_l. unfold length, len in Hi. lia. Qed.
End Stream.
Global Hint Resolve Stream.stream_wf_new Stream.wf_append : alan.
