(* ===== verification/ApServer.v ===== *)
(** * The aP file-server contract and its in-process transport
      (crates/ap/src/wire.rs requests and responses, crates/ap/src/server.rs)

    [FileServer] is the trait every server implements; [transport_call] is the
    single dispatch point of [InProcessTransport]. [FidContract] states the fid
    discipline (one live fid per interaction) that servers promise and that
    [MountFs] relies on; each server file proves its instance. *)
From S2P Require Import Prelude RustStd ApTypes.

(** ** wire.rs: requests and responses *)

Inductive Request : Type :=
  | WalkReq (fid newfid : Fid) (names : list string)
  | OpenReq (fid : Fid) (mode : OpenMode)
  | ReadReq (fid : Fid) (offset : Offset) (count : Z)
  | WriteReq (fid : Fid) (offset : Offset) (data : bytes)
  | StatReq (fid : Fid)
  | CreateReq (fid newfid : Fid) (name : string) (k : FileKind)
  | RemoveReq (fid : Fid)
  | ClunkReq (fid : Fid).

Inductive Response : Type :=
  | WalkResp (qid : Qid)
  | OpenResp (qid : Qid)
  | ReadResp (data : bytes)
  | WriteResp (count : Z)
  | StatResp (stat : Stat)
  | CreateResp (qid : Qid)
  | RemoveResp
  | ClunkResp.

Global Instance Request_eq_dec : EqDecision Request.
Proof. solve_decision. Defined.
Global Instance Response_eq_dec : EqDecision Response.
Proof. solve_decision. Defined.

(** ** server.rs: the [FileServer] trait *)

Class FileServer (S : Type) := {
  fs_walk : Fid → Fid → list string → Op S Qid;
  fs_open : Fid → OpenMode → Op S Qid;
  fs_read : Fid → Offset → Z → Op S bytes;
  fs_write : Fid → Offset → bytes → Op S Z;
  fs_stat : Fid → Op S Stat;
  fs_create : Fid → Fid → string → FileKind → Op S Qid;
  fs_remove : Fid → Op S unit;
  fs_clunk : Fid → Op S unit;
}.

(** [InProcessTransport::call] *)
Definition transport_call {S} `{FileServer S} (request : Request) : Op S Response :=
  match request with
  | WalkReq fid newfid names => q ← fs_walk fid newfid names; mret (WalkResp q)
  | OpenReq fid mode => q ← fs_open fid mode; mret (OpenResp q)
  | ReadReq fid offset count => d ← fs_read fid offset count; mret (ReadResp d)
  | WriteReq fid offset data => n ← fs_write fid offset data; mret (WriteResp n)
  | StatReq fid => s ← fs_stat fid; mret (StatResp s)
  | CreateReq fid newfid name k =>
      q ← fs_create fid newfid name k; mret (CreateResp q)
  | RemoveReq fid => fs_remove fid;; mret RemoveResp
  | ClunkReq fid => fs_clunk fid;; mret ClunkResp
  end.

(** ** The fid discipline every server promises *)

Class FidContract (S : Type) `{FileServer S} (live : S → gset Fid) : Prop := {
  (** The reserved root and a live fid are never rebound, and the attempt
      changes nothing. *)
  walk_rejects s fid newfid names :
    newfid = ROOT ∨ newfid ∈ live s →
    fs_walk fid newfid names s = (s, Err BadRequest);
  (** A successful walk binds exactly [newfid]. *)
  walk_binds s s' fid newfid names q :
    fs_walk fid newfid names s = (s', Ok q) →
    live s' = {[newfid]} ∪ live s;
  (** A failed walk binds nothing. *)
  walk_err_keeps s s' fid newfid names e :
    fs_walk fid newfid names s = (s', Err e) → live s' = live s;
  open_keeps s s' fid mode r : fs_open fid mode s = (s', r) → live s' = live s;
  read_keeps s s' fid offset count r :
    fs_read fid offset count s = (s', r) → live s' = live s;
  write_keeps s s' fid offset data r :
    fs_write fid offset data s = (s', r) → live s' = live s;
  stat_keeps s s' fid r : fs_stat fid s = (s', r) → live s' = live s;
  (** A created file is bound to exactly [newfid]; a failed create binds nothing. *)
  create_binds s s' fid newfid name k q :
    fs_create fid newfid name k s = (s', Ok q) → live s' = {[newfid]} ∪ live s;
  create_err_keeps s s' fid newfid name k e :
    fs_create fid newfid name k s = (s', Err e) → live s' = live s;
  (** A completed [remove] releases the fid. *)
  remove_releases s s' fid u :
    fs_remove fid s = (s', Ok u) → live s' = live s ∖ {[fid]};
  (** A refused one keeps it. *)
  remove_err_keeps s s' fid e : fs_remove fid s = (s', Err e) → live s' = live s;
  (** [clunk] releases the fid whatever its outcome (a rejected commit
      included) and no other fid. *)
  clunk_releases s s' fid r :
    fid ≠ ROOT → fs_clunk fid s = (s', r) → live s' = live s ∖ {[fid]};
  root_not_live s : ROOT ∉ live s;
}.

(** A walk on a fid outside the table never parks in these servers, so the three
    outcomes of a session step are covered by the contract. *)
Section contract_facts.
Context {S} `{FS : FileServer S} (live : S → gset Fid) `{FC : !FidContract S live}.

Lemma walk_binds_fresh s s' fid newfid names q :
  fs_walk fid newfid names s = (s', Ok q) → newfid ≠ ROOT ∧ newfid ∉ live s.
Proof.
  intros Hw. split; intros Hn;
    rewrite (walk_rejects s fid newfid names) in Hw by auto; done.
Qed.

(** Walking a fresh fid and clunking it leaves the table as it was. *)
Lemma walk_clunk_restores s s1 s2 fid newfid names q r :
  fs_walk fid newfid names s = (s1, Ok q) →
  fs_clunk newfid s1 = (s2, r) → live s2 = live s.
Proof.
  intros Hw Hc. destruct (walk_binds_fresh _ _ _ _ _ _ Hw) as [Hr Hn].
  rewrite (clunk_releases _ _ _ _ Hr Hc), (walk_binds _ _ _ _ _ _ Hw).
  set_solver.
Qed.
End contract_facts.

(** ** Chunked writes of an imported server *)

(** [ImportedFileServer::write] over a remote call: [WriteReq] frames of at most
    [MAX_WIRE_PAYLOAD_CHUNK_BYTES], consecutive offsets, stopping at a short or
    failed chunk. *)
Definition MAX_WIRE_FRAME_BYTES : Z := Z.shiftl 1 20.
Definition MAX_WIRE_PAYLOAD_CHUNK_BYTES : Z := MAX_WIRE_FRAME_BYTES / 8.

(** [data.chunks(n)] for [n > 0] *)
Fixpoint chunks_go (fuel : nat) (n : nat) (data : bytes) : list bytes :=
  match fuel, data with
  | _, [] => []
  | O, _ => []
  | S f, _ => take n data :: chunks_go f n (drop n data)
  end.
Definition chunks (n : nat) (data : bytes) : list bytes :=
  chunks_go (length data) n data.

Section imported.
Context {W : Type} (remote_call : Request → Op W Response).

(** [u32::try_from(accepted_total)] *)
Definition accepted_count (accepted_total : Z) : result ErrorCode Z :=
  if accepted_total <=? u32_max then Ok accepted_total else Err BadRequest.

Definition partial_or (accepted_total : Z) (e : ErrorCode) : result ErrorCode Z :=
  if 0 <? accepted_total then accepted_count accepted_total else Err e.

Fixpoint write_chunks (fid : Fid) (offset : Offset) (accepted_total : Z)
    (cs : list bytes) (w : W) : W * result ErrorCode Z :=
  match cs with
  | [] => (w, accepted_count accepted_total)
  | chunk :: cs' =>
      match checked_add64 offset accepted_total with
      | None => (w, Err BadRequest)
      | Some chunk_offset =>
          match remote_call (WriteReq fid chunk_offset chunk) w with
          | (w', Park) => (w', Park)
          | (w', Panic) => (w', Panic)
          | (w', Err e) => (w', partial_or accepted_total e)
          | (w', Ok (WriteResp accepted)) =>
              if len chunk <? accepted then (w', partial_or accepted_total BadRequest)
              else match checked_add64 accepted_total accepted with
                   | None => (w', Err BadRequest)
                   | Some total' =>
                       if accepted <? len chunk
                       then (w', accepted_count total')
                       else write_chunks fid offset total' cs' w'
                   end
          | (w', Ok _) => (w', partial_or accepted_total BadRequest)
          end
      end
  end.

Definition imported_write (fid : Fid) (offset : Offset) (data : bytes) : Op W Z :=
  if bool_decide (data = []) then
    r ← remote_call (WriteReq fid offset []);
    match r with WriteResp n => mret n | _ => mfail BadRequest end
  else
    λ w, write_chunks fid offset 0
           (chunks (Z.to_nat MAX_WIRE_PAYLOAD_CHUNK_BYTES) data) w.

(** The other imported operations: one remote call, and a reply of another
    shape is a protocol violation. *)
Definition imported_walk fid newfid names : Op W Qid :=
  r ← remote_call (WalkReq fid newfid names);
  match r with WalkResp q => mret q | _ => mfail BadRequest end.
Definition imported_open fid mode : Op W Qid :=
  r ← remote_call (OpenReq fid mode);
  match r with OpenResp q => mret q | _ => mfail BadRequest end.
Definition imported_read fid offset count : Op W bytes :=
  r ← remote_call (ReadReq fid offset (Z.min count (as_u32 MAX_WIRE_PAYLOAD_CHUNK_BYTES)));
  match r with ReadResp d => mret d | _ => mfail BadRequest end.
Definition imported_stat fid : Op W Stat :=
  r ← remote_call (StatReq fid);
  match r with StatResp s => mret s | _ => mfail BadRequest end.
Definition imported_create fid newfid name k : Op W Qid :=
  r ← remote_call (CreateReq fid newfid name k);
  match r with CreateResp q => mret q | _ => mfail BadRequest end.
Definition imported_remove fid : Op W unit :=
  r ← remote_call (RemoveReq fid);
  match r with RemoveResp => mret tt | _ => mfail BadRequest end.
Definition imported_clunk fid : Op W unit :=
  r ← remote_call (ClunkReq fid);
  match r with ClunkResp => mret tt | _ => mfail BadRequest end.
End imported.

(** An imported server is a [FileServer] again. *)
Definition ImportedFileServer {W} (remote_call : Request → Op W Response) : FileServer W :=
  {| fs_walk := imported_walk remote_call;
     fs_open := imported_open remote_call;
     fs_read := imported_read remote_call;
     fs_write := imported_write remote_call;
     fs_stat := imported_stat remote_call;
     fs_create := imported_create remote_call;
     fs_remove := imported_remove remote_call;
     fs_clunk := imported_clunk remote_call |}.

(** ** Chunking is invisible *)

Lemma concat_chunks_go fuel n data :
  (0 < n)%nat → (length data ≤ fuel)%nat →
  List.concat (chunks_go fuel n data) = data.
Proof.
  intros Hn. revert data. induction fuel as [|f IH]; intros data Hf.
  - by destruct data; simpl in *; [|lia].
  - destruct data as [|x data]; [done|].
    cbn [chunks_go List.concat]. rewrite IH.
    + apply take_drop.
    + rewrite length_drop. simpl in *. lia.
Qed.

Lemma concat_chunks n data : (0 < n)%nat → List.concat (chunks n data) = data.
Proof. intros. by apply concat_chunks_go. Qed.

Lemma chunk_bytes_pos : (0 < Z.to_nat MAX_WIRE_PAYLOAD_CHUNK_BYTES)%nat.
Proof. apply (Z2Nat.inj_lt 0); by vm_compute. Qed.

Lemma len_app_le (a b c : bytes) : len (a ++ b) ≤ len (a ++ b ++ c).
Proof. rewrite !len_app. pose proof (len_nonneg c). lia. Qed.

Section imported_facts.
Context {W : Type} (remote_call : Request → Op W Response).
Context (upd : W → Offset → bytes → W) (fid : Fid) (limit : Z).
Hypothesis accepts : ∀ off d w, 0 ≤ off → off + len d ≤ limit →
  remote_call (WriteReq fid off d) w = (upd w off d, Ok (WriteResp (len d))).
Hypothesis adjacent : ∀ w off a b, 0 ≤ off →
  upd (upd w off a) (off + len a) b = upd w off (a ++ b).

Lemma write_chunks_accepted cs done off w :
  0 ≤ off → off + len (done ++ List.concat cs) ≤ limit →
  off + len (done ++ List.concat cs) ≤ usize_max →
  write_chunks remote_call fid off (len done) cs (upd w off done) =
  (upd w off (done ++ List.concat cs), accepted_count (len (done ++ List.concat cs))).
Proof.
  intros Ho. revert done. induction cs as [|c cs IH]; intros done Hlim Hmax.
  { simpl in *. by rewrite app_nil_r. }
  cbn [List.concat] in *.
  pose proof (len_app_le done c (List.concat cs)). rewrite (len_app done c) in *.
  pose proof (len_nonneg c). pose proof (len_nonneg done).
  cbn [write_chunks].
  unfold checked_add64 at 1. rewrite (proj2 (Z.leb_le _ _)) by lia.
  rewrite accepts, adjacent by lia. rewrite Z.ltb_irrefl.
  unfold checked_add64 at 1. rewrite (proj2 (Z.leb_le _ _)) by lia.
  rewrite <-len_app, (IH (done ++ c)); rewrite <-!app_assoc; auto.
Qed.
End imported_facts.

(** For a remote server that accepts every in-range write and whose
    adjacent writes compose, the chunked write of an imported server has the
    effect and the result of one write of the whole buffer at the offset. *)
Theorem imported_write_whole {W} (remote_call : Request → Op W Response)
    (upd : W → Offset → bytes → W) (fid : Fid) (limit : Z)
    (accepts : ∀ off d w, 0 ≤ off → off + len d ≤ limit →
       remote_call (WriteReq fid off d) w = (upd w off d, Ok (WriteResp (len d))))
    (adjacent : ∀ w off a b, 0 ≤ off →
       upd (upd w off a) (off + len a) b = upd w off (a ++ b))
    (empty : ∀ w off, upd w off [] = w)
    (off : Offset) (data : bytes) (w : W) :
  0 ≤ off → off + len data ≤ limit → off + len data ≤ usize_max →
  len data ≤ u32_max →
  imported_write remote_call fid off data w = (upd w off data, Ok (len data)).
Proof.
  intros Ho Hlim Hmax H32. unfold imported_write. case_bool_decide as Hd.
  - subst data. munfold. by rewrite accepts.
  - rewrite <-(empty w off) at 1. change 0 with (len []).
    pose proof (concat_chunks (Z.to_nat MAX_WIRE_PAYLOAD_CHUNK_BYTES) data) as Hc.
    rewrite (write_chunks_accepted remote_call upd fid limit accepts adjacent);
      rewrite ?app_nil_l, ?Hc by apply chunk_bytes_pos; try done.
    unfold accepted_count. by rewrite (proj2 (Z.leb_le _ _)).
Qed.

(** A remote document buffer, to apply the theorem at. *)
Definition buffer_remote (r : Request) : Op bytes Response :=
  match r with
  | WriteReq _ off [] => mret (WriteResp 0)
  | WriteReq _ off d => λ w, (splice w off d, Ok (WriteResp (len d)))
  | _ => mfail Unsupported
  end.
Definition buffer_upd (w : bytes) (off : Offset) (d : bytes) : bytes :=
  match d with [] => w | _ => splice w off d end.

Lemma imported_write_whole_witness :
  imported_write buffer_remote 7 2 [x61; x62; x63] [x30] =
  ([x30; x00; x61; x62; x63], Ok 3).
Proof.
  apply (imported_write_whole buffer_remote buffer_upd 7 100 ltac:(by intros ? [])
    ltac:(intros w off a b Ho; destruct a, b; unfold buffer_upd; simpl;
          rewrite ?app_nil_r, ?Z.add_0_r; try done; by apply splice_adjacent)
    ltac:(done) 2 [x61; x62; x63] [x30]); vm_compute; congruence.
Defined.
