(* ===== verification/ApReference.v ===== *)
(** * The reference in-memory server (crates/ap/src/reference.rs)

    [MemFs] of the aP crate: a node arena, a fid table, clone-via-open and a
    commit-on-clunk document. The JSON validator is serde_json's, a parameter. *)
From S2P Require Import Prelude RustStd ApTypes ApServer.

Definition MAX_DOC_BYTES : Z := Z.shiftl 1 20.

Abbreviation NodeId := nat.

Inductive Node : Type :=
  | DirNode (entries : gmap string NodeId)
  | Bytes (b : bytes)
  | CloneNode (next : Z)
  | Doc.

Record FidState : Type := mkFid {
  node : NodeId;
  mode : option OpenMode;
  write_buf : bytes;
  clone_name : option string;
}.

(** [FidState::at] *)
Definition fid_at (n : NodeId) : FidState := mkFid n None [] None.

Record State : Type := mkState {
  nodes : list Node;
  fids : gmap Fid FidState;
  versions : VersionTable.t;
}.

Definition set_nodes (f : list Node → list Node) (s : State) : State :=
  mkState (f (nodes s)) (fids s) (versions s).
Definition set_fids (f : gmap Fid FidState → gmap Fid FidState) (s : State) : State :=
  mkState (nodes s) (f (fids s)) (versions s).
Definition set_versions (f : VersionTable.t → VersionTable.t) (s : State) : State :=
  mkState (nodes s) (fids s) (f (versions s)).

(** [State::push] *)
Definition push (n : Node) : Op State NodeId :=
  s ← mget;
  mmodify (set_nodes (λ ns, ns ++ [n]));;
  mret (length (nodes s)).

Definition node_kind (n : Node) : FileKind :=
  match n with
  | DirNode _ => Dir
  | Bytes _ => File
  | CloneNode _ => Clone
  | Doc => File
  end.

(** [State::qid] *)
Definition qid (n : NodeId) : Op State Qid :=
  s ← mget;
  nd ← mindex (nodes s !! n);
  mret (mkQid (node_kind nd) (VersionTable.get (versions s) (Z.of_nat n)) (Z.of_nat n)).

(** [State::dir_entry] *)
Definition dir_entry (dir : NodeId) (name : string) : Op State NodeId :=
  s ← mget;
  nd ← mindex (nodes s !! dir);
  match nd with
  | DirNode entries => mlift (entries !! name) NotFound
  | _ => mfail NotDirectory
  end.

(** [State::fid] *)
Definition fid_state (f : Fid) : Op State FidState :=
  s ← mget; mlift (fids s !! f) NotFound.

(** [serviceable] *)
Definition serviceable (n : Node) (m : OpenMode) : bool :=
  match n with
  | Doc => match m with Write => true | _ => false end
  | Bytes _ | DirNode _ | CloneNode _ => match m with Read => true | _ => false end
  end.

(** Insert [name ↦ id] into the directory node 0, when it is one. *)
Definition insert_root (name : string) (id : NodeId) (ns : list Node) : list Node :=
  match ns !! 0%nat with
  | Some (DirNode entries) => <[0%nat := DirNode (<[name := id]> entries)]> ns
  | _ => ns
  end.

(** [MemFs::new] *)
Definition new : State :=
  let ns := [DirNode ∅; Bytes (into_bytes "hi"); CloneNode 0; Doc] in
  let ns := insert_root "greeting" 1%nat ns in
  let ns := insert_root "clone" 2%nat ns in
  let ns := insert_root "submit" 3%nat ns in
  mkState ns {[ROOT := fid_at 0]} VersionTable.new.

(** [MemFs::with_read_only_files]; [None] when an [assert!] fails. *)
Fixpoint add_files (files : list (string * bytes)) (ns : list Node) : option (list Node) :=
  match files with
  | [] => Some ns
  | (name, b) :: files' =>
      if negb (bool_decide (name = "")) && negb (str_contains "/" name) then
        add_files files' (insert_root name (length ns) (ns ++ [Bytes b]))
      else None
  end.
Definition with_read_only_files (files : list (string * bytes)) : option State :=
  ns ← add_files files [DirNode ∅];
  Some (mkState ns {[ROOT := fid_at 0]} VersionTable.new).
Definition with_read_only_file (name : string) (b : bytes) : option State :=
  with_read_only_files [(name, b)].
Definition empty_tree : option State := with_read_only_files [].

(** The component loop of [walk]. *)
Fixpoint walk_names (n : NodeId) (names : list string) : Op State NodeId :=
  match names with
  | [] => mret n
  | name :: names' => n' ← dir_entry n name; walk_names n' names'
  end.

Definition walk (f newfid : Fid) (names : list string) : Op State Qid :=
  s ← mget;
  if bool_decide (newfid = ROOT) || isSome (fids s !! newfid) then mfail BadRequest
  else
    fs ← fid_state f;
    n ← walk_names (node fs) names;
    mmodify (set_fids (insert newfid (fid_at n)));;
    qid n.

(** The clone branch of [open]: a fresh connection directory under the root. *)
Definition clone_open (n : NodeId) (next : Z) : Op State string :=
  mmodify (set_nodes (insert n (CloneNode (next + 1))));;
  let name := "conn-" +:+ dec_string_Z next in
  id_file ← push (Bytes (into_bytes name));
  conn_dir ← push (DirNode {["id" := id_file]});
  mmodify (set_nodes (insert_root name conn_dir));;
  mmodify (set_versions (λ v, VersionTable.bump v 0));;
  mret name.

Definition open (f : Fid) (m : OpenMode) : Op State Qid :=
  existing ← fid_state f;
  if isSome (mode existing) then mfail BadRequest
  else
    let n := node existing in
    s ← mget;
    nd ← mindex (nodes s !! n);
    if negb (serviceable nd m) then mfail NoAccess
    else
      cname ← (match nd with
               | CloneNode next => name ← clone_open n next; mret (Some name)
               | _ => mret None
               end);
      q ← qid n;
      fs ← fid_state f;
      mmodify (set_fids (insert f (mkFid (node fs) (Some m) (write_buf fs) cname)));;
      mret q.

Definition read (f : Fid) (offset : Offset) (count : Z) : Op State bytes :=
  fs ← fid_state f;
  if negb (opened_for_read (mode fs)) then mfail NoAccess
  else
    b ← (match clone_name fs with
         | Some name => mret (into_bytes name)
         | None =>
             s ← mget;
             nd ← mindex (nodes s !! node fs);
             match nd with
             | Bytes b => mret b
             | DirNode entries =>
                 mret (into_bytes (join (String "010" "") (sorted_keys entries)))
             | _ => mfail Unsupported
             end
         end);
    mret (slice b offset count).

Definition write (f : Fid) (offset : Offset) (data : bytes) : Op State Z :=
  fs ← fid_state f;
  s ← mget;
  nd ← mindex (nodes s !! node fs);
  match nd with
  | Doc =>
      if negb (opened_for_write (mode fs)) then mfail NoAccess
      else
        start ← mlift (usize_try_from offset) BadRequest;
        stop ← mlift (checked_add64 start (len data)) BadRequest;
        if MAX_DOC_BYTES <? stop then mfail BadRequest
        else
          mmodify (set_fids (insert f
            (mkFid (node fs) (mode fs) (splice (write_buf fs) start data)
                   (clone_name fs))));;
          mret (as_u32 (len data))
  | _ => mfail Unsupported
  end.

Definition stat (f : Fid) : Op State Stat :=
  fs ← fid_state f;
  q ← qid (node fs);
  s ← mget;
  nd ← mindex (nodes s !! node fs);
  let length := match nd with Bytes b => len b | _ => 0 end in
  mret (mkStat "" q length false (opened_for_write (mode fs))).

Definition create (f newfid : Fid) (name : string) (k : FileKind) : Op State Qid :=
  mfail Unsupported.

Definition remove (f : Fid) : Op State unit := mfail Unsupported.

Section json.
(** [serde_json::from_slice::<serde_json::Value>(..).is_ok()] *)
Context (json_valid : bytes → bool).

Definition clunk (f : Fid) : Op State unit :=
  if bool_decide (f = ROOT) then
    s ← mget;
    match fids s !! ROOT with
    | Some root => mmodify (set_fids (insert ROOT (mkFid (node root) None [] None)))
    | None => mret tt
    end
  else
    s ← mget;
    fs ← mlift (fids s !! f) NotFound;
    mmodify (set_fids (delete f));;
    nd ← mindex (nodes s !! node fs);
    match nd with
    | Doc => if opened_for_write (mode fs) && negb (json_valid (write_buf fs))
             then mfail BadRequest else mret tt
    | _ => mret tt
    end.

Definition MemFs_FileServer : FileServer State :=
  {| fs_walk := walk; fs_open := open; fs_read := read; fs_write := write;
     fs_stat := stat; fs_create := create; fs_remove := remove;
     fs_clunk := clunk |}.
End json.

Example reference_clone_session :
  let s := new in
  let '(s, r1) := walk ROOT 1 ["clone"] s in
  let '(s, r2) := open 1 Read s in
  let '(s, r3) := read 1 0 100 s in
  let '(s, r4) := walk ROOT 2 ["conn-0"; "id"] s in
  let '(s, r5) := open 2 Read s in
  let '(s, r6) := read 2 0 100 s in
  r3 = Ok (into_bytes "conn-0") ∧ r6 = r3.
Proof. vm_compute. done. Qed.

(** ** Frame facts *)

Definition live (s : State) : gset Fid := dom (fids s) ∖ {[ROOT]}.

(** Relates states whose live fids agree. *)
Definition same_live (s s' : State) : Prop := live s' = live s.
Global Instance same_live_preorder : PreOrder same_live.
Proof. split; [done|]. intros x y z. unfold same_live. congruence. Qed.

Lemma fid_state_reads f : step_rel (=) (fid_state f).
Proof. unfold fid_state. msteps. Qed.
Lemma qid_reads n : step_rel (=) (qid n).
Proof. unfold qid. msteps. Qed.
Lemma dir_entry_reads n name : step_rel (=) (dir_entry n name).
Proof. unfold dir_entry. msteps. Qed.
Global Hint Resolve fid_state_reads qid_reads dir_entry_reads : alan.
Lemma walk_names_reads n names : step_rel (=) (walk_names n names).
Proof. revert n. induction names; intros n; simpl; msteps. Qed.
Lemma read_reads f offset count : step_rel (=) (read f offset count).
Proof. unfold read. msteps. Qed.
Lemma stat_reads f : step_rel (=) (stat f).
Proof. unfold stat. msteps. Qed.
Global Hint Resolve walk_names_reads read_reads stat_reads : alan.

Lemma live_insert_fid f x s :
  f ≠ ROOT → live (set_fids (insert f x) s) = {[f]} ∪ live s.
Proof. intros Hf. unfold live. simpl. rewrite dom_insert_L. set_solver. Qed.

Lemma live_insert_known f x y s :
  fids s !! f = Some y → live (set_fids (insert f x) s) = live s.
Proof.
  intros Hf. unfold live. simpl. rewrite dom_insert_lookup_L; [done|].
  by rewrite Hf.
Qed.

Lemma live_insert_root x s : live (set_fids (insert ROOT x) s) = live s.
Proof. unfold live. simpl. rewrite dom_insert_L. set_solver. Qed.

Lemma live_delete f s : live (set_fids (delete f) s) = live s ∖ {[f]}.
Proof. unfold live. simpl. rewrite dom_delete_L. set_solver. Qed.

Lemma not_live s f : f ≠ ROOT → f ∈ live s ↔ is_Some (fids s !! f).
Proof. intros Hf. unfold live. rewrite elem_of_difference, elem_of_dom. set_solver. Qed.

Lemma clone_open_live n next : step_rel same_live (clone_open n next).
Proof.
  unfold clone_open, push.
  repeat first [apply step_modify; intros s; reflexivity | progress msteps].
Qed.
Global Hint Resolve clone_open_live : alan.

Lemma clone_open_fids n next s s' r :
  clone_open n next s = (s', r) → fids s' = fids s.
Proof. unfold clone_open, push. munfold. intros [= <- _]. done. Qed.

Lemma open_live f m s s' r : open f m s = (s', r) → live s' = live s.
Proof.
  unfold open. intros Ho. mcases; frame_reads; simplify_eq/=; try done;
    unfold fid_state in *; mcases; frame_reads; simplify_eq/=;
    repeat match goal with
    | H : clone_open _ _ _ = (_, _) |- _ =>
        pose proof (step_rel_elim _ _ _ _ _ (clone_open_live _ _) H); clear H
    end; try done; unfold same_live in *;
    erewrite live_insert_known by eassumption; first [congruence | done].
Qed.

Lemma walk_ok_inv f newfid names s s' q :
  walk f newfid names s = (s', Ok q) →
  ∃ n, newfid ≠ ROOT ∧ fids s !! newfid = None ∧
       s' = set_fids (insert newfid (fid_at n)) s.
Proof.
  unfold walk. intros Hw. mcases; frame_reads; simplify_eq/=; bool_facts.
  eexists. done.
Qed.

(** The reference server keeps the fid discipline. *)
Global Instance reference_fid_contract json_valid :
  FidContract (H := MemFs_FileServer json_valid) State live.
Proof.
  constructor; simpl.
  - intros s fid newfid names Hn. unfold walk. munfold.
    destruct (decide (newfid = ROOT)) as [->|Hne]; [done|].
    rewrite (bool_decide_eq_false_2 (newfid = ROOT)) by done. simpl.
    destruct Hn as [?|Hn]; [done|]. apply not_live in Hn as [x ->]; done.
  - intros s s' fid newfid names q Hw.
    destruct (walk_ok_inv _ _ _ _ _ _ Hw) as (n & Hne & _ & ->).
    by apply live_insert_fid.
  - intros s s' fid newfid names e Hw. unfold walk in Hw.
    mcases; frame_reads; simplify_eq/=; try done.
    unfold qid in *. mcases.
  - intros s s' fid m r. apply open_live.
  - intros s s' fid off n r Hr. by frame_reads.
  - intros s s' fid off d r Hw. unfold write, fid_state in Hw.
    mcases; try done; by erewrite live_insert_known.
  - intros s s' fid r Hr. by frame_reads.
  - done.
  - by intros s s' fid newfid name k e [= <- _].
  - done.
  - by intros s s' fid e [= <- _].
  - intros s s' fid r Hne Hc. unfold clunk in Hc.
    rewrite bool_decide_eq_false_2 in Hc by done. mcases; try apply live_delete.
    assert (fid ∉ live s') by (rewrite not_live by done; by intros [? ?]; simplify_eq).
    set_solver.
  - intros s. unfold live. set_solver.
Qed.

(** ** Well-formedness: no index is out of range, so no operation panics *)

Definition conn_name (n : Z) : string := "conn-" +:+ dec_string_Z n.

Record wf (s : State) : Prop := {
  wf_root : ∃ e, nodes s !! 0%nat = Some (DirNode e);
  wf_entries n e name id :
    nodes s !! n = Some (DirNode e) → e !! name = Some id →
    (id < length (nodes s))%nat;
  wf_fids f x : fids s !! f = Some x → (node x < length (nodes s))%nat;
  wf_buf f x : fids s !! f = Some x → len (write_buf x) ≤ MAX_DOC_BYTES;
  (** One clone file, and the connection numbers from its counter on are
      unused in the root. *)
  wf_clone n next :
    nodes s !! n = Some (CloneNode next) →
    n = 2%nat ∧ 0 ≤ next ∧
    ∀ e k, nodes s !! 0%nat = Some (DirNode e) → next ≤ k →
           e !! conn_name k = None;
}.

Lemma conn_name_inj a b : 0 ≤ a → 0 ≤ b → conn_name a = conn_name b → a = b.
Proof. intros ?? [= Hab]. by apply dec_string_Z_inj. Qed.

Lemma reference_wf_new : wf new.
Proof.
  constructor.
  - eexists. reflexivity.
  - intros n e name id Hn He.
    destruct n as [|[|[|[|n]]]]; simplify_eq/=. 
    rewrite !lookup_insert in He. repeat case_decide; simplify_eq/=; lia.
  - intros f x Hf. simpl in Hf. apply lookup_singleton_Some in Hf as [<- <-].
    simpl. lia.
  - intros f x Hf. simpl in Hf. apply lookup_singleton_Some in Hf as [<- <-].
    by vm_compute.
  - intros n next Hn. destruct n as [|[|[|[|n]]]]; simplify_eq/=.
    split; [done|]. split; [done|]. intros e k [= <-] Hk.
    rewrite !lookup_insert_ne by done. done.
Qed.

Lemma insert_root_eq name id e ns :
  ns !! 0%nat = Some (DirNode e) →
  insert_root name id ns = <[0%nat := DirNode (<[name := id]> e)]> ns.
Proof. intros He. unfold insert_root. by rewrite He. Qed.

(** What a clone-via-open leaves in the node arena. *)
Lemma clone_open_spec n next s e :
  nodes s !! 0%nat = Some (DirNode e) → nodes s !! n = Some (CloneNode next) →
  let L := length (nodes s) in
  clone_open n next s =
  (mkState
     (<[0%nat := DirNode (<[conn_name next := S L]> e)]>
        (<[n := CloneNode (next + 1)]> (nodes s) ++
         [Bytes (into_bytes (conn_name next)); DirNode {["id" := L]}]))
     (fids s) (VersionTable.bump (versions s) 0),
   Ok (conn_name next)).
Proof.
  intros He Hn L. unfold clone_open, push. munfold.
  assert (n ≠ 0%nat) by naive_solver.
  unfold set_nodes, set_versions; simpl. rewrite <-app_assoc. simpl.
  erewrite insert_root_eq.
  2:{ rewrite lookup_app_l; [rewrite list_lookup_insert_ne; done|].
      rewrite length_insert. by eapply lookup_lt_Some. }
  rewrite !length_app, length_insert. simpl. subst L.
  replace (length (nodes s) + 1)%nat with (S (length (nodes s))) by lia. done.
Qed.

Lemma arena_lookup (ns : list Node) n a b c d i x :
  (<[0%nat := a]> (<[n := b]> ns ++ [c; d])) !! i = Some x →
  (i = 0%nat ∧ x = a) ∨ (i = n ∧ x = b) ∨
  (i ≠ 0%nat ∧ i ≠ n ∧ ns !! i = Some x) ∨
  (i = length ns ∧ x = c) ∨ (i = S (length ns) ∧ x = d).
Proof.
  intros Hx. destruct (decide (i = 0%nat)) as [->|].
  { apply list_lookup_insert_Some in Hx. naive_solver. }
  rewrite list_lookup_insert_ne in Hx by done.
  apply lookup_app_Some in Hx as [Hx|[Hi Hx]].
  - apply list_lookup_insert_Some in Hx. naive_solver.
  - rewrite length_insert in *.
    destruct (i - length ns)%nat as [|[|k]] eqn:E; simplify_eq/=.
    + right; right; right; left. split; [lia|done].
    + right; right; right; right. split; [lia|done].
Qed.

Lemma clone_open_wf n next s :
  wf s → nodes s !! n = Some (CloneNode next) → wf (clone_open n next s).1.
Proof.
  intros Hwf Hn. destruct (wf_root _ Hwf) as [e He].
  rewrite (clone_open_spec _ _ _ _ He Hn); simpl.
  destruct (wf_clone _ Hwf _ _ Hn) as (-> & Hnext & Hfresh).
  assert (Hlen : ∀ a b c d : Node, length (<[0%nat:=a]> (<[2%nat:=b]> (nodes s) ++ [c; d]))
                 = (length (nodes s) + 2)%nat).
  { intros. by rewrite length_insert, length_app, length_insert. }
  assert (0 < length (nodes s))%nat by (by eapply lookup_lt_Some).
  constructor; simpl; rewrite ?Hlen.
  - eexists. rewrite list_lookup_insert_eq; [done|].
    rewrite length_app, length_insert. lia.
  - intros i e' name id Hi Hid. apply arena_lookup in Hi.
    destruct_or!; destruct_and?; simplify_eq/=.
    + apply lookup_insert_Some in Hid as [[_ <-]|[_ Hid]]; [lia|].
      pose proof (wf_entries _ Hwf _ _ _ _ He Hid). lia.
    + assert (id < length (nodes s))%nat by (by eapply wf_entries). lia.
    + apply lookup_singleton_Some in Hid as [_ <-]. lia.
  - intros f x Hf. pose proof (wf_fids _ Hwf _ _ Hf). lia.
  - apply (wf_buf _ Hwf).
  - intros i next' Hi. apply arena_lookup in Hi.
    destruct_or!; destruct_and?; simplify_eq/=.
    + split; [done|]. split; [lia|]. intros e' k Hroot Hk.
      apply arena_lookup in Hroot. destruct_or!; destruct_and?; simplify_eq/=; [|lia..].
      rewrite lookup_insert_ne; [apply (Hfresh e); [done|lia]|].
      intros Heq%conn_name_inj; lia.
    + by edestruct (wf_clone _ Hwf).
Qed.

Lemma wf_set_fid f x s :
  wf s → (node x < length (nodes s))%nat → len (write_buf x) ≤ MAX_DOC_BYTES →
  wf (set_fids (insert f x) s).
Proof.
  intros [? ? Hf Hb ?] Hn Hw. constructor; simpl; try done.
  - intros g y [[_ <-]|[_ Hy]]%lookup_insert_Some; eauto.
  - intros g y [[_ <-]|[_ Hy]]%lookup_insert_Some; eauto.
Qed.

Lemma wf_delete_fid f s : wf s → wf (set_fids (delete f) s).
Proof.
  intros [? ? Hf Hb ?]. constructor; simpl; try done;
    intros g y [_ Hy]%lookup_delete_Some; eauto.
Qed.

Lemma doc_bytes_nonneg : 0 ≤ MAX_DOC_BYTES.
Proof. by vm_compute. Qed.

Lemma walk_names_ok n names s s' r :
  wf s → (n < length (nodes s))%nat → walk_names n names s = (s', r) →
  r ≠ Panic ∧ ∀ m, r = Ok m → (m < length (nodes s))%nat.
Proof.
  intros Hwf. revert n. induction names as [|name names IH]; intros n Hn; simpl.
  { unfold mret, m_ret. intros [= <- <-]. naive_solver. }
  unfold dir_entry. munfold. apply lookup_lt_is_Some in Hn as [x Hx]. rewrite Hx.
  destruct x; simpl; [|naive_solver..].
  destruct (entries !! name) as [id|] eqn:Hid; [|naive_solver].
  apply IH. by eapply wf_entries.
Qed.

Lemma qid_ok n s : (n < length (nodes s))%nat → ∃ q, qid n s = (s, Ok q).
Proof. intros [x Hx]%lookup_lt_is_Some. unfold qid. munfold. rewrite Hx. eauto. Qed.

Lemma walk_wf f newfid names s s' r :
  wf s → walk f newfid names s = (s', r) → wf s' ∧ r ≠ Panic.
Proof.
  intros Hwf. unfold walk, fid_state. munfold.
  case_match; [naive_solver|]. destruct (fids s !! f) as [x|] eqn:Hf; [|naive_solver].
  destruct (walk_names (node x) names s) as [s1 r1] eqn:Hw. frame_reads.
  destruct (walk_names_ok _ _ _ _ _ Hwf (wf_fids _ Hwf _ _ Hf) Hw) as [Hp Hm].
  destruct r1 as [m|e| |]; [|naive_solver..].
  destruct (qid_ok m (set_fids (insert newfid (fid_at m)) s)) as [q ->]; [by apply Hm|].
  intros [= <- <-]. split; [|done]. apply wf_set_fid; simpl; auto.
  apply doc_bytes_nonneg.
Qed.

Lemma open_wf f m s s' r : wf s → open f m s = (s', r) → wf s' ∧ r ≠ Panic.
Proof.
  intros Hwf. unfold open, fid_state. mrun.
  destruct (fids s !! f) as [x|] eqn:Hf; [|naive_solver].
  case_match; [naive_solver|].
  pose proof (wf_fids _ Hwf _ _ Hf) as Hn. pose proof (wf_buf _ Hwf _ _ Hf) as Hb.
  destruct (lookup_lt_is_Some_2 _ _ Hn) as [nd Hnd]. rewrite Hnd. mrun.
  case_match; [naive_solver|].
  destruct (qid_ok (node x) s Hn) as [q0 Hq].
  destruct nd as [e0|b0|next|];
    try (rewrite Hq, Hf; intros [= <- <-]; split; [by apply wf_set_fid|done]).
  destruct (wf_root _ Hwf) as [e He].
  pose proof (clone_open_wf _ _ _ Hwf Hnd) as Hwf'.
  rewrite (clone_open_spec _ _ _ _ He Hnd) in *. cbn [fst] in *. cbv beta iota.
  match goal with |- context [qid (node x) ?s1] => set (s2 := s1) in * end.
  assert (node x < length (nodes s2))%nat as Hn2.
  { subst s2. simpl. rewrite length_insert, length_app, length_insert. simpl. lia. }
  destruct (qid_ok (node x) s2 Hn2) as [q ->].
  change (fids s2) with (fids s). rewrite Hf. intros [= <- <-]. split; [|done].
  by apply wf_set_fid.
Qed.

Lemma write_wf f offset data s s' r :
  wf s → 0 ≤ offset → write f offset data s = (s', r) → wf s' ∧ r ≠ Panic.
Proof.
  intros Hwf Ho. unfold write, fid_state. munfold.
  destruct (fids s !! f) as [x|] eqn:Hf; [|naive_solver].
  pose proof (wf_fids _ Hwf _ _ Hf) as Hn. pose proof (wf_buf _ Hwf _ _ Hf) as Hb.
  destruct (lookup_lt_is_Some_2 _ _ Hn) as [nd Hnd]. rewrite Hnd.
  unfold usize_try_from, checked_add64. intros Hw. mcases; try done.
  split; [|done]. bool_facts.
  apply wf_set_fid; simpl; [done..|]. rewrite splice_length by done. lia.
Qed.

Lemma clunk_wf json_valid f s s' r :
  wf s → clunk json_valid f s = (s', r) → wf s' ∧ r ≠ Panic.
Proof.
  intros Hwf. unfold clunk. case_bool_decide; munfold.
  - destruct (fids s !! ROOT) as [x|] eqn:Hf; [|naive_solver].
    intros [= <- <-]. split; [|done]. apply wf_set_fid; simpl; [done| |].
    + by eapply wf_fids.
    + apply doc_bytes_nonneg.
  - destruct (fids s !! f) as [x|] eqn:Hf; [|naive_solver].
    destruct (lookup_lt_is_Some_2 _ _ (wf_fids _ Hwf _ _ Hf)) as [nd Hnd].
    rewrite Hnd. intros Hc.
    assert (s' = set_fids (delete f) s ∧ r ≠ Panic) as [-> ?] by (mcases; naive_solver).
    split; [by apply wf_delete_fid|done].
Qed.

Lemma read_no_panic f offset count s s' r :
  wf s → read f offset count s = (s', r) → wf s' ∧ r ≠ Panic.
Proof.
  intros Hwf Hr. pose proof Hr as Hr'. frame_reads. split; [done|].
  unfold read, fid_state in Hr'. munfold.
  destruct (fids s !! f) as [x|] eqn:Hf; [|naive_solver].
  destruct (lookup_lt_is_Some_2 _ _ (wf_fids _ Hwf _ _ Hf)) as [nd Hnd].
  mcases; congruence.
Qed.

Lemma stat_no_panic f s s' r : wf s → stat f s = (s', r) → wf s' ∧ r ≠ Panic.
Proof.
  intros Hwf Hr. pose proof Hr as Hr'. frame_reads. split; [done|].
  unfold stat, fid_state, qid in Hr'. munfold.
  destruct (fids s !! f) as [x|] eqn:Hf; [|naive_solver].
  destruct (lookup_lt_is_Some_2 _ _ (wf_fids _ Hwf _ _ Hf)) as [nd Hnd].
  mcases; congruence.
Qed.

(** Offsets and counts on the wire are unsigned. *)
Definition request_wf (r : Request) : Prop :=
  match r with
  | ReadReq _ o c => 0 ≤ o ∧ 0 ≤ c
  | WriteReq _ o _ => 0 ≤ o
  | _ => True
  end.

(** From a well-formed state every request leaves the reference server
    well-formed (indices in range, document buffers within 1 MiB, unused
    connection names free) and never panics. *)
Theorem reference_call_safe json_valid (req : Request) (s s' : State) r :
  wf s → request_wf req →
  transport_call (H := MemFs_FileServer json_valid) req s = (s', r) →
  wf s' ∧ r ≠ Panic.
Proof.
  intros Hwf Hreq. destruct req; simpl; unfold mbind, m_bind, mret, m_ret.
  - destruct (walk _ _ _ s) as [s1 r1] eqn:E. apply walk_wf in E as [??]; [|done].
    destruct r1; naive_solver.
  - destruct (open _ _ s) as [s1 r1] eqn:E. apply open_wf in E as [??]; [|done].
    destruct r1; naive_solver.
  - destruct (read _ _ _ s) as [s1 r1] eqn:E. apply read_no_panic in E as [??]; [|done].
    destruct r1; naive_solver.
  - destruct (write _ _ _ s) as [s1 r1] eqn:E. apply write_wf in E as [??]; [|done..].
    destruct r1; naive_solver.
  - destruct (stat _ s) as [s1 r1] eqn:E. apply stat_no_panic in E as [??]; [|done].
    destruct r1; naive_solver.
  - naive_solver.
  - naive_solver.
  - destruct (clunk _ _ s) as [s1 r1] eqn:E. apply clunk_wf in E as [??]; [|done].
    destruct r1; naive_solver.
Qed.

Lemma reference_call_safe_witness :
  wf (transport_call (H := MemFs_FileServer (λ _, true)) (OpenReq 0 Read) new).1.
Proof.
  eapply (proj1 (reference_call_safe (λ _, true) (OpenReq 0 Read) new _ _ reference_wf_new I _)).
  Unshelve. 2: reflexivity.
Defined.

(** Opening the clone file allocates a connection that did not exist: its
    name is absent from the root before, the fid reads the name back, walking
    the name from the root reaches an [id] file holding that name, other root
    entries stay, and the root's qid version changes. *)
Theorem reference_clone_allocates (s : State) (f : Fid) (x : FidState) (next : Z)
    (e : gmap string NodeId) (count : Z) :
  wf s → VersionTable.wf (versions s) →
  fids s !! f = Some x → mode x = None →
  nodes s !! node x = Some (CloneNode next) →
  nodes s !! 0%nat = Some (DirNode e) →
  len (into_bytes (conn_name next)) ≤ count →
  e !! conn_name next = None ∧
  ∃ s' q e' id,
    open f Read s = (s', Ok q) ∧
    read f 0 count s' = (s', Ok (into_bytes (conn_name next))) ∧
    walk_names 0 [conn_name next; "id"] s' = (s', Ok id) ∧
    nodes s' !! id = Some (Bytes (into_bytes (conn_name next))) ∧
    nodes s' !! 0%nat = Some (DirNode e') ∧
    (∀ name, name ≠ conn_name next → e' !! name = e !! name) ∧
    VersionTable.get (versions s') 0 ≠ VersionTable.get (versions s) 0.
Proof.
  intros Hwf Hv Hf Hm Hn He Hc.
  destruct (wf_clone _ Hwf _ _ Hn) as (Hnode & Hnext & Hfresh).
  split; [by eapply Hfresh|].
  pose proof (lookup_lt_Some _ _ _ Hn) as Hlt.
  set (L := length (nodes s)).
  set (e' := <[conn_name next := S L]> e).
  set (s1 := mkState
     (<[0%nat := DirNode e']>
        (<[node x := CloneNode (next + 1)]> (nodes s) ++
         [Bytes (into_bytes (conn_name next)); DirNode {["id" := L]}]))
     (fids s) (VersionTable.bump (versions s) 0)).
  set (s2 := set_fids (insert f (mkFid (node x) (Some Read) (write_buf x)
                                       (Some (conn_name next)))) s1).
  assert (length (nodes s1) = L + 2)%nat as HL.
  { simpl. rewrite length_insert, length_app, length_insert. done. }
  assert (Hhi : ∀ i y, [Bytes (into_bytes (conn_name next)); DirNode {["id" := L]}] !! i
                 = Some y → nodes s2 !! (L + i)%nat = Some y).
  { intros i y Hi. simpl. rewrite list_lookup_insert_ne by lia.
    rewrite lookup_app_r by (rewrite length_insert; lia).
    rewrite length_insert. fold L. by replace (L + i - L)%nat with i by lia. }
  assert (Hroot : nodes s2 !! 0%nat = Some (DirNode e')).
  { simpl. apply list_lookup_insert_eq. rewrite length_app, length_insert. lia. }
  destruct (qid_ok (node x) s1) as [q Hq]; [lia|].
  exists s2, q, e', L. split_and!.
  - unfold open, fid_state. mrun. rewrite Hf, Hm. cbn [isSome]. mrun. rewrite Hn. mrun.
    change (negb (serviceable (CloneNode next) Read)) with false. cbv beta iota.
    rewrite (clone_open_spec _ _ _ _ He Hn). fold L e' s1.
    rewrite Hq. change (fids s1) with (fids s). rewrite Hf. done.
  - unfold read, fid_state. mrun. unfold s2 at 1. simpl.
    rewrite lookup_insert_eq. simpl. by rewrite slice_all.
  - simpl walk_names. unfold dir_entry. mrun. rewrite Hroot. mrun.
    unfold e' at 1. rewrite lookup_insert_eq. mrun.
    pose proof (Hhi 1%nat _ eq_refl) as H1. rewrite Nat.add_1_r in H1.
    rewrite H1. mrun. by rewrite lookup_singleton_eq.
  - rewrite <-(Hhi 0%nat _ eq_refl). by rewrite Nat.add_0_r.
  - done.
  - intros name Hne. unfold e'. by rewrite lookup_insert_ne.
  - by apply VersionTable.bump_distinct.
Qed.

Definition clone_walked : State := (walk ROOT 5 ["clone"] new).1.

Lemma reference_clone_allocates_witness :
  ∃ e : gmap string NodeId, e !! conn_name 0 = None ∧
  ∃ s' q (e' : gmap string NodeId) id, open 5 Read clone_walked = (s', Ok q) ∧
    read 5 0 6 s' = (s', Ok (into_bytes (conn_name 0))) ∧
    walk_names 0 [conn_name 0; "id"] s' = (s', Ok id) ∧
    nodes s' !! id = Some (Bytes (into_bytes (conn_name 0))) ∧
    nodes s' !! 0%nat = Some (DirNode e') ∧
    (∀ name, name ≠ conn_name 0 → e' !! name = e !! name) ∧
    VersionTable.get (versions s') 0 ≠ VersionTable.get (versions clone_walked) 0.
Proof.
  eexists.
  apply (reference_clone_allocates clone_walked 5 (fid_at 2) 0 _ 6).
  - apply (walk_wf ROOT 5 ["clone"] new _ _ reference_wf_new (surjective_pairing _)).
  - apply VersionTable.versions_wf_new.
  - reflexivity.
  - reflexivity.
  - reflexivity.
  - reflexivity.
  - vm_compute. congruence.
Defined.
