(* ===== verification/Namespace.v ===== *)
(** * The per-process namespace engine (crates/kernel/src/namespace.rs)

    A mount table resolved by longest prefix, most recent mount first. The
    mounted trees are handles into a world of file servers: [Tree] names them
    and [tree_call] carries a request to one. *)
From S2P Require Import Prelude RustStd ApTypes ApServer.

Inductive Access : Set := AccessReadOnly | AccessReadWrite.
Global Instance Access_eq_dec : EqDecision Access.
Proof. solve_decision. Defined.

(** [Access::allows] *)
Definition allows (a : Access) (m : OpenMode) : bool :=
  match a, m with
  | AccessReadWrite, _ => true
  | AccessReadOnly, Read => true
  | AccessReadOnly, (Write | ReadWrite) => false
  end.

(** Whether a request would mutate the tree. *)
Definition is_mutating (request : Request) : bool :=
  match request with
  | WriteReq _ _ _ | CreateReq _ _ _ _ | RemoveReq _ => true
  | OpenReq _ m => mode_writes m
  | _ => false
  end.

Definition satisfies_access (granted requested : Access) : bool :=
  match granted, requested with
  | AccessReadWrite, (AccessReadWrite | AccessReadOnly) => true
  | AccessReadOnly, AccessReadOnly => true
  | AccessReadOnly, AccessReadWrite => false
  end.

Definition restrict_access (granted ceiling : Access) : Access :=
  match granted, ceiling with
  | AccessReadOnly, _ | _, AccessReadOnly => AccessReadOnly
  | AccessReadWrite, AccessReadWrite => AccessReadWrite
  end.

Definition is_stricter_access (access ceiling : Access) : bool :=
  match access, ceiling with
  | AccessReadOnly, AccessReadWrite => true
  | _, _ => false
  end.

(** Whether [p] is a path-prefix of [components]. *)
Definition is_prefix (p components : list string) : bool :=
  (length p <=? length components)%nat &&
  forallb (λ '(a, b), bool_decide (a = b)) (zip p components).

(** First index whose element satisfies a test. *)
Fixpoint find_index {A} (f : A → bool) (l : list A) : option nat :=
  match l with
  | [] => None
  | x :: l' => if f x then Some 0%nat else S <$> find_index f l'
  end.

Section namespace.
Context {Tree : Type}.

Record Resolved : Type := mkResolved {
  r_tree : Tree; rel : list string; r_access : Access }.

Record Mount : Type := mkMount {
  m_prefix : list string; m_tree : Tree; m_access : Access }.

Record Namespace : Type := mkNamespace { mounts : list Mount }.

Definition ns_new : Namespace := mkNamespace [].

Definition mount (at_ : string) (tree : Tree) (access : Access) (ns : Namespace) :
    Namespace :=
  mkNamespace (mounts ns ++ [mkMount (split_path at_) tree access]).

Definition bind (new existing : string) (ns : Namespace) : Namespace :=
  let existing_prefix := split_path existing in
  let new_prefix := split_path new in
  let aliases :=
    (λ m, mkMount new_prefix (m_tree m) (m_access m)) <$>
    filter (λ m, m_prefix m = existing_prefix) (mounts ns) in
  mkNamespace (mounts ns ++ aliases).

Definition unmount (at_ : string) (ns : Namespace) : Namespace :=
  let p := split_path at_ in
  mkNamespace (filter (λ m, m_prefix m ≠ p) (mounts ns)).

Definition union_at (path : string) (ns : Namespace) : list Resolved :=
  let p := split_path path in
  (λ m, mkResolved (m_tree m) [] (m_access m)) <$>
  filter (λ m, m_prefix m = p) (mounts ns).

Definition child (ns : Namespace) : Namespace :=
  mkNamespace ((λ m, mkMount (m_prefix m) (m_tree m) (m_access m)) <$> mounts ns).

Definition child_with_path_substitution (token replacement : string)
    (ns : Namespace) : Namespace :=
  mkNamespace
    ((λ m, mkMount (str_replace token replacement <$> m_prefix m)
                   (m_tree m) (m_access m)) <$> mounts ns).

(** The mounts one declaration of [project_mounts] contributes. *)
Definition project_one (ns : Namespace) (d : string * string * Access) :
    option (list Mount) :=
  let '(target, source, requested) := d in
  let source_prefix := split_path source in
  let target_prefix := split_path target in
  source_mount ← head (filter (λ m, m_prefix m = source_prefix)
                              (reverse (mounts ns)));
  if negb (satisfies_access (m_access source_mount) requested) then None
  else
    Some ((λ m, mkMount (target_prefix ++ drop (length source_prefix) (m_prefix m))
                        (m_tree m)
                        (match requested with
                         | AccessReadOnly => AccessReadOnly
                         | AccessReadWrite => m_access m
                         end)) <$>
          filter (λ m, is_prefix source_prefix (m_prefix m) = true) (mounts ns)).

(** [None] models [Err(Unreachable)]. *)
Fixpoint project_go (ns : Namespace) (ds : list (string * string * Access)) :
    option (list Mount) :=
  match ds with
  | [] => Some []
  | d :: ds' => ms ← project_one ns d; rest ← project_go ns ds'; Some (ms ++ rest)
  end.
Definition project_mounts (ds : list (string * string * Access)) (ns : Namespace) :
    option Namespace :=
  mkNamespace <$> project_go ns ds.

(** The loop of [resolve]: a later mount replaces the best one when its prefix
    is at least as long. *)
Definition better (components : list string) (best : option Mount) (m : Mount) :
    option Mount :=
  if is_prefix (m_prefix m) components then
    match best with
    | Some b => if (length (m_prefix b) <=? length (m_prefix m))%nat
                then Some m else best
    | None => Some m
    end
  else best.

Definition resolved_at (components : list string) (m : Mount) : Resolved :=
  mkResolved (m_tree m) (drop (length (m_prefix m)) components) (m_access m).

Definition resolve (path : string) (ns : Namespace) : option Resolved :=
  let components := split_path path in
  resolved_at components <$> foldl (better components) None (mounts ns).

Definition describe (ns : Namespace) : list (string * Access) :=
  (λ m, (join_path (m_prefix m), m_access m)) <$> mounts ns.

Definition max_list (l : list nat) : option nat :=
  match l with [] => None | n :: l' => Some (foldl Nat.max n l') end.

Definition resolve_candidates (path : string) (ns : Namespace) : list Resolved :=
  let components := split_path path in
  let matching := filter (λ m, is_prefix (m_prefix m) components = true) (mounts ns) in
  match max_list ((λ m, length (m_prefix m)) <$> matching) with
  | None => []
  | Some max_len =>
      resolved_at components <$>
      reverse (filter (λ m, is_prefix (m_prefix m) components = true ∧
                            length (m_prefix m) = max_len) (mounts ns))
  end.

(** ** [restrict_to_mounts]: explicit selections and preserved overmounts *)

(** One step of the selection loop: the first mount not yet selected with this
    prefix and enough access. *)
Definition select_one (ms : list Mount) (explicit : list (option Access))
    (req : string * Access) : option (list (option Access)) :=
  let '(requested_path, requested_access) := req in
  let requested_prefix := split_path requested_path in
  index ← find_index (λ '(m, e), negb (isSome e) &&
                        bool_decide (m_prefix m = requested_prefix) &&
                        satisfies_access (m_access m) requested_access)
                     (zip ms explicit);
  Some (<[index := Some requested_access]> explicit).

Fixpoint select_all (ms : list Mount) (explicit : list (option Access))
    (reqs : list (string * Access)) : option (list (option Access)) :=
  match reqs with
  | [] => Some explicit
  | req :: reqs' => explicit' ← select_one ms explicit req; select_all ms explicit' reqs'
  end.

Definition nearer (descendant : Mount) (best : option (nat * Access))
    (x : Mount * option Access) : option (nat * Access) :=
  match x with
  | (_, None) => best
  | (ancestor, Some access) =>
      if (length (m_prefix ancestor) <? length (m_prefix descendant))%nat &&
         is_prefix (m_prefix ancestor) (m_prefix descendant) then
        match best with
        | Some (best_len, _) =>
            if (length (m_prefix ancestor) <=? best_len)%nat then best
            else Some (length (m_prefix ancestor), access)
        | None => Some (length (m_prefix ancestor), access)
        end
      else best
  end.

Definition nearest_explicit_ancestor_access (ms : list Mount)
    (explicit : list (option Access)) (descendant : Mount) : option Access :=
  snd <$> foldl (nearer descendant) None (zip ms explicit).

Definition omitted_descendant_is_restrictive (m : Mount) (ceiling : Access) : bool :=
  is_stricter_access (restrict_access (m_access m) ceiling) ceiling.

Definition preserved_overmount_access (ms : list Mount)
    (explicit : list (option Access)) (m : Mount) : option Access :=
  ceiling ← nearest_explicit_ancestor_access ms explicit m;
  if omitted_descendant_is_restrictive m ceiling
  then Some (restrict_access (m_access m) ceiling) else None.

Definition has_unsafe_omitted_descendant (ms : list Mount)
    (explicit : list (option Access)) : bool :=
  existsb (λ '(m, e),
    if isSome e then false
    else match nearest_explicit_ancestor_access ms explicit m with
         | Some ceiling => negb (omitted_descendant_is_restrictive m ceiling)
         | None => false
         end) (zip ms explicit).

Definition kept_access (ms : list Mount) (explicit : list (option Access))
    (x : Mount * option Access) : option Access :=
  match x.2 with
  | Some a => Some a
  | None => preserved_overmount_access ms explicit x.1
  end.

Definition restrict_to_mounts (requested : list (string * Access)) (ns : Namespace) :
    option Namespace :=
  explicit ← select_all (mounts ns) (replicate (length (mounts ns)) None) requested;
  if has_unsafe_omitted_descendant (mounts ns) explicit then None
  else Some (mkNamespace
    (omap (λ x, a ← kept_access (mounts ns) explicit x;
                Some (mkMount (m_prefix x.1) (m_tree x.1) a))
          (zip (mounts ns) explicit))).

(** ** [Resolved::call]: the access boundary *)
Section call.
Context {W : Type} (tree_call : Tree → Request → Op W Response).

Definition resolved_call (r : Resolved) (request : Request) : Op W Response :=
  if bool_decide (r_access r = AccessReadOnly) && is_mutating request
  then mfail NoAccess
  else
    response ← tree_call (r_tree r) request;
    match r_access r, response with
    | AccessReadOnly, StatResp st =>
        mret (StatResp (mkStat (stat_name st) (stat_qid st) (stat_length st)
                               (executable st) false))
    | _, _ => mret response
    end.
End call.
End namespace.
Arguments Resolved : clear implicits.
Arguments Mount : clear implicits.
Arguments Namespace : clear implicits.

Example resolve_example :
  let ns := mount "/mnt/llm" 2 AccessReadOnly (mount "/" 1 AccessReadWrite ns_new) in
  resolve "/mnt/llm/c/1" ns = Some (mkResolved 2 ["c"; "1"] AccessReadOnly) ∧
  resolve "/mnt" ns = Some (mkResolved 1 ["mnt"] AccessReadWrite) ∧
  restrict_to_mounts [("/", AccessReadWrite)] ns = Some ns.
Proof. vm_compute. done. Qed.
