(* ===== verification/NamespaceFacts.v ===== *)
(** * What the namespace engine guarantees

    Resolution picks the longest prefix and the most recent mount; projecting
    or restricting a namespace never adds authority; a manifest taken from a
    namespace restores it. *)
From S2P Require Import Prelude RustStd ApTypes ApServer Namespace.

(** ** Prefixes *)

Lemma is_prefix_spec p c : is_prefix p c = true ↔ p `prefix_of` c.
Proof.
  unfold is_prefix. revert c. induction p as [|x p IH]; intros c; simpl.
  { split; [|done]. intros _. apply prefix_nil. }
  destruct c as [|y c]; simpl.
  { split; [done|]. intros [k Hk]. done. }
  rewrite andb_assoc, (andb_comm _ (bool_decide _)), <-andb_assoc.
  rewrite andb_true_iff, IH, bool_decide_eq_true. split.
  - intros [-> Hp]. by apply prefix_cons.
  - intros Hp. split; [by eapply prefix_cons_inv_1|by eapply prefix_cons_inv_2].
Qed.

Lemma prefix_same_length {A} (p q c : list A) :
  p `prefix_of` c → q `prefix_of` c → length p = length q → p = q.
Proof.
  intros [k1 ->] [k2 Hk] Hl. by apply app_inj_1 in Hk as [-> _].
Qed.

Lemma prefix_shorter {A} (p q c : list A) :
  p `prefix_of` c → q `prefix_of` c → (length p ≤ length q)%nat → p `prefix_of` q.
Proof.
  intros Hp Hq Hl. destruct (prefix_weak_total p q c Hp Hq) as [?|Hqp]; [done|].
  by rewrite (prefix_length_eq _ _ Hqp Hl).
Qed.

(** ** Longest-prefix resolution *)

Lemma list_eq_nil_filter {A} (P : A → Prop) `{!∀ x, Decision (P x)} (l : list A) :
  (∀ x, x ∈ l → ¬ P x) → filter P l = [].
Proof.
  induction l as [|x l IH]; intros Hl; [done|].
  rewrite filter_cons_False by (apply Hl; apply list_elem_of_here).
  apply IH. intros y Hy. apply Hl. by apply list_elem_of_further.
Qed.

Lemma max_list_app l x :
  max_list (l ++ [x]) =
  Some (match max_list l with None => x | Some n => Nat.max n x end).
Proof. destruct l as [|y l]; simpl; [done|]. by rewrite foldl_app. Qed.

Lemma max_list_None l : max_list l = None ↔ l = [].
Proof. by destruct l. Qed.

Lemma max_list_spec l n :
  max_list l = Some n ↔ n ∈ l ∧ ∀ x, x ∈ l → (x ≤ n)%nat.
Proof.
  revert n. induction l as [|x l IH] using rev_ind; intros n.
  { split; [done|]. intros [Hn _]. by apply not_elem_of_nil in Hn. }
  rewrite max_list_app.
  destruct (max_list l) as [k|] eqn:Hk.
  - pose proof (proj1 (IH k) eq_refl) as [Hin Hle]. split.
    + intros [= <-]. split.
      * rewrite elem_of_app, list_elem_of_singleton.
        destruct (Nat.max_spec k x) as [[? ->]|[? ->]]; auto.
      * intros y. rewrite elem_of_app, list_elem_of_singleton.
        intros [Hy| ->]; [pose proof (Hle y Hy)|]; lia.
    + rewrite elem_of_app, list_elem_of_singleton. intros [Hn Hall]. f_equal.
      assert (x ≤ n)%nat by (apply Hall; set_solver).
      assert (k ≤ n)%nat by (apply Hall; set_solver).
      destruct Hn as [Hn| ->]; [pose proof (Hle n Hn)|]; lia.
  - apply max_list_None in Hk as ->. simpl. split.
    + intros [= ->]. set_solver.
    + rewrite list_elem_of_singleton. intros [-> _]. done.
Qed.

Section resolution.
Context {Tree : Type}.
Implicit Types (m : Mount Tree) (ms : list (Mount Tree)) (ns : Namespace Tree).

(** Mount prefixes are lists of path components, as [split_path] makes them. *)
Definition prefix_valid m : Prop :=
  Forall (λ w, valid_component w = true) (m_prefix m).
Definition ns_valid ns : Prop := Forall prefix_valid (mounts ns).

(** [m] is a contributor of longest matching prefix for [comps]. *)
Definition longest_at (comps : list string) ms m : Prop :=
  m ∈ ms ∧ m_prefix m `prefix_of` comps ∧
  ∀ m', m' ∈ ms → m_prefix m' `prefix_of` comps →
        (length (m_prefix m') ≤ length (m_prefix m))%nat.

Definition matching (comps : list string) ms : list (Mount Tree) :=
  filter (λ m, is_prefix (m_prefix m) comps = true) ms.

(** The contributors [resolve_candidates] keeps, in mount order. *)
Definition best_list (comps : list string) ms : list (Mount Tree) :=
  match max_list ((λ m, length (m_prefix m)) <$> matching comps ms) with
  | None => []
  | Some k => filter (λ m, is_prefix (m_prefix m) comps = true ∧
                           length (m_prefix m) = k) ms
  end.

Lemma resolve_candidates_best path ns :
  resolve_candidates path ns =
  resolved_at (split_path path) <$> reverse (best_list (split_path path) (mounts ns)).
Proof.
  unfold resolve_candidates, best_list, matching. by destruct (max_list _).
Qed.

Lemma elem_of_best_list comps ms m :
  m ∈ best_list comps ms ↔ longest_at comps ms m.
Proof.
  unfold best_list, longest_at. destruct (max_list _) as [k|] eqn:Hk.
  - apply max_list_spec in Hk as [Hin Hle]. rewrite list_elem_of_filter.
    apply list_elem_of_fmap in Hin as (m0 & -> & Hm0).
    unfold matching in *. rewrite list_elem_of_filter in Hm0.
    destruct Hm0 as [Hp0 Hm0]. rewrite is_prefix_spec in *.
    assert (Hle' : ∀ m', m' ∈ ms → m_prefix m' `prefix_of` comps →
              (length (m_prefix m') ≤ length (m_prefix m0))%nat).
    { intros m' Hm' Hp'. apply Hle, list_elem_of_fmap. exists m'.
      by rewrite list_elem_of_filter, is_prefix_spec. }
    split.
    + intros [[Hp Hl] Hm]. split_and!; [done..|]. intros m' Hm' Hp'.
      rewrite Hl. auto.
    + intros (Hm & Hp & Hall). split_and!; [done| |done].
      pose proof (Hle' _ Hm Hp). pose proof (Hall _ Hm0 Hp0). lia.
  - apply max_list_None, fmap_nil_inv in Hk. split.
    + by intros ?%not_elem_of_nil.
    + intros (Hm & Hp & _). exfalso. apply (not_elem_of_nil m). rewrite <-Hk.
      apply list_elem_of_filter. by rewrite is_prefix_spec.
Qed.

Lemma candidates_longest_iff path ns r :
  r ∈ resolve_candidates path ns ↔
  ∃ m, longest_at (split_path path) (mounts ns) m ∧
       r = resolved_at (split_path path) m.
Proof.
  rewrite resolve_candidates_best, list_elem_of_fmap.
  split.
  - intros (m & -> & Hm). rewrite elem_of_reverse, elem_of_best_list in Hm. eauto.
  - intros (m & Hm & ->). exists m. rewrite elem_of_reverse, elem_of_best_list. auto.
Qed.

(** A path at or below a mount has a candidate. *)
Lemma candidates_nonempty path ns m :
  m ∈ mounts ns → m_prefix m `prefix_of` split_path path →
  resolve_candidates path ns ≠ [].
Proof.
  intros Hm Hp Hnil.
  assert (matching (split_path path) (mounts ns) ≠ []) as Hmat.
  { intros Hx. apply (not_elem_of_nil m). rewrite <- Hx. unfold matching.
    by rewrite list_elem_of_filter, is_prefix_spec. }
  rewrite resolve_candidates_best in Hnil. apply fmap_nil_inv in Hnil.
  apply (f_equal reverse) in Hnil. rewrite reverse_involutive, reverse_nil in Hnil.
  unfold best_list in Hnil. destruct (max_list _) as [k|] eqn:Hk.
  - apply max_list_spec in Hk as [(m0 & -> & Hm0)%list_elem_of_fmap _].
    unfold matching in Hm0. apply list_elem_of_filter in Hm0 as [Hp0 Hm0].
    apply (not_elem_of_nil m0). rewrite <- Hnil. by apply list_elem_of_filter.
  - by apply max_list_None, fmap_nil_inv in Hk.
Qed.

(** A resource is a resolution candidate of a path exactly when it is a
    mount of this namespace whose prefix matches and no matching mount has a
    longer prefix; the rest of the path is walked inside it with the access
    of that mount. *)
Theorem candidates_are_longest path ns r :
  r ∈ resolve_candidates path ns ↔
  ∃ m, longest_at (split_path path) (mounts ns) m ∧
       r = resolved_at (split_path path) m.
Proof. apply candidates_longest_iff. Qed.

Lemma best_list_snoc comps ms m :
  best_list comps (ms ++ [m]) =
  if is_prefix (m_prefix m) comps then
    match best_list comps ms with
    | [] => [m]
    | b :: _ => if (length (m_prefix b) <? length (m_prefix m))%nat then [m]
                else if (length (m_prefix b) =? length (m_prefix m))%nat
                then best_list comps ms ++ [m] else best_list comps ms
    end
  else best_list comps ms.
Proof.
  unfold best_list, matching. rewrite filter_app, fmap_app.
  destruct (is_prefix (m_prefix m) comps) eqn:Hp.
  2:{ rewrite (filter_cons_False _ m) by congruence. simpl. rewrite app_nil_r.
      destruct (max_list _) as [k|]; [|done]. rewrite filter_app.
      rewrite (filter_cons_False _ m) by (intros [? _]; congruence).
      by rewrite app_nil_r. }
  rewrite (filter_cons_True _ m) by done. simpl. rewrite max_list_app.
  destruct (max_list _) as [k|] eqn:Hk.
  2:{ apply max_list_None, fmap_nil_inv in Hk. rewrite filter_app.
      rewrite (filter_cons_True _ m) by done. simpl.
      enough (filter (λ m0, is_prefix (m_prefix m0) comps = true ∧
                length (m_prefix m0) = length (m_prefix m)) ms = []) as ->; [done|].
      apply list_eq_nil_filter. intros x Hx [Hpx _].
      apply (not_elem_of_nil x). rewrite <-Hk. by apply list_elem_of_filter. }
  apply max_list_spec in Hk as [Hin Hle].
  assert (Hmax : ∀ x, x ∈ ms → is_prefix (m_prefix x) comps = true →
            (length (m_prefix x) ≤ k)%nat).
  { intros x Hx Hpx. apply Hle, list_elem_of_fmap. exists x.
    by rewrite list_elem_of_filter. }
  destruct (filter (λ m0, is_prefix (m_prefix m0) comps = true ∧
              length (m_prefix m0) = k) ms) as [|b l] eqn:Hf.
  { exfalso. apply list_elem_of_fmap in Hin as (m0 & -> & Hm0).
    apply list_elem_of_filter in Hm0 as [Hp0 Hm0].
    apply (not_elem_of_nil m0). rewrite <-Hf. by apply list_elem_of_filter. }
  assert (length (m_prefix b) = k) as Hb.
  { assert (b ∈ b :: l) as Hbl by apply list_elem_of_here.
    rewrite <-Hf in Hbl. apply list_elem_of_filter in Hbl. naive_solver. }
  rewrite Hb, filter_app. destruct (Nat.ltb_spec k (length (m_prefix m))).
  - rewrite (filter_cons_True _ m) by (split; [done|lia]).
    rewrite list_eq_nil_filter; [done|]. intros x Hx [Hpx Hlx].
    pose proof (Hmax x Hx Hpx). lia.
  - rewrite (Nat.max_l k) by lia. rewrite Hf.
    destruct (Nat.eqb_spec k (length (m_prefix m))) as [->|].
    + by rewrite filter_cons_True.
    + rewrite filter_cons_False by (intros [_ ?]; congruence). by rewrite app_nil_r.
Qed.

Lemma best_list_same_length comps ms m m' :
  m ∈ best_list comps ms → m' ∈ best_list comps ms →
  length (m_prefix m) = length (m_prefix m').
Proof.
  rewrite !elem_of_best_list. intros (Hm & Hp & Hl) (Hm' & Hp' & Hl').
  pose proof (Hl _ Hm' Hp'). pose proof (Hl' _ Hm Hp). lia.
Qed.

Lemma foldl_better comps ms :
  foldl (better comps) None ms = last (best_list comps ms).
Proof.
  induction ms as [|m ms IH] using rev_ind; [done|].
  rewrite foldl_app, best_list_snoc. simpl. rewrite IH. unfold better.
  destruct (is_prefix (m_prefix m) comps); [|done].
  destruct (best_list comps ms) as [|b l] eqn:Hb; [done|].
  destruct (last (b :: l)) as [b'|] eqn:Hlast; [|by apply last_None in Hlast].
  assert (length (m_prefix b') = length (m_prefix b)) as ->.
  { apply (best_list_same_length comps ms); rewrite Hb; [|apply list_elem_of_here].
    by apply last_Some_elem_of. }
  destruct (Nat.leb_spec (length (m_prefix b)) (length (m_prefix m)));
    destruct (Nat.ltb_spec (length (m_prefix b)) (length (m_prefix m)));
    destruct (Nat.eqb_spec (length (m_prefix b)) (length (m_prefix m)));
    try lia; rewrite ?last_snoc; done.
Qed.

Lemma head_fmap_reverse {A B} (f : A → B) (l : list A) :
  head (f <$> reverse l) = f <$> last l.
Proof.
  destruct l as [|x l _] using rev_ind; [done|].
  by rewrite reverse_snoc, last_snoc.
Qed.

(** [resolve] is the head of [resolve_candidates]: single-tree resolution
    and union resolution agree on which mount wins. *)
Theorem resolve_is_first_candidate path ns :
  resolve path ns = head (resolve_candidates path ns).
Proof.
  rewrite resolve_candidates_best, head_fmap_reverse.
  unfold resolve. by rewrite foldl_better.
Qed.
End resolution.

(** ** Restriction never adds authority *)

(** [access_le a b]: [a] grants nothing that [b] does not. *)
Definition access_le (a b : Access) : Prop := satisfies_access b a = true.

Global Instance access_le_preorder : PreOrder access_le.
Proof. split; [by intros []|]. by intros [] [] []. Qed.

Lemma access_le_allows a b md : access_le a b → allows a md = true → allows b md = true.
Proof. by destruct a, b, md. Qed.

Lemma restrict_access_le g c : access_le (restrict_access g c) g.
Proof. by destruct g, c. Qed.

Lemma find_index_spec {A} (f : A → bool) l i :
  find_index f l = Some i → ∃ x, l !! i = Some x ∧ f x = true.
Proof.
  revert i. induction l as [|x l IH]; intros i; simpl; [done|].
  destruct (f x) eqn:Hx.
  - intros [= <-]. eauto.
  - destruct (find_index f l) as [j|]; [|done]. intros [= <-]. by apply IH.
Qed.

Section restriction.
Context {Tree : Type}.
Implicit Types (m : Mount Tree) (ms : list (Mount Tree)) (ns : Namespace Tree)
  (ex : list (option Access)).

(** A selection: one slot per mount, a selected access within the grant. *)
Definition selection_ok ms ex : Prop :=
  length ex = length ms ∧
  ∀ i m a, ms !! i = Some m → ex !! i = Some (Some a) → access_le a (m_access m).

Lemma selection_ok_none ms : selection_ok ms (replicate (length ms) None).
Proof.
  split; [apply length_replicate|]. intros i m a _ Hi.
  apply lookup_replicate in Hi as [? _]. done.
Qed.

Lemma select_one_ok ms ex req ex' :
  selection_ok ms ex → select_one ms ex req = Some ex' → selection_ok ms ex'.
Proof.
  intros [Hlen Hok] Hsel. destruct req as [path acc]. unfold select_one in Hsel.
  destruct (find_index _ _) as [j|] eqn:Hj; simplify_eq/=.
  apply find_index_spec in Hj as ([m e] & Hz & Ht). simpl in Ht. bool_facts.
  apply lookup_zip_Some in Hz as [Hm He].
  split; [by rewrite length_insert|]. intros i m' a Hm' Hi.
  apply list_lookup_insert_Some in Hi as [(<- & [= ->] & _)|[_ Hi]].
  - simplify_eq. done.
  - eauto.
Qed.

Lemma select_all_ok ms ex reqs ex' :
  selection_ok ms ex → select_all ms ex reqs = Some ex' → selection_ok ms ex'.
Proof.
  revert ex. induction reqs as [|req reqs IH]; intros ex Hok; simpl.
  { by intros [= <-]. }
  destruct (select_one ms ex req) as [ex1|] eqn:H1; simpl; [|done].
  apply IH. by eapply select_one_ok.
Qed.

(** [anc] lies strictly above [m]. *)
Definition strict_above (anc m : Mount Tree) : Prop :=
  m_prefix anc `prefix_of` m_prefix m ∧
  (length (m_prefix anc) < length (m_prefix m))%nat.

Lemma nearer_keeps m x b : is_Some b → is_Some (nearer m b x).
Proof.
  intros [[n a] ->]. destruct x as [anc [a'|]]; simpl; repeat case_match; eauto.
Qed.

Lemma foldl_nearer_keeps m l b : is_Some b → is_Some (foldl (nearer m) b l).
Proof. revert b. induction l as [|x l IH]; intros b Hb; simpl; [done|].
  apply IH. by apply nearer_keeps. Qed.

Lemma nearest_exists ms ex m anc a :
  (anc, Some a) ∈ zip ms ex → strict_above anc m →
  is_Some (nearest_explicit_ancestor_access ms ex m).
Proof.
  unfold nearest_explicit_ancestor_access. rewrite fmap_is_Some.
  generalize (zip ms ex) as l. intros l Hin [Hp Hlt].
  apply list_elem_of_split in Hin as (l1 & l2 & ->).
  rewrite foldl_app. simpl. apply foldl_nearer_keeps.
  rewrite (proj2 (Nat.ltb_lt _ _) Hlt), (proj2 (is_prefix_spec _ _) Hp). simpl.
  destruct (foldl _ _ _) as [[n b]|]; [case_match|]; eauto.
Qed.

Lemma nearest_inv ms ex m c :
  nearest_explicit_ancestor_access ms ex m = Some c →
  ∃ anc, (anc, Some c) ∈ zip ms ex ∧ strict_above anc m.
Proof.
  unfold nearest_explicit_ancestor_access. generalize (zip ms ex) as l. intros l.
  destruct (foldl _ _ _) as [[n a]|] eqn:Hf; simpl; [|done]. intros [= ->].
  revert n Hf. induction l as [|[anc e] l IH] using rev_ind; intros n; [done|].
  rewrite foldl_app. simpl. destruct e as [a'|].
  - destruct (_ && _) eqn:Ht.
    + apply andb_true_iff in Ht as [Hlt Hp].
      apply Nat.ltb_lt in Hlt. apply is_prefix_spec in Hp.
      intros Hc. assert ((n, c) = (length (m_prefix anc), a') ∨
        foldl (nearer m) None l = Some (n, c)) as [?|Hold]
        by (destruct (foldl _ _ _) as [[k b]|]; [case_match|]; naive_solver).
      * simplify_eq. exists anc. split; [set_solver|done].
      * destruct (IH _ Hold) as (anc' & Hin & Hs). exists anc'. set_solver.
    + intros Hold. destruct (IH _ Hold) as (anc' & Hin & Hs). exists anc'. set_solver.
  - intros Hold. destruct (IH _ Hold) as (anc' & Hin & Hs). exists anc'. set_solver.
Qed.

Lemma zip_slot ms ex m :
  length ex = length ms → m ∈ ms → ∃ e, (m, e) ∈ zip ms ex.
Proof.
  intros Hlen (i & Hi)%list_elem_of_lookup.
  assert (is_Some (ex !! i)) as [e He].
  { apply lookup_lt_is_Some. rewrite Hlen. by eapply lookup_lt_Some. }
  exists e. apply list_elem_of_lookup. exists i. by apply lookup_zip_Some.
Qed.

Lemma kept_access_le ms ex m e a :
  selection_ok ms ex → (m, e) ∈ zip ms ex → kept_access ms ex (m, e) = Some a →
  access_le a (m_access m).
Proof.
  intros [_ Hok] Hin. unfold kept_access. simpl. destruct e as [a'|].
  - intros [= ->]. apply list_elem_of_lookup in Hin as (i & Hi).
    apply lookup_zip_Some in Hi as [??]. eauto.
  - unfold preserved_overmount_access.
    destruct (nearest_explicit_ancestor_access ms ex m) as [c|]; simpl; [|done].
    case_match; [|done]. intros [= <-]. apply restrict_access_le.
Qed.

(** Every kept mount lies at or below an explicit selection. *)
Lemma kept_below_explicit ms ex m e a :
  (m, e) ∈ zip ms ex → kept_access ms ex (m, e) = Some a →
  ∃ anc b, (anc, Some b) ∈ zip ms ex ∧ m_prefix anc `prefix_of` m_prefix m.
Proof.
  intros Hin. unfold kept_access. simpl. destruct e as [a'|].
  - intros [= ->]. eauto.
  - unfold preserved_overmount_access.
    destruct (nearest_explicit_ancestor_access ms ex m) as [c|] eqn:Hn; simpl; [|done].
    intros _. apply nearest_inv in Hn as (anc & ? & ? & ?). eauto.
Qed.

(** A dropped mount has no explicit selection above it. *)
Lemma dropped_has_no_ancestor ms ex m e :
  has_unsafe_omitted_descendant ms ex = false → (m, e) ∈ zip ms ex →
  kept_access ms ex (m, e) = None →
  nearest_explicit_ancestor_access ms ex m = None.
Proof.
  unfold kept_access. simpl. intros Hu Hin. destruct e as [a|]; [done|].
  unfold preserved_overmount_access.
  destruct (nearest_explicit_ancestor_access ms ex m) as [c|] eqn:Hn; [|done].
  simpl. destruct (omitted_descendant_is_restrictive m c) eqn:Ho; [done|].
  intros _. exfalso. unfold has_unsafe_omitted_descendant in Hu.
  apply not_true_iff_false in Hu. apply Hu, existsb_exists.
  exists (m, None). split; [by apply list_elem_of_In|]. simpl. by rewrite Hn, Ho.
Qed.

Lemma restrict_inv reqs ns ns' :
  restrict_to_mounts reqs ns = Some ns' →
  ∃ ex, selection_ok (mounts ns) ex ∧
    has_unsafe_omitted_descendant (mounts ns) ex = false ∧
    ∀ m', m' ∈ mounts ns' ↔ ∃ m e a, (m, e) ∈ zip (mounts ns) ex ∧
      kept_access (mounts ns) ex (m, e) = Some a ∧
      m' = mkMount (m_prefix m) (m_tree m) a.
Proof.
  unfold restrict_to_mounts.
  destruct (select_all _ _ _) as [ex|] eqn:Hs; simpl; [|done].
  destruct (has_unsafe_omitted_descendant _ _) eqn:Hu; [done|].
  intros [= <-]. exists ex. split; [eapply select_all_ok; [apply selection_ok_none|done]|].
  split; [done|]. intros m'. simpl. rewrite list_elem_of_omap. split.
  - intros ([m e] & Hin & Hk). destruct (kept_access _ _ _) as [a|] eqn:Ha; [|done].
    simplify_eq/=. eauto 10.
  - intros (m & e & a & Hin & Hk & ->). exists (m, e). by rewrite Hk.
Qed.
End restriction.

(** The argument of [restrict_never_escalates], shared with process spawn. *)
Lemma restrict_candidates_le {Tree} (reqs : list (string * Access))
    (ns ns' : Namespace Tree) (path : string) (r' : Resolved Tree) :
  restrict_to_mounts reqs ns = Some ns' →
  r' ∈ resolve_candidates path ns' →
  ∃ r, r ∈ resolve_candidates path ns ∧
       r_tree r' = r_tree r ∧ rel r' = rel r ∧ access_le (r_access r') (r_access r).
Proof.
  intros Hr Hc. apply restrict_inv in Hr as (ex & Hok & Hu & Hms).
  apply candidates_longest_iff in Hc as (m1' & (Hin1 & Hp1 & Hmax) & ->).
  apply Hms in Hin1 as (m1 & e1 & a & Hz1 & Hk1 & ->). simpl in *.
  exists (resolved_at (split_path path) m1). split_and!; [|done..|].
  2: by eapply kept_access_le.
  apply candidates_longest_iff. exists m1. split; [|done].
  split_and!; [by apply list_elem_of_lookup in Hz1 as (i & [??]%lookup_zip_Some);
               apply list_elem_of_lookup; eauto|done|].
  intros m0 Hm0 Hp0. destruct (zip_slot _ _ _ (proj1 Hok) Hm0) as [e0 Hz0].
  destruct (kept_access (mounts ns) ex (m0, e0)) as [b|] eqn:Hk0.
  { apply (Hmax (mkMount (m_prefix m0) (m_tree m0) b)); [|done].
    apply Hms. eauto 10. }
  destruct (decide (length (m_prefix m0) ≤ length (m_prefix m1))%nat); [done|].
  exfalso. pose proof (dropped_has_no_ancestor _ _ _ _ Hu Hz0 Hk0) as Hnone.
  destruct (kept_below_explicit _ _ _ _ _ Hz1 Hk1) as (anc & c & Hanc & Hpre).
  pose proof (prefix_length _ _ Hpre).
  destruct (nearest_exists (mounts ns) ex m0 anc c Hanc) as [? Hsome]; [|congruence].
  split; [|lia]. etrans; [exact Hpre|]. eapply prefix_shorter; [done..|lia].
Qed.

(** C27: restricting a namespace to a requested mount set never adds authority:
    whatever a path can resolve to in the restricted namespace, it could already
    resolve to in the original one: the same tree, the same remaining path, and
    at most the same access. *)
Theorem restrict_never_escalates {Tree} (reqs : list (string * Access))
    (ns ns' : Namespace Tree) (path : string) (r' : Resolved Tree) :
  restrict_to_mounts reqs ns = Some ns' →
  r' ∈ resolve_candidates path ns' →
  ∃ r, r ∈ resolve_candidates path ns ∧
       r_tree r' = r_tree r ∧ rel r' = rel r ∧ access_le (r_access r') (r_access r).
Proof. apply restrict_candidates_le. Qed.

(** A root mount with a read-only overmount: asking for the root alone keeps
    the overmount, so the write-protected subtree stays write-protected. *)
Definition demo_ns : Namespace Z :=
  mount "/mnt/ro" 2 AccessReadOnly (mount "/" 1 AccessReadWrite ns_new).

Lemma restrict_never_escalates_witness :
  ∃ r, r ∈ resolve_candidates "/mnt/ro/x" demo_ns ∧
       2 = r_tree r ∧ ["x"] = rel r ∧ access_le AccessReadOnly (r_access r).
Proof.
  apply (restrict_never_escalates [("/", AccessReadWrite)] demo_ns demo_ns "/mnt/ro/x"
           (mkResolved 2 ["x"] AccessReadOnly)).
  - vm_compute. reflexivity.
  - apply list_elem_of_lookup. exists 0%nat. vm_compute. reflexivity.
Defined.

(** ** Projection never adds authority *)

Section projection.
Context {Tree : Type}.
Implicit Types (m : Mount Tree) (ns : Namespace Tree).

Definition projected (target source : list string) (requested : Access) m :
    Mount Tree :=
  mkMount (target ++ drop (length source) (m_prefix m)) (m_tree m)
    (match requested with
     | AccessReadOnly => AccessReadOnly
     | AccessReadWrite => m_access m
     end).

Lemma projected_access_le target source requested m :
  access_le (m_access (projected target source requested m)) requested ∧
  access_le (m_access (projected target source requested m)) (m_access m).
Proof. by destruct requested, (m_access m) eqn:E; simpl; rewrite ?E. Qed.

Lemma project_go_elem ds ns ms' m' :
  project_go ns ds = Some ms' →
  m' ∈ ms' ↔ ∃ t s a m, (t, s, a) ∈ ds ∧ m ∈ mounts ns ∧
               split_path s `prefix_of` m_prefix m ∧
               m' = projected (split_path t) (split_path s) a m.
Proof.
  revert ms'. induction ds as [|[[t s] a] ds IH]; intros ms'; cbn [project_go].
  { intros [= <-]. split; [by intros ?%not_elem_of_nil|].
    intros (? & ? & ? & ? & Hin & _). by apply not_elem_of_nil in Hin. }
  destruct (project_one ns (t, s, a)) as [ms1|] eqn:H1; simpl; [|done].
  destruct (project_go ns ds) as [ms2|]; simpl; [|done]. intros [= <-].
  rewrite elem_of_app, (IH ms2 eq_refl).
  assert (m' ∈ ms1 ↔ ∃ m, m ∈ mounts ns ∧ split_path s `prefix_of` m_prefix m ∧
            m' = projected (split_path t) (split_path s) a m) as ->.
  { unfold project_one in H1.
    destruct (head _) as [sm|]; simpl in H1; [|done].
    destruct (negb _); simplify_eq. rewrite list_elem_of_fmap.
    setoid_rewrite list_elem_of_filter. setoid_rewrite is_prefix_spec.
    unfold projected. naive_solver. }
  setoid_rewrite elem_of_cons. split.
  - intros [(m & ?)|(t' & s' & a' & m & ?)]; [exists t, s, a, m|exists t', s', a', m];
      naive_solver.
  - intros (t' & s' & a' & m & [?|?] & ?); [left; simplify_eq; eauto|right; eauto 10].
Qed.
End projection.

(** A namespace built from explicit mount projections gives no authority the
    source namespace lacks: every resolution in it comes from one declaration
    and one source mount below the declared source, which is the longest match
    for the corresponding source path, and its access is within both the
    requested access and the access of that mount. *)
Theorem project_never_escalates {Tree} (ds : list (string * string * Access))
    (ns ns' : Namespace Tree) (path : string) (r' : Resolved Tree) :
  project_mounts ds ns = Some ns' →
  r' ∈ resolve_candidates path ns' →
  ∃ target source requested m,
    (target, source, requested) ∈ ds ∧
    split_path source `prefix_of` m_prefix m ∧
    split_path path =
      split_path target ++ drop (length (split_path source)) (m_prefix m) ++ rel r' ∧
    longest_at (m_prefix m ++ rel r') (mounts ns) m ∧
    r_tree r' = m_tree m ∧
    access_le (r_access r') requested ∧ access_le (r_access r') (m_access m).
Proof.
  unfold project_mounts. destruct (project_go ns ds) as [ms'|] eqn:Hp; simpl; [|done].
  intros [= <-] Hc. apply candidates_longest_iff in Hc as (m' & (Hin & Hpre & Hmax) & ->).
  cbn [mounts] in *. pose proof Hin as Hin'. rewrite (project_go_elem _ _ _ _ Hp) in Hin'.
  destruct Hin' as (t & s & a & m & Hd & Hm & Hs & ->).
  exists t, s, a, m. destruct Hpre as [k Hk].
  set (src := split_path s) in *. set (tgt := split_path t) in *.
  simpl in Hk. assert (rel (resolved_at (split_path path) (projected tgt src a m)) = k) as ->.
  { simpl. rewrite Hk. by apply drop_app_length. }
  destruct (projected_access_le tgt src a m) as [Ha1 Ha2].
  split_and!; [done|done|by rewrite <-app_assoc in Hk| |done|exact Ha1|exact Ha2].
  split_and!; [done|by exists k|]. intros m2 Hm2 Hp2.
  destruct (prefix_weak_total src (m_prefix m2) (m_prefix m ++ k)) as [Hs2|Hs2];
    [by apply prefix_app_r|done| |].
  - specialize (Hmax (projected tgt src a m2)). simpl in Hmax.
    rewrite !length_app, !length_drop in Hmax.
    pose proof (prefix_length _ _ Hs). pose proof (prefix_length _ _ Hs2).
    enough (length tgt + (length (m_prefix m2) - length src) ≤
            length tgt + (length (m_prefix m) - length src))%nat by lia.
    apply Hmax.
    + rewrite (project_go_elem _ _ _ _ Hp). eauto 10.
    + rewrite Hk, <-app_assoc. apply prefix_app.
      destruct Hs as [u Hu], Hs2 as [v Hv]. rewrite Hu, Hv in *.
      rewrite !drop_app_length, <-?app_assoc in *.
      by apply prefix_app_inv in Hp2.
  - pose proof (prefix_length _ _ Hs). pose proof (prefix_length _ _ Hs2). lia.
Qed.

Lemma project_never_escalates_witness :
  ∃ target source requested m,
    (target, source, requested) ∈ [("/data", "/mnt/ro", AccessReadOnly)] ∧
    split_path source `prefix_of` m_prefix m ∧
    split_path "/data/x" =
      split_path target ++ drop (length (split_path source)) (m_prefix m) ++ ["x"] ∧
    longest_at (m_prefix m ++ ["x"]) (mounts demo_ns) m ∧
    2 = m_tree m ∧
    access_le AccessReadOnly requested ∧ access_le AccessReadOnly (m_access m).
Proof.
  apply (project_never_escalates [("/data", "/mnt/ro", AccessReadOnly)] demo_ns
           (mount "/data" 2 AccessReadOnly ns_new) "/data/x"
           (mkResolved 2 ["x"] AccessReadOnly)).
  - vm_compute. reflexivity.
  - apply list_elem_of_lookup. exists 0%nat. vm_compute. reflexivity.
Defined.
