(* ===== verification/Process.v ===== *)
(** * The process table (crates/kernel/src/process.rs)

    Exec specs and their namespace manifests, the staged spawn (begin, commit
    or discard) and the terminal state of a process. *)
From S2P Require Import Prelude RustStd ApTypes ApServer Namespace.

Abbreviation Pid := Z.

Record Credentials : Set := mkCredentials { uname : string }.
Definition credentials_system : Credentials := mkCredentials "system".
Definition credentials_user (name : string) : Credentials := mkCredentials name.

(** ** Exec namespace manifests *)

Inductive ExecNamespaceAccess : Set := ExecReadOnly | ExecReadWrite.
Definition access_of_exec (a : ExecNamespaceAccess) : Access :=
  match a with ExecReadOnly => AccessReadOnly | ExecReadWrite => AccessReadWrite end.
Definition exec_of_access (a : Access) : ExecNamespaceAccess :=
  match a with AccessReadOnly => ExecReadOnly | AccessReadWrite => ExecReadWrite end.

Record ExecNamespaceMount : Set := mkExecMount {
  em_path : string; em_access : ExecNamespaceAccess }.

Record ExecNamespaceManifest : Set := mkManifest {
  generation : Z; em_mounts : list ExecNamespaceMount }.

Record ExecSpec : Type := mkExec {
  exec_executable : string;
  exec_args : list string;
  exec_namespace : ExecNamespaceManifest;
  descriptors : gmap Z string;
}.

(** [mounts.sort_by(|l, r| l.path.cmp(&r.path))]: a stable sort by path. *)
Fixpoint insert_by_path (x : ExecNamespaceMount) (l : list ExecNamespaceMount) :
    list ExecNamespaceMount :=
  match l with
  | [] => [x]
  | y :: l' => if String.leb (em_path x) (em_path y) then x :: l
               else y :: insert_by_path x l'
  end.
Definition sort_by_path (l : list ExecNamespaceMount) : list ExecNamespaceMount :=
  foldr insert_by_path [] l.

Definition normalized (m : ExecNamespaceManifest) : ExecNamespaceManifest :=
  mkManifest (generation m) (sort_by_path (em_mounts m)).

Definition normalized_access_mounts (m : ExecNamespaceManifest) :
    list (string * Access) :=
  (λ x, (em_path x, access_of_exec (em_access x))) <$> em_mounts (normalized m).

Section process.
Context {Tree : Type}.

Definition from_snapshot (ns : Namespace Tree) (gen : Z) : ExecNamespaceManifest :=
  normalized (mkManifest gen
    ((λ '(p, a), mkExecMount p (exec_of_access a)) <$> describe ns)).
Definition from_namespace (ns : Namespace Tree) : ExecNamespaceManifest :=
  from_snapshot ns 0.

Definition namespace_subset_from (m : ExecNamespaceManifest) (ns : Namespace Tree) :
    option (Namespace Tree) :=
  restrict_to_mounts (normalized_access_mounts m) ns.

(** ** The table *)

Inductive Status : Set := Running | Exited.

Record Process : Type := mkProcess {
  pid : Pid;
  parent : option Pid;
  credentials : Credentials;
  p_namespace : Namespace Tree;
  exec : ExecSpec;
  status : Status;
  exit_code : option Z;
}.

Record Pending : Type := mkPending {
  pd_parent : option Pid;
  pd_credentials : Credentials;
  pd_namespace : Namespace Tree;
  namespace_generation : Z;
}.

Record ProcessTable : Type := mkTable {
  next : Z;
  pending : gmap Pid Pending;
  processes : gmap Pid Process;
  t_versions : VersionTable.t;
}.

Definition LISTING_KEY : Z := 0.

Definition table_new : ProcessTable := mkTable 1 ∅ ∅ VersionTable.new.

Definition listing_generation (t : ProcessTable) : Z :=
  VersionTable.get (t_versions t) LISTING_KEY.
Definition table_generation (p : Pid) (t : ProcessTable) : Z :=
  VersionTable.get (t_versions t) p.

Definition bump_generation (p : Pid) (t : ProcessTable) : ProcessTable :=
  if isSome (processes t !! p)
  then mkTable (next t) (pending t) (processes t) (VersionTable.bump (t_versions t) p)
  else t.

Definition alloc_pid (t : ProcessTable) : ProcessTable * Pid :=
  (mkTable (next t + 1) (pending t) (processes t) (t_versions t), next t).

Definition clone_begin_with_namespace_generation (par : option Pid)
    (creds : Credentials) (build_namespace : Pid → Namespace Tree * Z)
    (t : ProcessTable) : ProcessTable * option Pid :=
  let '(t, p) := alloc_pid t in
  let '(ns, gen) := build_namespace p in
  (mkTable (next t) (<[p := mkPending par creds ns gen]> (pending t))
           (processes t) (t_versions t), Some p).

Definition clone_begin_with_namespace (par : option Pid) (creds : Credentials)
    (build_namespace : Pid → Namespace Tree) (t : ProcessTable) :=
  clone_begin_with_namespace_generation par creds (λ p, (build_namespace p, 0)) t.

Definition clone_begin (par : option Pid) (ns : Namespace Tree) (creds : Credentials)
    (t : ProcessTable) :=
  clone_begin_with_namespace_generation par creds (λ _, (ns, 0)) t.

Definition commit (slot : Pid) (ex : ExecSpec) (t : ProcessTable) :
    ProcessTable * option Pid :=
  match pending t !! slot with
  | None => (t, None)
  | Some pd =>
      (mkTable (next t) (delete slot (pending t))
         (<[slot := mkProcess slot (pd_parent pd) (pd_credentials pd)
                              (pd_namespace pd) ex Running None]> (processes t))
         (VersionTable.bump (t_versions t) LISTING_KEY), Some slot)
  end.

Definition discard (slot : Pid) (t : ProcessTable) : ProcessTable :=
  mkTable (next t) (delete slot (pending t)) (processes t) (t_versions t).

Definition pending_namespace (slot : Pid) (t : ProcessTable) :
    option (Namespace Tree) := pd_namespace <$> pending t !! slot.
Definition pending_namespace_generation (slot : Pid) (t : ProcessTable) : option Z :=
  namespace_generation <$> pending t !! slot.

Definition replace_pending_namespace (slot : Pid) (ns : Namespace Tree)
    (t : ProcessTable) : ProcessTable * option unit :=
  match pending t !! slot with
  | None => (t, None)
  | Some pd =>
      (mkTable (next t)
         (<[slot := mkPending (pd_parent pd) (pd_credentials pd) ns
                              (namespace_generation pd)]> (pending t))
         (processes t) (t_versions t), Some tt)
  end.

Definition exit (p : Pid) (code : Z) (t : ProcessTable) : ProcessTable :=
  match processes t !! p with
  | Some pr =>
      match status pr with
      | Exited => t
      | Running =>
          mkTable (next t) (pending t)
            (<[p := mkProcess (pid pr) (parent pr) (credentials pr) (p_namespace pr)
                              (exec pr) Exited (Some code)]> (processes t))
            (VersionTable.bump (t_versions t) p)
      end
  | None => t
  end.

Definition list_pids (t : ProcessTable) : list Pid := sorted_int_keys (processes t).
Definition get (p : Pid) (t : ProcessTable) : option Process := processes t !! p.
End process.
Arguments Process : clear implicits.
Arguments Pending : clear implicits.
Arguments ProcessTable : clear implicits.
