(* ===== verification/ProcessFacts.v ===== *)
(** * Process-table guarantees

    Manifests restore the namespace they were taken from; pids are never
    reused; a spawn that is not committed leaves no trace; a terminal state is
    final. *)
From S2P Require Import Prelude RustStd ApTypes ApServer Namespace NamespaceFacts Process.

(** ** A manifest restores its namespace *)

Lemma insert_by_path_filter x l q :
  filter (λ y, em_path y = q) (insert_by_path x l) =
  filter (λ y, em_path y = q) (x :: l).
Proof.
  induction l as [|y l IH]; [done|]. simpl insert_by_path.
  destruct (String.leb (em_path x) (em_path y)) eqn:Hle; [done|].
  assert (em_path x ≠ em_path y) as Hne.
  { intros Heq. rewrite Heq in Hle. destruct (String.leb_total (em_path y) (em_path y)); congruence. }
  rewrite (filter_cons _ y), IH.
  rewrite !filter_cons. repeat case_decide; congruence.
Qed.

(** The sort is stable: entries with the same path keep their order. *)
Lemma sort_by_path_filter l q :
  filter (λ y, em_path y = q) (sort_by_path l) = filter (λ y, em_path y = q) l.
Proof.
  induction l as [|x l IH]; [done|]. simpl.
  rewrite insert_by_path_filter, !filter_cons, IH. done.
Qed.

Lemma sort_by_path_perm l : sort_by_path l ≡ₚ l.
Proof.
  induction l as [|x l IH]; [done|]. simpl. rewrite <-IH at 2.
  generalize (sort_by_path l). intros l'. induction l' as [|y l' IH']; [done|].
  simpl. case_match; [done|]. rewrite IH'. constructor.
Qed.

Section manifest.
Context {Tree : Type}.
Implicit Types (m : Mount Tree) (ms : list (Mount Tree)) (ns : Namespace Tree)
  (ex : list (option Access)).

(** Accesses of the mounts at path [q] that are not selected yet. *)
Definition remaining (q : string) ms ex : list Access :=
  (λ x, m_access x.1) <$>
  filter (λ x, x.2 = None ∧ join_path (m_prefix x.1) = q) (zip ms ex).

Definition select_test (p : string) (a : Access) (x : Mount Tree * option Access) : bool :=
  negb (isSome x.2) && bool_decide (m_prefix x.1 = split_path p) &&
  satisfies_access (m_access x.1) a.

Lemma select_one_test ms ex p a :
  select_one ms ex (p, a) =
  (λ i, <[i := Some a]> ex) <$> find_index (select_test p a) (zip ms ex).
Proof.
  unfold select_one.
  assert (∀ l : list (Mount Tree * option Access),
    find_index (λ '(m, e), negb (isSome e) && bool_decide (m_prefix m = split_path p) &&
                satisfies_access (m_access m) a) l = find_index (select_test p a) l) as ->.
  { induction l as [|[m e] l IH]; simpl; [done|]. by rewrite IH. }
  by destruct (find_index _ _).
Qed.

Lemma select_first ms ex p a rest :
  Forall prefix_valid ms → length ex = length ms →
  remaining p ms ex = a :: rest →
  ∃ i m, find_index (select_test p a) (zip ms ex) = Some i ∧
    ms !! i = Some m ∧ m_access m = a ∧
    remaining p ms (<[i := Some a]> ex) = rest ∧
    ∀ q, q ≠ p → remaining q ms (<[i := Some a]> ex) = remaining q ms ex.
Proof.
  revert ex. induction ms as [|m ms IH]; intros [|e ex] Hv Hl Hr; [done..|].
  apply Forall_cons in Hv as [Hvm Hv]. simpl in Hl.
  unfold remaining in Hr. simpl in Hr. rewrite filter_cons in Hr. simpl in Hr.
  case_decide as Hd.
  - destruct Hd as [-> Hj]. simplify_eq/=. exists 0%nat, m.
    assert (select_test (join_path (m_prefix m)) (m_access m) (m, None) = true) as Ht.
    { unfold select_test. simpl. rewrite split_join_path by done.
      rewrite bool_decide_eq_true_2 by done. by destruct (m_access m). }
    rewrite Ht. split_and!; [done..| |].
    + unfold remaining. simpl. by rewrite filter_cons_False by (intros [? _]; done).
    + intros q Hq. unfold remaining. simpl.
      rewrite !filter_cons_False; [done|by intros [_ ?]|by intros [? _]].
  - destruct (IH ex Hv ltac:(lia) Hr) as (i & m' & Hf & Hm' & Ha & Hrest & Hq).
    exists (S i), m'.
    assert (select_test p a (m, e) = false) as Ht.
    { apply not_true_iff_false. unfold select_test. simpl.
      rewrite !andb_true_iff, bool_decide_eq_true, negb_true_iff, isSome_false.
      intros [[-> Hs] _]. apply Hd. split; [done|]. rewrite Hs.
      assert (m' ∈ ms) as Hin by (by eapply list_elem_of_lookup_2).
      destruct (find_index_spec _ _ _ Hf) as ([m2 e2] & Hz & Ht2).
      apply lookup_zip_Some in Hz as [Hm2 He2]. simpl in Hm2, He2. 
      assert (∃ x, x ∈ zip ms ex ∧ join_path (m_prefix x.1) = p) as ([x ?] & Hx & <-).
      { assert (a ∈ a :: rest) as Hina by apply list_elem_of_here.
        unfold remaining in Hr. rewrite <-Hr in Hina.
        apply list_elem_of_fmap in Hina as (x & _ & Hx).
        apply list_elem_of_filter in Hx as [[_ ?] ?]. eauto. }
      simpl. apply list_elem_of_lookup in Hx as (j & [Hj _]%lookup_zip_Some).
      rewrite split_join_path; [done|]. rewrite Forall_lookup in Hv.
      exact (Hv _ _ Hj). }
    simpl. rewrite Ht, Hf. split_and!; [done..| |].
    + unfold remaining. simpl. rewrite filter_cons_False by done. exact Hrest.
    + intros q Hne. specialize (Hq q Hne). unfold remaining in *. simpl.
      rewrite !filter_cons.
      case_decide; [rewrite !fmap_cons; f_equal; exact Hq|exact Hq].
Qed.

(** Selected slots hold the access of their own mount. *)
Definition own_access ms ex : Prop :=
  length ex = length ms ∧
  ∀ i m a, ms !! i = Some m → ex !! i = Some (Some a) → a = m_access m.

Lemma select_all_exact ms ex reqs :
  Forall prefix_valid ms → own_access ms ex →
  (∀ q, snd <$> filter (λ r, r.1 = q) reqs = remaining q ms ex) →
  select_all ms ex reqs = Some (Some ∘ m_access <$> ms).
Proof.
  intros Hv. revert ex. induction reqs as [|[p a] reqs IH]; intros ex [Hl Ho] Hr; simpl.
  - f_equal. apply list_eq. intros i. rewrite list_lookup_fmap.
    destruct (ms !! i) as [m|] eqn:Hm; simpl.
    2:{ apply lookup_ge_None_2. rewrite Hl. by apply lookup_ge_None_1. }
    assert (is_Some (ex !! i)) as [e He].
    { apply lookup_lt_is_Some. rewrite Hl. by eapply lookup_lt_Some. }
    rewrite He. f_equal. destruct e as [a|]; [f_equal; by eapply Ho|].
    exfalso. specialize (Hr (join_path (m_prefix m))). simpl in Hr.
    symmetry in Hr. apply fmap_nil_inv in Hr.
    apply (not_elem_of_nil (m, @None Access)). rewrite <-Hr.
    apply list_elem_of_filter. split; [done|]. apply list_elem_of_lookup.
    exists i. by apply lookup_zip_Some.
  - pose proof (Hr p) as Hp. rewrite filter_cons_True in Hp by done. simpl in Hp.
    symmetry in Hp.
    destruct (select_first _ _ _ _ _ Hv Hl Hp) as (i & m & Hf & Hm & Ha & Hrest & Hq).
    pose proof (select_one_test ms ex p a) as Hs. rewrite Hf in Hs. simpl in Hs.
    unfold select_one in Hs. rewrite Hs. simpl. apply IH.
    + split; [by rewrite length_insert|]. intros j m' b Hm' Hj.
      apply list_lookup_insert_Some in Hj as [(-> & [= <-] & _)|[_ Hj]]; [|eauto].
      congruence.
    + intros q. destruct (decide (q = p)) as [->|Hne]; [done|].
      rewrite Hq by done. rewrite <-Hr, filter_cons_False by (simpl; congruence). done.
Qed.

Lemma remaining_none q ms :
  remaining q ms (replicate (length ms) None) =
  m_access <$> filter (λ m, join_path (m_prefix m) = q) ms.
Proof.
  unfold remaining. induction ms as [|m ms IH]; [done|]. simpl.
  rewrite !filter_cons. simpl.
  case_decide; case_decide; rewrite ?fmap_cons;
    [f_equal; exact IH|exfalso; tauto|exfalso; tauto|exact IH].
Qed.

Lemma zip_own ms (x : Mount Tree * option Access) :
  x ∈ zip ms (Some ∘ m_access <$> ms) → x.2 = Some (m_access x.1).
Proof.
  intros (i & Hi)%list_elem_of_lookup. destruct x as [m e].
  apply lookup_zip_Some in Hi as [Hm He]. simpl in *.
  rewrite list_lookup_fmap, Hm in He. by simplify_eq/=.
Qed.

Lemma requests_at q (l : list ExecNamespaceMount) :
  snd <$> filter (λ r, r.1 = q)
            ((λ x, (em_path x, access_of_exec (em_access x))) <$> l) =
  access_of_exec ∘ em_access <$> filter (λ x, em_path x = q) l.
Proof.
  induction l as [|x l IH]; [done|]. rewrite fmap_cons, !filter_cons. simpl.
  case_decide; [|done]. rewrite !fmap_cons. by rewrite IH.
Qed.

(** The manifest a spawner takes from a namespace, presented unchanged at
    commit, restores exactly that namespace, union contributors and their
    order included. *)
Theorem manifest_restores_namespace ns gen :
  ns_valid ns → namespace_subset_from (from_snapshot ns gen) ns = Some ns.
Proof.
  intros Hv. unfold namespace_subset_from, restrict_to_mounts.
  rewrite select_all_exact; [|done| |].
  2:{ split; [apply length_replicate|]. intros i m a _ Hi.
      apply lookup_replicate in Hi as [? _]. done. }
  2:{ intros q. rewrite remaining_none. unfold normalized_access_mounts. simpl.
      rewrite requests_at, !sort_by_path_filter.
      unfold describe. rewrite <-list_fmap_compose.
      generalize (mounts ns). intros l. induction l as [|m l IH]; [done|].
      rewrite fmap_cons, !filter_cons. simpl.
      case_decide; [|exact IH]. rewrite !fmap_cons. f_equal; [|exact IH].
      by destruct (m_access m). }
  simpl. assert (has_unsafe_omitted_descendant (mounts ns)
            (Some ∘ m_access <$> mounts ns) = false) as ->.
  { unfold has_unsafe_omitted_descendant. apply not_true_iff_false.
    intros ([m e] & Hin & Ht)%existsb_exists. apply list_elem_of_In, zip_own in Hin.
    simpl in Hin. by subst e. }
  f_equal. destruct ns as [ms]. f_equal. simpl. clear Hv.
  set (f := λ x, _).
  assert (∀ l, l ⊆ ms → omap f (zip l (Some ∘ m_access <$> l)) = l) as Hl.
  { induction l as [|m l IH]; intros Hsub; [done|].
    transitivity (m :: omap f (zip l (Some ∘ m_access <$> l))); [by destruct m|].
    rewrite IH by set_solver. done. }
  by apply Hl.
Qed.
End manifest.

Lemma manifest_restores_namespace_witness :
  namespace_subset_from (from_snapshot demo_ns 4) demo_ns = Some demo_ns.
Proof.
  apply (manifest_restores_namespace demo_ns 4).
  repeat constructor.
Defined.

(** ** The table as a state machine *)

Section table.
Context {Tree : Type}.
Implicit Types t : ProcessTable Tree.

Inductive table_step : ProcessTable Tree → ProcessTable Tree → Prop :=
  | step_begin t par creds build :
      table_step t (clone_begin_with_namespace_generation par creds build t).1
  | step_commit t slot ex : table_step t (commit slot ex t).1
  | step_discard t slot : table_step t (discard slot t)
  | step_replace t slot ns : table_step t (replace_pending_namespace slot ns t).1
  | step_exit t p code : table_step t (exit p code t)
  | step_bump t p : table_step t (bump_generation p t).

Definition reachable t : Prop := rtc table_step table_new t.

Record table_inv t : Prop := {
  inv_next : 1 ≤ next t;
  inv_pending p : is_Some (pending t !! p) → 1 ≤ p < next t;
  inv_processes p pr : processes t !! p = Some pr → 1 ≤ p < next t ∧ pid pr = p;
  inv_disjoint p : is_Some (pending t !! p) → processes t !! p = None;
  inv_exit p pr : processes t !! p = Some pr →
    (status pr = Exited ↔ is_Some (exit_code pr));
  inv_versions : VersionTable.wf (t_versions t);
}.

Lemma table_inv_new : table_inv table_new.
Proof.
  constructor; simpl; try done; try lia.
  intros p [? Hp]. by rewrite lookup_empty in Hp.
Qed.

Lemma table_inv_step t t' : table_inv t → table_step t t' → table_inv t'.
Proof.
  intros [Hn Hp Hpr Hd He Hv] Hs.
  assert (Hpend : processes t !! next t = None).
  { destruct (processes t !! next t) as [pr|] eqn:E; [|done].
    destruct (Hpr _ _ E). lia. }
  destruct Hs as [t par creds build|t slot ex|t slot|t slot ns|t p code|t p].
  - unfold clone_begin_with_namespace_generation. simpl.
    destruct (build (next t)) as [ns gen]. constructor; simpl; [lia| | | |done..].
    + intros q. rewrite lookup_insert. case_decide; subst; [lia|].
      intros Hq. pose proof (Hp q Hq). lia.
    + intros q pr Hq. destruct (Hpr _ _ Hq). split; [lia|done].
    + intros q. rewrite lookup_insert. case_decide; subst; [done|apply Hd].
  - unfold commit. destruct (pending t !! slot) as [pd|] eqn:Hs; [|by constructor].
    constructor; simpl; [done| | | | |by apply VersionTable.wf_bump].
    + intros q. rewrite lookup_delete. case_decide; [by intros []|apply Hp].
    + intros q pr. rewrite lookup_insert. case_decide; [|apply Hpr].
      intros [= <-]. subst. split; [apply Hp; eauto|done].
    + intros q. rewrite lookup_delete, lookup_insert.
      case_decide; [by intros []|apply Hd].
    + intros q pr. rewrite lookup_insert. case_decide; [|apply He].
      intros [= <-]. simpl. split; [done|by intros []].
  - constructor; simpl; try done.
    + intros q. rewrite lookup_delete. case_decide; [by intros []|apply Hp].
    + intros q. rewrite lookup_delete. case_decide; [by intros []|apply Hd].
  - unfold replace_pending_namespace.
    destruct (pending t !! slot) as [pd|] eqn:Hs; [|by constructor].
    constructor; simpl; try done.
    + intros q. rewrite lookup_insert. case_decide; subst; intros; apply Hp; eauto.
    + intros q. rewrite lookup_insert. case_decide; subst; intros; apply Hd; eauto.
  - unfold exit. destruct (processes t !! p) as [pr|] eqn:Hq; [|by constructor].
    destruct (status pr) eqn:Hst; [|by constructor].
    constructor; simpl; [done..| | | |by apply VersionTable.wf_bump].
    + intros q pr'. rewrite lookup_insert. case_decide; [|apply Hpr].
      intros [= <-]. subst. apply (Hpr _ _ Hq).
    + intros q Hsome. rewrite lookup_insert. case_decide; [|by apply Hd].
      subst. specialize (Hd _ Hsome). congruence.
    + intros q pr'. rewrite lookup_insert. case_decide; [|apply He].
      intros [= <-]. simpl. split; eauto.
  - unfold bump_generation. case_match; [|by constructor].
    constructor; simpl; try done. by apply VersionTable.wf_bump.
Qed.

Lemma reachable_inv t : reachable t → table_inv t.
Proof.
  intros Hr. unfold reachable in Hr.
  apply (rtc_ind_r table_inv _ table_inv_new) in Hr; [done|].
  intros x y _ Hxy Hx. by eapply table_inv_step.
Qed.

(** C38: in every reachable process table each pid below [next] is owned by at
    most one slot: pending and public pids are disjoint, all lie between 1 and
    the allocator, a process knows its own pid, and it has an exit code
    exactly when it has exited. *)
Theorem table_reachable_inv t : reachable t → table_inv t.
Proof. apply reachable_inv. Qed.

Lemma step_keeps_processes t t' p pr :
  table_inv t → table_step t t' → processes t !! p = Some pr →
  ∃ pr', processes t' !! p = Some pr' ∧
    pid pr' = pid pr ∧ parent pr' = parent pr ∧ credentials pr' = credentials pr ∧
    p_namespace pr' = p_namespace pr ∧ exec pr' = exec pr ∧
    (status pr = Exited → pr' = pr).
Proof.
  intros Hinv Hs Hp.
  destruct Hs as [t par creds build|t slot ex|t slot|t slot ns|t q code|t q].
  - unfold clone_begin_with_namespace_generation. simpl.
    destruct (build (next t)). simpl. eauto 10.
  - unfold commit. destruct (pending t !! slot) eqn:E; simpl; [|eauto 10].
    assert (slot ≠ p).
    { intros ->. pose proof (inv_disjoint _ Hinv p (ltac:(eauto))). congruence. }
    rewrite lookup_insert_ne by done. eauto 10.
  - simpl. eauto 10.
  - unfold replace_pending_namespace. case_match; simpl; eauto 10.
  - unfold exit. destruct (processes t !! q) as [prq|] eqn:E; [|eauto 10].
    destruct (status prq) eqn:Hst; [|eauto 10]. simpl. rewrite lookup_insert.
    case_decide; [subst|eauto 10]. simplify_eq. eexists. split_and!; [done..|].
    congruence.
  - unfold bump_generation. case_match; simpl; eauto 10.
Qed.

(** A process, once public, never leaves the table, and its identity,
    parent, credentials, namespace and image never change; once it has exited
    its whole record, the recorded exit code included, is final. *)
Theorem process_record_is_stable t t' p pr :
  reachable t → rtc table_step t t' → processes t !! p = Some pr →
  ∃ pr', processes t' !! p = Some pr' ∧
    pid pr' = pid pr ∧ parent pr' = parent pr ∧ credentials pr' = credentials pr ∧
    p_namespace pr' = p_namespace pr ∧ exec pr' = exec pr ∧
    (status pr = Exited → pr' = pr).
Proof.
  intros Hinv%reachable_inv Ht Hp. revert pr Hp. induction Ht as [t|t1 t2 t3 H12 _ IH]; intros pr Hp.
  { eauto 10. }
  destruct (step_keeps_processes _ _ _ _ Hinv H12 Hp)
    as (pr2 & Hp2 & E1 & E2 & E3 & E4 & E5 & Hex).
  destruct (IH (table_inv_step _ _ Hinv H12) pr2 Hp2)
    as (pr3 & Hp3 & F1 & F2 & F3 & F4 & F5 & Hex').
  exists pr3. split_and!; [done|congruence..|]. intros Hst.
  rewrite (Hex Hst) in *. auto.
Qed.

(** A spawn that is begun and discarded leaves the public listing, the
    public processes and every qid version as they were, and its pid is not
    handed out again. *)
Theorem discarded_spawn_leaves_no_trace t par creds build :
  table_inv t →
  let '(t1, slot) := clone_begin_with_namespace_generation par creds build t in
  ∃ p, slot = Some p ∧ processes t !! p = None ∧ pending t !! p = None ∧
    list_pids t1 = list_pids t ∧
    list_pids (discard p t1) = list_pids t ∧
    processes (discard p t1) = processes t ∧
    pending (discard p t1) = pending t ∧
    t_versions (discard p t1) = t_versions t ∧
    p < next (discard p t1).
Proof.
  intros Hinv. unfold clone_begin_with_namespace_generation. simpl.
  destruct (build (next t)) as [ns gen]. exists (next t).
  assert (pending t !! next t = None) as Hnone.
  { destruct (pending t !! next t) eqn:E; [|done].
    pose proof (inv_pending _ Hinv (next t) (ltac:(eauto))). lia. }
  assert (processes t !! next t = None).
  { destruct (processes t !! next t) as [pr|] eqn:E; [|done].
    destruct (inv_processes _ Hinv _ _ E). lia. }
  split_and!; try done; simpl; [|lia]. by apply delete_insert_id.
Qed.
End table.

Lemma table_reachable_inv_witness :
  table_inv (Tree := Z) (clone_begin None ns_new credentials_system table_new).1.
Proof.
  apply (table_reachable_inv (Tree := Z)).
  eapply rtc_l; [apply (step_begin _ None credentials_system (λ _, (ns_new, 0)))|].
  reflexivity.
Defined.

Definition demo_exec : ExecSpec := mkExec "/bin/x" [] (mkManifest 0 []) ∅.
Definition demo_exited : ProcessTable Z :=
  exit 1 7 (commit 1 demo_exec (clone_begin None ns_new credentials_system table_new).1).1.

Lemma process_record_is_stable_witness :
  ∃ pr', processes (exit 1 130 demo_exited) !! 1 = Some pr' ∧
    pid pr' = 1 ∧ parent pr' = None ∧ credentials pr' = credentials_system ∧
    p_namespace pr' = ns_new ∧ exec pr' = demo_exec ∧
    (Exited = Exited →
     pr' = mkProcess 1 None credentials_system ns_new demo_exec Exited (Some 7)).
Proof.
  apply (process_record_is_stable demo_exited (exit 1 130 demo_exited) 1
    (mkProcess 1 None credentials_system ns_new demo_exec Exited (Some 7))).
  - eapply rtc_l; [apply (step_begin _ None credentials_system (λ _, (ns_new, 0)))|].
    eapply rtc_l; [apply (step_commit _ 1 demo_exec)|].
    eapply rtc_l; [apply (step_exit _ 1 7)|]. reflexivity.
  - apply rtc_once. apply step_exit.
  - vm_compute. reflexivity.
Defined.

Lemma discarded_spawn_leaves_no_trace_witness :
  ∃ p, list_pids (discard p (clone_begin None ns_new credentials_system demo_exited).1)
         = list_pids demo_exited ∧
       processes demo_exited !! p = None ∧ p < 3.
Proof.
  assert (table_inv demo_exited) as Hinv.
  { apply reachable_inv.
    eapply rtc_l; [apply (step_begin _ None credentials_system (λ _, (ns_new, 0)))|].
    eapply rtc_l; [apply (step_commit _ 1 demo_exec)|].
    eapply rtc_l; [apply (step_exit _ 1 7)|]. reflexivity. }
  destruct (discarded_spawn_leaves_no_trace demo_exited None
    credentials_system (λ _, (ns_new, 0)) Hinv)
    as (p & Hp & H1 & _ & _ & H3 & _ & _ & _ & H4).
  exists p. split_and!; done.
Defined.
