(* ===== verification/SrvFs.v ===== *)
(** * [/srv], the rendezvous device (crates/kernel/src/srvfs.rs)

    A live registry of posted handles shared by every view, and views that only
    add names to a deny set. [SrvFs] is what one view's [&self] reaches: the
    shared registry, its deny set and its own fid table; [Rendezvous] is the
    registry with all its views, and [in_view] runs one view's operation on it.
    The standard library does not specify the algorithm of its default hasher:
    it is a parameter. *)
From S2P Require Import Prelude RustStd ApTypes ApServer Namespace.

Section srvfs.
Context {Tree : Type}.

Record Handle : Type := mkHandle {
  h_name : string; h_tree : Tree; h_access : Access; qid_path : Z }.

Record Registry : Type := mkRegistry { handles : list Handle; next_qid : Z }.

Inductive SrvNode : Type := SrvRoot | SrvHandle (name : string).

Record SrvFs : Type := mkSrv {
  registry : Registry;
  denied : gset string;
  srv_fids : gmap Fid SrvNode;
}.

Definition srv_new : SrvFs := mkSrv (mkRegistry [] 1) ∅ ∅.

Definition visible (d : gset string) (name : string) : bool :=
  negb (bool_decide (name ∈ d)).

(** [retain(|h| h.name != name)] *)
Definition retain_other (name : string) (hs : list Handle) : list Handle :=
  filter (λ h, h_name h ≠ name) hs.

Definition post (name : string) (tree : Tree) (access : Access) (reg : Registry) :
    Registry :=
  mkRegistry (retain_other name (handles reg) ++
              [mkHandle name tree access (next_qid reg)])
             (next_qid reg + 1).

Definition unpost (name : string) (reg : Registry) : Registry * bool :=
  let hs := retain_other name (handles reg) in
  (mkRegistry hs (next_qid reg),
   negb (Nat.eqb (length hs) (length (handles reg)))).

(** The handles a view shows, in post order. *)
Definition visible_handles (d : gset string) (reg : Registry) : list Handle :=
  filter (λ h, visible d (h_name h) = true) (handles reg).

Definition find_handle (name : string) (reg : Registry) : option Handle :=
  head (filter (λ h, h_name h = name) (handles reg)).

Definition srv_list (s : SrvFs) : list string :=
  h_name <$> visible_handles (denied s) (registry s).

Definition srv_lookup (name : string) (s : SrvFs) : option (Tree * Access) :=
  if negb (visible (denied s) name) then None
  else (λ h, (h_tree h, h_access h)) <$> find_handle name (registry s).

Definition srv_view (d : gset string) (s : SrvFs) : SrvFs :=
  mkSrv (registry s) (denied s ∪ d) ∅.

(** [DefaultHasher::new], the pairs fed to it, [finish]. *)
Context (hash_handles : list (string * Z) → Z).

Definition srv_qid_of (n : SrvNode) (s : SrvFs) : Qid :=
  match n with
  | SrvRoot =>
      mkQid Dir
        (as_u32 (hash_handles
           ((λ h, (h_name h, qid_path h)) <$>
            visible_handles (denied s) (registry s)))) 0
  | SrvHandle name =>
      mkQid File 0 (default 0 (qid_path <$> find_handle name (registry s)))
  end.

Definition srv_node_of (f : Fid) : Op SrvFs SrvNode :=
  if bool_decide (f = ROOT) then mret SrvRoot
  else s ← mget; mlift (srv_fids s !! f) NotFound.

Definition set_srv_fids (g : gmap Fid SrvNode → gmap Fid SrvNode) (s : SrvFs) : SrvFs :=
  mkSrv (registry s) (denied s) (g (srv_fids s)).

(** The node a walk from [start] reaches. *)
Definition srv_walk_node (start : SrvNode) (names : list string) : Op SrvFs SrvNode :=
  s ← mget;
  match start, names with
  | _, [] => mret start
  | SrvRoot, [name] =>
      if visible (denied s) name then
        if existsb (λ h, bool_decide (h_name h = name)) (handles (registry s))
        then mret (SrvHandle name) else mfail NotFound
      else mfail NotFound
  | _, _ => mfail NotDirectory
  end.

Definition srv_walk (f newfid : Fid) (names : list string) : Op SrvFs Qid :=
  s ← mget;
  if bool_decide (newfid = ROOT) || isSome (srv_fids s !! newfid) then mfail BadRequest
  else
    start ← (if bool_decide (f = ROOT) then mret SrvRoot
             else mlift (srv_fids s !! f) NotFound);
    n ← srv_walk_node start names;
    mmodify (set_srv_fids (insert newfid n));;
    mret (srv_qid_of n s).

Definition srv_open (f : Fid) (m : OpenMode) : Op SrvFs Qid :=
  n ← srv_node_of f; s ← mget; mret (srv_qid_of n s).

Definition srv_content (n : SrvNode) (s : SrvFs) : bytes :=
  match n with
  | SrvRoot => into_bytes (join (String "010" "") (srv_list s))
  | SrvHandle name => into_bytes name
  end.

Definition srv_read (f : Fid) (offset : Offset) (count : Z) : Op SrvFs bytes :=
  n ← srv_node_of f; s ← mget; mret (slice (srv_content n s) offset count).

Definition srv_write (f : Fid) (offset : Offset) (data : bytes) : Op SrvFs Z :=
  mfail Unsupported.

Definition srv_stat (f : Fid) : Op SrvFs Stat :=
  n ← srv_node_of f; s ← mget;
  mret (mkStat "" (srv_qid_of n s) (len (srv_content n s)) false false).

Definition srv_create (f newfid : Fid) (name : string) (k : FileKind) : Op SrvFs Qid :=
  mfail Unsupported.
Definition srv_remove (f : Fid) : Op SrvFs unit := mfail Unsupported.

Definition srv_clunk (f : Fid) : Op SrvFs unit := mmodify (set_srv_fids (delete f)).

Definition SrvFs_FileServer : FileServer SrvFs :=
  {| fs_walk := srv_walk; fs_open := srv_open; fs_read := srv_read;
     fs_write := srv_write; fs_stat := srv_stat; fs_create := srv_create;
     fs_remove := srv_remove; fs_clunk := srv_clunk |}.

(** ** The registry shared by its views *)

Record Rendezvous : Type := mkRendezvous {
  shared : Registry; views : list (gset string * gmap Fid SrvNode) }.

(** Run an operation of view [i]: it sees, and may replace, the shared registry. *)
Definition in_view {A} (i : nat) (m : Op SrvFs A) : Op Rendezvous A := λ r,
  match views r !! i with
  | None => (r, Panic)
  | Some (d, fs) =>
      let '(s, a) := m (mkSrv (shared r) d fs) in
      (mkRendezvous (registry s) (<[i := (denied s, srv_fids s)]> (views r)), a)
  end.

(** What can happen to a view: a registry change made through any other view of
    the device, or a request of its own. *)
Inductive srv_event : Type :=
  | PostEv (name : string) (tree : Tree) (access : Access)
  | UnpostEv (name : string)
  | CallEv (request : Request).

Definition set_registry (g : Registry → Registry) (s : SrvFs) : SrvFs :=
  mkSrv (g (registry s)) (denied s) (srv_fids s).

(** The responses a view's client sees along a sequence of events. *)
Fixpoint srv_run (evs : list srv_event) (s : SrvFs) :
    SrvFs * list (result ErrorCode Response) :=
  match evs with
  | [] => (s, [])
  | PostEv name t a :: evs' => srv_run evs' (set_registry (post name t a) s)
  | UnpostEv name :: evs' => srv_run evs' (set_registry (λ g, (unpost name g).1) s)
  | CallEv req :: evs' =>
      let '(s, r) := transport_call (H := SrvFs_FileServer) req s in
      let '(s, rs) := srv_run evs' s in (s, r :: rs)
  end.
End srvfs.
Arguments Handle : clear implicits.
Arguments Registry : clear implicits.
Arguments SrvFs : clear implicits.
Arguments Rendezvous : clear implicits.
Arguments srv_event : clear implicits.

(** ** What a restricted view can observe *)

Section observe.
Context {Tree : Type} (hash_handles : list (string * Z) → Z).
#[local] Instance observe_server : FileServer (SrvFs Tree) := SrvFs_FileServer hash_handles.

(** Fids of a view only point at handles it shows. *)
Definition view_wf (s : SrvFs Tree) : Prop :=
  map_Forall (λ _ n, match n with
                     | SrvRoot => True
                     | SrvHandle name => visible (denied s) name = true
                     end) (srv_fids s).

(** The part of the device a view shows: hidden handles and the qid counter
    removed. *)
Definition shown (s : SrvFs Tree) : SrvFs Tree :=
  mkSrv (mkRegistry (visible_handles (denied s) (registry s)) 0)
        (denied s) (srv_fids s).

Lemma visible_find d name (reg : Registry Tree) q :
  visible d name = true →
  find_handle name (mkRegistry (visible_handles d reg) q) = find_handle name reg.
Proof.
  intros Hv. unfold find_handle, visible_handles. simpl. f_equal.
  induction (handles reg) as [|h hs IH]; [done|].
  rewrite !filter_cons. repeat case_decide; rewrite ?filter_cons;
    repeat case_decide; congruence.
Qed.

Lemma visible_exists d name (reg : Registry Tree) :
  visible d name = true →
  existsb (λ h, bool_decide (h_name h = name)) (visible_handles d reg) =
  existsb (λ h, bool_decide (h_name h = name)) (handles reg).
Proof.
  intros Hv. unfold visible_handles.
  induction (handles reg) as [|h hs IH]; [done|].
  rewrite filter_cons. case_decide; simpl; rewrite IH; [done|].
  rewrite bool_decide_eq_false_2; [done|]. congruence.
Qed.

Lemma shown_twice d (reg : Registry Tree) q :
  visible_handles d (mkRegistry (visible_handles d reg) q) = visible_handles d reg.
Proof.
  unfold visible_handles. simpl. rewrite list_filter_filter.
  apply list_filter_iff. tauto.
Qed.

(** Whether a node is one the view shows. *)
Definition shown_node (s : SrvFs Tree) (n : SrvNode) : Prop :=
  match n with SrvRoot => True | SrvHandle name => visible (denied s) name = true end.

Lemma srv_qid_of_shown n s :
  shown_node s n → srv_qid_of hash_handles n (shown s) = srv_qid_of hash_handles n s.
Proof.
  destruct n; simpl; intros Hn.
  - by rewrite shown_twice.
  - by rewrite visible_find.
Qed.
Lemma srv_content_shown n s : srv_content n (shown s) = srv_content n s.
Proof. destruct n; simpl; [|done]. unfold srv_list. simpl. by rewrite shown_twice. Qed.

Lemma srv_node_of_shown f s s' r :
  view_wf s → srv_node_of f s = (s', r) →
  srv_node_of f (shown s) = (shown s, r) ∧ s' = s ∧
  match r with Ok n => shown_node s n | _ => True end.
Proof.
  intros Hwf. unfold srv_node_of. munfold. case_match; simplify_eq/=.
  - intros [= <- <-]. done.
  - destruct (srv_fids s !! f) as [n|] eqn:Hf; intros [= <- <-]; [|done].
    split_and!; [done..|]. apply (Hwf _ _ Hf).
Qed.

Lemma srv_walk_node_shown start names s s' r :
  shown_node s start → srv_walk_node start names s = (s', r) →
  srv_walk_node start names (shown s) = (shown s, r) ∧ s' = s ∧
  match r with Ok n => shown_node s n | _ => True end.
Proof.
  intros Hs. unfold srv_walk_node. munfold.
  destruct names as [|name [|? ?]], start; simpl in *; try (by intros [= <- <-]).
  destruct (visible (denied s) name) eqn:Hv; [|by intros [= <- <-]].
  rewrite visible_exists by done.
  case_match; intros [= <- <-]; done.
Qed.

Lemma srv_walk_shown f newfid names s s' r :
  view_wf s → srv_walk hash_handles f newfid names s = (s', r) →
  srv_walk hash_handles f newfid names (shown s) = (shown s', r) ∧ view_wf s'.
Proof.
  intros Hwf. unfold srv_walk. munfold.
  destruct (bool_decide (newfid = ROOT) || isSome (srv_fids s !! newfid));
    [by intros [= <- <-]|].
  assert (∀ start, shown_node s start →
    (let '(s1, o) := srv_walk_node start names s in
     match o with
     | Ok n => (set_srv_fids (insert newfid n) s1, Ok (srv_qid_of hash_handles n s))
     | Err e => (s1, Err e) | Park => (s1, Park) | Panic => (s1, Panic)
     end) = (s', r) →
    (let '(s1, o) := srv_walk_node start names (shown s) in
     match o with
     | Ok n => (set_srv_fids (insert newfid n) s1,
                Ok (srv_qid_of hash_handles n (shown s)))
     | Err e => (s1, Err e) | Park => (s1, Park) | Panic => (s1, Panic)
     end) = (shown s', r) ∧ view_wf s') as Hgo.
  { intros start Hst. destruct (srv_walk_node start names s) as [s1 o] eqn:Hw.
    destruct (srv_walk_node_shown _ _ _ _ _ Hst Hw) as (-> & -> & Ho).
    destruct o; intros [= <- <-]; try done.
    rewrite srv_qid_of_shown by done. split; [done|].
    by apply map_Forall_insert_2. }
  destruct (bool_decide (f = ROOT)).
  - intros H. by apply (Hgo SrvRoot).
  - destruct (srv_fids s !! f) as [start|] eqn:Hf; [|by intros [= <- <-]].
    intros H. apply (Hgo start); [|done]. apply (Hwf _ _ Hf).
Qed.

(** Every request commutes with hiding what the view does not show. *)
Lemma srv_call_shown req s s' r :
  view_wf s → transport_call req s = (s', r) →
  transport_call req (shown s) = (shown s', r) ∧ view_wf s'.
Proof.
  intros Hwf. destruct req; simpl; munfold; try (by intros [= <- <-]).
  - destruct (srv_walk hash_handles fid newfid names s) as [s1 o] eqn:Hw.
    destruct (srv_walk_shown _ _ _ _ _ _ Hwf Hw) as [-> ?].
    destruct o; by intros [= <- <-].
  - unfold srv_open. munfold. destruct (srv_node_of fid s) as [s1 o] eqn:Hn.
    destruct (srv_node_of_shown _ _ _ _ Hwf Hn) as (-> & -> & Ho).
    destruct o; intros [= <- <-]; rewrite ?srv_qid_of_shown by done; done.
  - unfold srv_read. munfold. destruct (srv_node_of fid s) as [s1 o] eqn:Hn.
    destruct (srv_node_of_shown _ _ _ _ Hwf Hn) as (-> & -> & Ho).
    destruct o; intros [= <- <-]; rewrite ?srv_content_shown; done.
  - unfold srv_stat. munfold. destruct (srv_node_of fid s) as [s1 o] eqn:Hn.
    destruct (srv_node_of_shown _ _ _ _ Hwf Hn) as (-> & -> & Ho).
    destruct o; intros [= <- <-];
      rewrite ?srv_content_shown, ?srv_qid_of_shown by done; done.
  - intros [= <- <-]. split; [done|]. by apply map_Forall_delete.
Qed.

Lemma hidden_post_shown name t a s :
  visible (denied s) name = false →
  shown (set_registry (post name t a) s) = shown s.
Proof.
  intros Hv. unfold shown, set_registry, visible_handles, post, retain_other. simpl.
  do 2 f_equal. rewrite filter_app, list_filter_filter, filter_cons, filter_nil.
  case_decide; simpl in *; [congruence|]. rewrite app_nil_r.
  apply list_filter_iff. intros h. split; [tauto|]. intros ?. split; congruence.
Qed.

Lemma hidden_unpost_shown name s :
  visible (denied s) name = false →
  shown (set_registry (λ g, (unpost name g).1) s) = shown s.
Proof.
  intros Hv. unfold shown, set_registry, visible_handles, unpost, retain_other. simpl.
  do 2 f_equal. rewrite list_filter_filter.
  apply list_filter_iff. intros h. split; [tauto|]. intros ?. split; congruence.
Qed.

(** A registry change on a name the deny set hides. *)
Definition hidden_event (d : gset string) (ev : srv_event Tree) : bool :=
  match ev with
  | PostEv name _ _ | UnpostEv name => negb (visible d name)
  | CallEv _ => false
  end.
(** A service posted under a name the view shows. *)
Definition visible_post (d : gset string) (ev : srv_event Tree) : bool :=
  match ev with PostEv name _ _ => visible d name | _ => false end.

(** No request changes the deny set. *)
Definition same_denied (s s' : SrvFs Tree) : Prop := denied s' = denied s.
#[local] Instance same_denied_preorder : PreOrder same_denied.
Proof. split; [done|]. intros x y z. unfold same_denied. congruence. Qed.

Lemma srv_call_denied req s s' r :
  transport_call req s = (s', r) → denied s' = denied s.
Proof.
  apply (step_rel_elim same_denied).
  destruct req; simpl; unfold srv_walk, srv_open, srv_read, srv_write, srv_stat,
    srv_create, srv_remove, srv_clunk, srv_node_of, srv_walk_node;
    repeat first [apply step_modify; done | progress msteps].
Qed.

Lemma unpost_shown name s :
  shown (set_registry (λ g, (unpost name g).1) s) =
  set_registry (λ g, (unpost name g).1) (shown s).
Proof.
  unfold shown, set_registry, visible_handles, unpost, retain_other. simpl. do 2 f_equal.
  rewrite !list_filter_filter. apply list_filter_iff. tauto.
Qed.

Lemma srv_run_shown evs s1 s2 :
  view_wf s1 → view_wf s2 → shown s1 = shown s2 →
  Forall (λ ev, visible_post (denied s1) ev = false) evs →
  (srv_run hash_handles evs s1).2 =
  (srv_run hash_handles (filter (λ ev, hidden_event (denied s1) ev = false) evs) s2).2.
Proof.
  revert s1 s2. induction evs as [|ev evs IH]; intros s1 s2 Hw1 Hw2 Hs Hall; [done|].
  apply Forall_cons in Hall as [Hev Hall]. rewrite filter_cons.
  destruct ev as [name t a|name|req]; simpl in Hev |- *.
  - rewrite Hev. apply (IH (set_registry (post name t a) s1)); try done.
    by rewrite <- Hs, hidden_post_shown.
  - destruct (visible (denied s1) name) eqn:Hv; simpl.
    + apply (IH (set_registry (λ g, (unpost name g).1) s1)); try done. rewrite unpost_shown, Hs.
      symmetry. apply unpost_shown.
    + apply (IH (set_registry (λ g, (unpost name g).1) s1)); try done.
      by rewrite <- Hs, hidden_unpost_shown.
  - fold observe_server.
    destruct (transport_call req s1) as [s1' r1] eqn:H1.
    destruct (transport_call req s2) as [s2' r2] eqn:H2.
    destruct (srv_call_shown _ _ _ _ Hw1 H1) as [E1 Hw1'].
    destruct (srv_call_shown _ _ _ _ Hw2 H2) as [E2 Hw2'].
    rewrite Hs, E2 in E1. apply pair_eq in E1 as [E1 Er].
    specialize (IH s1' s2' Hw1' Hw2' (eq_sym E1)).
    rewrite (srv_call_denied _ _ _ _ H1) in IH. specialize (IH Hall).
    destruct (srv_run _ evs s1'), (srv_run _ _ s2'). simpl in *. congruence.
Qed.

(** *** Up to the numbers of qids *)

Definition fade (h : Handle Tree) : Handle Tree := mkHandle (h_name h) (h_tree h) (h_access h) 0.
Definition blur_qid (q : Qid) : Qid := mkQid (kind q) 0 0.
Definition blur (r : Response) : Response :=
  match r with
  | WalkResp q => WalkResp (blur_qid q)
  | OpenResp q => OpenResp (blur_qid q)
  | CreateResp q => CreateResp (blur_qid q)
  | StatResp st => StatResp (mkStat (stat_name st) (blur_qid (stat_qid st)) (stat_length st)
                               (executable st) (writable st))
  | _ => r
  end.

(** Two views of one device that show the same services, possibly under other
    numbers. *)
Record look_alike (s1 s2 : SrvFs Tree) : Prop := {
  la_denied : denied s1 = denied s2;
  la_fids : srv_fids s1 = srv_fids s2;
  la_shown : fade <$> visible_handles (denied s1) (registry s1) =
             fade <$> visible_handles (denied s2) (registry s2);
}.

Lemma names_faded (hs : list (Handle Tree)) : h_name <$> hs = h_name <$> (fade <$> hs).
Proof. rewrite <-list_fmap_compose. by apply list_fmap_ext. Qed.
Lemma exists_faded name (hs : list (Handle Tree)) :
  existsb (λ h, bool_decide (h_name h = name)) hs =
  existsb (λ h, bool_decide (h_name h = name)) (fade <$> hs).
Proof. induction hs as [|h hs IH]; simpl; [done|]. by rewrite IH. Qed.
Lemma retain_faded name (hs : list (Handle Tree)) :
  fade <$> retain_other name hs = retain_other name (fade <$> hs).
Proof.
  unfold retain_other. induction hs as [|h hs IH]; [done|].
  rewrite fmap_cons, !filter_cons. simpl. case_decide; [|done]. by rewrite fmap_cons, IH.
Qed.
Lemma retain_shown d name (hs : list (Handle Tree)) :
  filter (λ h, visible d (h_name h) = true) (retain_other name hs) =
  retain_other name (filter (λ h, visible d (h_name h) = true) hs).
Proof.
  unfold retain_other. rewrite !list_filter_filter. apply list_filter_iff. tauto.
Qed.

Lemma look_alike_post name t a s1 s2 :
  look_alike s1 s2 → look_alike (set_registry (post name t a) s1) (set_registry (post name t a) s2).
Proof.
  intros [Hd Hf Hs]. constructor; [done..|]. unfold visible_handles, set_registry, post in *.
  simpl in *. rewrite !filter_app, !fmap_app, !retain_shown, !retain_faded, Hs, Hd. f_equal.
  rewrite !filter_cons, !filter_nil. simpl. by case_decide.
Qed.
Lemma look_alike_unpost name s1 s2 :
  look_alike s1 s2 →
  look_alike (set_registry (λ g, (unpost name g).1) s1) (set_registry (λ g, (unpost name g).1) s2).
Proof.
  intros [Hd Hf Hs]. constructor; [done..|]. unfold visible_handles, set_registry, unpost in *.
  simpl in *. by rewrite !retain_shown, !retain_faded, Hs.
Qed.

(** The faded view is a function of the shown one. *)
Lemma look_alike_shown s1 s2 s3 : shown s1 = shown s3 → look_alike s1 s2 → look_alike s3 s2.
Proof. intros [= Hv Hd Hf] [Hd' Hf' Hs]. constructor; congruence. Qed.

Lemma srv_node_of_look_alike f s1 s2 :
  look_alike s1 s2 → ∃ o, srv_node_of f s1 = (s1, o) ∧ srv_node_of f s2 = (s2, o).
Proof.
  intros [Hd Hf Hs]. unfold srv_node_of. munfold. case_match; [by eexists|].
  rewrite Hf. case_match; by eexists.
Qed.
Lemma srv_content_look_alike n s1 s2 :
  look_alike s1 s2 → srv_content n s1 = srv_content n s2.
Proof.
  intros [Hd Hf Hs]. destruct n; [|done]. simpl. unfold srv_list.
  by rewrite (names_faded (visible_handles (denied s1) _)), Hs, <-names_faded.
Qed.
Lemma blur_qid_of n (s1 s2 : SrvFs Tree) :
  blur_qid (srv_qid_of hash_handles n s1) = blur_qid (srv_qid_of hash_handles n s2).
Proof. by destruct n. Qed.
Lemma srv_walk_node_look_alike start names s1 s2 :
  look_alike s1 s2 →
  ∃ o, srv_walk_node start names s1 = (s1, o) ∧ srv_walk_node start names s2 = (s2, o).
Proof.
  intros [Hd Hf Hs]. unfold srv_walk_node. munfold.
  destruct names as [|name [|? ?]], start; try by eexists. rewrite <-Hd.
  destruct (visible (denied s1) name) eqn:Hv; [|by eexists].
  rewrite <-(visible_exists (denied s2) name (registry s2)),
    (exists_faded name (visible_handles (denied s2) _)), <-Hs, <-exists_faded
    by congruence.
  rewrite visible_exists by done. case_match; by eexists.
Qed.

Lemma srv_call_look_alike req s1 s2 :
  look_alike s1 s2 →
  look_alike (transport_call req s1).1 (transport_call req s2).1 ∧
  result_map blur (transport_call req s1).2 = result_map blur (transport_call req s2).2.
Proof.
  intros Hl. pose proof Hl as [Hd Hf Hs].
  destruct req; simpl; try done;
    try (unfold srv_open, srv_read, srv_stat; munfold;
         destruct (srv_node_of_look_alike fid s1 s2 Hl) as (o & -> & ->);
         destruct o as [n| | |]; simpl; (split; [done|]); try done;
         by rewrite ?(srv_content_look_alike n _ _ Hl), ?(blur_qid_of n s1 s2)).
  - unfold srv_walk. munfold. rewrite Hf. destruct (_ || _); [done|].
    destruct (bool_decide _); [|destruct (srv_fids s2 !! fid) as [start|]; [|done]];
      [set (start := SrvRoot)|];
      destruct (srv_walk_node_look_alike start names s1 s2 Hl) as (o & -> & ->);
      destruct o as [n| | |]; try done; simpl; rewrite (blur_qid_of n s1 s2);
      (split; [|done]); constructor; simpl; rewrite ?Hf; done.
  - split; [|done]. constructor; simpl; rewrite ?Hf; done.
Qed.

Lemma srv_run_look_alike evs s1 s2 :
  look_alike s1 s2 →
  result_map blur <$> (srv_run hash_handles evs s1).2 =
  result_map blur <$> (srv_run hash_handles
    (filter (λ ev, hidden_event (denied s1) ev = false) evs) s2).2.
Proof.
  revert s1 s2. induction evs as [|ev evs IH]; intros s1 s2 Hl; [done|].
  rewrite filter_cons. destruct ev as [name t a|name|req]; simpl.
  - destruct (visible (denied s1) name) eqn:Hv; simpl.
    + by apply (IH (set_registry (post name t a) s1)), look_alike_post.
    + apply (IH (set_registry (post name t a) s1)).
      eapply look_alike_shown; [|done]. by rewrite hidden_post_shown.
  - destruct (visible (denied s1) name) eqn:Hv; simpl.
    + by apply (IH (set_registry (λ g, (unpost name g).1) s1)), look_alike_unpost.
    + apply (IH (set_registry (λ g, (unpost name g).1) s1)).
      eapply look_alike_shown; [|done]. by rewrite hidden_unpost_shown.
  - fold observe_server. destruct (srv_call_look_alike req s1 s2 Hl) as [Hl' Hr].
    destruct (transport_call req s1) as [s1' r1] eqn:H1.
    destruct (transport_call req s2) as [s2' r2]. simpl in *.
    specialize (IH s1' s2' Hl'). rewrite (srv_call_denied _ _ _ _ H1) in IH.
    destruct (srv_run _ evs s1'), (srv_run _ _ s2'). simpl in *. by f_equal.
Qed.

(** C28: what a view learns of the services hidden from it. Whatever is posted under,
    replaced at or withdrawn from the denied names between a client's requests,
    every one of its requests (walks, reads of the listing, opens and stats) gets
    the response it would get had none of this happened, up to the numbers (path
    and version) of the qids; and exactly that response as long as no service is
    posted under a name the view shows. *)
Theorem srv_denied_unobservable (s : SrvFs Tree) evs :
  view_wf s →
  let quiet := filter (λ ev, hidden_event (denied s) ev = false) evs in
  result_map blur <$> (srv_run hash_handles evs s).2 =
  result_map blur <$> (srv_run hash_handles quiet s).2 ∧
  (Forall (λ ev, visible_post (denied s) ev = false) evs →
   (srv_run hash_handles evs s).2 = (srv_run hash_handles quiet s).2).
Proof.
  intros Hwf quiet. split; [by apply srv_run_look_alike|]. intros Hall. by apply srv_run_shown.
Qed.
End observe.

(** A hidden post leaves no trace until a visible one follows: qid paths come
    from one counter, so the path of a later visible handle counts the hidden
    posts before it. *)
Example hidden_posts_shift_visible_paths :
  let hash := λ l : list (string * Z), 0 in
  let s := srv_view {["secret"]} (srv_new (Tree := unit)) in
  let probe := [CallEv (WalkReq ROOT 1 ["chat"])] in
  let quiet := [PostEv "chat" tt AccessReadOnly] ++ probe in
  let busy := [PostEv "secret" tt AccessReadOnly] ++ quiet in
  (srv_run hash quiet s).2 = [Ok (WalkResp (mkQid File 0 1))] ∧
  (srv_run hash busy s).2 = [Ok (WalkResp (mkQid File 0 2))].
Proof. vm_compute. done. Qed.

Definition demo_view : SrvFs unit :=
  srv_view {["secret"]}
    (mkSrv (post "chat" tt AccessReadOnly (post "secret" tt AccessReadWrite
       (mkRegistry [] 1))) ∅ ∅).

Lemma srv_denied_unobservable_witness :
  let evs := [CallEv (StatReq ROOT); PostEv "secret" tt AccessReadOnly; UnpostEv "secret";
     CallEv (WalkReq ROOT 1 ["secret"]); UnpostEv "chat"; CallEv (ReadReq ROOT 0 100)] in
  let post := [PostEv "chat" tt AccessReadOnly; CallEv (WalkReq ROOT 1 ["chat"])] in
  let quiet := [CallEv (StatReq ROOT); CallEv (WalkReq ROOT 1 ["secret"]);
     UnpostEv "chat"; CallEv (ReadReq ROOT 0 100)] in
  (srv_run (λ _, 7) evs demo_view).2 = (srv_run (λ _, 7) quiet demo_view).2 ∧
  result_map blur <$> (srv_run (λ _, 7) (evs ++ post) demo_view).2 =
  result_map blur <$> (srv_run (λ _, 7) (quiet ++ post) demo_view).2.
Proof.
  intros evs post quiet. split.
  - apply (srv_denied_unobservable (λ _, 7) demo_view evs); [apply map_Forall_empty|].
    repeat constructor.
  - apply (srv_denied_unobservable (λ _, 7) demo_view (evs ++ post)). apply map_Forall_empty.
Defined.

(** ** The registry *)

Section registry.
Context {Tree : Type}.

(** One entry per name; qid paths are distinct and below the counter. *)
Record registry_wf (reg : Registry Tree) : Prop := {
  names_unique : NoDup (h_name <$> handles reg);
  paths_unique : NoDup (qid_path <$> handles reg);
  paths_below : Forall (λ h, 0 < qid_path h < next_qid reg) (handles reg);
  next_positive : 0 < next_qid reg;
}.

Lemma registry_wf_new : registry_wf (mkRegistry [] 1).
Proof. constructor; simpl; [constructor..|lia]. Qed.

Lemma retain_other_in name (hs : list (Handle Tree)) h :
  h ∈ retain_other name hs ↔ h ∈ hs ∧ h_name h ≠ name.
Proof. unfold retain_other. rewrite list_elem_of_filter. tauto. Qed.

Lemma retain_other_wf name reg :
  registry_wf reg →
  registry_wf (mkRegistry (retain_other name (handles reg)) (next_qid reg)).
Proof.
  intros [Hn Hp Hb Hx]. constructor; simpl; [by apply NoDup_fmap_filter..| |done].
  apply Forall_forall. intros h [Hh _]%retain_other_in.
  by apply (proj1 (Forall_forall _ _) Hb).
Qed.

Lemma post_wf name t a reg : registry_wf reg → registry_wf (post name t a reg).
Proof.
  intros Hwf. pose proof (retain_other_wf name _ Hwf) as [Hn Hp Hb Hx]. simpl in *.
  rewrite Forall_forall in Hb.
  constructor; simpl; [| | |lia]; rewrite ?fmap_app.
  - apply NoDup_app. split_and!; [done| |apply NoDup_singleton].
    intros x (h & -> & [_ Hh]%retain_other_in)%list_elem_of_fmap; simpl.
    by intros Hq%list_elem_of_singleton.
  - apply NoDup_app. split_and!; [done| |apply NoDup_singleton].
    intros x (h & -> & Hh)%list_elem_of_fmap; simpl. intros Hq%list_elem_of_singleton.
    specialize (Hb _ Hh). lia.
  - apply Forall_app. split; [|apply Forall_singleton; simpl; lia].
    apply Forall_forall. intros h Hh. specialize (Hb _ Hh). lia.
Qed.

Lemma find_app name (l1 l2 : list (Handle Tree)) q :
  find_handle name (mkRegistry (l1 ++ l2) q) =
  match find_handle name (mkRegistry l1 q) with
  | Some h => Some h | None => find_handle name (mkRegistry l2 q) end.
Proof.
  unfold find_handle. simpl. rewrite filter_app.
  by destruct (filter (λ h, h_name h = name) l1).
Qed.

Lemma find_retained name name' (hs : list (Handle Tree)) q :
  find_handle name' (mkRegistry (retain_other name hs) q) =
  if bool_decide (name' = name) then None else find_handle name' (mkRegistry hs q).
Proof.
  unfold find_handle, retain_other. simpl. rewrite list_filter_filter.
  case_bool_decide as Hn.
  - replace (filter _ hs) with (@nil (Handle Tree)); [done|]. symmetry.
    induction hs as [|h hs IH]; [done|].
    rewrite filter_cons. case_decide; [|done]. destruct_and?; congruence.
  - f_equal. apply list_filter_iff. intros h. split; [tauto|]. intros <-. done.
Qed.

Lemma find_post n name t a (reg : Registry Tree) :
  find_handle n (post name t a reg) =
  if bool_decide (n = name) then Some (mkHandle name t a (next_qid reg))
  else find_handle n reg.
Proof.
  destruct reg as [hs q]. unfold post. simpl. rewrite find_app, find_retained.
  change (find_handle n (mkRegistry hs (q + 1))) with (find_handle n (mkRegistry hs q)).
  case_bool_decide as Hn; [subst|destruct (find_handle n (mkRegistry hs q)); [done|]];
    unfold find_handle; simpl; rewrite filter_cons, filter_nil; by case_decide.
Qed.

Lemma srv_list_post (s : SrvFs Tree) name t a :
  srv_list (set_registry (post name t a) s) =
  filter (λ n, n ≠ name) (srv_list s) ++
  (if visible (denied s) name then [name] else []).
Proof.
  unfold srv_list, visible_handles, retain_other. simpl.
  rewrite filter_app, fmap_app. f_equal.
  - unfold retain_other. rewrite list_filter_fmap, !list_filter_filter. f_equal.
    apply list_filter_iff. intros h. simpl. tauto.
  - rewrite filter_cons, filter_nil. simpl.
    by destruct (visible (denied s) name).
Qed.

(** Posting supersedes. After [post name tree access] the registry is still
    well formed; in every view that shows [name] the lookup gives the new tree
    and access, in every view that hides it nothing; every other name resolves as
    before; the listing is the old one with [name] moved to the end; and the qid
    path of the handle differs from that of every handle posted before. *)
Theorem srv_post_supersedes (s : SrvFs Tree) name t a :
  registry_wf (registry s) →
  let s' := set_registry (post name t a) s in
  registry_wf (registry s') ∧
  srv_lookup name s' = (if visible (denied s) name then Some (t, a) else None) ∧
  (∀ other, other ≠ name → srv_lookup other s' = srv_lookup other s) ∧
  srv_list s' = filter (λ n, n ≠ name) (srv_list s) ++
                (if visible (denied s) name then [name] else []) ∧
  (∀ h, h ∈ handles (registry s) → qid_path h ≠ next_qid (registry s)) ∧
  qid_path <$> find_handle name (registry s') = Some (next_qid (registry s)).
Proof.
  intros Hwf s'. split; [by apply post_wf|].
  pose proof (λ n, find_post n name t a (registry s)) as Hf.
  split_and!.
  - unfold srv_lookup. simpl denied. simpl registry. rewrite Hf, bool_decide_eq_true_2 by done.
    by destruct visible.
  - intros other Hn. unfold srv_lookup. simpl denied.
    simpl registry. by rewrite Hf, bool_decide_eq_false_2.
  - apply srv_list_post.
  - intros h Hh Hq. destruct Hwf as [_ _ Hb _]. rewrite Forall_forall in Hb.
    specialize (Hb h Hh). lia.
  - simpl registry. by rewrite Hf, bool_decide_eq_true_2.
Qed.
End registry.

Lemma srv_post_supersedes_witness :
  srv_lookup "chat" (set_registry (post "chat" tt AccessReadWrite) demo_view) =
  Some (tt, AccessReadWrite).
Proof.
  apply (proj1 (proj2 (srv_post_supersedes demo_view "chat" tt AccessReadWrite
    (post_wf "chat" tt AccessReadOnly _
      (post_wf "secret" tt AccessReadWrite _ registry_wf_new))))).
Defined.

(** ** Fid discipline *)

Definition srv_live {Tree} (s : SrvFs Tree) : gset Fid := dom (srv_fids s) ∖ {[ROOT]}.

Lemma srv_node_of_reads {Tree} f : step_rel (=) (srv_node_of (Tree := Tree) f).
Proof. unfold srv_node_of. msteps. Qed.
Lemma srv_walk_node_reads {Tree} n names :
  step_rel (=) (srv_walk_node (Tree := Tree) n names).
Proof. unfold srv_walk_node. msteps. Qed.
Global Hint Resolve srv_node_of_reads srv_walk_node_reads : alan.

Global Instance srv_fid_contract {Tree} (hash_handles : list (string * Z) → Z) :
  FidContract (H := SrvFs_FileServer hash_handles) (SrvFs Tree) srv_live.
Proof.
  constructor; simpl; unfold srv_live.
  - intros s fid newfid names Hn. unfold srv_walk. munfold.
    replace (_ || _) with true; [done|]. symmetry. apply orb_true_iff.
    destruct Hn as [->|[[x Hx]%elem_of_dom _]%elem_of_difference]; [by left|right].
    by rewrite Hx.
  - intros s s' fid newfid names q Hw. unfold srv_walk in Hw.
    mcases; frame_reads; simplify_eq/=; bool_facts; set_solver.
  - intros s s' fid newfid names e Hw. unfold srv_walk in Hw.
    mcases; frame_reads; by simplify_eq/=.
  - intros s s' fid m r Hr. unfold srv_open in Hr. mcases; by frame_reads.
  - intros s s' fid off n r Hr. unfold srv_read in Hr. mcases; by frame_reads.
  - intros s s' fid off d r [= <- _]. done.
  - intros s s' fid r Hr. unfold srv_stat in Hr. mcases; by frame_reads.
  - done.
  - by intros s s' fid newfid name k e [= <- _].
  - done.
  - by intros s s' fid e [= <- _].
  - intros s s' fid r Hne [= <- _]. simpl. set_solver.
  - intros s. set_solver.
Qed.
