(* ===== verification/MountFs.v ===== *)
(** * The namespace as one file server
      (crates/kernel/src/mountfs.rs, crates/kernel/src/mountfs/walk_owner.rs)

    [MountSt] is what one [MountFs] reaches: its live mount table with the
    table's generation, its fid table, the backing-fid allocator and the world
    of mounted servers. Each handler below is one task running alone; the
    critical sections of [walk] are definitions of their own, and the file
    MountWalk interleaves them. Backing-fid allocation is not wrapped at 64
    bits. The standard library does not specify the algorithm of its default
    hasher: it is a parameter. *)
From S2P Require Import Prelude RustStd ApTypes ApServer Namespace.

Section mountfs.
Context {Tree W : Type} (tree_call : Tree → Request → Op W Response).
(** The default hasher fed with the tag and the path of a synthetic directory. *)
Context (hash_synthetic : list string → Z).
(** How many chunks a contributor's listing may take before the read counts as
    unanswered. *)
Context (listing_fuel : nat).

Record Backing : Type := mkBacking {
  b_resolved : Resolved Tree; backing_fid : Fid; is_dir : bool }.

Record Entry : Type := mkEntry {
  e_path : list string;
  e_backing : option Backing;
  reserved : bool;
  walk_cancel : bool;
}.

Record MountSt : Type := mkMountSt {
  ns : Namespace Tree;
  ns_generation : Z;
  m_fids : gmap Fid Entry;
  next_backing : Z;
  world : W;
}.

Inductive Target : Type :=
  | BackingTarget (resolved : Resolved Tree) (bf : Fid) (dir : bool) (p : list string)
  | Synthetic (p : list string).

Definition set_m_fids (g : gmap Fid Entry → gmap Fid Entry) (s : MountSt) : MountSt :=
  mkMountSt (ns s) (ns_generation s) (g (m_fids s)) (next_backing s) (world s).

(** ** [LiveNamespace] *)

Definition set_ns (g : Namespace Tree → Namespace Tree) (s : MountSt) : MountSt :=
  mkMountSt (g (ns s)) (wrapping_add32 (ns_generation s) 1) (m_fids s)
            (next_backing s) (world s).

Definition live_mount (at_ : string) (t : Tree) (a : Access) : MountSt → MountSt :=
  set_ns (mount at_ t a).
Definition replace_mount (at_ : string) (t : Tree) (a : Access) : MountSt → MountSt :=
  set_ns (λ n, mount at_ t a (unmount at_ n)).
Definition live_unmount (at_ : string) : MountSt → MountSt := set_ns (unmount at_).
Definition mark_authority_bound : MountSt → MountSt := set_ns (λ n, n).
Definition snapshot_with_generation (s : MountSt) : Namespace Tree * Z :=
  (ns s, ns_generation s).

(** ** [MountFs] *)

Definition synthetic_entry (p : list string) : Entry := mkEntry p None false false.

Definition from_live_namespace (n : Namespace Tree) (gen : Z) (next : Z) (w : W) :
    MountSt :=
  mkMountSt n gen {[ROOT := synthetic_entry []]} next w.

(** A request to a resolved mount. *)
Definition call (r : Resolved Tree) (req : Request) : Op MountSt Response := λ s,
  let '(w, a) := resolved_call tree_call r req (world s) in
  (mkMountSt (ns s) (ns_generation s) (m_fids s) (next_backing s) w, a).

(** [NEXT_BACKING.fetch_add(1)] *)
Definition alloc_backing : Op MountSt Fid := λ s,
  (mkMountSt (ns s) (ns_generation s) (m_fids s) (next_backing s + 1) (world s),
   Ok (next_backing s)).

Definition mount_prefixes (s : MountSt) : list (list string) :=
  (λ '(p, _), split_path p) <$> describe (ns s).

Definition strictly_below (p prefix : list string) : bool :=
  (length p <? length prefix)%nat && bool_decide (take (length p) prefix = p).

Definition push_new (name : string) (names : list string) : list string :=
  if bool_decide (name ∈ names) then names else names ++ [name].

(** One pass of the loop of [synthetic_children]. *)
Definition add_child (p : list string) (names : list string) (prefix : list string) :
    list string :=
  if strictly_below p prefix then
    match prefix !! length p with
    | Some child => push_new child names
    | None => names
    end
  else names.
Definition synthetic_children (p : list string) (s : MountSt) : list string :=
  foldl (add_child p) [] (mount_prefixes s).

Definition is_synthetic_dir (p : list string) (s : MountSt) : bool :=
  existsb (strictly_below p) (mount_prefixes s).

Definition synthetic_qid (p : list string) (gen : Z) : Qid :=
  mkQid Dir gen (hash_synthetic p).

(** [read_all]: chunks of 4096 bytes until an empty one. *)
Fixpoint read_all (fuel : nat) (r : Resolved Tree) (f : Fid) (out : bytes) :
    Op MountSt bytes :=
  match fuel with
  | O => mresult Park
  | S fuel' =>
      resp ← call r (ReadReq f (len out) 4096);
      match resp with
      | ReadResp chunk =>
          if bool_decide (chunk = []) then mret out
          else read_all fuel' r f (out ++ chunk)
      | _ => mfail Io
      end
  end.

Definition read_contributor_listing (r : Resolved Tree) (f : Fid) : Op MountSt bytes :=
  resp ← call r (OpenReq f Read);
  match resp with
  | OpenResp _ => read_all listing_fuel r f []
  | _ => mfail Io
  end.

(** The closure [push] of [merged_dir_listing]. *)
Definition push_name (names : list string) (name : string) : list string :=
  if negb (bool_decide (name = "")) then push_new name names else names.

(** What one contributor adds to the listing. *)
Definition contribute (cand : Resolved Tree) (names : list string) :
    Op MountSt (list string) :=
  bf ← alloc_backing;
  walked ← mtry (call cand (WalkReq ROOT bf (rel cand)));
  match walked with
  | Ok (WalkResp _) =>
      listing ← mtry (read_contributor_listing cand bf);
      mtry (call cand (ClunkReq bf));;
      match listing with
      | Ok b => mret (foldl push_name names (str_lines (from_utf8_lossy b)))
      | Err NotFound => mret names
      | r => mresult (result_map (λ _, names) r)
      end
  | Ok _ => mfail Io
  | Err NotFound => mret names
  | r => mresult (result_map (λ _, names) r)
  end.

Fixpoint contribute_all (cands : list (Resolved Tree)) (names : list string) :
    Op MountSt (list string) :=
  match cands with
  | [] => mret names
  | cand :: cands' => names' ← contribute cand names; contribute_all cands' names'
  end.

Definition merged_dir_listing (p : list string) : Op MountSt bytes :=
  s ← mget;
  names ← contribute_all (resolve_candidates (join_path p) (ns s)) [];
  s ← mget;
  let names := foldl push_name names (synthetic_children p s) in
  mret (into_bytes (join (String "010" "") names)).

Definition target (f : Fid) : Op MountSt Target :=
  s ← mget;
  entry ← mlift (m_fids s !! f) NotFound;
  if reserved entry then mfail BadRequest
  else
    match e_backing entry with
    | Some b => mret (BackingTarget (b_resolved b) (backing_fid b) (is_dir b) (e_path entry))
    | None => mret (Synthetic (e_path entry))
    end.

(** ** walk_owner.rs *)

Record PendingWalk : Type := mkPending {
  outer_fid : Fid; pw_resolved : Resolved Tree; pw_fid : option Fid }.

(** The entry of [newfid] is the reservation made for backing fid [bf]. *)
Definition holds (newfid bf : Fid) (s : MountSt) : bool :=
  match m_fids s !! newfid with
  | Some e =>
      reserved e &&
      match e_backing e with
      | Some b => bool_decide (backing_fid b = bf)
      | None => false
      end
  | None => false
  end.

Definition cleanup (outer : Fid) (r : Resolved Tree) (f : Fid) : Op MountSt bool :=
  s ← mget;
  let owned := holds outer f s in
  (if owned then mmodify (set_m_fids (delete outer)) else mret tt);;
  mtry (call r (ClunkReq f));;
  mret owned.

Definition pw_wait (pw : PendingWalk) : Op MountSt (result ErrorCode Response) :=
  f ← mindex (pw_fid pw);
  mtry (call (pw_resolved pw) (WalkReq ROOT f (rel (pw_resolved pw)))).

Definition pw_close_backing (pw : PendingWalk) : Op MountSt unit :=
  match pw_fid pw with
  | Some f => with_timeout (call (pw_resolved pw) (ClunkReq f));; mret tt
  | None => mret tt
  end.

Definition pw_close (pw : PendingWalk) : Op MountSt bool :=
  match pw_fid pw with
  | Some f =>
      o ← with_timeout (cleanup (outer_fid pw) (pw_resolved pw) f);
      mret (match o with Some (Ok owned) => owned | _ => false end)
  | None => mret false
  end.

(** [Drop for PendingWalk] *)
Definition pw_drop (pw : PendingWalk) : Op MountSt unit := pw_close pw;; mret tt.

(** ** [walk] *)

Inductive walk_start : Type :=
  | WalkedSynthetic (q : Qid)
  | Forward (p : list string) (cands : list (Resolved Tree)) (pw : PendingWalk).

(** The first critical section: resolve and reserve. *)
Definition reserve_walk (f newfid : Fid) (names : list string) : Op MountSt walk_start :=
  s ← mget;
  if bool_decide (newfid = ROOT) || isSome (m_fids s !! newfid) then mfail BadRequest
  else
    base ← mlift (m_fids s !! f) NotFound;
    if reserved base then mfail BadRequest
    else if negb (bool_decide (names = [])) &&
            match e_backing base with Some b => negb (is_dir b) | None => false end
    then mfail NotDirectory
    else
      let p := e_path base ++ names in
      let candidates := resolve_candidates (join_path p) (ns s) in
      match candidates with
      | [] =>
          if negb (bool_decide (p = [])) && negb (is_synthetic_dir p s)
          then mfail NotFound
          else
            mmodify (set_m_fids (insert newfid (synthetic_entry p)));;
            mret (WalkedSynthetic (synthetic_qid p (ns_generation s)))
      | first :: _ =>
          bf ← alloc_backing;
          mmodify (set_m_fids (insert newfid
            (mkEntry p (Some (mkBacking first bf false)) true true)));;
          mret (Forward p candidates (mkPending newfid first (Some bf)))
      end.

(** The reservation passes from one contributor to the next. *)
Definition next_reservation (newfid : Fid) (r : Resolved Tree) (pw : PendingWalk) :
    Op MountSt PendingWalk :=
  bf ← alloc_backing;
  s ← mget;
  match m_fids s !! newfid, pw_fid pw with
  | Some e, Some previous =>
      if holds newfid previous s then
        mmodify (set_m_fids (insert newfid
          (mkEntry (e_path e) (Some (mkBacking r bf false)) (reserved e) (walk_cancel e))));;
        mret (mkPending newfid r (Some bf))
      else pw_drop pw;; mfail BadRequest
  | _, _ => pw_drop pw;; mfail BadRequest
  end.

(** The last critical section of a forwarded walk: publish the entry when the
    reservation is still this walk's own. *)
Definition publish (newfid : Fid) (p : list string) (pw : PendingWalk) (bf : Fid)
    (q : Qid) : Op MountSt Qid :=
  s ← mget;
  if negb (holds newfid bf s) then pw_close pw;; mfail BadRequest
  else
    mmodify (set_m_fids (insert newfid
      (mkEntry p (Some (mkBacking (pw_resolved pw) bf (bool_decide (kind q = Dir))))
               false false)));;
    mret q.

Fixpoint walk_candidates (newfid : Fid) (p : list string) (first : bool)
    (cands : list (Resolved Tree)) (pw : PendingWalk) :
    Op MountSt (Qid + PendingWalk) :=
  match cands with
  | [] => mret (inr pw)
  | r :: cands' =>
      pw ← (if first then mret pw else next_reservation newfid r pw);
      walked ← pw_wait pw;
      match walked, pw_fid pw with
      | Ok (WalkResp q), Some bf => q ← publish newfid p pw bf q; mret (inl q)
      | _, _ => pw_close_backing pw;; walk_candidates newfid p false cands' pw
      end
  end.

(** No contributor has the path: a synthetic directory or nothing. *)
Definition walk_fallback (newfid : Fid) (p : list string) (pw : PendingWalk) :
    Op MountSt Qid :=
  s ← mget;
  if bool_decide (p = []) || is_synthetic_dir p s then
    if negb (match pw_fid pw with Some previous => holds newfid previous s
                                | None => false end)
    then pw_drop pw;; mfail BadRequest
    else
      mmodify (set_m_fids (insert newfid (synthetic_entry p)));;
      mret (synthetic_qid p (ns_generation s))
  else
    owned ← pw_close pw;
    if negb owned then mfail BadRequest else mfail NotFound.

Definition m_walk (f newfid : Fid) (names : list string) : Op MountSt Qid :=
  start ← reserve_walk f newfid names;
  match start with
  | WalkedSynthetic q => mret q
  | Forward p cands pw =>
      r ← walk_candidates newfid p true cands pw;
      match r with
      | inl q => mret q
      | inr pw => walk_fallback newfid p pw
      end
  end.

(** ** The other operations *)

Definition m_open (f : Fid) (m : OpenMode) : Op MountSt Qid :=
  t ← target f;
  match t with
  | BackingTarget r bf _ _ =>
      resp ← call r (OpenReq bf m);
      match resp with OpenResp q => mret q | _ => mfail Io end
  | Synthetic p =>
      if mode_writes m then mfail NoAccess
      else s ← mget; mret (synthetic_qid p (ns_generation s))
  end.

Definition m_read (f : Fid) (offset : Offset) (count : Z) : Op MountSt bytes :=
  t ← target f;
  match t with
  | BackingTarget r bf dir p =>
      s ← mget;
      let is_union := (1 <? length (resolve_candidates (join_path p) (ns s)))%nat in
      if dir && (is_union || negb (bool_decide (synthetic_children p s = []))) then
        listing ← merged_dir_listing p;
        mret (slice listing offset count)
      else
        resp ← call r (ReadReq bf offset count);
        match resp with ReadResp data => mret data | _ => mfail Io end
  | Synthetic p =>
      s ← mget;
      mret (slice (into_bytes (join (String "010" "") (synthetic_children p s)))
                  offset count)
  end.

Definition m_write (f : Fid) (offset : Offset) (data : bytes) : Op MountSt Z :=
  t ← target f;
  match t with
  | BackingTarget r bf _ _ =>
      resp ← call r (WriteReq bf offset data);
      match resp with WriteResp n => mret n | _ => mfail Io end
  | Synthetic _ => mfail IsDirectory
  end.

Definition m_stat (f : Fid) : Op MountSt Stat :=
  t ← target f;
  match t with
  | BackingTarget r bf _ _ =>
      resp ← call r (StatReq bf);
      match resp with StatResp st => mret st | _ => mfail Io end
  | Synthetic p =>
      s ← mget;
      mret (mkStat "" (synthetic_qid p (ns_generation s))
              (len (into_bytes (join (String "010" "") (synthetic_children p s))))
              false false)
  end.

Definition m_create (f newfid : Fid) (name : string) (k : FileKind) : Op MountSt Qid :=
  s ← mget;
  if bool_decide (newfid = ROOT) || isSome (m_fids s !! newfid) then mfail BadRequest
  else
    entry ← mlift (m_fids s !! f) NotFound;
    if reserved entry then mfail BadRequest
    else
      b ← mlift (e_backing entry) Unsupported;
      if negb (is_dir b) then mfail NotDirectory
      else
        let r := b_resolved b in
        let p := e_path entry ++ [name] in
        mmodify (set_m_fids (insert newfid (mkEntry p None true false)));;
        backing_newfid ← alloc_backing;
        created ← mtry (call r (CreateReq (backing_fid b) backing_newfid name k));
        match created with
        | Ok (CreateResp q) =>
            s ← mget;
            if match m_fids s !! newfid with Some e => reserved e | None => false end
            then
              mmodify (set_m_fids (insert newfid
                (mkEntry p (Some (mkBacking r backing_newfid (bool_decide (kind q = Dir))))
                         false false)));;
              mret q
            else
              mtry (call r (ClunkReq backing_newfid));;
              mfail BadRequest
        | Err e => mmodify (set_m_fids (delete newfid));; mfail e
        | _ => mmodify (set_m_fids (delete newfid));; mfail Io
        end.

Definition m_remove (f : Fid) : Op MountSt unit :=
  if bool_decide (f = ROOT) then mfail Unsupported
  else
    s ← mget;
    entry ← mlift (m_fids s !! f) NotFound;
    if reserved entry then mfail BadRequest
    else
      mmodify (set_m_fids (delete f));;
      match e_backing entry with
      | Some b => call (b_resolved b) (RemoveReq (backing_fid b));; mret tt
      | None => mfail Unsupported
      end.

Definition m_clunk (f : Fid) : Op MountSt unit :=
  if bool_decide (f = ROOT) then mret tt
  else
    s ← mget;
    entry ← mlift (m_fids s !! f) NotFound;
    if reserved entry && negb (walk_cancel entry) then mfail BadRequest
    else
      mmodify (set_m_fids (delete f));;
      match e_backing entry with
      | Some b =>
          r ← mtry (call (b_resolved b) (ClunkReq (backing_fid b)));
          match r with
          | Ok ClunkResp => mret tt
          | Err e => if bool_decide (e = NotFound) && walk_cancel entry
                     then mret tt else mfail e
          | _ => mfail Io
          end
      | None => mret tt
      end.

Fixpoint clunk_backings (l : list (Fid * Entry)) : Op MountSt unit :=
  match l with
  | [] => mret tt
  | (_, e) :: l' =>
      match e_backing e with
      | Some b => mtry (call (b_resolved b) (ClunkReq (backing_fid b)));; clunk_backings l'
      | None => clunk_backings l'
      end
  end.
Definition clunk_all : Op MountSt unit :=
  s ← mget;
  mmodify (set_m_fids (λ _, ∅));;
  clunk_backings (map_to_list (m_fids s)).

Definition MountFs_FileServer : FileServer MountSt :=
  {| fs_walk := m_walk; fs_open := m_open; fs_read := m_read; fs_write := m_write;
     fs_stat := m_stat; fs_create := m_create; fs_remove := m_remove;
     fs_clunk := m_clunk |}.
End mountfs.
Arguments Backing : clear implicits.
Arguments Entry : clear implicits.
Arguments MountSt : clear implicits.
Arguments PendingWalk : clear implicits.
Arguments walk_start : clear implicits.
