(* ===== verification/MountFacts.v ===== *)
(** * What the namespace server guarantees (mountfs.rs)

    The access boundary of mounts, the accounting of backing fids and the
    directories above mount points. *)
From S2P Require Import Prelude RustStd ApTypes ApServer ApReference Namespace NamespaceFacts MountFs.

(** ** Mounts bound what reaches a tree *)

Section authority.
Context {Tree W : Type} (tree_call : Tree → Request → Op W Response).
Context (hash_synthetic : list string → Z) (listing_fuel : nat).
Context (t : Tree).

Implicit Types s : MountSt Tree W.

(** A resolved mount that does not let [t] be written. *)
Definition calm (r : Resolved Tree) : Prop := r_tree r = t → r_access r = AccessReadOnly.

Definition calm_entry (e : Entry Tree) : Prop :=
  ∀ b, e_backing e = Some b → calm (b_resolved b).

(** Neither the mount table nor an open fid gives write access to [t]. *)
Definition no_write s : Prop :=
  (∀ m, m ∈ mounts (ns s) → m_tree m = t → m_access m = AccessReadOnly) ∧
  map_Forall (λ _ e, calm_entry e) (m_fids s).

(** One request to a mounted server; none that mutates goes to [t]. *)
Inductive quiet_step : W → W → Prop :=
  quiet t' req w w' r :
    tree_call t' req w = (w', r) → (t' = t → is_mutating req = false) →
    quiet_step w w'.

Context (w0 : W).
Definition guarded s : Prop := no_write s ∧ rtc quiet_step w0 (world s).

Lemma call_guarded r req : calm r → keeps guarded (call tree_call r req) (λ _, True).
Proof.
  intros Hr s [Hn Hw]. unfold call. destruct (resolved_call _ _ _ _) as [w a] eqn:Hc.
  simpl. split; [|by destruct a]. split; [done|]. simpl.
  unfold resolved_call in Hc. destruct (_ && _) eqn:Hm; [by munfold; simplify_eq|].
  unfold mbind, m_bind in Hc.
  destruct (tree_call (r_tree r) req (world s)) as [w1 a1] eqn:Ht.
  assert (w1 = w) as -> by (unfold mret, m_ret in Hc; repeat case_match; by simplify_eq).
  eapply rtc_r; [exact Hw|]. econstructor; [exact Ht|].
  intros Heq. rewrite (Hr Heq) in Hm. by destruct (is_mutating req).
Qed.

Lemma alloc_backing_guarded : keeps guarded alloc_backing (λ _, True).
Proof. by intros s Hs. Qed.

Lemma insert_guarded f e s :
  calm_entry e → guarded s → guarded (set_m_fids (insert f e) s).
Proof. intros He [[Hm Hf] Hw]. split; [split|]; [done| |done]. by apply map_Forall_insert_2. Qed.
Lemma delete_guarded f s : guarded s → guarded (set_m_fids (delete f) s).
Proof. intros [[Hm Hf] Hw]. split; [split|]; [done| |done]. by apply map_Forall_delete. Qed.

Lemma candidates_calm s p : guarded s → Forall calm (resolve_candidates p (ns s)).
Proof.
  intros [[Hm _] _]. apply Forall_forall. intros r.
  rewrite candidates_longest_iff. intros (m & (Hin & _) & ->) Ht. by apply Hm.
Qed.
Lemma entry_calm s f e : guarded s → m_fids s !! f = Some e → calm_entry e.
Proof. intros [[_ Hf] _]. apply Hf. Qed.

Definition calm_target (x : Target) : Prop :=
  match x with BackingTarget r _ _ _ => calm r | Synthetic _ => True end.

Lemma target_guarded f : keeps guarded (target f) calm_target.
Proof. unfold target. ksteps; simpl. eapply entry_calm; eauto. Qed.
#[local] Hint Resolve call_guarded alloc_backing_guarded target_guarded : alan.
#[local] Hint Resolve insert_guarded delete_guarded : alan.

Lemma read_all_guarded fuel r f out :
  calm r → keeps guarded (read_all tree_call fuel r f out) (λ _, True).
Proof.
  intros Hr. revert out. induction fuel as [|fuel IH]; intros out; simpl; ksteps.
Qed.
#[local] Hint Resolve read_all_guarded : alan.

Lemma contribute_guarded r names :
  calm r → keeps guarded (contribute tree_call listing_fuel r names) (λ _, True).
Proof.
  intros Hr. unfold contribute.
  assert (∀ f, keeps guarded (read_contributor_listing tree_call listing_fuel r f)
                 (λ _, True)).
  { intros f. unfold read_contributor_listing. ksteps. }
  ksteps.
Qed.
#[local] Hint Resolve contribute_guarded : alan.

Lemma contribute_all_guarded cands names :
  Forall calm cands →
  keeps guarded (contribute_all tree_call listing_fuel cands names) (λ _, True).
Proof.
  intros Hall. revert names.
  induction Hall as [|r cands Hr Hall IH]; intros names; simpl; ksteps.
Qed.

Lemma merged_dir_listing_guarded p :
  keeps guarded (merged_dir_listing tree_call listing_fuel p) (λ _, True).
Proof.
  unfold merged_dir_listing. ksteps.
  eapply keeps_bind; [by apply contribute_all_guarded, candidates_calm|].
  intros names _. ksteps.
Qed.
#[local] Hint Resolve merged_dir_listing_guarded : alan.

Definition calm_pending (pw : PendingWalk Tree) : Prop := calm (pw_resolved pw).

Lemma cleanup_guarded outer r f :
  calm r → keeps guarded (cleanup tree_call outer r f) (λ _, True).
Proof. intros Hr. unfold cleanup. ksteps. Qed.
#[local] Hint Resolve cleanup_guarded : alan.

Lemma pw_close_guarded pw :
  calm_pending pw → keeps guarded (pw_close tree_call pw) (λ _, True).
Proof. intros Hr. unfold pw_close. ksteps. Qed.
#[local] Hint Resolve pw_close_guarded : alan.
Lemma pw_drop_guarded pw :
  calm_pending pw → keeps guarded (pw_drop tree_call pw) (λ _, True).
Proof. intros Hr. unfold pw_drop. ksteps. Qed.
Lemma pw_close_backing_guarded pw :
  calm_pending pw → keeps guarded (pw_close_backing tree_call pw) (λ _, True).
Proof. intros Hr. unfold pw_close_backing. ksteps. Qed.
#[local] Hint Resolve pw_drop_guarded pw_close_backing_guarded : alan.

Definition calm_start (x : walk_start Tree) : Prop :=
  match x with
  | WalkedSynthetic _ => True
  | Forward _ cands pw => Forall calm cands ∧ calm_pending pw
  end.

Lemma calm_entry_of p r f d v c :
  calm r → calm_entry (mkEntry p (Some (mkBacking r f d)) v c).
Proof. by intros Hr b [= <-]. Qed.
Lemma calm_entry_none p v c : calm_entry (mkEntry p None v c).
Proof. by intros b. Qed.
#[local] Hint Resolve calm_entry_of calm_entry_none : alan.

Lemma reserve_walk_guarded f newfid names :
  keeps guarded (reserve_walk hash_synthetic f newfid names) calm_start.
Proof.
  unfold reserve_walk, synthetic_entry.
  eapply keeps_bind; [apply keeps_get|intros s Hs].
  pose proof (λ p, candidates_calm s p Hs) as Hc.
  ksteps; simpl; try done.
  - intros s' Hs'. apply insert_guarded; [|done].
    apply calm_entry_of. specialize (Hc (join_path (e_path a ++ names))).
    rewrite Heql in Hc. by apply Forall_inv in Hc.
  - specialize (Hc (join_path (e_path a ++ names))). rewrite Heql in Hc.
    split; [done|]. by apply Forall_inv in Hc.
Qed.
#[local] Hint Resolve reserve_walk_guarded : alan.

Lemma next_reservation_guarded newfid r pw :
  calm r → calm_pending pw →
  keeps guarded (next_reservation tree_call newfid r pw) calm_pending.
Proof. intros Hr Hpw. unfold next_reservation. ksteps. Qed.

Lemma publish_guarded newfid p pw bf q :
  calm_pending pw → keeps guarded (publish tree_call newfid p pw bf q) (λ _, True).
Proof. intros Hpw. unfold publish. ksteps. Qed.

Lemma pw_wait_guarded pw :
  calm_pending pw → keeps guarded (pw_wait tree_call pw) (λ _, True).
Proof.
  intros Hpw. unfold pw_wait. ksteps.
  eapply keeps_weaken; [apply keeps_try; by apply call_guarded|done].
Qed.
#[local] Hint Resolve next_reservation_guarded publish_guarded pw_wait_guarded : alan.

Lemma walk_candidates_guarded newfid p first cands pw :
  Forall calm cands → calm_pending pw →
  keeps guarded (walk_candidates tree_call newfid p first cands pw)
    (λ x, match x with inl _ => True | inr pw => calm_pending pw end).
Proof.
  intros Hall. revert first pw.
  induction Hall as [|r cands Hr Hall IH]; intros first pw Hpw; simpl; [ksteps|].
  eapply keeps_bind with (φ := calm_pending); [ksteps|]. intros pw' Hpw'.
  eapply keeps_bind; [by apply pw_wait_guarded|]. intros walked _.
  ksteps; auto.
Qed.
#[local] Hint Resolve walk_candidates_guarded : alan.

Lemma m_walk_guarded f newfid names :
  keeps guarded (m_walk tree_call hash_synthetic f newfid names) (λ _, True).
Proof.
  unfold m_walk. eapply keeps_bind; [apply reserve_walk_guarded|].
  intros [q|p cands pw] Hst; [ksteps|]. destruct Hst as [Hall Hpw].
  eapply keeps_bind; [by apply walk_candidates_guarded|].
  intros [q|pw'] Hx; [ksteps|]. unfold walk_fallback, synthetic_entry. ksteps.
Qed.

Lemma m_create_guarded f newfid name k :
  keeps guarded (m_create tree_call f newfid name k) (λ _, True).
Proof.
  unfold m_create. eapply keeps_bind; [apply keeps_get|intros s Hs].
  ksteps. assert (calm (b_resolved a0)) by (eapply entry_calm; eauto). ksteps.
Qed.

Lemma m_remove_guarded f : keeps guarded (m_remove tree_call f) (λ _, True).
Proof.
  unfold m_remove. ksteps. 
  eapply keeps_bind; [apply call_guarded; eapply entry_calm; eauto|]. intros r _. ksteps.
Qed.

Lemma m_clunk_guarded f : keeps guarded (m_clunk tree_call f) (λ _, True).
Proof.
  unfold m_clunk. ksteps.
  eapply keeps_bind; [apply keeps_try, call_guarded; eapply entry_calm; eauto|].
  intros r _. ksteps.
Qed.

Lemma mount_call_guarded req :
  keeps guarded
    (transport_call (H := MountFs_FileServer tree_call hash_synthetic listing_fuel) req)
    (λ _, True).
Proof.
  destruct req; simpl; (apply (keeps_bind _ _ _ (λ _, True)); [|intros; ksteps]).
  - apply m_walk_guarded.
  - unfold m_open. eapply keeps_bind; [apply target_guarded|]. intros [] Hx; ksteps.
  - unfold m_read. eapply keeps_bind; [apply target_guarded|]. intros [] Hx; ksteps.
  - unfold m_write. eapply keeps_bind; [apply target_guarded|]. intros [] Hx; ksteps.
  - unfold m_stat. eapply keeps_bind; [apply target_guarded|]. intros [] Hx; ksteps.
  - apply m_create_guarded.
  - apply m_remove_guarded.
  - apply m_clunk_guarded.
Qed.
End authority.

(** What a client does with its namespace between mount-table changes. *)
Definition mount_calls {Tree W} (tree_call : Tree → Request → Op W Response)
    (hash_synthetic : list string → Z) (listing_fuel : nat)
    (reqs : list Request) (s : MountSt Tree W) : MountSt Tree W :=
  foldl (λ s req,
    (transport_call (H := MountFs_FileServer tree_call hash_synthetic listing_fuel)
       req s).1) s reqs.

(** C1: a tree that the namespace mounts read-only and that no open fid reaches
    with write access is never written: whatever requests the client makes,
    whatever their outcome, the mounted servers go through a sequence of
    requests of which none that mutates is addressed to that tree, and the
    client is left without write access to it. *)
Theorem read_only_mount_never_written {Tree W}
    (tree_call : Tree → Request → Op W Response) hash_synthetic listing_fuel
    (t : Tree) (reqs : list Request) (s : MountSt Tree W) :
  no_write t s →
  let s' := mount_calls tree_call hash_synthetic listing_fuel reqs s in
  rtc (quiet_step tree_call t) (world s) (world s') ∧ no_write t s'.
Proof.
  intros Hn s'. assert (guarded tree_call t (world s) s') as [? ?]; [|done].
  assert (guarded tree_call t (world s) s) as Hg by done. subst s'. clear Hn.
  revert Hg. generalize (world s) at 1 2 as w0. intros w0. revert s.
  induction reqs as [|req reqs IH]; intros s Hg; [done|]. simpl.
  apply IH. by apply (mount_call_guarded tree_call hash_synthetic listing_fuel).
Qed.

(** ** Directories above mount points *)

Section synthetic.
Context {Tree W : Type} (tree_call : Tree → Request → Op W Response).
Context (hash_synthetic : list string → Z) (listing_fuel : nat).
Implicit Types s : MountSt Tree W.

Lemma mount_prefixes_eq s :
  ns_valid (ns s) → mount_prefixes s = m_prefix <$> mounts (ns s).
Proof.
  intros Hv. unfold mount_prefixes, describe. rewrite <- list_fmap_compose.
  apply list_fmap_ext. intros i m Hm. simpl. apply split_join_path.
  unfold ns_valid in Hv. rewrite Forall_lookup in Hv. by eapply (Hv i m).
Qed.

Lemma strictly_below_spec p prefix :
  strictly_below p prefix = true ↔ ∃ c rest, prefix = p ++ c :: rest.
Proof.
  unfold strictly_below. rewrite andb_true_iff, Nat.ltb_lt, bool_decide_eq_true.
  split.
  - intros [Hl Ht]. rewrite <- (take_drop (length p) prefix), Ht.
    destruct (drop (length p) prefix) as [|c rest] eqn:Hd; [|eauto].
    apply (f_equal length) in Hd. rewrite length_drop in Hd. simpl in Hd. lia.
  - intros (c & rest & ->). rewrite length_app, take_app_length. simpl. split; [lia|done].
Qed.

Lemma push_new_spec c names :
  NoDup names → NoDup (push_new c names) ∧ ∀ x, x ∈ push_new c names ↔ x ∈ names ∨ x = c.
Proof.
  intros Hn. unfold push_new. case_bool_decide as Hc.
  - split; [done|]. intros x. split; [by left|]. by intros [?| ->].
  - split.
    + apply NoDup_app. split_and!; [done| |apply NoDup_singleton].
      intros x Hx ->%list_elem_of_singleton. done.
    + intros x. by rewrite elem_of_app, list_elem_of_singleton.
Qed.

Lemma add_children_spec p prefixes names :
  NoDup names →
  NoDup (foldl (add_child p) names prefixes) ∧
  ∀ c, c ∈ foldl (add_child p) names prefixes ↔
       c ∈ names ∨ ∃ rest, p ++ c :: rest ∈ prefixes.
Proof.
  revert names. induction prefixes as [|x prefixes IH]; intros names Hn; simpl.
  { split; [done|]. intros c. split; [by left|].
    intros [?|[rest Hx]]; [done|]. by apply not_elem_of_nil in Hx. }
  unfold add_child at 2 4. destruct (strictly_below p x) eqn:Hb.
  - apply strictly_below_spec in Hb as (c0 & rest0 & ->).
    rewrite list_lookup_middle by done.
    destruct (push_new_spec c0 names Hn) as [Hn' Hin].
    destruct (IH _ Hn') as [IH1 IH2]. split; [done|]. intros c.
    rewrite IH2, Hin. split.
    + intros [[?| ->]|[rest ?]]; [by left|right..]; [exists rest0; left|exists rest; by right].
    + intros [?|[rest [Heq|?]%elem_of_cons]]; [by do 2 left| |right; eauto].
      apply app_inv_head in Heq as [= -> ->]. left. by right.
  - destruct (IH _ Hn) as [IH1 IH2]. split; [done|]. intros c. rewrite IH2. split.
    + intros [?|[rest ?]]; [by left|]. right. exists rest. by right.
    + intros [?|[rest [Heq|?]%elem_of_cons]]; [by left| |right; eauto].
      assert (strictly_below p x = true) by (apply strictly_below_spec; eauto).
      congruence.
Qed.

Lemma synthetic_children_spec p s :
  ns_valid (ns s) →
  NoDup (synthetic_children p s) ∧
  ∀ c, c ∈ synthetic_children p s ↔
       ∃ m rest, m ∈ mounts (ns s) ∧ m_prefix m = p ++ c :: rest.
Proof.
  intros Hv. unfold synthetic_children. rewrite mount_prefixes_eq by done.
  destruct (add_children_spec p (m_prefix <$> mounts (ns s)) []) as [H1 H2];
    [constructor|]. split; [done|]. intros c. rewrite H2. split.
  - intros [Hx|[rest (m & Hm & Hin)%list_elem_of_fmap]]; [|eauto].
    by apply not_elem_of_nil in Hx.
  - intros (m & rest & Hin & Hm). right. exists rest. rewrite <- Hm.
    by apply list_elem_of_fmap_2.
Qed.

Lemma prefix_part_valid (m : Mount Tree) p c rest :
  prefix_valid m → m_prefix m = p ++ c :: rest →
  Forall (λ w, valid_component w = true) (p ++ [c]).
Proof.
  unfold prefix_valid. intros Hv Hm. rewrite Hm in Hv.
  apply Forall_app in Hv as [Hp [Hc _]%Forall_cons]. apply Forall_app. auto.
Qed.

(** Below a synthetic directory a listed name with no mount at or above it is a
    synthetic directory again. *)
Lemma listed_is_synthetic p c s :
  ns_valid (ns s) → c ∈ synthetic_children p s →
  resolve_candidates (join_path (p ++ [c])) (ns s) = [] →
  is_synthetic_dir (p ++ [c]) s = true.
Proof.
  intros Hv (m & rest & Hm & Hpre)%synthetic_children_spec Hnil; [|done].
  unfold ns_valid in Hv. rewrite Forall_forall in Hv. pose proof (Hv m Hm) as Hmv.
  destruct rest as [|d rest].
  { exfalso. eapply (candidates_nonempty _ _ m Hm); [|exact Hnil].
    rewrite split_join_path by by eapply prefix_part_valid. by rewrite Hpre. }
  unfold is_synthetic_dir. rewrite mount_prefixes_eq by by apply Forall_forall.
  apply existsb_exists. exists (m_prefix m). split.
  - apply in_map_iff. exists m. split; [done|]. by apply list_elem_of_In.
  - apply strictly_below_spec. exists d, rest. rewrite Hpre. by rewrite <- app_assoc.
Qed.

(** A directory above mount points shows exactly the mount points. Reading
    it from the start returns, one per line and each once, the names [c] such
    that some mount lies at or below [c] in it; and walking to a listed name
    that no mount covers opens the next such directory. *)
Theorem mount_points_listed s f p :
  ns_valid (ns s) → m_fids s !! f = Some (synthetic_entry p) →
  ∃ names,
    NoDup names ∧
    (∀ c, c ∈ names ↔ ∃ m rest, m ∈ mounts (ns s) ∧ m_prefix m = p ++ c :: rest) ∧
    (∀ count, len (into_bytes (join (String "010" "") names)) ≤ count →
       m_read tree_call listing_fuel f 0 count s =
       (s, Ok (into_bytes (join (String "010" "") names)))) ∧
    (∀ c newfid, c ∈ names → newfid ≠ ROOT → m_fids s !! newfid = None →
       resolve_candidates (join_path (p ++ [c])) (ns s) = [] →
       ∃ q, kind q = Dir ∧
         m_walk tree_call hash_synthetic f newfid [c] s =
         (set_m_fids (insert newfid (synthetic_entry (p ++ [c]))) s, Ok q)).
Proof.
  intros Hv Hf. exists (synthetic_children p s).
  destruct (synthetic_children_spec p s Hv) as [Hnd Hin]. split_and!; [done|done| |].
  - intros count Hc. unfold m_read, target. mrun. rewrite Hf. simpl.
    by rewrite slice_all.
  - intros c newfid Hc Hroot Hnew Hnil. unfold m_walk, reserve_walk. mrun.
    rewrite Hnew, bool_decide_eq_false_2, Hf by done. simpl.
    rewrite Hnil, (listed_is_synthetic p c s) by done.
    rewrite andb_false_r. eexists (synthetic_qid _ _ _). split; [|reflexivity]. done.
Qed.
End synthetic.

(** ** Whole listings *)

(** The loop of [read_all] after [n] full chunks. *)
Lemma read_all_from {Tree W} (tree_call : Tree → Request → Op W Response)
    (r : Resolved Tree) f b (served : W → Prop) :
  (∀ w offset, served w → 0 ≤ offset →
     ∃ w', tree_call (r_tree r) (ReadReq f offset 4096) w =
           (w', Ok (ReadResp (slice b offset 4096))) ∧ served w') →
  ∀ fuel n (s : MountSt Tree W),
  served (world s) → Z.of_nat n ≤ len b / 4096 + 1 →
  len b / 4096 + 2 ≤ Z.of_nat fuel + Z.of_nat n →
  ∃ s', read_all tree_call fuel r f (slice b 0 (4096 * Z.of_nat n)) s = (s', Ok b) ∧
        served (world s') ∧ m_fids s' = m_fids s.
Proof.
  intros Hserve. induction fuel as [|fuel IH]; intros n s Hs Hn Hfuel; [lia|].
  pose proof (len_nonneg b) as Hb. cbn [read_all].
  rewrite slice_length by lia.
  destruct (Hserve (world s) (Z.min (4096 * Z.of_nat n) (Z.max 0 (len b - 0))) Hs)
    as (w' & Hc & Hs'); [lia|].
  unfold mbind, m_bind, call, resolved_call. simpl is_mutating. rewrite andb_false_r.
  unfold mbind, m_bind. rewrite Hc.
  assert (∀ x : bytes, match r_access r with AccessReadOnly => (mret (ReadResp x) : Op W _)
     | AccessReadWrite => mret (ReadResp x) end = mret (ReadResp x)) as Hacc
    by (intros; by destruct (r_access r)).
  rewrite Hacc. unfold mret at 1, m_ret at 1.
  pose proof (Z.div_mod (len b) 4096 ltac:(lia)).
  pose proof (Z.mod_pos_bound (len b) 4096 ltac:(lia)).
  destruct (decide (4096 * Z.of_nat n < len b)) as [Hlt|Hge].
  - rewrite Z.min_l by lia. rewrite bool_decide_eq_false_2.
    + replace (4096 * Z.of_nat n) with (0 + 4096 * Z.of_nat n) at 2 by lia.
      rewrite slice_app by lia.
      replace (4096 * Z.of_nat n + 4096) with (4096 * Z.of_nat (S n)) by lia.
      apply (IH (S n) (mkMountSt (ns s) (ns_generation s) (m_fids s) (next_backing s) w'));
        [done|lia|lia].
    + intros Hnil. apply (f_equal len) in Hnil.
      rewrite slice_length, len_nil in Hnil by lia. lia.
  - rewrite (slice_past_end b) by lia. rewrite bool_decide_eq_true_2 by done.
    rewrite slice_all by lia. eexists. split; [reflexivity|done].
Qed.

(** Reading a contributor to its end terminates with the whole content. For a
    server that answers each read at fid [f] with the requested slice of [b]
    (and stays in [served]), [read_all] returns [b] whenever it is allowed one
    chunk of 4096 bytes more than [b] needs. *)
Theorem read_all_whole {Tree W} (tree_call : Tree → Request → Op W Response)
    (r : Resolved Tree) f b (served : W → Prop) fuel (s : MountSt Tree W) :
  (∀ w offset, served w → 0 ≤ offset →
     ∃ w', tree_call (r_tree r) (ReadReq f offset 4096) w =
           (w', Ok (ReadResp (slice b offset 4096))) ∧ served w') →
  served (world s) → len b / 4096 + 2 ≤ Z.of_nat fuel →
  ∃ s', read_all tree_call fuel r f [] s = (s', Ok b) ∧ served (world s') ∧
        m_fids s' = m_fids s.
Proof.
  intros Hserve Hs Hfuel.
  assert (slice b 0 (4096 * Z.of_nat 0) = []) as <-.
  { apply nil_length_inv. pose proof (slice_length b 0 (4096 * Z.of_nat 0)).
    unfold len in *. lia. }
  apply (read_all_from tree_call r f b served Hserve fuel 0%nat s Hs); [|lia].
  pose proof (Z.div_pos (len b) 4096 (len_nonneg b)). lia.
Qed.

(** A server whose every file holds [ok]. *)
Definition constant_call (t : unit) (req : Request) : Op unit Response :=
  match req with
  | ReadReq _ offset count => mret (ReadResp (slice (into_bytes "ok") offset count))
  | _ => mfail Unsupported
  end.

Lemma read_all_whole_witness :
  ∃ s', read_all constant_call 2 (mkResolved tt [] AccessReadOnly) 5 []
          (from_live_namespace ns_new 0 1 tt) = (s', Ok (into_bytes "ok")) ∧
        True ∧ m_fids s' = m_fids (from_live_namespace (Tree := unit) ns_new 0 1 tt).
Proof.
  apply (read_all_whole constant_call (mkResolved tt [] AccessReadOnly) 5
    (into_bytes "ok") (λ _, True) 2 (from_live_namespace ns_new 0 1 tt)).
  - intros w offset _ _. by eexists.
  - done.
  - vm_compute. done.
Defined.

Definition two_mounts : MountSt unit unit :=
  from_live_namespace (mount "/mnt/llm" tt AccessReadOnly
    (mount "/mnt/db/main" tt AccessReadOnly ns_new)) 0 1 tt.

Lemma two_mounts_valid : ns_valid (ns two_mounts).
Proof. repeat constructor; vm_compute; repeat constructor. Defined.

Lemma mount_points_listed_witness :
  ∃ names,
    NoDup names ∧
    (∀ c, c ∈ names ↔ ∃ m rest, m ∈ mounts (ns two_mounts) ∧ m_prefix m = [] ++ c :: rest) ∧
    (∀ count, len (into_bytes (join (String "010" "") names)) ≤ count →
       m_read constant_call 2 ROOT 0 count two_mounts =
       (two_mounts, Ok (into_bytes (join (String "010" "") names)))) ∧
    (∀ c newfid, c ∈ names → newfid ≠ ROOT → m_fids two_mounts !! newfid = None →
       resolve_candidates (join_path ([] ++ [c])) (ns two_mounts) = [] →
       ∃ q, kind q = Dir ∧
         m_walk constant_call (λ _, 0) ROOT newfid [c] two_mounts =
         (set_m_fids (insert newfid (synthetic_entry ([] ++ [c]))) two_mounts, Ok q)).
Proof.
  exact (mount_points_listed constant_call (λ _, 0) 2 two_mounts ROOT []
           two_mounts_valid eq_refl).
Defined.

(** A read-only mount of the constant server beside a writable one. *)
Lemma read_only_mount_never_written_witness :
  let call := λ (t : bool) (req : Request) (w : list (bool * Request)),
    ((t, req) :: w, Ok (WalkResp (mkQid File 0 0))) in
  let s := from_live_namespace (mount "/rw" true AccessReadWrite
             (mount "/ro" false AccessReadOnly ns_new)) 0 1 [] in
  let s' := mount_calls call (λ _, 0) 2
    [WalkReq ROOT 1 ["ro"]; WriteReq 1 0 []; WalkReq ROOT 2 ["rw"]; WriteReq 2 0 []] s in
  world s' = [(true, WriteReq 2 0 []); (true, WalkReq ROOT 2 []);
              (false, WalkReq ROOT 1 [])] ∧
  rtc (quiet_step call false) (world s) (world s') ∧ no_write false s'.
Proof.
  intros call s s'. split; [vm_compute; done|].
  apply (read_only_mount_never_written call (λ _, 0) 2 false
    [WalkReq ROOT 1 ["ro"]; WriteReq 1 0 []; WalkReq ROOT 2 ["rw"]; WriteReq 2 0 []] s).
  split.
  - intros m [-> |[-> |Hm]%elem_of_cons]%elem_of_cons; simpl; try done.
    by apply not_elem_of_nil in Hm.
  - apply map_Forall_singleton. by intros b.
Defined.
