(* ===== verification/MountBacking.v ===== *)
(** * Fids a namespace holds in the servers behind it (mountfs.rs)

    [BackingContract] is what [MountFs] relies on in the servers it forwards to:
    the fid discipline of [FidContract], for a world of trees. Against it the
    file proves that a fid of the namespace owns exactly one backing fid, so
    that releasing the namespace's fids releases everything it bound. *)
From S2P Require Import Prelude RustStd ApTypes ApServer ApReference Namespace NamespaceFacts MountFs.

Section contract.
Context {Tree W : Type} (tree_call : Tree → Request → Op W Response).
Context (bound : W → Tree → gset Fid).

(** Requests that never bind or release a fid. *)
Definition plain (req : Request) : bool :=
  match req with
  | OpenReq _ _ | ReadReq _ _ _ | WriteReq _ _ _ | StatReq _ => true
  | _ => false
  end.

Class BackingContract : Prop := {
  bc_frame t t' req w w' r :
    tree_call t req w = (w', r) → t' ≠ t → bound w' t' = bound w t';
  bc_walk t f n names w w' resp :
    tree_call t (WalkReq f n names) w = (w', Ok resp) →
    (∃ q, resp = WalkResp q) ∧ bound w' t = {[n]} ∪ bound w t;
  bc_walk_err t f n names w w' e :
    tree_call t (WalkReq f n names) w = (w', Err e) → bound w' t = bound w t;
  bc_plain t req w w' r :
    plain req = true → tree_call t req w = (w', r) → bound w' t = bound w t;
  bc_create t f n name k w w' resp :
    tree_call t (CreateReq f n name k) w = (w', Ok resp) →
    (∃ q, resp = CreateResp q) ∧ bound w' t = {[n]} ∪ bound w t;
  bc_create_err t f n name k w w' e :
    tree_call t (CreateReq f n name k) w = (w', Err e) → bound w' t = bound w t;
  bc_remove t f w w' resp :
    tree_call t (RemoveReq f) w = (w', Ok resp) → bound w' t = bound w t ∖ {[f]};
  bc_remove_err t f w w' e :
    tree_call t (RemoveReq f) w = (w', Err e) → bound w' t = bound w t;
  bc_clunk t f w w' r :
    f ≠ ROOT → r ≠ Panic → tree_call t (ClunkReq f) w = (w', r) →
    bound w' t = bound w t ∖ {[f]};
}.
End contract.

(** A family of servers of one kind is such a world. *)
Section servers.
Context {S Tree : Type} `{EqDecision Tree} `{FS : FileServer S}.
Context (live : S → gset Fid) `{FC : !FidContract S live}.

Definition servers_call (t : Tree) (req : Request) : Op (Tree → S) Response := λ w,
  let '(s', r) := transport_call req (w t) in
  (λ t', if decide (t' = t) then s' else w t', r).

Lemma servers_call_at t req w w' r :
  servers_call t req w = (w', r) →
  transport_call req (w t) = (w' t, r) ∧ ∀ t', t' ≠ t → w' t' = w t'.
Proof.
  unfold servers_call. destruct (transport_call req (w t)) as [s' a].
  intros [= <- <-]. split; [by rewrite decide_True|].
  intros t' Ht. by rewrite decide_False.
Qed.

(** The outcome of a request as the outcome of its handler. *)
Lemma after_handler {A} (m : Op S A) (g : A → Response) s s' r :
  (a ← m; mret (g a)) s = (s', r) → ∃ r0, m s = (s', r0) ∧ r = result_map g r0.
Proof.
  unfold mbind, m_bind, mret, m_ret. destruct (m s) as [s1 []];
    intros [= <- <-]; eexists; split; done.
Qed.

Global Instance servers_contract :
  BackingContract servers_call (λ w t, live (w t)).
Proof.
  constructor; simpl.
  - intros t t' req w w' r [_ Hf]%servers_call_at Ht. by rewrite Hf.
  - intros t f n names w w' resp [Hc _]%servers_call_at. simpl in Hc.
    apply after_handler in Hc as ([q|e| |] & Hm & [= ->]). split; [eauto|].
    by eapply walk_binds.
  - intros t f n names w w' e [Hc _]%servers_call_at. simpl in Hc.
    apply after_handler in Hc as ([q|e'| |] & Hm & [= ->]). by eapply walk_err_keeps.
  - intros t req w w' r Hp [Hc _]%servers_call_at.
    destruct req; try done; simpl in Hc; apply after_handler in Hc as (r0 & Hm & _);
      eauto using open_keeps, read_keeps, write_keeps, stat_keeps.
  - intros t f n name k w w' resp [Hc _]%servers_call_at. simpl in Hc.
    apply after_handler in Hc as ([q|e| |] & Hm & [= ->]). split; [eauto|].
    by eapply create_binds.
  - intros t f n name k w w' e [Hc _]%servers_call_at. simpl in Hc.
    apply after_handler in Hc as ([q|e'| |] & Hm & [= ->]). by eapply create_err_keeps.
  - intros t f w w' resp [Hc _]%servers_call_at. simpl in Hc.
    apply after_handler in Hc as ([q|e| |] & Hm & [= ->]). by eapply remove_releases.
  - intros t f w w' e [Hc _]%servers_call_at. simpl in Hc.
    apply after_handler in Hc as ([q|e'| |] & Hm & [= ->]). by eapply remove_err_keeps.
  - intros t f w w' r Hf _ [Hc _]%servers_call_at. simpl in Hc.
    apply after_handler in Hc as (r0 & Hm & _). by eapply clunk_releases.
Qed.
End servers.

(** ** The accounts *)

Section accounts.
Context {Tree W : Type} `{EqDecision Tree} (tree_call : Tree → Request → Op W Response).
Context (bound : W → Tree → gset Fid) `{BC : !BackingContract tree_call bound}.
Context (hash_synthetic : list string → Z) (listing_fuel : nat).
(** Fids of the trees that belong to somebody else. *)
Context (foreign : Tree → Fid → Prop).

Implicit Types (s : MountSt Tree W) (fids : gmap Fid (Entry Tree)) (w : W).

(** An entry that owns fid [bf] of tree [t]. *)
Definition owns (e : Entry Tree) (t : Tree) (bf : Fid) : Prop :=
  ∃ b, e_backing e = Some b ∧ r_tree (b_resolved b) = t ∧ backing_fid b = bf.

Definition owned fids (t : Tree) (bf : Fid) : Prop :=
  ∃ f e, fids !! f = Some e ∧ owns e t bf.

(** What the trees hold is what others hold and what the fid table owns, each
    fid once; nothing is reserved; allocated fids are below the allocator. *)
Record balanced fids (next : Z) w : Prop := {
  bal_quiet : map_Forall (λ _ e, reserved e = false) fids;
  bal_bound t bf : bf ∈ bound w t ↔ foreign t bf ∨ owned fids t bf;
  bal_apart t bf : foreign t bf → ¬ owned fids t bf;
  bal_once f1 f2 e1 e2 t bf : fids !! f1 = Some e1 → fids !! f2 = Some e2 →
    owns e1 t bf → owns e2 t bf → f1 = f2;
  bal_below t bf : bf ∈ bound w t → ROOT < bf < next;
  bal_next : ROOT < next;
}.
Definition Bal s : Prop := balanced (m_fids s) (next_backing s) (world s).

(** [w'] holds what [w] does. *)
Definition same_bound w w' : Prop := ∀ t, bound w' t = bound w t.
(** [w'] holds what [w] does and fid [bf] of [t]. *)
Definition bound_plus t bf w w' : Prop :=
  bound w' t = {[bf]} ∪ bound w t ∧ ∀ t', t' ≠ t → bound w' t' = bound w t'.
Definition bound_minus t bf w w' : Prop :=
  bound w' t = bound w t ∖ {[bf]} ∧ ∀ t', t' ≠ t → bound w' t' = bound w t'.

Lemma balanced_same fids next w w' :
  same_bound w w' → balanced fids next w → balanced fids next w'.
Proof.
  intros Hs [Hq Hb Ha Ho Hl Hn]. constructor; try done;
    intros t bf; rewrite (Hs t); [apply Hb|apply Hl].
Qed.
Lemma balanced_next fids next w : balanced fids next w → balanced fids (next + 1) w.
Proof.
  intros [Hq Hb Ha Ho Hl Hn]. constructor; try done; [|lia].
  intros t bf Hbf. specialize (Hl t bf Hbf). lia.
Qed.

(** A new entry for a fid just bound in tree [t]. *)
Lemma balanced_insert fids next w w' f e t bf :
  balanced fids next w → fids !! f = None → reserved e = false →
  (∀ t' bf', owns e t' bf' ↔ t' = t ∧ bf' = bf) →
  ROOT < bf < next → bf ∉ bound w t → bound_plus t bf w w' →
  balanced (<[f := e]> fids) next w'.
Proof.
  intros [Hq Hb Ha Ho Hl Hn] Hf He Howns Hbf Hfresh [Ht Ht'].
  assert (Hown : ∀ t' bf', owned (<[f := e]> fids) t' bf' ↔
            (t' = t ∧ bf' = bf) ∨ owned fids t' bf').
  { intros t' bf'. unfold owned. split.
    - intros (g & e' & Hg & He'). destruct (decide (g = f)) as [->|Hne].
      + rewrite lookup_insert_eq in Hg. simplify_eq. left. by apply Howns.
      + rewrite lookup_insert_ne in Hg by done. right. eauto.
    - intros [Heq|(g & e' & Hg & He')].
      + exists f, e. rewrite lookup_insert_eq. split; [done|]. by apply Howns.
      + exists g, e'. rewrite lookup_insert_ne by congruence. done. }
  assert (Hin : ∀ t' bf', bf' ∈ bound w' t' ↔ (t' = t ∧ bf' = bf) ∨ bf' ∈ bound w t').
  { intros t' bf'. destruct (decide (t' = t)) as [->|Hne].
    - rewrite Ht. set_solver.
    - rewrite Ht' by done. naive_solver. }
  constructor.
  - by apply map_Forall_insert_2.
  - intros t' bf'. rewrite Hin, Hown, Hb. naive_solver.
  - intros t' bf' Hfo. rewrite Hown. intros [[-> ->]|Hx]; [|by eapply Ha].
    apply Hfresh, Hb. by left.
  - assert (∀ g e', fids !! g = Some e' → ¬ owns e' t bf) as Hno.
    { intros g e' Hg Hx. apply Hfresh, Hb. right. by exists g, e'. }
    intros f1 f2 e1 e2 t' bf'. rewrite !lookup_insert_Some.
    intros [[<- <-]|[Hn1 H1]] [[<- <-]|[Hn2 H2]] Ho1 Ho2; [done| | |by eapply Ho].
    + apply Howns in Ho1 as [-> ->]. by destruct (Hno _ _ H2).
    + apply Howns in Ho2 as [-> ->]. by destruct (Hno _ _ H1).
  - intros t' bf'. rewrite Hin. intros [[-> ->]|Hx]; [lia|]. by eapply Hl.
  - done.
Qed.

Lemma balanced_insert_none fids next w f e :
  balanced fids next w → fids !! f = None → reserved e = false → e_backing e = None →
  balanced (<[f := e]> fids) next w.
Proof.
  intros [Hq Hb Ha Ho Hl Hn] Hf He Hnone.
  assert (Hown : ∀ t bf, owned (<[f := e]> fids) t bf ↔ owned fids t bf).
  { intros t bf. split; intros (g & e' & Hg & Hx).
    - apply lookup_insert_Some in Hg as [[<- <-]|[_ Hg]]; [|by exists g, e'].
      destruct Hx as (b & Hx & _). congruence.
    - exists g, e'. rewrite lookup_insert_ne by congruence. done. }
  constructor; try done.
  - by apply map_Forall_insert_2.
  - intros t bf. by rewrite Hown.
  - intros t bf. rewrite Hown. apply Ha.
  - intros f1 f2 e1 e2 t bf. rewrite !lookup_insert_Some.
    intros [[<- <-]|[_ H1]] [[<- <-]|[_ H2]] Ho1 Ho2; [done| | |by eapply Ho].
    + destruct Ho1 as (b & Hx & _). congruence.
    + destruct Ho2 as (b & Hx & _). congruence.
Qed.

Lemma owned_delete fids f e t bf :
  fids !! f = Some e →
  (∀ f1 f2 e1 e2 t bf, fids !! f1 = Some e1 → fids !! f2 = Some e2 →
     owns e1 t bf → owns e2 t bf → f1 = f2) →
  owned (delete f fids) t bf ↔ owned fids t bf ∧ ¬ owns e t bf.
Proof.
  intros Hf Hinj. split.
  - intros (g & e' & [Hne Hg]%lookup_delete_Some & Hx).
    split; [by exists g, e'|]. intros He. by apply Hne, (Hinj f g e e' t bf).
  - intros [(g & e' & Hg & Hx) Hno]. exists g, e'.
    rewrite lookup_delete_Some. split_and!; [|done..]. congruence.
Qed.

(** Dropping an entry: with its backing fid released the accounts still balance. *)
Lemma balanced_delete fids next w w' f e :
  balanced fids next w → fids !! f = Some e →
  match e_backing e with
  | Some b => bound_minus (r_tree (b_resolved b)) (backing_fid b) w w'
  | None => same_bound w w'
  end →
  balanced (delete f fids) next w'.
Proof.
  intros [Hq Hb Ha Ho Hl Hn] Hf Hw.
  pose proof (λ t bf, owned_delete fids f e t bf Hf Ho) as Hown.
  assert (Hin : ∀ t bf, bf ∈ bound w' t ↔ bf ∈ bound w t ∧ ¬ owns e t bf).
  { intros t bf. unfold owns. destruct (e_backing e) as [b|] eqn:He.
    - destruct Hw as [Ht Ht']. destruct (decide (t = r_tree (b_resolved b))) as [->|Hne].
      + rewrite Ht, elem_of_difference, elem_of_singleton. naive_solver.
      + rewrite Ht' by done. naive_solver.
    - rewrite (Hw t). naive_solver. }
  constructor.
  - by apply map_Forall_delete.
  - intros t bf. rewrite Hin, Hown, Hb. split; [tauto|].
    intros [Hfo|[Hx Hno]]; [|tauto]. split; [by left|]. intros Hx.
    apply (Ha t bf Hfo). by exists f, e.
  - intros t bf Hfo. rewrite Hown. intros [Hx _]. by eapply Ha.
  - intros f1 f2 e1 e2 t bf [_ H1]%lookup_delete_Some [_ H2]%lookup_delete_Some.
    by eapply Ho.
  - intros t bf. rewrite Hin. intros [Hx _]. by eapply Hl.
  - done.
Qed.

(** ** Requests to the trees *)

Definition with_world w s : MountSt Tree W :=
  mkMountSt (ns s) (ns_generation s) (m_fids s) (next_backing s) w.

(** What a read-only mount changes in a response. *)
Definition access_mask (a : Access) (x : Response) : Response :=
  match a, x with
  | AccessReadOnly, StatResp st =>
      StatResp (mkStat (stat_name st) (stat_qid st) (stat_length st) (executable st) false)
  | _, _ => x
  end.

(** A request is refused at the mount or forwarded to its tree. *)
Lemma call_inv r req s s' a :
  call tree_call r req s = (s', a) →
  ∃ w', s' = with_world w' s ∧
    ((w' = world s ∧ a = Err NoAccess ∧ is_mutating req = true) ∨
     ∃ a0, tree_call (r_tree r) req (world s) = (w', a0) ∧
           a = result_map (access_mask (r_access r)) a0).
Proof.
  unfold call, resolved_call. destruct (_ && _) eqn:Hm.
  { intros [= <- <-]. exists (world s). split; [done|]. left. by bool_facts. }
  unfold mbind, m_bind, mret, m_ret.
  destruct (tree_call (r_tree r) req (world s)) as [w' a0] eqn:Ht.
  destruct a0 as [x|e| |]; [destruct (r_access r), x|..];
    intros [= <- <-]; eexists; split; try done; right; eexists; done.
Qed.

Lemma call_plain r req s s' a :
  plain req = true → call tree_call r req s = (s', a) →
  ∃ w', s' = with_world w' s ∧ same_bound (world s) w'.
Proof.
  intros Hp (w' & -> & [(-> & _)|(a0 & Ht & _)])%call_inv; eexists; split; try done.
  intros t'. destruct (decide (t' = r_tree r)) as [->|Hne];
    [by eapply bc_plain|by eapply bc_frame].
Qed.

Lemma call_walk r f n names s s' a :
  call tree_call r (WalkReq f n names) s = (s', a) →
  ∃ w', s' = with_world w' s ∧
    match a with
    | Ok x => (∃ q, x = WalkResp q) ∧ bound_plus (r_tree r) n (world s) w'
    | Err _ => same_bound (world s) w'
    | _ => True
    end.
Proof.
  intros (w' & -> & [(_ & _ & ?)|(a0 & Ht & ->)])%call_inv; [done|].
  exists w'. split; [done|].
  destruct a0 as [x|e| |]; simpl; [| |done..].
  - apply (bc_walk tree_call bound) in Ht as Hw. destruct Hw as [[q ->] Hw]. split.
    + exists q. by destruct (r_access r).
    + split; [done|]. intros t' Hne. by eapply bc_frame.
  - intros t'. destruct (decide (t' = r_tree r)) as [->|Hne];
      [by eapply bc_walk_err|by eapply bc_frame].
Qed.

Lemma call_create r f n name k s s' a :
  call tree_call r (CreateReq f n name k) s = (s', a) →
  ∃ w', s' = with_world w' s ∧
    match a with
    | Ok x => (∃ q, x = CreateResp q) ∧ bound_plus (r_tree r) n (world s) w'
    | Err _ => same_bound (world s) w'
    | _ => True
    end.
Proof.
  intros (w' & -> & [(-> & -> & _)|(a0 & Ht & ->)])%call_inv;
    eexists; (split; [done|]); [done|].
  destruct a0 as [x|e| |]; simpl; [| |done..].
  - apply (bc_create tree_call bound) in Ht as Hw. destruct Hw as [[q ->] Hw]. split.
    + exists q. by destruct (r_access r).
    + split; [done|]. intros t' Hne. by eapply bc_frame.
  - intros t'. destruct (decide (t' = r_tree r)) as [->|Hne];
      [by eapply bc_create_err|by eapply bc_frame].
Qed.

Lemma call_clunk r f s s' a :
  f ≠ ROOT → a ≠ Panic → call tree_call r (ClunkReq f) s = (s', a) →
  ∃ w', s' = with_world w' s ∧ bound_minus (r_tree r) f (world s) w'.
Proof.
  intros Hf Ha (w' & -> & [(_ & _ & ?)|(a0 & Ht & ->)])%call_inv; [done|].
  exists w'. split; [done|].
  assert (a0 ≠ Panic) by by intros ->.
  split; [by eapply bc_clunk|].
  intros t' Hne. by eapply bc_frame.
Qed.

Lemma call_remove r f s s' x :
  call tree_call r (RemoveReq f) s = (s', Ok x) →
  ∃ w', s' = with_world w' s ∧ bound_minus (r_tree r) f (world s) w'.
Proof.
  intros (w' & -> & [(_ & ? & _)|(a0 & Ht & Ha)])%call_inv; [done|].
  exists w'. split; [done|]. destruct a0; simplify_eq/=.
  split; [by eapply bc_remove|]. intros t' Hne. by eapply bc_frame.
Qed.

Lemma call_remove_err r f s s' e :
  call tree_call r (RemoveReq f) s = (s', Err e) →
  ∃ w', s' = with_world w' s ∧ same_bound (world s) w'.
Proof.
  intros (w' & -> & [(-> & _)|(a0 & Ht & Ha)])%call_inv; eexists; (split; [done|]); [done|].
  destruct a0; simplify_eq/=. intros t'. destruct (decide (t' = r_tree r)) as [->|Hne];
    [by eapply bc_remove_err|by eapply bc_frame].
Qed.

(** ** A walk in flight *)

Definition fresh bf s : Prop :=
  ROOT < bf < next_backing s ∧ ∀ t, bf ∉ bound (world s) t.

(** The state while [pw] is the only pending walk: its reservation beside a
    balanced table, its backing fid allocated and not yet bound. *)
Definition hole (newfid : Fid) (pw : PendingWalk Tree) s : Prop :=
  ∃ fids0 bf e b, outer_fid pw = newfid ∧ pw_fid pw = Some bf ∧
    m_fids s = <[newfid := e]> fids0 ∧ fids0 !! newfid = None ∧
    reserved e = true ∧ e_backing e = Some b ∧ backing_fid b = bf ∧
    balanced fids0 (next_backing s) (world s) ∧ fresh bf s.

(** The backing walk has been answered. *)
Definition answered (newfid : Fid) (pw : PendingWalk Tree) s : Prop :=
  ∃ s0 w' bf, hole newfid pw s0 ∧ pw_fid pw = Some bf ∧ s = with_world w' s0 ∧
    bound_plus (r_tree (pw_resolved pw)) bf (world s0) w'.

Lemma minus_fresh t bf w w' :
  (∀ t, bf ∉ bound w t) → bound_minus t bf w w' → same_bound w w'.
Proof.
  intros Hf [Ht Ht'] t'. destruct (decide (t' = t)) as [->|Hne]; [|auto].
  rewrite Ht. specialize (Hf t). set_solver.
Qed.
Lemma minus_plus t bf w w1 w2 :
  (∀ t, bf ∉ bound w t) → bound_plus t bf w w1 → bound_minus t bf w1 w2 →
  same_bound w w2.
Proof.
  intros Hf [Ha Ha'] [Hb Hb'] t'. destruct (decide (t' = t)) as [->|Hne].
  - rewrite Hb, Ha. specialize (Hf t). set_solver.
  - by rewrite Hb', Ha'.
Qed.
Lemma fresh_same bf s w' : same_bound (world s) w' → fresh bf s → fresh bf (with_world w' s).
Proof. intros Hs [Hb Hf]. split; [done|]. intros t. simpl. rewrite (Hs t). auto. Qed.

Lemma alloc_backing_triple X :
  triple Bal alloc_backing (λ bf s, Bal s ∧ fresh bf s) X.
Proof.
  intros s Hs. simpl. split; [by apply balanced_next|]. destruct Hs as [_ _ _ _ Hl Hn].
  split; simpl; [lia|]. intros t Hx. specialize (Hl t _ Hx). lia.
Qed.

Lemma hole_holds newfid pw s bf :
  hole newfid pw s → pw_fid pw = Some bf → holds newfid bf s = true.
Proof.
  intros (fids0 & bf' & e & b & _ & Hp & Hm & _ & He & Hb & Hbf & _) Hp'.
  unfold holds. rewrite Hm, lookup_insert_eq, He, Hb. simpl.
  apply bool_decide_eq_true. congruence.
Qed.

Lemma hole_same newfid pw s w' :
  same_bound (world s) w' → hole newfid pw s → hole newfid pw (with_world w' s).
Proof.
  intros Hs (fids0 & bf & e & b & ? & ? & ? & ? & ? & ? & ? & Hbal & Hf).
  exists fids0, bf, e, b. split_and!; try done.
  - by eapply balanced_same.
  - by apply fresh_same.
Qed.

(** Clearing the reservation gives back a balanced table. *)
Lemma hole_delete newfid pw s w' :
  same_bound (world s) w' → hole newfid pw s →
  Bal (with_world w' (set_m_fids (delete newfid) s)).
Proof.
  intros Hs (fids0 & bf & e & b & ? & ? & Hm & Hn & ? & ? & ? & Hbal & Hf).
  unfold Bal. simpl. rewrite Hm, delete_insert_id by done. by eapply balanced_same.
Qed.

Lemma pw_wait_triple newfid pw X :
  triple (hole newfid pw) (pw_wait tree_call pw)
    (λ r s, match r with
            | Ok x => (∃ q, x = WalkResp q) ∧ answered newfid pw s
            | Err _ => hole newfid pw s
            | _ => False
            end) X.
Proof.
  intros s Hs. pose proof Hs as (fids0 & bf & e & b & _ & Hp & _).
  unfold pw_wait. rewrite Hp. simpl. mrun. unfold mtry.
  destruct (call _ _ _ s) as [s' a] eqn:Hc. apply call_walk in Hc as (w' & -> & Ha).
  destruct a as [x|e'| |]; try done.
  - destruct Ha as [Hx Hplus]. split; [done|]. by exists s, w', bf.
  - by apply hole_same.
Qed.

Lemma pw_close_triple newfid pw X :
  triple (hole newfid pw) (pw_close tree_call pw) (λ _ s, Bal s) X.
Proof.
  intros s Hs. pose proof Hs as (fids0 & bf & e & b & Ho & Hp & _ & _ & _ & _ & _ & _ & Hf).
  unfold pw_close. rewrite Hp, Ho. unfold cleanup, with_timeout. mrun.
  rewrite (hole_holds _ _ _ _ Hs Hp). unfold mtry.
  destruct (call _ _ _ _) as [s' a] eqn:Hc.
  destruct (decide (a = Panic)) as [->|Hnp]; [done|].
  apply call_clunk in Hc as (w' & -> & Hm); [|destruct Hf; lia|done].
  assert (Bal (with_world w' (set_m_fids (delete newfid) s))).
  { eapply hole_delete; [|done]. eapply minus_fresh; [|done]. apply Hf. }
  by destruct a.
Qed.

Lemma pw_close_answered newfid pw X :
  triple (answered newfid pw) (pw_close tree_call pw) (λ _ s, Bal s) X.
Proof.
  intros s (s0 & w1 & bf & Hs & Hp & -> & Hplus).
  pose proof Hs as (fids0 & bf' & e & b & Ho & Hp' & _ & _ & _ & _ & _ & _ & Hf).
  assert (bf' = bf) as -> by congruence.
  unfold pw_close. rewrite Hp, Ho. unfold cleanup, with_timeout. mrun.
  change (holds newfid bf (with_world w1 s0)) with (holds newfid bf s0).
  rewrite (hole_holds _ _ _ _ Hs Hp). unfold mtry.
  destruct (call _ _ _ _) as [s' a] eqn:Hc.
  destruct (decide (a = Panic)) as [->|Hnp]; [done|].
  apply call_clunk in Hc as (w' & -> & Hm); [|destruct Hf; lia|done].
  assert (Bal (with_world w' (set_m_fids (delete newfid) s0))).
  { eapply hole_delete; [|done]. eapply minus_plus; [|done..]. apply Hf. }
  by destruct a.
Qed.

Lemma pw_close_backing_triple newfid pw X :
  triple (hole newfid pw) (pw_close_backing tree_call pw) (λ _ s, hole newfid pw s) X.
Proof.
  intros s Hs. pose proof Hs as (fids0 & bf & e & b & Ho & Hp & _ & _ & _ & _ & _ & _ & Hf).
  unfold pw_close_backing. rewrite Hp. unfold with_timeout. mrun.
  destruct (call _ _ _ _) as [s' a] eqn:Hc.
  destruct (decide (a = Panic)) as [->|Hnp]; [done|].
  apply call_clunk in Hc as (w' & -> & Hm); [|destruct Hf; lia|done].
  assert (hole newfid pw (with_world w' s)).
  { eapply hole_same; [|done]. eapply minus_fresh; [|done]. apply Hf. }
  by destruct a.
Qed.

(** ** The operations *)

Lemma reserve_walk_triple f newfid names :
  triple Bal (reserve_walk hash_synthetic f newfid names)
    (λ st s, match st with
             | WalkedSynthetic _ => Bal s
             | Forward _ _ pw => hole newfid pw s
             end) (λ _ s, Bal s).
Proof.
  intros s Hs. unfold reserve_walk. mrun.
  destruct (bool_decide (newfid = ROOT) || isSome (m_fids s !! newfid)) eqn:Hnew;
    [done|]. bool_facts.
  destruct (m_fids s !! f) as [base|]; [|done].
  destruct (reserved base); [done|].
  destruct (negb (bool_decide (names = [])) && _); [done|].
  destruct (resolve_candidates _ _) as [|first rest].
  - destruct (_ && _); [done|]. by apply balanced_insert_none.
  - simpl. exists (m_fids s), (next_backing s). eexists _, _. split_and!; try done.
    + by apply balanced_next.
    + pose proof (alloc_backing_triple (λ _ _, True) s Hs) as [_ Hf]. exact Hf.
Qed.

Lemma next_reservation_triple newfid r pw :
  triple (hole newfid pw) (next_reservation tree_call newfid r pw)
    (λ pw' s, hole newfid pw' s) (λ _ s, Bal s).
Proof.
  intros s Hs. pose proof Hs as
    (fids0 & bf & e & b & Ho & Hp & Hm & Hn & He & Hb & Hbf & Hbal & Hfr).
  unfold next_reservation, alloc_backing. mrun. cbn [m_fids].
  assert (m_fids s !! newfid = Some e) as -> by (by rewrite Hm, lookup_insert_eq).
  rewrite Hp. change (holds newfid bf (mkMountSt _ _ _ _ _)) with (holds newfid bf s).
  rewrite (hole_holds _ _ _ _ Hs Hp). simpl.
  exists fids0, (next_backing s),
    (mkEntry (e_path e) (Some (mkBacking r (next_backing s) false)) (reserved e)
             (walk_cancel e)), (mkBacking r (next_backing s) false).
  split_and!; try done; simpl.
  - by rewrite Hm, insert_insert_eq.
  - by apply balanced_next.
  - destruct Hbal as [_ _ _ _ Hl Hn']. split; simpl; [lia|].
    intros t Hx. specialize (Hl t _ Hx). lia.
Qed.

Lemma publish_triple newfid p pw bf q :
  pw_fid pw = Some bf →
  triple (answered newfid pw) (publish tree_call newfid p pw bf q)
    (λ _ s, Bal s) (λ _ s, Bal s).
Proof.
  intros Hp s (s0 & w1 & bf0 & Hs & Hp0 & -> & Hplus).
  assert (bf0 = bf) as -> by congruence.
  pose proof Hs as (fids0 & bf' & e & b & Ho & Hp' & Hm & Hn & He & Hb & Hbf & Hbal & Hfr).
  assert (bf' = bf) as -> by congruence.
  unfold publish. mrun.
  change (holds newfid bf (with_world w1 s0)) with (holds newfid bf s0).
  rewrite (hole_holds _ _ _ _ Hs Hp). simpl. unfold Bal. simpl.
  rewrite Hm, insert_insert_eq. destruct Hfr as [Hlt Hfr].
  apply (balanced_insert _ _ (world s0) _ _ _ (r_tree (pw_resolved pw)) bf); try done.
  intros t' bf'. unfold owns. simpl. naive_solver.
Qed.

Lemma walk_candidates_triple newfid p first cands pw :
  triple (hole newfid pw) (walk_candidates tree_call newfid p first cands pw)
    (λ x s, match x with inl _ => Bal s | inr pw' => hole newfid pw' s end)
    (λ _ s, Bal s).
Proof.
  revert first pw. induction cands as [|r cands IH]; intros first pw; simpl.
  { by apply triple_ret. }
  apply (triple_bind _ _ _ (λ pw' s, hole newfid pw' s)).
  { destruct first; [by apply triple_ret|apply next_reservation_triple]. }
  intros pw'. eapply triple_bind; [apply pw_wait_triple|].
  intros [x|e| |]; try (intros s Hs; done).
  - intros s [[q ->] Hs]. pose proof Hs as (s0 & w' & bf & _ & Hp & _).
    rewrite Hp. revert s Hs.
    eapply triple_bind; [by apply publish_triple|]. intros a. by apply triple_ret.
  - eapply triple_bind; [apply pw_close_backing_triple|]. intros ?. apply IH.
Qed.

Lemma walk_fallback_triple newfid p pw :
  triple (hole newfid pw) (walk_fallback tree_call hash_synthetic newfid p pw)
    (λ _ s, Bal s) (λ _ s, Bal s).
Proof.
  intros s Hs. unfold walk_fallback. mrun.
  destruct (bool_decide (p = []) || is_synthetic_dir p s).
  - pose proof Hs as (fids0 & bf & e & b & Ho & Hp & Hm & Hn & He & Hb & Hbf & Hbal & Hfr).
    rewrite Hp, (hole_holds _ _ _ _ Hs Hp). simpl. unfold Bal. simpl.
    rewrite Hm, insert_insert_eq. by apply balanced_insert_none.
  - pose proof (pw_close_triple newfid pw (λ _ _, True) s Hs) as Hc.
    destruct (pw_close _ pw s) as [s' [[]|e| |]] eqn:E; simpl in *; try done.
    exfalso. revert E. unfold pw_close, with_timeout. mrun.
    repeat (case_match; simplify_eq); done.
Qed.

Lemma m_walk_triple f newfid names :
  triple Bal (m_walk tree_call hash_synthetic f newfid names)
    (λ _ s, Bal s) (λ _ s, Bal s).
Proof.
  unfold m_walk. eapply triple_bind; [apply reserve_walk_triple|].
  intros [q|p cands pw]; [by apply triple_ret|].
  eapply triple_bind; [apply walk_candidates_triple|].
  intros [q|pw']; [by apply triple_ret|apply walk_fallback_triple].
Qed.

(** A state change that keeps the table and what the trees hold. *)
Definition settled s s' : Prop :=
  m_fids s' = m_fids s ∧ next_backing s ≤ next_backing s' ∧
  same_bound (world s) (world s').

Lemma Bal_settled s s' : settled s s' → Bal s → Bal s'.
Proof.
  unfold Bal. intros (-> & Hle & Hsame) Hb. apply (balanced_same _ _ (world s)); [done|].
  destruct Hb as [Hq Hb Ha Ho Hl Hn]. constructor; try done; [|lia].
  intros t bf Hbf. specialize (Hl t bf Hbf). lia.
Qed.

Lemma target_state f s s' r : target f s = (s', r) → s' = s.
Proof. unfold target. mrun. intros H. by repeat (case_match; simplify_eq). Qed.

(** Forwarding a plain request. *)
Lemma forward_triple {A} r req (k : Response → Op (MountSt Tree W) A) :
  plain req = true → (∀ a, step_rel (=) (k a)) →
  triple Bal (x ← call tree_call r req; k x) (λ _ s, Bal s) (λ _ s, Bal s).
Proof.
  intros Hp Hk s Hs. unfold mbind, m_bind.
  destruct (call _ r req s) as [s1 a] eqn:Hc.
  apply call_plain in Hc as (w' & -> & Hsame); [|done].
  assert (Bal (with_world w' s)) as Hb by by eapply balanced_same.
  destruct a as [x|e| |]; try done.
  specialize (Hk x (with_world w' s)).
  destruct (k x (with_world w' s)) as [s2 []]; simpl in Hk; subst; done.
Qed.

Lemma read_all_settled fuel r f out s s' a :
  read_all tree_call fuel r f out s = (s', a) → ∃ w', s' = with_world w' s ∧
  same_bound (world s) w'.
Proof.
  revert out s. induction fuel as [|fuel IH]; intros out s; simpl; unfold mbind, m_bind.
  { intros [= <- <-]. exists (world s). by destruct s. }
  destruct (call _ r _ s) as [s1 x] eqn:Hc.
  apply call_plain in Hc as (w1 & -> & Hs1); [|done].
  assert (∃ w', with_world w1 s = with_world w' s ∧ same_bound (world s) w') as Hstop
    by by exists w1.
  destruct x as [x|e| |]; [|by intros [= <- _]..].
  destruct x; try by intros [= <- _]. case_bool_decide; [by intros [= <- _]|].
  intros (w' & -> & Hs2)%IH. exists w'. split; [done|]. intros t. by rewrite Hs2, Hs1.
Qed.

Lemma listing_settled r f s s' a :
  read_contributor_listing tree_call listing_fuel r f s = (s', a) →
  ∃ w', s' = with_world w' s ∧ same_bound (world s) w'.
Proof.
  unfold read_contributor_listing, mbind, m_bind.
  destruct (call _ r _ s) as [s1 x] eqn:Hc.
  apply call_plain in Hc as (w1 & -> & Hs1); [|done].
  assert (∃ w', with_world w1 s = with_world w' s ∧ same_bound (world s) w') as Hstop
    by by exists w1.
  destruct x as [x|e| |]; [|by intros [= <- _]..].
  destruct x; try by intros [= <- _].
  intros (w' & -> & Hs2)%read_all_settled.
  exists w'. split; [done|]. intros t. by rewrite Hs2, Hs1.
Qed.

Lemma contribute_triple r names :
  triple Bal (contribute tree_call listing_fuel r names) (λ _ s, Bal s) (λ _ s, Bal s).
Proof.
  unfold contribute. eapply triple_bind; [apply alloc_backing_triple|].
  intros bf s [Hs [Hlt Hf]]. unfold mtry, mbind, m_bind.
  destruct (call _ r (WalkReq _ _ _) s) as [s1 a] eqn:Hw.
  apply call_walk in Hw as (w1 & -> & Ha). destruct a as [x|e| |]; try done.
  - destruct Ha as [[q ->] Hplus].
    destruct (read_contributor_listing _ _ r bf _) as [s2 a2] eqn:Hl.
    apply listing_settled in Hl as (w2 & -> & Hs2). simpl in Hs2.
    assert (∀ s3 a3, call tree_call r (ClunkReq bf) (with_world w2 (with_world w1 s)) =
              (s3, a3) → a3 ≠ Panic → Bal s3) as Hclunk.
    { intros s3 a3 Hk Hnp. apply call_clunk in Hk as (w3 & -> & Hm3); [|lia|done].
      simpl in Hm3.
      apply (balanced_same _ _ (world s)); [|done].
      apply (minus_plus (r_tree r) bf _ w2); [done| |done].
      destruct Hplus as [Hp1 Hp2]. split; [by rewrite Hs2|].
      intros t' Hne. rewrite Hs2. auto. }
    destruct a2 as [b|e2| |]; try done;
      destruct (call _ r (ClunkReq bf) _) as [s3 a3];
      specialize (Hclunk s3 a3 eq_refl); destruct a3; try done;
      specialize (Hclunk ltac:(done)); try done; by destruct e2.
  - assert (Bal (with_world w1 s)) as Hb by by eapply balanced_same.
    by destruct e.
Qed.

Lemma merged_triple p :
  triple Bal (merged_dir_listing tree_call listing_fuel p) (λ _ s, Bal s) (λ _ s, Bal s).
Proof.
  unfold merged_dir_listing. intros s Hs.
  assert (∀ cands names, triple Bal (contribute_all tree_call listing_fuel cands names)
            (λ _ s, Bal s) (λ _ s, Bal s)) as Hall.
  { induction cands as [|r cands IH]; intros names; simpl; [by apply triple_ret|].
    eapply triple_bind; [apply contribute_triple|]. intros a. apply IH. }
  unfold mbind, m_bind, mget. simpl.
  pose proof (Hall (resolve_candidates (join_path p) (ns s)) [] s Hs) as Hc.
  destruct (contribute_all _ _ _ _ s) as [s' []]; done.
Qed.

Lemma target_triple f : triple Bal (target f) (λ _ s, Bal s) (λ _ s, Bal s).
Proof.
  intros s Hs. destruct (target f s) as [s' r] eqn:Ht.
  apply target_state in Ht as ->. by destruct r.
Qed.

Lemma m_create_triple f newfid name k :
  triple Bal (m_create tree_call f newfid name k) (λ _ s, Bal s) (λ _ s, Bal s).
Proof.
  intros s Hs. unfold m_create, alloc_backing. mrun.
  destruct (bool_decide (newfid = ROOT) || isSome (m_fids s !! newfid)) eqn:Hnew;
    [done|]. bool_facts.
  destruct (m_fids s !! f) as [entry|]; [|done].
  destruct (reserved entry); [done|].
  destruct (e_backing entry) as [b|]; [|done].
  destruct (is_dir b); [simpl|done]. unfold mtry.
  destruct (call _ _ _ _) as [s1 a] eqn:Hc.
  apply call_create in Hc as (w1 & -> & Ha). simpl in Ha.
  pose proof (alloc_backing_triple (λ _ _, True) s Hs) as [Hb [Hlt Hf]]. simpl in *.
  destruct a as [x|e| |]; try done.
  - destruct Ha as [[q ->] Hplus]. cbn [m_fids with_world set_m_fids].
    rewrite lookup_insert_eq. simpl. unfold Bal. simpl.
    rewrite insert_insert_eq.
    eapply (balanced_insert _ _ (world s) _ _ _ (r_tree (b_resolved b)) (next_backing s));
      try done.
    intros t' bf'. unfold owns. simpl. naive_solver.
  - unfold Bal. simpl. rewrite delete_insert_id by done. by eapply balanced_same.
Qed.

Lemma owner_below s f e b :
  Bal s → m_fids s !! f = Some e → e_backing e = Some b → backing_fid b ≠ ROOT.
Proof.
  intros [_ Hb _ _ Hl _] He Hbk.
  assert (backing_fid b ∈ bound (world s) (r_tree (b_resolved b))) as Hin.
  { apply Hb. right. exists f, e. split; [done|]. by exists b. }
  specialize (Hl _ _ Hin). lia.
Qed.

Lemma m_clunk_triple f :
  triple Bal (m_clunk tree_call f) (λ _ s, Bal s) (λ _ s, Bal s).
Proof.
  intros s Hs. unfold m_clunk. mrun. destruct (bool_decide (f = ROOT)); [done|].
  destruct (m_fids s !! f) as [e|] eqn:He; [|done].
  destruct (_ && _); [done|]. destruct (e_backing e) as [b|] eqn:Hb.
  - unfold mtry. destruct (call _ _ _ _) as [s1 a] eqn:Hc.
    destruct (decide (a = Panic)) as [->|Hnp]; [done|].
    apply call_clunk in Hc as (w1 & -> & Hm); [|by eapply owner_below|done].
    assert (Bal (with_world w1 (set_m_fids (delete f) s))).
    { eapply balanced_delete; [done..|]. by rewrite Hb. }
    destruct a as [x|e'| |]; try done; [by destruct x|]. by destruct (_ && _).
  - eapply balanced_delete; [done..|]. by rewrite Hb.
Qed.

Lemma m_remove_triple f :
  triple Bal (m_remove tree_call f) (λ _ s, Bal s) (λ _ _, True).
Proof.
  intros s Hs. unfold m_remove. mrun. destruct (bool_decide (f = ROOT)); [done|].
  destruct (m_fids s !! f) as [e|] eqn:He; [|done].
  destruct (reserved e); [done|]. destruct (e_backing e) as [b|] eqn:Hb; [|done].
  destruct (call _ _ _ _) as [s1 a] eqn:Hc. destruct a as [x|e'| |]; try done.
  apply call_remove in Hc as (w1 & -> & Hm).
  eapply balanced_delete; [done..|]. by rewrite Hb.
Qed.

Lemma after_target {A} f (k : Target → Op (MountSt Tree W) A) :
  (∀ x, triple Bal (k x) (λ _ s, Bal s) (λ _ s, Bal s)) →
  triple Bal (x ← target f; k x) (λ _ s, Bal s) (λ _ s, Bal s).
Proof. intros Hk. eapply triple_bind; [apply target_triple|done]. Qed.

Ltac pure_read := let s := fresh in intros s ?; mrun; repeat case_match; by simplify_eq.

Lemma mount_call_triple req :
  triple Bal
    (transport_call (H := MountFs_FileServer tree_call hash_synthetic listing_fuel) req)
    (λ _ s, Bal s)
    (λ _ s, match req with RemoveReq _ => True | _ => Bal s end).
Proof.
  destruct req; simpl;
    (eapply (triple_bind _ _ _ (λ _ s, Bal s)); [|intros ?; by apply triple_ret]).
  - apply m_walk_triple.
  - apply after_target. intros [r bf d p|p]; [|pure_read].
    apply forward_triple; [done|]. intros []; msteps.
  - apply after_target. intros [r bf d p|p]; [|pure_read].
    intros s Hs. unfold mget, mbind at 1, m_bind at 1. destruct (d && _).
    + revert s Hs. eapply triple_bind; [apply merged_triple|].
      intros a. by apply triple_ret.
    + revert s Hs. apply forward_triple; [done|]. intros []; msteps.
  - apply after_target. intros [r bf d p|p]; [|pure_read].
    apply forward_triple; [done|]. intros []; msteps.
  - apply after_target. intros [r bf d p|p]; [|pure_read].
    apply forward_triple; [done|]. intros []; msteps.
  - apply m_create_triple.
  - apply m_remove_triple.
  - apply m_clunk_triple.
Qed.

(** ** Releasing a whole connection *)

Lemma clunk_backings_balanced l s s' :
  NoDup l.*1 → balanced (list_to_map l) (next_backing s) (world s) →
  clunk_backings tree_call l s = (s', Ok tt) →
  balanced ∅ (next_backing s') (world s').
Proof.
  revert s. induction l as [|[f e] l IH]; intros s Hnd Hb; simpl.
  { by intros [= <-]. }
  apply NoDup_cons in Hnd as [Hf Hnd]. simpl in Hb, Hf.
  assert (Hdel : delete f (<[f := e]> (list_to_map l)) = list_to_map (M := gmap Fid (Entry Tree)) l).
  { apply delete_insert_id. by apply not_elem_of_list_to_map_1. }
  destruct (e_backing e) as [b|] eqn:Hbk.
  - unfold mtry, mbind, m_bind. destruct (call _ _ _ s) as [s1 a] eqn:Hc.
    destruct (decide (a = Panic)) as [->|Hnp]; [done|].
    apply call_clunk in Hc as (w1 & -> & Hm); [| |done].
    2: { apply (owner_below (mkMountSt (ns s) (ns_generation s)
           (<[f := e]> (list_to_map l)) (next_backing s) (world s)) f e b); [done| |done].
         apply lookup_insert_eq. }
    destruct a as [x|e'| |]; try done; apply IH; try done; rewrite <- Hdel;
      (eapply balanced_delete; [done|apply lookup_insert_eq|by rewrite Hbk]).
  - apply IH; [done|]. rewrite <- Hdel.
    eapply balanced_delete; [done|apply lookup_insert_eq|by rewrite Hbk].
Qed.
End accounts.

(** ** Runs of a client *)

(** The fid a [remove] leaves behind in a server when it is refused: the client's
    fid is unbound before the server is asked. *)
Definition left_behind {Tree W} (req : Request) (r : result ErrorCode Response) (s : MountSt Tree W) :
    list (Tree * Fid) :=
  match req, r with
  | RemoveReq f, Err _ =>
      if bool_decide (f = ROOT) then []
      else match m_fids s !! f ≫= e_backing with
           | Some b => [(r_tree (b_resolved b), backing_fid b)]
           | None => []
           end
  | _, _ => []
  end.

(** The states a client reaches with requests that are answered, and what its
    refused removes left behind on the way. *)
Inductive client_run {Tree W} (tree_call : Tree → Request → Op W Response)
    (hash_synthetic : list string → Z) (listing_fuel : nat) :
    MountSt Tree W → list (Tree * Fid) → MountSt Tree W → Prop :=
  | run_nil s : client_run tree_call hash_synthetic listing_fuel s [] s
  | run_call s s1 s2 req r l :
      transport_call (H := MountFs_FileServer tree_call hash_synthetic listing_fuel)
        req s = (s1, r) →
      match r with Ok _ | Err _ => True | _ => False end →
      client_run tree_call hash_synthetic listing_fuel s1 l s2 →
      client_run tree_call hash_synthetic listing_fuel s (left_behind req r s ++ l) s2.

(** Entries that leave the table without being released become somebody else's. *)
Lemma balanced_orphan {Tree W} (bound : W → Tree → gset Fid) foreign
    (fids : gmap Fid (Entry Tree)) f e next (w : W) :
  balanced bound foreign fids next w → fids !! f = Some e →
  balanced bound (λ t bf, foreign t bf ∨ owns e t bf) (delete f fids) next w.
Proof.
  intros [Hq Hb Ha Ho Hl Hn] He.
  assert (Hsub : ∀ t bf, owned (delete f fids) t bf → owned fids t bf).
  { intros t bf (f' & e' & [_ Hf]%lookup_delete_Some & Hw). by exists f', e'. }
  constructor; try done.
  - by apply map_Forall_delete.
  - intros t bf. rewrite Hb. split.
    + intros [?|(f' & e' & Hf & Hw)]; [by do 2 left|].
      destruct (decide (f' = f)) as [->|Hne]; [left; right; by simplify_eq|].
      right. exists f', e'. by rewrite lookup_delete_ne.
    + intros [[?|?]|?]; [by left|right; by exists f, e|right; by apply Hsub].
  - intros t bf [Hf|Hw] Hown; [by destruct (Ha t bf Hf); apply Hsub|].
    destruct Hown as (f' & e' & [Hne Hf]%lookup_delete_Some & Hw'). by destruct Hne; eapply Ho.
  - intros f1 f2 e1 e2 t bf [_ H1]%lookup_delete_Some [_ H2]%lookup_delete_Some. by eapply Ho.
Qed.

Lemma balanced_foreign {Tree W} (bound : W → Tree → gset Fid) (foreign foreign' : Tree → Fid → Prop)
    fids next (w : W) :
  (∀ t bf, foreign t bf ↔ foreign' t bf) →
  balanced bound foreign fids next w → balanced bound foreign' fids next w.
Proof.
  intros Hf [Hq Hb Ha Ho Hl Hn]. constructor; try done; intros t bf; rewrite <-Hf; [apply Hb|apply Ha].
Qed.

Lemma refused_remove_bal {Tree W} `{EqDecision Tree} tree_call bound
    `{!BackingContract tree_call bound} foreign f e (s s' : MountSt Tree W) :
  Bal bound foreign s → m_remove tree_call f s = (s', Err e) →
  Bal bound (λ t bf, foreign t bf ∨ (t, bf) ∈ left_behind (RemoveReq f) (Err e) s) s'.
Proof.
  intros Hs Hr. unfold m_remove in Hr. simpl. revert Hr. mrun.
  destruct (bool_decide (f = ROOT)).
  { intros [= <- _]. eapply balanced_foreign; [|exact Hs]. set_solver. }
  destruct (m_fids s !! f) as [en|] eqn:He; simpl.
  2: { intros [= <- _]. eapply balanced_foreign; [|exact Hs]. set_solver. }
  assert (reserved en = false) as -> by by eapply (bal_quiet _ _ _ _ _ Hs).
  assert (∀ w', same_bound bound (world s) w' →
    Bal bound (λ t bf, foreign t bf ∨ owns en t bf)
      (with_world w' (set_m_fids (delete f) s))) as Horph.
  { intros w' Hw. eapply balanced_same; [exact Hw|]. by eapply balanced_orphan. }
  unfold owns in Horph. destruct (e_backing en) as [b|] eqn:Hb.
  - destruct (call _ _ _ _) as [s1 a] eqn:Hc. destruct a as [x|e'| |]; try done. intros [= <- <-].
    eapply call_remove_err in Hc as (w1 & -> & Hw); [|done].
    eapply balanced_foreign; [|exact (Horph w1 Hw)]. intros t bf. rewrite list_elem_of_singleton.
    split; intros [?|Hx]; [by left|right|by left|right].
    + by destruct Hx as (b' & [= <-] & <- & <-).
    + simplify_eq. by exists b.
  - intros [= <- _]. eapply balanced_foreign; [|apply (Horph (world s)); done].
    intros t bf. set_solver.
Qed.

Lemma client_run_bal {Tree W} `{EqDecision Tree} tree_call bound
    `{!BackingContract tree_call bound} hash_synthetic listing_fuel l foreign
    (s s' : MountSt Tree W) :
  client_run tree_call hash_synthetic listing_fuel s l s' →
  Bal bound foreign s → Bal bound (λ t bf, foreign t bf ∨ (t, bf) ∈ l) s'.
Proof.
  intros Hrun. revert foreign.
  induction Hrun as [s|s s1 s2 req r l Hc Hr Hrun IH]; intros foreign Hs.
  { eapply balanced_foreign; [|exact Hs]. set_solver. }
  assert (Bal bound (λ t bf, foreign t bf ∨ (t, bf) ∈ left_behind req r s) s1) as H1.
  { pose proof (triple_elim _ _ _ _ _ _ _
      (mount_call_triple tree_call bound hash_synthetic listing_fuel foreign req) Hs Hc) as H.
    destruct r as [x|e| |]; try done.
    - eapply balanced_foreign; [|exact H]. destruct req; set_solver.
    - destruct req; try (eapply balanced_foreign; [|exact H]; set_solver).
      simpl in Hc. apply after_handler in Hc as ([q|e'| |] & Hm & [= <-]).
      by eapply refused_remove_bal. }
  eapply balanced_foreign; [|exact (IH _ H1)]. intros t bf. simpl. rewrite elem_of_app. tauto.
Qed.

(** C3: fid lifetime is connection lifetime. However a client uses its namespace
    (walks through unions, creates, removes, failed requests, merged listings, each
    answered before the next), in every mounted server exactly these fids are bound:
    those of others, one for each of the client's own open fids, and one for each
    [remove] the server refused. When the connection ends, [clunk_all] leaves
    exactly those of others and of the refused removes. *)
Theorem connection_releases_fids {Tree W} `{EqDecision Tree}
    (tree_call : Tree → Request → Op W Response) bound
    `{!BackingContract tree_call bound} hash_synthetic listing_fuel
    (n : Namespace Tree) gen next (w : W) (refused : list (Tree * Fid))
    (s' s'' : MountSt Tree W) :
  (∀ t bf, bf ∈ bound w t → ROOT < bf < next) → ROOT < next →
  client_run tree_call hash_synthetic listing_fuel
    (from_live_namespace n gen next w) refused s' →
  clunk_all tree_call s' = (s'', Ok tt) →
  (∀ t bf, bf ∈ bound (world s') t ↔
     bf ∈ bound w t ∨ (t, bf) ∈ refused ∨ owned (m_fids s') t bf) ∧
  (∀ t bf, owned (m_fids s') t bf → bf ∉ bound w t ∧ (t, bf) ∉ refused) ∧
  (∀ t bf, bf ∈ bound (world s'') t ↔ bf ∈ bound w t ∨ (t, bf) ∈ refused).
Proof.
  intros Hlow Hnext Hrun Hclunk.
  pose (foreign t bf := bf ∈ bound w t).
  assert (Bal bound foreign (from_live_namespace n gen next w)) as H0.
  { unfold Bal, from_live_namespace, synthetic_entry. simpl.
    assert (∀ (t : Tree) bf, ¬ owned {[ROOT := mkEntry [] None false false]} t bf) as Hno.
    { intros t bf (f & e & [<- <-]%lookup_singleton_Some & (b & Hb & _)). done. }
    constructor; simpl; try done.
    - by apply map_Forall_singleton.
    - intros t bf. split; [by left|]. intros [?|?]; [done|]. by destruct (Hno t bf).
    - intros f1 f2 e1 e2 t bf [<- _]%lookup_singleton_Some [<- _]%lookup_singleton_Some.
      done. }
  pose proof (client_run_bal _ _ _ _ _ _ _ _ Hrun H0) as Hs'. split_and!.
  - intros t bf. rewrite (bal_bound _ _ _ _ _ Hs'). unfold foreign. tauto.
  - intros t bf Hown. split; intros Hx; apply (bal_apart _ _ _ _ _ Hs' t bf); auto.
  - unfold clunk_all in Hclunk. revert Hclunk. mrun. intros Hclunk.
    eapply (clunk_backings_balanced tree_call bound) in Hclunk; [|apply NoDup_fst_map_to_list|].
    + intros t bf. rewrite (bal_bound _ _ _ _ _ Hclunk).
      split; [|intros Hx; left; exact Hx]. intros [?|(f & e & Hf & _)]; [done|].
      by rewrite lookup_empty in Hf.
    + simpl. rewrite list_to_map_to_list. apply Hs'.
Qed.

(** ** A small namespace: the reference server at the root *)

Definition ref_call : unit → Request → Op (unit → ApReference.State) Response :=
  servers_call (FS := MemFs_FileServer (λ _, true)).
Definition ref_bound (w : unit → ApReference.State) (t : unit) : gset Fid :=
  ApReference.live (w t).
Definition ref_mounts (a : Access) : MountSt unit (unit → ApReference.State) :=
  from_live_namespace (mount "/" tt a ns_new) 0 1 (λ _, ApReference.new).
Definition ref_request (req : Request) (s : MountSt unit (unit → ApReference.State)) :=
  transport_call (H := MountFs_FileServer ref_call (λ _, 0) 8) req s.

#[local] Instance ref_contract : BackingContract ref_call ref_bound :=
  servers_contract (FS := MemFs_FileServer (λ _, true)) ApReference.live.

Lemma connection_releases_fids_witness :
  let s1 := (ref_request (WalkReq ROOT 1 ["greeting"]) (ref_mounts AccessReadWrite)).1 in
  let s2 := (ref_request (WalkReq ROOT 2 ["greeting"]) s1).1 in
  let s' := (ref_request (RemoveReq 1) s2).1 in
  (∀ t bf, bf ∈ ref_bound (world s') t ↔
     bf ∈ ref_bound (λ _, ApReference.new) t ∨ (t, bf) ∈ [(tt, 1)] ∨ owned (m_fids s') t bf) ∧
  (∀ t bf, owned (m_fids s') t bf →
     bf ∉ ref_bound (λ _, ApReference.new) t ∧ (t, bf) ∉ [(tt, 1)]) ∧
  (∀ t bf, bf ∈ ref_bound (world (clunk_all ref_call s').1) t ↔
     bf ∈ ref_bound (λ _, ApReference.new) t ∨ (t, bf) ∈ [(tt, 1)]).
Proof.
  intros s1 s2 s'.
  apply (connection_releases_fids ref_call ref_bound (λ _, 0) 8
    (mount "/" tt AccessReadWrite ns_new) 0 1 (λ _, ApReference.new) [(tt, 1)] s'
    (clunk_all ref_call s').1).
  - intros t bf Hbf. exfalso. revert Hbf.
    unfold ref_bound, live. simpl. rewrite dom_singleton_L. set_solver.
  - done.
  - eassert (client_run ref_call (λ _, 0) 8 (ref_mounts AccessReadWrite) _ s') as Hrun.
    { eapply (run_call _ _ _ _ s1 _ (WalkReq ROOT 1 ["greeting"]));
        [apply surjective_pairing|by vm_compute|].
      eapply (run_call _ _ _ _ s2 _ (WalkReq ROOT 2 ["greeting"]));
        [apply surjective_pairing|by vm_compute|].
      eapply (run_call _ _ _ _ s' _ (RemoveReq 1)); [apply surjective_pairing|by vm_compute|].
      apply run_nil. }
    match type of Hrun with client_run _ _ _ _ ?l _ =>
      assert (l = [(tt, 1)]) as Hl by (vm_compute; reflexivity); rewrite Hl in Hrun end.
    exact Hrun.
  - vm_compute. reflexivity.
Defined.

(** A [remove] that is refused, here by a read-only mount, unbinds the client's
    fid and keeps the server's: nothing can release it any more, the end of the
    connection included. *)
Example refused_remove_leaks_backing_fid :
  let s := ref_mounts AccessReadOnly in
  let '(s, r1) := ref_request (WalkReq ROOT 1 ["greeting"]) s in
  let '(s, r2) := ref_request (RemoveReq 1) s in
  let '(s, r3) := ref_request (ClunkReq 1) s in
  let '(s, r4) := clunk_all ref_call s in
  r2 = Err NoAccess ∧ r3 = Err NotFound ∧ r4 = Ok tt ∧
  elements (ref_bound (world s) tt) = [1].
Proof. vm_compute. done. Qed.
