(* ===== verification/MountWalk.v ===== *)
(** * Concurrent walks of one namespace (mountfs.rs, walk_owner.rs)

    [MountFs::walk] releases the fid table while the backing server answers, so
    a clunk, another walk or any other request runs in between. [walk_step]
    interleaves the critical sections of [MountFs]: a task is where a walk
    stands between two of them. The other requests run in one step. *)
From S2P Require Import Prelude RustStd ApTypes ApServer Namespace MountFs.

Section walks.
Context {Tree W : Type} (tree_call : Tree → Request → Op W Response).
Context (hash_synthetic : list string → Z) (listing_fuel : nat).
Implicit Types s : MountSt Tree W.

(** Where a walk stands: its call is with the backing server; the server has
    answered; the contributor is closed and the next one is to be tried; the
    walk has returned. *)
Inductive phase : Type :=
  | InFlight (rest : list (Resolved Tree)) (pw : PendingWalk Tree)
  | Answer (pw : PendingWalk Tree) (q : Qid)
  | Retry (rest : list (Resolved Tree)) (pw : PendingWalk Tree)
  | Finished (r : result ErrorCode Qid).

Record task : Type := mkTask {
  t_newfid : Fid; t_path : list string; t_phase : phase }.

Record config : Type := mkConfig { core : MountSt Tree W; tasks : gmap nat task }.

Definition phase_pending (ph : phase) : option (PendingWalk Tree) :=
  match ph with
  | InFlight _ pw | Answer pw _ | Retry _ pw => Some pw
  | Finished _ => None
  end.

(** The backing fid a task is waiting for. *)
Definition task_fid (t : task) : option Fid := phase_pending (t_phase t) ≫= pw_fid.

Definition move (id : nat) (t : task) (ph : phase) (c : config) s : config :=
  mkConfig s (<[id := mkTask (t_newfid t) (t_path t) ph]> (tasks c)).

Inductive walk_step : config → config → Prop :=
  | step_begin c id f newfid names s p first rest pw :
      tasks c !! id = None →
      reserve_walk hash_synthetic f newfid names (core c) =
        (s, Ok (Forward p (first :: rest) pw)) →
      walk_step c (mkConfig s (<[id := mkTask newfid p (InFlight rest pw)]> (tasks c)))
  | step_begin_done c id f newfid names s q :
      tasks c !! id = None →
      reserve_walk hash_synthetic f newfid names (core c) = (s, Ok (WalkedSynthetic q)) →
      walk_step c (mkConfig s (<[id := mkTask newfid names (Finished (Ok q))]> (tasks c)))
  | step_begin_err c id f newfid names s e :
      tasks c !! id = None →
      reserve_walk hash_synthetic f newfid names (core c) = (s, Err e) →
      walk_step c (mkConfig s (<[id := mkTask newfid names (Finished (Err e))]> (tasks c)))
  | step_reply c id t rest pw s q :
      tasks c !! id = Some t → t_phase t = InFlight rest pw →
      pw_wait tree_call pw (core c) = (s, Ok (Ok (WalkResp q))) →
      walk_step c (move id t (Answer pw q) c s)
  | step_refused c id t rest pw s1 walked s :
      tasks c !! id = Some t → t_phase t = InFlight rest pw →
      pw_wait tree_call pw (core c) = (s1, Ok walked) →
      (∀ q, walked ≠ Ok (WalkResp q)) →
      pw_close_backing tree_call pw s1 = (s, Ok tt) →
      walk_step c (move id t (Retry rest pw) c s)
  (** The cancel signal fires when the entry that holds its sender is gone; the
      server may or may not have taken the request. *)
  | step_cancel c id t rest pw bf s owned :
      tasks c !! id = Some t → t_phase t = InFlight rest pw → pw_fid pw = Some bf →
      holds (t_newfid t) bf (core c) = false →
      pw_close tree_call pw (core c) = (s, Ok owned) →
      walk_step c (move id t (Finished (Err BadRequest)) c s)
  | step_cancel_late c id t rest pw bf s1 r s owned :
      tasks c !! id = Some t → t_phase t = InFlight rest pw → pw_fid pw = Some bf →
      holds (t_newfid t) bf (core c) = false →
      pw_wait tree_call pw (core c) = (s1, r) →
      pw_close tree_call pw s1 = (s, Ok owned) →
      walk_step c (move id t (Finished (Err BadRequest)) c s)
  | step_publish c id t pw q bf s r :
      tasks c !! id = Some t → t_phase t = Answer pw q → pw_fid pw = Some bf →
      publish tree_call (t_newfid t) (t_path t) pw bf q (core c) = (s, r) →
      walk_step c (move id t (Finished r) c s)
  | step_next c id t r rest pw s pw' :
      tasks c !! id = Some t → t_phase t = Retry (r :: rest) pw →
      next_reservation tree_call (t_newfid t) r pw (core c) = (s, Ok pw') →
      walk_step c (move id t (InFlight rest pw') c s)
  | step_next_err c id t r rest pw s e :
      tasks c !! id = Some t → t_phase t = Retry (r :: rest) pw →
      next_reservation tree_call (t_newfid t) r pw (core c) = (s, Err e) →
      walk_step c (move id t (Finished (Err e)) c s)
  | step_fallback c id t pw s r :
      tasks c !! id = Some t → t_phase t = Retry [] pw →
      walk_fallback tree_call hash_synthetic (t_newfid t) (t_path t) pw (core c) = (s, r) →
      walk_step c (move id t (Finished r) c s)
  | step_other c req s r :
      match req with WalkReq _ _ _ => False | _ => True end →
      transport_call (H := MountFs_FileServer tree_call hash_synthetic listing_fuel)
        req (core c) = (s, r) →
      walk_step c (mkConfig s (tasks c))
  | step_mounts c g : walk_step c (mkConfig (set_ns g (core c)) (tasks c)).

Definition walk_init (n : Namespace Tree) gen next w : config :=
  mkConfig (from_live_namespace n gen next w) ∅.

(** ** Reservations *)

(** A reservation of a walk, as opposed to one of a create. *)
Definition walk_entry (e : Entry Tree) : bool := reserved e && isSome (e_backing e).

(** Every walk reservation of [s'] is one of [s]. *)
Definition no_new_reservation s s' : Prop :=
  next_backing s ≤ next_backing s' ∧
  ∀ f e, m_fids s' !! f = Some e → walk_entry e = true → m_fids s !! f = Some e.
Global Instance no_new_preorder : PreOrder no_new_reservation.
Proof.
  split; [done|]. intros x y z [Hn Hxy] [Hn' Hyz]. split; [lia|].
  intros f e Hf He. auto.
Qed.

Lemma no_new_insert f e s :
  walk_entry e = false → no_new_reservation s (set_m_fids (insert f e) s).
Proof.
  intros He. split; [done|]. intros g e' Hg He'. simpl in Hg.
  apply lookup_insert_Some in Hg as [[_ <-]|[_ Hg]]; congruence.
Qed.
Lemma no_new_delete f s : no_new_reservation s (set_m_fids (delete f) s).
Proof. split; [done|]. intros g e' Hg _. simpl in Hg. by apply lookup_delete_Some in Hg as [_ Hg]. Qed.
Lemma call_no_new r req : step_rel no_new_reservation (call tree_call r req).
Proof. intros s. unfold call. by destruct (resolved_call _ _ _ _). Qed.
Lemma alloc_no_new : step_rel no_new_reservation (alloc_backing (Tree := Tree) (W := W)).
Proof. intros s. split; simpl; [lia|done]. Qed.
Lemma try_step {A} (R : relation (MountSt Tree W)) (m : Op (MountSt Tree W) A) :
  step_rel R m → step_rel R (mtry m).
Proof. intros Hm s. specialize (Hm s). unfold mtry. by destruct (m s) as [? []]. Qed.
Lemma timeout_step {A} (R : relation (MountSt Tree W)) (m : Op (MountSt Tree W) A) :
  step_rel R m → step_rel R (with_timeout m).
Proof. intros Hm s. specialize (Hm s). unfold with_timeout. by destruct (m s) as [? []]. Qed.
#[local] Hint Resolve call_no_new alloc_no_new try_step timeout_step : alan.
#[local] Hint Resolve no_new_insert no_new_delete step_modify : alan.

Ltac nsteps := repeat first [progress msteps | solve [auto with alan]].

Lemma target_no_new f : step_rel no_new_reservation (target f (Tree := Tree) (W := W)).
Proof. unfold target. nsteps. Qed.
Lemma read_all_no_new fuel r f out :
  step_rel no_new_reservation (read_all tree_call fuel r f out).
Proof. revert out. induction fuel; intros out; simpl; nsteps. Qed.
#[local] Hint Resolve target_no_new read_all_no_new : alan.
Lemma listing_no_new r f :
  step_rel no_new_reservation (read_contributor_listing tree_call listing_fuel r f).
Proof. unfold read_contributor_listing. nsteps. Qed.
#[local] Hint Resolve listing_no_new : alan.
Lemma contribute_all_no_new cands names :
  step_rel no_new_reservation (contribute_all tree_call listing_fuel cands names).
Proof.
  revert names. induction cands; intros names; simpl; [nsteps|].
  apply step_bind; [by apply _| |done]. unfold contribute. nsteps.
Qed.
#[local] Hint Resolve contribute_all_no_new : alan.

Lemma other_no_new req :
  match req with WalkReq _ _ _ => False | _ => True end →
  step_rel no_new_reservation
    (transport_call (H := MountFs_FileServer tree_call hash_synthetic listing_fuel) req).
Proof.
  intros Hreq. destruct req; [done|..]; simpl;
    unfold m_open, m_read, m_write, m_stat, m_create, m_remove, m_clunk, merged_dir_listing;
    nsteps.
Qed.

Lemma pw_wait_no_new pw : step_rel no_new_reservation (pw_wait tree_call pw).
Proof. unfold pw_wait. nsteps. Qed.
Lemma cleanup_no_new outer r f : step_rel no_new_reservation (cleanup tree_call outer r f).
Proof. unfold cleanup. nsteps. Qed.
#[local] Hint Resolve pw_wait_no_new cleanup_no_new : alan.
Lemma pw_close_no_new pw : step_rel no_new_reservation (pw_close tree_call pw).
Proof. unfold pw_close. nsteps. Qed.
Lemma pw_close_backing_no_new pw :
  step_rel no_new_reservation (pw_close_backing tree_call pw).
Proof. unfold pw_close_backing. nsteps. Qed.
#[local] Hint Resolve pw_close_no_new pw_close_backing_no_new : alan.
Lemma pw_drop_no_new pw : step_rel no_new_reservation (pw_drop tree_call pw).
Proof. unfold pw_drop. nsteps. Qed.
#[local] Hint Resolve pw_drop_no_new : alan.
Lemma publish_no_new newfid p pw bf q :
  step_rel no_new_reservation (publish tree_call newfid p pw bf q).
Proof. unfold publish. nsteps. Qed.
Lemma fallback_no_new newfid p pw :
  step_rel no_new_reservation (walk_fallback tree_call hash_synthetic newfid p pw).
Proof. unfold walk_fallback. nsteps. Qed.

Lemma holds_no_new f bf s s' :
  no_new_reservation s s' → holds f bf s = false → holds f bf s' = false.
Proof.
  intros [_ Hn] Hs. destruct (holds f bf s') eqn:Hs'; [|done]. exfalso.
  unfold holds in *. destruct (m_fids s' !! f) as [e|] eqn:He; [|done].
  apply andb_true_iff in Hs' as [Hr Hb].
  rewrite (Hn f e He) in Hs.
  - rewrite Hr in Hs. simpl in Hs. congruence.
  - unfold walk_entry. rewrite Hr. by destruct (e_backing e).
Qed.

(** [s'] has one more reservation than [s] at most, for the next backing fid. *)
Definition one_reservation s s' : Prop :=
  next_backing s' = next_backing s + 1 ∧
  ∀ f e, m_fids s' !! f = Some e → walk_entry e = true →
    m_fids s !! f = Some e ∨
    (walk_cancel e = true ∧ ∃ b, e_backing e = Some b ∧ backing_fid b = next_backing s).

Lemma holds_one f bf s s' :
  one_reservation s s' → bf ≠ next_backing s → holds f bf s = false →
  holds f bf s' = false.
Proof.
  intros [_ Hn] Hne Hs. destruct (holds f bf s') eqn:Hs'; [|done]. exfalso.
  unfold holds in *. destruct (m_fids s' !! f) as [e|] eqn:He; [|done].
  apply andb_true_iff in Hs' as [Hr Hb].
  destruct (Hn f e He) as [Hold|(_ & b & Hbk & Hbf)].
  - unfold walk_entry. rewrite Hr. by destruct (e_backing e).
  - rewrite Hold, Hr in Hs. simpl in Hs. congruence.
  - rewrite Hbk in Hb. bool_facts. congruence.
Qed.

Lemma reserve_walk_forward f newfid names s s' p cands pw :
  reserve_walk hash_synthetic f newfid names s = (s', Ok (Forward p cands pw)) →
  one_reservation s s' ∧ pw_fid pw = Some (next_backing s).
Proof.
  unfold reserve_walk, alloc_backing. mrun. intros H.
  repeat (case_match; simplify_eq); (split; [|done]); (split; [done|]);
    intros g e Hg He; simpl in Hg;
    (apply lookup_insert_Some in Hg as [[_ <-]|[_ Hg]]; [right|by left]);
    (split; [done|]); by eexists.
Qed.
Lemma reserve_walk_rest f newfid names s s' r :
  reserve_walk hash_synthetic f newfid names s = (s', r) →
  (∀ p cands pw, r ≠ Ok (Forward p cands pw)) → no_new_reservation s s'.
Proof.
  unfold reserve_walk. mrun. intros H Hr.
  repeat (case_match; simplify_eq); try done; try by apply no_new_insert.
  all: by destruct (Hr _ _ _ eq_refl).
Qed.

(** Reservations carry their cancel signal and fids below the allocator. *)
Definition entries_ok s : Prop := ∀ f e, m_fids s !! f = Some e → walk_entry e = true →
  walk_cancel e = true ∧ ∃ b, e_backing e = Some b ∧ backing_fid b < next_backing s.

Lemma entries_ok_no_new s s' :
  no_new_reservation s s' → entries_ok s → entries_ok s'.
Proof.
  intros [Hle Hn] Hs f e Hf He. destruct (Hs f e (Hn f e Hf He) He) as (Hc & b & Hb & Hlt).
  split; [done|]. exists b. split; [done|lia].
Qed.
Lemma entries_ok_one s s' : one_reservation s s' → entries_ok s → entries_ok s'.
Proof.
  intros [Hle Hn] Hs f e Hf He. destruct (Hn f e Hf He) as [Hold|(Hc & b & Hb & Hbf)].
  - destruct (Hs f e Hold He) as (Hc & b & Hb & Hlt). split; [done|].
    exists b. split; [done|lia].
  - split; [done|]. exists b. split; [done|lia].
Qed.

Lemma next_reservation_ok newfid r pw s s' pw' :
  entries_ok s → next_reservation tree_call newfid r pw s = (s', Ok pw') →
  one_reservation s s' ∧ pw_fid pw' = Some (next_backing s) ∧
  ∃ bf, pw_fid pw = Some bf ∧ holds newfid bf s = true.
Proof.
  intros Hs. unfold next_reservation, alloc_backing. mrun. cbn [m_fids]. intros H.
  destruct (m_fids s !! newfid) as [e|] eqn:He;
    [|by destruct (pw_drop tree_call pw _) as [? []]].
  destruct (pw_fid pw) as [bf|];
    [|by destruct (pw_drop tree_call pw _) as [? []]].
  change (holds newfid bf (mkMountSt _ _ _ _ _)) with (holds newfid bf s) in H.
  destruct (holds newfid bf s) eqn:Hh;
    [|by destruct (pw_drop tree_call pw _) as [? []]].
  simplify_eq. split_and!; [|done|by exists bf]. split; [done|].
  intros g e' Hg He'. simpl in Hg.
  apply lookup_insert_Some in Hg as [[_ <-]|[_ Hg]]; [right|by left]. simpl.
  unfold holds in Hh. rewrite He in Hh. apply andb_true_iff in Hh as [Hr Hb].
  destruct (e_backing e) as [b|] eqn:Hbk; [|done].
  split; [|by eexists]. apply (Hs newfid e He).
  unfold walk_entry. by rewrite Hr, Hbk.
Qed.
Lemma next_reservation_err newfid r pw s s' e :
  next_reservation tree_call newfid r pw s = (s', Err e) → no_new_reservation s s'.
Proof.
  unfold next_reservation. intros H.
  assert (∀ s1 s' (r : result ErrorCode (PendingWalk Tree)),
    (pw_drop tree_call pw;; mfail BadRequest) s1 = (s', r) → no_new_reservation s1 s') as Hd.
  { intros s1 s2 r0. apply (step_rel_elim no_new_reservation). nsteps. }
  revert H. mrun. unfold alloc_backing. cbn [m_fids]. intros H.
  etrans; [apply (alloc_no_new s)|]. simpl.
  repeat (case_match; simplify_eq); eapply Hd; mrun; repeat case_match; by simplify_eq.
Qed.

(** ** The invariant of interleaved walks *)

Record walks_inv (c : config) : Prop := {
  wi_entries : entries_ok (core c);
  wi_below id t bf : tasks c !! id = Some t → task_fid t = Some bf →
    bf < next_backing (core c);
  wi_distinct id1 id2 t1 t2 bf : tasks c !! id1 = Some t1 → tasks c !! id2 = Some t2 →
    task_fid t1 = Some bf → task_fid t2 = Some bf → id1 = id2;
}.

(** The task of [id] moves on without a new backing fid. *)
Lemma inv_move c id t s :
  walks_inv c → no_new_reservation (core c) s →
  (∀ bf, task_fid t = Some bf →
     ∃ t0, tasks c !! id = Some t0 ∧ task_fid t0 = Some bf) →
  walks_inv (mkConfig s (<[id := t]> (tasks c))).
Proof.
  intros [He Hb Hd] Hn Ht. constructor; simpl.
  - by eapply entries_ok_no_new.
  - intros id' t' bf [[<- <-]|[_ Hid]]%lookup_insert_Some Hf.
    + destruct (Ht bf Hf) as (t0 & H0 & Hf0). specialize (Hb _ _ _ H0 Hf0).
      destruct Hn. lia.
    + specialize (Hb _ _ _ Hid Hf). destruct Hn. lia.
  - intros id1 id2 t1 t2 bf [[<- <-]|[Hne1 H1]]%lookup_insert_Some
      [[<- <-]|[Hne2 H2]]%lookup_insert_Some Hf1 Hf2; [done| | |by eapply Hd].
    + destruct (Ht bf Hf1) as (t0 & H0 & Hf0). by eapply Hd.
    + destruct (Ht bf Hf2) as (t0 & H0 & Hf0). by eapply Hd.
Qed.

(** The task of [id] gets the next backing fid. *)
Lemma inv_fresh c id t s :
  walks_inv c → one_reservation (core c) s →
  task_fid t = Some (next_backing (core c)) →
  walks_inv (mkConfig s (<[id := t]> (tasks c))).
Proof.
  intros [He Hb Hd] Hn Ht. constructor; simpl.
  - by eapply entries_ok_one.
  - destruct Hn as [Hn _]. intros id' t' bf [[<- <-]|[_ Hid]]%lookup_insert_Some Hf.
    + simplify_eq. lia.
    + specialize (Hb _ _ _ Hid Hf). lia.
  - intros id1 id2 t1 t2 bf [[<- <-]|[Hne1 H1]]%lookup_insert_Some
      [[<- <-]|[Hne2 H2]]%lookup_insert_Some Hf1 Hf2; [done| | |by eapply Hd].
    + specialize (Hb _ _ _ H2 Hf2). simplify_eq. lia.
    + specialize (Hb _ _ _ H1 Hf1). simplify_eq. lia.
Qed.

Lemma inv_core c s :
  walks_inv c → no_new_reservation (core c) s → walks_inv (mkConfig s (tasks c)).
Proof.
  intros [He Hb Hd] Hn. constructor; simpl; [by eapply entries_ok_no_new| |done].
  intros id t bf Hid Hf. specialize (Hb _ _ _ Hid Hf). destruct Hn. lia.
Qed.

(** What a step does: a task moves on with the backing fid it has or with none,
    a task gets the next backing fid, or no task is concerned. *)
Inductive step_kind (c c' : config) : Prop :=
  | kind_move id t :
      no_new_reservation (core c) (core c') → tasks c' = <[id := t]> (tasks c) →
      (∀ bf, task_fid t = Some bf →
         ∃ t0, tasks c !! id = Some t0 ∧ task_fid t0 = Some bf) →
      step_kind c c'
  | kind_fresh id t :
      one_reservation (core c) (core c') → tasks c' = <[id := t]> (tasks c) →
      task_fid t = Some (next_backing (core c)) → step_kind c c'
  | kind_core :
      no_new_reservation (core c) (core c') → tasks c' = tasks c → step_kind c c'.

Lemma step_has_kind c c' : walks_inv c → walk_step c c' → step_kind c c'.
Proof.
  intros Hinv Hstep.
  destruct Hstep as [c id f newfid names s p first rest pw Hid Hr
    |c id f newfid names s q Hid Hr|c id f newfid names s e Hid Hr
    |c id t rest pw s q Hid Hph Hw|c id t rest pw s1 walked s Hid Hph Hw Hq Hk
    |c id t rest pw bf s o Hid Hph Hp Hh Hk|c id t rest pw bf s1 r s o Hid Hph Hp Hh Hw Hk
    |c id t pw q bf s r Hid Hph Hp Hk|c id t r rest pw s pw' Hid Hph Hk
    |c id t r rest pw s e Hid Hph Hk|c id t pw s r Hid Hph Hk|c req s r Hreq Hk|c g].
  - apply reserve_walk_forward in Hr as [H1 H2]. by eapply kind_fresh.
  - eapply kind_move; [by eapply reserve_walk_rest|done|done].
  - eapply kind_move; [by eapply reserve_walk_rest|done|done].
  - eapply kind_move; [by eapply step_rel_elim; [apply pw_wait_no_new|]|done|].
    intros bf Hbf. exists t. split; [done|]. unfold task_fid. by rewrite Hph.
  - eapply kind_move; [|done|].
    + etrans; [by eapply step_rel_elim; [apply pw_wait_no_new|]|].
      by eapply step_rel_elim; [apply pw_close_backing_no_new|].
    + intros bf Hbf. exists t. split; [done|]. unfold task_fid. by rewrite Hph.
  - eapply kind_move; [by eapply step_rel_elim; [apply pw_close_no_new|]|done|done].
  - eapply kind_move; [|done|done].
    etrans; [by eapply step_rel_elim; [apply pw_wait_no_new|]|].
    by eapply step_rel_elim; [apply pw_close_no_new|].
  - eapply kind_move; [by eapply step_rel_elim; [apply publish_no_new|]|done|done].
  - destruct (next_reservation_ok _ _ _ _ _ _ (wi_entries _ Hinv) Hk) as (H1 & H2 & _).
    by eapply kind_fresh.
  - eapply kind_move; [by eapply next_reservation_err|done|done].
  - eapply kind_move; [by eapply step_rel_elim; [apply fallback_no_new|]|done|done].
  - apply kind_core; [|done]. by eapply step_rel_elim; [by apply other_no_new|].
  - apply kind_core; [|done]. split; [done|]. by intros.
Qed.

Lemma step_inv c c' : walks_inv c → walk_step c c' → walks_inv c'.
Proof.
  intros Hinv Hstep. destruct (step_has_kind _ _ Hinv Hstep) as [id t Hn Ht Hi|id t Hn Ht Hi|Hn Ht];
    destruct c' as [s' ts']; simpl in *; subst.
  - by apply inv_move.
  - by apply inv_fresh.
  - by apply inv_core.
Qed.

Lemma walks_inv_init n gen next w : walks_inv (walk_init n gen next w).
Proof.
  constructor; simpl.
  - intros f e Hf. simpl in Hf. by apply lookup_singleton_Some in Hf as [<- <-].
  - by intros id t bf Hid%lookup_empty_Some.
  - by intros id1 id2 t1 t2 bf Hid%lookup_empty_Some.
Qed.

(** ** A walk that lost its reservation *)

(** Task [id] has not returned a qid and its reservation is gone. *)
Definition lost (id : nat) (c : config) : Prop :=
  ∃ t, tasks c !! id = Some t ∧ (∀ q, t_phase t ≠ Finished (Ok q)) ∧
    ∀ bf, task_fid t = Some bf → holds (t_newfid t) bf (core c) = false.

Lemma publish_lost newfid p pw bf q s s' r :
  holds newfid bf s = false → publish tree_call newfid p pw bf q s = (s', r) →
  ∀ q, r ≠ Ok q.
Proof.
  intros Hh. unfold publish. mrun. rewrite Hh. simpl.
  destruct (pw_close _ _ _) as [s1 []]; intros [= <- <-]; done.
Qed.
Lemma fallback_lost newfid p pw s s' r :
  (∀ bf, pw_fid pw = Some bf → holds newfid bf s = false) →
  walk_fallback tree_call hash_synthetic newfid p pw s = (s', r) → ∀ q, r ≠ Ok q.
Proof.
  intros Hh. unfold walk_fallback. mrun.
  destruct (bool_decide (p = []) || is_synthetic_dir p s).
  - destruct (pw_fid pw) as [bf|].
    + rewrite (Hh bf eq_refl). simpl.
      destruct (pw_drop _ _ _) as [s1 []]; intros [= <- <-]; done.
    + simpl. destruct (pw_drop _ _ _) as [s1 []]; intros [= <- <-]; done.
  - destruct (pw_close _ _ _) as [s1 [[]| | |]]; intros [= <- <-]; done.
Qed.

Lemma step_lost c c' id : walks_inv c → walk_step c c' → lost id c → lost id c'.
Proof.
  intros Hinv Hstep (t0 & Ht0 & Hph0 & Hl0).
  assert (Hother : ∀ bf, task_fid t0 = Some bf → holds (t_newfid t0) bf (core c') = false).
  { intros bf Hbf. specialize (Hl0 bf Hbf). pose proof (wi_below _ Hinv _ _ _ Ht0 Hbf).
    destruct (step_has_kind _ _ Hinv Hstep) as [? ? Hn _ _|? ? Hn _ _|Hn _].
    - by eapply holds_no_new. - eapply holds_one; [done|lia|done].
    - by eapply holds_no_new. }
  assert (Hkeep : tasks c' !! id = Some t0 → lost id c') by (intros; by exists t0).
  destruct Hstep as [c id' f newfid names s p first rest pw Hid Hr
    |c id' f newfid names s q Hid Hr|c id' f newfid names s e Hid Hr
    |c id' t rest pw s q Hid Hph Hw|c id' t rest pw s1 walked s Hid Hph Hw Hq Hk
    |c id' t rest pw bf s o Hid Hph Hp Hh Hk|c id' t rest pw bf s1 r s o Hid Hph Hp Hh Hw Hk
    |c id' t pw q bf s r Hid Hph Hp Hk|c id' t r rest pw s pw' Hid Hph Hk
    |c id' t r rest pw s e Hid Hph Hk|c id' t pw s r Hid Hph Hk|c req s r Hreq Hk|c g];
    simpl in Hkeep; try (by apply Hkeep);
    (destruct (decide (id' = id)) as [->|Hne];
      [try congruence|by apply Hkeep; rewrite lookup_insert_ne]);
    assert (t = t0) as -> by congruence;
    (eexists; split; [apply lookup_insert_eq|]; simpl; unfold task_fid in *;
     rewrite Hph in *; simpl in *).
  - done.
  - done.
  - done.
  - done.
  - split; [|done]. intros q' [= ->]. by eapply publish_lost; [by apply Hl0|exact Hk|].
  - exfalso.
    destruct (next_reservation_ok _ _ _ _ _ _ (wi_entries _ Hinv) Hk) as (_ & _ & bf & Hp & Hh).
    rewrite (Hl0 bf Hp) in Hh. done.
  - done.
  - split; [|done]. intros q' [= ->]. by eapply fallback_lost; [exact Hl0|exact Hk|].
Qed.

Lemma call_fids r req s s' a : call tree_call r req s = (s', a) → m_fids s' = m_fids s.
Proof. unfold call. destruct (resolved_call _ _ _ _). by intros [= <- _]. Qed.

(** After a clunk no walk holds the fid any more. *)
Lemma clunk_clears f bf s s' r :
  entries_ok s → f ≠ ROOT → m_clunk tree_call f s = (s', r) → holds f bf s' = false.
Proof.
  intros Hs Hf. unfold m_clunk. mrun. rewrite bool_decide_eq_false_2 by done.
  assert (∀ s1, m_fids s1 !! f = None → holds f bf s1 = false) as Hnone.
  { intros s1 H1. unfold holds. by rewrite H1. }
  destruct (m_fids s !! f) as [e|] eqn:He; [|intros [= <- _]; auto].
  destruct (reserved e && negb (walk_cancel e)) eqn:Hc.
  - intros [= <- _]. unfold holds. rewrite He.
    apply andb_true_iff in Hc as [Hr Hc]. rewrite Hr. simpl.
    destruct (e_backing e) as [b|] eqn:Hb; [|done]. exfalso.
    destruct (Hs f e He) as [Hx _]; [|by rewrite Hx in Hc].
    unfold walk_entry. by rewrite Hb, Hr.
  - destruct (e_backing e) as [b|]; [|intros [= <- _]; apply Hnone, lookup_delete_eq].
    unfold mtry. destruct (call _ _ _ _) as [s1 a] eqn:Hcall. apply call_fids in Hcall.
    assert (holds f bf s1 = false) as Hh by (apply Hnone; rewrite Hcall; apply lookup_delete_eq).
    destruct a as [x|e'| |]; [destruct x|destruct (_ && walk_cancel e)|..];
      by intros [= <- _].
Qed.

(** C4: a clunked walk is never published. Take any interleaving of walks and
    other requests of one namespace, a walk that has not returned in it, and a
    clunk of that walk's new fid, whatever the clunk returns. Whatever happens
    afterwards, late answers of the backing servers, union fallback and reuse of
    the fid number by other walks included, that walk never returns a qid and so
    never binds the fid for its caller. *)
Theorem clunked_walk_never_published n gen next w c id t bf s r c' :
  rtc walk_step (walk_init n gen next w) c →
  tasks c !! id = Some t → task_fid t = Some bf → t_newfid t ≠ ROOT →
  m_clunk tree_call (t_newfid t) (core c) = (s, r) →
  rtc walk_step (mkConfig s (tasks c)) c' →
  ∃ t', tasks c' !! id = Some t' ∧ ∀ q, t_phase t' ≠ Finished (Ok q).
Proof.
  intros Hreach Hid Hbf Hroot Hclunk Hrun.
  assert (walks_inv c) as Hinv.
  { assert (∀ c0 c1, rtc walk_step c0 c1 → walks_inv c0 → walks_inv c1) as Hgo
      by (induction 1; eauto using step_inv).
    eapply Hgo; [exact Hreach|apply walks_inv_init]. }
  set (c1 := mkConfig s (tasks c)) in *.
  assert (lost id c1) as Hlost.
  { exists t. split_and!; [done| |].
    - intros q Hq. unfold task_fid in Hbf. by rewrite Hq in Hbf.
    - intros bf' _. eapply clunk_clears; [apply Hinv|done|exact Hclunk]. }
  assert (walks_inv c1) as Hinv1.
  { apply inv_core; [done|]. eapply (step_rel_elim no_new_reservation); [|exact Hclunk].
    unfold m_clunk. nsteps. }
  assert (∀ c0 c1, rtc walk_step c0 c1 → walks_inv c0 → lost id c0 → lost id c1) as Hgo.
  { induction 1; eauto using step_inv, step_lost. }
  destruct (Hgo _ _ Hrun Hinv1 Hlost) as (t' & ? & ? & _). eauto.
Qed.
End walks.

(** A server that accepts every walk; a walk begun, clunked, then answered. *)
Definition walk_server (t : unit) (req : Request) : Op unit Response :=
  match req with
  | WalkReq _ _ _ => mret (WalkResp (mkQid Dir 0 1))
  | ClunkReq _ => mret ClunkResp
  | _ => mfail Unsupported
  end.
Definition one_mount : MountSt unit unit :=
  from_live_namespace (mount "/a" tt AccessReadWrite ns_new) 0 1 tt.
Definition begun : MountSt unit unit :=
  (reserve_walk (λ _, 0) ROOT 1 ["a"] one_mount).1.
Definition begun_task : task (Tree := unit) :=
  mkTask 1 ["a"] (InFlight [] (mkPending 1 (mkResolved tt [] AccessReadWrite) (Some 1))).

Lemma clunked_walk_never_published_witness :
  let c := mkConfig begun {[0%nat := begun_task]} in
  let s := (m_clunk walk_server 1 begun).1 in
  let answered := mkTask 1 ["a"]
    (Answer (mkPending 1 (mkResolved tt [] AccessReadWrite) (Some 1)) (mkQid Dir 0 1)) in
  let c' := mkConfig s (<[0%nat := answered]> (tasks c)) in
  ∃ t', tasks c' !! 0%nat = Some t' ∧ ∀ q, t_phase t' ≠ Finished (Ok q).
Proof.
  intros c s answered c'.
  apply (clunked_walk_never_published walk_server (λ _, 0) 2
    (mount "/a" tt AccessReadWrite ns_new) 0 1 tt c 0%nat begun_task 1 s (Ok tt) c').
  - apply rtc_once.
    apply (step_begin walk_server (λ _, 0) 2 (walk_init _ 0 1 tt) 0%nat ROOT 1 ["a"]
      begun ["a"] (mkResolved tt [] AccessReadWrite) []
      (mkPending 1 (mkResolved tt [] AccessReadWrite) (Some 1))); vm_compute; done.
  - done.
  - done.
  - done.
  - vm_compute. done.
  - apply rtc_once.
    apply (step_reply walk_server (λ _, 0) 2 (mkConfig s (tasks c)) 0%nat begun_task []
      (mkPending 1 (mkResolved tt [] AccessReadWrite) (Some 1)) s (mkQid Dir 0 1));
      vm_compute; done.
Defined.
