(* ===== verification/ProcFs.v ===== *)
(** * The process file system
      (crates/kernel/src/procfs.rs, crates/kernel/src/procfs/file_server.rs)

    One shared [ProcState] behind every view of [/proc]; a [View] is what one
    [ProcFs] value carries beside it. A child namespace mounts a new view of the
    same device, so mounted trees are view ids ([ProcView]) or anything else
    ([OtherTree]). Live namespaces are shared handles, kept in a store. The
    notifications sent to observers are logged in order. View ids and pids are
    not wrapped at 64 bits. serde_json is a parameter: the exec-spec parser and
    the descriptor-table printer. *)
From S2P Require Import Prelude RustStd ApTypes ApServer Namespace Process.

Inductive ptree (X : Type) : Type := ProcView (view : Z) | OtherTree (x : X).
Arguments ProcView {_} _.
Arguments OtherTree {_} _.

(** [Node] *)
Inductive PNode : Set :=
  | PRoot | PClone | PSelfProc (p : Pid) | PSelfNamespace | PProc (p : Pid)
  | PStatus (p : Pid) | PParent (p : Pid) | PCredentials (p : Pid) | PExit (p : Pid)
  | PCtl (p : Pid) | PIoDir (p : Pid) | PInput (p : Pid) | POutput (p : Pid)
  | PIoEvents (p : Pid) | PNamespaceInfo (p : Pid) | PDescriptors (p : Pid).
Global Instance PNode_eq_dec : EqDecision PNode.
Proof. solve_decision. Defined.

Inductive ProcessEvent : Set :=
  | InputEvent (count : Z) | OutputEvent (count : Z) | StatusEvent (status : string).

Record ProcFid : Type := mkProcFid {
  pf_node : PNode;
  pf_mode : option OpenMode;
  clone_pid : option Pid;
  pf_buf : bytes;
  wrote : bool;
  write_failed : bool;
}.

(** [ProcFid::at] *)
Definition proc_fid_at (n : PNode) : ProcFid := mkProcFid n None None [] false false.

(** [ProcFid::buffer_write] *)
Definition buffer_write (f : ProcFid) (offset : Offset) (data : bytes) (limit : Z) :
    ProcFid * result ErrorCode Z :=
  let failed := mkProcFid (pf_node f) (pf_mode f) (clone_pid f) (pf_buf f) (wrote f) true in
  match usize_try_from offset with
  | None => (failed, Err BadRequest)
  | Some start =>
      match checked_add64 start (len data) with
      | None => (failed, Err BadRequest)
      | Some stop =>
          if limit <? stop then (failed, Err BadRequest)
          else (mkProcFid (pf_node f) (pf_mode f) (clone_pid f)
                          (splice (pf_buf f) start data) true (write_failed f),
                Ok (as_u32 (len data)))
      end
  end.

Definition CHILD_PID_PLACEHOLDER : string := "<child-pid>".
Definition MAX_EXEC_SPEC_BYTES : Z := Z.shiftl 1 16.
Definition MAX_PROCESS_INPUT_BYTES : Z := Z.shiftl 1 20.

(** [tagged_identity] and [node_identity] *)
Definition tagged_identity (tag id : Z) : Z := Z.lor (Z.shiftl tag 48) id.
Definition node_identity (n : PNode) : FileKind * Z :=
  match n with
  | PRoot => (Dir, 0)
  | PClone => (Clone, 1)
  | PSelfProc _ => (Dir, 0)
  | PSelfNamespace => (File, 0)
  | PProc p => (Dir, tagged_identity 1 p)
  | PIoDir p => (Dir, tagged_identity 2 p)
  | POutput p => (StreamKind, tagged_identity 3 p)
  | PStatus p => (File, tagged_identity 4 p)
  | PParent p => (File, tagged_identity 5 p)
  | PCredentials p => (File, tagged_identity 6 p)
  | PExit p => (File, tagged_identity 7 p)
  | PCtl p => (File, tagged_identity 8 p)
  | PNamespaceInfo p => (File, tagged_identity 9 p)
  | PInput p => (StreamKind, tagged_identity 10 p)
  | PIoEvents p => (StreamKind, tagged_identity 11 p)
  | PDescriptors p => (File, tagged_identity 12 p)
  end.

Definition is_writable (n : PNode) : bool :=
  match n with PClone | PCtl _ | PInput _ | POutput _ => true | _ => false end.

Definition valid_descriptor_path (p : string) : bool :=
  starts_with "/" p &&
  negb (existsb (λ c, bool_decide (c = ".") || bool_decide (c = "..")) (split_on "/" p)).

Definition parse_pid (name : string) : option Pid := parse_u64 name.

(** Frames of the input stream and records of the event stream. *)
Definition frame (payload : bytes) : bytes :=
  into_bytes (dec_string_Z (len payload) +:+ String "010" "") ++ payload.
Definition io_record (kind : string) (count : Z) : bytes :=
  into_bytes (kind +:+ ":" +:+ dec_string_Z count +:+ String "010" "").

Section procfs.
Context {X : Type}.
Local Abbreviation Tree := (ptree X).

Inductive NamespaceSource : Type :=
  | Snapshot (n : Namespace Tree) | Live (handle : Z).

Record View : Type := mkView {
  view_id : Z;
  root_node : PNode;
  ctx_parent : option Pid;
  ctx_namespace : NamespaceSource;
  ctx_credentials : Credentials;
  runner : bool;
}.

(** A sink and the notifications it is sent. *)
Inductive notification : Type :=
  | EventNote (e : ProcessEvent)
  | IoNote (input : bool) (count : Z)
  | InputNote (count : Z)
  | OutputNote (count : Z).

(** What sinks have been sent, and the deliveries under way: each is the rest of a
    loop of [publish_process_event] or, as a replay, of a subscription. A replay to
    an ordered observer holds the observer's mutex until it is through. *)
Definition note_to : Type := Z * Pid * notification.
Record Delivery : Type := mkDelivery { dl_replay : bool; dl_rest : list note_to }.
Record Sinks : Type := mkSinks { sk_delivered : list note_to; under_way : list Delivery }.

Record ProcState : Type := mkProc {
  table : ProcessTable Tree;
  p_fids : gmap (Z * Fid) ProcFid;
  live_namespaces : gmap Pid Z;
  inputs : gmap Pid Stream.t;
  outputs : gmap Pid Stream.t;
  io_events : gmap Pid Stream.t;
  event_history : gmap Pid (list ProcessEvent);
  event_observers : gmap Pid (list Z);
  io_observers : gmap Pid (list Z);
  input_observers : gmap Pid (list Z);
  output_observers : gmap Pid (list Z);
  runner_tasks : gset Pid;
  proc_views : gmap Z View;
  next_view : Z;
  lives : gmap Z (Namespace Tree * Z);
  sinks : Sinks;
}.

Definition set_table (g : ProcessTable Tree → ProcessTable Tree) (s : ProcState) : ProcState :=
  mkProc (g (table s)) (p_fids s) (live_namespaces s) (inputs s) (outputs s) (io_events s)
    (event_history s) (event_observers s) (io_observers s) (input_observers s)
    (output_observers s) (runner_tasks s) (proc_views s) (next_view s) (lives s) (sinks s).
Definition set_p_fids (g : gmap (Z * Fid) ProcFid → gmap (Z * Fid) ProcFid)
    (s : ProcState) : ProcState :=
  mkProc (table s) (g (p_fids s)) (live_namespaces s) (inputs s) (outputs s) (io_events s)
    (event_history s) (event_observers s) (io_observers s) (input_observers s)
    (output_observers s) (runner_tasks s) (proc_views s) (next_view s) (lives s) (sinks s).
(** [inputs], [outputs], [io_events] and [event_history] *)
Definition set_streams (i o e : gmap Pid Stream.t → gmap Pid Stream.t)
    (h : gmap Pid (list ProcessEvent) → gmap Pid (list ProcessEvent))
    (s : ProcState) : ProcState :=
  mkProc (table s) (p_fids s) (live_namespaces s) (i (inputs s)) (o (outputs s))
    (e (io_events s)) (h (event_history s)) (event_observers s) (io_observers s)
    (input_observers s) (output_observers s) (runner_tasks s) (proc_views s) (next_view s)
    (lives s) (sinks s).
Definition set_observers (ev io inp out : gmap Pid (list Z) → gmap Pid (list Z))
    (s : ProcState) : ProcState :=
  mkProc (table s) (p_fids s) (live_namespaces s) (inputs s) (outputs s) (io_events s)
    (event_history s) (ev (event_observers s)) (io (io_observers s))
    (inp (input_observers s)) (out (output_observers s)) (runner_tasks s) (proc_views s)
    (next_view s) (lives s) (sinks s).
Definition set_runner_tasks (g : gset Pid → gset Pid) (s : ProcState) : ProcState :=
  mkProc (table s) (p_fids s) (live_namespaces s) (inputs s) (outputs s) (io_events s)
    (event_history s) (event_observers s) (io_observers s) (input_observers s)
    (output_observers s) (g (runner_tasks s)) (proc_views s) (next_view s) (lives s) (sinks s).
Definition set_views (g : gmap Z View → gmap Z View) (n : Z) (s : ProcState) : ProcState :=
  mkProc (table s) (p_fids s) (live_namespaces s) (inputs s) (outputs s) (io_events s)
    (event_history s) (event_observers s) (io_observers s) (input_observers s)
    (output_observers s) (runner_tasks s) (g (proc_views s)) n (lives s) (sinks s).
Definition set_lives (l : gmap Pid Z → gmap Pid Z)
    (g : gmap Z (Namespace Tree * Z) → gmap Z (Namespace Tree * Z)) (s : ProcState) : ProcState :=
  mkProc (table s) (p_fids s) (l (live_namespaces s)) (inputs s) (outputs s) (io_events s)
    (event_history s) (event_observers s) (io_observers s) (input_observers s)
    (output_observers s) (runner_tasks s) (proc_views s) (next_view s) (g (lives s)) (sinks s).
Definition set_sinks (g : Sinks → Sinks) (s : ProcState) : ProcState :=
  mkProc (table s) (p_fids s) (live_namespaces s) (inputs s) (outputs s) (io_events s)
    (event_history s) (event_observers s) (io_observers s) (input_observers s)
    (output_observers s) (runner_tasks s) (proc_views s) (next_view s) (lives s)
    (g (sinks s)).
Definition delivered (s : ProcState) : list note_to := sk_delivered (sinks s).
(** A loop over observers, or over the history, begins. *)
Definition begin_delivery (replay : bool) (notes : list note_to) : ProcState → ProcState :=
  set_sinks (λ k, mkSinks (sk_delivered k) (under_way k ++ [mkDelivery replay notes])).

(** ** Live namespaces and spawner views *)

Definition live_at (h : Z) (s : ProcState) : Namespace Tree * Z :=
  default (ns_new, 0) (lives s !! h).

Definition source_snapshot (src : NamespaceSource) (s : ProcState) : Namespace Tree * Z :=
  match src with Snapshot n => (n, 0) | Live h => live_at h s end.
Definition source_generation (src : NamespaceSource) (s : ProcState) : Z :=
  match src with Snapshot _ => 0 | Live h => (live_at h s).2 end.

(** [ProcFs::new] on a fresh device *)
Definition proc_new (view : Z) : ProcState * View :=
  let v := mkView view PRoot None (Snapshot ns_new) credentials_system false in
  (mkProc table_new ∅ ∅ ∅ ∅ ∅ ∅ ∅ ∅ ∅ ∅ ∅ {[view := v]} (view + 1) ∅ (mkSinks [] []), v).

(** A view of the same device under the next view id. *)
Definition new_view (root : PNode) (parent : option Pid) (src : NamespaceSource)
    (creds : Credentials) (run : bool) (s : ProcState) : ProcState * View :=
  let v := mkView (next_view s) root parent src creds run in
  (set_views (insert (next_view s) v) (next_view s + 1) s, v).
Definition for_spawner (self : View) (parent : option Pid) (n : Namespace Tree)
    (creds : Credentials) (s : ProcState) : ProcState * View :=
  new_view PRoot parent (Snapshot n) creds (runner self) s.
Definition for_live_spawner (self : View) (parent : option Pid) (handle : Z)
    (creds : Credentials) (s : ProcState) : ProcState * View :=
  new_view PRoot parent (Live handle) creds (runner self) s.
Definition clone_file_for_spawner (self : View) (parent : option Pid) (n : Namespace Tree)
    (creds : Credentials) (s : ProcState) : ProcState * View :=
  new_view PClone parent (Snapshot n) creds (runner self) s.

Definition mount_access_at (n : Namespace Tree) (path : string) : option Access :=
  r_access <$> last (union_at path n).

Definition rebind_proc_spawners (self : View) (n : Namespace Tree) (p : Pid)
    (s : ProcState) : ProcState * Namespace Tree :=
  let '(s, n) :=
    match mount_access_at n "/proc" with
    | Some a =>
        let '(s, v) := for_spawner self (Some p) n (ctx_credentials self) s in
        (s, mount "/proc" (ProcView (view_id v)) a (unmount "/proc" n))
    | None => (s, n)
    end in
  match mount_access_at n "/proc/clone" with
  | Some a =>
      let '(s, v) := clone_file_for_spawner self (Some p) n (ctx_credentials self) s in
      (s, mount "/proc/clone" (ProcView (view_id v)) a (unmount "/proc/clone" n))
  | None => (s, n)
  end.

Definition child_namespace_for_spawn (self : View) (p : Pid) (s : ProcState) :
    ProcState * (Namespace Tree * Z) :=
  let '(n, gen) := source_snapshot (ctx_namespace self) s in
  let child := child_with_path_substitution CHILD_PID_PLACEHOLDER (dec_string_Z p) n in
  let '(s, child) := rebind_proc_spawners self child p s in
  (s, (child, gen)).

(** ** Events *)

(** The section under the lock: the event joins the history and the observers
    registered now are to be sent it, one after the other. *)
Definition publish_process_event (p : Pid) (e : ProcessEvent) (s : ProcState) : ProcState :=
  let s := set_streams id id id
    (λ h, <[p := default [] (h !! p) ++ [e]]> h) s in
  let to (m : gmap Pid (list Z)) (note : notification) :=
    (λ o, (o, p, note)) <$> default [] (m !! p) in
  let io_notes :=
    match e with
    | InputEvent count =>
        to (input_observers s) (InputNote count) ++ to (io_observers s) (IoNote true count)
    | OutputEvent count =>
        to (output_observers s) (OutputNote count) ++ to (io_observers s) (IoNote false count)
    | StatusEvent _ => []
    end in
  begin_delivery false (io_notes ++ to (event_observers s) (EventNote e)) s.

Definition push_observer (p : Pid) (o : Z) (m : gmap Pid (list Z)) : gmap Pid (list Z) :=
  <[p := default [] (m !! p) ++ [o]]> m.

(** What each kind of subscription replays of the history. *)
Definition output_note (e : ProcessEvent) : option notification :=
  match e with OutputEvent count => Some (OutputNote count) | _ => None end.
Definition input_note (e : ProcessEvent) : option notification :=
  match e with InputEvent count => Some (InputNote count) | _ => None end.
Definition io_note (e : ProcessEvent) : option notification :=
  match e with
  | InputEvent count => Some (IoNote true count)
  | OutputEvent count => Some (IoNote false count)
  | StatusEvent _ => None
  end.
Definition event_note (e : ProcessEvent) : option notification := Some (EventNote e).

(** The section under the lock: the observer is registered and is to be sent what the
    history holds now. *)
Definition subscribe (add : Pid → ProcState → ProcState)
    (note : ProcessEvent → option notification) (pid_text : string) (o : Z) :
    Op ProcState unit :=
  p ← mlift (parse_pid pid_text) BadRequest;
  s ← mget;
  match get p (table s) with
  | None => mfail NotFound
  | Some _ =>
      let replay := omap note (default [] (event_history s !! p)) in
      mmodify (add p);;
      mmodify (begin_delivery true ((λ n, (o, p, n)) <$> replay))
  end.
Definition subscribe_process_output (pid_text : string) (o : Z) : Op ProcState unit :=
  subscribe (λ p, set_observers id id id (push_observer p o)) output_note pid_text o.
Definition subscribe_process_input (pid_text : string) (o : Z) : Op ProcState unit :=
  subscribe (λ p, set_observers id id (push_observer p o) id) input_note pid_text o.
Definition subscribe_process_io (pid_text : string) (o : Z) : Op ProcState unit :=
  subscribe (λ p, set_observers id (push_observer p o) id id) io_note pid_text o.
Definition subscribe_process_events (pid_text : string) (o : Z) : Op ProcState unit :=
  subscribe (λ p, set_observers (push_observer p o) id id id) event_note pid_text o.

(** One turn of such a loop. [OrderedProcessEventObserver::deliver] and its twin for
    [io] wait for the replay to their observer. *)
Definition is_ordered (n : notification) : bool :=
  match n with EventNote _ | IoNote _ _ => true | InputNote _ | OutputNote _ => false end.
Definition replaying (o : Z) (s : ProcState) : bool :=
  existsb (λ d, dl_replay d && existsb (λ x, x.1.1 =? o) (dl_rest d)) (under_way (sinks s)).
Definition deliver (n : nat) (s : ProcState) : option ProcState :=
  match under_way (sinks s) !! n with
  | Some (mkDelivery replay (x :: rest)) =>
      if is_ordered x.2 && negb replay && replaying x.1.1 s then None
      else Some (set_sinks (λ k, mkSinks (sk_delivered k ++ [x])
                                   (<[n := mkDelivery replay rest]> (under_way k))) s)
  | _ => None
  end.

(** ** Host operations *)

(** [LiveNamespace::mount] and the like on handle [h]: a change and its generation. *)
Definition live_change (h : Z) (g : Namespace Tree → Namespace Tree) (s : ProcState) :
    ProcState :=
  let '(n, gen) := live_at h s in
  set_lives id (insert h (g n, wrapping_add32 gen 1)) s.

Definition bind_live_namespace (p : Pid) (h : Z) (s : ProcState) : ProcState :=
  if isSome (get p (table s)) then
    set_table (bump_generation p)
      (set_lives (insert p h) id (live_change h id s))
  else s.

Definition record_exit (p : Pid) (code : Z) (s : ProcState) : ProcState :=
  let transitioned :=
    match get p (table s) with
    | Some pr => match status pr with Exited => false | Running => true end
    | None => false
    end in
  let s := set_table (exit p code) (set_runner_tasks (λ r, r ∖ {[p]}) s) in
  if transitioned then publish_process_event p (StatusEvent "exited") s else s.

Record ProcessFileSnapshot : Type := mkSnapshot {
  sn_status : Status;
  sn_exit_code : option Z;
  sn_output : bytes;
  sn_output_offset : Z;
  sn_io_events_offset : Z;
}.

(** The loop of [observe_process_files]: reads of at most [u32::MAX] bytes. *)
Fixpoint collect_output (fuel : nat) (st : Stream.t) (limit offset : Z) (acc : bytes) :
    result ErrorCode bytes :=
  match fuel with
  | O => Park
  | S fuel' =>
      if offset <? limit then
        match Stream.read st offset (Z.min (limit - offset) u32_max) with
        | Ok chunk =>
            if bool_decide (chunk = []) then Ok acc
            else collect_output fuel' st limit (offset + len chunk) (acc ++ chunk)
        | r => r
        end
      else Ok acc
  end.

Definition observe_process_files (fuel : nat) (p : Pid) (s : ProcState) :
    option (result ErrorCode ProcessFileSnapshot) :=
  pr ← get p (table s);
  let output_offset := default 0 (Stream.length <$> outputs s !! p) in
  let events_offset := default 0 (Stream.length <$> io_events s !! p) in
  let output :=
    match outputs s !! p with
    | Some st => collect_output fuel st output_offset 0 []
    | None => Ok []
    end in
  Some (result_map (λ b, mkSnapshot (status pr) (exit_code pr) b output_offset events_offset)
                   output).

Definition try_observe_process_lifecycle (p : Pid) (s : ProcState) :
    option (Status * option Z) :=
  pr ← get p (table s); Some (status pr, exit_code pr).

(** ** file_server.rs *)

(** [State::qid] *)
Definition proc_qid (n : PNode) (self : View) (s : ProcState) : Qid :=
  let '(k, path) := node_identity n in
  let version :=
    match n with
    | PRoot => listing_generation (table s)
    | PClone | POutput _ | PInput _ | PIoEvents _ => 0
    | PSelfProc p | PProc p | PIoDir p | PStatus p | PParent p | PCredentials p
    | PExit p | PCtl p | PDescriptors p => table_generation p (table s)
    | PNamespaceInfo p =>
        match live_namespaces s !! p with Some h => (live_at h s).2 | None => 0 end
    | PSelfNamespace => source_generation (ctx_namespace self) s
    end in
  let path :=
    match n with
    | PSelfProc _ => tagged_identity 13 (view_id self)
    | PSelfNamespace => tagged_identity 14 (view_id self)
    | _ => path
    end in
  mkQid k version path.

(** [State::node_of] *)
Definition proc_node_of (self : View) (f : Fid) : Op ProcState PNode :=
  if bool_decide (f = ROOT) then mret (root_node self)
  else s ← mget; pf ← mlift (p_fids s !! (view_id self, f)) NotFound; mret (pf_node pf).

(** The files of a process directory; [ns_file] is its namespace file. *)
Definition proc_dir_child (p : Pid) (ns_file : PNode) (name : string) :
    result ErrorCode PNode :=
  if bool_decide (name = "status") then Ok (PStatus p)
  else if bool_decide (name = "parent") then Ok (PParent p)
  else if bool_decide (name = "credentials") then Ok (PCredentials p)
  else if bool_decide (name = "exit") then Ok (PExit p)
  else if bool_decide (name = "ctl") then Ok (PCtl p)
  else if bool_decide (name = "io") then Ok (PIoDir p)
  else if bool_decide (name = "namespace") then Ok ns_file
  else if bool_decide (name = "descriptors") then Ok (PDescriptors p)
  else Err NotFound.

(** [State::child] *)
Definition proc_child (n : PNode) (name : string) (current : option Pid) (s : ProcState) :
    result ErrorCode PNode :=
  match n with
  | PRoot =>
      if bool_decide (name = "clone") then Ok PClone
      else if bool_decide (name = "self") then
        match current with
        | Some p => if isSome (get p (table s)) then Ok (PSelfProc p) else Err NotFound
        | None => Err NotFound
        end
      else
        match parse_pid name with
        | Some p => if isSome (get p (table s)) then Ok (PProc p) else Err NotFound
        | None => Err NotFound
        end
  | PProc p => proc_dir_child p (PNamespaceInfo p) name
  | PSelfProc p => proc_dir_child p PSelfNamespace name
  | PIoDir p =>
      if bool_decide (name = "input") then Ok (PInput p)
      else if bool_decide (name = "output") then Ok (POutput p)
      else if bool_decide (name = "events") then Ok (PIoEvents p)
      else Err NotFound
  | _ => Err NotDirectory
  end.

Definition access_text (a : Access) : string :=
  match a with AccessReadOnly => "ro" | AccessReadWrite => "rw" end.
Definition namespace_bytes (n : Namespace Tree) : bytes :=
  into_bytes (join (String "010" "")
    ((λ '(p, a), p +:+ " " +:+ access_text a) <$> describe n)).

Definition newline_list (l : list string) : bytes := into_bytes (join (String "010" "") l).

(** serde_json: the printer of a descriptor table and the exec-spec parser *)
Context (descriptors_json : gmap Z string → bytes).
Context (parse_exec : bytes → option ExecSpec).

(** [State::file_bytes] *)
Definition file_bytes (n : PNode) (current : option Pid) (src : NamespaceSource)
    (s : ProcState) : result ErrorCode bytes :=
  let proc p (k : Process Tree → bytes) : result ErrorCode bytes :=
    match get p (table s) with Some pr => Ok (k pr) | None => Err NotFound end in
  match n with
  | PRoot =>
      let self_name :=
        match current with
        | Some p => if isSome (get p (table s)) then ["self"] else []
        | None => []
        end in
      Ok (newline_list (["clone"] ++ self_name ++ (dec_string_Z <$> list_pids (table s))))
  | PSelfProc _ | PProc _ =>
      Ok (newline_list ["status"; "parent"; "credentials"; "exit"; "ctl"; "io";
                        "namespace"; "descriptors"])
  | PIoDir _ => Ok (newline_list ["input"; "output"; "events"])
  | PStatus p =>
      proc p (λ pr, into_bytes (match status pr with
                                | Running => "running" | Exited => "exited" end
                                +:+ String "010" ""))
  | PParent p => proc p (λ pr, into_bytes (default "" (dec_string_Z <$> parent pr)))
  | PCredentials p => proc p (λ pr, into_bytes (uname (credentials pr)))
  | PExit p => proc p (λ pr, into_bytes (default "" (dec_string_Z <$> exit_code pr)))
  | PNamespaceInfo p =>
      proc p (λ pr, namespace_bytes
        (match live_namespaces s !! p with
         | Some h => (live_at h s).1
         | None => p_namespace pr
         end))
  | PSelfNamespace => Ok (namespace_bytes (source_snapshot src s).1)
  | PDescriptors p => proc p (λ pr, descriptors_json (descriptors (exec pr)))
  | PClone | PCtl _ | PInput _ | POutput _ | PIoEvents _ => Err Unsupported
  end.

Fixpoint proc_walk_names (n : PNode) (names : list string) (current : option Pid) :
    Op ProcState PNode :=
  match names with
  | [] => mret n
  | name :: names' =>
      s ← mget;
      n' ← mresult (proc_child n name current s);
      proc_walk_names n' names' current
  end.

Definition proc_walk (self : View) (f newfid : Fid) (names : list string) :
    Op ProcState Qid :=
  s ← mget;
  if bool_decide (newfid = ROOT) || isSome (p_fids s !! (view_id self, newfid))
  then mfail BadRequest
  else
    start ← proc_node_of self f;
    n ← proc_walk_names start names (ctx_parent self);
    mmodify (set_p_fids (insert (view_id self, newfid) (proc_fid_at n)));;
    mret (proc_qid n self s).

(** The clone branch of [open]: allocate a pid and stage its namespace. *)
Definition begin_clone (self : View) : Op ProcState Pid := λ s,
  let '(s1, (n, gen)) := child_namespace_for_spawn self (next (table s)) s in
  let '(t, slot) := clone_begin_with_namespace_generation (ctx_parent self)
                      (ctx_credentials self) (λ _, (n, gen)) (table s1) in
  (set_table (λ _, t) s1, ok_or slot Io).

Definition proc_open (self : View) (f : Fid) (m : OpenMode) : Op ProcState Qid :=
  n ← proc_node_of self f;
  s ← mget;
  let key := (view_id self, f) in
  if bool_decide (f = ROOT) && negb (bool_decide (n = PClone))
  then mret (proc_qid n self s)
  else if match p_fids s !! key with Some pf => isSome (pf_mode pf) | None => false end
  then mfail BadRequest
  else if bool_decide (n = PClone) then
    if negb (mode_writes m) then mfail NoAccess
    else
      slot ← begin_clone self;
      s ← mget;
      let pf := default (proc_fid_at PClone) (p_fids s !! key) in
      mmodify (set_p_fids (insert key
        (mkProcFid (pf_node pf) (Some m) (Some slot) (pf_buf pf) (wrote pf)
                   (write_failed pf))));;
      mret (proc_qid n self s)
  else
    pf ← mlift (p_fids s !! key) NotFound;
    mmodify (set_p_fids (insert key
      (mkProcFid (pf_node pf) (Some m) (clone_pid pf) (pf_buf pf) (wrote pf)
                 (write_failed pf))));;
    mret (proc_qid n self s).

Definition read_stream (o : option Stream.t) (offset : Offset) (count : Z) :
    Op ProcState bytes :=
  st ← mlift o NotFound; mresult (Stream.read st offset count).

Definition proc_read (self : View) (f : Fid) (offset : Offset) (count : Z) :
    Op ProcState bytes :=
  s ← mget;
  match p_fids s !! (view_id self, f) ≫= clone_pid with
  | Some p => mret (slice (into_bytes (dec_string_Z p)) offset count)
  | None =>
      n ← proc_node_of self f;
      match n with
      | PInput p => read_stream (inputs s !! p) offset count
      | POutput p => read_stream (outputs s !! p) offset count
      | PIoEvents p => read_stream (io_events s !! p) offset count
      | _ =>
          b ← mresult (file_bytes n (ctx_parent self) (ctx_namespace self) s);
          mret (slice b offset count)
      end
  end.

(** [f.buffer_write] on the fid in the table. *)
Definition buffer_at (key : Z * Fid) (offset : Offset) (data : bytes) (limit : Z) :
    Op ProcState Z :=
  s ← mget;
  pf ← mlift (p_fids s !! key) NotFound;
  let '(pf', r) := buffer_write pf offset data limit in
  mmodify (set_p_fids (insert key pf'));;
  mresult r.

(** [stream.append] and [append_io_event] on the streams of a process *)
Definition append_to (p : Pid) (data : bytes) (m : gmap Pid Stream.t) : gmap Pid Stream.t :=
  match m !! p with Some st => <[p := Stream.append st data]> m | None => m end.

Definition proc_write (self : View) (f : Fid) (offset : Offset) (data : bytes) :
    Op ProcState Z :=
  n ← proc_node_of self f;
  s ← mget;
  let key := (view_id self, f) in
  let has_write_intent :=
    match p_fids s !! key with Some pf => opened_for_write (pf_mode pf) | None => false end in
  let count := as_u32 (len data) in
  match n with
  | PClone =>
      if negb has_write_intent then mfail NoAccess
      else
        pf ← mlift (p_fids s !! key) NotFound;
        if negb (isSome (clone_pid pf)) then mfail BadRequest
        else buffer_at key offset data MAX_EXEC_SPEC_BYTES
  | PCtl p =>
      if negb has_write_intent then mfail NoAccess
      else if bool_decide (data = into_bytes "cancel") ||
              bool_decide (data = into_bytes "interrupt") then
        mmodify (λ s, set_table (exit p 130) (set_runner_tasks (λ r, r ∖ {[p]}) s));;
        mmodify (publish_process_event p (StatusEvent "exited"));;
        mret count
      else mfail BadRequest
  | PInput _ =>
      if negb has_write_intent then mfail NoAccess
      else buffer_at key offset data MAX_PROCESS_INPUT_BYTES
  | POutput p =>
      if negb has_write_intent then mfail NoAccess
      else
        mlift (outputs s !! p) NotFound;;
        mlift (io_events s !! p) NotFound;;
        mmodify (set_streams id (append_to p data) (append_to p (io_record "output" count)) id);;
        mmodify (publish_process_event p (OutputEvent count));;
        mret count
  | _ => mfail Unsupported
  end.

Definition proc_stat (self : View) (f : Fid) : Op ProcState Stat :=
  n ← proc_node_of self f;
  s ← mget;
  let stream_len (o : option Stream.t) := default 0 (Stream.length <$> o) in
  let length :=
    match n with
    | PInput p => stream_len (inputs s !! p)
    | POutput p => stream_len (outputs s !! p)
    | PIoEvents p => stream_len (io_events s !! p)
    | PClone | PCtl _ => 0
    | _ => match file_bytes n (ctx_parent self) (ctx_namespace self) s with
           | Ok b => len b | _ => 0 end
    end in
  mret (mkStat "" (proc_qid n self s) length false (is_writable n)).

Definition proc_create (self : View) (f newfid : Fid) (name : string) (k : FileKind) :
    Op ProcState Qid := mfail Unsupported.
Definition proc_remove (self : View) (f : Fid) : Op ProcState unit := mfail Unsupported.

(** ** Commit on clunk *)

(** Drop the pending slot and reject the document. *)
Definition reject_spawn {A} (p : Pid) : Op ProcState A :=
  mmodify (set_table (discard p));; mfail BadRequest.

Definition descriptors_valid (ex : ExecSpec) (n : Namespace Tree) : bool :=
  forallb (λ '(number, path), (3 <=? number) && valid_descriptor_path path &&
                              isSome (resolve path n))
          (map_to_list (descriptors ex)).

(** The committed process starts with empty streams and an empty history. *)
Definition open_streams (p : Pid) : ProcState → ProcState :=
  set_streams (insert p Stream.new) (insert p Stream.new) (insert p Stream.new)
              (insert p []).

Definition commit_spawn (self : View) (p : Pid) (ex : ExecSpec) : Op ProcState Pid :=
  s ← mget;
  if negb (bool_decide (pending_namespace_generation p (table s) =
                        Some (generation (exec_namespace ex))))
  then reject_spawn p
  else
    match pending_namespace p (table s) with
    | None => reject_spawn p
    | Some pn =>
        match namespace_subset_from (exec_namespace ex) pn with
        | None => reject_spawn p
        | Some narrowed =>
            narrowed ← (λ s, let '(s, n) := rebind_proc_spawners self narrowed p s in
                             (s, Ok n));
            s ← mget;
            let '(t, replaced) := replace_pending_namespace p narrowed (table s) in
            match replaced with
            | None => reject_spawn p
            | Some _ =>
                mmodify (set_table (λ _, t));;
                match pending_namespace p t with
                | None => reject_spawn p
                | Some pn =>
                    if negb (descriptors_valid ex pn) then reject_spawn p
                    else
                      let '(t, committed) := commit p ex t in
                      committed ← mlift committed BadRequest;
                      mmodify (set_table (λ _, t));;
                      mlift (get committed t) Io;;
                      mmodify (open_streams committed);;
                      mret committed
                end
            end
        end
    end.

Definition proc_clunk (self : View) (f : Fid) : Op ProcState unit :=
  if bool_decide (f = ROOT) && negb (bool_decide (root_node self = PClone)) then mret tt
  else
    let key := (view_id self, f) in
    s ← mget;
    pf ← mlift (p_fids s !! key) NotFound;
    mmodify (set_p_fids (delete key));;
    if write_failed pf then
      match clone_pid pf with
      | Some p => reject_spawn p
      | None => mfail BadRequest
      end
    else
      match clone_pid pf with
      | Some p =>
          match parse_exec (pf_buf pf) with
          | None => reject_spawn p
          | Some ex =>
              committed ← commit_spawn self p ex;
              mmodify (publish_process_event committed (StatusEvent "running"));;
              if runner self then mmodify (set_runner_tasks (λ r, {[committed]} ∪ r))
              else mret tt
          end
      | None =>
          match pf_node pf with
          | PInput p =>
              if wrote pf then
                mlift (inputs s !! p) NotFound;;
                mlift (io_events s !! p) NotFound;;
                let count := as_u32 (len (pf_buf pf)) in
                mmodify (set_streams (append_to p (frame (pf_buf pf))) id
                                     (append_to p (io_record "input" count)) id);;
                mmodify (publish_process_event p (InputEvent count))
              else mret tt
          | _ => mret tt
          end
      end.

(** The runner's task reports its outcome, unless it was aborted. *)
Definition runner_finished (p : Pid) (output : bytes) (code : Z) (s : ProcState) :
    ProcState :=
  if bool_decide (p ∈ runner_tasks s) then
    let count := as_u32 (len output) in
    let s :=
      if bool_decide (output = []) then s
      else publish_process_event p (OutputEvent count)
             (set_streams id (append_to p output)
                          (append_to p (io_record "output" count)) id s) in
    let s := set_table (exit p code) (set_runner_tasks (λ r, r ∖ {[p]}) s) in
    publish_process_event p (StatusEvent "exited") s
  else s.

Definition ProcFs_FileServer (self : View) : FileServer ProcState :=
  {| fs_walk := proc_walk self; fs_open := proc_open self; fs_read := proc_read self;
     fs_write := proc_write self; fs_stat := proc_stat self;
     fs_create := proc_create self; fs_remove := proc_remove self;
     fs_clunk := proc_clunk self |}.
End procfs.
Arguments View : clear implicits.
Arguments ProcState : clear implicits.
Arguments NamespaceSource : clear implicits.

(** A spawn through the boot view: open the clone file, read the pid back, write
    the exec spec, clunk; the process appears with its namespace and descriptors. *)
Example spawn_session :
  let spec := mkExec "/bin/cat" ["a"] (mkManifest 0 []) {[3 := "/proc/1"]} in
  let '(s, v0) := proc_new (X := unit) 1 in
  let n := mount "/proc" (ProcView 1) AccessReadWrite ns_new in
  let spec' := mkExec "/bin/cat" ["a"] (from_snapshot n 0) {[3 := "/proc/1"]} in
  let parse := λ b, if bool_decide (b = into_bytes "spec") then Some spec' else Some spec in
  let '(s, v) := for_spawner v0 None n credentials_system s in
  let '(s, r1) := proc_walk v ROOT 1 ["clone"] s in
  let '(s, r2) := proc_open v 1 Write s in
  let '(s, r3) := proc_read (λ _, []) v 1 0 10 s in
  let '(s, r4) := proc_write v 1 0 (into_bytes "spec") s in
  let '(s, r5) := proc_clunk parse v 1 s in
  r3 = Ok (into_bytes "1") ∧ r5 = Ok tt ∧
  (mounts ∘ p_namespace <$> get 1 (table s)) =
    Some [mkMount ["proc"] (ProcView 4) AccessReadWrite].
Proof. vm_compute. done. Qed.
