(* ===== verification/ProcFsFacts.v ===== *)
(** * What the process file system guarantees (procfs.rs, file_server.rs)

    Spawning stays within the grant and is all or nothing; qid paths identify
    files; framed input can be taken apart again. *)
From S2P Require Import Prelude RustStd ApTypes ApServer Namespace NamespaceFacts Process ProcFs.

(** ** Rebinding a child's own [/proc] *)

Section rebind.
Context {X : Type}.
Local Abbreviation Tree := (ptree X).
Implicit Types (n : Namespace Tree) (self v : View X) (s : ProcState X) (t : Tree).

(** A view of the device that spawns children of [p] as [self]'s user. *)
Definition child_view (views : gmap Z (View X)) (self : View X) (p : Pid) (t : Tree) : Prop :=
  ∃ id v, t = ProcView id ∧ views !! id = Some v ∧ ctx_parent v = Some p ∧
          ctx_credentials v = ctx_credentials self.

(** Whatever a path resolves to in [n], it resolves to in [n0] with the same rest
    of the path and at least the same access; the tree is the same or [good]. *)
Definition covered (good : Tree → Prop) (n n0 : Namespace Tree) : Prop :=
  ∀ path r, r ∈ resolve_candidates path n →
  ∃ r0, r0 ∈ resolve_candidates path n0 ∧ rel r = rel r0 ∧
        access_le (r_access r) (r_access r0) ∧ (r_tree r = r_tree r0 ∨ good (r_tree r)).

Lemma access_le_trans a b c : access_le a b → access_le b c → access_le a c.
Proof. destruct a, b, c; simpl; tauto. Qed.

Lemma covered_trans good n2 n1 n0 :
  covered good n2 n1 → covered good n1 n0 → covered good n2 n0.
Proof.
  intros H21 H10 path r Hr. destruct (H21 path r Hr) as (r1 & Hr1 & Hrel & Hacc & Ht).
  destruct (H10 path r1 Hr1) as (r0 & Hr0 & Hrel0 & Hacc0 & Ht0).
  exists r0. split_and!; [done|congruence|by eapply access_le_trans|].
  destruct Ht as [Ht|?]; [|by right]. rewrite Ht. destruct Ht0; auto.
Qed.
Lemma covered_refl good n : covered good n n.
Proof. intros path r Hr. exists r. split_and!; auto. by destruct (r_access r). Qed.
Lemma covered_restrict good reqs n n' :
  restrict_to_mounts reqs n = Some n' → covered good n' n.
Proof.
  intros Hr path r Hc.
  destruct (restrict_candidates_le _ _ _ _ _ Hr Hc) as (r0 & ? & ? & ? & ?).
  exists r0. split_and!; auto.
Qed.

Lemma mount_access_at_mount path0 n a :
  mount_access_at n path0 = Some a →
  ∃ m, m ∈ mounts n ∧ m_prefix m = split_path path0 ∧ m_access m = a.
Proof.
  unfold mount_access_at, union_at. intros (r & Hr & ->)%fmap_Some.
  apply last_Some_elem_of in Hr. apply list_elem_of_fmap in Hr as (m & -> & Hm).
  apply list_elem_of_filter in Hm as [Hp Hm]. by exists m.
Qed.

(** Replacing the mounts at a path by a [good] tree with the access that the last
    of them had. *)
Lemma covered_rebind good path0 n a t :
  mount_access_at n path0 = Some a → good t →
  covered good (mount path0 t a (unmount path0 n)) n.
Proof.
  intros Ha Hgood path r Hr.
  apply mount_access_at_mount in Ha as (m0 & Hm0 & Hp0 & Ha0).
  apply candidates_longest_iff in Hr as (m & (Hin & Hp & Hmax) & ->).
  assert (Hlong : ∀ m', m' ∈ mounts n → m_prefix m' `prefix_of` split_path path →
            (length (m_prefix m') ≤ length (m_prefix m))%nat).
  { intros m' Hm' Hp'. destruct (decide (m_prefix m' = split_path path0)) as [Heq|Hne].
    - specialize (Hmax (mkMount (split_path path0) t a)). simpl in Hmax.
      rewrite Heq. rewrite Heq in Hp'. apply Hmax; [|done]. simpl.
      rewrite elem_of_app, list_elem_of_singleton. by right.
    - apply Hmax; [|done]. simpl. rewrite elem_of_app. left.
      by apply list_elem_of_filter. }
  simpl in Hin. apply elem_of_app in Hin as [Hin|Hin].
  - apply list_elem_of_filter in Hin as [_ Hin].
    exists (resolved_at (split_path path) m). split_and!; [|done|by destruct (m_access m)|by left].
    apply candidates_longest_iff. exists m. done.
  - apply list_elem_of_singleton in Hin as ->. simpl in *.
    exists (resolved_at (split_path path) m0).
    split_and!; [|simpl; by rewrite Hp0|simpl; rewrite Ha0; by destruct a|by right].
    apply candidates_longest_iff. exists m0. split; [|done].
    split_and!; [done|by rewrite Hp0|]. rewrite Hp0. done.
Qed.

(** Rebinding touches only the view store. *)
Lemma rebind_frame self n p s s' n' :
  rebind_proc_spawners self n p s = (s', n') →
  ∃ views k, s' = set_views (λ _, views) k s ∧
    (∀ good, (∀ t, child_view views self p t → good t) → covered good n' n).
Proof.
  unfold rebind_proc_spawners, for_spawner, clone_file_for_spawner, new_view.
  set (v1 := mkView (next_view s) PRoot (Some p) (Snapshot n) (ctx_credentials self) (runner self)).
  destruct (mount_access_at n "/proc") as [a|] eqn:Ha.
  - set (n1 := mount "/proc" (ProcView (view_id v1)) a (unmount "/proc" n)).
    cbn [next_view set_views proc_views].
    destruct (mount_access_at n1 "/proc/clone") as [b|] eqn:Hb; intros [= <- <-].
    + eexists _, _. split; [done|]. intros good Hgood.
      eapply covered_trans; apply covered_rebind; try done; apply Hgood.
      * eexists _, _. split_and!; [done|apply lookup_insert_eq|done..].
      * exists (next_view s), v1. split_and!; [done| |done..].
        rewrite lookup_insert_ne by lia. apply lookup_insert_eq.
    + eexists _, _. split; [done|]. intros good Hgood.
      apply covered_rebind; [done|]. apply Hgood.
      exists (next_view s), v1. split_and!; [done|apply lookup_insert_eq|done..].
  - destruct (mount_access_at n "/proc/clone") as [b|] eqn:Hb; intros [= <- <-].
    + eexists _, _. split; [done|]. intros good Hgood.
      apply covered_rebind; [done|]. apply Hgood.
      eexists _, _. split_and!; [done|apply lookup_insert_eq|done..].
    + exists (proc_views s), (next_view s). split; [by destruct s|].
      intros good _. apply covered_refl.
Qed.
End rebind.

(** ** Spawning *)

Section spawn.
Context {X : Type} (parse_exec : bytes → option ExecSpec).
Local Abbreviation Tree := (ptree X).
Implicit Types (n : Namespace Tree) (self v : View X) (s : ProcState X) (t : Tree).

(** The record a commit publishes. *)
Definition spawned (p : Pid) (pd : Pending Tree) n (ex : ExecSpec) : Process Tree :=
  mkProcess p (pd_parent pd) (pd_credentials pd) n ex Running None.

(** The table with slot [p] committed. *)
Definition committed_table (p : Pid) (pr : Process Tree) (t : ProcessTable Tree) :
    ProcessTable Tree :=
  mkTable (next t) (delete p (pending t)) (<[p := pr]> (processes t))
          (VersionTable.bump (t_versions t) LISTING_KEY).

(** [commit_spawn] either publishes exactly one process, whose namespace is
    covered by the staged one, or only drops the slot. *)
Lemma commit_spawn_spec self p ex s s' r :
  commit_spawn self p ex s = (s', r) →
  ∃ views k,
  let s0 := set_views (λ _, views) k s in
  (r = Err BadRequest ∧ s' = set_table (discard p) s0) ∨
  (∃ pd n, r = Ok p ∧ pending (table s) !! p = Some pd ∧
     namespace_generation pd = generation (exec_namespace ex) ∧
     (∀ good, (∀ t, child_view views self p t → good t) →
              covered good n (pd_namespace pd)) ∧
     descriptors_valid ex n = true ∧
     s' = open_streams p (set_table (committed_table p (spawned p pd n ex)) s0)).
Proof.
  assert (Hself : s = set_views (λ _, proc_views s) (next_view s) s) by by destruct s.
  unfold commit_spawn, reject_spawn. mrun.
  destruct (bool_decide (pending_namespace_generation p (table s) = _)) eqn:Hg; simpl.
  2:{ intros [= <- <-]. exists (proc_views s), (next_view s). left. by rewrite <- Hself. }
  destruct (pending_namespace p (table s)) as [pn|] eqn:Hpn.
  2:{ intros [= <- <-]. exists (proc_views s), (next_view s). left. by rewrite <- Hself. }
  destruct (namespace_subset_from (exec_namespace ex) pn) as [nar|] eqn:Hsub.
  2:{ intros [= <- <-]. exists (proc_views s), (next_view s). left. by rewrite <- Hself. }
  unfold pending_namespace, pending_namespace_generation in *.
  destruct (pending (table s) !! p) as [pd|] eqn:Hpd; [|done].
  bool_facts. simplify_eq/=.
  destruct (rebind_proc_spawners self nar p s) as [s1 n1] eqn:Hre.
  apply rebind_frame in Hre as (views & k & -> & Hcov).
  unfold replace_pending_namespace. cbn [table set_views]. rewrite Hpd. cbn [pending].
  rewrite lookup_insert_eq. simpl.
  destruct (descriptors_valid ex n1) eqn:Hd; simpl.
  - unfold commit, get. simpl. rewrite lookup_insert_eq. simpl. rewrite lookup_insert_eq.
    intros [= <- <-]. exists views, k. right. exists pd, n1. split_and!; try done.
    + intros good Hgood. eapply covered_trans; [by apply Hcov|].
      unfold namespace_subset_from in Hsub. by eapply covered_restrict.
    + unfold set_table, open_streams, set_streams, committed_table, spawned. simpl.
      by rewrite delete_insert_eq.
  - intros [= <- <-]. exists views, k. left. split; [done|].
    unfold set_table, discard. simpl. by rewrite delete_insert_eq.
Qed.

(** What the commit of a clone fid leaves: the spawn of [commit_spawn_spec] and
    its announcement, or the dropped slot. *)
Lemma clunk_clone_spec self f s s' r pf p :
  p_fids s !! (view_id self, f) = Some pf → clone_pid pf = Some p →
  f ≠ ROOT ∨ root_node self = PClone →
  proc_clunk parse_exec self f s = (s', r) →
  ∃ views k,
  let s0 := set_views (λ _, views) k (set_p_fids (delete (view_id self, f)) s) in
  (r = Err BadRequest ∧ s' = set_table (discard p) s0) ∨
  (∃ pd n ex, r = Ok tt ∧ parse_exec (pf_buf pf) = Some ex ∧
     pending (table s) !! p = Some pd ∧
     namespace_generation pd = generation (exec_namespace ex) ∧
     (∀ good, (∀ t, child_view views self p t → good t) →
              covered good n (pd_namespace pd)) ∧
     descriptors_valid ex n = true ∧
     let s1 := publish_process_event p (StatusEvent "running")
       (open_streams p (set_table (committed_table p (spawned p pd n ex)) s0)) in
     s' = if runner self then set_runner_tasks (λ rt, {[p]} ∪ rt) s1 else s1).
Proof.
  intros Hpf Hp Hroot. unfold proc_clunk. mrun.
  assert (bool_decide (f = ROOT) && negb (bool_decide (root_node self = PClone)) = false)
    as ->.
  { destruct Hroot as [Hf|Hr]; [by rewrite bool_decide_eq_false_2|].
    rewrite (bool_decide_eq_true_2 (root_node self = PClone)) by done. apply andb_false_r. }
  cbv beta iota. rewrite Hpf. cbv beta iota. rewrite Hp. set (sd := set_p_fids (delete (view_id self, f)) s).
  assert (Hself : sd = set_views (λ _, proc_views sd) (next_view sd) sd) by done.
  destruct (write_failed pf).
  { unfold reject_spawn. mrun. intros [= <- <-].
    exists (proc_views sd), (next_view sd). left. by rewrite <- Hself. }
  destruct (parse_exec (pf_buf pf)) as [ex|] eqn:Hex.
  2:{ unfold reject_spawn. mrun. intros [= <- <-].
      exists (proc_views sd), (next_view sd). left. by rewrite <- Hself. }
  destruct (commit_spawn self p ex sd) as [s1 r1] eqn:Hc.
  apply commit_spawn_spec in Hc as (views & k & [[-> ->]|(pd & n & -> & Hpd & Hg & Hcov & Hd & ->)]).
  - intros [= <- <-]. exists views, k. by left.
  - intros Hs'. exists views, k. right. exists pd, n, ex.
    destruct (runner self); simplify_eq; split_and!; done.
Qed.

Lemma publish_table p e s : table (publish_process_event p e s) = table s.
Proof. by destruct e. Qed.
Lemma publish_views p e s : proc_views (publish_process_event p e s) = proc_views s.
Proof. by destruct e. Qed.
Lemma publish_fids p e s : p_fids (publish_process_event p e s) = p_fids s.
Proof. by destruct e. Qed.

(** C2: a spawn stays within its grant. When the clunk of an opened clone file
    succeeds, the process of the allocated pid is public and running with the
    spawner's parentage and credentials and the exec spec that was written; the
    spec named the generation of the staged namespace; every descriptor is
    numbered from 3 and resolves; and whatever a path resolves to for the child
    it resolved to in the staged namespace, with no more access, to the same
    tree or, at its own [/proc], to a view that spawns the child's children. *)
Theorem spawn_within_grant self f s s' pf p :
  p_fids s !! (view_id self, f) = Some pf → clone_pid pf = Some p →
  f ≠ ROOT ∨ root_node self = PClone →
  proc_clunk parse_exec self f s = (s', Ok tt) →
  ∃ pd pr, pending (table s) !! p = Some pd ∧ get p (table s') = Some pr ∧
    parse_exec (pf_buf pf) = Some (exec pr) ∧
    parent pr = pd_parent pd ∧ credentials pr = pd_credentials pd ∧ status pr = Running ∧
    generation (exec_namespace (exec pr)) = namespace_generation pd ∧
    descriptors_valid (exec pr) (p_namespace pr) = true ∧
    covered (child_view (proc_views s') self p) (p_namespace pr) (pd_namespace pd).
Proof.
  intros Hpf Hp Hroot Hc.
  destruct (clunk_clone_spec _ _ _ _ _ _ _ Hpf Hp Hroot Hc)
    as (views & k & [[? _]|(pd & n & ex & _ & Hex & Hpd & Hg & Hcov & Hd & ->)]); [done|].
  exists pd, (spawned p pd n ex).
  assert (∀ s1, get p (table (if runner self then set_runner_tasks (λ rt, {[p]} ∪ rt) s1
            else s1)) = get p (table s1)) as Htab by (by destruct (runner self)).
  assert (∀ s1, proc_views (if runner self then set_runner_tasks (λ rt, {[p]} ∪ rt) s1
            else s1) = proc_views s1) as Hviews by (by destruct (runner self)).
  split_and!; try done.
  - rewrite Htab, publish_table. apply lookup_insert_eq.
  - apply Hcov. intros t Ht. by rewrite Hviews, publish_views.
Qed.

(** C26: a spawn is all or nothing. Clunking an opened clone file always releases
    the fid and the pending slot. It either publishes exactly one new process and
    succeeds, or fails with [BadRequest] and leaves the public processes, their
    generations, streams, histories and notifications as they were. *)
Theorem spawn_all_or_nothing self f s s' r pf p :
  p_fids s !! (view_id self, f) = Some pf → clone_pid pf = Some p →
  f ≠ ROOT ∨ root_node self = PClone →
  proc_clunk parse_exec self f s = (s', r) →
  p_fids s' = delete (view_id self, f) (p_fids s) ∧
  pending (table s') = delete p (pending (table s)) ∧
  ((r = Ok tt ∧ ∃ pr, processes (table s') = <[p := pr]> (processes (table s))) ∨
   (r = Err BadRequest ∧ processes (table s') = processes (table s) ∧
    t_versions (table s') = t_versions (table s) ∧ inputs s' = inputs s ∧
    outputs s' = outputs s ∧ io_events s' = io_events s ∧
    event_history s' = event_history s ∧ sinks s' = sinks s ∧
    runner_tasks s' = runner_tasks s)).
Proof.
  intros Hpf Hp Hroot Hc.
  destruct (clunk_clone_spec _ _ _ _ _ _ _ Hpf Hp Hroot Hc)
    as (views & k & [[-> ->]|(pd & n & ex & -> & Hex & Hpd & Hg & Hcov & Hd & ->)]).
  - split_and!; [done|done|]. right. done.
  - assert (∀ A (g : ProcState X → A) s1, (∀ h s, g (set_runner_tasks h s) = g s) →
      g (if runner self then set_runner_tasks (λ rt, {[p]} ∪ rt) s1 else s1) = g s1) as Hrun
      by (intros A g s1 Hg'; destruct (runner self); auto).
    rewrite !(Hrun _ p_fids), !(Hrun _ (λ s, pending (table s))),
      publish_fids, publish_table by done.
    split_and!; [done|done|]. left. split; [done|].
    eexists. rewrite (Hrun _ (λ s, processes (table s))) by done. by rewrite publish_table.
Qed.
End spawn.

(** ** Qids *)

Lemma tagged_identity_add tag id :
  0 ≤ tag → 0 ≤ id < 2 ^ 48 → tagged_identity tag id = tag * 2 ^ 48 + id.
Proof.
  intros Ht Hid. unfold tagged_identity. rewrite Z.shiftl_mul_pow2 by lia.
  symmetry. apply Z.add_nocarry_lor. apply Z.bits_inj'. intros i Hi.
  rewrite Z.land_spec, Z.bits_0. destruct (Z.ltb_spec i 48).
  - by rewrite Z.mul_pow2_bits_low.
  - rewrite (Z.bits_above_log2 id i); [apply andb_false_r|lia|].
    destruct (decide (id = 0)) as [->|]; [simpl; lia|].
    apply Z.log2_lt_pow2; [lia|]. eapply Z.lt_le_trans; [apply Hid|].
    by apply Z.pow_le_mono_r.
Qed.

Section qids.
Context {X : Type}.

(** The nodes a view can reach, with pids and view ids below 2^48. *)
Definition node_of_view (self : View X) (n : PNode) : Prop :=
  match n with
  | PRoot | PClone | PSelfNamespace => True
  | PSelfProc p => ctx_parent self = Some p
  | PProc p | PStatus p | PParent p | PCredentials p | PExit p | PCtl p | PIoDir p
  | PInput p | POutput p | PIoEvents p | PNamespaceInfo p | PDescriptors p =>
      0 ≤ p < 2 ^ 48
  end.

(** Within a view, distinct files have distinct qid paths, for pids and view
    ids below 2^48. *)
Theorem proc_qid_paths_unique (self : View X) (s : ProcState X) n1 n2 :
  0 ≤ view_id self < 2 ^ 48 → node_of_view self n1 → node_of_view self n2 →
  path (proc_qid n1 self s) = path (proc_qid n2 self s) → n1 = n2.
Proof.
  intros Hv H1 H2.
  destruct n1, n2; simpl in *; rewrite ?tagged_identity_add by lia; intros Heq;
    try done; try (f_equal; lia); try (exfalso; lia); congruence.
Qed.
End qids.

Definition boot_view : View unit := (proc_new 1).2.
Definition boot_state : ProcState unit := (proc_new 1).1.

Lemma proc_qid_paths_unique_witness :
  PStatus 7 = PStatus 7 ∧
  path (proc_qid (PStatus 7) boot_view boot_state) ≠
  path (proc_qid (PParent 7) boot_view boot_state).
Proof.
  split; [|vm_compute; done].
  apply (proc_qid_paths_unique boot_view boot_state (PStatus 7) (PStatus 7));
    simpl; lia || done.
Defined.

(** ** A spawn in progress *)

Definition boot_ns : Namespace (ptree unit) :=
  mount "/proc" (ProcView 1) AccessReadWrite ns_new.
Definition spawner : View unit :=
  (for_spawner boot_view None boot_ns credentials_system boot_state).2.
(** The clone file walked to fid 1, opened, and the exec spec written. *)
Definition staged : ProcState unit :=
  let s := (for_spawner boot_view None boot_ns credentials_system boot_state).1 in
  let s := (proc_walk spawner ROOT 1 ["clone"] s).1 in
  let s := (proc_open spawner 1 Write s).1 in
  (proc_write spawner 1 0 (into_bytes "spec") s).1.
Definition staged_fid : ProcFid :=
  mkProcFid PClone (Some Write) (Some 1) (into_bytes "spec") true false.
Definition spec_parser (b : bytes) : option ExecSpec :=
  if bool_decide (b = into_bytes "spec")
  then Some (mkExec "/bin/cat" [] (from_snapshot boot_ns 0) {[3 := "/proc/1"]}) else None.

Lemma spawn_within_grant_witness :
  ∃ pd pr, pending (table staged) !! 1 = Some pd ∧
    get 1 (table (proc_clunk spec_parser spawner 1 staged).1) = Some pr ∧
    spec_parser (into_bytes "spec") = Some (exec pr) ∧
    parent pr = pd_parent pd ∧ credentials pr = pd_credentials pd ∧ status pr = Running ∧
    generation (exec_namespace (exec pr)) = namespace_generation pd ∧
    descriptors_valid (exec pr) (p_namespace pr) = true ∧
    covered (child_view (proc_views (proc_clunk spec_parser spawner 1 staged).1) spawner 1)
            (p_namespace pr) (pd_namespace pd).
Proof.
  apply (spawn_within_grant spec_parser spawner 1 staged
           (proc_clunk spec_parser spawner 1 staged).1 staged_fid 1).
  - vm_compute. reflexivity.
  - reflexivity.
  - by left.
  - vm_compute. reflexivity.
Defined.

Lemma spawn_all_or_nothing_witness :
  let s' := (proc_clunk (λ _, None) spawner 1 staged).1 in
  let r := (proc_clunk (λ _, None) spawner 1 staged).2 in
  p_fids s' = delete (view_id spawner, 1) (p_fids staged) ∧
  pending (table s') = delete 1 (pending (table staged)) ∧
  ((r = Ok tt ∧
    ∃ pr, processes (table s') = <[1 := pr]> (processes (table staged))) ∨
   (r = Err BadRequest ∧ processes (table s') = processes (table staged) ∧
    t_versions (table s') = t_versions (table staged) ∧ inputs s' = inputs staged ∧
    outputs s' = outputs staged ∧ io_events s' = io_events staged ∧
    event_history s' = event_history staged ∧ sinks s' = sinks staged ∧
    runner_tasks s' = runner_tasks staged)).
Proof.
  intros s' r.
  apply (spawn_all_or_nothing (λ _, None) spawner 1 staged s' r staged_fid 1).
  - vm_compute. reflexivity.
  - reflexivity.
  - by left.
  - vm_compute. reflexivity.
Defined.

(** ** Framed input *)

(** The reader's side of the input stream: a decimal length, a newline, the
    payload. *)
Fixpoint split_header (b : bytes) : option (bytes * bytes) :=
  match b with
  | [] => None
  | c :: b' =>
      if bool_decide (c = newline) then Some ([], b')
      else '(h, rest) ← split_header b'; Some (c :: h, rest)
  end.
Fixpoint decode_go (fuel : nat) (b : bytes) : option (list bytes) :=
  match b, fuel with
  | [], _ => Some []
  | _, O => None
  | _, S fuel' =>
      '(h, rest) ← split_header b;
      n ← parse_u64 (of_bytes h);
      if n <=? len rest then
        ms ← decode_go fuel' (drop (Z.to_nat n) rest);
        Some (take (Z.to_nat n) rest :: ms)
      else None
  end.
Definition decode_frames (b : bytes) : option (list bytes) := decode_go (length b) b.

Lemma split_header_app h b :
  newline ∉ h → split_header (h ++ newline :: b) = Some (h, b).
Proof.
  induction h as [|c h IH]; intros Hh; [done|]. simpl.
  - apply not_elem_of_cons in Hh as [Hc Hh].
    rewrite bool_decide_eq_false_2 by congruence. by rewrite IH.
Qed.
Lemma split_header_more b h rest x :
  split_header b = Some (h, rest) → split_header (b ++ x) = Some (h, rest ++ x).
Proof.
  revert h. induction b as [|c b IH]; intros h; simpl; [done|].
  case_bool_decide; [by intros [= <- <-]|].
  destruct (split_header b) as [[h' rest']|]; [|done]. simpl. intros [= <- <-].
  by rewrite (IH h').
Qed.
Lemma split_header_shorter b h rest :
  split_header b = Some (h, rest) → (length rest < length b)%nat.
Proof.
  revert h. induction b as [|c b IH]; intros h; simpl; [done|].
  case_bool_decide; [intros [= <- <-]; lia|].
  destruct (split_header b) as [[h' rest']|]; [|done]. simpl. intros [= <- <-].
  specialize (IH h' eq_refl). lia.
Qed.

Lemma decode_go_S fuel b :
  b ≠ [] →
  decode_go (S fuel) b =
  '(h, rest) ← split_header b;
  n ← parse_u64 (of_bytes h);
  if n <=? len rest then
    ms ← decode_go fuel (drop (Z.to_nat n) rest);
    Some (take (Z.to_nat n) rest :: ms)
  else None.
Proof. by destruct b. Qed.

Lemma decode_go_fuel fuel fuel' b ms :
  (length b ≤ fuel)%nat → (length b ≤ fuel')%nat →
  decode_go fuel b = Some ms → decode_go fuel' b = Some ms.
Proof.
  revert fuel' b ms. induction fuel as [|fuel IH]; intros fuel' b ms Hl Hl'.
  - destruct b; [|simpl in Hl; lia]. by destruct fuel'.
  - destruct b as [|c b]; [by destruct fuel'|]. destruct fuel' as [|fuel']; [simpl in Hl'; lia|].
    cbn [decode_go]. destruct (split_header (c :: b)) as [[h rest]|] eqn:Hs; [|done].
    apply split_header_shorter in Hs. simpl.
    destruct (parse_u64 (of_bytes h)) as [n|]; [|done]. simpl.
    destruct (n <=? len rest); [|done].
    destruct (decode_go fuel _) as [ms'|] eqn:Hd; [|done]. simpl.
    intros [= <-]. erewrite IH; [done| | |exact Hd]; rewrite length_drop; simpl in *; lia.
Qed.

(** Appending one well-formed frame appends one message. *)
Lemma decode_go_app fuel b ms h n x :
  decode_go fuel b = Some ms → newline ∉ h → parse_u64 (of_bytes h) = Some n →
  n = len x →
  decode_go (S fuel) (b ++ h ++ newline :: x) = Some (ms ++ [x]).
Proof.
  intros Hd Hh Hn ->. revert b ms Hd.
  assert (∀ fuel, decode_go (S fuel) (h ++ newline :: x) = Some [x]) as Hlast.
  { intros fuel'. rewrite decode_go_S by by destruct h. rewrite split_header_app by done. simpl. rewrite Hn. simpl.
    rewrite Z.leb_refl. unfold len. rewrite Nat2Z.id, drop_all, firstn_all. simpl.
    by destruct fuel'. }
  induction fuel as [|fuel IH]; intros b ms Hd.
  - destruct b as [|c b]; [|done]. injection Hd as <-. apply Hlast.
  - destruct b as [|c b]; [injection Hd as <-; apply Hlast|].
    cbn [decode_go] in Hd. destruct (split_header (c :: b)) as [[h' rest]|] eqn:Hs; [|done].
    simpl in Hd. destruct (parse_u64 (of_bytes h')) as [n'|] eqn:Hn'; [|done]. simpl in Hd.
    destruct (n' <=? len rest) eqn:Hle; [|done]. bool_facts.
    destruct (decode_go fuel _) as [ms'|] eqn:Hd'; [|done]. simpl in Hd.
    injection Hd as <-.
    rewrite decode_go_S by done. rewrite (split_header_more _ _ _ _ Hs). cbn [mbind option_bind].
    rewrite Hn'. cbn [mbind option_bind].
    unfold len in *. rewrite length_app.
    rewrite (proj2 (Z.leb_le _ _)) by lia.
    rewrite drop_app_le, take_app_le by lia. by rewrite (IH _ _ Hd').
Qed.

Lemma decode_frames_snoc b ms x :
  len x < u64_size → decode_frames b = Some ms →
  decode_frames (b ++ frame x) = Some (ms ++ [x]).
Proof.
  intros Hx Hd. unfold decode_frames, frame in *. rewrite into_bytes_app.
  rewrite <- app_assoc.
  change (into_bytes (String "010" "") ++ x) with (newline :: x).
  assert (newline ∉ into_bytes (dec_string_Z (len x))) as Hn.
  { unfold dec_string_Z. pose proof (len_nonneg x).
    rewrite (proj2 (Z.ltb_ge _ _)) by lia. apply dec_string_no_newline. }
  apply (decode_go_fuel (S (length b + length (into_bytes (dec_string_Z (len x)) ++
           newline :: x)))); [rewrite length_app; lia|done|].
  apply decode_go_app with (n := len x); [|done| |done].
  - eapply decode_go_fuel; [| |exact Hd]; lia.
  - rewrite of_into_bytes. apply parse_dec_string_Z. pose proof (len_nonneg x). lia.
Qed.

Section input.
Context {X : Type} (parse_exec : bytes → option ExecSpec).

(** Input keeps message boundaries. If the input stream of a process decodes
    to [ms], then after the clunk of a written input fid succeeds it decodes to
    [ms] followed by exactly the bytes buffered in that fid; the append is
    recorded in [io/events] and in the history; no other stream changes. *)
Theorem input_messages_recoverable (self : View X) f s s' pf p st ms :
  f ≠ ROOT → p_fids s !! (view_id self, f) = Some pf →
  pf_node pf = PInput p → clone_pid pf = None → wrote pf = true →
  len (pf_buf pf) ≤ MAX_PROCESS_INPUT_BYTES →
  inputs s !! p = Some st → decode_frames (Stream.buf st) = Some ms →
  proc_clunk parse_exec self f s = (s', Ok tt) →
  ∃ st' ev ev',
    inputs s' = <[p := st']> (inputs s) ∧
    decode_frames (Stream.buf st') = Some (ms ++ [pf_buf pf]) ∧
    io_events s !! p = Some ev ∧ io_events s' = <[p := ev']> (io_events s) ∧
    Stream.buf ev' = Stream.buf ev ++ io_record "input" (len (pf_buf pf)) ∧
    outputs s' = outputs s ∧
    event_history s' !! p =
      Some (default [] (event_history s !! p) ++ [InputEvent (len (pf_buf pf))]).
Proof.
  intros Hf Hpf Hn Hc Hw Hlen Hst Hd. unfold proc_clunk. mrun.
  rewrite bool_decide_eq_false_2 by done. simpl. rewrite Hpf, Hc, Hn, Hw.
  assert (as_u32 (len (pf_buf pf)) = len (pf_buf pf)) as Hu.
  { unfold as_u32, u32_size. apply Z.mod_small. pose proof (len_nonneg (pf_buf pf)).
    change MAX_PROCESS_INPUT_BYTES with 1048576 in Hlen. lia. }
  rewrite Hu. destruct (write_failed pf); [done|]. rewrite Hst.
  destruct (io_events s !! p) as [ev|] eqn:Hev; [|done]. intros [= <-].
  exists (Stream.append st (frame (pf_buf pf))), ev,
    (Stream.append ev (io_record "input" (len (pf_buf pf)))).
  unfold append_to. simpl. rewrite Hst, Hev. split_and!; try done.
  - simpl. apply decode_frames_snoc; [|done].
    change MAX_PROCESS_INPUT_BYTES with 1048576 in Hlen. unfold u64_size. lia.
  - apply lookup_insert_eq.
Qed.
End input.

(** The spawned process with [hello] written to its input. *)
Definition typed : ProcState unit :=
  let s := (proc_clunk spec_parser spawner 1 staged).1 in
  let s := (proc_walk spawner ROOT 2 ["1"; "io"; "input"] s).1 in
  let s := (proc_open spawner 2 Write s).1 in
  (proc_write spawner 2 0 (into_bytes "hello") s).1.
Definition typed_fid : ProcFid :=
  mkProcFid (PInput 1) (Some Write) None (into_bytes "hello") true false.

Lemma input_messages_recoverable_witness :
  let s' := (proc_clunk spec_parser spawner 2 typed).1 in
  ∃ st' ev ev',
    inputs s' = <[1 := st']> (inputs typed) ∧
    decode_frames (Stream.buf st') = Some ([] ++ [into_bytes "hello"]) ∧
    io_events typed !! 1 = Some ev ∧ io_events s' = <[1 := ev']> (io_events typed) ∧
    Stream.buf ev' = Stream.buf ev ++ io_record "input" (len (into_bytes "hello")) ∧
    outputs s' = outputs typed ∧
    event_history s' !! 1 =
      Some (default [] (event_history typed !! 1) ++
            [InputEvent (len (into_bytes "hello"))]).
Proof.
  intros s'.
  apply (input_messages_recoverable spec_parser spawner 2 typed s' typed_fid 1 Stream.new []).
  - done.
  - vm_compute. reflexivity.
  - done.
  - done.
  - done.
  - vm_compute. done.
  - vm_compute. reflexivity.
  - done.
  - vm_compute. reflexivity.
Defined.

(** Cancelling a process that has exited announces its exit once more. *)
Example cancel_after_exit_announces_again :
  let s := (proc_clunk spec_parser spawner 1 staged).1 in
  let s := record_exit 1 0 s in
  let s := (proc_walk spawner ROOT 2 ["1"; "ctl"] s).1 in
  let s := (proc_open spawner 2 Write s).1 in
  let '(s, r) := proc_write spawner 2 0 (into_bytes "cancel") s in
  r = Ok 6 ∧ (exit_code <$> get 1 (table s)) = Some (Some 0) ∧
  event_history s !! 1 =
    Some [StatusEvent "running"; StatusEvent "exited"; StatusEvent "exited"].
Proof. vm_compute. done. Qed.
