(* ===== verification/ProcEvents.v ===== *)
(** * Process events and their observers (procfs.rs)

    The device as a state machine over everything that changes it: requests of
    any view, subscriptions, the host's reports, and the deliveries that publications
    and subscriptions make after they have released the device, in any order. A
    subscriber gets the whole history of its process, replayed and live, each event
    once; an ordered one gets the replay first. A caller that publishes twice is not
    held back here until its first deliveries are made, as it is in the code: the
    code's runs are among those of the relation. *)
From S2P Require Import Prelude RustStd ApTypes ApServer Namespace NamespaceFacts Process ProcessFacts ProcFs ProcFsFacts.

Inductive sub_kind : Set := EventSub | IoSub | InputSub | OutputSub.
Global Instance sub_kind_eq_dec : EqDecision sub_kind.
Proof. solve_decision. Defined.

Section events.
Context {X : Type} (descriptors_json : gmap Z string → bytes).
Context (parse_exec : bytes → option ExecSpec).
Local Abbreviation Tree := (ptree X).
Implicit Types (s : ProcState X) (self : View X) (p : Pid) (o : Z).

Definition observers (k : sub_kind) s : gmap Pid (list Z) :=
  match k with
  | EventSub => event_observers s
  | IoSub => io_observers s
  | InputSub => input_observers s
  | OutputSub => output_observers s
  end.
Definition note_of (k : sub_kind) (e : ProcessEvent) : option notification :=
  match k with
  | EventSub => event_note e
  | IoSub => io_note e
  | InputSub => input_note e
  | OutputSub => output_note e
  end.
Definition subscribe_as (k : sub_kind) (pid_text : string) (o : Z) : Op (ProcState X) unit :=
  match k with
  | EventSub => subscribe_process_events pid_text o
  | IoSub => subscribe_process_io pid_text o
  | InputSub => subscribe_process_input pid_text o
  | OutputSub => subscribe_process_output pid_text o
  end.

Definition registered (k : sub_kind) p o s : Prop := o ∈ default [] (observers k s !! p).
Global Instance registered_dec k p o s : Decision (registered k p o s).
Proof. unfold registered. apply _. Defined.
Definition history p s : list ProcessEvent := default [] (event_history s !! p).

(** What observer [o] was sent about process [p], and what it is still to be sent. *)
Definition pick o p (x : note_to) : option notification :=
  let '(o', p', n) := x in if bool_decide (o' = o ∧ p' = p) then Some n else None.
Definition sent o p s : list notification := omap (pick o p) (delivered s).
Definition coming o p s : list notification :=
  omap (pick o p) (under_way (sinks s) ≫= dl_rest).

(** A sink never used before. *)
Definition mentions o (d : Delivery) : Prop := ∃ x, x ∈ dl_rest d ∧ x.1.1 = o.
Definition fresh_sink o s : Prop :=
  (∀ p, sent o p s = []) ∧ (∀ d, d ∈ under_way (sinks s) → ¬ mentions o d) ∧
  ∀ k p, ¬ registered k p o s.

Inductive proc_step : ProcState X → ProcState X → Prop :=
  | ps_call self req s s' r :
      transport_call (H := ProcFs_FileServer descriptors_json parse_exec self) req s = (s', r) →
      proc_step s s'
  | ps_subscribe k pid_text o s s' r :
      fresh_sink o s → subscribe_as k pid_text o s = (s', r) → proc_step s s'
  | ps_deliver n s s' : deliver n s = Some s' → proc_step s s'
  | ps_exit p code s : proc_step s (record_exit p code s)
  | ps_runner p output code s : proc_step s (runner_finished p output code s)
  | ps_bind p h s : proc_step s (bind_live_namespace p h s)
  | ps_live h g s : proc_step s (live_change h g s)
  | ps_view root par src creds run s : proc_step s (new_view root par src creds run s).1.

(** ** States that differ in neither events nor observers *)

Record quiet s s' : Prop := {
  q_table : rtc table_step (table s) (table s');
  q_history : event_history s' = event_history s;
  q_observers k : observers k s' = observers k s;
  q_sinks : sinks s' = sinks s;
}.
Global Instance quiet_preorder : PreOrder quiet.
Proof.
  split.
  - intros s. constructor; done.
  - intros x y z [H1 H2 H3 H4] [K1 K2 K3 K4].
    constructor; [by etrans|congruence| |congruence]. intros k. by rewrite K3.
Qed.

Lemma quiet_fids g s : quiet s (set_p_fids g s).
Proof. by constructor. Qed.
Lemma quiet_table g s : table_step (table s) (g (table s)) → quiet s (set_table g s).
Proof. intros Hg. constructor; try done. by apply rtc_once. Qed.
Lemma quiet_views g k s : quiet s (set_views g k s).
Proof. by constructor. Qed.
Lemma quiet_lives l g s : quiet s (set_lives l g s).
Proof. by constructor. Qed.
Lemma quiet_runner g s : quiet s (set_runner_tasks g s).
Proof. by constructor. Qed.
Lemma quiet_streams i out e s : quiet s (set_streams i out e id s).
Proof. by constructor. Qed.
Lemma quiet_rebind self n p s : quiet s (rebind_proc_spawners self n p s).1.
Proof.
  destruct (rebind_proc_spawners self n p s) as [s' n'] eqn:H.
  apply rebind_frame in H as (views & k & -> & _). apply quiet_views.
Qed.
#[local] Hint Resolve quiet_fids quiet_views quiet_lives quiet_runner quiet_streams
  step_modify : alan.

Lemma reject_quiet {A} p : step_rel quiet (reject_spawn (A := A) (X := X) p).
Proof.
  unfold reject_spawn. apply step_bind; [apply _| |intros; apply step_fail; apply _].
  apply step_modify. intros s. apply quiet_table, step_discard.
Qed.
Lemma node_of_quiet self f : step_rel quiet (proc_node_of self f).
Proof. unfold proc_node_of. msteps. Qed.
Lemma walk_names_quiet n names cur : step_rel quiet (proc_walk_names (X := X) n names cur).
Proof. revert n. induction names; intros n; simpl; msteps. Qed.
Lemma begin_clone_quiet self : step_rel quiet (begin_clone self).
Proof.
  intros s. unfold begin_clone, child_namespace_for_spawn.
  destruct (source_snapshot (ctx_namespace self) s) as [n gen].
  pose proof (quiet_rebind self
    (child_with_path_substitution CHILD_PID_PLACEHOLDER (dec_string_Z (next (table s))) n)
    (next (table s)) s) as Hq.
  destruct (rebind_proc_spawners _ _ _ s) as [s1 n1]. simpl in *.
  etrans; [exact Hq|]. apply (quiet_table (λ _, _)).
  exact (step_begin _ _ _ (λ _, (n1, gen))).
Qed.
Lemma buffer_quiet key offset data limit :
  step_rel quiet (buffer_at (X := X) key offset data limit).
Proof.
  unfold buffer_at. msteps.
Qed.
Lemma read_stream_quiet st offset count : step_rel quiet (read_stream (X := X) st offset count).
Proof. unfold read_stream. msteps. Qed.
#[local] Hint Resolve reject_quiet node_of_quiet walk_names_quiet begin_clone_quiet
  buffer_quiet read_stream_quiet : alan.
Lemma walk_quiet self f newfid names : step_rel quiet (proc_walk self f newfid names).
Proof. unfold proc_walk. msteps; auto with alan. Qed.
Lemma open_quiet self f m : step_rel quiet (proc_open self f m).
Proof. unfold proc_open. msteps; auto with alan. Qed.
Lemma read_quiet self f offset count :
  step_rel quiet (proc_read descriptors_json self f offset count).
Proof. unfold proc_read. msteps. Qed.
Lemma stat_quiet self f : step_rel quiet (proc_stat descriptors_json self f).
Proof. unfold proc_stat. msteps. Qed.

(** ** The invariant *)

Record events_inv s : Prop := {
  ei_table : table_inv (table s);
  ei_sent k p o : registered k p o s →
    sent o p s ++ coming o p s ≡ₚ omap (note_of k) (history p s);
  ei_once k k' p p' o : registered k p o s → registered k' p' o s → k = k' ∧ p = p';
  ei_nodup k p : NoDup (default [] (observers k s !! p));
  ei_public k p o : registered k p o s → is_Some (processes (table s) !! p);
}.

Lemma table_steps_inv (t t' : ProcessTable Tree) :
  rtc table_step t t' → table_inv t → table_inv t'.
Proof. induction 1; eauto using table_inv_step. Qed.
Lemma table_steps_public (t t' : ProcessTable Tree) p :
  rtc table_step t t' → table_inv t → is_Some (processes t !! p) →
  is_Some (processes t' !! p).
Proof.
  induction 1 as [|t1 t2 t3 Hs _ IH]; [done|]. intros Hi [pr Hp].
  destruct (step_keeps_processes _ _ _ _ Hi Hs Hp) as (pr' & Hp' & _).
  apply IH; [by eapply table_inv_step|eauto].
Qed.

Lemma quiet_inv s s' : quiet s s' → events_inv s → events_inv s'.
Proof.
  intros [Ht Hh Ho Hd] [H1 H2 H3 H4 H5].
  constructor; unfold registered, sent, coming, delivered, history in *.
  - by eapply table_steps_inv.
  - intros k p o. rewrite Ho, Hd, Hh. apply H2.
  - intros k k' p p' o. rewrite !Ho. apply H3.
  - intros k p. rewrite Ho. apply H4.
  - intros k p o. rewrite Ho. intros Hr. eapply table_steps_public; eauto.
Qed.

Lemma pick_list o p q l note :
  NoDup l →
  omap (pick o q) ((λ o', (o', p, note)) <$> l) =
  if bool_decide (p = q ∧ o ∈ l) then [note] else [].
Proof.
  induction l as [|x l IH]; intros Hnd.
  { rewrite bool_decide_eq_false_2; [done|]. intros [_ Hx]. by apply not_elem_of_nil in Hx. }
  apply NoDup_cons in Hnd as [Hx Hnd]. rewrite fmap_cons.
  change (omap (pick o q) ((x, p, note) :: ((λ o', (o', p, note)) <$> l))) with
    (match pick o q (x, p, note) with
     | Some y => y :: omap (pick o q) ((λ o', (o', p, note)) <$> l)
     | None => omap (pick o q) ((λ o', (o', p, note)) <$> l)
     end).
  rewrite (IH Hnd). unfold pick.
  destruct (decide (p = q)) as [->|Hpq].
  2:{ rewrite !bool_decide_eq_false_2; tauto. }
  destruct (decide (x = o)) as [->|Hne].
  - rewrite (bool_decide_eq_true_2 (o = o ∧ q = q)) by done.
    rewrite (bool_decide_eq_false_2 (q = q ∧ o ∈ l)) by tauto.
    rewrite bool_decide_eq_true_2; [done|]. split; [done|apply list_elem_of_here].
  - rewrite (bool_decide_eq_false_2 (x = o ∧ q = q)) by tauto. simpl.
    apply (f_equal (λ b : bool, if b then [note] else [])).
    apply bool_decide_ext. rewrite elem_of_cons. split; [tauto|].
    intros [? [?|?]]; [congruence|tauto].
Qed.

(** The notifications of one event, by kind of observer. *)
Definition notes_to (k : sub_kind) p (e : ProcessEvent) s : list note_to :=
  match note_of k e with
  | Some n => (λ o, (o, p, n)) <$> default [] (observers k s !! p)
  | None => []
  end.

Lemma publish_sinks p e s :
  sinks (publish_process_event p e s) =
  mkSinks (delivered s) (under_way (sinks s) ++ [mkDelivery false
    (notes_to InputSub p e s ++ notes_to OutputSub p e s ++ notes_to IoSub p e s ++
     notes_to EventSub p e s)]).
Proof.
  destruct e; unfold notes_to; simpl; rewrite ?app_nil_l; by rewrite <- ?app_assoc.
Qed.
Lemma coming_begin o q s l :
  omap (pick o q) ((under_way (sinks s) ++ [l]) ≫= dl_rest) =
  coming o q s ++ omap (pick o q) (dl_rest l).
Proof. rewrite bind_app, omap_app. simpl. by rewrite app_nil_r. Qed.

Lemma notes_to_sent k p e s o q :
  events_inv s →
  omap (pick o q) (notes_to k p e s) =
  if bool_decide (p = q ∧ registered k p o s) then option_list (note_of k e) else [].
Proof.
  intros Hinv. unfold notes_to, registered. destruct (note_of k e) as [n|].
  - simpl. apply pick_list. apply (ei_nodup _ Hinv).
  - by destruct (bool_decide _).
Qed.

(** Of all kinds only its own reaches an observer. *)
Lemma publish_coming p e s k o q :
  events_inv s → registered k q o s →
  coming o q (publish_process_event p e s) =
  coming o q s ++ (if bool_decide (p = q) then option_list (note_of k e) else []).
Proof.
  intros Hinv Hr. unfold coming at 1. rewrite publish_sinks. cbn [under_way].
  rewrite coming_begin. cbn [dl_rest]. rewrite !omap_app.
  rewrite !notes_to_sent by done. f_equal.
  destruct (decide (p = q)) as [->|Hpq].
  2:{ rewrite !bool_decide_eq_false_2; tauto. }
  rewrite (bool_decide_eq_true_2 (q = q)) by done.
  assert (∀ k', bool_decide (q = q ∧ registered k' q o s) = bool_decide (k' = k)) as Hk.
  { intros k'. apply bool_decide_ext. split; [|by intros ->].
    intros [_ Hr']. by destruct (ei_once _ Hinv _ _ _ _ _ Hr' Hr). }
  rewrite !Hk. by destruct k; rewrite ?app_nil_r.
Qed.
Lemma publish_sent p e s o q : sent o q (publish_process_event p e s) = sent o q s.
Proof. unfold sent, delivered. by rewrite publish_sinks. Qed.

Lemma publish_history p e s q :
  history q (publish_process_event p e s) =
  history q s ++ (if bool_decide (p = q) then [e] else []).
Proof.
  unfold history. assert (event_history (publish_process_event p e s) =
    <[p := default [] (event_history s !! p) ++ [e]]> (event_history s)) as -> by by destruct e.
  destruct (decide (p = q)) as [->|Hpq].
  - by rewrite lookup_insert_eq, bool_decide_eq_true_2.
  - by rewrite lookup_insert_ne, bool_decide_eq_false_2, app_nil_r.
Qed.
Lemma publish_observers p e s k : observers k (publish_process_event p e s) = observers k s.
Proof. by destruct k, e. Qed.

Lemma publish_inv p e s : events_inv s → events_inv (publish_process_event p e s).
Proof.
  intros Hinv. constructor; unfold registered; rewrite ?publish_table.
  - apply Hinv.
  - intros k q o. rewrite publish_observers. intros Hr.
    rewrite publish_sent, (publish_coming p e s k o q Hinv Hr), publish_history, omap_app.
    rewrite app_assoc, (ei_sent _ Hinv k q o Hr). f_equiv.
    destruct (bool_decide (p = q)); [|done]. simpl. by destruct (note_of k e).
  - intros k k' q q' o. rewrite !publish_observers. apply Hinv.
  - intros k q. rewrite publish_observers. apply Hinv.
  - intros k q o. rewrite publish_observers. apply Hinv.
Qed.

(** ** Subscriptions *)

Lemma registered_push k k' p q o o' s s' :
  (∀ k0, observers k0 s' = if bool_decide (k0 = k) then push_observer p o (observers k0 s)
                           else observers k0 s) →
  registered k' q o' s' ↔ registered k' q o' s ∨ (k' = k ∧ q = p ∧ o' = o).
Proof.
  intros Hs'. unfold registered. rewrite Hs'. case_bool_decide as Hk; [subst|naive_solver].
  unfold push_observer. destruct (decide (q = p)) as [->|Hne].
  - rewrite lookup_insert_eq. simpl. rewrite elem_of_app, list_elem_of_singleton. naive_solver.
  - rewrite lookup_insert_ne by done. naive_solver.
Qed.

Lemma sent_begin o q replay notes s : sent o q (begin_delivery replay notes s) = sent o q s.
Proof. done. Qed.
Lemma coming_begin_delivery o q replay notes s :
  coming o q (begin_delivery replay notes s) = coming o q s ++ omap (pick o q) notes.
Proof. apply coming_begin. Qed.
Lemma pick_none o p (d : Delivery) : ¬ mentions o d → omap (pick o p) (dl_rest d) = [].
Proof.
  intros Hd. unfold mentions in Hd. induction (dl_rest d) as [|[[o' p'] n] rest IH]; [done|]. simpl.
  rewrite bool_decide_eq_false_2; [apply IH|].
  - intros (x & Hx & E). apply Hd. exists x. split; [by right|done].
  - intros [-> _]. apply Hd. exists (o, p', n). split; [left|done].
Qed.
Lemma not_coming o p s : (∀ d, d ∈ under_way (sinks s) → ¬ mentions o d) → coming o p s = [].
Proof.
  unfold coming. induction (under_way (sinks s)) as [|d l IH]; intros Hno; [done|].
  rewrite bind_cons, omap_app, pick_none, IH; [done| |apply Hno; left].
  intros d' Hd'. apply Hno. by right.
Qed.

Lemma pick_replay o o' p q (ns : list notification) :
  omap (pick o' q) ((λ n, (o, p, n)) <$> ns) =
  if bool_decide (o = o' ∧ p = q) then ns else [].
Proof.
  induction ns as [|n ns IH]; [by destruct (bool_decide _)|].
  simpl. unfold pick at 1. simpl in IH. destruct (bool_decide (o = o' ∧ p = q)).
  - f_equal. exact IH.
  - exact IH.
Qed.

(** What a subscription does: nothing, or its section under the lock. *)
Lemma subscribe_spec k txt o s s' r :
  subscribe_as k txt o s = (s', r) →
  s' = s ∧ r ≠ Ok tt ∨ r = Ok tt ∧ ∃ p, parse_pid txt = Some p ∧ is_Some (processes (table s) !! p) ∧
    table s' = table s ∧ event_history s' = event_history s ∧
    (∀ k0, observers k0 s' = if bool_decide (k0 = k) then push_observer p o (observers k0 s)
                             else observers k0 s) ∧
    sinks s' = sinks (begin_delivery true ((λ n, (o, p, n)) <$> omap (note_of k) (history p s)) s).
Proof.
  destruct k; simpl;
    unfold subscribe_process_events, subscribe_process_io, subscribe_process_input,
      subscribe_process_output, subscribe; mrun;
    (destruct (parse_pid txt) as [p|]; [|intros [= <- <-]; by left]);
    unfold get; destruct (processes (table s) !! p) as [pr|] eqn:Hp;
    (intros [= <- <-]); (by left) || (right; split; [done|]; exists p);
    (split_and!; [done|by eauto|done|done|by intros []|done]).
Qed.
Lemma sent_sinks o p s s' : sinks s' = sinks s → sent o p s' = sent o p s ∧ coming o p s' = coming o p s.
Proof. unfold sent, coming, delivered. by intros ->. Qed.

Lemma subscribe_inv k txt o s s' r :
  events_inv s → fresh_sink o s → subscribe_as k txt o s = (s', r) → events_inv s'.
Proof.
  intros Hinv (Hsent & Hquiet & Hfresh) Hsub.
  destruct (subscribe_spec _ _ _ _ _ _ Hsub) as [[-> _]|(_ & p & _ & Hpub & Ht & Hh & Hobs & Hs')]; [done|].
  assert (∀ o' q, sent o' q s' ++ coming o' q s' = (sent o' q s ++ coming o' q s) ++
    if bool_decide (o = o' ∧ p = q) then omap (note_of k) (history p s) else []) as Hmail.
  { intros o' q. destruct (sent_sinks o' q _ _ Hs') as [-> ->].
    rewrite sent_begin, coming_begin_delivery, pick_replay. by rewrite app_assoc. }
  pose proof (λ k' q o', registered_push k k' p q o o' s s' Hobs) as Hreg.
  constructor.
  - rewrite Ht. apply Hinv.
  - intros k' q o' [Hr|(-> & -> & ->)]%Hreg; rewrite Hmail; unfold history; rewrite Hh.
    + rewrite bool_decide_eq_false_2; [rewrite app_nil_r; by apply Hinv|].
      intros [-> _]. by apply (Hfresh k' q).
    + rewrite bool_decide_eq_true_2 by done. by rewrite Hsent, (not_coming o p s Hquiet).
  - intros k1 k2 q1 q2 o' [H1|(-> & -> & ->)]%Hreg [H2|(-> & -> & He)]%Hreg; subst;
      [by eapply Hinv|by destruct (Hfresh _ _ H1)|by destruct (Hfresh _ _ H2)|done].
  - intros k' q. rewrite Hobs. case_bool_decide as Hk; [|apply Hinv]. subst.
    unfold push_observer. destruct (decide (q = p)) as [->|Hne].
    + rewrite lookup_insert_eq. simpl. apply NoDup_app.
      split_and!; [apply Hinv| |apply NoDup_singleton].
      intros x Hx ->%list_elem_of_singleton. by apply (Hfresh k p).
    + rewrite lookup_insert_ne by done. apply Hinv.
  - intros k' q o' [Hr|(-> & -> & ->)]%Hreg; rewrite Ht; [by eapply Hinv|done].
Qed.

(** ** Deliveries *)

(** One notification goes from what is coming to what was sent. *)
Lemma deliver_spec n s s' :
  deliver n s = Some s' → ∃ replay x rest,
    under_way (sinks s) !! n = Some (mkDelivery replay (x :: rest)) ∧
    (is_ordered x.2 = true → replay = false → replaying x.1.1 s = false) ∧
    s' = set_sinks (λ k, mkSinks (sk_delivered k ++ [x])
                           (<[n := mkDelivery replay rest]> (under_way k))) s.
Proof.
  unfold deliver. destruct (under_way (sinks s) !! n) as [[replay [|x rest]]|]; try done.
  destruct (_ && _ && _) eqn:Hb; [done|]. intros [= <-]. exists replay, x, rest. split_and!; [done| |done].
  intros Ho ->. by rewrite Ho in Hb.
Qed.
Lemma rest_insert (l : list Delivery) n replay x rest :
  l !! n = Some (mkDelivery replay (x :: rest)) →
  l ≫= dl_rest ≡ₚ x :: (<[n := mkDelivery replay rest]> l ≫= dl_rest).
Proof.
  revert n. induction l as [|d l IH]; intros [|n] Hn; simplify_eq/=; [done|].
  rewrite (IH _ Hn). by rewrite Permutation_middle.
Qed.
Lemma deliver_inv n s s' : deliver n s = Some s' → events_inv s → events_inv s'.
Proof.
  intros (replay & x & rest & Hn & _ & ->)%deliver_spec [H1 H2 H3 H4 H5].
  assert (∀ k, observers k (set_sinks (λ k, mkSinks (sk_delivered k ++ [x])
    (<[n := mkDelivery replay rest]> (under_way k))) s) = observers k s) as Ho by by intros [].
  constructor; unfold registered in *; try done.
  - intros k p o. rewrite Ho. intros Hr. rewrite <- (H2 k p o Hr). unfold sent, coming, delivered. simpl.
    rewrite omap_app, <- app_assoc, <- omap_app. f_equiv. apply omap_Permutation.
    by rewrite (rest_insert _ _ _ _ _ Hn).
Qed.

(** The replay [R] to an ordered observer comes before everything else: it is the
    delivery [j], and no other replay is for this observer. *)
Definition note_of_kind (k : sub_kind) (n : notification) : Prop := ∃ e, note_of k e = Some n.
Definition replay_first (R : list notification) o p s : Prop :=
  ∃ j d, under_way (sinks s) !! j = Some d ∧ dl_replay d = true ∧
    R `prefix_of` sent o p s ++ omap (pick o p) (dl_rest d) ∧
    (omap (pick o p) (dl_rest d) ≠ [] → sent o p s ++ omap (pick o p) (dl_rest d) = R) ∧
    ∀ i d', under_way (sinks s) !! i = Some d' → dl_replay d' = true → i ≠ j → ¬ mentions o d'.

Lemma replaying_false o s i d :
  replaying o s = false → under_way (sinks s) !! i = Some d → dl_replay d = true → ¬ mentions o d.
Proof.
  intros Hr Hi Hd (x & Hx & Ho). apply not_true_iff_false in Hr. apply Hr.
  apply existsb_exists. exists d. split; [apply list_elem_of_In; by eapply list_elem_of_lookup_2|].
  rewrite Hd. apply existsb_exists. exists x. split; [by apply list_elem_of_In|]. by apply Z.eqb_eq.
Qed.
Lemma pick_head o p x rest :
  omap (pick o p) (x :: rest) = option_list (pick o p x) ++ omap (pick o p) rest.
Proof. simpl. by destruct (pick o p x). Qed.

(** ** Requests *)

Lemma committed_steps p pd n ex (t : ProcessTable Tree) :
  pending t !! p = Some pd →
  rtc table_step t (committed_table p (spawned p pd n ex) t).
Proof.
  intros Hp. eapply rtc_l; [exact (step_replace t p n)|].
  apply rtc_once.
  assert (committed_table p (spawned p pd n ex) t =
    (commit p ex (replace_pending_namespace p n t).1).1) as ->; [|apply step_commit].
  unfold replace_pending_namespace. rewrite Hp. unfold commit. simpl.
  rewrite lookup_insert_eq. simpl. unfold committed_table, spawned.
  by rewrite delete_insert_eq.
Qed.

Lemma open_streams_inv p s :
  (∀ k o, ¬ registered k p o s) → events_inv s → events_inv (open_streams p s).
Proof.
  intros Hno [H1 H2 H3 H4 H5].
  assert (∀ k, observers k (open_streams p s) = observers k s) as Ho by by intros [].
  constructor; unfold registered in *.
  - done.
  - intros k q o. rewrite Ho. intros Hr. unfold history. simpl.
    rewrite lookup_insert_ne; [by apply H2|]. intros ->. by apply (Hno k o).
  - intros k k' q q' o. rewrite !Ho. apply H3.
  - intros k q. rewrite Ho. apply H4.
  - intros k q o. rewrite Ho. apply H5.
Qed.

Lemma clunk_inv self f s s' r :
  events_inv s → proc_clunk parse_exec self f s = (s', r) → events_inv s'.
Proof.
  intros Hinv Hc.
  destruct (decide (f = ROOT ∧ root_node self ≠ PClone)) as [[-> Hroot]|Hroot].
  { unfold proc_clunk in Hc. rewrite (bool_decide_eq_false_2 (root_node self = PClone)) in Hc
      by done. unfold mret, m_ret in Hc. by simplify_eq/=. }
  assert (f ≠ ROOT ∨ root_node self = PClone) as Hroot'.
  { destruct (decide (f = ROOT)); [right|by left]. apply dec_stable. tauto. }
  destruct (p_fids s !! (view_id self, f)) as [pf|] eqn:Hpf.
  2:{ unfold proc_clunk in Hc. revert Hc. mrun.
      destruct (_ && _); [by intros [= <- _]|]. rewrite Hpf. by intros [= <- _]. }
  destruct (clone_pid pf) as [p|] eqn:Hp.
  - destruct (clunk_clone_spec _ _ _ _ _ _ _ _ Hpf Hp Hroot' Hc)
      as (views & k & [[-> ->]|(pd & n & ex & -> & Hex & Hpd & Hg & Hcov & Hd & ->)]).
    + eapply quiet_inv; [|exact Hinv]. etrans; [apply quiet_fids|].
      etrans; [apply quiet_views|]. apply quiet_table, step_discard.
    + set (s0 := set_views (λ _, views) k (set_p_fids (delete (view_id self, f)) s)).
      assert (events_inv (publish_process_event p (StatusEvent "running")
        (open_streams p (set_table (committed_table p (spawned p pd n ex)) s0)))) as H1.
      { apply publish_inv, open_streams_inv.
        - intros k' o Hr. assert (registered k' p o s) as Hr' by by destruct k'.
          apply (ei_public _ Hinv) in Hr'.
          rewrite (inv_disjoint _ (ei_table _ Hinv) p) in Hr' by eauto. by destruct Hr'.
        - eapply quiet_inv; [|exact Hinv]. etrans; [apply quiet_fids|].
          etrans; [apply (quiet_views (λ _, views) k)|].
          constructor; [by apply committed_steps|done..]. }
      destruct (runner self); [|done]. eapply quiet_inv; [apply quiet_runner|done].
  - revert Hc. unfold proc_clunk. mrun.
    assert (bool_decide (f = ROOT) && negb (bool_decide (root_node self = PClone)) = false)
      as ->.
    { destruct Hroot' as [?|Hr]; [by rewrite bool_decide_eq_false_2|].
      rewrite (bool_decide_eq_true_2 (root_node self = PClone)) by done. apply andb_false_r. }
    cbv beta iota. rewrite Hpf. cbv beta iota. rewrite Hp.
    assert (events_inv (set_p_fids (delete (view_id self, f)) s)) as Hd
      by (eapply quiet_inv; [apply quiet_fids|done]).
    destruct (write_failed pf); [by intros [= <- _]|].
    destruct (pf_node pf); try by intros [= <- _].
    destruct (wrote pf); [|by intros [= <- _]].
    destruct (inputs s !! p) as [st|]; [|by intros [= <- _]].
    destruct (io_events s !! p) as [ev|]; [|by intros [= <- _]].
    intros [= <- _]. apply publish_inv. eapply quiet_inv; [apply quiet_streams|done].
Qed.

Lemma write_inv self f offset data s s' r :
  events_inv s → proc_write self f offset data s = (s', r) → events_inv s'.
Proof.
  intros Hinv. unfold proc_write. mrun.
  destruct (proc_node_of self f s) as [s1 r1] eqn:Hn.
  assert (quiet s s1) as Hq by by eapply step_rel_elim; [apply node_of_quiet|].
  assert (events_inv s1) as H1 by by eapply quiet_inv.
  destruct r1 as [n|e| |]; [|by intros [= <- _]..].
  assert (∀ key off d lim s' r, buffer_at key off d lim s1 = (s', r) → events_inv s') as Hbuf.
  { intros key off d lim s2 r2 Hb. eapply quiet_inv; [|exact H1].
    by eapply step_rel_elim; [apply buffer_quiet|]. }
  destruct n; try by intros [= <- _].
  - destruct (p_fids s1 !! _) as [pf|]; [|by intros [= <- _]].
    destruct (opened_for_write _); [|by intros [= <- _]]. simpl.
    destruct (isSome _); [apply Hbuf|by intros [= <- _]].
  - destruct (negb _); [by intros [= <- _]|].
    destruct (bool_decide _ || bool_decide _); [|by intros [= <- _]].
    intros [= <- _]. apply publish_inv. eapply quiet_inv; [|exact H1].
    etrans; [apply quiet_runner|]. apply quiet_table, step_exit.
  - destruct (negb _); [by intros [= <- _]|]. apply Hbuf.
  - destruct (negb _); [by intros [= <- _]|].
    destruct (outputs s1 !! p) as [st|]; [|by intros [= <- _]].
    destruct (io_events s1 !! p) as [ev|]; [|by intros [= <- _]].
    intros [= <- _]. apply publish_inv. eapply quiet_inv; [apply quiet_streams|done].
Qed.

Lemma proc_call_inv self req s s' r :
  events_inv s →
  transport_call (H := ProcFs_FileServer descriptors_json parse_exec self) req s = (s', r) →
  events_inv s'.
Proof.
  intros Hinv Hc.
  assert (∀ A (m : Op (ProcState X) A) (g : A → Response),
    (a ← m; mret (g a)) s = (s', r) → ∃ r0, m s = (s', r0)) as Hcall.
  { intros A m g. unfold mbind, m_bind, mret, m_ret.
    destruct (m s) as [s1 []]; intros [= <- _]; eauto. }
  destruct req; simpl in Hc; apply Hcall in Hc as [r0 Hc].
  - eapply quiet_inv; [by eapply step_rel_elim; [apply walk_quiet|]|done].
  - eapply quiet_inv; [by eapply step_rel_elim; [apply open_quiet|]|done].
  - eapply quiet_inv; [by eapply step_rel_elim; [apply read_quiet|]|done].
  - by eapply write_inv.
  - eapply quiet_inv; [by eapply step_rel_elim; [apply stat_quiet|]|done].
  - by injection Hc as <- _.
  - by injection Hc as <- _.
  - by eapply clunk_inv.
Qed.

Lemma proc_step_inv s s' : proc_step s s' → events_inv s → events_inv s'.
Proof.
  intros Hs Hinv. destruct Hs as [self req s s' r Hc|k txt o s s' r Hf Hc|n s s' Hd|p code s
    |p output code s|p h s|h g s|root par src creds run s].
  - by eapply proc_call_inv.
  - by eapply subscribe_inv.
  - by eapply deliver_inv.
  - assert (events_inv (set_table (exit p code) (set_runner_tasks (λ r, r ∖ {[p]}) s))) as H1.
    { eapply quiet_inv; [|exact Hinv]. etrans; [apply quiet_runner|].
      apply quiet_table, step_exit. }
    unfold record_exit. case_match; [by apply publish_inv|done].
  - unfold runner_finished. case_bool_decide; [|done]. apply publish_inv.
    eapply quiet_inv; [etrans; [apply quiet_runner|apply quiet_table, step_exit]|].
    case_bool_decide; [done|]. apply publish_inv.
    eapply quiet_inv; [apply quiet_streams|done].
  - unfold bind_live_namespace. case_match; [|done]. eapply quiet_inv; [|exact Hinv].
    unfold live_change. destruct (live_at h s).
    etrans; [apply quiet_lives|]. etrans; [apply quiet_lives|].
    apply quiet_table, step_bump.
  - unfold live_change. destruct (live_at h s). eapply quiet_inv; [apply quiet_lives|done].
  - eapply quiet_inv; [apply quiet_views|done].
Qed.

Lemma events_inv_new v : events_inv (proc_new v).1.
Proof.
  assert (∀ k p o, ¬ registered k p o (proc_new (X := X) v).1) as Hno.
  { intros k p o. unfold registered. destruct k; simpl; rewrite lookup_empty;
      by intros ?%not_elem_of_nil. }
  constructor; simpl.
  - apply table_inv_new.
  - by intros k p o Hr%Hno.
  - by intros k k' p p' o Hr%Hno.
  - intros k p. destruct k; simpl; rewrite lookup_empty; constructor.
  - by intros k p o Hr%Hno.
Qed.

(** ** Steps that only begin live deliveries *)

Record only_live s s' : Prop := {
  ol_observers k : observers k s' = observers k s;
  ol_delivered : delivered s' = delivered s;
  ol_under_way : ∃ ds, Forall (λ d, dl_replay d = false) ds ∧
    under_way (sinks s') = under_way (sinks s) ++ ds;
}.
Global Instance only_live_preorder : PreOrder only_live.
Proof.
  split.
  - intros s. constructor; [done|done|]. exists []. by rewrite app_nil_r.
  - intros x y z [H1 H2 (ds & H3 & H4)] [K1 K2 (es & K3 & K4)].
    constructor; [intros k; by rewrite K1|congruence|]. exists (ds ++ es).
    split; [by apply Forall_app|]. by rewrite K4, H4, app_assoc.
Qed.
Lemma same_sinks_live s s' : (∀ k, observers k s' = observers k s) → sinks s' = sinks s → only_live s s'.
Proof.
  intros Ho Hs. constructor; [done|by unfold delivered; rewrite Hs|]. exists []. by rewrite Hs, app_nil_r.
Qed.
Lemma quiet_live s s' : quiet s s' → only_live s s'.
Proof. intros [_ _ Ho Hs]. by apply same_sinks_live. Qed.
Lemma quiet_live_op {A} (m : Op (ProcState X) A) : step_rel quiet m → step_rel only_live m.
Proof. intros Hm s. apply quiet_live, Hm. Qed.
Lemma publish_live p e s : only_live s (publish_process_event p e s).
Proof.
  constructor; [intros k; apply publish_observers|unfold delivered; by rewrite publish_sinks|].
  rewrite publish_sinks. eexists. split; [|done]. by constructor.
Qed.
Lemma open_streams_live p s : only_live s (open_streams p s).
Proof. apply same_sinks_live; [by intros []|done]. Qed.
Lemma table_live g s : only_live s (set_table g s).
Proof. apply same_sinks_live; [by intros []|done]. Qed.
#[local] Hint Resolve quiet_live_op publish_live open_streams_live table_live quiet_live step_modify
  walk_quiet open_quiet read_quiet stat_quiet : alan.
Lemma rebind_live self n p :
  step_rel only_live ((λ s, let '(s', n') := rebind_proc_spawners self n p s in (s', Ok n')) :
    Op (ProcState X) (Namespace Tree)).
Proof.
  intros s. pose proof (quiet_rebind self n p s) as Hq.
  destruct (rebind_proc_spawners self n p s). by apply quiet_live.
Qed.
#[local] Hint Resolve rebind_live : alan.
Lemma commit_spawn_live self p ex : step_rel only_live (commit_spawn self p ex).
Proof. unfold commit_spawn, reject_spawn. msteps; auto with alan. Qed.
#[local] Hint Resolve commit_spawn_live : alan.
Lemma proc_clunk_only_live self f : step_rel only_live (proc_clunk parse_exec self f).
Proof. unfold proc_clunk, reject_spawn. msteps; auto with alan. Qed.
Lemma exit_live p code s : only_live s (set_table (exit p code) (set_runner_tasks (λ r, r ∖ {[p]}) s)).
Proof. etrans; [apply quiet_live, quiet_runner|apply table_live]. Qed.
#[local] Hint Resolve exit_live : alan.
Lemma proc_write_only_live self f offset data : step_rel only_live (proc_write self f offset data).
Proof. unfold proc_write. msteps; auto with alan. Qed.
#[local] Hint Resolve proc_clunk_only_live proc_write_only_live : alan.
Lemma proc_call_live self req :
  step_rel only_live (transport_call (H := ProcFs_FileServer descriptors_json parse_exec self) req).
Proof. destruct req; simpl; unfold proc_create, proc_remove; msteps; auto with alan. Qed.
(** Everything but a subscription and a delivery *)
Lemma proc_step_live s s' :
  proc_step s s' → only_live s s' ∨ (∃ n, deliver n s = Some s') ∨
  ∃ k txt o r, fresh_sink o s ∧ subscribe_as k txt o s = (s', r).
Proof.
  intros Hs. destruct Hs as [self req s s' r Hc|k txt o s s' r Hf Hc|n s s' Hd|p code s
    |p output code s|p h s|h g s|root par src creds run s].
  - left. by eapply step_rel_elim; [apply proc_call_live|].
  - right. right. eauto 10.
  - eauto.
  - left. unfold record_exit. case_match; [etrans; [apply exit_live|apply publish_live]|apply exit_live].
  - left. unfold runner_finished. case_bool_decide; [|reflexivity].
    etrans; [|apply publish_live]. etrans; [|apply exit_live].
    case_bool_decide; [reflexivity|]. etrans; [apply quiet_live, quiet_streams|apply publish_live].
  - left. unfold bind_live_namespace. case_match; [|reflexivity]. unfold live_change.
    destruct (live_at h s). apply quiet_live.
    etrans; [apply quiet_lives|]. etrans; [apply quiet_lives|]. apply quiet_table, step_bump.
  - left. unfold live_change. destruct (live_at h s). apply quiet_live, quiet_lives.
  - left. apply quiet_live, quiet_views.
Qed.

(** ** The replay comes first *)

Lemma sent_more o p x s g :
  sent o p (set_sinks (λ k, mkSinks (sk_delivered k ++ [x]) (g k)) s) =
  sent o p s ++ option_list (pick o p x).
Proof. unfold sent, delivered. simpl. rewrite omap_app. simpl. by destruct (pick o p x). Qed.
Lemma replay_live R o p s s' : only_live s s' → replay_first R o p s → replay_first R o p s'.
Proof.
  intros [_ Hd (ds & Hds & Hu)] (j & d & Hj & Hr & Hpre & Heq & Hno). exists j, d.
  unfold sent in *. rewrite Hd, Hu. split_and!; [by apply lookup_app_l_Some|done..|].
  intros i d' [Hi|[_ Hi]]%lookup_app_Some Hr'; [by eapply Hno|].
  apply (Forall_lookup_1 _ _ _ _ Hds) in Hi. congruence.
Qed.
Lemma replay_subscribe R k txt o o' p s s' r :
  o' ≠ o → subscribe_as k txt o' s = (s', r) → replay_first R o p s → replay_first R o p s'.
Proof.
  intros Hne [[-> _]|(_ & q & _ & _ & _ & _ & _ & Hs)]%subscribe_spec; [done|].
  intros (j & d & Hj & Hr & Hpre & Heq & Hno). exists j, d.
  destruct (sent_sinks o p _ _ Hs) as [-> _]. rewrite sent_begin, Hs. simpl.
  split_and!; [by apply lookup_app_l_Some|done..|].
  intros i d' [Hi|[_ Hi]]%lookup_app_Some Hr' Hi'; [by eapply Hno|].
  destruct (i - _)%nat; simplify_eq/=. intros (x & Hx & E).
  apply list_elem_of_fmap in Hx as (note & -> & _). done.
Qed.
(** What comes to an observer is of its kind. *)
Lemma coming_kind k p o s n d m rest :
  events_inv s → registered k p o s → under_way (sinks s) !! n = Some (mkDelivery d ((o, p, m) :: rest)) →
  note_of_kind k m.
Proof.
  intros Hi Hr Hn. assert (m ∈ omap (note_of k) (history p s)) as Hm.
  { rewrite <- (ei_sent _ Hi k p o Hr). apply elem_of_app. right. unfold coming.
    rewrite (omap_Permutation _ _ _ (rest_insert _ _ _ _ _ Hn)), pick_head. simpl.
    rewrite bool_decide_eq_true_2 by done. left. }
  apply list_elem_of_omap in Hm as (e & _ & He). by exists e.
Qed.
Definition ordered_kind (k : sub_kind) : bool :=
  match k with EventSub | IoSub => true | InputSub | OutputSub => false end.
Lemma kind_ordered k m : ordered_kind k = true → note_of_kind k m → is_ordered m = true.
Proof. intros Hk [e He]. unfold note_of, event_note in He. by destruct k, e; simplify_eq/=. Qed.

Lemma replay_deliver R k o p n s s' :
  events_inv s → registered k p o s → ordered_kind k = true → deliver n s = Some s' →
  replay_first R o p s → replay_first R o p s'.
Proof.
  intros Hi Hk Hord (replay & x & rest & Hn & Hwait & ->)%deliver_spec (j & d & Hj & Hr & Hpre & Heq & Hno).
  assert (∀ i d', <[n := mkDelivery replay rest]> (under_way (sinks s)) !! i = Some d' →
    dl_replay d' = true → i ≠ j → ¬ mentions o d') as Hno'.
  { intros i d' Hi' Hr' Hij. destruct (decide (i = n)) as [->|Hin].
    - rewrite list_lookup_insert_eq in Hi' by (by eapply lookup_lt_Some). simplify_eq/=. intros (y & Hy & E).
      apply (Hno n _ Hn eq_refl Hij). exists y. split; [by right|done].
    - rewrite list_lookup_insert_ne in Hi' by done. by eapply Hno. }
  unfold replay_first. rewrite sent_more. simpl. destruct (decide (n = j)) as [->|Hne].
  - assert (d = mkDelivery replay (x :: rest)) as -> by congruence.
    cbn [dl_replay dl_rest] in *. subst replay. rewrite pick_head, app_assoc in Hpre, Heq.
    exists j, (mkDelivery true rest).
    split_and!; [apply list_lookup_insert_eq; by eapply lookup_lt_Some|done|exact Hpre| |exact Hno'].
    intros Hrest. apply Heq. by destruct (option_list _).
  - exists j, d. split_and!; [by rewrite list_lookup_insert_ne|done| | |exact Hno'].
    all: destruct (pick o p x) as [m|] eqn:Hx; simpl; [|by rewrite app_nil_r].
    all: destruct x as [[o' p'] m']; simpl in Hx; case_bool_decide as Hop; [|done]; destruct Hop; simplify_eq/=.
    all: assert (¬ mentions o d) as Hmen.
    1, 3: destruct replay; [exfalso; apply (Hno n _ Hn eq_refl Hne); eexists; split; [left|done]|].
    1, 2: eapply replaying_false; [|exact Hj|exact Hr]; apply Hwait; [|done];
      apply (kind_ordered k); [done|]; by eapply coming_kind.
    all: rewrite (pick_none o p d Hmen) in *; rewrite app_nil_r in *.
    + by apply prefix_app_r.
    + done.
Qed.

Lemma steps_inv s s' : rtc proc_step s s' → events_inv s → events_inv s'.
Proof. induction 1; eauto using proc_step_inv. Qed.
Lemma registered_step k p o s s' : proc_step s s' → registered k p o s → registered k p o s'.
Proof.
  intros [[Ho _ _]|[[n Hd]|(k' & txt & o' & r & _ & Hs)]]%proc_step_live Hr.
  - unfold registered. by rewrite Ho.
  - apply deliver_spec in Hd as (? & ? & ? & _ & _ & ->). by destruct k.
  - apply subscribe_spec in Hs as [[-> _]|(_ & q & _ & _ & _ & _ & Ho & _)]; [done|].
    apply (registered_push k' k q p o' o s s' Ho). by left.
Qed.
Lemma replay_step R k o p s s' :
  ordered_kind k = true → events_inv s → registered k p o s → proc_step s s' →
  replay_first R o p s → replay_first R o p s'.
Proof.
  intros Hk Hi Hr [Hl|[[n Hd]|(k' & txt & o' & r & (_ & _ & Hf) & Hs)]]%proc_step_live.
  - by apply replay_live.
  - by eapply replay_deliver.
  - eapply replay_subscribe; [|exact Hs]. intros ->. by apply (Hf k p).
Qed.
Lemma replay_steps R k o p s s' :
  rtc proc_step s s' → ordered_kind k = true → events_inv s → registered k p o s →
  replay_first R o p s → replay_first R o p s'.
Proof. induction 1; eauto using replay_step, registered_step, proc_step_inv. Qed.

Lemma subscribed k txt o s0 s1 p :
  fresh_sink o s0 → subscribe_as k txt o s0 = (s1, Ok tt) → parse_pid txt = Some p →
  registered k p o s1 ∧ replay_first (omap (note_of k) (history p s0)) o p s1.
Proof.
  intros (Hsent & Hquiet & _) [[_ ?]|(_ & q & Hq & _ & _ & _ & Ho & Hs)]%subscribe_spec Hp; [done|].
  assert (q = p) as -> by congruence.
  split; [apply (registered_push k k p p o o s0 s1 Ho); by right|].
  set (R := omap (note_of k) (history p s0)) in *.
  eexists (length (under_way (sinks s0))), _. destruct (sent_sinks o p _ _ Hs) as [-> _].
  rewrite sent_begin, Hs, Hsent. simpl. split_and!; [by apply list_lookup_middle|done| | |].
  - cbn [dl_rest]. rewrite pick_replay, bool_decide_eq_true_2 by done. done.
  - intros _. cbn [dl_rest]. rewrite pick_replay, bool_decide_eq_true_2 by done. done.
  - intros i d' [Hi|[Hle Hi]]%lookup_app_Some _ Hne.
    + apply Hquiet. by eapply list_elem_of_lookup_2.
    + destruct (i - _)%nat eqn:E; simplify_eq/=. lia.
Qed.

End events.



(** A process spawned, observed, and ended. *)
Definition demo_call (req : Request) (s : ProcState unit) : ProcState unit :=
  (transport_call (H := ProcFs_FileServer (λ _, []) spec_parser spawner) req s).1.
Definition observed : ProcState unit :=
  let s := (new_view PRoot None (Snapshot boot_ns) credentials_system false boot_state).1 in
  let s := demo_call (WalkReq ROOT 1 ["clone"]) s in
  let s := demo_call (OpenReq 1 Write) s in
  let s := demo_call (WriteReq 1 0 (into_bytes "spec")) s in
  demo_call (ClunkReq 1) s.

(** A late observer: the exit is published before the replay has been made, and waits
    for it. *)
Definition late_observer : ProcState unit :=
  record_exit 1 0 (subscribe_as EventSub "1" 9 observed).1.
Lemma late_observer_waits :
  deliver 2 late_observer = None ∧
  sent 9 1 <$> (deliver 1 late_observer ≫= deliver 2) =
    Some [EventNote (StatusEvent "running"); EventNote (StatusEvent "exited")].
Proof. by vm_compute. Qed.

Lemma observed_fresh : fresh_sink 9 observed.
Proof.
  assert (sinks observed = mkSinks [] [mkDelivery false []]) as E by (vm_compute; reflexivity).
  unfold fresh_sink, sent, delivered. rewrite E. split_and!; [done| |].
  - intros d ->%list_elem_of_singleton (x & Hx & _). by apply elem_of_nil in Hx.
  - intros k p. unfold registered. destruct k; vm_compute; intros Hx; inversion Hx.
Qed.
Lemma observed_subscribes : subscribe_as EventSub "1" 9 observed = ((subscribe_as EventSub "1" 9 observed).1, Ok tt).
Proof.
  rewrite (surjective_pairing (subscribe_as EventSub "1" 9 observed)) at 1.
  by f_equal.
Qed.

(** Observers of output alone are not ordered: a live notification can overtake the
    replay of what came before it. *)
Example output_overtakes_replay :
  let write b s := publish_process_event 1 (OutputEvent b) s in
  let s := write 2 (subscribe_as OutputSub "1" 9 (write 1 observed)).1 in
  sent 9 1 <$> (deliver 3 s ≫= deliver 2) = Some [OutputNote 2; OutputNote 1].
Proof. by vm_compute. Qed.
