(* ===== verification/Bootstrap.v ===== *)
(** * The kernel root (crates/kernel/src/bootstrap.rs)

    The boot namespace over the process device and the rendezvous device, and
    the world behind it: a request to a mounted tree goes to the view of [/proc]
    it names or to [/srv]. The world keeps the contract that the namespace
    server relies on, so what MountBacking proves holds of the kernel. *)
From S2P Require Import Prelude RustStd ApTypes ApServer Namespace NamespaceFacts Process SrvFs MountFs MountBacking ProcFs ProcFsFacts.

Local Abbreviation KTree := (ptree unit).

Record KernelWorld : Type := mkKernel {
  k_proc : ProcState unit; k_srv : SrvFs KTree }.

Section kernel.
Context (descriptors_json : gmap Z string → bytes).
Context (parse_exec : bytes → option ExecSpec).
Context (hash_handles : list (string * Z) → Z).

(** [KernelRoot::new]: the world, the boot view of [/proc] and the root namespace. *)
Definition kernel_new : KernelWorld * View unit * Namespace KTree :=
  let '(s, procfs) := proc_new 1 in
  let n := mount "/proc" (ProcView (view_id procfs)) AccessReadWrite ns_new in
  let n := mount "/srv" (OtherTree tt) AccessReadWrite n in
  let '(s, procfs) := for_spawner procfs None n credentials_system s in
  let n := unmount "/proc" n in
  let n := mount "/proc" (ProcView (view_id procfs)) AccessReadWrite n in
  (mkKernel s srv_new, procfs, n).

Definition view_at (id : Z) (s : ProcState unit) : option (View unit) :=
  v ← proc_views s !! id; if bool_decide (view_id v = id) then Some v else None.

(** A request to a mounted tree of the kernel. *)
Definition kernel_call (t : KTree) (req : Request) : Op KernelWorld Response := λ w,
  match t with
  | ProcView id =>
      match view_at id (k_proc w) with
      | Some v =>
          let '(s, r) := transport_call
            (H := ProcFs_FileServer descriptors_json parse_exec v) req (k_proc w) in
          (mkKernel s (k_srv w), r)
      | None => (w, Panic)
      end
  | OtherTree _ =>
      let '(s, r) := transport_call (H := SrvFs_FileServer hash_handles) req (k_srv w) in
      (mkKernel (k_proc w) s, r)
  end.
End kernel.

(** ** Fids of the views of [/proc] *)

Section fids.
Context {X : Type} (descriptors_json : gmap Z string → bytes).
Context (parse_exec : bytes → option ExecSpec).
Implicit Types (s : ProcState X) (self : View X).

(** The fids a view has bound. *)
Definition proc_live (v : Z) s : gset Fid :=
  set_map snd (filter (λ k, k.1 = v ∧ k.2 ≠ ROOT) (dom (p_fids s))).

Lemma elem_of_proc_live v s f :
  f ∈ proc_live v s ↔ f ≠ ROOT ∧ is_Some (p_fids s !! (v, f)).
Proof.
  unfold proc_live. rewrite elem_of_map. split.
  - intros ([v' f'] & -> & [[Hv Hf] Hin]%elem_of_filter). simpl in *. subst.
    split; [done|]. by apply elem_of_dom.
  - intros [Hf Hs]. exists (v, f). split; [done|].
    apply elem_of_filter. split; [done|]. by apply elem_of_dom.
Qed.

(** No fid appears or disappears, but for the root's own bookkeeping. *)
Definition same_fids s s' : Prop :=
  ∀ v f, f ≠ ROOT → is_Some (p_fids s' !! (v, f)) ↔ is_Some (p_fids s !! (v, f)).
Global Instance same_fids_preorder : PreOrder same_fids.
Proof. split; [done|]. intros x y z Hxy Hyz v f Hf. by rewrite (Hyz v f Hf), (Hxy v f Hf). Qed.

Lemma same_fids_live v s s' : same_fids s s' → proc_live v s' = proc_live v s.
Proof.
  intros Hs. apply set_eq. intros f. rewrite !elem_of_proc_live. split.
  - intros [Hf Hx]. split; [done|]. by apply Hs.
  - intros [Hf Hx]. split; [done|]. by apply Hs.
Qed.
Lemma same_fids_eq s s' : p_fids s' = p_fids s → same_fids s s'.
Proof. intros Hs v f _. by rewrite Hs. Qed.
Lemma same_fids_insert s v f x :
  f = ROOT ∨ is_Some (p_fids s !! (v, f)) →
  same_fids s (set_p_fids (insert (v, f) x) s).
Proof.
  intros Hf v' f' Hne. simpl. rewrite lookup_insert_is_Some'. split; [|by right].
  intros [[= -> ->]|?]; [|done]. by destruct Hf.
Qed.

Lemma node_of_ok self f s s' n :
  proc_node_of self f s = (s', Ok n) → s' = s ∧ (f = ROOT ∨ is_Some (p_fids s !! (view_id self, f))).
Proof.
  unfold proc_node_of. mrun. case_bool_decide; [intros [= <- _]; auto|].
  destruct (p_fids s !! _) eqn:E; intros [= <- _]. rewrite <- E. eauto.
Qed.
Lemma node_of_reads self f : step_rel (=) (proc_node_of (X := X) self f).
Proof. unfold proc_node_of. msteps. Qed.
Lemma walk_names_reads' n names cur : step_rel (=) (proc_walk_names (X := X) n names cur).
Proof. revert n. induction names; intros n; simpl; msteps. Qed.
Lemma read_stream_reads o off c : step_rel (=) (read_stream (X := X) o off c).
Proof. unfold read_stream. msteps. Qed.
#[local] Hint Resolve node_of_reads walk_names_reads' read_stream_reads : alan.
Lemma proc_read_reads self f off c : step_rel (=) (proc_read (X := X) descriptors_json self f off c).
Proof. unfold proc_read. msteps. Qed.
Lemma proc_stat_reads self f : step_rel (=) (proc_stat (X := X) descriptors_json self f).
Proof. unfold proc_stat. msteps. Qed.

Lemma begin_clone_fids self s : p_fids (begin_clone self s).1 = p_fids s.
Proof.
  unfold begin_clone, child_namespace_for_spawn.
  destruct (source_snapshot _ s) as [n gen].
  destruct (rebind_proc_spawners _ _ _ s) as [s1 n1] eqn:Hr.
  apply rebind_frame in Hr as (views & k & -> & _). done.
Qed.

Lemma proc_open_fids self f m s : same_fids s (proc_open self f m s).1.
Proof.
  unfold proc_open. mrun. destruct (proc_node_of self f s) as [s1 r1] eqn:Hn.
  destruct r1 as [n|e| |];
    [|apply (step_rel_elim (=)) in Hn as <-; [done|apply node_of_reads]..].
  apply node_of_ok in Hn as [-> Hf].
  destruct (_ && _); [done|]. destruct (match p_fids s !! _ with Some _ => _ | _ => _ end); [done|].
  destruct (bool_decide (n = PClone)).
  - destruct (negb _); [done|]. pose proof (begin_clone_fids self s) as Hb.
    destruct (begin_clone self s) as [s2 [slot|e| |]]; simpl in Hb |- *;
      try by apply same_fids_eq.
    etrans; [by apply same_fids_eq|]. apply same_fids_insert. by rewrite Hb.
  - destruct (p_fids s !! _) as [pf|] eqn:Hp; [|done]. simpl.
    apply same_fids_insert. right. by rewrite Hp.
Qed.

Lemma proc_write_fids self f off d s : same_fids s (proc_write self f off d s).1.
Proof.
  assert (∀ key lim, same_fids s (buffer_at key off d lim s).1) as Hbuf.
  { intros [v g] lim. unfold buffer_at. mrun.
    destruct (p_fids s !! (v, g)) as [pf|] eqn:Hp; [|done].
    destruct (buffer_write pf off d lim). apply same_fids_insert. right. by rewrite Hp. }
  assert (∀ p e s1, same_fids s s1 → same_fids s (publish_process_event p e s1)) as Hpub.
  { intros p e s1 Hs. etrans; [exact Hs|]. apply same_fids_eq, publish_fids. }
  unfold proc_write. mrun. destruct (proc_node_of self f s) as [s1 r1] eqn:Hn.
  destruct r1 as [n|e| |];
    [|apply (step_rel_elim (=)) in Hn as <-; [done|apply node_of_reads]..].
  apply node_of_ok in Hn as [-> Hf]. destruct n; try done.
  - destruct (p_fids s !! _) as [pf|]; [|done].
    destruct (opened_for_write _); [|done]. simpl. destruct (isSome _); [apply Hbuf|done].
  - destruct (negb _); [done|]. destruct (bool_decide _ || bool_decide _); [|done].
    by apply Hpub.
  - destruct (negb _); [done|]. apply Hbuf.
  - destruct (negb _); [done|]. destruct (outputs s !! p); [|done].
    destruct (io_events s !! p); [|done]. by apply Hpub.
Qed.

Lemma commit_spawn_fids self p ex s : p_fids (commit_spawn self p ex s).1 = p_fids s.
Proof.
  destruct (commit_spawn self p ex s) as [s' r] eqn:Hc.
  apply commit_spawn_spec in Hc
    as (views & k & [[_ ->]|(pd & n & _ & _ & _ & _ & _ & ->)]); done.
Qed.

(** A clunk drops the key of its fid and no other. *)
Lemma proc_clunk_fids self f s :
  p_fids (proc_clunk parse_exec self f s).1 =
  if bool_decide (f = ROOT) && negb (bool_decide (root_node self = PClone))
  then p_fids s else delete (view_id self, f) (p_fids s).
Proof.
  unfold proc_clunk. mrun. destruct (_ && _); [done|]. cbv beta iota.
  destruct (p_fids s !! _) as [pf|] eqn:Hp; [|by rewrite delete_id].
  destruct (write_failed pf); [by destruct (clone_pid pf)|].
  destruct (clone_pid pf) as [p|].
  - destruct (parse_exec _) as [ex|]; [|done].
    pose proof (commit_spawn_fids self p ex (set_p_fids (delete (view_id self, f)) s)) as Hc.
    destruct (commit_spawn _ _ _ _) as [s1 [c|e| |]]; simpl in Hc |- *; try done.
    by destruct (runner self); simpl; rewrite <- Hc, <- (publish_fids c (StatusEvent "running") s1).
  - destruct (pf_node pf); try done. destruct (wrote pf); [|done].
    destruct (inputs s !! p); [|done]. destruct (io_events s !! p); [|done].
    done.
Qed.

Lemma proc_walk_fids self f newfid names s s' r :
  proc_walk self f newfid names s = (s', r) →
  match r with
  | Ok _ => newfid ≠ ROOT ∧ ∃ x, p_fids s' = <[(view_id self, newfid) := x]> (p_fids s)
  | _ => s' = s
  end.
Proof.
  unfold proc_walk. mrun. destruct (bool_decide (newfid = ROOT) || _) eqn:Hb;
    [by intros [= <- <-]|]. bool_facts.
  destruct (proc_node_of self f s) as [s1 r1] eqn:Hn.
  apply (step_rel_elim (=)) in Hn as <-; [|apply node_of_reads].
  destruct r1 as [n|e| |]; [|by intros [= <- <-]..].
  destruct (proc_walk_names n names _ s) as [s2 r2] eqn:Hw.
  apply (step_rel_elim (=)) in Hw as <-; [|apply walk_names_reads'].
  destruct r2 as [n'|e| |]; intros [= <- <-]; try done. split; [done|]. by eexists.
Qed.

Global Instance proc_fid_contract self :
  FidContract (H := ProcFs_FileServer descriptors_json parse_exec self) (ProcState X)
              (proc_live (view_id self)).
Proof.
  constructor; simpl.
  - intros s fid newfid names Hn. unfold proc_walk. mrun.
    replace (_ || _) with true; [done|]. symmetry. apply orb_true_iff.
    destruct Hn as [->|[_ Hx]%elem_of_proc_live]; [by left|right]. by apply isSome_true.
  - intros s s' fid newfid names q [Hne [x Hx]]%proc_walk_fids. apply set_eq. intros f.
    rewrite elem_of_union, elem_of_singleton, !elem_of_proc_live, Hx,
      lookup_insert_is_Some'. naive_solver.
  - by intros s s' fid newfid names e ->%proc_walk_fids.
  - intros s s' fid m r Hr. apply same_fids_live.
    pose proof (proc_open_fids self fid m s) as H. by rewrite Hr in H.
  - intros s s' fid off c r Hr.
    apply (step_rel_elim (=)) in Hr as <-; [done|apply proc_read_reads].
  - intros s s' fid off d r Hr. apply same_fids_live.
    pose proof (proc_write_fids self fid off d s) as H. by rewrite Hr in H.
  - intros s s' fid r Hr.
    apply (step_rel_elim (=)) in Hr as <-; [done|apply proc_stat_reads].
  - done.
  - by intros s s' fid newfid name k e [= <- _].
  - done.
  - by intros s s' fid e [= <- _].
  - intros s s' fid r Hne Hc. pose proof (proc_clunk_fids self fid s) as H.
    rewrite Hc, bool_decide_eq_false_2 in H by done. simpl in H. apply set_eq. intros f.
    rewrite elem_of_difference, elem_of_singleton, !elem_of_proc_live, H.
    destruct (decide (f = fid)) as [->|Hf].
    + rewrite lookup_delete_eq. split; [by intros [_ []]|tauto].
    + rewrite lookup_delete_ne by congruence. tauto.
  - intros s. rewrite elem_of_proc_live. tauto.
Qed.

(** A view leaves the fids of the others alone. *)
Lemma proc_call_frame self req s s' r v' :
  v' ≠ view_id self →
  transport_call (H := ProcFs_FileServer descriptors_json parse_exec self) req s = (s', r) →
  proc_live v' s' = proc_live v' s.
Proof.
  intros Hv Hc.
  assert (∀ A (m : Op (ProcState X) A) (g : A → Response),
    (a ← m; mret (g a)) s = (s', r) → ∃ r0, m s = (s', r0)) as Hcall.
  { intros A m g. unfold mbind, m_bind, mret, m_ret.
    destruct (m s) as [s1 []]; intros [= <- _]; eauto. }
  destruct req; simpl in Hc; apply Hcall in Hc as [r0 Hc].
  - apply proc_walk_fids in Hc. destruct r0; try by subst.
    destruct Hc as [_ [x Hx]]. apply set_eq. intros f.
    by rewrite !elem_of_proc_live, Hx, lookup_insert_ne by congruence.
  - apply same_fids_live. pose proof (proc_open_fids self fid mode s) as H. by rewrite Hc in H.
  - apply (step_rel_elim (=)) in Hc as <-; [done|apply proc_read_reads].
  - apply same_fids_live. pose proof (proc_write_fids self fid offset data s) as H.
    by rewrite Hc in H.
  - apply (step_rel_elim (=)) in Hc as <-; [done|apply proc_stat_reads].
  - by injection Hc as <- _.
  - by injection Hc as <- _.
  - pose proof (proc_clunk_fids self fid s) as H. rewrite Hc in H. simpl in H.
    apply set_eq. intros f. rewrite !elem_of_proc_live, H. destruct (_ && _); [done|].
    by rewrite lookup_delete_ne by congruence.
Qed.
End fids.

(** ** The kernel keeps the contract of the namespace server *)

Section contract.
Context (descriptors_json : gmap Z string → bytes).
Context (parse_exec : bytes → option ExecSpec).
Context (hash_handles : list (string * Z) → Z).
Local Abbreviation kcall := (kernel_call descriptors_json parse_exec hash_handles).

Definition kernel_bound (w : KernelWorld) (t : KTree) : gset Fid :=
  match t with
  | ProcView id => proc_live id (k_proc w)
  | OtherTree _ => srv_live (k_srv w)
  end.

(** A request reaches one device, and only that device changes. *)
Lemma kernel_call_at t req w w' r :
  kcall t req w = (w', r) →
  match t with
  | ProcView id =>
      k_srv w' = k_srv w ∧
      (r = Panic ∧ k_proc w' = k_proc w ∨
       ∃ v, view_id v = id ∧
         transport_call (H := ProcFs_FileServer descriptors_json parse_exec v) req (k_proc w) =
         (k_proc w', r))
  | OtherTree _ =>
      k_proc w' = k_proc w ∧
      transport_call (H := SrvFs_FileServer hash_handles) req (k_srv w) = (k_srv w', r)
  end.
Proof.
  unfold kernel_call. destruct t as [id|u].
  - unfold view_at. destruct (proc_views (k_proc w) !! id) as [v|]; simpl.
    2:{ intros [= <- <-]. auto. }
    case_bool_decide as Hv; [|intros [= <- <-]; auto].
    destruct (transport_call req (k_proc w)) as [s r0] eqn:Hc. intros [= <- <-].
    split; [done|]. right. by exists v.
  - destruct (transport_call req (k_srv w)) as [s r0] eqn:Hc. by intros [= <- <-].
Qed.

Lemma kernel_frame t t' req w w' r :
  kcall t req w = (w', r) → t' ≠ t → kernel_bound w' t' = kernel_bound w t'.
Proof.
  intros Hc Ht. apply kernel_call_at in Hc. destruct t as [id|u], t' as [id'|u']; simpl.
  - destruct Hc as [_ [[_ ->]|(v & Hv & Hc)]]; [done|].
    eapply proc_call_frame; [|exact Hc]. congruence.
  - by destruct Hc as [-> _].
  - by destruct Hc as [-> _].
  - by destruct u, u'.
Qed.

(** What holds of each device's own server holds of the kernel's trees. *)
Lemma kernel_local (P : gset Fid → gset Fid → result ErrorCode Response → Prop) t req w w' r :
  kcall t req w = (w', r) → P (kernel_bound w t) (kernel_bound w t) Panic →
  (∀ (v : View unit) s s' r,
     transport_call (H := ProcFs_FileServer descriptors_json parse_exec v) req s =
     (s', r) → P (proc_live (view_id v) s) (proc_live (view_id v) s') r) →
  (∀ s s' r, transport_call (H := SrvFs_FileServer (Tree := KTree) hash_handles) req s =
     (s', r) → P (srv_live s) (srv_live s') r) →
  P (kernel_bound w t) (kernel_bound w' t) r.
Proof.
  intros Hc Hpanic Hproc Hsrv. apply kernel_call_at in Hc. destruct t as [id|u]; simpl in *.
  - destruct Hc as [_ [[-> ->]|(v & <- & Hc)]]; [done|]. by eapply Hproc.
  - destruct Hc as [_ Hc]. by eapply Hsrv.
Qed.

Ltac handler Hc := unfold transport_call in Hc; apply after_handler in Hc as ([?|?| |] & Hm & Hr);
  simpl in Hr; simplify_eq.

Global Instance kernel_contract : BackingContract kcall kernel_bound.
Proof.
  constructor.
  - intros t t' req w w' r. apply kernel_frame.
  - intros t f n names w w' resp Hc.
    refine (kernel_local (λ b b' r, ∀ resp, r = Ok resp →
      (∃ q, resp = WalkResp q) ∧ b' = {[n]} ∪ b) t _ w w' _ Hc _ _ _ resp eq_refl); [done|..].
    + intros v s s' r Hx resp' ->. handler Hx. split; [eauto|]. by eapply walk_binds.
    + intros s s' r Hx resp' ->. handler Hx. split; [eauto|]. by eapply walk_binds.
  - intros t f n names w w' e Hc.
    refine (kernel_local (λ b b' r, ∀ e, r = Err e → b' = b) t _ w w' _ Hc _ _ _ e eq_refl);
      [done|..].
    + intros v s s' r Hx e' ->. handler Hx. by eapply walk_err_keeps.
    + intros s s' r Hx e' ->. handler Hx. by eapply walk_err_keeps.
  - intros t req w w' r Hp Hc.
    refine (kernel_local (λ b b' r, b' = b) t _ w w' _ Hc _ _ _); [done|..].
    + intros v s s' r' Hx. destruct req; try done; unfold transport_call in Hx;
        apply after_handler in Hx as (r0 & Hm & _);
        [by eapply open_keeps|by eapply read_keeps|by eapply write_keeps|by eapply stat_keeps].
    + intros s s' r' Hx. destruct req; try done; unfold transport_call in Hx;
        apply after_handler in Hx as (r0 & Hm & _);
        [by eapply open_keeps|by eapply read_keeps|by eapply write_keeps|by eapply stat_keeps].
  - intros t f n name k w w' resp Hc.
    refine (kernel_local (λ b b' r, ∀ resp, r = Ok resp →
      (∃ q, resp = CreateResp q) ∧ b' = {[n]} ∪ b) t _ w w' _ Hc _ _ _ resp eq_refl); [done|..].
    + intros v s s' r Hx resp' ->. by handler Hx.
    + intros s s' r Hx resp' ->. by handler Hx.
  - intros t f n name k w w' e Hc.
    refine (kernel_local (λ b b' r, ∀ e, r = Err e → b' = b) t _ w w' _ Hc _ _ _ e eq_refl);
      [done|..].
    + intros v s s' r Hx e' ->. handler Hx. by eapply create_err_keeps.
    + intros s s' r Hx e' ->. handler Hx. by eapply create_err_keeps.
  - intros t f w w' resp Hc.
    refine (kernel_local (λ b b' r, ∀ resp, r = Ok resp → b' = b ∖ {[f]})
      t _ w w' _ Hc _ _ _ resp eq_refl); [done|..].
    + intros v s s' r Hx resp' ->. by handler Hx.
    + intros s s' r Hx resp' ->. by handler Hx.
  - intros t f w w' e Hc.
    refine (kernel_local (λ b b' r, ∀ e, r = Err e → b' = b) t _ w w' _ Hc _ _ _ e eq_refl);
      [done|..].
    + intros v s s' r Hx e' ->. handler Hx. by eapply remove_err_keeps.
    + intros s s' r Hx e' ->. handler Hx. by eapply remove_err_keeps.
  - intros t f w w' r Hf Hnp Hc.
    refine (kernel_local (λ b b' r, r ≠ Panic → b' = b ∖ {[f]}) t _ w w' _ Hc _ _ _ Hnp);
      [done|..].
    + intros v s s' r' Hx _. unfold transport_call in Hx. apply after_handler in Hx as (r0 & Hm & _).
      by eapply clunk_releases.
    + intros s s' r' Hx _. unfold transport_call in Hx. apply after_handler in Hx as (r0 & Hm & _).
      by eapply clunk_releases.
  Unshelve.
  all: first [exact (proc_fid_contract _ _ _) | exact (srv_fid_contract _)].
Qed.
End contract.

(** ** The boot root *)

Definition boot : KernelWorld * View unit * Namespace KTree := kernel_new.
Definition boot_world : KernelWorld := boot.1.1.
Definition boot_procfs : View unit := boot.1.2.
Definition boot_namespace : Namespace KTree := boot.2.

(** The boot namespace is the substrate and nothing else. A path resolves to
    the boot view of the process device exactly below [/proc], to the rendezvous
    device exactly below [/srv], both writable, and to nothing otherwise; the
    boot view spawns into that very device as the system user, without a parent;
    the root directory lists the two. *)
Theorem boot_root_is_substrate path r tree_call fuel count :
  (r ∈ resolve_candidates path boot_namespace ↔
     ∃ rest,
       (split_path path = "proc" :: rest ∧
        r = mkResolved (ProcView (view_id boot_procfs)) rest AccessReadWrite) ∨
       (split_path path = "srv" :: rest ∧
        r = mkResolved (OtherTree tt) rest AccessReadWrite)) ∧
  view_at (view_id boot_procfs) (k_proc boot_world) = Some boot_procfs ∧
  ctx_parent boot_procfs = None ∧ ctx_credentials boot_procfs = credentials_system ∧
  (8 ≤ count →
   (m_read (W := KernelWorld) tree_call fuel ROOT 0 count
     (from_live_namespace boot_namespace 0 1 boot_world)).2 =
   Ok (into_bytes ("srv" +:+ String "010" "" +:+ "proc"))).
Proof.
  split_and!; [|done|done|done|].
  - rewrite candidates_longest_iff.
    change (mounts boot_namespace) with
      [mkMount ["srv"] (OtherTree tt) AccessReadWrite;
       mkMount ["proc"] (ProcView (view_id boot_procfs)) AccessReadWrite].
    unfold longest_at. split.
    + intros (m & (Hm & [rest Hrest] & _) & ->).
      apply elem_of_cons in Hm as [-> |Hm];
        [|apply list_elem_of_singleton in Hm as ->];
        simpl in Hrest; rewrite Hrest; exists rest; [right|left]; done.
    + intros (rest & [[Hp ->]|[Hp ->]]); rewrite Hp.
      * exists (mkMount ["proc"] (ProcView (view_id boot_procfs)) AccessReadWrite).
        split; [|done]. split_and!; [set_solver|by exists rest|].
        intros m' Hm' _. apply elem_of_cons in Hm' as [-> |Hm'];
          [|apply list_elem_of_singleton in Hm' as ->]; done.
      * exists (mkMount ["srv"] (OtherTree tt) AccessReadWrite).
        split; [|done]. split_and!; [set_solver|by exists rest|].
        intros m' Hm' _. apply elem_of_cons in Hm' as [-> |Hm'];
          [|apply list_elem_of_singleton in Hm' as ->]; done.
  - intros Hc. unfold m_read, target. mrun.
    set (s := from_live_namespace boot_namespace 0 1 boot_world).
    assert (m_fids s !! ROOT = Some (synthetic_entry [])) as -> by done.
    cbn [synthetic_entry reserved e_backing e_path snd].
    assert (synthetic_children [] s = ["srv"; "proc"]) as -> by (vm_compute; done).
    f_equal. by apply slice_all.
Qed.

Lemma boot_root_is_substrate_witness :
  (m_read (W := KernelWorld) (λ _ _, mfail Io) 1 ROOT 0 100
     (from_live_namespace boot_namespace 0 1 boot_world)).2 =
   Ok (into_bytes ("srv" +:+ String "010" "" +:+ "proc")).
Proof.
  apply (boot_root_is_substrate "/proc" (mkResolved (OtherTree tt) [] AccessReadWrite)
           (λ _ _, mfail Io) 1 100). lia.
Defined.

(** The kernel, end to end: through the root transport open [/proc/clone], read
    the pid back, write the spec, clunk; the process is listed, runs with the
    boot namespace, and the connection's end leaves no fid bound. *)
Example boot_session :
  let parse := λ _, Some (mkExec "/bin/sh" [] (from_snapshot boot_namespace 0) ∅) in
  let kcall := kernel_call (λ _, []) parse (λ _, 0) in
  let call := transport_call (H := MountFs_FileServer kcall (λ _, 0) 8) in
  let s := from_live_namespace boot_namespace 0 1 boot_world in
  let '(s, _) := call (WalkReq ROOT 1 ["proc"; "clone"]) s in
  let '(s, _) := call (OpenReq 1 Write) s in
  let '(s, pid) := call (ReadReq 1 0 10) s in
  let '(s, _) := call (WriteReq 1 0 (into_bytes "x")) s in
  let '(s, committed) := call (ClunkReq 1) s in
  let '(s, _) := call (WalkReq ROOT 2 ["proc"]) s in
  let '(s, listing) := call (ReadReq 2 0 100) s in
  let '(s, released) := clunk_all kcall s in
  pid = Ok (ReadResp (into_bytes "1")) ∧ committed = Ok ClunkResp ∧
  listing = Ok (ReadResp (into_bytes ("clone" +:+ String "010" "" +:+ "1"))) ∧
  released = Ok tt ∧ elements (kernel_bound (world s) (ProcView 2)) = [].
Proof. vm_compute. done. Qed.
