(* ===== verification/Knowledge.v ===== *)
(** * The content-addressed knowledge store (crates/knowledge/src/lib.rs)

    Immutable hash-named blocks and Merkle nodes, bound and pinned roots, and
    reachability-based collection. Parameters: the SHA-256 digest in
    hexadecimal (crates sha2 and hex), serde_json's printer of a node, and the
    unspecified order in which a hash map yields its values. The three recursive
    walks of the node graph take fuel; [Park] is a walk that has not returned,
    and one level of recursion per stored node and one more is always enough,
    also on a graph with cycles. *)
From S2P Require Import Prelude RustStd.

(** [ContentHash] *)
Definition ContentHash : Type := string.

Inductive RootAccess : Set := RootReadOnly | RootReadWrite.
Global Instance RootAccess_eq_dec : EqDecision RootAccess.
Proof. solve_decision. Defined.

Inductive RetentionPolicy : Set := KeepUnreachable | CollectUnreachable.
Global Instance RetentionPolicy_eq_dec : EqDecision RetentionPolicy.
Proof. solve_decision. Defined.

Record GcReport : Type := mkGcReport { removed_blocks : Z; removed_nodes : Z }.

Record BoundRoot : Type := mkBoundRoot {
  br_name : string;
  br_root : ContentHash;
  br_access : RootAccess;
}.
Global Instance BoundRoot_eq_dec : EqDecision BoundRoot.
Proof. solve_decision. Defined.

Inductive KnowledgeError : Type :=
  | MissingBlock (h : ContentHash)
  | MissingNode (h : ContentHash)
  | KNoAccess
  | HashMismatch (h : ContentHash)
  | UnknownRoot (name : string)
  | Cycle (h : ContentHash).

Inductive DagEntry : Type := EBlock (h : ContentHash) | ENode (h : ContentHash).

(** [DagNodeV1] with its only kind, [Sequence] *)
Record DagNodeV1 : Type := mkDagNode { dag_version : Z; entries : list DagEntry }.

Record KnowledgeStore : Type := mkStore {
  blocks : gmap ContentHash bytes;
  nodes : gmap ContentHash DagNodeV1;
  roots : gmap string BoundRoot;
  pinned_roots : gset ContentHash;
}.

Definition K (A : Type) : Type := M KnowledgeStore KnowledgeError A.

(** [KnowledgeStore::new] *)
Definition kstore_new : KnowledgeStore := mkStore ∅ ∅ ∅ ∅.

Definition set_blocks b s := mkStore b (nodes s) (roots s) (pinned_roots s).
Definition set_nodes n s := mkStore (blocks s) n (roots s) (pinned_roots s).
Definition set_roots r s := mkStore (blocks s) (nodes s) r (pinned_roots s).
Definition set_pinned p s := mkStore (blocks s) (nodes s) (roots s) p.

(** [HashMap::entry(k).or_insert(v)] *)
Definition or_insert {K V} `{Countable K} (k : K) (v : V) (m : gmap K V) : gmap K V :=
  match m !! k with Some _ => m | None => <[k := v]> m end.

Section store.
Context (sha256_hex : bytes → string) (node_json : DagNodeV1 → bytes).
Context (values : gmap string BoundRoot → list BoundRoot).

(** [hash_bytes] and [node_bytes] *)
Definition hash_bytes (b : bytes) : ContentHash := ("sha256:" +:+ sha256_hex b)%string.
Definition node_bytes (n : DagNodeV1) : bytes := node_json n.

Definition put_block (b : bytes) : K ContentHash :=
  let hash := hash_bytes b in
  mmodify (λ s, set_blocks (or_insert hash b (blocks s)) s);;
  mret hash.

Definition block_count (s : KnowledgeStore) : Z := Z.of_nat (size (blocks s)).
Definition node_count (s : KnowledgeStore) : Z := Z.of_nat (size (nodes s)).
Definition contains_block (s : KnowledgeStore) (h : ContentHash) : bool := isSome (blocks s !! h).
Definition contains_node (s : KnowledgeStore) (h : ContentHash) : bool := isSome (nodes s !! h).

Definition put_node (n : DagNodeV1) : K ContentHash :=
  let hash := hash_bytes (node_bytes n) in
  mmodify (λ s, set_nodes (or_insert hash n (nodes s)) s);;
  mret hash.

(** [blocks.into_iter().map(..).collect::<Result<Vec<_>, _>>()] of
    [checkpoint_from_blocks] and the loop of [fork_append_blocks]: both stop at
    the first hash that is not a stored block. *)
Fixpoint block_entries (s : KnowledgeStore) (hs : list ContentHash) :
    result KnowledgeError (list DagEntry) :=
  match hs with
  | [] => Ok []
  | h :: hs' =>
      if contains_block s h then result_map (cons (EBlock h)) (block_entries s hs')
      else Err (MissingBlock h)
  end.

Definition checkpoint_from_blocks (hs : list ContentHash) : K ContentHash :=
  s ← mget;
  es ← mresult (block_entries s hs);
  put_node (mkDagNode 1 es).

(** [blocks.into_iter().map(|b| self.put_block(b)).collect()] *)
Fixpoint put_blocks (bs : list bytes) : K (list ContentHash) :=
  match bs with
  | [] => mret []
  | b :: bs' => h ← put_block b; hs ← put_blocks bs'; mret (h :: hs)
  end.

Definition checkpoint_from_bytes (bs : list bytes) : K ContentHash :=
  hashes ← put_blocks bs; checkpoint_from_blocks hashes.

Definition fork_append_blocks (base_root : ContentHash) (hs : list ContentHash) :
    K ContentHash :=
  s ← mget;
  if contains_node s base_root then
    es ← mresult (block_entries s hs);
    put_node (mkDagNode 1 (ENode base_root :: es))
  else mfail (MissingNode base_root).

Definition fork_append_bytes (base_root : ContentHash) (bs : list bytes) : K ContentHash :=
  hashes ← put_blocks bs; fork_append_blocks base_root hashes.

Definition bind_root (name : string) (root : ContentHash) (access : RootAccess) : K BoundRoot :=
  s ← mget;
  if contains_node s root then
    let bound := mkBoundRoot name root access in
    mmodify (λ s, set_roots (<[name := bound]> (roots s)) s);;
    mret bound
  else mfail (MissingNode root).

Definition unbind_root (name : string) : K unit :=
  s ← mget;
  match roots s !! name with
  | Some _ => mmodify (λ s, set_roots (delete name (roots s)) s)
  | None => mfail (UnknownRoot name)
  end.

Definition root (name : string) (s : KnowledgeStore) : result KnowledgeError BoundRoot :=
  ok_or (roots s !! name) (UnknownRoot name).

Definition authorize_reachable_hash (h : ContentHash) (s : KnowledgeStore) :
    result KnowledgeError BoundRoot :=
  ok_or (snd <$> list_find (λ b, br_root b = h) (values (roots s))) KNoAccess.

(** *** Walks of the node graph; their state is the [visiting] set *)

Definition V (A : Type) : Type := M (gset ContentHash) KnowledgeError A.

(** The loop of [materialize_node] over a node's entries; [go] is the recursive
    call and [out] the output vector. *)
Fixpoint materialize_entries (s : KnowledgeStore) (go : ContentHash → V bytes)
    (es : list DagEntry) (out : bytes) : V bytes :=
  match es with
  | [] => mret out
  | EBlock h :: es' =>
      b ← mlift (blocks s !! h) (MissingBlock h);
      materialize_entries s go es' (out ++ b)
  | ENode h :: es' =>
      b ← go h;
      materialize_entries s go es' (out ++ b)
  end.

Fixpoint materialize_node (fuel : nat) (s : KnowledgeStore) (h : ContentHash) : V bytes :=
  match fuel with
  | O => mresult Park
  | S f =>
      visiting ← mget;
      if bool_decide (h ∈ visiting) then mfail (Cycle h) else
      mmodify (λ v, {[h]} ∪ v);;
      node ← mlift (nodes s !! h) (MissingNode h);
      out ← materialize_entries s (materialize_node f s) (entries node) [];
      mmodify (λ v, v ∖ {[h]});;
      mret out
  end.

Fixpoint verify_entries (s : KnowledgeStore) (go : ContentHash → V unit)
    (es : list DagEntry) : V unit :=
  match es with
  | [] => mret tt
  | EBlock h :: es' =>
      b ← mlift (blocks s !! h) (MissingBlock h);
      if bool_decide (hash_bytes b ≠ h) then mfail (HashMismatch h)
      else verify_entries s go es'
  | ENode h :: es' => go h;; verify_entries s go es'
  end.

Fixpoint verify_node (fuel : nat) (s : KnowledgeStore) (h : ContentHash) : V unit :=
  match fuel with
  | O => mresult Park
  | S f =>
      visiting ← mget;
      if bool_decide (h ∈ visiting) then mfail (Cycle h) else
      mmodify (λ v, {[h]} ∪ v);;
      node ← mlift (nodes s !! h) (MissingNode h);
      if bool_decide (hash_bytes (node_bytes node) ≠ h) then mfail (HashMismatch h) else
      verify_entries s (verify_node f s) (entries node);;
      mmodify (λ v, v ∖ {[h]})
  end.

(** One level of recursion per stored node, and one for a node that is missing
    or already being visited. *)
Definition walk_fuel (s : KnowledgeStore) : nat := S (size (nodes s)).

Definition verify_root_hash (h : ContentHash) (s : KnowledgeStore) : result KnowledgeError unit :=
  snd (verify_node (walk_fuel s) s h ∅).

Definition read_bound_root (r : BoundRoot) (s : KnowledgeStore) : result KnowledgeError bytes :=
  match roots s !! br_name r with
  | Some current =>
      if bool_decide (current = r) then
        match verify_root_hash (br_root r) s with
        | Ok _ => snd (materialize_node (walk_fuel s) s (br_root r) ∅)
        | Err e => Err e
        | Park => Park
        | Panic => Panic
        end
      else Err KNoAccess
  | None => Err KNoAccess
  end.

Definition pin_root (h : ContentHash) : K unit :=
  s ← mget;
  if contains_node s h then mmodify (λ s, set_pinned ({[h]} ∪ pinned_roots s) s)
  else mfail (MissingNode h).

Definition unpin_root (h : ContentHash) : K unit :=
  mmodify (λ s, set_pinned (pinned_roots s ∖ {[h]}) s).

(** *** Garbage collection: the state is the reachable nodes and blocks *)

Definition G (A : Type) : Type := M (gset ContentHash * gset ContentHash) KnowledgeError A.

Fixpoint mark_entries (go : ContentHash → G unit) (es : list DagEntry) : G unit :=
  match es with
  | [] => mret tt
  | EBlock h :: es' => mmodify (λ '(ns, bs), (ns, {[h]} ∪ bs));; mark_entries go es'
  | ENode h :: es' => go h;; mark_entries go es'
  end.

Fixpoint mark_reachable (fuel : nat) (s : KnowledgeStore) (h : ContentHash) : G unit :=
  match fuel with
  | O => mresult Park
  | S f =>
      marked ← mget;
      if bool_decide (h ∈ marked.1) then mret tt else
      mmodify (λ '(ns, bs), ({[h]} ∪ ns, bs));;
      match nodes s !! h with
      | None => mret tt
      | Some node => mark_entries (mark_reachable f s) (entries node)
      end
  end.

(** [for root in roots { self.mark_reachable(&root, ..) }] *)
Fixpoint mark_roots (s : KnowledgeStore) (hs : list ContentHash) : G unit :=
  match hs with
  | [] => mret tt
  | h :: hs' => mark_reachable (walk_fuel s) s h;; mark_roots s hs'
  end.

(** The roots the collector starts from; the order of a set is unspecified too,
    and only the marked sets depend on the walk. *)
Definition gc_roots (s : KnowledgeStore) : list ContentHash :=
  (br_root <$> values (roots s)) ++ elements (pinned_roots s).

Definition collect_garbage (policy : RetentionPolicy) : K GcReport :=
  if bool_decide (policy = KeepUnreachable) then mret (mkGcReport 0 0) else
  s ← mget;
  match mark_roots s (gc_roots s) (∅, ∅) with
  | ((ns, bs), Ok _) =>
      mmodify (λ s, set_blocks (filter (λ kv, kv.1 ∈ bs) (blocks s)) s);;
      mmodify (λ s, set_nodes (filter (λ kv, kv.1 ∈ ns) (nodes s)) s);;
      s' ← mget;
      mret (mkGcReport (block_count s - block_count s') (node_count s - node_count s'))
  | (_, r) => mresult (result_map (λ _, mkGcReport 0 0) r)
  end.

(** [replace_block_for_test] corrupts a block *)
Definition replace_block_for_test (h : ContentHash) (b : bytes) : K unit :=
  s ← mget;
  match blocks s !! h with
  | Some _ => mmodify (λ s, set_blocks (<[h := b]> (blocks s)) s)
  | None => mfail (MissingBlock h)
  end.
End store.
