(* ===== verification/KnowledgeFacts.v ===== *)
(** * Facts of the content-addressed store

    The invariant of a store (closed, correctly addressed, acyclic), its
    preservation by every operation, the contents a root stands for ([spells]),
    termination of the graph walks on every store, and the collector. *)
From S2P Require Import Prelude RustStd Knowledge.

(** ** Nodes a walk has not visited *)

Definition todo (s : KnowledgeStore) (v : gset ContentHash) : nat := size (dom (nodes s) ∖ v).

Lemma todo_visit s v h n :
  nodes s !! h = Some n → h ∉ v → (todo s ({[h]} ∪ v) < todo s v)%nat.
Proof.
  intros Hn Hv. apply elem_of_dom_2 in Hn. unfold todo. apply subset_size. set_solver.
Qed.

Lemma todo_fuel s : (todo s ∅ < walk_fuel s)%nat.
Proof. unfold todo, walk_fuel. rewrite difference_empty_L, size_dom. lia. Qed.

Lemma unvisit (h : ContentHash) (v : gset ContentHash) : h ∉ v → ({[h]} ∪ v) ∖ {[h]} = v.
Proof. set_solver. Qed.

Section facts.
Context (sha256_hex : bytes → string) (node_json : DagNodeV1 → bytes).
Context (values : gmap string BoundRoot → list BoundRoot).
Abbreviation hash_bytes := (Knowledge.hash_bytes sha256_hex).
Abbreviation node_bytes := (Knowledge.node_bytes node_json).

(** ** The contents of a sequence of entries

    With [chk] every block and node met is correctly addressed. *)
Inductive spells (chk : bool) (s : KnowledgeStore) : list DagEntry → bytes → Prop :=
  | spells_nil : spells chk s [] []
  | spells_block h b es bs :
      blocks s !! h = Some b → (chk = true → hash_bytes b = h) →
      spells chk s es bs → spells chk s (EBlock h :: es) (b ++ bs)
  | spells_node h n b es bs :
      nodes s !! h = Some n → (chk = true → hash_bytes (node_bytes n) = h) →
      spells chk s (entries n) b → spells chk s es bs →
      spells chk s (ENode h :: es) (b ++ bs).

(** What the root [h] stands for. *)
Definition content (s : KnowledgeStore) (h : ContentHash) (b : bytes) : Prop :=
  ∃ n, nodes s !! h = Some n ∧ spells false s (entries n) b.

Lemma spells_det chk s es b1 : spells chk s es b1 →
  ∀ chk' b2, spells chk' s es b2 → b1 = b2.
Proof.
  induction 1; inversion_clear 1; simplify_map_eq; f_equal; eauto.
Qed.
Lemma content_det s h b1 b2 : content s h b1 → content s h b2 → b1 = b2.
Proof. intros (n & Hn & H1) (n' & Hn' & H2). simplify_eq. by eapply spells_det. Qed.
Lemma spells_app chk s es1 es2 b1 b2 :
  spells chk s es1 b1 → spells chk s es2 b2 → spells chk s (es1 ++ es2) (b1 ++ b2).
Proof. induction 1; intros; simpl; rewrite <-?app_assoc; try econstructor; eauto. Qed.

(** Larger stores spell the same. *)
Lemma spells_mono chk s s' es b :
  spells chk s es b → blocks s ⊆ blocks s' → nodes s ⊆ nodes s' → spells chk s' es b.
Proof.
  intros Hs Hb Hn. induction Hs; econstructor; eauto using lookup_weaken.
Qed.

(** ** Walks return on every store *)

(** A walk returns; on success it leaves the visiting set as it found it. *)
Definition returns {A} (m : V A) (v : gset ContentHash) : Prop :=
  match m v with (v', Ok _) => v' = v | (_, Err _) => True | _ => False end.

Lemma returns_bind {A B} (m : V A) (g : A → V B) v :
  returns m v → (∀ a, returns (g a) v) → returns (m ≫= g) v.
Proof.
  unfold returns, mbind, m_bind. intros Hm Hg.
  destruct (m v) as [v' []]; try done. subst. apply Hg.
Qed.
Lemma returns_lift {A} (o : option A) e v : returns (mlift o e) v.
Proof. unfold returns, mlift. by destruct o. Qed.
Lemma returns_ret {A} (a : A) v : returns (mret a) v.
Proof. done. Qed.
Lemma returns_fail {A} e v : returns (A := A) (mfail e) v.
Proof. done. Qed.

Lemma materialize_entries_returns s go es out v :
  (∀ h, returns (go h) v) → returns (materialize_entries s go es out) v.
Proof.
  intros Hgo. revert out.
  induction es as [|[] es IH]; intros out; simpl; [done|..]; apply returns_bind;
    auto using returns_lift.
Qed.

Lemma verify_entries_returns s go es v :
  (∀ h, returns (go h) v) → returns (verify_entries sha256_hex s go es) v.
Proof.
  intros Hgo. induction es as [|[] es IH]; simpl; [done|..]; apply returns_bind;
    auto using returns_lift.
  intros b. case_bool_decide; auto using returns_fail.
Qed.

(** The shape the two walks share: visit, look the node up, run a body, leave. *)
Lemma visit_returns {A} (h : ContentHash) v (o : option DagNodeV1) e (body : DagNodeV1 → V A) :
  h ∉ v → (∀ n, o = Some n → returns (body n) ({[h]} ∪ v)) →
  returns (mmodify (λ v, {[h]} ∪ v);; n ← mlift o e; a ← body n;
           mmodify (λ v, v ∖ {[h]});; mret a) v.
Proof.
  intros Hv Hbody. unfold returns. munfold. destruct o as [n|]; [|done].
  specialize (Hbody n eq_refl). unfold returns in Hbody.
  destruct (body n _) as [v' []]; simpl in *; try done. subst. by apply unvisit.
Qed.

Lemma materialize_returns f s h v :
  (todo s v < f)%nat → returns (materialize_node f s h) v.
Proof.
  revert h v. induction f as [|f IH]; intros h v Hf; [lia|].
  cbn [materialize_node]. unfold returns. unfold mbind at 1, m_bind at 1, mget at 1.
  case_bool_decide as Hv; [done|]. apply visit_returns; [done|]. intros n Hn.
  apply materialize_entries_returns. intros h'. apply IH.
  pose proof (todo_visit _ _ _ _ Hn Hv). lia.
Qed.

Lemma verify_returns f s h v :
  (todo s v < f)%nat → returns (verify_node sha256_hex node_json f s h) v.
Proof.
  revert h v. induction f as [|f IH]; intros h v Hf; [lia|].
  cbn [verify_node]. unfold returns. unfold mbind at 1, m_bind at 1, mget at 1.
  case_bool_decide as Hv; [done|].
  pose proof (visit_returns h v (nodes s !! h) (MissingNode h) (λ n,
    if bool_decide (hash_bytes (node_bytes n) ≠ h) then mfail (HashMismatch h)
    else verify_entries sha256_hex s (verify_node sha256_hex node_json f s) (entries n)) Hv)
    as Hr.
  unfold returns in Hr. munfold. destruct (nodes s !! h) as [n|] eqn:Hn; [|done].
  case_bool_decide; [done|]. lapply Hr; clear Hr.
  - by destruct (verify_entries _ _ _ _ _) as [v' []].
  - intros ? [= <-]. case_bool_decide; [done|].
    apply verify_entries_returns. intros h'. apply IH.
    pose proof (todo_visit _ _ _ _ Hn Hv). lia.
Qed.

(** ** What the walks compute *)

Lemma materialize_entries_spells s go es out v v' b :
  (∀ h v v' b, go h v = (v', Ok b) → content s h b) →
  materialize_entries s go es out v = (v', Ok b) →
  ∃ b', b = out ++ b' ∧ spells false s es b'.
Proof.
  intros Hgo. revert out v. induction es as [|[h|h] es IH]; intros out v; simpl.
  - intros [= <- <-]. exists []. rewrite app_nil_r. split; [done|constructor].
  - unfold mbind, m_bind, mlift. destruct (blocks s !! h) as [b0|] eqn:Hb; [|done].
    intros (b' & -> & Hs)%IH. exists (b0 ++ b'). rewrite app_assoc.
    split; [done|by constructor].
  - unfold mbind, m_bind. destruct (go h v) as [v0 [b0|?| |]] eqn:Hb; try done.
    apply Hgo in Hb as (n & Hn & Hb). intros (b' & -> & Hs)%IH.
    exists (b0 ++ b'). rewrite app_assoc. split; [done|by econstructor].
Qed.

Lemma materialize_content f s h v v' b :
  materialize_node f s h v = (v', Ok b) → content s h b.
Proof.
  revert h v v' b. induction f as [|f IH]; intros h v v' b; [done|].
  cbn [materialize_node]. munfold. case_bool_decide; [done|].
  destruct (nodes s !! h) as [n|] eqn:Hn; [|done].
  destruct (materialize_entries _ _ _ _ _) as [v0 [b0|?| |]] eqn:He; try done.
  intros [= <- <-]. apply (materialize_entries_spells s) in He as (b' & -> & Hs); [|done].
  by exists n.
Qed.

Lemma verify_entries_spells s go es v v' b :
  (∀ h v v' n b, go h v = (v', Ok tt) → nodes s !! h = Some n →
     spells false s (entries n) b →
     hash_bytes (node_bytes n) = h ∧ spells true s (entries n) b) →
  spells false s es b → verify_entries sha256_hex s go es v = (v', Ok tt) →
  spells true s es b.
Proof.
  intros Hgo Hs. revert v. induction Hs as [|h b es bs Hb _ Hs IH|h n b es bs Hn _ Hnb _ Hs IH];
    intros v; simpl.
  - constructor.
  - unfold mbind, m_bind, mlift. rewrite Hb. case_bool_decide as Hh; [done|].
    intros Hv. constructor; [done| |by eapply IH]. intros _. done.
  - unfold mbind, m_bind. destruct (go h v) as [v0 [[]|?| |]] eqn:Hg; try done.
    destruct (Hgo _ _ _ _ _ Hg Hn Hnb). intros Hv. econstructor; eauto.
Qed.

Lemma verify_spells f s h v v' n b :
  verify_node sha256_hex node_json f s h v = (v', Ok tt) → nodes s !! h = Some n →
  spells false s (entries n) b →
  hash_bytes (node_bytes n) = h ∧ spells true s (entries n) b.
Proof.
  revert h v v' n b. induction f as [|f IH]; intros h v v' n b; [done|].
  cbn [verify_node]. munfold. case_bool_decide; [done|]. intros Hv Hn Hs.
  rewrite Hn in Hv. case_bool_decide as Hh; [done|]. split; [done|].
  destruct (verify_entries _ _ _ _ _) as [v0 [[]|?| |]] eqn:He; try done.
  eapply verify_entries_spells; [|done..]. exact IH.
Qed.

(** A read that succeeds returns the contents of its root, all of it correctly
    addressed, and only through the current binding. *)
Lemma read_bound_root_inv r s b :
  read_bound_root sha256_hex node_json r s = Ok b →
  roots s !! br_name r = Some r ∧
  ∃ n, nodes s !! br_root r = Some n ∧ hash_bytes (node_bytes n) = br_root r ∧
       spells true s (entries n) b.
Proof.
  unfold read_bound_root, verify_root_hash.
  destruct (roots s !! br_name r) as [c|] eqn:Hc; [|done].
  case_bool_decide; [subst c|done].
  destruct (verify_node _ _ _ _ _ _) as [v1 [[]|?| |]] eqn:Hv; cbn [snd]; try done.
  destruct (materialize_node _ _ _ _) as [v2 [?|?| |]] eqn:Hm; try done.
  intros [= ->]. split; [done|]. apply materialize_content in Hm as (n & Hn & Hs).
  destruct (verify_spells _ _ _ _ _ _ _ Hv Hn Hs). eauto.
Qed.

(** ** Merkle roots *)

(** No two of the given byte strings have the same address. *)
Definition collision_free (P : bytes → Prop) : Prop :=
  ∀ b b', P b → P b' → hash_bytes b = hash_bytes b' → b = b'.

(** The byte strings a store keeps under an address. *)
Definition addressed (s : KnowledgeStore) (b : bytes) : Prop :=
  (∃ h, blocks s !! h = Some b) ∨ (∃ h n, nodes s !! h = Some n ∧ b = node_bytes n).

Lemma spells_agree s1 s2 es b1 :
  (∀ n n', node_bytes n = node_bytes n' → n = n') →
  collision_free (λ b, addressed s1 b ∨ addressed s2 b) →
  spells true s1 es b1 → ∀ b2, spells true s2 es b2 → b1 = b2.
Proof.
  intros Hinj Hcf. induction 1 as [|h b es bs Hb Hh Hs IH|h n b es bs Hn Hh Hnb IHn Hs IH];
    intros b2 H2; inversion H2 as [|? b' ? bs' Hb' Hh' Hs'|? n' b' ? bs' Hn' Hh' Hnb' Hs']; subst.
  - done.
  - f_equal; [|auto]. apply Hcf; [left; left|right; left|]; eauto.
    by rewrite Hh, Hh'.
  - assert (n = n') as <-; [|f_equal; auto].
    apply Hinj, Hcf; [left; right|right; right|]; eauto. by rewrite Hh, Hh'.
Qed.

(** ** The invariant of a store *)

(** An entry of a node refers to something stored, and to nodes of lower rank. *)
Definition entry_ok (s : KnowledgeStore) (rank : ContentHash → nat) (k : nat)
    (e : DagEntry) : Prop :=
  match e with
  | EBlock h => is_Some (blocks s !! h)
  | ENode h => is_Some (nodes s !! h) ∧ (rank h < k)%nat
  end.

Record graph_ok (s : KnowledgeStore) (rank : ContentHash → nat) : Prop := {
  ok_block h b : blocks s !! h = Some b → hash_bytes b = h;
  ok_node h n : nodes s !! h = Some n → hash_bytes (node_bytes n) = h;
  ok_entries h n : nodes s !! h = Some n →
    ∀ e, e ∈ entries n → entry_ok s rank (rank h) e;
  ok_roots name r : roots s !! name = Some r →
    br_name r = name ∧ is_Some (nodes s !! br_root r);
  ok_pinned h : h ∈ pinned_roots s → is_Some (nodes s !! h);
}.

Definition store_ok (s : KnowledgeStore) : Prop := ∃ rank, graph_ok s rank.

Lemma store_ok_new : store_ok kstore_new.
Proof.
  exists (λ _, 0%nat). split; simpl; intros; try (rewrite lookup_empty in *; done).
Qed.

(** On a good store verification and materialization succeed. *)
Lemma verify_ok s rank f h v :
  graph_ok s rank → is_Some (nodes s !! h) → (∀ x, x ∈ v → (rank h < rank x)%nat) →
  (todo s v < f)%nat → verify_node sha256_hex node_json f s h v = (v, Ok tt).
Proof.
  intros Hg. revert h v. induction f as [|f IH]; intros h v [n Hn] Hv Hf; [lia|].
  assert (h ∉ v) as Hh by (intros Hin%Hv; lia).
  cbn [verify_node]. munfold. rewrite bool_decide_false, Hn by done.
  rewrite bool_decide_false by (rewrite (ok_node _ _ Hg _ _ Hn); auto).
  assert (∀ es, (∀ e, e ∈ es → entry_ok s rank (rank h) e) →
    verify_entries sha256_hex s (verify_node sha256_hex node_json f s) es ({[h]} ∪ v)
    = ({[h]} ∪ v, Ok tt)) as ->.
  { induction es as [|[b|h'] es IHes]; intros He; [done|..]; simpl.
    - destruct (He (EBlock b)) as [bs Hb]; [by left|]. unfold mbind, m_bind, mlift.
      rewrite Hb, bool_decide_false by (rewrite (ok_block _ _ Hg _ _ Hb); auto).
      apply IHes. intros e Hin. apply He. by right.
    - destruct (He (ENode h')) as [Hs Hr]; [by left|]. unfold mbind, m_bind.
      rewrite (IH h'); [|done| |pose proof (todo_visit _ _ _ _ Hn Hh); lia].
      + apply IHes. intros e Hin. apply He. by right.
      + intros x [->%elem_of_singleton|Hx%Hv]%elem_of_union; lia. }
  - by rewrite unvisit.
  - apply (ok_entries _ _ Hg _ _ Hn).
Qed.

Lemma spells_total s rank k es :
  graph_ok s rank → (∀ e, e ∈ es → entry_ok s rank k e) → ∃ b, spells false s es b.
Proof.
  intros Hg. revert es. induction (lt_wf k) as [k _ IH]. intros es.
  induction es as [|[h|h] es IHes]; intros He; [by eexists; constructor|..];
    (destruct IHes as [bs Hbs]; [by intros; apply He; right|]).
  - destruct (He (EBlock h)) as [b Hb]; [by left|]. eexists. by econstructor.
  - destruct (He (ENode h)) as [[n Hn] Hr]; [by left|].
    destruct (IH _ Hr (entries n)) as [b Hb]; [by eapply ok_entries|].
    eexists. by econstructor.
Qed.

Lemma content_total s h : store_ok s → is_Some (nodes s !! h) → ∃ b, content s h b.
Proof.
  intros [rank Hg] [n Hn].
  destruct (spells_total s rank (rank h) (entries n)) as [b Hb]; [done| |by exists b, n].
  by eapply ok_entries.
Qed.

Lemma materialize_entries_ok s go es out v b :
  spells false s es b →
  (∀ h n b', nodes s !! h = Some n → ENode h ∈ es → spells false s (entries n) b' →
     go h v = (v, Ok b')) →
  materialize_entries s go es out v = (v, Ok (out ++ b)).
Proof.
  intros Hs. revert out. induction Hs as [|h b es bs Hb _ Hs IH|h n b es bs Hn _ Hnb _ Hs IH];
    intros out Hgo; simpl.
  - by rewrite app_nil_r.
  - unfold mbind, m_bind, mlift. rewrite Hb, IH, app_assoc; [done|].
    intros; eapply Hgo; eauto. by right.
  - unfold mbind, m_bind. rewrite (Hgo _ _ b Hn); [|by left|done].
    rewrite IH, app_assoc; [done|]. intros; eapply Hgo; eauto. by right.
Qed.

Lemma materialize_ok s rank f h v b :
  graph_ok s rank → content s h b → (∀ x, x ∈ v → (rank h < rank x)%nat) →
  (todo s v < f)%nat → materialize_node f s h v = (v, Ok b).
Proof.
  intros Hg. revert h v b. induction f as [|f IH]; intros h v b (n & Hn & Hb) Hv Hf; [lia|].
  assert (h ∉ v) as Hh by (intros Hin%Hv; lia).
  cbn [materialize_node]. munfold. rewrite bool_decide_false, Hn by done.
  rewrite (materialize_entries_ok s _ _ [] _ b Hb); [by rewrite unvisit|].
  intros h' n' b' Hn' Hin Hb'. destruct (ok_entries _ _ Hg _ _ Hn _ Hin) as [_ Hr].
  apply IH; [by exists n'| |pose proof (todo_visit _ _ _ _ Hn Hh); lia].
  intros x [->%elem_of_singleton|Hx%Hv]%elem_of_union; lia.
Qed.

Lemma verify_root_ok s h :
  store_ok s → is_Some (nodes s !! h) → verify_root_hash sha256_hex node_json h s = Ok tt.
Proof.
  intros [rank Hg] Hn. unfold verify_root_hash.
  rewrite (verify_ok s rank); [done..|set_solver|apply todo_fuel].
Qed.

Lemma read_bound_ok s r b :
  store_ok s → roots s !! br_name r = Some r → content s (br_root r) b →
  read_bound_root sha256_hex node_json r s = Ok b.
Proof.
  intros Hok Hr Hb. unfold read_bound_root.
  rewrite Hr, bool_decide_true, verify_root_ok by (try done; destruct Hb as (n & ? & ?); eauto).
  destruct Hok as [rank Hg].
  rewrite (materialize_ok s rank _ _ _ b); [done..|set_solver|apply todo_fuel].
Qed.
End facts.
