(* ===== verification/KnowledgeGc.v ===== *)
(** * Operations and collection of the content-addressed store

    Every operation preserves the store invariant; collection keeps exactly what
    the bound and pinned roots reach. The properties of the component are at the
    end of the file. *)
From S2P Require Import Prelude RustStd Knowledge KnowledgeFacts.

Section ops.
Context (sha256_hex : bytes → string) (node_json : DagNodeV1 → bytes).
Context (values : gmap string BoundRoot → list BoundRoot).
Abbreviation hash_bytes := (Knowledge.hash_bytes sha256_hex).
Abbreviation node_bytes := (Knowledge.node_bytes node_json).
Abbreviation store_ok := (KnowledgeFacts.store_ok sha256_hex node_json).
Abbreviation graph_ok := (KnowledgeFacts.graph_ok sha256_hex node_json).
Abbreviation spells := (KnowledgeFacts.spells sha256_hex node_json).
Abbreviation content := (KnowledgeFacts.content sha256_hex node_json).

(** ** Additions *)

Lemma or_insert_lookup `{Countable X} {A} (k : X) (v : A) m :
  or_insert k v m !! k = Some (default v (m !! k)).
Proof. unfold or_insert. destruct (m !! k) eqn:E; [done|]. by rewrite lookup_insert_eq. Qed.
Lemma or_insert_ne `{Countable X} {A} (k k' : X) (v : A) m : k ≠ k' → or_insert k v m !! k' = m !! k'.
Proof. intros Hk. unfold or_insert. destruct (m !! k); [done|]. by rewrite lookup_insert_ne. Qed.
Lemma or_insert_sub `{Countable X} {A} (k : X) (v : A) (m : gmap X A) : m ⊆ or_insert k v m.
Proof. unfold or_insert. destruct (m !! k) eqn:E; [done|]. by apply insert_subseteq. Qed.

Lemma entry_ok_mono s s' rank rank' k k' e :
  entry_ok s rank k e → blocks s ⊆ blocks s' → nodes s ⊆ nodes s' →
  (∀ h, e = ENode h → rank h < k → rank' h < k')%nat → entry_ok s' rank' k' e.
Proof.
  destruct e as [h|h]; simpl.
  - intros [b Hb] Hs _ _. eauto using lookup_weaken.
  - intros [[n Hn] Hk] _ Hs Hr. split; eauto using lookup_weaken.
Qed.

Lemma put_block_ok s b : store_ok s → store_ok (put_block sha256_hex b s).1.
Proof.
  intros [rank Hg]. exists rank. destruct Hg as [Hb Hn He Hr Hp]. split; simpl; eauto.
  - intros h b'. destruct (decide (hash_bytes b = h)) as [<-|Hne].
    + rewrite or_insert_lookup. destruct (blocks s !! hash_bytes b) eqn:E; intros [= <-]; eauto.
    + rewrite or_insert_ne by done. apply Hb.
  - intros h n Hn' e Hin. eapply entry_ok_mono; eauto. apply or_insert_sub.
Qed.

(** What [put_blocks] returns and leaves. *)
Lemma put_blocks_spec bs s :
  ∃ s', put_blocks sha256_hex bs s = (s', Ok (hash_bytes <$> bs)) ∧
    blocks s ⊆ blocks s' ∧ nodes s' = nodes s ∧ roots s' = roots s ∧
    pinned_roots s' = pinned_roots s ∧ (store_ok s → store_ok s') ∧
    (∀ b, b ∈ bs → is_Some (blocks s' !! hash_bytes b)) ∧
    (∀ h b, blocks s' !! h = Some b → blocks s !! h = Some b ∨ b ∈ bs).
Proof.
  revert s. induction bs as [|b bs IH]; intros s.
  { exists s. split_and!; auto. intros b Hb%elem_of_nil. done. }
  cbn [put_blocks]. unfold mbind, m_bind. unfold put_block at 1. munfold.
  destruct (IH (set_blocks (or_insert (hash_bytes b) b (blocks s)) s))
    as (s' & -> & Hb & Hn & Hr & Hp & Hok & Hin & Hfrom).
  exists s'. simpl in *. split_and!; try done.
  - by etrans; [apply or_insert_sub|].
  - intros Hs. apply Hok. by apply (put_block_ok s b).
  - intros b' [->|Hb']%elem_of_cons; [|auto]. eexists.
    eapply lookup_weaken; [apply or_insert_lookup|done].
  - intros h b' [Hs|?]%Hfrom; [|by right; right].
    destruct (decide (hash_bytes b = h)) as [<-|Hne].
    + rewrite or_insert_lookup in Hs. destruct (blocks s !! hash_bytes b) eqn:E; simplify_eq/=; auto.
      right. by left.
    + rewrite or_insert_ne in Hs by done. by left.
Qed.

(** A rank above all the entries of a node *)
Definition rank_above (rank : ContentHash → nat) (es : list DagEntry) : nat :=
  S (list_max ((λ e, match e with EBlock _ => 0%nat | ENode h => rank h end) <$> es)).

Lemma rank_above_lt rank es h : ENode h ∈ es → (rank h < rank_above rank es)%nat.
Proof.
  intros Hin. unfold rank_above. apply Nat.lt_succ_r.
  pose proof (proj1 (list_max_le
    ((λ e, match e with EBlock _ => 0%nat | ENode h => rank h end) <$> es) _) ltac:(reflexivity))
    as Hm.
  rewrite List.Forall_forall in Hm. apply Hm, list_elem_of_In.
  by apply (list_elem_of_fmap_2 (λ e, match e with EBlock _ => 0%nat | ENode h => rank h end)
    es (ENode h)).
Qed.

Definition refers (s : KnowledgeStore) (e : DagEntry) : Prop :=
  match e with
  | EBlock h => is_Some (blocks s !! h)
  | ENode h => is_Some (nodes s !! h)
  end.

Lemma put_node_ok s n :
  store_ok s → (∀ e, e ∈ entries n → refers s e) →
  store_ok (put_node sha256_hex node_json n s).1.
Proof.
  intros [rank Hg] He. unfold put_node. simpl. set (h0 := hash_bytes (node_bytes n)).
  destruct (nodes s !! h0) as [n0|] eqn:E.
  { exists rank. unfold or_insert. rewrite E. by destruct s. }
  exists (λ h, if decide (h = h0) then rank_above rank (entries n) else rank h).
  assert (∀ h, is_Some (nodes s !! h) → h ≠ h0) as Hfresh by (intros h [] ->; congruence).
  assert (nodes s ⊆ or_insert h0 n (nodes s)) as Hsub by apply or_insert_sub.
  destruct Hg as [Hb Hn Hes Hr Hp]. split; simpl; auto.
  - intros h n'. destruct (decide (h0 = h)) as [<-|Hne].
    + rewrite or_insert_lookup, E. by intros [= <-].
    + rewrite or_insert_ne by done. apply Hn.
  - intros h n' Hl e Hin. destruct (decide (h0 = h)) as [<-|Hne].
    + rewrite or_insert_lookup, E in Hl. injection Hl as <-. rewrite decide_True by done.
      specialize (He _ Hin). destruct e as [hb|hn]; simpl in *; [done|].
      split; [destruct He; eauto using lookup_weaken|].
      rewrite decide_False by auto. by apply rank_above_lt.
    + rewrite or_insert_ne in Hl by done. rewrite decide_False by done.
      pose proof (Hes _ _ Hl _ Hin) as Hok. eapply entry_ok_mono; [exact Hok|done|done|].
      intros h' -> Hlt. destruct Hok as [Hs' _]. by rewrite decide_False by auto.
  - intros name r [? [x Hx]]%Hr. eauto using lookup_weaken.
  - intros h [x Hx]%Hp. eauto using lookup_weaken.
Qed.

End ops.

(** ** Marking *)

Section marking.
Context (values : gmap string BoundRoot → list BoundRoot).

Definition marks : Type := gset ContentHash * gset ContentHash.
Definition marked (m : marks) (e : DagEntry) : Prop :=
  match e with EBlock h => h ∈ m.2 | ENode h => h ∈ m.1 end.
Definition marks_le (m m' : marks) : Prop := m.1 ⊆ m'.1 ∧ m.2 ⊆ m'.2.

(** What the bound and pinned roots reach *)
Inductive reach (s : KnowledgeStore) : DagEntry → Prop :=
  | reach_root h : h ∈ gc_roots values s → reach s (ENode h)
  | reach_entry h n e : reach s (ENode h) → nodes s !! h = Some n → e ∈ entries n → reach s e.

(** Marks are reachable, and the entries of a marked node that is not being
    visited ([g]) are marked. *)
Record marking (s : KnowledgeStore) (g : gset ContentHash) (m : marks) : Prop := {
  marking_sound e : marked m e → reach s e;
  marking_closed h n e : h ∈ m.1 → h ∉ g → nodes s !! h = Some n →
    e ∈ entries n → marked m e;
}.

Global Instance marks_le_preorder : PreOrder marks_le.
Proof. split; [by intros []|]. intros m1 m2 m3 [] []. split; by etrans. Qed.

Lemma marked_mono m m' e : marks_le m m' → marked m e → marked m' e.
Proof. intros [? ?]. destruct e; simpl; set_solver. Qed.

Lemma todo_mono s v v' : v ⊆ v' → (todo s v' ≤ todo s v)%nat.
Proof. intros. apply subseteq_size. set_solver. Qed.

(** What a marking step guarantees of the entries [es]. *)
Definition mark_ok (s : KnowledgeStore) g (es : list DagEntry) (c : G unit) (m : marks) : Prop :=
  marking s g m → ∃ m', c m = (m', Ok tt) ∧ marks_le m m' ∧
    (∀ e, e ∈ es → marked m' e) ∧ marking s g m'.

Lemma mark_entries_ok s g go es m :
  (∀ e, e ∈ es → reach s e) →
  (∀ h m', marks_le m m' → reach s (ENode h) → mark_ok s g [ENode h] (go h) m') →
  mark_ok s g es (mark_entries go es) m.
Proof.
  revert m. induction es as [|e es IH]; intros m Hr Hgo Hm.
  { exists m. split_and!; try done. intros e Hin%elem_of_nil. done. }
  assert (∃ m1, mark_entries go (e :: es) m = mark_entries go es m1 ∧ marks_le m m1 ∧
            marked m1 e ∧ marking s g m1) as (m1 & -> & Hle & He & Hm1).
  { destruct e as [h|h]; simpl; unfold mbind, m_bind.
    - destruct m as [ns bs]. exists (ns, {[h]} ∪ bs). split_and!; [done|split; set_solver|set_solver|].
      destruct Hm as [Hs Hc]. split.
      + intros [x|x]; simpl; [|apply (Hs (ENode x))].
        intros [->%elem_of_singleton|Hx]%elem_of_union; [apply Hr; by left|by apply (Hs (EBlock x))].
      + intros x n e' Hx Hg Hn Hin. eapply marked_mono; [|by eapply Hc]. split; set_solver.
    - destruct (Hgo h m) as (m1 & -> & Hle & He & Hm1); [done|apply Hr; by left|done|].
      exists m1. split_and!; try done. apply (He (ENode h)). by left. }
  destruct (IH m1) as (m' & -> & Hle' & Hes & Hm'); [| |done|].
  - intros e' Hin. apply Hr. by right.
  - intros h m2 Hle2. apply Hgo. by etrans.
  - exists m'. split_and!; [done|by etrans| |done].
    intros e' [->|Hin]%elem_of_cons; [by eapply marked_mono|auto].
Qed.

Lemma mark_reachable_ok s f g h m :
  (todo s m.1 < f)%nat → reach s (ENode h) →
  mark_ok s g [ENode h] (mark_reachable f s h) m.
Proof.
  revert g h m. induction f as [|f IH]; intros g h [ns bs] Hf Hr Hm; [lia|].
  cbn [mark_reachable]. munfold.
  assert (∀ m' : marks, h ∈ m'.1 → ∀ e, e ∈ [ENode h] → marked m' e) as Hself
    by (intros m' Hh e ->%list_elem_of_singleton; done).
  case_bool_decide as Hin; [exists (ns, bs); split_and!; auto; done|].
  assert (marks_le (ns, bs) ({[h]} ∪ ns, bs)) as Hle by (split; set_solver).
  assert (marking s ({[h]} ∪ g) ({[h]} ∪ ns, bs)) as Hg.
  { destruct Hm as [Hs Hc]. split.
    - intros [x|x]; simpl; [apply (Hs (EBlock x))|].
      intros [->%elem_of_singleton|Hx]%elem_of_union; [done|by apply (Hs (ENode x))].
    - intros x n e Hx Hxg Hn He. eapply marked_mono; [done|].
      apply (Hc x n); [|set_solver|done|done]. simpl in *. set_solver. }
  destruct (nodes s !! h) as [n|] eqn:Hn.
  - assert (∀ e, e ∈ entries n → reach s e) as Hre by (intros; by eapply reach_entry).
    edestruct (mark_entries_ok s ({[h]} ∪ g) (mark_reachable f s) (entries n)
      ({[h]} ∪ ns, bs)) as (m' & -> & Hle' & Hes & Hm'); [done| |done|].
    + intros h' m' [Hsub _] Hr'. apply IH; [|done]. simpl in *.
      pose proof (todo_visit s ns h n Hn Hin). pose proof (todo_mono s _ _ Hsub). lia.
    + exists m'. split_and!; [done|by etrans| |].
      * apply Hself. destruct Hle'. set_solver.
      * destruct Hm' as [Hs Hc]. split; [done|]. intros x n' e Hx Hxg Hn' He.
        destruct (decide (x = h)) as [->|Hne]; [simplify_eq; auto|].
        eapply Hc; [done|set_solver|done|done].
  - eexists. split_and!; [done|done|apply Hself; set_solver|].
    destruct Hg as [Hs Hc]. split; [done|]. intros x n' e Hx Hxg Hn' He.
    eapply Hc; [done| |done|done]. intros [->%elem_of_singleton|]%elem_of_union; congruence.
Qed.

Lemma mark_roots_ok s hs m :
  (∀ h, h ∈ hs → reach s (ENode h)) → mark_ok s ∅ (ENode <$> hs) (mark_roots s hs) m.
Proof.
  revert m. induction hs as [|h hs IH]; intros m Hr Hm.
  { exists m. split_and!; try done. intros e Hin%elem_of_nil. done. }
  cbn [mark_roots]. unfold mbind, m_bind.
  destruct (mark_reachable_ok s (walk_fuel s) ∅ h m) as (m1 & -> & Hle & He & Hm1);
    [|apply Hr; by left|done|].
  { pose proof (todo_fuel s). pose proof (todo_mono s ∅ m.1 ltac:(set_solver)). lia. }
  destruct (IH m1) as (m' & -> & Hle' & Hes & Hm'); [by intros; apply Hr; right|done|].
  exists m'. split_and!; [done|by etrans| |done].
  intros e [->|Hin]%elem_of_cons; [|auto]. eapply marked_mono; [done|apply He; by left].
Qed.

(** The marks of a collection are exactly what the roots reach. *)
Lemma mark_roots_exact s :
  ∃ m, mark_roots s (gc_roots values s) (∅, ∅) = (m, Ok tt) ∧ ∀ e, marked m e ↔ reach s e.
Proof.
  destruct (mark_roots_ok s (gc_roots values s) (∅, ∅)) as (m & Hm & _ & Hroots & [Hs Hc]).
  - intros. by apply reach_root.
  - split; [by intros []|]. intros h n e Hh. simpl in Hh. set_solver.
  - exists m. split; [done|]. intros e. split; [apply Hs|].
    induction 1 as [h Hh|h n e Hr IH Hn He].
    + apply Hroots. by apply list_elem_of_fmap_2.
    + by eapply Hc.
Qed.

(** ** Collection *)

Lemma collect_spec s :
  ∃ s', collect_garbage values CollectUnreachable s =
      (s', Ok (mkGcReport (block_count s - block_count s') (node_count s - node_count s'))) ∧
    (∀ h b, blocks s' !! h = Some b ↔ blocks s !! h = Some b ∧ reach s (EBlock h)) ∧
    (∀ h n, nodes s' !! h = Some n ↔ nodes s !! h = Some n ∧ reach s (ENode h)) ∧
    roots s' = roots s ∧ pinned_roots s' = pinned_roots s.
Proof.
  destruct (mark_roots_exact s) as ([ns bs] & Hm & Hreach).
  unfold collect_garbage. rewrite bool_decide_false by done. munfold. rewrite Hm.
  eexists. split; [done|]. simpl. split_and!; [| |done..].
  - intros h b. rewrite map_lookup_filter_Some. simpl. by rewrite <-Hreach.
  - intros h n. rewrite map_lookup_filter_Some. simpl. by rewrite <-Hreach.
Qed.

End marking.

Section keep.
Context (sha256_hex : bytes → string) (node_json : DagNodeV1 → bytes).
Context (values : gmap string BoundRoot → list BoundRoot).
Abbreviation hash_bytes := (Knowledge.hash_bytes sha256_hex).
Abbreviation node_bytes := (Knowledge.node_bytes node_json).
Abbreviation store_ok := (KnowledgeFacts.store_ok sha256_hex node_json).
Abbreviation graph_ok := (KnowledgeFacts.graph_ok sha256_hex node_json).
Abbreviation spells := (KnowledgeFacts.spells sha256_hex node_json).
Abbreviation content := (KnowledgeFacts.content sha256_hex node_json).
Abbreviation reach := (reach values).

Hypothesis values_spec : ∀ m x, x ∈ values m ↔ ∃ k, m !! k = Some x.

Lemma gc_roots_spec s h :
  h ∈ gc_roots values s ↔
  (∃ name r, roots s !! name = Some r ∧ br_root r = h) ∨ h ∈ pinned_roots s.
Proof.
  unfold gc_roots. rewrite elem_of_app, list_elem_of_fmap, elem_of_elements.
  setoid_rewrite values_spec. naive_solver.
Qed.

Section collected.
Context (s s' : KnowledgeStore).
Context (Hblocks : ∀ h b, blocks s' !! h = Some b ↔ blocks s !! h = Some b ∧ reach s (EBlock h)).
Context (Hnodes : ∀ h n, nodes s' !! h = Some n ↔ nodes s !! h = Some n ∧ reach s (ENode h)).
Context (Hroots : roots s' = roots s) (Hpins : pinned_roots s' = pinned_roots s).

Lemma root_kept name r : roots s !! name = Some r → reach s (ENode (br_root r)).
Proof. intros. apply reach_root, gc_roots_spec. eauto. Qed.
Lemma pin_kept h : h ∈ pinned_roots s → reach s (ENode h).
Proof. intros. apply reach_root, gc_roots_spec. auto. Qed.

Lemma collected_ok : store_ok s → store_ok s'.
Proof.
  intros [rank [Hb Hn He Hr Hp]]. exists rank. split.
  - intros h b [? _]%Hblocks. auto.
  - intros h n [? _]%Hnodes. auto.
  - intros h n [Hh Hre]%Hnodes e Hin. specialize (He _ _ Hh _ Hin).
    assert (reach s e) as Hrx by (by eapply reach_entry).
    destruct e; simpl in *.
    + destruct He as [b ?]. exists b. by apply Hblocks.
    + destruct He as [[n' ?] ?]. split; [|done]. exists n'. by apply Hnodes.
  - rewrite Hroots. intros name r Hl. destruct (Hr _ _ Hl) as [? [n ?]].
    split; [done|]. exists n. apply Hnodes. eauto using root_kept.
  - rewrite Hpins. intros h Hl. destruct (Hp _ Hl) as [n ?].
    exists n. apply Hnodes. eauto using pin_kept.
Qed.

Lemma collected_content h b : reach s (ENode h) → content s h b → content s' h b.
Proof.
  assert (∀ es b, spells false s es b → (∀ e, e ∈ es → reach s e) → spells false s' es b) as Hes.
  { clear h b. induction 1 as [|h b es bs Hb Hh Hs IH|h n b es bs Hn Hh Hnb IHn Hs IH]; intros Hr.
    - constructor.
    - constructor; [|done|apply IH; intros; apply Hr; by right].
      apply Hblocks. split; [done|apply Hr; by left].
    - assert (reach s (ENode h)) as Hre by (apply Hr; by left).
      econstructor; [by apply Hnodes|done|apply IHn|apply IH; intros; apply Hr; by right].
      intros. by eapply reach_entry. }
  intros Hr (n & Hn & Hb). exists n. split; [by apply Hnodes|]. apply Hes; [done|].
  intros. by eapply reach_entry.
Qed.
End collected.

(** ** Every operation preserves the invariant *)

Lemma block_entries_refers s hs es :
  block_entries s hs = Ok es → es = EBlock <$> hs ∧ (∀ e, e ∈ es → refers s e).
Proof.
  revert es. induction hs as [|h hs IH]; intros es; simpl.
  - intros [= <-]. split; [done|]. intros e Hin%elem_of_nil. done.
  - unfold contains_block. destruct (blocks s !! h) eqn:Hb; simpl; [|done].
    destruct (block_entries s hs) as [es'| | |]; try done. intros [= <-].
    destruct (IH es') as [-> Hin]; [done|]. split; [done|].
    intros e [->|He]%elem_of_cons; [by eexists|auto].
Qed.

Inductive kop : Type :=
  | KPutBlock (b : bytes)
  | KCheckpointBlocks (hs : list ContentHash)
  | KCheckpointBytes (bs : list bytes)
  | KForkBlocks (base : ContentHash) (hs : list ContentHash)
  | KForkBytes (base : ContentHash) (bs : list bytes)
  | KBind (name : string) (h : ContentHash) (access : RootAccess)
  | KUnbind (name : string)
  | KPin (h : ContentHash)
  | KUnpin (h : ContentHash)
  | KCollect (policy : RetentionPolicy).

(** The store after an operation, whatever its outcome *)
Definition run_kop (s : KnowledgeStore) (o : kop) : KnowledgeStore :=
  match o with
  | KPutBlock b => (put_block sha256_hex b s).1
  | KCheckpointBlocks hs => (checkpoint_from_blocks sha256_hex node_json hs s).1
  | KCheckpointBytes bs => (checkpoint_from_bytes sha256_hex node_json bs s).1
  | KForkBlocks base hs => (fork_append_blocks sha256_hex node_json base hs s).1
  | KForkBytes base bs => (fork_append_bytes sha256_hex node_json base bs s).1
  | KBind name h access => (bind_root name h access s).1
  | KUnbind name => (unbind_root name s).1
  | KPin h => (pin_root h s).1
  | KUnpin h => (unpin_root h s).1
  | KCollect policy => (collect_garbage values policy s).1
  end.
Definition run_kops : list kop → KnowledgeStore := foldl run_kop kstore_new.

Lemma checkpoint_ok s hs :
  store_ok s → store_ok (checkpoint_from_blocks sha256_hex node_json hs s).1.
Proof.
  intros Hs. unfold checkpoint_from_blocks. munfold.
  destruct (block_entries s hs) as [es| | |] eqn:E; try done.
  apply block_entries_refers in E as [_ Hr]. by apply put_node_ok.
Qed.

Lemma fork_ok s base hs :
  store_ok s → store_ok (fork_append_blocks sha256_hex node_json base hs s).1.
Proof.
  intros Hs. unfold fork_append_blocks, contains_node. munfold.
  destruct (nodes s !! base) eqn:Hn; simpl; [|done].
  destruct (block_entries s hs) as [es| | |] eqn:E; try done.
  apply block_entries_refers in E as [_ Hr]. apply put_node_ok; [done|].
  intros e [->|He]%elem_of_cons; [by eexists|auto].
Qed.

Lemma run_kop_ok s o : store_ok s → store_ok (run_kop s o).
Proof.
  intros Hs. destruct o as [b|hs|bs|base hs|base bs|name h a|name|h|h|[]]; simpl.
  - by apply put_block_ok.
  - by apply checkpoint_ok.
  - destruct (put_blocks_spec sha256_hex node_json bs s) as (s' & Hp & _ & _ & _ & _ & Hok & _).
    unfold checkpoint_from_bytes, mbind, m_bind. rewrite Hp. apply checkpoint_ok; auto.
  - by apply fork_ok.
  - destruct (put_blocks_spec sha256_hex node_json bs s) as (s' & Hp & _ & _ & _ & _ & Hok & _).
    unfold fork_append_bytes, mbind, m_bind. rewrite Hp. apply fork_ok; auto.
  - unfold bind_root, contains_node. munfold. destruct (nodes s !! h) eqn:Hn; simpl; [|done].
    destruct Hs as [rank [? ? ? Hr ?]]. exists rank. split; simpl; auto.
    intros name' r. rewrite lookup_insert_Some. intros [[<- <-]|[_ ?]]; simpl; eauto.
  - unfold unbind_root. munfold. destruct (roots s !! name); simpl; [|done].
    destruct Hs as [rank [? ? ? Hr ?]]. exists rank. split; simpl; auto.
    intros name' r. rewrite lookup_delete_Some. intros [_ ?]; eauto.
  - unfold pin_root, contains_node. munfold. destruct (nodes s !! h) eqn:Hn; simpl; [|done].
    destruct Hs as [rank [? ? ? ? Hp]]. exists rank. split; simpl; auto.
    intros h' [->%elem_of_singleton|?]%elem_of_union; [by eexists|auto].
  - destruct Hs as [rank [? ? ? ? Hp]]. exists rank. split; simpl; auto. set_solver.
  - done.
  - destruct (collect_spec values s) as (s' & -> & ? & ? & ? & ?). simpl. by eapply collected_ok.
Qed.

Lemma run_kops_ok os : store_ok (run_kops os).
Proof.
  unfold run_kops. generalize (store_ok_new sha256_hex node_json). generalize kstore_new.
  induction os as [|o os IH]; intros s Hs; [done|]. simpl. apply IH. by apply run_kop_ok.
Qed.

(** ** Reading back what was stored *)

(** [checkpoint_from_bytes], or [fork_append_bytes] when there is a base *)
Definition snapshot (base : option ContentHash) (bs : list bytes) : K ContentHash :=
  match base with
  | None => checkpoint_from_bytes sha256_hex node_json bs
  | Some h => fork_append_bytes sha256_hex node_json h bs
  end.

(** The node a snapshot stores, and the contents it starts from *)
Definition snapshot_node (base : option ContentHash) (bs : list bytes) : DagNodeV1 :=
  mkDagNode 1 (option_list (ENode <$> base) ++ (EBlock ∘ hash_bytes <$> bs)).
Definition base_content (s : KnowledgeStore) (base : option ContentHash) (b : bytes) : Prop :=
  match base with None => b = [] | Some h => content s h b end.

Lemma block_entries_stored s bs :
  (∀ b, b ∈ bs → blocks s !! hash_bytes b = Some b) →
  block_entries s (hash_bytes <$> bs) = Ok (EBlock ∘ hash_bytes <$> bs) ∧
  spells false s (EBlock ∘ hash_bytes <$> bs) (List.concat bs).
Proof.
  induction bs as [|b bs IH]; intros Hin; [split; [done|constructor]|].
  destruct IH as [Hb Hs]; [intros; apply Hin; by right|].
  rewrite !fmap_cons. cbn [block_entries List.concat].
  assert (blocks s !! hash_bytes b = Some b) as Hl by (apply Hin; by left).
  unfold contains_block. rewrite Hl, Hb. split; [done|]. by constructor.
Qed.

Section snapshot.
Context (s : KnowledgeStore) (base : option ContentHash) (bs : list bytes) (b0 : bytes).
Context (Hok : store_ok s) (Hbase : base_content s base b0).
Context (Hinj : ∀ n n', node_bytes n = node_bytes n' → n = n').
Context (Hcf : collision_free sha256_hex (λ b, addressed node_json s b ∨ b ∈ bs ∨
                                           b = node_bytes (snapshot_node base bs))).

Lemma stored_blocks_read_back s' :
  store_ok s' → (∀ b, b ∈ bs → is_Some (blocks s' !! hash_bytes b)) →
  (∀ h b, blocks s' !! h = Some b → blocks s !! h = Some b ∨ b ∈ bs) →
  ∀ b, b ∈ bs → blocks s' !! hash_bytes b = Some b.
Proof.
  intros [rank Hg] Hin Hfrom b Hb. destruct (Hin b Hb) as [b' Hb']. rewrite Hb'. f_equal.
  apply Hcf; [|auto|by eapply ok_block].
  destruct (Hfrom _ _ Hb'); [left; left; eauto|auto].
Qed.

Lemma put_snapshot_node s' :
  nodes s' = nodes s →
  ∃ s1, put_node sha256_hex node_json (snapshot_node base bs) s' =
          (s1, Ok (hash_bytes (node_bytes (snapshot_node base bs)))) ∧
    blocks s1 = blocks s' ∧ nodes s ⊆ nodes s1 ∧ roots s1 = roots s' ∧
    nodes s1 !! hash_bytes (node_bytes (snapshot_node base bs)) = Some (snapshot_node base bs).
Proof.
  intros Hn. eexists. split; [done|]. simpl. rewrite Hn.
  split_and!; [done|apply or_insert_sub|done|]. rewrite or_insert_lookup. f_equal.
  destruct (nodes s !! _) as [n|] eqn:E; [|done]. simpl.
  destruct Hok as [rank Hg]. apply Hinj, Hcf; [|auto|].
  - left. right. eauto.
  - by rewrite (ok_node _ _ _ _ Hg _ _ E).
Qed.

Lemma snapshot_stored :
  ∃ s1, snapshot base bs s =
          (s1, Ok (hash_bytes (node_bytes (snapshot_node base bs)))) ∧ store_ok s1 ∧
    content s1 (hash_bytes (node_bytes (snapshot_node base bs))) (b0 ++ List.concat bs) ∧
    blocks s ⊆ blocks s1 ∧ nodes s ⊆ nodes s1.
Proof.
  destruct (put_blocks_spec sha256_hex node_json bs s) as (s' & Hp & Hb & Hn & _ & _ & Hok' & Hin & Hfrom).
  specialize (Hok' Hok). pose proof (stored_blocks_read_back s' Hok' Hin Hfrom) as Hread.
  destruct (block_entries_stored s' bs Hread) as [He Hs].
  destruct (put_snapshot_node s' Hn) as (s1 & Hput & Hb1 & Hn1 & _ & Hnew).
  assert (snapshot base bs s = (s1, Ok (hash_bytes (node_bytes (snapshot_node base bs))))) as Hsnap.
  { unfold snapshot, snapshot_node in *. destruct base as [h|];
      unfold fork_append_bytes, checkpoint_from_bytes, fork_append_blocks, checkpoint_from_blocks,
        contains_node; mrun; rewrite Hp.
    - rewrite Hn. destruct Hbase as (n & -> & _). cbn [isSome]. by rewrite He, <-Hput.
    - by rewrite He, <-Hput. }
  exists s1. split_and!; [done| | |by rewrite Hb1|done].
  - pose proof (run_kop_ok s (match base with None => KCheckpointBytes bs
                              | Some h => KForkBytes h bs end) Hok) as Hk.
    replace s1 with (snapshot base bs s).1 by by rewrite Hsnap.
    by unfold snapshot; destruct base.
  - exists (snapshot_node base bs). split; [done|]. simpl. apply spells_app.
    + destruct base as [h|]; [|rewrite Hbase; constructor]. simpl.
      destruct Hbase as (n & Hl & Hsn). rewrite <-(app_nil_r b0).
      econstructor; [by eapply lookup_weaken|done| |constructor].
      eapply spells_mono; [done|by rewrite Hb1|done].
    + eapply spells_mono; [exact Hs|by rewrite Hb1|by rewrite Hn].
Qed.
End snapshot.
End keep.

(** ** Properties *)

(** After any sequence of operations of the store, every bound root reads,
    through its current binding, exactly the contents it stands for (no missing
    block or node, no mismatch, no cycle, and the walk returns), and every
    pinned root verifies. *)
Theorem bound_roots_readable (sha256_hex : bytes → string) (node_json : DagNodeV1 → bytes)
    (values : gmap string BoundRoot → list BoundRoot)
    (values_spec : ∀ m x, x ∈ values m ↔ ∃ k, m !! k = Some x) (os : list kop) :
  let s := run_kops sha256_hex node_json values os in
  (∀ name r, roots s !! name = Some r →
     ∃ b, read_bound_root sha256_hex node_json r s = Ok b ∧
          content sha256_hex node_json s (br_root r) b) ∧
  (∀ h, h ∈ pinned_roots s → verify_root_hash sha256_hex node_json h s = Ok tt).
Proof.
  intros s. pose proof (run_kops_ok sha256_hex node_json values values_spec os) as Hok.
  fold s in Hok. split.
  - intros name r Hr. destruct Hok as [rank Hg].
    destruct (ok_roots _ _ _ _ Hg _ _ Hr) as [<- Hn].
    destruct (content_total _ _ s (br_root r) (ex_intro _ rank Hg) Hn) as [b Hb].
    exists b. split; [|done]. apply read_bound_ok; [by exists rank|done..].
  - intros h Hh. apply verify_root_ok; [done|]. destruct Hok as [rank Hg].
    by eapply ok_pinned.
Qed.

(** C29: a collection after any sequence of operations keeps exactly the blocks
    and nodes that a bound or a pinned root reaches, reports the difference, and
    every bound root reads the same bytes after it as before it. *)
Theorem gc_keeps_exactly_reachable (sha256_hex : bytes → string)
    (node_json : DagNodeV1 → bytes) (values : gmap string BoundRoot → list BoundRoot)
    (values_spec : ∀ m x, x ∈ values m ↔ ∃ k, m !! k = Some x) (os : list kop) :
  let s := run_kops sha256_hex node_json values os in
  ∃ s', collect_garbage values CollectUnreachable s =
      (s', Ok (mkGcReport (block_count s - block_count s') (node_count s - node_count s'))) ∧
    (∀ h b, blocks s' !! h = Some b ↔ blocks s !! h = Some b ∧ reach values s (EBlock h)) ∧
    (∀ h n, nodes s' !! h = Some n ↔ nodes s !! h = Some n ∧ reach values s (ENode h)) ∧
    roots s' = roots s ∧ pinned_roots s' = pinned_roots s ∧
    (∀ name r, roots s !! name = Some r → ∃ b,
       read_bound_root sha256_hex node_json r s = Ok b ∧
       read_bound_root sha256_hex node_json r s' = Ok b).
Proof.
  intros s. pose proof (run_kops_ok sha256_hex node_json values values_spec os) as Hok.
  fold s in Hok. destruct (collect_spec values s) as (s' & Hc & Hb & Hn & Hr & Hp).
  exists s'. split_and!; try done. intros name r Hl.
  assert (br_name r = name ∧ is_Some (nodes s !! br_root r)) as [<- Hs]
    by (destruct Hok as [rank Hg]; by eapply ok_roots).
  destruct (content_total _ _ s (br_root r) Hok Hs) as [b Hcon]. exists b. split.
  - by apply read_bound_ok.
  - apply read_bound_ok.
    + by apply (collected_ok _ _ values values_spec s s').
    + by rewrite Hr.
    + apply (collected_content _ _ values s s' Hb Hn); [|done].
      by apply (root_kept values values_spec s (br_name r)).
Qed.

(** A checkpoint of byte blocks, or a fork of a stored root with blocks
    appended, bound under a name, reads back as the base's bytes followed by the
    blocks, and every root of the store keeps its contents, unless two of the
    byte strings involved have the same SHA-256. *)
Theorem snapshot_reads_back (sha256_hex : bytes → string) (node_json : DagNodeV1 → bytes)
    (values : gmap string BoundRoot → list BoundRoot)
    (values_spec : ∀ m x, x ∈ values m ↔ ∃ k, m !! k = Some x)
    (node_json_inj : ∀ n n', node_bytes node_json n = node_bytes node_json n' → n = n')
    (os : list kop) (base : option ContentHash) (bs : list bytes) (b0 : bytes)
    (name : string) (access : RootAccess) :
  let s := run_kops sha256_hex node_json values os in
  collision_free sha256_hex (λ b, addressed node_json s b ∨ b ∈ bs ∨
    b = node_bytes node_json (snapshot_node sha256_hex base bs)) →
  base_content sha256_hex node_json s base b0 →
  ∃ s1 h s2 r, snapshot sha256_hex node_json base bs s = (s1, Ok h) ∧
    bind_root name h access s1 = (s2, Ok r) ∧
    read_bound_root sha256_hex node_json r s2 = Ok (b0 ++ List.concat bs) ∧
    (∀ h' b, content sha256_hex node_json s h' b → content sha256_hex node_json s2 h' b).
Proof.
  intros s Hcf Hbase. pose proof (run_kops_ok sha256_hex node_json values values_spec os) as Hok.
  fold s in Hok.
  destruct (snapshot_stored sha256_hex node_json values values_spec s base bs b0 Hok Hbase
    node_json_inj Hcf) as (s1 & Hs & Hok1 & Hcon & Hb & Hn).
  set (h := hash_bytes sha256_hex (node_bytes node_json (snapshot_node sha256_hex base bs))) in *.
  pose proof (run_kop_ok sha256_hex node_json values values_spec s1 (KBind name h access) Hok1)
    as Hok2.
  assert (is_Some (nodes s1 !! h)) as [n Hl] by (destruct Hcon as (n & ? & _); eauto).
  exists s1, h. simpl in Hok2. unfold bind_root, contains_node in *. munfold.
  rewrite Hl in *. simpl in *. eexists _, _. split_and!; [done|done| |].
  - apply read_bound_ok; [done|by simpl; rewrite lookup_insert_eq|].
    destruct Hcon as (n' & Hn' & Hsp). exists n'. split; [done|]. by eapply spells_mono.
  - intros h' b (n' & Hn' & Hsp). exists n'. split; [by eapply lookup_weaken|].
    by eapply spells_mono.
Qed.

(** A root hash authenticates its contents. If two stores, each of them
    possibly corrupted, both return bytes for bindings of the same root hash,
    the bytes are equal, unless two byte strings kept in them have the same
    SHA-256. *)
Theorem root_hash_authenticates (sha256_hex : bytes → string)
    (node_json : DagNodeV1 → bytes) (s1 s2 : KnowledgeStore) (r1 r2 : BoundRoot)
    (b1 b2 : bytes)
    (node_json_inj : ∀ n n', node_bytes node_json n = node_bytes node_json n' → n = n')
    (Hcf : collision_free sha256_hex (λ b, addressed node_json s1 b ∨ addressed node_json s2 b)) :
  br_root r1 = br_root r2 →
  read_bound_root sha256_hex node_json r1 s1 = Ok b1 →
  read_bound_root sha256_hex node_json r2 s2 = Ok b2 → b1 = b2.
Proof.
  intros Hr (_ & n1 & Hn1 & Hh1 & Hs1)%read_bound_root_inv
    (_ & n2 & Hn2 & Hh2 & Hs2)%read_bound_root_inv.
  assert (n1 = n2) as <-.
  { apply node_json_inj, Hcf; [left; right; eauto|right; right; eauto|]. congruence. }
  by eapply (spells_agree sha256_hex node_json s1 s2).
Qed.

(** Reading a bound root and collecting garbage return on every store,
    cyclic and corrupted ones included, within one level of recursion per stored
    node and one more. *)
Theorem graph_walks_terminate (sha256_hex : bytes → string) (node_json : DagNodeV1 → bytes)
    (values : gmap string BoundRoot → list BoundRoot) (s : KnowledgeStore) (r : BoundRoot) :
  ((∃ b, read_bound_root sha256_hex node_json r s = Ok b) ∨
   (∃ e, read_bound_root sha256_hex node_json r s = Err e)) ∧
  (∃ s' rep, collect_garbage values CollectUnreachable s = (s', Ok rep)).
Proof.
  split; [|destruct (collect_spec values s) as (s' & -> & _); eauto].
  unfold read_bound_root, verify_root_hash.
  destruct (roots s !! br_name r) as [c|]; [|eauto]. case_bool_decide; [|eauto].
  pose proof (verify_returns sha256_hex node_json (walk_fuel s) s (br_root r) ∅ (todo_fuel s)) as Hv.
  pose proof (materialize_returns (walk_fuel s) s (br_root r) ∅ (todo_fuel s)) as Hm.
  unfold returns in Hv, Hm.
  destruct (verify_node _ _ _ _ _ _) as [v []]; cbn [snd]; [|eauto|done..].
  destruct (materialize_node _ _ _ _) as [v' []]; cbn [snd]; [eauto|eauto|done..].
Qed.

(** ** Witnesses: an injective digest and printer, and a session *)

(** Bits of a number, as bytes *)
Fixpoint bits_of (p : positive) : bytes :=
  match p with xH => [x31] | xO q => x30 :: bits_of q | xI q => x31 :: bits_of q end.
Lemma bits_of_inj p q : bits_of p = bits_of q → p = q.
Proof.
  revert q. induction p as [p IH|p IH|]; intros [q|q|]; simpl; intros H; simplify_eq; f_equal;
    auto; by destruct p || by destruct q.
Qed.

Definition entry_sum (e : DagEntry) : string + string :=
  match e with EBlock h => inl h | ENode h => inr h end.
Definition toy_sha (b : bytes) : string := of_bytes b.
Definition toy_json (n : DagNodeV1) : bytes :=
  bits_of (encode (dag_version n, entry_sum <$> entries n)).
Definition toy_values (m : gmap string BoundRoot) : list BoundRoot := (map_to_list m).*2.

Lemma toy_values_spec m x : x ∈ toy_values m ↔ ∃ k, m !! k = Some x.
Proof.
  unfold toy_values. rewrite list_elem_of_fmap. split.
  - intros ([k y] & -> & Hin%elem_of_map_to_list). by exists k.
  - intros [k Hk]. exists (k, x). by rewrite elem_of_map_to_list.
Qed.

Lemma toy_json_inj n n' : node_bytes toy_json n = node_bytes toy_json n' → n = n'.
Proof.
  intros H%bits_of_inj%(inj encode). destruct n as [v es], n' as [v' es'].
  injection H as -> He. f_equal. apply (list_fmap_eq_inj entry_sum) in He; [done|].
  intros [] []; simpl; congruence.
Qed.

Lemma toy_collision_free P : collision_free toy_sha P.
Proof.
  intros b b' _ _ H. unfold hash_bytes, toy_sha in H.
  apply (inj (String.append "sha256:")) in H. apply (f_equal into_bytes) in H.
  by rewrite !into_of_bytes in H.
Qed.

Definition toy_block (s : string) : bytes := into_bytes s.
(** A bound checkpoint, a pinned one and an unreachable block *)
Definition toy_root : ContentHash :=
  hash_bytes toy_sha (toy_json (snapshot_node toy_sha None [toy_block "a"; toy_block "b"])).
Definition toy_ops : list kop :=
  [KPutBlock (toy_block "x"); KCheckpointBytes [toy_block "a"; toy_block "b"];
   KBind "main" toy_root RootReadOnly; KPin toy_root].
Definition toy_store : KnowledgeStore := run_kops toy_sha toy_json toy_values toy_ops.
Definition toy_bound : BoundRoot := mkBoundRoot "main" toy_root RootReadOnly.

Lemma bound_roots_readable_witness :
  ∃ b, read_bound_root toy_sha toy_json toy_bound toy_store = Ok b ∧
       content toy_sha toy_json toy_store toy_root b.
Proof.
  destruct (bound_roots_readable toy_sha toy_json toy_values toy_values_spec toy_ops) as [H _].
  apply (H "main" toy_bound). vm_compute. reflexivity.
Defined.

Lemma gc_keeps_exactly_reachable_witness :
  ∃ s', collect_garbage toy_values CollectUnreachable toy_store = (s', Ok (mkGcReport 1 0)) ∧
        read_bound_root toy_sha toy_json toy_bound s' = Ok (toy_block "ab").
Proof.
  destruct (gc_keeps_exactly_reachable toy_sha toy_json toy_values toy_values_spec toy_ops)
    as (s' & Hc & _ & _ & _ & _ & Hread).
  exists s'. destruct (Hread "main" toy_bound) as (b & Hb & ->); [by vm_compute|].
  assert (b = toy_block "ab") as -> by (vm_compute in Hb; by injection Hb as <-). split; [|done].
  assert (Hr : (collect_garbage toy_values CollectUnreachable toy_store).2 = Ok (mkGcReport 1 0))
    by (vm_compute; reflexivity).
  unfold toy_store in *. rewrite Hc in Hr |- *. simpl in Hr. by rewrite Hr.
Defined.

Lemma snapshot_reads_back_witness :
  ∃ s1 h s2 r, snapshot toy_sha toy_json (Some toy_root) [toy_block "c"] toy_store = (s1, Ok h) ∧
    bind_root "fork" h RootReadWrite s1 = (s2, Ok r) ∧
    read_bound_root toy_sha toy_json r s2 = Ok (toy_block "ab" ++ List.concat [toy_block "c"]) ∧
    (∀ h' b, content toy_sha toy_json toy_store h' b → content toy_sha toy_json s2 h' b).
Proof.
  apply (snapshot_reads_back toy_sha toy_json toy_values toy_values_spec toy_json_inj toy_ops).
  - apply toy_collision_free.
  - apply (materialize_content toy_sha toy_json (walk_fuel toy_store) toy_store toy_root ∅ ∅).
    vm_compute. reflexivity.
Defined.

(** The store with a corrupted block still cannot give other bytes. *)
Definition toy_corrupted : KnowledgeStore :=
  (replace_block_for_test (hash_bytes toy_sha (toy_block "x")) (toy_block "y") toy_store).1.

Lemma root_hash_authenticates_witness :
  ∃ b, read_bound_root toy_sha toy_json toy_bound toy_corrupted = Ok b ∧ toy_block "ab" = b.
Proof.
  destruct (read_bound_root toy_sha toy_json toy_bound toy_corrupted) as [b| | |] eqn:Hb;
    [|vm_compute in Hb; discriminate..].
  exists b. split; [reflexivity|].
  apply (root_hash_authenticates toy_sha toy_json toy_store toy_corrupted toy_bound toy_bound
    (toy_block "ab") b toy_json_inj (toy_collision_free _) eq_refl); [by vm_compute|exact Hb].
Defined.

(** A corrupted block is refused. *)
Example corrupted_root_refused :
  read_bound_root toy_sha toy_json toy_bound
    (replace_block_for_test (hash_bytes toy_sha (toy_block "a")) (toy_block "z") toy_store).1
  = Err (HashMismatch "sha256:a").
Proof. vm_compute. reflexivity. Qed.

(** A binding that was replaced, or removed, reads nothing. *)
Example stale_binding_refused :
  read_bound_root toy_sha toy_json toy_bound
    (bind_root "main" toy_root RootReadWrite toy_store).1 = Err KNoAccess ∧
  read_bound_root toy_sha toy_json toy_bound (unbind_root "main" toy_store).1 = Err KNoAccess.
Proof. vm_compute. split; reflexivity. Qed.
