(* ===== verification/MemFs.v ===== *)
(** * The memory file server (crates/memfs/src/lib.rs)

    Named documents whose bytes are checkpoints of the knowledge store. A write
    is buffered in the fid and committed at clunk, as a new checkpoint bound
    under the file's root name; a generation ties a fid to the file it was
    walked to. Parameters are those of the store and the default hasher of a
    qid path. Generations are not wrapped at 64 bits. *)
From S2P Require Import Prelude RustStd ApTypes ApServer Knowledge.

Definition MEM_MAX_DOC_BYTES : Z := Z.shiftl 1 20.

Inductive MemNode : Set := MRoot | MFile (name : string).
Global Instance MemNode_eq_dec : EqDecision MemNode.
Proof. solve_decision. Defined.

Record MemoryFile : Type := mkMemoryFile { mf_root : BoundRoot; mf_generation : Z }.

Record MemFid : Type := mkMemFid {
  mfid_node : MemNode;
  mfid_mode : option OpenMode;
  mfid_buf : bytes;
  mfid_wrote : bool;
  file_generation : option Z;
}.

Record MemState : Type := mkMemState {
  mem_store : KnowledgeStore;
  files : gmap string MemoryFile;
  mem_versions : VersionTable.t;
  mem_fids : gmap Fid MemFid;
  next_file_generation : Z;
}.

Definition mem_new : MemState := mkMemState kstore_new ∅ VersionTable.new ∅ 1.

Definition set_mem_store k s :=
  mkMemState k (files s) (mem_versions s) (mem_fids s) (next_file_generation s).
Definition set_files f s :=
  mkMemState (mem_store s) f (mem_versions s) (mem_fids s) (next_file_generation s).
Definition set_mem_versions v s :=
  mkMemState (mem_store s) (files s) v (mem_fids s) (next_file_generation s).
Definition set_mem_fids f s :=
  mkMemState (mem_store s) (files s) (mem_versions s) f (next_file_generation s).

Definition valid_name (name : string) : bool :=
  negb (bool_decide (name = "")) && negb (str_contains "/" name) &&
  negb (str_contains "010" name).

Definition root_name (name : string) : string := "mem/" +:+ name.

Definition map_knowledge_error (e : KnowledgeError) : ErrorCode :=
  match e with
  | KNoAccess => NoAccess
  | MissingBlock _ | MissingNode _ | UnknownRoot _ => NotFound
  | HashMismatch _ | Cycle _ => Io
  end.

(** A call of the store, its error mapped *)
Definition on_store {A} (m : K A) : Op MemState A := λ s,
  let '(k, r) := m (mem_store s) in (set_mem_store k s, map_err map_knowledge_error r).

Section memfs.
Context (sha256_hex : bytes → string) (node_json : DagNodeV1 → bytes).
(** [DefaultHasher] over a string key *)
Context (hash_key : string → Z).

Definition mem_node_identity (n : MemNode) : FileKind * Z :=
  match n with
  | MRoot => (Dir, hash_key "/")
  | MFile name => (File, hash_key name)
  end.

Definition mem_node_of (f : Fid) (s : MemState) : option MemNode :=
  if bool_decide (f = ROOT) then Some MRoot else mfid_node <$> mem_fids s !! f.

Definition mem_qid (n : MemNode) (s : MemState) : Qid :=
  let '(k, p) := mem_node_identity n in mkQid k (VersionTable.get (mem_versions s) p) p.

(** [State::materialize] *)
Definition mem_materialize (name : string) (s : MemState) : result ErrorCode bytes :=
  match files s !! name with
  | None => Err NotFound
  | Some file =>
      map_err map_knowledge_error
        (read_bound_root sha256_hex node_json (mf_root file) (mem_store s))
  end.

Definition next_generation : Op MemState Z :=
  s ← mget;
  mmodify (λ s, mkMemState (mem_store s) (files s) (mem_versions s) (mem_fids s)
                  (next_file_generation s + 1));;
  mret (next_file_generation s).

Definition bump_versions (name : string) : Op MemState unit :=
  mmodify (λ s, set_mem_versions
    (VersionTable.bump (mem_versions s) (mem_node_identity MRoot).2) s);;
  mmodify (λ s, set_mem_versions
    (VersionTable.bump (mem_versions s) (mem_node_identity (MFile name)).2) s).

Definition bind_file_root (name : string) (r : ContentHash) (generation : Z) :
    Op MemState unit :=
  binding ← on_store (bind_root (root_name name) r RootReadWrite);
  mmodify (λ s, set_files (<[name := mkMemoryFile binding generation]> (files s)) s);;
  bump_versions name.

Definition put_file_at_generation (name : string) (b : bytes) (generation : Z) :
    Op MemState unit :=
  r ← on_store (checkpoint_from_bytes sha256_hex node_json [b]);
  bind_file_root name r generation.

Definition put_existing_file (name : string) (expected_generation : Z) (b : bytes) :
    Op MemState unit :=
  s ← mget;
  file ← mlift (files s !! name) NotFound;
  if bool_decide (mf_generation file ≠ expected_generation) then mfail NotFound
  else put_file_at_generation name b expected_generation.

Definition put_file (name : string) (b : bytes) : Op MemState Z :=
  s ← mget;
  generation ← (match files s !! name with
                | Some file => mret (mf_generation file)
                | None => next_generation
                end);
  put_file_at_generation name b generation;;
  mret generation.

(** [MemFs::checkpoint_root], [restore_checkpoint] and [materialize] *)
Definition checkpoint_root (name : string) (s : MemState) : result ErrorCode ContentHash :=
  ok_or (br_root ∘ mf_root <$> files s !! name) NotFound.

Definition restore_checkpoint (name : string) (r : ContentHash) : Op MemState unit :=
  if negb (valid_name name) then mfail BadRequest
  else generation ← next_generation; bind_file_root name r generation.

(** ** The file server *)

Definition mem_walk (f newfid : Fid) (names : list string) : Op MemState Qid :=
  s ← mget;
  if bool_decide (newfid = ROOT) || isSome (mem_fids s !! newfid) then mfail BadRequest
  else
    start ← mlift (mem_node_of f s) NotFound;
    n ← (match start, names with
         | MRoot, [] => mret MRoot
         | MRoot, [name] =>
             if isSome (files s !! name) then mret (MFile name) else mfail NotFound
         | MRoot, _ => mfail NotDirectory
         | MFile _, _ => mfail NotDirectory
         end);
    generation ← (match n with
                  | MRoot => mret None
                  | MFile name =>
                      file ← mlift (files s !! name) NotFound; mret (Some (mf_generation file))
                  end);
    mmodify (λ s, set_mem_fids (<[newfid := mkMemFid n None [] false generation]> (mem_fids s)) s);;
    mret (mem_qid n s).

Definition mem_open (f : Fid) (m : OpenMode) : Op MemState Qid :=
  s ← mget;
  n ← mlift (mem_node_of f s) NotFound;
  if negb (bool_decide (f = ROOT)) && isSome (mem_fids s !! f ≫= mfid_mode) then mfail BadRequest
  else if bool_decide (n = MRoot) && mode_writes m then mfail NoAccess
  else if (match n with MFile name => negb (isSome (files s !! name)) | MRoot => false end)
  then mfail NotFound
  else
    base ← (match m, n with
            | ReadWrite, MFile name => b ← mresult (mem_materialize name s); mret (Some b)
            | _, _ => mret None
            end);
    (if bool_decide (f = ROOT) then mret tt
     else
       fs ← mlift (mem_fids s !! f) NotFound;
       mmodify (λ s, set_mem_fids
         (<[f := mkMemFid (mfid_node fs) (Some m) (default (mfid_buf fs) base)
                   (mfid_wrote fs) (file_generation fs)]> (mem_fids s)) s));;
    mret (mem_qid n s).

(** [state.files.keys().cloned().collect::<Vec<_>>().join("\n").into_bytes()] *)
Definition mem_listing (s : MemState) : bytes :=
  into_bytes (join (String "010" "") (sorted_keys (files s))).

Definition mem_content (n : MemNode) (s : MemState) : result ErrorCode bytes :=
  match n with
  | MRoot => Ok (mem_listing s)
  | MFile name => mem_materialize name s
  end.

Definition mem_read (f : Fid) (offset : Offset) (count : Z) : Op MemState bytes :=
  s ← mget;
  (if bool_decide (f = ROOT) then mret tt
   else
     fs ← mlift (mem_fids s !! f) NotFound;
     if opened_for_read (mfid_mode fs) then mret tt else mfail NoAccess);;
  n ← mlift (mem_node_of f s) NotFound;
  b ← mresult (mem_content n s);
  mret (slice b offset count).

Definition mem_write (f : Fid) (offset : Offset) (data : bytes) : Op MemState Z :=
  s ← mget;
  fs ← mlift (mem_fids s !! f) NotFound;
  if negb (opened_for_write (mfid_mode fs)) then mfail NoAccess
  else if bool_decide (mfid_node fs = MRoot) then mfail Unsupported
  else
    start ← mlift (usize_try_from offset) BadRequest;
    stop ← mlift (checked_add64 start (len data)) BadRequest;
    if MEM_MAX_DOC_BYTES <? stop then mfail BadRequest
    else
      mmodify (λ s, set_mem_fids
        (<[f := mkMemFid (mfid_node fs) (mfid_mode fs) (splice (mfid_buf fs) start data) true
                  (file_generation fs)]> (mem_fids s)) s);;
      mret (as_u32 (len data)).

Definition mem_stat (f : Fid) : Op MemState Stat :=
  s ← mget;
  n ← mlift (mem_node_of f s) NotFound;
  b ← mresult (mem_content n s);
  mret (mkStat "" (mem_qid n s) (len b) false
          (match n with MFile _ => true | MRoot => false end)).

Definition mem_create (f newfid : Fid) (name : string) (k : FileKind) : Op MemState Qid :=
  if negb (bool_decide (k = File)) || negb (valid_name name) then mfail BadRequest
  else
    s ← mget;
    if bool_decide (newfid = ROOT) || isSome (mem_fids s !! newfid) then mfail BadRequest
    else
      n ← mlift (mem_node_of f s) NotFound;
      if negb (bool_decide (n = MRoot)) then mfail NotDirectory
      else if isSome (files s !! name) then mfail BadRequest
      else
        generation ← put_file name [];
        s ← mget;
        mmodify (λ s, set_mem_fids
          (<[newfid := mkMemFid (MFile name) None [] false (Some generation)]> (mem_fids s)) s);;
        mret (mem_qid (MFile name) s).

Definition mem_remove (f : Fid) : Op MemState unit :=
  s ← mget;
  n ← mlift (mem_node_of f s) NotFound;
  match n with
  | MRoot => mfail Unsupported
  | MFile name =>
      mlift (files s !! name) NotFound;;
      mmodify (λ s, set_files (delete name (files s)) s);;
      on_store (unbind_root (root_name name));;
      bump_versions name;;
      mmodify (λ s, set_mem_fids (delete f (mem_fids s)) s)
  end.

Definition mem_clunk (f : Fid) : Op MemState unit :=
  if bool_decide (f = ROOT) then mret tt
  else
    s ← mget;
    fs ← mlift (mem_fids s !! f) NotFound;
    mmodify (λ s, set_mem_fids (delete f (mem_fids s)) s);;
    match mfid_node fs with
    | MFile name =>
        if mfid_wrote fs then
          generation ← mlift (file_generation fs) NotFound;
          put_existing_file name generation (mfid_buf fs)
        else mret tt
    | MRoot => mret tt
    end.

Definition MemFs_FileServer : FileServer MemState :=
  {| fs_walk := mem_walk; fs_open := mem_open; fs_read := mem_read; fs_write := mem_write;
     fs_stat := mem_stat; fs_create := mem_create; fs_remove := mem_remove;
     fs_clunk := mem_clunk |}.
End memfs.
