(* ===== verification/MemFsFacts.v ===== *)
(** * Facts of the memory file server

    The server keeps the fid discipline and refines a table of named documents:
    reads see the committed bytes, a buffered write becomes visible at clunk and
    only if the file is still the one the fid was walked to. *)
From S2P Require Import Prelude RustStd ApTypes ApServer Knowledge KnowledgeFacts KnowledgeGc MemFs.

Section memfacts.
Context (sha256_hex : bytes → string) (node_json : DagNodeV1 → bytes) (hash_key : string → Z).
Abbreviation store_ok := (store_ok sha256_hex node_json).
Abbreviation content := (content sha256_hex node_json).
#[local] Instance mem_server : FileServer MemState :=
  MemFs_FileServer sha256_hex node_json hash_key.

(** The hasher's order plays no part: a store with no collection. *)
Definition some_values (m : gmap string BoundRoot) : list BoundRoot := (map_to_list m).*2.
Lemma some_values_spec m x : x ∈ some_values m ↔ ∃ k, m !! k = Some x.
Proof.
  unfold some_values. rewrite list_elem_of_fmap. split.
  - intros ([k y] & -> & Hin%elem_of_map_to_list). by exists k.
  - intros [k Hk]. exists (k, x). by rewrite elem_of_map_to_list.
Qed.

(** ** Committing bytes *)

(** No SHA-256 collision among what the store holds and what a commit of [b] adds *)
Definition commit_safe (k : KnowledgeStore) (b : bytes) : Prop :=
  collision_free sha256_hex (λ b', addressed node_json k b' ∨ b' ∈ [b] ∨
    b' = node_bytes node_json (snapshot_node sha256_hex None [b])).
Definition json_inj : Prop :=
  ∀ n n', node_bytes node_json n = node_bytes node_json n' → n = n'.

Lemma checkpoint_one k b :
  store_ok k →
  ∃ k' h, checkpoint_from_bytes sha256_hex node_json [b] k = (k', Ok h) ∧
    store_ok k' ∧ roots k' = roots k ∧ is_Some (nodes k' !! h) ∧
    blocks k ⊆ blocks k' ∧ nodes k ⊆ nodes k' ∧
    (json_inj → commit_safe k b → content k' h b).
Proof.
  intros Hok. destruct (put_blocks_spec sha256_hex node_json [b] k)
    as (k1 & Hp & Hb & Hn & Hr & _ & _ & Hin & _).
  assert (∃ k' h, checkpoint_from_bytes sha256_hex node_json [b] k = (k', Ok h) ∧
    roots k' = roots k ∧ is_Some (nodes k' !! h) ∧ blocks k ⊆ blocks k' ∧ nodes k ⊆ nodes k')
    as (k' & h & Hc & Hrest).
  { unfold checkpoint_from_bytes, checkpoint_from_blocks, contains_block. mrun. rewrite Hp.
    destruct (Hin b) as [b' Hb']; [by left|]. simpl. unfold contains_block. rewrite Hb'. simpl.
    do 2 eexists. split; [done|]. simpl.
    split_and!; [done| |done|rewrite Hn; apply or_insert_sub].
    rewrite or_insert_lookup. eauto. }
  exists k', h. split; [done|]. split.
  { pose proof (run_kop_ok sha256_hex node_json some_values some_values_spec k
      (KCheckpointBytes [b]) Hok) as H. simpl in H. by rewrite Hc in H. }
  destruct Hrest as (? & ? & ? & ?). split_and!; [done..|]. intros Hinj Hcf.
  destruct (snapshot_stored sha256_hex node_json some_values some_values_spec k None [b] []
    Hok eq_refl Hinj Hcf) as (k2 & Hs & _ & Hcon & _).
  simpl in Hs. rewrite Hc in Hs. injection Hs as -> ->. simpl in Hcon.
  by rewrite app_nil_r in Hcon.
Qed.

Lemma bind_spec k name h :
  store_ok k → is_Some (nodes k !! h) →
  bind_root name h RootReadWrite k =
    (set_roots (<[name := mkBoundRoot name h RootReadWrite]> (roots k)) k,
     Ok (mkBoundRoot name h RootReadWrite)) ∧
  store_ok (set_roots (<[name := mkBoundRoot name h RootReadWrite]> (roots k)) k).
Proof.
  intros Hok [n Hn].
  pose proof (run_kop_ok sha256_hex node_json some_values some_values_spec k
    (KBind name h RootReadWrite) Hok) as Hok'.
  simpl in Hok'. unfold bind_root, contains_node in *. munfold. rewrite Hn in *. done.
Qed.

(** ** Documents *)

(** The table of documents a state holds: name, bytes and generation *)
Abbreviation docs := (gmap string (bytes * Z)).
Definition docs_of (s : MemState) (d : docs) : Prop :=
  ∀ name, match files s !! name with
          | Some f => ∃ b, d !! name = Some (b, mf_generation f) ∧
                           content (mem_store s) (br_root (mf_root f)) b
          | None => d !! name = None
          end.

Record mem_inv (s : MemState) : Prop := {
  inv_store : store_ok (mem_store s);
  inv_bound name f : files s !! name = Some f →
    roots (mem_store s) !! root_name name = Some (mf_root f) ∧
    br_name (mf_root f) = root_name name ∧ mf_generation f < next_file_generation s;
  inv_fids fid fs : mem_fids s !! fid = Some fs →
    fid ≠ ROOT ∧
    match mfid_node fs with
    | MRoot => True
    | MFile _ => ∃ g, file_generation fs = Some g ∧ g < next_file_generation s
    end;
}.

Lemma root_name_inj a b : root_name a = root_name b → a = b.
Proof. apply (inj (String.append "mem/")). Qed.

Lemma mem_inv_new : mem_inv mem_new.
Proof.
  split; simpl; [apply store_ok_new|intros ? ?; by rewrite lookup_empty..].
Qed.

(** Documents always materialize. *)
Lemma materialize_doc s d name f :
  mem_inv s → docs_of s d → files s !! name = Some f →
  ∃ b, d !! name = Some (b, mf_generation f) ∧
       mem_materialize sha256_hex node_json name s = Ok b.
Proof.
  intros Hinv Hd Hf. specialize (Hd name). rewrite Hf in Hd. destruct Hd as (b & Hb & Hc).
  exists b. split; [done|]. unfold mem_materialize. rewrite Hf.
  destruct (inv_bound _ Hinv _ _ Hf) as (Hr & Hn & _).
  rewrite (read_bound_ok sha256_hex node_json _ _ b); [done|apply Hinv|by rewrite Hn|done].
Qed.

Lemma docs_exist s : mem_inv s → ∃ d, docs_of s d.
Proof.
  intros Hinv.
  exists (map_imap (λ name f, match mem_materialize sha256_hex node_json name s with
                              | Ok b => Some (b, mf_generation f) | _ => None end) (files s)).
  intros name. rewrite map_lookup_imap. destruct (files s !! name) as [f|] eqn:Hf; [|done]. simpl.
  destruct (inv_bound _ Hinv _ _ Hf) as (Hr & Hn & _). pose proof (inv_store _ Hinv) as [rank Hg].
  destruct (ok_roots _ _ _ _ Hg _ _ Hr) as [_ Hs].
  destruct (content_total sha256_hex node_json _ _ (ex_intro _ rank Hg) Hs) as [b Hb].
  exists b. split; [|done]. unfold mem_materialize. rewrite Hf.
  rewrite (read_bound_ok sha256_hex node_json _ _ b); [done|apply Hinv|by rewrite Hn|done].
Qed.

Lemma content_mono k k' h b :
  blocks k ⊆ blocks k' → nodes k ⊆ nodes k' → content k h b → content k' h b.
Proof.
  intros Hb Hn (n & Hl & Hs). exists n. split; [by eapply lookup_weaken|].
  by eapply spells_mono.
Qed.

(** What binding a root under a file name does *)
Definition bound_file (name : string) (h : ContentHash) (g : Z) (k : KnowledgeStore)
    (s : MemState) : MemState :=
  let b := mkBoundRoot (root_name name) h RootReadWrite in
  set_mem_versions
    (VersionTable.bump (VersionTable.bump (mem_versions s) (hash_key "/")) (hash_key name))
    (set_files (<[name := mkMemoryFile b g]> (files s))
       (set_mem_store (set_roots (<[root_name name := b]> (roots k)) k) s)).

Lemma bind_file_root_spec s name h g :
  store_ok (mem_store s) → is_Some (nodes (mem_store s) !! h) →
  bind_file_root hash_key name h g s = (bound_file name h g (mem_store s) s, Ok tt).
Proof.
  intros Hok Hn. destruct (bind_spec (mem_store s) (root_name name) h Hok Hn) as [Hb _].
  unfold bind_file_root, on_store, bump_versions. mrun. by rewrite Hb.
Qed.

Lemma bound_file_inv s k name h g :
  mem_inv s → store_ok k → roots k = roots (mem_store s) → is_Some (nodes k !! h) →
  g < next_file_generation s → mem_inv (bound_file name h g k s).
Proof.
  intros Hinv Hok Hr Hn Hg. split; simpl.
  - by apply bind_spec.
  - intros name' f. rewrite lookup_insert_Some. intros [[<- <-]|[Hne Hf]]; simpl.
    + by rewrite lookup_insert_eq.
    + rewrite lookup_insert_ne by (intros ?%root_name_inj; done).
      rewrite Hr. by apply inv_bound.
  - apply Hinv.
Qed.

Lemma bound_file_docs s d k name h g b :
  docs_of s d → blocks (mem_store s) ⊆ blocks k → nodes (mem_store s) ⊆ nodes k →
  content k h b → docs_of (bound_file name h g k s) (<[name := (b, g)]> d).
Proof.
  intros Hd Hb Hn Hc name'. simpl. destruct (decide (name = name')) as [<-|Hne].
  - rewrite !lookup_insert_eq. exists b. split; [done|]. by eapply content_mono; [| |exact Hc].
  - rewrite !lookup_insert_ne by done. specialize (Hd name').
    destruct (files s !! name') as [f|]; [|done]. destruct Hd as (b' & ? & ?).
    exists b'. split; [done|]. by eapply content_mono; [exact Hb|exact Hn|].
Qed.

(** A commit always succeeds, and the document then has the committed bytes. *)
Lemma put_file_at_spec s name b g :
  store_ok (mem_store s) →
  ∃ k h, put_file_at_generation sha256_hex node_json hash_key name b g s =
      (bound_file name h g k s, Ok tt) ∧ store_ok k ∧ roots k = roots (mem_store s) ∧
    is_Some (nodes k !! h) ∧ blocks (mem_store s) ⊆ blocks k ∧ nodes (mem_store s) ⊆ nodes k ∧
    (json_inj → commit_safe (mem_store s) b → content k h b).
Proof.
  intros Hok. destruct (checkpoint_one (mem_store s) b Hok)
    as (k & h & Hc & Hok' & Hr & Hn & Hsub).
  exists k, h. split; [|done]. unfold put_file_at_generation, on_store, mbind, m_bind. rewrite Hc.
  cbn [map_err]. rewrite bind_file_root_spec by done. done.
Qed.

(** ** What each operation does to the state *)

(** The fid table after an operation: every new entry is well formed. *)
Definition fids_ok (next : Z) (m : gmap Fid MemFid) : Prop :=
  ∀ fid fs, m !! fid = Some fs →
    fid ≠ ROOT ∧
    match mfid_node fs with
    | MRoot => True
    | MFile _ => ∃ g, file_generation fs = Some g ∧ g < next
    end.

(** Set the fids and the generation counter. *)
Definition with_fids (m : gmap Fid MemFid) (next : Z) (s : MemState) : MemState :=
  mkMemState (mem_store s) (files s) (mem_versions s) m next.

(** The ways a state changes; [put name b g] is a commit. *)
Inductive mem_change (s : MemState) : option (string * option (bytes * Z)) → MemState → Prop :=
  | change_fids m next :
      fids_ok next m → next_file_generation s ≤ next →
      mem_change s None (with_fids m next s)
  | change_put name b g k h m next :
      store_ok k → roots k = roots (mem_store s) → is_Some (nodes k !! h) →
      blocks (mem_store s) ⊆ blocks k → nodes (mem_store s) ⊆ nodes k →
      (json_inj → commit_safe (mem_store s) b → content k h b) →
      (mf_generation <$> files s !! name = Some g ∧ next = next_file_generation s ∨
       g = next_file_generation s ∧ next = next_file_generation s + 1) →
      fids_ok next m →
      mem_change s (Some (name, Some (b, g))) (with_fids m next (bound_file name h g k s))
  | change_remove name v m :
      is_Some (files s !! name) → fids_ok (next_file_generation s) m →
      mem_change s (Some (name, None))
        (mkMemState (set_roots (delete (root_name name) (roots (mem_store s))) (mem_store s))
           (delete name (files s)) v m (next_file_generation s)).

(** The effect of a change on the table of documents *)
Definition apply_change (c : option (string * option (bytes * Z))) (d : docs) : docs :=
  match c with
  | None => d
  | Some (name, Some e) => <[name := e]> d
  | Some (name, None) => delete name d
  end.

Lemma change_self s : mem_inv s → mem_change s None s.
Proof.
  intros Hinv. replace s with (with_fids (mem_fids s) (next_file_generation s) s) at 2
    by by destruct s.
  constructor; [|lia]. intros fid fs. apply (inv_fids _ Hinv).
Qed.

Lemma fids_ok_insert next m fid fs :
  fids_ok next m → fid ≠ ROOT →
  match mfid_node fs with
  | MRoot => True
  | MFile _ => ∃ g, file_generation fs = Some g ∧ g < next
  end → fids_ok next (<[fid := fs]> m).
Proof.
  intros Hm Hf Hfs fid' fs'. rewrite lookup_insert_Some.
  intros [[<- <-]|[_ ?]]; [done|auto].
Qed.
Lemma fids_ok_delete next m fid : fids_ok next m → fids_ok next (delete fid m).
Proof. intros Hm fid' fs'. rewrite lookup_delete_Some. intros [_ ?]. auto. Qed.
Lemma fids_ok_mono next next' m : fids_ok next m → next ≤ next' → fids_ok next' m.
Proof.
  intros Hm Hle fid fs [? Hn]%Hm. split; [done|]. destruct (mfid_node fs); [done|].
  destruct Hn as (g & ? & ?). exists g. split; [done|lia].
Qed.
Lemma inv_fids_ok s : mem_inv s → fids_ok (next_file_generation s) (mem_fids s).
Proof. intros Hinv fid fs. apply (inv_fids _ Hinv). Qed.

Lemma change_inv s c s' : mem_inv s → mem_change s c s' → mem_inv s'.
Proof.
  intros Hinv. destruct 1 as [m next Hm Hle|name b g k h m next Hok Hr Hn Hb Hns Hc Hg Hm|name v m [f Hf] Hm].
  - destruct Hinv as [? Hf ?]. split; try done. simpl. intros name f Hl.
    destruct (Hf _ _ Hl) as (? & ? & ?). split_and!; try done. lia.
  - destruct (bound_file_inv (with_fids m next s) k name h g) as [H1 H2 H3]; try done.
    + destruct Hinv as [Hs Hf Hi]. split; try done. simpl.
      intros name' f Hl. destruct (Hf _ _ Hl) as (? & ? & ?). split_and!; try done. lia.
    + simpl. destruct Hg as [[Hg ->]|[-> ->]]; [|lia].
      destruct (files s !! name) as [f|] eqn:Hl; [|done]. injection Hg as <-.
      by apply (inv_bound _ Hinv _ _ Hl).
  - split; simpl; [| |done].
    + pose proof (run_kop_ok sha256_hex node_json some_values some_values_spec (mem_store s)
        (KUnbind (root_name name)) (inv_store _ Hinv)) as H.
      simpl in H. unfold unbind_root in H. munfold.
      by rewrite (proj1 (inv_bound _ Hinv _ _ Hf)) in H.
    + intros name' f'. rewrite lookup_delete_Some. intros [Hne Hl].
      rewrite lookup_delete_ne by (intros ?%root_name_inj; done). by apply (inv_bound _ Hinv).
Qed.

Lemma change_docs s c s' d :
  docs_of s d → json_inj →
  (∀ name b g, c = Some (name, Some (b, g)) → commit_safe (mem_store s) b) →
  mem_change s c s' → docs_of s' (apply_change c d).
Proof.
  intros Hd Hj Hcs.
  destruct 1 as [m next Hm Hle|name b g k h m next Hok Hr Hn Hb Hns Hc Hg Hm|name v m [f Hf] Hm]; [done| |].
  - intros name'. simpl. apply (bound_file_docs s d k name h g b); eauto.
  - intros name'. simpl. destruct (decide (name = name')) as [<-|Hne].
    + by rewrite !lookup_delete_eq.
    + rewrite !lookup_delete_ne by done. specialize (Hd name').
      destruct (files s !! name') as [f'|]; [|done]. destruct Hd as (b & ? & ?).
      exists b. split; [done|]. by eapply content_mono; [| |eassumption].
Qed.

(** A generation that is not the current one of its name never is again. *)
Definition stale (name : string) (g : Z) (s : MemState) : Prop :=
  g < next_file_generation s ∧ ∀ f, files s !! name = Some f → mf_generation f ≠ g.

Lemma change_stale s c s' name g :
  mem_change s c s' → stale name g s → stale name g s'.
Proof.
  intros Hch [Hlt Hf].
  destruct Hch as [m next Hm Hle|name' b g' k h m next Hok Hr Hn Hb Hns Hc Hg Hm|name' v m [f Hl] Hm];
    split; simpl; try done.
  - lia.
  - destruct Hg as [[_ ->]|[_ ->]]; lia.
  - intros f. rewrite lookup_insert_Some. intros [[<- <-]|[_ ?]]; [|auto]. simpl.
    destruct Hg as [[Hg _]|[-> _]]; [|lia].
    destruct (files s !! name') as [f0|] eqn:E; [|done]. injection Hg as <-. auto.
  - intros f'. rewrite lookup_delete_Some. intros [_ ?]. auto.
Qed.

(** The change a request makes, given its result *)
Definition call_change (req : Request) (s : MemState) (r : result ErrorCode Response) :
    option (string * option (bytes * Z)) :=
  match req, r with
  | ClunkReq f, Ok _ =>
      match mem_fids s !! f with
      | Some fs =>
          match mfid_node fs, mfid_wrote fs, file_generation fs with
          | MFile name, true, Some g => Some (name, Some (mfid_buf fs, g))
          | _, _, _ => None
          end
      | None => None
      end
  | CreateReq _ _ name _, Ok _ => Some (name, Some ([], next_file_generation s))
  | RemoveReq f, Ok _ =>
      match mem_node_of f s with Some (MFile name) => Some (name, None) | _ => None end
  | _, _ => None
  end.

Lemma mem_read_reads f offset count :
  step_rel (=) (mem_read sha256_hex node_json f offset count).
Proof. unfold mem_read. msteps. Qed.
Lemma mem_stat_reads f : step_rel (=) (mem_stat sha256_hex node_json hash_key f).
Proof. unfold mem_stat. msteps. Qed.
#[local] Hint Resolve mem_read_reads mem_stat_reads : alan.

Lemma set_fids_change s m :
  fids_ok (next_file_generation s) m → mem_change s None (set_mem_fids m s).
Proof. intros. by apply (change_fids s m (next_file_generation s)). Qed.

Lemma node_of_generation s f n :
  mem_inv s → mem_node_of f s = Some n → f ≠ ROOT →
  ∃ fs, mem_fids s !! f = Some fs ∧ mfid_node fs = n.
Proof.
  intros Hinv. unfold mem_node_of. case_bool_decide; [done|].
  destruct (mem_fids s !! f) as [fs|]; [|done]. intros [= <-]. eauto.
Qed.

Lemma mem_walk_change f newfid names s s' r :
  mem_inv s → mem_walk hash_key f newfid names s = (s', r) → mem_change s None s'.
Proof.
  intros Hinv. unfold mem_walk. munfold.
  destruct (bool_decide (newfid = ROOT) || _) eqn:E; [intros [= <- <-]; by apply change_self|].
  bool_facts. destruct (mem_node_of f s) as [start|];
    [|intros [= <- <-]; by apply change_self].
  assert (∀ n g, match n with MRoot => True | MFile name =>
      ∃ fl, files s !! name = Some fl ∧ g = Some (mf_generation fl) end →
    mem_change s None (set_mem_fids (<[newfid:=mkMemFid n None [] false g]> (mem_fids s)) s)) as Hnew.
  { intros n g Hn. apply set_fids_change, fids_ok_insert; [by apply inv_fids_ok|done|]. simpl.
    destruct n as [|name]; [done|]. destruct Hn as (fl & Hl & ->). eexists. split; [done|].
    by apply (inv_bound _ Hinv _ _ Hl). }
  destruct start as [|nm], names as [|name [|? ?]];
    try (intros [= <- <-]; by apply change_self).
  - intros [= <- <-]. by apply Hnew.
  - destruct (files s !! name) as [fl|] eqn:Hl; simpl; [rewrite Hl|];
      intros [= <- <-]; [apply Hnew; eauto|by apply change_self].
Qed.

Lemma mem_open_change f m s s' r :
  mem_inv s → mem_open sha256_hex node_json hash_key f m s = (s', r) → mem_change s None s'.
Proof.
  intros Hinv. pose proof (change_self s Hinv) as Hself.
  assert (∀ fs base, f ≠ ROOT → mem_fids s !! f = Some fs →
    mem_change s None (set_mem_fids
      (<[f := mkMemFid (mfid_node fs) (Some m) base (mfid_wrote fs) (file_generation fs)]>
         (mem_fids s)) s)) as Hset.
  { intros fs base Hf Hl. apply set_fids_change, fids_ok_insert; [by apply inv_fids_ok|done|].
    simpl. by apply (inv_fids _ Hinv _ _ Hl). }
  unfold mem_open. munfold. destruct (mem_node_of f s) as [n|]; [|by intros [= <- <-]].
  destruct (bool_decide (f = ROOT)) eqn:Hr; simpl;
    repeat (case_match; simplify_eq/=; try (by intros [= <- <-])); bool_facts;
    intros [= <- <-]; by apply Hset.
Qed.

Lemma mem_write_change f offset data s s' r :
  mem_inv s → mem_write f offset data s = (s', r) → mem_change s None s'.
Proof.
  intros Hinv. pose proof (change_self s Hinv) as Hself.
  unfold mem_write. munfold. destruct (mem_fids s !! f) as [fs|] eqn:Hf; [|by intros [= <- <-]].
  repeat (case_match; simplify_eq/=; try (by intros [= <- <-])). intros [= <- <-].
  destruct (inv_fids _ Hinv _ _ Hf) as [Hr Hn].
  apply set_fids_change, fids_ok_insert; [by apply inv_fids_ok|done|done].
Qed.

(** [put_file] of a new name takes the next generation. *)
Lemma put_file_new s name b :
  mem_inv s → files s !! name = None →
  ∃ k h, put_file sha256_hex node_json hash_key name b s =
      (bound_file name h (next_file_generation s) k
         (with_fids (mem_fids s) (next_file_generation s + 1) s), Ok (next_file_generation s)) ∧
    store_ok k ∧ roots k = roots (mem_store s) ∧ is_Some (nodes k !! h) ∧
    blocks (mem_store s) ⊆ blocks k ∧ nodes (mem_store s) ⊆ nodes k ∧
    (json_inj → commit_safe (mem_store s) b → content k h b).
Proof.
  intros Hinv Hn.
  destruct (put_file_at_spec (with_fids (mem_fids s) (next_file_generation s + 1) s) name b
    (next_file_generation s) (inv_store _ Hinv)) as (k & h & Hput & Hrest).
  exists k, h. split; [|exact Hrest]. unfold put_file, next_generation. mrun. rewrite Hn.
  unfold with_fids in *. by rewrite Hput.
Qed.

Lemma mem_create_change f newfid name k s s' r :
  mem_inv s → mem_create sha256_hex node_json hash_key f newfid name k s = (s', r) →
  mem_change s (match r with Ok _ => Some (name, Some ([], next_file_generation s))
                | _ => None end) s'.
Proof.
  intros Hinv. pose proof (change_self s Hinv) as Hself. unfold mem_create. mrun.
  destruct (negb _ || _) eqn:E1; [by intros [= <- <-]|].
  destruct (bool_decide (newfid = ROOT) || _) eqn:E2; [by intros [= <- <-]|].
  destruct (mem_node_of f s) as [n|]; [|by intros [= <- <-]].
  destruct (negb (bool_decide (n = MRoot))); [by intros [= <- <-]|].
  destruct (files s !! name) eqn:Hf; [by intros [= <- <-]|]. cbn [isSome].
  destruct (put_file_new s name [] Hinv Hf) as (k' & h & -> & Hok & Hr & Hn & Hb & Hns & Hc).
  intros [= <- <-]. bool_facts.
  apply (change_put s name [] (next_file_generation s) k' h
    (<[newfid := mkMemFid (MFile name) None [] false (Some (next_file_generation s))]> (mem_fids s))
    (next_file_generation s + 1)); auto.
  apply fids_ok_insert; [|done|].
  - eapply fids_ok_mono; [by apply inv_fids_ok|lia].
  - simpl. eexists. split; [done|lia].
Qed.

Lemma mem_remove_change f s s' r :
  mem_inv s → mem_remove hash_key f s = (s', r) →
  mem_change s (match r, mem_node_of f s with
                | Ok _, Some (MFile name) => Some (name, None) | _, _ => None end) s'.
Proof.
  intros Hinv. pose proof (change_self s Hinv) as Hself. unfold mem_remove. mrun.
  destruct (mem_node_of f s) as [[|name]|]; try (by intros [= <- <-]).
  destruct (files s !! name) as [fl|] eqn:Hf; [|by intros [= <- <-]].
  unfold on_store, unbind_root, bump_versions. munfold.
  rewrite (proj1 (inv_bound _ Hinv _ _ Hf)). simpl. intros [= <- <-].
  apply (change_remove s name); [by eexists|]. apply fids_ok_delete. by apply inv_fids_ok.
Qed.

(** The clunk of a written fid commits exactly when the file is still there at
    the generation of the fid. *)
Lemma mem_clunk_written f fs name g s :
  mem_inv s → mem_fids s !! f = Some fs → mfid_node fs = MFile name → mfid_wrote fs = true →
  file_generation fs = Some g →
  if bool_decide (mf_generation <$> files s !! name = Some g)
  then ∃ s', mem_clunk sha256_hex node_json hash_key f s = (s', Ok tt) ∧
             mem_change s (Some (name, Some (mfid_buf fs, g))) s'
  else mem_clunk sha256_hex node_json hash_key f s =
       (set_mem_fids (delete f (mem_fids s)) s, Err NotFound).
Proof.
  intros Hinv Hf Hn Hw Hg. destruct (inv_fids _ Hinv _ _ Hf) as [Hr _].
  unfold mem_clunk. rewrite (bool_decide_false (f = ROOT)) by done. mrun. rewrite Hf, Hn, Hw, Hg.
  unfold put_existing_file. mrun. simpl.
  destruct (files s !! name) as [fl|] eqn:Hl; simpl; [|done].
  case_bool_decide as Hgen.
  - rewrite bool_decide_false by (intros ?; simplify_eq/=).
    destruct (put_file_at_spec (set_mem_fids (delete f (mem_fids s)) s) name (mfid_buf fs) g
      (inv_store _ Hinv)) as (k & h & -> & Hok & Hrt & Hnk & Hb & Hns & Hc).
    eexists. split; [done|].
    apply (change_put s name (mfid_buf fs) g k h (delete f (mem_fids s)) (next_file_generation s));
      auto; [rewrite Hl; auto|]. by apply fids_ok_delete, inv_fids_ok.
  - by rewrite bool_decide_true by (intros ?; simplify_eq/=).
Qed.

Lemma mem_clunk_change f s s' r :
  mem_inv s → mem_clunk sha256_hex node_json hash_key f s = (s', r) →
  mem_change s (call_change (ClunkReq f) s (result_map (λ _, ClunkResp) r)) s'.
Proof.
  intros Hinv Hc. pose proof (change_self s Hinv) as Hself.
  destruct (mem_fids s !! f) as [fs|] eqn:Hf.
  - pose proof (mem_clunk_written f fs) as Hw. revert Hc Hw. simpl. rewrite Hf.
    destruct (inv_fids _ Hinv _ _ Hf) as [Hr Hg].
    assert (mem_change s None (set_mem_fids (delete f (mem_fids s)) s)) as Hdel
      by (apply set_fids_change, fids_ok_delete, inv_fids_ok; done).
    destruct (mfid_node fs) as [|name] eqn:Hn; [|destruct (mfid_wrote fs) eqn:Hwr].
    + unfold mem_clunk. rewrite bool_decide_false by done. munfold. rewrite Hf, Hn.
      by intros [= <- <-] _.
    + destruct Hg as (g & Hg & _). rewrite Hg. intros Hc Hw. specialize (Hw _ _ _ Hinv Hf eq_refl eq_refl eq_refl).
      case_bool_decide.
      * destruct Hw as (s1 & Hc1 & Hch). rewrite Hc in Hc1. by simplify_eq/=.
      * rewrite Hc in Hw. by simplify_eq/=.
    + unfold mem_clunk. rewrite bool_decide_false by done. munfold. rewrite Hf, Hn, Hwr.
      intros [= <- <-] _. simpl. done.
  - revert Hc. unfold mem_clunk. case_bool_decide; munfold; rewrite ?Hf; intros [= <- <-]; done.
Qed.

(** Every request makes the change [call_change] names. *)
Lemma mem_call_change req s s' r :
  mem_inv s → transport_call req s = (s', r) → mem_change s (call_change req s r) s'.
Proof.
  intros Hinv. pose proof (change_self s Hinv) as Hself.
  destruct req; simpl; unfold mbind, m_bind.
  - destruct (mem_walk _ _ _ _ s) as [s1 [q|e| |]] eqn:E; intros [= <- <-];
      by eapply mem_walk_change.
  - destruct (mem_open _ _ _ _ _ s) as [s1 [q|e| |]] eqn:E; intros [= <- <-];
      by eapply mem_open_change.
  - destruct (mem_read _ _ _ _ _ s) as [s1 o] eqn:E. frame_reads.
    destruct o; by intros [= <- <-].
  - destruct (mem_write _ _ _ s) as [s1 [q|e| |]] eqn:E; intros [= <- <-];
      by eapply mem_write_change.
  - destruct (mem_stat _ _ _ _ s) as [s1 o] eqn:E. frame_reads.
    destruct o; by intros [= <- <-].
  - destruct (mem_create _ _ _ _ _ _ _ s) as [s1 o] eqn:E.
    apply mem_create_change in E; [|done]. destruct o; by intros [= <- <-].
  - destruct (mem_remove _ _ s) as [s1 o] eqn:E.
    apply mem_remove_change in E; [|done]. destruct o; by intros [= <- <-].
  - destruct (mem_clunk _ _ _ _ s) as [s1 o] eqn:E.
    apply mem_clunk_change in E; [|done]. destruct o as [[]| | |]; by intros [= <- <-].
Qed.

(** ** Sessions *)

Inductive mem_event : Type :=
  | MCall (req : Request)
  | MRestore (name : string) (h : ContentHash).

Definition mem_step (s : MemState) (ev : mem_event) : MemState :=
  match ev with
  | MCall req => (transport_call req s).1
  | MRestore name h => (restore_checkpoint hash_key name h s).1
  end.
Definition mem_run : list mem_event → MemState → MemState := λ evs s, foldl mem_step s evs.

Lemma restore_change name h s s' r :
  mem_inv s → restore_checkpoint hash_key name h s = (s', r) → ∃ c, mem_change s c s'.
Proof.
  intros Hinv. unfold restore_checkpoint.
  destruct (negb (valid_name name)); [intros [= <- <-]; exists None; by apply change_self|].
  unfold next_generation. mrun. intros Hb.
  destruct (nodes (mem_store s) !! h) as [n|] eqn:Hn.
  - rewrite bind_file_root_spec in Hb by (try apply Hinv; simpl; eauto). injection Hb as <- <-.
    destruct (content_total sha256_hex node_json (mem_store s) h (inv_store _ Hinv))
      as [b Hb]; [eauto|].
    exists (Some (name, Some (b, next_file_generation s))).
    apply (change_put s name b (next_file_generation s) (mem_store s) h (mem_fids s)
      (next_file_generation s + 1)); auto; try (by eexists); try apply Hinv.
    eapply fids_ok_mono; [by apply inv_fids_ok|lia].
  - unfold bind_file_root, on_store, bind_root, contains_node in Hb. munfold. rewrite Hn in Hb.
    injection Hb as <- <-. exists None.
    apply (change_fids s (mem_fids s) (next_file_generation s + 1)); [|lia].
    eapply fids_ok_mono; [by apply inv_fids_ok|lia].
Qed.

Lemma mem_step_change s ev : mem_inv s → ∃ c, mem_change s c (mem_step s ev).
Proof.
  intros Hinv. destruct ev as [req|name h]; simpl.
  - destruct (transport_call req s) as [s' r] eqn:E. eexists. by eapply mem_call_change.
  - destruct (restore_checkpoint hash_key name h s) as [s' r] eqn:E.
    by eapply restore_change.
Qed.

Lemma mem_run_keeps evs s name g :
  mem_inv s → mem_inv (mem_run evs s) ∧ (stale name g s → stale name g (mem_run evs s)).
Proof.
  revert s. induction evs as [|ev evs IH]; intros s Hinv; [done|]. simpl.
  destruct (mem_step_change s ev Hinv) as [c Hc].
  destruct (IH (mem_step s ev)) as [? Hst]; [by eapply change_inv|].
  split; [done|]. intros ?. apply Hst. by eapply change_stale.
Qed.

Lemma mem_reachable_inv evs : mem_inv (mem_run evs mem_new).
Proof. apply (mem_run_keeps evs mem_new "" 0), mem_inv_new. Qed.

(** ** The document table as a function *)

Definition mem_docs (s : MemState) : docs :=
  map_imap (λ name f, match mem_materialize sha256_hex node_json name s with
                      | Ok b => Some (b, mf_generation f) | _ => None end) (files s).

Lemma docs_of_mem_docs s d : mem_inv s → docs_of s d → d = mem_docs s.
Proof.
  intros Hinv Hd. apply map_eq. intros name. unfold mem_docs. rewrite map_lookup_imap.
  destruct (files s !! name) as [f|] eqn:Hf; simpl.
  - destruct (materialize_doc s d name f Hinv Hd Hf) as (b & -> & ->). done.
  - specialize (Hd name). by rewrite Hf in Hd.
Qed.

Lemma mem_docs_spec s : mem_inv s → docs_of s (mem_docs s).
Proof.
  intros Hinv. destruct (docs_exist s Hinv) as [d Hd].
  by rewrite <-(docs_of_mem_docs s d).
Qed.

Lemma mem_docs_names s name :
  mem_inv s → is_Some (files s !! name) ↔ is_Some (mem_docs s !! name).
Proof.
  intros Hinv. pose proof (mem_docs_spec s Hinv name) as H.
  destruct (files s !! name) as [f|]; [destruct H as (b & -> & _)|rewrite H]; split; eauto.
  all: by intros [].
Qed.

(** ** The fid discipline *)

Definition mem_live (s : MemState) : gset Fid := dom (mem_fids s) ∖ {[ROOT]}.

(** Operations that leave the fid table alone *)
Definition same_fids (s s' : MemState) : Prop := mem_fids s' = mem_fids s.
Global Instance same_fids_preorder : PreOrder same_fids.
Proof. split; [done|]. intros x y z. unfold same_fids. congruence. Qed.

Lemma on_store_fids {A} (m : K A) : step_rel same_fids (on_store m).
Proof. intros s. unfold on_store. by destruct (m (mem_store s)). Qed.
#[local] Hint Resolve on_store_fids : alan.
Lemma put_file_at_fids name b g :
  step_rel same_fids (put_file_at_generation sha256_hex node_json hash_key name b g).
Proof.
  unfold put_file_at_generation, bind_file_root, bump_versions.
  repeat first [apply step_modify; intros s; reflexivity | progress msteps].
Qed.
#[local] Hint Resolve put_file_at_fids : alan.
Lemma put_file_fids name b : step_rel same_fids (put_file sha256_hex node_json hash_key name b).
Proof.
  unfold put_file, next_generation.
  repeat first [apply step_modify; intros s; reflexivity | progress msteps].
Qed.
Lemma put_existing_fids name g b :
  step_rel same_fids (put_existing_file sha256_hex node_json hash_key name g b).
Proof. unfold put_existing_file. msteps. Qed.

Lemma mem_live_insert f x s :
  f ≠ ROOT → mem_live (set_mem_fids (<[f := x]> (mem_fids s)) s) = {[f]} ∪ mem_live s.
Proof. intros. unfold mem_live. simpl. rewrite dom_insert_L. set_solver. Qed.
Lemma mem_live_known f x y s :
  mem_fids s !! f = Some y → mem_live (set_mem_fids (<[f := x]> (mem_fids s)) s) = mem_live s.
Proof. intros Hf. unfold mem_live. simpl. by rewrite dom_insert_lookup_L by (by eexists). Qed.

Lemma mem_walk_live f newfid names s s' r :
  mem_walk hash_key f newfid names s = (s', r) →
  match r with Ok _ => mem_live s' = {[newfid]} ∪ mem_live s | _ => s' = s end.
Proof.
  unfold mem_walk. munfold. destruct (bool_decide (newfid = ROOT) || _) eqn:E;
    [by intros [= <- <-]|]. bool_facts.
  repeat (case_match; simplify_eq/=; try (by intros [= <- <-]));
    intros [= <- <-]; by apply mem_live_insert.
Qed.

Lemma mem_create_live f newfid name k s s' r :
  mem_create sha256_hex node_json hash_key f newfid name k s = (s', r) →
  match r with Ok _ => mem_live s' = {[newfid]} ∪ mem_live s | _ => mem_live s' = mem_live s end.
Proof.
  unfold mem_create. mrun. destruct (negb _ || _); [by intros [= <- <-]|].
  destruct (bool_decide (newfid = ROOT) || _) eqn:E; [by intros [= <- <-]|].
  destruct (mem_node_of f s) as [n|]; [|by intros [= <- <-]].
  destruct (negb (bool_decide (n = MRoot))); [by intros [= <- <-]|].
  destruct (isSome (files s !! name)); [by intros [= <- <-]|].
  destruct (put_file _ _ _ name [] s) as [s1 o] eqn:Hp.
  pose proof (step_rel_elim same_fids _ _ _ _ (put_file_fids name []) Hp) as Hfs.
  assert (mem_live s1 = mem_live s) as Hl by (unfold mem_live; by rewrite Hfs).
  bool_facts. destruct o; intros [= <- <-]; [|done..]. by rewrite mem_live_insert, Hl.
Qed.

Lemma mem_open_live f m s s' r :
  mem_open sha256_hex node_json hash_key f m s = (s', r) → mem_live s' = mem_live s.
Proof.
  unfold mem_open. munfold. destruct (mem_node_of f s) as [n|]; [|by intros [= <- <-]].
  destruct (bool_decide (f = ROOT)) eqn:Hr; simpl;
    repeat (case_match; simplify_eq/=; try (by intros [= <- <-]));
    intros [= <- <-]; by eapply mem_live_known.
Qed.

Lemma mem_clunk_live f s s' r :
  f ≠ ROOT → mem_clunk sha256_hex node_json hash_key f s = (s', r) →
  mem_live s' = mem_live s ∖ {[f]}.
Proof.
  intros Hf. unfold mem_clunk. rewrite bool_decide_false by done. mrun.
  destruct (mem_fids s !! f) as [fs|] eqn:E.
  - assert (∀ s1, mem_fids s1 = delete f (mem_fids s) → mem_live s1 = mem_live s ∖ {[f]}) as Hd.
    { intros s1 Hs. unfold mem_live. rewrite Hs, dom_delete_L. set_solver. }
    destruct (mfid_node fs) as [|name]; [intros [= <- <-]; by apply Hd|].
    destruct (mfid_wrote fs); [|intros [= <- <-]; by apply Hd].
    destruct (file_generation fs) as [g|]; [|intros [= <- <-]; by apply Hd].
    intros Hp. apply Hd.
    by apply (step_rel_elim same_fids _ _ _ _ (put_existing_fids name g (mfid_buf fs)) Hp).
  - intros [= <- <-]. unfold mem_live. apply not_elem_of_dom in E. set_solver.
Qed.

#[local] Instance mem_fid_contract : FidContract MemState mem_live.
Proof.
  split; simpl.
  - intros s fid newfid names Hn. unfold mem_walk. munfold.
    rewrite (proj2 (orb_true_iff _ _)); [done|]. destruct Hn as [->|Hn]; [by left|right].
    apply isSome_true, elem_of_dom. unfold mem_live in Hn. set_solver.
  - intros s s' fid newfid names q H. by apply mem_walk_live in H.
  - intros s s' fid newfid names e H. apply mem_walk_live in H. by subst.
  - intros s s' fid mode r H. by eapply mem_open_live.
  - intros s s' fid offset count r H. by frame_reads.
  - intros s s' fid offset data r. unfold mem_write. munfold.
    repeat (case_match; simplify_eq/=; try (by intros [= <- <-])); intros [= <- <-];
      by eapply mem_live_known.
  - intros s s' fid r H. by frame_reads.
  - intros s s' fid newfid name k q H. by apply mem_create_live in H.
  - intros s s' fid newfid name k e H. by apply mem_create_live in H.
  - intros s s' fid u. unfold mem_remove, bump_versions. mrun.
    destruct (mem_node_of fid s) as [[|name]|]; try done. destruct (files s !! name); [|done].
    destruct (on_store _ _) as [s1 o] eqn:Ho.
    pose proof (step_rel_elim same_fids _ _ _ _ (on_store_fids _) Ho) as Hfs.
    destruct o; [|done..]. intros [= <- <-]. unfold mem_live. simpl. rewrite Hfs. simpl.
    rewrite dom_delete_L. set_solver.
  - intros s s' fid e. unfold mem_remove, bump_versions. mrun.
    destruct (mem_node_of fid s) as [[|name]|]; try (by intros [= <- _]).
    destruct (files s !! name); [|by intros [= <- _]].
    destruct (on_store _ _) as [s1 o] eqn:Ho.
    pose proof (step_rel_elim same_fids _ _ _ _ (on_store_fids _) Ho) as Hfs.
    destruct o; try done; intros [= <- _]. unfold mem_live. by rewrite Hfs.
  - intros s s' fid r Hf H. by eapply mem_clunk_live.
  - intros s. unfold mem_live. set_solver.
Qed.
End memfacts.

(** ** Properties *)

(** C30: the memory server refines a table of documents. After any session
    (requests and checkpoint restores), every request changes the table
    of documents exactly as [call_change] says: a clunk of a written fid commits
    its buffer, a create adds an empty document of a fresh generation, a remove
    deletes the document, and nothing else changes any document, unless the
    bytes committed collide under SHA-256; and a read of a file returns the
    requested slice of its document. *)
Theorem memfs_refines_documents (sha256_hex : bytes → string)
    (node_json : DagNodeV1 → bytes) (hash_key : string → Z)
    (evs : list mem_event) (Hjson : json_inj node_json) :
  let server := MemFs_FileServer sha256_hex node_json hash_key in
  let s := mem_run sha256_hex node_json hash_key evs mem_new in
  let docs := mem_docs sha256_hex node_json in
  (∀ req s' r, transport_call (H := server) req s = (s', r) →
     (∀ name b g, call_change req s r = Some (name, Some (b, g)) →
        commit_safe sha256_hex node_json (mem_store s) b) →
     docs s' = apply_change (call_change req s r) (docs s)) ∧
  (∀ f name offset count s' r, mem_node_of f s = Some (MFile name) →
     fs_read (FileServer := server) f offset count s = (s', r) →
     s' = s ∧ ((∃ e, r = Err e) ∨ ∃ b g, docs s !! name = Some (b, g) ∧ r = Ok (slice b offset count))).
Proof.
  intros server s docs.
  pose proof (mem_reachable_inv sha256_hex node_json hash_key evs) as Hinv. fold s in Hinv.
  pose proof (mem_docs_spec sha256_hex node_json s Hinv) as Hd. split.
  - intros req s' r Hc Hsafe.
    pose proof (mem_call_change sha256_hex node_json hash_key req s s' r Hinv Hc) as Hch.
    symmetry. apply (docs_of_mem_docs sha256_hex node_json).
    + by eapply change_inv.
    + by eapply change_docs.
  - intros f name offset count s' r Hn Hr.
    assert (s = s') as <-
      by apply (step_rel_elim (=) _ _ _ _ (mem_read_reads sha256_hex node_json f offset count) Hr).
    split; [done|]. revert Hr. simpl. unfold mem_read, mem_content. munfold. rewrite Hn.
    destruct (files s !! name) as [fl|] eqn:Hf.
    + destruct (materialize_doc sha256_hex node_json s _ name fl Hinv Hd Hf) as (b & Hb & ->).
      repeat (case_match; simplify_eq/=); intros [= <-]; try (by left; eexists).
      all: right; do 2 eexists; split; [exact Hb|done].
    + unfold mem_materialize. rewrite Hf.
      repeat (case_match; simplify_eq/=); intros [= <-]; by left; eexists.
Qed.

(** A writer cannot resurrect or overwrite a file it was not walked to. Once
    the file a fid belongs to has been removed, no later session, even one that
    creates or restores a file of the same name, lets a clunk of the fid commit
    its buffer: it answers [NotFound], releases the fid and changes no file. *)
Theorem stale_writer_never_commits (sha256_hex : bytes → string)
    (node_json : DagNodeV1 → bytes) (hash_key : string → Z)
    (evs evs' : list mem_event) (f f' : Fid) (name : string) (fl : MemoryFile)
    (s1 : MemState) (fs : MemFid) :
  let server := MemFs_FileServer sha256_hex node_json hash_key in
  let s := mem_run sha256_hex node_json hash_key evs mem_new in
  let s2 := mem_run sha256_hex node_json hash_key evs' s1 in
  files s !! name = Some fl → mem_node_of f s = Some (MFile name) →
  fs_remove (FileServer := server) f s = (s1, Ok tt) →
  mem_fids s2 !! f' = Some fs → mfid_node fs = MFile name → mfid_wrote fs = true →
  file_generation fs = Some (mf_generation fl) →
  fs_clunk (FileServer := server) f' s2 = (set_mem_fids (delete f' (mem_fids s2)) s2, Err NotFound).
Proof.
  intros server s s2 Hfl Hn Hrm Hf' Hnode Hw Hg.
  pose proof (mem_reachable_inv sha256_hex node_json hash_key evs) as Hinv. fold s in Hinv.
  pose proof (mem_remove_change sha256_hex node_json hash_key f s s1 _ Hinv Hrm) as Hch.
  rewrite Hn in Hch.
  assert (mem_inv sha256_hex node_json s1) as Hinv1 by (by eapply change_inv).
  assert (stale name (mf_generation fl) s1) as Hst.
  { inversion Hch; subst. split; simpl; [by apply (inv_bound _ _ _ Hinv _ _ Hfl)|].
    intros fl'. by rewrite lookup_delete_eq. }
  destruct (mem_run_keeps sha256_hex node_json hash_key evs' s1 name (mf_generation fl) Hinv1)
    as [Hinv2 Hst2].
  pose proof (mem_clunk_written sha256_hex node_json hash_key f' fs name _ s2 Hinv2 Hf' Hnode Hw Hg)
    as Hc.
  destruct (Hst2 Hst) as [_ Hne]. rewrite bool_decide_false in Hc; [done|].
  intros (fl2 & Hl & Heq)%fmap_Some. by apply (Hne fl2).
Qed.

(** ** Witnesses and examples *)

Definition toy_key (s : string) : Z := Z.of_nat (String.length s).
Abbreviation toy_mem := (mem_run toy_sha toy_json toy_key).
#[local] Instance toy_mem_server : FileServer MemState := MemFs_FileServer toy_sha toy_json toy_key.

(** Create [facts], write it through one fid and walk another fid to it. *)
Definition toy_session : list mem_event :=
  [MCall (CreateReq ROOT 1 "facts" File); MCall (OpenReq 1 Write);
   MCall (WriteReq 1 0 (into_bytes "one")); MCall (WalkReq ROOT 2 ["facts"]);
   MCall (OpenReq 2 Write); MCall (WriteReq 2 0 (into_bytes "two"))].

Lemma memfs_refines_documents_witness :
  let server := MemFs_FileServer toy_sha toy_json toy_key in
  let s := toy_mem toy_session mem_new in
  ∃ s', transport_call (H := server) (ClunkReq 1) s = (s', Ok ClunkResp) ∧
    mem_docs toy_sha toy_json s' =
      apply_change (Some ("facts", Some (into_bytes "one", 1))) (mem_docs toy_sha toy_json s).
Proof.
  intros server s.
  destruct (memfs_refines_documents toy_sha toy_json toy_key toy_session toy_json_inj) as [H _].
  fold server s in H.
  destruct (transport_call (H := server) (ClunkReq 1) s) as [s' r] eqn:Hc.
  assert (Hr : (transport_call (H := server) (ClunkReq 1) s).2 = Ok ClunkResp)
    by (vm_compute; reflexivity).
  rewrite Hc in Hr. cbn [snd] in Hr. rewrite Hr in *.
  exists s'. split; [reflexivity|].
  assert (Hch : call_change (ClunkReq 1) s (Ok ClunkResp) =
    Some ("facts", Some (into_bytes "one", 1))) by (vm_compute; reflexivity).
  rewrite <-Hch. apply H; [done|]. intros. apply toy_collision_free.
Defined.

(** Remove [facts] through one fid and create it again; the other fid is stale. *)
Definition toy_removed : MemState := (mem_remove toy_key 1 (toy_mem toy_session mem_new)).1.

Lemma stale_writer_never_commits_witness :
  let s2 := toy_mem [MCall (CreateReq ROOT 3 "facts" File)] toy_removed in
  mem_clunk toy_sha toy_json toy_key 2 s2 =
    (set_mem_fids (delete 2 (mem_fids s2)) s2, Err NotFound).
Proof.
  assert (Hgen : mf_generation <$> files (toy_mem toy_session mem_new) !! "facts" = Some 1)
    by (vm_compute; reflexivity).
  apply fmap_Some in Hgen as (fl & Hfl & Hgen).
  assert (Hfs : (λ fs, (mfid_node fs, mfid_wrote fs, file_generation fs)) <$>
      mem_fids (toy_mem [MCall (CreateReq ROOT 3 "facts" File)] toy_removed) !! 2 =
    Some (MFile "facts", true, Some 1)) by (vm_compute; reflexivity).
  apply fmap_Some in Hfs as (fs & Hf & Hfs). injection Hfs as Hn Hw Hg.
  assert (Hok : (mem_remove toy_key 1 (toy_mem toy_session mem_new)).2 = Ok tt)
    by (vm_compute; reflexivity).
  assert (Hrm : mem_remove toy_key 1 (toy_mem toy_session mem_new) = (toy_removed, Ok tt))
    by (unfold toy_removed; rewrite <-Hok; apply surjective_pairing).
  apply (stale_writer_never_commits toy_sha toy_json toy_key toy_session
    [MCall (CreateReq ROOT 3 "facts" File)] 1 2 "facts" fl toy_removed fs Hfl);
    [vm_compute; reflexivity|exact Hrm|exact Hf|by symmetry..|by rewrite <-Hg, Hgen].
Defined.

(** The generation guards commits only: the same stale fid removes the file that
    was created after its own was removed. *)
Example stale_fid_removes_recreated_file :
  let s2 := toy_mem [MCall (CreateReq ROOT 3 "facts" File)] toy_removed in
  isSome (files s2 !! "facts") = true ∧
  (mem_remove toy_key 2 s2).2 = Ok tt ∧
  files (mem_remove toy_key 2 s2).1 !! "facts" = None.
Proof. vm_compute. split_and!; reflexivity. Qed.
