(* ===== verification/BranchFs.v ===== *)
(** * The branching-execution file server (crates/branchfs/src/lib.rs)

    Speculative checkpoint branches over the knowledge store: fork, score, select
    and discard commands committed through [ctl], branch records and the selected
    branch as files, lifecycle events as a stream. Parameters: those of the store,
    the default hasher, serde_json's command parser and its printers, and the
    64-bit floating-point type of a score with its finiteness test. *)
From S2P Require Import Prelude RustStd ApTypes ApServer Knowledge KnowledgeFacts KnowledgeGc.

Definition BRANCH_MAX_DOC_BYTES : Z := Z.shiftl 1 20.

Inductive BranchStatus : Set := Active | Selected.
Global Instance BranchStatus_eq_dec : EqDecision BranchStatus.
Proof. solve_decision. Defined.

Inductive BNode : Set :=
  BRoot | BCtl | BBranchesDir | BBranch (id : string) | BSelected | BEvents.
Global Instance BNode_eq_dec : EqDecision BNode.
Proof. solve_decision. Defined.

Record BranchFid : Type := mkBranchFid {
  bf_node : BNode;
  bf_mode : option OpenMode;
  bf_buf : bytes;
  bf_wrote : bool;
}.
(** [BranchFid::at] *)
Definition branch_fid_at (n : BNode) : BranchFid := mkBranchFid n None [] false.

(** A letter, a digit, a hyphen or an underscore *)
Definition branch_id_char (c : ascii) : bool :=
  let n := N_of_ascii c in
  ((48 <=? n)%N && (n <=? 57)%N) || ((65 <=? n)%N && (n <=? 90)%N) ||
  ((97 <=? n)%N && (n <=? 122)%N) || (n =? 45)%N || (n =? 95)%N.
Definition validate_branch_id (id : string) : bool :=
  negb (bool_decide (id = "")) && forallb branch_id_char (String.list_ascii_of_string id).

Definition knowledge_error (e : KnowledgeError) : ErrorCode :=
  match e with
  | MissingBlock _ | MissingNode _ | UnknownRoot _ => NotFound
  | KNoAccess => NoAccess
  | HashMismatch _ | Cycle _ => BadRequest
  end.

Definition branch_writable (n : BNode) : bool := bool_decide (n = BCtl).

Section branchfs.
Context {f64 : Type} (is_finite : f64 → bool).
Context (sha256_hex : bytes → string) (node_json : DagNodeV1 → bytes) (hash_key : string → Z).

Record BranchRecord : Type := mkBranch {
  b_version : Z;
  b_id : string;
  b_base : option string;
  b_root : ContentHash;
  b_status : BranchStatus;
  b_score : option f64;
  b_summary : option string;
}.

Definition branch_base (id : string) (r : ContentHash) : BranchRecord :=
  mkBranch 1 id None r Active None None.
Definition branch_fork (id base : string) (r : ContentHash) : BranchRecord :=
  mkBranch 1 id (Some base) r Active None None.

Inductive BranchCommand : Type :=
  | Fork (id from delta : string)
  | Score (id : string) (score : f64) (summary : option string)
  | Select (id : string)
  | Discard (id : string).

Inductive EventRecord : Type :=
  | EvBase (id : string) (root : ContentHash)
  | EvFork (id from : string) (root : ContentHash)
  | EvScore (id : string) (score : f64) (summary : option string)
  | EvSelect (id : string) (root : ContentHash)
  | EvDiscard (id : string) (root : ContentHash).

Record SelectedBranch : Type := mkSelected {
  sel_id : string; sel_root : ContentHash; sel_score : option f64 }.

Context (parse_command : string → option BranchCommand).
Context (record_json : BranchRecord → option bytes) (selected_json : SelectedBranch → option bytes).
Context (event_json : EventRecord → option bytes).

Record BranchState : Type := mkBranchState {
  b_store : KnowledgeStore;
  branches : gmap string BranchRecord;
  selected : option string;
  events : Stream.t;
  b_versions : VersionTable.t;
  b_fids : gmap Fid BranchFid;
}.

Definition branch_new : BranchState :=
  mkBranchState kstore_new ∅ None Stream.new VersionTable.new ∅.

Definition set_b_store k s :=
  mkBranchState k (branches s) (selected s) (events s) (b_versions s) (b_fids s).
Definition set_branches b s :=
  mkBranchState (b_store s) b (selected s) (events s) (b_versions s) (b_fids s).
Definition set_selected x s :=
  mkBranchState (b_store s) (branches s) x (events s) (b_versions s) (b_fids s).
Definition set_events e s :=
  mkBranchState (b_store s) (branches s) (selected s) e (b_versions s) (b_fids s).
Definition set_b_versions v s :=
  mkBranchState (b_store s) (branches s) (selected s) (events s) v (b_fids s).
Definition set_b_fids f s :=
  mkBranchState (b_store s) (branches s) (selected s) (events s) (b_versions s) f.

Definition branch_identity (n : BNode) : FileKind * Z :=
  match n with
  | BRoot => (Dir, hash_key "/")
  | BCtl => (File, hash_key "ctl")
  | BBranchesDir => (Dir, hash_key "branches")
  | BBranch id => (File, hash_key ("branches/" +:+ id))
  | BSelected => (File, hash_key "selected")
  | BEvents => (StreamKind, hash_key "events")
  end.

Definition branch_qid (n : BNode) (s : BranchState) : Qid :=
  let '(k, p) := branch_identity n in mkQid k (VersionTable.get (b_versions s) p) p.

Definition branch_node_of (f : Fid) (s : BranchState) : option BNode :=
  if bool_decide (f = ROOT) then Some BRoot else bf_node <$> b_fids s !! f.

(** [self.versions.bump(node_identity(&node).1)] *)
Definition bump_node (n : BNode) : Op BranchState unit :=
  mmodify (λ s, set_b_versions (VersionTable.bump (b_versions s) (branch_identity n).2) s).

(** [State::append_event] *)
Definition append_event (e : EventRecord) : Op BranchState unit :=
  b ← mlift (event_json e) BadRequest;
  mmodify (λ s, set_events (Stream.append (events s) (b ++ [newline])) s).

Definition on_branch_store {A} (m : K A) : Op BranchState A := λ s,
  let '(k, r) := m (b_store s) in (set_b_store k s, map_err knowledge_error r).

Definition check_id (id : string) : Op BranchState unit :=
  if validate_branch_id id then mret tt else mfail BadRequest.

(** [BranchFs::install_base_branch] *)
Definition install_base_branch (id : string) (bs : list bytes) : Op BranchState ContentHash :=
  check_id id;;
  s ← mget;
  if isSome (branches s !! id) then mfail BadRequest
  else
    r ← on_branch_store (checkpoint_from_bytes sha256_hex node_json bs);
    mmodify (λ s, set_branches (<[id := branch_base id r]> (branches s)) s);;
    bump_node BBranchesDir;;
    bump_node (BBranch id);;
    append_event (EvBase id r);;
    mret r.

Definition fork_branch (id from delta : string) : Op BranchState unit :=
  check_id id;;
  check_id from;;
  s ← mget;
  if isSome (branches s !! id) then mfail BadRequest
  else
    base ← mlift (branches s !! from) NotFound;
    r ← on_branch_store (fork_append_bytes sha256_hex node_json (b_root base) [into_bytes delta]);
    mmodify (λ s, set_branches (<[id := branch_fork id from r]> (branches s)) s);;
    bump_node BBranchesDir;;
    bump_node (BBranch id);;
    append_event (EvFork id from r).

Definition score_branch (id : string) (score : f64) (summary : option string) :
    Op BranchState unit :=
  check_id id;;
  if negb (is_finite score) then mfail BadRequest
  else
    s ← mget;
    branch ← mlift (branches s !! id) NotFound;
    mmodify (λ s, set_branches
      (<[id := mkBranch (b_version branch) (b_id branch) (b_base branch) (b_root branch)
                 (b_status branch) (Some score) summary]> (branches s)) s);;
    bump_node (BBranch id);;
    (if bool_decide (selected s = Some id) then bump_node BSelected else mret tt);;
    append_event (EvScore id score summary).

Definition set_status (st : BranchStatus) (b : BranchRecord) : BranchRecord :=
  mkBranch (b_version b) (b_id b) (b_base b) (b_root b) st (b_score b) (b_summary b).

Definition select_branch (id : string) : Op BranchState unit :=
  check_id id;;
  s ← mget;
  if negb (isSome (branches s !! id)) then mfail NotFound
  else
    mmodify (set_selected None);;
    (match selected s with
     | Some previous =>
         match branches s !! previous with
         | Some branch =>
             mmodify (λ s, set_branches
               (<[previous := set_status Active branch]> (branches s)) s);;
             bump_node (BBranch previous)
         | None => mret tt
         end
     | None => mret tt
     end);;
    s' ← mget;
    branch ← mlift (branches s' !! id) NotFound;
    mmodify (λ s, set_branches (<[id := set_status Selected branch]> (branches s)) s);;
    mmodify (set_selected (Some id));;
    bump_node BSelected;;
    bump_node (BBranch id);;
    append_event (EvSelect id (b_root branch)).

Definition discard_branch (id : string) : Op BranchState unit :=
  check_id id;;
  s ← mget;
  branch ← mlift (branches s !! id) NotFound;
  mmodify (λ s, set_branches (delete id (branches s)) s);;
  (if bool_decide (selected s = Some id) then
     mmodify (set_selected None);; bump_node BSelected
   else mret tt);;
  bump_node BBranchesDir;;
  bump_node (BBranch id);;
  append_event (EvDiscard id (b_root branch)).

Definition run_command (c : BranchCommand) : Op BranchState unit :=
  match c with
  | Fork id from delta => fork_branch id from delta
  | Score id score summary => score_branch id score summary
  | Select id => select_branch id
  | Discard id => discard_branch id
  end.

(** [State::commit_ctl] *)
Definition commit_ctl (b : bytes) : Op BranchState unit :=
  text ← mlift (from_utf8 b) BadRequest;
  command ← mlift (parse_command text) BadRequest;
  run_command command.

(** ** Files *)

Definition branch_child (n : BNode) (name : string) (s : BranchState) : result ErrorCode BNode :=
  match n with
  | BRoot =>
      if bool_decide (name = "ctl") then Ok BCtl
      else if bool_decide (name = "branches") then Ok BBranchesDir
      else if bool_decide (name = "selected") then Ok BSelected
      else if bool_decide (name = "events") then Ok BEvents
      else Err NotFound
  | BBranchesDir => if isSome (branches s !! name) then Ok (BBranch name) else Err NotFound
  | _ => Err NotDirectory
  end.

(** [listing]: each name and a newline *)
Definition listing (names : list string) : bytes :=
  List.concat ((λ n, into_bytes n ++ [newline]) <$> names).

Definition json_line (o : option bytes) : result ErrorCode bytes :=
  result_map (λ b, b ++ [newline]) (ok_or o BadRequest).

Definition selected_bytes (s : BranchState) : result ErrorCode bytes :=
  match selected s with
  | None => Ok (into_bytes "null" ++ [newline])
  | Some id =>
      match branches s !! id with
      | None => Err NotFound
      | Some branch => json_line (selected_json (mkSelected id (b_root branch) (b_score branch)))
      end
  end.

Definition branch_bytes (n : BNode) (s : BranchState) : result ErrorCode bytes :=
  match n with
  | BRoot => Ok (into_bytes (join (String "010" "") ["ctl"; "branches"; "selected"; "events"]))
  | BCtl => Ok (into_bytes "# branchfs ctl: write one branch command JSON document, then clunk"
                ++ [newline])
  | BBranchesDir => Ok (listing (sorted_keys (branches s)))
  | BBranch id =>
      match branches s !! id with
      | None => Err NotFound
      | Some branch => json_line (record_json branch)
      end
  | BSelected => selected_bytes s
  | BEvents => Err Unsupported
  end.

Fixpoint branch_walk_names (n : BNode) (names : list string) (s : BranchState) :
    result ErrorCode BNode :=
  match names with
  | [] => Ok n
  | name :: names' =>
      match branch_child n name s with
      | Ok n' => branch_walk_names n' names' s
      | r => r
      end
  end.

Definition branch_walk (f newfid : Fid) (names : list string) : Op BranchState Qid :=
  s ← mget;
  if bool_decide (newfid = ROOT) || isSome (b_fids s !! newfid) then mfail BadRequest
  else
    start ← mlift (branch_node_of f s) NotFound;
    n ← mresult (branch_walk_names start names s);
    mmodify (λ s, set_b_fids (<[newfid := branch_fid_at n]> (b_fids s)) s);;
    mret (branch_qid n s).

Definition branch_open (f : Fid) (m : OpenMode) : Op BranchState Qid :=
  s ← mget;
  n ← mlift (branch_node_of f s) NotFound;
  if negb (bool_decide (f = ROOT)) && isSome (b_fids s !! f ≫= bf_mode) then mfail BadRequest
  else if mode_writes m && negb (branch_writable n) then mfail NoAccess
  else
    (if bool_decide (f = ROOT) then mret tt
     else
       fs ← mlift (b_fids s !! f) NotFound;
       mmodify (λ s, set_b_fids
         (<[f := mkBranchFid (bf_node fs) (Some m) (bf_buf fs) (bf_wrote fs)]> (b_fids s)) s));;
    mret (branch_qid n s).

Definition branch_read (f : Fid) (offset : Offset) (count : Z) : Op BranchState bytes :=
  s ← mget;
  (if bool_decide (f = ROOT) then mret tt
   else
     fs ← mlift (b_fids s !! f) NotFound;
     if opened_for_read (bf_mode fs) then mret tt else mfail NoAccess);;
  n ← mlift (branch_node_of f s) NotFound;
  if bool_decide (n = BEvents) then mresult (Stream.read (events s) offset count)
  else b ← mresult (branch_bytes n s); mret (slice b offset count).

Definition branch_write (f : Fid) (offset : Offset) (data : bytes) : Op BranchState Z :=
  s ← mget;
  n ← mlift (branch_node_of f s) NotFound;
  fs ← mlift (b_fids s !! f) NotFound;
  if negb (opened_for_write (bf_mode fs)) then mfail NoAccess
  else if negb (branch_writable n) then mfail Unsupported
  else
    start ← mlift (usize_try_from offset) BadRequest;
    stop ← mlift (checked_add64 start (len data)) BadRequest;
    if BRANCH_MAX_DOC_BYTES <? stop then mfail BadRequest
    else
      mmodify (λ s, set_b_fids
        (<[f := mkBranchFid (bf_node fs) (bf_mode fs) (splice (bf_buf fs) start data) true]>
           (b_fids s)) s);;
      mret (as_u32 (len data)).

Definition branch_stat (f : Fid) : Op BranchState Stat :=
  s ← mget;
  n ← mlift (branch_node_of f s) NotFound;
  length ← (if bool_decide (n = BEvents) then mret (Stream.length (events s))
            else b ← mresult (branch_bytes n s); mret (len b));
  mret (mkStat "" (branch_qid n s) length false (branch_writable n)).

Definition branch_create (f newfid : Fid) (name : string) (k : FileKind) : Op BranchState Qid :=
  mfail Unsupported.
Definition branch_remove (f : Fid) : Op BranchState unit := mfail Unsupported.

Definition branch_clunk (f : Fid) : Op BranchState unit :=
  if bool_decide (f = ROOT) then mret tt
  else
    s ← mget;
    fs ← mlift (b_fids s !! f) NotFound;
    mmodify (λ s, set_b_fids (delete f (b_fids s)) s);;
    if negb (bf_wrote fs) then mret tt
    else match bf_node fs with
         | BCtl => commit_ctl (bf_buf fs)
         | _ => mret tt
         end.

Definition BranchFs_FileServer : FileServer BranchState :=
  {| fs_walk := branch_walk; fs_open := branch_open; fs_read := branch_read;
     fs_write := branch_write; fs_stat := branch_stat; fs_create := branch_create;
     fs_remove := branch_remove; fs_clunk := branch_clunk |}.
End branchfs.

(** ** Facts of the branching-execution server

    The event stream is a complete log: replaying it rebuilds the branch table
    and the selection. At most one branch is selected, the selected branch is
    visible, and every visible branch stands for readable contents. *)


Section branchfacts.
Context {f64 : Type} (is_finite : f64 → bool).
Context (sha256_hex : bytes → string) (node_json : DagNodeV1 → bytes) (hash_key : string → Z).
Context (parse_command : string → option (BranchCommand (f64 := f64))).
Context (record_json : BranchRecord (f64 := f64) → option bytes).
Context (selected_json : SelectedBranch (f64 := f64) → option bytes).
Context (event_json : EventRecord (f64 := f64) → option bytes).
Abbreviation State := (BranchState (f64 := f64)).
Abbreviation Event := (EventRecord (f64 := f64)).
Abbreviation Table := (gmap string (BranchRecord (f64 := f64)) * option string)%type.
Abbreviation store_ok := (store_ok sha256_hex node_json).
Abbreviation content := (content sha256_hex node_json).
#[local] Instance branch_server : FileServer State :=
  BranchFs_FileServer is_finite sha256_hex node_json hash_key parse_command record_json
    selected_json event_json.

(** ** Replaying the log *)

(** What an event says happened to the branch table and the selection *)
Definition apply_event (t : Table) (e : Event) : Table :=
  let '(bs, sel) := t in
  match e with
  | EvBase id r => (<[id := branch_base id r]> bs, sel)
  | EvFork id from r => (<[id := branch_fork id from r]> bs, sel)
  | EvScore id score summary =>
      (alter (λ b, mkBranch (b_version b) (b_id b) (b_base b) (b_root b) (b_status b)
                     (Some score) summary) id bs, sel)
  | EvSelect id _ =>
      let bs := match sel with Some p => alter (set_status Active) p bs | None => bs end in
      (alter (set_status Selected) id bs, Some id)
  | EvDiscard id _ => (delete id bs, if bool_decide (sel = Some id) then None else sel)
  end.
Definition replay (es : list Event) : Table := foldl apply_event (∅, None) es.

Definition event_line (e : Event) : bytes := default [] (event_json e) ++ [newline].
Definition log_bytes (es : list Event) : bytes := List.concat (event_line <$> es).

Definition table (s : State) : Table := (branches s, selected s).

(** ** The invariant *)

Record table_ok (k : KnowledgeStore) (t : Table) : Prop := {
  tbl_branch id b : t.1 !! id = Some b →
    b_id b = id ∧ validate_branch_id id = true ∧ (b_status b = Selected ↔ t.2 = Some id) ∧
    is_Some (nodes k !! b_root b);
  tbl_selected id : t.2 = Some id → is_Some (t.1 !! id);
}.

(** What makes an event possible in a table; the store is the one after it. *)
Definition event_ok (k : KnowledgeStore) (t : Table) (e : Event) : Prop :=
  match e with
  | EvBase id r | EvFork id _ r =>
      validate_branch_id id = true ∧ t.1 !! id = None ∧ is_Some (nodes k !! r)
  | EvScore id _ _ => is_Some (t.1 !! id)
  | EvSelect id r | EvDiscard id r => b_root <$> t.1 !! id = Some r
  end.

Lemma table_ok_mono k k' t : table_ok k t → nodes k ⊆ nodes k' → table_ok k' t.
Proof.
  intros [Hb Hs] Hsub. split; [|done]. intros id b Hl.
  destruct (Hb _ _ Hl) as (? & ? & ? & [n ?]). split_and!; eauto using lookup_weaken.
Qed.

Lemma table_ok_add k t id b :
  table_ok k t → t.1 !! id = None → b_id b = id → validate_branch_id id = true →
  b_status b = Active → is_Some (nodes k !! b_root b) → table_ok k (<[id := b]> t.1, t.2).
Proof.
  intros [Hb Hs] Hn Hid Hv Ha Hr. split; simpl.
  - intros id' b'. rewrite lookup_insert_Some. intros [[<- <-]|[_ Hl]]; [|by apply Hb].
    split_and!; [done..| |done]. rewrite Ha. split; [done|]. intros Hsel.
    apply Hs in Hsel as [x Hx]. congruence.
  - intros id' Hsel. rewrite lookup_insert_is_Some. destruct (decide (id = id')); [by left|right].
    split; [done|]. by apply Hs.
Qed.

(** Changing a record in place keeps its place in the table. *)
Lemma table_ok_alter k t (g : BranchRecord → BranchRecord) id :
  table_ok k t → (∀ b, b_id (g b) = b_id b ∧ b_status (g b) = b_status b ∧ b_root (g b) = b_root b) →
  table_ok k (alter g id t.1, t.2).
Proof.
  intros [Hb Hs] Hg. split; simpl.
  - intros id' b'. rewrite lookup_alter_Some. intros [(<- & b & Hl & ->)|[_ Hl]]; [|by apply Hb].
    destruct (Hg b) as (-> & -> & ->). by apply Hb.
  - intros id' Hsel. destruct (Hs _ Hsel) as [b Hl]. apply lookup_alter_is_Some. by eexists.
Qed.

Lemma table_ok_select k t id r :
  table_ok k t → b_root <$> t.1 !! id = Some r → table_ok k (apply_event t (EvSelect id r)).
Proof.
  destruct t as [bs sel]. intros [Hb Hs] Hid. simpl in *.
  set (bs1 := match sel with Some p => alter (set_status Active) p bs | None => bs end).
  assert (∀ i b, bs1 !! i = Some b → ∃ b0, bs !! i = Some b0 ∧ b_id b = b_id b0 ∧
            b_root b = b_root b0 ∧ b_status b = Active) as Hbs1.
  { intros i b. unfold bs1. destruct sel as [p|].
    - rewrite lookup_alter_Some. intros [(<- & b0 & Hl & ->)|[Hne Hl]]; eexists; split_and!; eauto.
      destruct (b_status b) eqn:E; [done|]. apply Hb in Hl as (_ & _ & Hst & _).
      destruct Hst as [Hst _]. specialize (Hst E). congruence.
    - intros Hl. eexists. split_and!; eauto. destruct (b_status b) eqn:E; [done|].
      apply Hb in Hl as (_ & _ & Hst & _). destruct Hst as [Hst _]. by specialize (Hst E). }
  split; simpl.
  - intros i b. rewrite lookup_alter_Some.
    intros [(<- & b0 & (b1 & Hl & Hi & Hr & Hst)%Hbs1 & ->)|[Hne (b1 & Hl & Hi & Hr & Hst)%Hbs1]];
      destruct (Hb _ _ Hl) as (? & ? & _ & ?); simpl; rewrite Hi, Hr; split_and!; try done.
    rewrite Hst. split; [done|]. intros [= ->]. done.
  - intros i [= <-]. apply lookup_alter_is_Some. apply fmap_Some in Hid as (b & Hl & _).
    unfold bs1. destruct sel; [apply lookup_alter_is_Some|]; by eexists.
Qed.

Lemma table_ok_discard k t id r :
  table_ok k t → table_ok k (apply_event t (EvDiscard id r)).
Proof.
  destruct t as [bs sel]. intros [Hb Hs]. split; simpl in *.
  - intros i b. rewrite lookup_delete_Some. intros [Hne Hl].
    destruct (Hb _ _ Hl) as (? & ? & Hst & ?). split_and!; try done. rewrite Hst.
    case_bool_decide; [|done]. split; congruence.
  - intros i. case_bool_decide; [done|]. intros Hsel. rewrite lookup_delete_ne by congruence.
    by apply Hs.
Qed.

Lemma apply_event_ok k t e : table_ok k t → event_ok k t e → table_ok k (apply_event t e).
Proof.
  intros Ht He. destruct e as [id r|id from r|id score summary|id r|id r]; destruct t as [bs sel].
  - destruct He as (? & ? & ?). by apply (table_ok_add k (bs, sel)).
  - destruct He as (? & ? & ?). by apply (table_ok_add k (bs, sel)).
  - by apply (table_ok_alter k (bs, sel)).
  - by apply table_ok_select.
  - by apply table_ok_discard.
Qed.

(** ** Growth of the store *)

Definition grows (k k' : KnowledgeStore) : Prop :=
  (store_ok k → store_ok k') ∧ blocks k ⊆ blocks k' ∧ nodes k ⊆ nodes k'.
#[local] Instance grows_preorder : PreOrder grows.
Proof.
  split; [by intros k|]. intros k1 k2 k3 (? & ? & ?) (? & ? & ?).
  split_and!; [auto|by etrans|by etrans].
Qed.

Lemma put_node_grows n k k' h :
  (∀ e, e ∈ entries n → refers k e) → put_node sha256_hex node_json n k = (k', Ok h) →
  grows k k' ∧ is_Some (nodes k' !! h).
Proof.
  intros He Hp.
  pose proof (λ H, put_node_ok sha256_hex node_json k n H He) as Hok. rewrite Hp in Hok.
  revert Hp. unfold put_node. munfold. intros [= <- <-]. simpl in *.
  split; [split_and!; [done|done|apply or_insert_sub]|].
  rewrite or_insert_lookup. by eexists.
Qed.

Lemma put_blocks_grows bs k :
  ∃ k' hs, put_blocks sha256_hex bs k = (k', Ok hs) ∧ grows k k'.
Proof.
  destruct (put_blocks_spec sha256_hex node_json bs k) as (k' & Hp & Hb & Hn & _ & _ & Hok & _).
  exists k', (hash_bytes sha256_hex <$> bs). split; [done|]. split_and!; [done..|].
  by rewrite Hn.
Qed.

Lemma checkpoint_grows bs k k' r :
  checkpoint_from_bytes sha256_hex node_json bs k = (k', r) →
  grows k k' ∧ (∀ h, r = Ok h → is_Some (nodes k' !! h)).
Proof.
  unfold checkpoint_from_bytes, checkpoint_from_blocks. mrun.
  destruct (put_blocks_grows bs k) as (k1 & hs & -> & Hg).
  destruct (block_entries k1 hs) as [es| | |] eqn:He; try (by intros [= <- <-]).
  apply block_entries_refers in He as [_ Hr]. intros Hp.
  destruct r as [h| | |]; try (by unfold put_node in Hp).
  apply put_node_grows in Hp as [? ?]; [|done]. split; [by etrans|]. by intros ? [= <-].
Qed.

Lemma fork_grows base bs k k' r :
  fork_append_bytes sha256_hex node_json base bs k = (k', r) →
  grows k k' ∧ (∀ h, r = Ok h → is_Some (nodes k' !! h)).
Proof.
  unfold fork_append_bytes, fork_append_blocks, contains_node. mrun.
  destruct (put_blocks_grows bs k) as (k1 & hs & -> & Hg).
  destruct (nodes k1 !! base) as [n|] eqn:Hn; cbn [isSome]; [|by intros [= <- <-]].
  destruct (block_entries k1 hs) as [es| | |] eqn:He; try (by intros [= <- <-]).
  apply block_entries_refers in He as [_ Hr]. intros Hp.
  destruct r as [h| | |]; try (by unfold put_node in Hp).
  apply put_node_grows in Hp as [? ?].
  - split; [by etrans|]. by intros ? [= <-].
  - intros e [->|?]%elem_of_cons; [by eexists|auto].
Qed.

(** ** What an operation does *)

Inductive branch_change (s : State) : option Event → State → Prop :=
  | change_quiet s' :
      grows (b_store s) (b_store s') → table s' = table s →
      Stream.buf (events s') = Stream.buf (events s) → branch_change s None s'
  | change_event e s' :
      grows (b_store s) (b_store s') → event_ok (b_store s') (table s) e →
      table s' = apply_event (table s) e →
      Stream.buf (events s') = Stream.buf (events s) ++ event_line e →
      branch_change s (Some e) s'.

(** A step is quiet, or it succeeds and logs exactly one event. *)
Definition logged {A} (s : State) (sr : State * result ErrorCode A) : Prop :=
  ∃ oe, branch_change s oe sr.1 ∧ (oe = None ∨ is_ok sr.2 = true).

Lemma quiet_self s s' :
  b_store s' = b_store s → table s' = table s → events s' = events s → branch_change s None s'.
Proof. intros Hk Ht He. constructor; [by rewrite Hk|done|by rewrite He]. Qed.
Lemma logged_fail {A} s (e : ErrorCode) : logged (A := A) s (s, Err e).
Proof. exists None. split; [by apply quiet_self|by left]. Qed.
#[local] Hint Resolve logged_fail : alan.

Hypothesis event_json_total : ∀ e, is_Some (event_json e).

Lemma append_event_eq e s :
  append_event event_json e s = (set_events (Stream.append (events s) (event_line e)) s, Ok tt).
Proof.
  unfold append_event, event_line. munfold. by destruct (event_json_total e) as [b ->].
Qed.

Lemma install_logged id bs s :
  logged s (install_base_branch sha256_hex node_json hash_key event_json id bs s).
Proof.
  unfold install_base_branch, check_id. mrun.
  destruct (validate_branch_id id) eqn:Hv; [|apply logged_fail].
  destruct (branches s !! id) eqn:Hn; cbn [isSome]; [apply logged_fail|].
  unfold on_branch_store. destruct (checkpoint_from_bytes _ _ bs (b_store s)) as [k r] eqn:Hc.
  apply checkpoint_grows in Hc as [Hg Hr].
  destruct r as [h|e| |]; cbn [map_err];
    [|exists None; split; [by constructor|by left]..].
  unfold bump_node. mrun. rewrite append_event_eq. exists (Some (EvBase id h)).
  split; [|by right]. apply change_event; [done| |done|done]. simpl. auto.
Qed.

Lemma fork_logged id from delta s :
  logged s (fork_branch sha256_hex node_json hash_key event_json id from delta s).
Proof.
  unfold fork_branch, check_id. mrun.
  destruct (validate_branch_id id) eqn:Hv; [|apply logged_fail].
  destruct (validate_branch_id from); [|apply logged_fail].
  destruct (branches s !! id) eqn:Hn; cbn [isSome]; [apply logged_fail|].
  destruct (branches s !! from) as [base|]; [|apply logged_fail].
  unfold on_branch_store.
  destruct (fork_append_bytes _ _ (b_root base) _ (b_store s)) as [k r] eqn:Hc.
  apply fork_grows in Hc as [Hg Hr].
  destruct r as [h|e| |]; cbn [map_err];
    [|exists None; split; [by constructor|by left]..].
  unfold bump_node. mrun. rewrite append_event_eq. exists (Some (EvFork id from h)).
  split; [|by right]. apply change_event; [done| |done|done]. simpl. auto.
Qed.

Lemma score_logged id score summary s :
  logged s (score_branch is_finite hash_key event_json id score summary s).
Proof.
  unfold score_branch, check_id. mrun.
  destruct (validate_branch_id id); [|apply logged_fail].
  destruct (negb (is_finite score)); [apply logged_fail|].
  destruct (branches s !! id) as [b|] eqn:Hb; [|apply logged_fail].
  unfold bump_node. mrun.
  case_bool_decide; rewrite append_event_eq; exists (Some (EvScore id score summary));
    (split; [|by right]); apply change_event; try done; try (by eexists).
  all: unfold table; simpl; f_equal; by rewrite (alter_alt_Some _ _ _ _ Hb).
Qed.

(** The table once the previous selection is reset *)
Definition unselected (bs : gmap string (BranchRecord (f64 := f64))) (sel : option string) :=
  match sel with Some p => alter (set_status Active) p bs | None => bs end.

Lemma unselected_lookup bs sel id b :
  bs !! id = Some b → ∃ b', unselected bs sel !! id = Some b' ∧ b_root b' = b_root b.
Proof.
  intros Hl. destruct sel as [p|]; [|by eexists]. simpl. rewrite lookup_alter.
  case_decide; subst; rewrite Hl; simpl; eexists; (split; [reflexivity|]); done.
Qed.

(** [select_branch] after its guards *)
Lemma select_logged id s : logged s (select_branch hash_key event_json id s).
Proof.
  unfold select_branch, check_id. mrun.
  destruct (validate_branch_id id); [|apply logged_fail].
  destruct (branches s !! id) as [b|] eqn:Hb; cbn [isSome negb]; [|apply logged_fail].
  destruct (unselected_lookup (branches s) (selected s) id b Hb) as (b' & Hb' & Hr).
  assert (∀ s1, branches s1 = unselected (branches s) (selected s) → b_store s1 = b_store s →
    events s1 = events s → logged s
      ((branch ← mlift (branches s1 !! id) NotFound;
        mmodify (λ s, set_branches (<[id := set_status Selected branch]> (branches s)) s);;
        mmodify (set_selected (Some id));;
        bump_node hash_key BSelected;;
        bump_node hash_key (BBranch id);;
        append_event event_json (EvSelect id (b_root branch))) s1)) as Hrest.
  { intros s1 Hbs Hk He. unfold bump_node. mrun. rewrite Hbs, Hb', append_event_eq.
    exists (Some (EvSelect id (b_root b'))). split; [|by right].
    apply change_event; unfold table; simpl; rewrite ?Hk, ?He, ?Hbs, ?Hb, ?Hr; try done.
    by rewrite <-(alter_alt_Some (set_status Selected) _ _ _ Hb'). }
  unfold unselected in Hrest. unfold bump_node at 1. mrun.
  destruct (selected s) as [p|] eqn:Hs; [rewrite alter_alt in Hrest; destruct (branches s !! p)|];
    apply Hrest; done.
Qed.

Lemma discard_logged id s : logged s (discard_branch hash_key event_json id s).
Proof.
  unfold discard_branch, check_id. mrun.
  destruct (validate_branch_id id); [|apply logged_fail].
  destruct (branches s !! id) as [b|] eqn:Hb; [|apply logged_fail].
  unfold bump_node. mrun.
  case_bool_decide as Hs; rewrite append_event_eq; exists (Some (EvDiscard id (b_root b)));
    (split; [|by right]); apply change_event; try done; simpl; rewrite ?Hb; try done;
    unfold table; simpl; by case_bool_decide.
Qed.

(** ** Requests and sessions *)

Lemma branch_quiet_fids s m : branch_change s None (set_b_fids m s).
Proof. by apply quiet_self. Qed.
#[local] Hint Resolve branch_quiet_fids : alan.

Lemma change_from_fids s m oe s' : branch_change (set_b_fids m s) oe s' → branch_change s oe s'.
Proof. destruct 1; by constructor. Qed.

Lemma quiet_refl s : branch_change s None s.
Proof. by apply quiet_self. Qed.

Lemma command_logged c s :
  logged s (run_command is_finite sha256_hex node_json hash_key event_json c s).
Proof.
  destruct c; simpl.
  - apply fork_logged.
  - apply score_logged.
  - apply select_logged.
  - apply discard_logged.
Qed.

Lemma branch_clunk_logged f s :
  logged s (branch_clunk is_finite sha256_hex node_json hash_key parse_command event_json f s).
Proof.
  unfold branch_clunk. case_bool_decide.
  { exists None. split; [apply quiet_refl|by left]. }
  mrun. destruct (b_fids s !! f) as [fs|]; [|apply logged_fail].
  set (s0 := set_b_fids _ s).
  assert (∀ A (r : result ErrorCode A), logged s (s0, r)) as Hq
    by (intros; exists None; split; [apply branch_quiet_fids|by left]).
  destruct (negb (bf_wrote fs)); [apply Hq|]. destruct (bf_node fs); try apply Hq.
  unfold commit_ctl. mrun. destruct (from_utf8 (bf_buf fs)) as [t|]; [|apply Hq].
  destruct (parse_command t) as [c|]; [|apply Hq].
  destruct (command_logged c s0) as (oe & Hc & Ho). exists oe. split; [|done].
  by eapply change_from_fids.
Qed.

Lemma branch_read_reads f offset count :
  step_rel (=) (branch_read record_json selected_json f offset count).
Proof. unfold branch_read. msteps. Qed.
Lemma branch_stat_reads f : step_rel (=) (branch_stat hash_key record_json selected_json f).
Proof. unfold branch_stat. msteps. Qed.
#[local] Hint Resolve branch_read_reads branch_stat_reads : alan.

Lemma branch_walk_quiet f newfid names s :
  branch_change s None (branch_walk hash_key f newfid names s).1.
Proof.
  unfold branch_walk. munfold. repeat (case_match; simplify_eq/=); auto using quiet_refl, branch_quiet_fids.
Qed.
Lemma branch_open_quiet f m s : branch_change s None (branch_open hash_key f m s).1.
Proof.
  unfold branch_open. munfold. destruct (branch_node_of f s); [|apply quiet_refl].
  destruct (bool_decide (f = ROOT)); simpl;
    repeat (case_match; simplify_eq/=); auto using quiet_refl, branch_quiet_fids.
Qed.
Lemma branch_write_quiet f offset data s : branch_change s None (branch_write f offset data s).1.
Proof.
  unfold branch_write. munfold. repeat (case_match; simplify_eq/=); auto using quiet_refl, branch_quiet_fids.
Qed.

Lemma branch_call_change req s : ∃ oe, branch_change s oe (transport_call req s).1.
Proof.
  assert (∀ A (m : Op State A) (g : A → Response) oe, branch_change s oe (m s).1 →
    ∃ oe, branch_change s oe ((a ← m; mret (g a)) s).1) as Hbind.
  { intros A m g oe Hm. exists oe. unfold mbind, m_bind. by destruct (m s) as [s' []]. }
  destruct req; simpl.
  - eapply (Hbind _ _ WalkResp), branch_walk_quiet.
  - eapply (Hbind _ _ OpenResp), branch_open_quiet.
  - eapply (Hbind _ _ ReadResp). rewrite <-(branch_read_reads fid offset count s).
    apply quiet_refl.
  - eapply (Hbind _ _ WriteResp), branch_write_quiet.
  - eapply (Hbind _ _ StatResp). rewrite <-(branch_stat_reads fid s). apply quiet_refl.
  - exists None. apply quiet_refl.
  - exists None. apply quiet_refl.
  - destruct (branch_clunk_logged fid s) as (oe & Hc & _).
    by eapply (Hbind _ _ (λ _, ClunkResp)).
Qed.

Inductive branch_event : Type :=
  | BCall (req : Request)
  | BInstall (id : string) (bs : list bytes).
Definition branch_step (s : State) (ev : branch_event) : State :=
  match ev with
  | BCall req => (transport_call req s).1
  | BInstall id bs => (install_base_branch sha256_hex node_json hash_key event_json id bs s).1
  end.
Definition branch_run (evs : list branch_event) : State := foldl branch_step branch_new evs.

Record branch_inv (s : State) (es : list Event) : Prop := {
  bi_store : store_ok (b_store s);
  bi_log : Stream.buf (events s) = log_bytes es;
  bi_replay : replay es = table s;
  bi_table : table_ok (b_store s) (table s);
}.

Lemma branch_change_inv s es oe s' :
  branch_inv s es → branch_change s oe s' → branch_inv s' (es ++ option_list oe).
Proof.
  intros [Hk Hl Hr Ht]. destruct 1 as [s' (Hg & _ & Hn) Htbl Hev|e s' (Hg & _ & Hn) He Htbl Hev].
  - simpl. rewrite app_nil_r. split; [auto|by rewrite Hev|by rewrite Htbl|].
    rewrite Htbl. by eapply table_ok_mono.
  - simpl. split; [auto| | |].
    + rewrite Hev, Hl. unfold log_bytes. rewrite fmap_app, concat_app. simpl.
      by rewrite app_nil_r.
    + unfold replay in *. rewrite foldl_app, Hr. by symmetry.
    + rewrite Htbl. apply apply_event_ok; [|done]. by eapply table_ok_mono.
Qed.

Lemma branch_reachable_inv evs : ∃ es, branch_inv (branch_run evs) es.
Proof.
  assert (∀ s es, branch_inv s es → ∃ es', branch_inv (foldl branch_step s evs) es') as H.
  { induction evs as [|ev evs IH]; intros s es Hs; [eauto|]. simpl.
    assert (∃ oe, branch_change s oe (branch_step s ev)) as [oe Hc].
    { destruct ev as [req|id bs]; [apply branch_call_change|].
      destruct (install_logged id bs s) as (oe & Hc & _). eauto. }
    by eapply IH, branch_change_inv. }
  apply (H branch_new []). split; [apply store_ok_new|done|done|].
  split; simpl; [intros ? ?; by rewrite lookup_empty|done].
Qed.

(** ** Forks *)

Lemma fork_content id from delta s s' base b0 :
  store_ok (b_store s) → branches s !! from = Some base →
  content (b_store s) (b_root base) b0 →
  (∀ n n', node_bytes node_json n = node_bytes node_json n' → n = n') →
  collision_free sha256_hex (λ b, addressed node_json (b_store s) b ∨ b ∈ [into_bytes delta] ∨
    b = node_bytes node_json (snapshot_node sha256_hex (Some (b_root base)) [into_bytes delta])) →
  fork_branch sha256_hex node_json hash_key event_json id from delta s = (s', Ok tt) →
  ∃ h, branches s' = <[id := branch_fork id from h]> (branches s) ∧ selected s' = selected s ∧
    content (b_store s') h (b0 ++ into_bytes delta) ∧
    (∀ h' b, content (b_store s) h' b → content (b_store s') h' b).
Proof.
  intros Hok Hfrom Hb0 Hinj Hcf. unfold fork_branch, check_id. mrun.
  destruct (validate_branch_id id); [|done]. destruct (validate_branch_id from); [|done].
  destruct (branches s !! id) eqn:Hn; cbn [isSome]; [done|]. rewrite Hfrom.
  destruct (snapshot_stored sha256_hex node_json toy_values toy_values_spec (b_store s)
    (Some (b_root base)) [into_bytes delta] b0 Hok Hb0 Hinj Hcf)
    as (k & Hs & Hok' & Hcon & Hb & Hnd).
  simpl in Hs, Hcon. rewrite app_nil_r in Hcon.
  unfold on_branch_store. rewrite Hs. unfold bump_node. mrun. cbn [map_err].
  rewrite append_event_eq. intros [= <-]. simpl. eexists. split_and!; [done|done|done|].
  intros h' b (n & Hl & Hsp). exists n. split; [by eapply lookup_weaken|]. by eapply spells_mono.
Qed.
End branchfacts.

(** ** Properties *)

Section properties.
Context {f64 : Type} (is_finite : f64 → bool).
Context (sha256_hex : bytes → string) (node_json : DagNodeV1 → bytes) (hash_key : string → Z).
Context (parse_command : string → option (BranchCommand (f64 := f64))).
Context (record_json : BranchRecord (f64 := f64) → option bytes).
Context (selected_json : SelectedBranch (f64 := f64) → option bytes).
Context (event_json : EventRecord (f64 := f64) → option bytes).
Abbreviation run := (branch_run is_finite sha256_hex node_json hash_key parse_command record_json
  selected_json event_json).

(** C31: the event stream of the branch server is a complete log. After any
    session of requests and base installs, the stream holds exactly one line
    per lifecycle event, and replaying the events rebuilds the branch table, with
    its roots, scores and statuses, and the selection. *)
Theorem branch_log_replays
    (event_json_total : ∀ e, is_Some (event_json e)) (evs : list branch_event) :
  ∃ es, Stream.buf (events (run evs)) = log_bytes event_json es ∧
        replay es = (branches (run evs), selected (run evs)).
Proof.
  destruct (branch_reachable_inv is_finite sha256_hex node_json hash_key parse_command record_json
    selected_json event_json event_json_total evs) as [es [_ Hl Hr _]].
  exists es. split; [exact Hl|exact Hr].
Qed.

(** After any session exactly the branch the server names as selected has
    status [Selected], the selected branch is visible, and the checkpoint of every
    visible branch verifies and stands for some contents. *)
Theorem one_branch_selected
    (event_json_total : ∀ e, is_Some (event_json e)) (evs : list branch_event) :
  (∀ id b, branches (run evs) !! id = Some b →
     b_id b = id ∧ (b_status b = Selected ↔ selected (run evs) = Some id) ∧
     verify_root_hash sha256_hex node_json (b_root b) (b_store (run evs)) = Ok tt ∧
     ∃ c, content sha256_hex node_json (b_store (run evs)) (b_root b) c) ∧
  (∀ id, selected (run evs) = Some id → is_Some (branches (run evs) !! id)).
Proof.
  destruct (branch_reachable_inv is_finite sha256_hex node_json hash_key parse_command record_json
    selected_json event_json event_json_total evs) as [es [Hk _ _ [Hb Hs]]].
  split; [|exact Hs]. intros id b Hl. destruct (Hb _ _ Hl) as (? & _ & ? & ?).
  split_and!; [done|done|by apply verify_root_ok|by apply content_total].
Qed.

(** A fork that is accepted adds one branch whose contents are its base's
    followed by the delta, leaves the selection, every other record and every
    stored contents as they were, unless the bytes involved collide under
    SHA-256. *)
Theorem fork_extends_base
    (event_json_total : ∀ e, is_Some (event_json e))
    (node_json_inj : ∀ n n', node_bytes node_json n = node_bytes node_json n' → n = n')
    (evs : list branch_event) (id from delta : string) (base : BranchRecord) (b0 : bytes)
    (s' : BranchState)
    (Hcf : collision_free sha256_hex (λ b, addressed node_json (b_store (run evs)) b ∨
       b ∈ [into_bytes delta] ∨ b = node_bytes node_json
         (snapshot_node sha256_hex (Some (b_root base)) [into_bytes delta]))) :
  branches (run evs) !! from = Some base →
  content sha256_hex node_json (b_store (run evs)) (b_root base) b0 →
  fork_branch sha256_hex node_json hash_key event_json id from delta (run evs) = (s', Ok tt) →
  ∃ h, branches s' = <[id := branch_fork id from h]> (branches (run evs)) ∧
    selected s' = selected (run evs) ∧
    content sha256_hex node_json (b_store s') h (b0 ++ into_bytes delta) ∧
    (∀ h' b, content sha256_hex node_json (b_store (run evs)) h' b →
             content sha256_hex node_json (b_store s') h' b).
Proof.
  intros Hfrom Hb0 Hf.
  destruct (branch_reachable_inv is_finite sha256_hex node_json hash_key parse_command record_json
    selected_json event_json event_json_total evs) as [es [Hk _ _ _]].
  by eapply fork_content.
Qed.
End properties.

(** ** Witnesses: scores are natural numbers, documents one letter per command *)

Definition toy_parse (t : string) : option (BranchCommand (f64 := nat)) :=
  if bool_decide (t = "f") then Some (Fork "b" "a" "x")
  else if bool_decide (t = "s") then Some (Select "b")
  else if bool_decide (t = "t") then Some (Select "a")
  else if bool_decide (t = "p") then Some (Score "b" 7%nat None)
  else if bool_decide (t = "d") then Some (Discard "a")
  else None.
Definition toy_event (e : EventRecord (f64 := nat)) : option bytes := Some (into_bytes
  match e with
  | EvBase id _ => "base " +:+ id | EvFork id _ _ => "fork " +:+ id
  | EvScore id _ _ => "score " +:+ id | EvSelect id _ => "select " +:+ id
  | EvDiscard id _ => "discard " +:+ id
  end).
Abbreviation toy_branch_run := (branch_run (λ _ : nat, true) toy_sha toy_json
  (λ k, Z.of_nat (String.length k)) toy_parse (λ _, None) (λ _, None) toy_event).
Definition toy_cmd (f : Fid) (t : string) : list branch_event :=
  BCall <$> [WalkReq ROOT f ["ctl"]; OpenReq f Write; WriteReq f 0 (into_bytes t); ClunkReq f].
Definition toy_branch_session : list branch_event :=
  BInstall "a" [into_bytes "m"] ::
  toy_cmd 1 "t" ++ toy_cmd 1 "f" ++ toy_cmd 1 "p" ++ toy_cmd 1 "s" ++ toy_cmd 1 "d".

Lemma toy_event_total e : is_Some (toy_event e).
Proof. by eexists. Qed.

(** The session's log, as the stream file shows it *)
Example branch_session_log :
  Stream.buf (events (toy_branch_run toy_branch_session)) =
  into_bytes (join (String "010" "")
    ["base a"; "select a"; "fork b"; "score b"; "select b"; "discard a"; ""]).
Proof. vm_compute. reflexivity. Qed.

Lemma branch_log_replays_witness :
  ∃ es, Stream.buf (events (toy_branch_run toy_branch_session)) = log_bytes toy_event es ∧
    replay es = (branches (toy_branch_run toy_branch_session),
                 selected (toy_branch_run toy_branch_session)).
Proof.
  exact (branch_log_replays (λ _ : nat, true) toy_sha toy_json
    (λ k, Z.of_nat (String.length k)) toy_parse (λ _, None) (λ _, None) toy_event
    toy_event_total toy_branch_session).
Defined.

Lemma one_branch_selected_witness :
  selected (toy_branch_run toy_branch_session) = Some "b" ∧
  is_Some (branches (toy_branch_run toy_branch_session) !! "b").
Proof.
  assert (Hs : selected (toy_branch_run toy_branch_session) = Some "b")
    by (vm_compute; reflexivity).
  split; [exact Hs|].
  destruct (one_branch_selected (λ _ : nat, true) toy_sha toy_json
    (λ k, Z.of_nat (String.length k)) toy_parse (λ _, None) (λ _, None) toy_event
    toy_event_total toy_branch_session) as [_ H].
  apply H. exact Hs.
Defined.

Lemma fork_extends_base_witness :
  ∃ s' h, branches s' =
      <[("b" : string) := branch_fork "b" "a" h]> (branches (toy_branch_run [BInstall "a" [into_bytes "m"]])) ∧
    content toy_sha toy_json (b_store s') h (into_bytes "m" ++ into_bytes "x").
Proof.
  destruct (fork_branch toy_sha toy_json (λ k, Z.of_nat (String.length k)) toy_event "b" "a" "x"
    (toy_branch_run [BInstall "a" [into_bytes "m"]])) as [s' r] eqn:Hf.
  assert (Hr : (fork_branch toy_sha toy_json (λ k, Z.of_nat (String.length k)) toy_event "b" "a" "x"
    (toy_branch_run [BInstall "a" [into_bytes "m"]])).2 = Ok tt) by (vm_compute; reflexivity).
  rewrite Hf in Hr. cbn [snd] in Hr. subst r.
  assert (Hb : (λ b, (b_id b, materialize_node 5 (b_store (toy_branch_run [BInstall "a" [into_bytes "m"]]))
      (b_root b) ∅)) <$> branches (toy_branch_run [BInstall "a" [into_bytes "m"]]) !! "a" =
    Some ("a", (∅, Ok (into_bytes "m")))) by (vm_compute; reflexivity).
  apply fmap_Some in Hb as (base & Hl & Hb). apply (f_equal snd) in Hb. cbn [snd] in Hb. rename Hb into Hm.
  destruct (fork_extends_base (λ _ : nat, true) toy_sha toy_json
    (λ k, Z.of_nat (String.length k)) toy_parse (λ _, None) (λ _, None) toy_event
    toy_event_total toy_json_inj [BInstall "a" [into_bytes "m"]] "b" "a" "x" base (into_bytes "m")
    s' (toy_collision_free _) Hl (materialize_content toy_sha toy_json _ _ _ _ _ _ (eq_sym Hm)) Hf)
    as (h & Hbs & _ & Hc & _).
  exists s', h. split; [exact Hbs|exact Hc].
Defined.
