(* ===== verification/RustText.v ===== *)
(** * Text operations of the Rust standard library used by command parsers

    [str::strip_prefix], [str::split_once] and [str::trim], with the facts that
    parsing what was printed needs. Strings are their UTF-8 bytes. *)
From S2P Require Import Prelude RustStd.

(** [s.strip_prefix(p)] *)
Fixpoint strip_prefix (p s : string) : option string :=
  match p, s with
  | EmptyString, _ => Some s
  | String a p', String b s' => if bool_decide (a = b) then strip_prefix p' s' else None
  | String _ _, EmptyString => None
  end.

(** [s.split_once(sep)]: around the first occurrence *)
Fixpoint split_once (sep s : string) : option (string * string) :=
  match strip_prefix sep s with
  | Some rest => Some (EmptyString, rest)
  | None => match s with
            | EmptyString => None
            | String c s' => prod_map (String c) id <$> split_once sep s'
            end
  end.

(** The UTF-8 encodings of the characters with the property White_Space *)
Definition white_space : list bytes :=
  [[x09]; [x0a]; [x0b]; [x0c]; [x0d]; [x20]; [xc2; x85]; [xc2; xa0]; [xe1; x9a; x80];
   [xe2; x80; x80]; [xe2; x80; x81]; [xe2; x80; x82]; [xe2; x80; x83]; [xe2; x80; x84];
   [xe2; x80; x85]; [xe2; x80; x86]; [xe2; x80; x87]; [xe2; x80; x88]; [xe2; x80; x89];
   [xe2; x80; x8a]; [xe2; x80; xa8]; [xe2; x80; xa9]; [xe2; x80; xaf]; [xe2; x81; x9f];
   [xe3; x80; x80]].

Fixpoint strip_bytes (p b : bytes) : option bytes :=
  match p, b with
  | [], _ => Some b
  | x :: p', y :: b' => if bool_decide (x = y) then strip_bytes p' b' else None
  | _ :: _, [] => None
  end.
(** Drop one of the given encodings from the front *)
Fixpoint strip_any (encs : list bytes) (b : bytes) : option bytes :=
  match encs with
  | [] => None
  | e :: encs' => match strip_bytes e b with Some r => Some r | None => strip_any encs' b end
  end.
Fixpoint trim_front (encs : list bytes) (fuel : nat) (b : bytes) : bytes :=
  match fuel with
  | O => b
  | S f => match strip_any encs b with Some r => trim_front encs f r | None => b end
  end.
(** [s.trim()]; every step drops at least one byte *)
Definition trim_bytes (b : bytes) : bytes :=
  let b := trim_front white_space (length b) b in
  reverse (trim_front (reverse <$> white_space) (length b) (reverse b)).
Definition trim (s : string) : string := of_bytes (trim_bytes (into_bytes s)).

Fixpoint str_has (p s : string) : bool :=
  starts_with p s || match s with EmptyString => false | String _ s' => str_has p s' end.

(** ** Facts *)

Lemma strip_prefix_app p s : strip_prefix p (p +:+ s) = Some s.
Proof. induction p as [|a p IH]; [done|]. simpl. by rewrite bool_decide_true. Qed.

(** The first occurrence of a separator comes after a text without its first
    character. *)
Lemma split_once_app c sep w rest :
  str_contains c w = false →
  split_once (String c sep) (w +:+ (String c sep +:+ rest)) = Some (w, rest).
Proof.
  induction w as [|a w IH]; intros Hw.
  - assert (strip_prefix (String c sep) (String c sep +:+ rest) = Some rest) as Hs
      by apply strip_prefix_app.
    change ("" +:+ (String c sep +:+ rest)) with (String c (sep +:+ rest)) in *.
    change (String c sep +:+ rest) with (String c (sep +:+ rest)) in Hs.
    cbn [split_once]. by rewrite Hs.
  - cbn [str_contains] in Hw. apply orb_false_iff in Hw as [Ha Hw].
    apply bool_decide_eq_false in Ha. rewrite string_app_cons.
    cbn [split_once strip_prefix]. rewrite bool_decide_false by congruence.
    by rewrite IH by done.
Qed.

Lemma strip_any_none encs b :
  (∀ e x e', e ∈ encs → e = x :: e' → head b ≠ Some x) → [] ∉ encs → strip_any encs b = None.
Proof.
  induction encs as [|e encs IH]; intros Hh Hn; [done|]. simpl.
  destruct e as [|x e]; [set_solver|].
  assert (strip_bytes (x :: e) b = None) as ->.
  { destruct b as [|y b]; [done|]. simpl. rewrite bool_decide_false; [done|].
    intros ->. by apply (Hh (y :: e) y e); [left|done|]. }
  apply IH; [|set_solver]. intros e' x' e'' Hin. apply (Hh e'). by right.
Qed.

(** Text that starts and ends with printable ASCII is not changed by [trim]. *)
Definition printable (x : byte) : Prop := (33 ≤ Byte.to_N x < 128)%N.

Lemma white_space_heads e x e' : e ∈ white_space → e = x :: e' → ¬ printable x.
Proof.
  intros Hin ->. unfold printable.
  repeat (apply elem_of_cons in Hin as [Hin|Hin]; [injection Hin as -> _; vm_compute; intros []; try done|]).
  by apply elem_of_nil in Hin.
Qed.
Lemma white_space_tails e x e' : e ∈ reverse <$> white_space → e = x :: e' → ¬ printable x.
Proof.
  intros Hin ->. unfold printable. vm_compute in Hin.
  repeat (apply elem_of_cons in Hin as [Hin|Hin]; [injection Hin as -> _; vm_compute; intros []; try done|]).
  by apply elem_of_nil in Hin.
Qed.

Lemma trim_front_id encs fuel b x :
  (∀ e y e', e ∈ encs → e = y :: e' → ¬ printable y) → [] ∉ encs →
  head b = Some x → printable x → trim_front encs fuel b = b.
Proof.
  intros Hp Hn Hb Hx. destruct fuel as [|f]; [done|]. simpl. rewrite strip_any_none; [done| |done].
  intros e y e' Hin -> Hy. apply (Hp (y :: e') y e'); [done|done|]. congruence.
Qed.

Lemma trim_id s x y :
  head (into_bytes s) = Some x → last (into_bytes s) = Some y →
  printable x → printable y → trim s = s.
Proof.
  intros Hx Hy Hpx Hpy. unfold trim, trim_bytes.
  rewrite (trim_front_id white_space _ _ x); [|exact white_space_heads| |done|done].
  - rewrite (trim_front_id (reverse <$> white_space) _ _ y); [|exact white_space_tails| | |done].
    + by rewrite reverse_involutive, of_into_bytes.
    + vm_compute. intros Hin. repeat (apply elem_of_cons in Hin as [Hin|Hin]; [done|]).
      by apply elem_of_nil in Hin.
    + by rewrite head_reverse.
  - intros Hin. repeat (apply elem_of_cons in Hin as [Hin|Hin]; [done|]). by apply elem_of_nil in Hin.
Qed.

(** A printed number contains only digits. *)
Lemma parse_digits_contains acc s n c :
  parse_digits acc s = Some n → char_digit c = None → str_contains c s = false.
Proof.
  revert acc. induction s as [|a s IH]; intros acc; simpl; [done|].
  destruct (char_digit a) as [d|] eqn:Hd; [|done]. intros Hp Hc.
  rewrite bool_decide_false by congruence. simpl. by eapply IH.
Qed.
Lemma dec_string_Z_contains z c :
  0 ≤ z → char_digit c = None → str_contains c (dec_string_Z z) = false.
Proof.
  intros Hz Hc. unfold dec_string_Z. rewrite (proj2 (Z.ltb_ge _ _)) by lia.
  eapply parse_digits_contains; [apply parse_digits_dec_string|done].
Qed.

Lemma parse_digits_printable acc s n : parse_digits acc s = Some n → Forall printable (into_bytes s).
Proof.
  revert acc. induction s as [|a s IH]; intros acc; simpl; [constructor|].
  destruct (char_digit a) as [d|] eqn:Hd; [|done]. intros Hp. constructor; [|by eapply IH].
  unfold char_digit in Hd. destruct (_ && _) eqn:E; [|done].
  apply andb_true_iff in E as [E1 E2]. apply N.leb_le in E1, E2. unfold printable.
  replace (Byte.to_N (byte_of_ascii a)) with (N_of_ascii a); [lia|]. by destruct a as [[] [] [] [] [] [] [] []].
Qed.

(** The last byte of a printed number *)
Lemma dec_string_Z_last z :
  0 ≤ z < u64_size → ∃ y, last (into_bytes (dec_string_Z z)) = Some y ∧ printable y.
Proof.
  intros Hz. pose proof (parse_dec_string_Z z Hz) as Hp.
  assert (Forall printable (into_bytes (dec_string_Z z))) as Hall.
  { unfold dec_string_Z. rewrite (proj2 (Z.ltb_ge _ _)) by lia.
    eapply parse_digits_printable, parse_digits_dec_string. }
  destruct (last (into_bytes (dec_string_Z z))) as [y|] eqn:Hl.
  - exists y. split; [done|]. rewrite Forall_forall in Hall. apply Hall. by apply last_Some_elem_of.
  - apply last_None in Hl. assert (dec_string_Z z = "") as E.
    { rewrite <-(of_into_bytes (dec_string_Z z)), Hl. done. }
    rewrite E in Hp. done.
Qed.

(** ** Unix paths of the Rust standard library ([std::path])

    [Path::components], [Path::is_absolute], [PathBuf::push] and the tests the
    policy loader makes on components; a path is its text. *)


Inductive PathComponent : Set :=
  RootDir | CurDir | ParentDir | Normal (s : string).
Global Instance PathComponent_eq_dec : EqDecision PathComponent.
Proof. solve_decision. Defined.

(** The component a piece between separators stands for: empty pieces and [.]
    are dropped. *)
Definition component_of (piece : string) : option PathComponent :=
  if bool_decide (piece = "") || bool_decide (piece = ".") then None
  else if bool_decide (piece = "..") then Some ParentDir
  else Some (Normal piece).

Definition is_absolute (p : string) : bool := starts_with "/" p.

(** [Path::components]: a leading [.] of a relative path is kept *)
Definition components (p : string) : list PathComponent :=
  let pieces := split_on "/" p in
  if is_absolute p then RootDir :: omap component_of pieces
  else match pieces with
       | piece :: _ =>
           (if bool_decide (piece = ".") then [CurDir] else []) ++ omap component_of pieces
       | [] => []
       end.

Definition ends_with_slash (p : string) : bool :=
  match last (into_bytes p) with Some x => bool_decide (x = x2f) | None => false end.

(** [PathBuf::push] *)
Definition path_push (base p : string) : string :=
  if is_absolute p then p
  else if bool_decide (base = "") || ends_with_slash base then base +:+ p
  else base +:+ ("/" +:+ p).

(** [components().all(|c| matches!(c, Normal(_) | CurDir))] and the stricter test *)
Definition stays_below (p : string) : bool :=
  forallb (λ c, match c with Normal _ | CurDir => true | _ => false end) (components p).
Definition all_normal (p : string) : bool :=
  forallb (λ c, match c with Normal _ => true | _ => false end) (components p).

(** The texts of the [Normal] components *)
Definition normal_texts (p : string) : list string :=
  omap (λ c, match c with Normal s => Some s | _ => None end) (components p).

(** [path.starts_with(base)]: component-wise *)
Fixpoint components_start_with (p base : list PathComponent) : bool :=
  match base, p with
  | [], _ => true
  | b :: base', c :: p' => bool_decide (b = c) && components_start_with p' base'
  | _ :: _, [] => false
  end.
Definition path_starts_with (p base : string) : bool :=
  components_start_with (components p) (components base).

(** ** Facts *)

(** A piece that is a [Normal] component is a valid path component and no dots. *)
Lemma component_of_normal piece s :
  str_contains "/" piece = false → component_of piece = Some (Normal s) →
  s = piece ∧ valid_component s = true ∧ s ≠ ".." ∧ s ≠ ".".
Proof.
  intros Hp Hc. unfold component_of in Hc.
  destruct (bool_decide (piece = "") || bool_decide (piece = ".")) eqn:E1; [done|].
  destruct (bool_decide (piece = "..")) eqn:E2; [done|]. injection Hc as <-.
  bool_facts. unfold valid_component. by rewrite bool_decide_false, Hp by done.
Qed.

Lemma components_normal p s :
  Normal s ∈ components p → valid_component s = true ∧ s ≠ ".." ∧ s ≠ ".".
Proof.
  intros Hin.
  assert (∃ piece, piece ∈ split_on "/" p ∧ component_of piece = Some (Normal s))
    as (piece & Hpiece & Hc).
  { unfold components in Hin. destruct (is_absolute p).
    - apply elem_of_cons in Hin as [|Hin]; [done|]. by apply list_elem_of_omap in Hin.
    - destruct (split_on "/" p) as [|piece pieces] eqn:E; [by apply elem_of_nil in Hin|].
      apply elem_of_app in Hin as [Hin|Hin]; [|by apply list_elem_of_omap in Hin].
      case_bool_decide; [by apply list_elem_of_singleton in Hin|by apply elem_of_nil in Hin]. }
  pose proof (split_on_no_sep "/" p) as Hsep. rewrite Forall_forall in Hsep.
  by apply component_of_normal in Hc as (-> & ?); [|apply Hsep].
Qed.

(** ** JSON values, as serde_json represents them

    The value type and the accessors the modelled crates call. A number is kept
    as the text serde_json prints for it. Parsing and printing of whole values
    are parameters of the components that use them. *)


(** [serde_json::Value] *)
Inductive Json : Type :=
  | JNull | JBool (b : bool) | JNumber (text : string) | JString (s : string)
  | JArray (items : list Json) | JObject (fields : list (string * Json)).

(** [object.get(key)] *)
Fixpoint json_get (fields : list (string * Json)) (key : string) : option Json :=
  match fields with
  | [] => None
  | (k, v) :: fields' => if bool_decide (k = key) then Some v else json_get fields' key
  end.
Definition as_str (j : Json) : option string :=
  match j with JString s => Some s | _ => None end.

(** [value.get(key)]: nothing for a value that is not an object *)
Definition value_get (key : string) (j : Json) : option Json :=
  match j with JObject fields => json_get fields key | _ => None end.
(** [value.as_u64()]: an unsigned integer prints as its digits; a negative number
    prints a sign and a float a point or an exponent. *)
Definition as_u64 (j : Json) : option Z :=
  match j with JNumber text => parse_u64 text | _ => None end.
Definition as_bool (j : Json) : option bool :=
  match j with JBool b => Some b | _ => None end.
