(* ===== verification/EditFs.v ===== *)
(** * The editable-buffer file server (crates/editfs/src/lib.rs)

    One buffer with [body], [tag], [addr] and [ctl] files, committed at clunk,
    and an event stream. Addresses are bound to a body revision; [ctl exec] names
    a complete address and is gated by the execution policy. Parameters: the
    default hasher and serde_json's printer of an event. Revisions are not wrapped
    at 64 bits. *)
From S2P Require Import Prelude RustStd ApTypes ApServer RustText.

Definition EDIT_MAX_DOC_BYTES : Z := Z.shiftl 1 20.

Inductive ExecutionPolicy : Set := DenyAll | AcceptAll.
Inductive ExecutionStatus : Set := Accepted | Denied.

(** [ExecutionPolicy::decide] *)
Definition decide_exec (p : ExecutionPolicy) (command : string) : ExecutionStatus :=
  match p with DenyAll => Denied | AcceptAll => Accepted end.

Record AddressRange : Set := mkAddr {
  a_body_revision : Z;
  addr_revision : Z;
  a_start : Z;
  a_end : Z;
}.
Global Instance AddressRange_eq_dec : EqDecision AddressRange.
Proof. solve_decision. Defined.

Definition collapsed (body_revision : Z) : AddressRange := mkAddr body_revision 0 0 0.

(** [?] on a result *)
Definition and_then {A B} (r : result ErrorCode A) (f : A → result ErrorCode B) :
    result ErrorCode B :=
  match r with Ok a => f a | Err e => Err e | Park => Park | Panic => Panic end.

Definition parse_range (source : string) : result ErrorCode (Z * Z) :=
  and_then (ok_or (split_once ".." source) BadRequest) (λ '(a, b),
  and_then (ok_or (parse_u64 a) BadRequest) (λ start,
  and_then (ok_or (parse_u64 b) BadRequest) (λ stop,
  if stop <? start then Err BadRequest else Ok (start, stop)))).

Definition parse_body_revision_range (source : string) : result ErrorCode (Z * Z * Z) :=
  and_then (ok_or (strip_prefix "rev:" source ≫= split_once " ") BadRequest) (λ '(revision, range),
  and_then (ok_or (parse_u64 revision) BadRequest) (λ revision,
  and_then (parse_range range) (λ '(start, stop), Ok (revision, start, stop)))).

(** [AddressRange::parse_addr_write] *)
Definition parse_addr_write (source : string) : result ErrorCode AddressRange :=
  and_then (parse_body_revision_range (trim source)) (λ '(r, start, stop),
  Ok (mkAddr r 0 start stop)).

(** [AddressRange::parse_exec] *)
Definition parse_exec (source : string) : result ErrorCode AddressRange :=
  and_then (ok_or (strip_prefix "exec " (trim source)) BadRequest) (λ trimmed,
  and_then (ok_or (strip_prefix "rev:" trimmed ≫= split_once " ") BadRequest) (λ '(r, rest),
  and_then (ok_or (parse_u64 r) BadRequest) (λ body_revision,
  and_then (ok_or (strip_prefix "addr:" rest ≫= split_once " ") BadRequest) (λ '(a, range),
  and_then (ok_or (parse_u64 a) BadRequest) (λ revision,
  and_then (parse_range range) (λ '(start, stop),
  Ok (mkAddr body_revision revision start stop))))))).

(** [Display for AddressRange] *)
Definition addr_string (a : AddressRange) : string :=
  "rev:" +:+ (dec_string_Z (a_body_revision a) +:+ (" addr:" +:+ (dec_string_Z (addr_revision a) +:+
  (" " +:+ (dec_string_Z (a_start a) +:+ (".." +:+ dec_string_Z (a_end a))))))).

Inductive ENode : Set := ERoot | EBody | ETag | EAddr | ECtl | EEvent.
Global Instance ENode_eq_dec : EqDecision ENode.
Proof. solve_decision. Defined.

Record EditFid : Type := mkEditFid {
  ef_node : ENode;
  ef_mode : option OpenMode;
  ef_buf : bytes;
  ef_wrote : bool;
}.
Definition edit_fid_at (n : ENode) : EditFid := mkEditFid n None [] false.

Record EditState : Type := mkEditState {
  body : string;
  tag : string;
  body_revision : Z;
  addr : AddressRange;
  event : Stream.t;
  e_versions : VersionTable.t;
  e_fids : gmap Fid EditFid;
  execution_policy : ExecutionPolicy;
}.

Inductive EditEvent : Type :=
  | EvEdit (file : string) (revision : option Z) (length : Z)
  | EvAddress (range : AddressRange)
  | EvExec (range : AddressRange) (command : string) (status : ExecutionStatus).

(** [EditFs::with_execution_policy] and [EditFs::new] *)
Definition with_execution_policy (p : ExecutionPolicy) : EditState :=
  mkEditState "" "" 0 (collapsed 0) Stream.new VersionTable.new ∅ p.
Definition edit_new : EditState := with_execution_policy DenyAll.

Definition set_body b s := mkEditState b (tag s) (body_revision s) (addr s) (event s)
  (e_versions s) (e_fids s) (execution_policy s).
Definition set_tag t s := mkEditState (body s) t (body_revision s) (addr s) (event s)
  (e_versions s) (e_fids s) (execution_policy s).
Definition set_body_revision r s := mkEditState (body s) (tag s) r (addr s) (event s)
  (e_versions s) (e_fids s) (execution_policy s).
Definition set_addr a s := mkEditState (body s) (tag s) (body_revision s) a (event s)
  (e_versions s) (e_fids s) (execution_policy s).
Definition set_event e s := mkEditState (body s) (tag s) (body_revision s) (addr s) e
  (e_versions s) (e_fids s) (execution_policy s).
Definition set_e_versions v s := mkEditState (body s) (tag s) (body_revision s) (addr s) (event s)
  v (e_fids s) (execution_policy s).
Definition set_e_fids f s := mkEditState (body s) (tag s) (body_revision s) (addr s) (event s)
  (e_versions s) f (execution_policy s).

Definition edit_writable (n : ENode) : bool :=
  match n with EBody | ETag | EAddr | ECtl => true | _ => false end.

Definition validate_range_shape (a : AddressRange) (s : EditState) : bool :=
  negb ((len (into_bytes (body s)) <? a_end a) || negb (is_char_boundary (body s) (a_start a)) ||
        negb (is_char_boundary (body s) (a_end a))).

(** [self.body.get(start..end)] *)
Definition body_get (b : string) (start stop : Z) : option string :=
  if (start <=? stop) && (stop <=? len (into_bytes b)) &&
     is_char_boundary b start && is_char_boundary b stop
  then Some (of_bytes (sub_range (into_bytes b) start stop)) else None.

Section editfs.
Context (hash_key : string → Z) (event_json : EditEvent → option bytes).

Definition edit_identity (n : ENode) : FileKind * Z :=
  match n with
  | ERoot => (Dir, hash_key "/")
  | EBody => (File, hash_key "body")
  | ETag => (File, hash_key "tag")
  | EAddr => (File, hash_key "addr")
  | ECtl => (File, hash_key "ctl")
  | EEvent => (StreamKind, hash_key "event")
  end.
Definition edit_qid (n : ENode) (s : EditState) : Qid :=
  let '(k, p) := edit_identity n in mkQid k (VersionTable.get (e_versions s) p) p.
Definition edit_node_of (f : Fid) (s : EditState) : option ENode :=
  if bool_decide (f = ROOT) then Some ERoot else ef_node <$> e_fids s !! f.

Definition edit_bump (n : ENode) : Op EditState unit :=
  mmodify (λ s, set_e_versions (VersionTable.bump (e_versions s) (edit_identity n).2) s).
Definition edit_append_event (e : EditEvent) : Op EditState unit :=
  b ← mlift (event_json e) BadRequest;
  mmodify (λ s, set_event (Stream.append (event s) (b ++ [newline])) s).

Definition edit_child (n : ENode) (name : string) : result ErrorCode ENode :=
  match n with
  | ERoot =>
      if bool_decide (name = "body") then Ok EBody
      else if bool_decide (name = "tag") then Ok ETag
      else if bool_decide (name = "addr") then Ok EAddr
      else if bool_decide (name = "ctl") then Ok ECtl
      else if bool_decide (name = "event") then Ok EEvent
      else Err NotFound
  | _ => Err NotDirectory
  end.

Definition edit_bytes (n : ENode) (s : EditState) : result ErrorCode bytes :=
  match n with
  | ERoot => Ok (into_bytes (join (String "010" "") ["body"; "tag"; "addr"; "ctl"; "event"]))
  | EBody => Ok (into_bytes (body s))
  | ETag => Ok (into_bytes (tag s))
  | EAddr => Ok (into_bytes (addr_string (addr s)))
  | ECtl => Ok (into_bytes
      "# editfs ctl: write 'exec rev:<body> addr:<addr> <start>..<end>' and clunk" ++ [newline])
  | EEvent => Err Unsupported
  end.

Definition write_seed_bytes (n : ENode) (s : EditState) : result ErrorCode bytes :=
  match n with
  | EBody | ETag => edit_bytes n s
  | EAddr => Ok (into_bytes ("rev:" +:+ (dec_string_Z (a_body_revision (addr s)) +:+ (" " +:+
      (dec_string_Z (a_start (addr s)) +:+ (".." +:+ dec_string_Z (a_end (addr s))))))))
  | _ => Err Unsupported
  end.

(** ** Commits *)

Definition commit_document (n : ENode) (b : bytes) : Op EditState unit :=
  text ← mlift (from_utf8 b) BadRequest;
  match n with
  | EBody =>
      mmodify (set_body text);;
      mmodify (λ s, set_body_revision (body_revision s + 1) s);;
      edit_bump EBody;;
      edit_bump EAddr;;
      s ← mget;
      edit_append_event (EvEdit "body" (Some (body_revision s)) (len (into_bytes (body s))))
  | ETag =>
      mmodify (set_tag text);;
      edit_bump ETag;;
      s ← mget;
      edit_append_event (EvEdit "tag" None (len (into_bytes (tag s))))
  | _ => mfail Unsupported
  end.

Definition commit_addr (b : bytes) : Op EditState unit :=
  text ← mlift (from_utf8 b) BadRequest;
  a ← mresult (parse_addr_write text);
  s ← mget;
  if bool_decide (a_body_revision a ≠ body_revision s) then mfail BadRequest
  else if negb (validate_range_shape a s) then mfail BadRequest
  else
    let a := mkAddr (a_body_revision a) (addr_revision (addr s) + 1) (a_start a) (a_end a) in
    mmodify (set_addr a);;
    edit_bump EAddr;;
    edit_append_event (EvAddress a).

Definition exec_addr (a : AddressRange) : Op EditState unit :=
  s ← mget;
  if bool_decide (a ≠ addr s) || bool_decide (a_body_revision a ≠ body_revision s)
  then mfail BadRequest
  else if negb (validate_range_shape a s) then mfail BadRequest
  else
    command ← mlift (body_get (body s) (a_start a) (a_end a)) BadRequest;
    let status := decide_exec (execution_policy s) command in
    edit_append_event (EvExec a command status);;
    match status with Accepted => mret tt | Denied => mfail NoAccess end.

Definition edit_commit_ctl (b : bytes) : Op EditState unit :=
  text ← mlift (from_utf8 b) BadRequest;
  a ← mresult (parse_exec text);
  exec_addr a.

(** ** The file server *)

Fixpoint edit_walk_names (n : ENode) (names : list string) : result ErrorCode ENode :=
  match names with
  | [] => Ok n
  | name :: names' => and_then (edit_child n name) (λ n', edit_walk_names n' names')
  end.

Definition edit_walk (f newfid : Fid) (names : list string) : Op EditState Qid :=
  s ← mget;
  if bool_decide (newfid = ROOT) || isSome (e_fids s !! newfid) then mfail BadRequest
  else
    start ← mlift (edit_node_of f s) NotFound;
    n ← mresult (edit_walk_names start names);
    mmodify (λ s, set_e_fids (<[newfid := edit_fid_at n]> (e_fids s)) s);;
    mret (edit_qid n s).

Definition edit_open (f : Fid) (m : OpenMode) : Op EditState Qid :=
  s ← mget;
  n ← mlift (edit_node_of f s) NotFound;
  if negb (bool_decide (f = ROOT)) && isSome (e_fids s !! f ≫= ef_mode) then mfail BadRequest
  else if mode_writes m && negb (edit_writable n) then mfail NoAccess
  else
    seed ← (match m, n with
            | ReadWrite, (EBody | ETag | EAddr) =>
                b ← mresult (write_seed_bytes n s); mret (Some b)
            | _, _ => mret None
            end);
    (if bool_decide (f = ROOT) then mret tt
     else
       fs ← mlift (e_fids s !! f) NotFound;
       mmodify (λ s, set_e_fids
         (<[f := mkEditFid (ef_node fs) (Some m) (default (ef_buf fs) seed) (ef_wrote fs)]>
            (e_fids s)) s));;
    mret (edit_qid n s).

Definition edit_read (f : Fid) (offset : Offset) (count : Z) : Op EditState bytes :=
  s ← mget;
  (if bool_decide (f = ROOT) then mret tt
   else
     fs ← mlift (e_fids s !! f) NotFound;
     if opened_for_read (ef_mode fs) then mret tt else mfail NoAccess);;
  n ← mlift (edit_node_of f s) NotFound;
  if bool_decide (n = EEvent) then mresult (Stream.read (event s) offset count)
  else b ← mresult (edit_bytes n s); mret (slice b offset count).

Definition edit_write (f : Fid) (offset : Offset) (data : bytes) : Op EditState Z :=
  s ← mget;
  n ← mlift (edit_node_of f s) NotFound;
  fs ← mlift (e_fids s !! f) NotFound;
  if negb (opened_for_write (ef_mode fs)) then mfail NoAccess
  else if negb (edit_writable n) then mfail Unsupported
  else
    start ← mlift (usize_try_from offset) BadRequest;
    stop ← mlift (checked_add64 start (len data)) BadRequest;
    if EDIT_MAX_DOC_BYTES <? stop then mfail BadRequest
    else
      mmodify (λ s, set_e_fids
        (<[f := mkEditFid (ef_node fs) (ef_mode fs) (splice (ef_buf fs) start data) true]>
           (e_fids s)) s);;
      mret (as_u32 (len data)).

Definition edit_stat (f : Fid) : Op EditState Stat :=
  s ← mget;
  n ← mlift (edit_node_of f s) NotFound;
  length ← (if bool_decide (n = EEvent) then mret (Stream.length (event s))
            else b ← mresult (edit_bytes n s); mret (len b));
  mret (mkStat "" (edit_qid n s) length false (edit_writable n)).

Definition edit_create (f newfid : Fid) (name : string) (k : FileKind) : Op EditState Qid :=
  mfail Unsupported.
Definition edit_remove (f : Fid) : Op EditState unit := mfail Unsupported.

Definition edit_clunk (f : Fid) : Op EditState unit :=
  if bool_decide (f = ROOT) then mret tt
  else
    s ← mget;
    fs ← mlift (e_fids s !! f) NotFound;
    mmodify (λ s, set_e_fids (delete f (e_fids s)) s);;
    if negb (ef_wrote fs) then mret tt
    else match ef_node fs with
         | EBody | ETag => commit_document (ef_node fs) (ef_buf fs)
         | EAddr => commit_addr (ef_buf fs)
         | ECtl => edit_commit_ctl (ef_buf fs)
         | _ => mret tt
         end.

Definition EditFs_FileServer : FileServer EditState :=
  {| fs_walk := edit_walk; fs_open := edit_open; fs_read := edit_read; fs_write := edit_write;
     fs_stat := edit_stat; fs_create := edit_create; fs_remove := edit_remove;
     fs_clunk := edit_clunk |}.
End editfs.

(** ** Facts of the editable-buffer server

    Addresses print and parse back; a stored address designates whole characters
    of the body it was set on; executing an address either is refused or runs
    exactly the text the address designated when it was read. *)


(** ** Printing and parsing addresses *)

Definition u64_range (z : Z) : Prop := 0 ≤ z < u64_size.

Record addr_wf (a : AddressRange) : Prop := {
  wf_body_revision : u64_range (a_body_revision a);
  wf_addr_revision : u64_range (addr_revision a);
  wf_start : 0 ≤ a_start a ≤ a_end a;
  wf_end : a_end a < u64_size;
}.

Lemma parse_range_print start stop :
  0 ≤ start ≤ stop → stop < u64_size →
  parse_range (dec_string_Z start +:+ (".." +:+ dec_string_Z stop)) = Ok (start, stop).
Proof.
  intros Hs Ht. unfold parse_range. rewrite split_once_app.
  - simpl. rewrite !parse_dec_string_Z by lia. simpl. by rewrite (proj2 (Z.ltb_ge _ _)) by lia.
  - by apply dec_string_Z_contains; [lia|].
Qed.

(** What [exec] of a printed address is trimmed to: itself *)
Lemma exec_text_trim a :
  addr_wf a → trim ("exec " +:+ addr_string a) = "exec " +:+ addr_string a.
Proof.
  intros [Hb Ha Hs He]. destruct (dec_string_Z_last (a_end a)) as (y & Hy & Hp); [lia|].
  apply (trim_id _ x65 y); [done| |done|done].
  unfold addr_string. rewrite !into_bytes_app, !last_app, Hy. done.
Qed.

Lemma split_once_printed z rest :
  0 ≤ z → split_once " " (dec_string_Z z +:+ (" " +:+ rest)) = Some (dec_string_Z z, rest).
Proof. intros. apply split_once_app. by apply dec_string_Z_contains. Qed.

(** A printed address, handed to [exec], is parsed to the same address. *)
Lemma parse_exec_print a : addr_wf a → parse_exec ("exec " +:+ addr_string a) = Ok a.
Proof.
  intros Ha. unfold parse_exec. rewrite exec_text_trim by done.
  destruct Ha as [Hb Ha Hs He]. unfold u64_range in *.
  rewrite strip_prefix_app. cbn [ok_or and_then]. unfold addr_string.
  rewrite strip_prefix_app. cbn [mbind option_bind].
  change (" addr:" +:+ ?t) with (" " +:+ ("addr:" +:+ t)).
  rewrite split_once_printed by lia. cbn [ok_or and_then].
  rewrite parse_dec_string_Z by done. cbn [ok_or and_then].
  rewrite strip_prefix_app. cbn [mbind option_bind].
  rewrite split_once_printed by lia. cbn [ok_or and_then].
  rewrite parse_dec_string_Z by done. cbn [ok_or and_then].
  rewrite parse_range_print by lia. by destruct a.
Qed.

(** ** The invariant and the order of revisions *)

Record edit_inv (s : EditState) : Prop := {
  ei_revision : 0 ≤ a_body_revision (addr s) ≤ body_revision s;
  ei_addr_revision : 0 ≤ addr_revision (addr s);
  ei_range : 0 ≤ a_start (addr s) ≤ a_end (addr s);
  ei_end : a_end (addr s) < u64_size;
  ei_shape : a_body_revision (addr s) = body_revision s → validate_range_shape (addr s) s = true;
}.

(** The body changes only together with its revision, which only grows. *)
Definition edit_le (s s' : EditState) : Prop :=
  body_revision s ≤ body_revision s' ∧
  (body_revision s' = body_revision s → body s' = body s) ∧
  execution_policy s' = execution_policy s.
Global Instance edit_le_preorder : PreOrder edit_le.
Proof.
  split; [done|]. intros s1 s2 s3 (? & H1 & ?) (? & H2 & ?). split_and!; [lia| |congruence].
  intros. rewrite H2, H1 by lia. done.
Qed.

Definition edit_ok (s s' : EditState) : Prop := edit_le s s' ∧ (edit_inv s → edit_inv s').
Global Instance edit_ok_preorder : PreOrder edit_ok.
Proof. split; [by intros|]. intros ??? [] []. split; [by etrans|auto]. Qed.

(** Changes of other fields *)
Lemma same_core s s' :
  body s' = body s → body_revision s' = body_revision s → addr s' = addr s →
  execution_policy s' = execution_policy s → edit_ok s s'.
Proof.
  intros Hb Hr Ha Hp. split; [split_and!; [lia|done|done]|].
  intros [? ? ? ? Hs]. split; rewrite ?Ha, ?Hr; try done.
  intros H. specialize (Hs H). unfold validate_range_shape in *. by rewrite Hb.
Qed.

Section editfacts.
Context (hash_key : string → Z) (event_json : EditEvent → option bytes).
#[local] Instance edit_server : FileServer EditState := EditFs_FileServer hash_key event_json.

Lemma edit_append_ok e : step_rel edit_ok (edit_append_event event_json e).
Proof.
  unfold edit_append_event.
  repeat first [apply step_modify; intros s; by apply same_core | progress msteps].
Qed.
#[local] Hint Resolve edit_append_ok : alan.

(** Storing a new body with the next revision *)
Lemma new_body_ok s text :
  edit_ok s (set_body_revision (body_revision s + 1) (set_body text s)).
Proof.
  split; [split_and!; simpl; [lia|lia|done]|].
  intros [? ? ? ? ?]. split; simpl; try done; lia.
Qed.

Lemma commit_document_ok n b : step_rel edit_ok (commit_document hash_key event_json n b).
Proof.
  intros s. unfold commit_document. mrun. destruct (from_utf8 b) as [text|]; [|reflexivity].
  destruct n; try reflexivity.
  - unfold edit_bump. mrun. etrans; [apply (new_body_ok s text)|].
    eapply transitivity; [|apply edit_append_ok]. by apply same_core.
  - unfold edit_bump. mrun. eapply transitivity; [|apply edit_append_ok]. by apply same_core.
Qed.

Lemma parse_u64_range t z : parse_u64 t = Some z → u64_range z.
Proof.
  unfold parse_u64, u64_range. repeat case_match; intros [= <-]; bool_facts; lia.
Qed.

Lemma parse_addr_write_range t a :
  parse_addr_write t = Ok a →
  u64_range (a_body_revision a) ∧ 0 ≤ a_start a ≤ a_end a ∧ a_end a < u64_size.
Proof.
  unfold parse_addr_write, parse_body_revision_range, parse_range, and_then, ok_or.
  repeat (case_match; simplify_eq/=; try done). intros [= <-]. simpl.
  repeat match goal with H : parse_u64 _ = Some _ |- _ => apply parse_u64_range in H end.
  unfold u64_range in *. bool_facts. lia.
Qed.

Lemma commit_addr_ok b : step_rel edit_ok (commit_addr hash_key event_json b).
Proof.
  intros s. unfold commit_addr. mrun. destruct (from_utf8 b) as [t|]; [|reflexivity].
  destruct (parse_addr_write t) as [a| | |] eqn:Hp; try reflexivity.
  case_bool_decide as Hr; [reflexivity|].
  destruct (negb (validate_range_shape a s)) eqn:Hv; [reflexivity|].
  apply parse_addr_write_range in Hp as (H1 & H2 & H3). bool_facts.
  unfold edit_bump. mrun. eapply transitivity; [|apply edit_append_ok].
  split; [by split_and!|]. intros [? ? ? ? ?]. unfold u64_range in *. split; simpl; try lia.
  by intros _.
Qed.

Lemma exec_addr_ok a : step_rel edit_ok (exec_addr event_json a).
Proof. unfold exec_addr. msteps. Qed.
#[local] Hint Resolve exec_addr_ok commit_addr_ok commit_document_ok : alan.

Lemma edit_commit_ctl_ok b : step_rel edit_ok (edit_commit_ctl event_json b).
Proof. unfold edit_commit_ctl. msteps. Qed.
#[local] Hint Resolve edit_commit_ctl_ok : alan.

Ltac fids_step :=
  repeat first [ apply step_modify; intros s; by apply same_core | progress msteps ].

Lemma edit_walk_ok f newfid names : step_rel edit_ok (edit_walk hash_key f newfid names).
Proof. unfold edit_walk. fids_step. Qed.
Lemma edit_open_ok f m : step_rel edit_ok (edit_open hash_key f m).
Proof. unfold edit_open. fids_step. Qed.
Lemma edit_read_ok f offset count : step_rel edit_ok (edit_read f offset count).
Proof. unfold edit_read. msteps. Qed.
Lemma edit_write_ok f offset data : step_rel edit_ok (edit_write f offset data).
Proof. unfold edit_write. fids_step. Qed.
Lemma edit_stat_ok f : step_rel edit_ok (edit_stat hash_key f).
Proof. unfold edit_stat. msteps. Qed.
Lemma edit_clunk_ok f : step_rel edit_ok (edit_clunk hash_key event_json f).
Proof. unfold edit_clunk. fids_step. Qed.
#[local] Hint Resolve edit_walk_ok edit_open_ok edit_read_ok edit_write_ok edit_stat_ok
  edit_clunk_ok : alan.

Lemma edit_call_ok req : step_rel edit_ok (transport_call req).
Proof. destruct req; simpl; msteps. Qed.

Definition edit_run (reqs : list Request) (s : EditState) : EditState :=
  foldl (λ s req, (transport_call req s).1) s reqs.

Lemma edit_run_ok reqs s : edit_ok s (edit_run reqs s).
Proof.
  revert s. induction reqs as [|req reqs IH]; intros s; [reflexivity|]. simpl.
  etrans; [apply (edit_call_ok req s)|apply IH].
Qed.

Lemma edit_inv_new p : edit_inv (with_execution_policy p).
Proof. by split; simpl. Qed.

Lemma edit_reachable_inv p reqs : edit_inv (edit_run reqs (with_execution_policy p)).
Proof. apply edit_run_ok, edit_inv_new. Qed.
End editfacts.

(** ** Executing the current address *)

Lemma utf8_ascii b : Forall (λ x, (Byte.to_N x < 128)%N) b → utf8_go [] b = true.
Proof.
  induction 1 as [|x b Hx Hb IH]; [done|]. simpl. unfold utf8_lead.
  by rewrite (proj2 (N.leb_le _ _)) by lia.
Qed.

Lemma dec_string_Z_ascii z : 0 ≤ z → Forall (λ x, (Byte.to_N x < 128)%N) (into_bytes (dec_string_Z z)).
Proof.
  intros Hz. unfold dec_string_Z. rewrite (proj2 (Z.ltb_ge _ _)) by lia.
  eapply Forall_impl; [eapply parse_digits_printable, parse_digits_dec_string|].
  intros x Hx. apply Hx.
Qed.

Lemma exec_text_utf8 a :
  addr_wf a →
  from_utf8 (into_bytes ("exec " +:+ addr_string a)) = Some ("exec " +:+ addr_string a).
Proof.
  intros [Hb Ha Hs He]. unfold u64_range in *. unfold from_utf8. rewrite utf8_ascii.
  { by rewrite of_into_bytes. }
  unfold addr_string. rewrite !into_bytes_app.
  repeat (apply Forall_app; split); try (apply dec_string_Z_ascii; lia);
    repeat constructor.
Qed.

(** The text an address that is current designates *)
Lemma current_text s :
  edit_inv s → a_body_revision (addr s) = body_revision s →
  ∃ command, body_get (body s) (a_start (addr s)) (a_end (addr s)) = Some command.
Proof.
  intros Hinv Hr. pose proof (ei_shape _ Hinv Hr) as Hv. pose proof (ei_range _ Hinv).
  unfold validate_range_shape in Hv. bool_facts. unfold body_get.
  rewrite (proj2 (Z.leb_le _ _)) by lia. rewrite (proj2 (Z.leb_le _ _)) by lia.
  repeat match goal with H : is_char_boundary _ _ = true |- _ => rewrite H; clear H end.
  simpl. eauto.
Qed.

Definition exec_outcome (p : ExecutionPolicy) : result ErrorCode unit :=
  match p with AcceptAll => Ok tt | DenyAll => Err NoAccess end.

(** What [exec_addr] does on every branch *)
Lemma exec_addr_cases event_json a s :
  let '(s', r) := exec_addr event_json a s in
  (r = Err BadRequest ∧ s' = s) ∨
  a = addr s ∧ a_body_revision a = body_revision s ∧
  ∃ command j, body_get (body s) (a_start a) (a_end a) = Some command ∧
    event_json (EvExec a command (decide_exec (execution_policy s) command)) = Some j ∧
    s' = set_event (Stream.append (event s) (j ++ [newline])) s ∧
    r = exec_outcome (execution_policy s).
Proof.
  unfold exec_addr, edit_append_event. munfold.
  destruct (bool_decide (a ≠ addr s) || _) eqn:E; [by left|].
  destruct (negb (validate_range_shape a s)); [by left|].
  destruct (body_get _ _ _) as [c|]; [|by left].
  destruct (event_json _) as [j|] eqn:Hj; [|by left]. bool_facts.
  destruct (execution_policy s); simpl; right; split_and!; try (by apply dec_stable);
    exists c, j; done.
Qed.

(** ** Properties *)

(** An address that was read and later executed runs the text it designated
    when it was read. In any session, executing in a later state the address
    stored in an earlier one either is refused with no effect, or logs exactly
    one execution, of exactly the bytes the address designates in the body of the
    earlier state, and answers what the execution policy of the server says. *)
Theorem exec_runs_designated_text (hash_key : string → Z) (event_json : EditEvent → option bytes)
    (p : ExecutionPolicy) (reqs reqs' : list Request) :
  let s1 := edit_run hash_key event_json reqs (with_execution_policy p) in
  let s2 := edit_run hash_key event_json reqs' s1 in
  let '(s3, r) := exec_addr event_json (addr s1) s2 in
  (r = Err BadRequest ∧ s3 = s2) ∨
  (∃ command j, body_get (body s1) (a_start (addr s1)) (a_end (addr s1)) = Some command ∧
     event_json (EvExec (addr s1) command (decide_exec p command)) = Some j ∧
     Stream.buf (event s3) = Stream.buf (event s2) ++ (j ++ [newline]) ∧
     r = exec_outcome p).
Proof.
  intros s1 s2. pose proof (exec_addr_cases event_json (addr s1) s2) as Hc.
  destruct (exec_addr event_json (addr s1) s2) as [s3 r].
  destruct Hc as [?|(Ha & Hr & c & j & Hg & Hj & -> & ->)]; [by left|right].
  destruct (edit_run_ok hash_key event_json reqs' s1) as [(Hle & Hbody & Hp) _]. fold s2 in Hle, Hbody, Hp.
  pose proof (edit_reachable_inv hash_key event_json p reqs) as Hinv1. fold s1 in Hinv1.
  assert (execution_policy s1 = p) as Hp1.
  { by destruct (edit_run_ok hash_key event_json reqs (with_execution_policy p)) as [(_ & _ & ?) _]. }
  assert (body s2 = body s1) as Hb.
  { apply Hbody. pose proof (ei_revision _ Hinv1). lia. }
  rewrite Hb in Hg. rewrite Hp, Hp1 in *. exists c, j. done.
Qed.

(** The text a client reads from [addr], prefixed with [exec] and committed
    through [ctl] while the address is current, is accepted as that address: the
    clunk logs the execution of the designated text and answers what the policy
    says, for every reachable state with revisions in the 64-bit range. *)
Theorem exec_of_read_address (hash_key : string → Z) (event_json : EditEvent → option bytes)
    (p : ExecutionPolicy) (reqs : list Request) (f : Fid) (m : option OpenMode) :
  let s := edit_run hash_key event_json reqs (with_execution_policy p) in
  f ≠ ROOT →
  (∀ e, is_Some (event_json e)) →
  body_revision s < u64_size → addr_revision (addr s) < u64_size →
  a_body_revision (addr s) = body_revision s →
  e_fids s !! f =
    Some (mkEditFid ECtl m (into_bytes ("exec " +:+ addr_string (addr s))) true) →
  ∃ s' command j, edit_clunk hash_key event_json f s = (s', exec_outcome p) ∧
    body_get (body s) (a_start (addr s)) (a_end (addr s)) = Some command ∧
    event_json (EvExec (addr s) command (decide_exec p command)) = Some j ∧
    Stream.buf (event s') = Stream.buf (event s) ++ (j ++ [newline]) ∧
    body s' = body s ∧ addr s' = addr s.
Proof.
  intros s Hf Htot Hbr Har Hcur Hfid.
  pose proof (edit_reachable_inv hash_key event_json p reqs) as Hinv. fold s in Hinv.
  assert (execution_policy s = p) as Hp.
  { by destruct (edit_run_ok hash_key event_json reqs (with_execution_policy p)) as [(_ & _ & ?) _]. }
  assert (addr_wf (addr s)) as Hwf by (destruct Hinv; split; unfold u64_range; lia).
  unfold edit_clunk. rewrite bool_decide_false by done. mrun. rewrite Hfid. cbn [ef_wrote ef_node ef_buf negb].
  unfold edit_commit_ctl. mrun. rewrite exec_text_utf8, parse_exec_print by done.
  set (s0 := set_e_fids (delete f (e_fids s)) s).
  destruct (current_text s Hinv Hcur) as [command Hg].
  destruct (Htot (EvExec (addr s) command (decide_exec p command))) as [j Hj].
  exists (set_event (Stream.append (event s0) (j ++ [newline])) s0), command, j.
  split_and!; [|done..]. unfold exec_addr, edit_append_event. munfold.
  rewrite (bool_decide_false (addr s ≠ addr s)), (bool_decide_false (a_body_revision _ ≠ _)) by auto.
  simpl. change (validate_range_shape (addr s) s0) with (validate_range_shape (addr s) s).
  rewrite (ei_shape _ Hinv Hcur), Hg. cbn [negb]. rewrite Hp, Hj. by destruct p.
Qed.

(** ** Witness and examples *)

Definition toy_edit_json (e : EditEvent) : option bytes := Some (into_bytes
  match e with
  | EvEdit file _ _ => "edit " +:+ file
  | EvAddress a => "address " +:+ addr_string a
  | EvExec _ command Accepted => "accepted " +:+ command
  | EvExec _ command Denied => "denied " +:+ command
  end).
Definition toy_edit_key (k : string) : Z := Z.of_nat (String.length k).
Definition edit_commit (name : string) (text : string) : list Request :=
  [WalkReq ROOT 1 [name]; OpenReq 1 Write; WriteReq 1 0 (into_bytes text); ClunkReq 1].
(** Set the body and an address, and prepare the execution of that address. *)
Definition toy_edit_session : list Request :=
  edit_commit "body" "run ls now" ++ edit_commit "addr" " rev:1 4..6 " ++
  [WalkReq ROOT 1 ["ctl"]; OpenReq 1 Write; WriteReq 1 0 (into_bytes "exec rev:1 addr:1 4..6")].
Abbreviation toy_edit_run := (edit_run toy_edit_key toy_edit_json).

Lemma exec_of_read_address_witness :
  ∃ s' command j,
    edit_clunk toy_edit_key toy_edit_json 1
      (toy_edit_run toy_edit_session (with_execution_policy AcceptAll)) = (s', Ok tt) ∧
    body_get (body (toy_edit_run toy_edit_session (with_execution_policy AcceptAll)))
      (a_start (addr (toy_edit_run toy_edit_session (with_execution_policy AcceptAll))))
      (a_end (addr (toy_edit_run toy_edit_session (with_execution_policy AcceptAll))))
      = Some command ∧
    toy_edit_json (EvExec (addr (toy_edit_run toy_edit_session (with_execution_policy AcceptAll)))
      command Accepted) = Some j.
Proof.
  destruct (exec_of_read_address toy_edit_key toy_edit_json AcceptAll toy_edit_session 1 (Some Write))
    as (s' & command & j & Hc & Hg & Hj & _).
  - done.
  - intros e. by eexists.
  - vm_compute. reflexivity.
  - vm_compute. reflexivity.
  - vm_compute. reflexivity.
  - vm_compute. reflexivity.
  - exists s', command, j. split; [exact Hc|]. split; [exact Hg|exact Hj].
Defined.

(** The log of the session with its execution, and of one where the body was
    edited between setting and executing the address. *)
Example edit_session_log :
  Stream.buf (event (toy_edit_run (toy_edit_session ++ [ClunkReq 1])
                       (with_execution_policy AcceptAll))) =
  into_bytes (join (String "010" "")
    ["edit body"; "address rev:1 addr:1 4..6"; "accepted ls"; ""]).
Proof. vm_compute. reflexivity. Qed.

Example edited_body_refuses_address :
  let s := toy_edit_run (edit_commit "body" "run ls now" ++ edit_commit "addr" "rev:1 4..6" ++
             edit_commit "body" "rm -rf" ) (with_execution_policy AcceptAll) in
  (exec_addr toy_edit_json (mkAddr 1 1 4 6) s).2 = Err BadRequest.
Proof. vm_compute. reflexivity. Qed.
