(* ===== verification/Policy.v ===== *)
(** * The tool policy engine (crates/agent-engine/src/policy.rs) and the
      descriptor file tree it loads from (crates/agent-engine/src/file_tree.rs)

    Rules are tried in order and the first match decides. Parameters: Unicode
    lower-casing ([str::to_lowercase]), serde_yaml's parser of a policy file, and
    the host file system of the loader (existence, canonicalization, reading). A
    JSON value is a [Json]; numbers are never inspected and kept as text. *)
From S2P Require Import Prelude RustStd RustText.

Inductive PolicyAction : Set := Allow | Deny | Escalate.
Global Instance PolicyAction_eq_dec : EqDecision PolicyAction.
Proof. solve_decision. Defined.

Inductive ToolCapability : Set := CapRead | CapWrite | CapNetwork | CapUnknown.
Global Instance ToolCapability_eq_dec : EqDecision ToolCapability.
Proof. solve_decision. Defined.

Definition capability_label (c : ToolCapability) : string :=
  match c with
  | CapRead => "read" | CapWrite => "write" | CapNetwork => "network" | CapUnknown => "unknown"
  end.

Record PolicyRule : Type := mkRule {
  rule_id : option string;
  rule_tool : option string;
  rule_capability : option string;
  match_command : option string;
  match_path_prefix : option string;
  rule_action : PolicyAction;
  rule_reason : option string;
}.

Record PolicyFile : Type := mkPolicyFile {
  file_rules : list PolicyRule; file_default : PolicyAction }.

Record PolicyContext : Type := mkContext {
  tool_name : string;
  arguments : Json;
  capability : ToolCapability;
  cwd : option string;
}.

Record PolicyDecision : Type := mkDecision {
  d_action : PolicyAction;
  d_reason : option string;
  d_rule_id : option string;
  d_source : string;
}.

Record PolicyEngine : Type := mkEngine {
  rules : list PolicyRule;
  default_action : PolicyAction;
  source : string;
}.

Definition fail_closed : PolicyEngine := mkEngine [] Deny "policy_load_failed".

(** A rule of [autonomous] on bash commands *)
Definition bash_rule (id pattern : string) (a : PolicyAction) (reason : string) : PolicyRule :=
  mkRule (Some id) (Some "bash") None (Some pattern) None a (Some reason).

Definition autonomous : PolicyEngine := mkEngine
  [bash_rule "deny-rm-root" "rm -rf /" Deny "dangerous destructive command";
   bash_rule "deny-filesystem-wipe" "mkfs" Deny "dangerous filesystem operation";
   bash_rule "deny-block-device-write" "dd of=/dev/" Deny "writing a block device";
   bash_rule "deny-git-hooks" ".git/hooks" Deny "modifying git hooks";
   bash_rule "human-git-force-push" "git push --force" Escalate
     "force push rewrites remote history";
   bash_rule "human-git-force-with-lease" "git push --force-with-lease" Escalate
     "force push rewrites remote history";
   bash_rule "human-sudo" "sudo " Escalate "privilege escalation";
   bash_rule "human-chmod-777" "chmod 777" Escalate "broadly weakening file permissions";
   mkRule (Some "review-network") (Some "*") (Some "network") None None Escalate
     (Some "network access needs human judgment");
   bash_rule "review-destructive-rm" "rm -rf" Escalate "recursive delete needs human judgment";
   bash_rule "review-git-push" "git push" Escalate "publishing changes needs human judgment";
   bash_rule "review-git-reset-hard" "git reset --hard" Escalate
     "irreversible reset needs human judgment";
   mkRule (Some "review-unknown") (Some "*") (Some "unknown") None None Escalate
     (Some "unknown capability needs human judgment");
   mkRule (Some "review-host-mount") (Some "request_mount") None None None Escalate
     (Some "host mount grants require approval")]
  Allow "builtin_autonomous".

(** ** Path prefixes *)

Record NormalizedPathMatchValue : Type := mkNorm {
  n_absolute : bool;
  has_trailing_separator : bool;
  segments : list string;
}.
Global Instance Normalized_eq_dec : EqDecision NormalizedPathMatchValue.
Proof. solve_decision. Defined.

(** One step of the component loop *)
Definition push_component (st : bool * list string) (c : PathComponent) : bool * list string :=
  let '(abs, segs) := st in
  match c with
  | RootDir => (true, segs)
  | CurDir => st
  | ParentDir =>
      match last segs with
      | Some s => if bool_decide (s ≠ "..") then (abs, removelast segs)
                  else if abs then st else (abs, segs ++ [".."])
      | None => if abs then st else (abs, segs ++ [".."])
      end
  | Normal s => (abs, segs ++ [s])
  end.

Definition normalize_path_match_value (value : string) : NormalizedPathMatchValue :=
  let normalized_separators := str_replace "\" "/" (trim value) in
  let '(abs, segs) :=
    foldl push_component (is_absolute normalized_separators, []) (components normalized_separators) in
  mkNorm abs (ends_with_slash normalized_separators) segs.

Definition render_relative (v : NormalizedPathMatchValue) : string := join "/" (segments v).
Definition render_absolute (v : NormalizedPathMatchValue) : string :=
  match segments v with [] => "/" | _ => "/" +:+ render_relative v end.

(** [(0..n).map(|i| segments[i..].join("/"))] *)
Fixpoint tails (segs : list string) : list string :=
  match segs with [] => [] | _ :: segs' => join "/" segs :: tails segs' end.
Definition relative_tails (v : NormalizedPathMatchValue) : list string := tails (segments v).

Definition resolved_against (v base : NormalizedPathMatchValue) : NormalizedPathMatchValue :=
  if n_absolute v then v
  else
    let combined := if n_absolute base then render_absolute base else render_relative base in
    normalize_path_match_value (path_push combined (render_relative v)).

Section policy.
Context (to_lowercase : string → string).

Definition path_prefix_matches (candidate prefix : string) (boundary : bool) : bool :=
  if bool_decide (prefix = "") then false
  else
    let candidate := to_lowercase candidate in
    let prefix := to_lowercase prefix in
    if boundary then
      bool_decide (candidate = prefix) ||
      match strip_prefix prefix candidate with
      | Some remaining => starts_with "/" remaining
      | None => false
      end
    else starts_with prefix candidate.

Definition matches_prefix (v prefix : NormalizedPathMatchValue) : bool :=
  let normalized_prefix := render_relative prefix in
  if bool_decide (normalized_prefix = "") then false
  else if n_absolute prefix then
    n_absolute v && path_prefix_matches (render_absolute v) (render_absolute prefix)
                      (has_trailing_separator prefix)
  else if n_absolute v then
    existsb (λ c, path_prefix_matches c normalized_prefix (has_trailing_separator prefix))
      (relative_tails v)
  else path_prefix_matches (render_relative v) normalized_prefix (has_trailing_separator prefix).

Definition collect_path_values (fields : list (string * Json)) (keys : list string) : list string :=
  List.concat ((λ key,
    match json_get fields key with
    | Some (JString p) => [p]
    | Some (JArray items) => omap as_str items
    | _ => []
    end) <$> keys).

Definition collect_base_path_candidates (fields : list (string * Json)) (cwd : option string)
    (keys : list string) : list NormalizedPathMatchValue :=
  (normalize_path_match_value <$> collect_path_values fields keys) ++
  (normalize_path_match_value <$> option_list cwd).

Definition PATH_KEYS : list string := ["path"; "paths"; "directory"; "cwd"; "namespace_path"].
Definition BASE_PATH_KEYS : list string := ["directory"; "cwd"].

Definition collect_path_candidates (args : Json) (cwd : option string) :
    list NormalizedPathMatchValue :=
  match args with
  | JObject fields =>
      let raw := collect_path_values fields PATH_KEYS in
      let bases := collect_base_path_candidates fields cwd BASE_PATH_KEYS in
      (normalize_path_match_value <$> raw) ++
      List.concat ((λ r, let n := normalize_path_match_value r in
                         if n_absolute n then [] else resolved_against n <$> bases) <$> raw)
  | _ => []
  end.

Definition arguments_match_path_prefix (args : Json) (path_prefix : string)
    (cwd : option string) : bool :=
  let p := normalize_path_match_value path_prefix in
  existsb (λ c, matches_prefix c p) (collect_path_candidates args cwd).

(** ** Rules *)

(** [arguments.get("command").and_then(as_str).unwrap_or("")] *)
Definition command_of (args : Json) : string :=
  match args with
  | JObject fields => default "" (json_get fields "command" ≫= as_str)
  | _ => ""
  end.

Definition rule_matches (rule : PolicyRule) (ctx : PolicyContext) : bool :=
  match rule_tool rule with
  | Some tool => bool_decide (tool = "*") || bool_decide (tool = tool_name ctx)
  | None => true
  end &&
  match rule_capability rule with
  | Some c => bool_decide (c = capability_label (capability ctx))
  | None => true
  end &&
  match match_command rule with
  | Some pattern =>
      bool_decide (tool_name ctx = "bash") &&
      str_has (to_lowercase pattern) (to_lowercase (command_of (arguments ctx)))
  | None => true
  end &&
  match match_path_prefix rule with
  | Some prefix => arguments_match_path_prefix (arguments ctx) prefix (cwd ctx)
  | None => true
  end.

Fixpoint evaluate_rules (e : PolicyEngine) (rs : list PolicyRule) (ctx : PolicyContext) :
    PolicyDecision :=
  match rs with
  | [] => mkDecision (default_action e) None None (source e)
  | rule :: rs' =>
      if rule_matches rule ctx
      then mkDecision (rule_action rule) (rule_reason rule) (rule_id rule) (source e)
      else evaluate_rules e rs' ctx
  end.
Definition evaluate (e : PolicyEngine) (ctx : PolicyContext) : PolicyDecision :=
  evaluate_rules e (rules e) ctx.
End policy.

(** ** The descriptor file tree *)

Definition MAX_DESCRIPTOR_FILES : Z := 4096.
Definition MAX_DESCRIPTOR_BYTES : Z := 16 * 1024 * 1024.

Definition canonical_path (p : string) : bool :=
  negb (bool_decide (p = "")) && negb (is_absolute p) && all_normal p &&
  bool_decide (join "/" (normal_texts p) = p).

(** [ProcessFileTree::new]; the sum of lengths is checked at 64 bits *)
Definition total_bytes (files : gmap string bytes) : option Z :=
  foldl (λ acc kv, t ← acc; checked_add64 t (len kv.2)) (Some 0) (map_to_list files).
Definition ProcessFileTree_new (files : gmap string bytes) : option (gmap string bytes) :=
  if MAX_DESCRIPTOR_FILES <? Z.of_nat (size files) then None
  else
    total ← total_bytes files;
    if MAX_DESCRIPTOR_BYTES <? total then None
    else if forallb (λ kv, canonical_path kv.1) (map_to_list files) then Some files else None.

Definition tree_bytes (files : gmap string bytes) (p : string) : option bytes := files !! p.
(** [text]: an error, no file, or its text *)
Definition tree_text (files : gmap string bytes) (p : string) : option (option string) :=
  match tree_bytes files p with
  | None => Some None
  | Some b => match from_utf8 b with Some t => Some (Some t) | None => None end
  end.

(** ** Loading *)

Section loading.
(** [serde_yaml::from_str::<PolicyFile>] *)
Context (parse_policy : string → option PolicyFile).

Definition engine_of (p : PolicyFile) (src : string) : PolicyEngine :=
  mkEngine (file_rules p) (file_default p) src.

Definition load_for_governance_from_file_tree (tree : gmap string bytes)
    (policy_path : option string) : PolicyEngine :=
  let '(raw_path, explicit) :=
    match policy_path with Some p => (p, true) | None => ("policy.yaml", false) end in
  if is_absolute raw_path || negb (stays_below raw_path) then fail_closed
  else
    match tree_text tree (join "/" (normal_texts raw_path)) with
    | Some (Some content) =>
        match parse_policy content with
        | Some p => engine_of p "descriptor_policy_file"
        | None => fail_closed
        end
    | Some None => if explicit then fail_closed else autonomous
    | None => fail_closed
    end.

(** The host file system *)
Record Host : Type := mkHost {
  host_exists : string → bool;
  canonicalize : string → option string;
  read_to_string : string → option string;
}.
Context (h : Host).

Definition load_policy_file (p : string) : option PolicyFile :=
  content ← read_to_string h p; parse_policy content.

Definition resolve_definition_policy_path (definition_root : option string) (raw_path : string) :
    option string :=
  root ← definition_root;
  if negb (negb (is_absolute raw_path) && stays_below raw_path) then None
  else
    let resolved := path_push root raw_path in
    if host_exists h resolved then
      canonical_root ← canonicalize h root;
      canonical_resolved ← canonicalize h resolved;
      if path_starts_with canonical_resolved canonical_root then Some canonical_resolved else None
    else Some resolved.

Definition load_or_default_with_default_policy_path (default_policy_path : option string) :
    PolicyEngine :=
  match default_policy_path with
  | None => autonomous
  | Some p =>
      if negb (host_exists h p) then autonomous
      else match load_policy_file p with
           | Some f => engine_of f "definition_policy_file"
           | None => fail_closed
           end
  end.

Definition load_for_governance_with_default_policy_path (definition_root : option string)
    (default_policy_path : option string) (policy_path : option string) : PolicyEngine :=
  match policy_path with
  | None => load_or_default_with_default_policy_path default_policy_path
  | Some p =>
      match resolve_definition_policy_path definition_root p with
      | None => fail_closed
      | Some resolved =>
          match load_policy_file resolved with
          | Some f => engine_of f "governance_policy_file"
          | None => fail_closed
          end
      end
  end.
End loading.
