(* ===== verification/PolicyFacts.v ===== *)
(** * Facts of the policy engine

    What the built-in policy approves without a human, that a present policy file
    is never replaced by the permissive built-in one, and that a directory prefix
    of a rule matches exactly the paths at or below it. *)
From S2P Require Import Prelude RustStd RustText Policy.

(** ** The built-in policy *)

(** Lower-case ASCII text *)
Definition ascii_lower (s : string) : bool :=
  forallb (λ c, let n := N_of_ascii c in (n <? 128)%N && negb ((65 <=? n)%N && (n <=? 90)%N))
    (String.list_ascii_of_string s).

(** The command patterns that deny and those that ask a human *)
Definition deny_patterns : list string := ["rm -rf /"; "mkfs"; "dd of=/dev/"; ".git/hooks"].
Definition human_patterns : list string :=
  ["git push --force"; "git push --force-with-lease"; "sudo "; "chmod 777"; "rm -rf"; "git push";
   "git reset --hard"].

Lemma starts_with_app p q s : starts_with (p +:+ q) s = true → starts_with p s = true.
Proof.
  revert s. induction p as [|a p IH]; intros s; [done|]. destruct s as [|b s]; [done|].
  rewrite string_app_cons. simpl. intros [-> ?]%andb_true_iff. by apply IH.
Qed.
Lemma str_has_app p q s : str_has (p +:+ q) s = true → str_has p s = true.
Proof.
  induction s as [|a s IH]; simpl; rewrite !orb_true_iff; intros [H|H]; try done; auto.
  - left. by eapply starts_with_app.
  - left. by eapply starts_with_app.
Qed.

Section builtin.
Context (to_lowercase : string → string).
Hypothesis lower_ascii : ∀ s, ascii_lower s = true → to_lowercase s = s.
Context (ctx : PolicyContext).
Let cmd := to_lowercase (command_of (arguments ctx)).

Lemma bash_rule_matches id p a r :
  ascii_lower p = true →
  rule_matches to_lowercase (bash_rule id p a r) ctx =
  bool_decide (tool_name ctx = "bash") && str_has p cmd.
Proof.
  intros Hp. unfold rule_matches. cbn [bash_rule rule_tool rule_capability match_command match_path_prefix].
  rewrite lower_ascii by done. fold cmd.
  rewrite (bool_decide_false ("bash" = "*")) by done. simpl.
  rewrite (bool_decide_ext ("bash" = tool_name ctx) (tool_name ctx = "bash")) by done.
  case_bool_decide; simpl; by rewrite ?andb_true_r.
Qed.

Lemma capability_rule_matches id c r :
  rule_matches to_lowercase (mkRule (Some id) (Some "*") (Some (capability_label c)) None None
                               Escalate r) ctx = bool_decide (capability ctx = c).
Proof.
  unfold rule_matches. cbn [rule_tool rule_capability match_command match_path_prefix].
  rewrite (bool_decide_true ("*" = "*")) by done. rewrite orb_true_l, andb_true_l, !andb_true_r. apply bool_decide_ext. split; [|by intros ->].
  by destruct c, (capability ctx).
Qed.

Lemma tool_rule_matches id t r :
  t ≠ "*" →
  rule_matches to_lowercase (mkRule (Some id) (Some t) None None None Escalate r) ctx =
  bool_decide (tool_name ctx = t).
Proof.
  intros Ht. unfold rule_matches. cbn [rule_tool rule_capability match_command match_path_prefix].
  rewrite (bool_decide_false (t = "*")) by done. rewrite orb_false_l, !andb_true_r. by apply bool_decide_ext.
Qed.

(** The decision of the built-in policy, rule by rule *)
Lemma autonomous_action :
  let has p := bool_decide (tool_name ctx = "bash") && str_has p cmd in
  d_action (evaluate to_lowercase autonomous ctx) =
  if existsb has deny_patterns then Deny
  else if existsb has human_patterns || bool_decide (capability ctx = CapNetwork) ||
          bool_decide (capability ctx = CapUnknown) ||
          bool_decide (tool_name ctx = "request_mount") then Escalate
  else Allow.
Proof.
  intros has. unfold evaluate, autonomous. cbn [rules evaluate_rules].
  rewrite !bash_rule_matches by done. change "network" with (capability_label CapNetwork).
  change "unknown" with (capability_label CapUnknown).
  rewrite !capability_rule_matches, tool_rule_matches by done. cbn [existsb deny_patterns human_patterns].
  fold (has "rm -rf /") (has "mkfs") (has "dd of=/dev/") (has ".git/hooks")
    (has "git push --force") (has "git push --force-with-lease") (has "sudo ") (has "chmod 777")
    (has "rm -rf") (has "git push") (has "git reset --hard").
  repeat (case_match; simpl; rewrite ?orb_true_r; try done).
Qed.
End builtin.

(** ** Normalized paths *)

Definition segments_ok (segs : list string) : Prop := Forall (λ s, valid_component s = true) segs.

Lemma removelast_take {A} (l : list A) : removelast l = take (pred (length l)) l.
Proof. induction l as [|x [|y l] IH]; [done..|]. simpl in *. by rewrite IH. Qed.

Lemma push_component_ok abs segs c :
  segments_ok segs → (abs = true → ".." ∉ segs) →
  (∀ s, c = Normal s → valid_component s = true ∧ s ≠ "..") → c ≠ RootDir →
  segments_ok (push_component (abs, segs) c).2 ∧
  (push_component (abs, segs) c).1 = abs ∧ (abs = true → ".." ∉ (push_component (abs, segs) c).2).
Proof.
  intros Hs Ha Hc Hr.
  assert (abs = false → segments_ok (segs ++ [".."])) as Hdots.
  { intros _. apply Forall_app. split; [done|]. by repeat constructor. }
  destruct c as [| | |s]; simpl; try done.
  - destruct (last segs) as [x|] eqn:Hl; [case_bool_decide|].
    + rewrite removelast_take. split_and!; [by apply Forall_take|done|].
      intros Habs Hin. apply (Ha Habs). by eapply subseteq_take.
    + destruct abs; split_and!; try done; auto.
    + destruct abs; split_and!; try done; auto.
  - destruct (Hc s eq_refl) as [Hv Hne]. split_and!; [|done|].
    + apply Forall_app. split; [done|]. by repeat constructor.
    + intros Habs [?|?%list_elem_of_singleton]%elem_of_app; [by apply Ha|congruence].
Qed.

Lemma push_components_ok cs abs segs :
  segments_ok segs → (abs = true → ".." ∉ segs) →
  (∀ s, Normal s ∈ cs → valid_component s = true ∧ s ≠ "..") → RootDir ∉ cs →
  segments_ok (foldl push_component (abs, segs) cs).2 ∧
  (foldl push_component (abs, segs) cs).1 = abs ∧
  (abs = true → ".." ∉ (foldl push_component (abs, segs) cs).2).
Proof.
  revert segs. induction cs as [|c cs IH]; intros segs Hs Ha Hn Hr; [done|]. cbn [foldl].
  destruct (push_component_ok abs segs c) as (H1 & H2 & H3); try done.
  - intros s ->. apply Hn. by left.
  - intros ->. apply Hr. by left.
  - destruct (push_component (abs, segs) c) as [abs' segs']. cbn [fst snd] in *. subst abs'.
    apply IH; try done; [intros s Hin; apply Hn; by right|set_solver].
Qed.

Lemma root_dir_first p cs : components p = cs → is_absolute p = true →
  ∃ cs', cs = RootDir :: cs' ∧ RootDir ∉ cs'.
Proof.
  intros <- Ha. unfold components. rewrite Ha. eexists. split; [done|].
  intros (piece & _ & Hc)%list_elem_of_omap. unfold component_of in Hc. by repeat case_match.
Qed.
Lemma no_root_dir p : is_absolute p = false → RootDir ∉ components p.
Proof.
  intros Ha. unfold components. rewrite Ha. destruct (split_on "/" p) as [|piece pieces]; [set_solver|].
  intros [Hin|Hin]%elem_of_app.
  - case_bool_decide; [by apply list_elem_of_singleton in Hin|by apply elem_of_nil in Hin].
  - apply list_elem_of_omap in Hin as (x & _ & Hc). unfold component_of in Hc. by repeat case_match.
Qed.

(** A normalized path has valid segments, and an absolute one has resolved every
    parent component. *)
Lemma normalize_ok v :
  segments_ok (segments (normalize_path_match_value v)) ∧
  (n_absolute (normalize_path_match_value v) = true →
   ".." ∉ segments (normalize_path_match_value v)).
Proof.
  unfold normalize_path_match_value. set (p := str_replace _ _ _).
  assert (∀ s, Normal s ∈ components p → valid_component s = true ∧ s ≠ "..") as Hn.
  { intros s Hin. by apply components_normal in Hin as (? & ? & _). }
  destruct (is_absolute p) eqn:Ha.
  - destruct (root_dir_first p _ eq_refl Ha) as (cs & Hcs & Hr). rewrite Hcs in *. simpl.
    destruct (push_components_ok cs true []) as (H1 & H2 & H3); try done; [constructor|set_solver| |].
    + intros s Hin. apply Hn. by right.
    + destruct (foldl _ _ _) as [abs segs]. simpl in *. by subst.
  - destruct (push_components_ok (components p) false []) as (H1 & H2 & H3); try done;
      [constructor|by apply no_root_dir|].
    destruct (foldl _ _ _) as [abs segs]. simpl in *. by subst.
Qed.

(** ** Prefixes with a component boundary *)

Lemma str_app_assoc (a b c : string) : (a +:+ b) +:+ c = a +:+ (b +:+ c).
Proof. induction a as [|x a IH]; [done|]. by rewrite !string_app_cons, IH. Qed.

Lemma split_on_join_app ws rest :
  ws ≠ [] → Forall (λ w, str_contains "/" w = false) ws →
  split_on "/" (join "/" ws +:+ ("/" +:+ rest)) = ws ++ split_on "/" rest.
Proof.
  induction ws as [|w ws IH]; intros Hne Hws; [done|].
  apply Forall_cons in Hws as [Hw Hws]. destruct ws as [|w' ws'].
  - change (join "/" [w]) with w. change ("/" +:+ rest) with (String "/" rest).
    by rewrite split_on_app.
  - change (join "/" (w :: w' :: ws')) with (w +:+ String "/" (join "/" (w' :: ws'))).
    rewrite str_app_assoc, string_app_cons, split_on_app by done.
    rewrite IH; done.
Qed.

Lemma join_app ws ws' :
  ws ≠ [] → ws' ≠ [] → join "/" (ws ++ ws') = join "/" ws +:+ ("/" +:+ join "/" ws').
Proof.
  intros Hne Hne'. induction ws as [|w ws IH]; [done|]. destruct ws as [|w2 ws].
  - destruct ws'; [done|]. done.
  - change (join "/" ((w :: w2 :: ws) ++ ws')) with (w +:+ ("/" +:+ join "/" ((w2 :: ws) ++ ws'))).
    rewrite IH by done. change (join "/" (w :: w2 :: ws)) with (w +:+ ("/" +:+ join "/" (w2 :: ws))).
    by rewrite !str_app_assoc.
Qed.

Lemma strip_prefix_Some p s r : strip_prefix p s = Some r ↔ s = p +:+ r.
Proof.
  split; [|intros ->; apply strip_prefix_app].
  revert s. induction p as [|a p IH]; intros s; simpl; [by intros [= ->]|].
  destruct s as [|b s]; [done|]. case_bool_decide; [|done]. subst.
  intros ->%IH. done.
Qed.

(** A boundary match of printed segments is a prefix of segment lists. *)
Lemma boundary_match_segments cs ps :
  ps ≠ [] → cs ≠ [] → Forall (λ w, str_contains "/" w = false) cs →
  Forall (λ w, str_contains "/" w = false) ps →
  (join "/" cs = join "/" ps ∨
   ∃ r, join "/" cs = join "/" ps +:+ r ∧ starts_with "/" r = true) ↔ ps `prefix_of` cs.
Proof.
  intros Hp Hc Hcs Hps. split.
  - intros [Heq|(r & Heq & Hr)].
    + apply (f_equal (split_on "/")) in Heq. rewrite !split_on_join in Heq by done. by rewrite Heq.
    + destruct r as [|a r]; [done|]. simpl in Hr. rewrite andb_true_r in Hr.
      apply bool_decide_eq_true in Hr as <-.
      apply (f_equal (split_on "/")) in Heq. change (String "/" r) with ("/" +:+ r) in Heq.
      rewrite split_on_join, split_on_join_app in Heq by done. eexists. exact Heq.
  - intros [k ->]. destruct k as [|x k]; [left; by rewrite app_nil_r|right].
    rewrite join_app by done. eexists. split; [done|]. done.
Qed.

Section prefixes.
Context (to_lowercase : string → string).
(** Lower-casing maps characters; a separator is a character of its own. *)
Hypothesis lower_separator : ∀ a b,
  to_lowercase (a +:+ ("/" +:+ b)) = to_lowercase a +:+ ("/" +:+ to_lowercase b).
Hypothesis lower_component : ∀ a,
  valid_component a = true → valid_component (to_lowercase a) = true.
Hypothesis lower_empty : to_lowercase "" = "".

Lemma lower_join ws : to_lowercase (join "/" ws) = join "/" (to_lowercase <$> ws).
Proof.
  induction ws as [|w ws IH]; [done|]. destruct ws as [|w' ws]; [done|].
  change (join "/" (w :: w' :: ws)) with (w +:+ ("/" +:+ join "/" (w' :: ws))).
  by rewrite lower_separator, IH.
Qed.

Abbreviation low := (fmap (M := list) to_lowercase).
Definition no_slash (ws : list string) : Prop := Forall (λ w, str_contains "/" w = false) ws.

Lemma valid_no_slash ws : segments_ok ws → no_slash ws.
Proof.
  intros Hws. eapply Forall_impl; [exact Hws|]. intros w Hw.
  unfold valid_component in Hw. by bool_facts.
Qed.
Lemma low_segments_ok ws : segments_ok ws → segments_ok (low ws).
Proof. intros Hw. apply Forall_fmap. eapply Forall_impl; [exact Hw|]. apply lower_component. Qed.

Lemma path_prefix_matches_segments cs ps :
  ps ≠ [] → cs ≠ [] → join "/" ps ≠ "" → no_slash (low cs) → no_slash (low ps) →
  path_prefix_matches to_lowercase (join "/" cs) (join "/" ps) true = true ↔
  low ps `prefix_of` low cs.
Proof.
  intros Hp Hc Hne Hcs Hps. unfold path_prefix_matches. rewrite bool_decide_false by done.
  rewrite !lower_join, orb_true_iff, bool_decide_eq_true.
  rewrite <-boundary_match_segments; [|by destruct ps|by destruct cs|done..].
  apply Morphisms_Prop.or_iff_morphism; [done|]. split.
  - destruct (strip_prefix _ _) as [r|] eqn:E; [|done]. apply strip_prefix_Some in E. eauto.
  - intros (r & E & Hr). apply strip_prefix_Some in E. by rewrite E.
Qed.

Lemma join_nonempty ws : ws ≠ [] → segments_ok ws → join "/" ws ≠ "".
Proof.
  intros Hne Hw. destruct ws as [|w ws]; [done|]. apply Forall_cons in Hw as [Hw _].
  unfold valid_component in Hw. bool_facts. destruct w; [done|]. by destruct ws.
Qed.

(** Candidates and prefixes that are absolute: the texts start with a slash. *)
Lemma absolute_prefix_matches cs ps :
  ps ≠ [] → segments_ok cs → segments_ok ps →
  path_prefix_matches to_lowercase (match cs with [] => "/" | _ => "/" +:+ join "/" cs end)
    ("/" +:+ join "/" ps) true = true ↔ low ps `prefix_of` low cs.
Proof.
  intros Hp Hcs Hps.
  assert (∀ ws, segments_ok ws → no_slash (low ("" :: ws))) as Hns.
  { intros ws Hw. rewrite fmap_cons, lower_empty. constructor; [done|].
    by apply valid_no_slash, low_segments_ok. }
  assert ("/" +:+ join "/" ps = join "/" ("" :: ps)) as -> by (by destruct ps).
  destruct cs as [|c cs].
  - change "/" with (join "/" [""; ""]) at 1. rewrite path_prefix_matches_segments; auto;
      [|by destruct ps|rewrite !fmap_cons, lower_empty; by repeat constructor].
    rewrite !fmap_cons, lower_empty. destruct ps as [|p ps]; [done|]. rewrite fmap_cons.
    apply Forall_cons in Hps as [Hv%lower_component _]. unfold valid_component in Hv. bool_facts.
    split; [|by intros [k [=]]]. intros Hpre%prefix_cons_inv_2%prefix_cons_inv_1. by subst.
  - change ("/" +:+ join "/" (c :: cs)) with (join "/" ("" :: c :: cs)).
    rewrite path_prefix_matches_segments; auto; [|by destruct ps].
    rewrite !(fmap_cons _ ""). split; [apply prefix_cons_inv_2|apply prefix_cons].
Qed.

Lemma elem_of_tails segs c :
  c ∈ tails segs ↔ ∃ k, (k < length segs)%nat ∧ c = join "/" (drop k segs).
Proof.
  induction segs as [|s segs IH]; cbn [tails].
  - rewrite elem_of_nil. split; [done|]. intros (k & Hk & _). simpl in Hk. lia.
  - rewrite elem_of_cons, IH. split.
    + intros [->|(k & Hk & ->)]; [exists 0%nat|exists (S k)]; (split; [simpl; lia|done]).
    + intros ([|k] & Hk & ->); [by left|right]. exists k. split; [simpl in Hk; lia|done].
Qed.
End prefixes.

(** ** Properties *)

(** C37: what the built-in policy lets a tool call do without a human. It allows
    a call exactly when the capability is read or write, the tool is not a mount
    request and, for bash, the lower-cased command contains none of the guarded
    patterns; it denies exactly the bash commands that contain one of the four
    destructive patterns; everything else escalates. *)
Theorem autonomous_approves_exactly (to_lowercase : string → string)
    (lower_ascii : ∀ s, ascii_lower s = true → to_lowercase s = s) (ctx : PolicyContext) :
  let cmd := to_lowercase (command_of (arguments ctx)) in
  (d_action (evaluate to_lowercase autonomous ctx) = Allow ↔
     (capability ctx = CapRead ∨ capability ctx = CapWrite) ∧ tool_name ctx ≠ "request_mount" ∧
     (tool_name ctx = "bash" →
      ∀ p, p ∈ deny_patterns ++ human_patterns → str_has p cmd = false)) ∧
  (d_action (evaluate to_lowercase autonomous ctx) = Deny ↔
     tool_name ctx = "bash" ∧ ∃ p, p ∈ deny_patterns ∧ str_has p cmd = true).
Proof.
  intros cmd. rewrite (autonomous_action to_lowercase lower_ascii ctx). fold cmd.
  set (has p := bool_decide (tool_name ctx = "bash") && str_has p cmd).
  assert (∀ ps, existsb has ps = true ↔
    tool_name ctx = "bash" ∧ ∃ p, p ∈ ps ∧ str_has p cmd = true) as Hex.
  { intros ps. rewrite existsb_exists. unfold has. setoid_rewrite andb_true_iff.
    setoid_rewrite bool_decide_eq_true. setoid_rewrite <-list_elem_of_In. naive_solver. }
  pose proof (Hex deny_patterns) as Hd. pose proof (Hex human_patterns) as Hh.
  assert ((tool_name ctx = "bash" → ∀ p, p ∈ deny_patterns ++ human_patterns → str_has p cmd = false) ↔
    existsb has deny_patterns = false ∧ existsb has human_patterns = false) as Hnone.
  { rewrite <-!not_true_iff_false, Hd, Hh. setoid_rewrite elem_of_app.
    setoid_rewrite <-not_true_iff_false. naive_solver. }
  rewrite Hnone, <-Hd. clear Hnone Hd Hh Hex.
  destruct (existsb has deny_patterns), (existsb has human_patterns), (capability ctx);
    simpl; repeat case_bool_decide; naive_solver.
Qed.

(** A policy file that is named explicitly, or that is present in the
    descriptor tree, is never replaced by the permissive built-in policy: the
    engine is either exactly the rules parsed from that file, at a path of the
    tree, or it denies every call. *)
Theorem policy_load_fails_closed (to_lowercase : string → string)
    (parse_policy : string → option PolicyFile) (tree : gmap string bytes)
    (policy_path : option string) :
  is_Some policy_path ∨ is_Some (tree !! "policy.yaml") →
  let e := load_for_governance_from_file_tree parse_policy tree policy_path in
  (∀ ctx, d_action (evaluate to_lowercase e ctx) = Deny) ∨
  (∃ b content f, tree !! join "/" (normal_texts (default "policy.yaml" policy_path)) = Some b ∧
     from_utf8 b = Some content ∧ parse_policy content = Some f ∧
     e = engine_of f "descriptor_policy_file").
Proof.
  intros Hp e. unfold e, load_for_governance_from_file_tree, tree_text, tree_bytes.
  destruct policy_path as [p|]; cbn [default].
  - destruct (is_absolute p || negb (stays_below p)); [by left|].
    destruct (tree !! join "/" (normal_texts p)) as [b|] eqn:Hb; [|by left].
    destruct (from_utf8 b) as [content|] eqn:Hu; [|by left].
    destruct (parse_policy content) as [f|] eqn:Hf; [right|by left]. by exists b, content, f.
  - destruct Hp as [[]|[b Hb]]; [done|].
    change (join "/" (normal_texts "policy.yaml")) with "policy.yaml".
    change (is_absolute "policy.yaml" || negb (stays_below "policy.yaml")) with false. rewrite Hb.
    destruct (from_utf8 b) as [content|] eqn:Hu; [|by left].
    destruct (parse_policy content) as [f|] eqn:Hf; [right|by left]. by exists b, content, f.
Qed.

(** A path prefix of a rule that ends in a separator matches by whole path
    components, whatever dots, repeated separators and letter case the texts have:
    an absolute prefix matches exactly the absolute paths at or below that
    directory, a relative one the paths where its components occur at the front
    (or, in an absolute path, at some depth). An absolute path is compared after
    its parent components are resolved. *)
Theorem directory_rule_matches_subtree (to_lowercase : string → string)
    (lower_separator : ∀ a b,
       to_lowercase (a +:+ ("/" +:+ b)) = to_lowercase a +:+ ("/" +:+ to_lowercase b))
    (lower_component : ∀ a,
       valid_component a = true → valid_component (to_lowercase a) = true)
    (lower_empty : to_lowercase "" = "") (value prefix : string) :
  let v := normalize_path_match_value value in
  let p := normalize_path_match_value prefix in
  let low := fmap (M := list) to_lowercase in
  has_trailing_separator p = true → segments p ≠ [] →
  (n_absolute v = true → ".." ∉ segments v) ∧
  (matches_prefix to_lowercase v p = true ↔
     if n_absolute p then n_absolute v = true ∧ low (segments p) `prefix_of` low (segments v)
     else if n_absolute v then ∃ k, low (segments p) `prefix_of` low (drop k (segments v))
     else low (segments p) `prefix_of` low (segments v)).
Proof.
  intros v p low Ht Hne. destruct (normalize_ok value) as [Hv Habs].
  destruct (normalize_ok prefix) as [Hp _]. fold v in Hv, Habs. fold p in Hp.
  split; [exact Habs|]. unfold matches_prefix. rewrite Ht.
  pose proof (join_nonempty _ Hne Hp) as Hjoin. unfold render_relative.
  rewrite bool_decide_false by done.
  assert (∀ cs, segments_ok cs →
    path_prefix_matches to_lowercase (join "/" cs) (join "/" (segments p)) true = true ↔
    low (segments p) `prefix_of` low cs) as Hrel.
  { intros cs Hcs. destruct cs as [|c cs].
    - change (join "/" []) with (join "/" [""]).
      rewrite (path_prefix_matches_segments to_lowercase lower_separator); auto;
        [|simpl; rewrite lower_empty; by repeat constructor
         |by apply valid_no_slash, low_segments_ok].
      destruct (segments p) as [|x ps]; [done|]. unfold low. rewrite !fmap_cons, lower_empty.
      apply Forall_cons in Hp as [Hx%lower_component _]. unfold valid_component in Hx. bool_facts.
      split; [|by intros [k [=]]]. intros Hpre%prefix_cons_inv_1. done.
    - apply (path_prefix_matches_segments to_lowercase lower_separator); auto;
        by apply valid_no_slash, low_segments_ok. }
  destruct (n_absolute p); [|destruct (n_absolute v)].
  - rewrite andb_true_iff. apply Morphisms_Prop.and_iff_morphism; [done|].
    unfold render_absolute, render_relative. destruct (segments p) as [|x ps] eqn:E; [done|].
    by apply (absolute_prefix_matches to_lowercase lower_separator).
  - rewrite existsb_exists. setoid_rewrite <-list_elem_of_In. unfold relative_tails.
    setoid_rewrite elem_of_tails. split.
    + intros (c & (k & Hk & ->) & Hm). exists k. apply Hrel; [by apply Forall_drop|done].
    + intros [k Hk]. exists (join "/" (drop k (segments v))). split.
      * exists k. split; [|done]. destruct (decide (k < length (segments v))%nat); [done|].
        rewrite drop_ge in Hk by lia. destruct (segments p); [done|]. by destruct Hk as [? [=]].
      * apply Hrel; [by apply Forall_drop|done].
  - by apply Hrel.
Qed.

(** The host loader: an explicit policy is denied or parsed from a file that, when
    it exists, lies below the canonical definition root. *)
Lemma explicit_host_policy_confined to_lowercase parse_policy h definition_root default_path p :
  let e := load_for_governance_with_default_policy_path parse_policy h definition_root default_path
             (Some p) in
  (∀ ctx, d_action (evaluate to_lowercase e ctx) = Deny) ∨
  (∃ root resolved f, definition_root = Some root ∧ stays_below p = true ∧
     load_policy_file parse_policy h resolved = Some f ∧ e = engine_of f "governance_policy_file" ∧
     (host_exists h (path_push root p) = true →
      ∃ canonical_root, canonicalize h root = Some canonical_root ∧
        canonicalize h (path_push root p) = Some resolved ∧
        path_starts_with resolved canonical_root = true)).
Proof.
  simpl. unfold load_for_governance_with_default_policy_path.
  destruct (resolve_definition_policy_path h definition_root p) as [resolved|] eqn:Hr; [|by left].
  destruct (load_policy_file parse_policy h resolved) as [f|] eqn:Hf; [right|by left].
  unfold resolve_definition_policy_path in Hr. destruct definition_root as [root|]; [|done].
  cbn [mbind option_bind] in Hr.
  destruct (negb (negb (is_absolute p) && stays_below p)) eqn:Hs; [done|]. bool_facts.
  exists root, resolved, f. split_and!; try done. intros He. rewrite He in Hr.
  destruct (canonicalize h root) as [cr|]; [|done]. cbn [mbind option_bind] in Hr.
  destruct (canonicalize h (path_push root p)) as [c|]; [|done]. cbn [mbind option_bind] in Hr.
  destruct (path_starts_with c cr) eqn:Hw; [|done]. injection Hr as ->. eauto.
Qed.

(** The rule for [--force-with-lease] never decides: the pattern before it in the
    list is a part of its own. *)
Lemma force_with_lease_shadowed to_lowercase ctx :
  (∀ s, ascii_lower s = true → to_lowercase s = s) →
  d_rule_id (evaluate to_lowercase autonomous ctx) ≠ Some "human-git-force-with-lease".
Proof.
  intros Hl. unfold evaluate, autonomous. cbn [rules evaluate_rules].
  rewrite !(bash_rule_matches to_lowercase Hl) by done.
  destruct (bool_decide (tool_name ctx = "bash")); [|by repeat case_match].
  rewrite !andb_true_l. set (cmd := to_lowercase _).
  do 4 (case_match; [done|]).
  destruct (str_has "git push --force" cmd) eqn:E; [done|].
  destruct (str_has "git push --force-with-lease" cmd) eqn:E'; [|by repeat case_match].
  apply (str_has_app "git push --force" "-with-lease") in E'. congruence.
Qed.

(** ** Witnesses: ASCII lower-casing *)

Definition lower_char (c : ascii) : ascii :=
  let n := N_of_ascii c in
  if (65 <=? n)%N && (n <=? 90)%N then ascii_of_N (n + 32) else c.
Fixpoint ascii_lowercase (s : string) : string :=
  match s with EmptyString => EmptyString | String c s' => String (lower_char c) (ascii_lowercase s') end.

Lemma ascii_lowercase_id s : ascii_lower s = true → ascii_lowercase s = s.
Proof.
  induction s as [|c s IH]; [done|]. unfold ascii_lower. cbn [String.list_ascii_of_string forallb].
  intros [Hc Hs]%andb_true_iff. cbn [ascii_lowercase]. rewrite IH by done. f_equal.
  unfold lower_char. apply andb_true_iff in Hc as [_ Hc%negb_true_iff]. by rewrite Hc.
Qed.
Lemma ascii_lowercase_app a b : ascii_lowercase (a +:+ b) = ascii_lowercase a +:+ ascii_lowercase b.
Proof. induction a as [|c a IH]; [done|]. by rewrite !string_app_cons; simpl; rewrite IH. Qed.
Lemma ascii_lowercase_separator a b :
  ascii_lowercase (a +:+ ("/" +:+ b)) = ascii_lowercase a +:+ ("/" +:+ ascii_lowercase b).
Proof. by rewrite !ascii_lowercase_app. Qed.
Lemma lower_char_slash c : lower_char c = "/"%char → c = "/"%char.
Proof. destruct c as [[] [] [] [] [] [] [] []]; vm_compute; congruence. Qed.
Lemma ascii_lowercase_component a :
  valid_component a = true → valid_component (ascii_lowercase a) = true.
Proof.
  unfold valid_component. rewrite !andb_true_iff, !negb_true_iff, !bool_decide_eq_false.
  intros [Hne Hs]. split; [by destruct a|]. clear Hne. induction a as [|c a IH]; [done|].
  cbn [str_contains ascii_lowercase] in *. apply orb_false_iff in Hs as [Hc Hs].
  apply orb_false_iff. split; [|auto]. apply bool_decide_eq_false in Hc. apply bool_decide_eq_false.
  by intros ?%lower_char_slash.
Qed.

(** A force push and a plain build command *)
Definition bash_call (command : string) : PolicyContext :=
  mkContext "bash" (JObject [("command", JString command)]) CapWrite None.

Lemma autonomous_approves_exactly_witness :
  d_action (evaluate ascii_lowercase autonomous (bash_call "SUDO make install")) ≠ Allow ∧
  d_action (evaluate ascii_lowercase autonomous (bash_call "rm -rf /home")) = Deny.
Proof.
  split.
  - intros H. apply (autonomous_approves_exactly ascii_lowercase ascii_lowercase_id
      (bash_call "SUDO make install")) in H as (_ & _ & H).
    assert (Hp : "sudo " ∈ deny_patterns ++ human_patterns)
      by (apply list_elem_of_In; vm_compute; tauto).
    pose proof (H eq_refl "sudo " Hp) as Hf. vm_compute in Hf. discriminate.
  - apply (autonomous_approves_exactly ascii_lowercase ascii_lowercase_id (bash_call "rm -rf /home")).
    split; [reflexivity|]. exists "rm -rf /". split; [left|vm_compute; reflexivity].
Defined.

Lemma policy_load_fails_closed_witness :
  d_action (evaluate ascii_lowercase (load_for_governance_from_file_tree (λ _, None)
     {["policy.yaml" := into_bytes "rules: ["]} None) (bash_call "ls")) = Deny.
Proof.
  destruct (policy_load_fails_closed ascii_lowercase (λ _, None)
    {["policy.yaml" := into_bytes "rules: ["]} None) as [H|(b & c & f & _ & _ & Hf & _)].
  - right. by eexists.
  - apply H.
  - discriminate.
Defined.

Lemma directory_rule_matches_subtree_witness :
  matches_prefix ascii_lowercase (normalize_path_match_value "/home/user/../User/.SSH//id")
    (normalize_path_match_value "/home/user/.ssh/") = true.
Proof.
  apply (directory_rule_matches_subtree ascii_lowercase ascii_lowercase_separator
    ascii_lowercase_component eq_refl "/home/user/../User/.SSH//id" "/home/user/.ssh/").
  - vm_compute. reflexivity.
  - vm_compute. discriminate.
  - vm_compute. split; [reflexivity|]. exists ["id"]. reflexivity.
Defined.

(** Escaping a directory with parent components, and a sibling with the same
    beginning, are not below it. *)
Example directory_rule_examples :
  let p := normalize_path_match_value "/srv/data/" in
  matches_prefix ascii_lowercase (normalize_path_match_value "/srv/data/../secret") p = false ∧
  matches_prefix ascii_lowercase (normalize_path_match_value "/srv/database/x") p = false ∧
  matches_prefix ascii_lowercase (normalize_path_match_value "/srv/data") p = true.
Proof. vm_compute. split_and!; reflexivity. Qed.
