(* ===== verification/Tape.v ===== *)
(** * The conversation tape (crates/agent-engine/src/tape.rs)

    Messages, the compaction summary and the reference-context items of an agent
    machine, with the token estimates cached beside them, and the choice of the
    messages a compaction keeps. The content parts are those of
    crates/agent-protocol/src/content.rs and the control markers those of
    crates/agent-engine/src/approval.rs.

    Parameters: printing and parsing of JSON values (serde_json) and the
    hexadecimal SHA-256 digest. A message index is a [nat]: an index into a vector.
    Estimates are sums of text lengths and kept in [Z]. *)
From S2P Require Import Prelude RustStd RustText.

(** [text.chars().count()]: every character has exactly one byte that is no UTF-8
    continuation byte. *)
Definition chars_count (s : string) : Z :=
  len (filter (λ x, ¬ (128 ≤ Byte.to_N x < 192)%N) (into_bytes s)).
(** [n.div_ceil(m)] *)
Definition div_ceil (n m : Z) : Z := (n + m - 1) / m.

(** ** Content parts (content.rs) *)

Inductive ContentPart : Type :=
  | Text (text : string)
  | Thinking (text : string) (signature : option string)
  | RedactedThinking (data : string)
  | Attachment (hash mime_type : string) (metadata : Json)
  | Structured (data : Json).

Definition as_text (p : ContentPart) : option string :=
  match p with Text text | Thinking text _ => Some text | _ => None end.

Definition parts_to_text (parts : list ContentPart) : string :=
  join "" (omap (λ p, match p with Text text => Some text | _ => None end) parts).

(** ** Messages *)

Record ToolRequest : Type := mkRequest { req_id : string; req_name : string; req_arguments : Json }.
Record ToolResponse : Type := mkResponse { resp_id : string; resp_content : list ContentPart }.

Inductive Message : Type :=
  | User (parts : list ContentPart)
  | Assistant (parts : list ContentPart) (tool_requests : list ToolRequest)
  | Tool (responses : list ToolResponse)
  | System (parts : list ContentPart)
  | Context (parts : list ContentPart).

Inductive MessageRole : Set := RSystem | RContext | RUser | RAssistant | RTool.

Definition role (m : Message) : MessageRole :=
  match m with
  | User _ => RUser | Assistant _ _ => RAssistant | Tool _ => RTool
  | System _ => RSystem | Context _ => RContext
  end.
Definition message_parts (m : Message) : list ContentPart :=
  match m with
  | User parts | Assistant parts _ | System parts | Context parts => parts
  | Tool _ => []
  end.
Definition tool_requests (m : Message) : list ToolRequest :=
  match m with Assistant _ requests => requests | _ => [] end.
Definition tool_responses (m : Message) : list ToolResponse :=
  match m with Tool responses => responses | _ => [] end.
Definition is_user (m : Message) : bool := match m with User _ => true | _ => false end.
Definition is_tool (m : Message) : bool := match m with Tool _ => true | _ => false end.

(** [Message::context(text)] *)
Definition context_message (text : string) : Message := Context [Text text].

Definition thinking_content (m : Message) : option string :=
  match m with
  | Assistant parts _ =>
      let thinking :=
        join "" (omap (λ p, match p with Thinking text _ => Some text | _ => None end) parts) in
      if bool_decide (thinking = "") then None else Some thinking
  | _ => None
  end.
(** The last thinking part with a signature that is not blank *)
Definition thinking_signature (m : Message) : option string :=
  match m with
  | Assistant parts _ =>
      head (omap (λ p, match p with
                       | Thinking _ (Some sig) => if bool_decide (trim sig = "") then None else Some sig
                       | _ => None
                       end) (reverse parts))
  | _ => None
  end.
Definition redacted_thinking_blocks (m : Message) : list string :=
  match m with
  | Assistant parts _ =>
      omap (λ p, match p with RedactedThinking data => Some data | _ => None end) parts
  | _ => []
  end.

(** ** Control markers (approval.rs) *)

Definition RUNTIME_CONFIRMATION_CONTROL_SOURCE : string := "runtime/submission_handlers".
Definition RUNTIME_CONFIRMATION_CONTROL_VERSION : Z := 1.

Definition runtime_confirmation_control_kind (checkpoint_type : string) : option string :=
  if bool_decide (checkpoint_type = "tool_escalation") then Some "tool_escalation_confirmation"
  else if bool_decide (checkpoint_type = "effect_replay_confirmation")
  then Some "effect_replay_confirmation"
  else None.

Definition is_internal_control_payload (payload : Json) : bool :=
  match (value_get "checkpoint_type" payload ≫= as_str) ≫= runtime_confirmation_control_kind with
  | None => false
  | Some expected_kind =>
      let marker := value_get "__alan_internal_control" payload in
      bool_decide ((marker ≫= value_get "kind") ≫= as_str = Some expected_kind)
      && bool_decide ((marker ≫= value_get "version") ≫= as_u64
                      = Some RUNTIME_CONFIRMATION_CONTROL_VERSION)
      && bool_decide ((marker ≫= value_get "source") ≫= as_str
                      = Some RUNTIME_CONFIRMATION_CONTROL_SOURCE)
  end.

(** ** Reference-context items *)

Record ContextItem : Type := mkItem {
  item_id : string; item_kind : string; item_title : string; item_content : string;
  item_fingerprint : string }.

Record ContextItemsDelta : Type := mkDelta {
  changed : bool; reordered : bool; delta_revision : Z;
  added_ids : list string; updated_ids : list string; removed_ids : list string }.
Definition empty_delta : ContextItemsDelta := mkDelta false false 0 [] [] [].

Record ReferenceContextState : Type := mkContextState {
  ctx_items : list ContextItem;
  rendered_messages : list Message;
  rendered_token_estimate : Z;
  revision : Z;
  last_delta : ContextItemsDelta }.
Definition default_context : ReferenceContextState := mkContextState [] [] 0 0 empty_delta.

Record Tape : Type := mkTape {
  reference_context : ReferenceContextState;
  messages : list Message;
  messages_token_estimate : Z;
  summary : option string;
  summary_token_estimate : Z;
  compaction_count : Z }.
Definition new_tape : Tape := mkTape default_context [] 0 None 0 0.

Definition format_context_item (item : ContextItem) : string :=
  let content := trim (item_content item) in
  if bool_decide (content = "") then ""
  else trim (item_title item) +:+ String ":" (String (ascii_of_nat 10) content).

(** [items.iter().map(|i| (id, fingerprint)).collect::<HashMap>()]: for a repeated
    id the last fingerprint stays. *)
Definition fingerprint_map (items : list ContextItem) : gmap string string :=
  foldl (λ m item, <[item_id item := item_fingerprint item]> m) ∅ items.

(** [Some(old_fp) if *old_fp != item.fingerprint] *)
Definition fingerprint_differs (old_map : gmap string string) (i : ContextItem) : bool :=
  match old_map !! item_id i with
  | Some old_fp => negb (bool_decide (old_fp = item_fingerprint i))
  | None => false
  end.

Definition diff_context_items (old_items new_items : list ContextItem) (current_revision : Z) :
    ContextItemsDelta :=
  let old_map := fingerprint_map old_items in
  let new_map := fingerprint_map new_items in
  let added := item_id <$> filter (λ i, old_map !! item_id i = None) new_items in
  let updated := item_id <$> filter (λ i, fingerprint_differs old_map i = true) new_items in
  let removed := item_id <$> filter (λ i, new_map !! item_id i = None) old_items in
  let reordered := negb (bool_decide (item_id <$> old_items = item_id <$> new_items))
                   && bool_decide (added = []) && bool_decide (updated = [])
                   && bool_decide (removed = []) in
  let changed := reordered || negb (bool_decide (added = [])) || negb (bool_decide (updated = []))
                 || negb (bool_decide (removed = [])) in
  mkDelta changed reordered
    (if changed then saturating_add64 current_revision 1 else current_revision)
    added updated removed.

Definition SUMMARY_PREFIX : string :=
  "The following is a compacted summary of the earlier conversation history in this machine. Use this context to continue the work seamlessly without duplicating what has already been done:".

Definition summary_prompt_message (summary : string) : Message :=
  context_message (SUMMARY_PREFIX +:+ String (ascii_of_nat 10) summary).

(** ** Which messages a compaction keeps: tool blocks *)

(** [while first > 0 && messages[first - 1] is Tool { first -= 1 }] *)
Fixpoint first_tool_idx (messages : list Message) (idx : nat) : nat :=
  match idx with
  | O => O
  | S i => match messages !! i with
           | Some (Tool _) => first_tool_idx messages i
           | _ => idx
           end
  end.

Definition align_retention_start_to_tool_block (messages : list Message) (retention_start : nat) :
    nat :=
  match messages !! retention_start with
  | Some (Tool _) =>
      let first := first_tool_idx messages retention_start in
      match first with
      | S i => match messages !! i with
               | Some (Assistant _ (_ :: _)) => i
               | _ => retention_start
               end
      | O => retention_start
      end
  | _ => retention_start
  end.

Inductive SpanKind : Set := UserTurn | Control.
Record MessageSpan : Type := mkSpan { span_start : nat; span_end : nat; span_kind : SpanKind }.
Definition span_len (s : MessageSpan) : nat := span_end s - span_start s.

(** The retention loop: older spans from the newest, until one does not fit *)
Fixpoint retain_spans (keep_last : nat) (older : list MessageSpan) (retention_start retained : nat) :
    nat :=
  match older with
  | [] => retention_start
  | span :: older' =>
      if bool_decide (keep_last < retained + span_len span)%nat then retention_start
      else retain_spans keep_last older' (span_start span) (retained + span_len span)
  end.

Section tape.
(** [value.to_string()], [serde_json::from_str] and [hex(Sha256(bytes))] *)
Context (json_to_string : Json → string) (json_from_str : string → option Json)
  (sha256_hex : bytes → string).

Definition to_text_lossy (p : ContentPart) : string :=
  match p with
  | Text text | Thinking text _ => text
  | RedactedThinking _ => "[redacted_thinking]"
  | Structured data => json_to_string data
  | Attachment hash mime_type _ => "[attachment: " +:+ hash +:+ " (" +:+ mime_type +:+ ")]"
  end.
Definition response_text_content (r : ToolResponse) : string :=
  join "" (to_text_lossy <$> resp_content r).
Definition text_content (m : Message) : string :=
  match m with
  | User parts | Assistant parts _ | System parts | Context parts =>
      join "" (to_text_lossy <$> parts)
  | Tool responses =>
      join (String (ascii_of_nat 10) "") (response_text_content <$> responses)
  end.
Definition non_thinking_text_content (m : Message) : string :=
  match m with
  | Assistant parts _ =>
      join "" (to_text_lossy <$>
        List.filter (λ p, match p with Thinking _ _ | RedactedThinking _ => false | _ => true end) parts)
  | _ => text_content m
  end.

(** *** Token estimates *)

Definition estimate_text_tokens (text : string) : Z := div_ceil (chars_count text) 4.
Definition estimate_json_tokens (value : Json) : Z := estimate_text_tokens (json_to_string value).
Definition estimate_content_part_tokens (p : ContentPart) : Z :=
  match p with
  | Text text | Thinking text _ => estimate_text_tokens text
  | RedactedThinking data => estimate_text_tokens data
  | Attachment hash mime_type _ => estimate_text_tokens hash + estimate_text_tokens mime_type + 10
  | Structured data => estimate_json_tokens data
  end.
Definition estimate_tool_request_tokens (r : ToolRequest) : Z :=
  estimate_text_tokens (req_id r) + estimate_text_tokens (req_name r)
  + estimate_json_tokens (req_arguments r) + 4.
Definition sum_over {A} (f : A → Z) (l : list A) : Z := foldr (λ a n, f a + n) 0 l.
Definition estimate_message_tokens (m : Message) : Z :=
  sum_over estimate_content_part_tokens (message_parts m)
  + sum_over estimate_tool_request_tokens (tool_requests m)
  + sum_over (λ r, sum_over estimate_content_part_tokens (resp_content r)
                   + estimate_text_tokens (resp_id r) + 4) (tool_responses m)
  + 6.
Definition estimate_user_message_tokens (parts : list ContentPart) : Z :=
  sum_over estimate_content_part_tokens parts + 6.

(** *** Spans and retention *)

Definition is_internal_control_part (p : ContentPart) : bool :=
  match p with
  | Structured data => is_internal_control_payload data
  | Text text => match json_from_str (trim text) with
                 | Some payload => is_internal_control_payload payload
                 | None => false
                 end
  | _ => false
  end.
Definition is_internal_control_message (m : Message) : bool :=
  match m with User parts => existsb is_internal_control_part parts | _ => false end.
Definition is_non_control_user_turn_boundary (m : Message) : bool :=
  is_user m && negb (is_internal_control_message m).

(** [while end < len && !boundary(messages[end]) { end += 1 }], run on the messages
    from [end] on *)
Fixpoint scan_end (rest : list Message) (stop : nat) : nat :=
  match rest with
  | m :: rest' => if is_non_control_user_turn_boundary m then stop else scan_end rest' (S stop)
  | [] => stop
  end.
(** The outer loop; every round moves [start] forward, so as many rounds as there
    are messages are enough. *)
Fixpoint spans_loop (fuel : nat) (messages : list Message) (start : nat) : list MessageSpan :=
  match fuel with
  | O => []
  | S fuel' =>
      match messages !! start with
      | None => []
      | Some m =>
          let kind := if is_non_control_user_turn_boundary m then UserTurn else Control in
          let stop := scan_end (drop (S start) messages) (S start) in
          mkSpan start stop kind :: spans_loop fuel' messages stop
      end
  end.
Definition semantic_message_spans (messages : list Message) : list MessageSpan :=
  spans_loop (length messages) messages 0.

Definition compaction_retention_start (messages : list Message) (keep_last : nat) : nat :=
  match messages with
  | [] => 0%nat
  | _ =>
      if bool_decide (keep_last = 0%nat) then length messages
      else
        match reverse (semantic_message_spans messages) with
        | [] => 0%nat
        | last_span :: older =>
            let retention_start :=
              retain_spans keep_last older (span_start last_span) (span_len last_span) in
            let last_span_oversized := bool_decide (keep_last < span_len last_span)%nat in
            let retention_start :=
              if last_span_oversized && bool_decide (keep_last < length messages)%nat
              then (length messages - keep_last)%nat else retention_start in
            align_retention_start_to_tool_block messages retention_start
        end
  end.

(** *** Context items *)

Definition fingerprint_context (kind title content : string) : string :=
  "sha256:" +:+ sha256_hex (into_bytes kind ++ [newline] ++ into_bytes title ++ [newline]
                            ++ into_bytes content).
Definition new_item (id kind title content : string) : ContextItem :=
  mkItem id kind title content (fingerprint_context kind title content).
Definition ensure_fingerprint_matches (i : ContextItem) : ContextItem :=
  let expected := fingerprint_context (item_kind i) (item_title i) (item_content i) in
  if bool_decide (item_fingerprint i = expected) then i
  else mkItem (item_id i) (item_kind i) (item_title i) (item_content i) expected.
Definition normalize_context_items (items : list ContextItem) : list ContextItem :=
  ensure_fingerprint_matches <$> items.

Fixpoint render_context_items (items : list ContextItem) : list Message * Z :=
  match items with
  | [] => ([], 0)
  | item :: items' =>
      let content := format_context_item item in
      let '(rendered, tokens) := render_context_items items' in
      if bool_decide (content = "") then (rendered, tokens)
      else let m := context_message content in
           (m :: rendered, estimate_message_tokens m + tokens)
  end.

(** ** The operations of the tape *)

Definition estimated_prompt_tokens (t : Tape) : Z :=
  rendered_token_estimate (reference_context t) + summary_token_estimate t
  + messages_token_estimate t.

Record ReferenceContextSnapshot : Type := mkSnapshot {
  snap_revision : Z; item_count : nat; snap_delta : ContextItemsDelta }.
Record PromptContextView : Type := mkView {
  view_messages : list Message; estimated_tokens : Z;
  view_reference_context : ReferenceContextSnapshot }.
Definition prompt_view (t : Tape) : PromptContextView :=
  let c := reference_context t in
  mkView (rendered_messages c
          ++ match summary t with Some s => [summary_prompt_message s] | None => [] end
          ++ messages t)
    (estimated_prompt_tokens t) (mkSnapshot (revision c) (length (ctx_items c)) (last_delta c)).
Definition messages_for_prompt (t : Tape) : list Message := view_messages (prompt_view t).

Definition push (m : Message) (t : Tape) : Tape :=
  mkTape (reference_context t) (messages t ++ [m])
    (messages_token_estimate t + estimate_message_tokens m)
    (summary t) (summary_token_estimate t) (compaction_count t).

Definition clear (t : Tape) : Tape := mkTape default_context [] 0 None 0 0.

Definition replace (ms : list Message) (t : Tape) : Tape :=
  mkTape (reference_context t) ms (sum_over estimate_message_tokens ms)
    (summary t) (summary_token_estimate t) (compaction_count t).

Definition apply_context_items (items : list ContextItem) (t : Tape) : Tape * ContextItemsDelta :=
  let items := normalize_context_items items in
  let c := reference_context t in
  let delta := diff_context_items (ctx_items c) items (revision c) in
  let c :=
    if changed delta then
      let '(rendered, tokens) := render_context_items items in
      mkContextState items rendered tokens (delta_revision delta) (last_delta c)
    else c in
  let c := mkContextState (ctx_items c) (rendered_messages c) (rendered_token_estimate c)
             (revision c) delta in
  (mkTape c (messages t) (messages_token_estimate t) (summary t) (summary_token_estimate t)
     (compaction_count t), delta).

Definition set_summary (s : string) (t : Tape) : Tape :=
  mkTape (reference_context t) (messages t) (messages_token_estimate t)
    (Some s) (estimate_message_tokens (summary_prompt_message s)) (compaction_count t).

Definition clear_summary (t : Tape) : Tape :=
  mkTape (reference_context t) (messages t) (messages_token_estimate t) None 0
    (compaction_count t).

(** [None] is the panic of [messages[start..]] for a start past the end *)
Definition compact (s : string) (keep_last : nat) (t : Tape) : option Tape :=
  let retention_start := compaction_retention_start (messages t) keep_last in
  if bool_decide (length (messages t) < retention_start)%nat then None
  else
    let kept := drop retention_start (messages t) in
    let t := mkTape (reference_context t) kept (sum_over estimate_message_tokens kept)
               (summary t) (summary_token_estimate t) (compaction_count t) in
    let t := set_summary s t in
    Some (mkTape (reference_context t) (messages t) (messages_token_estimate t)
            (summary t) (summary_token_estimate t) (compaction_count t + 1)).
End tape.
