(* ===== verification/TapeFacts.v ===== *)
(** * The conversation tape: estimates, compaction, context changes

    The cached token estimate is the estimate of the prompt; a compaction keeps the
    most recent whole turns that fit and never separates tool results from the
    request they answer; a change of the reference context is always noticed. *)
From S2P Require Import Prelude RustStd RustText Tape.

Lemma sum_over_app {A} (f : A → Z) l1 l2 : sum_over f (l1 ++ l2) = sum_over f l1 + sum_over f l2.
Proof. induction l1 as [|x l1 IH]; simpl; [done|]. rewrite IH. lia. Qed.

Section facts.
Context (json_to_string : Json → string) (json_from_str : string → option Json)
  (sha256_hex : bytes → string).
Notation estimate := (estimate_message_tokens json_to_string).
Notation boundary := (is_non_control_user_turn_boundary json_from_str).
Notation spans_loop := (spans_loop json_from_str).
Notation spans := (semantic_message_spans json_from_str).
Notation retention_start := (compaction_retention_start json_from_str).

(** ** Turns *)

Definition boundary_at (ms : list Message) (i : nat) : Prop :=
  ∃ m, ms !! i = Some m ∧ boundary m = true.
(** A place where the tape can be cut without splitting a turn *)
Definition turn_start (ms : list Message) (i : nat) : Prop := i = 0%nat ∨ boundary_at ms i.

(** Consecutive spans from [a] to [b] *)
Fixpoint chain (a : nat) (l : list MessageSpan) (b : nat) : Prop :=
  match l with
  | [] => a = b
  | s :: l' => span_start s = a ∧ (a < span_end s)%nat ∧ chain (span_end s) l' b
  end.

Lemma chain_app a l1 l2 b : chain a (l1 ++ l2) b ↔ ∃ c, chain a l1 c ∧ chain c l2 b.
Proof.
  revert a. induction l1 as [|s l1 IH]; intros a; simpl; [naive_solver|].
  rewrite IH. naive_solver.
Qed.
Lemma chain_le a l b : chain a l b → (a ≤ b)%nat.
Proof.
  revert a. induction l as [|s l IH]; intros a; simpl; [lia|].
  intros (? & ? & H). apply IH in H. lia.
Qed.

(** [scan_end] stops at the next turn or at the end. *)
Lemma scan_end_spec rest i :
  let e := scan_end json_from_str rest i in
  (i ≤ e ≤ i + length rest)%nat ∧
  (∀ j m, rest !! j = Some m → (i + j < e)%nat → boundary m = false) ∧
  ((e < i + length rest)%nat → ∃ m, rest !! (e - i)%nat = Some m ∧ boundary m = true).
Proof.
  revert i. induction rest as [|m rest IH]; intros i; simpl.
  - split_and!; [lia..|done|lia].
  - destruct (boundary m) eqn:Hm.
    + split_and!; [lia..| |].
      { lia. }
      intros _. exists m. by rewrite Nat.sub_diag.
    + destruct (IH (S i)) as (H1 & H2 & H3). split_and!; [lia..| |].
      * intros [|j] m' Hj Hlt; simpl in Hj; [congruence|]. apply (H2 j); [done|lia].
      * intros Hlt. destruct H3 as (m' & Hm' & Hb); [lia|]. exists m'. split; [|done].
        by replace (_ - i)%nat with (S (scan_end json_from_str rest (S i) - S i)) by lia.
Qed.

(** The spans cover the tape from [start] to its end, and every span but one at the
    front begins a turn and holds no other. *)
Lemma spans_loop_spec ms fuel start :
  (start ≤ length ms)%nat → (length ms ≤ fuel + start)%nat →
  chain start (spans_loop fuel ms start) (length ms) ∧
  ∀ s, s ∈ spans_loop fuel ms start →
    (span_start s = start ∨ boundary_at ms (span_start s)) ∧
    ∀ i, (span_start s < i < span_end s)%nat → ¬ boundary_at ms i.
Proof.
  revert start. induction fuel as [|fuel IH]; intros start Hs Hf; simpl.
  { split; [lia|]. by intros s ?%elem_of_nil. }
  destruct (ms !! start) as [m|] eqn:Hm.
  2:{ apply lookup_ge_None_1 in Hm. split; [simpl; lia|]. by intros s ?%elem_of_nil. }
  pose proof (lookup_lt_Some _ _ _ Hm) as Hlt.
  destruct (scan_end_spec (drop (S start) ms) (S start)) as (H1 & H2 & H3).
  rewrite length_drop in H1, H3. set (e := scan_end _ _ _) in *.
  destruct (IH e) as [Hc Hb]; [lia..|]. split; [simpl; split_and!; [done|lia|done]|].
  intros s [->|Hin]%elem_of_cons; simpl.
  - split; [by left|]. intros i Hi (m' & Hm' & Hbm).
    rewrite (H2 (i - S start)%nat m') in Hbm; [done| |lia].
    rewrite lookup_drop. by replace (S start + _)%nat with i by lia.
  - destruct (Hb s Hin) as [[Heq|?] Hi]; [|auto]. split; [|done]. right.
    rewrite Heq. destruct H3 as (m' & Hm' & Hbm).
    { apply list_elem_of_lookup_1 in Hin as [k Hk].
      destruct (decide (e < length ms)%nat); [lia|]. exfalso.
      assert (e = length ms) as He by lia. destruct fuel as [|fuel]; simpl in Hk; [done|].
      rewrite (lookup_ge_None_2 ms e) in Hk by lia. done. }
    exists m'. split; [|done]. rewrite lookup_drop in Hm'. by replace e with (S start + (e - S start))%nat by lia.
Qed.

Lemma spans_spec ms :
  chain 0 (spans ms) (length ms) ∧
  ∀ s, s ∈ spans ms → turn_start ms (span_start s) ∧
    ∀ i, (span_start s < i < span_end s)%nat → ¬ turn_start ms i.
Proof.
  destruct (spans_loop_spec ms (length ms) 0) as [Hc Hs]; [lia..|]. split; [done|].
  intros s Hin. destruct (Hs s Hin) as [H1 H2]. split; [done|].
  intros i Hi [->|Hb]; [lia|]. by apply (H2 i).
Qed.

Lemma chain_cover a l b i :
  chain a l b → (a ≤ i < b)%nat → ∃ s, s ∈ l ∧ (span_start s ≤ i < span_end s)%nat.
Proof.
  revert a. induction l as [|s l IH]; intros a; simpl; [lia|].
  intros (Hs & Hlt & Hc) Hi. destruct (decide (i < span_end s)%nat).
  - exists s. split; [by left|lia].
  - destruct (IH _ Hc) as (s' & Hin & ?); [lia|]. exists s'. split; [by right|done].
Qed.
Lemma turn_start_span ms i :
  (i < length ms)%nat → turn_start ms i → ∃ s, s ∈ spans ms ∧ span_start s = i.
Proof.
  intros Hi Ht. destruct (spans_spec ms) as [Hc Hs].
  destruct (chain_cover _ _ _ i Hc) as (s & Hin & Hb); [lia|]. exists s. split; [done|].
  destruct (decide (span_start s = i)); [done|]. destruct (Hs s Hin) as [_ Hn].
  exfalso. apply (Hn i); [lia|done].
Qed.

(** The retention loop stops at the oldest span start within the budget. *)
Lemma retain_spans_spec k n older rs :
  chain 0 (reverse older) rs → (rs ≤ n)%nat →
  let r := retain_spans k older rs (n - rs) in
  (r ≤ rs)%nat ∧ (r = rs ∨ (n - r ≤ k)%nat ∧ ∃ s, s ∈ older ∧ span_start s = r) ∧
  ∀ s, s ∈ older → (span_start s < r)%nat → (k < n - span_start s)%nat.
Proof.
  revert rs. induction older as [|s older IH]; intros rs Hc Hn; simpl.
  { split_and!; [lia|by left|by intros s ?%elem_of_nil]. }
  rewrite reverse_cons in Hc. apply chain_app in Hc as (c & Hc & Hs & Hlt & He).
  simpl in He. subst c. pose proof (chain_le _ _ _ Hc) as Hle.
  assert (span_len s = rs - span_start s)%nat as Hlen by (unfold span_len; lia).
  case_bool_decide as Hk.
  - split_and!; [lia|by left|]. intros s' Hin Hlt'.
    assert (span_start s' ≤ span_start s)%nat; [|lia].
    apply elem_of_cons in Hin as [->|Hin]; [lia|].
    apply elem_of_reverse, list_elem_of_split in Hin as (l1 & l2 & Heq).
    rewrite Heq in Hc. apply chain_app in Hc as (c & _ & Hc). simpl in Hc.
    destruct Hc as (-> & ? & Hc). apply chain_le in Hc. lia.
  - replace (n - rs + span_len s)%nat with (n - span_start s)%nat by lia.
    destruct (IH (span_start s) Hc) as (H1 & H2 & H3); [lia|].
    set (r := retain_spans _ _ _ _) in *. split_and!; [lia| |].
    + right. destruct H2 as [->|(Hr & s' & Hin & Heq)].
      * split; [lia|]. exists s. split; [by left|done].
      * split; [done|]. exists s'. split; [by right|done].
    + intros s' [->|Hin]%elem_of_cons Hlt'; [lia|]. by apply H3.
Qed.

(** ** Tool blocks *)

Definition tool_at (ms : list Message) (i : nat) : Prop := ∃ rs, ms !! i = Some (Tool rs).
(** An assistant message that asks for tools *)
Definition request_at (ms : list Message) (i : nat) : Prop :=
  ∃ ps r rs, ms !! i = Some (Assistant ps (r :: rs)).

Lemma first_tool_idx_spec ms i :
  (first_tool_idx ms i ≤ i)%nat ∧
  (∀ j, (first_tool_idx ms i ≤ j < i)%nat → tool_at ms j) ∧
  (∀ j, first_tool_idx ms i = S j → ¬ tool_at ms j).
Proof.
  induction i as [|i (IH1 & IH2 & IH3)]; simpl; [split_and!; [lia|lia|done]|].
  destruct (ms !! i) as [[]|] eqn:Hm;
    try (split_and!; [lia|lia|]; intros j [= <-] [rs Hj]; congruence).
  split_and!; [lia| |done]. intros j Hj. destruct (decide (j = i)) as [->|]; [by eexists|].
  apply IH2. lia.
Qed.

(** Aligning moves back exactly over tool results to the request they answer. *)
Lemma align_spec ms i :
  let a := align_retention_start_to_tool_block ms i in
  a = i ∨ ((a < i)%nat ∧ request_at ms a ∧ ∀ j, (a < j ≤ i)%nat → tool_at ms j).
Proof.
  unfold align_retention_start_to_tool_block.
  destruct (ms !! i) as [[]|] eqn:Hi; try by left.
  destruct (first_tool_idx_spec ms i) as (H1 & H2 & H3).
  destruct (first_tool_idx ms i) as [|f]; [by left|].
  destruct (ms !! f) as [[|ps [|r rs]| | |]|] eqn:Hf; try by left.
  right. split_and!; [lia|by eexists _, _, _|]. intros j Hj.
  destruct (decide (j = i)) as [->|]; [by eexists|]. apply H2. lia.
Qed.
Lemma align_id ms i : turn_start ms i → align_retention_start_to_tool_block ms i = i.
Proof.
  unfold align_retention_start_to_tool_block. intros [->|(m & Hm & Hb)].
  - by destruct (ms !! 0%nat) as [[]|].
  - rewrite Hm. by destruct m.
Qed.

(** The start of the last turn of a tape *)
Definition last_turn (ms : list Message) (t : nat) : Prop :=
  (t < length ms)%nat ∧ turn_start ms t ∧ ∀ i, (t < i < length ms)%nat → ¬ turn_start ms i.

Lemma last_span_last_turn ms t older s :
  last_turn ms t → reverse (spans ms) = s :: older →
  span_start s = t ∧ span_end s = length ms ∧ chain 0 (reverse older) t.
Proof.
  intros (Ht & Hs & Hmax) Hrev. destruct (spans_spec ms) as [Hc Hsp].
  assert (spans ms = reverse older ++ [s]) as Heq.
  { by rewrite <-(reverse_involutive (spans ms)), Hrev, reverse_cons. }
  rewrite Heq in Hc. apply chain_app in Hc as (c & Hc & Hst & Hlt & He). simpl in He.
  assert (s ∈ spans ms) as Hin by (rewrite Heq; set_solver).
  destruct (Hsp s Hin) as [H1 H2].
  assert (span_start s = t) as <-; [|by subst c].
  destruct (decide (span_start s < t)%nat); [exfalso; apply (H2 t); [lia|done]|].
  destruct (decide (t < span_start s)%nat); [exfalso; apply (Hmax (span_start s)); [lia|done]|lia].
Qed.
Lemma spans_nonempty ms : ms ≠ [] → reverse (spans ms) ≠ [].
Proof.
  intros Hne Hr. destruct (spans_spec ms) as [Hc _].
  rewrite <-(reverse_involutive (spans ms)), Hr in Hc. simpl in Hc.
  destruct ms; [done|]. simpl in Hc. lia.
Qed.

Lemma retention_start_spec ms k t :
  (0 < k)%nat → last_turn ms t →
  let n := length ms in
  let start := retention_start ms k in
  ((n - t ≤ k)%nat → turn_start ms start ∧ (start ≤ t)%nat ∧ (n - start ≤ k)%nat ∧
     ∀ i, turn_start ms i → (i < start)%nat → (k < n - i)%nat) ∧
  ((k < n - t)%nat → start = align_retention_start_to_tool_block ms (n - k)).
Proof.
  intros Hk Hl n start. pose proof Hl as (Ht & Hts & Hmax). unfold start, compaction_retention_start.
  destruct ms as [|m ms']; [simpl in Ht; lia|]. set (ms := m :: ms') in *.
  rewrite bool_decide_false by lia.
  destruct (reverse (spans ms)) as [|s older] eqn:Hrev.
  { by apply spans_nonempty in Hrev. }
  destruct (last_span_last_turn ms t older s Hl Hrev) as (Hst & He & Hc).
  assert (span_len s = n - t)%nat as Hlen by (unfold span_len; rewrite Hst, He; done).
  rewrite Hlen, Hst. destruct (retain_spans_spec k n older t Hc) as (H1 & H2 & H3); [lia|].
  set (r := retain_spans k older t (n - t)) in *. split; intros Hfit.
  - rewrite bool_decide_false by lia. simpl.
    assert (turn_start ms r) as Hr.
    { destruct H2 as [->|(_ & s' & Hin & <-)]; [done|]. destruct (spans_spec ms) as [_ Hsp].
      apply Hsp. apply elem_of_reverse. rewrite Hrev. by right. }
    rewrite align_id by done. split_and!; [done|lia|destruct H2 as [->|[? _]]; lia|].
    intros i Hi Hlt. destruct (turn_start_span ms i) as (s' & Hin & <-); [lia|done|].
    apply H3; [|done]. apply elem_of_reverse in Hin. rewrite Hrev in Hin.
    apply elem_of_cons in Hin as [->|?]; [lia|done].
  - by rewrite !bool_decide_true by lia.
Qed.

Lemma last_turn_exists ms : ms ≠ [] → ∃ t, last_turn ms t.
Proof.
  intros Hne. destruct (reverse (spans ms)) as [|s older] eqn:Hrev.
  { by apply spans_nonempty in Hrev. }
  assert (spans ms = reverse older ++ [s]) as Heq.
  { by rewrite <-(reverse_involutive (spans ms)), Hrev, reverse_cons. }
  destruct (spans_spec ms) as [Hc Hsp]. exists (span_start s).
  destruct (Hsp s) as [H1 H2]; [rewrite Heq; set_solver|].
  rewrite Heq in Hc. apply chain_app in Hc as (c & Hc & Hst & Hlt & He). simpl in He.
  split_and!; [lia|done|]. intros i Hi. apply H2. lia.
Qed.

Lemma retention_start_le ms k : (retention_start ms k ≤ length ms)%nat.
Proof.
  destruct (decide (ms = [])) as [->|Hne]; [done|].
  destruct (decide (k = 0%nat)) as [->|Hk].
  { by destruct ms. }
  destruct (last_turn_exists ms Hne) as [t Ht].
  destruct (retention_start_spec ms k t) as [H1 H2]; [lia|done|]. destruct Ht as [Ht _].
  destruct (decide (length ms - t ≤ k)%nat) as [Hd|Hd]; [destruct H1 as (_ & ? & _); [done|lia]|].
  rewrite H2 by lia. destruct (align_spec ms (length ms - k)) as [->|[? _]]; lia.
Qed.

(** What a compaction with budget [k] keeps. It never panics and keeps a suffix.
    With no budget it keeps nothing. When the latest turn fits the budget, the
    suffix starts at a turn, has at most [k] messages, and no longer suffix that
    starts at a turn fits. When the latest turn alone is over the budget, exactly
    [k] messages are kept, preceded at most by the tool results before them and the
    request those answer. *)
Theorem compaction_keeps_recent_turns (s : string) (k : nat) (t : Tape) :
  ∃ t' start, compact json_to_string json_from_str s k t = Some t' ∧
    messages t' = drop start (messages t) ∧ summary t' = Some s ∧
    (start ≤ length (messages t))%nat ∧ (k = 0%nat → messages t' = []) ∧
    ∀ l, last_turn (messages t) l → (0 < k)%nat →
      ((length (messages t) - l ≤ k)%nat →
         turn_start (messages t) start ∧ (length (messages t') ≤ k)%nat ∧
         ∀ i, turn_start (messages t) i → (i < start)%nat → (k < length (messages t) - i)%nat) ∧
      ((k < length (messages t) - l)%nat →
         length (messages t') = k ∨
         (request_at (messages t) start ∧
          ∀ j, (start < j ≤ length (messages t) - k)%nat → tool_at (messages t) j)).
Proof.
  set (ms := messages t). pose proof (retention_start_le ms k) as Hle.
  unfold compact. fold ms. rewrite bool_decide_false by lia.
  eexists _, (retention_start ms k). split; [done|]. cbn [messages set_summary summary].
  split_and!; [done|done|done| |].
  - intros ->. apply nil_length_inv. rewrite length_drop.
    destruct ms; simpl in *; lia.
  - intros l Hl Hk. rewrite length_drop.
    destruct (retention_start_spec ms k l Hk Hl) as [H1 H2]. destruct Hl as [Hl _]. split.
    + intros Hfit. destruct (H1 Hfit) as (? & ? & ? & ?). done.
    + intros Hbig. rewrite H2 by done.
      destruct (align_spec ms (length ms - k)) as [->|(? & ? & ?)]; [left; lia|by right].
Qed.

(** The message at [i] is the request at [j] or one of the run of tool results
    that directly follows it. *)
Definition tool_block (ms : list Message) (j i : nat) : Prop :=
  request_at ms j ∧ (j ≤ i)%nat ∧ ∀ l, (j < l ≤ i)%nat → tool_at ms l.

Lemma request_not_tool ms i : request_at ms i → tool_at ms i → False.
Proof. intros (? & ? & ? & H1) [? H2]. congruence. Qed.

Lemma tool_block_first ms j i : tool_block ms j i → (j < i)%nat → first_tool_idx ms i = S j.
Proof.
  intros (Hreq & _ & Hall) Hlt. destruct (first_tool_idx_spec ms i) as (H1 & H2 & H3).
  destruct (first_tool_idx ms i) as [|f] eqn:Hf.
  - exfalso. eapply request_not_tool; [exact Hreq|]. apply H2. lia.
  - destruct (decide (f = j)) as [->|]; [done|]. exfalso.
    destruct (decide (f < j)%nat); [eapply request_not_tool; [exact Hreq|apply H2; lia]|].
    apply (H3 f eq_refl), Hall. lia.
Qed.

Lemma align_outside_block ms j i n :
  tool_block ms j i → align_retention_start_to_tool_block ms n ∉ seq (S j) (i - j).
Proof.
  intros (Hreq & Hle & Hall) [H1 H2]%elem_of_seq.
  set (a := align_retention_start_to_tool_block ms n) in *.
  assert (tool_at ms a) as Ha by (apply Hall; lia).
  assert (a = n) as Han.
  { destruct (align_spec ms n) as [?|(_ & Hr & _)]; [done|]. by destruct (request_not_tool ms a). }
  assert (tool_block ms j n) as Hb.
  { split_and!; [done|lia|]. intros l Hl. apply Hall. lia. }
  assert (a = j) as Haj; [|lia]. destruct Ha as [rs Hrs]. destruct Hreq as (ps & r & rq & Hreq).
  unfold a, align_retention_start_to_tool_block. rewrite Han in Hrs. rewrite Hrs.
  rewrite (tool_block_first ms j n) by (done || lia). simpl. by rewrite Hreq.
Qed.

(** C32: a compaction never separates a request for tools from the run of tool
    results directly after it. Whatever the tape and the budget, the messages kept
    are a suffix of the tape, and a request is kept with them whenever one of the
    results of its run is. *)
Theorem compaction_keeps_tool_blocks (s : string) (k : nat) (t t' : Tape) :
  compact json_to_string json_from_str s k t = Some t' →
  ∃ n, messages t' = drop n (messages t) ∧
    ∀ j i, tool_block (messages t) j i → (n ≤ i)%nat → (n ≤ j)%nat.
Proof.
  unfold compact. set (ms := messages t). case_bool_decide as Hle; [done|]. intros [= <-]. simpl.
  set (st := retention_start ms k) in *. exists st. split; [done|]. intros j i Hb Hi.
  destruct (decide (j < st)%nat) as [Hj|]; [|lia]. exfalso.
  assert (tool_at ms st) as Hst by (apply Hb; lia).
  revert Hj Hi Hst. unfold st, compaction_retention_start.
  destruct ms as [|m ms'] eqn:E; [by intros _ _ [? ?]|]. rewrite <-E in *.
  case_bool_decide as Hk; [intros _ _ [rs Hrs]; apply lookup_lt_Some in Hrs; lia|].
  case_match; [exfalso; eapply spans_nonempty; [|done]; by rewrite E|].
  intros Hj Hi _. eapply align_outside_block; [exact Hb|]. apply elem_of_seq. split; [exact Hj|].
  revert Hi. destruct Hb as (_ & ? & _). lia.
Qed.

(** ** Estimates *)

(** The operations of a tape *)
Inductive TapeOp : Type :=
  | OpPush (m : Message) | OpClear | OpReplace (ms : list Message)
  | OpApplyContext (items : list ContextItem) | OpSetSummary (s : string) | OpClearSummary
  | OpCompact (s : string) (keep_last : nat).

Definition run_op (op : TapeOp) (t : Tape) : option Tape :=
  match op with
  | OpPush m => Some (push json_to_string m t)
  | OpClear => Some (clear t)
  | OpReplace ms => Some (replace json_to_string ms t)
  | OpApplyContext items => Some (apply_context_items json_to_string sha256_hex items t).1
  | OpSetSummary s => Some (set_summary json_to_string s t)
  | OpClearSummary => Some (clear_summary t)
  | OpCompact s k => compact json_to_string json_from_str s k t
  end.
Fixpoint run_ops (ops : list TapeOp) (t : Tape) : option Tape :=
  match ops with
  | [] => Some t
  | op :: ops' => run_op op t ≫= run_ops ops'
  end.

(** The caches agree with what they cache. *)
Definition caches_ok (t : Tape) : Prop :=
  messages_token_estimate t = sum_over estimate (messages t) ∧
  summary_token_estimate t = match summary t with
                             | Some s => estimate (summary_prompt_message s)
                             | None => 0
                             end ∧
  (rendered_messages (reference_context t), rendered_token_estimate (reference_context t))
  = render_context_items json_to_string (ctx_items (reference_context t)).

Lemma render_estimate items :
  (render_context_items json_to_string items).2
  = sum_over estimate (render_context_items json_to_string items).1.
Proof.
  induction items as [|i items IH]; [done|]. cbn [render_context_items].
  destruct (render_context_items _ items) as [ms n]. simpl in IH. subst n. by case_bool_decide.
Qed.

Lemma apply_context_rendered items t :
  (rendered_messages (reference_context t), rendered_token_estimate (reference_context t))
  = render_context_items json_to_string (ctx_items (reference_context t)) →
  let c := reference_context (apply_context_items json_to_string sha256_hex items t).1 in
  (rendered_messages c, rendered_token_estimate c) = render_context_items json_to_string (ctx_items c).
Proof.
  intros Hc. unfold apply_context_items. destruct (diff_context_items _ _ _) as [[] ? ? ? ? ?];
    [|exact Hc].
  cbn [changed]. destruct (render_context_items _ (normalize_context_items _ _)) as [ms n] eqn:E. simpl. by rewrite E.
Qed.

Lemma run_op_caches op t : caches_ok t → ∃ t', run_op op t = Some t' ∧ caches_ok t'.
Proof.
  intros (Hm & Hs & Hc). destruct op as [m| |ms|items|s| |s k]; cbn [run_op];
    try (eexists; split; [done|]; unfold caches_ok; by simpl).
  - eexists. split; [done|]. split_and!; [|done|done]. simpl. rewrite sum_over_app, Hm. simpl. lia.
  - eexists. split; [done|]. split_and!; [done|done|]. by apply apply_context_rendered.
  - unfold compact. pose proof (retention_start_le (messages t) k).
    rewrite bool_decide_false by lia. eexists. split; [done|]. unfold caches_ok. by simpl.
Qed.
Lemma run_ops_caches ops t : caches_ok t → ∃ t', run_ops ops t = Some t' ∧ caches_ok t'.
Proof.
  revert t. induction ops as [|op ops IH]; intros t Ht; simpl; [by exists t|].
  destruct (run_op_caches op t Ht) as (t1 & H1 & Ht1). rewrite H1. simpl. by apply IH.
Qed.

(** Through every sequence of tape operations, none of which panics, the token
    estimate read from the caches is the sum of the estimates of exactly the
    messages the prompt is made of. *)
Theorem prompt_estimate_exact (ops : list TapeOp) :
  ∃ t, run_ops ops new_tape = Some t ∧
    estimated_prompt_tokens t = sum_over estimate (messages_for_prompt t) ∧
    estimated_tokens (prompt_view t) = sum_over estimate (view_messages (prompt_view t)).
Proof.
  destruct (run_ops_caches ops new_tape) as (t & Hr & Hm & Hs & Hc); [done|].
  exists t. split; [done|].
  assert (estimated_prompt_tokens t = sum_over estimate (messages_for_prompt t)) as H.
  { unfold estimated_prompt_tokens, messages_for_prompt, prompt_view. simpl.
    rewrite !sum_over_app, Hm, Hs. apply (f_equal snd) in Hc as Hc2. simpl in Hc2.
    apply (f_equal fst) in Hc. simpl in Hc. rewrite Hc2, render_estimate, <-Hc.
    destruct (summary t); simpl; lia. }
  by split.
Qed.

(** ** Reference context *)

Notation fingerprint := (fingerprint_context sha256_hex).

Definition collision : Prop := ∃ a b : bytes, a ≠ b ∧ sha256_hex a = sha256_hex b.
(** Items a machine hands to the tape: ids distinct, kinds and titles on one line *)
Definition items_valid (items : list ContextItem) : Prop :=
  NoDup (item_id <$> items) ∧
  Forall (λ i, newline ∉ into_bytes (item_kind i) ∧ newline ∉ into_bytes (item_title i)) items.
Definition fingerprinted (i : ContextItem) : Prop :=
  item_fingerprint i = fingerprint (item_kind i) (item_title i) (item_content i).

Lemma split_at_first {A} (x : A) l1 l2 r1 r2 :
  x ∉ l1 → x ∉ l2 → l1 ++ x :: r1 = l2 ++ x :: r2 → l1 = l2 ∧ r1 = r2.
Proof.
  revert l2. induction l1 as [|y l1 IH]; intros [|z l2] H1 H2 Heq; simplify_eq/=; [done|set_solver..|].
  destruct (IH l2) as [-> ->]; [set_solver..|done|done].
Qed.

Lemma fingerprint_inj k1 t1 c1 k2 t2 c2 :
  newline ∉ into_bytes k1 → newline ∉ into_bytes t1 →
  newline ∉ into_bytes k2 → newline ∉ into_bytes t2 →
  fingerprint k1 t1 c1 = fingerprint k2 t2 c2 →
  collision ∨ (k1 = k2 ∧ t1 = t2 ∧ c1 = c2).
Proof.
  intros Hk1 Ht1 Hk2 Ht2 Heq. unfold fingerprint_context in Heq. simplify_eq/=.
  match type of Heq with sha256_hex ?a = sha256_hex ?b => destruct (decide (a = b)) as [E|E] end.
  - right. apply split_at_first in E as [Hk E]; [|done..].
    apply split_at_first in E as [Ht E]; [|done..]. by simplify_eq.
  - left. by eexists _, _.
Qed.

Lemma fingerprint_map_app items i :
  fingerprint_map (items ++ [i]) = <[item_id i := item_fingerprint i]> (fingerprint_map items).
Proof. unfold fingerprint_map. by rewrite foldl_app. Qed.
Lemma fingerprint_map_lookup items i :
  NoDup (item_id <$> items) → i ∈ items → fingerprint_map items !! item_id i = Some (item_fingerprint i).
Proof.
  induction items as [|x items IH] using rev_ind; [by intros _ ?%elem_of_nil|].
  rewrite fmap_app, fingerprint_map_app. intros (Hn & Hd & _)%NoDup_app Hin.
  apply elem_of_app in Hin as [Hin|Hin].
  - rewrite lookup_insert_ne; [by apply IH|]. intros Heq.
    apply (Hd (item_id i)); [by apply list_elem_of_fmap_2|]. rewrite <-Heq. by left.
  - apply list_elem_of_singleton in Hin as ->. by rewrite lookup_insert_eq.
Qed.

(** With distinct ids, nothing changed only if ids, order and fingerprints agree. *)
Lemma diff_unchanged old new rev :
  NoDup (item_id <$> old) → NoDup (item_id <$> new) →
  changed (diff_context_items old new rev) = false →
  Forall2 (λ i j, item_id i = item_id j ∧ item_fingerprint i = item_fingerprint j) old new.
Proof.
  intros Ho Hn. unfold diff_context_items. cbn [changed].
  set (a := item_id <$> filter _ new). set (u := item_id <$> filter _ new).
  set (r := item_id <$> filter _ old). intros Hc.
  rewrite !orb_false_iff, !negb_false_iff, !bool_decide_eq_true in Hc.
  destruct Hc as [[[Hr Ha] Hu] Hrm]. rewrite Ha, Hu, Hrm in Hr.
  rewrite !(bool_decide_true (@nil string = [])) in Hr by done. rewrite !andb_true_r in Hr.
  apply negb_false_iff, bool_decide_eq_true in Hr.
  apply Forall2_same_length_lookup_2.
  { by rewrite <-(length_fmap item_id old), Hr, length_fmap. }
  intros k i j Hi Hj.
  assert (item_id i = item_id j) as Hid.
  { apply (f_equal (.!! k)) in Hr. rewrite !list_lookup_fmap, Hi, Hj in Hr. by simplify_eq/=. }
  split; [done|]. apply fmap_nil_inv in Hu.
  destruct (fingerprint_differs (fingerprint_map old) j) eqn:Hd.
  { assert (j ∈ filter (λ i, fingerprint_differs (fingerprint_map old) i = true) new) as Hin
      by (apply list_elem_of_filter; split; [done|by eapply list_elem_of_lookup_2]).
    rewrite Hu in Hin. by apply elem_of_nil in Hin. }
  unfold fingerprint_differs in Hd. rewrite <-Hid, fingerprint_map_lookup in Hd;
    [|done|by eapply list_elem_of_lookup_2].
  by apply negb_false_iff, bool_decide_eq_true in Hd.
Qed.

Lemma items_agree old new :
  Forall fingerprinted old → Forall fingerprinted new → items_valid old → items_valid new →
  Forall2 (λ i j, item_id i = item_id j ∧ item_fingerprint i = item_fingerprint j) old new →
  collision ∨ old = new.
Proof.
  intros Ho Hn [_ Hvo] [_ Hvn] Hf. induction Hf as [|i j old new [Hid Hfp] Hf IH]; [by right|].
  apply Forall_cons in Ho as [Hi Ho], Hn as [Hj Hn], Hvo as [[Hki Hti] Hvo], Hvn as [[Hkj Htj] Hvn].
  destruct (IH Ho Hn Hvo Hvn) as [?| ->]; [by left|]. pose proof Hfp as Hfp'. rewrite Hi, Hj in Hfp'.
  destruct (fingerprint_inj _ _ _ _ _ _ Hki Hti Hkj Htj Hfp') as [?|(Hk & Ht & Hc)]; [by left|]. right. f_equal. destruct i, j. simpl in *. congruence.
Qed.

Lemma normalize_facts items :
  Forall fingerprinted (normalize_context_items sha256_hex items) ∧
  (items_valid items → items_valid (normalize_context_items sha256_hex items)).
Proof.
  assert (∀ i, fingerprinted (ensure_fingerprint_matches sha256_hex i) ∧
     item_id (ensure_fingerprint_matches sha256_hex i) = item_id i ∧
     item_kind (ensure_fingerprint_matches sha256_hex i) = item_kind i ∧
     item_title (ensure_fingerprint_matches sha256_hex i) = item_title i) as He.
  { intros i. unfold ensure_fingerprint_matches, fingerprinted. by case_bool_decide. }
  unfold normalize_context_items, items_valid. split.
  - apply Forall_fmap, Forall_true. intros i. apply He.
  - intros [Hn Hv]. split.
    + rewrite <-list_fmap_compose. erewrite list_fmap_ext; [exact Hn|]. intros k i _. apply He.
    + apply Forall_fmap. eapply Forall_impl; [exact Hv|]. intros i. simpl.
      destruct (He i) as (_ & _ & -> & ->). done.
Qed.

Definition context_valid (t : Tape) : Prop :=
  items_valid (ctx_items (reference_context t)) ∧
  Forall fingerprinted (ctx_items (reference_context t)).
Definition op_valid (op : TapeOp) : Prop :=
  match op with OpApplyContext items => items_valid items | _ => True end.

Lemma apply_context_items_ctx items t :
  let '(t', d) := apply_context_items json_to_string sha256_hex items t in
  ctx_items (reference_context t')
  = if changed d then normalize_context_items sha256_hex items else ctx_items (reference_context t).
Proof.
  unfold apply_context_items. destruct (diff_context_items _ _ _) as [[] ? ? ? ? ?]; [|done].
  cbn [changed]. by destruct (render_context_items _ _).
Qed.
Lemma run_op_context op t t' :
  run_op op t = Some t' → op_valid op → context_valid t → context_valid t'.
Proof.
  intros Hr Ho Ht. destruct op as [m| |ms|items|s| |s k]; cbn [run_op] in Hr; simplify_eq; try done.
  - split; simpl; [by split; constructor|constructor].
  - pose proof (apply_context_items_ctx items t) as Hc.
    destruct (apply_context_items _ _ _ _) as [t' d]. simpl in *. unfold context_valid. rewrite Hc.
    destruct (changed d); [|done]. destruct (normalize_facts items). auto.
  - unfold compact in Hr. case_bool_decide; by simplify_eq.
Qed.
Lemma run_ops_context ops t t' :
  run_ops ops t = Some t' → Forall op_valid ops → context_valid t → context_valid t'.
Proof.
  revert t. induction ops as [|op ops IH]; intros t Hr Ho Ht; simpl in Hr; [by simplify_eq|].
  destruct (run_op op t) as [t1|] eqn:H1; [|done]. simpl in Hr. apply Forall_cons in Ho as [Ho1 Ho].
  eapply IH; [done|done|]. by eapply run_op_context.
Qed.

(** After any history of tape operations, applying a set of context items (with
    distinct ids, kinds and titles on one line) makes the prompt show exactly
    those items; the only way a change goes unnoticed is a collision of the
    digest. *)
Theorem context_shows_latest_items (ops : list TapeOp) (items : list ContextItem) (t : Tape) :
  run_ops ops new_tape = Some t → Forall op_valid ops → items_valid items →
  collision ∨
  (let t' := (apply_context_items json_to_string sha256_hex items t).1 in
   ctx_items (reference_context t') = normalize_context_items sha256_hex items ∧
   rendered_messages (reference_context t')
   = (render_context_items json_to_string (normalize_context_items sha256_hex items)).1).
Proof.
  intros Hr Ho Hi.
  destruct (run_ops_caches ops new_tape) as (t0 & Hr0 & _ & _ & Hrend); [done|].
  assert (t0 = t) as -> by congruence.
  assert (context_valid t) as [Hv Hf].
  { eapply run_ops_context; [done|done|]. split; simpl; [by split; constructor|constructor]. }
  destruct (normalize_facts items) as [Hnf Hnv]. specialize (Hnv Hi).
  assert (collision ∨ ctx_items (reference_context (apply_context_items json_to_string sha256_hex
            items t).1) = normalize_context_items sha256_hex items) as [?|Hc]; [|by left|].
  { pose proof (apply_context_items_ctx items t) as Hc.
    destruct (apply_context_items _ _ _ _) as [t' d] eqn:E. simpl. rewrite Hc.
    destruct (changed d) eqn:Hd; [by right|]. apply items_agree; [done..|].
    apply (diff_unchanged _ _ (revision (reference_context t))); [apply Hv|apply Hnv|].
    unfold apply_context_items in E. by simplify_eq. }
  right. split; [done|]. pose proof (apply_context_rendered items t Hrend) as Hr2.
  cbv zeta in Hr2. rewrite Hc in Hr2. by rewrite <-Hr2.
Qed.

(** A line break in a title defeats the fingerprint: two items that render
    differently have the same one, whatever the digest. *)
Lemma fingerprint_ambiguous k a b c :
  let nl := String (ascii_of_nat 10) "" in
  fingerprint k (a +:+ nl +:+ b) c = fingerprint k a (b +:+ nl +:+ c).
Proof.
  simpl. unfold fingerprint_context. do 2 f_equal. by rewrite !into_bytes_app, <-!app_assoc.
Qed.
End facts.

(** ** Concrete tapes *)

Definition no_json : string → option Json := λ _, None.
Definition plain_json : Json → string := λ _, "null".

(** Two turns; the second asks for a tool and has two results. *)
Definition sample_messages : list Message :=
  [User [Text "hi"]; Assistant [Text "hello"] [];
   User [Text "list files"]; Assistant [] [mkRequest "t1" "ls" JNull];
   Tool [mkResponse "t1" [Text "a"]]; Tool [mkResponse "t1" [Text "b"]]; Assistant [Text "done"] []].
Definition sample_tape : Tape := mkTape default_context sample_messages 99 None 0 0.

Lemma sample_last_turn : last_turn no_json sample_messages 2.
Proof.
  split_and!; [simpl; lia|right; by eexists|]. intros i Hi [->|(m & Hm & Hb)]; [lia|].
  simpl in Hi. do 7 (destruct i as [|i]; [simpl in *; simplify_eq/=; first [lia|done]|]). lia.
Defined.

(** A budget of two lies inside the second turn; it is extended to the request. *)
Lemma compaction_keeps_recent_turns_witness :
  let kept := match compact plain_json no_json "s" 2 sample_tape with
              | Some t => messages t
              | None => []
              end in
  kept = drop 3 sample_messages ∧ (2 < length kept)%nat ∧
  ∃ start, kept = drop start sample_messages ∧ request_at sample_messages start.
Proof.
  destruct (compaction_keeps_recent_turns plain_json no_json "s" 2 sample_tape)
    as (t' & start & Hc & Hm & _ & _ & _ & Hl).
  destruct (Hl 2%nat sample_last_turn) as [_ Hbig]; [lia|].
  assert (messages <$> compact plain_json no_json "s" 2 sample_tape
          = Some (drop 3 sample_messages)) as E by (vm_compute; reflexivity).
  rewrite Hc in E |- *. injection E as E. cbv zeta. rewrite E in *.
  split_and!; [done|simpl; lia|]. exists start. split; [done|].
  destruct Hbig as [Hk|[Hreq _]]; [simpl; lia|simpl in Hk; lia|done].
Defined.

(** A budget of two would start at the second of two results: the run is kept
    whole, its request first. *)
Lemma compaction_keeps_tool_blocks_witness :
  ∃ t', compact plain_json no_json "s" 2 sample_tape = Some t' ∧
    tool_block sample_messages 3 5 ∧ messages t' = drop 3 sample_messages ∧
    ∃ n, messages t' = drop n sample_messages ∧ ((n ≤ 5)%nat → (n ≤ 3)%nat).
Proof.
  assert (tool_block sample_messages 3 5) as Hb.
  { split_and!; [by eexists _, _, _|lia|].
    intros l Hl. assert (l = 4 ∨ l = 5)%nat as [-> | ->] by lia; by eexists. }
  destruct (compact plain_json no_json "s" 2 sample_tape) as [t'|] eqn:E.
  - destruct (compaction_keeps_tool_blocks plain_json no_json "s" 2 sample_tape t' E)
      as (n & Hn & Hk).
    exists t'. split_and!; [done|done| |exists n; split; [exact Hn|exact (Hk 3%nat 5%nat Hb)]].
    assert (messages <$> compact plain_json no_json "s" 2 sample_tape
            = Some (drop 3 sample_messages)) as E' by (vm_compute; reflexivity).
    rewrite E in E'. by injection E'.
  - vm_compute in E. done.
Defined.

(** The control message that an approval pushes between a request and its result
    ends the block: the result can then be kept without its request. *)
Example interrupted_result_loses_request :
  let control := JObject [("checkpoint_type", JString "tool_escalation");
    ("__alan_internal_control", JObject [("kind", JString "tool_escalation_confirmation");
      ("version", JNumber "1");
      ("source", JString RUNTIME_CONFIRMATION_CONTROL_SOURCE)])] in
  let ms := [User [Text "go"]; Assistant [] [mkRequest "t1" "ls" JNull];
             User [Structured control]; Tool [mkResponse "t1" [Text "a"]]] in
  is_internal_control_message no_json (User [Structured control]) = true ∧
  messages <$> compact plain_json no_json "s" 1 (mkTape default_context ms 99 None 0 0)
  = Some [Tool [mkResponse "t1" [Text "a"]]].
Proof. vm_compute. done. Qed.

(** Two contexts, one after the other *)
Definition sample_items (content : string) : list ContextItem :=
  [new_item (λ b, of_bytes b) "a" "doc" "Title" content].
Lemma sample_items_valid content : items_valid (sample_items content).
Proof.
  split; [apply NoDup_singleton|]. apply Forall_singleton.
  split; apply (bool_decide_unpack _); vm_compute; exact I.
Defined.
Lemma context_shows_latest_items_witness :
  let t := (apply_context_items plain_json (λ b, of_bytes b) (sample_items "old") new_tape).1 in
  collision (λ b, of_bytes b) ∨
  rendered_messages (reference_context (apply_context_items plain_json (λ b, of_bytes b)
    (sample_items "new") t).1)
  = (render_context_items plain_json
       (normalize_context_items (λ b, of_bytes b) (sample_items "new"))).1.
Proof.
  destruct (context_shows_latest_items plain_json no_json (λ b, of_bytes b)
    [OpApplyContext (sample_items "old")] (sample_items "new")
    (apply_context_items plain_json (λ b, of_bytes b) (sample_items "old") new_tape).1)
    as [H|[_ H]]; [reflexivity|apply Forall_singleton, sample_items_valid|apply sample_items_valid| |].
  - by left.
  - right. exact H.
Defined.
