(* ===== verification/ApWire.v ===== *)
(** * The aP byte transport (crates/ap/src/wire.rs; crates/ap/src/server.rs:
      WireTransportClient, export_file_server)

    Newline-delimited frames over a byte stream, their encoding and decoding, the
    synchronous client and the serving of one request. JSON encoding and decoding
    of a frame are serde_json's: the operations of [WireCodec], whose documented
    behaviour is [WireCodecLaws]. *)
From S2P Require Import Prelude RustStd ApTypes ApServer.

(** ** Frames *)

Abbreviation WireTag := Z.

Record WireRequestFrame : Type := mkRequestFrame { frame_tag : WireTag; frame_request : Request }.
Inductive WireResponseFrame : Type :=
  | WOk (tag : WireTag) (response : Response)
  | WError (tag : WireTag) (code : ErrorCode).

(** [Result<Response, ErrorCode>] *)
Abbreviation CallResult := (Response + ErrorCode)%type.

Definition from_result (tag : WireTag) (r : CallResult) : WireResponseFrame :=
  match r with inl response => WOk tag response | inr code => WError tag code end.
Definition into_result (f : WireResponseFrame) : WireTag * CallResult :=
  match f with WOk tag response => (tag, inl response) | WError tag code => (tag, inr code) end.

Inductive WireError : Set := WIo | WCodec | WClosed | WUnsynchronized | WFrameTooLarge | WTruncatedFrame.
Global Instance WireError_eq_dec : EqDecision WireError.
Proof. solve_decision. Defined.

Definition to_error_code (e : WireError) : ErrorCode :=
  match e with
  | WCodec | WFrameTooLarge | WTruncatedFrame => BadRequest
  | WIo | WClosed | WUnsynchronized => Io
  end.

(** [serde_json::to_vec] and [serde_json::from_slice] on the two frame types *)
Class WireCodec : Type := {
  request_to_vec : WireRequestFrame → option bytes;
  request_from_slice : bytes → option WireRequestFrame;
  response_to_vec : WireResponseFrame → option bytes;
  response_from_slice : bytes → option WireResponseFrame;
}.
(** What a compact JSON encoding promises: frames encode without a line break, and
    decode back with the line break that follows them. *)
Class WireCodecLaws (C : WireCodec) : Prop := {
  request_encodes f : is_Some (request_to_vec f);
  response_encodes f : is_Some (response_to_vec f);
  request_round_trip f b :
    request_to_vec f = Some b → request_from_slice (b ++ [newline]) = Some f ∧ newline ∉ b;
  response_round_trip f b :
    response_to_vec f = Some b → response_from_slice (b ++ [newline]) = Some f ∧ newline ∉ b;
}.

(** ** The byte streams *)

(** What one [fill_buf] of a reader gives: bytes, an error, or nothing yet. The
    end of the list is the end of the stream. *)
Inductive Fill : Type := Chunk (available : bytes) | FillError | FillPending.
Abbreviation Reader := (list Fill).
(** A writer that fails after a number of bytes *)
Record Writer : Type := mkWriter { written : bytes; capacity : Z }.

(** [writer.write_all(data)] and [flush] *)
Definition write_all (data : bytes) : M Writer WireError unit := λ w,
  if len data <=? capacity w
  then (mkWriter (written w ++ data) (capacity w - len data), Ok tt)
  else (mkWriter (written w ++ take (Z.to_nat (capacity w)) data) 0, Err WIo).

(** [available.iter().position(|b| b == newline)] as the number of bytes consumed *)
Fixpoint consumed (available : bytes) : nat :=
  match available with
  | [] => 0
  | x :: rest => if bool_decide (x = newline) then 1 else S (consumed rest)
  end.
(** [reader.consume(n)]: the rest of the buffer is the next fill *)
Definition after_consume (available : bytes) (n : nat) (r : Reader) : Reader :=
  match drop n available with [] => r | rest => Chunk rest :: r end.

(** The loop of [read_json_line] *)
Fixpoint read_line_go (frame : bytes) (r : Reader) : Reader * result WireError (option bytes) :=
  let at_end := if bool_decide (frame = []) then Ok None else Err WTruncatedFrame in
  match r with
  | [] => (r, at_end)
  | FillError :: r' => (r', Err WIo)
  | FillPending :: r' => (r', Park)
  | Chunk [] :: r' => (r, at_end)
  | Chunk available :: r' =>
      let n := consumed available in
      if MAX_WIRE_FRAME_BYTES <? saturating_add64 (len frame) (Z.of_nat n)
      then (r, Err WFrameTooLarge)
      else
        let frame := frame ++ take n available in
        if bool_decide (last frame = Some newline)
        then (after_consume available n r', Ok (Some frame))
        else read_line_go frame r'
  end.
Definition read_json_line : M Reader WireError (option bytes) := read_line_go [].

Section codec.
Context `{C : WireCodec}.

Definition encode_tagged_request_frame (tag : WireTag) (request : Request) : result WireError bytes :=
  result_map (λ b, b ++ [newline]) (ok_or (request_to_vec (mkRequestFrame tag request)) WCodec).
Definition decode_tagged_request_frame (frame : bytes) : result WireError (WireTag * Request) :=
  result_map (λ f, (frame_tag f, frame_request f)) (ok_or (request_from_slice frame) WCodec).
Definition encode_tagged_response_frame (tag : WireTag) (r : CallResult) : result WireError bytes :=
  result_map (λ b, b ++ [newline]) (ok_or (response_to_vec (from_result tag r)) WCodec).
Definition decode_tagged_response_frame (frame : bytes) : result WireError (WireTag * CallResult) :=
  result_map into_result (ok_or (response_from_slice frame) WCodec).

Definition write_tagged_request_frame (tag : WireTag) (request : Request) : M Writer WireError unit :=
  frame ← mresult (encode_tagged_request_frame tag request); write_all frame.
Definition write_tagged_response_frame (tag : WireTag) (r : CallResult) : M Writer WireError unit :=
  frame ← mresult (encode_tagged_response_frame tag r); write_all frame.

Definition read_tagged_request_frame : M Reader WireError (option (WireTag * Request)) :=
  o ← read_json_line;
  match o with
  | None => mret None
  | Some frame => p ← mresult (decode_tagged_request_frame frame); mret (Some p)
  end.
Definition read_tagged_response_frame : M Reader WireError (option (WireTag * CallResult)) :=
  o ← read_json_line;
  match o with
  | None => mret None
  | Some frame => p ← mresult (decode_tagged_response_frame frame); mret (Some p)
  end.

(** ** WireTransportClient *)

Record WireTransportClient : Type := mkClient {
  reader : Reader; writer : Writer; in_flight : bool; next_tag : WireTag }.
Definition client_new (r : Reader) (w : Writer) : WireTransportClient := mkClient r w false 1.

(** An operation on the reader or on the writer of a client *)
Definition on_reader {A} (m : M Reader WireError A) : M WireTransportClient WireError A := λ c,
  let '(r, a) := m (reader c) in (mkClient r (writer c) (in_flight c) (next_tag c), a).
Definition on_writer {A} (m : M Writer WireError A) : M WireTransportClient WireError A := λ c,
  let '(w, a) := m (writer c) in (mkClient (reader c) w (in_flight c) (next_tag c), a).
Definition set_in_flight (b : bool) (c : WireTransportClient) : WireTransportClient :=
  mkClient (reader c) (writer c) b (next_tag c).

(** [next_tag.wrapping_add(1).max(1)] *)
Definition following_tag (tag : WireTag) : WireTag := Z.max (wrapping_add64 tag 1) 1.

(** The call up to its response, and the response. *)
Definition send_request (request : Request) : M WireTransportClient WireError WireTag :=
  c ← mget;
  let tag := next_tag c in
  mmodify (λ c, mkClient (reader c) (writer c) (in_flight c) (following_tag tag));;
  on_writer (write_tagged_request_frame tag request);;
  mret tag.
Definition receive_response (tag : WireTag) : M WireTransportClient WireError CallResult :=
  o ← on_reader read_tagged_response_frame;
  p ← mlift o WClosed;
  let '(response_tag, r) := p in
  if bool_decide (response_tag ≠ tag) then mfail WUnsynchronized else mret r.
Definition call_result_in_flight (request : Request) : M WireTransportClient WireError CallResult :=
  tag ← send_request request; receive_response tag.

Definition call_result (request : Request) : M WireTransportClient WireError CallResult := λ c,
  if in_flight c then (c, Err WUnsynchronized)
  else
    let '(c', r) := call_result_in_flight request (set_in_flight true c) in
    (if is_ok r then set_in_flight false c' else c', r).

(** [call]: transport failures become aP errors *)
Definition client_call (request : Request) : M WireTransportClient ErrorCode Response := λ c,
  let '(c', r) := call_result request c in
  (c', match r with
       | Ok (inl response) => Ok response
       | Ok (inr code) => Err code
       | Err e => Err (to_error_code e)
       | Park => Park
       | Panic => Panic
       end).

(** ** export_file_server

    The connection of an exported server, as the arms of its select loop: a request
    frame arrives and its call is started, in frame order; a started call that
    could not complete is polled again; the response of a completed call is
    written. The arms run in any order. The reader task and its channel pass
    frames on in order and are not modelled apart. *)
Inductive ExportCall : Type := Running (request : Request) | Completed (r : CallResult).
Record Export (S : Type) : Type := mkExport {
  served : S; requests : Reader; responses : Writer; calls : list (WireTag * ExportCall) }.
Global Arguments mkExport {S}.
Global Arguments served {S}.
Global Arguments requests {S}.
Global Arguments responses {S}.
Global Arguments calls {S}.

(** One poll of a call *)
Definition poll_call {S} `{FileServer S} (request : Request) (s : S) :
    S * result WireError ExportCall :=
  match transport_call request s with
  | (s', Ok response) => (s', Ok (Completed (inl response)))
  | (s', Err code) => (s', Ok (Completed (inr code)))
  | (s', Park) => (s', Ok (Running request))
  | (s', Panic) => (s', Err WIo)
  end.

(** [request_rx.recv()]: [false] when the requests have ended *)
Definition export_recv {S} `{FileServer S} : M (Export S) WireError bool := λ e,
  match read_tagged_request_frame (requests e) with
  | (r, Ok (Some (tag, request))) =>
      match poll_call request (served e) with
      | (s', Ok call) => (mkExport s' r (responses e) (calls e ++ [(tag, call)]), Ok true)
      | (s', Err err) => (mkExport s' r (responses e) (calls e), Err err)
      | (s', Park) => (mkExport s' r (responses e) (calls e), Park)
      | (s', Panic) => (mkExport s' r (responses e) (calls e), Panic)
      end
  | (r, Ok None) => (mkExport (served e) r (responses e) (calls e), Ok false)
  | (r, Err err) => (mkExport (served e) r (responses e) (calls e), Err err)
  | (r, Park) => (mkExport (served e) r (responses e) (calls e), Park)
  | (r, Panic) => (mkExport (served e) r (responses e) (calls e), Panic)
  end.
(** The task of a call that is waiting is woken *)
Definition export_poll {S} `{FileServer S} (k : nat) : M (Export S) WireError unit := λ e,
  match calls e !! k with
  | Some (tag, Running request) =>
      match poll_call request (served e) with
      | (s', Ok call) => (mkExport s' (requests e) (responses e) (<[k := (tag, call)]> (calls e)), Ok tt)
      | (s', Err err) => (mkExport s' (requests e) (responses e) (calls e), Err err)
      | (s', Park) => (mkExport s' (requests e) (responses e) (calls e), Park)
      | (s', Panic) => (mkExport s' (requests e) (responses e) (calls e), Panic)
      end
  | _ => (e, Park)
  end.
(** [calls.join_next()] returns the call at [k] *)
Definition export_join {S} (k : nat) : M (Export S) WireError unit := λ e,
  match calls e !! k with
  | Some (tag, Completed r) =>
      let '(w, a) := write_tagged_response_frame tag r (responses e) in
      (mkExport (served e) (requests e) w (delete k (calls e)), a)
  | _ => (e, Park)
  end.
End codec.
