(* ===== verification/ApWireFacts.v ===== *)
(** * The aP byte transport: framing and the synchronous client

    Framing does not depend on how the stream delivers its bytes; a call over the
    wire is the in-process call; a client that lost a response never pairs a later
    one with the wrong call. *)
From S2P Require Import Prelude RustStd ApTypes ApServer ApReference ApWire.

(** ** Reading a line *)

Lemma consumed_no_newline b : newline ∉ b → consumed b = length b.
Proof.
  induction b as [|x b IH]; intros Hb; [done|]. simpl. rewrite bool_decide_false by set_solver.
  rewrite IH; set_solver.
Qed.
Lemma consumed_app a b :
  consumed (a ++ b) = if decide (newline ∈ a) then consumed a else (length a + consumed b)%nat.
Proof.
  induction a as [|x a IH]; [done|]. cbn [consumed app].
  case_bool_decide as Hx.
  - rewrite decide_True; [done|]. subst. by left.
  - rewrite IH. case_decide as Ha; [rewrite decide_True by (by right); done|].
    rewrite decide_False; [done|]. set_solver.
Qed.
Lemma consumed_le b : (consumed b ≤ length b)%nat.
Proof. induction b as [|x b IH]; simpl; [lia|]. case_bool_decide; lia. Qed.
Lemma consumed_last b : newline ∈ b → ∃ l, take (consumed b) b = l ++ [newline] ∧ newline ∉ l.
Proof.
  induction b as [|x b IH]; intros Hb; [by apply elem_of_nil in Hb|]. simpl.
  case_bool_decide as Hx; [exists []; subst; split; [done|apply not_elem_of_nil]|].
  destruct IH as (l & Hl & Hn); [set_solver|]. exists (x :: l). simpl. rewrite Hl. set_solver.
Qed.

(** The line a byte string starts with, as a reader with [frame] already read
    returns it. *)
Definition line_of (frame b : bytes) : result WireError (option bytes) :=
  if MAX_WIRE_FRAME_BYTES <? len frame + Z.of_nat (consumed b) then Err WFrameTooLarge
  else if decide (newline ∈ b) then Ok (Some (frame ++ take (consumed b) b))
  else if bool_decide (frame ++ b = []) then Ok None else Err WTruncatedFrame.

Lemma max_frame_small n : MAX_WIRE_FRAME_BYTES <? saturating_add64 n 0 = (MAX_WIRE_FRAME_BYTES <? n).
Proof.
  unfold saturating_add64. rewrite Z.add_0_r.
  assert (MAX_WIRE_FRAME_BYTES < usize_max) by done.
  destruct (Z.ltb_spec MAX_WIRE_FRAME_BYTES n), (Z.ltb_spec MAX_WIRE_FRAME_BYTES (Z.min n usize_max)); lia.
Qed.
Lemma max_frame_saturate a b :
  (MAX_WIRE_FRAME_BYTES <? saturating_add64 a b) = (MAX_WIRE_FRAME_BYTES <? a + b).
Proof. rewrite <-(max_frame_small (a + b)). unfold saturating_add64. f_equal. lia. Qed.

Lemma last_snoc_not_newline frame x b :
  newline ∉ x :: b → last (frame ++ x :: b) ≠ Some newline.
Proof.
  intros Hn Hl. rewrite last_app_cons in Hl. apply Hn. by apply last_Some_elem_of.
Qed.

Lemma read_line_go_spec frame cs :
  Forall (.≠ []) cs → newline ∉ frame → len frame ≤ MAX_WIRE_FRAME_BYTES →
  let '(r', res) := read_line_go frame (Chunk <$> cs) in
  res = line_of frame (List.concat cs) ∧
  match res with
  | Ok (Some f) => ∃ cs', r' = Chunk <$> cs' ∧ Forall (.≠ []) cs' ∧
                     frame ++ List.concat cs = f ++ List.concat cs'
  | _ => True
  end.
Proof.
  revert frame. induction cs as [|a cs IH]; intros frame Hcs Hf Hlen.
  { simpl. unfold line_of. simpl. rewrite Z.add_0_r, app_nil_r.
    rewrite (proj2 (Z.ltb_ge _ _)) by lia. by case_bool_decide. }
  apply Forall_cons in Hcs as [Ha Hcs]. destruct a as [|x a]; [done|]. clear Ha.
  rewrite fmap_cons. cbn [read_line_go List.concat]. set (a' := x :: a) in *.
  rewrite max_frame_saturate. unfold line_of. rewrite consumed_app.
  destruct (decide (newline ∈ a')) as [Hin|Hin].
  - rewrite (decide_True (P := newline ∈ a' ++ _)) by set_solver.
    destruct (Z.ltb_spec MAX_WIRE_FRAME_BYTES (len frame + Z.of_nat (consumed a'))); [done|].
    destruct (consumed_last a' Hin) as (l & Hl & _).
    rewrite Hl, bool_decide_true by (by rewrite app_assoc, last_snoc).
    split.
    + rewrite take_app_le by apply consumed_le. by rewrite Hl.
    + unfold after_consume. pose proof (take_drop (consumed a') a') as Htd. rewrite Hl in Htd.
      destruct (drop (consumed a') a') as [|y rest].
      * exists cs. split_and!; [done..|]. rewrite app_nil_r in Htd. by rewrite <-Htd, app_assoc.
      * exists ((y :: rest) :: cs). split_and!; [done|by constructor|].
        rewrite <-Htd, <-!app_assoc. done.
  - rewrite (consumed_no_newline a') by done.
    destruct (Z.ltb_spec MAX_WIRE_FRAME_BYTES (len frame + Z.of_nat (length a'))) as [Hbig|Hbig].
    { rewrite (proj2 (Z.ltb_lt _ _)) by lia. done. }
    rewrite take_ge by lia. rewrite bool_decide_false by (by apply last_snoc_not_newline).
    assert (len (frame ++ a') = len frame + Z.of_nat (length a')) as Hla by (by rewrite len_app).
    specialize (IH (frame ++ a') Hcs ltac:(set_solver) ltac:(lia)).
    destruct (read_line_go _ _) as [r' res]. destruct IH as [-> IH2]. split.
    + unfold line_of. rewrite Hla. rewrite Nat2Z.inj_add.
      replace (len frame + Z.of_nat (length a') + Z.of_nat (consumed (List.concat cs)))
        with (len frame + (Z.of_nat (length a') + Z.of_nat (consumed (List.concat cs)))) by lia.
      destruct (_ <? _); [done|]. destruct (decide (newline ∈ List.concat cs)) as [Hc|Hc].
      * rewrite decide_True by set_solver. do 2 f_equal. rewrite <-app_assoc. f_equal.
        by rewrite take_app_add.
      * rewrite decide_False by set_solver. by rewrite <-app_assoc.
    + destruct (line_of _ _) as [[f|]| | |]; try done.
      destruct IH2 as (cs' & ? & ? & Heq). exists cs'. split_and!; [done..|].
      by rewrite <-Heq, <-app_assoc.
Qed.

(** C35: Framing depends on the bytes of the stream only, never on the pieces they
    arrive in: the frame ends at the first line break; a frame over the limit is
    refused; a stream that ends inside a frame is an error and one that ends
    between frames is its regular end; what follows the frame stays for the next
    read. *)
Theorem framing_ignores_chunking (cs : list bytes) :
  Forall (.≠ []) cs →
  let '(r', res) := read_json_line (Chunk <$> cs) in
  res = line_of [] (List.concat cs) ∧
  match res with
  | Ok (Some f) =>
      len f ≤ MAX_WIRE_FRAME_BYTES ∧ (∃ l, f = l ++ [newline] ∧ newline ∉ l) ∧
      ∃ cs', r' = Chunk <$> cs' ∧ Forall (.≠ []) cs' ∧ List.concat cs = f ++ List.concat cs'
  | Ok None => cs = []
  | Err e => e = WFrameTooLarge ∨ e = WTruncatedFrame ∧ newline ∉ List.concat cs
  | _ => False
  end.
Proof.
  intros Hcs. pose proof (read_line_go_spec [] cs Hcs) as H. unfold read_json_line.
  destruct (read_line_go [] (Chunk <$> cs)) as [r' res].
  destruct H as [-> H]; [apply not_elem_of_nil|done|]. split; [done|]. unfold line_of in *.
  rewrite len_nil, Z.add_0_l in *.
  destruct (Z.ltb_spec MAX_WIRE_FRAME_BYTES (Z.of_nat (consumed (List.concat cs)))); [by left|].
  destruct (decide (newline ∈ List.concat cs)) as [Hin|Hin].
  - destruct H as (cs' & -> & Hc' & Heq). split_and!; [|by apply consumed_last|by exists cs'].
    simpl. unfold len. rewrite length_take. pose proof (consumed_le (List.concat cs)). lia.
  - rewrite app_nil_l. destruct (bool_decide_reflect (List.concat cs = [])) as [Hb|Hb]; [|by right].
    destruct cs as [|[|x c] cs]; [done| |done].
    by apply Forall_cons in Hcs as [? _].
Qed.

(** A line that is one frame *)
Lemma read_one_frame b cs :
  Forall (.≠ []) cs → newline ∉ b → List.concat cs = b ++ [newline] →
  len (b ++ [newline]) ≤ MAX_WIRE_FRAME_BYTES →
  read_json_line (Chunk <$> cs) = ([], Ok (Some (b ++ [newline]))).
Proof.
  intros Hcs Hb Heq Hlen. pose proof (read_line_go_spec [] cs Hcs) as H. unfold read_json_line.
  destruct (read_line_go [] (Chunk <$> cs)) as [r' res].
  destruct H as [Hres H]; [apply not_elem_of_nil|done|]. rewrite Heq in *.
  assert (consumed (b ++ [newline]) = length (b ++ [newline])) as Hc.
  { rewrite consumed_app, decide_False by done. by rewrite length_app. }
  unfold line_of in Hres. rewrite Hc, len_nil, Z.add_0_l in Hres. unfold len in Hlen.
  rewrite (proj2 (Z.ltb_ge _ _)) in Hres by lia.
  rewrite decide_True in Hres by set_solver. rewrite take_ge in Hres by lia. subst res. simpl in *.
  destruct H as (cs' & -> & Hc' & Heq').
  assert (List.concat cs' = []) as Hn.
  { apply (f_equal length) in Heq'. rewrite !length_app in Heq'. apply nil_length_inv. lia. }
  destruct cs' as [|[|x c] cs']; [done| |done]. by apply Forall_cons in Hc' as [? _].
Qed.

Section wire.
Context {C : WireCodec} {CL : WireCodecLaws C}.

Lemma request_frame_reads tag request cs :
  encode_tagged_request_frame tag request = Ok (List.concat cs) → Forall (.≠ []) cs →
  len (List.concat cs) ≤ MAX_WIRE_FRAME_BYTES →
  read_tagged_request_frame (Chunk <$> cs) = ([], Ok (Some (tag, request))).
Proof.
  unfold encode_tagged_request_frame. intros He Hcs Hlen.
  destruct (request_to_vec _) as [b|] eqn:Hb; [|done]. injection He as He.
  destruct (request_round_trip _ _ Hb) as [Hd Hn].
  unfold read_tagged_request_frame, mbind, m_bind. rewrite (read_one_frame b cs); [|done..|congruence].
  unfold decode_tagged_request_frame, mresult. by rewrite Hd.
Qed.
Lemma response_frame_reads tag r cs :
  encode_tagged_response_frame tag r = Ok (List.concat cs) → Forall (.≠ []) cs →
  len (List.concat cs) ≤ MAX_WIRE_FRAME_BYTES →
  read_tagged_response_frame (Chunk <$> cs) = ([], Ok (Some (tag, r))).
Proof.
  unfold encode_tagged_response_frame. intros He Hcs Hlen.
  destruct (response_to_vec _) as [b|] eqn:Hb; [|done]. injection He as He.
  destruct (response_round_trip _ _ Hb) as [Hd Hn].
  unfold read_tagged_response_frame, mbind, m_bind. rewrite (read_one_frame b cs); [|done..|congruence].
  unfold decode_tagged_response_frame, mresult. rewrite Hd. by destruct r.
Qed.

(** A completed call as the result the wire carries *)
Definition completed (res : result ErrorCode Response) : option CallResult :=
  match res with Ok response => Some (inl response) | Err code => Some (inr code) | _ => None end.

Lemma write_all_fits data w :
  len data ≤ capacity w → write_all data w = (mkWriter (written w ++ data) (capacity w - len data), Ok tt).
Proof. intros H. unfold write_all. by rewrite (proj2 (Z.leb_le _ _)). Qed.

(** C34: a call over the wire is the call in process. When the call completes, the two
    frames fit the frame limit and the writers take them, then however the streams cut them into
    pieces the exporting side runs the request on the server exactly once and
    ends in the state of the in-process call, and the client returns the result
    of the in-process call and is ready for the next one. *)
Theorem wire_call_is_in_process {S} `{FileServer S} (request : Request) (s s' : S)
    (res : result ErrorCode Response) (out : CallResult) (c : WireTransportClient) (w : Writer)
    (up down : list bytes) :
  transport_call request s = (s', res) → completed res = Some out → in_flight c = false →
  encode_tagged_request_frame (next_tag c) request = Ok (List.concat up) → Forall (.≠ []) up →
  len (List.concat up) ≤ MAX_WIRE_FRAME_BYTES → len (List.concat up) ≤ capacity (writer c) →
  encode_tagged_response_frame (next_tag c) out = Ok (List.concat down) → Forall (.≠ []) down →
  len (List.concat down) ≤ MAX_WIRE_FRAME_BYTES → len (List.concat down) ≤ capacity w →
  reader c = Chunk <$> down →
  let '(e, served_ok) := (export_recv;; export_join 0) (mkExport s (Chunk <$> up) w []) in
  let '(c', r) := client_call request c in
  served_ok = Ok tt ∧ served e = s' ∧ calls e = [] ∧ requests e = [] ∧
  written (responses e) = written w ++ List.concat down ∧
  r = res ∧ in_flight c' = false ∧ reader c' = [] ∧ next_tag c' = following_tag (next_tag c) ∧
  written (writer c') = written (writer c) ++ List.concat up.
Proof.
  intros Hcall Hout Hfl Hup Hcu Hlu Hcap Hdown Hcd Hld Hcapw Hrd.
  assert ((export_recv;; export_join 0) (mkExport s (Chunk <$> up) w []) =
    (mkExport s' [] (mkWriter (written w ++ List.concat down) (capacity w - len (List.concat down))) [],
     Ok tt)) as ->.
  { unfold mbind, m_bind, export_recv. cbn [requests served responses calls].
    rewrite (request_frame_reads _ _ _ Hup Hcu Hlu). unfold poll_call. rewrite Hcall.
    destruct res; simplify_eq/=; unfold export_join; simpl;
      unfold write_tagged_response_frame, mbind, m_bind, mresult;
      rewrite Hdown, write_all_fits by done; done. }
  assert (call_result request c =
    (mkClient [] (mkWriter (written (writer c) ++ List.concat up)
                    (capacity (writer c) - len (List.concat up))) false (following_tag (next_tag c)),
     Ok out)) as Hc.
  { unfold call_result. rewrite Hfl. unfold call_result_in_flight, send_request, receive_response.
    mrun. unfold on_writer. cbn [set_in_flight next_tag writer].
    unfold write_tagged_request_frame. mrun. rewrite Hup, write_all_fits by done.
    unfold on_reader. cbn [reader set_in_flight]. rewrite Hrd, (response_frame_reads _ _ _ Hdown Hcd Hld).
    by rewrite bool_decide_false by auto. }
  unfold client_call. rewrite Hc. destruct res; simplify_eq/=; done.
Qed.

(** A client whose call failed in the transport, or was abandoned before its
    response arrived, is never used again: every later call is refused at once,
    without writing a byte, so no later response can be taken for another
    call's. A response is accepted only under the tag of its request. *)
Theorem failed_client_is_refused (request : Request) (c c' : WireTransportClient)
    (r : result WireError CallResult) :
  call_result request c = (c', r) →
  match r with
  | Ok out => ∃ rd rd', read_tagged_response_frame rd = (rd', Ok (Some (next_tag c, out))) ∧
                in_flight c' = false
  | _ => ∀ request', call_result request' c' = (c', Err WUnsynchronized)
  end.
Proof.
  unfold call_result. destruct (in_flight c) eqn:Hf.
  { intros [= <- <-] request'. by rewrite Hf. }
  destruct (call_result_in_flight _ _) as [c1 r1] eqn:Hc. intros [= <- <-].
  assert (in_flight c1 = true ∧ ∀ out, r1 = Ok out →
    ∃ rd rd', read_tagged_response_frame rd = (rd', Ok (Some (next_tag c, out)))) as [H1 H2].
  { revert Hc. unfold call_result_in_flight, send_request, receive_response. mrun.
    unfold on_writer. cbn [set_in_flight next_tag writer reader in_flight].
    destruct (write_tagged_request_frame _ _ _) as [w1 rw]; destruct rw;
      try (by intros [= <- <-]). unfold on_reader. cbn [reader].
    destruct (read_tagged_response_frame _) as [rd1 rr] eqn:Hr.
    destruct rr as [[[t out]|]| | |]; try (by intros [= <- <-]).
    case_bool_decide as Ht; intros [= <- <-]; [done|]. split; [done|].
    intros out' [= <-]. assert (t = next_tag c) as -> by (destruct (decide (t = next_tag c)); [done|by destruct Ht]). by eexists _, _. }
  destruct r1 as [out| | |]; simpl; try (intros request'; by rewrite H1).
  destruct (H2 out eq_refl) as (rd & rd' & Hr). by exists rd, rd'.
Qed.
End wire.

(** ** A codec that keeps the laws

    Frames as numbers, printed in binary. *)
Global Instance byte_countable : Countable byte :=
  inj_countable Byte.to_N Byte.of_N Byte.of_to_N.
Global Instance FileKind_countable : Countable FileKind :=
  inj_countable' (λ k, match k with Dir => 0 | File => 1 | StreamKind => 2 | Clone => 3 end%N)
    (λ n, match n with 0 => Dir | 1 => File | 2 => StreamKind | _ => Clone end%N)
    (λ k, match k with Dir | File | StreamKind | Clone => eq_refl end).
Global Instance OpenMode_countable : Countable OpenMode :=
  inj_countable' (λ k, match k with Read => 0 | Write => 1 | ReadWrite => 2 end%N)
    (λ n, match n with 0 => Read | 1 => Write | _ => ReadWrite end%N)
    (λ k, match k with Read | Write | ReadWrite => eq_refl end).
Global Instance ErrorCode_countable : Countable ErrorCode :=
  inj_countable'
    (λ k, match k with NotFound => 0 | NoAccess => 1 | RateLimited => 2 | BadRequest => 3
          | NotDirectory => 4 | IsDirectory => 5 | Unsupported => 6 | Io => 7 end%N)
    (λ n, match n with 0 => NotFound | 1 => NoAccess | 2 => RateLimited | 3 => BadRequest
          | 4 => NotDirectory | 5 => IsDirectory | 6 => Unsupported | _ => Io end%N)
    (λ k, match k with NotFound | NoAccess | RateLimited | BadRequest | NotDirectory
          | IsDirectory | Unsupported | Io => eq_refl end).
Global Instance Qid_countable : Countable Qid :=
  inj_countable' (λ q, (kind q, version q, path q)) (λ '(k, v, p), mkQid k v p)
    (λ q, match q with mkQid _ _ _ => eq_refl end).
Global Instance Stat_countable : Countable Stat :=
  inj_countable' (λ s, (stat_name s, stat_qid s, stat_length s, executable s, writable s))
    (λ '(n, q, l, e, w), mkStat n q l e w) (λ s, match s with mkStat _ _ _ _ _ => eq_refl end).
Global Instance Request_countable : Countable Request.
Proof.
  refine (inj_countable'
    (λ r, match r with
          | WalkReq f n l => inl (inl (inl (f, n, l)))
          | OpenReq f m => inl (inl (inr (f, m)))
          | ReadReq f o n => inl (inr (inl (f, o, n)))
          | WriteReq f o d => inl (inr (inr (f, o, d)))
          | StatReq f => inr (inl (inl f))
          | CreateReq f n s k => inr (inl (inr (f, n, s, k)))
          | RemoveReq f => inr (inr (inl f))
          | ClunkReq f => inr (inr (inr f))
          end)
    (λ c, match c with
          | inl (inl (inl (f, n, l))) => WalkReq f n l
          | inl (inl (inr (f, m))) => OpenReq f m
          | inl (inr (inl (f, o, n))) => ReadReq f o n
          | inl (inr (inr (f, o, d))) => WriteReq f o d
          | inr (inl (inl f)) => StatReq f
          | inr (inl (inr (f, n, s, k))) => CreateReq f n s k
          | inr (inr (inl f)) => RemoveReq f
          | inr (inr (inr f)) => ClunkReq f
          end) _). by intros [].
Defined.
Global Instance Response_countable : Countable Response.
Proof.
  refine (inj_countable'
    (λ r, match r with
          | WalkResp q => inl (inl (inl q)) | OpenResp q => inl (inl (inr q))
          | ReadResp d => inl (inr (inl d)) | WriteResp n => inl (inr (inr n))
          | StatResp s => inr (inl (inl s)) | CreateResp q => inr (inl (inr q))
          | RemoveResp => inr (inr true) | ClunkResp => inr (inr false)
          end)
    (λ c, match c with
          | inl (inl (inl q)) => WalkResp q | inl (inl (inr q)) => OpenResp q
          | inl (inr (inl d)) => ReadResp d | inl (inr (inr n)) => WriteResp n
          | inr (inl (inl s)) => StatResp s | inr (inl (inr q)) => CreateResp q
          | inr (inr true) => RemoveResp | inr (inr false) => ClunkResp
          end) _). by intros [].
Defined.

Fixpoint binary (p : positive) : bytes :=
  match p with xH => [] | xO p' => x30 :: binary p' | xI p' => x31 :: binary p' end.
Fixpoint of_binary (b : bytes) : positive :=
  match b with x30 :: b' => xO (of_binary b') | x31 :: b' => xI (of_binary b') | _ => xH end.
Lemma of_binary_binary p : of_binary (binary p ++ [newline]) = p ∧ newline ∉ binary p.
Proof.
  induction p as [p [IH1 IH2]|p [IH1 IH2]|]; simpl; rewrite ?IH1; split; try done;
    try (intros Hin; apply elem_of_cons in Hin as [Hin|Hin]; [done|done]).
  apply not_elem_of_nil.
Qed.

Definition binary_codec : WireCodec := {|
  request_to_vec f := Some (binary (encode (frame_tag f, frame_request f)));
  request_from_slice b :=
    (λ '(tag, r), mkRequestFrame tag r) <$> decode (A := Z * Request) (of_binary b);
  response_to_vec f := Some (binary (encode (into_result f)));
  response_from_slice b :=
    (λ '(tag, r), from_result tag r) <$> decode (A := Z * CallResult) (of_binary b) |}.
Lemma binary_codec_laws : WireCodecLaws binary_codec.
Proof.
  split; simpl.
  - by eexists.
  - by eexists.
  - intros [tag r] b [= <-]. destruct (of_binary_binary (encode (tag, r))) as [-> Hn].
    split; [|done]. by rewrite decode_encode.
  - intros f b [= <-]. destruct (of_binary_binary (encode (into_result f))) as [-> Hn].
    split; [|done]. rewrite decode_encode. by destruct f.
Qed.

(** ** Concrete connections *)

Lemma framing_ignores_chunking_witness :
  ∃ r', read_json_line [Chunk [x61]; Chunk [x62; newline; x63]] = (r', Ok (Some [x61; x62; newline])).
Proof.
  assert (Forall (.≠ []) [[x61]; [x62; newline; x63]]) as Hne
    by (apply Forall_cons; split; [done|by apply Forall_singleton]).
  pose proof (framing_ignores_chunking _ Hne) as H.
  change (Chunk <$> [[x61]; [x62; newline; x63]])
    with [Chunk [x61]; Chunk [x62; newline; x63]] in H.
  destruct (read_json_line _) as [r' res]. exists r'. destruct H as [-> _]. reflexivity.
Defined.

(** A stat of the root of a reference server, request and response in two pieces *)
Lemma wire_call_is_in_process_witness :
  let C := binary_codec in
  let FS := ApReference.MemFs_FileServer (λ _, true) in
  let request := StatReq ROOT in
  let in_process := transport_call request ApReference.new in
  ∃ up down e c r,
    (export_recv;; export_join 0) (mkExport ApReference.new (Chunk <$> up) (mkWriter [] 5000) [])
    = (e, Ok tt) ∧
    client_call request (client_new (Chunk <$> down) (mkWriter [] 5000)) = (c, r) ∧
    r = in_process.2 ∧ served e = in_process.1 ∧ in_flight c = false ∧ length up = 2%nat.
Proof.
  set (C := binary_codec). set (FS := ApReference.MemFs_FileServer (λ _, true)).
  intros ? ? request in_process.
  destruct in_process as [s' res] eqn:Hcall.
  destruct (completed res) as [out|] eqn:Hout;
    [|exfalso; apply (f_equal snd) in Hcall; vm_compute in Hcall; subst res; discriminate].
  destruct (encode_tagged_request_frame 1 request) as [up| | |] eqn:Hup; try (vm_compute in Hup; discriminate).
  destruct (encode_tagged_response_frame 1 out) as [down| | |] eqn:Hdown; try (simpl in Hdown; discriminate).
  assert (len up ≤ 5000 ∧ (3 ≤ length up)%nat) as [Hu1 Hu2].
  { vm_compute in Hup. injection Hup as <-. split; vm_compute; [congruence|lia]. }
  assert (len down ≤ 5000 ∧ (3 ≤ length down)%nat) as [Hd1 Hd2].
  { apply (f_equal snd) in Hcall. vm_compute in Hcall. subst res. injection Hout as <-.
    vm_compute in Hdown. injection Hdown as <-. split; vm_compute; [congruence|lia]. }
  exists [take 2 up; drop 2 up], [take 2 down; drop 2 down].
  assert (∀ b : bytes, (3 ≤ length b)%nat →
    List.concat [take 2 b; drop 2 b] = b ∧ Forall (.≠ []) [take 2 b; drop 2 b]) as Hsplit.
  { intros b Hb. destruct b as [|? [|? [|? b]]]; simpl in Hb; try lia.
    split; [simpl; by rewrite app_nil_r|]. repeat (apply Forall_cons; split; [done|]). constructor. }
  destruct (Hsplit up Hu2) as [Eu Fu], (Hsplit down Hd2) as [Ed Fd].
  assert (5000 ≤ MAX_WIRE_FRAME_BYTES) as Hmax by (vm_compute; congruence).
  rewrite <-Eu in Hup. rewrite <-Ed in Hdown.
  pose proof (@wire_call_is_in_process C binary_codec_laws _ FS request ApReference.new s' res out
    (client_new (Chunk <$> [take 2 down; drop 2 down]) (mkWriter [] 5000)) (mkWriter [] 5000)
    [take 2 up; drop 2 up] [take 2 down; drop 2 down] Hcall Hout eq_refl Hup Fu
    ltac:(rewrite Eu; lia) ltac:(rewrite Eu; simpl; lia) Hdown Fd
    ltac:(rewrite Ed; lia) ltac:(rewrite Ed; simpl; lia) eq_refl) as H.
  destruct ((export_recv;; export_join 0) _) as [e ok]. destruct (client_call _ _) as [c r].
  exists e, c, r. destruct H as (-> & Hs & _ & _ & _ & Hr & Hf & _). by split_and!.
Defined.

(** The response carries the tag of another call *)
Lemma failed_client_is_refused_witness :
  let C := binary_codec in
  let stray := match encode_tagged_response_frame 9 (inl ClunkResp) with Ok b => b | _ => [] end in
  let c := (call_result (StatReq 3) (client_new [Chunk stray] (mkWriter [] 5000))).1 in
  call_result (ClunkReq 3) c = (c, Err WUnsynchronized).
Proof.
  set (C := binary_codec). intros ? stray c.
  destruct (call_result (StatReq 3) (client_new [Chunk stray] (mkWriter [] 5000))) as [c' r] eqn:E.
  assert (r = Err WUnsynchronized) as Hr by (apply (f_equal snd) in E; vm_compute in E; by subst).
  pose proof (@failed_client_is_refused C _ _ _ _ E) as H. rewrite Hr in H.
  exact (H (ClunkReq 3)).
Defined.
