(* ===== verification/ApImported.v ===== *)
(** * Multiplexed calls of an imported server (crates/ap/src/server.rs:
      ImportedFileServer::remote_call, route_imported_responses and their guards)

    Many calls share one connection. Each registers a response channel under its
    tag, writes its frame under the writer lock and waits; a router task pairs
    response frames with the waiting calls. The model is a transition system: one
    action per atomic step of a call (between two accesses of shared state) and of
    the router, in any interleaving. *)
From S2P Require Import Prelude RustStd ApTypes ApServer ApWire.

(** The state of a call's [oneshot] channel: its sender is registered, a result was
    sent, or the sender was dropped without one. *)
Inductive Chan : Type := COpen | CSent (r : CallResult) | CDropped.

(** Where a [remote_call] is *)
Inductive Phase : Type :=
  | PStart                              (* before the first test of [closed] *)
  | PAdmitted                           (* the test passed *)
  | PTagged (tag : WireTag)             (* a tag was taken *)
  | PQueued (tag : WireTag)             (* registered; waits for the writer *)
  | PLocked (tag : WireTag)             (* holds the writer *)
  | PWriting (tag : WireTag)            (* writes its frame *)
  | PClosing (tag : WireTag) (e : option ErrorCode)
      (* the write guard of a failed ([Some]) or cancelled ([None]) write has
         stored [closed] and will drain the channels *)
  | PWaiting (tag : WireTag)            (* awaits its channel *)
  | PFinished (r : CallResult)
  | PCancelled.

Record Call : Type := mkCall { phase : Phase; chan : Chan }.

(** [route_imported_responses]: reading frames, ended with [closed] stored, ended *)
Inductive Router : Set := RRunning | RClosing | RDone.

Record Conn : Type := mkConn {
  closed : bool;
  pending : gmap WireTag nat;
  conn_next_tag : WireTag;
  writer_lock : option nat;
  conn_calls : list Call;
  router : Router;
}.
(** [ImportedFileServer::new] *)
Definition conn_new : Conn := mkConn false ∅ 1 None [] RRunning.

(** ** Shared state *)

Definition set_phase (i : nat) (p : Phase) (calls : list Call) : list Call :=
  alter (λ c, mkCall p (chan c)) i calls.
Definition set_chan (i : nat) (ch : Chan) (calls : list Call) : list Call :=
  alter (λ c, mkCall (phase c) ch) i calls.
(** The sender registered under [tag] goes away *)
Definition drop_sender (tag : WireTag) (ch : Chan) (c : Conn) : Conn :=
  match pending c !! tag with
  | Some j => mkConn (closed c) (delete tag (pending c)) (conn_next_tag c) (writer_lock c)
                (set_chan j ch (conn_calls c)) (router c)
  | None => c
  end.
Definition put_phase (i : nat) (p : Phase) (c : Conn) : Conn :=
  mkConn (closed c) (pending c) (conn_next_tag c) (writer_lock c) (set_phase i p (conn_calls c))
    (router c).
Definition put_lock (l : option nat) (c : Conn) : Conn :=
  mkConn (closed c) (pending c) (conn_next_tag c) l (conn_calls c) (router c).

(** [Drop for PendingResponseGuard] as the call ends *)
Definition finish (i : nat) (tag : WireTag) (p : Phase) (c : Conn) : Conn :=
  put_phase i p (drop_sender tag CDropped c).

(** [close_imported_connection] in its two steps: the flag, then every channel *)
Definition store_closed (c : Conn) : Conn :=
  mkConn true (pending c) (conn_next_tag c) (writer_lock c) (conn_calls c) (router c).
Definition drain_pending (c : Conn) : Conn :=
  let settle j call :=
    if bool_decide (Exists (λ kv, kv.2 = j) (map_to_list (pending c)))
    then mkCall (phase call) (CSent (inr Io)) else call in
  mkConn (closed c) ∅ (conn_next_tag c) (writer_lock c) (imap settle (conn_calls c)) (router c).

(** ** The steps of a call *)

(** [if self.closed.load(..) { return Err(Io) }] *)
Definition call_check (i : nat) (c : Conn) : option Conn :=
  match phase <$> conn_calls c !! i with
  | Some PStart => Some (put_phase i (if closed c then PFinished (inr Io) else PAdmitted) c)
  | _ => None
  end.
(** [self.next_tag.fetch_add(1)] *)
Definition call_tag (i : nat) (c : Conn) : option Conn :=
  match phase <$> conn_calls c !! i with
  | Some PAdmitted =>
      Some (mkConn (closed c) (pending c) (wrapping_add64 (conn_next_tag c) 1) (writer_lock c)
              (set_phase i (PTagged (conn_next_tag c)) (conn_calls c)) (router c))
  | _ => None
  end.
(** [pending.insert(tag, result_tx)]: a sender already there is dropped *)
Definition call_insert (i : nat) (c : Conn) : option Conn :=
  match phase <$> conn_calls c !! i with
  | Some (PTagged tag) =>
      let c := drop_sender tag CDropped c in
      Some (mkConn (closed c) (<[tag := i]> (pending c)) (conn_next_tag c) (writer_lock c)
              (set_chan i COpen (set_phase i (PQueued tag) (conn_calls c))) (router c))
  | _ => None
  end.
(** [self.writer.lock().await] *)
Definition call_lock (i : nat) (c : Conn) : option Conn :=
  match phase <$> conn_calls c !! i, writer_lock c with
  | Some (PQueued tag), None => Some (put_lock (Some i) (put_phase i (PLocked tag) c))
  | _, _ => None
  end.
(** The second test of [closed], under the lock *)
Definition call_recheck (i : nat) (c : Conn) : option Conn :=
  match phase <$> conn_calls c !! i with
  | Some (PLocked tag) =>
      if closed c
      then Some (finish i tag (PFinished (inr (to_error_code WClosed))) (put_lock None c))
      else Some (put_phase i (PWriting tag) c)
  | _ => None
  end.
(** [write_tagged_request_frame] returns; on an error the guard starts to close *)
Definition call_written (i : nat) (res : option WireError) (c : Conn) : option Conn :=
  match phase <$> conn_calls c !! i with
  | Some (PWriting tag) =>
      match res with
      | None => Some (put_lock None (put_phase i (PWaiting tag) c))
      | Some e => Some (store_closed (put_phase i (PClosing tag (Some (to_error_code e))) c))
      end
  | _ => None
  end.
(** The guard drains the channels, the lock is released and the call returns *)
Definition call_drain (i : nat) (c : Conn) : option Conn :=
  match phase <$> conn_calls c !! i with
  | Some (PClosing tag e) =>
      let p := match e with Some code => PFinished (inr code) | None => PCancelled end in
      Some (finish i tag p (put_lock None (drain_pending c)))
  | _ => None
  end.
(** [result_rx.await.map_err(|_| Io)?] *)
Definition call_receive (i : nat) (c : Conn) : option Conn :=
  match conn_calls c !! i with
  | Some (mkCall (PWaiting tag) (CSent r)) => Some (finish i tag (PFinished r) c)
  | Some (mkCall (PWaiting tag) CDropped) => Some (finish i tag (PFinished (inr Io)) c)
  | _ => None
  end.
(** The future of the call is dropped at an await point: at the lock, in the write
    or at the channel *)
Definition call_cancel (i : nat) (c : Conn) : option Conn :=
  match phase <$> conn_calls c !! i with
  | Some (PQueued tag) | Some (PWaiting tag) => Some (finish i tag PCancelled c)
  | Some (PWriting tag) => Some (store_closed (put_phase i (PClosing tag None) c))
  | _ => None
  end.

(** ** The router *)

(** A response frame: the channel registered under its tag gets the result *)
Definition route (tag : WireTag) (r : CallResult) (c : Conn) : option Conn :=
  match router c with
  | RRunning => Some (drop_sender tag (CSent r) c)
  | _ => None
  end.
Definition put_router (r : Router) (c : Conn) : Conn :=
  mkConn (closed c) (pending c) (conn_next_tag c) (writer_lock c) (conn_calls c) r.
(** The stream ended or a frame could not be read *)
Definition router_end (c : Conn) : option Conn :=
  match router c with
  | RRunning => Some (put_router RClosing (store_closed c))
  | _ => None
  end.
Definition router_drain (c : Conn) : option Conn :=
  match router c with
  | RClosing => Some (put_router RDone (drain_pending c))
  | _ => None
  end.

(** A new call *)
Definition call_start (c : Conn) : Conn :=
  mkConn (closed c) (pending c) (conn_next_tag c) (writer_lock c)
    (conn_calls c ++ [mkCall PStart COpen]) (router c).

(** ** The transition system *)

(** The steps of the calls that are there and the end of the router *)
Inductive Action : Type :=
  | ACheck (i : nat) | ATag (i : nat) | AInsert (i : nat) | ALock (i : nat) | ARecheck (i : nat)
  | AWritten (i : nat) (res : option WireError) | ADrain (i : nat) | AReceive (i : nat)
  | ACancel (i : nat) | ARouterDrain.
Definition act (a : Action) (c : Conn) : option Conn :=
  match a with
  | ACheck i => call_check i c | ATag i => call_tag i c | AInsert i => call_insert i c
  | ALock i => call_lock i c | ARecheck i => call_recheck i c
  | AWritten i res => call_written i res c | ADrain i => call_drain i c
  | AReceive i => call_receive i c | ACancel i => call_cancel i c
  | ARouterDrain => router_drain c
  end.
Inductive conn_step (c : Conn) : Conn → Prop :=
  | step_start : conn_step c (call_start c)
  | step_act a c' : act a c = Some c' → conn_step c c'
  | step_route tag r c' : route tag r c = Some c' → conn_step c c'
  | step_end c' : router_end c = Some c' → conn_step c c'.
Definition conn_reachable (c : Conn) : Prop := rtc conn_step conn_new c.

Definition call_over (call : Call) : Prop :=
  match phase call with PFinished _ | PCancelled => True | _ => False end.
Global Instance call_over_dec call : Decision (call_over call).
Proof. unfold call_over. destruct (phase call); apply _. Defined.
(** Whatever the interleaving, the steps of the calls end in a state with [P]. *)
Inductive inevitably (P : Conn → Prop) (c : Conn) : Prop :=
  | inev_now : P c → inevitably P c
  | inev_later : (∃ a c', act a c = Some c') →
      (∀ a c', act a c = Some c' → inevitably P c') → inevitably P c.
