(* ===== verification/ApImportedFacts.v ===== *)
(** * Multiplexed calls: no response is lost and no call waits for ever

    The invariant ties the registered channels to the calls that wait on them. From
    it: a response frame reaches exactly the call that sent its tag, and once the
    stream of responses has ended every call returns, in every interleaving. *)
From S2P Require Import Prelude RustStd ApTypes ApServer ApWire ApImported.

(** ** Calls and their phases *)

(** The tag a call is registered under *)
Definition tag_of (p : Phase) : option WireTag :=
  match p with
  | PQueued t | PLocked t | PWriting t | PClosing t _ | PWaiting t => Some t
  | _ => None
  end.
Definition holds_lock (p : Phase) : bool :=
  match p with PLocked _ | PWriting _ | PClosing _ _ => true | _ => false end.
(** The frame is being or has been written *)
Definition on_wire (p : Phase) : bool :=
  match p with PWriting _ | PWaiting _ => true | _ => false end.
Definition closing (p : Phase) : bool := match p with PClosing _ _ => true | _ => false end.

Lemma lookup_alter_inv {A} (f : A → A) i (l : list A) j y :
  alter f i l !! j = Some y →
  ∃ x, l !! j = Some x ∧ ((i = j ∧ y = f x) ∨ (i ≠ j ∧ y = x)).
Proof.
  destruct (decide (i = j)) as [->|Hij].
  - rewrite list_lookup_alter_eq. intros (x & Hx & ->)%fmap_Some. eauto.
  - rewrite list_lookup_alter_ne by done. eauto.
Qed.

(** ** The invariant *)

Record reg_ok (c : Conn) : Prop := {
  (** a registered sender belongs to a call with that tag and an open channel *)
  reg_call t j : pending c !! t = Some j →
    ∃ call, conn_calls c !! j = Some call ∧ tag_of (phase call) = Some t ∧ chan call = COpen;
  (** and an open channel of a registered call has its sender registered *)
  open_reg j call t : conn_calls c !! j = Some call → tag_of (phase call) = Some t →
    chan call = COpen → pending c !! t = Some j;
}.
Definition phases (c : Conn) : list Phase := phase <$> conn_calls c.
(** the writer is held by exactly the call that is between lock and release *)
Definition lock_ok (c : Conn) : Prop :=
  ∀ i, writer_lock c = Some i ↔ ∃ p, phases c !! i = Some p ∧ holds_lock p = true.
Record close_ok (c : Conn) : Prop := {
  router_closed : router c ≠ RRunning → closed c = true;
  closing_closed j call : conn_calls c !! j = Some call → closing (phase call) = true → closed c = true;
  (** once closed and drained, no call whose frame went out has an open channel *)
  closed_settled : closed c = true → router c ≠ RClosing →
    (∀ j call, conn_calls c !! j = Some call → closing (phase call) = false) →
    ∀ j call, conn_calls c !! j = Some call → on_wire (phase call) = true → chan call ≠ COpen;
}.
Record conn_inv (c : Conn) : Prop := {
  inv_reg : reg_ok c; inv_lock : lock_ok c; inv_close : close_ok c }.

(** A call that leaves a phase for one with the same tag *)
Lemma reg_put_phase i p c call :
  conn_calls c !! i = Some call → reg_ok c →
  tag_of p = tag_of (phase call) ∨ (tag_of p = None ∧ (tag_of (phase call) = None ∨ chan call ≠ COpen)) →
  reg_ok (put_phase i p c).
Proof.
  intros Hi Hr Hp. split; simpl; unfold set_phase.
  - intros t j Hj. destruct (reg_call _ Hr t j Hj) as (cj & Hcj & Ht & Ho).
    destruct (decide (i = j)) as [->|Hij].
    + assert (call = cj) as -> by congruence. rewrite list_lookup_alter_eq, Hcj. simpl.
      eexists. split; [done|]. simpl. destruct Hp as [->|[? [?|?]]]; [done|congruence|done].
    + rewrite list_lookup_alter_ne by done. eauto.
  - intros j cj t (x & Hx & [[-> ->]|[_ ->]])%lookup_alter_inv Ht Ho; simpl in *.
    + assert (call = x) as -> by congruence. eapply open_reg; [done|done| |done].
      destruct Hp as [<-|[? _]]; congruence.
    + by eapply open_reg.
Qed.

Lemma reg_drop_sender t ch c : ch ≠ COpen → reg_ok c → reg_ok (drop_sender t ch c).
Proof.
  intros Hch Hr. unfold drop_sender. destruct (pending c !! t) as [i|] eqn:Ht; [|done].
  destruct (reg_call _ Hr t i Ht) as (ci & Hci & Hti & Hoi). split; simpl; unfold set_chan.
  - intros t' j [Hne Hj]%lookup_delete_Some. destruct (reg_call _ Hr t' j Hj) as (cj & Hcj & Htj & Hoj).
    exists cj. split; [|done]. rewrite list_lookup_alter_ne; [done|]. intros ->. congruence.
  - intros j cj t' (x & Hx & [[-> ->]|[Hij ->]])%lookup_alter_inv Htj Hoj; simpl in *; [done|].
    apply lookup_delete_Some. split; [|by eapply open_reg].
    intros ->. assert (pending c !! t' = Some j) by (by eapply open_reg). congruence.
Qed.

(** After the sender of its tag is gone a call's channel is not open. *)
Lemma drop_sender_settles i t ch c call :
  ch ≠ COpen → reg_ok c → conn_calls c !! i = Some call → tag_of (phase call) = Some t →
  ∃ call', conn_calls (drop_sender t ch c) !! i = Some call' ∧ phase call' = phase call ∧
    chan call' ≠ COpen.
Proof.
  intros Hch Hr Hi Ht. unfold drop_sender.
  destruct (pending c !! t) as [j|] eqn:Hj.
  - simpl. unfold set_chan. destruct (decide (j = i)) as [->|Hji].
    + rewrite list_lookup_alter_eq, Hi. simpl. eexists. split; [done|]. by split.
    + rewrite list_lookup_alter_ne by done. exists call. split_and!; [done..|].
      intros Ho. assert (pending c !! t = Some i) by (by eapply open_reg). congruence.
  - exists call. split_and!; [done..|]. intros Ho.
    assert (pending c !! t = Some i) by (by eapply open_reg). congruence.
Qed.
Lemma drop_sender_calls t ch c j call' :
  conn_calls (drop_sender t ch c) !! j = Some call' →
  ∃ call, conn_calls c !! j = Some call ∧ phase call' = phase call ∧
    (chan call' = chan call ∨ chan call' = ch).
Proof.
  unfold drop_sender. destruct (pending c !! t) as [i|]; [|eauto].
  simpl. intros (x & Hx & [[-> ->]|[_ ->]])%lookup_alter_inv; eauto.
Qed.
Lemma drop_sender_frame t ch c :
  closed (drop_sender t ch c) = closed c ∧ writer_lock (drop_sender t ch c) = writer_lock c ∧
  router (drop_sender t ch c) = router c.
Proof. unfold drop_sender. by destruct (pending c !! t). Qed.

Lemma reg_finish i t p c call :
  conn_calls c !! i = Some call → tag_of (phase call) = Some t → tag_of p = None →
  reg_ok c → reg_ok (finish i t p c).
Proof.
  intros Hi Ht Hp Hr. unfold finish.
  destruct (drop_sender_settles i t CDropped c call) as (c' & Hc' & Hph & Hch); [done..|].
  eapply reg_put_phase; [exact Hc'|by apply reg_drop_sender|]. right. split; [done|]. by right.
Qed.

Lemma drain_calls c j call' :
  conn_calls (drain_pending c) !! j = Some call' →
  ∃ call, conn_calls c !! j = Some call ∧ phase call' = phase call ∧
    (chan call' = COpen → chan call = COpen ∧ ∀ t, pending c !! t ≠ Some j).
Proof.
  simpl. rewrite list_lookup_imap. intros (call & Hc & ->)%fmap_Some. exists call.
  split; [done|]. case_bool_decide as Hex; simpl; [done|]. split; [done|]. intros Ho. split; [done|].
  intros t Ht. apply Hex, Exists_exists. exists (t, j). by rewrite elem_of_map_to_list.
Qed.
(** Draining leaves no registered call with an open channel. *)
Lemma drained_settled c j call :
  reg_ok c → conn_calls (drain_pending c) !! j = Some call → is_Some (tag_of (phase call)) →
  chan call ≠ COpen.
Proof.
  intros Hr Hj [t Ht] Ho. destruct (drain_calls c j call Hj) as (call0 & H0 & Hph & Hch).
  destruct (Hch Ho) as [Ho' Hn]. apply (Hn t). eapply open_reg; [done|done|congruence|done].
Qed.
Lemma reg_drain c : reg_ok c → reg_ok (drain_pending c).
Proof.
  intros Hr. split; [done|]. intros j call t Hj Ht Ho. exfalso.
  by eapply (drained_settled c j call).
Qed.

Lemma reg_frame c c' :
  pending c' = pending c → conn_calls c' = conn_calls c → reg_ok c → reg_ok c'.
Proof. intros Hp Hc [H1 H2]. split; intros *; rewrite Hp, ?Hc; eauto. Qed.

(** ** Phases *)

Lemma phases_lookup c i call : conn_calls c !! i = Some call → phases c !! i = Some (phase call).
Proof. intros H. unfold phases. by rewrite list_lookup_fmap, H. Qed.
Lemma phases_put_phase i p c : phases (put_phase i p c) = alter (λ _, p) i (phases c).
Proof.
  unfold phases, put_phase, set_phase. simpl. apply list_eq. intros j. rewrite list_lookup_fmap.
  destruct (decide (i = j)) as [->|Hij].
  - rewrite !list_lookup_alter_eq, list_lookup_fmap. by destruct (conn_calls c !! j).
  - by rewrite !list_lookup_alter_ne, list_lookup_fmap by done.
Qed.
Lemma phases_set_chan i ch calls : phase <$> set_chan i ch calls = phase <$> calls.
Proof.
  unfold set_chan. apply list_eq. intros j. rewrite !list_lookup_fmap.
  destruct (decide (i = j)) as [->|Hij]; [rewrite list_lookup_alter_eq|by rewrite list_lookup_alter_ne].
  by destruct (calls !! j).
Qed.
Lemma phases_drop_sender t ch c : phases (drop_sender t ch c) = phases c.
Proof.
  unfold phases, drop_sender. destruct (pending c !! t); [|done]. simpl. apply phases_set_chan.
Qed.
Lemma phases_drain c : phases (drain_pending c) = phases c.
Proof.
  unfold phases. simpl. apply list_eq. intros j. rewrite !list_lookup_fmap, list_lookup_imap.
  destruct (conn_calls c !! j); [|done]. simpl. by case_bool_decide.
Qed.
Lemma phases_finish i t p c : phases (finish i t p c) = alter (λ _, p) i (phases c).
Proof. unfold finish. by rewrite phases_put_phase, phases_drop_sender. Qed.

(** ** The writer lock *)

Lemma lock_keep c c' i p q :
  writer_lock c' = writer_lock c → phases c' = alter (λ _, p) i (phases c) →
  phases c !! i = Some q → holds_lock p = holds_lock q → lock_ok c → lock_ok c'.
Proof.
  intros Hw Hp Hq Heq Hl j. rewrite Hw, Hp, (Hl j). destruct (decide (i = j)) as [->|Hij].
  - rewrite list_lookup_alter_eq, Hq. simpl. naive_solver congruence.
  - by rewrite list_lookup_alter_ne.
Qed.
Lemma lock_acquire c c' i p q :
  writer_lock c = None → writer_lock c' = Some i → phases c' = alter (λ _, p) i (phases c) →
  phases c !! i = Some q → holds_lock p = true → lock_ok c → lock_ok c'.
Proof.
  intros Hn Hw Hp Hq Heq Hl j. rewrite Hw, Hp. destruct (decide (i = j)) as [->|Hij].
  - rewrite list_lookup_alter_eq, Hq. naive_solver.
  - rewrite list_lookup_alter_ne by done. split; [congruence|]. intros H. apply Hl in H. congruence.
Qed.
Lemma lock_release c c' i p q :
  writer_lock c' = None → phases c' = alter (λ _, p) i (phases c) →
  phases c !! i = Some q → holds_lock q = true → holds_lock p = false → lock_ok c → lock_ok c'.
Proof.
  intros Hw Hp Hq Hhq Hhp Hl j. rewrite Hw, Hp. destruct (decide (i = j)) as [->|Hij].
  - rewrite list_lookup_alter_eq, Hq. naive_solver congruence.
  - rewrite list_lookup_alter_ne by done. split; [done|]. intros H. apply Hl in H.
    assert (writer_lock c = Some i) by (apply Hl; eauto). congruence.
Qed.
Lemma lock_frame c c' :
  writer_lock c' = writer_lock c → phases c' = phases c → lock_ok c → lock_ok c'.
Proof. intros Hw Hp Hl i. by rewrite Hw, Hp. Qed.

(** ** Closing *)

Definition wire_settled (c : Conn) : Prop :=
  ∀ j call, conn_calls c !! j = Some call → on_wire (phase call) = true → chan call ≠ COpen.

Lemma close_put_phase i p c call :
  conn_calls c !! i = Some call → close_ok c →
  (closing p = true → closed c = true) →
  (on_wire p = true → on_wire (phase call) = true ∨ closed c = false) →
  (closing (phase call) = true → closing p = true ∨ wire_settled c) →
  close_ok (put_phase i p c).
Proof.
  intros Hi Hc H1 H2 H3. split; simpl.
  - apply Hc.
  - intros j cj (x & Hx & [[-> ->]|[_ ->]])%lookup_alter_inv Hcl; simpl in *; [by apply H1|].
    by eapply closing_closed.
  - intros Hcl Hrt Hq. assert (wire_settled c) as Hs.
    { destruct (closing (phase call)) eqn:E.
      - destruct H3 as [H3|H3]; [done| |done]. specialize (Hq i (mkCall p (chan call))).
        unfold set_phase in Hq. rewrite list_lookup_alter_eq, Hi in Hq. specialize (Hq eq_refl).
        simpl in Hq. congruence.
      - refine (closed_settled c Hc Hcl Hrt _). intros j cj Hj. destruct (decide (i = j)) as [->|Hij].
        + congruence.
        + apply (Hq j). unfold set_phase. by rewrite list_lookup_alter_ne. }
    intros j cj (x & Hx & [[-> ->]|[_ ->]])%lookup_alter_inv Hw; simpl in *; [|by apply (Hs j x)].
    destruct (H2 Hw) as [Hw'|?]; [|congruence]. assert (x = call) as -> by congruence.
    by apply (Hs j call).
Qed.
Lemma close_drop_sender t ch c : ch ≠ COpen → close_ok c → close_ok (drop_sender t ch c).
Proof.
  intros Hch Hc. destruct (drop_sender_frame t ch c) as (E1 & _ & E3). split.
  - rewrite E1, E3. apply Hc.
  - intros j cj (x & Hx & Hp & _)%drop_sender_calls Hcl. rewrite E1. eapply closing_closed; [done|done|].
    congruence.
  - rewrite E1, E3. intros H1 H2 Hq j cj Hj Hw.
    destruct (drop_sender_calls t ch c j cj Hj) as (x & Hx & Hp & [Hx'|Hx']); [|congruence].
    rewrite Hx'. apply (closed_settled c Hc H1 H2) with j; [|done|congruence].
    intros k ck Hk.
    assert (is_Some (conn_calls (drop_sender t ch c) !! k)) as [ck' Hk'].
    { apply phases_lookup in Hk. rewrite <-(phases_drop_sender t ch c) in Hk. unfold phases in Hk.
      rewrite list_lookup_fmap in Hk. apply fmap_Some in Hk as (? & ? & _). eauto. }
    destruct (drop_sender_calls t ch c k ck' Hk') as (y & Hy & Hpy & _).
    assert (y = ck) as -> by congruence. rewrite <-Hpy. by apply (Hq k).
Qed.
Lemma close_drain c : reg_ok c → close_ok c → close_ok (drain_pending c) ∧ wire_settled (drain_pending c).
Proof.
  intros Hr Hc. assert (wire_settled (drain_pending c)) as Hs.
  { intros j call Hj Hw. apply (drained_settled c j call Hr Hj). by destruct (phase call). }
  split; [|done]. split.
  - apply Hc.
  - intros j cj (x & Hx & Hp & _)%drain_calls Hcl. simpl. eapply closing_closed; [done|done|]. congruence.
  - intros _ _ _. exact Hs.
Qed.
Lemma close_frame c c' :
  closed c' = closed c → router c' = router c → conn_calls c' = conn_calls c → close_ok c → close_ok c'.
Proof. intros H1 H2 H3 [A B D]. split; intros *; rewrite ?H1, ?H2, ?H3; eauto. Qed.
Lemma settled_frame c c' : conn_calls c' = conn_calls c → wire_settled c → wire_settled c'.
Proof. intros H Hs j. rewrite H. apply Hs. Qed.

(** ** Every step keeps the invariant *)

Lemma phase_lookup c i p :
  phase <$> conn_calls c !! i = Some p → ∃ call, conn_calls c !! i = Some call ∧ phase call = p.
Proof. intros (call & H & ->)%fmap_Some. eauto. Qed.

(** A call that moves on without touching anything shared *)
Lemma inv_put_phase i p c call :
  conn_calls c !! i = Some call → conn_inv c →
  tag_of p = tag_of (phase call) → holds_lock p = holds_lock (phase call) → closing p = closing (phase call) →
  (on_wire p = true → on_wire (phase call) = true ∨ closed c = false) →
  conn_inv (put_phase i p c).
Proof.
  intros Hi [Hr Hl Hc] Ht Hh Hcl Hw. split.
  - eapply reg_put_phase; [done|done|by left].
  - eapply lock_keep; [|apply phases_put_phase|by apply phases_lookup|done|done]; done.
  - eapply close_put_phase; [done|done| |done|].
    + rewrite Hcl. by eapply closing_closed.
    + rewrite Hcl. by left.
Qed.
(** A call that ends without holding the writer *)
Lemma inv_finish i t p c call :
  conn_calls c !! i = Some call → conn_inv c → tag_of (phase call) = Some t →
  holds_lock (phase call) = false → tag_of p = None → holds_lock p = false →
  conn_inv (finish i t p c).
Proof.
  intros Hi [Hr Hl Hc] Ht Hh Hp Hhp.
  assert (closing p = false ∧ on_wire p = false) as [Hpc Hpw] by (by destruct p).
  assert (closing (phase call) = false) as Hcc by (by destruct (phase call)).
  destruct (drop_sender_frame t CDropped c) as (E1 & E2 & E3).
  destruct (drop_sender_settles i t CDropped c call) as (c1 & Hc1 & Hph & Hch); [done..|].
  split.
  - by eapply reg_finish.
  - eapply lock_keep; [|apply phases_finish|by apply phases_lookup|congruence|done]. done.
  - eapply close_put_phase; [exact Hc1|by apply close_drop_sender|congruence|congruence|]. congruence.
Qed.

Lemma inv_insert i t c call :
  conn_calls c !! i = Some call → phase call = PTagged t → conn_inv c →
  conn_inv (let c := drop_sender t CDropped c in
            mkConn (closed c) (<[t := i]> (pending c)) (conn_next_tag c) (writer_lock c)
              (set_chan i COpen (set_phase i (PQueued t) (conn_calls c))) (router c)).
Proof.
  intros Hi Hp [Hr Hl Hc]. set (c1 := drop_sender t CDropped c).
  assert (reg_ok c1) as Hr1 by (by apply reg_drop_sender).
  assert (close_ok c1) as Hc1 by (by apply close_drop_sender).
  assert (lock_ok c1) as Hl1.
  { eapply lock_frame; [|apply phases_drop_sender|done]. apply (drop_sender_frame t CDropped c). }
  assert (pending c1 !! t = None) as Hn.
  { unfold c1, drop_sender. destruct (pending c !! t) eqn:E; [|done]. simpl. apply lookup_delete_eq. }
  assert (∃ call1, conn_calls c1 !! i = Some call1 ∧ phase call1 = PTagged t) as (call1 & Hi1 & Hp1).
  { pose proof (phases_lookup c i call Hi) as H. rewrite <-(phases_drop_sender t CDropped c) in H.
    unfold phases in H. rewrite list_lookup_fmap in H. apply phase_lookup in H as (x & Hx & ?).
    exists x. split; [done|congruence]. }
  clearbody c1. clear Hi Hp Hr Hl Hc. cbv zeta. split.
  - split; simpl; unfold set_chan, set_phase.
    + intros t' j [[<- <-]|[Hne Hj]]%lookup_insert_Some.
      * rewrite !list_lookup_alter_eq, Hi1. simpl. eexists. by split.
      * destruct (reg_call _ Hr1 t' j Hj) as (cj & Hcj & Htj & Hoj).
        assert (i ≠ j) as Hij by (intros ->; rewrite Hi1 in Hcj; injection Hcj as <-; by rewrite Hp1 in Htj).
        rewrite !list_lookup_alter_ne by done. eauto.
    + intros j cj t' (x & Hx & [[-> ->]|[Hij ->]])%lookup_alter_inv Ht Ho.
      * apply lookup_alter_inv in Hx as (y & Hy & [[_ ->]|[? _]]); [|done]. simpl in Ht.
        injection Ht as <-. by rewrite lookup_insert_eq.
      * apply lookup_alter_inv in Hx as (y & Hy & [[? _]|[_ ->]]); [done|].
        assert (pending c1 !! t' = Some j) as Hj by (by eapply open_reg).
        rewrite lookup_insert_ne; [done|]. intros ->. congruence.
  - eapply lock_keep; [|..|exact Hl1]; [done| |by apply phases_lookup|].
    + unfold phases at 1. simpl. rewrite phases_set_chan. apply (phases_put_phase i (PQueued t) c1).
    + by rewrite Hp1.
  - assert (close_ok (put_phase i (PQueued t) c1)) as Hc2.
    { eapply close_put_phase; [done|done|done|done|]. by rewrite Hp1. }
    split; simpl.
    + apply Hc2.
    + intros j cj (x & Hx & [[-> ->]|[Hij ->]])%lookup_alter_inv Hcl.
      * apply lookup_alter_inv in Hx as (y & Hy & [[_ ->]|[? _]]); [done|done].
      * by eapply (closing_closed _ Hc2).
    + intros H1 H2 Hq j cj Hj Hw.
      assert (i ≠ j) as Hij.
      { intros ->. apply lookup_alter_inv in Hj as (x & Hx & [[_ ->]|[? _]]); [|done].
        apply lookup_alter_inv in Hx as (y & Hy & [[_ ->]|[? _]]); [done|done]. }
      unfold set_chan, set_phase in Hj. rewrite !list_lookup_alter_ne in Hj by done.
      apply (closed_settled c1 Hc1 H1 H2) with j; [|done|done]. intros k ck Hk.
      destruct (decide (i = k)) as [->|Hik]; [assert (ck = call1) as -> by congruence; by rewrite Hp1|].
      apply (Hq k). unfold set_chan, set_phase. by rewrite !list_lookup_alter_ne.
Qed.

(** The write guard of a call stores [closed]. *)
Lemma inv_start_closing i t e c call :
  conn_calls c !! i = Some call → phase call = PWriting t → conn_inv c →
  conn_inv (store_closed (put_phase i (PClosing t e) c)).
Proof.
  intros Hi Hp [Hr Hl Hc]. split.
  - apply (reg_frame (put_phase i (PClosing t e) c)); [done|done|].
    eapply reg_put_phase; [done|done|]. left. by rewrite Hp.
  - apply (lock_frame (put_phase i (PClosing t e) c)); [done|done|].
    eapply lock_keep; [|apply phases_put_phase|by apply phases_lookup|by rewrite Hp|done]. done.
  - split; simpl; [done|done|]. intros _ _ Hq. specialize (Hq i (mkCall (PClosing t e) (chan call))).
    unfold set_phase in Hq. rewrite list_lookup_alter_eq, Hi in Hq. by specialize (Hq eq_refl).
Qed.

(** A call that held the writer ends. *)
Lemma inv_finish_locked i t p c call :
  conn_calls c !! i = Some call → conn_inv c → tag_of (phase call) = Some t →
  holds_lock (phase call) = true → tag_of p = None → holds_lock p = false →
  (closing (phase call) = true → wire_settled c) →
  conn_inv (finish i t p (put_lock None c)).
Proof.
  intros Hi [Hr Hl Hc] Ht Hh Hp Hhp Hset.
  assert (closing p = false ∧ on_wire p = false) as [Hpc Hpw] by (by destruct p).
  set (c0 := put_lock None c).
  assert (reg_ok c0) as Hr0 by (by apply (reg_frame c)).
  assert (close_ok c0) as Hc0 by (by apply (close_frame c)).
  destruct (drop_sender_settles i t CDropped c0 call) as (c1 & Hc1 & Hph & Hch); [done..|].
  destruct (drop_sender_frame t CDropped c0) as (E1 & E2 & E3). split.
  - by eapply reg_finish.
  - eapply (lock_release c); [exact E2|apply (phases_finish i t p c0)|by apply phases_lookup|done..].
  - eapply close_put_phase; [exact Hc1|by apply close_drop_sender|congruence|congruence|].
    intros Hcl. right. intros j cj (x & Hx & Hpx & [Hx'|Hx'])%drop_sender_calls Hw; [|congruence].
    rewrite Hx'. apply (Hset ltac:(congruence) j x); [done|congruence].
Qed.

Lemma act_inv a c c' : act a c = Some c' → conn_inv c → conn_inv c'.
Proof.
  intros Ha Hinv. destruct a as [i|i|i|i|i|i res|i|i|i|]; simpl in Ha.
  - unfold call_check in Ha. destruct (phase <$> _) as [[]|] eqn:Hp; simplify_eq.
    apply phase_lookup in Hp as (call & Hi & Hp).
    eapply inv_put_phase; [done|done|..]; rewrite ?Hp; by destruct (closed c).
  - unfold call_tag in Ha. destruct (phase <$> _) as [[]|] eqn:Hp; simplify_eq.
    apply phase_lookup in Hp as (call & Hi & Hp).
    destruct (inv_put_phase i (PTagged (conn_next_tag c)) c call) as [H1 H2 H3];
      [done|done|by rewrite Hp..|]. split.
    + by apply (reg_frame (put_phase i (PTagged (conn_next_tag c)) c)).
    + by apply (lock_frame (put_phase i (PTagged (conn_next_tag c)) c)).
    + by apply (close_frame (put_phase i (PTagged (conn_next_tag c)) c)).
  - unfold call_insert in Ha. destruct (phase <$> _) as [[]|] eqn:Hp; simplify_eq.
    apply phase_lookup in Hp as (call & Hi & Hp). by eapply inv_insert.
  - unfold call_lock in Ha. destruct (phase <$> _) as [[]|] eqn:Hp; simplify_eq.
    destruct (writer_lock c) eqn:Hw; simplify_eq. apply phase_lookup in Hp as (call & Hi & Hp).
    destruct Hinv as [Hr Hl Hc]. split.
    + apply (reg_frame (put_phase i (PLocked tag) c)); [done|done|].
      eapply reg_put_phase; [done|done|left; by rewrite Hp].
    + eapply lock_acquire; [done|..|exact Hl]; [done|apply (phases_put_phase i (PLocked tag) c)| |done].
      by apply phases_lookup.
    + apply (close_frame (put_phase i (PLocked tag) c)); [done..|].
      eapply close_put_phase; [done|done|done|done|by rewrite Hp].
  - unfold call_recheck in Ha. destruct (phase <$> _) as [[]|] eqn:Hp; simplify_eq.
    apply phase_lookup in Hp as (call & Hi & Hp). destruct (closed c) eqn:Hcl; simplify_eq.
    + eapply inv_finish_locked; [done|done|by rewrite Hp..|done|done|by rewrite Hp].
    + eapply inv_put_phase; [done|done|by rewrite Hp..|by right].
  - unfold call_written in Ha. destruct (phase <$> _) as [[]|] eqn:Hp; simplify_eq.
    apply phase_lookup in Hp as (call & Hi & Hp). destruct res as [e|]; simplify_eq.
    { by eapply inv_start_closing. }
    destruct Hinv as [Hr Hl Hc]. split.
    + apply (reg_frame (put_phase i (PWaiting tag) c)); [done|done|].
      eapply reg_put_phase; [done|done|left; by rewrite Hp].
    + eapply lock_release; [done|apply (phases_put_phase i (PWaiting tag) c)|by apply phases_lookup|
        by rewrite Hp|done|done].
    + apply (close_frame (put_phase i (PWaiting tag) c)); [done..|].
      eapply close_put_phase; [done|done|done|by left; rewrite Hp|by rewrite Hp].
  - unfold call_drain in Ha. destruct (phase <$> _) as [[]|] eqn:Hp; simplify_eq.
    apply phase_lookup in Hp as (call & Hi & Hp). destruct Hinv as [Hr Hl Hc].
    destruct (close_drain c Hr Hc) as [Hc' Hs].
    assert (∃ call', conn_calls (drain_pending c) !! i = Some call' ∧ phase call' = phase call)
      as (call' & Hi' & Hp').
    { pose proof (phases_lookup c i call Hi) as H. rewrite <-(phases_drain c) in H.
      unfold phases in H. rewrite list_lookup_fmap in H. by apply phase_lookup in H. }
    eapply inv_finish_locked; [exact Hi'| |by rewrite Hp', Hp|by rewrite Hp', Hp|by destruct e|by destruct e|done].
    split; [by apply reg_drain| |done]. by apply (lock_frame c); [|apply phases_drain|].
  - unfold call_receive in Ha. destruct (conn_calls c !! i) as [[[] []]|] eqn:Hi; simplify_eq.
    + by eapply inv_finish.
    + by eapply inv_finish.
  - unfold call_cancel in Ha. destruct (phase <$> _) as [[]|] eqn:Hp; simplify_eq;
      apply phase_lookup in Hp as (call & Hi & Hp).
    + eapply inv_finish; [done|done|by rewrite Hp..|done|done].
    + by eapply inv_start_closing.
    + eapply inv_finish; [done|done|by rewrite Hp..|done|done].
  - unfold router_drain in Ha. destruct (router c) eqn:Hrt; simplify_eq. destruct Hinv as [Hr Hl Hc].
    destruct (close_drain c Hr Hc) as [Hc' Hs]. split.
    + apply (reg_frame (drain_pending c)); [done|done|by apply reg_drain].
    + apply (lock_frame (drain_pending c)); [done|done|].
      by apply (lock_frame c); [|apply phases_drain|].
    + split; simpl.
      * intros _. apply Hc. by rewrite Hrt.
      * apply Hc'.
      * intros _ _ _. exact Hs.
Qed.

Lemma conn_step_inv c c' : conn_step c c' → conn_inv c → conn_inv c'.
Proof.
  intros Hs Hinv. destruct Hs as [|a c' Ha|tag r c' Hr|c' He].
  - destruct Hinv as [Hr Hl Hc].
    assert (∀ j call, conn_calls (call_start c) !! j = Some call →
              conn_calls c !! j = Some call ∨ call = mkCall PStart COpen) as Hlk.
    { intros j call. simpl. intros [H|[_ H]]%lookup_app_Some; [by left|].
      apply list_lookup_singleton_Some in H as [_ <-]. by right. }
    split.
    + split.
      * intros t j Hj. destruct (reg_call _ Hr t j Hj) as (cj & Hcj & ?). exists cj.
        split; [|done]. simpl. by apply lookup_app_l_Some.
      * intros j call t Hj Ht Ho. destruct (Hlk j call Hj) as [H| ->]; [|done]. by eapply (open_reg c).
    + intros i. unfold phases. simpl. rewrite fmap_app, (Hl i). split; intros (p & Hp & Hh).
      * exists p. split; [by apply lookup_app_l_Some|done].
      * apply lookup_app_Some in Hp as [Hp|[_ Hp]]; [by exists p|].
        apply list_lookup_singleton_Some in Hp as [_ <-]. done.
    + split.
      * apply Hc.
      * intros j call Hj Hcl. destruct (Hlk j call Hj) as [H| ->]; [|done]. by eapply (closing_closed c).
      * intros H1 H2 Hq j call Hj Hw. destruct (Hlk j call Hj) as [H| ->]; [|done].
        apply (closed_settled c Hc H1 H2) with j; [|done|done]. intros k ck Hk. apply (Hq k).
        simpl. by apply lookup_app_l_Some.
  - by eapply act_inv.
  - unfold route in Hr. destruct (router c); simplify_eq. destruct Hinv as [H1 H2 H3]. split.
    + by apply reg_drop_sender.
    + eapply lock_frame; [|apply phases_drop_sender|done]. by apply drop_sender_frame.
    + by apply close_drop_sender.
  - unfold router_end in He. destruct (router c); simplify_eq. destruct Hinv as [H1 H2 H3]. split.
    + by apply (reg_frame c).
    + by apply (lock_frame c).
    + by split.
Qed.
Lemma conn_reachable_inv c : conn_reachable c → conn_inv c.
Proof.
  intros Hr. assert (conn_inv conn_new) as H0.
  { split; [by split|intros i; split; [done|by intros (? & ? & _)]|]. split; [done|done|done]. }
  revert H0. induction Hr as [|c1 c2 c3 Hs _ IH]; [done|]. intros H. by eapply IH, conn_step_inv.
Qed.

(** ** Every call returns *)

Definition weight (p : Phase) : nat :=
  match p with
  | PStart => 7 | PAdmitted => 6 | PTagged _ => 5 | PQueued _ => 4 | PLocked _ => 3 | PWriting _ => 2
  | PClosing _ _ | PWaiting _ => 1
  | PFinished _ | PCancelled => 0
  end.
Definition remaining (c : Conn) : nat :=
  sum_list_with weight (phases c) + match router c with RClosing => 1 | _ => 0 end.

Lemma sum_alter (l : list Phase) i p q :
  l !! i = Some q →
  (sum_list_with weight (alter (λ _, p) i l) + weight q = sum_list_with weight l + weight p)%nat.
Proof.
  revert i. induction l as [|x l IH]; intros [|i] Hi; simplify_eq/=; [lia|].
  specialize (IH i Hi). unfold alter in *. lia.
Qed.

(** A step of a call moves it forward; the last step of the router ends it. *)
Lemma act_moves a c c' :
  act a c = Some c' →
  (router c = RClosing ∧ router c' = RDone ∧ phases c' = phases c) ∨
  (router c' = router c ∧ ∃ i p q, phases c !! i = Some q ∧ phases c' = alter (λ _, p) i (phases c) ∧
     (weight p < weight q)%nat).
Proof.
  assert (∀ i p, phase <$> conn_calls c !! i = Some p → phases c !! i = Some p) as Hph.
  { intros i p H. unfold phases. by rewrite list_lookup_fmap. }
  intros Ha. destruct a as [i|i|i|i|i|i res|i|i|i|]; simpl in Ha.
  10:{ left. unfold router_drain in Ha. destruct (router c); simplify_eq. split_and!; [done..|].
       apply (phases_drain c). }
  all: right.
  - unfold call_check in Ha. destruct (phase <$> _) as [[]|] eqn:Hp; simplify_eq.
    split; [done|]. eexists i, _, _. split_and!; [by apply Hph|apply phases_put_phase|].
    destruct (closed c); simpl; lia.
  - unfold call_tag in Ha. destruct (phase <$> _) as [[]|] eqn:Hp; simplify_eq.
    split; [done|]. eexists i, _, _. split_and!; [by apply Hph|apply (phases_put_phase i _ c)|simpl; lia].
  - unfold call_insert in Ha. destruct (phase <$> _) as [[]|] eqn:Hp; simplify_eq.
    split; [apply drop_sender_frame|]. eexists i, (PQueued tag), _. split_and!; [by apply Hph| |simpl; lia].
    unfold phases at 1. simpl. rewrite phases_set_chan.
    rewrite <-(phases_drop_sender tag CDropped c). apply (phases_put_phase i _ (drop_sender tag CDropped c)).
  - unfold call_lock in Ha. destruct (phase <$> _) as [[]|] eqn:Hp; simplify_eq.
    destruct (writer_lock c); simplify_eq.
    split; [done|]. eexists i, _, _. split_and!; [by apply Hph|apply (phases_put_phase i _ c)|simpl; lia].
  - unfold call_recheck in Ha. destruct (phase <$> _) as [[]|] eqn:Hp; simplify_eq.
    destruct (closed c); simplify_eq.
    + split; [apply (drop_sender_frame tag CDropped (put_lock None c))|].
      eexists i, _, _. split_and!; [by apply Hph|apply (phases_finish i tag _ (put_lock None c))|simpl; lia].
    + split; [done|]. eexists i, _, _. split_and!; [by apply Hph|apply (phases_put_phase i _ c)|simpl; lia].
  - unfold call_written in Ha. destruct (phase <$> _) as [[]|] eqn:Hp; simplify_eq.
    destruct res as [e|]; simplify_eq; (split; [done|]; eexists i, _, _;
      split_and!; [by apply Hph|apply (phases_put_phase i _ c)|simpl; lia]).
  - unfold call_drain in Ha. destruct (phase <$> _) as [[]|] eqn:Hp; simplify_eq.
    split; [apply (drop_sender_frame tag CDropped (put_lock None (drain_pending c)))|].
    eexists i, _, _. split_and!; [by apply Hph| |].
    + rewrite (phases_finish i tag _ (put_lock None (drain_pending c))). f_equal.
      apply (phases_drain c).
    + destruct e; simpl; lia.
  - unfold call_receive in Ha. destruct (conn_calls c !! i) as [[[] []]|] eqn:Hp; simplify_eq;
      (split; [apply (drop_sender_frame tag CDropped c)|]; eexists i, _, _;
       split_and!; [by apply phases_lookup|apply phases_finish|simpl; lia]).
  - unfold call_cancel in Ha. destruct (phase <$> _) as [[]|] eqn:Hp; simplify_eq.
    + split; [apply (drop_sender_frame tag CDropped c)|]. eexists i, _, _.
      split_and!; [by apply Hph|apply phases_finish|simpl; lia].
    + split; [done|]. eexists i, _, _. split_and!; [by apply Hph|apply (phases_put_phase i _ c)|simpl; lia].
    + split; [apply (drop_sender_frame tag CDropped c)|]. eexists i, _, _.
      split_and!; [by apply Hph|apply phases_finish|simpl; lia].
Qed.
Lemma act_decreases a c c' :
  act a c = Some c' → router c ≠ RRunning → (remaining c' < remaining c)%nat ∧ router c' ≠ RRunning.
Proof.
  intros Ha Hr. unfold remaining. destruct (act_moves a c c' Ha) as [(-> & -> & ->)|(-> & i & p & q & Hq & -> & Hw)].
  - split; [lia|done].
  - pose proof (sum_alter (phases c) i p q Hq). split; [lia|done].
Qed.

(** While a call is not over, some step is possible. *)
Lemma act_progress c i call :
  conn_inv c → router c ≠ RRunning → conn_calls c !! i = Some call → ¬ call_over call →
  ∃ a c', act a c = Some c'.
Proof.
  intros [Hr Hl Hc] Hrt Hi Hno.
  assert (∀ j cj, conn_calls c !! j = Some cj → holds_lock (phase cj) = true → ∃ a c', act a c = Some c') as Hlocked.
  { intros j cj Hj Hh. destruct (phase cj) eqn:Hp; try done.
    - destruct (closed c) eqn:Hcl; exists (ARecheck j); eexists; simpl; unfold call_recheck; rewrite Hj; simpl;
        rewrite Hp, Hcl; done.
    - exists (AWritten j None). eexists. simpl. unfold call_written. rewrite Hj. simpl. by rewrite Hp.
    - exists (ADrain j). eexists. simpl. unfold call_drain. rewrite Hj. simpl. by rewrite Hp. }
  unfold call_over in Hno. destruct (phase call) eqn:Hp; try done.
  - exists (ACheck i). eexists. simpl. unfold call_check. rewrite Hi. simpl. by rewrite Hp.
  - exists (ATag i). eexists. simpl. unfold call_tag. rewrite Hi. simpl. by rewrite Hp.
  - exists (AInsert i). eexists. simpl. unfold call_insert. rewrite Hi. simpl. by rewrite Hp.
  - destruct (writer_lock c) as [j|] eqn:Hw.
    + apply Hl in Hw as (p & Hpj & Hh). unfold phases in Hpj. rewrite list_lookup_fmap in Hpj.
      apply phase_lookup in Hpj as (cj & Hj & <-). by eapply Hlocked.
    + exists (ALock i). eexists. simpl. unfold call_lock. rewrite Hi. simpl. by rewrite Hp, Hw.
  - eapply Hlocked; [done|by rewrite Hp].
  - eapply Hlocked; [done|by rewrite Hp].
  - eapply Hlocked; [done|by rewrite Hp].
  - destruct call as [ph ch]. simpl in Hp. subst ph. destruct ch as [|r|].
    + destruct (router c) eqn:Hro; [done| |].
      { exists ARouterDrain. eexists. simpl. unfold router_drain. by rewrite Hro. }
      destruct (decide (Exists (λ cj, closing (phase cj) = true) (conn_calls c))) as [Hex|Hex].
      * apply Exists_exists in Hex as (cj & Hin & Hcl). apply list_elem_of_lookup in Hin as [j Hj].
        eapply Hlocked; [exact Hj|by destruct (phase cj)].
      * exfalso. apply (closed_settled c Hc) with i (mkCall (PWaiting tag) COpen); try done.
        -- apply Hc. by rewrite Hro.
        -- by rewrite Hro.
        -- intros j cj Hj. destruct (closing (phase cj)) eqn:E; [|done]. exfalso. apply Hex, Exists_exists.
           exists cj. split; [by eapply list_elem_of_lookup_2|done].
    + exists (AReceive i). eexists. simpl. unfold call_receive. by rewrite Hi.
    + exists (AReceive i). eexists. simpl. unfold call_receive. by rewrite Hi.
Qed.

(** C19: no call waits for ever. From every reachable state in which the stream of
    responses has ended, whatever the calls were doing and however their steps
    interleave from there (each frame write completing or failing at any time,
    calls being cancelled at any await), every call returns. *)
Theorem imported_calls_return (c : Conn) :
  conn_reachable c → router c ≠ RRunning →
  inevitably (λ c', Forall call_over (conn_calls c')) c.
Proof.
  intros Hre Hr. apply conn_reachable_inv in Hre as Hinv. clear Hre.
  remember (remaining c) as n eqn:Hn. revert c Hn Hr Hinv.
  induction (lt_wf n) as [n _ IH]. intros c -> Hr Hinv.
  destruct (decide (Forall call_over (conn_calls c))) as [Hall|Hall]; [by apply inev_now|].
  apply inev_later.
  - apply not_Forall_Exists, Exists_exists in Hall as (call & Hin & Hno); [|apply _].
    apply list_elem_of_lookup in Hin as [i Hi]. by eapply act_progress.
  - intros a c' Ha. destruct (act_decreases a c c' Ha Hr) as [Hlt Hr'].
    eapply IH; [exact Hlt|done|done|]. by eapply act_inv.
Qed.

(** A response frame goes to the call that sent its tag and to no other: a call
    that waits with that tag returns exactly the result in the frame, no other
    call is affected, and a frame nobody waits for changes nothing. *)
Theorem response_reaches_its_caller (c : Conn) (tag : WireTag) (r : CallResult) :
  conn_reachable c → router c = RRunning →
  ∃ c', route tag r c = Some c' ∧
    (∀ i, conn_calls c !! i = Some (mkCall (PWaiting tag) COpen) →
       ∃ c'', call_receive i c' = Some c'' ∧ phases c'' !! i = Some (PFinished r)) ∧
    (∀ j call', conn_calls c' !! j = Some call' →
       ∃ call, conn_calls c !! j = Some call ∧ phase call' = phase call ∧
         (chan call' = chan call ∨
          tag_of (phase call) = Some tag ∧ chan call = COpen ∧ chan call' = CSent r)) ∧
    ((∀ j call, conn_calls c !! j = Some call → tag_of (phase call) ≠ Some tag) → c' = c).
Proof.
  intros Hre Hrt. apply conn_reachable_inv in Hre as [Hr Hl Hc]. unfold route. rewrite Hrt.
  eexists. split; [done|]. split_and!.
  - intros i Hi. assert (pending c !! tag = Some i) as Hp by (by eapply open_reg).
    assert (conn_calls (drop_sender tag (CSent r) c) !! i = Some (mkCall (PWaiting tag) (CSent r))) as Hi'.
    { unfold drop_sender. rewrite Hp. simpl. unfold set_chan. by rewrite list_lookup_alter_eq, Hi. }
    eexists. unfold call_receive. rewrite Hi'. split; [done|]. rewrite phases_finish, list_lookup_alter_eq.
    by rewrite (phases_lookup _ _ _ Hi').
  - intros j call'. unfold drop_sender. destruct (pending c !! tag) as [i|] eqn:Hp; [|by eauto].
    simpl. destruct (reg_call _ Hr tag i Hp) as (ci & Hci & Hti & Hoi).
    intros (x & Hx & [[-> ->]|[_ ->]])%lookup_alter_inv; exists x; [|by eauto].
    assert (x = ci) as -> by congruence. split_and!; [done..|]. by right.
  - intros Hno. unfold drop_sender. destruct (pending c !! tag) as [i|] eqn:Hp; [|done].
    destruct (reg_call _ Hr tag i Hp) as (ci & Hci & Hti & _). by destruct (Hno i ci Hci).
Qed.

(** ** Concrete connections *)

(** Run a list of actions *)
Fixpoint act_all (l : list Action) (c : Conn) : option Conn :=
  match l with [] => Some c | a :: l' => act a c ≫= act_all l' end.
Lemma act_all_steps l c c' : act_all l c = Some c' → rtc conn_step c c'.
Proof.
  revert c. induction l as [|a l IH]; intros c H; simpl in H; [by simplify_eq|].
  destruct (act a c) as [c1|] eqn:E; [|done]. eapply rtc_l; [by eapply step_act|by apply IH].
Qed.
Definition to_waiting (i : nat) : list Action :=
  [ACheck i; ATag i; AInsert i; ALock i; ARecheck i; AWritten i None].

(** Two calls on the wire, one more in the queue behind a third that writes *)
Definition busy : option Conn :=
  act_all (to_waiting 0 ++ to_waiting 1
           ++ [ACheck 2; ATag 2; AInsert 2; ALock 2; ARecheck 2; ACheck 3; ATag 3; AInsert 3])
    (call_start (call_start (call_start (call_start conn_new)))).
Lemma busy_reachable c : busy = Some c → conn_reachable c.
Proof.
  intros H. apply act_all_steps in H. unfold conn_reachable.
  do 4 (eapply rtc_l; [apply step_start|]). exact H.
Qed.

Lemma imported_calls_return_witness :
  ∃ c, busy ≫= router_end = Some c ∧ length (conn_calls c) = 4%nat ∧
    inevitably (λ c', Forall call_over (conn_calls c')) c.
Proof.
  destruct busy as [c0|] eqn:E; [|vm_compute in E; discriminate].
  assert (router c0 = RRunning) as Hrt by (vm_compute in E; injection E as <-; reflexivity).
  assert (length (conn_calls c0) = 4%nat) as Hlen by (vm_compute in E; injection E as <-; reflexivity).
  assert (router_end c0 = Some (put_router RClosing (store_closed c0))) as He
    by (unfold router_end; by rewrite Hrt).
  exists (put_router RClosing (store_closed c0)). split_and!; [exact He|exact Hlen|].
  apply imported_calls_return; [|done]. eapply rtc_r; [by apply busy_reachable|]. by eapply step_end.
Defined.

Lemma response_reaches_its_caller_witness :
  ∃ c c' c'', busy = Some c ∧ route 2 (inl ClunkResp) c = Some c' ∧ call_receive 1 c' = Some c'' ∧
    phases c'' !! 1%nat = Some (PFinished (inl ClunkResp)).
Proof.
  destruct busy as [c|] eqn:E; [|vm_compute in E; discriminate].
  assert (router c = RRunning) as Hrt by (vm_compute in E; injection E as <-; reflexivity).
  assert (conn_calls c !! 1%nat = Some (mkCall (PWaiting 2) COpen)) as H1
    by (vm_compute in E; injection E as <-; reflexivity).
  destruct (response_reaches_its_caller c 2 (inl ClunkResp) (busy_reachable c E) Hrt)
    as (c' & Hr & Hw & _). destruct (Hw 1%nat H1) as (c'' & Hc & Hp).
  exists c, c', c''. exact (conj eq_refl (conj Hr (conj Hc Hp))).
Defined.
