(* ===== verification/RouteFs.v ===== *)
(** * The message routing file server (crates/routefs/src/lib.rs)

    A message document committed to [send] is matched against the rule files in
    name order, delivered to the port stream of the first rule that matches (the
    dead-letter port when none does) and recorded in the log stream. Parameters:
    the default hasher and serde_json's parsers and printers of a message, a rule
    and a routing record. *)
From S2P Require Import Prelude RustStd ApTypes ApServer RustText.

Definition DEAD_LETTER_PORT : string := "dead-letter".
Definition ROUTE_MAX_DOC_BYTES : Z := Z.shiftl 1 20.

Record RuleSpec : Type := mkSpec {
  spec_version : Z;
  match_type : option string;
  content_contains : option string;
  spec_port : string;
  spec_reason : option string;
}.

(** [name.contains('/')] and [contains('\n')] *)
Definition route_valid_name (name : string) : bool :=
  negb (bool_decide (name = "")) && negb (str_contains "/" name)
  && negb (str_contains (ascii_of_nat 10) name).

Definition spec_validate (r : RuleSpec) : result ErrorCode unit :=
  if negb (spec_version r =? 1) || negb (route_valid_name (spec_port r)) then Err BadRequest
  else if bool_decide (match_type r = Some "") || bool_decide (content_contains r = Some "")
  then Err BadRequest
  else Ok tt.

Record MessageDocument : Type := mkMessage {
  message_type : string; message_content : string; message_raw : Json }.

Definition spec_matches (r : RuleSpec) (m : MessageDocument) : bool :=
  match match_type r with Some expected => bool_decide (expected = message_type m) | None => true end
  && match content_contains r with Some needle => str_has needle (message_content m) | None => true end.

(** [u16::try_from] *)
Definition u16_try_from (z : Z) : option Z := if z <? 2 ^ 16 then Some z else None.

(** The fields of a parsed message document *)
Definition message_of (raw : Json) : option MessageDocument :=
  match raw with
  | JObject object =>
      version ← (json_get object "version" ≫= as_u64) ≫= u16_try_from;
      type ← json_get object "type" ≫= as_str;
      content ← json_get object "content" ≫= as_str;
      if negb (version =? 1) || bool_decide (type = "") then None
      else Some (mkMessage type content raw)
  | _ => None
  end.

Record RoutedRecord : Type := mkRecord {
  rec_port : string; rec_rule : string; rec_reason : option string; rec_message : Json }.

Record RuleEntry : Type := mkEntry { entry_spec : RuleSpec; entry_source : bytes }.

Inductive RNode : Set :=
  RRoot | RSend | RRulesDir | RRule (name : string) | RPortsDir | RPort (name : string) | RLog.
Global Instance RNode_eq_dec : EqDecision RNode.
Proof. solve_decision. Defined.

Record RouteFid : Type := mkRouteFid {
  rf_node : RNode;
  rf_mode : option OpenMode;
  rf_buf : bytes;
  rf_wrote : bool;
  pending_rule_create : bool;
  observed_rule_version : option Z;
}.
(** [RouteFid::at] *)
Definition route_fid_at (n : RNode) (q : Qid) : RouteFid :=
  mkRouteFid n None [] false false (match n with RRule _ => Some (version q) | _ => None end).
(** [RouteFid::pending_rule] *)
Definition pending_rule_fid (n : RNode) : RouteFid := mkRouteFid n None [] false true None.

Record RouteState : Type := mkRouteState {
  rules : gmap string RuleEntry;
  pending_rules : gset string;
  ports : gmap string Stream.t;
  log : Stream.t;
  r_versions : VersionTable.t;
  r_fids : gmap Fid RouteFid;
}.
Definition route_new : RouteState :=
  mkRouteState ∅ ∅ {[DEAD_LETTER_PORT := Stream.new]} Stream.new VersionTable.new ∅.

Definition set_rules x s := mkRouteState x (pending_rules s) (ports s) (log s) (r_versions s) (r_fids s).
Definition set_pending_rules x s := mkRouteState (rules s) x (ports s) (log s) (r_versions s) (r_fids s).
Definition set_ports x s := mkRouteState (rules s) (pending_rules s) x (log s) (r_versions s) (r_fids s).
Definition set_log x s := mkRouteState (rules s) (pending_rules s) (ports s) x (r_versions s) (r_fids s).
Definition set_r_versions x s := mkRouteState (rules s) (pending_rules s) (ports s) (log s) x (r_fids s).
Definition set_r_fids x s := mkRouteState (rules s) (pending_rules s) (ports s) (log s) (r_versions s) x.

Definition route_writable (n : RNode) : bool :=
  match n with RSend | RRule _ => true | _ => false end.

(** [names.collect().join("\n").into_bytes()] *)
Definition route_listing (names : list string) : bytes := into_bytes (join (String "010" "") names).

Section routefs.
Context (hash_key : string → Z).
(** [serde_json::from_slice] of a message and of a rule; [serde_json::to_vec] of a rule
    and of a routing record *)
Context (parse_json : bytes → option Json) (parse_rule : bytes → option RuleSpec).
Context (rule_json : RuleSpec → option bytes) (record_json : RoutedRecord → option bytes).

(** [MessageDocument::parse] *)
Definition parse_message (b : bytes) : option MessageDocument := parse_json b ≫= message_of.

Definition route_identity (n : RNode) : FileKind * Z :=
  match n with
  | RRoot => (Dir, hash_key "/")
  | RSend => (File, hash_key "send")
  | RRulesDir => (Dir, hash_key "rules")
  | RRule name => (File, hash_key ("rules/" +:+ name))
  | RPortsDir => (Dir, hash_key "ports")
  | RPort name => (StreamKind, hash_key ("ports/" +:+ name))
  | RLog => (StreamKind, hash_key "log")
  end.

Definition route_qid (n : RNode) (s : RouteState) : Qid :=
  let '(k, p) := route_identity n in mkQid k (VersionTable.get (r_versions s) p) p.
Definition route_node_of (f : Fid) (s : RouteState) : option RNode :=
  if bool_decide (f = ROOT) then Some RRoot else rf_node <$> r_fids s !! f.
Definition route_bump (n : RNode) : Op RouteState unit :=
  mmodify (λ s, set_r_versions (VersionTable.bump (r_versions s) (route_identity n).2) s).

Definition route_child (n : RNode) (name : string) (s : RouteState) : result ErrorCode RNode :=
  match n with
  | RRoot =>
      if bool_decide (name = "send") then Ok RSend
      else if bool_decide (name = "rules") then Ok RRulesDir
      else if bool_decide (name = "ports") then Ok RPortsDir
      else if bool_decide (name = "log") then Ok RLog
      else Err NotFound
  | RRulesDir => if isSome (rules s !! name) then Ok (RRule name) else Err NotFound
  | RPortsDir => if isSome (ports s !! name) then Ok (RPort name) else Err NotFound
  | _ => Err NotDirectory
  end.

Definition route_bytes (n : RNode) (s : RouteState) : result ErrorCode bytes :=
  match n with
  | RRoot => Ok (into_bytes (join (String "010" "") ["send"; "rules"; "ports"; "log"]))
  | RSend => Ok (into_bytes "# routefs send: write one message JSON document, then clunk" ++ [newline])
  | RRulesDir => Ok (route_listing (sorted_keys (rules s)))
  | RPortsDir => Ok (route_listing (sorted_keys (ports s)))
  | RRule name => result_map entry_source (ok_or (rules s !! name) NotFound)
  | RPort _ | RLog => Err Unsupported
  end.

Definition stream_for (n : RNode) (s : RouteState) : option Stream.t :=
  match n with RPort name => ports s !! name | RLog => Some (log s) | _ => None end.

Definition current_rule_version (name : string) (s : RouteState) : option Z :=
  if isSome (rules s !! name)
  then Some (VersionTable.get (r_versions s) (route_identity (RRule name)).2) else None.

Definition ensure_current_rule_fid (f : RouteFid) (name : string) (s : RouteState) :
    result ErrorCode unit :=
  if pending_rule_create f then Ok tt
  else match observed_rule_version f with
       | None => Err BadRequest
       | Some observed =>
           match current_rule_version name s with
           | None => Err NotFound
           | Some current => if negb (observed =? current) then Err BadRequest else Ok tt
           end
       end.

Definition ensure_port (port : string) : Op RouteState unit :=
  s ← mget;
  if isSome (ports s !! port) then mret tt
  else mmodify (λ s, set_ports (<[port := Stream.new]> (ports s)) s);; route_bump RPortsDir.

Definition rule_source (r : RuleSpec) : option bytes := (λ b, b ++ [newline]) <$> rule_json r.
Definition routed_record_bytes (r : RoutedRecord) : option bytes := (λ b, b ++ [newline]) <$> record_json r.

(** [State::install_rule] *)
Definition install_rule (name : string) (spec : RuleSpec) : Op RouteState unit :=
  s ← mget;
  if negb (route_valid_name name) then mfail BadRequest
  else if bool_decide (name ∈ pending_rules s) then mfail BadRequest
  else
    mresult (spec_validate spec);;
    source ← mlift (rule_source spec) BadRequest;
    mmodify (λ s, set_rules (<[name := mkEntry spec source]> (rules s)) s);;
    ensure_port (spec_port spec);;
    route_bump RRulesDir;;
    route_bump (RRule name).

(** [self.rules.iter().find(|(_, rule)| rule.spec.matches(message))] *)
Definition find_rule (m : MessageDocument) (rs : gmap string RuleEntry) : option (string * RuleEntry) :=
  head (omap (λ name, match rs !! name with
                      | Some e => if spec_matches (entry_spec e) m then Some (name, e) else None
                      | None => None
                      end) (sorted_keys rs)).

(** The port, the rule and the reason a message is routed with *)
Definition decision (m : MessageDocument) (rs : gmap string RuleEntry) :
    string * string * option string :=
  match find_rule m rs with
  | Some (name, e) => (spec_port (entry_spec e), name, spec_reason (entry_spec e))
  | None => (DEAD_LETTER_PORT, "dead-letter", Some "no matching rule")
  end.

Definition route_message (b : bytes) : Op RouteState unit :=
  m ← mlift (parse_message b) BadRequest;
  s ← mget;
  let '(port, rule_name, reason) := decision m (rules s) in
  ensure_port port;;
  record ← mlift (routed_record_bytes (mkRecord port rule_name reason (message_raw m))) BadRequest;
  s ← mget;
  stream ← mlift (ports s !! port) NotFound;
  mmodify (λ s, set_ports (<[port := Stream.append stream record]> (ports s)) s);;
  mmodify (λ s, set_log (Stream.append (log s) record) s).

Definition commit_pending_rule (name : string) (spec : RuleSpec) : Op RouteState unit :=
  mmodify (λ s, set_pending_rules (pending_rules s ∖ {[name]}) s);; install_rule name spec.
Definition abandon_pending_rule (name : string) : Op RouteState unit :=
  mmodify (λ s, set_pending_rules (pending_rules s ∖ {[name]}) s).

(** ** The file server *)

Fixpoint route_walk_names (n : RNode) (names : list string) (s : RouteState) : result ErrorCode RNode :=
  match names with
  | [] => Ok n
  | name :: names' =>
      match route_child n name s with
      | Ok n' => route_walk_names n' names' s
      | r => r
      end
  end.

Definition route_walk (f newfid : Fid) (names : list string) : Op RouteState Qid :=
  s ← mget;
  if bool_decide (newfid = ROOT) || isSome (r_fids s !! newfid) then mfail BadRequest
  else
    start ← mlift (route_node_of f s) NotFound;
    n ← mresult (route_walk_names start names s);
    let q := route_qid n s in
    mmodify (λ s, set_r_fids (<[newfid := route_fid_at n q]> (r_fids s)) s);;
    mret q.

(** The rule test of an open for writing *)
Definition check_rule_fid (f : Fid) (n : RNode) (s : RouteState) : Op RouteState unit :=
  match n with
  | RRule name =>
      fs ← mlift (r_fids s !! f) NotFound;
      mresult (ensure_current_rule_fid fs name s)
  | _ => mret tt
  end.

Definition route_open (f : Fid) (m : OpenMode) : Op RouteState Qid :=
  s ← mget;
  n ← mlift (route_node_of f s) NotFound;
  if negb (bool_decide (f = ROOT)) && isSome (r_fids s !! f ≫= rf_mode) then mfail BadRequest
  else if mode_writes m && negb (route_writable n) then mfail NoAccess
  else
    (if mode_writes m then check_rule_fid f n s else mret tt);;
    (if bool_decide (f = ROOT) then mret tt
     else
       fs ← mlift (r_fids s !! f) NotFound;
       mmodify (λ s, set_r_fids
         (<[f := mkRouteFid (rf_node fs) (Some m) (rf_buf fs) (rf_wrote fs) (pending_rule_create fs)
                   (observed_rule_version fs)]> (r_fids s)) s));;
    mret (route_qid n s).

Definition route_read (f : Fid) (offset : Offset) (count : Z) : Op RouteState bytes :=
  s ← mget;
  (if bool_decide (f = ROOT) then mret tt
   else
     fs ← mlift (r_fids s !! f) NotFound;
     if opened_for_read (rf_mode fs) then mret tt else mfail NoAccess);;
  n ← mlift (route_node_of f s) NotFound;
  match stream_for n s with
  | Some stream => mresult (Stream.read stream offset count)
  | None => b ← mresult (route_bytes n s); mret (slice b offset count)
  end.

Definition route_write (f : Fid) (offset : Offset) (data : bytes) : Op RouteState Z :=
  s ← mget;
  n ← mlift (route_node_of f s) NotFound;
  fs ← mlift (r_fids s !! f) NotFound;
  if negb (opened_for_write (rf_mode fs)) then mfail NoAccess
  else if negb (route_writable n) then mfail Unsupported
  else
    check_rule_fid f n s;;
    start ← mlift (usize_try_from offset) BadRequest;
    stop ← mlift (checked_add64 start (len data)) BadRequest;
    if ROUTE_MAX_DOC_BYTES <? stop then mfail BadRequest
    else
      mmodify (λ s, set_r_fids
        (<[f := mkRouteFid (rf_node fs) (rf_mode fs) (splice (rf_buf fs) start data) true
                  (pending_rule_create fs) (observed_rule_version fs)]> (r_fids s)) s);;
      mret (as_u32 (len data)).

Definition route_stat (f : Fid) : Op RouteState Stat :=
  s ← mget;
  n ← mlift (route_node_of f s) NotFound;
  length ← (match n with
            | RPort _ | RLog => stream ← mlift (stream_for n s) NotFound; mret (Stream.length stream)
            | _ => b ← mresult (route_bytes n s); mret (len b)
            end);
  mret (mkStat "" (route_qid n s) length false (route_writable n)).

Definition route_create (f newfid : Fid) (name : string) (k : FileKind) : Op RouteState Qid :=
  if negb (bool_decide (k = File)) || negb (route_valid_name name) then mfail BadRequest
  else
    s ← mget;
    if bool_decide (newfid = ROOT) || isSome (r_fids s !! newfid) then mfail BadRequest
    else
      n ← mlift (route_node_of f s) NotFound;
      if negb (bool_decide (n = RRulesDir)) || isSome (rules s !! name)
         || bool_decide (name ∈ pending_rules s)
      then mfail BadRequest
      else
        mmodify (λ s, set_pending_rules (pending_rules s ∪ {[name]}) s);;
        let n := RRule name in
        let q := route_qid n s in
        mmodify (λ s, set_r_fids (<[newfid := pending_rule_fid n]> (r_fids s)) s);;
        mret q.

Definition route_remove (f : Fid) : Op RouteState unit :=
  s ← mget;
  fs ← mlift (r_fids s !! f) NotFound;
  match rf_node fs with
  | RRule name =>
      (if pending_rule_create fs then
         if bool_decide (name ∈ pending_rules s)
         then mmodify (λ s, set_pending_rules (pending_rules s ∖ {[name]}) s)
         else mfail NotFound
       else
         mresult (ensure_current_rule_fid fs name s);;
         (if isSome (rules s !! name)
          then mmodify (λ s, set_rules (delete name (rules s)) s) else mfail NotFound));;
      route_bump RRulesDir;;
      mmodify (λ s, set_r_fids (delete f (r_fids s)) s)
  | _ => mfail Unsupported
  end.

Definition route_clunk (f : Fid) : Op RouteState unit :=
  if bool_decide (f = ROOT) then mret tt
  else
    s ← mget;
    fs ← mlift (r_fids s !! f) NotFound;
    mmodify (λ s, set_r_fids (delete f (r_fids s)) s);;
    match rf_node fs with
    | RSend => if rf_wrote fs then route_message (rf_buf fs) else mret tt
    | RRule name =>
        if rf_wrote fs && pending_rule_create fs then
          match parse_rule (rf_buf fs) with
          | Some spec => commit_pending_rule name spec
          | None => abandon_pending_rule name;; mfail BadRequest
          end
        else if rf_wrote fs then
          s ← mget;
          mresult (ensure_current_rule_fid fs name s);;
          spec ← mlift (parse_rule (rf_buf fs)) BadRequest;
          install_rule name spec
        else if pending_rule_create fs then abandon_pending_rule name
        else mret tt
    | _ => mret tt
    end.

Definition RouteFs_FileServer : FileServer RouteState :=
  {| fs_walk := route_walk; fs_open := route_open; fs_read := route_read;
     fs_write := route_write; fs_stat := route_stat; fs_create := route_create;
     fs_remove := route_remove; fs_clunk := route_clunk |}.
End routefs.
