(* ===== verification/RouteFsFacts.v ===== *)
(** * Facts of the message router

    Every message is delivered to exactly one port and recorded once; the port is
    that of the first matching rule in name order; installed rules are valid and
    their ports exist; a fid that saw an older rule cannot overwrite or remove it. *)
From S2P Require Import Prelude RustStd ApTypes ApServer RustText RouteFs.

(** ** Rules in name order *)

Lemma sorted_keys_sorted {V} (m : gmap string V) : StronglySorted String.le (sorted_keys m).
Proof. apply StronglySorted_merge_sort; apply _. Qed.

(** [find_rule] is the first match. *)
Lemma find_rule_some m rs name e :
  find_rule m rs = Some (name, e) →
  rs !! name = Some e ∧ spec_matches (entry_spec e) m = true ∧
  ∀ name' e', rs !! name' = Some e' → spec_matches (entry_spec e') m = true → String.le name name'.
Proof.
  unfold find_rule. pose proof (sorted_keys_sorted rs) as Hs.
  assert (∀ k e', rs !! k = Some e' → k ∈ sorted_keys rs) as Hin.
  { intros k e' Hk. apply elem_of_sorted_keys. eauto. }
  intros Hh.
  assert (rs !! name = Some e ∧ spec_matches (entry_spec e) m = true ∧
    ∀ name' e', name' ∈ sorted_keys rs → rs !! name' = Some e' →
      spec_matches (entry_spec e') m = true → String.le name name') as (H1 & H2 & H3); [|by eauto].
  clear Hin. induction Hs as [|k l Hl IH Hk]; [done|]. simpl in Hh.
  destruct (rs !! k) as [e0|] eqn:He0; [destruct (spec_matches (entry_spec e0) m) eqn:Hm|].
  - simplify_eq/=. split_and!; [done..|]. intros name' e' [->|Hin]%elem_of_cons Hr' Hm'; [done|].
    rewrite Forall_forall in Hk. by apply Hk.
  - destruct (IH Hh) as (H1 & H2 & H3). split_and!; [done..|].
    intros name' e' [->|Hin]%elem_of_cons Hr' Hm'; [congruence|]. by eapply H3.
  - destruct (IH Hh) as (H1 & H2 & H3). split_and!; [done..|].
    intros name' e' [->|Hin]%elem_of_cons Hr' Hm'; [congruence|]. by eapply H3.
Qed.
Lemma find_rule_none m rs name e :
  find_rule m rs = None → rs !! name = Some e → spec_matches (entry_spec e) m = false.
Proof.
  unfold find_rule. intros Hh Hr. destruct (spec_matches (entry_spec e) m) eqn:Hm; [|done].
  assert (name ∈ sorted_keys rs) as Hin by (apply elem_of_sorted_keys; eauto).
  exfalso. apply head_None in Hh. revert Hin. generalize (sorted_keys rs), Hh. clear Hh.
  intros l Hh. induction l as [|k l IH]; [by intros ?%elem_of_nil|]. simpl in Hh.
  intros [->|Hin]%elem_of_cons.
  - by rewrite Hr, Hm in Hh.
  - apply IH; [|done]. revert Hh. destruct (rs !! k) as [e0|]; [destruct (spec_matches (entry_spec e0) m)|]; done.
Qed.

Section routefacts.
Context (hash_key : string → Z).
Context (parse_json : bytes → option Json) (parse_rule : bytes → option RuleSpec).
Context (rule_json : RuleSpec → option bytes) (record_json : RoutedRecord → option bytes).
#[local] Instance route_server : FileServer RouteState :=
  RouteFs_FileServer hash_key parse_json parse_rule rule_json record_json.

(** ** What the operations leave *)

Definition with_port (port : string) (s : RouteState) : RouteState :=
  if isSome (ports s !! port) then s
  else set_r_versions (VersionTable.bump (r_versions s) (route_identity hash_key RPortsDir).2)
         (set_ports (<[port := Stream.new]> (ports s)) s).
Lemma ensure_port_eq port s : ensure_port hash_key port s = (with_port port s, Ok tt).
Proof. unfold ensure_port, with_port, route_bump. mrun. by destruct (isSome _). Qed.

Definition installed (name : string) (spec : RuleSpec) (source : bytes) (s : RouteState) : RouteState :=
  let s := with_port (spec_port spec) (set_rules (<[name := mkEntry spec source]> (rules s)) s) in
  set_r_versions (VersionTable.bump
    (VersionTable.bump (r_versions s) (route_identity hash_key RRulesDir).2)
    (route_identity hash_key (RRule name)).2) s.
Lemma install_rule_cases name spec s :
  install_rule hash_key rule_json name spec s = (s, Err BadRequest) ∨
  ∃ source, install_rule hash_key rule_json name spec s = (installed name spec source s, Ok tt) ∧
    route_valid_name name = true ∧ name ∉ pending_rules s ∧ spec_validate spec = Ok tt ∧
    rule_source rule_json spec = Some source.
Proof.
  unfold install_rule. mrun. destruct (route_valid_name name); [|by left]. simpl.
  case_bool_decide; [by left|].
  assert (spec_validate spec = Ok tt ∨ spec_validate spec = Err BadRequest) as [Hv|Hv].
  { unfold spec_validate. by repeat case_match; auto. }
  2:{ rewrite Hv. by left. }
  rewrite Hv. destruct (rule_source rule_json spec) as [source|]; [|by left].
  right. exists source. rewrite ensure_port_eq. by split_and!.
Qed.

Definition delivered (port : string) (record : bytes) (s : RouteState) : RouteState :=
  let s := with_port port s in
  set_log (Stream.append (log s) record)
    (set_ports (<[port := Stream.append (default Stream.new (ports s !! port)) record]> (ports s)) s).
Lemma with_port_exists port s : is_Some (ports (with_port port s) !! port).
Proof.
  unfold with_port. destruct (isSome _) eqn:E; [by apply isSome_true|]. simpl.
  rewrite lookup_insert_eq. eauto.
Qed.
Lemma route_message_cases b s :
  (parse_message parse_json b = None ∧
   route_message hash_key parse_json record_json b s = (s, Err BadRequest)) ∨
  ∃ m, parse_message parse_json b = Some m ∧
    let '(port, rule_name, reason) := decision m (rules s) in
    match routed_record_bytes record_json (mkRecord port rule_name reason (message_raw m)) with
    | None => route_message hash_key parse_json record_json b s = (with_port port s, Err BadRequest)
    | Some record =>
        route_message hash_key parse_json record_json b s = (delivered port record s, Ok tt)
    end.
Proof.
  unfold route_message. mrun. destruct (parse_message parse_json b) as [m|]; [|by left].
  right. exists m. split; [done|]. destruct (decision m (rules s)) as [[port rule_name] reason].
  rewrite ensure_port_eq. destruct (routed_record_bytes _ _) as [record|]; [|done].
  unfold delivered. destruct (with_port_exists port s) as [st Hst]. by rewrite Hst.
Qed.

(** ** The invariant *)

Record route_inv (s : RouteState) : Prop := {
  ri_rule name e : rules s !! name = Some e →
    route_valid_name name = true ∧ spec_validate (entry_spec e) = Ok tt ∧
    rule_source rule_json (entry_spec e) = Some (entry_source e) ∧
    is_Some (ports s !! spec_port (entry_spec e)) ∧ name ∉ pending_rules s;
  ri_dead : is_Some (ports s !! DEAD_LETTER_PORT);
  (** a reserved name has exactly one fid that can commit it *)
  ri_pending f fs : r_fids s !! f = Some fs → pending_rule_create fs = true →
    ∃ name, rf_node fs = RRule name ∧ name ∈ pending_rules s;
  ri_unique f f' fs fs' : r_fids s !! f = Some fs → r_fids s !! f' = Some fs' →
    pending_rule_create fs = true → pending_rule_create fs' = true → rf_node fs = rf_node fs' → f = f';
  ri_owner name : name ∈ pending_rules s →
    ∃ f fs, r_fids s !! f = Some fs ∧ pending_rule_create fs = true ∧ rf_node fs = RRule name;
}.

(** The messages delivered so far, in order, with their ports: the log holds all
    of them and each port exactly its own. *)
Record deliveries (h : list (string * bytes)) (s : RouteState) : Prop := {
  dl_log : Stream.buf (log s) = List.concat h.*2;
  dl_port port st : ports s !! port = Some st →
    Stream.buf st = List.concat (filter (λ d, d.1 = port) h).*2;
  dl_known d : d ∈ h → is_Some (ports s !! d.1);
}.

Lemma deliveries_frame h s s' :
  log s' = log s → ports s' = ports s → deliveries h s → deliveries h s'.
Proof. intros H1 H2 [A B C]. split; rewrite ?H1, ?H2; auto. Qed.

Lemma deliveries_with_port h port s : deliveries h s → deliveries h (with_port port s).
Proof.
  intros [A B D]. unfold with_port. destruct (isSome (ports s !! port)) eqn:E; [done|].
  apply isSome_false in E. split; simpl; [done| |].
  - intros p st [[<- <-]|[Hne Hp]]%lookup_insert_Some; [|by apply B].
    replace (filter _ h) with (@nil (string * bytes)); [done|]. symmetry.
    apply elem_of_nil_inv. intros d [Hd Hin]%list_elem_of_filter. destruct (D d Hin) as [st Hst]. congruence.
  - intros d Hin. destruct (D d Hin) as [st Hst].
    destruct (decide (port = d.1)) as [->|]; [rewrite lookup_insert_eq; eauto|].
    rewrite lookup_insert_ne by done. eauto.
Qed.
Lemma deliveries_delivered h port record s :
  deliveries h s → deliveries (h ++ [(port, record)]) (delivered port record s).
Proof.
  intros Hd. apply (deliveries_with_port h port) in Hd as [A B D].
  unfold delivered. destruct (with_port_exists port s) as [st Hst]. set (s1 := with_port port s) in *.
  split; simpl.
  - rewrite A, fmap_app, List.concat_app. simpl. by rewrite app_nil_r.
  - intros p st' [[<- <-]|[Hne Hp]]%lookup_insert_Some.
    + rewrite Hst. simpl. rewrite (B _ _ Hst), filter_app, fmap_app, List.concat_app.
      rewrite filter_cons_True by done. simpl. by rewrite app_nil_r.
    + rewrite (B _ _ Hp), filter_app. rewrite filter_cons_False by (simpl; congruence).
      by rewrite filter_nil, app_nil_r.
  - intros d [Hin|Hin]%elem_of_app.
    + destruct (D d Hin) as [x Hx]. destruct (decide (port = d.1)) as [->|];
        [rewrite lookup_insert_eq; eauto|rewrite lookup_insert_ne by done; eauto].
    + apply list_elem_of_singleton in Hin as ->. simpl. rewrite lookup_insert_eq. eauto.
Qed.

(** ** Every operation keeps it *)

Lemma inv_frame s s' :
  rules s' = rules s → pending_rules s' = pending_rules s → ports s' = ports s → r_fids s' = r_fids s →
  route_inv s → route_inv s'.
Proof. intros H1 H2 H3 H4 [A B C D E]. split; rewrite ?H1, ?H2, ?H3, ?H4; auto. Qed.
Lemma inv_with_port port s : route_inv s → route_inv (with_port port s).
Proof.
  intros [A B C D E]. unfold with_port. destruct (isSome (ports s !! port)) eqn:Hp; [done|].
  assert (∀ p, is_Some (ports s !! p) → is_Some (<[port := Stream.new]> (ports s) !! p)) as Hk.
  { intros p Hs. destruct (decide (port = p)) as [->|]; [rewrite lookup_insert_eq; eauto|].
    by rewrite lookup_insert_ne. }
  split; simpl; [|by apply Hk|done..]. intros name e He.
  destruct (A name e He) as (? & ? & ? & ? & ?). split_and!; auto.
Qed.
Lemma with_port_frame port s :
  rules (with_port port s) = rules s ∧ pending_rules (with_port port s) = pending_rules s ∧
  r_fids (with_port port s) = r_fids s ∧ log (with_port port s) = log s.
Proof. unfold with_port. by destruct (isSome _). Qed.

Lemma inv_installed name spec source s :
  route_valid_name name = true → name ∉ pending_rules s → spec_validate spec = Ok tt →
  rule_source rule_json spec = Some source → route_inv s → route_inv (installed name spec source s).
Proof.
  intros Hv Hp Hs Hr Hi. unfold installed.
  assert (route_inv (set_rules (rules s) (with_port (spec_port spec) s))) as [A B C D E].
  { apply (inv_with_port (spec_port spec)) in Hi. revert Hi.
    destruct (with_port_frame (spec_port spec) s) as (E1 & _). apply inv_frame; simpl; done. }
  set (s0 := set_rules _ s). destruct (with_port_frame (spec_port spec) s) as (E1 & E2 & E3 & E4).
  destruct (with_port_frame (spec_port spec) s0) as (F1 & F2 & F3 & F4).
  assert (ports (with_port (spec_port spec) s0) = ports (with_port (spec_port spec) s)) as F5.
  { unfold with_port, s0. simpl. by destruct (isSome _). }
  simpl in *. split; simpl; rewrite ?F1, ?F2, ?F3, ?F5, ?E2, ?E3 in *; unfold s0 in *; simpl in *; auto.
  intros name' e [[<- <-]|[Hne He]]%lookup_insert_Some; simpl.
  - split_and!; [done..| |done]. apply with_port_exists.
  - by apply A.
Qed.
Lemma inv_delivered port record s : route_inv s → route_inv (delivered port record s).
Proof.
  intros Hi. apply (inv_with_port port) in Hi as [A B C D E]. unfold delivered.
  set (s1 := with_port port s) in *.
  assert (∀ p v, is_Some (ports s1 !! p) → is_Some (<[port := v]> (ports s1) !! p)) as Hk.
  { intros p v Hs. destruct (decide (port = p)) as [->|]; [rewrite lookup_insert_eq; eauto|].
    by rewrite lookup_insert_ne. }
  split; simpl; [|by apply Hk|done..]. intros name e He.
  destruct (A name e He) as (? & ? & ? & ? & ?). split_and!; auto.
Qed.

(** Fids *)
Lemma inv_fid_set f fs s :
  pending_rule_create fs = default false (pending_rule_create <$> r_fids s !! f) →
  (pending_rule_create fs = true → rf_node <$> r_fids s !! f = Some (rf_node fs)) →
  route_inv s → route_inv (set_r_fids (<[f := fs]> (r_fids s)) s).
Proof.
  intros Hp Hn [A B C D E].
  assert (∀ g gs, <[f := fs]> (r_fids s) !! g = Some gs → pending_rule_create gs = true →
    ∃ gs', r_fids s !! g = Some gs' ∧ pending_rule_create gs' = true ∧ rf_node gs' = rf_node gs) as Hold.
  { intros g gs [[<- <-]|[Hne Hg]]%lookup_insert_Some Hpg; [|by eauto].
    specialize (Hn Hpg). rewrite Hpg in Hp. destruct (r_fids s !! f) as [gs'|]; [|done].
    simpl in *. exists gs'. split_and!; [done..|congruence]. }
  split; simpl; auto.
  - intros g gs Hg Hpg. destruct (Hold g gs Hg Hpg) as (gs' & Hg' & Hpg' & <-). by eapply C.
  - intros g g' gs gs' Hg Hg' Hp1 Hp2 Heq.
    destruct (Hold g gs Hg Hp1) as (x & Hx & Hpx & Ex), (Hold g' gs' Hg' Hp2) as (y & Hy & Hpy & Ey).
    eapply D; [exact Hx|exact Hy|done|done|congruence].
  - intros name Hin. destruct (E name Hin) as (g & gs & Hg & Hpg & Hng).
    destruct (decide (f = g)) as [->|Hne].
    + exists g, fs. rewrite lookup_insert_eq. rewrite Hg in Hp, Hn. simpl in *. split_and!; [done|congruence|].
      specialize (Hn ltac:(congruence)). congruence.
    + exists g, gs. by rewrite lookup_insert_ne.
Qed.
Lemma inv_fid_drop f s :
  default false (pending_rule_create <$> r_fids s !! f) = false →
  route_inv s → route_inv (set_r_fids (delete f (r_fids s)) s).
Proof.
  intros Hp [A B C D E]. split; simpl; auto.
  - intros g gs [_ Hg]%lookup_delete_Some. by apply C with g.
  - intros g g' gs gs' [_ Hg]%lookup_delete_Some [_ Hg']%lookup_delete_Some. by apply D.
  - intros name Hin. destruct (E name Hin) as (g & gs & Hg & Hpg & Hng). exists g, gs.
    rewrite lookup_delete_ne; [done|]. intros ->. rewrite Hg in Hp. simpl in Hp. congruence.
Qed.
(** The fid of a reserved name goes, and the reservation with it. *)
Lemma inv_release f fs name s :
  r_fids s !! f = Some fs → pending_rule_create fs = true → rf_node fs = RRule name → route_inv s →
  route_inv (set_pending_rules (pending_rules s ∖ {[name]}) (set_r_fids (delete f (r_fids s)) s)).
Proof.
  intros Hf Hp Hn [A B C D E]. split; simpl; auto.
  - intros name' e He. destruct (A name' e He) as (? & ? & ? & ? & ?). split_and!; [done..|set_solver].
  - intros g gs [Hne Hg]%lookup_delete_Some Hpg. destruct (C g gs Hg Hpg) as (n & Hng & Hin).
    exists n. split; [done|]. apply elem_of_difference. split; [done|]. intros ->%elem_of_singleton.
    apply Hne. eapply D; [exact Hf|exact Hg|done|done|congruence].
  - intros g g' gs gs' [_ Hg]%lookup_delete_Some [_ Hg']%lookup_delete_Some. by apply D.
  - intros name' [Hin Hne]%elem_of_difference. destruct (E name' Hin) as (g & gs & Hg & Hpg & Hng).
    exists g, gs. rewrite lookup_delete_ne; [done|]. intros ->. assert (gs = fs) as -> by congruence.
    rewrite Hn in Hng. set_solver.
Qed.
Lemma inv_reserve f name s :
  r_fids s !! f = None → name ∉ pending_rules s → rules s !! name = None → route_inv s →
  route_inv (set_r_fids (<[f := pending_rule_fid (RRule name)]> (r_fids s))
    (set_pending_rules (pending_rules s ∪ {[name]}) s)).
Proof.
  intros Hf Hp Hr [A B C D E]. split; simpl; auto.
  - intros name' e He. destruct (A name' e He) as (? & ? & ? & ? & ?). split_and!; [done..|].
    intros [Hin|Hin]%elem_of_union; [done|]. apply elem_of_singleton in Hin as ->. congruence.
  - intros g gs [[<- <-]|[Hne Hg]]%lookup_insert_Some Hpg.
    + exists name. set_solver.
    + destruct (C g gs Hg Hpg) as (n & Hng & Hin). exists n. set_solver.
  - intros g g' gs gs' [[<- <-]|[Hne Hg]]%lookup_insert_Some [[<- <-]|[Hne' Hg']]%lookup_insert_Some
      Hp1 Hp2 Heq; [done| | |by eapply D].
    + destruct (C g' gs' Hg' Hp2) as (n & Hng & Hin). simpl in Heq. rewrite Hng in Heq. by simplify_eq.
    + destruct (C g gs Hg Hp1) as (n & Hng & Hin). simpl in Heq. rewrite Hng in Heq. by simplify_eq.
  - intros name' [Hin|Hin]%elem_of_union.
    + destruct (E name' Hin) as (g & gs & Hg & Hpg & Hng). exists g, gs.
      rewrite lookup_insert_ne; [done|]. intros ->. congruence.
    + apply elem_of_singleton in Hin as ->. exists f, (pending_rule_fid (RRule name)).
      by rewrite lookup_insert_eq.
Qed.

(** From a state in the invariant: the invariant holds after, and at most one message
    was delivered, at the end. *)
Definition moves (s s' : RouteState) : Prop :=
  route_inv s → route_inv s' ∧ ∃ d, (length d ≤ 1)%nat ∧ ∀ h, deliveries h s → deliveries (h ++ d) s'.

Lemma moves_quiet s s' :
  (route_inv s → route_inv s') → log s' = log s → ports s' = ports s → moves s s'.
Proof.
  intros Hi Hl Hp Hs. split; [by apply Hi|]. exists []. split; [simpl; lia|]. intros h Hh.
  rewrite app_nil_r. by eapply deliveries_frame.
Qed.
Lemma moves_refl s : moves s s.
Proof. by apply moves_quiet. Qed.

Lemma install_rule_moves name spec s : moves s (install_rule hash_key rule_json name spec s).1.
Proof.
  destruct (install_rule_cases name spec s) as [->|(src & -> & Hv & Hp & Hs & Hr)]; [apply moves_refl|].
  intros Hi. split; [by apply inv_installed|]. exists []. split; [simpl; lia|]. intros h Hh.
  rewrite app_nil_r. unfold installed. simpl.
  eapply (deliveries_frame h (with_port (spec_port spec) (set_rules _ s))); [done|done|].
  apply deliveries_with_port. by eapply (deliveries_frame h s).
Qed.
Lemma route_message_moves b s : moves s (route_message hash_key parse_json record_json b s).1.
Proof.
  destruct (route_message_cases b s) as [[_ ->]|(m & Hm & H)]; [apply moves_refl|].
  destruct (decision m (rules s)) as [[port rn] re]. intros Hi.
  destruct (routed_record_bytes _ _) as [record|]; rewrite H; simpl.
  - split; [by apply inv_delivered|]. exists [(port, record)]. split; [simpl; lia|].
    intros h. apply deliveries_delivered.
  - split; [by apply inv_with_port|]. exists []. split; [simpl; lia|]. intros h Hh. rewrite app_nil_r.
    by apply deliveries_with_port.
Qed.

Lemma walk_moves f newfid names s : moves s (route_walk hash_key f newfid names s).1.
Proof.
  unfold route_walk. mrun. destruct (_ || _) eqn:E; [apply moves_refl|]. bool_facts.
  destruct (route_node_of f s); [|apply moves_refl].
  destruct (route_walk_names _ _ _); try apply moves_refl. apply moves_quiet; [|done..].
  apply inv_fid_set; [|done]. rewrite H0. done.
Qed.
Lemma check_rule_fid_same f n s s0 : (check_rule_fid hash_key f n s s0).1 = s0.
Proof.
  unfold check_rule_fid. mrun. destruct n; try done. destruct (r_fids s !! f); [|done].
  by destruct (ensure_current_rule_fid _ _ _ _).
Qed.
Lemma set_fid_moves f fs fs' s :
  r_fids s !! f = Some fs → rf_node fs' = rf_node fs → pending_rule_create fs' = pending_rule_create fs →
  moves s (set_r_fids (<[f := fs']> (r_fids s)) s).
Proof.
  intros Hf Hn Hp. apply moves_quiet; [|done..]. apply inv_fid_set; rewrite Hf; simpl; congruence.
Qed.
Lemma open_moves f m s : moves s (route_open hash_key f m s).1.
Proof.
  unfold route_open. mrun. destruct (route_node_of f s) as [n|]; [|apply moves_refl].
  destruct (_ && isSome _); [apply moves_refl|]. destruct (_ && negb _); [apply moves_refl|].
  assert (moves s (if bool_decide (f = ROOT) then s
     else match r_fids s !! f with
          | Some fs => set_r_fids (<[f := mkRouteFid (rf_node fs) (Some m) (rf_buf fs) (rf_wrote fs)
                         (pending_rule_create fs) (observed_rule_version fs)]> (r_fids s)) s
          | None => s
          end)) as Hm.
  { case_bool_decide; [apply moves_refl|].
    destruct (r_fids s !! f) as [fs|] eqn:Hf; [by eapply set_fid_moves|apply moves_refl]. }
  pose proof (check_rule_fid_same f n s s) as Hc.
  destruct (mode_writes m); [destruct (check_rule_fid hash_key f n s s) as [s0 [[]| | |]]; simpl in Hc;
    subst s0; try apply moves_refl|]; (case_bool_decide; [done|]; by destruct (r_fids s !! f)).
Qed.
Lemma write_moves f offset data s : moves s (route_write hash_key f offset data s).1.
Proof.
  unfold route_write. mrun. destruct (route_node_of f s) as [n|]; [|apply moves_refl].
  destruct (r_fids s !! f) as [fs|] eqn:Hf; [|apply moves_refl].
  destruct (negb _); [apply moves_refl|]. destruct (negb _); [apply moves_refl|].
  pose proof (check_rule_fid_same f n s s) as Hc.
  destruct (check_rule_fid hash_key f n s s) as [s0 r]. simpl in Hc. subst s0.
  destruct r; try apply moves_refl. destruct (usize_try_from offset); [|apply moves_refl].
  destruct (checked_add64 _ _); [|apply moves_refl]. destruct (_ <? _); [apply moves_refl|].
  by eapply set_fid_moves.
Qed.
Lemma create_moves f newfid name k s : moves s (route_create hash_key f newfid name k s).1.
Proof.
  unfold route_create. destruct (_ || _); [apply moves_refl|]. mrun.
  destruct (bool_decide (newfid = ROOT) || isSome (r_fids s !! newfid)) eqn:E1; [apply moves_refl|].
  destruct (route_node_of f s) as [n|]; [|apply moves_refl].
  destruct (negb (bool_decide (n = RRulesDir)) || isSome (rules s !! name)
            || bool_decide (name ∈ pending_rules s)) eqn:E2; [apply moves_refl|].
  bool_facts. apply moves_quiet; [|done..]. intros Hi. by apply (inv_reserve newfid name s).
Qed.
Lemma remove_moves f s : moves s (route_remove hash_key f s).1.
Proof.
  unfold route_remove. mrun. destruct (r_fids s !! f) as [fs|] eqn:Hf; [|apply moves_refl].
  destruct (rf_node fs) as [| | |name| | |] eqn:Hn; try apply moves_refl.
  destruct (pending_rule_create fs) eqn:Hp.
  - case_bool_decide as Hin; [|apply moves_refl]. apply moves_quiet; [|done..]. intros Hi.
    eapply inv_frame; [..|exact (inv_release f fs name s Hf Hp Hn Hi)]; done.
  - destruct (ensure_current_rule_fid _ _ _ _); try apply moves_refl.
    destruct (isSome _); [|apply moves_refl]. apply moves_quiet; [|done..]. intros Hi.
    assert (route_inv (set_rules (delete name (rules s)) s)) as Hi'.
    { destruct Hi as [A B C D E]. split; simpl; auto. intros n e [_ He]%lookup_delete_Some. by apply A. }
    assert (route_inv (set_r_fids (delete f (r_fids s)) (set_rules (delete name (rules s)) s))) as Hi2
      by (apply (inv_fid_drop f (set_rules (delete name (rules s)) s)); [simpl; by rewrite Hf, <-Hp|done]).
    by eapply inv_frame; [..|exact Hi2].
Qed.
Lemma clunk_moves f s : moves s (route_clunk hash_key parse_json parse_rule rule_json record_json f s).1.
Proof.
  unfold route_clunk. case_bool_decide; [apply moves_refl|]. mrun.
  destruct (r_fids s !! f) as [fs|] eqn:Hf; [|apply moves_refl].
  set (s1 := set_r_fids (delete f (r_fids s)) s).
  assert (∀ s2, moves s1 s2 → pending_rule_create fs = false → moves s s2) as Hdrop.
  { intros s2 Hm Hp Hi. assert (route_inv s1) as Hi1 by (apply inv_fid_drop; [by rewrite Hf|done]).
    destruct (Hm Hi1) as (? & d & ? & Hd). split; [done|]. exists d. split; [done|]. intros h Hh.
    apply Hd. by apply (deliveries_frame h s). }
  assert (pending_rule_create fs = true → route_inv s → ∃ name, rf_node fs = RRule name) as Hpn.
  { intros Hp Hi. destruct (ri_pending s Hi f fs Hf Hp) as (name & ? & _). eauto. }
  assert (∀ name s2, rf_node fs = RRule name → pending_rule_create fs = true →
    moves (set_pending_rules (pending_rules s1 ∖ {[name]}) s1) s2 → moves s s2) as Hrel.
  { intros name s2 Hn Hp Hm Hi.
    destruct (Hm (inv_release f fs name s Hf Hp Hn Hi)) as (? & d & ? & Hd). split; [done|].
    exists d. split; [done|]. intros h Hh. apply Hd. by apply (deliveries_frame h s). }
  destruct (rf_node fs) as [| | |name| | |] eqn:Hn.
  4:{ destruct (pending_rule_create fs) eqn:Hp.
      - destruct (rf_wrote fs); simpl.
        + destruct (parse_rule (rf_buf fs)) as [spec|].
          * apply (Hrel name); [done..|]. unfold commit_pending_rule. mrun. apply install_rule_moves.
          * apply (Hrel name); [done..|]. unfold abandon_pending_rule. mrun. apply moves_refl.
        + apply (Hrel name); [done..|]. apply moves_refl.
      - apply Hdrop; [|done]. rewrite andb_false_r. destruct (rf_wrote fs); [|apply moves_refl].
        destruct (ensure_current_rule_fid _ _ _ _); try apply moves_refl.
        destruct (parse_rule (rf_buf fs)) as [spec|]; [|apply moves_refl]. apply install_rule_moves. }
  all: intros Hi; destruct (pending_rule_create fs) eqn:Hp;
    [destruct (Hpn eq_refl Hi) as [? ?]; congruence|]; revert Hi; apply Hdrop; try done; try apply moves_refl.
  destruct (rf_wrote fs); [apply route_message_moves|apply moves_refl].
Qed.

Lemma read_moves f offset count s : moves s (route_read f offset count s).1.
Proof. unfold route_read. mrun. repeat case_match; simplify_eq/=; apply moves_refl. Qed.
Lemma stat_moves f s : moves s (route_stat hash_key f s).1.
Proof. unfold route_stat. mrun. repeat case_match; simplify_eq/=; apply moves_refl. Qed.

Lemma call_moves req s : moves s (transport_call req s).1.
Proof.
  destruct req; simpl; unfold mbind, m_bind;
    match goal with |- moves _ (match ?m s with _ => _ end).1 =>
      assert (moves s (m s).1) as Hm
        by (first [apply walk_moves|apply open_moves|apply read_moves|apply write_moves|apply stat_moves
                  |apply create_moves|apply remove_moves|apply clunk_moves]);
      by destruct (m s) as [s' []] end.
Qed.

(** ** Sessions *)

Inductive RouteEvent : Type := ERequest (req : Request) | EInstall (name : string) (spec : RuleSpec).
Definition route_step (s : RouteState) (e : RouteEvent) : RouteState :=
  match e with
  | ERequest req => (transport_call req s).1
  | EInstall name spec => (install_rule hash_key rule_json name spec s).1
  end.
Definition route_run (evs : list RouteEvent) : RouteState := foldl route_step route_new evs.

Lemma route_step_moves e s : moves s (route_step s e).
Proof. destruct e; [apply call_moves|apply install_rule_moves]. Qed.
Lemma route_inv_new : route_inv route_new ∧ deliveries [] route_new.
Proof.
  split.
  - by split.
  - split; simpl; [done| |by intros d ?%elem_of_nil].
    intros port st [<- <-]%lookup_singleton_Some. done.
Qed.
Lemma route_run_inv evs : ∃ h, route_inv (route_run evs) ∧ deliveries h (route_run evs) ∧ (length h ≤ length evs)%nat.
Proof.
  unfold route_run. destruct route_inv_new as [Hi Hd].
  assert (∀ h, route_inv route_new → deliveries h route_new →
    ∃ d, route_inv (foldl route_step route_new evs) ∧
      deliveries (h ++ d) (foldl route_step route_new evs) ∧ (length d ≤ length evs)%nat) as Hg.
  { generalize route_new. induction evs as [|e evs IH]; intros s h Hs Hh; simpl.
    - exists []. rewrite app_nil_r. split_and!; [done..|simpl; lia].
    - destruct (route_step_moves e s Hs) as (Hs' & d & Hl & Hd').
      destruct (IH (route_step s e) (h ++ d) Hs' (Hd' h Hh)) as (d' & H1 & H2 & H3).
      exists (d ++ d'). rewrite app_assoc. split_and!; [done..|]. rewrite length_app. lia. }
  destruct (Hg [] Hi Hd) as (d & ?). by exists d.
Qed.

(** C33: after any session of requests and rule installations there is one sequence of
    deliveries that explains every stream: the log is the records of all of them
    in order, and each port holds, in the same order, exactly the records routed
    to it. No record is lost, duplicated or delivered to two ports. Every rule in
    force is valid, readable as its own source and has an existing port, and a
    reserved rule name belongs to exactly one fid and to no rule. *)
Theorem every_message_delivered_once (evs : list RouteEvent) :
  ∃ h, deliveries h (route_run evs) ∧ (length h ≤ length evs)%nat ∧ route_inv (route_run evs).
Proof. destruct (route_run_inv evs) as (h & ? & ? & ?). by exists h. Qed.

Lemma delivered_ports port record s :
  ports (delivered port record s)
  = <[port := Stream.append (default Stream.new (ports s !! port)) record]> (ports s) ∧
  log (delivered port record s) = Stream.append (log s) record ∧
  rules (delivered port record s) = rules s ∧ r_fids (delivered port record s) = r_fids s.
Proof.
  unfold delivered. destruct (with_port_frame port s) as (E1 & _ & E3 & E4). simpl.
  rewrite E1, E3, E4. split_and!; [|done..]. unfold with_port.
  destruct (isSome (ports s !! port)) eqn:E; [done|]. apply isSome_false in E. simpl.
  rewrite lookup_insert_eq, insert_insert_eq, E. done.
Qed.

(** Committing a message to [send] delivers it by the first rule in name order
    that matches it, or to the dead-letter port when no rule does: exactly that
    port and the log grow, by the record of the message, and the rules stay. A
    document that is no message is refused and nothing is delivered. *)
Theorem message_follows_first_rule (s : RouteState) (f : Fid) (fs : RouteFid) :
  f ≠ ROOT → r_fids s !! f = Some fs → rf_node fs = RSend → rf_wrote fs = true →
  match parse_message parse_json (rf_buf fs) with
  | None => transport_call (ClunkReq f) s = (set_r_fids (delete f (r_fids s)) s, Err BadRequest)
  | Some m =>
      let '(port, rule, reason) := decision m (rules s) in
      ((∃ e, rules s !! rule = Some e ∧ spec_matches (entry_spec e) m = true ∧
          port = spec_port (entry_spec e) ∧ reason = spec_reason (entry_spec e) ∧
          ∀ rule' e', rules s !! rule' = Some e' → spec_matches (entry_spec e') m = true →
            String.le rule rule') ∨
       (port = DEAD_LETTER_PORT ∧
        ∀ rule' e', rules s !! rule' = Some e' → spec_matches (entry_spec e') m = false)) ∧
      ∀ record, routed_record_bytes record_json (mkRecord port rule reason (message_raw m)) = Some record →
        ∃ s', transport_call (ClunkReq f) s = (s', Ok ClunkResp) ∧
          ports s' = <[port := Stream.append (default Stream.new (ports s !! port)) record]> (ports s) ∧
          log s' = Stream.append (log s) record ∧ rules s' = rules s ∧ r_fids s' = delete f (r_fids s)
  end.
Proof.
  intros Hf Hfs Hn Hw. set (s1 := set_r_fids (delete f (r_fids s)) s).
  assert (transport_call (ClunkReq f) s =
    let '(s', r) := route_message hash_key parse_json record_json (rf_buf fs) s1 in
    (s', match r with Ok _ => Ok ClunkResp | Err e => Err e | Park => Park | Panic => Panic end)) as Hc.
  { simpl. unfold route_clunk. rewrite bool_decide_false by done. mrun. rewrite Hfs, Hn, Hw. fold s1.
    by destruct (route_message _ _ _ _ s1) as [s' []]. }
  rewrite Hc. destruct (route_message_cases (rf_buf fs) s1) as [[-> ->]|(m & -> & Hr)]; [done|].
  change (rules s1) with (rules s) in Hr.
  destruct (decision m (rules s)) as [[port rule] reason] eqn:Hd. split.
  - unfold decision in Hd. destruct (find_rule m (rules s)) as [[name e]|] eqn:Hfr; simplify_eq.
    + left. destruct (find_rule_some m (rules s) rule e Hfr) as (? & ? & ?). by exists e.
    + right. split; [done|]. intros. by eapply find_rule_none.
  - intros record Hrec. rewrite Hrec in Hr. rewrite Hr. eexists. split; [done|].
    destruct (delivered_ports port record s1) as (? & ? & ? & ?). done.
Qed.

(** ** Stale fids of rules *)

Section stale.
Context (name : string).
Definition rule_version (s : RouteState) : Z :=
  VersionTable.get (r_versions s) (route_identity hash_key (RRule name)).2.
Definition wraps_to (a b : Z) : Prop := a mod u32_size = b mod u32_size.

(** At most three bumps; without one the rule is as before or gone. *)
Definition rule_moves (s s' : RouteState) : Prop :=
  ∃ k, 0 ≤ k ≤ 3 ∧ wraps_to (rule_version s') (rule_version s + k) ∧
    (k = 0 → rules s' !! name = rules s !! name ∨ rules s' !! name = None).

Lemma bump_wraps t q p :
  ∃ k, 0 ≤ k ≤ 1 ∧ (q = p → k = 1) ∧
    wraps_to (VersionTable.get (VersionTable.bump t q) p) (VersionTable.get t p + k).
Proof.
  unfold wraps_to. destruct (decide (q = p)) as [->|Hne].
  - exists 1. split_and!; [lia..|done|]. rewrite VersionTable.get_bump_eq. unfold wrapping_add32.
    by rewrite Z.mod_mod by done.
  - exists 0. split_and!; [lia..|done|]. by rewrite VersionTable.get_bump_ne, Z.add_0_r.
Qed.
Lemma wraps_add a b c k l : wraps_to b (a + k) → wraps_to c (b + l) → wraps_to c (a + (k + l)).
Proof.
  unfold wraps_to. intros H1 H2. rewrite H2, Z.add_assoc.
  rewrite <-(Zplus_mod_idemp_l b), H1, Zplus_mod_idemp_l. done.
Qed.

Lemma rule_moves_quiet s s' : rules s' = rules s → r_versions s' = r_versions s → rule_moves s s'.
Proof.
  intros H1 H2. exists 0. unfold rule_version. rewrite H1, H2. split_and!; [lia..| |by left].
  unfold wraps_to. by rewrite Z.add_0_r.
Qed.
Lemma with_port_wraps port s :
  ∃ k, 0 ≤ k ≤ 1 ∧ wraps_to (rule_version (with_port port s)) (rule_version s + k).
Proof.
  unfold with_port. destruct (isSome _).
  - exists 0. split; [lia|]. unfold wraps_to. by rewrite Z.add_0_r.
  - destruct (bump_wraps (r_versions s) (route_identity hash_key RPortsDir).2
      (route_identity hash_key (RRule name)).2) as (k & ? & _ & ?). by exists k.
Qed.
Lemma install_rule_moves_rule n spec s : rule_moves s (install_rule hash_key rule_json n spec s).1.
Proof.
  destruct (install_rule_cases n spec s) as [->|(src & -> & _)]; [by apply rule_moves_quiet|].
  unfold installed. simpl. set (s0 := set_rules _ s).
  destruct (with_port_wraps (spec_port spec) s0) as (k1 & B1 & W1).
  destruct (bump_wraps (r_versions (with_port (spec_port spec) s0)) (route_identity hash_key RRulesDir).2
    (route_identity hash_key (RRule name)).2) as (k2 & B2 & _ & W2).
  destruct (bump_wraps (VersionTable.bump (r_versions (with_port (spec_port spec) s0))
      (route_identity hash_key RRulesDir).2) (route_identity hash_key (RRule n)).2
    (route_identity hash_key (RRule name)).2) as (k3 & B3 & E3 & W3).
  exists (k1 + (k2 + k3)). split_and!; [lia..| |].
  - eapply (wraps_add _ _ _ k1 (k2 + k3) W1). by eapply wraps_add.
  - intros Hz. left. simpl. destruct (with_port_frame (spec_port spec) s0) as (-> & _).
    unfold s0. simpl. rewrite lookup_insert_ne; [done|]. intros ->. specialize (E3 eq_refl). lia.
Qed.
Lemma route_message_moves_rule b s : rule_moves s (route_message hash_key parse_json record_json b s).1.
Proof.
  assert (∀ port, rule_moves s (with_port port s)) as Hp.
  { intros port. destruct (with_port_wraps port s) as (k & Hk & W). exists k. split_and!; [lia..|done|].
    intros _. left. by destruct (with_port_frame port s) as (-> & _). }
  destruct (route_message_cases b s) as [[_ ->]|(m & Hm & H)]; [by apply rule_moves_quiet|].
  destruct (decision m (rules s)) as [[port rn] re].
  destruct (routed_record_bytes _ _) as [record|]; rewrite H; simpl; [|done].
  destruct (Hp port) as (k & Hk & W & Hr). by exists k.
Qed.

(** Operations that leave rules and versions alone *)
Definition same_rules (s s' : RouteState) : Prop := rules s' = rules s ∧ r_versions s' = r_versions s.
#[local] Instance same_rules_preorder : PreOrder same_rules.
Proof. split; [done|]. intros ??? [] []. split; congruence. Qed.
Lemma set_fids_same g : step_rel (E := ErrorCode) same_rules (mmodify (λ s, set_r_fids (g s) s)).
Proof. by apply step_modify. Qed.
Lemma set_pending_same g : step_rel (E := ErrorCode) same_rules (mmodify (λ s, set_pending_rules (g s) s)).
Proof. by apply step_modify. Qed.
#[local] Hint Resolve set_fids_same set_pending_same : alan.
Lemma check_rule_fid_steps f n s : step_rel same_rules (check_rule_fid hash_key f n s).
Proof. unfold check_rule_fid. msteps. Qed.
#[local] Hint Resolve check_rule_fid_steps : alan.

Lemma same_rules_moves {A} (m : Op RouteState A) s : step_rel same_rules m → rule_moves s (m s).1.
Proof. intros Hm. destruct (Hm s). by apply rule_moves_quiet. Qed.

Lemma remove_moves_rule f s : rule_moves s (route_remove hash_key f s).1.
Proof.
  unfold route_remove. mrun. destruct (r_fids s !! f) as [fs|]; [|by apply rule_moves_quiet].
  destruct (bump_wraps (r_versions s) (route_identity hash_key RRulesDir).2
    (route_identity hash_key (RRule name)).2) as (k & Hk & _ & W).
  destruct (rf_node fs) as [| | |n| | |]; try by apply rule_moves_quiet.
  destruct (pending_rule_create fs).
  - case_bool_decide; [|by apply rule_moves_quiet]. exists k. split_and!; [lia..|done|by left].
  - destruct (ensure_current_rule_fid _ _ _ _); try by apply rule_moves_quiet.
    destruct (isSome _); [|by apply rule_moves_quiet]. exists k. split_and!; [lia..|done|]. intros _. simpl.
    destruct (decide (n = name)) as [->|]; [right; apply lookup_delete_eq|left; by rewrite lookup_delete_ne].
Qed.
Lemma clunk_moves_rule f s :
  rule_moves s (route_clunk hash_key parse_json parse_rule rule_json record_json f s).1.
Proof.
  unfold route_clunk. case_bool_decide; [by apply rule_moves_quiet|]. mrun.
  destruct (r_fids s !! f) as [fs|]; [|by apply rule_moves_quiet].
  set (s1 := set_r_fids (delete f (r_fids s)) s).
  destruct (rf_node fs) as [| | |n| | |]; try by apply rule_moves_quiet.
  - destruct (rf_wrote fs); [|by apply rule_moves_quiet]. exact (route_message_moves_rule (rf_buf fs) s1).
  - destruct (rf_wrote fs && pending_rule_create fs).
    + destruct (parse_rule (rf_buf fs)) as [spec|]; [|by apply rule_moves_quiet].
      unfold commit_pending_rule. mrun. exact (install_rule_moves_rule n spec (set_pending_rules _ s1)).
    + destruct (rf_wrote fs).
      * destruct (ensure_current_rule_fid _ _ _ _); try by apply rule_moves_quiet.
        destruct (parse_rule (rf_buf fs)) as [spec|]; [|by apply rule_moves_quiet].
        exact (install_rule_moves_rule n spec s1).
      * destruct (pending_rule_create fs); by apply rule_moves_quiet.
Qed.
Lemma route_step_moves_rule e s : rule_moves s (route_step s e).
Proof.
  destruct e as [req|n spec]; [|apply install_rule_moves_rule].
  destruct req; simpl; unfold mbind, m_bind;
    match goal with |- rule_moves _ (match ?m s with _ => _ end).1 =>
      assert (rule_moves s (m s).1) as Hm; [|by destruct (m s) as [s' []]] end;
    try apply remove_moves_rule; try apply clunk_moves_rule; apply same_rules_moves.
  - unfold route_walk. msteps.
  - unfold route_open. msteps.
  - unfold route_read. msteps.
  - unfold route_write. msteps.
  - unfold route_stat. msteps.
  - unfold route_create. msteps.
Qed.

(** A fid that is not released keeps what it stands for. *)
Definition releases (f : Fid) (e : RouteEvent) : bool :=
  match e with ERequest (ClunkReq g) | ERequest (RemoveReq g) => bool_decide (g = f) | _ => false end.
Definition same_fid (fs fs' : RouteFid) : Prop :=
  rf_node fs' = rf_node fs ∧ pending_rule_create fs' = pending_rule_create fs ∧
  observed_rule_version fs' = observed_rule_version fs.
Definition keeps_fid (f : Fid) (s s' : RouteState) : Prop :=
  ∀ fs, r_fids s !! f = Some fs → ∃ fs', r_fids s' !! f = Some fs' ∧ same_fid fs fs'.

Lemma keeps_fid_same f s s' : r_fids s' = r_fids s → keeps_fid f s s'.
Proof. intros H fs Hf. exists fs. by rewrite H. Qed.
Lemma keeps_fid_delete f g s s' : g ≠ f → r_fids s' = delete g (r_fids s) → keeps_fid f s s'.
Proof. intros Hne H fs Hf. exists fs. rewrite H, lookup_delete_ne by done. done. Qed.
Lemma keeps_fid_insert f g gs s s' :
  (∀ fs, g = f → r_fids s !! f = Some fs → same_fid fs gs) → r_fids s' = <[g := gs]> (r_fids s) →
  keeps_fid f s s'.
Proof.
  intros Hs H fs Hf. rewrite H. destruct (decide (g = f)) as [->|Hne].
  - exists gs. rewrite lookup_insert_eq. split; [done|]. by apply Hs.
  - exists fs. by rewrite lookup_insert_ne.
Qed.
Lemma message_fids b s : r_fids (route_message hash_key parse_json record_json b s).1 = r_fids s.
Proof.
  destruct (route_message_cases b s) as [[_ ->]|(m & Hm & H)]; [done|].
  destruct (decision m (rules s)) as [[port rn] re].
  destruct (routed_record_bytes _ _) as [record|]; rewrite H; simpl; by destruct (with_port_frame port s) as (_ & _ & ? & _).
Qed.
Lemma install_fids n spec s : r_fids (install_rule hash_key rule_json n spec s).1 = r_fids s.
Proof.
  destruct (install_rule_cases n spec s) as [->|(src & -> & _)]; [done|]. unfold installed. simpl.
  by destruct (with_port_frame (spec_port spec) (set_rules (<[n := mkEntry spec src]> (rules s)) s))
    as (_ & _ & -> & _).
Qed.
Lemma clunk_fids f s :
  r_fids (route_clunk hash_key parse_json parse_rule rule_json record_json f s).1 = r_fids s ∨
  r_fids (route_clunk hash_key parse_json parse_rule rule_json record_json f s).1 = delete f (r_fids s).
Proof.
  unfold route_clunk. case_bool_decide; [by left|]. mrun.
  destruct (r_fids s !! f) as [fs|]; [|by left]. right.
  set (s1 := set_r_fids (delete f (r_fids s)) s).
  destruct (rf_node fs) as [| | |n| | |]; try done.
  - destruct (rf_wrote fs); [|done]. by rewrite message_fids.
  - destruct (rf_wrote fs && pending_rule_create fs).
    + destruct (parse_rule (rf_buf fs)) as [spec|]; [|done].
      unfold commit_pending_rule. mrun. by rewrite install_fids.
    + destruct (rf_wrote fs); [|by destruct (pending_rule_create fs)].
      destruct (ensure_current_rule_fid _ _ _ _); try done.
      destruct (parse_rule (rf_buf fs)) as [spec|]; [|done]. by rewrite install_fids.
Qed.
Lemma route_step_keeps_fid f e s : releases f e = false → keeps_fid f s (route_step s e).
Proof.
  intros Hr. destruct e as [req|n spec]; [|apply keeps_fid_same, install_fids].
  destruct req as [g newfid names|g m|g offset count|g offset data|g|g newfid n k|g|g]; simpl in *;
    unfold mbind, m_bind;
    match goal with |- keeps_fid _ _ (match ?m s with _ => _ end).1 =>
      assert (keeps_fid f s (m s).1) as Hm; [|by destruct (m s) as [s' []]] end.
  - unfold route_walk. mrun. destruct (_ || _) eqn:E; [by apply keeps_fid_same|]. bool_facts.
    destruct (route_node_of g s); [|by apply keeps_fid_same].
    destruct (route_walk_names _ _ _); try by apply keeps_fid_same.
    eapply (keeps_fid_insert f newfid); [|done]. intros fs -> Hfs. congruence.
  - unfold route_open. mrun. destruct (route_node_of g s) as [n|]; [|by apply keeps_fid_same].
    destruct (_ && isSome _); [by apply keeps_fid_same|]. destruct (_ && negb _); [by apply keeps_fid_same|].
    pose proof (check_rule_fid_same g n s s) as Hc.
    assert (keeps_fid f s (if bool_decide (g = ROOT) then s
       else match r_fids s !! g with
            | Some fs => set_r_fids (<[g := mkRouteFid (rf_node fs) (Some m) (rf_buf fs) (rf_wrote fs)
                           (pending_rule_create fs) (observed_rule_version fs)]> (r_fids s)) s
            | None => s
            end)) as Hm.
    { case_bool_decide; [by apply keeps_fid_same|].
      destruct (r_fids s !! g) as [fs|] eqn:Hg; [|by apply keeps_fid_same].
      eapply (keeps_fid_insert f g); [|done]. intros fs' -> Hfs'. by simplify_eq. }
    destruct (mode_writes m); [destruct (check_rule_fid hash_key g n s s) as [s0 [[]| | |]]; simpl in Hc;
      subst s0; try by apply keeps_fid_same|]; (case_bool_decide; [done|]; by destruct (r_fids s !! g)).
  - apply keeps_fid_same. unfold route_read. mrun. by repeat case_match; simplify_eq/=.
  - unfold route_write. mrun. destruct (route_node_of g s) as [n|]; [|by apply keeps_fid_same].
    destruct (r_fids s !! g) as [fs|] eqn:Hg; [|by apply keeps_fid_same].
    destruct (negb _); [by apply keeps_fid_same|]. destruct (negb _); [by apply keeps_fid_same|].
    pose proof (check_rule_fid_same g n s s) as Hc.
    destruct (check_rule_fid hash_key g n s s) as [s0 r]. simpl in Hc. subst s0.
    destruct r; try by apply keeps_fid_same. destruct (usize_try_from offset); [|by apply keeps_fid_same].
    destruct (checked_add64 _ _); [|by apply keeps_fid_same]. destruct (_ <? _); [by apply keeps_fid_same|].
    eapply (keeps_fid_insert f g); [|done]. intros fs' -> Hfs'. by simplify_eq.
  - apply keeps_fid_same. unfold route_stat. mrun. by repeat case_match; simplify_eq/=.
  - unfold route_create. destruct (_ || _); [by apply keeps_fid_same|]. mrun.
    destruct (bool_decide (newfid = ROOT) || isSome (r_fids s !! newfid)) eqn:E1; [by apply keeps_fid_same|].
    destruct (route_node_of g s) as [nd|]; [|by apply keeps_fid_same].
    destruct (negb (bool_decide (nd = RRulesDir)) || isSome (rules s !! n)
            || bool_decide (n ∈ pending_rules s)); [by apply keeps_fid_same|]. bool_facts.
    eapply (keeps_fid_insert f newfid); [|done]. intros fs -> Hfs. congruence.
  - bool_facts. unfold route_remove. mrun. destruct (r_fids s !! g) as [fs|]; [|by apply keeps_fid_same].
    destruct (rf_node fs); try by apply keeps_fid_same.
    destruct (pending_rule_create fs); [case_bool_decide; [|by apply keeps_fid_same]|].
    + by apply (keeps_fid_delete f g).
    + destruct (ensure_current_rule_fid _ _ _ _); try by apply keeps_fid_same.
      destruct (isSome _); [|by apply keeps_fid_same]. by apply (keeps_fid_delete f g).
  - bool_facts. destruct (clunk_fids g s) as [H|H]; [by apply keeps_fid_same|by apply (keeps_fid_delete f g)].
Qed.

(** The rule is gone, or its version has moved on from [obs] by at most [B] bumps. *)
Definition moved_on (obs B : Z) (s : RouteState) : Prop :=
  ∃ k, 0 ≤ k ≤ B ∧ wraps_to (rule_version s) (obs + k) ∧ (rules s !! name = None ∨ 1 ≤ k).
Lemma moved_on_step obs B e s : moved_on obs B s → moved_on obs (B + 3) (route_step s e).
Proof.
  intros (k & Hk & W & H). destruct (route_step_moves_rule e s) as (l & Hl & W' & H').
  exists (k + l). split_and!; [lia..|by eapply wraps_add|].
  destruct (decide (l = 0)) as [->|]; [|right; lia]. destruct (H' eq_refl) as [->|]; [|by left].
  destruct H; [by left|right; lia].
Qed.
Lemma moved_on_run obs B evs s :
  moved_on obs B s → moved_on obs (B + 3 * Z.of_nat (length evs)) (foldl route_step s evs).
Proof.
  revert B s. induction evs as [|e evs IH]; intros B s H; simpl.
  - by rewrite Z.add_0_r.
  - apply (moved_on_step obs B e) in H. apply IH in H.
    by replace (B + 3 * Z.of_nat (S (length evs))) with (B + 3 + 3 * Z.of_nat (length evs)) by lia.
Qed.
Lemma run_keeps_fid f evs s :
  Forall (λ e, releases f e = false) evs → keeps_fid f s (foldl route_step s evs).
Proof.
  revert s. induction evs as [|e evs IH]; intros s Hr fs Hf; simpl; [by exists fs|].
  apply Forall_cons in Hr as [He Hr]. destruct (route_step_keeps_fid f e s He fs Hf) as (fs1 & H1 & A1 & A2 & A3).
  destruct (IH _ Hr fs1 H1) as (fs2 & H2 & B1 & B2 & B3). exists fs2. split; [done|].
  split_and!; congruence.
Qed.

(** A fid that saw an older version fails the test. *)
Lemma stale_refused fs obs B s :
  pending_rule_create fs = false → observed_rule_version fs = Some obs → moved_on obs B s → B < u32_size →
  ∃ e, ensure_current_rule_fid hash_key fs name s = Err e.
Proof.
  intros Hp Ho (k & Hk & W & H) HB. unfold ensure_current_rule_fid, current_rule_version. rewrite Hp, Ho.
  destruct (rules s !! name) as [e|] eqn:Hr; simpl; [|by eexists].
  destruct (negb _) eqn:Hb; [by eexists|]. exfalso. apply negb_false_iff, Z.eqb_eq in Hb.
  assert (obs = rule_version s) as Heq by exact Hb.
  destruct H as [|H]; [done|]. unfold wraps_to in W. rewrite <-Heq in W.
  assert (k mod u32_size = 0) as Hz.
  { replace k with ((obs + k) - obs) by lia. rewrite Zminus_mod, <-W, Z.sub_diag. done. }
  rewrite Z.mod_small in Hz by lia. lia.
Qed.
End stale.

(** No lost update of a rule. When a fid stands for the rule it was walked to and
    the rule is then replaced or removed by anyone, the fid can no longer change
    it: after any further session that does not release the fid (of fewer
    requests than it takes the 32-bit version to come round), committing its
    buffer and removing the rule are refused and the rules stay as they are, also
    when a new rule of the name was created. *)
Theorem stale_rule_fid_refused (name : string) (s : RouteState) (f : Fid) (fs : RouteFid) (e : RouteEvent)
    (evs : list RouteEvent) :
  f ≠ ROOT → r_fids s !! f = Some fs → rf_node fs = RRule name → pending_rule_create fs = false →
  observed_rule_version fs = Some (rule_version name s) →
  rules (route_step s e) !! name ≠ rules s !! name →
  Forall (λ e, releases f e = false) (e :: evs) →
  3 * Z.of_nat (length (e :: evs)) < u32_size →
  let s' := foldl route_step s (e :: evs) in
  (∃ err, transport_call (RemoveReq f) s' = (s', Err err)) ∧
  (let '(s2, r) := transport_call (ClunkReq f) s' in
   rules s2 = rules s' ∧ ∃ fs', r_fids s' !! f = Some fs' ∧ (rf_wrote fs' = true → ∃ err, r = Err err)).
Proof.
  intros Hroot Hf Hn Hp Ho Hch Hrel Hlen s'.
  destruct (run_keeps_fid f (e :: evs) s Hrel fs Hf) as (fs' & Hf' & Hn' & Hp' & Ho').
  rewrite Hn in Hn'. rewrite Hp in Hp'. rewrite Ho in Ho'. fold s' in Hf'.
  assert (moved_on name (rule_version name s) 3 (route_step s e)) as Hm.
  { destruct (route_step_moves_rule name e s) as (k & Hk & W & H). exists k. split_and!; [lia..|done|].
    destruct (decide (k = 0)) as [->|]; [|right; lia]. destruct (H eq_refl); [done|by left]. }
  apply (moved_on_run name _ _ evs) in Hm. change (foldl route_step (route_step s e) evs) with s' in Hm.
  destruct (stale_refused name fs' _ _ s' Hp' Ho' Hm) as (err & Herr); [cbn [length] in Hlen; lia|].
  split.
  - exists err. simpl. unfold mbind, m_bind, route_remove. mrun. by rewrite Hf', Hn', Hp', Herr.
  - simpl. unfold mbind, m_bind, route_clunk. rewrite bool_decide_false by done. mrun.
    rewrite Hf', Hn', Hp', andb_false_r.
    destruct (rf_wrote fs') eqn:Hw; cbv beta iota.
    + match goal with |- context [ensure_current_rule_fid ?h ?a ?b ?c] =>
        assert (ensure_current_rule_fid h a b c = Err err) as -> by exact Herr end.
      split; [done|]. exists fs'. rewrite Hw. by eauto.
    + split; [done|]. exists fs'. rewrite Hw. by eauto.
Qed.
End routefacts.

(** ** Concrete sessions *)

(** A digest and JSON stand-ins: a message is its type, a rule is its port. *)
Definition toy_route_key (k : string) : Z := Z.of_nat (String.length k).
Definition toy_message (b : bytes) : option Json :=
  Some (JObject [("version", JNumber "1"); ("type", JString (of_bytes b)); ("content", JString "")]).
Definition toy_rule (b : bytes) : option RuleSpec :=
  Some (mkSpec 1 (Some "note") None (of_bytes b) None).
Definition toy_rule_json (r : RuleSpec) : option bytes := Some (into_bytes (spec_port r)).
Definition toy_record (r : RoutedRecord) : option bytes := Some (into_bytes (rec_port r)).
Abbreviation toy_route_run := (route_run toy_route_key toy_message toy_rule toy_rule_json toy_record).
Abbreviation toy_route_step := (route_step toy_route_key toy_message toy_rule toy_rule_json toy_record).

(** Two fids on the rule [a]; the second is written. Fid 3 has a message. *)
Definition toy_route_session : list RouteEvent :=
  [EInstall "a" (mkSpec 1 (Some "note") None "inbox" None);
   ERequest (WalkReq ROOT 1 ["rules"; "a"]); ERequest (OpenReq 1 Write);
   ERequest (WriteReq 1 0 (into_bytes "late"));
   ERequest (WalkReq ROOT 2 ["rules"; "a"]); ERequest (OpenReq 2 Write);
   ERequest (WriteReq 2 0 (into_bytes "other"));
   ERequest (WalkReq ROOT 3 ["send"]); ERequest (OpenReq 3 Write);
   ERequest (WriteReq 3 0 (into_bytes "note"))].

Lemma message_follows_first_rule_witness :
  let FS := RouteFs_FileServer toy_route_key toy_message toy_rule toy_rule_json toy_record in
  let s := toy_route_run toy_route_session in
  ∃ s', transport_call (ClunkReq 3) s = (s', Ok ClunkResp) ∧
    log s' = Stream.append (log s) (into_bytes "inbox" ++ [newline]).
Proof.
  intros FS s.
  assert ((λ fs, (rf_node fs, rf_wrote fs, rf_buf fs)) <$> r_fids s !! 3
    = Some (RSend, true, into_bytes "note")) as Hfs by (vm_compute; reflexivity).
  destruct (r_fids s !! 3) as [fs|] eqn:Hf; [|discriminate]. injection Hfs as Hn Hw Hb.
  assert ((λ m, decision m (rules s)) <$> parse_message toy_message (into_bytes "note")
    = Some ("inbox", "a", None)) as Hd by (vm_compute; reflexivity).
  clearbody s.
  destruct (parse_message toy_message (into_bytes "note")) as [m|] eqn:Hm; [|discriminate].
  apply (inj Some) in Hd.
  pose proof (message_follows_first_rule toy_route_key toy_message toy_rule toy_rule_json toy_record
    s 3 fs ltac:(done) Hf Hn Hw) as H. rewrite Hb, Hm, Hd in H.
  destruct H as [_ H]. destruct (H (into_bytes "inbox" ++ [newline]) eq_refl) as (s' & H1 & _ & H2 & _).
  exists s'. exact (conj H1 H2).
Defined.

(** Fid 1 saw the rule before fid 2 replaced it. *)
Lemma toy_stale_fid :
  (λ fs, (rf_node fs, pending_rule_create fs, observed_rule_version fs))
    <$> r_fids (toy_route_run toy_route_session) !! 1
  = Some (RRule "a", false, Some (rule_version toy_route_key "a" (toy_route_run toy_route_session))).
Proof. vm_compute. reflexivity. Qed.
Lemma toy_stale_changed :
  rules (toy_route_step (toy_route_run toy_route_session) (ERequest (ClunkReq 2))) !! "a"
  ≠ rules (toy_route_run toy_route_session) !! "a".
Proof. vm_compute. congruence. Qed.
Lemma stale_rule_fid_refused_witness :
  let FS := RouteFs_FileServer toy_route_key toy_message toy_rule toy_rule_json toy_record in
  let s := toy_route_run toy_route_session in
  let s' := toy_route_step s (ERequest (ClunkReq 2)) in
  rules (toy_route_step s' (ERequest (ClunkReq 1))) = rules s'.
Proof.
  generalize toy_stale_changed, toy_stale_fid. generalize (toy_route_run toy_route_session).
  intros s Hch Hfs FS s0 s'.
  unfold s0 in *. clear s0.
  destruct (r_fids s !! 1) as [fs|] eqn:Hf; [|discriminate].
  apply (inj Some) in Hfs. apply pair_equal_spec in Hfs as [Hfs Ho]. apply pair_equal_spec in Hfs as [Hn Hp].
  destruct (stale_rule_fid_refused toy_route_key toy_message toy_rule toy_rule_json toy_record "a" s 1 fs
    (ERequest (ClunkReq 2)) [] ltac:(done) Hf Hn Hp Ho Hch ltac:(by repeat constructor) ltac:(done)) as [_ H].
  change (foldl (route_step toy_route_key toy_message toy_rule toy_rule_json toy_record) s
    [ERequest (ClunkReq 2)]) with s' in H.
  cbn [route_step]. destruct (transport_call (ClunkReq 1) s') as [s2 r]. apply H.
Defined.
