(* ===== verification/Protocol.v ===== *)
(** * Submissions and their serialised form (crates/agent-protocol)

    The operations a user submits, [op.rs] and [user_input.rs], the reasoning
    efforts of [reasoning.rs], the input bindings of
    [agent-engine/src/runtime/model_binding.rs] and [request_controls.rs], and the
    JSON values their derived serialisers write. The derived parsers are the class
    [SubmissionSerde]: of serde they promise only what the code relies on, the
    laws [SubmissionSerdeLaws]. *)
From S2P Require Import Prelude RustStd RustText Tape.

(** ** Values of the protocol *)

Inductive ReasoningEffort : Set :=
  EffortNone | Minimal | Low | Medium | High | XHigh | Max | Ultra.
Global Instance effort_eq_dec : EqDecision ReasoningEffort.
Proof. solve_decision. Defined.

Definition effort_as_str (e : ReasoningEffort) : string :=
  match e with
  | EffortNone => "none" | Minimal => "minimal" | Low => "low" | Medium => "medium"
  | High => "high" | XHigh => "xhigh" | Max => "max" | Ultra => "ultra"
  end.

Inductive InputIntent : Set := Agent | ForceAgent | Command.
Global Instance intent_eq_dec : EqDecision InputIntent.
Proof. solve_decision. Defined.

Inductive InputMode : Set := Steer | FollowUp | NextTurn.
Global Instance mode_eq_dec : EqDecision InputMode.
Proof. solve_decision. Defined.

Record TurnContext : Set := mkTurnContext { ctx_reasoning_effort : option ReasoningEffort }.

Inductive Op : Type :=
  | Turn (parts : list ContentPart) (context : option TurnContext)
  | Input (parts : list ContentPart) (mode : InputMode)
  | Resume (request_id : string) (content : list ContentPart)
  | Interrupt
  | InterruptSubmission (submission_id : string)
  | SelectProjectDirectory (path : string)
  | SelectModel (model : string)
  | ContinueQueue
  | DiscardQueue
  | CompactWithOptions (focus : option string)
  | Rollback (turns : Z).

Record Submission : Type := mkSubmission {
  sub_id : string; sub_intent : InputIntent; sub_op : Op }.

(** [matches!(input.op, Op::Turn { .. } | Op::Input { .. })] *)
Definition is_input_op (op : Op) : bool :=
  match op with Turn _ _ | Input _ _ => true | _ => false end.

(** ** Input bindings *)

Record CallableIdentity : Type := mkIdentity {
  identity_profile : string; identity_provider : string; identity_model : string;
  credential_ref : option string; identity_revision : string }.

Inductive RequestControlSource : Set :=
  TurnOverride | AgentMachineOverride | AgentConfig | ModelDefault | ProviderDefault.

Record ReasoningControls : Set := mkReasoning { reasoning_effort : option ReasoningEffort }.
Record ResolvedRequestControls : Type := mkControls {
  controls_reasoning : ReasoningControls;
  controls_source : RequestControlSource;
  controls_diagnostics : list string;
}.
Record InputBinding : Type := mkBinding {
  callable_binding : CallableIdentity; request_controls : ResolvedRequestControls }.

(** ** Derived serialisers *)

Definition opt_field (key : string) (o : option Json) : list (string * Json) :=
  match o with Some v => [(key, v)] | None => [] end.
Definition opt_string (o : option string) : Json :=
  match o with Some s => JString s | None => JNull end.

Definition content_part_to_value (p : ContentPart) : Json :=
  match p with
  | Text text => JObject [("type", JString "text"); ("text", JString text)]
  | Thinking text signature =>
      JObject ([("type", JString "thinking"); ("text", JString text)]
               ++ opt_field "signature" (JString <$> signature))
  | RedactedThinking data =>
      JObject [("type", JString "redacted_thinking"); ("data", JString data)]
  | Attachment hash mime_type metadata =>
      JObject [("type", JString "attachment"); ("hash", JString hash);
               ("mime_type", JString mime_type); ("metadata", metadata)]
  | Structured data => JObject [("type", JString "structured"); ("data", data)]
  end.
Definition parts_to_value (parts : list ContentPart) : Json :=
  JArray (content_part_to_value <$> parts).

Definition mode_as_str (m : InputMode) : string :=
  match m with Steer => "steer" | FollowUp => "follow_up" | NextTurn => "next_turn" end.
Definition intent_as_str (i : InputIntent) : string :=
  match i with Agent => "agent" | ForceAgent => "force_agent" | Command => "command" end.
Definition effort_to_value (e : ReasoningEffort) : Json := JString (effort_as_str e).
Definition turn_context_to_value (c : TurnContext) : Json :=
  JObject (opt_field "reasoning_effort" (effort_to_value <$> ctx_reasoning_effort c)).

Definition op_to_value (op : Op) : Json :=
  match op with
  | Turn parts context =>
      JObject ([("type", JString "turn"); ("parts", parts_to_value parts)]
               ++ opt_field "context" (turn_context_to_value <$> context))
  | Input parts mode =>
      JObject [("type", JString "input"); ("parts", parts_to_value parts);
               ("mode", JString (mode_as_str mode))]
  | Resume request_id content =>
      JObject [("type", JString "resume"); ("request_id", JString request_id);
               ("content", parts_to_value content)]
  | Interrupt => JObject [("type", JString "interrupt")]
  | InterruptSubmission submission_id =>
      JObject [("type", JString "interrupt_submission"); ("submission_id", JString submission_id)]
  | SelectProjectDirectory path =>
      JObject [("type", JString "select_project_directory"); ("path", JString path)]
  | SelectModel model => JObject [("type", JString "select_model"); ("model", JString model)]
  | ContinueQueue => JObject [("type", JString "continue_queue")]
  | DiscardQueue => JObject [("type", JString "discard_queue")]
  | CompactWithOptions focus =>
      JObject (("type", JString "compact_with_options") :: opt_field "focus" (JString <$> focus))
  | Rollback turns =>
      JObject [("type", JString "rollback"); ("turns", JNumber (dec_string_Z turns))]
  end.
Definition submission_to_value (s : Submission) : Json :=
  JObject [("id", JString (sub_id s)); ("intent", JString (intent_as_str (sub_intent s)));
           ("op", op_to_value (sub_op s))].

Definition source_as_str (s : RequestControlSource) : string :=
  match s with
  | TurnOverride => "turn_override" | AgentMachineOverride => "agent_machine_override"
  | AgentConfig => "agent_config" | ModelDefault => "model_default"
  | ProviderDefault => "provider_default"
  end.
Definition identity_to_value (i : CallableIdentity) : Json :=
  JObject [("profile", JString (identity_profile i)); ("provider", JString (identity_provider i));
           ("model", JString (identity_model i)); ("credential_ref", opt_string (credential_ref i));
           ("revision", JString (identity_revision i))].
Definition reasoning_to_value (r : ReasoningControls) : Json :=
  JObject (opt_field "effort" (effort_to_value <$> reasoning_effort r)).
Definition diagnostic_to_value (message : string) : Json := JObject [("message", JString message)].
(** [diagnostics] is skipped when it is empty. *)
Definition controls_to_value (c : ResolvedRequestControls) : Json :=
  JObject ([("reasoning", reasoning_to_value (controls_reasoning c));
            ("source", JString (source_as_str (controls_source c)))]
           ++ match controls_diagnostics c with
              | [] => []
              | ds => [("diagnostics", JArray (diagnostic_to_value <$> ds))]
              end).

(** [json!(ids)] and [serde_json::from_value::<Vec<String>>] *)
Definition strings_to_value (ids : list string) : Json := JArray (JString <$> ids).
Definition strings_from_value (j : Json) : option (list string) :=
  match j with JArray items => mapM as_str items | _ => None end.

Lemma strings_round_trip ids : strings_from_value (strings_to_value ids) = Some ids.
Proof.
  unfold strings_from_value, strings_to_value.
  induction ids as [|i ids IH]; [done|]. rewrite fmap_cons. simpl. by rewrite IH.
Qed.

(** The comparison [value == json!(ids)] is the comparison of the strings read. *)
Lemma strings_from_value_Some j ids :
  strings_from_value j = Some ids ↔ j = strings_to_value ids.
Proof.
  split; [|intros ->; apply strings_round_trip].
  destruct j as [| | | |items|]; simpl; try done. unfold strings_to_value.
  intros H. f_equal. revert ids H. induction items as [|i items IH]; intros ids; simpl.
  - by intros [= <-].
  - destruct i as [| | |s| |]; simpl; try done. destruct (mapM as_str items) as [l|]; [|done].
    intros [= <-]. rewrite fmap_cons. by rewrite <- (IH l).
Qed.

(** [value[key] = v] on an object, and [value[key]] *)
Fixpoint set_field (key : string) (v : Json) (fields : list (string * Json)) :
    list (string * Json) :=
  match fields with
  | [] => [(key, v)]
  | (k, w) :: fields' => if bool_decide (k = key) then (k, v) :: fields'
                         else (k, w) :: set_field key v fields'
  end.
Definition index_set (key : string) (v j : Json) : Json :=
  match j with JObject fields => JObject (set_field key v fields) | _ => j end.
Definition index (key : string) (j : Json) : Json := default JNull (value_get key j).

Lemma json_get_set_eq key v fields : json_get (set_field key v fields) key = Some v.
Proof.
  induction fields as [|[k w] fields IH]; simpl; [by rewrite bool_decide_true|].
  case_bool_decide; simpl; [by rewrite bool_decide_true|]. by rewrite bool_decide_false.
Qed.
Lemma json_get_set_ne key key' v fields :
  key' ≠ key → json_get (set_field key v fields) key' = json_get fields key'.
Proof.
  intros Hne. induction fields as [|[k w] fields IH]; simpl; [by rewrite bool_decide_false|].
  case_bool_decide; simpl; [by subst; rewrite !bool_decide_false|]. by rewrite IH.
Qed.

(** ** Derived parsers *)

(** [serde_json::from_value] for the types above *)
Class SubmissionSerde := {
  submission_from_value : Json → option Submission;
  identity_from_value : Json → option CallableIdentity;
  controls_from_value : Json → option ResolvedRequestControls;
}.
(** A [u32] field holds a 32-bit value. *)
Definition submission_wf (s : Submission) : Prop :=
  match sub_op s with Rollback turns => 0 ≤ turns < u32_size | _ => True end.

(** What the derives document: a value that was serialised is read back, and a
    struct without [deny_unknown_fields] ignores the fields it does not have. *)
Class SubmissionSerdeLaws `{SubmissionSerde} := {
  submission_round_trip s : submission_wf s → submission_from_value (submission_to_value s) = Some s;
  submission_ignores key v fields : key ∉ ["id"; "intent"; "op"] →
    submission_from_value (JObject (set_field key v fields)) = submission_from_value (JObject fields);
  identity_round_trip i : identity_from_value (identity_to_value i) = Some i;
  controls_round_trip c : controls_from_value (controls_to_value c) = Some c;
}.

(** ** A concrete parser of submissions

    An instance of [SubmissionSerde] that reads the values the serialisers of
    Protocol write. It shows that the laws can be met, and runs the examples. *)


Definition str_field (key : string) (j : Json) : option string := value_get key j ≫= as_str.
(** A field that may be absent *)
Definition opt_of {A} (f : Json → option A) (key : string) (j : Json) : option (option A) :=
  match value_get key j with None => Some None | Some v => Some <$> f v end.

Definition part_of (j : Json) : option ContentPart :=
  match str_field "type" j with
  | Some "text" => Text <$> str_field "text" j
  | Some "thinking" =>
      text ← str_field "text" j; signature ← opt_of as_str "signature" j;
      Some (Thinking text signature)
  | Some "redacted_thinking" => RedactedThinking <$> str_field "data" j
  | Some "attachment" =>
      hash ← str_field "hash" j; mime_type ← str_field "mime_type" j;
      Some (Attachment hash mime_type (index "metadata" j))
  | Some "structured" => Structured <$> value_get "data" j
  | _ => None
  end.
Definition parts_of (key : string) (j : Json) : option (list ContentPart) :=
  match value_get key j with Some (JArray items) => mapM part_of items | _ => None end.

Definition effort_of (j : Json) : option ReasoningEffort :=
  match j with
  | JString "none" => Some EffortNone | JString "minimal" => Some Minimal
  | JString "low" => Some Low | JString "medium" => Some Medium | JString "high" => Some High
  | JString "xhigh" => Some XHigh | JString "max" => Some Max | JString "ultra" => Some Ultra
  | _ => None
  end.
Definition context_of (j : Json) : option TurnContext :=
  mkTurnContext <$> opt_of effort_of "reasoning_effort" j.
Definition mode_of (s : string) : option InputMode :=
  match s with
  | "steer" => Some Steer | "follow_up" => Some FollowUp | "next_turn" => Some NextTurn
  | _ => None
  end.
Definition intent_of (s : string) : option InputIntent :=
  match s with
  | "agent" => Some Agent | "force_agent" => Some ForceAgent | "command" => Some Command
  | _ => None
  end.

Definition op_of (j : Json) : option Op :=
  match str_field "type" j with
  | Some "turn" =>
      parts ← parts_of "parts" j; context ← opt_of context_of "context" j; Some (Turn parts context)
  | Some "input" =>
      parts ← parts_of "parts" j; mode ← str_field "mode" j ≫= mode_of; Some (Input parts mode)
  | Some "resume" =>
      request_id ← str_field "request_id" j; content ← parts_of "content" j;
      Some (Resume request_id content)
  | Some "interrupt" => Some Interrupt
  | Some "interrupt_submission" => InterruptSubmission <$> str_field "submission_id" j
  | Some "select_project_directory" => SelectProjectDirectory <$> str_field "path" j
  | Some "select_model" => SelectModel <$> str_field "model" j
  | Some "continue_queue" => Some ContinueQueue
  | Some "discard_queue" => Some DiscardQueue
  | Some "compact_with_options" => CompactWithOptions <$> opt_of as_str "focus" j
  | Some "rollback" => Rollback <$> (value_get "turns" j ≫= as_u64)
  | _ => None
  end.
Definition submission_of (j : Json) : option Submission :=
  id ← str_field "id" j; intent ← str_field "intent" j ≫= intent_of; op ← value_get "op" j ≫= op_of;
  Some (mkSubmission id intent op).

Definition identity_of (j : Json) : option CallableIdentity :=
  profile ← str_field "profile" j; provider ← str_field "provider" j; model ← str_field "model" j;
  revision ← str_field "revision" j;
  Some (mkIdentity profile provider model (value_get "credential_ref" j ≫= as_str) revision).
Definition source_of (s : string) : option RequestControlSource :=
  match s with
  | "turn_override" => Some TurnOverride | "agent_machine_override" => Some AgentMachineOverride
  | "agent_config" => Some AgentConfig | "model_default" => Some ModelDefault
  | "provider_default" => Some ProviderDefault
  | _ => None
  end.
Definition reasoning_of (j : Json) : option ReasoningControls :=
  mkReasoning <$> opt_of effort_of "effort" j.
Definition controls_of (j : Json) : option ResolvedRequestControls :=
  reasoning ← value_get "reasoning" j ≫= reasoning_of;
  source ← str_field "source" j ≫= source_of;
  diagnostics ← match value_get "diagnostics" j with
                | Some (JArray items) => mapM (str_field "message") items
                | _ => Some []
                end;
  Some (mkControls reasoning source diagnostics).

Global Instance plain_serde : SubmissionSerde := {|
  submission_from_value := submission_of;
  identity_from_value := identity_of;
  controls_from_value := controls_of;
|}.

(** ** The laws *)

Lemma mapM_round_trip {A} (f : A → Json) (g : Json → option A) (l : list A) :
  (∀ x, g (f x) = Some x) → mapM g (f <$> l) = Some l.
Proof.
  intros Hfg. induction l as [|x l IH]; [done|]. rewrite fmap_cons. simpl. by rewrite Hfg; simpl; rewrite IH.
Qed.

Lemma part_round_trip p : part_of (content_part_to_value p) = Some p.
Proof. by destruct p as [| ?[]| | |]. Qed.
Lemma parts_round_trip key parts j :
  value_get key j = Some (parts_to_value parts) → parts_of key j = Some parts.
Proof.
  intros Hj. unfold parts_of. rewrite Hj. unfold parts_to_value.
  apply mapM_round_trip, part_round_trip.
Qed.
Lemma effort_round_trip e : effort_of (effort_to_value e) = Some e.
Proof. by destruct e. Qed.
Lemma context_round_trip c : context_of (turn_context_to_value c) = Some c.
Proof. destruct c as [[e|]]; [|done]. by destruct e. Qed.

Lemma op_round_trip op :
  match op with Rollback turns => 0 ≤ turns < u32_size | _ => True end →
  op_of (op_to_value op) = Some op.
Proof.
  destruct op as [parts context|parts mode|request_id content| | | | | | |focus|turns]; intros Hwf;
    unfold op_of; try done.
  - destruct context as [c|]; simpl.
    + erewrite parts_round_trip by done. simpl. unfold opt_of. simpl.
      rewrite context_round_trip. done.
    + by erewrite parts_round_trip.
  - simpl. erewrite parts_round_trip by done. by destruct mode.
  - simpl. by erewrite parts_round_trip.
  - by destruct focus.
  - simpl. rewrite parse_dec_string_Z; [done|]. unfold u32_size, u64_size in *. lia.
Qed.

Global Instance plain_serde_laws : SubmissionSerdeLaws.
Proof.
  constructor.
  - intros [id intent op] Hwf. unfold submission_from_value, submission_to_value. simpl.
    unfold submission_of. simpl. destruct intent; simpl; by rewrite op_round_trip.
  - intros key v fields Hk. set_unfold. unfold submission_from_value. simpl.
    unfold submission_of, str_field. simpl. rewrite !json_get_set_ne by naive_solver. done.
  - intros [? ? ? [c|] ?]; done.
  - intros [[e] source ds]. unfold controls_from_value. simpl. unfold controls_of, controls_to_value.
    assert (reasoning_of (reasoning_to_value (mkReasoning e)) = Some (mkReasoning e)) as Hr
      by (destruct e as [[]|]; done).
    destruct ds as [|d ds]; simpl; rewrite Hr; simpl; [by destruct source|].
    destruct source; simpl; rewrite mapM_round_trip; done.
Qed.
