(* ===== verification/InputQueue.v ===== *)
(** * The durable input queue of an agent machine

    [agent-engine/src/agent_machine/input_queue.rs]: inputs are admitted,
    dispatched and removed with a record on the rollout before the queue changes,
    and a new process rebuilds the queue from those records. With it the queue
    primitives of [runtime/engine.rs] and [runtime/turn_input.rs] and the
    projection of [runtime/queue_publication.rs].

    The rollout file is the list of its complete records. Each write and each read
    of it takes its outcome from the environment: a write is acknowledged, lost,
    or recorded without an acknowledgement. The timestamp of a record is not read
    by any of this code and is left out. *)
From S2P Require Import Prelude RustStd RustText Tape Protocol.

(** ** Records and their outcomes *)

Record EventRecord : Type := mkEvent { event_type : string; ev_payload : Json }.

Inductive WriteOutcome : Set := Acknowledged | Unacknowledged | Lost.

(** [writes] and [loads] are the outcomes of the next accesses; once they run out
    every access succeeds. *)
Record RolloutRecorder : Type := mkRecorder {
  history : list EventRecord; writes : list WriteOutcome; loads : list bool }.

Inductive QueueError : Type :=
  | WriteFailed | LoadFailed | DecodeFailed | MissingId
  | RemovalUncertain (ids : list string)
  | RevisionExhausted | PublishFailed
  | Rejected (why : string).

Inductive UiInputStatus : Set := Completed | Failed | Cancelled.

(** [TurnMemoryPromotionJob] *)
Record PromotionJob : Type := mkJob {
  memory_dir : string; process_path : string; active_turn_user_messages : list string;
  llm_request_timeout_secs : Z; warning_context : string }.
Inductive DeferredRuntimeAction : Type := TurnMemoryPromotion (job : PromotionJob).
Inductive QueuedRuntimeItem : Type :=
  | QSubmission (s : Submission) | QDeferred (a : DeferredRuntimeAction).

Inductive AdmissionDisposition : Set := New | AlreadyAdmitted | NotInput.

Record MachineInputQueue : Type := mkQueue {
  queue_evidence_known : bool;
  queue_uncertain_ids : gset string;
  pending : list QueuedRuntimeItem;
  paused : bool;
  recovered : bool;
  admitted_ids : gset string;
  settled_ids : gset string;
  pending_binding_rejections : gset string;
  confirmed_binding : option InputBinding;
  model_selection_outcomes : gmap string UiInputStatus;
  bindings : gmap string InputBinding;
  active_submission_ids : list string;
  active_cancel_requested : bool;
  inband : list Submission;
  buffered_inband_submissions : list Submission;
  queued_next_turn_inputs : list (option string * list ContentPart);
}.
Definition empty_queue : MachineInputQueue :=
  mkQueue false ∅ [] false false ∅ ∅ ∅ None ∅ ∅ [] false [] [] [].

Definition on_evidence (f : bool → bool) (q : MachineInputQueue) : MachineInputQueue :=
  mkQueue (f (queue_evidence_known q)) (queue_uncertain_ids q) (pending q) (paused q) (recovered q)
    (admitted_ids q) (settled_ids q) (pending_binding_rejections q) (confirmed_binding q)
    (model_selection_outcomes q) (bindings q) (active_submission_ids q) (active_cancel_requested
    q) (inband q) (buffered_inband_submissions q) (queued_next_turn_inputs q).
Definition on_uncertain (f : gset string → gset string) (q : MachineInputQueue) : MachineInputQueue :=
  mkQueue (queue_evidence_known q) (f (queue_uncertain_ids q)) (pending q) (paused q) (recovered q)
    (admitted_ids q) (settled_ids q) (pending_binding_rejections q) (confirmed_binding q)
    (model_selection_outcomes q) (bindings q) (active_submission_ids q) (active_cancel_requested
    q) (inband q) (buffered_inband_submissions q) (queued_next_turn_inputs q).
Definition on_pending (f : list QueuedRuntimeItem → list QueuedRuntimeItem) (q : MachineInputQueue) : MachineInputQueue :=
  mkQueue (queue_evidence_known q) (queue_uncertain_ids q) (f (pending q)) (paused q) (recovered q)
    (admitted_ids q) (settled_ids q) (pending_binding_rejections q) (confirmed_binding q)
    (model_selection_outcomes q) (bindings q) (active_submission_ids q) (active_cancel_requested
    q) (inband q) (buffered_inband_submissions q) (queued_next_turn_inputs q).
Definition on_paused (f : bool → bool) (q : MachineInputQueue) : MachineInputQueue :=
  mkQueue (queue_evidence_known q) (queue_uncertain_ids q) (pending q) (f (paused q)) (recovered q)
    (admitted_ids q) (settled_ids q) (pending_binding_rejections q) (confirmed_binding q)
    (model_selection_outcomes q) (bindings q) (active_submission_ids q) (active_cancel_requested
    q) (inband q) (buffered_inband_submissions q) (queued_next_turn_inputs q).
Definition on_recovered (f : bool → bool) (q : MachineInputQueue) : MachineInputQueue :=
  mkQueue (queue_evidence_known q) (queue_uncertain_ids q) (pending q) (paused q) (f (recovered q))
    (admitted_ids q) (settled_ids q) (pending_binding_rejections q) (confirmed_binding q)
    (model_selection_outcomes q) (bindings q) (active_submission_ids q) (active_cancel_requested
    q) (inband q) (buffered_inband_submissions q) (queued_next_turn_inputs q).
Definition on_admitted (f : gset string → gset string) (q : MachineInputQueue) : MachineInputQueue :=
  mkQueue (queue_evidence_known q) (queue_uncertain_ids q) (pending q) (paused q) (recovered q) (f
    (admitted_ids q)) (settled_ids q) (pending_binding_rejections q) (confirmed_binding q)
    (model_selection_outcomes q) (bindings q) (active_submission_ids q) (active_cancel_requested
    q) (inband q) (buffered_inband_submissions q) (queued_next_turn_inputs q).
Definition on_settled (f : gset string → gset string) (q : MachineInputQueue) : MachineInputQueue :=
  mkQueue (queue_evidence_known q) (queue_uncertain_ids q) (pending q) (paused q) (recovered q)
    (admitted_ids q) (f (settled_ids q)) (pending_binding_rejections q) (confirmed_binding q)
    (model_selection_outcomes q) (bindings q) (active_submission_ids q) (active_cancel_requested
    q) (inband q) (buffered_inband_submissions q) (queued_next_turn_inputs q).
Definition on_rejections (f : gset string → gset string) (q : MachineInputQueue) : MachineInputQueue :=
  mkQueue (queue_evidence_known q) (queue_uncertain_ids q) (pending q) (paused q) (recovered q)
    (admitted_ids q) (settled_ids q) (f (pending_binding_rejections q)) (confirmed_binding q)
    (model_selection_outcomes q) (bindings q) (active_submission_ids q) (active_cancel_requested
    q) (inband q) (buffered_inband_submissions q) (queued_next_turn_inputs q).
Definition on_confirmed (f : option InputBinding → option InputBinding) (q : MachineInputQueue) : MachineInputQueue :=
  mkQueue (queue_evidence_known q) (queue_uncertain_ids q) (pending q) (paused q) (recovered q)
    (admitted_ids q) (settled_ids q) (pending_binding_rejections q) (f (confirmed_binding q))
    (model_selection_outcomes q) (bindings q) (active_submission_ids q) (active_cancel_requested
    q) (inband q) (buffered_inband_submissions q) (queued_next_turn_inputs q).
Definition on_outcomes (f : gmap string UiInputStatus → gmap string UiInputStatus) (q : MachineInputQueue) : MachineInputQueue :=
  mkQueue (queue_evidence_known q) (queue_uncertain_ids q) (pending q) (paused q) (recovered q)
    (admitted_ids q) (settled_ids q) (pending_binding_rejections q) (confirmed_binding q) (f
    (model_selection_outcomes q)) (bindings q) (active_submission_ids q)
    (active_cancel_requested q) (inband q) (buffered_inband_submissions q)
    (queued_next_turn_inputs q).
Definition on_bindings (f : gmap string InputBinding → gmap string InputBinding) (q : MachineInputQueue) : MachineInputQueue :=
  mkQueue (queue_evidence_known q) (queue_uncertain_ids q) (pending q) (paused q) (recovered q)
    (admitted_ids q) (settled_ids q) (pending_binding_rejections q) (confirmed_binding q)
    (model_selection_outcomes q) (f (bindings q)) (active_submission_ids q)
    (active_cancel_requested q) (inband q) (buffered_inband_submissions q)
    (queued_next_turn_inputs q).
Definition on_active (f : list string → list string) (q : MachineInputQueue) : MachineInputQueue :=
  mkQueue (queue_evidence_known q) (queue_uncertain_ids q) (pending q) (paused q) (recovered q)
    (admitted_ids q) (settled_ids q) (pending_binding_rejections q) (confirmed_binding q)
    (model_selection_outcomes q) (bindings q) (f (active_submission_ids q))
    (active_cancel_requested q) (inband q) (buffered_inband_submissions q)
    (queued_next_turn_inputs q).
Definition on_cancel_requested (f : bool → bool) (q : MachineInputQueue) : MachineInputQueue :=
  mkQueue (queue_evidence_known q) (queue_uncertain_ids q) (pending q) (paused q) (recovered q)
    (admitted_ids q) (settled_ids q) (pending_binding_rejections q) (confirmed_binding q)
    (model_selection_outcomes q) (bindings q) (active_submission_ids q) (f
    (active_cancel_requested q)) (inband q) (buffered_inband_submissions q)
    (queued_next_turn_inputs q).
Definition on_inband (f : list Submission → list Submission) (q : MachineInputQueue) : MachineInputQueue :=
  mkQueue (queue_evidence_known q) (queue_uncertain_ids q) (pending q) (paused q) (recovered q)
    (admitted_ids q) (settled_ids q) (pending_binding_rejections q) (confirmed_binding q)
    (model_selection_outcomes q) (bindings q) (active_submission_ids q) (active_cancel_requested
    q) (f (inband q)) (buffered_inband_submissions q) (queued_next_turn_inputs q).
Definition on_buffered (f : list Submission → list Submission) (q : MachineInputQueue) : MachineInputQueue :=
  mkQueue (queue_evidence_known q) (queue_uncertain_ids q) (pending q) (paused q) (recovered q)
    (admitted_ids q) (settled_ids q) (pending_binding_rejections q) (confirmed_binding q)
    (model_selection_outcomes q) (bindings q) (active_submission_ids q) (active_cancel_requested
    q) (inband q) (f (buffered_inband_submissions q)) (queued_next_turn_inputs q).
Definition on_next_turn (f : list (option string * list ContentPart) → list (option string * list ContentPart)) (q : MachineInputQueue) : MachineInputQueue :=
  mkQueue (queue_evidence_known q) (queue_uncertain_ids q) (pending q) (paused q) (recovered q)
    (admitted_ids q) (settled_ids q) (pending_binding_rejections q) (confirmed_binding q)
    (model_selection_outcomes q) (bindings q) (active_submission_ids q) (active_cancel_requested
    q) (inband q) (buffered_inband_submissions q) (f (queued_next_turn_inputs q)).

(** ** The queue snapshot shown to the user (queue_publication.rs) *)

Definition UI_SURFACE_VERSION : Z := 1.
Record UiQueueSnapshot : Type := mkSnapshot {
  snap_version : Z;
  snap_revision : Z;
  snap_known : bool;
  snap_pending : list string;
  snap_active : list string;
  snap_paused : bool;
  snap_deferred : bool;
  snap_uncertain : list string;
}.
Global Instance snapshot_eq_dec : EqDecision UiQueueSnapshot.
Proof. solve_decision. Defined.
Definition default_snapshot : UiQueueSnapshot :=
  mkSnapshot UI_SURFACE_VERSION 0 false [] [] false false [].

(** The snapshot written last, those written, and the outcomes of the next writes *)
Record QueuePublisher : Type := mkPublisher {
  last_snapshot : UiQueueSnapshot; published : list UiQueueSnapshot; snapshot_writes : list bool }.

(** [vec.sort()] and [vec.dedup()] *)
Definition sort_strings (l : list string) : list string := merge_sort String.le l.
Fixpoint dedup (l : list string) : list string :=
  match l with
  | x :: (y :: _) as l' => if bool_decide (x = y) then dedup l' else x :: dedup l'
  | _ => l
  end.

(** The closure [add] *)
Definition add_pending_id (q : MachineInputQueue) (ids : list string) (id : string) : list string :=
  if bool_decide (id ∈ admitted_ids q) && negb (bool_decide (id ∈ settled_ids q))
     && negb (bool_decide (id ∈ ids))
  then ids ++ [id] else ids.

Definition queue_snapshot (q : MachineInputQueue) : UiQueueSnapshot :=
  if negb (queue_evidence_known q) then default_snapshot
  else
    let active := filter (λ id, id ∈ admitted_ids q ∧ id ∈ settled_ids q)
                    (active_submission_ids q) in
    let queued := omap (λ item, match item with QSubmission s => Some (sub_id s) | _ => None end)
                    (pending q) in
    let add := foldl (add_pending_id q) in
    let ids := add [] queued in
    let ids := add ids (sub_id <$> inband q ++ buffered_inband_submissions q) in
    let ids := add ids (omap fst (queued_next_turn_inputs q)) in
    let ids := add ids (sort_strings (elements (admitted_ids q))) in
    let uncertain := dedup (sort_strings (elements (queue_uncertain_ids q)
                                          ++ elements (pending_binding_rejections q))) in
    let deferred := existsb (λ item, match item with QDeferred _ => true | _ => false end)
                      (pending q) in
    mkSnapshot UI_SURFACE_VERSION 0 true ids active (paused q) deferred uncertain.

Definition with_revision (rev : Z) (s : UiQueueSnapshot) : UiQueueSnapshot :=
  mkSnapshot (snap_version s) rev (snap_known s) (snap_pending s) (snap_active s)
    (snap_paused s) (snap_deferred s) (snap_uncertain s).

Definition publisher_publish (q : MachineInputQueue) (p : QueuePublisher) :
    QueuePublisher * result QueueError unit :=
  let last := last_snapshot p in
  let next := with_revision (snap_revision last) (queue_snapshot q) in
  if bool_decide (next = last) && (0 <? snap_revision last) then (p, Ok tt)
  else
    match (if snap_known next then checked_add64 (snap_revision last) 1
           else Some (snap_revision last)) with
    | None => (p, Err RevisionExhausted)
    | Some rev =>
        let next := with_revision rev next in
        match snapshot_writes p with
        | false :: oks => (mkPublisher last (published p) oks, Err PublishFailed)
        | oks => (mkPublisher next (published p ++ [next]) (tail oks), Ok tt)
        end
    end.

(** ** The queue, its recorder and its publisher *)

Record QWorld : Type := mkWorld {
  queue : MachineInputQueue;
  recorder : option RolloutRecorder;
  queue_publisher : option QueuePublisher;
}.
Definition on_queue (f : MachineInputQueue → MachineInputQueue) (w : QWorld) : QWorld :=
  mkWorld (f (queue w)) (recorder w) (queue_publisher w).
Definition set_recorder (r : RolloutRecorder) (w : QWorld) : QWorld :=
  mkWorld (queue w) (Some r) (queue_publisher w).
Definition set_publisher (p : QueuePublisher) (w : QWorld) : QWorld :=
  mkWorld (queue w) (recorder w) (Some p).

Notation QOp := (M QWorld QueueError).

(** [observe(queue)]: a failed write is logged and changes nothing else *)
Definition observe : QOp unit := λ w,
  match queue_publisher w with
  | None => (w, Ok tt)
  | Some p => (set_publisher (publisher_publish (queue w) p).1 w, Ok tt)
  end.

(** [recorder.persist_batch(vec![event]).await] *)
Definition persist_record (e : EventRecord) (r : RolloutRecorder) :
    RolloutRecorder * result QueueError unit :=
  match writes r with
  | Lost :: ws => (mkRecorder (history r) ws (loads r), Err WriteFailed)
  | Unacknowledged :: ws => (mkRecorder (history r ++ [e]) ws (loads r), Err WriteFailed)
  | ws => (mkRecorder (history r ++ [e]) (tail ws) (loads r), Ok tt)
  end.
Definition persist_input_event (kind : string) (payload : Json) : QOp unit := λ w,
  match recorder w with
  | None => (w, Ok tt)
  | Some r => let '(r', res) := persist_record (mkEvent kind payload) r in (set_recorder r' w, res)
  end.
(** [RolloutRecorder::load_history(path).await] *)
Definition load_history : QOp (list EventRecord) := λ w,
  match recorder w with
  | None => (w, Ok [])
  | Some r =>
      let w' := set_recorder (mkRecorder (history r) (writes r) (tail (loads r))) w in
      match loads r with
      | false :: _ => (w', Err LoadFailed)
      | _ => (w', Ok (history r))
      end
  end.

(** ** Admission *)

Definition admission_payload (input : Submission) (q : MachineInputQueue) : Json :=
  let payload := submission_to_value input in
  match bindings q !! sub_id input with
  | None => payload
  | Some b =>
      index_set "request_controls" (controls_to_value (request_controls b))
        (index_set "callable_binding" (identity_to_value (callable_binding b)) payload)
  end.

Definition admit_input (input : Submission) : QOp AdmissionDisposition :=
  if negb (is_input_op (sub_op input)) then mret NotInput
  else
    w ← mget;
    if bool_decide (sub_id input ∈ admitted_ids (queue w)) then mret AlreadyAdmitted
    else
      persist_input_event "machine_input_admitted_v1" (admission_payload input (queue w));;
      mmodify (on_queue (on_admitted (λ X, {[sub_id input]} ∪ X)));;
      mmodify (on_queue (on_evidence (λ known, known || isSome (recorder w))));;
      observe;;
      mret New.

(** ** Dispatch and removal *)

(** The disposition an acknowledged record gives to [id] *)
Definition settle (q : MachineInputQueue) (id : string) : MachineInputQueue :=
  on_uncertain (λ X, X ∖ {[id]}) (on_settled (λ X, {[id]} ∪ X) (on_bindings (delete id) q)).
Definition mark_uncertain (q : MachineInputQueue) (id : string) : MachineInputQueue :=
  on_uncertain (λ X, {[id]} ∪ X) q.

Definition dispatch_record (ids : list string) : string * Json :=
  match ids with
  | [id] => ("machine_input_dispatched_v1", JObject [("submission_id", JString id)])
  | _ => ("machine_inputs_dispatched_v1", JObject [("submission_ids", strings_to_value ids)])
  end.
Definition dispatch_input_ids (ids : list string) : QOp unit :=
  let '(kind, payload) := dispatch_record ids in
  disposition ← mtry (persist_input_event kind payload);
  mmodify (on_queue (λ q, foldl (if is_ok disposition then settle else mark_uncertain) q ids));;
  observe;;
  mresult disposition.
Definition dispatch_input (input : Submission) : QOp unit :=
  admit_input input;; dispatch_input_ids [sub_id input].

(** The test of [recorded]: the exact full set is on the rollout *)
Definition is_removal_of (ids : list string) (e : EventRecord) : bool :=
  bool_decide (event_type e = "machine_inputs_removed_v1")
  && bool_decide (strings_from_value (index "submission_ids" (ev_payload e)) = Some ids).
Definition recorded (ids : list string) : QOp bool :=
  items ← load_history; mret (existsb (is_removal_of ids) items).

Definition persist_input_removals (ids : list string) : QOp unit :=
  w ← mget;
  if bool_decide (ids = []) || negb (isSome (recorder w)) then mret tt
  else
    known ← recorded ids;
    if (known : bool) then mret tt
    else
      res ← mtry (persist_input_event "machine_inputs_removed_v1"
                    (JObject [("submission_ids", strings_to_value ids)]));
      match res with
      | Err _ =>
          seen ← mtry (recorded ids);
          match seen with
          | Ok true => mret tt
          | _ => mfail (RemovalUncertain ids)
          end
      | _ => mret tt
      end.

Definition remove_input_bindings (ids : list string) : QOp unit :=
  res ← mtry (persist_input_removals ids);
  match res with
  | Err e =>
      mmodify (on_queue (λ q, foldl mark_uncertain q ids));; observe;; mfail e
  | _ => mmodify (on_queue (λ q, foldl settle q ids));; observe
  end.

(** [self.push_buffered_inband_submission(input)] *)
Definition push_buffered (s : Submission) : QOp unit :=
  mmodify (on_queue (on_buffered (λ l, l ++ [s]))).
Definition remove_input (input : Submission) : QOp unit :=
  res ← mtry (remove_input_bindings [sub_id input]);
  match res with
  | Err e => push_buffered input;; mfail e
  | _ => mret tt
  end.

(** ** Recovery *)

Section recovery.
Context `{SubmissionSerde} (binding_from_value : Json → option InputBinding).
Notation ROp := (M MachineInputQueue QueueError).

(** One event; [acc] holds [inputs] and [excluded] *)
Definition recover_event (acc : list Submission * gset string) (e : EventRecord) :
    ROp (list Submission * gset string) :=
  let '(inputs, excluded) := acc in
  let of_kind kind := bool_decide (event_type e = kind) in
  let payload := ev_payload e in
  if of_kind "machine_model_selected_v1" then
    b ← mlift (binding_from_value payload) DecodeFailed;
    mmodify (on_confirmed (λ _, Some b));;
    mmodify (on_outcomes (λ m, match as_str (index "submission_id" payload) with
                               | Some id => <[id := Completed]> m | None => m end));;
    mret acc
  else if of_kind "machine_model_selection_failed_v1" then
    id ← mlift (as_str (index "submission_id" payload)) MissingId;
    mmodify (on_outcomes (λ m, <[id := Failed]> m));;
    mret acc
  else if of_kind "machine_input_admitted_v1" then
    input ← mlift (submission_from_value payload) DecodeFailed;
    mmodify (on_evidence (λ _, true));;
    (if isSome (value_get "callable_binding" payload) then
       identity ← mlift (identity_from_value (index "callable_binding" payload)) DecodeFailed;
       controls ← mlift (controls_from_value (index "request_controls" payload)) DecodeFailed;
       mmodify (on_bindings (λ m, <[sub_id input := mkBinding identity controls]> m))
     else mret tt);;
    q ← mget;
    if bool_decide (sub_id input ∈ admitted_ids q) then mret acc
    else mmodify (on_admitted (λ X, {[sub_id input]} ∪ X));; mret (inputs ++ [input], excluded)
  else if of_kind "machine_inputs_removed_v1" || of_kind "machine_inputs_dispatched_v1" then
    ids ← mlift (strings_from_value (index "submission_ids" payload)) DecodeFailed;
    mret (inputs, excluded ∪ list_to_set ids)
  else if of_kind "machine_input_dispatched_v1" || of_kind "machine_input_removed_v1" then
    id ← mlift (as_str (index "submission_id" payload)) MissingId;
    mret (inputs, {[id]} ∪ excluded)
  else mret acc.

Fixpoint recover_events (acc : list Submission * gset string) (events : list EventRecord) :
    ROp (list Submission * gset string) :=
  match events with
  | [] => mret acc
  | e :: events' => acc ← recover_event acc e; recover_events acc events'
  end.

Definition recover_input_queue (events : list EventRecord) : ROp unit :=
  acc ← recover_events ([], ∅) events;
  let '(inputs, excluded) := acc in
  mmodify (on_bindings (filter (λ kv, kv.1 ∉ (excluded : gset string))));;
  mmodify (on_settled (λ X, X ∪ excluded));;
  mmodify (on_pending (λ l, l ++ (QSubmission <$> filter (λ s, sub_id s ∉ excluded) inputs)));;
  mmodify (λ q, on_paused (λ _, negb (bool_decide (length (pending q) = 0%nat))) q);;
  mmodify (λ q, on_recovered (λ _, paused q) q).
End recovery.

(** ** Queue primitives of the process loop (engine.rs, turn_input.rs) *)

Fixpoint push_submission_ahead_of_deferred (l : list QueuedRuntimeItem) (s : Submission) :
    list QueuedRuntimeItem :=
  match l with
  | [] => [QSubmission s]
  | QDeferred a :: l' => QSubmission s :: l
  | item :: l' => item :: push_submission_ahead_of_deferred l' s
  end.
Definition push_outer_submission (s : Submission) : QOp unit :=
  mmodify (on_queue (on_pending (λ l, push_submission_ahead_of_deferred l s))).
Definition push_outer_deferred (a : DeferredRuntimeAction) : QOp unit :=
  mmodify (on_queue (on_pending (λ l, l ++ [QDeferred a]))).
(** [directories_pending] is [!self.pending_directory_actions.is_empty()] *)
Definition pop_outer (directories_pending : bool) : QOp (option QueuedRuntimeItem) :=
  w ← mget;
  if paused (queue w) || directories_pending then mret None
  else mmodify (on_queue (on_pending (@tail _)));; mret (head (pending (queue w))).
Fixpoint take_deferred (l : list QueuedRuntimeItem) :
    option (QueuedRuntimeItem * list QueuedRuntimeItem) :=
  match l with
  | [] => None
  | QDeferred a :: l' => Some (QDeferred a, l')
  | item :: l' => p ← take_deferred l'; Some (p.1, item :: p.2)
  end.
Definition pop_outer_deferred : QOp (option QueuedRuntimeItem) :=
  w ← mget;
  match take_deferred (pending (queue w)) with
  | None => mret None
  | Some (item, l) => mmodify (on_queue (on_pending (λ _, l)));; mret (Some item)
  end.

Definition pause : QOp unit := mmodify (on_queue (on_paused (λ _, true))).

