(* ===== verification/QueueControls.v ===== *)
(** * Queue controls of the process loop

    [runtime/engine_queue_controls.rs]: intake, rejection, cancellation, continuing
    and discarding of queued input, with the capture of a model binding at intake
    ([runtime/engine_model_controls.rs], [runtime/model_binding.rs]) and the
    resolution of request controls ([request_controls.rs]).

    The user's files take each write with an outcome from the environment, as the
    rollout does. Of a configuration only what the resolution reads is kept: the
    configured effort, whether the provider takes efforts, and the catalogue entry
    of the model. Of the tool execution only the outcomes the code asks for. *)
From S2P Require Import Prelude RustStd RustText Tape Protocol InputQueue.

(** ** Request controls (request_controls.rs) *)

Record ModelInfo : Type := mkModelInfo {
  slug : string;
  default_reasoning_effort : option ReasoningEffort;
  supported_reasoning_efforts : list ReasoningEffort;
}.
Record Config : Type := mkConfig {
  model_reasoning_effort : option ReasoningEffort;
  supports_reasoning_effort_control : bool;
  effective_model_info : option ModelInfo;
}.

Definition default_controls : ResolvedRequestControls :=
  mkControls (mkReasoning None) ProviderDefault [].
Definition effort_controls (e : ReasoningEffort) (source : RequestControlSource) :
    ResolvedRequestControls :=
  mkControls (mkReasoning (Some e)) source [].

Definition validate_reasoning_effort (c : Config) (e : ReasoningEffort) : bool :=
  supports_reasoning_effort_control c
  && match effective_model_info c with
     | None => true
     | Some info => bool_decide (e ∈ supported_reasoning_efforts info)
     end.

Definition resolve_request_controls (c : Config) (runtime_intent turn_intent : option ReasoningEffort) :
    option ResolvedRequestControls :=
  let checked e source :=
    if validate_reasoning_effort c e then Some (effort_controls e source) else None in
  match turn_intent with
  | Some e => checked e TurnOverride
  | None =>
      match runtime_intent with
      | Some e => checked e AgentMachineOverride
      | None =>
          match model_reasoning_effort c with
          | Some e => checked e AgentConfig
          | None =>
              match effective_model_info c ≫= default_reasoning_effort with
              | Some e => checked e ModelDefault
              | None => Some default_controls
              end
          end
      end
  end.

(** ** The world of the process loop *)

Record CapturedCallable : Type := mkCallable {
  callable_identity : CallableIdentity; callable_config : Config }.

(** [ProcessBindings] of the environment with the outcomes of the tool execution *)
Record Environment : Type := mkEnvironment {
  confirmed : option CapturedCallable;
  captured : gmap string CapturedCallable;
  runtime_intent : option ReasoningEffort;
  default_cwd : option string;
  change_directory_ok : bool;
  cwd_granted : bool;
}.

Inductive UiEntry : Type :=
  | UNoticeSnapshot (text : string) | UNotice (text : string)
  | UInputCompleted (ids : list string) (status : UiInputStatus) (error : option string)
  | UAction (id message : string).

Record CWorld : Type := mkC {
  inner : QWorld;
  environment : option Environment;
  ui_log : list UiEntry;
  ui_writes : list bool;
  cancel_fired : bool;
}.
Notation COp := (M CWorld QueueError).

Definition on_inner (f : QWorld → QWorld) (w : CWorld) : CWorld :=
  mkC (f (inner w)) (environment w) (ui_log w) (ui_writes w) (cancel_fired w).
Definition set_environment (e : Environment) (w : CWorld) : CWorld :=
  mkC (inner w) (Some e) (ui_log w) (ui_writes w) (cancel_fired w).
Definition fire_cancel (w : CWorld) : CWorld :=
  mkC (inner w) (environment w) (ui_log w) (ui_writes w) true.
(** An operation of the queue, run in the larger world *)
Definition in_queue {A} (m : QOp A) : COp A := λ w,
  let '(q, r) := m (inner w) in (on_inner (λ _, q) w, r).
Definition cqueue (w : CWorld) : MachineInputQueue := queue (inner w).
Definition on_cqueue (f : MachineInputQueue → MachineInputQueue) : COp unit :=
  mmodify (on_inner (on_queue f)).

Definition ui_write (e : UiEntry) : COp unit := λ w,
  match ui_writes w with
  | false :: oks => (mkC (inner w) (environment w) (ui_log w) oks (cancel_fired w), Err PublishFailed)
  | oks => (mkC (inner w) (environment w) (ui_log w ++ [e]) (tail oks) (cancel_fired w), Ok tt)
  end.
(** [let _ = ui_surfaces::warning(files, text).await] *)
Definition warning (text : string) : COp unit :=
  mtry (ui_write (UNoticeSnapshot text);; ui_write (UNotice text));; mret tt.
Definition publish_cancelled_input (id message : string) : COp unit :=
  action_result ← mtry (ui_write (UAction id message));
  event_result ← mtry (ui_write (UInputCompleted [id] Cancelled (Some message)));
  mresult (match action_result with Ok _ => event_result | _ => action_result end).

(** [reconcile_input_captures] of the environment, if there is one *)
Definition reconcile_input_captures : COp unit :=
  mmodify (λ w,
    match environment w with
    | None => w
    | Some e =>
        set_environment
          (mkEnvironment (confirmed e)
             (filter (λ kv, is_Some (bindings (cqueue w) !! kv.1)) (captured e))
             (runtime_intent e) (default_cwd e) (change_directory_ok e) (cwd_granted e)) w
    end).

(** ** Intake *)

Definition NO_CONFIRMED_CALLABLE : string :=
  "No confirmed callable binding; generation input not admitted.".
Definition is_direct_command (s : Submission) : bool :=
  bool_decide (sub_intent s = Command) && match sub_op s with Input _ _ => true | _ => false end.

(** [ProcessBindings::resolve] *)
Definition resolve_binding (e : Environment) (callable : CapturedCallable) (s : Submission) :
    option InputBinding :=
  let turn := match sub_op s with
              | Turn _ context => context ≫= ctx_reasoning_effort
              | _ => None
              end in
  controls ← resolve_request_controls (callable_config callable) (runtime_intent e) turn;
  Some (mkBinding (callable_identity callable) controls).

Definition capture_input (s : Submission) : COp unit :=
  w ← mget;
  if is_direct_command s || negb (is_input_op (sub_op s))
     || bool_decide (sub_id s ∈ admitted_ids (cqueue w))
  then mret tt
  else
    match environment w with
    | None => mret tt
    | Some e =>
        callable ← mlift (confirmed e) (Rejected NO_CONFIRMED_CALLABLE);
        binding ← mlift (resolve_binding e callable s) (Rejected "unsupported reasoning effort");
        mmodify (set_environment
          (mkEnvironment (confirmed e) (<[sub_id s := callable]> (captured e))
             (runtime_intent e) (default_cwd e) (change_directory_ok e) (cwd_granted e)));;
        on_cqueue (on_bindings (λ m, <[sub_id s := binding]> m))
    end.

Definition runtime_admit_input (s : Submission) : COp AdmissionDisposition :=
  capture_input s;; in_queue (admit_input s).

(** [error.to_string()]; the wording of an I/O error is left out. *)
Definition error_text (e : QueueError) : string :=
  match e with Rejected why => why | _ => "" end.
Definition admission_failure (e : QueueError) : string :=
  if bool_decide (error_text e = NO_CONFIRMED_CALLABLE) then NO_CONFIRMED_CALLABLE
  else "Input admission persistence failed; acceptance is uncertain: " +:+ error_text e.
Definition reject_admission (s : Submission) (e : QueueError) : COp unit :=
  w ← mget;
  if isSome (environment w) then
    published ← mtry (ui_write (UInputCompleted [sub_id s] Failed (Some (admission_failure e))));
    match published with
    | Err _ => in_queue pause;; in_queue (push_outer_submission s)
    | _ => mret tt
    end
  else in_queue pause;; in_queue (push_outer_submission s).

Definition admit_during_deferred (s : Submission) : COp bool :=
  res ← mtry (runtime_admit_input s);
  match res with
  | Ok AlreadyAdmitted => mret false
  | Err e => reject_admission s e;; mret false
  | _ => mmodify fire_cancel;; in_queue (push_outer_submission s);; mret true
  end.

(** The controls [admit_api_before_dispatch] hands back to its caller *)
Definition is_control_op (op : Op) : bool :=
  match op with
  | Interrupt | InterruptSubmission _ | ContinueQueue | DiscardQueue | Resume _ _
  | SelectModel _ | SelectProjectDirectory _ => true
  | _ => false
  end.
(** [waiting] holds what the receiver delivers; what was not taken is returned. *)
Fixpoint admit_api_before_dispatch (waiting : list Submission) :
    COp (option Submission * list Submission) :=
  match waiting with
  | [] => mret (None, [])
  | input :: rest =>
      if is_control_op (sub_op input) then mret (Some input, rest)
      else
        w ← mget;
        if bool_decide (sub_id input ∈ settled_ids (cqueue w)) then admit_api_before_dispatch rest
        else
          res ← mtry (runtime_admit_input input);
          match res with
          | Ok AlreadyAdmitted => admit_api_before_dispatch rest
          | Err e => reject_admission input e;; admit_api_before_dispatch rest
          | _ => in_queue (push_outer_submission input);; admit_api_before_dispatch rest
          end
  end.

(** ** Failure of accepted input *)

Definition is_queued_submission (id : string) (item : QueuedRuntimeItem) : bool :=
  match item with QSubmission s => bool_decide (sub_id s = id) | _ => false end.

Definition retain_durable_failure (s : Submission) : COp unit :=
  on_cqueue (on_paused (λ _, true));;
  on_cqueue (on_rejections (λ X, {[sub_id s]} ∪ X));;
  on_cqueue (on_pending (λ l,
    if existsb (is_queued_submission (sub_id s)) l then l
    else push_submission_ahead_of_deferred l s));;
  w ← mget;
  if isSome (environment w)
  then warning "Accepted input retained; durable removal is uncertain. Queue paused."
  else mret tt.

(** [queue.pending.retain(..)] and the other containers, for one identity *)
Definition drop_everywhere (id : string) (q : MachineInputQueue) : MachineInputQueue :=
  on_next_turn (filter (λ e, e.1 ≠ Some id))
    (on_buffered (filter (λ s, sub_id s ≠ id))
      (on_inband (filter (λ s, sub_id s ≠ id))
        (on_pending (filter (λ item, is_queued_submission id item = false)) q))).

Definition fail_accepted_input (s : Submission) (reason : string) : COp bool :=
  removal ← mtry (in_queue (remove_input_bindings [sub_id s]));
  match removal with
  | Err _ => retain_durable_failure s;; mret false
  | _ =>
      on_cqueue (drop_everywhere (sub_id s));;
      on_cqueue (on_rejections (λ X, X ∖ {[sub_id s]}));;
      w ← mget;
      if isSome (environment w) then
        reconcile_input_captures;;
        observed ← mtry (ui_write (UInputCompleted [sub_id s] Failed (Some reason)));
        match observed with
        | Err _ =>
            warning ("Input " +:+ sub_id s +:+
                     " durably excluded without execution; failure observation uncertain.");;
            mret false
        | _ => mret true
        end
      else mret false
  end.

(** ** Continue and discard *)

Definition ensure (b : bool) (why : string) : COp unit :=
  if b then mret tt else mfail (Rejected why).
Definition push_distinct (ids : list string) (id : string) : list string :=
  if bool_decide (id ∈ ids) then ids else ids ++ [id].
Definition discarded_ids (q : MachineInputQueue) : list string :=
  foldl push_distinct []
    (omap (λ item, match item with
                   | QSubmission s => if is_input_op (sub_op s) then Some (sub_id s) else None
                   | _ => None
                   end) (pending q)
     ++ omap fst (queued_next_turn_inputs q)).

Definition NO_AUTHORITY : string := "recovered input requires current explicit project authority".
Definition NO_DIRECTORY : string :=
  "Recovered Process requires current explicit project authority before continuing queued work".

(** [discard] tells [Op::DiscardQueue] from [Op::ContinueQueue]; [active] is
    [cancel.is_some()]: a turn is running. *)
Definition control_preflight (discard active : bool) : COp (list string * nat) :=
  w ← mget;
  let q := cqueue w in
  let removed := if discard then discarded_ids q else [] in
  ensure (negb active) "active input has not settled yet";;
  ensure (paused q) "input queue is not paused";;
  ensure (discard || (bool_decide (pending_binding_rejections q = ∅)
                      && bool_decide (queue_uncertain_ids q = ∅)))
    "accepted input removal is unresolved; discard queued work before continuing";;
  let anonymous := if discard
                   then length (filter (λ e, e.1 = None) (queued_next_turn_inputs q))
                   else 0%nat in
  (if recovered q && negb discard then
     e ← mlift (environment w) (Rejected NO_AUTHORITY);
     _ ← mlift (default_cwd e) (Rejected NO_AUTHORITY);
     ensure (change_directory_ok e) NO_DIRECTORY;;
     ensure (cwd_granted e) NO_AUTHORITY
   else mret tt);;
  in_queue (remove_input_bindings removed);;
  reconcile_input_captures;;
  mret (removed, anonymous).

Definition survives_discard (discarded : list string) (item : QueuedRuntimeItem) : bool :=
  match item with QSubmission s => negb (bool_decide (sub_id s ∈ discarded)) | _ => true end.
Definition control_commit (discard active : bool) (discarded : list string) : COp unit :=
  ensure (negb active) "active input has not settled yet";;
  w ← mget;
  ensure (paused (cqueue w)) "input queue is not paused";;
  (if discard then
     on_cqueue (on_pending (filter (λ item, survives_discard discarded item = true)));;
     on_cqueue (on_next_turn (λ _, []))
   else mret tt);;
  on_cqueue (on_rejections (λ X, X ∖ list_to_set discarded));;
  on_cqueue (on_paused (λ _, false)).

(** The number of results that could not be published *)
Fixpoint publish_discarded (ids : list string) : COp nat :=
  match ids with
  | [] => mret 0%nat
  | id :: ids' =>
      res ← mtry (publish_cancelled_input id "Queued input discarded without execution");
      n ← publish_discarded ids';
      mret (if is_ok res then n else S n)
  end.

Definition nat_string (n : nat) : string := dec_string (N.of_nat n).

Definition queue_control (discard active : bool) : COp bool :=
  result ← mtry (p ← control_preflight discard active;
                 control_commit discard active p.1;; mret p);
  notice ← match result with
           | Ok (discarded, anonymous) =>
               unpublished ← publish_discarded discarded;
               let count := nat_string (length discarded + anonymous) in
               mret (if bool_decide (0 < unpublished)%nat then
                       "Discarded " +:+ count +:+ " queued inputs; could not publish "
                       +:+ nat_string unpublished +:+ " result records"
                     else if discard then "Discarded " +:+ count +:+ " queued inputs without execution"
                     else "Input queue resumed")
           | Err e => mret ("Queue control rejected: " +:+ error_text e)
           | _ => mret ""
           end;
  warning notice;;
  mret true.

(** ** Cancelling one input *)

Definition holds_id (id : string) (q : MachineInputQueue) : bool :=
  existsb (is_queued_submission id) (pending q)
  || existsb (λ s, bool_decide (sub_id s = id)) (inband q ++ buffered_inband_submissions q)
  || existsb (λ e, bool_decide (e.1 = Some id)) (queued_next_turn_inputs q).

(** The [retain]s: from [pending] only inputs are taken *)
Definition is_input_item (id : string) (item : QueuedRuntimeItem) : bool :=
  match item with
  | QSubmission s => bool_decide (sub_id s = id) && is_input_op (sub_op s)
  | _ => false
  end.
Definition drop_input (id : string) (q : MachineInputQueue) : MachineInputQueue :=
  on_next_turn (filter (λ e, e.1 ≠ Some id))
    (on_buffered (filter (λ s, sub_id s ≠ id))
      (on_inband (filter (λ s, sub_id s ≠ id))
        (on_pending (filter (λ item, is_input_item id item = false)) q))).
Definition holds_input (id : string) (q : MachineInputQueue) : bool :=
  existsb (is_input_item id) (pending q)
  || existsb (λ s, bool_decide (sub_id s = id)) (inband q ++ buffered_inband_submissions q)
  || existsb (λ e, bool_decide (e.1 = Some id)) (queued_next_turn_inputs q).

Definition PAUSED_NOTICE : string := "Input queue paused; use /continue or /discard for queued work".

Definition interrupt_submission (id : string) (active_turn : bool) : COp bool :=
  w ← mget;
  let queued := holds_id id (cqueue w) in
  removal ← mtry (if queued then in_queue (remove_input_bindings [id]) else mret tt);
  match removal with
  | Err e => warning ("Queue cancellation rejected: " +:+ error_text e);; mret true
  | _ =>
      (if queued then reconcile_input_captures else mret tt);;
      w ← mget;
      let removed := holds_input id (cqueue w) in
      let active := bool_decide (id ∈ active_submission_ids (cqueue w)) in
      on_cqueue (drop_input id);;
      (if removed then on_cqueue (on_rejections (λ X, X ∖ {[id]})) else mret tt);;
      (if removed || active then on_cqueue (on_paused (λ _, true)) else mret tt);;
      (if active then on_cqueue (on_cancel_requested (λ _, true)) else mret tt);;
      if removed && negb active then
        mtry (publish_cancelled_input id "Queued input cancelled without execution");;
        warning PAUSED_NOTICE;; mret true
      else if active then
        if active_turn then mmodify fire_cancel;; warning PAUSED_NOTICE;; mret true
        else mret false
      else warning ("Unknown or settled input: " +:+ id);; mret true
  end.
