(* ===== verification/QueueFacts.v ===== *)
(** * What the input queue guarantees

    The rollout is a ledger of admissions and dispositions. [ledger] relates it to
    the queue in memory; every operation keeps it, whatever the outcomes of its
    writes and reads, and a restart from the records re-establishes it. *)
From S2P Require Import Prelude RustStd RustText Tape Protocol InputQueue QueueControls.

(** ** Reading the ledger *)

Section records.
Context `{SubmissionSerdeLaws} (binding_from_value : Json → option InputBinding).

Definition is_kind (kind : string) (e : EventRecord) : bool := bool_decide (event_type e = kind).

(** The submission an event admits, with the binding it carries *)
Definition admitted_by (e : EventRecord) : option Submission :=
  if is_kind "machine_input_admitted_v1" e then submission_from_value (ev_payload e) else None.
Definition binding_by (e : EventRecord) : option InputBinding :=
  if isSome (value_get "callable_binding" (ev_payload e)) then
    identity ← identity_from_value (index "callable_binding" (ev_payload e));
    controls ← controls_from_value (index "request_controls" (ev_payload e));
    Some (mkBinding identity controls)
  else None.
Definition excluded_by (e : EventRecord) : gset string :=
  if is_kind "machine_inputs_removed_v1" e || is_kind "machine_inputs_dispatched_v1" e then
    list_to_set (default [] (strings_from_value (index "submission_ids" (ev_payload e))))
  else if is_kind "machine_input_dispatched_v1" e || is_kind "machine_input_removed_v1" e then
    list_to_set (option_list (as_str (index "submission_id" (ev_payload e))))
  else ∅.

Definition admissions (h : list EventRecord) : list Submission := omap admitted_by h.
Definition excluded_of (h : list EventRecord) : gset string := ⋃ (excluded_by <$> h).
Definition bind_event (m : gmap string InputBinding) (e : EventRecord) : gmap string InputBinding :=
  match admitted_by e, binding_by e with
  | Some s, Some b => <[sub_id s := b]> m
  | _, _ => m
  end.
Definition recorded_bindings (h : list EventRecord) : gmap string InputBinding :=
  foldl bind_event ∅ h.

(** The events of this component, and those of others *)
Definition admit_event (s : Submission) (q : MachineInputQueue) : EventRecord :=
  mkEvent "machine_input_admitted_v1" (admission_payload s q).
Definition removal_event (ids : list string) : EventRecord :=
  mkEvent "machine_inputs_removed_v1" (JObject [("submission_ids", strings_to_value ids)]).
Definition dispatch_event (ids : list string) : EventRecord :=
  mkEvent (dispatch_record ids).1 (dispatch_record ids).2.
Definition foreign_event (e : EventRecord) : bool :=
  negb (is_kind "machine_input_admitted_v1" e || is_kind "machine_inputs_removed_v1" e
        || is_kind "machine_inputs_dispatched_v1" e || is_kind "machine_input_dispatched_v1" e
        || is_kind "machine_input_removed_v1" e)
  && (negb (is_kind "machine_model_selected_v1" e) || isSome (binding_from_value (ev_payload e)))
  && (negb (is_kind "machine_model_selection_failed_v1" e)
      || isSome (as_str (index "submission_id" (ev_payload e)))).

Inductive known_event : EventRecord → Prop :=
  | known_admit s q : is_input_op (sub_op s) = true → known_event (admit_event s q)
  | known_removal ids : known_event (removal_event ids)
  | known_dispatch ids : known_event (dispatch_event ids)
  | known_foreign e : foreign_event e = true → known_event e.

Lemma input_op_wf s : is_input_op (sub_op s) = true → submission_wf s.
Proof. unfold submission_wf. by destruct (sub_op s). Qed.

Lemma admission_payload_reads s q :
  is_input_op (sub_op s) = true → submission_from_value (admission_payload s q) = Some s.
Proof.
  intros Hs%input_op_wf. unfold admission_payload. destruct (bindings q !! sub_id s).
  - unfold submission_to_value, index_set.
    rewrite !submission_ignores by set_solver. by apply submission_round_trip.
  - by apply submission_round_trip.
Qed.
Lemma admission_payload_binding s q :
  binding_by (admit_event s q) = bindings q !! sub_id s.
Proof.
  unfold binding_by, admit_event, admission_payload, index. cbn [ev_payload].
  destruct (bindings q !! sub_id s) as [b|]; [|done].
  unfold submission_to_value. cbn [index_set value_get].
  rewrite !json_get_set_eq, json_get_set_ne, json_get_set_eq by done. simpl.
  rewrite identity_round_trip, controls_round_trip. simpl. by destruct b.
Qed.

(** Whether a name of an event is another is a comparison of closed strings. *)
Ltac kinds :=
  unfold is_kind, admit_event, removal_event, dispatch_event, dispatch_record;
  cbn [fst snd event_type ev_payload]; rewrite ?bool_decide_true by done;
  rewrite ?bool_decide_false by done; cbn [orb andb negb].

Lemma index_single key v : index key (JObject [(key, v)]) = v.
Proof. unfold index. simpl. by rewrite bool_decide_true. Qed.

Lemma admitted_by_admit s q :
  is_input_op (sub_op s) = true → admitted_by (admit_event s q) = Some s.
Proof. intros Hs. unfold admitted_by. kinds. by apply admission_payload_reads. Qed.
Lemma excluded_by_admit s q : excluded_by (admit_event s q) = ∅.
Proof. unfold excluded_by. by kinds. Qed.
Lemma admitted_by_removal ids : admitted_by (removal_event ids) = None.
Proof. unfold admitted_by. by kinds. Qed.
Lemma excluded_by_removal ids : excluded_by (removal_event ids) = list_to_set ids.
Proof.
  unfold excluded_by. kinds. by rewrite index_single, strings_round_trip.
Qed.
Lemma admitted_by_dispatch ids : admitted_by (dispatch_event ids) = None.
Proof. unfold admitted_by. by destruct ids as [|? []]; kinds. Qed.
Lemma excluded_by_dispatch ids : excluded_by (dispatch_event ids) = list_to_set ids.
Proof.
  unfold excluded_by. destruct ids as [|i [|]]; kinds; rewrite index_single;
    [|done|]; by rewrite strings_round_trip.
Qed.
Lemma foreign_is_not kind e :
  foreign_event e = true →
  kind ∈ ["machine_input_admitted_v1"; "machine_inputs_removed_v1"; "machine_inputs_dispatched_v1";
          "machine_input_dispatched_v1"; "machine_input_removed_v1"] →
  is_kind kind e = false.
Proof.
  unfold foreign_event. intros Hf Hk. bool_facts. set_unfold.
  by destruct Hk as [->|[->|[->|[->|[->|[]]]]]].
Qed.
Lemma foreign_decodes e :
  foreign_event e = true →
  (event_type e = "machine_model_selected_v1" → is_Some (binding_from_value (ev_payload e)))
  ∧ (event_type e = "machine_model_selection_failed_v1" →
     is_Some (as_str (index "submission_id" (ev_payload e)))).
Proof.
  unfold foreign_event, is_kind. intros [[_ H1]%andb_true_iff H2]%andb_true_iff.
  split; intros Ht; [rewrite bool_decide_true in H1 by done; by apply isSome_true in H1|].
  rewrite (bool_decide_true (event_type e = "machine_model_selection_failed_v1")) in H2 by done.
  by apply isSome_true in H2.
Qed.
Lemma admitted_by_foreign e : foreign_event e = true → admitted_by e = None.
Proof. intros He. unfold admitted_by. by rewrite foreign_is_not by set_solver. Qed.
Lemma excluded_by_foreign e : foreign_event e = true → excluded_by e = ∅.
Proof. intros He. unfold excluded_by. by rewrite !foreign_is_not by set_solver. Qed.

(** ** What recovery computes *)

(** The first submission of each identity not yet seen *)
Fixpoint first_of (seen : gset string) (l : list Submission) : list Submission :=
  match l with
  | [] => []
  | s :: l' => if bool_decide (sub_id s ∈ seen) then first_of seen l'
               else s :: first_of ({[sub_id s]} ∪ seen) l'
  end.

(** What recovery leaves untouched *)
Definition same_rest (q q' : MachineInputQueue) : Prop :=
  pending q' = pending q ∧ settled_ids q' = settled_ids q
  ∧ queue_uncertain_ids q' = queue_uncertain_ids q.

Lemma recover_event_admit s q0 inputs X q :
  is_input_op (sub_op s) = true →
  ∃ q', recover_event binding_from_value (inputs, X) (admit_event s q0) q
        = (q', Ok (inputs ++ first_of (admitted_ids q) [s], X))
  ∧ admitted_ids q' = {[sub_id s]} ∪ admitted_ids q
  ∧ bindings q' = bind_event (bindings q) (admit_event s q0) ∧ same_rest q q'.
Proof.
  intros Hs. pose proof (admission_payload_binding s q0) as Hb.
  unfold recover_event, bind_event. rewrite admitted_by_admit by done.
  kinds. unfold binding_by, admit_event in *. cbn [ev_payload] in *. mrun.
  rewrite admission_payload_reads by done. simpl.
  destruct (isSome (value_get "callable_binding" (admission_payload s q0))) eqn:Hc; simpl.
  - destruct (identity_from_value _) as [i|]; simpl in *;
      [destruct (controls_from_value _) as [c|]; simpl in *|];
      try (exfalso; clear - Hb Hc; revert Hb Hc; unfold admission_payload;
           destruct (bindings q0 !! sub_id s); simpl; rewrite ?bool_decide_false by done; done).
    case_bool_decide; eexists; (split; [rewrite ?app_nil_r; reflexivity|]); repeat split; simpl; set_solver.
  - case_bool_decide; eexists; (split; [rewrite ?app_nil_r; reflexivity|]); repeat split; simpl; set_solver.
Qed.

Lemma recover_event_spec e inputs X q :
  known_event e →
  ∃ q', recover_event binding_from_value (inputs, X) e q
        = (q', Ok (inputs ++ first_of (admitted_ids q) (option_list (admitted_by e)),
                   X ∪ excluded_by e))
  ∧ admitted_ids q' = list_to_set (sub_id <$> option_list (admitted_by e)) ∪ admitted_ids q
  ∧ bindings q' = bind_event (bindings q) e ∧ same_rest q q'.
Proof.
  intros He. destruct He as [s q0 Hs|ids|ids|e Hf].
  - destruct (recover_event_admit s q0 inputs X q Hs) as (q' & Hrun & Ha & Hrest). exists q'.
    rewrite admitted_by_admit, excluded_by_admit, Hrun, Ha by done. cbn [option_list fmap list_fmap].
    rewrite (right_id_L ∅ (∪)). split; [done|]. split; [set_solver|done].
  - exists q. unfold bind_event. rewrite excluded_by_removal, admitted_by_removal. unfold recover_event.
    kinds. rewrite index_single, strings_round_trip. mrun. simpl. rewrite app_nil_r.
    split; [done|]. split; [set_solver|done].
  - exists q. unfold bind_event. rewrite excluded_by_dispatch, admitted_by_dispatch. unfold recover_event.
    destruct ids as [|i [|]]; kinds; rewrite index_single, ?strings_round_trip; mrun;
      cbn [as_str option_list first_of fmap list_fmap]; rewrite app_nil_r;
      (split; [|split; [set_solver|done]]); [done| |done].
    cbn [list_to_set]. by rewrite (right_id_L ∅ (∪)), (union_comm_L {[i]} X).
  - unfold bind_event. rewrite (admitted_by_foreign e Hf), (excluded_by_foreign e Hf).
    unfold recover_event. fold (is_kind "machine_model_selected_v1" e).
    pose proof (λ k, foreign_is_not k e Hf) as Hk. unfold is_kind in *.
    rewrite (Hk "machine_input_admitted_v1"), (Hk "machine_inputs_removed_v1"),
      (Hk "machine_inputs_dispatched_v1"), (Hk "machine_input_dispatched_v1"),
      (Hk "machine_input_removed_v1") by set_solver. cbn [orb]. destruct (foreign_decodes e Hf) as [Hb Hi].
    rewrite (right_id_L ∅ (∪)). cbn [option_list first_of fmap list_fmap]. rewrite app_nil_r.
    case_bool_decide; [|case_bool_decide; [|exists q; split; [done|split; [set_solver|done]]]].
    + destruct Hb as [b ->]; [done|]. mrun. eexists.
      split; [done|split; [set_solver|done]].
    + destruct Hi as [i ->]; [done|]. mrun. eexists.
      split; [done|split; [set_solver|done]].
Qed.

Lemma first_of_app seen l k :
  first_of seen (l ++ k) = first_of seen l ++ first_of (list_to_set (sub_id <$> l) ∪ seen) k.
Proof.
  revert seen. induction l as [|s l IH]; intros seen; simpl.
  - by rewrite (left_id_L ∅ (∪)).
  - case_bool_decide; rewrite IH; simpl.
    + f_equal. f_equal. set_solver.
    + f_equal. f_equal. f_equal. set_solver.
Qed.

Lemma recover_events_spec events inputs X q :
  Forall known_event events →
  ∃ q', recover_events binding_from_value (inputs, X) events q
        = (q', Ok (inputs ++ first_of (admitted_ids q) (admissions events), X ∪ excluded_of events))
  ∧ admitted_ids q' = list_to_set (sub_id <$> admissions events) ∪ admitted_ids q
  ∧ bindings q' = foldl bind_event (bindings q) events ∧ same_rest q q'.
Proof.
  intros Hes. revert inputs X q. induction Hes as [|e events He Hes IH]; intros inputs X q.
  - exists q. simpl. rewrite app_nil_r. unfold excluded_of. simpl.
    rewrite (right_id_L ∅ (∪)), (left_id_L ∅ (∪)). done.
  - destruct (recover_event_spec e inputs X q He) as (q1 & Hrun & Ha & Hb & Hp & Hs & Hu).
    destruct (IH (inputs ++ first_of (admitted_ids q) (option_list (admitted_by e)))
                (X ∪ excluded_by e) q1) as (q2 & Hrun2 & Ha2 & Hb2 & Hp2 & Hs2 & Hu2).
    exists q2. cbn [recover_events]. mrun. rewrite Hrun, Hrun2, Ha, Ha2, Hb2, Hb, Ha.
    assert (admissions (e :: events) = option_list (admitted_by e) ++ admissions events) as ->.
    { unfold admissions. simpl. by destruct (admitted_by e). }
    rewrite first_of_app, fmap_app, list_to_set_app_L.
    unfold excluded_of at 2. simpl. fold (excluded_of events).
    split; [by rewrite (assoc_L (∪)), (assoc_L (++))|].
    split; [set_solver|]. split; [done|]. unfold same_rest. by rewrite Hp2, Hs2, Hu2.
Qed.

Lemma first_of_sublist seen l : first_of seen l `sublist_of` l.
Proof.
  revert seen. induction l as [|s l IH]; intros seen; simpl; [constructor|].
  case_bool_decide; by constructor.
Qed.
Lemma first_of_unseen seen l s : s ∈ first_of seen l → sub_id s ∉ seen.
Proof.
  revert seen. induction l as [|a l IH]; intros seen; simpl; [set_solver|].
  case_bool_decide; [apply IH|]. rewrite elem_of_cons. intros [->|Hs%IH]; set_solver.
Qed.
Lemma first_of_NoDup seen l : NoDup (sub_id <$> first_of seen l).
Proof.
  revert seen. induction l as [|a l IH]; intros seen; simpl; [constructor|].
  case_bool_decide; [done|]. rewrite fmap_cons, NoDup_cons. split; [|done].
  intros (s & Hid & Hs%first_of_unseen)%list_elem_of_fmap. set_solver.
Qed.
Lemma first_of_complete seen l id :
  id ∉ seen → id ∈ sub_id <$> l → id ∈ sub_id <$> first_of seen l.
Proof.
  revert seen. induction l as [|a l IH]; intros seen Hn; simpl; [done|].
  rewrite elem_of_cons. intros [->|Hin].
  - rewrite bool_decide_false by done. set_solver.
  - case_bool_decide; [by apply IH|]. rewrite fmap_cons, elem_of_cons.
    destruct (decide (id = sub_id a)) as [->|]; [by left|]. right. apply IH; set_solver.
Qed.

(** The queue recovery builds from a rollout *)
Lemma recover_input_queue_spec h :
  Forall known_event h →
  ∃ q', recover_input_queue binding_from_value h empty_queue = (q', Ok tt)
  ∧ pending q' = QSubmission <$> filter (λ s, sub_id s ∉ excluded_of h) (first_of ∅ (admissions h))
  ∧ settled_ids q' = excluded_of h
  ∧ admitted_ids q' = list_to_set (sub_id <$> admissions h)
  ∧ queue_uncertain_ids q' = ∅
  ∧ bindings q' = filter (λ kv, kv.1 ∉ excluded_of h) (recorded_bindings h)
  ∧ paused q' = negb (bool_decide (length (pending q') = 0%nat)) ∧ recovered q' = paused q'.
Proof.
  intros Hh. destruct (recover_events_spec h [] ∅ empty_queue Hh)
    as (q' & Hrun & Ha & Hb & Hp & Hs & Hu).
  cbn [empty_queue admitted_ids bindings pending settled_ids queue_uncertain_ids] in *.
  rewrite (right_id_L ∅ (∪)) in Ha. rewrite (left_id_L ∅ (∪)) in Hrun.
  unfold recover_input_queue. mrun. rewrite Hrun. eexists. split; [reflexivity|]. simpl.
  rewrite Hp, Hs, Hu, Ha, Hb, (left_id_L ∅ (∪)). by repeat split.
Qed.
End records.
