(* ===== verification/QueueLedger.v ===== *)
(** * The ledger invariant of the input queue

    [ledger] relates the queue in memory to the records on its rollout. Every
    operation keeps it on every outcome of its writes and reads. *)
From S2P Require Import Prelude RustStd RustText Tape Protocol InputQueue QueueControls QueueFacts.

Definition rollout (w : QWorld) : list EventRecord := from_option history [] (recorder w).

Section ledger.
Context `{SubmissionSerdeLaws} (binding_from_value : Json → option InputBinding).
Context (P : Submission → Prop).

(** ** One record more *)

Lemma admissions_snoc h e : admissions (h ++ [e]) = admissions h ++ option_list (admitted_by e).
Proof. unfold admissions. rewrite omap_app. simpl. by destruct (admitted_by e). Qed.
Lemma excluded_snoc h e : excluded_of (h ++ [e]) = excluded_of h ∪ excluded_by e.
Proof.
  unfold excluded_of. rewrite fmap_app, union_list_app_L. simpl. by rewrite (right_id_L ∅ (∪)).
Qed.
Lemma recorded_bindings_snoc h e : recorded_bindings (h ++ [e]) = bind_event (recorded_bindings h) e.
Proof. unfold recorded_bindings. by rewrite foldl_app. Qed.

(** ** The invariant *)

Record ledger (w : QWorld) : Prop := {
  l_recorder : is_Some (recorder w);
  l_known : Forall (known_event binding_from_value) (rollout w);
  l_offered : Forall P (admissions (rollout w));
  l_admitted : admitted_ids (queue w) ⊆ list_to_set (sub_id <$> admissions (rollout w));
  l_settled : settled_ids (queue w) ⊆ excluded_of (rollout w);
  l_excluded : excluded_of (rollout w) ⊆ settled_ids (queue w) ∪ queue_uncertain_ids (queue w);
  l_bindings id : id ∈ admitted_ids (queue w) → id ∉ settled_ids (queue w) →
    bindings (queue w) !! id = recorded_bindings (rollout w) !! id;
  l_captured id : is_Some (recorded_bindings (rollout w) !! id) →
    id ∈ settled_ids (queue w) ∨ is_Some (bindings (queue w) !! id);
}.

(** The part of the queue the ledger speaks of *)
Definition same_ledger (q q' : MachineInputQueue) : Prop :=
  admitted_ids q' = admitted_ids q ∧ settled_ids q' = settled_ids q
  ∧ queue_uncertain_ids q' = queue_uncertain_ids q ∧ bindings q' = bindings q.

Lemma ledger_frame w w' :
  same_ledger (queue w) (queue w') → rollout w' = rollout w → is_Some (recorder w') →
  ledger w → ledger w'.
Proof.
  intros (Ha & Hs & Hu & Hb) Hr Hsome []. constructor; rewrite ?Hr, ?Ha, ?Hs, ?Hu, ?Hb; auto.
Qed.

Lemma ledger_queue f w : (∀ q, same_ledger q (f q)) → ledger w → ledger (on_queue f w).
Proof. intros Hf Hw. eapply ledger_frame; [..|exact Hw]; [apply Hf|done|]. by destruct Hw. Qed.

(** ** Effects of settling *)

Lemma settle_all ids q :
  let q' := foldl settle q ids in
  admitted_ids q' = admitted_ids q ∧ settled_ids q' = list_to_set ids ∪ settled_ids q
  ∧ queue_uncertain_ids q' = queue_uncertain_ids q ∖ list_to_set ids
  ∧ (∀ id, id ∉ ids → bindings q' !! id = bindings q !! id).
Proof.
  revert q. induction ids as [|i ids IH]; intros q; cbn [foldl].
  - repeat split; set_solver.
  - destruct (IH (settle q i)) as (Ha & Hs & Hu & Hb). cbv zeta in *. rewrite Ha, Hs, Hu. simpl.
    repeat split; [set_solver..|]. intros id Hid. rewrite Hb by set_solver. simpl.
    apply lookup_delete_ne. set_solver.
Qed.
Lemma mark_all ids q :
  let q' := foldl mark_uncertain q ids in
  admitted_ids q' = admitted_ids q ∧ settled_ids q' = settled_ids q
  ∧ queue_uncertain_ids q' = list_to_set ids ∪ queue_uncertain_ids q ∧ bindings q' = bindings q.
Proof.
  revert q. induction ids as [|i ids IH]; intros q; cbn [foldl]; [repeat split; set_solver|].
  destruct (IH (mark_uncertain q i)) as (Ha & Hs & Hu & Hb). cbv zeta in *.
  rewrite Ha, Hs, Hu, Hb. simpl. repeat split; set_solver.
Qed.

(** ** Records of this component *)

(** A rollout that grew at most by a disposition of [ids] *)
Definition disposed (ids : list string) (h h' : list EventRecord) : Prop :=
  h' = h ∨ ∃ e, h' = h ++ [e] ∧ known_event binding_from_value e
                ∧ admitted_by e = None ∧ excluded_by e = list_to_set ids.

Lemma disposed_facts ids h h' :
  disposed ids h h' → Forall (known_event binding_from_value) h →
  Forall (known_event binding_from_value) h' ∧ admissions h' = admissions h
  ∧ recorded_bindings h' = recorded_bindings h
  ∧ excluded_of h ⊆ excluded_of h' ∧ excluded_of h' ⊆ excluded_of h ∪ list_to_set ids.
Proof.
  intros [->|(e & -> & He & Ha & Hx)] Hh; [split_and!; [done..|set_solver|set_solver]|].
  rewrite admissions_snoc, excluded_snoc, recorded_bindings_snoc, Ha, Hx. unfold bind_event.
  rewrite Ha. simpl. rewrite app_nil_r. split_and!; [|done|done|set_solver|set_solver].
  by apply Forall_app_2; [|constructor].
Qed.

Lemma ledger_settle ids w w' :
  disposed ids (rollout w) (rollout w') → list_to_set ids ⊆ excluded_of (rollout w') →
  queue w' = foldl settle (queue w) ids → is_Some (recorder w') → ledger w → ledger w'.
Proof.
  intros Hd Hin Hq Hsome []. destruct (disposed_facts _ _ _ Hd l_known0) as (Hk & Ha & Hb & H1 & H2).
  destruct (settle_all ids (queue w)) as (Qa & Qs & Qu & Qb). rewrite <- Hq in Qa, Qs, Qu, Qb.
  constructor; rewrite ?Ha, ?Hb, ?Qa, ?Qs, ?Qu; [done..| | | |].
  - clear -l_settled0 H1 Hin. set_solver.
  - intros x Hx. clear -Hx H2 l_excluded0. destruct (decide (x ∈ ids)); [set_solver|].
    apply H2 in Hx. set_solver.
  - intros id Hid [Hi Hn]%not_elem_of_union. rewrite not_elem_of_list_to_set in Hi.
    rewrite Qb by done. by apply l_bindings0.
  - intros id Hid. rewrite elem_of_union, elem_of_list_to_set.
    destruct (decide (id ∈ ids)); [by left; left|]. rewrite Qb by done.
    destruct (l_captured0 id Hid); [by left; right|by right].
Qed.

Lemma ledger_uncertain ids w w' :
  disposed ids (rollout w) (rollout w') → queue w' = foldl mark_uncertain (queue w) ids →
  is_Some (recorder w') → ledger w → ledger w'.
Proof.
  intros Hd Hq Hsome []. destruct (disposed_facts _ _ _ Hd l_known0) as (Hk & Ha & Hb & H1 & H2).
  destruct (mark_all ids (queue w)) as (Qa & Qs & Qu & Qb). rewrite <- Hq in Qa, Qs, Qu, Qb.
  constructor; rewrite ?Ha, ?Hb, ?Qa, ?Qs, ?Qu, ?Qb; [done..| | |done|done].
  - clear -l_settled0 H1. set_solver.
  - clear -l_excluded0 H2. set_solver.
Qed.

(** An admission is on the rollout, acknowledged or not. *)
Lemma ledger_admit_record s w r' :
  ledger w → P s → is_input_op (sub_op s) = true → sub_id s ∉ admitted_ids (queue w) →
  history r' = rollout w ++ [admit_event s (queue w)] → ledger (set_recorder r' w).
Proof.
  intros [] HP Hs Hn Hh. assert (rollout (set_recorder r' w) = rollout w ++ [admit_event s (queue w)])
    as Hr by (unfold rollout; simpl; by rewrite Hh).
  constructor; rewrite ?Hr, ?admissions_snoc, ?excluded_snoc, ?recorded_bindings_snoc; simpl;
    rewrite ?(admitted_by_admit s (queue w) Hs), ?(excluded_by_admit s (queue w)); simpl.
  - done.
  - apply Forall_app_2; [done|]. constructor; [by constructor|done].
  - apply Forall_app_2; [done|]. by constructor.
  - rewrite fmap_app, list_to_set_app_L. clear -l_admitted0. set_solver.
  - clear -l_settled0. set_solver.
  - clear -l_excluded0. set_solver.
  - intros id Hid Hns. unfold bind_event. rewrite admitted_by_admit by done.
    destruct (binding_by _); [|by apply l_bindings0]. rewrite lookup_insert_ne by congruence.
    by apply l_bindings0.
  - intros id. unfold bind_event. rewrite admitted_by_admit, admission_payload_binding by done.
    destruct (bindings (queue w) !! sub_id s) as [b|] eqn:Hb; [|by apply l_captured0].
    destruct (decide (id = sub_id s)) as [->|]; [rewrite Hb; by right|].
    rewrite lookup_insert_ne by done. by apply l_captured0.
Qed.

Lemma ledger_admit s w :
  ledger w → sub_id s ∉ admitted_ids (queue w) →
  sub_id s ∈ sub_id <$> admissions (rollout w) →
  bindings (queue w) !! sub_id s = recorded_bindings (rollout w) !! sub_id s
    ∨ sub_id s ∈ settled_ids (queue w) →
  ledger (on_queue (on_admitted (λ X, {[sub_id s]} ∪ X)) w).
Proof.
  intros [] Hn Hin Hb. constructor; simpl; try done; [clear -l_admitted0 Hin; set_solver|].
  intros id [->%elem_of_singleton|Hid]%elem_of_union Hns; [by destruct Hb|]. by apply l_bindings0.
Qed.

(** ** The operations of the queue *)

Lemma persist_cases kind payload w :
  is_Some (recorder w) →
  ∃ r', (persist_input_event kind payload w).1 = set_recorder r' w
  ∧ match (persist_input_event kind payload w).2 with
    | Ok _ => history r' = rollout w ++ [mkEvent kind payload]
    | Err _ => history r' = rollout w ∨ history r' = rollout w ++ [mkEvent kind payload]
    | _ => False
    end.
Proof.
  intros [r Hr]. unfold persist_input_event, persist_record, rollout. rewrite Hr. simpl.
  destruct (writes r) as [|[]]; simpl; eauto.
Qed.

Lemma observe_same w :
  queue (observe w).1 = queue w ∧ recorder (observe w).1 = recorder w ∧ (observe w).2 = Ok tt.
Proof. unfold observe. by destruct (queue_publisher w). Qed.

Lemma ledger_observe w : ledger w → ∃ w', observe w = (w', Ok tt) ∧ ledger w'.
Proof.
  intros Hw. destruct (observe_same w) as (Hq & Hr & Hok). exists (observe w).1.
  rewrite <- Hok, <- surjective_pairing. split; [done|].
  eapply ledger_frame; [..|exact Hw]; [by rewrite Hq|unfold rollout; by rewrite Hr|].
  rewrite Hr. by destruct Hw.
Qed.
Lemma observe_ledger : keeps ledger observe (λ _, True).
Proof. intros w Hw. by destruct (ledger_observe w Hw) as (w' & -> & Hw'). Qed.

Lemma admit_input_ledger s : P s → keeps ledger (admit_input s) (λ _, True).
Proof.
  intros HP w Hw. unfold admit_input. destruct (is_input_op (sub_op s)) eqn:Hs; [|done]. simpl.
  mrun. case_bool_decide as Hn; [done|].
  destruct (persist_cases "machine_input_admitted_v1" (admission_payload s (queue w)) w)
    as (r' & Hst & Hres); [by destruct Hw|].
  destruct (persist_input_event _ _ w) as [w1 res]. simpl in *. subst w1.
  destruct res as [[]|e| |]; [| |done|done]; simpl.
  - pose proof (ledger_admit_record s w r' Hw HP Hs Hn Hres) as Hw1.
    assert (ledger (on_queue (on_admitted (λ X, {[sub_id s]} ∪ X)) (set_recorder r' w))) as Hw2.
    { assert (rollout (set_recorder r' w) = rollout w ++ [admit_event s (queue w)]) as Hr
        by (unfold rollout; simpl; by rewrite Hres).
      apply ledger_admit; [done|done| |].
      - rewrite Hr, admissions_snoc, admitted_by_admit by done. set_solver.
      - rewrite Hr, recorded_bindings_snoc. simpl. unfold bind_event.
        rewrite admitted_by_admit, admission_payload_binding by done.
        destruct (bindings (queue w) !! sub_id s) eqn:Hb; [left; by rewrite lookup_insert_eq|].
        destruct (recorded_bindings (rollout w) !! sub_id s) eqn:Hrb; [|by left].
        destruct (l_captured _ Hw (sub_id s)) as [?|Hx]; [by rewrite Hrb|by right|].
        rewrite Hb in Hx. by destruct Hx. }
    match goal with |- context [observe ?w3] => assert (ledger w3) as Hw3 end.
    { by apply ledger_queue. }
    by destruct (ledger_observe _ Hw3) as (w4 & -> & Hw4).
  - split; [|done]. destruct Hres as [Hres|Hres]; [|by eapply ledger_admit_record].
    eapply ledger_frame; [..|exact Hw]; [done| |done]. unfold rollout. simpl. by rewrite Hres.
Qed.

Lemma dispatch_ledger ids : keeps ledger (dispatch_input_ids ids) (λ _, True).
Proof.
  intros w Hw. unfold dispatch_input_ids. destruct (dispatch_record ids) as [kind payload] eqn:Hd.
  mrun. unfold mtry.
  destruct (persist_cases kind payload w) as (r' & Hst & Hres); [by destruct Hw|].
  destruct (persist_input_event kind payload w) as [w1 res]. simpl in *. subst w1.
  assert (mkEvent kind payload = dispatch_event ids) as He by (unfold dispatch_event; by rewrite Hd).
  rewrite He in Hres.
  assert (∀ h', h' = rollout w ∨ h' = rollout w ++ [dispatch_event ids] → disposed ids (rollout w) h')
    as Hdis.
  { intros h' [->| ->]; [by left|right]. exists (dispatch_event ids).
    split_and!; [done|by constructor|apply admitted_by_dispatch|apply excluded_by_dispatch]. }
  assert (rollout (set_recorder r' w) = history r') as Hr by done.
  destruct res as [[]|e| |]; [| |done|done]; simpl;
    match goal with |- context [observe ?w3] =>
      assert (ledger w3) as Hw3; [|by destruct (ledger_observe w3 Hw3) as (w4 & -> & Hw4)] end.
  - eapply (ledger_settle ids w); [..|exact Hw]; [apply Hdis; right; exact Hres| |done|done].
    change (rollout _) with (history r'). rewrite Hres, excluded_snoc, excluded_by_dispatch. set_solver.
  - eapply (ledger_uncertain ids w); [..|exact Hw]; [by apply Hdis|done|done].
Qed.

Lemma is_removal_of_excludes ids h :
  existsb (is_removal_of ids) h = true → list_to_set ids ⊆ excluded_of h.
Proof.
  intros (e & He & Hm)%existsb_exists. apply list_elem_of_In in He.
  unfold is_removal_of in Hm. apply andb_true_iff in Hm as [Ht Hs]. bool_facts.
  assert (excluded_by e = list_to_set ids) as Hx.
  { unfold excluded_by, is_kind. rewrite bool_decide_true by done. simpl. by rewrite Hs. }
  rewrite <- Hx. unfold excluded_of. intros id Hid. apply elem_of_union_list.
  exists (excluded_by e). split; [by apply list_elem_of_fmap_2|done].
Qed.

(** Reading the rollout leaves it, and the queue, as they are. *)
Lemma recorded_run ids w :
  ∃ w', (recorded ids w).1 = w' ∧ queue w' = queue w ∧ rollout w' = rollout w
  ∧ (is_Some (recorder w) → is_Some (recorder w'))
  ∧ match (recorded ids w).2 with
    | Ok known => is_Some (recorder w) → known = existsb (is_removal_of ids) (rollout w)
    | Err _ => True | _ => False
    end.
Proof.
  unfold recorded, load_history, rollout. mrun. destruct (recorder w) as [r|] eqn:Hr; simpl.
  - destruct (loads r) as [|[]]; simpl; by eexists.
  - eexists. rewrite Hr. by split_and!.
Qed.

Lemma persist_removals_spec ids w w' res :
  is_Some (recorder w) → Forall (known_event binding_from_value) (rollout w) →
  persist_input_removals ids w = (w', res) →
  queue w' = queue w ∧ is_Some (recorder w') ∧ disposed ids (rollout w) (rollout w')
  ∧ match res with
    | Ok _ => list_to_set ids ⊆ excluded_of (rollout w')
    | Err _ => True
    | _ => False
    end.
Proof.
  intros Hr Hk. unfold persist_input_removals. mrun. case_bool_decide as Hids; simpl.
  { intros [= <- <-]. subst ids. split_and!; [done..|by left|set_solver]. }
  rewrite (proj2 (isSome_true (recorder w)) Hr). simpl.
  destruct (recorded_run ids w) as (w1 & Hw1 & Hq1 & Hh1 & Hr1 & Hres1).
  destruct (recorded ids w) as [w1' [known|e| |]]; simpl in *; subst w1'; try done; [|].
  2: { intros [= <- <-]. split_and!; auto. by left. }
  destruct known.
  { intros [= <- <-]. rewrite Hq1, Hh1. split_and!; auto; [by left|].
    apply is_removal_of_excludes. symmetry. auto. }
  unfold mtry. destruct (persist_cases "machine_inputs_removed_v1"
    (JObject [("submission_ids", strings_to_value ids)]) w1) as (r2 & Hw2 & Hres2); [auto|].
  destruct (persist_input_event _ _ w1) as [w2 res2]. simpl in Hw2, Hres2. subst w2.
  rewrite Hh1 in Hres2. fold (removal_event ids) in Hres2.
  assert (disposed ids (rollout w) (rollout w ++ [removal_event ids])) as Hd.
  { right. exists (removal_event ids).
    split_and!; [done|by constructor|apply admitted_by_removal|apply excluded_by_removal]. }
  assert (∀ w3, rollout w3 = history r2 → disposed ids (rollout w) (rollout w3)) as Hd2.
  { intros w3 ->. destruct res2; [rewrite Hres2|destruct Hres2 as [->| ->]|done|done]; [done|by left|done]. }
  destruct res2 as [[]|e| |]; [| |done|done]; cbn beta iota.
  { intros [= <- <-]. split_and!; [exact Hq1|done|by apply Hd2|].
    unfold rollout. simpl. rewrite Hres2, excluded_snoc, excluded_by_removal. set_solver. }
  destruct (recorded_run ids (set_recorder r2 w1)) as (w3 & Hw3 & Hq3 & Hh3 & Hr3 & Hres3).
  destruct (recorded ids (set_recorder r2 w1)) as [w3' seen]. simpl in Hw3, Hres3. subst w3'.
  assert (queue w3 = queue w) as Hq by (rewrite Hq3; exact Hq1).
  destruct seen as [[]|e'| |]; try done; intros [= <- <-]; split_and!; auto.
  - rewrite Hh3. apply is_removal_of_excludes. symmetry. auto.
Qed.

Lemma remove_bindings_ledger ids : keeps ledger (remove_input_bindings ids) (λ _, True).
Proof.
  intros w Hw. unfold remove_input_bindings. mrun. unfold mtry.
  destruct (persist_input_removals ids w) as [w1 res] eqn:Hp.
  destruct (persist_removals_spec ids w w1 res) as (Hq & Hr & Hd & Hres);
    [apply Hw|apply Hw|done|].
  destruct res as [[]|e| |]; [| |done|done]; simpl;
    match goal with |- context [observe ?w3] =>
      assert (ledger w3) as Hw3; [|by destruct (ledger_observe w3 Hw3) as (w4 & -> & Hw4)] end.
  - eapply (ledger_settle ids w); [..|exact Hw]; [done..| |done]. simpl. by rewrite Hq.
  - eapply (ledger_uncertain ids w); [..|exact Hw]; [done| |done]. simpl. by rewrite Hq.
Qed.

(** Containers, flags and rejections are not part of the ledger. *)
Lemma modify_ledger f : (∀ q, same_ledger q (f q)) → keeps (E := QueueError) ledger (mmodify (on_queue f)) (λ _, True).
Proof. intros Hf w Hw. split; [by apply ledger_queue|done]. Qed.

Lemma remove_input_ledger s : keeps ledger (remove_input s) (λ _, True).
Proof.
  unfold remove_input. eapply keeps_bind; [apply keeps_try, remove_bindings_ledger|].
  intros [[]|e| |] _; try by apply keeps_ret.
  eapply keeps_bind; [by apply modify_ledger|]. intros. apply keeps_fail.
Qed.
End ledger.
