(* ===== verification/QueueRun.v ===== *)
(** * Sessions of the input queue: recovery and the loss of input

    A session is any sequence of intake, dispatch, removal and control operations,
    restarts from the rollout included. *)
From S2P Require Import Prelude RustStd RustText Tape Protocol InputQueue QueueControls QueueFacts QueueLedger.

Definition crollout (w : CWorld) : list EventRecord := rollout (inner w).

(** ** The ledger in the larger world *)

Section cledger.
Context `{SubmissionSerdeLaws} (binding_from_value : Json → option InputBinding).
Context (P : Submission → Prop).
Notation ledger := (ledger binding_from_value P).

Definition cledger (w : CWorld) : Prop := ledger (inner w).

Lemma in_queue_keeps {A} (m : QOp A) φ : keeps ledger m φ → keeps cledger (in_queue m) φ.
Proof. intros Hm w Hw. unfold in_queue. specialize (Hm (inner w) Hw). by destruct (m (inner w)). Qed.

(** Operations that leave the queue and its recorder alone *)
Lemma outside_keeps {A} (m : COp A) : (∀ w, inner (m w).1 = inner w) → keeps cledger m (λ _, True).
Proof. intros Hm w Hw. unfold cledger. rewrite Hm. by destruct (m w).2. Qed.

Lemma ui_write_inner e w : inner (ui_write e w).1 = inner w.
Proof. unfold ui_write. by destruct (ui_writes w) as [|[]]. Qed.
Lemma warning_inner text w : inner (warning text w).1 = inner w.
Proof.
  unfold warning, mtry. mrun. pose proof (ui_write_inner (UNoticeSnapshot text) w) as H1.
  destruct (ui_write (UNoticeSnapshot text) w) as [w1 []]; simpl in *; try done.
  pose proof (ui_write_inner (UNotice text) w1) as H2.
  by destruct (ui_write (UNotice text) w1) as [w2 []]; simpl in *; rewrite H2.
Qed.
Lemma publish_cancelled_inner id msg w : inner (publish_cancelled_input id msg w).1 = inner w.
Proof.
  unfold publish_cancelled_input, mtry. mrun.
  pose proof (ui_write_inner (UAction id msg) w) as H1.
  destruct (ui_write (UAction id msg) w) as [w1 []]; simpl in *; try done;
    pose proof (ui_write_inner (UInputCompleted [id] Cancelled (Some msg)) w1) as H2;
    destruct (ui_write _ w1) as [w2 []]; simpl in *; by rewrite H2.
Qed.
Lemma reconcile_inner w : inner (reconcile_input_captures w).1 = inner w.
Proof. unfold reconcile_input_captures. mrun. simpl. by destruct (environment w). Qed.

Lemma on_cqueue_keeps f : (∀ q, same_ledger q (f q)) → keeps cledger (on_cqueue f) (λ _, True).
Proof. intros Hf w Hw. split; [|done]. unfold on_cqueue, cledger. simpl. by apply ledger_queue. Qed.

Lemma ui_write_keeps e : keeps cledger (ui_write e) (λ _, True).
Proof. apply outside_keeps, ui_write_inner. Qed.
Lemma warning_keeps text : keeps cledger (warning text) (λ _, True).
Proof. apply outside_keeps, warning_inner. Qed.
Lemma publish_cancelled_keeps id msg : keeps cledger (publish_cancelled_input id msg) (λ _, True).
Proof. apply outside_keeps, publish_cancelled_inner. Qed.
Lemma reconcile_keeps : keeps cledger reconcile_input_captures (λ _, True).
Proof. apply outside_keeps, reconcile_inner. Qed.
Lemma ensure_keeps b why : keeps cledger (ensure b why) (λ _, True).
Proof. unfold ensure. destruct b; [by apply keeps_ret|apply keeps_fail]. Qed.

Lemma push_outer_keeps s : keeps cledger (in_queue (push_outer_submission s)) (λ _, True).
Proof. by apply in_queue_keeps, modify_ledger. Qed.
Lemma pause_keeps : keeps cledger (in_queue pause) (λ _, True).
Proof. by apply in_queue_keeps, modify_ledger. Qed.
Lemma remove_keeps ids : keeps cledger (in_queue (remove_input_bindings ids)) (λ _, True).
Proof. apply in_queue_keeps, remove_bindings_ledger. Qed.

(** A capture binds an input that is not admitted yet. *)
Lemma capture_keeps s : keeps cledger (capture_input s) (λ _, True).
Proof.
  intros w Hw. unfold capture_input. mrun.
  destruct (is_direct_command s || _ || _) eqn:Hc; [done|]. bool_facts.
  destruct (environment w) as [e|]; [|done]. destruct (confirmed e) as [callable|]; [|done].
  destruct (resolve_binding e callable s) as [b|]; [|done].
  split; [|done]. unfold on_cqueue, cledger. simpl. destruct Hw.
  constructor; simpl; try done.
  - intros id Hid Hns. rewrite lookup_insert_ne by (intros <-; done). by apply l_bindings.
  - intros id Hid. destruct (l_captured id Hid) as [?|Hb]; [by left|right].
    destruct (decide (id = sub_id s)) as [->|]; [by rewrite lookup_insert_eq|].
    by rewrite lookup_insert_ne.
Qed.

Hint Resolve ui_write_keeps warning_keeps publish_cancelled_keeps reconcile_keeps ensure_keeps
  push_outer_keeps pause_keeps remove_keeps capture_keeps : alan.

Lemma bool_keeps (b : bool) (m k : COp unit) :
  keeps cledger m (λ _, True) → keeps cledger k (λ _, True) → keeps cledger (if b then m else k) (λ _, True).
Proof. by destruct b. Qed.
Lemma skip_keeps : keeps cledger (mret tt : COp unit) (λ _, True).
Proof. by apply keeps_ret. Qed.
Hint Resolve bool_keeps skip_keeps : alan.

(** Changes of the containers and flags of the queue *)
Ltac on_queue_step := apply on_cqueue_keeps; intros ?; by repeat split.
Ltac on_queue_steps :=
  repeat (eapply (keeps_bind _ _ _ (λ _, True)); [on_queue_step|intros _ _]); try on_queue_step.

Lemma runtime_admit_keeps s : P s → keeps cledger (runtime_admit_input s) (λ _, True).
Proof.
  intros HP. eapply keeps_bind; [apply capture_keeps|intros _ _].
  by apply in_queue_keeps, admit_input_ledger.
Qed.
Lemma reject_admission_keeps s e : keeps cledger (reject_admission s e) (λ _, True).
Proof. unfold reject_admission. ksteps. Qed.
Lemma admit_during_deferred_keeps s : P s → keeps cledger (admit_during_deferred s) (λ _, True).
Proof.
  intros HP. pose proof (runtime_admit_keeps s HP). pose proof (reject_admission_keeps s).
  unfold admit_during_deferred. ksteps; done.
Qed.
Lemma admit_api_keeps waiting :
  Forall P waiting → keeps cledger (admit_api_before_dispatch waiting) (λ _, True).
Proof.
  pose proof reject_admission_keeps.
  induction 1 as [|s rest HP Hrest IH]; simpl; [by apply keeps_ret|].
  pose proof (runtime_admit_keeps s HP). ksteps.
Qed.
Lemma retain_keeps s : keeps cledger (retain_durable_failure s) (λ _, True).
Proof. unfold retain_durable_failure. on_queue_steps. ksteps. Qed.
Lemma fail_accepted_keeps s reason : keeps cledger (fail_accepted_input s reason) (λ _, True).
Proof.
  pose proof (retain_keeps s). unfold fail_accepted_input.
  eapply keeps_bind; [apply keeps_try; auto with alan|]. intros [[]|e| |] _; ksteps;
    on_queue_steps; ksteps.
Qed.
Lemma preflight_keeps discard active : keeps cledger (control_preflight discard active) (λ _, True).
Proof.
  unfold control_preflight. ksteps.
  eapply (keeps_bind _ _ _ (λ _, True)); [ksteps|intros _ _; ksteps].
Qed.
Lemma commit_keeps discard active ids : keeps cledger (control_commit discard active ids) (λ _, True).
Proof.
  unfold control_commit. ksteps; [|on_queue_steps].
  eapply (keeps_bind _ _ _ (λ _, True)); [on_queue_steps|intros _ _; on_queue_steps].
Qed.
Lemma publish_discarded_keeps ids : keeps cledger (publish_discarded ids) (λ _, True).
Proof. induction ids as [|id ids IH]; simpl; [by apply keeps_ret|]. ksteps. Qed.
Lemma queue_control_keeps discard active : keeps cledger (queue_control discard active) (λ _, True).
Proof.
  pose proof publish_discarded_keeps. unfold queue_control. eapply keeps_bind.
  { apply keeps_try. eapply keeps_bind; [apply preflight_keeps|]. intros p _.
    eapply keeps_bind; [apply commit_keeps|]. intros _ _. by apply (keeps_ret _ p (λ _, True)). }
  intros [[discarded anonymous]|e| |] _;
    (eapply (keeps_bind _ _ _ (λ _, True)); [ksteps|intros ? _; ksteps]).
Qed.
Lemma interrupt_keeps id active : keeps cledger (interrupt_submission id active) (λ _, True).
Proof.
  unfold interrupt_submission. eapply keeps_bind; [apply keeps_get|]. intros w _.
  eapply keeps_bind; [apply keeps_try; auto with alan|]. intros [[]|e| |] _; ksteps;
    repeat (eapply keeps_bind; [first [on_queue_step|apply bool_keeps; [on_queue_step|by apply keeps_ret]]|intros _ _]);
    ksteps; done.
Qed.
End cledger.

(** ** Sessions *)

Inductive CStep : Type :=
  | StAdmit (s : Submission) | StDeferred (s : Submission) | StApi (waiting : list Submission)
  | StDispatch (ids : list string) | StDispatchInput (s : Submission) | StRemove (s : Submission)
  | StFail (s : Submission) (reason : string) | StRetain (s : Submission)
  | StReject (s : Submission) (e : QueueError)
  | StControl (discard active : bool) | StInterrupt (id : string) (active : bool)
  | StPush (s : Submission) | StPushDeferred (a : DeferredRuntimeAction) | StBuffer (s : Submission)
  | StPop (directories_pending : bool) | StPopDeferred
  | StEnvironment (e : Environment) | StOther (e : EventRecord)
  | StRestart (ws : list WriteOutcome) (ls : list bool).

(** The submissions a step offers for admission *)
Definition step_offers (st : CStep) : list Submission :=
  match st with
  | StAdmit s | StDeferred s | StDispatchInput s => [s]
  | StApi waiting => waiting
  | _ => []
  end.

Section session.
Context `{SubmissionSerde} (binding_from_value : Json → option InputBinding).

(** A new process rebuilds the queue and copies the records to its own rollout. *)
Definition restart (ws : list WriteOutcome) (ls : list bool) (w : CWorld) : CWorld :=
  let h := crollout w in
  mkC (mkWorld (recover_input_queue binding_from_value h empty_queue).1
         (Some (mkRecorder h ws ls)) None)
    None (ui_log w) (ui_writes w) false.

Definition exec_step (w : CWorld) (st : CStep) : CWorld :=
  match st with
  | StAdmit s => (runtime_admit_input s w).1
  | StDeferred s => (admit_during_deferred s w).1
  | StApi waiting => (admit_api_before_dispatch waiting w).1
  | StDispatch ids => (in_queue (dispatch_input_ids ids) w).1
  | StDispatchInput s => (in_queue (dispatch_input s) w).1
  | StRemove s => (in_queue (remove_input s) w).1
  | StFail s reason => (fail_accepted_input s reason w).1
  | StRetain s => (retain_durable_failure s w).1
  | StReject s e => (reject_admission s e w).1
  | StControl discard active => (queue_control discard active w).1
  | StInterrupt id active => (interrupt_submission id active w).1
  | StPush s => (in_queue (push_outer_submission s) w).1
  | StPushDeferred a => (in_queue (push_outer_deferred a) w).1
  | StBuffer s => (in_queue (push_buffered s) w).1
  | StPop dirs => (in_queue (pop_outer dirs) w).1
  | StPopDeferred => (in_queue pop_outer_deferred w).1
  | StEnvironment e => set_environment e w
  | StOther e => if foreign_event binding_from_value e
                 then (in_queue (persist_input_event (event_type e) (ev_payload e)) w).1 else w
  | StRestart ws ls => restart ws ls w
  end.
Definition exec (steps : list CStep) (w : CWorld) : CWorld := foldl exec_step w steps.

Definition start (ws : list WriteOutcome) (ls : list bool) : CWorld :=
  mkC (mkWorld empty_queue (Some (mkRecorder [] ws ls)) None) None [] [] false.
End session.

Section session_facts.
Context `{SubmissionSerdeLaws} (binding_from_value : Json → option InputBinding).
Notation cledger := (cledger binding_from_value).
Notation exec := (exec binding_from_value).
Notation exec_step := (exec_step binding_from_value).

Lemma start_ledger P ws ls : cledger P (start ws ls).
Proof. by constructor; simpl; [|constructor|constructor|set_solver..| |intros id []]. Qed.

Lemma restart_ledger P ws ls w : cledger P w → cledger P (restart binding_from_value ws ls w).
Proof.
  intros Hw. unfold cledger, restart. destruct (recover_input_queue_spec binding_from_value (crollout w))
    as (q' & -> & Hp & Hs & Ha & Hu & Hb & _); [apply Hw|].
  constructor; simpl; unfold rollout; simpl; rewrite ?Hs, ?Ha, ?Hu, ?Hb; [done|apply Hw|apply Hw| | | | |].
  1-3: set_solver.
  - intros id _ Hid. destruct (recorded_bindings (crollout w) !! id) eqn:Hr.
    + by apply map_lookup_filter_Some.
    + apply map_lookup_filter_None. by left.
  - intros id [b Hid]. destruct (decide (id ∈ excluded_of (crollout w))); [by left|right].
    exists b. by apply map_lookup_filter_Some.
Qed.

Lemma other_ledger P e w :
  foreign_event binding_from_value e = true → cledger P w →
  cledger P (in_queue (persist_input_event (event_type e) (ev_payload e)) w).1.
Proof.
  intros He Hw. unfold in_queue, cledger in *.
  destruct (persist_cases (event_type e) (ev_payload e) (inner w)) as (r' & Hst & Hres); [by destruct Hw|].
  destruct (persist_input_event _ _ _) as [w1 res]. simpl in *. subst w1.
  assert (history r' = rollout (inner w) ∨ history r' = rollout (inner w) ++ [e]) as Hh.
  { destruct e. destruct res; [by right|done|done|done]. }
  eapply (ledger_uncertain _ _ [] (inner w)); [|done|done|exact Hw].
  change (disposed binding_from_value [] (rollout (inner w)) (history r')). destruct Hh as [->| ->]; [by left|right]. exists e.
  split_and!; [done|by constructor|by eapply admitted_by_foreign|by eapply excluded_by_foreign].
Qed.

Lemma exec_step_ledger (P : Submission → Prop) w st :
  Forall P (step_offers st) → cledger P w → cledger P (exec_step w st).
Proof.
  intros Hoff Hw. destruct st; simpl in *; rewrite ?Forall_singleton in Hoff.
  - by apply runtime_admit_keeps.
  - by apply admit_during_deferred_keeps.
  - by apply admit_api_keeps.
  - by apply (in_queue_keeps _ _ _ (λ _, True)); [apply dispatch_ledger|].
  - apply (in_queue_keeps _ _ _ (λ _, True)); [|done].
    eapply keeps_bind; [by apply admit_input_ledger|intros; apply dispatch_ledger].
  - by apply (in_queue_keeps _ _ _ (λ _, True)); [apply remove_input_ledger|].
  - by apply fail_accepted_keeps.
  - by apply retain_keeps.
  - by apply reject_admission_keeps.
  - by apply queue_control_keeps.
  - by apply interrupt_keeps.
  - by apply push_outer_keeps.
  - by apply ledger_queue.
  - by apply ledger_queue.
  - unfold in_queue, pop_outer. mrun. destruct (_ || _); [done|]. by apply ledger_queue.
  - unfold in_queue, pop_outer_deferred. mrun. destruct (take_deferred _) as [[]|]; [|done].
    by apply ledger_queue.
  - done.
  - destruct (foreign_event _ _) eqn:He; [by apply other_ledger|done].
  - by apply restart_ledger.
Qed.

Lemma exec_ledger (P : Submission → Prop) steps w :
  Forall P (steps ≫= step_offers) → cledger P w → cledger P (exec steps w).
Proof.
  revert w. induction steps as [|st steps IH]; intros w Hoff Hw; [done|]. simpl in *.
  apply Forall_app in Hoff as [H1 H2]. apply IH; [done|]. by apply exec_step_ledger.
Qed.
End session_facts.
