(* ===== verification/QueueKept.v ===== *)
(** * Queued input is not lost

    Every operation either only adds to the containers of the queue and to the
    settled identities ([grows]), or drops what it has settled first. *)
From S2P Require Import Prelude RustStd RustText Tape Protocol InputQueue QueueControls QueueFacts QueueLedger QueueRun.

(** ** Queues that only grow *)

Record grows (q q' : MachineInputQueue) : Prop := {
  g_pending : pending q ⊆ pending q';
  g_inband : inband q ⊆ inband q';
  g_buffered : buffered_inband_submissions q ⊆ buffered_inband_submissions q';
  g_next_turn : queued_next_turn_inputs q ⊆ queued_next_turn_inputs q';
  g_settled : settled_ids q ⊆ settled_ids q';
}.
Global Instance grows_preorder : PreOrder grows.
Proof.
  split; [by constructor|]. intros q1 q2 q3 [] []. constructor; by etrans.
Qed.

Definition wgrows (w w' : QWorld) : Prop := grows (queue w) (queue w').
Definition cgrows (w w' : CWorld) : Prop := grows (cqueue w) (cqueue w').
Global Instance wgrows_preorder : PreOrder wgrows.
Proof. split; [by intros w|]. intros w1 w2 w3 H1 H2. red. by etrans. Qed.
Global Instance cgrows_preorder : PreOrder cgrows.
Proof. split; [by intros w|]. intros w1 w2 w3 H1 H2. red. by etrans. Qed.

(** An input is held by the queue or settled. *)
Definition held (id : string) (q : MachineInputQueue) : Prop :=
  (∃ s, QSubmission s ∈ pending q ∧ is_input_op (sub_op s) = true ∧ sub_id s = id)
  ∨ (∃ s, (s ∈ inband q ∨ s ∈ buffered_inband_submissions q) ∧ sub_id s = id)
  ∨ (∃ parts, (Some id, parts) ∈ queued_next_turn_inputs q).
Definition qkept (q q' : MachineInputQueue) : Prop := ∀ id,
  held id q ∨ id ∈ settled_ids q → held id q' ∨ id ∈ settled_ids q'.
Definition kept (w w' : CWorld) : Prop := qkept (cqueue w) (cqueue w').
Global Instance qkept_preorder : PreOrder qkept.
Proof. split; [by intros q id|]. intros q1 q2 q3 H1 H2 id Hid. by apply H2, H1. Qed.

Lemma holds_input_held id q : holds_input id q = true ↔ held id q.
Proof.
  unfold holds_input, held. rewrite !orb_true_iff, !existsb_exists.
  setoid_rewrite <- list_elem_of_In. setoid_rewrite elem_of_app. split.
  - intros [[([s|a] & Hin & Hm)|(s & Hin & Hm)]|([o parts] & Hin & Hm)]; simpl in *; try done; bool_facts.
    + left. by exists s.
    + right; left. by exists s.
    + right; right. simpl in *. subst. by exists parts.
  - intros [(s & Hin & Hop & Hid)|[(s & Hin & Hid)|(parts & Hin)]].
    + left; left. exists (QSubmission s). simpl. by rewrite bool_decide_true, Hop.
    + left; right. exists s. by rewrite bool_decide_true.
    + right. exists (Some id, parts). by rewrite bool_decide_true.
Qed.

Lemma grows_kept q q' : grows q q' → qkept q q'.
Proof.
  intros [Hp Hi Hb Hn Hs] id [[(s & Hin & Hop & Hid)|[(s & Hin & Hid)|(parts & Hin)]]|Hin].
  - left; left. exists s. by split_and!; [apply Hp|..].
  - left; right; left. exists s. split; [|done]. destruct Hin; [left|right]; auto.
  - left; right; right. exists parts. by apply Hn.
  - right. by apply Hs.
Qed.

(** ** The operations of the queue *)

Lemma modify_grows f : (∀ q, grows q (f q)) → step_rel wgrows (mmodify (E := QueueError) (on_queue f)).
Proof. intros Hf w. apply Hf. Qed.
Lemma same_queue_grows {A} (m : QOp A) : (∀ w, queue (m w).1 = queue w) → step_rel wgrows m.
Proof. intros Hm w. red. by rewrite Hm. Qed.
Lemma persist_queue kind payload w : queue (persist_input_event kind payload w).1 = queue w.
Proof. unfold persist_input_event. destruct (recorder w); [|done]. by destruct (persist_record _ _). Qed.
Lemma load_queue w : queue (load_history w).1 = queue w.
Proof. unfold load_history. destruct (recorder w) as [r|]; [|done]. by destruct (loads r) as [|[]]. Qed.

Lemma persist_grows kind payload : step_rel wgrows (persist_input_event kind payload).
Proof. apply same_queue_grows, persist_queue. Qed.
Lemma load_grows : step_rel wgrows load_history.
Proof. apply same_queue_grows, load_queue. Qed.
Lemma observe_grows : step_rel wgrows observe.
Proof. apply same_queue_grows. intros w. apply observe_same. Qed.
Global Hint Resolve persist_grows load_grows observe_grows : alan.

Lemma settle_grows ids q : grows q (foldl settle q ids).
Proof.
  revert q. induction ids as [|i ids IH]; intros q; cbn [foldl]; [done|].
  transitivity (settle q i); [|apply IH]. constructor; simpl; set_solver.
Qed.
Lemma mark_grows ids q : grows q (foldl mark_uncertain q ids).
Proof.
  revert q. induction ids as [|i ids IH]; intros q; cbn [foldl]; [done|].
  transitivity (mark_uncertain q i); [|apply IH]. by constructor.
Qed.

Lemma admit_grows s : step_rel wgrows (admit_input s).
Proof. unfold admit_input. msteps; apply modify_grows; by constructor. Qed.
Lemma recorded_grows ids : step_rel wgrows (recorded ids).
Proof. unfold recorded. msteps. Qed.
Global Hint Resolve admit_grows recorded_grows : alan.
Lemma dispatch_grows ids : step_rel wgrows (dispatch_input_ids ids).
Proof.
  unfold dispatch_input_ids. msteps.
  apply modify_grows. intros q. destruct (is_ok _); [apply settle_grows|apply mark_grows].
Qed.
Lemma removals_grows ids : step_rel wgrows (persist_input_removals ids).
Proof. unfold persist_input_removals. msteps. Qed.
Global Hint Resolve dispatch_grows removals_grows : alan.
Lemma remove_grows ids : step_rel wgrows (remove_input_bindings ids).
Proof. unfold remove_input_bindings. msteps; apply modify_grows; intros q; [apply settle_grows|apply mark_grows|apply settle_grows..]. Qed.
Global Hint Resolve remove_grows : alan.
Lemma push_buffered_grows s : step_rel wgrows (push_buffered s).
Proof. apply modify_grows. constructor; simpl; set_solver. Qed.
Global Hint Resolve push_buffered_grows : alan.
Lemma remove_input_grows s : step_rel wgrows (remove_input s).
Proof. unfold remove_input. msteps. Qed.
Lemma push_ahead_subseteq l s : l ⊆ push_submission_ahead_of_deferred l s.
Proof. induction l as [|[] l IH]; simpl; set_solver. Qed.
Lemma push_outer_grows s : step_rel wgrows (push_outer_submission s).
Proof. apply modify_grows. constructor; simpl; [apply push_ahead_subseteq|set_solver..]. Qed.
Lemma push_deferred_grows a : step_rel wgrows (push_outer_deferred a).
Proof. apply modify_grows. constructor; simpl; set_solver. Qed.
Lemma pause_grows : step_rel wgrows pause.
Proof. apply modify_grows. by constructor. Qed.
Global Hint Resolve remove_input_grows push_outer_grows push_deferred_grows pause_grows : alan.

(** ** The controls *)

(** An invariant of the queue is kept by what does not touch the queue. *)
Section queue_invariant.
Context (I : MachineInputQueue → Prop).
Definition qinv (w : CWorld) : Prop := I (cqueue w).

Lemma qinv_outside {A} (m : COp A) : (∀ w, inner (m w).1 = inner w) → keeps qinv m (λ _, True).
Proof. intros Hm w Hw. unfold qinv, cqueue. rewrite Hm. by destruct (m w).2. Qed.
Lemma qinv_modify f : (∀ q, I q → I (f q)) → keeps qinv (on_cqueue f) (λ _, True).
Proof. intros Hf w Hw. split; [by apply Hf|done]. Qed.
Lemma qinv_warning text : keeps qinv (warning text) (λ _, True).
Proof. apply qinv_outside, warning_inner. Qed.
Lemma qinv_ui_write e : keeps qinv (ui_write e) (λ _, True).
Proof. apply qinv_outside, ui_write_inner. Qed.
Lemma qinv_publish id msg : keeps qinv (publish_cancelled_input id msg) (λ _, True).
Proof. apply qinv_outside, publish_cancelled_inner. Qed.
Lemma qinv_reconcile : keeps qinv reconcile_input_captures (λ _, True).
Proof. apply qinv_outside, reconcile_inner. Qed.
Lemma qinv_ensure b why : keeps qinv (ensure b why) (λ _, True).
Proof. unfold ensure. destruct b; [by apply keeps_ret|apply keeps_fail]. Qed.
Lemma qinv_fire : keeps qinv (mmodify fire_cancel : COp unit) (λ _, True).
Proof. by apply qinv_outside. Qed.
End queue_invariant.
Global Hint Resolve qinv_warning qinv_ui_write qinv_publish qinv_reconcile qinv_ensure qinv_fire : alan.

(** What the queue held at [q0] is held or settled, and dropping [id] loses nothing. *)
Definition may_drop (q0 : MachineInputQueue) (id : string) (q : MachineInputQueue) : Prop :=
  qkept q0 q ∧ (id ∈ settled_ids q ∨ ¬ held id q).

Lemma may_drop_same q0 id q q' :
  pending q' = pending q → inband q' = inband q →
  buffered_inband_submissions q' = buffered_inband_submissions q →
  queued_next_turn_inputs q' = queued_next_turn_inputs q → settled_ids q' = settled_ids q →
  may_drop q0 id q → may_drop q0 id q'.
Proof. unfold may_drop, qkept, held. by intros -> -> -> -> ->. Qed.

(** The containers without [id]; [f] marks the items of [pending] to drop. *)
Lemma drop_may_drop (f : QueuedRuntimeItem → bool) q0 id q :
  (∀ s, f (QSubmission s) = true → sub_id s = id) →
  (∀ s, is_input_op (sub_op s) = true → sub_id s = id → f (QSubmission s) = true) →
  may_drop q0 id q →
  may_drop q0 id
    (on_next_turn (filter (λ e, e.1 ≠ Some id))
      (on_buffered (filter (λ s, sub_id s ≠ id))
        (on_inband (filter (λ s, sub_id s ≠ id))
          (on_pending (filter (λ item, f item = false)) q)))).
Proof.
  intros Hf1 Hf2 [Hk Hid]. split; [|simpl; destruct Hid as [?|Hn]; [by left|right]].
  - intros i [Hi|Hi]%Hk; [|by right]. destruct (decide (i = id)) as [->|Hne].
    { destruct Hid; [by right|done]. }
    left. destruct Hi as [(s & Hin & Hop & Hi)|[(s & Hin & Hi)|(parts & Hin)]]; simpl.
    + left. exists s. split_and!; [|done|done]. apply list_elem_of_filter. split; [|done].
      destruct (f (QSubmission s)) eqn:Hfs; [|done]. apply Hf1 in Hfs. congruence.
    + right; left. exists s. split; [|done]. simpl. rewrite !list_elem_of_filter.
      destruct Hin; [left|right]; (split; [congruence|done]).
    + right; right. exists parts. apply list_elem_of_filter. split; [simpl; congruence|done].
  - intros [(s & Hin & Hop & Hi)|[(s & Hin & Hi)|(parts & Hin)]]; simpl in *;
      rewrite ?list_elem_of_filter in Hin.
    + destruct Hin as [Hm _]. by rewrite Hf2 in Hm.
    + by destruct Hin as [[]|[]].
    + by destruct Hin.
Qed.
Lemma drop_input_may_drop q0 id q : may_drop q0 id q → may_drop q0 id (drop_input id q).
Proof.
  apply drop_may_drop; simpl; intros s; [|by intros -> ->; rewrite bool_decide_true].
  intros ?. by bool_facts.
Qed.
Lemma drop_everywhere_may_drop q0 id q : may_drop q0 id q → may_drop q0 id (drop_everywhere id q).
Proof. apply drop_may_drop; simpl; intros s; [intros ?; by bool_facts|by intros _ ->; rewrite bool_decide_true]. Qed.

(** ** Removal *)

Lemma in_queue_grows {A} (m : QOp A) w : step_rel wgrows m → grows (cqueue w) (cqueue (in_queue m w).1).
Proof. intros Hm. specialize (Hm (inner w)). unfold in_queue. by destruct (m (inner w)). Qed.

Lemma remove_settles ids w w' :
  remove_input_bindings ids w = (w', Ok tt) → queue w' = foldl settle (queue w) ids.
Proof.
  unfold remove_input_bindings. mrun. unfold mtry.
  assert (queue (persist_input_removals ids w).1 = queue w) as Hq.
  { unfold persist_input_removals, recorded, mtry. mrun. destruct (bool_decide (ids = []) || _); [done|].
    pose proof (load_queue w) as H1. destruct (load_history w) as [w1 [items|e| |]]; simpl in *; try done.
    destruct (existsb _ items); [done|].
    pose proof (persist_queue "machine_inputs_removed_v1" (JObject [("submission_ids", strings_to_value ids)]) w1) as H2.
    destruct (persist_input_event _ _ w1) as [w2 [[]|e| |]]; simpl in *; try congruence.
    pose proof (load_queue w2) as H3. destruct (load_history w2) as [w3 [items'|e'| |]]; simpl in *; try congruence.
    destruct (existsb _ items'); simpl; congruence. }
  destruct (persist_input_removals ids w) as [w1 [[]|e| |]]; simpl in *; try done;
    intros Hobs; pose proof (observe_same (on_queue (λ q, foldl settle q ids) w1)) as (Hoq & _ & Hor).
  - rewrite Hobs in *. simpl in *. by rewrite Hoq, Hq.
  - pose proof (observe_same (on_queue (λ q, foldl mark_uncertain q ids) w1)) as (_ & _ & Hor').
    destruct (observe _) as [? []] in Hobs; simpl in *; done.
Qed.

Lemma removed_may_drop id w w' :
  in_queue (remove_input_bindings [id]) w = (w', Ok tt) → may_drop (cqueue w) id (cqueue w').
Proof.
  unfold in_queue. destruct (remove_input_bindings [id] (inner w)) as [w1 r] eqn:Hr.
  intros [= <- ->]. apply remove_settles in Hr. unfold cqueue at 2. simpl. rewrite Hr. split.
  - apply grows_kept, settle_grows.
  - left. simpl. set_solver.
Qed.

(** ** Every control keeps what is queued *)

Ltac flag_step := apply qinv_modify; intros ?; by apply may_drop_same.
Ltac drop_step := apply qinv_modify; intros ?;
  first [apply drop_input_may_drop | apply drop_everywhere_may_drop].
Ltac control_steps :=
  repeat first
    [ progress ksteps
    | eapply (keeps_bind _ _ _ (λ _, True)); [first [flag_step | drop_step]|intros _ _]
    | flag_step ].

Lemma holds_input_holds_id id q : holds_input id q = true → holds_id id q = true.
Proof.
  unfold holds_input, holds_id. rewrite !orb_true_iff, !existsb_exists.
  intros [[([s|a] & Hin & Hm)|?]|?]; simpl in *; [|done|auto..]. bool_facts.
  left; left. exists (QSubmission s). simpl. by rewrite bool_decide_true.
Qed.

(** Run the rest of a control once its input may be dropped. *)
Lemma may_drop_run {A} (m : COp A) q0 id w :
  may_drop q0 id (cqueue w) → keeps (qinv (may_drop q0 id)) m (λ _, True) →
  qkept q0 (cqueue (m w).1).
Proof. intros Hw Hm. by destruct (Hm w Hw) as [[? _] _]. Qed.

Lemma kept_run {A} (m : COp A) q0 w :
  qkept q0 (cqueue w) → keeps (qinv (qkept q0)) m (λ _, True) → qkept q0 (cqueue (m w).1).
Proof. intros Hw Hm. by destruct (Hm w Hw) as [? _]. Qed.

Lemma interrupt_kept id active w : kept w (interrupt_submission id active w).1.
Proof.
  unfold interrupt_submission. rewrite run_get. cbv zeta. rewrite run_try.
  destruct (holds_id id (cqueue w)) eqn:Hh.
  - pose proof (in_queue_grows (remove_input_bindings [id]) w (remove_grows _)) as Hg%grows_kept.
    destruct (in_queue (remove_input_bindings [id]) w) as [w1 [[]|e| |]] eqn:Hr; cbn beta iota; try done.
    + apply removed_may_drop in Hr. apply (may_drop_run _ _ id w1 Hr). control_steps.
    + apply (kept_run _ _ w1 Hg). ksteps.
  - cbn beta iota. apply (may_drop_run _ _ id w); [|control_steps].
    split; [by intros i|right]. intros Hi%holds_input_held%holds_input_holds_id. congruence.
Qed.

(** Additions keep what is queued. *)
Lemma cgrows_modify f : (∀ q, grows q (f q)) → step_rel cgrows (on_cqueue f).
Proof. intros Hf w. apply Hf. Qed.
Lemma cgrows_outside {A} (m : COp A) : (∀ w, inner (m w).1 = inner w) → step_rel cgrows m.
Proof. intros Hm w. unfold cgrows, cqueue. by rewrite Hm. Qed.
Lemma cgrows_in_queue {A} (m : QOp A) : step_rel wgrows m → step_rel cgrows (in_queue m).
Proof. intros Hm w. by apply in_queue_grows. Qed.
Lemma cgrows_ui_write e : step_rel cgrows (ui_write e).
Proof. apply cgrows_outside, ui_write_inner. Qed.
Lemma cgrows_warning text : step_rel cgrows (warning text).
Proof. apply cgrows_outside, warning_inner. Qed.
Lemma cgrows_publish id msg : step_rel cgrows (publish_cancelled_input id msg).
Proof. apply cgrows_outside, publish_cancelled_inner. Qed.
Lemma cgrows_reconcile : step_rel cgrows reconcile_input_captures.
Proof. apply cgrows_outside, reconcile_inner. Qed.
Lemma cgrows_env f : (∀ w, inner (f w) = inner w) → step_rel cgrows (mmodify f : COp unit).
Proof. intros Hf. by apply cgrows_outside. Qed.
Lemma cgrows_ensure b why : step_rel cgrows (ensure b why).
Proof. unfold ensure. destruct b; msteps. Qed.
Global Hint Resolve cgrows_ui_write cgrows_warning cgrows_publish cgrows_reconcile cgrows_ensure
  cgrows_in_queue : alan.

Lemma capture_grows s : step_rel cgrows (capture_input s).
Proof.
  unfold capture_input. msteps; [by apply cgrows_env|]. apply cgrows_modify. by constructor.
Qed.
Global Hint Resolve capture_grows : alan.
Lemma runtime_admit_grows s : step_rel cgrows (runtime_admit_input s).
Proof. unfold runtime_admit_input. msteps. Qed.
Lemma reject_admission_grows s e : step_rel cgrows (reject_admission s e).
Proof. unfold reject_admission. msteps. Qed.
Global Hint Resolve runtime_admit_grows reject_admission_grows : alan.
Lemma admit_during_deferred_grows s : step_rel cgrows (admit_during_deferred s).
Proof. unfold admit_during_deferred. msteps; by apply cgrows_env. Qed.
Lemma admit_api_grows waiting : step_rel cgrows (admit_api_before_dispatch waiting).
Proof. induction waiting as [|s rest IH]; simpl; msteps. Qed.
Lemma retain_grows s : step_rel cgrows (retain_durable_failure s).
Proof.
  unfold retain_durable_failure. msteps; apply cgrows_modify; intros q; constructor; simpl; try set_solver.
  destruct (existsb _ _); [done|apply push_ahead_subseteq].
Qed.
Lemma preflight_grows discard active : step_rel cgrows (control_preflight discard active).
Proof. unfold control_preflight. msteps. Qed.
Lemma publish_discarded_inner ids w : inner (publish_discarded ids w).1 = inner w.
Proof.
  revert w. induction ids as [|id ids IH]; intros w; cbn [publish_discarded]; [done|].
  rewrite run_try. pose proof (publish_cancelled_inner id "Queued input discarded without execution" w) as H1.
  destruct (publish_cancelled_input _ _ w) as [w1 []]; simpl in *; try done; unfold mbind, m_bind;
    specialize (IH w1); destruct (publish_discarded ids w1) as [w2 []]; simpl in *; congruence.
Qed.

Lemma fail_accepted_kept s reason w : kept w (fail_accepted_input s reason w).1.
Proof.
  unfold fail_accepted_input. rewrite run_try.
  pose proof (in_queue_grows (remove_input_bindings [sub_id s]) w (remove_grows _)) as Hg.
  destruct (in_queue (remove_input_bindings [sub_id s]) w) as [w1 [[]|e| |]] eqn:Hr; cbn beta iota;
    [| |by apply grows_kept..].
  - apply removed_may_drop in Hr. apply (may_drop_run _ _ (sub_id s) w1 Hr). control_steps.
  - apply grows_kept. etrans; [exact Hg|]. apply step_bind; [apply _|apply retain_grows|]. intros. msteps.
Qed.

(** ** Discarding *)

Lemma elem_of_distinct l acc id : id ∈ foldl push_distinct acc l ↔ id ∈ acc ∨ id ∈ l.
Proof.
  revert acc. induction l as [|x l IH]; intros acc; simpl; [set_solver|].
  rewrite IH. unfold push_distinct. case_bool_decide; set_solver.
Qed.
Lemma settle_next_turn ids q : queued_next_turn_inputs (foldl settle q ids) = queued_next_turn_inputs q.
Proof. revert q. induction ids as [|i ids IH]; intros q; [done|]. simpl. by rewrite IH. Qed.

(** What a discard of [ids] relies on *)
Definition may_discard (q0 : MachineInputQueue) (ids : list string) (q : MachineInputQueue) : Prop :=
  qkept q0 q ∧ (∀ id, id ∈ ids → id ∈ settled_ids q)
  ∧ (∀ id parts, (Some id, parts) ∈ queued_next_turn_inputs q → id ∈ ids).

Lemma discard_pending_may q0 ids q :
  may_discard q0 ids q →
  may_discard q0 ids (on_pending (filter (λ item, survives_discard ids item = true)) q).
Proof.
  intros (Hk & Hs & Hn). split_and!; [|done|done].
  intros i [Hi|Hi]%Hk; [|by right]. destruct (decide (i ∈ ids)) as [?|Hni]; [right; by apply Hs|].
  left. destruct Hi as [(s & Hin & Hop & Hi)|?]; [left|by right]. exists s. split_and!; [|done|done].
  apply list_elem_of_filter. split; [|done]. simpl. rewrite bool_decide_false; [done|]. by rewrite Hi.
Qed.
Lemma discard_next_turn_may q0 ids q :
  may_discard q0 ids q → may_discard q0 ids (on_next_turn (λ _, []) q).
Proof.
  intros (Hk & Hs & Hn). split_and!; [|done|simpl; set_solver].
  intros i [Hi|Hi]%Hk; [|by right].
  destruct Hi as [?|[?|(parts & Hin)]]; [left; by left|left; right; by left|].
  right. eapply Hs, Hn, Hin.
Qed.

Lemma commit_discards q0 ids active :
  keeps (qinv (may_discard q0 ids)) (control_commit true active ids) (λ _, True).
Proof.
  unfold control_commit. ksteps.
  eapply (keeps_bind _ _ _ (λ _, True)).
  { eapply (keeps_bind _ _ _ (λ _, True)); [|intros _ _]; apply qinv_modify;
      intros ?; [apply discard_pending_may|apply discard_next_turn_may]. }
  intros _ _. eapply (keeps_bind _ _ _ (λ _, True)); [|intros _ _]; by apply qinv_modify.
Qed.
Lemma commit_continues active ids : step_rel cgrows (control_commit false active ids).
Proof. unfold control_commit. msteps; apply cgrows_modify; by constructor. Qed.

Lemma run_ensure {A} b why (f : unit → COp A) w w' a :
  (ensure b why ≫= f) w = (w', Ok a) → f tt w = (w', Ok a).
Proof. unfold ensure. by destruct b. Qed.

Lemma preflight_settles discard active w w' p :
  control_preflight discard active w = (w', Ok p) →
  p.1 = (if discard then discarded_ids (cqueue w) else [])
  ∧ cqueue w' = foldl settle (cqueue w) p.1.
Proof.
  unfold control_preflight. rewrite run_get. cbv zeta. intros Hrun. do 3 apply run_ensure in Hrun.
  revert Hrun. unfold mbind at 1, m_bind at 1.
  match goal with |- context [if recovered _ && _ then ?m else _] =>
    assert (inner ((if recovered (cqueue w) && negb discard then m else mret tt) w).1 = inner w) as Hin end.
  { destruct (recovered _ && _); [|done]. mrun. destruct (environment w) as [e|]; [|done].
    destruct (default_cwd e); [|done]. unfold ensure. mrun.
    by destruct (change_directory_ok e), (cwd_granted e). }
  match type of Hin with inner (?m w).1 = _ => destruct (m w) as [w1 [[]|e| |]] end; simpl in *; try done.
  unfold mbind, m_bind, in_queue. rewrite Hin.
  destruct (remove_input_bindings _ (inner w)) as [w2 [[]|e| |]] eqn:Hr; try done.
  apply remove_settles in Hr.
  match goal with |- context [reconcile_input_captures ?w3] =>
    pose proof (reconcile_inner w3) as Hrec;
    destruct (reconcile_input_captures w3) as [w4 [[]|e| |]] eqn:Hrun end; try done.
  intros [= <- <-]. split; [done|]. simpl in Hrec. unfold cqueue at 1. rewrite Hrec. exact Hr.
Qed.

Lemma queue_control_kept discard active w : kept w (queue_control discard active w).1.
Proof.
  unfold queue_control. rewrite run_try.
  assert (qkept (cqueue w) (cqueue ((p ← control_preflight discard active;
                                     control_commit discard active p.1;; mret p) w).1)) as Hk.
  { unfold mbind at 1, m_bind at 1.
    pose proof (preflight_grows discard active w) as Hg%grows_kept.
    destruct (control_preflight discard active w) as [w1 [p|e| |]] eqn:Hp; simpl in *; try done.
    apply preflight_settles in Hp as [Hp1 Hq]. destruct discard.
    - refine (proj1 (proj1 (keeps_bind _ _ _ (λ _, True) (λ _, True)
        (commit_discards (cqueue w) p.1 active) _ w1 _))); [intros; by apply keeps_ret|].
      unfold qinv, may_discard. rewrite Hq, settle_next_turn. split_and!.
      + apply grows_kept, settle_grows.
      + intros id Hid. destruct (settle_all p.1 (cqueue w)) as (_ & Hs & _). cbv zeta in Hs.
        rewrite Hs. set_solver.
      + intros id parts Hin. rewrite Hp1. apply elem_of_distinct. right. apply elem_of_app. right.
        apply list_elem_of_omap. by exists (Some id, parts).
    - etrans; [exact Hg|]. apply grows_kept.
      refine (step_bind cgrows _ _ (commit_continues active p.1) _ w1). intros. msteps. }
  destruct ((p ← control_preflight discard active; _) w) as [w1 r]. simpl in Hk.
  pose proof (λ ids, qinv_outside (qkept (cqueue w)) (publish_discarded ids) (publish_discarded_inner ids)).
  destruct r as [[discarded anonymous]|e| |]; cbn beta iota; try done;
    (apply (kept_run _ _ w1 Hk); eapply (keeps_bind _ _ _ (λ _, True)); [ksteps|intros ? _; ksteps]).
Qed.

(** ** Theorems of the input queue

    What a restart recovers after any session, and that queued input is given up
    only with its removal on the rollout. *)


Definition queued_ids (q : MachineInputQueue) : list string :=
  omap (λ item, match item with QSubmission s => Some (sub_id s) | QDeferred _ => None end) (pending q).

Lemma queued_ids_submissions q l : pending q = QSubmission <$> l → queued_ids q = sub_id <$> l.
Proof.
  unfold queued_ids. intros ->. induction l as [|s l IH]; [done|]. rewrite !fmap_cons. simpl. by f_equal.
Qed.

Section recovery.
Context `{SubmissionSerdeLaws} (binding_from_value : Json → option InputBinding).
Notation exec := (exec binding_from_value).

(** C13: after any session of admissions, dispatches, removals, queue controls and
    restarts, with any of its writes lost or recorded without acknowledgement and
    any of its reads failing, recovery from the rollout succeeds. Every input that
    was acknowledged and has no disposition, acknowledged or uncertain, is queued
    again, exactly once, as it was offered and with the model binding captured for
    it; an input whose dispatch or removal was acknowledged is never queued again;
    nothing is queued that was not offered, though an admission that was recorded
    without acknowledgement may be; and recovered work is paused. *)
Theorem recovery_restores_unsettled steps ws ls :
  let w := exec steps (start ws ls) in
  let q := cqueue w in
  ∃ q', recover_input_queue binding_from_value (crollout w) empty_queue = (q', Ok tt)
  ∧ NoDup (queued_ids q')
  ∧ (∀ item, item ∈ pending q' → ∃ s, item = QSubmission s ∧ s ∈ steps ≫= step_offers)
  ∧ (∀ id, id ∈ admitted_ids q → id ∉ settled_ids q → id ∉ queue_uncertain_ids q →
       id ∈ queued_ids q' ∧ bindings q' !! id = bindings q !! id)
  ∧ (∀ id, id ∈ settled_ids q → id ∉ queued_ids q' ∧ id ∈ settled_ids q')
  ∧ (paused q' = true ↔ pending q' ≠ []).
Proof.
  intros w q. pose proof (exec_ledger binding_from_value (λ s, s ∈ steps ≫= step_offers) steps
    (start ws ls) (proj2 (Forall_forall _ _) (λ s Hs, Hs)) (start_ledger _ _ ws ls)) as [].
  change (inner _) with (inner w) in *. fold (crollout w) in *. change (queue (inner w)) with q in *.
  destruct (recover_input_queue_spec binding_from_value (crollout w)) as
    (q' & Hrun & Hp & Hs & Ha & Hu & Hb & Hpaused & _); [done|].
  pose proof (queued_ids_submissions _ _ Hp) as Hq. exists q'. rewrite Hq, Hp, Hb, Hs in *.
  split; [done|]. split; [apply NoDup_fmap_filter, first_of_NoDup|]. split.
  { intros item (s & -> & [_ Hin]%list_elem_of_filter)%list_elem_of_fmap. exists s. split; [done|].
    rewrite Forall_forall in l_offered. apply l_offered.
    by eapply elem_of_submseteq; [|apply sublist_submseteq, first_of_sublist]. }
  split.
  { intros id Had Hns Hnu. assert (id ∉ excluded_of (crollout w)) as Hx by set_solver. split.
    - assert (id ∈ sub_id <$> first_of ∅ (admissions (crollout w))) as Hin
        by (apply first_of_complete; set_solver).
      apply list_elem_of_fmap in Hin as (s & -> & Hin). apply list_elem_of_fmap_2.
      by apply list_elem_of_filter.
    - rewrite l_bindings by done. destruct (recorded_bindings (crollout w) !! id) eqn:Hr.
      + by apply map_lookup_filter_Some.
      + apply map_lookup_filter_None. by left. }
  split.
  { intros id Hid. split; [|set_solver].
    intros (s & -> & [Hn _]%list_elem_of_filter)%list_elem_of_fmap. set_solver. }
  rewrite Hpaused, negb_true_iff, bool_decide_eq_false, length_zero_iff_nil. done.
Qed.
End recovery.

Section loss.
Context `{SubmissionSerdeLaws} (binding_from_value : Json → option InputBinding).
Notation exec := (exec binding_from_value).
Notation exec_step := (exec_step binding_from_value).

(** Steps that hand the queue's work on: to the turn that runs it, or to the
    process that recovers it *)
Definition hands_over (st : CStep) : bool :=
  match st with StPop _ | StRestart _ _ => true | _ => false end.

Lemma take_deferred_keeps l item l' s :
  take_deferred l = Some (item, l') → QSubmission s ∈ l → QSubmission s ∈ l'.
Proof.
  revert l'. induction l as [|[s'|a] l IH]; intros l'; simpl; [done| |].
  - destruct (take_deferred l) as [[i k]|]; simpl; [|done]. intros [= <- <-].
    rewrite !elem_of_cons. intros [?|?]; [by left|right]. by apply IH.
  - intros [= <- <-]. rewrite elem_of_cons. by intros [?|?].
Qed.

Lemma exec_step_kept st w : hands_over st = false → kept w (exec_step w st).
Proof.
  intros Hst. destruct st; try done; cbn [QueueRun.exec_step].
  - apply grows_kept, runtime_admit_grows.
  - apply grows_kept, admit_during_deferred_grows.
  - apply grows_kept, admit_api_grows.
  - apply grows_kept, in_queue_grows, dispatch_grows.
  - apply grows_kept, in_queue_grows. unfold dispatch_input. pose proof admit_grows. pose proof dispatch_grows. msteps.
  - apply grows_kept, in_queue_grows, remove_input_grows.
  - apply fail_accepted_kept.
  - apply grows_kept, retain_grows.
  - apply grows_kept, reject_admission_grows.
  - apply queue_control_kept.
  - apply interrupt_kept.
  - apply grows_kept, in_queue_grows, push_outer_grows.
  - apply grows_kept, in_queue_grows, push_deferred_grows.
  - apply grows_kept, in_queue_grows, push_buffered_grows.
  - unfold in_queue, pop_outer_deferred. mrun. destruct (take_deferred _) as [[i l]|] eqn:Ht; [|by intros id].
    intros id [[(s & Hin & Hs)|Hr]|Hr]; [|left; by right|by right]. left; left. exists s.
    split; [|done]. by eapply take_deferred_keeps.
  - by intros id.
  - destruct (foreign_event binding_from_value e); [|by intros id]. apply grows_kept, in_queue_grows, persist_grows.
Qed.

End loss.

(** ** Examples *)

Definition toy_input (id text : string) : Submission := mkSubmission id Agent (Input [Text text] FollowUp).
Definition no_binding (_ : Json) : option InputBinding := None.

(** Three inputs are admitted and queued; the dispatch of the first is acknowledged,
    the cancellation of the third is recorded without an acknowledgement and found
    again when the removal reads the rollout. *)
Definition toy_intake : list CStep :=
  [StAdmit (toy_input "a" "one"); StPush (toy_input "a" "one");
   StAdmit (toy_input "b" "two"); StPush (toy_input "b" "two");
   StAdmit (toy_input "c" "three"); StPush (toy_input "c" "three")].
Definition toy_disposal : list CStep := [StPop false; StDispatch ["a"]; StInterrupt "c" false].
Definition toy_writes : list WriteOutcome :=
  [Acknowledged; Acknowledged; Acknowledged; Acknowledged; Unacknowledged].
Definition toy_world (steps : list CStep) : CWorld :=
  exec (H := plain_serde) no_binding steps (start toy_writes []).

Definition toy_outcome (w : CWorld) : Prop :=
  "b" ∈ admitted_ids (cqueue w) ∧ "b" ∉ settled_ids (cqueue w) ∧ "b" ∉ queue_uncertain_ids (cqueue w)
  ∧ "a" ∈ settled_ids (cqueue w) ∧ "c" ∈ settled_ids (cqueue w).
Lemma toy_disposed : toy_outcome (toy_world (toy_intake ++ toy_disposal)).
Proof. unfold toy_outcome. split_and!; apply (bool_decide_unpack _); vm_compute; exact I. Qed.

Lemma recovery_restores_unsettled_witness :
  ∃ q', recover_input_queue (H := plain_serde) no_binding
          (crollout (toy_world (toy_intake ++ toy_disposal))) empty_queue = (q', Ok tt)
  ∧ "b" ∈ queued_ids q' ∧ "a" ∉ queued_ids q' ∧ "c" ∉ queued_ids q'.
Proof.
  generalize (recovery_restores_unsettled no_binding (toy_intake ++ toy_disposal) toy_writes []).
  generalize toy_disposed. unfold toy_world.
  generalize (exec (H := plain_serde) no_binding (toy_intake ++ toy_disposal) (start toy_writes [])).
  intros w (Hb1 & Hb2 & Hb3 & Ha & Hc) (q' & Hrun & _ & _ & Hin & Hout & _).
  exists q'. exact (conj Hrun (conj (proj1 (Hin "b" Hb1 Hb2 Hb3))
                      (conj (proj1 (Hout "a" Ha)) (proj1 (Hout "c" Hc))))).
Defined.

(** One input is cancelled and the rest discarded; the record of the discard is found
    on the rollout although its write was not acknowledged. *)
Definition toy_controls : list CStep := [StInterrupt "a" false; StControl true false].

Lemma toy_held : holds_input "b" (cqueue (toy_world toy_intake)) = true.
Proof. vm_compute. reflexivity. Qed.

