(* ===== verification/MachineState.v ===== *)
(** * The state of an agent machine

    [agent-engine/src/agent_machine/transition_state.rs] with
    [agent_machine/runtime_control.rs], the confirmation types of [approval.rs] and
    the rollback, turn and failure counters of [agent_machine.rs]. The machine and
    its process loop share one input queue.

    The events of a recorder are kept in order, [None] when the machine has no
    recorder; a failed enqueue is logged and dropped by the code and is not
    modelled. The skills resolved for a turn are carried for the prompt only and are
    left out. A message index is a [nat], as in Tape; token counts are 64-bit. *)
From S2P Require Import Prelude RustStd RustText Tape Protocol InputQueue.

(** ** What a machine waits for (approval.rs, adaptive.rs) *)

Definition TOOL_ESCALATION_CHECKPOINT_TYPE : string := "tool_escalation".
Definition EFFECT_REPLAY_CHECKPOINT_TYPE : string := "effect_replay_confirmation".

Definition runtime_confirmation_checkpoint_prefix (checkpoint_type : string) : option string :=
  if bool_decide (checkpoint_type = TOOL_ESCALATION_CHECKPOINT_TYPE) then Some "tool_escalation_"
  else if bool_decide (checkpoint_type = EFFECT_REPLAY_CHECKPOINT_TYPE) then Some "effect_replay_"
  else None.
Definition is_runtime_confirmation_checkpoint_type (checkpoint_type : string) : bool :=
  isSome (runtime_confirmation_control_kind checkpoint_type).

Record PendingConfirmation : Type := mkConfirmation {
  checkpoint_id : string; checkpoint_type : string; confirmation_summary : string;
  confirmation_details : Json; confirmation_options : list string }.

Inductive StructuredInputKind : Set :=
  KindText | KindBoolean | KindNumber | KindInteger | KindSingleSelect | KindMultiSelect.
Inductive AdaptivePresentationHint : Set :=
  Radio | Toggle | Searchable | Multiline | Compact | Dangerous.
Record StructuredInputOption : Type := mkOption {
  option_value : string; option_label : string; option_description : option string }.
Record StructuredInputQuestion : Type := mkQuestion {
  question_id : string; question_label : string; question_prompt : string;
  question_kind : StructuredInputKind; question_required : bool;
  question_placeholder : option string; question_help_text : option string;
  question_default : option string; question_defaults : list string;
  question_min_selected : option Z; question_max_selected : option Z;
  question_options : list StructuredInputOption;
  question_hints : list AdaptivePresentationHint }.
Record PendingStructuredInputRequest : Type := mkStructured {
  structured_request_id : string; structured_title : string; structured_prompt : string;
  structured_questions : list StructuredInputQuestion }.
Record PendingHostMountRequest : Type := mkHostMount {
  mount_request_id : string; mount_tool_call_id : string; mount_namespace_path : string;
  mount_access : string; mount_reason : string; mount_label : option string;
  mount_events_offset : Z }.

Inductive PendingYield : Type :=
  | YConfirmation (p : PendingConfirmation)
  | YStructuredInput (p : PendingStructuredInputRequest)
  | YHostMount (p : PendingHostMountRequest).

Inductive TurnActivityState : Set := Idle | Running | Paused.

Inductive PlanItemStatus : Set := PlanPending | PlanInProgress | PlanCompleted.
Record PlanItem : Type := mkPlanItem {
  plan_item_id : string; plan_item_content : string; plan_item_status : PlanItemStatus }.
Record PlanSnapshot : Type := mkPlan { plan_explanation : option string; plan_items : list PlanItem }.

Record NormalizedToolCall : Type := mkToolCall {
  call_id : string; call_name : string; call_arguments : Json }.
Record PendingToolReplayBatch : Type := mkBatch {
  batch_tool_calls : list NormalizedToolCall; resume_with_generation : bool }.

Record ResponsesContinuationState : Type := mkContinuation {
  cont_provider : string; last_response_id : string; boundary_message_count : nat;
  reference_context_revision : Z }.

(** ** The state *)

Record MachineTransitionState : Type := mkTransition {
  current_submission_id : option string;
  related_submission_ids : list string;
  submission_cancelled : bool;
  pending_yields : gmap string PendingYield;
  pending_tool_replay_batches : gmap string PendingToolReplayBatch;
  pending_order : list string;
  turn_activity : TurnActivityState;
  compactions_this_turn : Z;
  last_compaction_prompt_tokens : option Z;
  active_turn_message_start : option nat;
  active_turn_request_control_intent : option ReasoningEffort;
  plan_snapshot : option PlanSnapshot;
  plan_snapshot_turn_start : option nat;
  plan_snapshot_message_count : option nat;
  deferred_runtime_actions : list DeferredRuntimeAction;
  guardian_consecutive_denials : Z;
  guardian_recent_reviews : list bool;
}.
Definition on_current (f : option string → option string) (t : MachineTransitionState) : MachineTransitionState :=
  mkTransition (f (current_submission_id t)) (related_submission_ids t) (submission_cancelled t)
    (pending_yields t) (pending_tool_replay_batches t) (pending_order t) (turn_activity t)
    (compactions_this_turn t) (last_compaction_prompt_tokens t) (active_turn_message_start t)
    (active_turn_request_control_intent t) (plan_snapshot t) (plan_snapshot_turn_start t)
    (plan_snapshot_message_count t) (deferred_runtime_actions t) (guardian_consecutive_denials
    t) (guardian_recent_reviews t).
Definition on_related (f : list string → list string) (t : MachineTransitionState) : MachineTransitionState :=
  mkTransition (current_submission_id t) (f (related_submission_ids t)) (submission_cancelled t)
    (pending_yields t) (pending_tool_replay_batches t) (pending_order t) (turn_activity t)
    (compactions_this_turn t) (last_compaction_prompt_tokens t) (active_turn_message_start t)
    (active_turn_request_control_intent t) (plan_snapshot t) (plan_snapshot_turn_start t)
    (plan_snapshot_message_count t) (deferred_runtime_actions t) (guardian_consecutive_denials
    t) (guardian_recent_reviews t).
Definition on_cancelled (f : bool → bool) (t : MachineTransitionState) : MachineTransitionState :=
  mkTransition (current_submission_id t) (related_submission_ids t) (f (submission_cancelled t))
    (pending_yields t) (pending_tool_replay_batches t) (pending_order t) (turn_activity t)
    (compactions_this_turn t) (last_compaction_prompt_tokens t) (active_turn_message_start t)
    (active_turn_request_control_intent t) (plan_snapshot t) (plan_snapshot_turn_start t)
    (plan_snapshot_message_count t) (deferred_runtime_actions t) (guardian_consecutive_denials
    t) (guardian_recent_reviews t).
Definition on_yields (f : gmap string PendingYield → gmap string PendingYield) (t : MachineTransitionState) : MachineTransitionState :=
  mkTransition (current_submission_id t) (related_submission_ids t) (submission_cancelled t) (f
    (pending_yields t)) (pending_tool_replay_batches t) (pending_order t) (turn_activity t)
    (compactions_this_turn t) (last_compaction_prompt_tokens t) (active_turn_message_start t)
    (active_turn_request_control_intent t) (plan_snapshot t) (plan_snapshot_turn_start t)
    (plan_snapshot_message_count t) (deferred_runtime_actions t) (guardian_consecutive_denials
    t) (guardian_recent_reviews t).
Definition on_batches (f : gmap string PendingToolReplayBatch → gmap string PendingToolReplayBatch) (t : MachineTransitionState) : MachineTransitionState :=
  mkTransition (current_submission_id t) (related_submission_ids t) (submission_cancelled t)
    (pending_yields t) (f (pending_tool_replay_batches t)) (pending_order t) (turn_activity t)
    (compactions_this_turn t) (last_compaction_prompt_tokens t) (active_turn_message_start t)
    (active_turn_request_control_intent t) (plan_snapshot t) (plan_snapshot_turn_start t)
    (plan_snapshot_message_count t) (deferred_runtime_actions t) (guardian_consecutive_denials
    t) (guardian_recent_reviews t).
Definition on_order (f : list string → list string) (t : MachineTransitionState) : MachineTransitionState :=
  mkTransition (current_submission_id t) (related_submission_ids t) (submission_cancelled t)
    (pending_yields t) (pending_tool_replay_batches t) (f (pending_order t)) (turn_activity t)
    (compactions_this_turn t) (last_compaction_prompt_tokens t) (active_turn_message_start t)
    (active_turn_request_control_intent t) (plan_snapshot t) (plan_snapshot_turn_start t)
    (plan_snapshot_message_count t) (deferred_runtime_actions t) (guardian_consecutive_denials
    t) (guardian_recent_reviews t).
Definition on_activity (f : TurnActivityState → TurnActivityState) (t : MachineTransitionState) : MachineTransitionState :=
  mkTransition (current_submission_id t) (related_submission_ids t) (submission_cancelled t)
    (pending_yields t) (pending_tool_replay_batches t) (pending_order t) (f (turn_activity t))
    (compactions_this_turn t) (last_compaction_prompt_tokens t) (active_turn_message_start t)
    (active_turn_request_control_intent t) (plan_snapshot t) (plan_snapshot_turn_start t)
    (plan_snapshot_message_count t) (deferred_runtime_actions t) (guardian_consecutive_denials
    t) (guardian_recent_reviews t).
Definition on_compactions (f : Z → Z) (t : MachineTransitionState) : MachineTransitionState :=
  mkTransition (current_submission_id t) (related_submission_ids t) (submission_cancelled t)
    (pending_yields t) (pending_tool_replay_batches t) (pending_order t) (turn_activity t) (f
    (compactions_this_turn t)) (last_compaction_prompt_tokens t) (active_turn_message_start t)
    (active_turn_request_control_intent t) (plan_snapshot t) (plan_snapshot_turn_start t)
    (plan_snapshot_message_count t) (deferred_runtime_actions t) (guardian_consecutive_denials
    t) (guardian_recent_reviews t).
Definition on_last_compaction (f : option Z → option Z) (t : MachineTransitionState) : MachineTransitionState :=
  mkTransition (current_submission_id t) (related_submission_ids t) (submission_cancelled t)
    (pending_yields t) (pending_tool_replay_batches t) (pending_order t) (turn_activity t)
    (compactions_this_turn t) (f (last_compaction_prompt_tokens t)) (active_turn_message_start
    t) (active_turn_request_control_intent t) (plan_snapshot t) (plan_snapshot_turn_start t)
    (plan_snapshot_message_count t) (deferred_runtime_actions t) (guardian_consecutive_denials
    t) (guardian_recent_reviews t).
Definition on_turn_start (f : option nat → option nat) (t : MachineTransitionState) : MachineTransitionState :=
  mkTransition (current_submission_id t) (related_submission_ids t) (submission_cancelled t)
    (pending_yields t) (pending_tool_replay_batches t) (pending_order t) (turn_activity t)
    (compactions_this_turn t) (last_compaction_prompt_tokens t) (f (active_turn_message_start
    t)) (active_turn_request_control_intent t) (plan_snapshot t) (plan_snapshot_turn_start t)
    (plan_snapshot_message_count t) (deferred_runtime_actions t) (guardian_consecutive_denials
    t) (guardian_recent_reviews t).
Definition on_control_intent (f : option ReasoningEffort → option ReasoningEffort) (t : MachineTransitionState) : MachineTransitionState :=
  mkTransition (current_submission_id t) (related_submission_ids t) (submission_cancelled t)
    (pending_yields t) (pending_tool_replay_batches t) (pending_order t) (turn_activity t)
    (compactions_this_turn t) (last_compaction_prompt_tokens t) (active_turn_message_start t)
    (f (active_turn_request_control_intent t)) (plan_snapshot t) (plan_snapshot_turn_start t)
    (plan_snapshot_message_count t) (deferred_runtime_actions t) (guardian_consecutive_denials
    t) (guardian_recent_reviews t).
Definition on_plan (f : option PlanSnapshot → option PlanSnapshot) (t : MachineTransitionState) : MachineTransitionState :=
  mkTransition (current_submission_id t) (related_submission_ids t) (submission_cancelled t)
    (pending_yields t) (pending_tool_replay_batches t) (pending_order t) (turn_activity t)
    (compactions_this_turn t) (last_compaction_prompt_tokens t) (active_turn_message_start t)
    (active_turn_request_control_intent t) (f (plan_snapshot t)) (plan_snapshot_turn_start t)
    (plan_snapshot_message_count t) (deferred_runtime_actions t) (guardian_consecutive_denials
    t) (guardian_recent_reviews t).
Definition on_plan_start (f : option nat → option nat) (t : MachineTransitionState) : MachineTransitionState :=
  mkTransition (current_submission_id t) (related_submission_ids t) (submission_cancelled t)
    (pending_yields t) (pending_tool_replay_batches t) (pending_order t) (turn_activity t)
    (compactions_this_turn t) (last_compaction_prompt_tokens t) (active_turn_message_start t)
    (active_turn_request_control_intent t) (plan_snapshot t) (f (plan_snapshot_turn_start t))
    (plan_snapshot_message_count t) (deferred_runtime_actions t) (guardian_consecutive_denials
    t) (guardian_recent_reviews t).
Definition on_plan_count (f : option nat → option nat) (t : MachineTransitionState) : MachineTransitionState :=
  mkTransition (current_submission_id t) (related_submission_ids t) (submission_cancelled t)
    (pending_yields t) (pending_tool_replay_batches t) (pending_order t) (turn_activity t)
    (compactions_this_turn t) (last_compaction_prompt_tokens t) (active_turn_message_start t)
    (active_turn_request_control_intent t) (plan_snapshot t) (plan_snapshot_turn_start t) (f
    (plan_snapshot_message_count t)) (deferred_runtime_actions t)
    (guardian_consecutive_denials t) (guardian_recent_reviews t).
Definition on_deferred (f : list DeferredRuntimeAction → list DeferredRuntimeAction) (t : MachineTransitionState) : MachineTransitionState :=
  mkTransition (current_submission_id t) (related_submission_ids t) (submission_cancelled t)
    (pending_yields t) (pending_tool_replay_batches t) (pending_order t) (turn_activity t)
    (compactions_this_turn t) (last_compaction_prompt_tokens t) (active_turn_message_start t)
    (active_turn_request_control_intent t) (plan_snapshot t) (plan_snapshot_turn_start t)
    (plan_snapshot_message_count t) (f (deferred_runtime_actions t))
    (guardian_consecutive_denials t) (guardian_recent_reviews t).
Definition on_denials (f : Z → Z) (t : MachineTransitionState) : MachineTransitionState :=
  mkTransition (current_submission_id t) (related_submission_ids t) (submission_cancelled t)
    (pending_yields t) (pending_tool_replay_batches t) (pending_order t) (turn_activity t)
    (compactions_this_turn t) (last_compaction_prompt_tokens t) (active_turn_message_start t)
    (active_turn_request_control_intent t) (plan_snapshot t) (plan_snapshot_turn_start t)
    (plan_snapshot_message_count t) (deferred_runtime_actions t) (f
    (guardian_consecutive_denials t)) (guardian_recent_reviews t).
Definition on_reviews (f : list bool → list bool) (t : MachineTransitionState) : MachineTransitionState :=
  mkTransition (current_submission_id t) (related_submission_ids t) (submission_cancelled t)
    (pending_yields t) (pending_tool_replay_batches t) (pending_order t) (turn_activity t)
    (compactions_this_turn t) (last_compaction_prompt_tokens t) (active_turn_message_start t)
    (active_turn_request_control_intent t) (plan_snapshot t) (plan_snapshot_turn_start t)
    (plan_snapshot_message_count t) (deferred_runtime_actions t) (guardian_consecutive_denials
    t) (f (guardian_recent_reviews t)).

Record AgentMachine : Type := mkMachine {
  transition_state : MachineTransitionState;
  input_queue : MachineInputQueue;
  tape : Tape;
  has_active_task : bool;
  user_turn_ordinal : Z;
  compaction_failure_streak : Z;
  auto_memory_flush_attempted_in_cycle : bool;
  responses_continuation : option ResponsesContinuationState;
  machine_events : option (list EventRecord);
}.
Definition m_ts (f : MachineTransitionState → MachineTransitionState) (m : AgentMachine) : AgentMachine :=
  mkMachine (f (transition_state m)) (input_queue m) (tape m) (has_active_task m) (user_turn_ordinal
    m) (compaction_failure_streak m) (auto_memory_flush_attempted_in_cycle m)
    (responses_continuation m) (machine_events m).
Definition m_input_queue (f : MachineInputQueue → MachineInputQueue) (m : AgentMachine) : AgentMachine :=
  mkMachine (transition_state m) (f (input_queue m)) (tape m) (has_active_task m) (user_turn_ordinal
    m) (compaction_failure_streak m) (auto_memory_flush_attempted_in_cycle m)
    (responses_continuation m) (machine_events m).
Definition m_tape (f : Tape → Tape) (m : AgentMachine) : AgentMachine :=
  mkMachine (transition_state m) (input_queue m) (f (tape m)) (has_active_task m) (user_turn_ordinal
    m) (compaction_failure_streak m) (auto_memory_flush_attempted_in_cycle m)
    (responses_continuation m) (machine_events m).
Definition m_active_task (f : bool → bool) (m : AgentMachine) : AgentMachine :=
  mkMachine (transition_state m) (input_queue m) (tape m) (f (has_active_task m)) (user_turn_ordinal
    m) (compaction_failure_streak m) (auto_memory_flush_attempted_in_cycle m)
    (responses_continuation m) (machine_events m).
Definition m_ordinal (f : Z → Z) (m : AgentMachine) : AgentMachine :=
  mkMachine (transition_state m) (input_queue m) (tape m) (has_active_task m) (f (user_turn_ordinal
    m)) (compaction_failure_streak m) (auto_memory_flush_attempted_in_cycle m)
    (responses_continuation m) (machine_events m).
Definition m_streak (f : Z → Z) (m : AgentMachine) : AgentMachine :=
  mkMachine (transition_state m) (input_queue m) (tape m) (has_active_task m) (user_turn_ordinal m) (f
    (compaction_failure_streak m)) (auto_memory_flush_attempted_in_cycle m)
    (responses_continuation m) (machine_events m).
Definition m_flush (f : bool → bool) (m : AgentMachine) : AgentMachine :=
  mkMachine (transition_state m) (input_queue m) (tape m) (has_active_task m) (user_turn_ordinal m)
    (compaction_failure_streak m) (f (auto_memory_flush_attempted_in_cycle m))
    (responses_continuation m) (machine_events m).
Definition m_continuation (f : option ResponsesContinuationState → option ResponsesContinuationState) (m : AgentMachine) : AgentMachine :=
  mkMachine (transition_state m) (input_queue m) (tape m) (has_active_task m) (user_turn_ordinal m)
    (compaction_failure_streak m) (auto_memory_flush_attempted_in_cycle m) (f
    (responses_continuation m)) (machine_events m).
Definition m_events (f : option (list EventRecord) → option (list EventRecord)) (m : AgentMachine) : AgentMachine :=
  mkMachine (transition_state m) (input_queue m) (tape m) (has_active_task m) (user_turn_ordinal m)
    (compaction_failure_streak m) (auto_memory_flush_attempted_in_cycle m)
    (responses_continuation m) (f (machine_events m)).

(** An update of the transition state or of the shared queue *)
Definition in_ts (f : MachineTransitionState → MachineTransitionState) : AgentMachine → AgentMachine :=
  m_ts f.
Definition in_input_queue (f : MachineInputQueue → MachineInputQueue) : AgentMachine → AgentMachine :=
  m_input_queue f.

Definition default_transition : MachineTransitionState :=
  mkTransition None [] false ∅ ∅ [] Idle 0 None None None None None None [] 0 [].
Definition new_machine : AgentMachine :=
  mkMachine default_transition empty_queue new_tape false 0 0 false None None.

(** [self.record_event(event_type, payload)] *)
Definition record_event (kind : string) (payload : Json) : AgentMachine → AgentMachine :=
  m_events (option_map (λ l, l ++ [mkEvent kind payload])).

Definition saturating_add32 (a b : Z) : Z := Z.min (a + b) u32_max.
Definition saturating_sub64 (a b : Z) : Z := Z.max (a - b) 0.

(** ** Submissions of the active work *)

Definition sync_active_submission_ids (m : AgentMachine) : AgentMachine :=
  let t := transition_state m in
  in_input_queue (on_active (λ _, related_submission_ids t ++ option_list (current_submission_id t))) m.

Definition has_pending_interaction (m : AgentMachine) : bool :=
  negb (bool_decide (pending_yields (transition_state m) = ∅)).

(** The fields [accept_submission] and [finish_submission] reset *)
Definition begin_identity (current : option string) (m : AgentMachine) : AgentMachine :=
  let m := in_ts (λ t, on_cancelled (λ _, false) (on_current (λ _, current) t)) m in
  let m := in_input_queue (on_cancel_requested (λ _, false)) m in
  let m := in_ts (on_related (λ _, [])) m in
  sync_active_submission_ids m.
Definition accept_submission (id : string) (m : AgentMachine) : AgentMachine :=
  begin_identity (Some id) m.
Definition finish_submission (m : AgentMachine) : AgentMachine :=
  if has_pending_interaction m then m else begin_identity None m.

Definition mark_submission_cancelled : AgentMachine → AgentMachine := in_ts (on_cancelled (λ _, true)).

Definition accept_steering_submission (id : string) (m : AgentMachine) : AgentMachine :=
  let previous := current_submission_id (transition_state m) in
  let m := in_ts (on_current (λ _, Some id)) m in
  let m := match previous with
           | Some p =>
               if bool_decide (p ∈ related_submission_ids (transition_state m)) then m
               else in_ts (on_related (λ l, l ++ [p])) m
           | None => m
           end in
  sync_active_submission_ids m.

(** ** The guardian's circuit breaker *)

Definition GUARDIAN_MAX_CONSECUTIVE_DENIALS : Z := 3.
Definition GUARDIAN_DENIAL_WINDOW : nat := 50.
Definition GUARDIAN_MAX_DENIALS_IN_WINDOW : nat := 10.

(** The [while] loop that pops from the front *)
Definition pop_to_window (l : list bool) : list bool := drop (length l - GUARDIAN_DENIAL_WINDOW) l.

Definition record_guardian_review (denied : bool) (m : AgentMachine) : AgentMachine * bool :=
  let m := in_ts (on_denials (λ n, if denied then saturating_add32 n 1 else 0)) m in
  let m := in_ts (on_reviews (λ l, pop_to_window (l ++ [denied]))) m in
  let t := transition_state m in
  let denials_in_window := length (filter (λ d, d = true) (guardian_recent_reviews t)) in
  (m, (GUARDIAN_MAX_CONSECUTIVE_DENIALS <=? guardian_consecutive_denials t)
      || bool_decide (GUARDIAN_MAX_DENIALS_IN_WINDOW ≤ denials_in_window)%nat).

(** ** Turns *)

Definition reset_auto_mid_turn_compaction_state : AgentMachine → AgentMachine :=
  in_ts (λ t, on_last_compaction (λ _, None) (on_compactions (λ _, 0) t)).

(** [hash_order] lists the entries of a hash map in its iteration order. *)
Definition cleared_host_mounts (entries : list (string * PendingYield)) : list string :=
  omap (λ e, match e.2 with YHostMount p => Some (mount_request_id p) | _ => None end) entries.
Definition reset_turn (hash_order : gmap string PendingYield → list (string * PendingYield))
    (m : AgentMachine) : AgentMachine :=
  let ids := cleared_host_mounts (hash_order (pending_yields (transition_state m))) in
  let m := foldl (λ m id, record_event "host_mount_request_wait_cleared"
                            (JObject [("request_id", JString id); ("reason", JString "turn_reset")]) m)
             m ids in
  let m := in_ts (λ t, on_order (λ _, []) (on_batches (λ _, ∅) (on_yields (λ _, ∅) t))) m in
  let m := in_ts (on_activity (λ _, Idle)) m in
  let m := in_input_queue (on_buffered (λ _, [])) m in
  let m := in_ts (λ t, on_control_intent (λ _, None) (on_turn_start (λ _, None) t)) m in
  let m := reset_auto_mid_turn_compaction_state m in
  in_ts (λ t, on_reviews (λ _, []) (on_denials (λ _, 0) t)) m.

Definition set_turn_activity (activity : TurnActivityState) (m : AgentMachine) : AgentMachine :=
  let m := in_ts (on_activity (λ _, activity)) m in
  match activity with
  | Idle =>
      let requested := active_cancel_requested (input_queue m) in
      let m := in_ts (on_cancelled (λ c, c || requested)) m in
      in_input_queue (λ q, on_active (λ _, []) (on_cancel_requested (λ _, false) q)) m
  | _ => m
  end.
Definition is_turn_active (m : AgentMachine) : bool :=
  match turn_activity (transition_state m) with Idle => false | _ => true end.
Definition begin_turn (tape_message_count : nat) : AgentMachine → AgentMachine :=
  in_ts (on_turn_start (λ _, Some tape_message_count)).
Definition set_active_turn_request_control_intent (intent : option ReasoningEffort) :
    AgentMachine → AgentMachine :=
  in_ts (on_control_intent (λ _, intent)).

(** ** Input for the next turn and input of the running turn *)

Definition MAX_QUEUED_NEXT_TURN_INPUTS : nat := 16.
Definition queue_next_turn_input (parts : list ContentPart) (m : AgentMachine) :
    AgentMachine * option nat :=
  let q := input_queue m in
  if bool_decide (MAX_QUEUED_NEXT_TURN_INPUTS ≤ length (queued_next_turn_inputs q))%nat then (m, None)
  else
    let m := in_input_queue
               (on_next_turn (λ l, l ++ [(current_submission_id (transition_state m), parts)])) m in
    (m, Some (length (queued_next_turn_inputs (input_queue m)))).

(** The closure of [drain_next_turn_inputs] *)
Definition relate_input (m : AgentMachine) (id : option string) : AgentMachine :=
  match id with
  | None => m
  | Some id =>
      let t := transition_state m in
      if bool_decide (current_submission_id t = Some id) || bool_decide (id ∈ related_submission_ids t)
      then m else in_ts (on_related (λ l, l ++ [id])) m
  end.
Definition drain_next_turn_inputs (m : AgentMachine) : AgentMachine * list (list ContentPart) :=
  let inputs := queued_next_turn_inputs (input_queue m) in
  let m := in_input_queue (on_next_turn (λ _, [])) m in
  let m := foldl relate_input m (fst <$> inputs) in
  (sync_active_submission_ids m, snd <$> inputs).

Definition drain_buffered_inband_submissions (m : AgentMachine) : AgentMachine * list Submission :=
  (in_input_queue (on_buffered (λ _, [])) m, buffered_inband_submissions (input_queue m)).
Definition push_buffered_inband_submission (s : Submission) : AgentMachine → AgentMachine :=
  in_input_queue (on_buffered (λ l, l ++ [s])).
Definition pop_buffered_inband_submission (m : AgentMachine) : AgentMachine * option Submission :=
  (in_input_queue (on_buffered (@tail _)) m, head (buffered_inband_submissions (input_queue m))).
Definition buffered_inband_user_input_count (m : AgentMachine) : nat :=
  length (filter (λ s, match sub_op s with Input _ _ => true | _ => false end = true)
            (buffered_inband_submissions (input_queue m))).
Definition clear_buffered_inband_submissions (m : AgentMachine) : AgentMachine * nat :=
  (in_input_queue (on_buffered (λ _, [])) m, length (buffered_inband_submissions (input_queue m))).

(** ** Plans *)

Definition clear_plan_snapshot : AgentMachine → AgentMachine :=
  in_ts (λ t, on_plan_count (λ _, None) (on_plan_start (λ _, None) (on_plan (λ _, None) t))).
Definition set_plan_snapshot (explanation : option string) (items : list PlanItem) (m : AgentMachine) :
    AgentMachine :=
  let start := active_turn_message_start (transition_state m) in
  in_ts (λ t, on_plan_count (λ _, None) (on_plan_start (λ _, start)
                (on_plan (λ _, Some (mkPlan explanation items)) t))) m.
Definition set_plan_snapshot_at_message_count (explanation : option string) (items : list PlanItem)
    (tape_message_count : nat) (m : AgentMachine) : AgentMachine :=
  in_ts (on_plan_count (λ _, Some tape_message_count)) (set_plan_snapshot explanation items m).
Definition plan_snapshot_is_from_active_turn (m : AgentMachine) : bool :=
  let t := transition_state m in
  isSome (active_turn_message_start t)
  && bool_decide (plan_snapshot_turn_start t = active_turn_message_start t).
Definition plan_snapshot_postdates_message (message_index : nat) (m : AgentMachine) : bool :=
  match plan_snapshot_message_count (transition_state m) with
  | Some count => bool_decide (message_index < count)%nat
  | None => false
  end.
Definition note_resumed_user_input : AgentMachine → AgentMachine := in_ts (on_plan_start (λ _, None)).

(** An index into the tape after its first [n] messages are gone *)
Definition shift_index (n : nat) (o : option nat) : option nat :=
  match o with
  | Some i => if bool_decide (i < n)%nat then None else Some (i - n)%nat
  | None => None
  end.
Definition note_tape_compaction (retention_start : nat) : AgentMachine → AgentMachine :=
  in_ts (λ t, on_plan_count (shift_index retention_start)
                (on_plan_start (shift_index retention_start)
                  (on_turn_start (option_map (λ i, (i - retention_start)%nat)) t))).

(** ** Compaction in the middle of a turn *)

Definition AUTO_MID_TURN_COMPACTION_LIMIT : Z := 2.
Definition AUTO_MID_TURN_COMPACTION_MIN_GROWTH_TOKENS : Z := 256.
Definition is_auto_mid_turn_compaction_emergency (prompt_tokens window_tokens : Z) : bool :=
  (0 <? window_tokens)
  && (saturating_sub64 window_tokens AUTO_MID_TURN_COMPACTION_MIN_GROWTH_TOKENS <=? prompt_tokens).
Definition can_auto_mid_turn_compact (prompt_tokens window_tokens : Z) (m : AgentMachine) : bool :=
  let t := transition_state m in
  if is_auto_mid_turn_compaction_emergency prompt_tokens window_tokens then true
  else if AUTO_MID_TURN_COMPACTION_LIMIT <=? compactions_this_turn t then false
  else match last_compaction_prompt_tokens t with
       | Some last_tokens =>
           negb (prompt_tokens <=?
                 saturating_add64 last_tokens AUTO_MID_TURN_COMPACTION_MIN_GROWTH_TOKENS)
       | None => true
       end.
Definition record_auto_mid_turn_compaction (output_tokens : Z) : AgentMachine → AgentMachine :=
  in_ts (λ t, on_last_compaction (λ _, Some output_tokens)
                (on_compactions (λ n, saturating_add32 n 1) t)).

(** ** Pending requests *)

(** [remove_key]: the first occurrence *)
Fixpoint remove_key (order : list string) (key : string) : list string :=
  match order with
  | [] => []
  | k :: order' => if bool_decide (k = key) then order' else k :: remove_key order' key
  end.
Definition push_latest_key (order : list string) (key : string) : list string :=
  remove_key order key ++ [key].

Definition set_yield (key : string) (y : PendingYield) : AgentMachine → AgentMachine :=
  in_ts (λ t, on_order (λ order, push_latest_key order key) (on_yields (λ p, <[key := y]> p) t)).
Definition set_confirmation_for_request (request_id : string) (p : PendingConfirmation) :
    AgentMachine → AgentMachine := set_yield request_id (YConfirmation p).
Definition set_confirmation (p : PendingConfirmation) : AgentMachine → AgentMachine :=
  set_confirmation_for_request (checkpoint_id p) p.
Definition set_structured_input_for_request (request_id : string) (p : PendingStructuredInputRequest) :
    AgentMachine → AgentMachine := set_yield request_id (YStructuredInput p).
Definition set_structured_input (p : PendingStructuredInputRequest) : AgentMachine → AgentMachine :=
  set_structured_input_for_request (structured_request_id p) p.
Definition set_host_mount_request (p : PendingHostMountRequest) : AgentMachine → AgentMachine :=
  set_yield (mount_request_id p) (YHostMount p).

Definition pending_confirmation (m : AgentMachine) : option PendingConfirmation :=
  let t := transition_state m in
  head (omap (λ key, match pending_yields t !! key with
                     | Some (YConfirmation p) => Some p
                     | _ => None
                     end) (reverse (pending_order t))).
Definition pending_host_mount (request_id : string) (m : AgentMachine) : option PendingHostMountRequest :=
  match pending_yields (transition_state m) !! request_id with
  | Some (YHostMount p) => Some p
  | _ => None
  end.
Definition pending_yield (request_id : string) (m : AgentMachine) : option PendingYield :=
  pending_yields (transition_state m) !! request_id.
Definition latest_pending_key (m : AgentMachine) : option string :=
  last (pending_order (transition_state m)).
Definition pending_request_ids (m : AgentMachine) : list string := pending_order (transition_state m).

Definition take_pending (request_id : string) (m : AgentMachine) : AgentMachine * option PendingYield :=
  match pending_yields (transition_state m) !! request_id with
  | None => (m, None)
  | Some item =>
      (in_ts (λ t, on_order (λ order, remove_key order request_id)
                     (on_yields (delete request_id) t)) m, Some item)
  end.

Definition set_tool_replay_batch (id : string) (calls : list NormalizedToolCall) (resume : bool) :
    AgentMachine → AgentMachine :=
  in_ts (on_batches (λ b, <[id := mkBatch calls resume]> b)).
Definition take_tool_replay_batch (id : string) (m : AgentMachine) :
    AgentMachine * option PendingToolReplayBatch :=
  (in_ts (on_batches (delete id)) m, pending_tool_replay_batches (transition_state m) !! id).

Definition push_deferred_runtime_action (a : DeferredRuntimeAction) : AgentMachine → AgentMachine :=
  in_ts (on_deferred (λ l, l ++ [a])).
Definition drain_deferred_runtime_actions (m : AgentMachine) :
    AgentMachine * list DeferredRuntimeAction :=
  (in_ts (on_deferred (λ _, [])) m, deferred_runtime_actions (transition_state m)).

(** ** Control messages (runtime_control.rs) *)

Definition runtime_confirmation_control_checkpoint (payload : Json) : option (string * string) :=
  id ← value_get "checkpoint_id" payload ≫= as_str;
  type ← value_get "checkpoint_type" payload ≫= as_str;
  choice ← value_get "choice" payload ≫= as_str;
  if negb (is_runtime_confirmation_checkpoint_type type) then None
  else if negb (bool_decide (choice = "approve") || bool_decide (choice = "reject")) then None
  else
    prefix ← runtime_confirmation_checkpoint_prefix type;
    if negb (starts_with prefix id) then None else Some (id, type).

Definition has_runtime_confirmation_control_kind_and_version (payload : Json) (type : string) : bool :=
  let marker := value_get "__alan_internal_control" payload in
  bool_decide ((marker ≫= value_get "kind") ≫= as_str = runtime_confirmation_control_kind type)
  && bool_decide ((marker ≫= value_get "version") ≫= as_u64 = Some RUNTIME_CONFIRMATION_CONTROL_VERSION).
Definition runtime_confirmation_control_source (payload : Json) : option string :=
  (value_get "__alan_internal_control" payload ≫= value_get "source") ≫= as_str.
Definition is_runtime_confirmation_control_payload (payload : Json) : bool :=
  match runtime_confirmation_control_checkpoint payload with
  | None => false
  | Some (_, type) =>
      has_runtime_confirmation_control_kind_and_version payload type
      && bool_decide (runtime_confirmation_control_source payload
                      = Some RUNTIME_CONFIRMATION_CONTROL_SOURCE)
  end.
Definition is_runtime_confirmation_control_parts (parts : list ContentPart) : bool :=
  existsb (λ p, match p with
                | Structured data => is_runtime_confirmation_control_payload data
                | _ => false
                end) parts.
Definition is_runtime_confirmation_control_message (msg : Message) : bool :=
  match msg with User parts => is_runtime_confirmation_control_parts parts | _ => false end.

(** ** Conversation, rollback and counters (agent_machine.rs) *)

Section conversation.
Context (json_to_string : Json → string) (json_from_str : string → option Json).

(** The enqueue of the message to the recorder does not change the machine. *)
Definition add_user_message_parts_internal (parts : list ContentPart) (count_as_turn : bool)
    (m : AgentMachine) : AgentMachine :=
  let m := if count_as_turn then m_ordinal (λ n, saturating_add64 n 1) m else m in
  m_tape (push json_to_string (User parts)) m.
Definition add_user_message_parts (parts : list ContentPart) : AgentMachine → AgentMachine :=
  add_user_message_parts_internal parts true.
Definition add_user_control_message_parts (parts : list ContentPart) : AgentMachine → AgentMachine :=
  add_user_message_parts_internal parts false.

(** The parts of an assistant message with its reasoning; [keep_empty] when the
    text is kept although it is empty *)
Definition assistant_parts (content : string) (thinking signature : option string)
    (redacted : list string) (keep_empty : bool) : list ContentPart :=
  match thinking with
  | Some t => if bool_decide (t = "") then []
              else match signature with
                   | Some sig => if bool_decide (trim sig = "") then [Thinking t None]
                                 else [Thinking t (Some sig)]
                   | None => [Thinking t None]
                   end
  | None => []
  end
  ++ (RedactedThinking <$> filter (λ b, trim b ≠ "") redacted)
  ++ (if bool_decide (content = "") && negb keep_empty then [] else [Text content]).
Definition add_assistant_message_with_reasoning (content : string) (thinking signature : option string)
    (redacted : list string) : AgentMachine → AgentMachine :=
  m_tape (push json_to_string
            (Assistant (assistant_parts content thinking signature redacted true) [])).
Definition add_assistant_message_with_tool_calls_and_reasoning (content : string)
    (tool_calls : list ToolRequest) (thinking signature : option string) (redacted : list string) :
    AgentMachine → AgentMachine :=
  m_tape (push json_to_string
            (Assistant (assistant_parts content thinking signature redacted false) tool_calls)).

Definition RESPONSES_CONTINUATION_EVENT_TYPE : string := "responses_continuation".
Definition clear_responses_continuation (reason : string) (m : AgentMachine) : AgentMachine :=
  match responses_continuation m with
  | None => m
  | Some previous =>
      record_event RESPONSES_CONTINUATION_EVENT_TYPE
        (JObject [("provider", JString (cont_provider previous));
                  ("last_response_id", JString (last_response_id previous));
                  ("boundary_message_count",
                     JNumber (dec_string (N.of_nat (boundary_message_count previous))));
                  ("reference_context_revision",
                     JNumber (dec_string_Z (reference_context_revision previous)));
                  ("cleared", JBool true); ("reason", JString reason)])
        (m_continuation (λ _, None) m)
  end.

Record RollbackOutcome : Type := mkOutcome { removed_turns : Z; removed_messages : nat }.
Definition ROLLBACK_NON_DURABLE_WARNING : string :=
  "Rollback is in-memory only and will not survive runtime restart.".

Definition is_turn_message (msg : Message) : bool :=
  match msg with User _ => negb (is_runtime_confirmation_control_message msg) | _ => false end.

(** The loop over [messages.iter().enumerate().rev()]: [newest] holds the messages
    still to visit, latest first; the result is [user_turns_seen] and [remove_from]. *)
Fixpoint rollback_scan (requested : Z) (newest : list Message) (seen : Z) (remove_from : nat) : Z * nat :=
  match newest with
  | [] => (seen, remove_from)
  | msg :: older =>
      let remove_from := length older in
      if is_turn_message msg then
        if requested <=? seen + 1 then (seen + 1, remove_from)
        else rollback_scan requested older (seen + 1) remove_from
      else rollback_scan requested older seen remove_from
  end.

Definition rollback_last_turns (requested : Z) (m : AgentMachine) : AgentMachine * RollbackOutcome :=
  let ms := messages (tape m) in
  if (requested =? 0) || bool_decide (ms = []) then (m, mkOutcome 0 0)
  else
    let '(seen, remove_from) := rollback_scan requested (reverse ms) 0 (length ms) in
    if seen =? 0 then (m, mkOutcome 0 0)
    else
      let removed := (length ms - remove_from)%nat in
      let m := m_tape (replace json_to_string (take remove_from ms)) m in
      let m := m_tape clear_summary m in
      let m := clear_responses_continuation "rollback" m in
      let m := if bool_decide (messages (tape m) = []) then m_active_task (λ _, false) m else m in
      let m := record_event "machine_rollback"
                 (JObject [("requested_turns", JNumber (dec_string_Z requested));
                           ("removed_turns", JNumber (dec_string_Z seen));
                           ("removed_messages", JNumber (dec_string (N.of_nat removed)));
                           ("durable", JBool false); ("scope", JString "in_memory");
                           ("warning", JString ROLLBACK_NON_DURABLE_WARNING)]) m in
      (m, mkOutcome seen removed).

(** [apply_tape_compaction]; [None] is the panic of the tape's compaction *)
Definition apply_tape_compaction (summary : string) (keep_last retention_start : nat)
    (m : AgentMachine) : option AgentMachine :=
  t ← compact json_to_string json_from_str summary keep_last (tape m);
  Some (note_tape_compaction retention_start (m_tape (λ _, t) m)).

Definition note_compaction_failure (m : AgentMachine) : AgentMachine * Z :=
  let m := m_streak (λ n, saturating_add32 n 1) m in (m, compaction_failure_streak m).
Definition reset_compaction_failure_streak : AgentMachine → AgentMachine := m_streak (λ _, 0).
Definition note_auto_memory_flush_attempt : AgentMachine → AgentMachine := m_flush (λ _, true).
Definition reset_auto_memory_flush_cycle : AgentMachine → AgentMachine := m_flush (λ _, false).
Definition activate_task : AgentMachine → AgentMachine := m_active_task (λ _, true).
Definition clear_active_task : AgentMachine → AgentMachine := m_active_task (λ _, false).
End conversation.
