(* ===== verification/MachineFacts.v ===== *)
(** * What the machine state guarantees

    The pending requests refine a list of requests in the order they were last set;
    the guardian's breaker is a function of the reviews of the turn; a rollback
    removes whole turns; a compaction keeps the plan's position. *)
From S2P Require Import Prelude RustStd RustText Tape TapeFacts Protocol InputQueue MachineState.

(** ** Operations of a machine *)

Inductive MOp : Type :=
  | OpAccept (id : string) | OpFinish | OpCancelled | OpSteer (id : string)
  | OpReview (denied : bool) | OpReset | OpActivity (a : TurnActivityState)
  | OpBeginTurn (n : nat) | OpIntent (i : option ReasoningEffort)
  | OpNextTurn (parts : list ContentPart) | OpDrainNextTurn
  | OpPushBuffered (s : Submission) | OpPopBuffered | OpDrainBuffered
  | OpPlan (explanation : option string) (items : list PlanItem) (count : nat) | OpClearPlan | OpResumed
  | OpCompacted (retention_start : nat) | OpAutoCompacted (tokens : Z)
  | OpSet (key : string) (y : PendingYield) | OpTake (key : string)
  | OpBatch (id : string) (calls : list NormalizedToolCall) (resume : bool) | OpTakeBatch (id : string)
  | OpDefer (a : DeferredRuntimeAction) | OpDrainDeferred
  | OpUser (parts : list ContentPart) (count_as_turn : bool) | OpRollback (turns : Z).

Section machine.
Context (json_to_string : Json → string)
  (hash_order : gmap string PendingYield → list (string * PendingYield)).

Definition run_mop (m : AgentMachine) (op : MOp) : AgentMachine :=
  match op with
  | OpAccept id => accept_submission id m
  | OpFinish => finish_submission m
  | OpCancelled => mark_submission_cancelled m
  | OpSteer id => accept_steering_submission id m
  | OpReview denied => (record_guardian_review denied m).1
  | OpReset => reset_turn hash_order m
  | OpActivity a => set_turn_activity a m
  | OpBeginTurn n => begin_turn n m
  | OpIntent i => set_active_turn_request_control_intent i m
  | OpNextTurn parts => (queue_next_turn_input parts m).1
  | OpDrainNextTurn => (drain_next_turn_inputs m).1
  | OpPushBuffered s => push_buffered_inband_submission s m
  | OpPopBuffered => (pop_buffered_inband_submission m).1
  | OpDrainBuffered => (drain_buffered_inband_submissions m).1
  | OpPlan explanation items count => set_plan_snapshot_at_message_count explanation items count m
  | OpClearPlan => clear_plan_snapshot m
  | OpResumed => note_resumed_user_input m
  | OpCompacted n => note_tape_compaction n m
  | OpAutoCompacted tokens => record_auto_mid_turn_compaction tokens m
  | OpSet key y => set_yield key y m
  | OpTake key => (take_pending key m).1
  | OpBatch id calls resume => set_tool_replay_batch id calls resume m
  | OpTakeBatch id => (take_tool_replay_batch id m).1
  | OpDefer a => push_deferred_runtime_action a m
  | OpDrainDeferred => (drain_deferred_runtime_actions m).1
  | OpUser parts count_as_turn => add_user_message_parts_internal json_to_string parts count_as_turn m
  | OpRollback turns => (rollback_last_turns json_to_string turns m).1
  end.
Definition run_mops (ops : list MOp) : AgentMachine := foldl run_mop new_machine ops.

(** What most operations leave alone *)
Definition same_requests (t t' : MachineTransitionState) : Prop :=
  pending_yields t' = pending_yields t ∧ pending_order t' = pending_order t.
Definition same_guardian (t t' : MachineTransitionState) : Prop :=
  guardian_consecutive_denials t' = guardian_consecutive_denials t
  ∧ guardian_recent_reviews t' = guardian_recent_reviews t.

Lemma relate_inputs_frame ids m :
  same_requests (transition_state m) (transition_state (foldl relate_input m ids))
  ∧ same_guardian (transition_state m) (transition_state (foldl relate_input m ids)).
Proof.
  revert m. induction ids as [|i ids IH]; intros m; simpl; [done|].
  assert (same_requests (transition_state m) (transition_state (relate_input m i))
          ∧ same_guardian (transition_state m) (transition_state (relate_input m i))) as [[H1 H2] [H3 H4]].
  { unfold relate_input. destruct i as [i|]; [|done]. by destruct (_ || _). }
  destruct (IH (relate_input m i)) as [[I1 I2] [I3 I4]].
  unfold same_requests, same_guardian. by rewrite I1, I2, I3, I4.
Qed.
Lemma rollback_frame turns m :
  transition_state (rollback_last_turns json_to_string turns m).1 = transition_state m.
Proof.
  unfold rollback_last_turns. destruct (_ || _); [done|].
  destruct (rollback_scan _ _ _ _) as [seen from]. destruct (seen =? 0); [done|]. simpl.
  unfold clear_responses_continuation. repeat case_match; done.
Qed.
Lemma record_events_frame (f : string → Json) ids m :
  transition_state (foldl (λ m id, record_event "host_mount_request_wait_cleared" (f id) m) m ids)
  = transition_state m.
Proof. revert m. induction ids as [|i ids IH]; intros m; simpl; [done|]. by rewrite IH. Qed.

Definition touches_requests (op : MOp) : bool :=
  match op with OpSet _ _ | OpTake _ | OpReset => true | _ => false end.
Definition touches_guardian (op : MOp) : bool :=
  match op with OpReview _ | OpReset => true | _ => false end.

Lemma run_mop_requests op m :
  touches_requests op = false → same_requests (transition_state m) (transition_state (run_mop m op)).
Proof.
  destruct op; intros Hop; try done; simpl.
  - unfold finish_submission. by destruct (has_pending_interaction m).
  - unfold accept_steering_submission. destruct (current_submission_id _) as [p|]; simpl; [|done].
    by destruct (bool_decide _).
  - by destruct a.
  - unfold queue_next_turn_input. by destruct (bool_decide _).
  - apply (relate_inputs_frame _ (in_input_queue (on_next_turn (λ _, [])) m)).
  - by destruct count_as_turn.
  - by rewrite rollback_frame.
Qed.
Lemma run_mop_guardian op m :
  touches_guardian op = false → same_guardian (transition_state m) (transition_state (run_mop m op)).
Proof.
  destruct op; intros Hop; try done; simpl.
  - unfold finish_submission. by destruct (has_pending_interaction m).
  - unfold accept_steering_submission. destruct (current_submission_id _) as [p|]; simpl; [|done].
    by destruct (bool_decide _).
  - by destruct a.
  - unfold queue_next_turn_input. by destruct (bool_decide _).
  - apply (relate_inputs_frame _ (in_input_queue (on_next_turn (λ _, [])) m)).
  - unfold take_pending. by destruct (pending_yields _ !! _).
  - by destruct count_as_turn.
  - by rewrite rollback_frame.
Qed.

(** ** Pending requests as a list *)

Lemma filter_id {A} (Q : A → Prop) `{!∀ x, Decision (Q x)} (l : list A) : Forall Q l → filter Q l = l.
Proof. induction 1 as [|x l Hx Hl IH]; [done|]. by rewrite filter_cons_True, IH. Qed.
Lemma omap_reverse {A B} (f : A → option B) (l : list A) : omap f (reverse l) = reverse (omap f l).
Proof.
  induction l as [|x l IH]; [done|]. rewrite reverse_cons, omap_app, IH. simpl.
  destruct (f x); simpl; [by rewrite reverse_cons|by rewrite app_nil_r].
Qed.

(** The requests in the order they were last set *)
Definition spec_mop (l : list (string * PendingYield)) (op : MOp) : list (string * PendingYield) :=
  match op with
  | OpSet key y => filter (λ e, e.1 ≠ key) l ++ [(key, y)]
  | OpTake key => filter (λ e, e.1 ≠ key) l
  | OpReset => []
  | _ => l
  end.
Definition spec_mops (ops : list MOp) : list (string * PendingYield) := foldl spec_mop [] ops.
(** The last confirmation of the list *)
Definition last_confirmation (l : list (string * PendingYield)) : option PendingConfirmation :=
  last (omap (λ e, match e.2 with YConfirmation p => Some p | _ => None end) l).

(** The machine's table and order hold the list. *)
Definition holds_requests (l : list (string * PendingYield)) (t : MachineTransitionState) : Prop :=
  NoDup l.*1 ∧ pending_order t = l.*1 ∧ pending_yields t = list_to_map l.

Lemma remove_key_filter (l : list (string * PendingYield)) key :
  NoDup l.*1 → remove_key l.*1 key = (filter (λ e, e.1 ≠ key) l).*1.
Proof.
  induction l as [|[k y] l IH]; intros Hnd; [done|]. rewrite fmap_cons in *. simpl.
  apply NoDup_cons in Hnd as [Hk Hnd]. case_bool_decide as Heq.
  - subst k. rewrite filter_cons_False by (simpl; naive_solver). f_equal. symmetry.
    apply filter_id, Forall_forall. intros e He <-. apply Hk. apply list_elem_of_fmap. by exists e.
  - rewrite filter_cons_True by done. simpl. by rewrite IH.
Qed.
Lemma filter_map_delete (l : list (string * PendingYield)) key :
  NoDup l.*1 →
  list_to_map (M := gmap string PendingYield) (filter (λ e, e.1 ≠ key) l) = delete key (list_to_map l).
Proof.
  induction l as [|[k y] l IH]; intros Hnd; [symmetry; apply delete_empty|].
  rewrite fmap_cons in Hnd. apply NoDup_cons in Hnd as [Hk Hnd]. simpl.
  destruct (decide (k = key)) as [->|Hne].
  - rewrite filter_cons_False by (simpl; naive_solver). by rewrite IH, delete_insert_eq.
  - rewrite filter_cons_True by done. simpl. by rewrite IH, delete_insert_ne.
Qed.

Lemma run_mop_holds op l m :
  holds_requests l (transition_state m) →
  holds_requests (spec_mop l op) (transition_state (run_mop m op)).
Proof.
  intros (Hnd & Ho & Hy). destruct (touches_requests op) eqn:Ht.
  2: { destruct (run_mop_requests op m Ht) as [H1 H2]. unfold holds_requests. rewrite H1, H2.
       by destruct op. }
  assert (∀ key, NoDup (filter (λ e, e.1 ≠ key) l).*1) as Hfnd by (intros; by apply NoDup_fmap_filter).
  destruct op; try done; simpl.
  - unfold reset_turn. split_and!; [constructor|done|done].
  - unfold holds_requests. simpl. unfold push_latest_key. rewrite Ho, Hy, remove_key_filter, fmap_app by done.
    assert (key ∉ (filter (λ e, e.1 ≠ key) l).*1) as Hnew.
    { intros (e & -> & [? _]%list_elem_of_filter)%list_elem_of_fmap. done. }
    split_and!; [|done|].
    + apply NoDup_app. split_and!; [done| |apply NoDup_singleton]. simpl. set_solver.
    + rewrite list_to_map_snoc by done. rewrite filter_map_delete by done. by rewrite insert_delete_eq.
  - unfold take_pending. destruct (pending_yields (transition_state m) !! key) eqn:Hl; simpl.
    + unfold holds_requests. simpl. rewrite Ho, Hy, remove_key_filter by done.
      split_and!; [done..|]. by rewrite filter_map_delete.
    + assert (filter (λ e, e.1 ≠ key) l = l) as ->; [|done].
      apply filter_id, Forall_forall. intros [k y] He Hk. simpl in Hk. subst k.
      rewrite Hy in Hl. apply not_elem_of_list_to_map_2 in Hl. by apply Hl, (list_elem_of_fmap_2 fst l (key, y)).
Qed.
Lemma run_mops_holds ops : holds_requests (spec_mops ops) (transition_state (run_mops ops)).
Proof.
  unfold run_mops, spec_mops.
  assert (holds_requests [] (transition_state new_machine)) as H0 by (by split_and!; [constructor|..]).
  revert H0. generalize new_machine, (@nil (string * PendingYield)).
  induction ops as [|op ops IH]; intros m l Hm; [done|]. simpl. by apply IH, run_mop_holds.
Qed.

Lemma head_reverse {A} (l : list A) : head (reverse l) = last l.
Proof. destruct l as [|x l _] using rev_ind; [done|]. by rewrite reverse_snoc, last_snoc. Qed.

(** C15: through every sequence of machine operations the hash map of pending
    requests and the vector that tracks their order hold one list: the requests
    that were set and neither taken nor cleared, each once, in the order they were
    last set. Lookup by identity, the order shown, the confirmation answered first
    and the test that work is suspended are those of the list. *)
Theorem pending_requests_refine_list ops :
  let m := run_mops ops in
  let l := spec_mops ops in
  NoDup l.*1 ∧ pending_request_ids m = l.*1
  ∧ (∀ key y, pending_yield key m = Some y ↔ (key, y) ∈ l)
  ∧ (∀ key, (take_pending key m).2 = pending_yield key m)
  ∧ pending_confirmation m = last_confirmation l
  ∧ latest_pending_key m = fst <$> last l
  ∧ has_pending_interaction m = negb (bool_decide (length l = 0%nat)).
Proof.
  intros m l. destruct (run_mops_holds ops) as (Hnd & Ho & Hy). fold m l in Hnd, Ho, Hy.
  split; [done|]. split; [done|]. split.
  { intros key y. unfold pending_yield. rewrite Hy. symmetry. by apply elem_of_list_to_map. }
  split. { intros key. unfold take_pending, pending_yield. by destruct (pending_yields _ !! key). }
  split.
  { unfold pending_confirmation, last_confirmation. rewrite Ho, Hy, <- head_reverse. f_equal.
    rewrite omap_reverse. f_equal. apply list_omap_ext, Forall2_fmap_l, Forall_Forall2_diag, Forall_forall.
    intros [k y] Hin. simpl. by rewrite (proj1 (elem_of_list_to_map l k y Hnd) Hin). }
  split; [unfold latest_pending_key; by rewrite Ho, fmap_last|].
  unfold has_pending_interaction. rewrite Hy. f_equal. apply bool_decide_ext.
  destruct l as [|[k y] l']; [done|]. simpl. split; [|done]. intros He. by apply insert_non_empty in He.
Qed.

(** ** The breaker as a function of the turn's reviews *)

(** The reviews since the turn was reset *)
Definition reviews_after (rs : list bool) (op : MOp) : list bool :=
  match op with OpReview denied => rs ++ [denied] | OpReset => [] | _ => rs end.
Definition turn_reviews (ops : list MOp) : list bool := foldl reviews_after [] ops.

Definition last_n {A} (n : nat) (l : list A) : list A := drop (length l - n) l.
(** Three denials in a row, or ten among the last fifty reviews *)
Definition breaker_trips (rs : list bool) : bool :=
  bool_decide (last_n 3 rs = [true; true; true])
  || bool_decide (10 ≤ length (filter (λ d, d = true) (last_n 50 rs)))%nat.

Fixpoint leading_denials (l : list bool) : nat :=
  match l with true :: l' => S (leading_denials l') | _ => O end.

Lemma leading_three l : (3 ≤ leading_denials l)%nat ↔ take 3 l = [true; true; true].
Proof. destruct l as [|[] [|[] [|[] l]]]; simpl; split; (lia || done). Qed.
Lemma last_three rs : (3 ≤ leading_denials (reverse rs))%nat ↔ last_n 3 rs = [true; true; true].
Proof.
  rewrite leading_three. unfold reverse. rewrite <- rev_alt, firstn_rev. unfold last_n.
  change (@skipn bool) with (@drop bool). split; intros Hr.
  - apply (f_equal (@rev bool)) in Hr. by rewrite rev_involutive in Hr.
  - by rewrite Hr.
Qed.
Lemma window_snoc rs d :
  pop_to_window (last_n GUARDIAN_DENIAL_WINDOW rs ++ [d]) = last_n GUARDIAN_DENIAL_WINDOW (rs ++ [d]).
Proof.
  unfold pop_to_window, last_n, GUARDIAN_DENIAL_WINDOW.
  rewrite <- (drop_app_le rs [d]) by lia. rewrite drop_drop, length_drop, !length_app. f_equal. simpl. lia.
Qed.

Definition counts_reviews (rs : list bool) (t : MachineTransitionState) : Prop :=
  guardian_consecutive_denials t = Z.min (Z.of_nat (leading_denials (reverse rs))) u32_max
  ∧ guardian_recent_reviews t = last_n GUARDIAN_DENIAL_WINDOW rs.

Lemma review_counts rs d m :
  counts_reviews rs (transition_state m) →
  counts_reviews (rs ++ [d]) (transition_state (record_guardian_review d m).1).
Proof.
  intros [Hc Hw]. unfold record_guardian_review. split; simpl; [|by rewrite Hw, window_snoc].
  rewrite Hc, reverse_snoc. destruct d; simpl; [|done]. unfold saturating_add32, u32_max, u32_size. lia.
Qed.
Lemma run_mop_reviews op rs m :
  counts_reviews rs (transition_state m) → counts_reviews (reviews_after rs op) (transition_state (run_mop m op)).
Proof.
  intros Hm. destruct (touches_guardian op) eqn:Ht.
  - destruct op; try done. by apply review_counts.
  - destruct (run_mop_guardian op m Ht) as [H1 H2]. destruct Hm. unfold counts_reviews.
    rewrite H1, H2. by destruct op.
Qed.
Lemma run_mops_reviews ops : counts_reviews (turn_reviews ops) (transition_state (run_mops ops)).
Proof.
  unfold run_mops, turn_reviews.
  assert (counts_reviews [] (transition_state new_machine)) as H0 by done.
  revert H0. generalize new_machine, (@nil bool).
  induction ops as [|op ops IH]; intros m l Hm; [done|]. simpl. by apply IH, run_mop_reviews.
Qed.

(** C16: Whatever else the machine does in between, the guardian's breaker trips on a
    review exactly when the reviews of the turn, this one included, end in three
    denials or hold ten denials among the last fifty; the saturating counter and
    the bounded window lose nothing. *)
Theorem guardian_trips_exactly ops denied :
  (record_guardian_review denied (run_mops ops)).2 = breaker_trips (turn_reviews ops ++ [denied]).
Proof.
  pose proof (review_counts _ denied _ (run_mops_reviews ops)) as [Hc Hw].
  unfold record_guardian_review, breaker_trips in *. cbn [fst snd] in *. rewrite Hc, Hw. f_equal.
  apply eq_true_iff_eq. rewrite Z.leb_le, bool_decide_eq_true, <- last_three.
  unfold GUARDIAN_MAX_CONSECUTIVE_DENIALS, u32_max, u32_size. lia.
Qed.
End machine.

(** ** Rollback *)

Section rollback.
Context (json_to_string : Json → string) (json_from_str : string → option Json).

Definition count_turns (l : list Message) : Z := Z.of_nat (length (filter (λ x, is_turn_message x = true) l)).

Lemma count_turns_app l k : count_turns (l ++ k) = count_turns l + count_turns k.
Proof. unfold count_turns. rewrite filter_app, length_app. lia. Qed.
Lemma count_turns_cons x l : count_turns (x :: l) = (if is_turn_message x then 1 else 0) + count_turns l.
Proof.
  unfold count_turns. rewrite filter_cons. destruct (is_turn_message x); case_decide; try done. simpl. lia.
Qed.
Lemma count_turns_nonneg l : 0 ≤ count_turns l.
Proof. unfold count_turns. lia. Qed.
Lemma count_turns_reverse l : count_turns (reverse l) = count_turns l.
Proof. unfold count_turns. by rewrite reverse_Permutation. Qed.

Lemma rollback_scan_spec requested newest seen :
  0 ≤ seen < requested →
  ∃ removed rest,
    newest = removed ++ rest
    ∧ rollback_scan requested newest seen (length newest) = (seen + count_turns removed, length rest)
    ∧ ((seen + count_turns removed = requested ∧ ∃ newer t, removed = newer ++ [t] ∧ is_turn_message t = true)
       ∨ (rest = [] ∧ seen + count_turns removed < requested)).
Proof.
  revert seen. induction newest as [|x newest IH]; intros seen Hs; simpl.
  - exists [], []. split_and!; [done| |right; split; [done|]]; unfold count_turns; simpl; [f_equal|]; lia.
  - destruct (is_turn_message x) eqn:Hx; [destruct (requested <=? seen + 1) eqn:Hr; bool_facts|].
    + exists [x], newest. rewrite count_turns_cons, Hx. change (count_turns []) with 0.
      split_and!; [done|f_equal; lia|left]. split; [lia|]. by exists [], x.
    + destruct (IH (seen + 1)) as (removed & rest & -> & -> & Hcase); [lia|].
      exists (x :: removed), rest. rewrite count_turns_cons, Hx, Z.add_assoc.
      split_and!; [done|done|]. destruct Hcase as [(? & newer & t & -> & Ht)|?]; [left|by right].
      split; [done|]. by exists (x :: newer), t.
    + destruct (IH seen) as (removed & rest & -> & -> & Hcase); [lia|].
      exists (x :: removed), rest. rewrite count_turns_cons, Hx, Z.add_0_l.
      split_and!; [done|done|]. destruct Hcase as [(? & newer & t & -> & Ht)|?]; [left|by right].
      split; [done|]. by exists (x :: newer), t.
Qed.

(** A rollback of [requested] turns removes a suffix of the conversation that
    holds exactly the last [requested] user turns, or all of them if there are
    fewer, and says how many turns and messages it removed. The suffix begins at a
    user message unless more turns were requested than there are, and then the
    conversation is empty. When there is no turn to remove the machine is
    unchanged; otherwise the summary and the provider's continuation are dropped. *)
Theorem rollback_removes_last_turns requested m m' o :
  0 ≤ requested → rollback_last_turns json_to_string requested m = (m', o) →
  let turns := count_turns (messages (tape m)) in
  ∃ removed,
    messages (tape m) = messages (tape m') ++ removed
    ∧ length removed = removed_messages o
    ∧ removed_turns o = Z.min requested turns ∧ count_turns removed = removed_turns o
    ∧ (removed_turns o = 0 → m' = m)
    ∧ (0 < removed_turns o →
         (requested ≤ turns → ∃ t rest, removed = t :: rest ∧ is_turn_message t = true)
         ∧ (turns < requested → messages (tape m') = [])
         ∧ summary (tape m') = None ∧ responses_continuation m' = None).
Proof.
  intros Hreq. unfold rollback_last_turns. pose proof (count_turns_nonneg (messages (tape m))) as Hnn.
  destruct ((requested =? 0) || bool_decide (messages (tape m) = [])) eqn:H0.
  { intros [= <- <-]. exists []. rewrite app_nil_r. simpl. split_and!; try done.
    apply orb_true_iff in H0 as [H0|H0]; bool_facts; [lia|]. rewrite H0. unfold count_turns. simpl. lia. }
  bool_facts. rewrite <- (length_reverse (messages (tape m))).
  destruct (rollback_scan_spec requested (reverse (messages (tape m))) 0) as (newest & rest & Heq & -> & Hcase); [lia|].
  rewrite Z.add_0_l in *.
  assert (messages (tape m) = reverse rest ++ reverse newest) as Hms.
  { rewrite <- reverse_app, <- Heq. by rewrite reverse_involutive. }
  assert (count_turns (messages (tape m)) = count_turns rest + count_turns newest) as Hct
    by (rewrite Hms, count_turns_app, !count_turns_reverse; lia).
  pose proof (count_turns_nonneg rest).
  destruct (count_turns newest =? 0) eqn:Hz; bool_facts.
  { intros [= <- <-]. exists []. rewrite app_nil_r. simpl. split_and!; try done.
    destruct Hcase as [[? _]|[-> _]]; [lia|]. rewrite Hct, Hz. change (count_turns []) with 0. lia. }
  intros Hrun. exists (reverse newest).
  assert (messages (tape m') = reverse rest ∧ summary (tape m') = None ∧ responses_continuation m' = None
          ∧ o = mkOutcome (count_turns newest) (length newest)) as (Hm & Hsum & Hcont & ->).
  { assert (take (length rest) (messages (tape m)) = reverse rest) as Ht
      by (rewrite Hms; apply take_app_length'; by rewrite length_reverse).
    assert ((length (reverse (messages (tape m))) - length rest)%nat = length newest) as Hl
      by (rewrite Heq, length_app; lia).
    rewrite Ht, Hl in Hrun. injection Hrun as <- <-. unfold clear_responses_continuation.
    repeat case_match; by split_and!. }
  rewrite Hm, count_turns_reverse, length_reverse. split_and!; [done|done| |done|done|].
  - simpl. destruct Hcase as [[? _]|[-> ?]]; [lia|]. change (count_turns []) with 0 in Hct. lia.
  - simpl. intros Hpos. split_and!; [| |done|done].
    + intros Hle. destruct Hcase as [(_ & newer & t & -> & Ht)|[-> ?]].
      * rewrite reverse_snoc. by eexists _, _.
      * change (count_turns []) with 0 in Hct. lia.
    + intros Hlt. destruct Hcase as [[? _]|[-> ?]]; [lia|done].
Qed.

(** ** Compaction and the plan *)

Lemma compact_messages s keep t :
  ∃ t', compact json_to_string json_from_str s keep t = Some t'
        ∧ messages t' = drop (compaction_retention_start json_from_str (messages t) keep) (messages t).
Proof.
  unfold compact. rewrite bool_decide_false; [by eexists|].
  pose proof (retention_start_le json_from_str (messages t) keep). lia.
Qed.

(** A compaction of the machine's tape never panics; the messages it keeps, and
    whether the published plan is newer than a message, are the same before and
    after, at indices shifted by the messages it dropped. A plan that was not
    published in the running turn never looks as if it were, and one published in a
    turn that is kept whole still does. *)
Theorem plan_position_survives_compaction s keep m :
  let r := compaction_retention_start json_from_str (messages (tape m)) keep in
  ∃ m', apply_tape_compaction json_to_string json_from_str s keep r m = Some m'
  ∧ (∀ i, messages (tape m') !! i = messages (tape m) !! (r + i)%nat)
  ∧ (∀ i, plan_snapshot_postdates_message i m' = plan_snapshot_postdates_message (r + i) m)
  ∧ (∀ p a, plan_snapshot_turn_start (transition_state m) = Some p →
            active_turn_message_start (transition_state m) = Some a →
            ((p < a)%nat → plan_snapshot_is_from_active_turn m' = false)
            ∧ (p = a → (r ≤ a)%nat → plan_snapshot_is_from_active_turn m' = true)).
Proof.
  intros r. destruct (compact_messages s keep (tape m)) as (t' & Ht & Hms). fold r in Hms.
  unfold apply_tape_compaction. rewrite Ht. eexists. split; [reflexivity|]. split_and!.
  - intros i. simpl. by rewrite Hms, lookup_drop.
  - intros i. unfold plan_snapshot_postdates_message. simpl.
    destruct (plan_snapshot_message_count (transition_state m)) as [c|]; simpl; [|done].
    case_bool_decide; simpl; [by rewrite bool_decide_false by lia|]. apply bool_decide_ext. lia.
  - intros p a Hp Ha. unfold plan_snapshot_is_from_active_turn. simpl. rewrite Hp, Ha. simpl. split.
    + intros Hlt. apply bool_decide_false. case_bool_decide; [done|]. injection 1. lia.
    + intros -> Hr. rewrite (bool_decide_false (a < r)%nat) by lia. by apply bool_decide_true.
Qed.
End rollback.

(** A confirmation answered with a choice of its own is a control message for the
    tape's compaction and a user turn for a rollback. *)
Definition modified_confirmation : Json :=
  JObject [("checkpoint_id", JString "tool_escalation_1"); ("checkpoint_type", JString "tool_escalation");
           ("choice", JString "modify");
           ("__alan_internal_control",
             JObject [("kind", JString "tool_escalation_confirmation"); ("version", JNumber "1");
                      ("source", JString "runtime/submission_handlers")])].
Lemma modified_confirmation_is_a_turn :
  is_internal_control_payload modified_confirmation = true
  ∧ is_turn_message (User [Structured modified_confirmation]) = true.
Proof. split; vm_compute; reflexivity. Qed.

(** ** Examples *)

Definition toy_print (_ : Json) : string := "".
Definition toy_talk : AgentMachine :=
  foldl (run_mop toy_print map_to_list) new_machine
    [OpUser [Text "one"] true; OpUser [Text "two"] true; OpUser [Structured JNull] true].

Lemma toy_rollback :
  rollback_last_turns toy_print 2 toy_talk
  = ((rollback_last_turns toy_print 2 toy_talk).1, mkOutcome 2 2).
Proof. vm_compute. reflexivity. Qed.

Lemma rollback_removes_last_turns_witness :
  0 ≤ 2 ∧ ∃ removed, messages (tape toy_talk)
                     = messages (tape (rollback_last_turns toy_print 2 toy_talk).1) ++ removed
                     ∧ length removed = 2%nat.
Proof.
  split; [lia|].
  destruct (rollback_removes_last_turns toy_print 2 toy_talk _ _ ltac:(lia) toy_rollback)
    as (removed & H1 & H2 & _).
  exists removed. exact (conj H1 H2).
Defined.
