(* ===== verification/AgentFs.v ===== *)
(** * The agent file server (crates/agentfs/src/lib.rs, surface_state.rs,
      request_control.rs, machine_projection.rs)

    The files of one agent process: its input, output and event streams, the tape
    with its content-addressed checkpoint, the requests it asks and the actions it
    records, and the documents a renderer shows. Documents are buffered in the fid
    and committed at clunk; streams are shared logs, named here by the handle
    [stream_for] clones. Parameters: those of the knowledge store, the default
    hasher of a qid path and serde_json's parser and printer of a value. The
    retention recorder is a callback of the owning runtime, known by whether it is
    installed and by the outcome of its call. Request and action numbers are not
    wrapped at 64 bits. *)
From S2P Require Import Prelude RustStd ApTypes ApServer Knowledge RustText.

Definition AGENT_MAX_DOC_BYTES : Z := Z.shiftl 1 20.
Definition MAX_ACTION_OUTPUT_BYTES : Z := Z.shiftl 16 20.

(** A text in which ['] stands for a double quote *)
Fixpoint dq (s : string) : string :=
  match s with
  | EmptyString => EmptyString
  | String c s' => String (if Ascii.eqb c "'" then ascii_of_nat 34 else c) (dq s')
  end.
Definition nl : string := String (ascii_of_nat 10) EmptyString.
(** Lines, each ended by a newline *)
Definition text_lines (l : list string) : string :=
  foldr (λ line rest, line +:+ nl +:+ rest) "" l.

Definition MACHINE_CTL_HELP : string := text_lines
  [ "# machine/ctl " +:+ of_bytes [xe2; x80; x94] +:+ " agent-runtime control. Write one UTF-8 command per write, at most 64 KiB; no CR, LF or NUL.";
    "compact   compact the tape into a checkpoint";
    "rollback  roll back to the previous checkpoint";
    "interrupt stop the current turn; the agent process stays alive";
    dq "owner-work-v1 {'id':'UUID','request':{...}} explicitly submit bounded read-only source-owner work through the ordinary queue";
    dq "project-cwd-v1 {'id':'UUID','path':'/absolute/namespace/path'} select Process cwd only while settled; queued work stays paused. Engine validates the selector and current authority." ].
Definition ACTIONS_HELP : string := text_lines
  [ "# actions " +:+ of_bytes [xe2; x80; x94] +:+ " Tool effect records and durable evidence.";
    "clone                         open read-write to allocate an action id";
    "events                        watch action creation and field changes";
    "<id>/output                   full durable output; append-only for a retained record";
    "<id>/result                   structured completion metadata";
    "evidence_projection           tape record: preview + namespace reference + truncation";
    "reference                     {path, offset?, length?}; resolve by namespace walk";
    "evidence_retention_expired    structured output record after storing-server retention expiry";
    "[REDACTED reason=<class>]      durable redaction marker; distinct from truncation" ].

Definition TAPE_ROOT_NAME : string := "machine/tape".
Definition DEFAULT_UI_ACTIVITY : string := dq "{'version':1,'state':'idle'}".
Definition DEFAULT_UI_PLAN : string := dq "{'version':1,'items':[]}".
Definition DEFAULT_UI_THINKING : string := dq "{'version':1,'state':'idle','text':''}".
Definition DEFAULT_UI_NOTICE : string := dq "{'version':1,'kind':'none','message':''}".
Definition UNKNOWN_SKILLS : string := dq
  "{'version':1,'publication_version':0,'process_path':'','known':false,'mentionable_skill_ids':[]}".

(** ** Data *)

(** [struct Request] of the agent: a question it asks *)
Record AgentRequest : Type := mkAgentRequest {
  rq_kind : string;
  rq_prompt : string;
  rq_options : string;
  rq_status : string;
  rq_response : string;
}.
Global Instance AgentRequest_eq_dec : EqDecision AgentRequest.
Proof. solve_decision. Defined.

(** [struct Action]: a tool call it records *)
Record AgentAction : Type := mkAgentAction {
  ac_name : string;
  ac_status : string;
  ac_output : string;
  output_root : option ContentHash;
  output_retention_expired : bool;
  ac_result : string;
  ac_approval : string;
  ac_process : string;
}.

Inductive AgentNode : Type :=
  | NRoot | NIoDir | NInput | NOutput | NIoEvents
  | NMachineDir | NTape | NStatus | NEvaluation | NWork | NMachineCtl
  | NUiDir | NUiSkills | NUiModels | NUiQueue | NUiActivity | NUiPlan | NUiThinking
  | NUiNotice | NUiEvents
  | NCheckpointsDir | NCurrentCheckpoint | NEvents
  | NRequestsDir | NRequestsClone | NRequestsEvents
  | NRequest (id : string) | NRequestField (id field : string)
  | NActionsDir | NActionsHelp | NActionsClone | NActionsEvents
  | NAction (id : string) | NActionField (id field : string)
  | NContextDir | NChildrenDir.
Global Instance AgentNode_eq_dec : EqDecision AgentNode.
Proof. solve_decision. Defined.

Record AgentFid : Type := mkAgentFid {
  af_node : AgentNode;
  af_mode : option OpenMode;
  clone_id : option string;
  write_buf : bytes;
  read_snapshot : option bytes;
  wrote : bool;
}.
(** [AgentFid::at] *)
Definition agent_fid_at (n : AgentNode) : AgentFid := mkAgentFid n None None [] None false.

(** The streams of [State], and the handles [stream_for] gives out *)
Record AgentStreams : Type := mkAgentStreams {
  st_input : Stream.t;
  st_output : Stream.t;
  st_events : Stream.t;
  st_io_events : Stream.t;
  st_request_events : Stream.t;
  st_action_events : Stream.t;
  st_ui_events : Stream.t;
  st_tape : Stream.t;
}.
Inductive StreamHandle : Set :=
  HInput | HOutput | HEvents | HIoEvents | HRequestEvents | HActionEvents | HUiEvents | HTape.

Definition stream_get (h : StreamHandle) (x : AgentStreams) : Stream.t :=
  match h with
  | HInput => st_input x | HOutput => st_output x | HEvents => st_events x
  | HIoEvents => st_io_events x | HRequestEvents => st_request_events x
  | HActionEvents => st_action_events x | HUiEvents => st_ui_events x | HTape => st_tape x
  end.
Definition stream_append (h : StreamHandle) (d : bytes) (x : AgentStreams) : AgentStreams :=
  let '(mkAgentStreams i o e ie re ae ue t) := x in
  match h with
  | HInput => mkAgentStreams (Stream.append i d) o e ie re ae ue t
  | HOutput => mkAgentStreams i (Stream.append o d) e ie re ae ue t
  | HEvents => mkAgentStreams i o (Stream.append e d) ie re ae ue t
  | HIoEvents => mkAgentStreams i o e (Stream.append ie d) re ae ue t
  | HRequestEvents => mkAgentStreams i o e ie (Stream.append re d) ae ue t
  | HActionEvents => mkAgentStreams i o e ie re (Stream.append ae d) ue t
  | HUiEvents => mkAgentStreams i o e ie re ae (Stream.append ue d) t
  | HTape => mkAgentStreams i o e ie re ae ue (Stream.append t d)
  end.

(** The renderer documents of [State] *)
Record AgentUi : Type := mkAgentUi {
  ui_skills : string;
  ui_models : string;
  ui_queue : string;
  ui_activity : string;
  ui_plan : string;
  ui_thinking : string;
  ui_notice : string;
}.

(** [State], and whether a retention recorder is installed *)
Record AgentState : Type := mkAgentState {
  streams : AgentStreams;
  knowledge : KnowledgeStore;
  tape_root : ContentHash;
  ag_requests : gmap string AgentRequest;
  ag_actions : gmap string AgentAction;
  ag_status : string;
  evaluation : bytes;
  work : bytes;
  ui : AgentUi;
  next_request : Z;
  next_action : Z;
  tape_writer : option Fid;
  ag_versions : VersionTable.t;
  ag_fids : gmap Fid AgentFid;
  retention_recorder : bool;
}.

Definition set_agent_streams x s :=
  mkAgentState x (knowledge s) (tape_root s) (ag_requests s) (ag_actions s) (ag_status s)
    (evaluation s) (work s) (ui s) (next_request s) (next_action s) (tape_writer s)
    (ag_versions s) (ag_fids s) (retention_recorder s).
Definition set_knowledge x s :=
  mkAgentState (streams s) x (tape_root s) (ag_requests s) (ag_actions s) (ag_status s)
    (evaluation s) (work s) (ui s) (next_request s) (next_action s) (tape_writer s)
    (ag_versions s) (ag_fids s) (retention_recorder s).
Definition set_tape_root x s :=
  mkAgentState (streams s) (knowledge s) x (ag_requests s) (ag_actions s) (ag_status s)
    (evaluation s) (work s) (ui s) (next_request s) (next_action s) (tape_writer s)
    (ag_versions s) (ag_fids s) (retention_recorder s).
Definition set_requests x s :=
  mkAgentState (streams s) (knowledge s) (tape_root s) x (ag_actions s) (ag_status s)
    (evaluation s) (work s) (ui s) (next_request s) (next_action s) (tape_writer s)
    (ag_versions s) (ag_fids s) (retention_recorder s).
Definition set_actions x s :=
  mkAgentState (streams s) (knowledge s) (tape_root s) (ag_requests s) x (ag_status s)
    (evaluation s) (work s) (ui s) (next_request s) (next_action s) (tape_writer s)
    (ag_versions s) (ag_fids s) (retention_recorder s).
Definition set_evaluation x s :=
  mkAgentState (streams s) (knowledge s) (tape_root s) (ag_requests s) (ag_actions s)
    (ag_status s) x (work s) (ui s) (next_request s) (next_action s) (tape_writer s)
    (ag_versions s) (ag_fids s) (retention_recorder s).
Definition set_work x s :=
  mkAgentState (streams s) (knowledge s) (tape_root s) (ag_requests s) (ag_actions s)
    (ag_status s) (evaluation s) x (ui s) (next_request s) (next_action s) (tape_writer s)
    (ag_versions s) (ag_fids s) (retention_recorder s).
Definition set_ui x s :=
  mkAgentState (streams s) (knowledge s) (tape_root s) (ag_requests s) (ag_actions s)
    (ag_status s) (evaluation s) (work s) x (next_request s) (next_action s) (tape_writer s)
    (ag_versions s) (ag_fids s) (retention_recorder s).
Definition set_counters r a s :=
  mkAgentState (streams s) (knowledge s) (tape_root s) (ag_requests s) (ag_actions s)
    (ag_status s) (evaluation s) (work s) (ui s) r a (tape_writer s)
    (ag_versions s) (ag_fids s) (retention_recorder s).
Definition set_tape_writer x s :=
  mkAgentState (streams s) (knowledge s) (tape_root s) (ag_requests s) (ag_actions s)
    (ag_status s) (evaluation s) (work s) (ui s) (next_request s) (next_action s) x
    (ag_versions s) (ag_fids s) (retention_recorder s).
Definition set_ag_versions x s :=
  mkAgentState (streams s) (knowledge s) (tape_root s) (ag_requests s) (ag_actions s)
    (ag_status s) (evaluation s) (work s) (ui s) (next_request s) (next_action s)
    (tape_writer s) x (ag_fids s) (retention_recorder s).
Definition set_ag_fids x s :=
  mkAgentState (streams s) (knowledge s) (tape_root s) (ag_requests s) (ag_actions s)
    (ag_status s) (evaluation s) (work s) (ui s) (next_request s) (next_action s)
    (tape_writer s) (ag_versions s) x (retention_recorder s).
Definition set_retention x s :=
  mkAgentState (streams s) (knowledge s) (tape_root s) (ag_requests s) (ag_actions s)
    (ag_status s) (evaluation s) (work s) (ui s) (next_request s) (next_action s)
    (tape_writer s) (ag_versions s) (ag_fids s) x.

(** ** Functions of the node *)

Definition is_terminal (status : string) : bool :=
  bool_decide (status = "answered") || bool_decide (status = "closed")
  || bool_decide (status = "cancelled").

Definition action_output_root_name (id : string) : string := "actions/" +:+ id +:+ "/output".

(** [json_string]; the characters it escapes are ASCII *)
Fixpoint json_escape (s : string) : string :=
  match s with
  | EmptyString => EmptyString
  | String c s' =>
      (if Ascii.eqb c (ascii_of_nat 34) then dq "\'"
       else if Ascii.eqb c "\" then "\\"
       else if Ascii.eqb c (ascii_of_nat 10) then "\n"
       else if Ascii.eqb c (ascii_of_nat 13) then "\r"
       else if Ascii.eqb c (ascii_of_nat 9) then "\t"
       else String c EmptyString) +:+ json_escape s'
  end.
Definition json_string (s : string) : string := dq "'" +:+ json_escape s +:+ dq "'".

Definition retention_expired_record (reference cause : string) : string :=
  dq "{'type':'evidence_retention_expired','reference':" +:+ json_string reference
  +:+ dq ",'cause':" +:+ json_string cause +:+ "}".

Definition agent_map_knowledge_error (e : KnowledgeError) : ErrorCode :=
  match e with
  | KNoAccess => NoAccess
  | MissingBlock _ | MissingNode _ | UnknownRoot _ => NotFound
  | HashMismatch _ | Cycle _ => Io
  end.

Definition agent_is_writable (n : AgentNode) : bool :=
  match n with
  | NInput | NOutput | NTape | NMachineCtl | NUiModels | NUiQueue | NUiActivity | NUiPlan
  | NUiThinking | NUiSkills | NUiNotice | NUiEvents | NRequestsClone | NActionsClone
  | NActionField _ _ => true
  | NRequestField _ field => negb (bool_decide (field = "status"))
  | _ => false
  end.

(** A directory agent_listing joining fixed entries with dynamic ids *)
Definition agent_listing (fixed ids : list string) : bytes := into_bytes (join nl (fixed ++ ids)).

Definition agent_stream_for (n : AgentNode) : option StreamHandle :=
  match n with
  | NOutput => Some HOutput
  | NInput => Some HInput
  | NTape => Some HTape
  | NEvents => Some HEvents
  | NIoEvents => Some HIoEvents
  | NUiEvents => Some HUiEvents
  | NRequestsEvents => Some HRequestEvents
  | NActionsEvents => Some HActionEvents
  | _ => None
  end.

(** [value[key]]: [Null] for a key that is absent *)
Definition json_index (key : string) (j : Json) : Json := default JNull (value_get key j).
Definition json_is_string (j : Json) : bool := match j with JString _ => true | _ => false end.
Definition json_is_bool (j : Json) : bool := match j with JBool _ => true | _ => false end.
Definition json_is_object (j : Json) : bool := match j with JObject _ => true | _ => false end.

(** The shape [skill_projection] lets through *)
Definition skills_safe (value : Json) : bool :=
  match value with
  | JObject fields =>
      let keys := ["version"; "publication_version"; "process_path"; "known";
                   "mentionable_skill_ids"] in
      Nat.eqb (length fields) (length keys)
      && forallb (λ key, isSome (json_get fields key)) keys
      && bool_decide (as_u64 (json_index "version" value) = Some 1)
      && isSome (as_u64 (json_index "publication_version" value))
      && json_is_string (json_index "process_path" value)
      && json_is_bool (json_index "known" value)
      && match json_index "mentionable_skill_ids" value with
         | JArray ids =>
             forallb json_is_string ids
             && (match json_index "known" value with JBool true => true | _ => false end
                 || match ids with [] => true | _ => false end)
         | _ => false
         end
  | _ => false
  end.

Definition node_key (n : AgentNode) : FileKind * string :=
  match n with
  | NRoot => (Dir, "/")
  | NIoDir => (Dir, "io")
  | NMachineDir => (Dir, "machine")
  | NUiDir => (Dir, "machine/ui")
  | NCheckpointsDir => (Dir, "machine/checkpoints")
  | NRequestsDir => (Dir, "requests")
  | NActionsDir => (Dir, "actions")
  | NActionsHelp => (File, "actions/help")
  | NContextDir => (Dir, "context")
  | NChildrenDir => (Dir, "children")
  | NRequest id => (Dir, "requests/" +:+ id)
  | NAction id => (Dir, "actions/" +:+ id)
  | NRequestsClone => (Clone, "requests/clone")
  | NActionsClone => (Clone, "actions/clone")
  | NRequestsEvents => (StreamKind, "requests/events")
  | NActionsEvents => (StreamKind, "actions/events")
  | NInput => (StreamKind, "io/input")
  | NOutput => (StreamKind, "io/output")
  | NIoEvents => (StreamKind, "io/events")
  | NTape => (StreamKind, "machine/tape")
  | NEvents => (StreamKind, "events")
  | NUiEvents => (StreamKind, "machine/ui/events")
  | NStatus => (File, "machine/status")
  | NEvaluation => (File, "machine/evaluation")
  | NWork => (File, "machine/work")
  | NMachineCtl => (File, "machine/ctl")
  | NUiSkills => (File, "machine/ui/skills")
  | NUiModels => (File, "machine/ui/models")
  | NUiQueue => (File, "machine/ui/queue")
  | NUiActivity => (File, "machine/ui/activity")
  | NUiPlan => (File, "machine/ui/plan")
  | NUiThinking => (File, "machine/ui/thinking")
  | NUiNotice => (File, "machine/ui/notice")
  | NCurrentCheckpoint => (File, "machine/checkpoints/current")
  | NRequestField id field => (File, "requests/" +:+ id +:+ "/" +:+ field)
  | NActionField id field => (File, "actions/" +:+ id +:+ "/" +:+ field)
  end.

Definition node_of (f : Fid) (s : AgentState) : result ErrorCode AgentNode :=
  if bool_decide (f = ROOT) then Ok NRoot else ok_or (af_node <$> ag_fids s !! f) NotFound.

(** [match name { "a" => .., "b" => .. }] over literals *)
Fixpoint assoc {A} (name : string) (table : list (string * A)) : option A :=
  match table with
  | [] => None
  | (k, a) :: table' => if bool_decide (name = k) then Some a else assoc name table'
  end.

Definition request_fields : list string :=
  ["kind"; "prompt"; "options"; "status"; "ctl"; "response"].
Definition action_fields : list string :=
  ["name"; "status"; "output"; "result"; "approval"; "process"].

(** [State::child] *)
Definition agent_child (s : AgentState) (n : AgentNode) (name : string) : result ErrorCode AgentNode :=
  match n with
  | NRoot => ok_or (assoc name
      [("io", NIoDir); ("machine", NMachineDir); ("events", NEvents);
       ("requests", NRequestsDir); ("actions", NActionsDir); ("context", NContextDir);
       ("children", NChildrenDir)]) NotFound
  | NIoDir => ok_or (assoc name
      [("input", NInput); ("output", NOutput); ("events", NIoEvents)]) NotFound
  | NMachineDir => ok_or (assoc name
      [("tape", NTape); ("status", NStatus); ("evaluation", NEvaluation); ("work", NWork);
       ("ctl", NMachineCtl); ("ui", NUiDir); ("checkpoints", NCheckpointsDir)]) NotFound
  | NUiDir => ok_or (assoc name
      [("skills", NUiSkills); ("models", NUiModels); ("queue", NUiQueue);
       ("activity", NUiActivity); ("plan", NUiPlan); ("thinking", NUiThinking);
       ("notice", NUiNotice); ("events", NUiEvents)]) NotFound
  | NCheckpointsDir => ok_or (assoc name [("current", NCurrentCheckpoint)]) NotFound
  | NRequestsDir =>
      match assoc name [("clone", NRequestsClone); ("events", NRequestsEvents)] with
      | Some n => Ok n
      | None => if isSome (ag_requests s !! name) then Ok (NRequest name) else Err NotFound
      end
  | NRequest id =>
      if bool_decide (name ∈ request_fields) then Ok (NRequestField id name) else Err NotFound
  | NActionsDir =>
      match assoc name
        [("help", NActionsHelp); ("clone", NActionsClone); ("events", NActionsEvents)] with
      | Some n => Ok n
      | None => if isSome (ag_actions s !! name) then Ok (NAction name) else Err NotFound
      end
  | NAction id =>
      if bool_decide (name ∈ action_fields) then Ok (NActionField id name) else Err NotFound
  | NContextDir | NChildrenDir => Err NotFound
  | _ => Err NotDirectory
  end.

(** The loop of [walk] over the names *)
Fixpoint descend (s : AgentState) (n : AgentNode) (names : list string) :
    result ErrorCode AgentNode :=
  match names with
  | [] => Ok n
  | name :: names' =>
      match agent_child s n name with
      | Ok n' => descend s n' names'
      | Err e => Err e
      | Park => Park
      | Panic => Panic
      end
  end.

(** A request with one of its fields replaced, as the commit of a response
    replaces it; answering settles the request. *)
Definition commit_request_field (field value : string) (r : AgentRequest) : AgentRequest :=
  if bool_decide (field = "kind") then
    mkAgentRequest value (rq_prompt r) (rq_options r) (rq_status r) (rq_response r)
  else if bool_decide (field = "prompt") then
    mkAgentRequest (rq_kind r) value (rq_options r) (rq_status r) (rq_response r)
  else if bool_decide (field = "options") then
    mkAgentRequest (rq_kind r) (rq_prompt r) value (rq_status r) (rq_response r)
  else if bool_decide (field = "response") then
    mkAgentRequest (rq_kind r) (rq_prompt r) (rq_options r) "answered" value
  else r.

Definition commit_action_field (field value : string) (root : option ContentHash)
    (a : AgentAction) : AgentAction :=
  let '(mkAgentAction n st o ort ex re ap pr) := a in
  if bool_decide (field = "name") then mkAgentAction value st o ort ex re ap pr
  else if bool_decide (field = "status") then mkAgentAction n value o ort ex re ap pr
  else if bool_decide (field = "output") then mkAgentAction n st value root false re ap pr
  else if bool_decide (field = "result") then mkAgentAction n st o ort ex value ap pr
  else if bool_decide (field = "approval") then mkAgentAction n st o ort ex re value pr
  else if bool_decide (field = "process") then mkAgentAction n st o ort ex re ap value
  else a.

(** [if let Some(a) = state.actions.get_mut(id) { .. }] *)
Definition alter_action (id : string) (g : AgentAction → AgentAction)
    (m : gmap string AgentAction) : gmap string AgentAction :=
  match m !! id with Some a => <[id := g a]> m | None => m end.

(** The fids of [s] with that of [f] changed, [get_mut(&fid)] *)
Definition update_fid (f : Fid) (g : AgentFid → AgentFid) : Op AgentState unit :=
  s ← mget;
  x ← mlift (ag_fids s !! f) NotFound;
  mmodify (set_ag_fids (<[f := g x]> (ag_fids s))).

(** [stream.append(data)] of a handle *)
Definition agent_append (h : StreamHandle) (d : bytes) : Op AgentState unit :=
  mmodify (λ s, set_agent_streams (stream_append h d (streams s)) s).
Definition append_text (h : StreamHandle) (text : string) : Op AgentState unit :=
  agent_append h (into_bytes text).

(** A call of the store, its error mapped *)
Definition on_knowledge {A} (m : K A) : Op AgentState A := λ s,
  let '(k, r) := m (knowledge s) in (set_knowledge k s, map_err agent_map_knowledge_error r).

Section agentfs.
Context (sha256_hex : bytes → string) (node_json : DagNodeV1 → bytes).
Context (values : gmap string BoundRoot → list BoundRoot).
(** [DefaultHasher] over a string key *)
Context (hash_key : string → Z).
(** [serde_json::from_str::<Value>] and [Value::to_string] *)
Context (parse_json : string → option Json) (print_json : Json → string).

Definition skill_projection (value : string) : string :=
  match parse_json value with
  | Some j => if skills_safe j then print_json j else UNKNOWN_SKILLS
  | None => UNKNOWN_SKILLS
  end.

Definition agent_node_identity (n : AgentNode) : FileKind * Z :=
  let '(kind, key) := node_key n in (kind, hash_key key).
Definition qid_v0 (n : AgentNode) : Qid :=
  let '(kind, path) := agent_node_identity n in mkQid kind 0 path.
Definition agent_qid (n : AgentNode) (s : AgentState) : Qid :=
  let '(kind, path) := agent_node_identity n in
  mkQid kind (VersionTable.get (ag_versions s) path) path.
Definition agent_bump (n : AgentNode) : Op AgentState unit :=
  mmodify (λ s, set_ag_versions (VersionTable.bump (ag_versions s) (agent_node_identity n).2) s).

(** ** The state's own operations *)

Definition materialized_tape (s : AgentState) : result ErrorCode bytes :=
  match root TAPE_ROOT_NAME (knowledge s) with
  | Ok r => map_err agent_map_knowledge_error (read_bound_root sha256_hex node_json r (knowledge s))
  | Err e => Err (agent_map_knowledge_error e)
  | Park => Park
  | Panic => Panic
  end.

Definition append_tape_block (data : bytes) : Op AgentState unit :=
  s ← mget;
  r ← on_knowledge (fork_append_bytes sha256_hex node_json (tape_root s) [data]);
  on_knowledge (bind_root TAPE_ROOT_NAME r RootReadWrite);;
  mmodify (set_tape_root r);;
  agent_bump NCurrentCheckpoint.

Definition store_action_output (id : string) (b : bytes) : Op AgentState ContentHash :=
  r ← on_knowledge (checkpoint_from_bytes sha256_hex node_json [b]);
  on_knowledge (bind_root (action_output_root_name id) r RootReadWrite);;
  mret r.

(** [State::computed_bytes] *)
Definition computed_bytes (n : AgentNode) (s : AgentState) : result ErrorCode bytes :=
  let text l := Ok (into_bytes (join nl l)) in
  match n with
  | NRoot => text ["io"; "machine"; "events"; "requests"; "actions"; "context"; "children"]
  | NContextDir | NChildrenDir => Ok []
  | NIoDir => text ["input"; "output"; "events"]
  | NMachineDir =>
      text ["tape"; "status"; "evaluation"; "work"; "ctl"; "ui"; "checkpoints"]
  | NUiDir =>
      text ["activity"; "plan"; "thinking"; "notice"; "events"; "queue"; "models"; "skills"]
  | NCheckpointsDir => Ok (into_bytes "current")
  | NCurrentCheckpoint => Ok (into_bytes (tape_root s +:+ nl))
  | NStatus => Ok (into_bytes (ag_status s))
  | NEvaluation => Ok (evaluation s)
  | NWork => Ok (work s)
  | NUiSkills => Ok (into_bytes (ui_skills (ui s)))
  | NUiModels => Ok (into_bytes (ui_models (ui s)))
  | NUiQueue => Ok (into_bytes (ui_queue (ui s)))
  | NUiActivity => Ok (into_bytes (ui_activity (ui s)))
  | NUiPlan => Ok (into_bytes (ui_plan (ui s)))
  | NUiThinking => Ok (into_bytes (ui_thinking (ui s)))
  | NUiNotice => Ok (into_bytes (ui_notice (ui s)))
  | NMachineCtl => Ok (into_bytes MACHINE_CTL_HELP)
  | NRequestsDir => Ok (agent_listing ["clone"; "events"] (sorted_keys (ag_requests s)))
  | NActionsDir => Ok (agent_listing ["clone"; "events"; "help"] (sorted_keys (ag_actions s)))
  | NActionsHelp => Ok (into_bytes ACTIONS_HELP)
  | NRequest _ => text ["kind"; "prompt"; "options"; "status"; "response"; "ctl"]
  | NAction _ => text action_fields
  | NRequestField id field =>
      match ag_requests s !! id with
      | None => Err NotFound
      | Some r =>
          Ok (into_bytes
            (if bool_decide (field = "ctl") then "cancel" +:+ nl
             else default (rq_response r) (assoc field
               [("kind", rq_kind r); ("prompt", rq_prompt r); ("options", rq_options r);
                ("status", rq_status r)])))
      end
  | NActionField id field =>
      match ag_actions s !! id with
      | None => Err NotFound
      | Some a =>
          match assoc field
            [("name", ac_name a); ("status", ac_status a); ("result", ac_result a);
             ("approval", ac_approval a); ("process", ac_process a)] with
          | Some text => Ok (into_bytes text)
          | None =>
              if negb (bool_decide (field = "output")) then Err NotFound
              else if output_retention_expired a then Ok (into_bytes (ac_output a))
              else if isSome (output_root a) then
                match root (action_output_root_name id) (knowledge s) with
                | Ok r => map_err agent_map_knowledge_error
                            (read_bound_root sha256_hex node_json r (knowledge s))
                | Err e => Err (agent_map_knowledge_error e)
                | Park => Park
                | Panic => Panic
                end
              else Ok (into_bytes (ac_output a))
          end
      end
  | NInput | NOutput | NIoEvents | NTape | NEvents | NUiEvents | NRequestsEvents
  | NActionsEvents | NRequestsClone | NActionsClone => Err Unsupported
  end.

(** [State::cancel_request] and [write_request_control] *)
Definition cancel_request (id : string) : Op AgentState unit :=
  s ← mget;
  r ← mlift (ag_requests s !! id) NotFound;
  if bool_decide (rq_status r = "pending") then
    mmodify (λ s, set_requests (<[id := mkAgentRequest (rq_kind r) (rq_prompt r) (rq_options r)
                                          "cancelled" (rq_response r)]> (ag_requests s)) s);;
    agent_bump (NRequestField id "status");;
    append_text HRequestEvents (id +:+ ":status" +:+ nl);;
    append_text HEvents ("request:" +:+ id +:+ nl)
  else if negb (is_terminal (rq_status r)) then mfail BadRequest
  else mret tt.

Definition write_request_control (id : string) (offset : Offset) (data : bytes) :
    Op AgentState Z :=
  if negb (offset =? 0) || negb (bool_decide (data = into_bytes "cancel")) then mfail BadRequest
  else cancel_request id;; mret (as_u32 (len data)).

(** ** Operations of the owning runtime *)

(** [initial_tape_knowledge] *)
Definition initial_tape_knowledge : K ContentHash :=
  r ← checkpoint_from_blocks sha256_hex node_json [];
  bind_root TAPE_ROOT_NAME r RootReadWrite;;
  mret r.

(** [AgentFs::new]; the two [expect]s of [initial_tape_knowledge] hold, so the
    root is the one it returns. *)
Definition agent_new : AgentState :=
  let '(k, r) := initial_tape_knowledge kstore_new in
  mkAgentState
    (mkAgentStreams Stream.new Stream.new Stream.new Stream.new Stream.new Stream.new
       Stream.new Stream.new)
    k (match r with Ok h => h | _ => "" end) ∅ ∅ "running"
    (into_bytes (dq "{'observation':null,'version':1}"))
    (into_bytes (dq "{'version':1,'work':null}"))
    (mkAgentUi UNKNOWN_SKILLS
       (dq "{'version':1,'publication_version':0,'process_path':'','known':false,'catalog':null,'selected_next':null,'active':null,'admitted':[]}")
       (dq "{'version':1,'revision':0,'known':false,'pending_submission_ids':[],'active_submission_ids':[],'paused':false,'deferred':false,'uncertain_submission_ids':[]}")
       DEFAULT_UI_ACTIVITY DEFAULT_UI_PLAN DEFAULT_UI_THINKING DEFAULT_UI_NOTICE)
    0 0 None VersionTable.new ∅ false.

Definition set_retention_recorder : Op AgentState unit := mmodify (set_retention true).
Definition current_tape_checkpoint (s : AgentState) : ContentHash := tape_root s.
Definition verify_tape_checkpoint (s : AgentState) : result ErrorCode unit :=
  map_err agent_map_knowledge_error
    (verify_root_hash sha256_hex node_json (tape_root s) (knowledge s)).

(** [outcome] is what the retention recorder answers. *)
Definition expire_action_output_for_retention (id cause : string)
    (outcome : result ErrorCode unit) : Op AgentState unit :=
  s ← mget;
  if negb (isSome (ag_actions s !! id)) then mfail NotFound
  else
    (if retention_recorder s then mresult outcome else mret tt);;
    on_knowledge (unbind_root (action_output_root_name id));;
    on_knowledge (collect_garbage values CollectUnreachable);;
    s ← mget;
    a ← mlift (ag_actions s !! id) NotFound;
    mmodify (λ s, set_actions (<[id := mkAgentAction (ac_name a) (ac_status a)
      (retention_expired_record ("/actions/" +:+ id +:+ "/output") cause) None true
      (ac_result a) (ac_approval a) (ac_process a)]> (ag_actions s)) s);;
    agent_bump (NActionField id "output").

Definition append_child_event (child_pid : string) : Op AgentState unit :=
  append_text HEvents ("child:" +:+ child_pid +:+ nl).
Definition append_output_event (count : Z) : Op AgentState unit :=
  append_text HIoEvents ("output:" +:+ dec_string_Z count +:+ nl);;
  append_text HEvents ("output:" +:+ dec_string_Z count +:+ nl).
Definition append_input_event (count : Z) : Op AgentState unit :=
  append_text HIoEvents ("input:" +:+ dec_string_Z count +:+ nl);;
  append_text HEvents ("input:" +:+ dec_string_Z count +:+ nl).
Definition append_status_event (status : string) : Op AgentState unit :=
  append_text HEvents ("status:" +:+ status +:+ nl).

(** serde_json's maps are ordered by key. *)
Definition publish_evaluation_observation (observation : option Json) : Op AgentState unit :=
  if match observation with Some j => negb (json_is_object j) | None => false end
  then mfail BadRequest
  else
    let b := into_bytes (print_json (JObject
               [("observation", default JNull observation); ("version", JNumber "1")])) in
    if AGENT_MAX_DOC_BYTES <? len b then mfail BadRequest
    else
      s ← mget;
      if bool_decide (evaluation s ≠ b) then
        mmodify (set_evaluation b);; agent_bump NEvaluation;; append_text HEvents ("evaluation" +:+ nl)
      else mret tt.

Definition publish_work (w : option Json) : Op AgentState unit :=
  if match w with Some j => negb (json_is_object j) | None => false end
  then mfail BadRequest
  else
    let b := into_bytes (print_json (JObject
               [("version", JNumber "1"); ("work", default JNull w)])) in
    if AGENT_MAX_DOC_BYTES <? len b then mfail BadRequest
    else
      s ← mget;
      if bool_decide (work s ≠ b) then
        mmodify (set_work b);; agent_bump NWork;; append_text HEvents ("work" +:+ nl)
      else mret tt.

Definition request_id (n : Z) : string := "r" +:+ dec_string_Z n.
Definition action_id (n : Z) : string := "a" +:+ dec_string_Z n.

(** [id.strip_prefix('r')..parse().ok().filter(|n| *n < u64::MAX)] *)
Definition request_index (id : string) : option Z :=
  match strip_prefix "r" id with
  | Some digits =>
      match parse_u64 digits with
      | Some n => if n <? u64_size - 1 then Some n else None
      | None => None
      end
  | None => None
  end.

Definition restore_pending_request (id kind prompt options : string) : Op AgentState unit :=
  index ← mlift (request_index id) BadRequest;
  if negb (bool_decide (id = request_id index)) || bool_decide (kind = "")
     || existsb (λ v, AGENT_MAX_DOC_BYTES <? len (into_bytes v)) [kind; prompt; options]
  then mfail BadRequest
  else
    s ← mget;
    match ag_requests s !! id with
    | Some r =>
        if negb (bool_decide (rq_kind r = kind)) || negb (bool_decide (rq_prompt r = prompt))
           || negb (bool_decide (rq_options r = options))
        then mfail BadRequest else mret tt
    | None =>
        mmodify (λ s, set_counters (Z.max (next_request s) (index + 1)) (next_action s) s);;
        mmodify (λ s, set_requests
          (<[id := mkAgentRequest kind prompt options "pending" ""]> (ag_requests s)) s);;
        agent_bump NRequestsDir;;
        append_text HRequestEvents ("created:" +:+ id +:+ nl);;
        append_text HEvents ("request:" +:+ id +:+ nl)
    end.

(** ** The file server *)

Definition agent_walk (f newfid : Fid) (names : list string) : Op AgentState Qid :=
  s ← mget;
  if bool_decide (newfid = ROOT) || isSome (ag_fids s !! newfid) then mfail BadRequest
  else
    start ← mresult (node_of f s);
    n ← mresult (descend s start names);
    mmodify (set_ag_fids (<[newfid := agent_fid_at n]> (ag_fids s)));;
    mret (agent_qid n s).

(** The allocation of [open] on a clone file *)
Definition clone_request : Op AgentState string :=
  s ← mget;
  let id := request_id (next_request s) in
  mmodify (λ s, set_counters (wrapping_add64 (next_request s) 1) (next_action s) s);;
  mmodify (λ s, set_requests (<[id := mkAgentRequest "" "" "" "pending" ""]> (ag_requests s)) s);;
  append_text HRequestEvents ("created:" +:+ id +:+ nl);;
  append_text HEvents ("request:" +:+ id +:+ nl);;
  agent_bump NRequestsDir;;
  mret id.
Definition clone_action : Op AgentState string :=
  s ← mget;
  let id := action_id (next_action s) in
  mmodify (λ s, set_counters (next_request s) (next_action s + 1) s);;
  mmodify (λ s, set_actions
    (<[id := mkAgentAction "" "running" "" None false "" "" ""]> (ag_actions s)) s);;
  append_text HActionEvents ("created:" +:+ id +:+ nl);;
  append_text HEvents ("action:" +:+ id +:+ nl);;
  agent_bump NActionsDir;;
  mret id.

(** The documents whose [ReadWrite] open starts from their current bytes *)
Definition has_base (n : AgentNode) : bool :=
  match n with
  | NUiModels | NUiQueue | NUiActivity | NUiPlan | NUiThinking | NUiSkills | NUiNotice
  | NRequestField _ _ | NActionField _ _ => true
  | _ => false
  end.

Definition agent_open (f : Fid) (m : OpenMode) : Op AgentState Qid :=
  if bool_decide (f = ROOT) then
    if mode_writes m then mfail NoAccess else mret (qid_v0 NRoot)
  else
    s ← mget;
    if isSome (ag_fids s !! f ≫= af_mode) then mfail BadRequest else
    n ← mresult (node_of f s);
    if mode_writes m && negb (agent_is_writable n) then mfail NoAccess else
    let is_tape_write := bool_decide (n = NTape) && mode_writes m in
    if is_tape_write && isSome (tape_writer s) then mfail NoAccess else
    if (bool_decide (n = NRequestsClone) || bool_decide (n = NActionsClone))
       && negb (bool_decide (m = ReadWrite)) then mfail NoAccess else
    cid ← (match n with
           | NRequestsClone => id ← clone_request; mret (Some id)
           | NActionsClone => id ← clone_action; mret (Some id)
           | _ => mret None
           end);
    s ← mget;
    base ← (if bool_decide (m = ReadWrite) && has_base n then
              b ← mresult (computed_bytes n s); mret (Some b)
            else mret None);
    update_fid f (λ x, mkAgentFid (af_node x) (Some m) cid (default (write_buf x) base)
                         (read_snapshot x) (wrote x));;
    (if is_tape_write then mmodify (set_tape_writer (Some f)) else mret tt);;
    s ← mget;
    mret (agent_qid n s).

Definition agent_read (f : Fid) (offset : Offset) (count : Z) : Op AgentState bytes :=
  s ← mget;
  (if bool_decide (f = ROOT) then mret tt
   else
     x ← mlift (ag_fids s !! f) NotFound;
     if opened_for_read (af_mode x) then mret tt else mfail NoAccess);;
  n ← mresult (node_of f s);
  snapshot ← (if bool_decide (n = NTape) then b ← mresult (materialized_tape s); mret (Some b)
              else mret None);
  match ag_fids s !! f ≫= clone_id with
  | Some id => mret (slice (into_bytes id) offset count)
  | None =>
      match snapshot, agent_stream_for n with
      | Some b, Some h =>
          if offset <? len b then mret (slice b offset count)
          else mresult (Stream.read (stream_get h (streams s)) offset count)
      | _, Some h => mresult (Stream.read (stream_get h (streams s)) offset count)
      | _, None =>
          if bool_decide (f = ROOT) then
            b ← mresult (computed_bytes n s); mret (slice b offset count)
          else
            (if (offset =? 0) || negb (isSome (ag_fids s !! f ≫= read_snapshot)) then
               b ← mresult (computed_bytes n s);
               update_fid f (λ x, mkAgentFid (af_node x) (af_mode x) (clone_id x) (write_buf x)
                                    (Some b) (wrote x))
             else mret tt);;
            s ← mget;
            x ← mlift (ag_fids s !! f) NotFound;
            b ← mindex (read_snapshot x);
            mret (slice b offset count)
      end
  end.

(** The record a stream write announces *)
Definition stream_record (n : AgentNode) (data : bytes) : string :=
  (match n with NOutput => "output:" | NUiEvents => "ui:events:" | _ => "tape:" end)
  +:+ dec_string_Z (len data) +:+ nl.

(** [machine/ctl]: one command per write *)
Definition ctl_command (data : bytes) : option string :=
  if bool_decide (data = []) || (64 * 1024 <? len data) || bool_decide (newline ∈ data)
     || bool_decide (x0d ∈ data) || bool_decide (x00 ∈ data) then None
  else from_utf8 data.

(** The buffered write of a document *)
Definition agent_buffer (f : Fid) (n : AgentNode) (offset : Offset) (data : bytes) :
    Op AgentState Z :=
  start ← mlift (usize_try_from offset) BadRequest;
  stop ← mlift (checked_add64 start (len data)) BadRequest;
  let max_bytes := match n with
                   | NActionField _ field =>
                       if bool_decide (field = "output") then MAX_ACTION_OUTPUT_BYTES
                       else AGENT_MAX_DOC_BYTES
                   | _ => AGENT_MAX_DOC_BYTES
                   end in
  if max_bytes <? stop then
    (if bool_decide (n = NUiSkills) then
       update_fid f (λ x, mkAgentFid (af_node x) (af_mode x) (clone_id x)
                            (into_bytes UNKNOWN_SKILLS) (read_snapshot x) true)
     else mret tt);;
    mfail BadRequest
  else
    update_fid f (λ x, mkAgentFid (af_node x) (af_mode x) (clone_id x)
                         (splice (write_buf x) start data) (read_snapshot x) true);;
    mret (as_u32 (len data)).

(** A write through a fid with write access to the file [n] *)
Definition write_node (f : Fid) (n : AgentNode) (offset : Offset) (data : bytes) :
    Op AgentState Z :=
  match n with
  | NOutput =>
      agent_append HOutput data;;
      append_text HIoEvents (stream_record n data);;
      append_text HEvents (stream_record n data);;
      mret (as_u32 (len data))
  | NTape =>
      append_tape_block data;;
      agent_append HTape data;;
      append_text HEvents (stream_record n data);;
      mret (as_u32 (len data))
  | NUiEvents =>
      agent_append HUiEvents data;;
      append_text HEvents (stream_record n data);;
      mret (as_u32 (len data))
  | NMachineCtl =>
      cmd ← mlift (ctl_command data) BadRequest;
      append_text HEvents ("ctl:" +:+ cmd +:+ nl);;
      mret (as_u32 (len data))
  | NRequestField id field =>
      if bool_decide (field = "ctl") then write_request_control id offset data
      else agent_buffer f n offset data
  | NInput | NUiModels | NUiQueue | NUiActivity | NUiPlan | NUiThinking | NUiSkills
  | NUiNotice | NActionField _ _ => agent_buffer f n offset data
  | _ => mfail Unsupported
  end.

Definition agent_write (f : Fid) (offset : Offset) (data : bytes) : Op AgentState Z :=
  s ← mget;
  n ← mresult (node_of f s);
  if negb (opened_for_write (ag_fids s !! f ≫= af_mode)) then mfail NoAccess
  else write_node f n offset data.

Definition agent_stat (f : Fid) : Op AgentState Stat :=
  s ← mget;
  n ← mresult (node_of f s);
  length ← (match agent_stream_for n with
            | Some HTape => b ← mresult (materialized_tape s); mret (len b)
            | Some h => mret (Stream.length (stream_get h (streams s)))
            | None => mret (match computed_bytes n s with Ok b => len b | _ => 0 end)
            end);
  mret (mkStat "" (agent_qid n s) length false (agent_is_writable n)).

Definition agent_create (f newfid : Fid) (name : string) (k : FileKind) : Op AgentState Qid :=
  mfail Unsupported.
Definition agent_remove (f : Fid) : Op AgentState unit := mfail Unsupported.

(** The frame of a message in [io/input]: its length, a newline, its bytes *)
Definition input_frame (b : bytes) : bytes := into_bytes (dec_string_Z (len b) +:+ nl) ++ b.

Definition commit_input (b : bytes) : Op AgentState unit :=
  agent_append HInput (input_frame b);;
  append_text HIoEvents ("input:" +:+ dec_string_Z (len b) +:+ nl);;
  append_text HEvents ("input:" +:+ dec_string_Z (len b) +:+ nl).

Definition commit_request (id field : string) (b : bytes) : Op AgentState unit :=
  value ← mlift (from_utf8 b) BadRequest;
  s ← mget;
  (match ag_requests s !! id with
   | Some r =>
       if is_terminal (rq_status r) then mfail NoAccess
       else mmodify (λ s, set_requests
              (<[id := commit_request_field field value r]> (ag_requests s)) s)
   | None => mret tt
   end);;
  agent_bump (NRequestField id field);;
  (if bool_decide (field = "response") then agent_bump (NRequestField id "status") else mret tt);;
  append_text HRequestEvents (id +:+ ":" +:+ field +:+ nl);;
  append_text HEvents ("request:" +:+ id +:+ nl).

Definition commit_action (id field : string) (b : bytes) : Op AgentState unit :=
  value ← mlift (from_utf8 b) BadRequest;
  s ← mget;
  root ← (if bool_decide (field = "output") then
            if match ag_actions s !! id with
               | Some a => isSome (output_root a) || output_retention_expired a
               | None => false
               end then mfail NoAccess
            else h ← store_action_output id (into_bytes value); mret (Some h)
          else mret None);
  mmodify (λ s, set_actions
    (alter_action id (commit_action_field field value root) (ag_actions s)) s);;
  agent_bump (NActionField id field);;
  append_text HActionEvents (id +:+ ":" +:+ field +:+ nl);;
  append_text HEvents ("action:" +:+ id +:+ nl).

(** The renderer documents: the new documents and the record announced *)
Definition ui_commit (n : AgentNode) (value : string) (u : AgentUi) : option (AgentUi * string) :=
  let '(mkAgentUi sk mo qu ac pl th no) := u in
  match n with
  | NUiSkills => Some (mkAgentUi (skill_projection value) mo qu ac pl th no, "ui:skills")
  | NUiModels => Some (mkAgentUi sk value qu ac pl th no, "ui:models")
  | NUiQueue => Some (mkAgentUi sk mo value ac pl th no, "ui:queue")
  | NUiActivity => Some (mkAgentUi sk mo qu value pl th no, "ui:activity")
  | NUiPlan => Some (mkAgentUi sk mo qu ac value th no, "ui:plan")
  | NUiThinking => Some (mkAgentUi sk mo qu ac pl value no, "ui:thinking")
  | NUiNotice => Some (mkAgentUi sk mo qu ac pl th value, "ui:notice")
  | _ => None
  end.

Definition is_ui_document (n : AgentNode) : bool :=
  match n with
  | NUiModels | NUiQueue | NUiActivity | NUiPlan | NUiThinking | NUiSkills | NUiNotice => true
  | _ => false
  end.

Definition commit_ui (n : AgentNode) (b : bytes) : Op AgentState unit :=
  value ← (if bool_decide (n = NUiSkills) then mret (default "" (from_utf8 b))
           else mlift (from_utf8 b) BadRequest);
  s ← mget;
  match ui_commit n value (ui s) with
  | Some (u, record) =>
      mmodify (set_ui u);;
      agent_bump n;;
      append_text HEvents (record +:+ nl)
  | None => mret tt
  end.

(** The commit of a buffered write *)
Definition clunk_commit (x : AgentFid) : Op AgentState unit :=
  if negb (wrote x) then mret tt
  else
    match af_node x with
    | NInput => commit_input (write_buf x)
    | NRequestField id field => commit_request id field (write_buf x)
    | NActionField id field => commit_action id field (write_buf x)
    | n => if is_ui_document n then commit_ui n (write_buf x) else mret tt
    end.

Definition agent_clunk (f : Fid) : Op AgentState unit :=
  if bool_decide (f = ROOT) then mret tt
  else
    s ← mget;
    x ← mlift (ag_fids s !! f) NotFound;
    mmodify (set_ag_fids (delete f (ag_fids s)));;
    (if bool_decide (tape_writer s = Some f) then mmodify (set_tape_writer None) else mret tt);;
    clunk_commit x.

Definition AgentFs_FileServer : FileServer AgentState :=
  {| fs_walk := agent_walk; fs_open := agent_open; fs_read := agent_read;
     fs_write := agent_write; fs_stat := agent_stat; fs_create := agent_create;
     fs_remove := agent_remove; fs_clunk := agent_clunk |}.
End agentfs.
