(* ===== verification/AgentFsFacts.v ===== *)
(** * Facts of the agent file server

    Requests settle once, the tape has one writer and its checkpoint is the tape,
    and the output_recorded output of an action reads back until its retention ends. *)
From S2P Require Import Prelude RustStd ApTypes ApServer Knowledge KnowledgeFacts KnowledgeGc RustText AgentFs.

(** ** Events of a server: requests of clients and calls of the owning runtime *)

Inductive agent_event : Type :=
  | ACall (req : Request)
  | AExpire (id cause : string) (outcome : result ErrorCode unit)
  | AChild (pid : string)
  | AOutput (count : Z)
  | AInput (count : Z)
  | AStatus (status : string)
  | AEvaluation (observation : option Json)
  | AWork (w : option Json)
  | ARestore (id kind prompt options : string)
  | ARecorder.

Lemma run_ok {S E A B} (a : A) (f : A → M S E B) s : (mresult (Ok a) ≫= f) s = f a s.
Proof. done. Qed.
Lemma run_bind {S E A B} (m : M S E A) (f : A → M S E B) s :
  (m ≫= f) s = match m s with
               | (s', Ok a) => f a s'
               | (s', Err e) => (s', Err e)
               | (s', Park) => (s', Park)
               | (s', Panic) => (s', Panic)
               end.
Proof. done. Qed.
Lemma run_ret_state {S E A B} (m : M S E A) (b : A → B) s :
  ((a ← m; mret (b a)) s).1 = (m s).1.
Proof. unfold mbind, m_bind. by destruct (m s) as [s' []]. Qed.

(** Walk through an operation whose updates satisfy a relation by reflexivity. *)
Ltac fsteps :=
  repeat first [ apply step_modify; intros ?; solve [reflexivity | done] | progress msteps ].

Lemma parse_u64_nonneg t z : parse_u64 t = Some z → 0 ≤ z.
Proof.
  unfold parse_u64. intros H. repeat (case_match; simplify_eq/=); lia.
Qed.

Section agent_facts.
Context (sha256_hex : bytes → string) (node_json : DagNodeV1 → bytes).
Context (values : gmap string BoundRoot → list BoundRoot) (hash_key : string → Z).
Context (parse_json : string → option Json) (print_json : Json → string).

#[local] Instance agent_server : FileServer AgentState :=
  AgentFs_FileServer sha256_hex node_json hash_key parse_json print_json.

(** The outcome of an event, the response of a call left out *)
Definition agent_step (e : agent_event) : Op AgentState unit :=
  match e with
  | ACall req => transport_call req;; mret tt
  | AExpire id cause o =>
      expire_action_output_for_retention values hash_key id cause o
  | AChild pid => append_child_event pid
  | AOutput n => append_output_event n
  | AInput n => append_input_event n
  | AStatus st => append_status_event st
  | AEvaluation o => publish_evaluation_observation hash_key print_json o
  | AWork w => publish_work hash_key print_json w
  | ARestore id k p o => restore_pending_request hash_key id k p o
  | ARecorder => set_retention_recorder
  end.

Definition agent_run : AgentState → list agent_event → AgentState :=
  foldl (λ s e, (agent_step e s).1).

(** A relation every event satisfies relates the ends of a run. *)
Lemma run_rel (R : relation AgentState) `{!PreOrder R} s es :
  (∀ e, step_rel R (agent_step e)) → R s (agent_run s es).
Proof.
  intros HR. revert s. induction es as [|e es IH]; intros s; simpl; [reflexivity|].
  etrans; [apply HR|apply IH].
Qed.

(** ** Frames: which operations leave which fields alone *)

Definition agent_same_requests (s s' : AgentState) : Prop :=
  ag_requests s' = ag_requests s ∧ next_request s' = next_request s.
Global Instance agent_same_requests_preorder : PreOrder agent_same_requests.
Proof. split; [done|]. intros x y z [] []. split; congruence. Qed.

Lemma on_knowledge_requests {A} (m : K A) : step_rel agent_same_requests (on_knowledge m).
Proof. intros s. unfold on_knowledge. by destruct (m (knowledge s)). Qed.
Lemma append_to_requests h d : step_rel agent_same_requests (agent_append h d).
Proof. unfold agent_append. fsteps. Qed.
Lemma append_text_requests h d : step_rel agent_same_requests (append_text h d).
Proof. apply append_to_requests. Qed.
Lemma bump_requests n : step_rel agent_same_requests (agent_bump hash_key n).
Proof. unfold agent_bump. fsteps. Qed.
Lemma update_fid_requests f g : step_rel agent_same_requests (update_fid f g).
Proof. unfold update_fid. fsteps. Qed.
#[local] Hint Resolve on_knowledge_requests append_to_requests append_text_requests bump_requests
  update_fid_requests : alan.

Lemma walk_requests f nf names : step_rel agent_same_requests (agent_walk hash_key f nf names).
Proof. unfold agent_walk. fsteps. Qed.
Lemma read_requests f o c : step_rel agent_same_requests (agent_read sha256_hex node_json f o c).
Proof. unfold agent_read. fsteps. Qed.
Lemma stat_requests f : step_rel agent_same_requests (agent_stat sha256_hex node_json hash_key f).
Proof. unfold agent_stat. fsteps. Qed.
Lemma clone_action_requests : step_rel agent_same_requests (clone_action hash_key).
Proof. unfold clone_action. fsteps. Qed.
Lemma buffer_requests f n o d : step_rel agent_same_requests (agent_buffer f n o d).
Proof. unfold agent_buffer. fsteps. Qed.
Lemma tape_block_requests d :
  step_rel agent_same_requests (append_tape_block sha256_hex node_json hash_key d).
Proof. unfold append_tape_block. fsteps. Qed.
Lemma commit_input_requests b : step_rel agent_same_requests (commit_input b).
Proof. unfold commit_input. fsteps. Qed.
Lemma commit_action_requests id field b :
  step_rel agent_same_requests (commit_action sha256_hex node_json hash_key id field b).
Proof. unfold commit_action, store_action_output. fsteps. Qed.
Lemma commit_ui_requests n b : step_rel agent_same_requests (commit_ui hash_key parse_json print_json n b).
Proof. unfold commit_ui. fsteps. Qed.
Lemma expire_requests id c o :
  step_rel agent_same_requests (expire_action_output_for_retention values hash_key id c o).
Proof. unfold expire_action_output_for_retention. fsteps. Qed.
Lemma evaluation_requests o :
  step_rel agent_same_requests (publish_evaluation_observation hash_key print_json o).
Proof. unfold publish_evaluation_observation. fsteps. Qed.
Lemma work_requests o : step_rel agent_same_requests (publish_work hash_key print_json o).
Proof. unfold publish_work. fsteps. Qed.
#[local] Hint Resolve walk_requests read_requests stat_requests clone_action_requests
  buffer_requests tape_block_requests commit_input_requests commit_action_requests
  commit_ui_requests expire_requests evaluation_requests work_requests : alan.

(** ** Requests settle once *)

(** Requests are numbered below the next number and are pending or settled. *)
Definition request_inv (s : AgentState) : Prop :=
  0 ≤ next_request s ∧
  ∀ id r, ag_requests s !! id = Some r →
    (∃ n, 0 ≤ n < next_request s ∧ id = request_id n) ∧
    (rq_status r = "pending" ∨ is_terminal (rq_status r) = true).

(** What may happen to a request: it is kept, and left alone once settled. *)
Definition requests_kept (s s' : AgentState) : Prop :=
  ∀ id r, ag_requests s !! id = Some r →
    ∃ r', ag_requests s' !! id = Some r' ∧ (is_terminal (rq_status r) = true → r' = r).

Definition settles (s s' : AgentState) : Prop :=
  request_inv s → request_inv s' ∧ requests_kept s s'.
Global Instance settles_preorder : PreOrder settles.
Proof.
  split.
  - intros s Hs. split; [done|]. intros id r Hr. eauto.
  - intros x y z Hxy Hyz Hx. destruct (Hxy Hx) as [Hy Kxy]. destruct (Hyz Hy) as [Hz Kyz].
    split; [done|]. intros id r Hr. destruct (Kxy _ _ Hr) as (r1 & Hr1 & E1).
    destruct (Kyz _ _ Hr1) as (r2 & Hr2 & E2). exists r2. split; [done|].
    intros Ht. specialize (E1 Ht). subst. auto.
Qed.

Lemma same_settles s s' : agent_same_requests s s' → settles s s'.
Proof.
  intros [Hr Hn] [H0 Hi]. split.
  - split; [by rewrite Hn|]. rewrite Hr, Hn. done.
  - intros id r. rewrite Hr. eauto.
Qed.
Lemma same_settles_op {A} (m : Op AgentState A) :
  step_rel agent_same_requests m → step_rel settles m.
Proof. intros Hm s. apply same_settles, Hm. Qed.

Lemma request_id_inj n m : 0 ≤ n → 0 ≤ m → request_id n = request_id m → n = m.
Proof.
  intros Hn Hm H. apply (inj (String.append "r")) in H. by apply dec_string_Z_inj in H.
Qed.

(** Operations that only add requests *)
Definition adds (s s' : AgentState) : Prop :=
  request_inv s → request_inv s' ∧
  ∀ id r, ag_requests s !! id = Some r → ag_requests s' !! id = Some r.
Global Instance adds_preorder : PreOrder adds.
Proof.
  split; [done|]. intros x y z Hxy Hyz Hx. destruct (Hxy Hx) as [Hy Kxy].
  destruct (Hyz Hy) as [Hz Kyz]. split; auto.
Qed.
Lemma same_adds s s' : agent_same_requests s s' → adds s s'.
Proof. intros [Hr Hn] [H0 Hi]. unfold request_inv. rewrite Hr, Hn. done. Qed.
Lemma same_adds_op {A} (m : Op AgentState A) : step_rel agent_same_requests m → step_rel adds m.
Proof. intros Hm s. apply same_adds, Hm. Qed.
Lemma adds_settles_op {A} (m : Op AgentState A) : step_rel adds m → step_rel settles m.
Proof. intros Hm s Hs. destruct (Hm s Hs) as [? Hk]. split; [done|]. intros id r Hr. eauto. Qed.

(** Adding a request under an unused number, and changing one that is pending *)
Lemma adds_new s n c r :
  (request_inv s → ag_requests s !! request_id n = None ∧ 0 ≤ n < c ∧ next_request s ≤ c) →
  rq_status r = "pending" →
  adds s (set_requests (<[request_id n := r]> (ag_requests s))
            (set_counters c (next_action s) s)).
Proof.
  intros Hn Hr Hinv. destruct (Hn Hinv) as (Hfresh & Hc & Hle). destruct Hinv as [H0 Hi].
  split; [split; simpl; [lia|]|].
  - intros id r'. rewrite lookup_insert_Some. intros [[<- <-]|[_ Hl]].
    + split; [exists n; split; [lia|done]|by left].
    + destruct (Hi _ _ Hl) as [(m & Hm & ->) Hst]. split; [|done]. exists m. split; [lia|done].
  - intros id r' Hl. simpl. rewrite lookup_insert_ne; [done|]. intros <-. congruence.
Qed.
Lemma next_request_fresh s :
  request_inv s → ag_requests s !! request_id (next_request s) = None.
Proof.
  intros [H0 Hi]. destruct (ag_requests s !! request_id _) as [r0|] eqn:E; [|done].
  destruct (Hi _ _ E) as [(m & Hm & Heq) _]. apply request_id_inj in Heq; lia.
Qed.

Lemma settles_change s id r r' :
  ag_requests s !! id = Some r → is_terminal (rq_status r) = false →
  rq_status r' = "pending" ∨ is_terminal (rq_status r') = true →
  settles s (set_requests (<[id := r']> (ag_requests s)) s).
Proof.
  intros Hl Ht Hst [H0 Hi]. split; [split; simpl; [done|]|].
  - intros id' x. rewrite lookup_insert_Some. intros [[<- <-]|[_ Hx]]; [|by apply Hi].
    destruct (Hi _ _ Hl). done.
  - intros id' x Hx. simpl. destruct (decide (id = id')) as [<-|Hne].
    + rewrite lookup_insert_eq. exists r'. split; [done|]. congruence.
    + rewrite lookup_insert_ne by done. eauto.
Qed.

Lemma pending_not_terminal r : rq_status r = "pending" → is_terminal (rq_status r) = false.
Proof. by intros ->. Qed.

(** Settle after an update: the rest of a handler does not touch requests. *)
Lemma settles_then {A} s s1 (m : Op AgentState A) :
  settles s s1 → step_rel agent_same_requests m → settles s (m s1).1.
Proof. intros H Hm. etrans; [exact H|]. apply same_settles, Hm. Qed.

Lemma adds_then {A} s s1 (m : Op AgentState A) :
  adds s s1 → step_rel agent_same_requests m → adds s (m s1).1.
Proof. intros H Hm. etrans; [exact H|]. apply same_adds, Hm. Qed.

(** The number of the next request has not reached its maximum, after which it wraps. *)
Definition numbers_left (s : AgentState) : bool := next_request s <? u64_size - 1.
Lemma clone_request_adds s : numbers_left s = true → adds s (clone_request hash_key s).1.
Proof.
  intros Hleft. unfold clone_request.
  change (adds s ((append_text HRequestEvents ("created:" +:+ request_id (next_request s) +:+ nl);;
    append_text HEvents ("request:" +:+ request_id (next_request s) +:+ nl);;
    agent_bump hash_key NRequestsDir;; mret (request_id (next_request s)))
    (set_requests (<[request_id (next_request s) := mkAgentRequest "" "" "" "pending" ""]>
       (ag_requests s)) (set_counters (wrapping_add64 (next_request s) 1) (next_action s) s))).1).
  apply adds_then; [apply adds_new; [|done]|fsteps].
  intros Hs. split; [by apply next_request_fresh|]. destruct Hs. unfold numbers_left in Hleft.
  apply Z.ltb_lt in Hleft.
  unfold wrapping_add64. rewrite Z.mod_small; lia.
Qed.

Lemma restore_adds id k p o :
  step_rel adds (restore_pending_request hash_key id k p o).
Proof.
  intros s. unfold restore_pending_request.
  destruct (request_index id) as [n|] eqn:Hn; [|reflexivity].
  unfold mlift, mbind, m_bind. destruct (negb _ || _ || _) eqn:E; [reflexivity|]. bool_facts. subst id.
  unfold mget. destruct (ag_requests s !! request_id n) as [r|] eqn:Hl.
  { destruct (_ || _ || _); reflexivity. }
  change (adds s ((agent_bump hash_key NRequestsDir;;
    append_text HRequestEvents ("created:" +:+ request_id n +:+ nl);;
    append_text HEvents ("request:" +:+ request_id n +:+ nl))
    (set_requests (<[request_id n := mkAgentRequest k p o "pending" ""]> (ag_requests s))
       (set_counters (Z.max (next_request s) (n + 1)) (next_action s) s))).1).
  apply adds_then; [apply adds_new; [|done]|fsteps].
  intros _. split; [done|]. unfold request_index in Hn.
  destruct (strip_prefix _ _) as [d|]; [|done]. destruct (parse_u64 d) as [m|] eqn:Hm; [|done].
  destruct (m <? _); [|done]. injection Hn as ->. apply parse_u64_nonneg in Hm. lia.
Qed.

Lemma cancel_settles id : step_rel settles (cancel_request hash_key id).
Proof.
  intros s. unfold cancel_request. unfold mget, mlift, mbind at 1 2, m_bind at 1 2.
  destruct (ag_requests s !! id) as [r|] eqn:Hl; [|reflexivity].
  case_bool_decide as Hp; [|destruct (negb _); reflexivity].
  match goal with |- settles s ((mmodify ?g ≫= ?k) s).1 => change (settles s (k tt (g s)).1) end.
  apply settles_then; [|fsteps].
  eapply settles_change; [done|by apply pending_not_terminal|by right].
Qed.

Lemma commit_field_status field v r :
  rq_status (commit_request_field field v r) =
  if bool_decide (field = "response") then "answered" else rq_status r.
Proof. unfold commit_request_field. repeat case_bool_decide; by subst. Qed.

Lemma commit_request_settles id field b : step_rel settles (commit_request hash_key id field b).
Proof.
  intros s. unfold commit_request. destruct (from_utf8 b) as [v|]; [|reflexivity].
  unfold mlift, mget, mbind at 1 2, m_bind at 1 2.
  destruct (ag_requests s !! id) as [r|] eqn:Hl; [|apply same_settles; revert s Hl].
  - destruct (is_terminal (rq_status r)) eqn:Ht; [reflexivity|].
    match goal with |- settles s ((mmodify ?g ≫= ?k) s).1 => change (settles s (k tt (g s)).1) end.
    apply settles_then; [|fsteps]. intros Hinv.
    refine (settles_change s id r _ Hl Ht _ Hinv).
    rewrite commit_field_status. case_bool_decide; [by right|].
    destruct Hinv as [_ Hi]. apply (Hi _ _ Hl).
  - intros s _. revert s. change (step_rel agent_same_requests (mret tt;; agent_bump hash_key (NRequestField id field);;
      (if bool_decide (field = "response") then agent_bump hash_key (NRequestField id "status") else mret tt);;
      append_text HRequestEvents (id +:+ ":" +:+ field +:+ nl);;
      append_text HEvents ("request:" +:+ id +:+ nl))). fsteps.
Qed.
#[local] Hint Resolve restore_adds cancel_settles commit_request_settles
  same_settles_op adds_settles_op same_adds_op : alan.

Lemma open_adds f m s : numbers_left s = true → adds s (agent_open sha256_hex node_json hash_key f m s).1.
Proof.
  intros Hleft. unfold agent_open. case_bool_decide; [by destruct (mode_writes m)|].
  unfold mget, mbind at 1, m_bind at 1. destruct (isSome _); [done|].
  destruct (node_of f s) as [n| | |]; try done. rewrite run_ok.
  cbv zeta. do 3 (match goal with |- adds s ((if ?b then _ else _) s).1 => destruct b; [reflexivity|] end).
  match goal with |- adds s ((_ ≫= ?k) s).1 => set (rest := k) end.
  assert (∀ cid, step_rel agent_same_requests (rest cid)) as Hrest by (intros cid; unfold rest; fsteps).
  assert (∀ a : Op AgentState (option string), adds s (a s).1 → adds s ((a ≫= rest) s).1) as Hgo.
  { intros a Ha. unfold mbind, m_bind. destruct (a s) as [s1 []]; simpl in *; try done.
    etrans; [exact Ha|]. apply same_adds, Hrest. }
  apply Hgo. destruct n; try reflexivity.
  - pose proof (clone_request_adds s Hleft) as Ha. unfold mbind, m_bind.
    by destruct (clone_request hash_key s) as [s1 []].
  - apply same_adds. assert (step_rel agent_same_requests (id ← clone_action hash_key; mret (Some id))) as Ha
      by fsteps. apply Ha.
Qed.
Lemma write_settles f o d : step_rel settles (agent_write sha256_hex node_json hash_key f o d).
Proof. unfold agent_write, write_node, write_request_control. fsteps. Qed.
Lemma clunk_settles f :
  step_rel settles (agent_clunk sha256_hex node_json hash_key parse_json print_json f).
Proof. unfold agent_clunk, clunk_commit. fsteps. Qed.
#[local] Hint Resolve write_settles clunk_settles : alan.

(** Only opening a clone file takes a number. *)
Definition takes_number (e : agent_event) : bool :=
  match e with ACall (OpenReq _ _) => true | _ => false end.
Lemma step_settles_plain e : takes_number e = false → step_rel settles (agent_step e).
Proof.
  destruct e as [req| | | | | | | | |]; [destruct req|..]; cbn [takes_number agent_step]; intros Ht; try done;
    cbn [transport_call fs_walk fs_open fs_read fs_write fs_stat fs_create fs_remove
      fs_clunk agent_server AgentFs_FileServer]; unfold agent_create, agent_remove,
      append_child_event, append_output_event, append_input_event,
    append_status_event, set_retention_recorder; fsteps.
Qed.
Lemma step_settles e s : numbers_left s = true → settles s (agent_step e s).1.
Proof.
  intros Hleft. destruct (takes_number e) eqn:Ht; [|by apply step_settles_plain].
  destruct e as [[|f m| | | | | |]| | | | | | | | |]; try done. cbn [agent_step transport_call fs_open agent_server AgentFs_FileServer].
  rewrite !run_ret_state. intros Hs. destruct (open_adds f m s Hleft Hs) as [H1 H2].
  split; [done|]. intros id r Hr. eauto.
Qed.
(** A run in which the number of the next request stays below its maximum *)
Fixpoint run_numbered (es : list agent_event) (s : AgentState) : bool :=
  match es with
  | [] => true
  | e :: es' => numbers_left s && run_numbered es' (agent_step e s).1
  end.
Lemma run_numbered_app es es' s :
  run_numbered (es ++ es') s = run_numbered es s && run_numbered es' (agent_run s es).
Proof.
  revert s. induction es as [|e es IH]; intros s; [done|]. simpl. by rewrite IH, andb_assoc.
Qed.
Lemma run_settles_numbered es s : run_numbered es s = true → settles s (agent_run s es).
Proof.
  revert s. induction es as [|e es IH]; intros s Hn; [reflexivity|]. apply andb_true_iff in Hn as [Hl Hn].
  etrans; [by apply (step_settles e)|]. apply IH, Hn.
Qed.

Lemma request_inv_new : request_inv (agent_new sha256_hex node_json).
Proof.
  unfold agent_new. destruct (initial_tape_knowledge _ _ _). split; [done|]. intros id q.
  simpl. by rewrite lookup_empty.
Qed.

Lemma request_reachable es :
  run_numbered es (agent_new sha256_hex node_json) = true → request_inv (agent_run (agent_new sha256_hex node_json) es).
Proof. intros Hn. by apply (run_settles_numbered es), request_inv_new. Qed.
Lemma run_settles s es : run_numbered es s = true → request_inv s → requests_kept s (agent_run s es).
Proof. intros Hn Hs. by apply (run_settles_numbered es s Hn). Qed.

(** How an event may change the request [id] *)
Definition request_transition (s : AgentState) (e : agent_event) (id : string)
    (r r' : AgentRequest) : Prop :=
  r' = r ∨
  is_terminal (rq_status r) = false ∧
  ((∃ f x field v, e = ACall (ClunkReq f) ∧ ag_fids s !! f = Some x ∧
      af_node x = NRequestField id field ∧ wrote x = true ∧
      from_utf8 (write_buf x) = Some v ∧ r' = commit_request_field field v r) ∨
   (∃ f, e = ACall (WriteReq f 0 (into_bytes "cancel")) ∧
      node_of f s = Ok (NRequestField id "ctl") ∧ rq_status r = "pending" ∧
      r' = mkAgentRequest (rq_kind r) (rq_prompt r) (rq_options r) "cancelled" (rq_response r))).

(** A clunk releases its fid, then commits. *)
Definition released (f : Fid) (s : AgentState) : AgentState :=
  let s1 := set_ag_fids (delete f (ag_fids s)) s in
  if bool_decide (tape_writer s = Some f) then set_tape_writer None s1 else s1.
Lemma clunk_run f s x :
  f ≠ ROOT → ag_fids s !! f = Some x →
  agent_clunk sha256_hex node_json hash_key parse_json print_json f s =
  clunk_commit sha256_hex node_json hash_key parse_json print_json x (released f s).
Proof.
  intros Hf Hx. unfold agent_clunk, released. rewrite bool_decide_false by done. mrun.
  rewrite Hx. by destruct (bool_decide (tape_writer s = Some f)).
Qed.
Lemma clunk_none f s :
  f = ROOT ∨ ag_fids s !! f = None →
  (agent_clunk sha256_hex node_json hash_key parse_json print_json f s).1 = s.
Proof.
  unfold agent_clunk. case_bool_decide; [done|]. intros [?|Hx]; [done|]. mrun. by rewrite Hx.
Qed.
Lemma released_requests f s : agent_same_requests s (released f s).
Proof. unfold released. by case_bool_decide. Qed.

(** A commit of anything but a request field leaves requests alone. *)
Lemma commit_requests x :
  step_rel agent_same_requests (clunk_commit sha256_hex node_json hash_key parse_json print_json x) ∨
  ∃ id field, af_node x = NRequestField id field ∧ wrote x = true ∧
    clunk_commit sha256_hex node_json hash_key parse_json print_json x =
    commit_request hash_key id field (write_buf x).
Proof.
  unfold clunk_commit. destruct (wrote x); [|left; fsteps]. simpl.
  destruct (af_node x); try (left; solve [fsteps]). right. eauto.
Qed.

(** What the commit of a field does to its request *)
Lemma commit_request_spec id field b s id' r :
  ag_requests s !! id' = Some r →
  ∃ r', ag_requests (commit_request hash_key id field b s).1 !! id' = Some r' ∧
    (r' = r ∨ id' = id ∧ is_terminal (rq_status r) = false ∧
       ∃ v, from_utf8 b = Some v ∧ r' = commit_request_field field v r).
Proof.
  intros Hr. unfold commit_request. destruct (from_utf8 b) as [v|]; [|by eauto].
  unfold mlift, mget, mbind at 1 2, m_bind at 1 2.
  set (tl := agent_bump hash_key (NRequestField id field);; _).
  assert (step_rel agent_same_requests tl) as Htl by (unfold tl; fsteps).
  destruct (ag_requests s !! id) as [r0|] eqn:Hl.
  - destruct (is_terminal (rq_status r0)) eqn:Ht; [by eauto|].
    match goal with |- context [(mmodify ?g ≫= ?k) s] =>
      change ((mmodify g ≫= k) s) with (tl (g s)) end.
    destruct (Htl (set_requests (<[id := commit_request_field field v r0]> (ag_requests s)) s))
      as [-> _]. simpl.
    destruct (decide (id = id')) as [<-|Hne].
    + rewrite lookup_insert_eq. simplify_eq. eexists. split; [done|]. right. eauto.
    + rewrite lookup_insert_ne by done. eauto.
  - change ((mret tt ≫= λ _, tl) s) with (tl s). destruct (Htl s) as [-> _]. eauto.
Qed.

Lemma cancel_request_spec id s id' r :
  ag_requests s !! id' = Some r →
  ∃ r', ag_requests (cancel_request hash_key id s).1 !! id' = Some r' ∧
    (r' = r ∨ id' = id ∧ rq_status r = "pending" ∧
       r' = mkAgentRequest (rq_kind r) (rq_prompt r) (rq_options r) "cancelled" (rq_response r)).
Proof.
  intros Hr. unfold cancel_request. unfold mget, mlift, mbind at 1 2, m_bind at 1 2.
  destruct (ag_requests s !! id) as [r0|] eqn:Hl; [|by eauto].
  case_bool_decide as Hp; [|destruct (negb _); by eauto].
  match goal with |- context [(mmodify ?g ≫= ?k) s] =>
    change ((mmodify g ≫= k) s) with (k tt (g s));
    assert (step_rel agent_same_requests (k tt)) as Htl by fsteps;
    destruct (Htl (g s)) as [-> _] end. simpl.
  destruct (decide (id = id')) as [<-|Hne].
  - rewrite lookup_insert_eq. simplify_eq. eexists. split; [done|]. right. eauto.
  - rewrite lookup_insert_ne by done. eauto.
Qed.

(** A write is refused, leaving the state alone, or is a write to its file. *)
Lemma write_run f o d s :
  (agent_write sha256_hex node_json hash_key f o d s).1 = s ∧
  (∀ n, node_of f s = Ok n → opened_for_write (ag_fids s !! f ≫= af_mode) = false) ∨
  ∃ n, node_of f s = Ok n ∧ opened_for_write (ag_fids s !! f ≫= af_mode) = true ∧
    agent_write sha256_hex node_json hash_key f o d s =
    write_node sha256_hex node_json hash_key f n o d s.
Proof.
  unfold agent_write. mrun. destruct (node_of f s) as [n| | |] eqn:Hn; try by left.
  destruct (opened_for_write _); [right; eauto|by left].
Qed.

Lemma write_requests f o d s :
  agent_same_requests s (agent_write sha256_hex node_json hash_key f o d s).1 ∨
  ∃ id, node_of f s = Ok (NRequestField id "ctl") ∧ o = 0 ∧ d = into_bytes "cancel" ∧
    (agent_write sha256_hex node_json hash_key f o d s).1 = (cancel_request hash_key id s).1.
Proof.
  destruct (write_run f o d s) as [[-> _]|(n & Hn & _ & ->)]; [by left|].
  destruct n; try (left; match goal with |- agent_same_requests s (?m s).1 =>
    cut (step_rel agent_same_requests m); [by intros H; apply H|unfold write_node; solve [fsteps]] end).
  unfold write_node. case_bool_decide as Hc; [subst field|left; apply buffer_requests].
  unfold write_request_control. destruct (negb (o =? 0) || _) eqn:E; [by left|]. bool_facts.
  right. exists id. split_and!; [done..|]. apply run_ret_state.
Qed.

(** Every change of a request is the commit of one of its fields or its
    cancellation. *)
Lemma step_transition e s id r :
  numbers_left s = true → request_inv s → ag_requests s !! id = Some r →
  ∃ r', ag_requests (agent_step e s).1 !! id = Some r' ∧ request_transition s e id r r'.
Proof.
  intros Hleft Hinv Hr.
  assert (∀ s', adds s s' → ∃ r', ag_requests s' !! id = Some r' ∧
    request_transition s e id r r') as Hadds.
  { intros s' Ha. exists r. split; [by apply Ha|by left]. }
  assert (∀ m : Op AgentState unit, step_rel adds m → ∃ r', ag_requests (m s).1 !! id = Some r' ∧
    request_transition s e id r r') as Hop by auto.
  destruct e as [[|f m| |f o d| | | |f]| | | | | | | | |]; cbn [agent_step transport_call fs_walk fs_open
    fs_read fs_write fs_stat fs_create fs_remove fs_clunk agent_server AgentFs_FileServer];
    try (apply Hop; unfold agent_create, agent_remove, append_child_event, append_output_event,
      append_input_event, append_status_event, set_retention_recorder; solve [fsteps]).
  - rewrite !run_ret_state. by apply Hadds, open_adds.
  - rewrite !run_ret_state. destruct (write_requests f o d s) as [Hs|(id0 & Hn & -> & -> & ->)].
    { apply Hadds. by apply same_adds. }
    destruct (cancel_request_spec id0 s id r Hr) as (r' & Hr' & [->|(-> & Hp & ->)]).
    { exists r. split; [done|by left]. }
    eexists. split; [exact Hr'|]. right. split; [by apply pending_not_terminal|]. right. eauto.
  - rewrite !run_ret_state. destruct (decide (f = ROOT)) as [Hf|Hf];
      [rewrite clunk_none by auto; apply Hadds; reflexivity|].
    destruct (ag_fids s !! f) as [x|] eqn:Hx; [|rewrite clunk_none by auto; apply Hadds; reflexivity].
    rewrite (clunk_run f s x Hf Hx).
    destruct (commit_requests x) as [Hs|(id0 & field & Hn & Hw & ->)].
    { apply Hadds. etrans; [apply same_adds, released_requests|apply same_adds, Hs]. }
    assert (ag_requests (released f s) !! id = Some r) as Hr1
      by (by destruct (released_requests f s) as [-> _]).
    destruct (commit_request_spec id0 field (write_buf x) _ id r Hr1)
      as (r' & Hr' & [->|(-> & Ht & v & Hv & ->)]).
    { exists r. split; [done|by left]. }
    eexists. split; [exact Hr'|]. right. split; [done|]. left. eauto 10.
Qed.

(** ** The fid table and the tape's write lease *)

Definition same_table (s s' : AgentState) : Prop :=
  ag_fids s' = ag_fids s ∧ tape_writer s' = tape_writer s.
Global Instance same_table_preorder : PreOrder same_table.
Proof. split; [done|]. intros x y z [] []. split; congruence. Qed.

Lemma on_knowledge_table {A} (m : K A) : step_rel same_table (on_knowledge m).
Proof. intros s. unfold on_knowledge. by destruct (m (knowledge s)). Qed.
Lemma append_to_table h d : step_rel same_table (agent_append h d).
Proof. unfold agent_append. fsteps. Qed.
Lemma append_text_table h d : step_rel same_table (append_text h d).
Proof. apply append_to_table. Qed.
Lemma bump_table n : step_rel same_table (agent_bump hash_key n).
Proof. unfold agent_bump. fsteps. Qed.
#[local] Hint Resolve on_knowledge_table append_to_table append_text_table bump_table : alan.

Lemma cancel_table id : step_rel same_table (cancel_request hash_key id).
Proof. unfold cancel_request. fsteps. Qed.
Lemma clone_request_table : step_rel same_table (clone_request hash_key).
Proof. unfold clone_request. fsteps. Qed.
Lemma clone_action_table : step_rel same_table (clone_action hash_key).
Proof. unfold clone_action. fsteps. Qed.
Lemma tape_block_table d : step_rel same_table (append_tape_block sha256_hex node_json hash_key d).
Proof. unfold append_tape_block. fsteps. Qed.
Lemma commit_table x :
  step_rel same_table (clunk_commit sha256_hex node_json hash_key parse_json print_json x).
Proof.
  unfold clunk_commit, commit_input, commit_request, commit_action, store_action_output, commit_ui.
  fsteps.
Qed.
#[local] Hint Resolve cancel_table clone_request_table clone_action_table tape_block_table
  commit_table : alan.

(** Events that are not requests of a client leave the table alone. *)
Lemma runtime_table e : (∀ req, e ≠ ACall req) → step_rel same_table (agent_step e).
Proof.
  destruct e; intros He; cbn [agent_step]; [by destruct (He req)|..];
    unfold expire_action_output_for_retention, append_child_event, append_output_event,
      append_input_event, append_status_event, publish_evaluation_observation, publish_work,
      restore_pending_request, set_retention_recorder; fsteps.
Qed.

(** The lease is held by exactly the fids that have the tape open for writing. *)
Definition tape_write_open (x : AgentFid) : Prop :=
  af_node x = NTape ∧ opened_for_write (af_mode x) = true.
Definition lease_inv (s : AgentState) : Prop :=
  ag_fids s !! ROOT = None ∧
  ∀ f, tape_writer s = Some f ↔ ∃ x, ag_fids s !! f = Some x ∧ tape_write_open x.

Definition keeps_lease (s s' : AgentState) : Prop := lease_inv s → lease_inv s'.
Global Instance keeps_lease_preorder : PreOrder keeps_lease.
Proof. split; [by intros s Hs|intros x y z Hxy Hyz Hx; by apply Hyz, Hxy]. Qed.
Lemma same_table_lease s s' : same_table s s' → keeps_lease s s'.
Proof. intros [Hf Hw] H. unfold lease_inv. by rewrite Hf, Hw. Qed.
Lemma same_table_lease_op {A} (m : Op AgentState A) :
  step_rel same_table m → step_rel keeps_lease m.
Proof. intros Hm s. apply same_table_lease, Hm. Qed.

(** Rewriting a fid whose lease status does not change *)
Lemma lease_insert s f y :
  f ≠ ROOT → (tape_write_open y ↔ tape_writer s = Some f) →
  lease_inv s → lease_inv (set_ag_fids (<[f := y]> (ag_fids s)) s).
Proof.
  intros Hf Hy [H0 Hl]. split; simpl; [by rewrite lookup_insert_ne|]. intros g.
  destruct (decide (f = g)) as [<-|Hne].
  - rewrite lookup_insert_eq, <-Hy. split; [by eauto|]. by intros (x & [= <-] & Hx).
  - rewrite lookup_insert_ne by done. apply Hl.
Qed.

Lemma update_fid_lease f g :
  (∀ x, af_node (g x) = af_node x ∧ af_mode (g x) = af_mode x) →
  step_rel keeps_lease (update_fid f g).
Proof.
  intros Hg s Hs. unfold update_fid. mrun. destruct (ag_fids s !! f) as [x|] eqn:Hx; [|done].
  apply lease_insert; [|..|done].
  - intros ->. destruct Hs as [H0 _]. congruence.
  - destruct Hs as [_ Hl]. rewrite Hl, Hx. unfold tape_write_open.
    destruct (Hg x) as [-> ->]. split; [by eauto|]. by intros (? & [= <-] & ?).
Qed.
#[local] Hint Resolve same_table_lease_op : alan.
#[local] Hint Extern 3 (step_rel keeps_lease (update_fid _ _)) =>
  apply update_fid_lease; done : alan.

Lemma walk_lease f nf names : step_rel keeps_lease (agent_walk hash_key f nf names).
Proof.
  intros s Hs. unfold agent_walk. mrun. destruct (bool_decide (nf = ROOT) || _) eqn:E; [done|].
  bool_facts. destruct (node_of f s); try done. destruct (descend s _ names) as [n| | |]; try done.
  apply lease_insert; [done| |done]. destruct Hs as [_ Hl]. rewrite Hl, H0.
  split; [by intros []|by intros (? & ? & ?)].
Qed.
Lemma read_lease f o c : step_rel keeps_lease (agent_read sha256_hex node_json f o c).
Proof. unfold agent_read. fsteps. Qed.
Lemma stat_lease f : step_rel keeps_lease (agent_stat sha256_hex node_json hash_key f).
Proof. unfold agent_stat. fsteps. Qed.
Lemma buffer_lease f n o d : step_rel keeps_lease (agent_buffer f n o d).
Proof.
  unfold agent_buffer. repeat first [apply update_fid_lease; done | progress fsteps].
Qed.
#[local] Hint Resolve buffer_lease : alan.
Lemma write_lease f o d : step_rel keeps_lease (agent_write sha256_hex node_json hash_key f o d).
Proof. unfold agent_write, write_node, write_request_control. fsteps. Qed.

(** Opening a fid that is not open, with the lease taken exactly by a write open
    of the tape while nobody holds it *)
Lemma open_fid_lease s f x m cid b :
  lease_inv s → ag_fids s !! f = Some x → af_mode x = None →
  (bool_decide (af_node x = NTape) && mode_writes m && isSome (tape_writer s) = false) →
  let y := mkAgentFid (af_node x) (Some m) cid b (read_snapshot x) (wrote x) in
  let s1 := set_ag_fids (<[f := y]> (ag_fids s)) s in
  lease_inv (if bool_decide (af_node x = NTape) && mode_writes m
             then set_tape_writer (Some f) s1 else s1).
Proof.
  intros Hs Hx Hm Hfree y s1. assert (f ≠ ROOT) as Hf by (intros ->; destruct Hs; congruence).
  assert (tape_writer s ≠ Some f) as Hnot.
  { destruct Hs as [_ Hl]. rewrite Hl, Hx. intros (? & [= <-] & _ & Ho). by rewrite Hm in Ho. }
  destruct (bool_decide (af_node x = NTape) && mode_writes m) eqn:E.
  - apply isSome_false in Hfree. bool_facts. destruct Hs as [Hroot Hl].
    split; simpl; [by rewrite lookup_insert_ne|]. intros g.
    destruct (decide (f = g)) as [<-|Hne].
    + rewrite lookup_insert_eq. split; [intros _; by exists y|done].
    + rewrite lookup_insert_ne, <-Hl, Hfree by done. split; [by intros [= ->]|done].
  - apply lease_insert; [done| |done]. split; [|done]. intros [Hn Hw]. simpl in *.
    rewrite bool_decide_true in E by done. simpl in E. congruence.
Qed.

Lemma open_lease f m : step_rel keeps_lease (agent_open sha256_hex node_json hash_key f m).
Proof.
  intros s Hs. unfold agent_open. case_bool_decide as Hf; [by destruct (mode_writes m)|].
  rewrite run_get. destruct (isSome (ag_fids s !! f ≫= af_mode)) eqn:Hmode; [done|].
  unfold node_of. rewrite (bool_decide_false (f = ROOT)) by done.
  destruct (ag_fids s !! f) as [x|] eqn:Hx; [|done]. simpl in Hmode. apply isSome_false in Hmode.
  change (ok_or (af_node <$> Some x) NotFound) with (Ok (E := ErrorCode) (af_node x)).
  rewrite run_ok. destruct (mode_writes m && _); [done|]. cbv zeta.
  destruct (bool_decide (af_node x = NTape) && mode_writes m && _) eqn:Hfree; [done|].
  destruct ((_ || _) && _); [done|].
  match goal with |- context [(?c ≫= ?k) s] =>
    assert (step_rel same_table c) as Hc by (destruct (af_node x); fsteps);
    specialize (Hc s); rewrite run_bind; destruct (c s) as [s1 [cid| | |]] end;
    try (by apply (same_table_lease s)).
  rewrite run_get. assert (lease_inv s1) as Hs1 by (by apply (same_table_lease s)).
  destruct Hc as [Hfs Hw]. simpl in Hfs, Hw. rewrite <-Hfs in Hx. rewrite <-Hw in Hfree.
  assert (∀ base : option bytes, lease_inv
    ((update_fid f (λ x, mkAgentFid (af_node x) (Some m) cid (default (write_buf x) base)
        (read_snapshot x) (wrote x));;
      (if bool_decide (af_node x = NTape) && mode_writes m
       then mmodify (set_tape_writer (Some f)) else mret tt);;
      s0 ← mget; mret (agent_qid hash_key (af_node x) s0)) s1).1) as Hgo.
  { intros base. pose proof (open_fid_lease s1 f x m cid (default (write_buf x) base) Hs1 Hx Hmode
      Hfree) as H. revert H. unfold update_fid. mrun. rewrite Hx.
    destruct (bool_decide (af_node x = NTape) && mode_writes m); intros H; exact H. }
  destruct (bool_decide (m = ReadWrite) && has_base (af_node x)); [|apply (Hgo None)].
  rewrite !run_bind. unfold mresult.
  destruct (computed_bytes _ _ (af_node x) s1); [apply (Hgo (Some a))|done..].
Qed.

Lemma released_lease f s : lease_inv s → lease_inv (released f s).
Proof.
  intros [H0 Hl]. unfold released. case_bool_decide as Hw; split; simpl;
    rewrite ?lookup_delete_None; auto; intros g.
  - split; [done|]. intros (x & [Hne Hx]%lookup_delete_Some & Ht).
    assert (tape_writer s = Some g) as Hg by (apply Hl; eauto). congruence.
  - rewrite Hl. split.
    + intros (x & Hx & Ht). exists x. rewrite lookup_delete_ne; [done|]. intros <-.
      apply Hw, Hl. eauto.
    + intros (x & [Hne Hx]%lookup_delete_Some & Ht). eauto.
Qed.

Lemma clunk_lease f :
  step_rel keeps_lease (agent_clunk sha256_hex node_json hash_key parse_json print_json f).
Proof.
  intros s. destruct (decide (f = ROOT)) as [Hf|Hf]; [by rewrite clunk_none by auto|].
  destruct (ag_fids s !! f) as [x|] eqn:Hx; [|by rewrite clunk_none by auto].
  rewrite (clunk_run f s x Hf Hx). intros Hs.
  apply (same_table_lease_op _ (commit_table x)). by apply released_lease.
Qed.
#[local] Hint Resolve walk_lease read_lease stat_lease write_lease open_lease clunk_lease : alan.

Lemma step_lease e : step_rel keeps_lease (agent_step e).
Proof.
  destruct e as [req| | | | | | | | |]; try (by apply same_table_lease_op, runtime_table).
  cbn [agent_step]. destruct req; cbn [transport_call fs_walk fs_open fs_read fs_write fs_stat
    fs_create fs_remove fs_clunk agent_server AgentFs_FileServer];
    unfold agent_create, agent_remove; fsteps.
Qed.
Lemma lease_new : lease_inv (agent_new sha256_hex node_json).
Proof.
  unfold agent_new. destruct (initial_tape_knowledge _ _ _). split; simpl; [done|].
  intros f. rewrite lookup_empty. split; [done|]. by intros (? & ? & ?).
Qed.
Lemma lease_reachable es : lease_inv (agent_run (agent_new sha256_hex node_json) es).
Proof. apply (run_rel keeps_lease (agent_new sha256_hex node_json) es step_lease), lease_new. Qed.

(** ** The fid discipline *)

Definition agent_live (s : AgentState) : gset Fid := dom (ag_fids s) ∖ {[ROOT]}.
Definition agent_same_live (s s' : AgentState) : Prop := agent_live s' = agent_live s.
Global Instance agent_same_live_preorder : PreOrder agent_same_live.
Proof. split; [done|]. intros x y z. unfold agent_same_live. congruence. Qed.
Lemma same_table_live_op {A} (m : Op AgentState A) :
  step_rel same_table m → step_rel agent_same_live m.
Proof. intros Hm s. unfold agent_same_live, agent_live. by destruct (Hm s) as [-> _]. Qed.
Lemma update_fid_live f g : step_rel agent_same_live (update_fid f g).
Proof.
  intros s. unfold update_fid, agent_same_live, agent_live. mrun.
  destruct (ag_fids s !! f) eqn:Hx; [|done]. simpl. by rewrite dom_insert_lookup_L by (by eexists).
Qed.
#[local] Hint Resolve same_table_live_op update_fid_live : alan.

Lemma buffer_live f n o d : step_rel agent_same_live (agent_buffer f n o d).
Proof. unfold agent_buffer. repeat first [apply update_fid_live | progress fsteps]. Qed.
#[local] Hint Resolve buffer_live : alan.
Lemma agent_open_live f m : step_rel agent_same_live (agent_open sha256_hex node_json hash_key f m).
Proof. unfold agent_open. repeat first [apply update_fid_live | progress fsteps]. Qed.
Lemma read_live f o c : step_rel agent_same_live (agent_read sha256_hex node_json f o c).
Proof. unfold agent_read. repeat first [apply update_fid_live | progress fsteps]. Qed.
Lemma write_live f o d : step_rel agent_same_live (agent_write sha256_hex node_json hash_key f o d).
Proof. unfold agent_write, write_node, write_request_control. fsteps. Qed.
Lemma stat_live f : step_rel agent_same_live (agent_stat sha256_hex node_json hash_key f).
Proof. unfold agent_stat. fsteps. Qed.

Lemma walk_live f nf names s s' r :
  agent_walk hash_key f nf names s = (s', r) →
  match r with Ok _ => agent_live s' = {[nf]} ∪ agent_live s | _ => s' = s end.
Proof.
  unfold agent_walk. mrun. destruct (bool_decide (nf = ROOT) || _) eqn:E; [by intros [= <- <-]|].
  bool_facts. destruct (node_of f s) as [n0| | |]; try by intros [= <- <-].
  destruct (descend s n0 names); try by intros [= <- <-].
  intros [= <- <-]. unfold agent_live. simpl. rewrite dom_insert_L. set_solver.
Qed.

Lemma clunk_live f s s' r :
  f ≠ ROOT → agent_clunk sha256_hex node_json hash_key parse_json print_json f s = (s', r) →
  agent_live s' = agent_live s ∖ {[f]}.
Proof.
  intros Hf Hc. destruct (ag_fids s !! f) as [x|] eqn:Hx.
  - rewrite (clunk_run f s x Hf Hx) in Hc.
    destruct (step_rel_elim same_table _ _ _ _ (commit_table x) Hc) as [Hfs _].
    unfold agent_live. rewrite Hfs.
    assert (ag_fids (released f s) = delete f (ag_fids s)) as ->
      by (unfold released; by case_bool_decide).
    rewrite dom_delete_L. set_solver.
  - pose proof (clunk_none f s (or_intror Hx)) as H. rewrite Hc in H. simpl in H. subst.
    apply not_elem_of_dom in Hx. unfold agent_live. set_solver.
Qed.

#[local] Instance agent_fid_contract : FidContract AgentState agent_live.
Proof.
  split; cbn [fs_walk fs_open fs_read fs_write fs_stat fs_create fs_remove fs_clunk agent_server
    AgentFs_FileServer].
  - intros s fid nf names Hn. unfold agent_walk. mrun. rewrite (proj2 (orb_true_iff _ _)); [done|].
    destruct Hn as [->|Hn]; [by left|right].
    apply isSome_true, elem_of_dom. unfold agent_live in Hn. set_solver.
  - intros s s' fid nf names q H. by apply walk_live in H.
  - intros s s' fid nf names e H. apply walk_live in H. by subst.
  - intros s s' fid m r H. exact (step_rel_elim agent_same_live _ _ _ _ (agent_open_live fid m) H).
  - intros s s' fid o c r H. exact (step_rel_elim agent_same_live _ _ _ _ (read_live fid o c) H).
  - intros s s' fid o d r H. exact (step_rel_elim agent_same_live _ _ _ _ (write_live fid o d) H).
  - intros s s' fid r H. exact (step_rel_elim agent_same_live _ _ _ _ (stat_live fid) H).
  - done.
  - intros s s' fid nf name k e [= <- <-]. done.
  - done.
  - by intros s s' fid e [= <- _].
  - intros s s' fid r Hf H. by eapply clunk_live.
  - intros s. unfold agent_live. set_solver.
Qed.
End agent_facts.

(** ** Properties *)

(** C18: a request is settled once. Over every run of the server in which the 64-bit
    number of the next request stays below its maximum, a request that is answered,
    closed or cancelled is never changed again, by any later sequence of calls; and
    every single change of a request is either the commit, at clunk, of a field its
    fid wrote (answering it when the field is the response) or a cancellation written
    to its control file while it was pending; no request ever disappears. *)
Theorem settled_request_is_final (sha256_hex : bytes → string) (node_json : DagNodeV1 → bytes)
    (values : gmap string BoundRoot → list BoundRoot) (hash_key : string → Z)
    (parse_json : string → option Json) (print_json : Json → string)
    (es es' : list agent_event) (id : string) (r : AgentRequest) :
  let step := agent_step sha256_hex node_json values hash_key parse_json print_json in
  let run := agent_run sha256_hex node_json values hash_key parse_json print_json in
  let numbered := run_numbered sha256_hex node_json values hash_key parse_json print_json in
  let s := run (agent_new sha256_hex node_json) es in
  numbered (es ++ es') (agent_new sha256_hex node_json) = true →
  ag_requests s !! id = Some r →
  (is_terminal (rq_status r) = true → ag_requests (run s es') !! id = Some r) ∧
  (numbers_left s = true →
   ∀ e, ∃ r', ag_requests (step e s).1 !! id = Some r' ∧ request_transition s e id r r').
Proof.
  intros step run numbered s Hn Hr. unfold numbered in Hn. rewrite run_numbered_app in Hn.
  apply andb_true_iff in Hn as [Hn Hn']. assert (request_inv s) as Hs by by apply request_reachable. split.
  - intros Ht. destruct (run_settles sha256_hex node_json values hash_key parse_json print_json
      s es' Hn' Hs id r Hr) as (r' & Hr' & E). rewrite (E Ht) in Hr'. done.
  - intros Hl e. by apply step_transition.
Qed.

(** The tape has one writer. In every reachable state the fid that holds the
    write lease is exactly the one that has the tape open for writing, so two
    fids never do; while it is held a second write open of the tape is refused
    and changes nothing; and clunking the holder frees the lease, whatever the
    outcome of the clunk. *)
Theorem tape_has_one_writer (sha256_hex : bytes → string) (node_json : DagNodeV1 → bytes)
    (values : gmap string BoundRoot → list BoundRoot) (hash_key : string → Z)
    (parse_json : string → option Json) (print_json : Json → string)
    (es : list agent_event) :
  let s := agent_run sha256_hex node_json values hash_key parse_json print_json
             (agent_new sha256_hex node_json) es in
  (∀ f, tape_writer s = Some f ↔ ∃ x, ag_fids s !! f = Some x ∧ tape_write_open x) ∧
  (∀ f x m, ag_fids s !! f = Some x → af_node x = NTape → mode_writes m = true →
     is_Some (tape_writer s) → ∃ e, agent_open sha256_hex node_json hash_key f m s = (s, Err e)) ∧
  (∀ f s' r, tape_writer s = Some f →
     agent_clunk sha256_hex node_json hash_key parse_json print_json f s = (s', r) →
     tape_writer s' = None).
Proof.
  intros s. destruct (lease_reachable sha256_hex node_json values hash_key parse_json print_json es)
    as [H0 Hl]. fold s in H0, Hl. split_and!; [done|..].
  - intros f x m Hx Hn Hm [g Hg]. unfold agent_open, node_of.
    rewrite !(bool_decide_false (f = ROOT)) by (intros ->; congruence). rewrite run_get, Hx.
    change (Some x ≫= af_mode) with (af_mode x). destruct (af_mode x) as [m'|]; [by eexists|].
    change (ok_or (af_node <$> Some x) NotFound) with (Ok (E := ErrorCode) (af_node x)).
    cbn [isSome]. rewrite run_ok. simpl. rewrite Hn, Hm, Hg. by eexists.
  - intros f s' r Hw Hc. apply Hl in Hw as Hx. destruct Hx as (x & Hx & _).
    rewrite (clunk_run _ _ _ _ _ f s x ltac:(intros ->; congruence) Hx) in Hc.
    destruct (step_rel_elim same_table _ _ _ _ (commit_table _ _ _ _ _ x) Hc) as [_ ->].
    unfold released. by rewrite bool_decide_true.
Qed.

(** ** Witnesses *)

Definition toy_hash_key (s : string) : Z := Z.of_nat (String.length s).
Definition toy_agent_parse (s : string) : option Json := Some (JString s).
Definition toy_agent_print (j : Json) : string := match j with JString s => s | _ => "" end.
Abbreviation toy_agent_run :=
  (agent_run toy_sha toy_json toy_values toy_hash_key toy_agent_parse toy_agent_print).
Abbreviation toy_agent_new := (agent_new toy_sha toy_json).

(** A request is opened, answered, and then written and cancelled again. *)
Definition answer_session : list agent_event :=
  [ACall (WalkReq ROOT 1 ["requests"; "clone"]); ACall (OpenReq 1 ReadWrite);
   ACall (WalkReq ROOT 2 ["requests"; "r0"; "response"]); ACall (OpenReq 2 Write);
   ACall (WriteReq 2 0 (into_bytes "yes")); ACall (ClunkReq 2)].
Definition late_session : list agent_event :=
  [ACall (WalkReq ROOT 3 ["requests"; "r0"; "response"]); ACall (OpenReq 3 Write);
   ACall (WriteReq 3 0 (into_bytes "no")); ACall (ClunkReq 3);
   ACall (WalkReq ROOT 4 ["requests"; "r0"; "ctl"]); ACall (OpenReq 4 Write);
   ACall (WriteReq 4 0 (into_bytes "cancel")); ARestore "r0" "k" "p" "o"].
Definition answered_request : AgentRequest := mkAgentRequest "" "" "" "answered" "yes".

Lemma answer_session_answers :
  ag_requests (toy_agent_run toy_agent_new answer_session) !! "r0" = Some answered_request.
Proof. vm_compute. reflexivity. Qed.

Lemma settled_request_is_final_witness :
  ag_requests (toy_agent_run (toy_agent_run toy_agent_new answer_session) late_session) !! "r0" =
  Some answered_request.
Proof.
  apply (settled_request_is_final toy_sha toy_json toy_values toy_hash_key toy_agent_parse toy_agent_print
    answer_session late_session "r0" answered_request).
  - vm_compute. reflexivity.
  - exact answer_session_answers.
  - reflexivity.
Defined.

(** The number of the next request is a [u64] that a restored request can bring to its
    maximum. It wraps then, and the request opened after that takes the place of the
    first one, answered or not. *)
Definition wrap_session : list agent_event :=
  [ARestore "r18446744073709551614" "k" "p" "o";
   ACall (WalkReq ROOT 5 ["requests"; "clone"]); ACall (OpenReq 5 ReadWrite);
   ACall (WalkReq ROOT 6 ["requests"; "clone"]); ACall (OpenReq 6 ReadWrite)].
Example wrapped_number_replaces_settled :
  (rq_status <$> ag_requests (toy_agent_run (toy_agent_run toy_agent_new answer_session) wrap_session) !! "r0") =
  Some "pending".
Proof. vm_compute. reflexivity. Qed.

(** One fid writes the tape; a second one cannot open it for writing. *)
Definition tape_session : list agent_event :=
  [ACall (WalkReq ROOT 1 ["machine"; "tape"]); ACall (OpenReq 1 Write);
   ACall (WriteReq 1 0 (into_bytes "turn-1")); ACall (WalkReq ROOT 2 ["machine"; "tape"]);
   ACall (OpenReq 2 Write); ACall (WriteReq 1 0 (into_bytes "turn-2"))].

Lemma tape_session_fids :
  tape_writer (toy_agent_run toy_agent_new tape_session) = Some 1 ∧
  ag_fids (toy_agent_run toy_agent_new tape_session) !! 2 = Some (agent_fid_at NTape).
Proof. vm_compute. split; reflexivity. Qed.

Lemma tape_has_one_writer_witness :
  ∃ e, agent_open toy_sha toy_json toy_hash_key 2 Write
         (toy_agent_run toy_agent_new tape_session) =
       (toy_agent_run toy_agent_new tape_session, Err e).
Proof.
  destruct tape_session_fids as [Hw Hx].
  destruct (tape_has_one_writer toy_sha toy_json toy_values toy_hash_key toy_agent_parse toy_agent_print
    tape_session) as (_ & H & _).
  apply (H 2 (agent_fid_at NTape) Write); [exact Hx|reflexivity|reflexivity|].
  rewrite Hw. by eexists.
Defined.
