(* ===== verification/AgentTape.v ===== *)
(** * What an agent records: its tape and the output of its actions

    The checkpoint of the tape and the stored output of every action read back
    what was written, over every run of the server, expiries and collections
    included. *)
From S2P Require Import Prelude RustStd ApTypes ApServer Knowledge KnowledgeFacts KnowledgeGc MemFsFacts RustText AgentFs AgentFsFacts.

Section agent_tape.
Context (sha256_hex : bytes → string) (node_json : DagNodeV1 → bytes).
Context (values : gmap string BoundRoot → list BoundRoot) (hash_key : string → Z).
Context (parse_json : string → option Json) (print_json : Json → string).
Context (values_spec : ∀ m x, x ∈ values m ↔ ∃ k, m !! k = Some x).
Abbreviation store_ok := (KnowledgeFacts.store_ok sha256_hex node_json).
Abbreviation content := (KnowledgeFacts.content sha256_hex node_json).
Abbreviation agent_step := (AgentFsFacts.agent_step sha256_hex node_json values hash_key parse_json print_json).
Abbreviation agent_run := (AgentFsFacts.agent_run sha256_hex node_json values hash_key parse_json print_json).

(** ** Storing bytes keeps the roots *)

Definition same_roots (k k' : KnowledgeStore) : Prop := roots k' = roots k.
Global Instance same_roots_preorder : PreOrder same_roots.
Proof. split; [done|]. intros x y z. unfold same_roots. congruence. Qed.
Lemma put_block_roots b : step_rel same_roots (put_block sha256_hex b).
Proof. unfold put_block. fsteps. Qed.
#[local] Hint Resolve put_block_roots : alan.
Lemma put_blocks_roots bs : step_rel same_roots (put_blocks sha256_hex bs).
Proof. induction bs; simpl; fsteps. Qed.
#[local] Hint Resolve put_blocks_roots : alan.
Lemma snapshot_roots base bs : step_rel same_roots (snapshot sha256_hex node_json base bs).
Proof.
  unfold snapshot, checkpoint_from_bytes, fork_append_bytes, checkpoint_from_blocks,
    fork_append_blocks, put_node. fsteps.
Qed.

(** No collision among what the store holds and what storing [b] on [base] adds *)
Definition snapshot_safe (k : KnowledgeStore) (base : option ContentHash) (b : bytes) : Prop :=
  collision_free sha256_hex (λ b', addressed node_json k b' ∨ b' ∈ [b] ∨
    b' = node_bytes node_json (snapshot_node sha256_hex base [b])).

(** Store [b] on [base] and bind the new root: it stands for the bytes of the
    base and [b], and every other root is as before. *)
Lemma store_and_bind k base b0 b name :
  store_ok k → base_content sha256_hex node_json k base b0 → json_inj node_json →
  snapshot_safe k base b →
  ∃ k1 h, snapshot sha256_hex node_json base [b] k = (k1, Ok h) ∧
    let r := mkBoundRoot name h RootReadWrite in
    let k2 := set_roots (<[name := r]> (roots k)) k1 in
    bind_root name h RootReadWrite k1 = (k2, Ok r) ∧ store_ok k2 ∧
    content k2 h (b0 ++ b) ∧ (∀ h' b', content k h' b' → content k2 h' b').
Proof.
  intros Hok Hb Hj Hsafe.
  destruct (snapshot_stored sha256_hex node_json values values_spec k base [b] b0 Hok Hb Hj Hsafe)
    as (k1 & Hs & Hok1 & Hc & Hbl & Hn).
  pose proof (step_rel_elim same_roots _ _ _ _ (snapshot_roots base [b]) Hs) as Hr.
  eexists k1, _. split; [exact Hs|]. simpl.
  destruct (bind_spec sha256_hex node_json k1 name
    (hash_bytes sha256_hex (node_bytes node_json (snapshot_node sha256_hex base [b]))) Hok1)
    as [Hbind Hok2]; [destruct Hc as (n & ? & ?); eauto|].
  rewrite Hr in Hbind, Hok2. split_and!; [done|done| |].
  - simpl in Hc. rewrite app_nil_r in Hc. by eapply content_mono; [| |exact Hc].
  - intros h' b' Hc'. by eapply content_mono; [exact Hbl|exact Hn|].
Qed.

(** ** The output_recorded evidence reads back *)

Definition tape_bytes (s : AgentState) : bytes := Stream.buf (st_tape (streams s)).

Record evidence_inv (s : AgentState) : Prop := {
  ev_store : store_ok (knowledge s);
  ev_tape_root : roots (knowledge s) !! TAPE_ROOT_NAME =
    Some (mkBoundRoot TAPE_ROOT_NAME (tape_root s) RootReadWrite);
  ev_tape : content (knowledge s) (tape_root s) (tape_bytes s);
  ev_output id a h : ag_actions s !! id = Some a → output_root a = Some h →
    output_retention_expired a = false ∧
    roots (knowledge s) !! action_output_root_name id =
      Some (mkBoundRoot (action_output_root_name id) h RootReadWrite) ∧
    content (knowledge s) h (into_bytes (ac_output a));
}.

Lemma evidence_materialized s :
  evidence_inv s → materialized_tape sha256_hex node_json s = Ok (tape_bytes s).
Proof.
  intros [Hok Hr Ht _]. unfold materialized_tape, root. rewrite Hr. cbn [ok_or].
  by rewrite (read_bound_ok sha256_hex node_json _ _ (tape_bytes s)).
Qed.

Lemma evidence_read s id a :
  evidence_inv s → ag_actions s !! id = Some a →
  computed_bytes sha256_hex node_json (NActionField id "output") s =
  Ok (into_bytes (ac_output a)).
Proof.
  intros Hinv Ha. unfold computed_bytes. rewrite Ha. simpl.
  destruct (output_retention_expired a) eqn:He; [done|].
  destruct (output_root a) as [h|] eqn:Hr; [|done]. simpl.
  destruct (ev_output _ Hinv _ _ _ Ha Hr) as (_ & Hroot & Hc). unfold root. rewrite Hroot.
  cbn [ok_or]. by rewrite (read_bound_ok sha256_hex node_json _ _ (into_bytes (ac_output a)));
    [|apply Hinv|..].
Qed.

(** Operations that record nothing: the store, the tape and what actions have
    stored are as before; a new action has stored nothing. *)
Definition agent_quiet (s s' : AgentState) : Prop :=
  knowledge s' = knowledge s ∧ tape_root s' = tape_root s ∧
  st_tape (streams s') = st_tape (streams s) ∧
  ∀ id a', ag_actions s' !! id = Some a' → output_root a' = None ∨
    ∃ a, ag_actions s !! id = Some a ∧ ac_output a' = ac_output a ∧
         output_root a' = output_root a ∧
         output_retention_expired a' = output_retention_expired a.
Global Instance agent_quiet_preorder : PreOrder agent_quiet.
Proof.
  split.
  - intros s. split_and!; try done. intros id a Ha. right. eauto 10.
  - intros x y z (? & ? & ? & Hxy) (? & ? & ? & Hyz). split_and!; try congruence.
    intros id a Ha. destruct (Hyz _ _ Ha) as [?|(a1 & Ha1 & E1 & E2 & E3)]; [by left|].
    rewrite E2. destruct (Hxy _ _ Ha1) as [?|(a2 & Ha2 & ? & ? & ?)]; [by left|].
    right. exists a2. split_and!; congruence.
Qed.

Lemma quiet_evidence s s' : agent_quiet s s' → evidence_inv s → evidence_inv s'.
Proof.
  intros (Hk & Hr & Ht & Ha) [H1 H2 H3 H4]. unfold tape_bytes in *. split; unfold tape_bytes;
    rewrite ?Hk, ?Hr, ?Ht; try done.
  intros id a' h Hl Ho. destruct (Ha _ _ Hl) as [Hn|(a & Hl0 & -> & E & ->)]; [congruence|].
  apply (H4 _ _ _ Hl0). congruence.
Qed.

(** Updates of the other fields are agent_quiet. *)
Lemma quiet_frame s s' :
  knowledge s' = knowledge s → tape_root s' = tape_root s →
  st_tape (streams s') = st_tape (streams s) → ag_actions s' = ag_actions s → agent_quiet s s'.
Proof. intros ? ? ? Ha. split_and!; try done. rewrite Ha. intros id a Hl. right. eauto 10. Qed.

Lemma stream_append_tape h d x : h ≠ HTape → st_tape (stream_append h d x) = st_tape x.
Proof. by destruct x, h. Qed.
Lemma append_text_quiet h d : h ≠ HTape → step_rel agent_quiet (append_text h d).
Proof.
  intros Hh. apply step_modify. intros s. apply quiet_frame; try done. simpl.
  by apply stream_append_tape.
Qed.
Lemma append_to_quiet h d : h ≠ HTape → step_rel agent_quiet (agent_append h d).
Proof.
  intros Hh. apply step_modify. intros s. apply quiet_frame; try done. simpl.
  by apply stream_append_tape.
Qed.
Lemma bump_quiet n : step_rel agent_quiet (agent_bump hash_key n).
Proof. apply step_modify. intros s. by apply quiet_frame. Qed.
Lemma update_fid_quiet f g : step_rel agent_quiet (update_fid f g).
Proof.
  intros s. unfold update_fid. mrun. destruct (ag_fids s !! f); by apply quiet_frame.
Qed.
#[local] Hint Resolve bump_quiet update_fid_quiet : alan.
#[local] Hint Extern 2 (step_rel agent_quiet (append_text _ _)) => apply append_text_quiet; done : alan.
#[local] Hint Extern 2 (step_rel agent_quiet (agent_append _ _)) => apply append_to_quiet; done : alan.
Ltac qsteps :=
  repeat first [ apply update_fid_quiet
               | apply step_modify; intros ?; solve [by apply quiet_frame]
               | progress msteps ].

Lemma agent_walk_quiet f nf names : step_rel agent_quiet (agent_walk hash_key f nf names).
Proof. unfold agent_walk. qsteps. Qed.
Lemma clone_request_quiet : step_rel agent_quiet (clone_request hash_key).
Proof. unfold clone_request. qsteps. Qed.
Lemma clone_action_quiet : step_rel agent_quiet (clone_action hash_key).
Proof.
  unfold clone_action. qsteps. apply step_modify. intros s. split_and!; try done. simpl.
  intros id a'. rewrite lookup_insert_Some. intros [[<- <-]|[_ Hl]]; [by left|]. right. eauto 10.
Qed.
Lemma cancel_quiet id : step_rel agent_quiet (cancel_request hash_key id).
Proof. unfold cancel_request. qsteps. Qed.
Lemma agent_buffer_quiet f n o d : step_rel agent_quiet (agent_buffer f n o d).
Proof. unfold agent_buffer. qsteps. Qed.
#[local] Hint Resolve agent_walk_quiet clone_request_quiet clone_action_quiet cancel_quiet
  agent_buffer_quiet : alan.
Lemma agent_open_quiet f m : step_rel agent_quiet (agent_open sha256_hex node_json hash_key f m).
Proof. unfold agent_open. qsteps. Qed.
Lemma agent_read_quiet f o c : step_rel agent_quiet (agent_read sha256_hex node_json f o c).
Proof. unfold agent_read. qsteps. Qed.
Lemma agent_stat_quiet f : step_rel agent_quiet (agent_stat sha256_hex node_json hash_key f).
Proof. unfold agent_stat. qsteps. Qed.

Lemma write_node_quiet f n o d :
  n ≠ NTape → step_rel agent_quiet (write_node sha256_hex node_json hash_key f n o d).
Proof. intros Hn. unfold write_node, write_request_control. destruct n; try done; qsteps. Qed.

Lemma commit_action_quiet id field b :
  field ≠ "output" → step_rel agent_quiet (commit_action sha256_hex node_json hash_key id field b).
Proof.
  intros Hf. unfold commit_action. rewrite (bool_decide_false (field = "output")) by done. qsteps.
  apply step_modify. intros s. split_and!; try done. simpl. unfold alter_action. intros id' a'.
  destruct (ag_actions s !! id) as [act|] eqn:Ha; [|intros; right; eauto 10].
  rewrite lookup_insert_Some. intros [[<- <-]|[_ Hl]]; [right|right; eauto 10].
  exists act. unfold commit_action_field. destruct act.
  repeat case_bool_decide; try done; by split_and!.
Qed.

(** A commit that stores no action output is agent_quiet. *)
Lemma commit_quiet x :
  (∀ id, af_node x ≠ NActionField id "output") ∨ wrote x = false →
  step_rel agent_quiet (clunk_commit sha256_hex node_json hash_key parse_json print_json x).
Proof.
  intros Hx. unfold clunk_commit. destruct (wrote x); [|qsteps]. destruct Hx as [Hx|]; [|done].
  simpl. destruct (af_node x) eqn:Hn;
    unfold commit_input, commit_request, commit_ui; try solve [qsteps].
  apply commit_action_quiet. intros ->. by apply (Hx id).
Qed.

Lemma released_quiet f s : agent_quiet s (released f s).
Proof. unfold released. case_bool_decide; by apply quiet_frame. Qed.

(** ** The events that record *)

Lemma root_names_distinct id id' :
  action_output_root_name id = action_output_root_name id' → id = id'.
Proof.
  unfold action_output_root_name. intros H. apply (inj (String.append "actions/")) in H.
  apply (f_equal into_bytes) in H. rewrite !into_bytes_app in H. apply app_inv_tail in H.
  by apply (inj into_bytes).
Qed.
Lemma action_root_not_tape id : action_output_root_name id ≠ TAPE_ROOT_NAME.
Proof. done. Qed.

(** A write to the tape *)
Lemma tape_write_evidence f o d s :
  json_inj node_json → evidence_inv s → snapshot_safe (knowledge s) (Some (tape_root s)) d →
  ∃ s', write_node sha256_hex node_json hash_key f NTape o d s = (s', Ok (as_u32 (len d))) ∧
    evidence_inv s' ∧ tape_bytes s' = tape_bytes s ++ d.
Proof.
  intros Hj [Hok Hr Ht Ho] Hsafe.
  destruct (store_and_bind (knowledge s) (Some (tape_root s)) (tape_bytes s) d TAPE_ROOT_NAME
    Hok Ht Hj Hsafe) as (k1 & h & Hs & Hb & Hok2 & Hc & Hkeep).
  simpl in Hs. unfold write_node, append_tape_block, on_knowledge, agent_bump, agent_append, append_text.
  mrun. rewrite Hs. cbn [map_err set_knowledge knowledge]. rewrite Hb. cbn [map_err].
  eexists. split; [done|]. destruct (streams s) as [i ou e ie re ae ue t] eqn:Est.
  assert (tape_bytes s = Stream.buf t) as Htb by (unfold tape_bytes; by rewrite Est).
  split; [split|]; unfold tape_bytes; simpl; rewrite ?Est; simpl.
  - done.
  - by rewrite lookup_insert_eq.
  - by rewrite <-Htb.
  - intros id a h' Ha Hr'. destruct (Ho _ _ _ Ha Hr') as (? & Hroot & Hc').
    split_and!; [done| |by apply Hkeep]. rewrite lookup_insert_ne; [done|].
    intros Heq. by apply (action_root_not_tape id).
  - done.
Qed.

(** The commit of an action's output *)
Lemma commit_output_evidence id b s :
  json_inj node_json → evidence_inv s → snapshot_safe (knowledge s) None b →
  evidence_inv (commit_action sha256_hex node_json hash_key id "output" b s).1 ∧
  tape_bytes (commit_action sha256_hex node_json hash_key id "output" b s).1 = tape_bytes s.
Proof.
  intros Hj Hinv Hsafe. unfold commit_action. rewrite run_bind.
  destruct (from_utf8 b) as [v|] eqn:Hv; [|done]. cbn [mlift]. rewrite run_get.
  rewrite bool_decide_true by done.
  assert (into_bytes v = b) as Hb.
  { unfold from_utf8 in Hv. destruct (utf8_go [] b); [|done]. injection Hv as <-.
    apply into_of_bytes. }
  destruct (match ag_actions s !! id with Some a => _ | None => false end); [done|].
  destruct Hinv as [Hok Hr Ht Ho].
  destruct (store_and_bind (knowledge s) None [] b (action_output_root_name id) Hok eq_refl Hj
    Hsafe) as (k1 & h & Hs & Hbind & Hok2 & Hc & Hkeep).
  simpl in Hs. unfold store_action_output, on_knowledge, agent_bump, append_text, agent_append. mrun.
  rewrite Hb, Hs. cbn [map_err set_knowledge knowledge]. rewrite Hbind. cbn [map_err].
  set (g := commit_action_field "output" v (Some h)).
  assert (∀ id' a' h', alter_action id g (ag_actions s) !! id' = Some a' → output_root a' = Some h' →
    output_retention_expired a' = false ∧
    <[action_output_root_name id := mkBoundRoot (action_output_root_name id) h RootReadWrite]>
      (roots (knowledge s)) !! action_output_root_name id' =
      Some (mkBoundRoot (action_output_root_name id') h' RootReadWrite) ∧
    content (set_roots (<[action_output_root_name id :=
      mkBoundRoot (action_output_root_name id) h RootReadWrite]> (roots (knowledge s))) k1) h'
      (into_bytes (ac_output a'))) as Hacts.
  { intros id' a' h'. unfold alter_action.
    destruct (ag_actions s !! id) as [a|] eqn:Ha; destruct (decide (id = id')) as [<-|Hne].
    - rewrite !lookup_insert_eq. destruct a. intros [= <-] [= <-]. simpl. by rewrite Hb.
    - rewrite !lookup_insert_ne by (done || intros ?%root_names_distinct; done).
      intros Hl Hr'. destruct (Ho _ _ _ Hl Hr') as (? & ? & ?). auto.
    - congruence.
    - rewrite lookup_insert_ne by (intros ?%root_names_distinct; done).
      intros Hl Hr'. destruct (Ho _ _ _ Hl Hr') as (? & ? & ?). auto. }
  destruct (streams s) as [i ou e ie re ae ue t] eqn:Est.
  split; [split|]; unfold tape_bytes; simpl; rewrite ?Est; simpl.
  - done.
  - rewrite lookup_insert_ne; [done|]. apply action_root_not_tape.
  - apply Hkeep. unfold tape_bytes in Ht. by rewrite Est in Ht.
  - exact Hacts.
  - done.
Qed.

(** The expiry of an action's output *)
Lemma expire_evidence id cause o s :
  evidence_inv s →
  let s' := (expire_action_output_for_retention values hash_key id cause o s).1 in
  evidence_inv s' ∧ tape_bytes s' = tape_bytes s.
Proof.
  intros Hinv. unfold expire_action_output_for_retention. rewrite run_get.
  destruct (ag_actions s !! id) as [a|] eqn:Ha; [|done]. cbn [isSome negb].
  rewrite run_bind.
  assert (∃ r, (if retention_recorder s then mresult o else mret tt) s = (s, r)) as [r ->]
    by (destruct (retention_recorder s); eauto).
  destruct r as [[]| | |]; [|done..].
  destruct (roots (knowledge s) !! action_output_root_name id) as [br|] eqn:Hbr.
  2:{ unfold on_knowledge, unbind_root. mrun. rewrite Hbr. by destruct s. }
  set (k1 := set_roots (delete (action_output_root_name id) (roots (knowledge s))) (knowledge s)).
  assert (store_ok k1) as Hok1.
  { pose proof (run_kop_ok sha256_hex node_json values values_spec (knowledge s)
      (KUnbind (action_output_root_name id)) (ev_store _ Hinv)) as H.
    simpl in H. unfold unbind_root in H. munfold. by rewrite Hbr in H. }
  destruct (collect_spec values k1) as (k2 & Hc & Hbl & Hn & Hr2 & Hp2).
  unfold on_knowledge, unbind_root, agent_bump. mrun. rewrite Hbr. cbn [map_err set_knowledge knowledge].
  fold k1. rewrite Hc. cbn [map_err set_knowledge ag_actions]. rewrite Ha.
  assert (∀ name r b, name ≠ action_output_root_name id → roots (knowledge s) !! name = Some r →
    content (knowledge s) (br_root r) b →
    roots k2 !! name = Some r ∧ content k2 (br_root r) b) as Hkeep.
  { intros name r b Hne Hl Hcon.
    assert (roots k1 !! name = Some r) as Hl1 by (simpl; by rewrite lookup_delete_ne).
    rewrite Hr2. split; [done|].
    eapply (collected_content sha256_hex node_json values k1 k2 Hbl Hn);
      [by eapply (root_kept values values_spec k1)|].
    by eapply content_mono; [| |exact Hcon]. }
  split; [|done]. split; simpl.
  - by eapply (collected_ok sha256_hex node_json values values_spec k1 k2).
  - destruct (Hkeep _ _ (tape_bytes s) (not_eq_sym (action_root_not_tape id)) (ev_tape_root _ Hinv))
      as [? _]; [by apply Hinv|done].
  - destruct (Hkeep _ _ (tape_bytes s) (not_eq_sym (action_root_not_tape id)) (ev_tape_root _ Hinv))
      as [_ ?]; [by apply Hinv|done].
  - intros id' a' h'. rewrite lookup_insert_Some. intros [[<- <-]|[Hne Hl]]; [done|]. intros Hr'.
    destruct (ev_output _ Hinv _ _ _ Hl Hr') as (He & Hroot & Hcon). split; [done|].
    apply (Hkeep _ _ _ (λ H, Hne (root_names_distinct _ _ (eq_sym H))) Hroot Hcon).
Qed.

(** ** Runs *)

(** What the holder of the lease writes to the tape *)
Definition tape_written (s : AgentState) (e : agent_event) : bytes :=
  match e with
  | ACall (WriteReq f _ d) => if bool_decide (tape_writer s = Some f) then d else []
  | _ => []
  end.
Fixpoint tape_log (s : AgentState) (es : list agent_event) : bytes :=
  match es with
  | [] => []
  | e :: es' => tape_written s e ++ tape_log (agent_step e s).1 es'
  end.

(** No SHA-256 collision among the bytes an event stores and those stored before *)
Definition event_safe (s : AgentState) (e : agent_event) : Prop :=
  match e with
  | ACall (WriteReq f _ d) =>
      tape_writer s = Some f → snapshot_safe (knowledge s) (Some (tape_root s)) d
  | ACall (ClunkReq f) => ∀ x id, ag_fids s !! f = Some x →
      af_node x = NActionField id "output" → snapshot_safe (knowledge s) None (write_buf x)
  | _ => True
  end.
Fixpoint run_safe (s : AgentState) (es : list agent_event) : Prop :=
  match es with
  | [] => True
  | e :: es' => event_safe s e ∧ run_safe (agent_step e s).1 es'
  end.

Definition records (s : AgentState) (b : bytes) (s' : AgentState) : Prop :=
  evidence_inv s' ∧ tape_bytes s' = tape_bytes s ++ b.
Lemma quiet_records s s' : evidence_inv s → agent_quiet s s' → records s [] s'.
Proof.
  intros Hinv Hq. split; [by eapply quiet_evidence|]. destruct Hq as (_ & _ & Ht & _).
  unfold tape_bytes. by rewrite Ht, app_nil_r.
Qed.

Lemma write_records f o d s :
  json_inj node_json → evidence_inv s → lease_inv s → event_safe s (ACall (WriteReq f o d)) →
  records s (tape_written s (ACall (WriteReq f o d)))
    (agent_write sha256_hex node_json hash_key f o d s).1.
Proof.
  intros Hj Hinv [H0 Hl] Hsafe. simpl in *.
  destruct (write_run sha256_hex node_json hash_key f o d s) as [[-> Hno]|(n & Hn & Ho & ->)].
  - rewrite bool_decide_false; [by apply quiet_records|]. intros Hw.
    apply Hl in Hw as (x & Hx & Hnode & Hm).
    specialize (Hno NTape). unfold node_of in Hno. rewrite Hx in Hno. simpl in Hno.
    case_bool_decide; [congruence|]. rewrite Hnode in Hno. rewrite Hno in Hm; done.
  - case_bool_decide as Hw.
    + apply Hl in Hw as Hx. destruct Hx as (x & Hx & Hnode & Hm).
      unfold node_of in Hn. rewrite Hx in Hn. case_bool_decide; [congruence|].
      injection Hn as <-. rewrite Hnode.
      destruct (tape_write_evidence f o d s Hj Hinv (Hsafe Hw)) as (s' & -> & ? & ?). done.
    + apply quiet_records; [done|]. apply write_node_quiet. intros ->. apply Hw, Hl.
      unfold node_of in Hn. case_bool_decide; [done|].
      destruct (ag_fids s !! f) as [x|] eqn:Hx; [|done]. injection Hn as Hn. by exists x.
Qed.

Lemma clunk_records f s :
  json_inj node_json → evidence_inv s → event_safe s (ACall (ClunkReq f)) →
  records s [] (agent_clunk sha256_hex node_json hash_key parse_json print_json f s).1.
Proof.
  intros Hj Hinv Hsafe. destruct (decide (f = ROOT)) as [Hf|Hf];
    [rewrite clunk_none by auto; by apply quiet_records|].
  destruct (ag_fids s !! f) as [x|] eqn:Hx; [|rewrite clunk_none by auto; by apply quiet_records].
  rewrite (clunk_run _ _ _ _ _ f s x Hf Hx).
  assert (evidence_inv (released f s)) as Hinv1 by exact (quiet_evidence _ _ (released_quiet f s) Hinv).
  assert (tape_bytes (released f s) = tape_bytes s ∧ knowledge (released f s) = knowledge s)
    as [Ht Hk] by (unfold released; by case_bool_decide).
  assert ((∃ id, af_node x = NActionField id "output" ∧ wrote x = true) ∨
    ((∀ id, af_node x ≠ NActionField id "output") ∨ wrote x = false)) as [(id & Hn & Hw)|Hq].
  { destruct (wrote x); [|by right; right]. destruct (af_node x); try (right; by left).
    destruct (decide (field = "output")) as [->|?]; [left; eauto|right; left; congruence]. }
  - unfold clunk_commit. rewrite Hw, Hn. cbn [negb].
    destruct (commit_output_evidence id (write_buf x) (released f s)) as [? Hb]; [done..| |].
    + rewrite Hk. by eapply Hsafe.
    + split; [done|]. by rewrite Hb, Ht, app_nil_r.
  - destruct (quiet_records (released f s) _ Hinv1 (commit_quiet x Hq (released f s))) as [? Hb].
    split; [done|]. by rewrite Hb, Ht.
Qed.

Lemma step_records e s :
  json_inj node_json → evidence_inv s → lease_inv s → event_safe s e →
  records s (tape_written s e) (agent_step e s).1.
Proof.
  intros Hj Hinv Hl Hsafe.
  assert (∀ m : Op AgentState unit, step_rel agent_quiet m → records s [] (m s).1) as Hop
    by (intros; by apply quiet_records).
  destruct e as [[| | |f o d| | | |f]|id cause o| | | | | | | |]; cbn [AgentFsFacts.agent_step
    transport_call fs_walk fs_open fs_read fs_write fs_stat fs_create fs_remove fs_clunk
    agent_server AgentFs_FileServer tape_written].
  - apply Hop. qsteps.
  - apply Hop. pose proof agent_open_quiet. qsteps.
  - apply Hop. pose proof agent_read_quiet. qsteps.
  - rewrite !run_ret_state. by apply write_records.
  - apply Hop. pose proof agent_stat_quiet. qsteps.
  - apply Hop. unfold agent_create. qsteps.
  - apply Hop. unfold agent_remove. qsteps.
  - rewrite !run_ret_state. by apply clunk_records.
  - destruct (expire_evidence id cause o s Hinv). split; [done|]. by rewrite app_nil_r.
  - apply Hop. unfold append_child_event. qsteps.
  - apply Hop. unfold append_output_event. qsteps.
  - apply Hop. unfold append_input_event. qsteps.
  - apply Hop. unfold append_status_event. qsteps.
  - apply Hop. unfold publish_evaluation_observation. qsteps.
  - apply Hop. unfold publish_work. qsteps.
  - apply Hop. unfold restore_pending_request. qsteps.
  - apply Hop. unfold set_retention_recorder. qsteps.
Qed.

Lemma run_records s es :
  json_inj node_json → evidence_inv s → lease_inv s → run_safe s es →
  records s (tape_log s es) (agent_run s es).
Proof.
  intros Hj. revert s. induction es as [|e es IH]; intros s Hinv Hl Hsafe; simpl.
  { split; [done|]. by rewrite app_nil_r. }
  destruct Hsafe as [He Hs]. destruct (step_records e s Hj Hinv Hl He) as [Hinv1 Ht1].
  destruct (IH _ Hinv1 (step_lease _ _ _ _ _ _ e s Hl) Hs) as [Hinv2 Ht2].
  split; [done|]. by rewrite Ht2, Ht1, app_assoc.
Qed.

Lemma evidence_new : evidence_inv (agent_new sha256_hex node_json).
Proof.
  unfold agent_new, initial_tape_knowledge, bind_root, checkpoint_from_blocks, put_node,
    contains_node. mrun. simpl.
  set (n := mkDagNode 1 []). set (h := hash_bytes _ _).
  change (or_insert h n ∅) with (<[h := n]> (∅ : gmap ContentHash DagNodeV1)).
  rewrite lookup_insert_eq. cbn [isSome]. split; simpl.
  - set (k := mkStore ∅ (<[h := n]> ∅) ∅ ∅).
    assert (store_ok k) as Hk.
    { pose proof (run_kops_ok sha256_hex node_json values values_spec [KCheckpointBlocks []]) as H.
      exact H. }
    destruct (bind_spec sha256_hex node_json k TAPE_ROOT_NAME h Hk) as [_ H]; [|exact H].
    simpl. rewrite lookup_insert_eq. eauto.
  - by rewrite lookup_insert_eq.
  - exists n. simpl. rewrite lookup_insert_eq. split; [done|constructor].
  - intros id a h'. by rewrite lookup_empty.
Qed.

(** ** A output_recorded output stays until its expiry *)

Definition output_recorded (a : AgentAction) : bool :=
  isSome (output_root a) || output_retention_expired a.
Definition action_inv (s : AgentState) : Prop :=
  0 ≤ next_action s ∧
  ∀ id a, ag_actions s !! id = Some a → ∃ n, 0 ≤ n < next_action s ∧ id = action_id n.
Definition keeps_output (id : string) (s s' : AgentState) : Prop :=
  action_inv s → action_inv s' ∧
  ∀ a, ag_actions s !! id = Some a → output_recorded a = true →
    ∃ a', ag_actions s' !! id = Some a' ∧ ac_output a' = ac_output a ∧
      output_root a' = output_root a ∧
      output_retention_expired a' = output_retention_expired a.
Global Instance keeps_output_preorder id : PreOrder (keeps_output id).
Proof.
  split.
  - intros s Hs. split; [done|]. eauto 10.
  - intros x y z Hxy Hyz Hx. destruct (Hxy Hx) as [Hy Kxy]. destruct (Hyz Hy) as [Hz Kyz].
    split; [done|]. intros a Ha Hr. destruct (Kxy _ Ha Hr) as (a1 & Ha1 & E1 & E2 & E3).
    destruct (Kyz a1 Ha1) as (a2 & Ha2 & ? & ? & ?).
    { unfold output_recorded in *. by rewrite E2, E3. }
    exists a2. split_and!; congruence.
Qed.

Definition same_actions (s s' : AgentState) : Prop :=
  ag_actions s' = ag_actions s ∧ next_action s' = next_action s.
Global Instance same_actions_preorder : PreOrder same_actions.
Proof. split; [done|]. intros x y z [] []. split; congruence. Qed.
Lemma same_actions_keep id s s' : same_actions s s' → keeps_output id s s'.
Proof. intros [Ha Hn] Hs. unfold action_inv. rewrite Ha, Hn. split; [done|]. eauto 10. Qed.
Lemma same_actions_op {A} id (m : Op AgentState A) :
  step_rel same_actions m → step_rel (keeps_output id) m.
Proof. intros Hm s. apply same_actions_keep, Hm. Qed.
Lemma on_knowledge_actions {A} (m : K A) : step_rel same_actions (on_knowledge m).
Proof. intros s. unfold on_knowledge. by destruct (m (knowledge s)). Qed.
Lemma append_to_actions h d : step_rel same_actions (agent_append h d).
Proof. unfold agent_append. fsteps. Qed.
Lemma append_text_actions h d : step_rel same_actions (append_text h d).
Proof. apply append_to_actions. Qed.
Lemma bump_actions n : step_rel same_actions (agent_bump hash_key n).
Proof. unfold agent_bump. fsteps. Qed.
Lemma update_fid_actions f g : step_rel same_actions (update_fid f g).
Proof. unfold update_fid. fsteps. Qed.
#[local] Hint Resolve on_knowledge_actions append_to_actions append_text_actions bump_actions
  update_fid_actions same_actions_op : alan.

Lemma action_id_inj n m : 0 ≤ n → 0 ≤ m → action_id n = action_id m → n = m.
Proof. intros Hn Hm H. apply (inj (String.append "a")) in H. by apply dec_string_Z_inj in H. Qed.

Lemma clone_action_keeps id : step_rel (keeps_output id) (clone_action hash_key).
Proof.
  intros s. unfold clone_action. rewrite run_get. cbv zeta.
  match goal with |- keeps_output id s ((mmodify ?g1 ≫= λ _, mmodify ?g2 ≫= ?k) s).1 =>
    change (keeps_output id s (k tt (g2 (g1 s))).1); transitivity (g2 (g1 s)) end.
  - intros [H0 Hi]. split; [split; simpl; [lia|]|]; simpl.
    + intros id' a. rewrite lookup_insert_Some. intros [[<- <-]|[_ Hl]].
      * exists (next_action s). split; [lia|done].
      * destruct (Hi _ _ Hl) as (n & ? & ->). exists n. split; [lia|done].
    + intros a Ha _. exists a. split; [|done]. rewrite lookup_insert_ne; [done|]. intros <-.
      destruct (Hi _ _ Ha) as (n & ? & Heq). apply action_id_inj in Heq; lia.
  - apply same_actions_keep.
    match goal with |- same_actions ?s1 (?m ?s1).1 => cut (step_rel same_actions m) end;
      [by intros H; apply H|fsteps].
Qed.

(** A commit leaves a output_recorded output alone: a second output is refused. *)
Lemma alter_keeps id id' g s :
  (∀ a, ag_actions s !! id = Some a → id = id' → output_recorded a = true →
     ac_output (g a) = ac_output a ∧ output_root (g a) = output_root a ∧
     output_retention_expired (g a) = output_retention_expired a) →
  keeps_output id s (set_actions (alter_action id' g (ag_actions s)) s).
Proof.
  intros Hg [H0 Hi]. unfold alter_action. split; [split; simpl; [done|]|]; simpl.
  - intros id0 a0. destruct (ag_actions s !! id') as [a1|] eqn:Ha1; [|by apply Hi].
    rewrite lookup_insert_Some. intros [[<- <-]|[_ Hl]]; eauto.
  - intros a Ha Hr. destruct (ag_actions s !! id') as [a1|] eqn:Ha1; [|by eauto 10].
    destruct (decide (id' = id)) as [->|Hne].
    + rewrite lookup_insert_eq. simplify_eq. destruct (Hg a) as (? & ? & ?); [done..|]. eauto 10.
    + rewrite lookup_insert_ne by done. eauto 10.
Qed.

Lemma commit_field_keeps field v r a :
  field ≠ "output" →
  ac_output (commit_action_field field v r a) = ac_output a ∧
  output_root (commit_action_field field v r a) = output_root a ∧
  output_retention_expired (commit_action_field field v r a) = output_retention_expired a.
Proof.
  intros Hf. unfold commit_action_field. destruct a. repeat case_bool_decide; done.
Qed.

Lemma commit_action_keeps id id' field b :
  step_rel (keeps_output id) (commit_action sha256_hex node_json hash_key id' field b).
Proof.
  intros s. unfold commit_action. rewrite run_bind. unfold mlift.
  destruct (from_utf8 b) as [v|]; [|reflexivity]. rewrite run_get.
  match goal with |- keeps_output id s ((?c ≫= ?k) s).1 => set (tl := k); rewrite (run_bind c tl) end.
  assert (∀ root s1, same_actions s s1 →
    (field = "output" → ∀ a, ag_actions s !! id' = Some a → output_recorded a = false) →
    keeps_output id s (tl root s1).1) as Htl.
  { intros root s1 Hs1 Hfree. etrans; [by apply same_actions_keep|]. unfold tl.
    match goal with |- keeps_output id s1 ((mmodify ?g ≫= ?k) s1).1 =>
      change (keeps_output id s1 (k tt (g s1)).1); transitivity (g s1) end.
    - apply alter_keeps. intros a Ha -> Hr. destruct (decide (field = "output")) as [Hf|Hf];
        [|by apply commit_field_keeps].
      destruct Hs1 as [E _]. rewrite E in Ha. rewrite (Hfree Hf a Ha) in Hr. done.
    - apply same_actions_keep.
      match goal with |- same_actions ?s1 (?m ?s1).1 => cut (step_rel same_actions m) end;
        [by intros H; apply H|fsteps]. }
  case_bool_decide as Hf; [|by apply Htl].
  destruct (match ag_actions s !! id' with Some a => _ | None => false end) eqn:Hr; [reflexivity|].
  match goal with |- context [?c s] =>
    assert (step_rel same_actions c) as Hc by (unfold store_action_output; fsteps);
    specialize (Hc s); destruct (c s) as [s1 [root| | |]] end;
    try (by apply same_actions_keep).
  apply Htl; [done|]. intros _ a Ha. by rewrite Ha in Hr.
Qed.

Lemma expire_tail_keeps id id' (g : AgentAction → AgentAction) :
  id ≠ id' →
  step_rel (keeps_output id)
    (s ← mget; a ← mlift (ag_actions s !! id') NotFound;
     mmodify (λ s, set_actions (<[id' := g a]> (ag_actions s)) s);;
     agent_bump hash_key (NActionField id' "output")).
Proof.
  intros Hne s. rewrite run_get, run_bind. unfold mlift.
  destruct (ag_actions s !! id') as [a|] eqn:Ha; [|reflexivity].
  match goal with |- keeps_output id s ((mmodify ?h ≫= ?k) s).1 =>
    change (keeps_output id s (k tt (h s)).1); transitivity (h s) end.
  - pose proof (alter_keeps id id' g s) as H. unfold alter_action in H. rewrite Ha in H.
    apply H. done.
  - apply same_actions_keep, bump_actions.
Qed.
Lemma expire_keeps id id' cause o :
  id ≠ id' →
  step_rel (keeps_output id) (expire_action_output_for_retention values hash_key id' cause o).
Proof.
  intros Hne. unfold expire_action_output_for_retention.
  apply step_bind; [apply _|fsteps|intros s0]. destruct (negb _); [fsteps|].
  do 3 (apply step_bind; [apply _|fsteps|intros ?]). by apply (expire_tail_keeps id id' (λ a, _)).
Qed.
#[local] Hint Resolve clone_action_keeps commit_action_keeps expire_keeps : alan.

Ltac asteps :=
  repeat first [ apply step_modify; intros ?; solve [by apply same_actions_keep]
               | progress msteps ].

Lemma step_keeps_output id e :
  (∀ cause o, e ≠ AExpire id cause o) → step_rel (keeps_output id) (agent_step e).
Proof.
  intros He. destruct e as [req|id' cause o| | | | | | | |]; cbn [AgentFsFacts.agent_step].
  - destruct req; cbn [transport_call fs_walk fs_open fs_read fs_write fs_stat fs_create fs_remove
      fs_clunk agent_server AgentFs_FileServer];
      unfold agent_walk, agent_open, clone_request, agent_read, agent_write, write_node,
        append_tape_block, write_request_control, cancel_request, agent_buffer, agent_stat,
        agent_create, agent_remove, agent_clunk, clunk_commit, commit_input, commit_request,
        commit_ui; asteps.
  - apply expire_keeps. intros <-. by apply (He cause o).
  - unfold append_child_event. asteps.
  - unfold append_output_event. asteps.
  - unfold append_input_event. asteps.
  - unfold append_status_event. asteps.
  - unfold publish_evaluation_observation. asteps.
  - unfold publish_work. asteps.
  - unfold restore_pending_request. asteps.
  - unfold set_retention_recorder. asteps.
Qed.

(** Action numbers are unique over every run. *)
Lemma action_reachable es : action_inv (agent_run (agent_new sha256_hex node_json) es).
Proof.
  assert (∀ s, action_inv s → action_inv (agent_run s es)) as H.
  { induction es as [|e es IH]; intros s Hs; simpl; [done|]. apply IH.
    assert (∃ id, ∀ cause o, e ≠ AExpire id cause o) as [id Hid].
    { destruct e as [|id cause o| | | | | | | |]; try (by exists "").
      exists (String "x" id). intros cause' o' [= Heq _ _]. clear -Heq.
      apply (f_equal String.length) in Heq. simpl in Heq. lia. }
    by apply (step_keeps_output id e Hid s). }
  apply H. unfold agent_new. destruct (initial_tape_knowledge _ _ _). split; [done|].
  intros id a. simpl. by rewrite lookup_empty.
Qed.
End agent_tape.

(** ** Properties *)

(** C17: the checkpoint of the tape is the tape. After any run of the server
    (clients' requests, expiries of stored outputs with their collections, and
    the runtime's own calls, in any order), the checkpoint verifies and
    materializes to exactly the bytes the holders of the write lease wrote, in
    order and all of them, which is also what the stream serves; unless bytes
    that were stored collide under SHA-256. *)
Theorem tape_checkpoint_is_tape (sha256_hex : bytes → string) (node_json : DagNodeV1 → bytes)
    (values : gmap string BoundRoot → list BoundRoot) (hash_key : string → Z)
    (parse_json : string → option Json) (print_json : Json → string)
    (values_spec : ∀ m x, x ∈ values m ↔ ∃ k, m !! k = Some x)
    (node_json_inj : json_inj node_json) (es : list agent_event) :
  let new := agent_new sha256_hex node_json in
  let s := agent_run sha256_hex node_json values hash_key parse_json print_json new es in
  run_safe sha256_hex node_json values hash_key parse_json print_json new es →
  let log := tape_log sha256_hex node_json values hash_key parse_json print_json new es in
  materialized_tape sha256_hex node_json s = Ok log ∧
  Stream.buf (st_tape (streams s)) = log ∧
  verify_tape_checkpoint sha256_hex node_json s = Ok tt.
Proof.
  intros new s Hsafe log.
  destruct (run_records sha256_hex node_json values hash_key parse_json print_json values_spec
    new es node_json_inj) as [Hinv Ht];
    [exact (evidence_new _ _ values values_spec)|apply lease_new|exact Hsafe|].
  assert (tape_bytes s = log) as Hlog.
  { unfold s. rewrite Ht. assert (tape_bytes new = []) as ->; [|done].
    unfold tape_bytes, new, agent_new. by destruct (initial_tape_knowledge _ _ _). }
  rewrite (evidence_materialized _ _ s Hinv), Hlog. split_and!; [done|exact Hlog|].
  unfold verify_tape_checkpoint. rewrite verify_root_ok; [done|apply Hinv|].
  destruct (ev_tape _ _ _ Hinv) as (n & Hn & _). eauto.
Qed.

(** The output_recorded output of an action is kept. Once an output is committed to
    an action it is read back exactly, after any later run in which that action
    is not expired: other writers cannot replace it, and the expiry of other
    actions, with the collection it runs, does not lose it; unless bytes that
    were stored collide under SHA-256. *)
Theorem recorded_output_kept (sha256_hex : bytes → string) (node_json : DagNodeV1 → bytes)
    (values : gmap string BoundRoot → list BoundRoot) (hash_key : string → Z)
    (parse_json : string → option Json) (print_json : Json → string)
    (values_spec : ∀ m x, x ∈ values m ↔ ∃ k, m !! k = Some x)
    (node_json_inj : json_inj node_json) (es es' : list agent_event) (id : string)
    (a : AgentAction) :
  let new := agent_new sha256_hex node_json in
  let run := agent_run sha256_hex node_json values hash_key parse_json print_json in
  let s := run new es in
  let s' := run s es' in
  run_safe sha256_hex node_json values hash_key parse_json print_json new (es ++ es') →
  ag_actions s !! id = Some a → output_recorded a = true →
  (∀ cause o, AExpire id cause o ∉ es') →
  computed_bytes sha256_hex node_json (NActionField id "output") s' =
  Ok (into_bytes (ac_output a)).
Proof.
  intros new run s s' Hsafe Ha Hrec Hno.
  assert (s' = run new (es ++ es')) as Hs' by (symmetry; apply foldl_app).
  destruct (run_records sha256_hex node_json values hash_key parse_json print_json values_spec
    new (es ++ es') node_json_inj) as [Hinv _];
    [exact (evidence_new _ _ values values_spec)|apply lease_new|exact Hsafe|].
  fold run in Hinv. rewrite <-Hs' in Hinv.
  assert (keeps_output id s s') as Hk.
  { clear -Hno. subst s' run. generalize s. clear s.
    induction es' as [|e es' IH]; intros s; simpl; [reflexivity|].
    transitivity (agent_step sha256_hex node_json values hash_key parse_json print_json e s).1.
    - apply step_keeps_output. intros cause o ->. apply (Hno cause o). by left.
    - apply IH. intros cause o Hin. apply (Hno cause o). by right. }
  assert (action_inv s) as Hai by apply action_reachable.
  destruct (proj2 (Hk Hai) a Ha Hrec) as (a' & Ha' & E & _).
  rewrite (evidence_read _ _ s' id a' Hinv Ha'). by rewrite E.
Qed.

(** ** Witnesses *)

#[local] Instance toy_agent_server : FileServer AgentState :=
  AgentFs_FileServer toy_sha toy_json toy_hash_key toy_agent_parse toy_agent_print.
Abbreviation toy_run_safe :=
  (run_safe toy_sha toy_json toy_values toy_hash_key toy_agent_parse toy_agent_print).

Lemma toy_safe s es : toy_run_safe s es.
Proof.
  revert s. induction es as [|e es IH]; intros s; simpl; [done|]. split; [|apply IH].
  unfold event_safe. destruct e as [[]| | | | | | | | |]; try done; intros; apply toy_collision_free.
Qed.

Lemma tape_session_log :
  tape_log toy_sha toy_json toy_values toy_hash_key toy_agent_parse toy_agent_print toy_agent_new tape_session =
  into_bytes "turn-1turn-2".
Proof. vm_compute. reflexivity. Qed.

Lemma tape_checkpoint_is_tape_witness :
  materialized_tape toy_sha toy_json (toy_agent_run toy_agent_new tape_session) =
  Ok (into_bytes "turn-1turn-2").
Proof.
  rewrite <-tape_session_log.
  apply (tape_checkpoint_is_tape toy_sha toy_json toy_values toy_hash_key toy_agent_parse toy_agent_print
    toy_values_spec toy_json_inj tape_session (toy_safe _ _)).
Defined.

(** Two actions record their output; the second is expired, and the first written
    again. *)
Definition record_output (f : Fid) (id text : string) : list agent_event :=
  [ACall (WalkReq ROOT f ["actions"; id; "output"]); ACall (OpenReq f Write);
   ACall (WriteReq f 0 (into_bytes text)); ACall (ClunkReq f)].
Definition output_session : list agent_event :=
  [ACall (WalkReq ROOT 1 ["actions"; "clone"]); ACall (OpenReq 1 ReadWrite);
   ACall (WalkReq ROOT 2 ["actions"; "clone"]); ACall (OpenReq 2 ReadWrite)] ++
  record_output 3 "a0" "kept" ++ record_output 4 "a1" "dropped".
Definition expiry_session : list agent_event :=
  AExpire "a1" "age" (Ok tt) :: record_output 5 "a0" "other".

Lemma output_session_records :
  (λ a, (ac_output a, output_recorded a)) <$>
    ag_actions (toy_agent_run toy_agent_new output_session) !! "a0" = Some ("kept", true).
Proof. vm_compute. reflexivity. Qed.

(** The expiry takes place: the other output reads as its retention record. *)
Lemma expiry_session_expires :
  computed_bytes toy_sha toy_json (NActionField "a1" "output")
    (toy_agent_run (toy_agent_run toy_agent_new output_session) expiry_session) =
  Ok (into_bytes (retention_expired_record "/actions/a1/output" "age")).
Proof. vm_compute. reflexivity. Qed.

Lemma recorded_output_kept_witness :
  computed_bytes toy_sha toy_json (NActionField "a0" "output")
    (toy_agent_run (toy_agent_run toy_agent_new output_session) expiry_session) =
  Ok (into_bytes "kept").
Proof.
  destruct (proj1 (fmap_Some _ _ _) output_session_records) as (a & Ha & E). injection E as E1 E2.
  rewrite E1.
  apply (recorded_output_kept toy_sha toy_json toy_values toy_hash_key toy_agent_parse toy_agent_print
    toy_values_spec toy_json_inj output_session expiry_session "a0" a (toy_safe _ _) Ha (eq_sym E2)).
  intros cause o Hin. repeat (apply elem_of_cons in Hin as [Hin|Hin]; [discriminate Hin|]).
  by apply elem_of_nil in Hin.
Defined.
