(* ===== verification/RustChars.v ===== *)
(** * Text as its characters

    [str] as the sequence of its Unicode scalar values, with the operations of the
    Rust standard library that scanners of shell commands use: [chars], [trim],
    [split_whitespace], prefixes, and the file name of a Unix path. *)
From S2P Require Import Prelude RustStd.

Abbreviation char := Z.
Abbreviation text := (list char).

(** A literal of ASCII characters *)
Definition code (c : ascii) : char := Z.of_N (N_of_ascii c).
Definition lit (s : string) : text := code <$> String.list_ascii_of_string s.

(** [t == "..."], [matches!(t, "..." | "..")] and [matches!(c, '..' | '..')] *)
Definition is_lit (t : text) (s : string) : bool := bool_decide (t = lit s).
Definition one_of (t : text) (l : list string) : bool := existsb (is_lit t) l.
Definition is_char (c : char) (a : ascii) : bool := c =? code a.
Definition char_in (c : char) (s : string) : bool := existsb (Z.eqb c) (lit s).

(** [char::is_whitespace]: the characters with the property White_Space *)
Definition is_whitespace (c : char) : bool :=
  ((9 <=? c) && (c <=? 13)) || (c =? 32) || (c =? 133) || (c =? 160) || (c =? 5760)
  || ((8192 <=? c) && (c <=? 8202)) || (c =? 8232) || (c =? 8233) || (c =? 8239)
  || (c =? 8287) || (c =? 12288).
Definition is_ascii_digit (c : char) : bool := (48 <=? c) && (c <=? 57).
Definition is_ascii_alphanumeric (c : char) : bool :=
  is_ascii_digit c || ((65 <=? c) && (c <=? 90)) || ((97 <=? c) && (c <=? 122)).
(** [char::is_ascii_whitespace]: without the vertical tab *)
Definition is_ascii_whitespace (c : char) : bool :=
  (c =? 9) || (c =? 10) || (c =? 12) || (c =? 13) || (c =? 32).
Definition to_ascii_lowercase (t : text) : text :=
  (λ c, if (65 <=? c) && (c <=? 90) then c + 32 else c) <$> t.

(** [char::len_utf8] and [str::len] *)
Definition len_utf8 (c : char) : Z :=
  if c <? 128 then 1 else if c <? 2048 then 2 else if c <? 65536 then 3 else 4.
Definition text_len (t : text) : Z := foldr (λ c n, len_utf8 c + n) 0 t.

(** [trim_start_matches] and [trim_matches] *)
Fixpoint trim_start_matches (p : char → bool) (t : text) : text :=
  match t with
  | c :: t' => if p c then trim_start_matches p t' else t
  | [] => []
  end.
Definition trim_matches (p : char → bool) (t : text) : text :=
  reverse (trim_start_matches p (reverse (trim_start_matches p t))).
Definition text_trim : text → text := trim_matches is_whitespace.

(** [split_whitespace().collect()]; [word] is the word being read *)
Fixpoint words_go (word : text) (t : text) : list text :=
  match t with
  | [] => if bool_decide (word = []) then [] else [word]
  | c :: t' =>
      if is_whitespace c then
        if bool_decide (word = []) then words_go [] t' else word :: words_go [] t'
      else words_go (word ++ [c]) t'
  end.
Definition split_whitespace (t : text) : list text := words_go [] t.

(** [t.starts_with("..")], [strip_prefix], [strip_suffix] of one character,
    [contains] of a text and of a character, [split_once] at a character *)
Fixpoint text_strip_prefix (p t : text) : option text :=
  match p, t with
  | [], _ => Some t
  | a :: p', b :: t' => if a =? b then text_strip_prefix p' t' else None
  | _ :: _, [] => None
  end.
Definition text_starts (t : text) (s : string) : bool := isSome (text_strip_prefix (lit s) t).
Definition strip_suffix_char (a : ascii) (t : text) : option text :=
  match reverse t with
  | c :: r => if is_char c a then Some (reverse r) else None
  | [] => None
  end.
Fixpoint text_contains (t : text) (s : string) : bool :=
  text_starts t s || match t with [] => false | _ :: t' => text_contains t' s end.
Definition contains_char (t : text) (a : ascii) : bool := existsb (λ c, is_char c a) t.
Fixpoint split_once_char (a : ascii) (t : text) : option (text * text) :=
  match t with
  | [] => None
  | c :: t' =>
      if is_char c a then Some ([], t')
      else match split_once_char a t' with
           | Some (l, r) => Some (c :: l, r)
           | None => None
           end
  end.

(** ** Unix paths *)

(** The pieces of a path between slashes *)
Fixpoint slash_pieces (t : text) : list text :=
  match t with
  | [] => [[]]
  | c :: t' =>
      if is_char c "/" then [] :: slash_pieces t'
      else match slash_pieces t' with
           | p :: ps => (c :: p) :: ps
           | [] => [[c]]
           end
  end.

(** [Path::file_name]: the last component when it is a name. Empty pieces and [.]
    are no components, except a [.] that starts a relative path. *)
Definition file_name (t : text) : option text :=
  match last (filter (λ p, p ≠ [] ∧ p ≠ lit ".") (slash_pieces t)) with
  | Some p => if is_lit p ".." then None else Some p
  | None => None
  end.

(** The split of a file name at its last dot: [(before, after)] *)
Definition split_at_dot (name : text) : option (text * text) :=
  match split_once_char "." (reverse name) with
  | Some (after, before) => Some (reverse before, reverse after)
  | None => None
  end.
(** [Path::extension] and [Path::file_stem] *)
Definition extension (t : text) : option text :=
  match file_name t with
  | Some name =>
      match split_at_dot name with
      | Some (before, after) => if bool_decide (before = []) then None else Some after
      | None => None
      end
  | None => None
  end.
Definition file_stem (t : text) : option text :=
  match file_name t with
  | Some name =>
      match split_at_dot name with
      | Some (before, _) => if bool_decide (before = []) then Some name else Some before
      | None => Some name
      end
  | None => None
  end.

(** ** Facts *)

Lemma one_of_spec t l : one_of t l = true ↔ ∃ s, s ∈ l ∧ t = lit s.
Proof.
  unfold one_of. rewrite existsb_exists. setoid_rewrite <-list_elem_of_In. unfold is_lit.
  setoid_rewrite bool_decide_eq_true. done.
Qed.
Lemma is_lit_spec t s : is_lit t s = true ↔ t = lit s.
Proof. apply bool_decide_eq_true. Qed.

Lemma slash_pieces_plain t :
  Forall (λ p, contains_char p "/" = false) (slash_pieces t).
Proof.
  induction t as [|c t IH]; simpl; [by repeat constructor|].
  destruct (is_char c "/") eqn:Hc; [by constructor|].
  destruct (slash_pieces t) as [|p ps]; constructor.
  - unfold contains_char. simpl. by rewrite Hc.
  - constructor.
  - inversion IH; subst. unfold contains_char in *. simpl. by rewrite Hc.
  - by inversion IH.
Qed.
Lemma slash_pieces_one p : contains_char p "/" = false → slash_pieces p = [p].
Proof.
  unfold contains_char. induction p as [|c p IH]; [done|]. simpl.
  intros [Hc Hp]%orb_false_iff. by rewrite Hc, IH.
Qed.

Example file_name_examples :
  file_name (lit "/usr/bin/git") = Some (lit "git") ∧ file_name (lit "a/./b/") = Some (lit "b") ∧
  file_name (lit "..") = None ∧ file_name (lit "/") = None ∧
  extension (lit "x/run.tests.py") = Some (lit "py") ∧ file_stem (lit ".bashrc") = Some (lit ".bashrc").
Proof. vm_compute. split_and!; reflexivity. Qed.

(** ** Unix paths over text ([std::path])

    Components, parents, joins and prefixes of a path given as its characters, as
    the sandbox uses them; and the host file system behind [exists], [metadata]
    and [canonicalize] as a class, because that is the operating system's. *)


Inductive Component : Type :=
  RootDir | CurDir | ParentDir | Normal (name : text).
Global Instance Component_eq_dec : EqDecision Component.
Proof. solve_decision. Defined.

Definition is_absolute (t : text) : bool := text_starts t "/".

(** The component a piece between slashes stands for: empty pieces and [.] are
    dropped. *)
Definition piece_component (p : text) : option Component :=
  if bool_decide (p = []) || is_lit p "." then None
  else if is_lit p ".." then Some ParentDir
  else Some (Normal p).

(** A relative path that starts with [.] keeps that component. *)
Definition starts_cur_dir (t : text) : bool :=
  match slash_pieces t with p :: _ => is_lit p "." | [] => false end.

(** [Path::components] *)
Definition components (t : text) : list Component :=
  (if is_absolute t then [RootDir] else if starts_cur_dir t then [CurDir] else [])
  ++ omap piece_component (slash_pieces t).

(** [Path::starts_with] and [Path::strip_prefix] (the components that are left) *)
Fixpoint strip_components (base path : list Component) : option (list Component) :=
  match base, path with
  | [], _ => Some path
  | b :: base', c :: path' => if bool_decide (b = c) then strip_components base' path' else None
  | _ :: _, [] => None
  end.
Definition strip_path_prefix (path base : text) : option (list Component) :=
  strip_components (components base) (components path).
Definition path_starts_with (path base : text) : bool := isSome (strip_path_prefix path base).
(** [==] on paths *)
Definition path_eq (a b : text) : bool := bool_decide (components a = components b).

Fixpoint join_slash (ps : list text) : text :=
  match ps with
  | [] => []
  | [p] => p
  | p :: ps' => p ++ lit "/" ++ join_slash ps'
  end.

(** [Path::parent]: the text before the last component, without what trails it.
    [head_len] characters (a root slash or a leading [.]) come before the body. *)
Fixpoint drop_blank (rev_pieces : list text) : list text :=
  match rev_pieces with
  | p :: ps => if isSome (piece_component p) then rev_pieces else drop_blank ps
  | [] => []
  end.
Definition path_parent (t : text) : option text :=
  let head_len := if is_absolute t || starts_cur_dir t then 1%nat else 0%nat in
  let body := drop head_len t in
  match drop_blank (reverse (slash_pieces body)) with
  | _ :: rest => Some (take head_len t ++ join_slash (reverse (drop_blank rest)))
  | [] => if starts_cur_dir t && negb (is_absolute t) then Some [] else None
  end.

(** [PathBuf::push] and [Path::join]; [PathBuf::pop] *)
Definition ends_with_slash (t : text) : bool :=
  match last t with Some c => is_char c "/" | None => false end.
Definition path_join (base p : text) : text :=
  if is_absolute p then p
  else if bool_decide (base = []) || ends_with_slash base then base ++ p
  else base ++ lit "/" ++ p.
Definition path_pop (t : text) : text := default t (path_parent t).

(** ** The host's file system *)

(** [Path::exists], [fs::canonicalize] and, for a path that exists, whether it is
    a regular file with several links; [None] is an error other than not-found. *)
Class HostFs : Type := {
  exists_at : text → bool;
  real_path : text → option text;
  multiply_linked : text → option bool;
}.

(** ** Facts *)

Example path_examples :
  path_parent (lit "/a//b/./") = Some (lit "/a") ∧ path_parent (lit "/") = None ∧
  path_parent (lit "./a") = Some (lit ".") ∧ path_parent (lit ".") = Some [] ∧
  path_parent (lit "a/..") = Some (lit "a") ∧ path_parent [] = None ∧
  components (lit "./a/../b/") = [CurDir; Normal (lit "a"); ParentDir; Normal (lit "b")] ∧
  path_join (lit "/a/") (lit "b/c") = lit "/a/b/c" ∧
  path_starts_with (lit "/ab/c") (lit "/a") = false.
Proof. vm_compute. split_and!; reflexivity. Qed.

Lemma strip_components_spec base path rest :
  strip_components base path = Some rest ↔ path = base ++ rest.
Proof.
  revert path. induction base as [|b base IH]; intros [|c path]; simpl.
  - split; [by intros [= <-]|by intros <-].
  - split; [by intros [= <-]|by intros <-].
  - done.
  - case_bool_decide as Hb; [subst; rewrite IH; split; [by intros ->|by intros [= ->]]|].
    split; [done|]. intros [= -> _]. done.
Qed.
Lemma path_starts_with_spec path base :
  path_starts_with path base = true ↔ components base `prefix_of` components path.
Proof.
  unfold path_starts_with, strip_path_prefix, prefix.
  destruct (strip_components _ _) as [rest|] eqn:H; simpl.
  - apply strip_components_spec in H. split; [by exists rest|done].
  - split; [done|]. intros [k Hk]. apply strip_components_spec in Hk. congruence.
Qed.
