(* ===== verification/BashSyntax.v ===== *)
(** * Scanning of shell commands (crates/tools/src/bash_classifier/shell_syntax.rs)

    The two character scanners of the command classifier: removal of line
    continuations and the split of a command into the fragments it runs. *)
From S2P Require Import Prelude RustStd RustChars.

Definition is_shell_word_boundary (c : char) : bool :=
  is_whitespace c || char_in c ";|&()<>{}".

Definition is_newline (c : char) : bool := (c =? 10) || (c =? 13).
Definition is_backslash (c : char) : bool := is_char c "\".
Definition is_squote (c : char) : bool := is_char c "'".
Definition is_dquote (c : char) : bool := c =? 34.

(** The flags of a scanner *)
Record ScanState : Type := mkScan {
  in_single : bool;
  in_double : bool;
  in_comment : bool;
  escaped : bool;
  word_started : bool;
}.
Definition scan_start : ScanState := mkScan false false false false false.

Definition set_in_single b s := mkScan b (in_double s) (in_comment s) (escaped s) (word_started s).
Definition set_in_double b s := mkScan (in_single s) b (in_comment s) (escaped s) (word_started s).
Definition set_in_comment b s := mkScan (in_single s) (in_double s) b (escaped s) (word_started s).
Definition set_escaped b s := mkScan (in_single s) (in_double s) (in_comment s) b (word_started s).
Definition set_word b s := mkScan (in_single s) (in_double s) (in_comment s) (escaped s) b.

(** [consume_shell_line_continuation] on the characters after a backslash: what
    is left when they start a line break *)
Definition consume_shell_line_continuation (rest : text) : option text :=
  match rest with
  | 10 :: rest' => Some rest'
  | 13 :: 10 :: rest' => Some rest'
  | 13 :: rest' => Some rest'
  | _ => None
  end.

(** The flags after a character that [normalize_shell_line_continuations] keeps;
    a backslash here starts no line continuation. *)
Definition normalize_step (s : ScanState) (c : char) : ScanState :=
  if in_comment s then
    if is_newline c then set_word false (set_in_comment false s) else s
  else if escaped s then set_word true (set_escaped false s)
  else if in_single s then set_word true (if is_squote c then set_in_single false s else s)
  else if in_double s then
    if is_backslash c then set_escaped true s
    else if is_dquote c then set_word true (set_in_double false s)
    else set_word true s
  else if is_backslash c then set_word true (set_escaped true s)
  else if is_squote c then set_word true (set_in_single true s)
  else if is_dquote c then set_word true (set_in_double true s)
  else if is_char c "#" && negb (word_started s) then set_in_comment true s
  else if is_shell_word_boundary c then set_word false s
  else set_word true s.

(** Whether a backslash is looked at for a line continuation *)
Definition continuation_position (s : ScanState) : bool :=
  negb (in_comment s) && negb (escaped s) && negb (in_single s).

(** The [while let Some(ch) = chars.next()] loop. A line continuation drops at
    most three characters and changes no flag. *)
Fixpoint normalize_go (s : ScanState) (t : text) : text :=
  match t with
  | [] => []
  | c :: t' =>
      if continuation_position s && is_backslash c then
        match t' with
        | 10 :: t2 => normalize_go s t2
        | 13 :: 10 :: t3 => normalize_go s t3
        | 13 :: t2 => normalize_go s t2
        | _ => c :: normalize_go (normalize_step s c) t'
        end
      else c :: normalize_go (normalize_step s c) t'
  end.
Definition normalize_shell_line_continuations (command : text) : text :=
  normalize_go scan_start command.

(** [push_shell_fragment] *)
Definition push_shell_fragment (fragments : list text) (current : text) : list text :=
  if bool_decide (text_trim current = []) then fragments else fragments ++ [current].

(** The loop of [split_shell_fragments] *)
Fixpoint split_go (s : ScanState) (fragments : list text) (current : text) (t : text) :
    list text :=
  match t with
  | [] => push_shell_fragment fragments current
  | c :: t' =>
      if in_comment s then
        if is_newline c then
          split_go (set_word false (set_in_comment false s))
            (push_shell_fragment fragments current) [] t'
        else split_go s fragments current t'
      else if escaped s then
        split_go (set_word true (set_escaped false s)) fragments (current ++ [c]) t'
      else if in_single s then
        split_go (set_word true (if is_squote c then set_in_single false s else s))
          fragments (current ++ [c]) t'
      else if in_double s then
        split_go
          (if is_backslash c then set_escaped true s
           else if is_dquote c then set_word true (set_in_double false s)
           else set_word true s)
          fragments (current ++ [c]) t'
      else if is_backslash c then
        split_go (set_word true (set_escaped true s)) fragments (current ++ [c]) t'
      else if is_squote c then
        split_go (set_word true (set_in_single true s)) fragments (current ++ [c]) t'
      else if is_dquote c then
        split_go (set_word true (set_in_double true s)) fragments (current ++ [c]) t'
      else if is_char c "#" && negb (word_started s) then
        split_go (set_in_comment true s) fragments current t'
      else
        let cut rest := split_go (set_word false s) (push_shell_fragment fragments current) [] rest in
        match t' with
        | c2 :: t2 =>
            if is_char c "&" && is_char c2 "&" then cut t2
            else if is_char c "|" && is_char c2 "|" then cut t2
            else if char_in c ";|" || is_newline c then cut t'
            else if is_shell_word_boundary c then
              split_go (set_word false s) fragments (current ++ [c]) t'
            else split_go (set_word true s) fragments (current ++ [c]) t'
        | [] =>
            if char_in c ";|" || is_newline c then cut t'
            else if is_shell_word_boundary c then
              split_go (set_word false s) fragments (current ++ [c]) t'
            else split_go (set_word true s) fragments (current ++ [c]) t'
        end
  end.
Definition split_shell_fragments (command : text) : list text :=
  split_go scan_start [] [] command.
