(* ===== verification/BashClassifier.v ===== *)
(** * The capability of a shell command
      (crates/tools/src/bash_classifier: mod.rs, wrappers.rs, git.rs, read.rs, write.rs)

    A command is lower-cased, split into fragments and each fragment classified
    by its words; the command gets the strongest capability of its fragments.
    Parameter: [str::to_lowercase] of Unicode text. *)
From S2P Require Import Prelude RustStd Policy RustChars BashSyntax.

(** [tokens[0]]; the classifier calls these functions on at least one word. *)
Definition first_word (tokens : list text) : text := default [] (head tokens).
(** [tokens.get(1).copied().unwrap_or_default()] *)
Definition second_word (tokens : list text) : text := default [] (tokens !! 1%nat).

(** ** wrappers.rs *)

Definition command_basename (command : text) : text := default command (file_name command).

Definition is_env_assignment (word : text) : bool :=
  match split_once_char "=" word with
  | None => false
  | Some (name, _) =>
      negb (bool_decide (name = []))
      && forallb (λ c, is_char c "_" || is_ascii_alphanumeric c) name
  end.

Definition transparent_wrappers : list string :=
  ["command"; "builtin"; "exec"; "nice"; "nohup"; "timeout"; "stdbuf"; "setsid"].
Definition is_transparent_command_wrapper (command : text) : bool :=
  one_of command transparent_wrappers.
Definition shell_control_prefixes : list string :=
  ["!"; "if"; "then"; "elif"; "else"; "fi"; "for"; "while"; "until"; "do"; "done"; "case";
   "esac"; "select"; "function"].
Definition is_shell_control_prefix (word : text) : bool := one_of word shell_control_prefixes.
Definition unsupported_wrappers : list string :=
  ["env"; "command"; "builtin"; "exec"; "time"; "nice"; "nohup"; "timeout"; "stdbuf"; "setsid"].
Definition is_unsupported_shell_wrapper (command : text) : bool :=
  one_of command unsupported_wrappers.
Definition common_wrapper_query_flag (arg : text) : bool := one_of arg ["--help"; "--version"].

(** [tokens.iter().position(|word| !is_env_assignment(word))], the words from there *)
Fixpoint skip_assignments (tokens : list text) : list text :=
  match tokens with
  | w :: ts => if is_env_assignment w then skip_assignments ts else tokens
  | [] => []
  end.
Definition contains_unsupported_shell_form (tokens : list text) : bool :=
  match skip_assignments tokens with
  | [] => false
  | word :: _ =>
      is_shell_control_prefix word || is_unsupported_shell_wrapper (command_basename word)
  end.

Inductive EnvOptionBehavior : Set :=
  Passthrough | TakesNextArg | InlineValue | SplitStringNextArg | SplitStringInlineValue.

(** The loop of [env_short_option_behavior] over the characters of a cluster *)
Fixpoint env_cluster (saw_passthrough : bool) (rest : text) : option EnvOptionBehavior :=
  match rest with
  | [] => if saw_passthrough then Some Passthrough else None
  | c :: rest' =>
      if char_in c "i0" then env_cluster true rest'
      else if char_in c "ucC" then
        Some (if bool_decide (rest' = []) then TakesNextArg else InlineValue)
      else if char_in c "sS" then
        Some (if bool_decide (rest' = []) then SplitStringNextArg else SplitStringInlineValue)
      else None
  end.
Definition env_short_option_behavior (arg : text) : option EnvOptionBehavior :=
  if text_starts arg "--" then None
  else match text_strip_prefix (lit "-") arg with
       | None => None
       | Some rest => if bool_decide (rest = []) then None else env_cluster false rest
       end.
Definition env_option_behavior (arg : text) : option EnvOptionBehavior :=
  if one_of arg ["--ignore-environment"; "--null"] then Some Passthrough
  else if is_lit arg "--split-string" then Some SplitStringNextArg
  else if text_starts arg "--split-string=" then Some SplitStringInlineValue
  else if one_of arg ["--unset"; "--chdir"] then Some TakesNextArg
  else if text_starts arg "--unset=" || text_starts arg "--chdir=" then Some InlineValue
  else env_short_option_behavior arg.

Definition command_wrapper_is_exec_flag (arg : text) : bool :=
  match text_strip_prefix (lit "-") arg with
  | None => false
  | Some rest => negb (bool_decide (rest = [])) && forallb (λ c, is_char c "p") rest
  end.
Definition command_wrapper_is_query_flag (arg : text) : bool :=
  match text_strip_prefix (lit "-") arg with
  | None => false
  | Some rest =>
      negb (bool_decide (rest = [])) && forallb (λ c, char_in c "pvV") rest
      && existsb (λ c, char_in c "vV") rest
  end.
Definition builtin_query_flag (arg : text) : bool := is_lit arg "-p".
Definition is_exec_wrapper_flag (arg : text) : bool :=
  match text_strip_prefix (lit "-") arg with
  | None => false
  | Some rest => negb (bool_decide (rest = [])) && forallb (λ c, char_in c "cl") rest
  end.
Definition has_inline_exec_argv0 (arg : text) : bool :=
  text_starts arg "-a" && (2 <? text_len arg).

Definition exact_or_inline_option_with_value (arg : text) (short long : list string) : bool :=
  existsb (λ flag, is_lit arg flag || text_starts arg flag) short
  || existsb (λ flag, is_lit arg flag || text_starts arg (flag +:+ "=")) long.
Definition has_attached_option_value (arg : text) : bool :=
  contains_char arg "="
  || (text_starts arg "-" && negb (text_starts arg "--") && (2 <? text_len arg)).
Definition value_width (arg : text) : nat := if has_attached_option_value arg then 1 else 2.

(** The loops [while let Some(arg) = args.get(index)] over the options of a
    wrapper: what a turn of the loop does. *)
Inductive ScanStep : Set :=
  | StopHere              (* [break] *)
  | StopAfter             (* [index += 1; break] *)
  | Skip (n : nat)        (* [index += n; continue] *)
  | Refuse.               (* [return None] *)
(** The index at the end of the loop and the arguments from there, unless the
    loop returns. *)
Fixpoint scan_options (step : text → ScanStep) (args : list text) (index : nat) :
    option (nat * list text) :=
  match args with
  | [] => Some (index, [])
  | arg :: rest =>
      match step arg with
      | StopHere => Some (index, args)
      | StopAfter => Some (S index, rest)
      | Refuse => None
      | Skip 2 =>
          match rest with
          | _ :: rest' => scan_options step rest' (2 + index)
          | [] => Some (2 + index, [])
          end%nat
      | Skip _ => scan_options step rest (S index)
      end
  end.
(** [args.get(index)?; Some(index)] *)
Definition offset_of (r : option (nat * list text)) : option nat :=
  match r with Some (index, _ :: _) => Some index | _ => None end.

Definition env_step (arg : text) : ScanStep :=
  if is_lit arg "--" then StopAfter
  else if is_env_assignment arg then Skip 1
  else match env_option_behavior arg with
       | Some (Passthrough | InlineValue | SplitStringInlineValue) => Skip 1
       | Some (TakesNextArg | SplitStringNextArg) => Skip 2
       | None => StopHere
       end.
Definition env_command_offset (args : list text) : option nat :=
  offset_of (scan_options env_step args 0).

Definition command_wrapper_offset (args : list text) : option nat :=
  offset_of (scan_options (λ arg,
    if is_lit arg "--" then StopAfter
    else if command_wrapper_is_query_flag arg then Refuse
    else if command_wrapper_is_exec_flag arg then Skip 1
    else StopHere) args 0).
Definition builtin_wrapper_offset (args : list text) : option nat :=
  match args with
  | [] => None
  | arg :: rest =>
      if is_lit arg "--" then match rest with _ :: _ => Some 1%nat | [] => None end
      else if builtin_query_flag arg then None
      else Some 0%nat
  end.
Definition exec_wrapper_offset (args : list text) : option nat :=
  offset_of (scan_options (λ arg,
    if is_lit arg "--" then StopAfter
    else if is_lit arg "-a" then Skip 2
    else if has_inline_exec_argv0 arg || is_exec_wrapper_flag arg then Skip 1
    else StopHere) args 0).
Definition nice_wrapper_offset (args : list text) : option nat :=
  offset_of (scan_options (λ arg,
    if common_wrapper_query_flag arg then Refuse
    else if is_lit arg "--" then StopAfter
    else if exact_or_inline_option_with_value arg ["-n"] ["--adjustment"]
    then Skip (value_width arg)
    else if text_starts arg "-" then Skip 1
    else StopHere) args 0).
Definition nohup_wrapper_offset (args : list text) : option nat :=
  match args with
  | [] => None
  | arg :: rest =>
      if common_wrapper_query_flag arg then None
      else if is_lit arg "--" then match rest with _ :: _ => Some 1%nat | [] => None end
      else Some 0%nat
  end.
(** The duration is a word of its own. *)
Definition timeout_wrapper_offset (args : list text) : option nat :=
  match scan_options (λ arg,
    if common_wrapper_query_flag arg then Refuse
    else if is_lit arg "--" then StopAfter
    else if exact_or_inline_option_with_value arg ["-k"; "-s"] ["--kill-after"; "--signal"]
    then Skip (value_width arg)
    else if one_of arg ["-v"; "--verbose"; "--foreground"; "--preserve-status"] then Skip 1
    else if text_starts arg "-" then Skip 1
    else StopHere) args 0 with
  | Some (index, _ :: _ :: _) => Some (S index)
  | _ => None
  end.
Definition stdbuf_wrapper_offset (args : list text) : option nat :=
  offset_of (scan_options (λ arg,
    if common_wrapper_query_flag arg then Refuse
    else if is_lit arg "--" then StopAfter
    else if exact_or_inline_option_with_value arg ["-i"; "-o"; "-e"] []
    then Skip (value_width arg)
    else if text_starts arg "-" then Skip 1
    else StopHere) args 0).
Definition setsid_wrapper_offset (args : list text) : option nat :=
  offset_of (scan_options (λ arg,
    if one_of arg ["-h"; "-V"] || common_wrapper_query_flag arg then Refuse
    else if is_lit arg "--" then StopAfter
    else if one_of arg ["-c"; "-f"; "-w"] then Skip 1
    else if text_starts arg "-" then Skip 1
    else StopHere) args 0).

Definition transparent_wrapper_offset (command : text) (args : list text) : option nat :=
  if is_lit command "command" then command_wrapper_offset args
  else if is_lit command "exec" then exec_wrapper_offset args
  else if is_lit command "builtin" then builtin_wrapper_offset args
  else if is_lit command "nice" then nice_wrapper_offset args
  else if is_lit command "nohup" then nohup_wrapper_offset args
  else if is_lit command "timeout" then timeout_wrapper_offset args
  else if is_lit command "stdbuf" then stdbuf_wrapper_offset args
  else if is_lit command "setsid" then setsid_wrapper_offset args
  else None.

(** [env_split_string_flag(args).is_some()] *)
Fixpoint env_split_string_flag (args : list text) : bool :=
  match args with
  | [] => false
  | arg :: rest =>
      if is_lit arg "--" then false
      else if is_env_assignment arg then env_split_string_flag rest
      else match env_option_behavior arg with
           | Some (SplitStringInlineValue | SplitStringNextArg) => true
           | Some (Passthrough | InlineValue) => env_split_string_flag rest
           | Some TakesNextArg =>
               match rest with _ :: rest' => env_split_string_flag rest' | [] => false end
           | None => false
           end
  end.

(** [next_command_offset], the words from there *)
Fixpoint next_command (tokens : list text) : list text :=
  match tokens with
  | w :: ts =>
      if is_env_assignment w || is_shell_control_prefix w then next_command ts else tokens
  | [] => []
  end.

Record NestedEvalCommandView : Type := mkView {
  view_command : text;
  view_args : list text;
  opaque_wrapper : bool;
}.

(** The loop of [nested_eval_command_view] on the words from the command on. Each
    turn drops at least a word, so as many turns as words are enough. *)
Fixpoint view_go (fuel : nat) (words : list text) : option NestedEvalCommandView :=
  match fuel, words with
  | S f, word :: args =>
      let command := command_basename word in
      if is_lit command "env" && env_split_string_flag args then Some (mkView command args true)
      else
        let next := if is_lit command "env" then env_command_offset args
                    else if is_transparent_command_wrapper command
                    then transparent_wrapper_offset command args
                    else None in
        match next with
        | None => Some (mkView command args false)
        | Some off => view_go f (drop off args)
        end
  | _, _ => None
  end.
Definition nested_eval_command_view (tokens : list text) : option NestedEvalCommandView :=
  let words := next_command tokens in view_go (length words) words.

Definition effective_command_tokens (tokens : list text) : list text :=
  match nested_eval_command_view tokens with
  | None => tokens
  | Some view => if opaque_wrapper view then tokens else view_command view :: view_args view
  end.

(** *** Evaluated code *)

Definition short_flag_contains_option (flag : text) (option : ascii) : bool :=
  match text_strip_prefix (lit "--") flag with
  | Some rest =>
      let name := match split_once_char "=" rest with Some (n, _) => n | None => rest end in
      (is_lit name "command" && Ascii.eqb option "c") || (is_lit name "eval" && Ascii.eqb option "e")
      || (is_lit name "print" && Ascii.eqb option "p") || (is_lit name "run" && Ascii.eqb option "r")
  | None =>
      text_starts flag "-" && existsb (λ c, is_char c option) (drop 1 flag)
  end.

Definition shells : list string := ["sh"; "bash"; "dash"; "zsh"; "ksh"].
Definition is_shell_eval_wrapper (command flag : text) : bool :=
  one_of command shells && short_flag_contains_option flag "c".
Definition is_code_eval_wrapper (command flag : text) : bool :=
  if one_of command ["python"; "python3"] then short_flag_contains_option flag "c"
  else if is_lit command "node" then
    short_flag_contains_option flag "e" || short_flag_contains_option flag "p"
    || is_lit flag "--print"
  else if is_lit command "perl" then
    short_flag_contains_option flag "e" || short_flag_contains_option flag "E"
  else if one_of command ["ruby"; "lua"] then short_flag_contains_option flag "e"
  else if is_lit command "php" then short_flag_contains_option flag "r"
  else false.

(** [scan_leading_args(..).is_some()] *)
Fixpoint scan_leading_args (matches_eval : text → bool) (advance : text → option nat)
    (args : list text) : bool :=
  match args with
  | [] => false
  | arg :: rest =>
      if is_lit arg "--" then false
      else if matches_eval arg then true
      else match advance arg with
           | None => false
           | Some 2%nat =>
               match rest with
               | _ :: rest' => scan_leading_args matches_eval advance rest'
               | [] => false
               end
           | Some _ => scan_leading_args matches_eval advance rest
           end
  end.

Definition dash_advance (arg : text) : option nat :=
  if text_starts arg "-" then Some 1%nat else None.
Definition shell_wrapper_advance (arg : text) : option nat :=
  if exact_or_inline_option_with_value arg ["-o"; "+o"; "-O"; "+O"] ["--rcfile"; "--init-file"]
  then Some (value_width arg)
  else if text_starts arg "-" || text_starts arg "+" then Some 1%nat
  else None.
Definition python_wrapper_advance (arg : text) : option nat :=
  if exact_or_inline_option_with_value arg ["-W"; "-X"] ["--check-hash-based-pycs"]
  then Some (value_width arg)
  else if one_of arg ["-m"; "--module"; "-"] then None
  else dash_advance arg.
Definition node_wrapper_advance (arg : text) : option nat :=
  if exact_or_inline_option_with_value arg ["-r"; "-C"]
       ["--require"; "--loader"; "--experimental-loader"; "--import"; "--watch-path";
        "--conditions"; "--input-type"; "--inspect"; "--inspect-brk"; "--inspect-port";
        "--openssl-config"; "--redirect-warnings"; "--trace-event-categories";
        "--trace-event-file-pattern"; "--diagnostic-dir"; "--icu-data-dir"; "--title"]
  then Some (value_width arg)
  else dash_advance arg.
Definition perl_wrapper_advance (arg : text) : option nat :=
  if exact_or_inline_option_with_value arg ["-I"; "-M"; "-m"] [] then Some (value_width arg)
  else dash_advance arg.
Definition ruby_wrapper_advance (arg : text) : option nat :=
  if exact_or_inline_option_with_value arg ["-C"; "-E"; "-F"; "-I"; "-r"]
       ["--enable"; "--disable"; "--encoding"]
  then Some (value_width arg)
  else dash_advance arg.
Definition lua_wrapper_advance (arg : text) : option nat :=
  if exact_or_inline_option_with_value arg ["-l"] [] then Some (value_width arg)
  else dash_advance arg.
Definition php_wrapper_advance (arg : text) : option nat :=
  if exact_or_inline_option_with_value arg ["-c"; "-d"; "-z"] ["--define"]
  then Some (value_width arg)
  else if one_of arg ["-f"; "--file"] then None
  else dash_advance arg.

(** [leading_eval_flag(..).is_some()] *)
Definition leading_eval_flag (command : text) (args : list text) : bool :=
  let scan name advance :=
    scan_leading_args (is_code_eval_wrapper (lit name)) advance args in
  if one_of command shells then
    scan_leading_args (is_shell_eval_wrapper (lit "sh")) shell_wrapper_advance args
  else if one_of command ["python"; "python3"] then scan "python3" python_wrapper_advance
  else if is_lit command "node" then scan "node" node_wrapper_advance
  else if is_lit command "perl" then scan "perl" perl_wrapper_advance
  else if is_lit command "ruby" then scan "ruby" ruby_wrapper_advance
  else if is_lit command "lua" then scan "lua" lua_wrapper_advance
  else if is_lit command "php" then scan "php" php_wrapper_advance
  else false.

Definition contains_nested_eval_wrapper (tokens : list text) : bool :=
  match nested_eval_command_view tokens with
  | None => false
  | Some view => opaque_wrapper view || leading_eval_flag (view_command view) (view_args view)
  end.

(** *** Queries *)

Fixpoint take_before_dashes (tokens : list text) : list text :=
  match tokens with
  | t :: ts => if is_lit t "--" then [] else t :: take_before_dashes ts
  | [] => []
  end.
Definition is_wrapper_query_command (tokens : list text) : bool :=
  match tokens with
  | [] => false
  | command :: args =>
      one_of command ["nice"; "nohup"; "timeout"; "stdbuf"; "setsid"]
      && existsb common_wrapper_query_flag (take_before_dashes args)
  end.

Fixpoint command_query_go (saw_query : bool) (args : list text) : bool :=
  match args with
  | [] => saw_query
  | token :: rest =>
      if is_lit token "--" then saw_query
      else if command_wrapper_is_query_flag token then command_query_go true rest
      else if command_wrapper_is_exec_flag token then command_query_go saw_query rest
      else saw_query
  end.
Definition is_command_query (tokens : list text) : bool := command_query_go false (drop 1 tokens).
Definition is_builtin_query (tokens : list text) : bool :=
  match tokens !! 1%nat with Some t => builtin_query_flag t | None => false end.

(** ** git.rs *)

(** The loop of [git_subcommand]: the subcommand and the words after it *)
Fixpoint git_options (args : list text) : option (text * list text) :=
  match args with
  | [] => None
  | token :: rest =>
      if is_lit token "--" then
        match rest with sub :: rest' => Some (sub, rest') | [] => None end
      else if negb (text_starts token "-") then Some (token, rest)
      else
        let takes_value := one_of token
          ["-c"; "-C"; "--exec-path"; "--git-dir"; "--work-tree"; "--namespace";
           "--super-prefix"; "--config-env"] in
        if takes_value && negb (contains_char token "=") then
          match rest with _ :: rest' => git_options rest' | [] => None end
        else git_options rest
  end.
Definition git_subcommand (tokens : list text) : option (text * list text) :=
  match tokens with
  | first :: args => if is_lit (command_basename first) "git" then git_options args else None
  | [] => None
  end.

(** [tokens.contains(&"..")] *)
Definition has_word (tokens : list text) (s : string) : bool := existsb (λ t, is_lit t s) tokens.
Definition positional (token : text) : bool := negb (text_starts token "-").

Definition is_git_branch_read (tokens : list text) : bool :=
  match git_subcommand tokens with
  | None => false
  | Some (sub, args) =>
      if negb (is_lit sub "branch") then false
      else if existsb (λ t, one_of t
                ["-c"; "-C"; "-d"; "-D"; "-f"; "-m"; "-M"; "--copy"; "--delete"; "--move";
                 "--edit-description"; "--set-upstream-to"; "--track"; "--unset-upstream"]
                || text_starts t "--set-upstream-to=") args then false
      else negb (existsb positional args) || existsb (λ t, one_of t ["-l"; "--list"]) args
  end.

Definition git_remote_subcommand (tokens : list text) : option text :=
  match git_subcommand tokens with
  | None => None
  | Some (sub, args) => if negb (is_lit sub "remote") then None else List.find positional args
  end.
Definition is_git_remote_network (tokens : list text) : bool :=
  match git_subcommand tokens with
  | None => false
  | Some (sub, args) =>
      if negb (is_lit sub "remote") then false
      else
        let remote := git_remote_subcommand tokens in
        (match remote with Some r => one_of r ["show"; "update"] | None => false end
         && negb (has_word tokens "-n"))
        || (match remote with Some r => is_lit r "add" | None => false end
            && existsb (λ t, one_of t ["-f"; "--fetch"]) args)
  end.
Definition is_git_remote_read (tokens : list text) : bool :=
  match git_subcommand tokens with
  | None => false
  | Some (sub, _) =>
      if negb (is_lit sub "remote") then false
      else match git_remote_subcommand tokens with
           | None => true
           | Some r =>
               if is_lit r "get-url" then true
               else if is_lit r "show" then has_word tokens "-n"
               else false
           end
  end.

Definition is_git_tag_read (tokens : list text) : bool :=
  match git_subcommand tokens with
  | None => false
  | Some (sub, args) =>
      if negb (is_lit sub "tag") then false
      else if existsb (λ t, one_of t
                ["-a"; "-d"; "-f"; "-m"; "-s"; "-u"; "--annotate"; "--delete"; "--force";
                 "--local-user"; "--message"; "--sign"] || text_starts t "--message=") args
      then false
      else negb (existsb positional args)
           || existsb (λ t, one_of t
                ["-l"; "-n"; "-v"; "--list"; "--contains"; "--merged"; "--no-merged";
                 "--points-at"; "--sort"; "--column"; "--color"; "--verify"]) args
  end.

(** The first word after [submodule] that is no option, and the words after it *)
Fixpoint find_positional (args : list text) : option (text * list text) :=
  match args with
  | [] => None
  | t :: rest => if positional t then Some (t, rest) else find_positional rest
  end.
Definition git_submodule_subcommand (tokens : list text) : option (text * list text) :=
  match git_subcommand tokens with
  | None => None
  | Some (sub, args) => if negb (is_lit sub "submodule") then None else find_positional args
  end.
Definition is_git_submodule_network (tokens : list text) : bool :=
  match git_submodule_subcommand tokens with
  | None => false
  | Some (sub, args) =>
      if is_lit sub "update" then negb (has_word tokens "--no-fetch")
      else if is_lit sub "add" then
        existsb (λ t, text_contains t "://" || text_starts t "git@") args
      else false
  end.
Definition is_git_submodule_read (tokens : list text) : bool :=
  if existsb (λ t, one_of t ["-h"; "--help"; "help"]) tokens then true
  else match git_submodule_subcommand tokens with
       | None => true
       | Some (sub, _) => one_of sub ["status"; "summary"]
       end.

Definition is_git_network_command (tokens : list text) : bool :=
  match git_subcommand tokens with
  | None => false
  | Some (sub, _) =>
      one_of sub ["clone"; "fetch"; "pull"; "push"; "ls-remote"]
      || is_git_remote_network tokens || is_git_submodule_network tokens
  end.
Definition git_reads : list string :=
  ["status"; "diff"; "log"; "show"; "rev-parse"; "ls-files"; "ls-tree"; "blame"; "grep";
   "shortlog"; "describe"].
Definition is_git_read_command (tokens : list text) : bool :=
  match git_subcommand tokens with
  | None => true
  | Some (sub, _) =>
      if is_lit sub "submodule" then is_git_submodule_read tokens
      else if one_of sub git_reads then true
      else if is_lit sub "branch" then is_git_branch_read tokens
      else if is_lit sub "remote" then is_git_remote_read tokens
      else if is_lit sub "tag" then is_git_tag_read tokens
      else false
  end.

(** ** read.rs *)

Definition read_heads : list string :=
  ["ls"; "pwd"; "cd"; "pushd"; "popd"; "dirs"; "cat"; "head"; "tail"; "wc"; "rg"; "grep"; "which";
   "whereis"; "basename"; "dirname"; "realpath"; "readlink"; "stat"; "file"; "du"; "df"; "cut";
   "tr"; "sort"; "uniq"; "nl"; "tree"; "find"; "echo"; "printf"; "env"; "printenv"; "id";
   "whoami"; "uname"; "date"; "ps"; "uptime"; "history"; "true"; "false"; "test"; "["].

Definition is_tool_query_command (tokens : list text) : bool :=
  match List.find (λ t, negb (bool_decide (t = []))) (drop 1 tokens) with
  | Some arg => one_of arg ["-h"; "--help"; "--version"] || text_starts arg "-V"
  | None => false
  end.
Definition is_python_query_command (tokens : list text) : bool :=
  if negb (one_of (command_basename (first_word tokens)) ["python"; "python3"]) then false
  else is_tool_query_command tokens.

Definition strip_quotes : text → text := trim_matches (λ c, is_squote c || is_dquote c).
Definition is_sed_line_range_print_script (token : text) : bool :=
  match strip_suffix_char "p" (strip_quotes token) with
  | None => false
  | Some address =>
      negb (bool_decide (address = []))
      && forallb (λ c, is_ascii_digit c || char_in c ",$") address
      && existsb (λ c, is_ascii_digit c || is_char c "$") address
  end.

(** The loop of [is_sed_substitute_script]: what follows the second unescaped
    delimiter; [count] delimiters were met. *)
Fixpoint sed_tail (delimiter : char) (count : nat) (esc : bool) (body : text) : option text :=
  match body with
  | [] => None
  | c :: rest =>
      if esc then sed_tail delimiter count false rest
      else if is_backslash c then sed_tail delimiter count true rest
      else if c =? delimiter then
        match count with
        | O => sed_tail delimiter 1 false rest
        | S _ => Some rest
        end
      else sed_tail delimiter count false rest
  end.
Definition is_sed_substitute_script (token : text) : bool :=
  match strip_quotes token with
  | s :: delimiter :: body =>
      if negb (is_char s "s") then false
      else if is_ascii_alphanumeric delimiter || is_ascii_whitespace delimiter then false
      else match sed_tail delimiter 0 false body with
           | None => false
           | Some tail =>
               let tail := text_trim tail in
               negb (contains_char tail "w") && negb (contains_char tail "e")
           end
  | _ => false
  end.
Definition is_sed_safe_script (token : text) : bool :=
  is_sed_line_range_print_script token || is_sed_substitute_script token.

Fixpoint sed_read_go (saw_script : bool) (args : list text) : bool :=
  match args with
  | [] => saw_script
  | token :: rest =>
      if is_lit token "--" then saw_script
      else if one_of token ["-n"; "--quiet"; "--silent"] then sed_read_go saw_script rest
      else if is_lit token "-e" then
        match rest with
        | [] => false
        | script :: rest' => if is_sed_safe_script script then sed_read_go true rest' else false
        end
      else if text_starts token "-" then false
      else if negb saw_script then
        if is_sed_safe_script token then sed_read_go true rest else false
      else saw_script
  end.
Definition is_sed_safe_read_command (tokens : list text) : bool := sed_read_go false (drop 1 tokens).

Definition is_safe_read_command (tokens : list text) : bool :=
  let head := first_word tokens in
  if one_of head read_heads then true
  else if is_lit head "sed" then is_sed_safe_read_command tokens
  else if is_python_query_command tokens then true
  else if one_of head ["tox"; "nox"] && is_tool_query_command tokens then true
  else if is_lit head "command" then is_command_query tokens
  else if is_lit head "builtin" then is_builtin_query tokens
  else if is_lit head "git" then is_git_read_command tokens
  else false.

(** ** write.rs *)

Definition write_heads : list string :=
  ["rm"; "rmdir"; "mv"; "cp"; "chmod"; "chown"; "mkdir"; "touch"; "truncate"].

Definition short_option_cluster_contains_flag (token : text) (flag : ascii) : bool :=
  text_starts token "-" && negb (text_starts token "--")
  && existsb (λ c, is_char c flag) (drop 1 token).
Definition sed_in_place_flag (tokens : list text) : bool :=
  existsb (λ token,
    is_lit token "-i" || is_lit token "--in-place"
    || short_option_cluster_contains_flag token "i"
    || match text_strip_prefix (lit "-i") token with
       | Some suffix => negb (bool_decide (suffix = []))
       | None => false
       end
    || text_starts token "--in-place=") (drop 1 tokens).
Definition find_writes : list string :=
  ["-exec"; "-execdir"; "-delete"; "-ok"; "-okdir"; "-fprint"; "-fprint0"; "-fprintf"; "-fls"].
Definition find_has_write_action (tokens : list text) : bool :=
  existsb (λ t, one_of t find_writes) (drop 1 tokens).

Definition is_local_command_path (command : text) : bool :=
  if bool_decide (command = []) then false
  else if text_starts command "./" || text_starts command "../" || contains_char command "/"
  then true
  else match extension command with
       | Some ext => one_of ext ["py"; "sh"; "rb"; "pl"; "php"; "js"]
       | None => false
       end
       || one_of (command_basename command) ["gradlew"; "mvnw"].
Definition is_verification_entrypoint_name (command : text) : bool :=
  one_of (to_ascii_lowercase (default command (file_stem command)))
    ["runtests"; "run-tests"; "run_tests"; "pytest"; "nosetests"; "nosetests3"; "test"; "tests"].
Fixpoint first_non_option_arg (saw_double_dash : bool) (args : list text) : option text :=
  match args with
  | [] => None
  | arg :: rest =>
      if bool_decide (arg = []) then first_non_option_arg saw_double_dash rest
      else if negb saw_double_dash && is_lit arg "--" then first_non_option_arg true rest
      else if negb saw_double_dash && text_starts arg "-" then first_non_option_arg false rest
      else Some arg
  end.
Definition is_verification_subcommand (arg : text) : bool :=
  one_of arg ["test"; "tests"; "check"; "clippy"; "verify"].
Definition is_local_verification_entrypoint (command : text) (args : list text) : bool :=
  if negb (is_local_command_path command) then false
  else if is_verification_entrypoint_name (command_basename command) then true
  else match first_non_option_arg false args with
       | Some arg => is_verification_subcommand arg
       | None => false
       end.

(** The loops of [python_module_command] and [python_script_command] *)
Fixpoint python_module_go (args : list text) : option text :=
  match args with
  | [] => None
  | token :: rest =>
      if is_lit token "-m" then head rest
      else if negb (text_starts token "-") then None
      else python_module_go rest
  end.
Definition python_module_command (tokens : list text) : option text :=
  match tokens with
  | [] => None
  | first :: args =>
      if one_of (command_basename first) ["python"; "python3"] then python_module_go args else None
  end.
Fixpoint python_script_go (args : list text) : option (text * list text) :=
  match args with
  | [] => None
  | token :: rest =>
      if one_of token ["-m"; "-c"; "-"] then None
      else if negb (text_starts token "-") then Some (token, rest)
      else python_script_go rest
  end.
Definition python_script_command (tokens : list text) : option (text * list text) :=
  match tokens with
  | [] => None
  | first :: args =>
      if one_of (command_basename first) ["python"; "python3"] then python_script_go args else None
  end.
Definition local_verification_subject (tokens : list text) : option (text * list text) :=
  match tokens with
  | [] => None
  | command :: args =>
      if is_local_command_path command then Some (command, args) else python_script_command tokens
  end.

Definition is_local_verification_command (tokens : list text) : bool :=
  let head := command_basename (first_word tokens) in
  let pair := second_word tokens in
  if one_of head ["tox"; "nox"] then negb (is_tool_query_command tokens)
  else if one_of head ["pytest"; "py.test"; "nosetests"; "nosetests3"] then true
  else if (is_lit head "cargo" && one_of pair ["test"; "check"; "clippy"])
          || (is_lit head "go" && is_lit pair "test")
          || (one_of head ["npm"; "pnpm"; "yarn"; "bun"] && is_lit pair "test")
          || (one_of head ["make"; "just"] && one_of pair ["test"; "check"]) then true
  else if match python_module_command tokens with
          | Some module => one_of module ["pytest"; "unittest"]
          | None => false
          end then true
  else match local_verification_subject tokens with
       | Some (command, args) => is_local_verification_entrypoint command args
       | None => false
       end.

(** The loop of [contains_output_redirection]: a [>] outside quotes *)
Fixpoint redirection_go (single double esc : bool) (t : text) : bool :=
  match t with
  | [] => false
  | c :: t' =>
      if esc then redirection_go single double false t'
      else if single then redirection_go (negb (is_squote c)) double false t'
      else if double then
        if is_backslash c then redirection_go false true true t'
        else if is_dquote c then redirection_go false false false t'
        else redirection_go false true false t'
      else if is_backslash c then redirection_go false false true t'
      else if is_squote c then redirection_go true false false t'
      else if is_dquote c then redirection_go false true false t'
      else if is_char c ">" then true
      else redirection_go false false false t'
  end.
Definition contains_output_redirection (fragment : text) : bool :=
  redirection_go false false false fragment.

Definition is_write_command (fragment : text) (tokens : list text) : bool :=
  let head := command_basename (first_word tokens) in
  if one_of head write_heads then true
  else if is_lit head "sed" && sed_in_place_flag tokens then true
  else if is_lit head "find" && find_has_write_action tokens then true
  else if is_local_verification_command tokens then true
  else if is_lit head "git" && is_git_network_command tokens then false
  else if is_lit head "git" && negb (is_git_read_command tokens) then true
  else contains_output_redirection fragment.

(** ** mod.rs *)

Definition network_heads : list string :=
  ["curl"; "wget"; "ssh"; "scp"; "sftp"; "nc"; "netcat"; "socat"; "telnet"; "ftp"].
Definition is_network_command (fragment : text) (tokens : list text) : bool :=
  let head := command_basename (first_word tokens) in
  let pair := second_word tokens in
  if one_of head network_heads then true
  else if (is_lit head "git" && is_git_network_command tokens)
          || (is_lit head "docker" && is_lit pair "pull")
          || (is_lit head "npm" && is_lit pair "install")
          || (is_lit head "pnpm" && is_lit pair "add")
          || (is_lit head "yarn" && is_lit pair "add")
          || (one_of head ["pip"; "pip3"] && is_lit pair "install")
          || (is_lit head "cargo" && is_lit pair "install")
          || (is_lit head "brew" && is_lit pair "install")
          || (one_of head ["apt"; "apt-get"; "yum"; "dnf"] && is_lit pair "install") then true
  else text_contains fragment "http://" || text_contains fragment "https://".

Definition classify_bash_fragment (fragment : text) : ToolCapability :=
  if bool_decide (fragment = []) then CapRead
  else
    let tokens := split_whitespace fragment in
    if bool_decide (tokens = []) then CapRead
    else
      let effective := effective_command_tokens tokens in
      if contains_unsupported_shell_form tokens then CapUnknown
      else if is_network_command fragment effective then CapNetwork
      else if contains_nested_eval_wrapper tokens then CapUnknown
      else if is_write_command fragment effective then CapWrite
      else if is_safe_read_command effective || is_wrapper_query_command tokens then CapRead
      else CapUnknown.

(** The loop of [classify_bash_command] and its end *)
Fixpoint classify_go (saw_write saw_unknown : bool) (fragments : list text) : ToolCapability :=
  match fragments with
  | [] => if saw_write then CapWrite else if saw_unknown then CapUnknown else CapRead
  | fragment :: rest =>
      let capability := classify_bash_fragment (text_trim fragment) in
      if bool_decide (capability = CapNetwork) then CapNetwork
      else classify_go (saw_write || bool_decide (capability = CapWrite))
             (saw_unknown || bool_decide (capability = CapUnknown)) rest
  end.

Section classify.
Context (to_lowercase : text → text).

Definition classify_bash_command (command : text) : ToolCapability :=
  classify_go false false
    (split_shell_fragments (to_lowercase (normalize_shell_line_continuations command))).
End classify.

(** Commands of ASCII text *)
Definition classify (command : string) : ToolCapability :=
  classify_bash_command to_ascii_lowercase (lit command).

Example classify_examples :
  classify "mkdir out && curl https://example.com" = CapNetwork ∧
  classify "/bin/rm file.txt" = CapWrite ∧
  classify "/usr/bin/git -C repo push" = CapNetwork ∧
  classify "git reset --hard" = CapWrite ∧
  classify "rg TODO src" = CapRead ∧
  classify "cd /tmp/repo && rm -f artifact.txt" = CapWrite ∧
  classify "python3 -B -c 'print(1)'" = CapUnknown ∧
  classify "./gradlew test" = CapWrite ∧
  classify "sed 's#^./##' test_requests.py" = CapRead ∧
  classify "env FOO=1 rm x" = CapUnknown.
Proof. vm_compute. split_and!; reflexivity. Qed.
