(* ===== verification/BashFacts.v ===== *)
(** * What the classifier's scanners do to a command

    A grammar of shell text (quotes, escapes, comments, separators) and the proof
    that the split into fragments is the one it defines; line continuations; the
    capability of a command; and commands that the classifier takes for reads
    although they write. *)
From S2P Require Import Prelude RustStd Policy RustChars BashSyntax BashClassifier.

(** ** A grammar of shell text *)

Inductive token : Type :=
  | TPlain (c : char)          (* an unquoted character *)
  | TEscape (t : text)         (* a backslash and what it escapes *)
  | TSingle (t : text)         (* a single-quoted part, with its quotes *)
  | TDouble (t : text)         (* a double-quoted part *)
  | TComment (t : text)        (* from the [#] up to the end of the line *)
  | TSep (t : text).           (* what separates commands *)

Definition token_text (k : token) : text :=
  match k with
  | TPlain c => [c]
  | TEscape t | TSingle t | TDouble t | TComment t | TSep t => t
  end.
Definition tokens_text (ks : list token) : text := concat (token_text <$> ks).

(** Characters with a meaning of their own outside quotes *)
Definition special (ws : bool) (c : char) : bool :=
  is_backslash c || is_squote c || is_dquote c || (is_char c "#" && negb ws).
(** A separator at the start of a text: how many characters it takes *)
Definition separator (t : text) : nat :=
  match t with
  | c :: t' =>
      if match t' with
         | c2 :: _ => (is_char c "&" && is_char c2 "&") || (is_char c "|" && is_char c2 "|")
         | [] => false
         end then 2
      else if char_in c ";|" || is_newline c then 1 else 0
  | [] => 0
  end%nat.

(** The inside of double quotes: an escaped character is part of it *)
Inductive double_body : text → Prop :=
  | dbody_nil : double_body []
  | dbody_char c t : is_backslash c = false → is_dquote c = false →
      double_body t → double_body (c :: t)
  | dbody_escape b c t : is_backslash b = true → double_body t → double_body (b :: c :: t).

(** [lexes ws t ks]: the text [t] is made of the tokens [ks]; [ws] says that a word
    has started, so that [#] does not start a comment. An open quote runs to the
    end of the text. *)
Inductive lexes : bool → text → list token → Prop :=
  | lex_nil ws : lexes ws [] []
  | lex_plain ws c t ks :
      special ws c = false → separator (c :: t) = 0%nat →
      lexes (negb (is_shell_word_boundary c)) t ks → lexes ws (c :: t) (TPlain c :: ks)
  | lex_escape ws b c t ks :
      is_backslash b = true → lexes true t ks → lexes ws (b :: c :: t) (TEscape [b; c] :: ks)
  | lex_escape_end ws b : is_backslash b = true → lexes ws [b] [TEscape [b]]
  | lex_single ws q body q' t ks :
      is_squote q = true → Forall (λ c, is_squote c = false) body → is_squote q' = true →
      lexes true t ks → lexes ws (q :: body ++ q' :: t) (TSingle (q :: body ++ [q']) :: ks)
  | lex_single_open ws q body :
      is_squote q = true → Forall (λ c, is_squote c = false) body →
      lexes ws (q :: body) [TSingle (q :: body)]
  | lex_double ws q body q' t ks :
      is_dquote q = true → double_body body → is_dquote q' = true →
      lexes true t ks → lexes ws (q :: body ++ q' :: t) (TDouble (q :: body ++ [q']) :: ks)
  | lex_double_open ws q body tail :
      is_dquote q = true → double_body body →
      (tail = [] ∨ ∃ b, tail = [b] ∧ is_backslash b = true) →
      lexes ws (q :: body ++ tail) [TDouble (q :: body ++ tail)]
  | lex_comment q body t ks :
      is_char q "#" = true → Forall (λ c, is_newline c = false) body →
      (t = [] ∨ ∃ c t', t = c :: t' ∧ is_newline c = true) → lexes false t ks →
      lexes false (q :: body ++ t) (TComment (q :: body) :: ks)
  | lex_separator ws sep t ks :
      special ws (default 0 (head sep)) = false →
      separator (sep ++ t) = length sep → (0 < length sep)%nat →
      lexes false t ks → lexes ws (sep ++ t) (TSep sep :: ks).

(** The fragments a sequence of tokens stands for: separators end a fragment,
    comments are no part of one, blank fragments are dropped. *)
Fixpoint fragments_of (current : text) (ks : list token) : list text :=
  let flush := if bool_decide (text_trim current = []) then [] else [current] in
  match ks with
  | [] => flush
  | TSep _ :: ks' => flush ++ fragments_of [] ks'
  | TComment _ :: ks' => fragments_of current ks'
  | k :: ks' => fragments_of (current ++ token_text k) ks'
  end.

(** The scanner outside quotes *)
Definition unquoted (ws : bool) : ScanState := mkScan false false false false ws.

Lemma push_fragment fs cur :
  push_shell_fragment fs cur = fs ++ (if bool_decide (text_trim cur = []) then [] else [cur]).
Proof. unfold push_shell_fragment. case_bool_decide; by rewrite ?app_nil_r. Qed.

(** Single quotes: everything up to the closing quote is kept. *)
Lemma split_single fs cur body t :
  Forall (λ c, is_squote c = false) body →
  split_go (mkScan true false false false true) fs cur (body ++ t) =
  split_go (mkScan true false false false true) fs (cur ++ body) t.
Proof.
  intros Hb. revert cur. induction Hb as [|c body Hc Hb IH]; intros cur; simpl.
  - by rewrite app_nil_r.
  - rewrite Hc. cbn [set_word in_single in_double in_comment escaped word_started].
    rewrite IH, <-app_assoc. done.
Qed.

Lemma split_double fs cur body t :
  double_body body →
  split_go (mkScan false true false false true) fs cur (body ++ t) =
  split_go (mkScan false true false false true) fs (cur ++ body) t.
Proof.
  intros Hb. revert cur. induction Hb as [|c body Hc Hq Hb IH|b c body Hbs Hb IH]; intros cur; simpl.
  - by rewrite app_nil_r.
  - rewrite Hc, Hq. cbn [set_word in_single in_double in_comment escaped word_started].
    rewrite IH, <-app_assoc. done.
  - rewrite Hbs. cbn [set_word set_escaped in_single in_double in_comment escaped word_started].
    rewrite IH, <-!app_assoc. done.
Qed.

Lemma split_comment fs cur ws body t :
  Forall (λ c, is_newline c = false) body →
  split_go (mkScan false false true false ws) fs cur (body ++ t) =
  split_go (mkScan false false true false ws) fs cur t.
Proof.
  intros Hb. induction Hb as [|c body Hc Hb IH]; simpl; [done|]. by rewrite Hc.
Qed.

(** A comment ends where the line does. *)
Lemma split_comment_end fs cur ws t :
  t = [] ∨ (∃ c t', t = c :: t' ∧ is_newline c = true) →
  split_go (mkScan false false true false ws) fs cur t = split_go (unquoted false) fs cur t.
Proof.
  intros [->|(c & t' & -> & Hc)]; [done|]. simpl. rewrite Hc.
  unfold is_newline in Hc. apply orb_true_iff in Hc as [->%Z.eqb_eq| ->%Z.eqb_eq];
    destruct t'; reflexivity.
Qed.

(** The scanner outside quotes at a character without a meaning of its own *)
Lemma split_plain ws fs cur c t :
  special ws c = false →
  split_go (unquoted ws) fs cur (c :: t) =
  match separator (c :: t) with
  | O => split_go (unquoted (negb (is_shell_word_boundary c))) fs (cur ++ [c]) t
  | n => split_go (unquoted false) (push_shell_fragment fs cur) [] (drop n (c :: t))
  end.
Proof.
  unfold special. intros Hs. repeat apply orb_false_iff in Hs as [Hs ?].
  cbn [split_go unquoted in_comment escaped in_single in_double word_started].
  rewrite Hs, H0, H1, H. unfold separator, unquoted, set_word. cbn [in_single in_double in_comment escaped].
  destruct t as [|c2 t2].
  - destruct (char_in c ";|" || is_newline c); [done|]. by destruct (is_shell_word_boundary c).
  - destruct (is_char c "&" && is_char c2 "&"); [done|].
    destruct (is_char c "|" && is_char c2 "|"); [done|]. simpl.
    destruct (char_in c ";|" || is_newline c); [done|]. by destruct (is_shell_word_boundary c).
Qed.

Lemma not_special_inv ws c :
  special ws c = true →
  is_backslash c = true ∨ is_squote c = true ∨ is_dquote c = true ∨
  (is_char c "#" = true ∧ ws = false).
Proof.
  unfold special. intros H. repeat apply orb_true_iff in H as [H|H]; auto.
  apply andb_true_iff in H as [? ?%negb_true_iff]. auto 10.
Qed.

Lemma backslash_spec c : is_backslash c = true ↔ c = 92.
Proof. apply Z.eqb_eq. Qed.
Lemma squote_spec c : is_squote c = true ↔ c = 39.
Proof. apply Z.eqb_eq. Qed.
Lemma dquote_spec c : is_dquote c = true ↔ c = 34.
Proof. apply Z.eqb_eq. Qed.
Lemma hash_spec c : is_char c "#" = true ↔ c = 35.
Proof. apply Z.eqb_eq. Qed.

(** The fragments of the scanner are those of the grammar. *)
Lemma split_lexes ws t ks :
  lexes ws t ks → ∀ fs cur, split_go (unquoted ws) fs cur t = fs ++ fragments_of cur ks.
Proof.
  induction 1 as [ws|ws c t ks Hs Hsep _ IH|ws b c t ks Hb _ IH|ws b Hb|ws q body q' t ks Hq Hbody Hq' _ IH
    |ws q body Hq Hbody|ws q body q' t ks Hq Hbody Hq' _ IH|ws q body tail Hq Hbody Htail
    |q body t ks Hq Hbody Ht _ IH|ws sep t ks Hs Hsep Hlen _ IH]; intros fs cur.
  - apply push_fragment.
  - rewrite split_plain, Hsep by done. rewrite IH. done.
  - apply backslash_spec in Hb as ->. simpl. change (is_backslash 92) with true. simpl.
    change (set_word true (set_escaped false (set_word true (set_escaped true (unquoted ws)))))
      with (unquoted true). rewrite IH, <-app_assoc. done.
  - apply backslash_spec in Hb as ->. simpl. apply push_fragment.
  - apply squote_spec in Hq as ->, Hq' as ->. simpl.
    change (set_word true (set_in_single true (unquoted ws))) with (mkScan true false false false true).
    rewrite split_single by done. simpl.
    change (set_word true (set_in_single false (mkScan true false false false true)))
      with (unquoted true). rewrite IH. f_equal. f_equal. by rewrite <-!app_assoc.
  - apply squote_spec in Hq as ->. simpl.
    change (set_word true (set_in_single true (unquoted ws))) with (mkScan true false false false true).
    rewrite <-(app_nil_r body) at 1. rewrite split_single by done. simpl.
    rewrite push_fragment. by rewrite <-app_assoc.
  - apply dquote_spec in Hq as ->, Hq' as ->. simpl.
    change (set_word true (set_in_double true (unquoted ws))) with (mkScan false true false false true).
    rewrite split_double by done. simpl.
    change (set_word true (set_in_double false (mkScan false true false false true)))
      with (unquoted true). rewrite IH. f_equal. f_equal. by rewrite <-!app_assoc.
  - apply dquote_spec in Hq as ->. simpl.
    change (set_word true (set_in_double true (unquoted ws))) with (mkScan false true false false true).
    rewrite split_double by done.
    destruct Htail as [->|(b & -> & ->%backslash_spec)]; simpl; rewrite push_fragment;
      by rewrite <-!app_assoc, ?app_nil_r.
  - apply hash_spec in Hq as ->. simpl.
    change (set_in_comment true (unquoted false)) with (mkScan false false true false false).
    rewrite split_comment, split_comment_end by done. apply IH.
  - destruct sep as [|c sep]; [simpl in Hlen; lia|]. simpl in Hs.
    change ((c :: sep) ++ t) with (c :: (sep ++ t)) in *.
    rewrite split_plain, Hsep by done. simpl. rewrite drop_app_length, IH, push_fragment.
    by rewrite <-app_assoc.
Qed.

(** Every text has tokens. *)
Lemma single_split t :
  (∃ body q' t', t = body ++ q' :: t' ∧ Forall (λ c, is_squote c = false) body ∧ is_squote q' = true) ∨
  Forall (λ c, is_squote c = false) t.
Proof.
  induction t as [|c t IH]; [by right|]. destruct (is_squote c) eqn:Hc.
  - left. by exists [], c, t.
  - destruct IH as [(body & q' & t' & -> & Hb & Hq)|Hb]; [left|right; by constructor].
    exists (c :: body), q', t'. split_and!; [done|by constructor|done].
Qed.
Lemma comment_split t :
  ∃ body t', t = body ++ t' ∧ Forall (λ c, is_newline c = false) body ∧
    (t' = [] ∨ ∃ c t2, t' = c :: t2 ∧ is_newline c = true).
Proof.
  induction t as [|c t IH]; [by exists [], []; auto|]. destruct (is_newline c) eqn:Hc.
  - exists [], (c :: t). split_and!; [done|done|]. right. eauto.
  - destruct IH as (body & t' & -> & Hb & Ht). exists (c :: body), t'.
    split_and!; [done|by constructor|done].
Qed.
Lemma double_split n t :
  (length t ≤ n)%nat →
  (∃ body q' t', t = body ++ q' :: t' ∧ double_body body ∧ is_dquote q' = true) ∨
  (∃ body tail, t = body ++ tail ∧ double_body body ∧
     (tail = [] ∨ ∃ b, tail = [b] ∧ is_backslash b = true)).
Proof.
  revert t. induction n as [|n IH]; intros t Hn.
  { destruct t; [|simpl in Hn; lia]. right. exists [], []. split_and!; [done|constructor|auto]. }
  destruct t as [|c t]; [right; exists [], []; split_and!; [done|constructor|auto]|].
  simpl in Hn. destruct (is_backslash c) eqn:Hb.
  - destruct t as [|c2 t].
    + right. exists [], [c]. split_and!; [done|constructor|]. right. eauto.
    + destruct (IH t) as [(body & q' & t' & -> & Hbody & Hq)|(body & tail & -> & Hbody & Ht)];
        [simpl in Hn; lia|left|right].
      * exists (c :: c2 :: body), q', t'. split_and!; [done|by constructor|done].
      * exists (c :: c2 :: body), tail. split_and!; [done|by constructor|done].
  - destruct (is_dquote c) eqn:Hq0.
    + left. exists [], c, t. split_and!; [done|constructor|done].
    + destruct (IH t) as [(body & q' & t' & -> & Hbody & Hq)|(body & tail & -> & Hbody & Ht)];
        [lia|left|right].
      * exists (c :: body), q', t'. split_and!; [done|by constructor|done].
      * exists (c :: body), tail. split_and!; [done|by constructor|done].
Qed.

Lemma separator_le t : (separator t ≤ 2)%nat ∧ (separator t ≤ length t)%nat.
Proof.
  destruct t as [|c [|c2 t]]; simpl; [lia|destruct (_ || _); simpl; lia|].
  destruct (_ || _); simpl; [lia|]. destruct (_ || _); simpl; lia.
Qed.

Lemma lexes_exists n : ∀ t ws, (length t ≤ n)%nat → ∃ ks, lexes ws t ks.
Proof.
  induction n as [|n IH]; intros t ws Hn.
  { destruct t; [|simpl in Hn; lia]. eexists. constructor. }
  destruct t as [|c t]; [eexists; constructor|]. simpl in Hn.
  destruct (special ws c) eqn:Hs.
  - apply not_special_inv in Hs as [Hb|[Hq|[Hq|[Hq ->]]]].
    + destruct t as [|c2 t]; [eexists; by apply lex_escape_end|].
      destruct (IH t true) as [ks Hks]; [simpl in Hn; lia|]. eexists. by apply lex_escape.
    + destruct (single_split t) as [(body & q' & t' & -> & Hbody & Hq')|Hbody];
        [|eexists; by apply lex_single_open].
      rewrite length_app in Hn. simpl in Hn.
      destruct (IH t' true) as [ks Hks]; [lia|]. eexists. by apply lex_single.
    + destruct (double_split (length t) t) as [(body & q' & t' & -> & Hbody & Hq')|(body & tail & -> & Hbody & Ht)];
        [done| |eexists; by apply lex_double_open].
      rewrite length_app in Hn. simpl in Hn.
      destruct (IH t' true) as [ks Hks]; [lia|]. eexists. by apply lex_double.
    + destruct (comment_split t) as (body & t' & -> & Hbody & Ht). rewrite length_app in Hn.
      destruct (IH t' false) as [ks Hks]; [lia|]. eexists. by apply lex_comment.
  - destruct (separator (c :: t)) as [|k] eqn:Hsep.
    + destruct (IH t (negb (is_shell_word_boundary c))) as [ks Hks]; [lia|].
      eexists. by apply lex_plain.
    + pose proof (separator_le (c :: t)) as [_ Hle]. rewrite Hsep in Hle.
      destruct (IH (drop (S k) (c :: t)) false) as [ks Hks]; [rewrite length_drop; simpl; lia|].
      eexists. rewrite <-(take_drop (S k) (c :: t)).
      apply lex_separator; [done| |rewrite length_take; simpl in *; lia|exact Hks].
      rewrite take_drop, Hsep, length_take. simpl in *. lia.
Qed.

(** The tokens make up the text. *)
Lemma lexes_text ws t ks : lexes ws t ks → tokens_text ks = t.
Proof.
  unfold tokens_text. induction 1; cbn [fmap list_fmap token_text concat app];
    rewrite ?IHlexes; try (by rewrite ?app_nil_r); simpl; by rewrite <-app_assoc.
Qed.

(** C39: the scanner that cuts a command into fragments follows the grammar of
    shell text: every command has a reading as quotes, escapes, comments,
    separators and plain characters, and by every such reading no character is
    lost and the fragments are the stretches between separators, without comments
    and without blank ones. Separators inside quotes or after a backslash do not
    cut, and a comment never reaches past its line. *)
Theorem split_matches_grammar command :
  (∃ ks, lexes false command ks) ∧
  ∀ ks, lexes false command ks →
    tokens_text ks = command ∧ split_shell_fragments command = fragments_of [] ks.
Proof.
  split; [by apply (lexes_exists (length command))|]. intros ks Hk.
  split; [by eapply lexes_text|]. unfold split_shell_fragments.
  change scan_start with (unquoted false). by erewrite split_lexes.
Qed.

(** ** Line continuations *)

(** What follows a backslash that the classifier keeps starts no line break. *)
Definition breaks_line (t : text) : bool :=
  match t with c :: _ => is_newline c | [] => false end.

Lemma normalize_unfold s c t :
  normalize_go s (c :: t) =
  if continuation_position s && is_backslash c then
    match consume_shell_line_continuation t with
    | Some t' => normalize_go s t'
    | None => c :: normalize_go (normalize_step s c) t
    end
  else c :: normalize_go (normalize_step s c) t.
Proof.
  cbn [normalize_go]. destruct (_ && _); [|done]. unfold consume_shell_line_continuation.
  repeat (case_match; try done).
Qed.
Lemma consume_spec t :
  match consume_shell_line_continuation t with
  | Some t' => breaks_line t = true ∧ (length t' < length t)%nat
  | None => breaks_line t = false
  end.
Proof.
  unfold consume_shell_line_continuation, breaks_line, is_newline.
  destruct t as [|c t]; [done|].
  destruct (decide (c = 10)) as [->|H10]; [simpl; split; [done|lia]|].
  destruct (decide (c = 13)) as [->|H13].
  - destruct t as [|d t]; [simpl; split; [done|lia]|].
    destruct (decide (d = 10)) as [->|Hd]; [simpl; split; [done|lia]|].
    assert ((if d =? 10 then true else false) = false) by (destruct (Z.eqb_spec d 10); done).
    repeat case_match; simplify_eq; simpl; split; try done; lia.
  - replace (c =? 10) with false by (symmetry; by apply Z.eqb_neq).
    replace (c =? 13) with false by (symmetry; by apply Z.eqb_neq).
    repeat case_match; simplify_eq; done.
Qed.
Lemma consume_none t : breaks_line t = false → consume_shell_line_continuation t = None.
Proof.
  intros H. pose proof (consume_spec t) as Hc.
  destruct (consume_shell_line_continuation t); [|done]. destruct Hc. congruence.
Qed.

(** After a kept backslash the next character is kept as it is. *)
Lemma normalize_escaped s c t :
  continuation_position s = true → is_backslash c = true →
  breaks_line (normalize_go (normalize_step s c) t) = breaks_line t.
Proof.
  intros Hp Hb. destruct t as [|d t]; [done|]. rewrite normalize_unfold.
  assert (continuation_position (normalize_step s c) = false) as ->; [|done].
  apply backslash_spec in Hb as ->. unfold continuation_position, normalize_step in *.
  destruct s as [[] [] [] [] ws]; done.
Qed.

(** Line continuations are removed at once: what is left has none, and a second
    pass changes nothing. *)
Lemma normalize_go_idempotent n s t :
  (length t ≤ n)%nat → normalize_go s (normalize_go s t) = normalize_go s t.
Proof.
  revert s t. induction n as [|n IH]; intros s [|c t] Hn; try done; [simpl in Hn; lia|].
  simpl in Hn. rewrite (normalize_unfold s c t).
  destruct (continuation_position s && is_backslash c) eqn:Hp.
  - pose proof (consume_spec t) as Hc.
    destruct (consume_shell_line_continuation t) as [t'|] eqn:Ht.
    + destruct Hc as [_ Hlen]. apply IH. lia.
    + pose proof Hp as [Hpos Hb]%andb_true_iff.
      rewrite normalize_unfold, Hp, consume_none by (by rewrite normalize_escaped).
      f_equal. apply IH. lia.
  - rewrite normalize_unfold, Hp. f_equal. apply IH. lia.
Qed.

(** Removing line continuations is complete: normalizing a command again
    changes nothing, so no backslash that could still join two lines is left for
    the scanners that run after it. *)
Theorem normalize_idempotent command :
  normalize_shell_line_continuations (normalize_shell_line_continuations command) =
  normalize_shell_line_continuations command.
Proof. by apply (normalize_go_idempotent (length command)). Qed.

(** ** The capability of a command *)

(** The capability of a command is the strongest of its fragments: network over
    write over unknown over read. *)
Definition rank (c : ToolCapability) : nat :=
  match c with CapRead => 0 | CapUnknown => 1 | CapWrite => 2 | CapNetwork => 3 end.

Definition stronger (a b : ToolCapability) : ToolCapability :=
  if (rank a <? rank b)%nat then b else a.
Definition strongest : list ToolCapability → ToolCapability := foldr stronger CapRead.

Lemma stronger_foldr c b l : foldr stronger (stronger c b) l = stronger c (foldr stronger b l).
Proof.
  induction l as [|a l IH]; [done|]. simpl. rewrite IH.
  by destruct a, c, (foldr stronger b l).
Qed.
Lemma classify_go_strongest w u fs :
  classify_go w u fs =
  foldr stronger (if w then CapWrite else if u then CapUnknown else CapRead)
    ((λ f, classify_bash_fragment (text_trim f)) <$> fs).
Proof.
  revert w u. induction fs as [|f fs IH]; intros w u; [done|]. simpl.
  destruct (classify_bash_fragment (text_trim f)) eqn:Hf; simpl;
    rewrite ?IH, <-stronger_foldr, ?orb_false_r, ?orb_true_r; try (by destruct w, u).
  rewrite stronger_foldr. by destruct (foldr _ _ _).
Qed.

(** A command has the strongest capability of the fragments it runs (network
    over write over unknown over read), whatever their order. *)
Theorem command_capability_is_strongest lower command :
  classify_bash_command lower command =
  strongest ((λ f, classify_bash_fragment (text_trim f)) <$>
    split_shell_fragments (lower (normalize_shell_line_continuations command))).
Proof. apply classify_go_strongest. Qed.

(** What the words do not tell. A single [&] ends a command for the shell but not
    for the scanner; the text of a command substitution is an argument; the last
    name of a path stands for the program of that name; only the words up to the
    first file are looked at in a [sed] command. All of these are classified as
    reads although they can remove or write files. So is a command behind a hash
    that follows a no-break space: the scanner takes any Unicode blank before the
    hash for the start of a comment, the shell only an ASCII one. *)
Example reads_that_write :
  classify "ls & rm -rf x" = CapRead ∧ classify "echo $(rm -rf x)" = CapRead ∧
  classify "./ls" = CapRead ∧ classify "sed -n 1p notes -e wcopy" = CapRead ∧
  classify "sort -o out in" = CapRead ∧
  classify_bash_command to_ascii_lowercase (lit "ls" ++ [160] ++ lit "#; rm -rf x") = CapRead.
Proof. vm_compute. split_and!; reflexivity. Qed.

(** ** The view through wrappers *)

Lemma scan_options_index step args : ∀ index j rest,
  scan_options step args index = Some (j, rest) →
  (index ≤ j)%nat ∧ (rest ≠ [] → rest = drop (j - index) args).
Proof.
  assert (∀ n args index j rest, (length args ≤ n)%nat →
    scan_options step args index = Some (j, rest) →
    (index ≤ j)%nat ∧ (rest ≠ [] → rest = drop (j - index) args)) as H; [|eauto].
  induction n as [|n IH]; intros [|a l] i j rest Hn; simpl in *; try lia;
    try (intros [= -> ->]; done).
  destruct (step a) as [| |k|]; try done.
  - intros [= -> <-]. split; [lia|]. by rewrite Nat.sub_diag.
  - intros [= <- <-]. split; [lia|]. by replace (S i - i)%nat with 1%nat by lia.
  - assert (∀ l' m, (m + length l' = length (a :: l))%nat → (0 < m)%nat → l' = drop m (a :: l) →
      scan_options step l' (m + i) = Some (j, rest) →
      (i ≤ j)%nat ∧ (rest ≠ [] → rest = drop (j - i) (a :: l))) as Hgo.
    { intros l' m Hlen Hm Hdrop Hs. destruct (IH l' (m + i)%nat j rest) as [H1 H2]; [simpl in *; lia|done|].
      split; [lia|]. intros Hr. rewrite (H2 Hr), Hdrop, drop_drop. f_equal. lia. }
    destruct k as [|[|[|k]]]; try (apply (Hgo l 1%nat); [simpl; lia|lia|done]).
    destruct l as [|b l]; [intros [= <- <-]; split; [lia|done]|].
    apply (Hgo l 2%nat); [simpl; lia|lia|done].
Qed.

(** The command behind a wrapper is one of the wrapper's arguments. *)
Lemma offset_inside step args off :
  offset_of (scan_options step args 0) = Some off → (off < length args)%nat.
Proof.
  unfold offset_of. destruct (scan_options step args 0) as [[j [|a rest]]|] eqn:Hs; try done.
  intros [= ->]. apply scan_options_index in Hs as [_ Hr]. specialize (Hr ltac:(done)).
  rewrite Nat.sub_0_r in Hr. apply (f_equal length) in Hr. rewrite length_drop in Hr. simpl in Hr. lia.
Qed.
Lemma timeout_offset_inside args off :
  timeout_wrapper_offset args = Some off → (off < length args)%nat.
Proof.
  unfold timeout_wrapper_offset.
  destruct (scan_options _ args 0) as [[j [|a [|b rest]]]|] eqn:Hs; try done.
  intros [= <-]. apply scan_options_index in Hs as [_ Hr]. specialize (Hr ltac:(done)).
  rewrite Nat.sub_0_r in Hr. apply (f_equal length) in Hr. rewrite length_drop in Hr. simpl in Hr. lia.
Qed.
Lemma wrapper_offset_inside command args off :
  transparent_wrapper_offset command args = Some off → (off < length args)%nat.
Proof.
  unfold transparent_wrapper_offset. repeat case_match; try done;
    try (apply offset_inside); try (apply timeout_offset_inside).
  all: unfold builtin_wrapper_offset, nohup_wrapper_offset; intros; repeat case_match;
    simplify_eq; simpl; lia.
Qed.

(** Looking for the command behind wrappers ends with a command for every list
    of words that has one: a turn of the loop for each word is enough, because a
    wrapper's command is always one of its own arguments. *)
Theorem wrapped_command_found tokens :
  next_command tokens ≠ [] → is_Some (nested_eval_command_view tokens).
Proof.
  unfold nested_eval_command_view. intros Hne.
  assert (∀ n words, (length words ≤ n)%nat → words ≠ [] → is_Some (view_go n words)) as H;
    [|by apply H].
  induction n as [|n IH]; intros [|w args] Hn Hw; try done; [simpl in Hn; lia|].
  cbn [view_go]. destruct (_ && _); [done|].
  destruct (if is_lit _ "env" then _ else _) as [off|] eqn:Ho; [|done].
  assert (off < length args)%nat as Hoff.
  { destruct (is_lit _ "env"); [by eapply offset_inside|].
    destruct (is_transparent_command_wrapper _); [by eapply wrapper_offset_inside|done]. }
  apply IH; [rewrite length_drop; simpl in Hn; lia|].
  intros Hd. apply (f_equal length) in Hd. rewrite length_drop in Hd. simpl in Hd. lia.
Qed.
Lemma wrapped_command_found_witness :
  is_Some (nested_eval_command_view (split_whitespace (lit "FOO=1 nice -n 5 timeout -k 1 9 env A=b ls -l"))).
Proof. apply (wrapped_command_found _). by vm_compute. Defined.
