(* ===== verification/SandboxSyntax.v ===== *)
(** * Shell syntax in the sandbox (agent-engine/src/tools/sandbox/shell_syntax.rs)

    The scanners of the path guard: line continuations, comments, the expansions
    that are refused, words with their place in the text, and commands as lists of
    words. Places are counted in characters: the code uses byte offsets, and only
    to cut the text between characters. *)
From S2P Require Import Prelude RustStd RustChars BashSyntax.

(** ** [anyhow::Result]: a value or the message of an error *)

Definition Checked (A : Type) : Type := text + A.
Definition fail_with {A} (message : text) : Checked A := inl message.
Global Instance checked_ret : MRet Checked := λ A a, inr a.
Global Instance checked_bind : MBind Checked := λ A B f r,
  match r with inl e => inl e | inr a => f a end.
(** [for x in l { f(x)?; }] *)
Fixpoint for_each {A} (f : A → Checked unit) (l : list A) : Checked unit :=
  match l with [] => mret tt | x :: l' => f x;; for_each f l' end.

(** ** Characters *)

Definition is_shell_separator (c : char) : bool := char_in c ";|&()<>".
Definition is_blank (c : char) : bool := (c =? 32) || (c =? 9) || (c =? 10).
Definition is_shell_word_boundary (c : char) : bool :=
  is_blank c || is_shell_separator c || char_in c "{}".

(** ** Line continuations and comments *)

(** The flags after a character that the scanners keep; a backslash here starts
    no line continuation. *)
Definition scan_step (s : ScanState) (c : char) : ScanState :=
  if in_comment s then
    if is_newline c then set_word false (set_in_comment false s) else s
  else if escaped s then set_word true (set_escaped false s)
  else if in_single s then set_word true (if is_squote c then set_in_single false s else s)
  else if in_double s then
    if is_backslash c then set_escaped true s
    else if is_dquote c then set_word true (set_in_double false s)
    else set_word true s
  else if is_backslash c then set_word true (set_escaped true s)
  else if is_squote c then set_word true (set_in_single true s)
  else if is_dquote c then set_word true (set_in_double true s)
  else if is_char c "#" && negb (word_started s) then set_in_comment true s
  else if is_shell_word_boundary c then set_word false s
  else set_word true s.

(** [while ranges.peek().is_some_and(|range| range.end <= offset)] *)
Fixpoint skip_ranges (ranges : list (Z * Z)) (offset : Z) : list (Z * Z) :=
  match ranges with
  | (start, stop) :: rest => if stop <=? offset then skip_ranges rest offset else ranges
  | [] => []
  end.
Definition in_range (ranges : list (Z * Z)) (offset : Z) : bool :=
  match ranges with
  | (start, stop) :: _ => (start <=? offset) && (offset <? stop)
  | [] => false
  end.

(** [normalize_continuations_outside_ranges]; offsets and ranges are in bytes. *)
Fixpoint normalize_outside (s : ScanState) (ranges : list (Z * Z)) (offset : Z) (t : text) : text :=
  match t with
  | [] => []
  | c :: t' =>
      let ranges := skip_ranges ranges offset in
      let next := offset + len_utf8 c in
      if in_range ranges offset then c :: normalize_outside s ranges next t'
      else if continuation_position s && is_backslash c then
        match t' with
        | 10 :: t2 => normalize_outside s ranges (next + 1) t2
        | _ => c :: normalize_outside (scan_step s c) ranges next t'
        end
      else c :: normalize_outside (scan_step s c) ranges next t'
  end.
Definition normalize_continuations_outside_ranges (command : text) (preserved : list (Z * Z)) : text :=
  normalize_outside scan_start preserved 0 command.
Definition normalize_shell_line_continuations (command : text) : text :=
  normalize_continuations_outside_ranges command [].

Fixpoint strip_comments_go (s : ScanState) (t : text) : text :=
  match t with
  | [] => []
  | c :: t' =>
      let rest := strip_comments_go (scan_step s c) t' in
      if in_comment s then if is_newline c then c :: rest else rest
      else if in_comment (scan_step s c) then rest
      else c :: rest
  end.
Definition strip_shell_comments (command : text) : text := strip_comments_go scan_start command.

(** ** Expansions *)

(** The three tests look at the characters outside quotes; [look prev t] is the
    test at an unquoted character ([prev] is the character before it), [inside] the
    test in double quotes. *)
Fixpoint quote_scan (look : option char → text → bool) (inside : char → bool)
    (single double esc : bool) (prev : option char) (t : text) : bool :=
  match t with
  | [] => false
  | c :: t' =>
      if esc then quote_scan look inside single double false (Some c) t'
      else if single then quote_scan look inside (negb (is_squote c)) double false (Some c) t'
      else if double then
        if is_backslash c then quote_scan look inside false true true (Some c) t'
        else if is_dquote c then quote_scan look inside false false false (Some c) t'
        else if inside c then true
        else quote_scan look inside false true false (Some c) t'
      else if is_backslash c then quote_scan look inside false false true (Some c) t'
      else if is_squote c then quote_scan look inside true false false (Some c) t'
      else if is_dquote c then quote_scan look inside false true false (Some c) t'
      else if look prev t then true
      else quote_scan look inside false false false (Some c) t'
  end.

Definition expansion_char (c : char) : bool := char_in c "$`".
Definition contains_shell_expansion (command : text) : bool :=
  quote_scan (λ _ t, match t with c :: _ => expansion_char c | [] => false end) expansion_char
    false false false None command.

Definition brace_neighbor_requires_expansion (c : option char) : bool :=
  match c with
  | Some value => negb (is_blank value) && negb (is_shell_separator value)
  | None => false
  end.
(** [is_brace_expansion_position] at the first character of [t] *)
Definition is_brace_expansion_position (prev : option char) (t : text) : bool :=
  brace_neighbor_requires_expansion prev || brace_neighbor_requires_expansion (t !! 1%nat).
Definition contains_shell_brace_expansion (command : text) : bool :=
  quote_scan (λ prev t, match t with
                        | c :: _ => char_in c "{}" && is_brace_expansion_position prev t
                        | [] => false
                        end) (λ _, false) false false false None command.

(** The characters up to a blank or a separator *)
Fixpoint word_length (t : text) : nat :=
  match t with
  | c :: t' => if is_blank c || is_shell_separator c then 0 else S (word_length t')
  | [] => 0
  end.
Definition is_test_bracket_token (t : text) : bool :=
  match word_length t with
  | 1%nat => match t with c :: _ => is_char c "[" | [] => false end
  | 2%nat => match t with c :: c2 :: _ => is_char c "[" && is_char c2 "[" | _ => false end
  | _ => false
  end.
Definition contains_shell_globbing (command : text) : bool :=
  quote_scan (λ _ t, match t with
                     | c :: _ => char_in c "*?" || (is_char c "[" && negb (is_test_bracket_token t))
                     | [] => false
                     end) (λ _, false) false false false None command.

Definition validate_shell_features (cmd backend_name : text) : Checked unit :=
  let comment_free := strip_shell_comments (normalize_shell_line_continuations cmd) in
  if contains_shell_expansion comment_free || contains_shell_brace_expansion comment_free
     || contains_shell_globbing comment_free
  then fail_with (lit "Sandbox backend " ++ backend_name ++
    lit " rejects shell variable, command, brace, or glob expansion because path references cannot be validated safely")
  else mret tt.

(** ** Words *)

Record ShellToken : Type := mkToken { decoded : text; raw_start : nat; raw_end : nat }.

Definition incomplete_escape {A} : Checked A :=
  fail_with (lit "Command ends with an incomplete escape sequence").
Definition unterminated_quote {A} : Checked A :=
  fail_with (lit "Command contains an unterminated quoted string").

Definition push_double_quoted_escape (word : text) (next : char) : text :=
  if next =? 10 then word
  else if char_in next "$`\" || is_dquote next then word ++ [next]
  else word ++ [92; next].

Definition push_shell_word_token (tokens : list ShellToken) (current : text)
    (start : option nat) (raw_end : nat) : list ShellToken :=
  match start with
  | None => tokens
  | Some start => tokens ++ [mkToken current start raw_end]
  end.
(** [current] after a word was pushed: it is taken with [raw_start] *)
Definition taken (current : text) (start : option nat) : text :=
  match start with None => current | Some _ => [] end.
(** [raw_start.get_or_insert(index)] *)
Definition get_or_insert (start : option nat) (index : nat) : option nat :=
  match start with None => Some index | Some _ => start end.

(** The characters of a redirection operator that starts with [c], given what
    follows *)
Definition redirection_operator (c : char) (t : text) : text :=
  match t with
  | c2 :: t2 =>
      if (is_char c "<" && char_in c2 "<>&") || (is_char c ">" && char_in c2 ">&|") then
        if is_char c "<" && is_char c2 "<" &&
           match t2 with c3 :: _ => is_char c3 "-" | [] => false end
        then [c; c2; 45] else [c; c2]
      else [c]
  | [] => [c]
  end.

(** The loop of [shell_tokens_with_spans]; [skip] characters that an earlier turn
    consumed come first. *)
Fixpoint tokens_go (skip : nat) (s : ScanState) (tokens : list ShellToken) (current : text)
    (start : option nat) (index : nat) (t : text) : Checked (list ShellToken) :=
  match t with
  | [] =>
      if escaped s then incomplete_escape
      else if in_single s || in_double s then unterminated_quote
      else mret (push_shell_word_token tokens current start index)
  | c :: t' =>
      match skip with
      | S n => tokens_go n s tokens current start (S index) t'
      | O =>
          let next := tokens_go 0 in
          let word := push_shell_word_token tokens current start index in
          if in_comment s then
            next (if is_newline c then set_word false (set_in_comment false s) else s)
              tokens current start (S index) t'
          else if escaped s then
            next (set_word true (set_escaped false s)) tokens (current ++ [c]) start (S index) t'
          else if in_single s then
            if is_squote c then next (set_word true (set_in_single false s)) tokens current start (S index) t'
            else next (set_word true s) tokens (current ++ [c]) start (S index) t'
          else if in_double s then
            if is_backslash c then
              match t' with
              | c2 :: _ => tokens_go 1 (set_word true s) tokens (push_double_quoted_escape current c2)
                             start (S index) t'
              | [] => incomplete_escape
              end
            else if is_dquote c then
              next (set_word true (set_in_double false s)) tokens current start (S index) t'
            else next (set_word true s) tokens (current ++ [c]) start (S index) t'
          else if is_backslash c then
            match t' with
            | c2 :: _ => tokens_go 1 (set_word true s) tokens (current ++ [c2])
                           (get_or_insert start index) (S index) t'
            | [] => incomplete_escape
            end
          else if is_squote c then
            next (set_word true (set_in_single true s)) tokens current (get_or_insert start index) (S index) t'
          else if is_dquote c then
            next (set_word true (set_in_double true s)) tokens current (get_or_insert start index) (S index) t'
          else if is_char c "#" && negb (word_started s) then
            next (set_in_comment true s) tokens current start (S index) t'
          else if is_blank c || char_in c ";(){}" then
            next (set_word false s) word (taken current start) None (S index) t'
          else if char_in c "&|" then
            tokens_go (match t' with c2 :: _ => if c2 =? c then 1 else 0 | [] => 0 end)
              (set_word false s) word (taken current start) None (S index) t'
          else if char_in c "<>" then
            let operator := redirection_operator c t' in
            tokens_go (length operator - 1) (set_word false s)
              (word ++ [mkToken operator index (index + length operator)])
              (taken current start) None (S index) t'
          else next (set_word true s) tokens (current ++ [c]) (get_or_insert start index) (S index) t'
      end
  end.
Definition shell_tokens_with_spans (command : text) : Checked (list ShellToken) :=
  tokens_go 0 scan_start [] [] None 0 command.

(** ** Commands *)

Definition end_word (command : list text) (word : text) : list text :=
  if bool_decide (word = []) then command else command ++ [word].
Definition end_command (commands : list (list text)) (command : list text) : list (list text) :=
  if bool_decide (command = []) then commands else commands ++ [command].

Fixpoint commands_go (skip : nat) (s : ScanState) (commands : list (list text))
    (command : list text) (word : text) (t : text) : Checked (list (list text)) :=
  match t with
  | [] =>
      if escaped s then incomplete_escape
      else if in_single s || in_double s then unterminated_quote
      else mret (end_command commands (end_word command word))
  | c :: t' =>
      match skip with
      | S n => commands_go n s commands command word t'
      | O =>
          let next := commands_go 0 in
          if in_comment s then
            if is_newline c then
              next (set_word false (set_in_comment false s))
                (end_command commands (end_word command word)) [] [] t'
            else next s commands command word t'
          else if escaped s then
            next (set_word true (set_escaped false s)) commands command (word ++ [c]) t'
          else if in_single s then
            if is_squote c then next (set_word true (set_in_single false s)) commands command word t'
            else next (set_word true s) commands command (word ++ [c]) t'
          else if in_double s then
            if is_backslash c then
              match t' with
              | c2 :: _ => commands_go 1 (set_word true s) commands command
                             (push_double_quoted_escape word c2) t'
              | [] => incomplete_escape
              end
            else if is_dquote c then
              next (set_word true (set_in_double false s)) commands command word t'
            else next (set_word true s) commands command (word ++ [c]) t'
          else if is_backslash c then
            match t' with
            | c2 :: _ => commands_go 1 (set_word true s) commands command (word ++ [c2]) t'
            | [] => incomplete_escape
            end
          else if is_squote c then
            next (set_word true (set_in_single true s)) commands command word t'
          else if is_dquote c then
            next (set_word true (set_in_double true s)) commands command word t'
          else if is_char c "#" && negb (word_started s) then
            next (set_in_comment true s) commands command word t'
          else if is_newline c then
            next (set_word false s) (end_command commands (end_word command word)) [] [] t'
          else if (c =? 32) || (c =? 9) then
            next (set_word false s) commands (end_word command word) [] t'
          else if char_in c ";|&(){}" then
            commands_go
              (match t' with c2 :: _ => if (c2 =? c) && char_in c "|&" then 1 else 0 | [] => 0 end)
              (set_word false s) (end_command commands (end_word command word)) [] [] t'
          else next (set_word true s) commands command (word ++ [c]) t'
      end
  end.
Definition shell_commands (command : text) : Checked (list (list text)) :=
  commands_go 0 scan_start [] [] [] command.

Example shell_reader_examples :
  shell_commands (lit "a 'b c'&&d|e # f") =
    inr [[lit "a"; lit "b c"]; [lit "d"]; [lit "e"]] ∧
  shell_tokens_with_spans (lit "cat <<-EOF 2>out") =
    inr [mkToken (lit "cat") 0 3; mkToken (lit "<<-") 4 7; mkToken (lit "EOF") 7 10;
         mkToken (lit "2") 11 12; mkToken (lit ">") 12 13; mkToken (lit "out") 13 16] ∧
  shell_commands (lit "a 'b") = inl (lit "Command contains an unterminated quoted string") ∧
  contains_shell_globbing (lit "[ -f a ]") = false ∧ contains_shell_globbing (lit "ls [ab]") = true.
Proof. vm_compute. split_and!; reflexivity. Qed.
