(* ===== verification/SandboxCommands.v ===== *)
(** * Commands behind wrappers and interpreters in the sandbox
      (agent-engine/src/tools/sandbox: command_options.rs, command_interpreters.rs,
      command_wrappers.rs)

    What a command runs once wrappers are looked through, which commands evaluate
    code the path guard cannot see, and the part of AWK it inspects. Many helpers
    have the same text as those of the command classifier; those are the same
    definitions here. *)
From S2P Require Import Prelude RustStd RustChars BashSyntax BashClassifier SandboxSyntax.

(** [args[..].iter().any(|arg| arg == "..")], [" "] between two texts, and
    [chars().skip(1).any(..)] *)
Definition spaced (a b : text) : text := a ++ lit " " ++ b.
Definition cluster_has (arg : text) (letters : string) : bool :=
  existsb (λ c, char_in c letters) (drop 1 arg).

(** ** command_options.rs *)

Definition exact_or_inline_option_with_value := BashClassifier.exact_or_inline_option_with_value.
Definition has_attached_option_value := BashClassifier.has_attached_option_value.

Record CargoShortOptions : Type := mkCargo {
  cargo_query : bool;
  cargo_help : bool;
  cargo_value : option char;
  cargo_attached : bool;
}.
Fixpoint cargo_flags (query : bool) (flags : text) : option CargoShortOptions :=
  match flags with
  | [] => Some (mkCargo query false None false)
  | c :: rest =>
      if char_in c "vq" then cargo_flags query rest
      else if is_char c "V" then cargo_flags true rest
      else if is_char c "h" then Some (mkCargo true true None false)
      else if char_in c "CZ" then
        Some (mkCargo query false (Some c) (negb (bool_decide (rest = []))))
      else None
  end.
Definition cargo_short_options (word : text) : option CargoShortOptions :=
  match text_strip_prefix (lit "-") word with
  | Some flags => cargo_flags false flags
  | None => None
  end.

(** The loop of [cargo_command_options] from the word at [index] on: the index of
    the subcommand, whether the command is a query, whether it asks for help *)
Fixpoint cargo_go (index : nat) (query help : bool) (words : list text) :
    option nat * bool * bool :=
  match words with
  | [] => (None, query, help)
  | word :: rest =>
      let skip_value query help :=
        match rest with
        | [] => (None, query, help)
        | _ :: rest' => cargo_go (2 + index) query help rest'
        end in
      if is_lit word "--" then
        (match rest with _ :: _ => Some (S index) | [] => None end, query, help)
      else if one_of word ["--config"; "--color"; "-C"; "-Z"] then skip_value query help
      else if negb (text_starts word "-") then (Some index, query, help)
      else if one_of word ["--help"; "--version"; "--list"] then
        cargo_go (S index) true (help || is_lit word "--help") rest
      else if negb (text_starts word "--") then
        match cargo_short_options word with
        | None => (None, help, help)
        | Some short =>
            let query := query || cargo_query short in
            let help := help || cargo_help short in
            if isSome (cargo_value short) && negb (cargo_attached short)
            then skip_value query help
            else cargo_go (S index) query help rest
        end
      else cargo_go (S index) query help rest
  end.
Definition cargo_command_options (args : list text) : option nat * bool * bool :=
  match args with
  | word :: rest =>
      if text_starts word "+" then cargo_go 1 false false rest else cargo_go 0 false false args
  | [] => cargo_go 0 false false []
  end.
Definition cargo_subcommand_index (args : list text) : option nat := (cargo_command_options args).1.1.
Definition cargo_global_query (args : list text) : bool := (cargo_command_options args).1.2.
Definition cargo_global_help (args : list text) : bool := (cargo_command_options args).2.
Definition cargo_subcommand (args : list text) : option text :=
  match cargo_subcommand_index args with Some i => args !! i | None => None end.

Fixpoint cargo_changes_go (words : list text) : bool :=
  match words with
  | [] => false
  | word :: rest =>
      let skip_value := match rest with _ :: rest' => cargo_changes_go rest' | [] => false end in
      if one_of word ["--config"; "--color"; "--manifest-path"; "--features"; "-F"] then skip_value
      else if text_starts word "-" && negb (text_starts word "--") then
        match cargo_short_options word with
        | Some short =>
            if bool_decide (cargo_value short = Some (code "C")) then true
            else if isSome (cargo_value short) && negb (cargo_attached short) then skip_value
            else cargo_changes_go rest
        | None => cargo_changes_go rest
        end
      else cargo_changes_go rest
  end.
Definition cargo_changes_directory (args : list text) : bool :=
  cargo_changes_go (take_before_dashes args).

(** ** command_interpreters.rs *)

Definition find_dispatch_flags : list string := ["-exec"; "-execdir"; "-ok"; "-okdir"].
Fixpoint find_dispatch_clause (args : list text) : option text :=
  match args with
  | [] => None
  | arg :: tail =>
      if one_of arg find_dispatch_flags
         && match tail with
            | first :: _ => negb (text_starts first "-") && existsb (λ w, one_of w [";"; "+"]) tail
            | [] => false
            end
      then Some arg else find_dispatch_clause tail
  end.
Definition opaque_command_dispatcher_display (display command : text) (args : list text) :
    option text :=
  if is_lit command "xargs" then Some display
  else if is_lit command "find" then spaced display <$> find_dispatch_clause args
  else None.

(** *** Interpreters that run a script *)

Definition shell_query_flag (arg : text) : bool := one_of arg ["--help"; "--version"].
Definition python_query_flag (arg : text) : bool :=
  one_of arg ["-h"; "--help"; "--version"] || text_starts arg "-V".
Definition node_query_flag (arg : text) : bool := one_of arg ["-h"; "--help"; "-v"; "--version"].
Definition perl_query_flag (arg : text) : bool :=
  one_of arg ["-h"; "--help"] || text_starts arg "-v" || text_starts arg "-V".
Definition ruby_query_flag (arg : text) : bool := one_of arg ["-h"; "--help"; "-v"; "--version"].
Definition lua_query_flag (arg : text) : bool := one_of arg ["-h"; "--help"; "-v"; "--version"].
Definition php_query_flag (arg : text) : bool :=
  one_of arg ["-h"; "--help"; "-v"; "--version"; "-i"; "-m"].
Definition awk_query_flag (arg : text) : bool :=
  one_of arg ["--help"; "--version"; "-Wversion"; "-Whelp"].

Definition shell_wrapper_advance := BashClassifier.shell_wrapper_advance.
Definition python_wrapper_advance := BashClassifier.python_wrapper_advance.
Definition node_wrapper_advance := BashClassifier.node_wrapper_advance.
Definition perl_wrapper_advance := BashClassifier.perl_wrapper_advance.
Definition ruby_wrapper_advance := BashClassifier.ruby_wrapper_advance.
Definition lua_wrapper_advance := BashClassifier.lua_wrapper_advance.
Definition php_wrapper_advance := BashClassifier.php_wrapper_advance.

(** The loop the interpreters share: a query is no script; after [--] the script is
    the next word; [special] are the tests of one interpreter, which end the loop;
    then options are skipped, and the first word that is none is the script. *)
Fixpoint script_display (query : text → bool) (special : text → list text → option (option text))
    (advance : text → option nat) (display : text) (args : list text) : option text :=
  match args with
  | [] => Some (spaced display (lit "<stdin>"))
  | arg :: rest =>
      if query arg then None
      else if is_lit arg "--" then spaced display <$> head rest
      else match special arg rest with
           | Some result => result
           | None =>
               match advance arg with
               | Some 2%nat =>
                   match rest with
                   | _ :: rest' => script_display query special advance display rest'
                   | [] => Some (spaced display (lit "<stdin>"))
                   end
               | Some _ => script_display query special advance display rest
               | None => Some (spaced display arg)
               end
           end
  end.
Definition stdin_dash (display arg : text) (_ : list text) : option (option text) :=
  if is_lit arg "-" then Some (Some (spaced display (lit "-"))) else None.

Definition shell_script_interpreter_display (display : text) : list text → option text :=
  script_display shell_query_flag
    (λ arg _, if is_lit arg "-s" then Some (Some (spaced display (lit "-s"))) else None)
    shell_wrapper_advance display.
Definition is_safe_python_module_runner (module : text) : bool := one_of module ["pytest"; "unittest"].
Definition python_script_interpreter_display (display : text) : list text → option text :=
  script_display python_query_flag
    (λ arg rest,
      if one_of arg ["-m"; "--module"] then
        Some (if match head rest with Some m => is_safe_python_module_runner m | None => false end
              then None else Some (spaced display arg))
      else if is_lit arg "-" then Some (Some (spaced display arg))
      else None)
    python_wrapper_advance display.
Definition node_script_interpreter_display (display : text) : list text → option text :=
  script_display node_query_flag (stdin_dash display) node_wrapper_advance display.
Definition perl_script_interpreter_display (display : text) : list text → option text :=
  script_display perl_query_flag (stdin_dash display) perl_wrapper_advance display.
Definition ruby_script_interpreter_display (display : text) : list text → option text :=
  script_display ruby_query_flag (stdin_dash display) ruby_wrapper_advance display.
Definition lua_script_interpreter_display (display : text) : list text → option text :=
  script_display lua_query_flag (stdin_dash display) lua_wrapper_advance display.
Definition php_script_interpreter_display (display : text) : list text → option text :=
  script_display php_query_flag
    (λ arg _,
      if one_of arg ["-B"; "-E"; "-R"; "-F"; "-"] then Some (Some (spaced display arg))
      else if exact_or_inline_option_with_value arg ["-f"] ["--file"]
      then Some (Some (spaced display (lit "-f")))
      else None)
    php_wrapper_advance display.

Definition awk_value_options (arg : text) : bool :=
  exact_or_inline_option_with_value arg ["-F"; "-v"; "-W"] ["--field-separator"; "--assign"].
Definition awk_source_option (arg : text) : bool :=
  exact_or_inline_option_with_value arg ["-e"] ["--source"].
Definition awk_file_option (arg : text) : bool :=
  exact_or_inline_option_with_value arg ["-f"] ["--file"].

Fixpoint awk_script_interpreter_display (display : text) (args : list text) : option text :=
  match args with
  | [] => None
  | arg :: rest =>
      let go2 := match rest with
                 | _ :: rest' => awk_script_interpreter_display display rest'
                 | [] => None
                 end in
      if awk_query_flag arg then None
      else if is_lit arg "-W" then
        if match head rest with Some v => one_of v ["version"; "help"] | None => false end
        then None else go2
      else if is_lit arg "--" then
        match rest with _ :: _ => Some (spaced display (lit "program")) | [] => None end
      else if awk_source_option arg then Some (spaced display (lit "-e"))
      else if awk_file_option arg then Some (spaced display (lit "-f"))
      else if awk_value_options arg then
        if has_attached_option_value arg then awk_script_interpreter_display display rest else go2
      else if text_starts arg "-" then awk_script_interpreter_display display rest
      else Some (spaced display (lit "program"))
  end.

Definition opaque_script_interpreter_display (display command : text) (args : list text) :
    option text :=
  if one_of command shells then shell_script_interpreter_display display args
  else if one_of command ["python"; "python3"] then python_script_interpreter_display display args
  else if is_lit command "node" then node_script_interpreter_display display args
  else if is_lit command "perl" then perl_script_interpreter_display display args
  else if is_lit command "ruby" then ruby_script_interpreter_display display args
  else if is_lit command "lua" then lua_script_interpreter_display display args
  else if is_lit command "php" then php_script_interpreter_display display args
  else if one_of command ["awk"; "gawk"; "mawk"; "nawk"] then awk_script_interpreter_display display args
  else None.

(** *** Code given on the command line *)

Definition shell_flag_contains_short_option := BashClassifier.short_flag_contains_option.
Definition is_shell_eval_wrapper := BashClassifier.is_shell_eval_wrapper.
Definition is_code_eval_wrapper := BashClassifier.is_code_eval_wrapper.

(** [scan_leading_args], with the flag that matched *)
Fixpoint scan_leading_args (matches_eval : text → bool) (advance : text → option nat)
    (args : list text) : option text :=
  match args with
  | [] => None
  | arg :: rest =>
      if is_lit arg "--" then None
      else if matches_eval arg then Some arg
      else match advance arg with
           | None => None
           | Some 2%nat =>
               match rest with
               | _ :: rest' => scan_leading_args matches_eval advance rest'
               | [] => None
               end
           | Some _ => scan_leading_args matches_eval advance rest
           end
  end.
Definition leading_eval_flag (command : text) (args : list text) : option text :=
  let scan name advance :=
    scan_leading_args (is_code_eval_wrapper (lit name)) advance args in
  if one_of command shells then
    scan_leading_args (is_shell_eval_wrapper (lit "sh")) shell_wrapper_advance args
  else if one_of command ["python"; "python3"] then scan "python3" python_wrapper_advance
  else if is_lit command "node" then scan "node" node_wrapper_advance
  else if is_lit command "perl" then scan "perl" perl_wrapper_advance
  else if is_lit command "ruby" then scan "ruby" ruby_wrapper_advance
  else if is_lit command "lua" then scan "lua" lua_wrapper_advance
  else if is_lit command "php" then scan "php" php_wrapper_advance
  else None.

(** *** AWK arguments *)

Inductive AwkArgumentRole : Set := Program (offset : nat) | AwkData | Operand.

Definition is_ascii_alphabetic (c : char) : bool :=
  ((65 <=? c) && (c <=? 90)) || ((97 <=? c) && (c <=? 122)).
Definition is_word_char (c : char) : bool := is_char c "_" || is_ascii_alphanumeric c.
Definition is_awk_assignment (arg : text) : bool :=
  match split_once_char "=" arg with
  | Some (c :: name, _) => (is_char c "_" || is_ascii_alphabetic c) && forallb is_word_char name
  | _ => false
  end.

(** The loop of [awk_next_argument_role] over the arguments before the candidate:
    the role when it is decided there, else whether the program was given and
    whether the options ended *)
Fixpoint awk_role_go (program_supplied options_ended : bool) (args : list text) :
    AwkArgumentRole + (bool * bool) :=
  match args with
  | [] => inr (program_supplied, options_ended)
  | arg :: rest =>
      (* an option with a value: [supplied] if it gives the program, [missing] if
         its value is the candidate *)
      let option supplied missing :=
        if has_attached_option_value arg then awk_role_go supplied false rest
        else match rest with
             | _ :: rest' => awk_role_go supplied false rest'
             | [] => inl missing
             end in
      if options_ended then awk_role_go true true rest
      else if is_lit arg "--" then awk_role_go program_supplied true rest
      else if awk_source_option arg then option true (Program 0)
      else if awk_file_option arg then option true Operand
      else if exact_or_inline_option_with_value arg ["-i"] ["--include"]
      then option program_supplied Operand
      else if awk_value_options arg then option program_supplied AwkData
      else if text_starts arg "-" then awk_role_go program_supplied false rest
      else awk_role_go true false rest
  end.
Definition awk_next_argument_role (args : list text) (candidate : text) : AwkArgumentRole :=
  match awk_role_go false false args with
  | inl role => role
  | inr (program_supplied, options_ended) =>
      if awk_value_options candidate && has_attached_option_value candidate then AwkData
      else if awk_file_option candidate && has_attached_option_value candidate then Operand
      else if negb options_ended && awk_source_option candidate
              && has_attached_option_value candidate
      then Program (if text_starts candidate "--source=" then 9 else 2)
      else if negb options_ended && text_starts candidate "-" then Operand
      else if is_awk_assignment candidate then AwkData
      else if program_supplied then Operand
      else Program 0
  end.

(** *** AWK programs *)

Inductive AwkToken : Type :=
  | Identifier (name : text)
  | Number (digits : text)
  | StringLiteral (content : text) (has_escapes : bool)
  | RegexLiteral
  | Symbol (c : char)
  | Newline.
Global Instance AwkToken_eq_dec : EqDecision AwkToken.
Proof. solve_decision. Defined.

Fixpoint split_while (p : char → bool) (t : text) : text * text :=
  match t with
  | c :: t' => if p c then let '(a, b) := split_while p t' in (c :: a, b) else ([], t)
  | [] => ([], [])
  end.
(** After the opening quote: the content, whether it has escapes, the rest *)
Fixpoint awk_string (esc has_escapes : bool) (t : text) : text * bool * text :=
  match t with
  | [] => ([], has_escapes, [])
  | c :: t' =>
      if esc then let '(s, e, r) := awk_string false has_escapes t' in (c :: s, e, r)
      else if is_backslash c then let '(s, e, r) := awk_string true true t' in (c :: s, e, r)
      else if is_dquote c then ([], has_escapes, t')
      else let '(s, e, r) := awk_string false has_escapes t' in (c :: s, e, r)
  end.
(** [skip_awk_regex] after the opening slash: the rest *)
Fixpoint skip_awk_regex (esc in_class : bool) (t : text) : text :=
  match t with
  | [] => []
  | c :: t' =>
      if esc then skip_awk_regex false in_class t'
      else if is_backslash c then skip_awk_regex true in_class t'
      else if is_char c "[" then skip_awk_regex false true t'
      else if is_char c "]" then skip_awk_regex false false t'
      else if is_char c "/" && negb in_class then t'
      else skip_awk_regex false in_class t'
  end.
Definition awk_regex_can_start (last_token : option AwkToken) : bool :=
  match last_token with
  | None | Some Newline => true
  | Some (Symbol c) => char_in c "({;,~!=&|:?<>"
  | Some _ => false
  end.

(** [awk_tokens]: a turn of the loop takes at least a character, so as many turns as
    characters are enough ([awk_fuel_enough]). *)
Fixpoint awk_go (fuel : nat) (tokens : list AwkToken) (t : text) : list AwkToken :=
  match fuel, t with
  | S f, c :: t' =>
      if is_char c "#" then awk_go f tokens (split_while (λ d, negb (d =? 10)) t').2
      else if is_dquote c then
        let '(content, has_escapes, rest) := awk_string false false t' in
        awk_go f (tokens ++ [StringLiteral content has_escapes]) rest
      else if is_char c "/" && awk_regex_can_start (last tokens) then
        awk_go f (tokens ++ [RegexLiteral]) (skip_awk_regex false false t')
      else if c =? 10 then awk_go f (tokens ++ [Newline]) t'
      else if is_ascii_whitespace c then awk_go f tokens t'
      else if is_ascii_alphabetic c || is_char c "_" then
        let '(name, rest) := split_while is_word_char t' in
        awk_go f (tokens ++ [Identifier (c :: name)]) rest
      else if is_ascii_digit c then
        let '(digits, rest) := split_while (λ d, is_word_char d || is_char d ".") t' in
        awk_go f (tokens ++ [Number (c :: digits)]) rest
      else awk_go f (tokens ++ [Symbol c]) t'
  | _, _ => tokens
  end.
Definition awk_tokens (source : text) : list AwkToken := awk_go (length source) [] source.

Definition is_symbol (k : option AwkToken) (symbols : string) : bool :=
  match k with Some (Symbol c) => char_in c symbols | _ => false end.
Definition is_identifier (k : AwkToken) (names : list string) : bool :=
  match k with Identifier n => one_of n names | _ => false end.

(** The [any] over the tokens with their neighbours *)
Fixpoint awk_opaque_token (prev : option AwkToken) (tokens : list AwkToken) : bool :=
  match tokens with
  | [] => false
  | k :: rest =>
      is_identifier k ["system"; "ARGV"; "ARGC"]
      || (is_identifier k ["include"; "load"] && is_symbol prev "@")
      || (is_symbol (Some k) "|" && negb (is_symbol prev "|") && negb (is_symbol (head rest) "|"))
      || awk_opaque_token (Some k) rest
  end.
(** The inner loop of [awk_prints_to_file] over the tokens after a print *)
Fixpoint print_redirects (parentheses brackets : nat) (tokens : list AwkToken) : bool :=
  match tokens with
  | [] => false
  | k :: rest =>
      let top := bool_decide (parentheses = 0%nat) && bool_decide (brackets = 0%nat) in
      if is_symbol (Some k) "(" then print_redirects (S parentheses) brackets rest
      else if is_symbol (Some k) ")" then print_redirects (pred parentheses) brackets rest
      else if is_symbol (Some k) "[" then print_redirects parentheses (S brackets) rest
      else if is_symbol (Some k) "]" then print_redirects parentheses (pred brackets) rest
      else if (is_symbol (Some k) ";}" || bool_decide (k = Newline)) && top then false
      else if is_symbol (Some k) ">" && top && negb (is_symbol (head rest) "=") then true
      else print_redirects parentheses brackets rest
  end.
Fixpoint awk_prints_to_file (tokens : list AwkToken) : bool :=
  match tokens with
  | [] => false
  | k :: rest =>
      (is_identifier k ["print"; "printf"] && print_redirects 0 0 rest) || awk_prints_to_file rest
  end.
Definition awk_program_has_uninspectable_io (program : text) : bool :=
  let tokens := awk_tokens program in
  awk_opaque_token None tokens || awk_prints_to_file tokens.

(** [skip_awk_group]: the tokens after the group that starts here *)
Fixpoint skip_awk_group (open close : ascii) (depth : nat) (tokens : list AwkToken) :
    option (list AwkToken) :=
  match tokens with
  | [] => None
  | k :: rest =>
      match k with
      | Symbol c =>
          if is_char c open then skip_awk_group open close (S depth) rest
          else if is_char c close then
            if bool_decide (pred depth = 0%nat) then Some rest
            else skip_awk_group open close (pred depth) rest
          else skip_awk_group open close depth rest
      | _ => skip_awk_group open close depth rest
      end
  end.
(** [while matches!(tokens.get(cursor), Some(Symbol('[')))]; a group takes at least a
    token *)
Fixpoint skip_subscripts (fuel : nat) (tokens : list AwkToken) : option (list AwkToken) :=
  if is_symbol (head tokens) "[" then
    match fuel, skip_awk_group "[" "]" 0 tokens with
    | S f, Some rest => skip_subscripts f rest
    | _, _ => None
    end
  else Some tokens.
(** [awk_getline_file_source_index] on the tokens after [getline]: the tokens from
    the source on *)
Definition awk_getline_file_source (tokens : list AwkToken) : option (list AwkToken) :=
  let finish cursor :=
    match skip_subscripts (length cursor) cursor with
    | Some cursor => if is_symbol (head cursor) "<" then Some (drop 1 cursor) else None
    | None => None
    end in
  if is_symbol (head tokens) "<" then Some (drop 1 tokens)
  else match tokens with
       | Identifier _ :: rest => finish rest
       | Symbol c :: rest =>
           if is_char c "$" then
             if is_symbol (head rest) "(" then
               match skip_awk_group "(" ")" 0 rest with Some r => finish r | None => None end
             else match rest with _ :: rest' => finish rest' | [] => None end
           else if is_char c "(" then
             match skip_awk_group "(" ")" 0 tokens with Some r => finish r | None => None end
           else None
       | _ => None
       end.

(** The paths of [getline] files, unless one is no simple string *)
Fixpoint getline_paths_go (tokens : list AwkToken) : option (list text) :=
  match tokens with
  | [] => Some []
  | k :: rest =>
      if negb (is_identifier k ["getline"]) then getline_paths_go rest
      else match awk_getline_file_source rest with
           | None => getline_paths_go rest
           | Some (StringLiteral path has_escapes :: after) =>
               if has_escapes
                  || negb (match head after with
                           | None | Some Newline => true
                           | Some (Symbol c) => char_in c ")};"
                           | Some _ => false
                           end)
               then None
               else if text_contains path "://" then None
               else cons (if text_starts path "/" then path else lit "./" ++ path)
                      <$> getline_paths_go rest
           | Some _ => None
           end
  end.
Definition awk_getline_file_paths (program : text) : option (list text) :=
  getline_paths_go (awk_tokens program).

(** *** [validate_awk_arguments] *)

Fixpoint awk_options_ok (args : list text) : text + unit :=
  match args with
  | [] => inr tt
  | arg :: rest =>
      if is_lit arg "--" then inr tt
      else if awk_query_flag arg
              || one_of arg ["-b"; "--characters-as-bytes"; "-c"; "--traditional"; "-P"; "--posix";
                             "-S"; "--sandbox"] then awk_options_ok rest
      else if is_lit arg "-W"
              && match head rest with Some v => one_of v ["version"; "help"] | None => false end
      then match rest with _ :: rest' => awk_options_ok rest' | [] => inr tt end
      else if exact_or_inline_option_with_value arg ["-f"; "-i"; "-E"; "-l"]
                ["--file"; "--include"; "--exec"; "--load"]
      then inl (lit "opaque AWK script files or extensions")
      else if exact_or_inline_option_with_value arg ["-F"; "-v"; "-e"]
                ["--field-separator"; "--assign"; "--source"] then
        if has_attached_option_value arg then awk_options_ok rest
        else match rest with
             | _ :: rest' => awk_options_ok rest'
             | [] => inl (lit "missing AWK option value")
             end
      else if text_starts arg "-" then inl (lit "uninspectable AWK options")
      else awk_options_ok rest
  end.
Fixpoint awk_programs_ok (before args : list text) : text + unit :=
  match args with
  | [] => inr tt
  | candidate :: rest =>
      match awk_next_argument_role before candidate with
      | Program offset =>
          if awk_program_has_uninspectable_io (drop offset candidate)
          then inl (lit "AWK programs with uninspectable file or command I/O")
          else awk_programs_ok (before ++ [candidate]) rest
      | _ => awk_programs_ok (before ++ [candidate]) rest
      end
  end.
Definition validate_awk_arguments (args : list text) : text + unit :=
  match awk_options_ok args with
  | inl e => inl e
  | inr _ => awk_programs_ok [] args
  end.

(** Enough turns for every program: a turn takes at least a character. *)
Lemma split_while_le p t : (length (split_while p t).2 ≤ length t)%nat.
Proof.
  induction t as [|c t IH]; simpl; [lia|]. destruct (p c); [|done].
  destruct (split_while p t) as [a b]. simpl in *. lia.
Qed.
Lemma awk_string_le esc e t : (length (awk_string esc e t).2 ≤ length t)%nat.
Proof.
  revert esc e. induction t as [|c t IH]; intros esc e; simpl; [lia|].
  repeat case_match; simpl;
    repeat match goal with H : awk_string ?a ?b t = _ |- _ =>
      pose proof (IH a b) as Hle; rewrite H in Hle; clear H end; simpl in *; lia.
Qed.
Lemma skip_regex_le esc k t : (length (skip_awk_regex esc k t) ≤ length t)%nat.
Proof.
  revert esc k. induction t as [|c t IH]; intros esc k; simpl; [lia|].
  repeat case_match; try (etrans; [apply IH|lia]); lia.
Qed.
Lemma awk_fuel_enough n m ks t :
  (length t ≤ n)%nat → (length t ≤ m)%nat → awk_go n ks t = awk_go m ks t.
Proof.
  revert m ks t. induction n as [|n IH]; intros [|m] ks [|c t] Hn Hm; simpl in *; try lia; try done.
  assert (∀ ks' r, (length r ≤ length t)%nat → awk_go n ks' r = awk_go m ks' r) as Hgo
    by (intros; apply IH; lia).
  pose proof (awk_string_le false false t) as Hs. pose proof (split_while_le is_word_char t) as Hw.
  pose proof (split_while_le (λ d, is_word_char d || is_char d ".") t) as Hd.
  repeat case_match; simpl in *; try (apply Hgo; lia).
  - apply Hgo, split_while_le.
  - apply Hgo, skip_regex_le.
Qed.
Example awk_examples :
  awk_program_has_uninspectable_io (lit "{ print $1 > out }") = true ∧
  awk_program_has_uninspectable_io (lit "$1 > 3 { print ($1 > 2) }") = false ∧
  awk_program_has_uninspectable_io (lit "/a|b/ { x = 1 || 2 }") = false.
Proof. vm_compute. split_and!; reflexivity. Qed.

(** ** command_wrappers.rs *)

Definition command_basename := BashClassifier.command_basename.
Definition is_env_assignment := BashClassifier.is_env_assignment.
Definition is_shell_control_prefix := BashClassifier.is_shell_control_prefix.
Definition is_transparent_command_wrapper := BashClassifier.is_transparent_command_wrapper.
Definition is_unsupported_shell_wrapper := BashClassifier.is_unsupported_shell_wrapper.
Definition common_wrapper_query_flag := BashClassifier.common_wrapper_query_flag.
Definition command_wrapper_offset := BashClassifier.command_wrapper_offset.
Definition builtin_wrapper_offset := BashClassifier.builtin_wrapper_offset.
Definition exec_wrapper_offset := BashClassifier.exec_wrapper_offset.
Definition nice_wrapper_offset := BashClassifier.nice_wrapper_offset.
Definition nohup_wrapper_offset := BashClassifier.nohup_wrapper_offset.
Definition timeout_wrapper_offset := BashClassifier.timeout_wrapper_offset.
Definition stdbuf_wrapper_offset := BashClassifier.stdbuf_wrapper_offset.
Definition setsid_wrapper_offset := BashClassifier.setsid_wrapper_offset.
Definition transparent_wrapper_offset := BashClassifier.transparent_wrapper_offset.
Definition command_wrapper_is_exec_flag := BashClassifier.command_wrapper_is_exec_flag.
Definition command_wrapper_is_query_flag := BashClassifier.command_wrapper_is_query_flag.
Definition builtin_query_flag := BashClassifier.builtin_query_flag.
Definition is_exec_wrapper_flag := BashClassifier.is_exec_wrapper_flag.
Definition has_inline_exec_argv0 := BashClassifier.has_inline_exec_argv0.
(** [next_command_offset], the words from there *)
Definition next_command := BashClassifier.next_command.

Definition is_shell_eval_builtin (command : text) : bool := one_of command ["eval"; "."; "source"].
Definition is_shell_startup_variable (name : text) : bool :=
  one_of name ["ENV"; "BASH_ENV"; "SHELLOPTS"; "BASHOPTS"; "CDPATH"; "ZDOTDIR"]
  || text_starts name "BASH_FUNC_".

(** *** [env]: here the options keep their case *)

Fixpoint env_cluster (saw_passthrough : bool) (rest : text) : option EnvOptionBehavior :=
  match rest with
  | [] => if saw_passthrough then Some Passthrough else None
  | c :: rest' =>
      if char_in c "i0" then env_cluster true rest'
      else if char_in c "uC" then
        Some (if bool_decide (rest' = []) then TakesNextArg else InlineValue)
      else if is_char c "S" then
        Some (if bool_decide (rest' = []) then SplitStringNextArg else SplitStringInlineValue)
      else None
  end.
Definition env_short_option_behavior (arg : text) : option EnvOptionBehavior :=
  if text_starts arg "--" then None
  else match text_strip_prefix (lit "-") arg with
       | None => None
       | Some rest => if bool_decide (rest = []) then None else env_cluster false rest
       end.
Definition env_option_behavior (arg : text) : option EnvOptionBehavior :=
  if one_of arg ["--ignore-environment"; "--null"] then Some Passthrough
  else if is_lit arg "--split-string" then Some SplitStringNextArg
  else if text_starts arg "--split-string=" then Some SplitStringInlineValue
  else if one_of arg ["--unset"; "--chdir"] then Some TakesNextArg
  else if text_starts arg "--unset=" || text_starts arg "--chdir=" then Some InlineValue
  else env_short_option_behavior arg.
Definition env_step (arg : text) : ScanStep :=
  if is_lit arg "--" then StopAfter
  else if is_env_assignment arg then Skip 1
  else match env_option_behavior arg with
       | Some (Passthrough | InlineValue | SplitStringInlineValue) => Skip 1
       | Some (TakesNextArg | SplitStringNextArg) => Skip 2
       | None => StopHere
       end.
(** [while args.get(index).is_some_and(|arg| is_env_assignment(arg))] *)
Fixpoint count_assignments (args : list text) : nat :=
  match args with
  | arg :: rest => if is_env_assignment arg then S (count_assignments rest) else 0
  | [] => 0
  end.
Definition env_command_offset (args : list text) : option nat :=
  match scan_options env_step args 0 with
  | Some (index, rest) =>
      let n := count_assignments rest in
      match drop n rest with _ :: _ => Some (index + n)%nat | [] => None end
  | None => None
  end.
(** [env_split_string_flag], with the flag *)
Fixpoint env_split_string_flag (args : list text) : option text :=
  match args with
  | [] => None
  | arg :: rest =>
      if is_lit arg "--" then None
      else if is_env_assignment arg then env_split_string_flag rest
      else match env_option_behavior arg with
           | Some (SplitStringInlineValue | SplitStringNextArg) => Some arg
           | Some (Passthrough | InlineValue) => env_split_string_flag rest
           | Some TakesNextArg =>
               match rest with _ :: rest' => env_split_string_flag rest' | [] => None end
           | None => None
           end
  end.

(** *** The command behind wrappers *)

Record NestedEvaluatorView : Type := mkEvaluator {
  ev_display : text;
  ev_command : text;
  ev_args : list text;
  opaque_wrapper_display : option text;
}.

(** [args.iter().take_while(|arg| arg.starts_with('-') && *arg != "--")] *)
Fixpoint leading_options (args : list text) : list text :=
  match args with
  | arg :: rest =>
      if text_starts arg "-" && negb (is_lit arg "--") then arg :: leading_options rest else []
  | [] => []
  end.
Definition wrapper_offset (command : text) (args : list text) : option nat :=
  if is_lit command "env" then env_command_offset args
  else if is_transparent_command_wrapper command then transparent_wrapper_offset command args
  else None.

(** The loop of [nested_evaluator_view] from the command word on *)
Fixpoint evaluator_go (fuel : nat) (display : text) (words : list text) :
    option NestedEvaluatorView :=
  match fuel, words with
  | S f, word :: args =>
      let command := command_basename word in
      let opaque suffix := Some (mkEvaluator display command args (Some (spaced display suffix))) in
      if is_lit command "exec" && existsb (λ arg, cluster_has arg "la") (leading_options args)
      then opaque (lit "with custom argv[0]")
      else
        match (if is_lit command "env" then env_split_string_flag args else None) with
        | Some flag => opaque flag
        | None =>
            match wrapper_offset command args with
            | None => Some (mkEvaluator display command args None)
            | Some off =>
                match drop off args with
                | next :: _ =>
                    if text_starts next "-" && negb (common_wrapper_query_flag next)
                    then opaque (lit "with unsupported options")
                    else evaluator_go f (spaced display (command_basename next)) (drop off args)
                | [] => None
                end
            end
        end
  | _, _ => None
  end.
Definition nested_evaluator_view (words : list text) : option NestedEvaluatorView :=
  match next_command words with
  | word :: _ =>
      evaluator_go (length (next_command words)) (command_basename word) (next_command words)
  | [] => None
  end.
Definition command_and_args (words : list text) : option (text * list text) :=
  match nested_evaluator_view words with
  | Some view => Some (ev_command view, ev_args view)
  | None => None
  end.

(** *** The script of a shell wrapper *)

Definition startup (detail : text) : Checked (option text) :=
  fail_with (lit "Shell startup files " ++ detail).

(** The options of a shell: the script of [-c] *)
Fixpoint inline_script_go (command : text) (args : list text) : Checked (option text) :=
  match args with
  | [] => mret None
  | word :: rest =>
      if text_starts word "+" then startup (lit "cannot be validated with + invocation options")
      else if is_lit word "--" || negb (text_starts word "-") then mret None
      else
        let long := text_starts word "--" in
        let name := match split_once_char "=" word with Some (n, _) => n | None => word end in
        if one_of name ["--login"; "--interactive"; "--rcfile"; "--init-file"]
           || (negb long && cluster_has word "li")
        then startup (lit "cannot be validated safely: " ++ spaced command word)
        else if negb long && cluster_has word "oO" then
          if negb (one_of word ["-o"; "-O"])
          then startup (lit "cannot be validated with clustered option arguments")
          else match rest with _ :: rest' => inline_script_go command rest' | [] => mret None end
        else if negb long && contains_char word "c" then mret (head rest)
        else inline_script_go command rest
  end.

(** The words that may set a variable of the shell's start-up *)
Definition startup_word (assignment_operands : bool) (word : text) : Checked unit :=
  let name := match split_once_char "=" word with Some (n, _) => n | None => word end in
  if contains_char name "[" && (assignment_operands || contains_char word "=")
  then fail_with (lit "Shell startup files cannot be validated through subscript assignment")
  else
    let name := reverse (trim_start_matches (λ c, is_char c "+") (reverse name)) in
    if is_shell_startup_variable name
    then fail_with (lit "Shell startup files cannot be enabled by command-local variable " ++ name)
    else mret tt.

Definition shell_wrapper_inline_script (words : list text) : Checked (option text) :=
  let view := nested_evaluator_view words in
  let indirect_assignment :=
    match view with
    | Some v =>
        let options := leading_options (ev_args v) in
        if is_lit (ev_command v) "printf" then existsb (λ arg, text_starts arg "-v") options
        else if one_of (ev_command v) ["declare"; "typeset"; "local"]
        then existsb (λ arg, contains_char (drop 1 arg) "n") options
        else is_lit (ev_command v) "let"
    | None => false
    end in
  if indirect_assignment
  then startup (lit "cannot be validated through indirect assignment")
  else
    let assignment_operands :=
      match view with
      | Some v => one_of (ev_command v)
          ["export"; "readonly"; "declare"; "typeset"; "local"; "read"; "getopts"]
      | None => false
      end in
    let prefix_end :=
      match view with
      | Some v => if assignment_operands then length words
                  else (length words - length (ev_args v))%nat
      | None => length words
      end in
    for_each (startup_word assignment_operands) (take prefix_end words);;
    match view with
    | None => mret None
    | Some v =>
        if isSome (opaque_wrapper_display v)
        then startup (lit "cannot be validated through opaque command wrappers")
        else if is_shell_eval_builtin (ev_command v)
        then startup (lit "cannot be validated through " ++ ev_command v)
        else if negb (one_of (ev_command v) shells) then mret None
        else if is_lit (ev_command v) "zsh"
                && negb (match ev_args v with
                         | a :: rest => is_lit a "-fc" ||
                             (is_lit a "-f" && match head rest with Some b => is_lit b "-c" | None => false end)
                         | [] => false
                         end)
        then startup (lit "require zsh -f -c or zsh -fc")
        else inline_script_go (ev_command v) (ev_args v)
    end.

(** *** Shapes that are refused *)

Definition refuse_evaluator {A} (backend_name shown : text) : Checked A :=
  fail_with (lit "Sandbox backend " ++ backend_name ++ lit " rejects nested command evaluators like "
    ++ shown ++ lit " because inner paths cannot be validated safely").
Definition refuse_dispatcher {A} (backend_name shown : text) : Checked A :=
  fail_with (lit "Sandbox backend " ++ backend_name ++ lit " rejects opaque command dispatchers like "
    ++ shown ++ lit " because child command paths cannot be validated safely").
Definition refuse_interpreter {A} (backend_name shown : text) : Checked A :=
  fail_with (lit "Sandbox backend " ++ backend_name ++ lit " rejects opaque script interpreters like "
    ++ shown ++ lit " because script bodies cannot be validated safely").

Definition awks : list string := ["awk"; "gawk"; "mawk"; "nawk"].

(** The body of the loop of [validate_nested_command_evaluators_inner] *)
Definition validate_evaluator (backend_name : text) (allow_inspectable : bool) (words : list text) :
    Checked unit :=
  match nested_evaluator_view words with
  | None => mret tt
  | Some v =>
      let command := ev_command v in
      let rest :=
        match leading_eval_flag command (ev_args v) with
        | Some flag => refuse_evaluator backend_name (spaced (ev_display v) flag)
        | None =>
            match opaque_script_interpreter_display (ev_display v) command (ev_args v) with
            | Some shown => refuse_interpreter backend_name shown
            | None => mret tt
            end
        end in
      match opaque_wrapper_display v with
      | Some shown => refuse_evaluator backend_name shown
      | None =>
          if is_shell_eval_builtin command then refuse_evaluator backend_name (ev_display v)
          else match opaque_command_dispatcher_display (ev_display v) command (ev_args v) with
          | Some shown => refuse_dispatcher backend_name shown
          | None =>
              inline ← (if allow_inspectable then shell_wrapper_inline_script words else mret None);
              if isSome inline then mret tt
              else if one_of command awks then
                match (if allow_inspectable then None
                       else opaque_script_interpreter_display (ev_display v) command (ev_args v)) with
                | Some shown => refuse_interpreter backend_name shown
                | None =>
                    match validate_awk_arguments (ev_args v) with
                    | inl reason =>
                        fail_with (lit "Sandbox backend " ++ backend_name ++ lit " rejects " ++ reason)
                    | inr _ => if allow_inspectable then mret tt else rest
                    end
                end
              else rest
          end
      end
  end.
Definition validate_nested_command_evaluators_inner (commands : list (list text))
    (backend_name : text) (allow_inspectable : bool) : Checked unit :=
  for_each (validate_evaluator backend_name allow_inspectable) commands.
Definition validate_nested_command_evaluators (commands : list (list text)) (backend_name : text) :=
  validate_nested_command_evaluators_inner commands backend_name false.
Definition validate_protected_command_evaluators (commands : list (list text)) (backend_name : text) :=
  validate_nested_command_evaluators_inner commands backend_name true.

(** The body of the loop of [validate_direct_command_shapes] *)
Definition validate_shape (backend_name : text) (words : list text) : Checked unit :=
  match skip_assignments words with
  | [] => mret tt
  | command_word :: _ =>
      let refuse what shown :=
        fail_with (lit "Sandbox backend " ++ backend_name ++ lit " rejects shell " ++ what ++
          lit " like " ++ shown ++
          lit " because host_mount_path_guard only supports direct commands with statically checkable paths") in
      if is_shell_control_prefix command_word then refuse (lit "control flow") command_word
      else
        let command := command_basename command_word in
        if is_unsupported_shell_wrapper command then refuse (lit "wrappers") command
        else mret tt
  end.
Definition validate_direct_command_shapes (commands : list (list text)) (backend_name : text) :
    Checked unit := for_each (validate_shape backend_name) commands.

(** *** Execution context (Linux) *)

Definition rust_compiler_override (name : text) : bool :=
  one_of name ["RUSTC"; "RUSTC_WRAPPER"; "RUSTC_WORKSPACE_WRAPPER"; "RUSTDOC"; "RUSTFMT";
    "CARGO_BUILD_RUSTC"; "CARGO_BUILD_RUSTC_WRAPPER"; "CARGO_BUILD_RUSTC_WORKSPACE_WRAPPER";
    "CARGO_BUILD_RUSTDOC"] || text_starts name "CARGO_ALIAS_".
Definition protected_variable (name : text) : bool :=
  one_of name ["PATH"; "RUSTUP_HOME"; "RUSTUP_TOOLCHAIN"; "CARGO_HOME"]
  || rust_compiler_override name.
(** The loop over the characters of a short option: whether it leaves the context;
    [next] is the flag after it *)
Fixpoint env_short_changes (next : option text) (short : text) : bool :=
  match short with
  | [] => false
  | c :: name =>
      if char_in c "iC" then true
      else if is_char c "u" then
        protected_variable name
        || (bool_decide (name = [])
            && match next with Some n => protected_variable n | None => false end)
      else env_short_changes next name
  end.
Fixpoint env_preserves_execution_context (flags : list text) : bool :=
  match flags with
  | [] => true
  | flag :: rest =>
      if is_lit flag "--" then true
      else if one_of flag ["--ignore-environment"; "--chdir"] || text_starts flag "--chdir=" then false
      else if match text_strip_prefix (lit "--unset=") flag with
              | Some name => protected_variable name
              | None => false
              end
              || (is_lit flag "--unset"
                  && match head rest with Some n => protected_variable n | None => false end)
      then false
      else if match text_strip_prefix (lit "-") flag with
              | Some short => negb (text_starts short "-") && env_short_changes (head rest) short
              | None => false
              end
      then false
      else env_preserves_execution_context rest
  end.

(** [flags.iter().any(..)] of [command] and [exec]: a short option with the letter *)
Definition short_option_with (letter : ascii) (arg : text) : bool :=
  match text_strip_prefix (lit "-") arg with
  | Some flag => negb (text_starts flag "-") && contains_char flag letter
  | None => false
  end.
Definition next_offset (command : text) (args : list text) : option nat :=
  if is_lit command "env" then env_command_offset args else transparent_wrapper_offset command args.
Fixpoint context_go (fuel : nat) (words : list text) : bool :=
  match fuel, words with
  | S f, word :: args =>
      let command := command_basename word in
      match next_offset command args with
      | None => true
      | Some next =>
          let flags := take next args in
          if is_lit command "env" && negb (env_preserves_execution_context flags) then false
          else if is_lit command "command" && existsb (short_option_with "p") flags then false
          else if is_lit command "exec" && existsb (short_option_with "c") flags then false
          else context_go f (drop next args)
      end
  | _, _ => true
  end.
Definition command_preserves_execution_context (words : list text) : bool :=
  let words := next_command words in context_go (length words) words.

Fixpoint executables_go (fuel : nat) (words : list text) : list text :=
  match fuel, words with
  | S f, word :: args =>
      match next_offset (command_basename word) args with
      | None => []
      | Some next => word :: executables_go f (drop next args)
      end
  | _, _ => []
  end.
Definition command_wrapper_executables (words : list text) : list text :=
  let words := next_command words in executables_go (length words) words.

Example sandbox_command_examples :
  is_Some (nested_evaluator_view (split_whitespace (lit "nice -n 3 env -i A=b bash -c x"))) ∧
  shell_wrapper_inline_script [lit "bash"; lit "-c"; lit "rm x"] = inr (Some (lit "rm x")) ∧
  shell_wrapper_inline_script (split_whitespace (lit "ENV=x sh -c y")) =
    inl (lit "Shell startup files cannot be enabled by command-local variable ENV") ∧
  validate_nested_command_evaluators [[lit "python3"; lit "-m"; lit "pytest"]] (lit "b") = inr tt ∧
  command_preserves_execution_context (split_whitespace (lit "env -u PATH ls")) = false.
Proof. vm_compute. split_and!; eauto. Qed.
