(* ===== verification/SandboxPaths.v ===== *)
(** * Paths in commands (agent-engine/src/tools/sandbox: path_literals.rs, path_safety.rs)

    Which words of a command the path guard takes for paths, the absolute paths
    inside a word, and the subpaths that are protected. Ranges are in characters. *)
From S2P Require Import Prelude RustStd Policy RustChars BashSyntax BashClassifier SandboxSyntax SandboxCommands.

(** ** path_safety.rs *)

Definition PROTECTED_SUBPATHS : list string := [".git"; ".alan"; ".agents"].
Definition protected_component (c : Component) : option string :=
  match c with
  | Normal name => List.find (is_lit name) PROTECTED_SUBPATHS
  | _ => None
  end.
Fixpoint find_protected (cs : list Component) : option string :=
  match cs with
  | c :: cs' => match protected_component c with Some p => Some p | None => find_protected cs' end
  | [] => None
  end.
Definition protected_path_component (path : text) : option string :=
  find_protected (components path).
Definition is_path_guard_reason (reason : text) : bool := text_contains reason "outside host_mount".

Section host.
Context `{HostFs}.
Definition existing_regular_file_has_multiple_links (path : text) : Checked bool :=
  match multiply_linked path with
  | Some b => mret b
  | None => fail_with (lit "Failed to inspect path link count for " ++ path)
  end.
End host.

(** ** path_literals.rs *)

Definition lexically_normalize_path (path : text) : text :=
  foldl (λ normalized c,
    match c with
    | RootDir => path_join normalized (lit "/")
    | CurDir => normalized
    | ParentDir => path_pop normalized
    | Normal part => path_join normalized part
    end) [] (components path).

Definition trim_end_char (a : ascii) (t : text) : text :=
  reverse (trim_start_matches (λ c, is_char c a) (reverse t)).
Definition trim_end (t : text) : text := reverse (trim_start_matches is_whitespace (reverse t)).
Definition ends_with_char (a : ascii) (t : text) : bool :=
  match last t with Some c => is_char c a | None => false end.

Definition looks_like_path_token (token : text) : bool :=
  text_starts token "/" || text_starts token "./" || text_starts token "../"
  || is_lit token "." || is_lit token ".." || contains_char token "/".
Definition looks_like_bare_protected_subpath_token (token : text) : bool :=
  one_of (trim_end_char "/" token) PROTECTED_SUBPATHS.
Definition is_file_redirection_operator (token : text) : bool :=
  one_of token ["<"; ">"; ">>"; "<>"; ">|"].
Definition is_allowed_absolute_command_path (path : text) : bool :=
  one_of path ["/dev/null"; "/dev/stdin"; "/dev/stdout"; "/dev/stderr"].

(** *** Parts of a word that are paths *)

Definition Range : Type := nat * nat.
Definition slice (t : text) (r : Range) : text := take (r.2 - r.1) (drop r.1 t).

(** [rfind('=')], the index after it *)
Fixpoint after_last_equals (index : nat) (t : text) : option nat :=
  match t with
  | [] => None
  | c :: t' =>
      match after_last_equals (S index) t' with
      | Some i => Some i
      | None => if is_char c "=" then Some (S index) else None
      end
  end.

(** The first place from the third character on from which the word is a path *)
Fixpoint attached_path (index : nat) (t : text) : option nat :=
  match t with
  | [] => None
  | _ :: t' =>
      if text_starts t "~" || looks_like_path_token t || looks_like_bare_protected_subpath_token t
      then Some index else attached_path (S index) t'
  end.
Definition short_option_attached_path_subtoken_range (token : text) : option Range :=
  if text_starts token "--" then None
  else match text_strip_prefix (lit "-") token with
       | None => None
       | Some rest =>
           if text_len rest <? 2 then None
           else match attached_path 2 (drop 1 rest) with
                | Some i => Some (i, length token)
                | None => None
                end
       end.
Definition short_option_attached_path_subtoken (token : text) : option text :=
  slice token <$> short_option_attached_path_subtoken_range token.

(** [token.rsplit_once('=')], a right side that is not empty *)
Definition after_equals_range (token : text) : option Range :=
  match after_last_equals 0 token with
  | Some start => if (start <? length token)%nat then Some (start, length token) else None
  | None => None
  end.
(** [ranges.push(r)] unless [r] is there already *)
Definition push_new {A} `{EqDecision A} (l : list A) (o : option A) : list A :=
  match o with
  | Some x => if bool_decide (x ∈ l) then l else l ++ [x]
  | None => l
  end.
Definition push_unique_range (ranges : list Range) (r : Range) : list Range :=
  push_new ranges (Some r).

Definition path_like_subtoken_ranges (token : text) : list Range :=
  let ranges := if looks_like_path_token token || looks_like_bare_protected_subpath_token token
                then [(0%nat, length token)] else [] in
  push_new (ranges ++ option_list (after_equals_range token))
    (short_option_attached_path_subtoken_range token).
Definition path_like_subtokens (token : text) : list text :=
  push_new (token :: option_list (slice token <$> after_equals_range token))
    (short_option_attached_path_subtoken token).

(** *** Absolute paths inside a word *)

Definition push_absolute_path_component_range (token : text) (r : Range) (ranges : list Range) :
    list Range :=
  if (r.2 <=? r.1)%nat then ranges
  else if text_starts (slice token r) "/" then push_unique_range ranges r else ranges.
(** The loop over the characters of the value from [index] on *)
Fixpoint colon_components (token : text) (component_start index : nat) (value : text)
    (ranges : list Range) : list Range :=
  match value with
  | [] => push_absolute_path_component_range token (component_start, index) ranges
  | c :: value' =>
      if is_char c ":" then
        colon_components token (S index) (S index) value'
          (push_absolute_path_component_range token (component_start, index) ranges)
      else colon_components token component_start (S index) value' ranges
  end.
Definition push_colon_separated_absolute_path_components (token : text) (r : Range)
    (ranges : list Range) : list Range :=
  colon_components token r.1 r.1 (slice token r) ranges.
Definition colon_separated_absolute_path_component_ranges (token : text) : list Range :=
  let ranges := if text_starts token "/"
                then push_colon_separated_absolute_path_components token (0%nat, length token) []
                else [] in
  match after_equals_range token with
  | Some r => push_colon_separated_absolute_path_components token r ranges
  | None => ranges
  end.

Definition has_path_prefix (prev : option char) : bool :=
  match prev with
  | None => false
  | Some c => char_in c ":./_-*?]" || is_ascii_alphanumeric c
  end.
Definition is_absolute_path_literal_terminator (c : char) : bool :=
  is_dquote c || is_squote c || char_in c "`()[]{}<>|&;,".
(** The index of the first terminator of [t], or its end *)
Fixpoint literal_end (index : nat) (t : text) : nat :=
  match t with
  | c :: t' => if is_absolute_path_literal_terminator c then index else literal_end (S index) t'
  | [] => index
  end.
Fixpoint embedded_go (prev : option char) (index : nat) (t : text) : list Range :=
  match t with
  | [] => []
  | c :: t' =>
      (if is_char c "/" && negb (has_path_prefix prev) then [(index, literal_end (S index) t')] else [])
      ++ embedded_go (Some c) (S index) t'
  end.
Definition embedded_absolute_path_literal_ranges (token : text) : list Range :=
  embedded_go None 0 token.

(** The literal and its prefixes up to a blank *)
Fixpoint blank_prefixes (before : text) (t : text) (candidates : list text) : list text :=
  match t with
  | [] => candidates
  | c :: t' =>
      blank_prefixes (before ++ [c]) t'
        (if is_whitespace c && negb (bool_decide (before = []))
         then push_new candidates (Some before) else candidates)
  end.
Definition push_absolute_path_literal_candidates (token : text) (literals : list (list text))
    (r : Range) : list (list text) :=
  let literal := slice token r in
  if is_absolute literal then push_new literals (Some (blank_prefixes [] literal [literal]))
  else literals.
Definition absolute_path_literal_candidates (token : text) : list (list text) :=
  foldl (push_absolute_path_literal_candidates token) []
    (colon_separated_absolute_path_component_ranges token ++ path_like_subtoken_ranges token
     ++ embedded_absolute_path_literal_ranges token).

(** *** What a word is for its command *)

Inductive TokenPathRole : Set :=
  | RoleCheck | RoleRead | RoleData | ExecutableData (offset : nat).
Global Instance TokenPathRole_eq_dec : EqDecision TokenPathRole.
Proof. solve_decision. Defined.
Definition role_capability (role : TokenPathRole) (command : option ToolCapability)
    (os_enforced : bool) : option ToolCapability :=
  if bool_decide (role = RoleRead) && os_enforced then Some CapRead else command.

Definition token_path_role (command : text) (token : ShellToken) : TokenPathRole :=
  let before := take (raw_start token) command in
  let prefix := trim_end before in
  if ends_with_char ">" prefix || ends_with_char "<" prefix then RoleCheck
  else match shell_commands before with
  | inl _ => RoleCheck
  | inr commands =>
  match last commands with
  | None => RoleCheck
  | Some words =>
  match command_and_args words with
  | None => RoleCheck
  | Some (command_name, args) =>
      let command_name := command_basename command_name in
      let last_is names := match last args with Some w => one_of w names | None => false end in
      if is_lit command_name "cargo"
         && match cargo_subcommand args with
            | Some sub => one_of sub ["build"; "check"; "test"; "run"]
            | None => false
            end
         && negb (has_word args "--")
         && (last_is ["--manifest-path"] || text_starts (decoded token) "--manifest-path=")
      then RoleRead
      else if one_of command_name awks then
        match awk_next_argument_role args (decoded token) with
        | Program offset => ExecutableData offset
        | AwkData => RoleData
        | Operand => RoleCheck
        end
      else if one_of command_name ["echo"; "printf"] then RoleData
      else if is_lit command_name "git" && has_word args "commit"
              && (last_is ["-m"; "--message"] || text_starts (decoded token) "--message="
                  || text_starts (decoded token) "-m")
      then RoleData
      else RoleCheck
  end end end.

(** [writes_cargo_configuration] of command_wrappers.rs *)
Definition configured (files directories : list text) (word : text) : bool :=
  existsb (λ w, existsb (λ cwd,
    let candidate := lexically_normalize_path (path_join cwd w) in
    existsb (λ file, path_eq file candidate || path_starts_with file candidate) files)
    directories) (path_like_subtokens word).
Fixpoint redirects_to (configured : text → bool) (script : text) (tokens : list ShellToken) : bool :=
  match tokens with
  | operator :: (target :: _) as rest =>
      (one_of (decoded operator) [">"; ">>"; ">|"; "<>"]
       && bool_decide (slice script (raw_start operator, raw_end operator) = decoded operator)
       && configured (decoded target))
      || redirects_to configured script rest
  | _ => false
  end.
Definition writes_cargo_configuration (script : text) (files directories : list text) : Checked bool :=
  tokens ← shell_tokens_with_spans script;
  if redirects_to (configured files directories) script tokens then mret true
  else
    commands ← shell_commands script;
    mret (existsb (λ words,
      match command_and_args words with
      | Some (name, args) =>
          (one_of name ["cp"; "mv"; "rm"; "touch"; "tee"; "install"; "ln"; "dd"; "truncate"]
           || (is_lit name "sed"
               && existsb (λ arg, text_starts arg "-i" || text_starts arg "--in-place") args))
          && existsb (configured files directories) args
      | None => false
      end) commands).

Example path_literal_examples :
  path_like_subtokens (lit "--out=/a/b") = [lit "--out=/a/b"; lit "/a/b"] ∧
  path_like_subtokens (lit "-I/usr") = [lit "-I/usr"; lit "/usr"] ∧
  absolute_path_literal_candidates (lit "PATH=/a:/b") = [[lit "/a"]; [lit "/b"]; [lit "/a:/b"]] ∧
  absolute_path_literal_candidates (lit "open('/etc/x')") = [[lit "/etc/x"]] ∧
  lexically_normalize_path (lit "/a/./b/../c") = lit "/a/c".
Proof. vm_compute. split_and!; reflexivity. Qed.
