(* ===== verification/Sandbox.v ===== *)
(** * The sandbox (agent-engine/src/tools: sandbox.rs, sandbox/sandbox_spec.rs,
      sandbox_backend/seatbelt.rs and the backend kinds of sandbox_backend.rs)

    Host directories that were granted, the checks every read, write and command
    goes through, and the confined process a command becomes. Parameters: the host's
    file system ([HostFs] and the three I/O calls), the home directory, the backend
    that was detected and the [TMPDIR] of the environment. *)
From S2P Require Import Prelude RustStd Policy RustChars BashSyntax BashClassifier SandboxSyntax SandboxCommands SandboxPaths.

(** ** Backends (sandbox_backend.rs) *)

Inductive SandboxBackendKind : Set :=
  Seatbelt | LinuxReifiedNamespace | Landlock | HostMountPathGuard.
Global Instance SandboxBackendKind_eq_dec : EqDecision SandboxBackendKind.
Proof. solve_decision. Defined.
Definition backend_kind_name (k : SandboxBackendKind) : text :=
  match k with
  | Seatbelt => lit "seatbelt"
  | LinuxReifiedNamespace => lit "linux_reified_namespace"
  | Landlock => lit "landlock"
  | HostMountPathGuard => lit "host_mount_path_guard"
  end.
Definition path_mode (k : SandboxBackendKind) : text :=
  match k with
  | LinuxReifiedNamespace => lit "reified_namespace_paths"
  | _ => lit "projected_host_paths"
  end.
Definition is_os_enforced (k : SandboxBackendKind) : bool :=
  match k with Seatbelt | LinuxReifiedNamespace | Landlock => true | HostMountPathGuard => false end.
Definition allows_unattended_bash_and_network (k : SandboxBackendKind) : bool := is_os_enforced k.
Definition permits_autonomous_bash (k : SandboxBackendKind) : bool :=
  match k with Seatbelt => true | _ => false end.

(** ** What is granted (sandbox_spec.rs) *)

Inductive NetworkPosture : Set := NetworkDeny | NetworkAllow.
Definition allows_network (n : NetworkPosture) : bool :=
  match n with NetworkAllow => true | NetworkDeny => false end.
Inductive ReifiedMountAccess : Set := MountReadOnly | MountReadWrite.
Global Instance ReifiedMountAccess_eq_dec : EqDecision ReifiedMountAccess.
Proof. solve_decision. Defined.

Record SandboxHostMount : Type := mkHostMount {
  namespace_path : text;
  host_path : text;
  mount_access : ReifiedMountAccess;
}.
Record SandboxSpec : Type := mkSandboxSpec {
  host_mounts : list SandboxHostMount;
  readable_roots : list text;
  writable_roots : list text;
  read_denylist : list text;
  network : NetworkPosture;
}.

Definition sensitive_read_denylist_for_home (home_dir : text) : list text :=
  (λ name, path_join home_dir (lit name)) <$>
    [".alan"; ".alan-dev"; ".ssh"; ".aws"; ".azure"; ".config/gcloud"; ".config/gh"; ".docker";
     ".gnupg"; ".kube"; ".netrc"; ".npmrc"; ".pypirc"; "Library/Keychains"; "Library/Safari";
     "Library/Application Support/Arc"; "Library/Application Support/BraveSoftware";
     "Library/Application Support/Chromium"; "Library/Application Support/Firefox";
     "Library/Application Support/Google/Chrome";
     "Library/Application Support/com.apple.Safari"].

Section sandbox.
Context `{HostFs}.
Context (home_dir : option text) (detect_backend : SandboxBackendKind) (tmpdir : option text).

Definition default_sensitive_read_denylist : list text :=
  match home_dir with Some home => sensitive_read_denylist_for_home home | None => [] end.

(** ** Seatbelt profiles (seatbelt.rs) *)

Definition comparable_path_variants (path : text) : list text :=
  let variants := [lexically_normalize_path path] in
  match real_path path with
  | Some canonical => if existsb (path_eq canonical) variants then variants else variants ++ [canonical]
  | None => variants
  end.
Definition read_deny_matches_any_writable_root (deny_path : text) (roots : list text) : bool :=
  existsb (λ root, existsb (λ deny, existsb (λ writable, path_eq writable deny)
    (comparable_path_variants root)) (comparable_path_variants deny_path)) roots.
Definition read_denylist_excluding_writable_roots (denylist roots : list text) : list text :=
  filter (λ deny, read_deny_matches_any_writable_root deny roots = false) denylist.

(** [path.replace('\\', "\\\\").replace('"', "\\\"")] between quotes *)
Definition sbpl_escape (c : char) : text :=
  if is_backslash c then [92; 92] else if is_dquote c then [92; 34] else [c].
Definition sbpl_quote (path : text) : text := [34] ++ concat (sbpl_escape <$> path) ++ [34].
Definition canonical_string (path : text) : text := default path (real_path path).
Definition subpath (path : text) : text := lit "(subpath " ++ path ++ lit ")".
Definition quoted_root (root : text) : text := sbpl_quote (canonical_string root).
(** [.collect::<Vec<_>>().join(" ")] and [join("\n")] *)
Fixpoint join_with (sep : text) (ts : list text) : text :=
  match ts with
  | [] => []
  | [t] => t
  | t :: ts' => t ++ sep ++ join_with sep ts'
  end.
Definition require_not (root : text) : text :=
  lit "(require-not " ++ subpath (quoted_root root) ++ lit ")".

Definition seatbelt_read_only (spec : SandboxSpec) : text :=
  concat ((λ root,
    let exceptions := join_with (lit " ")
      (require_not <$> filter (λ w, path_starts_with w root = true) (writable_roots spec)) in
    lit "(deny file-write* (require-all " ++ subpath (quoted_root root) ++ lit " " ++ exceptions
      ++ lit "))" ++ [10]) <$>
    filter (λ root, existsb (path_eq root) (writable_roots spec) = false) (readable_roots spec)).
Definition seatbelt_host_mount_exclusions (excluded_roots active_roots : list text) : text :=
  let exceptions := join_with (lit " ") (require_not <$> active_roots) in
  concat ((λ root,
    lit "(deny file-read* file-write* (require-all " ++ subpath (quoted_root root) ++ lit " "
      ++ exceptions ++ lit "))" ++ [10]) <$> excluded_roots).

Definition seatbelt_profile (roots denylist : list text) (allow_network : bool) : text :=
  let writable :=
    (quoted_root <$> roots)
    ++ [sbpl_quote (lit "/tmp"); sbpl_quote (lit "/private/tmp"); sbpl_quote (lit "/private/var/folders")]
    ++ match tmpdir with
       | Some dir => if bool_decide (dir = []) then []
                     else [quoted_root (trim_end_char "/" dir)]
       | None => []
       end in
  let write_allows :=
    join_with [10] ((λ path, lit "(allow file-write* " ++ subpath path ++ lit ")") <$> writable) in
  let read_denies :=
    concat ((λ path,
      lit "(deny file-read* (literal " ++ quoted_root path ++ lit ") "
        ++ subpath (quoted_root path) ++ lit ")" ++ [10]) <$>
      read_denylist_excluding_writable_roots denylist roots) in
  let device name := lit "(literal " ++ sbpl_quote (lit name) ++ lit ")" in
  lit "(version 1)" ++ [10] ++ lit "(allow default)" ++ [10]
  ++ (if allow_network then [] else lit "(deny network*)" ++ [10])
  ++ read_denies ++ lit "(deny file-write*)" ++ [10] ++ write_allows ++ [10]
  ++ lit "(allow file-write-data "
  ++ join_with (lit " ") (device <$> ["/dev/null"; "/dev/stdout"; "/dev/stderr"; "/dev/tty";
                                      "/dev/dtracehelper"])
  ++ lit ")" ++ [10].

(** *** The constructors of a spec *)

Definition spec_seed (root : text) : SandboxSpec :=
  mkSandboxSpec [mkHostMount (lit "/mnt/source") root MountReadWrite] [root] [root]
    (read_denylist_excluding_writable_roots default_sensitive_read_denylist [root]) NetworkDeny.
Definition from_host_mounts (grants : list SandboxHostMount) : SandboxSpec :=
  let resolve grant := canonical_string (host_path grant) in
  let mounts := (λ g, mkHostMount (namespace_path g) (resolve g) (mount_access g)) <$> grants in
  let readable := host_path <$> mounts in
  let writable := resolve <$> filter (λ g, mount_access g = MountReadWrite) grants in
  mkSandboxSpec mounts readable writable
    (read_denylist_excluding_writable_roots default_sensitive_read_denylist readable) NetworkDeny.
Definition exclude_explicit_mounts_from_read_denylist (spec : SandboxSpec) : SandboxSpec :=
  mkSandboxSpec (host_mounts spec) (readable_roots spec) (writable_roots spec)
    (read_denylist_excluding_writable_roots (read_denylist spec) (readable_roots spec))
    (network spec).

(** ** The sandbox *)

Record Sandbox : Type := mkSandbox {
  sb_spec : SandboxSpec;
  excluded_host_roots : list text;
  backend_override : option SandboxBackendKind;
}.
Definition SANDBOX_BACKEND_PATH_GUARD : text := lit "host_mount_path_guard".
Definition backend_name : text := SANDBOX_BACKEND_PATH_GUARD.

(** [from_spec]: [None] is the assertion that a root is granted *)
Definition from_spec (spec : SandboxSpec) : option Sandbox :=
  let spec := exclude_explicit_mounts_from_read_denylist spec in
  if bool_decide (readable_roots spec = []) then None else Some (mkSandbox spec [] None).
Definition sandbox_new (root : text) : option Sandbox := from_spec (spec_seed root).
Definition with_excluded_host_roots (sb : Sandbox) (roots : list text) : Sandbox :=
  mkSandbox (sb_spec sb) roots (backend_override sb).
Definition primary_host_root (sb : Sandbox) : text := default [] (head (readable_roots (sb_spec sb))).
Definition allowed_roots_label (sb : Sandbox) : text :=
  join_with (lit ", ") (readable_roots (sb_spec sb)).
Definition active_backend (sb : Sandbox) : SandboxBackendKind :=
  default detect_backend (backend_override sb).

(** *** Paths *)

Definition resolve_against (sb : Sandbox) (path : text) : text :=
  if is_absolute path then path else path_join (primary_host_root sb) path.
(** [self.canonicalize(p).unwrap_or_else(|_| lexically_normalize_path(p))] *)
Definition canonical_or_lexical (path : text) : text :=
  default (lexically_normalize_path path) (real_path path).

Definition under_root (root path : text) : bool :=
  let canonical := canonical_or_lexical path in
  path_starts_with canonical (canonical_or_lexical root)
  || path_starts_with (lexically_normalize_path canonical) (lexically_normalize_path root).
(** [while let Some(parent) = current]; each parent is shorter than its path *)
Fixpoint existing_ancestor (fuel : nat) (current : option text) : option text :=
  match fuel, current with
  | S f, Some parent =>
      if exists_at parent then Some parent else existing_ancestor f (path_parent parent)
  | _, _ => None
  end.
Definition is_path_in_root (path root : text) : bool :=
  if exists_at path then under_root root path
  else match existing_ancestor (length path) (path_parent path) with
       | Some parent => under_root root parent
       | None =>
           let normalized := lexically_normalize_path path in
           path_starts_with normalized (canonical_or_lexical root)
           || path_starts_with normalized (lexically_normalize_path root)
       end.
Definition is_writable (sb : Sandbox) (path : text) : bool :=
  existsb (is_path_in_root (resolve_against sb path)) (writable_roots (sb_spec sb)).
Definition is_readable (sb : Sandbox) (path : text) : bool :=
  existsb (is_path_in_root (resolve_against sb path)) (readable_roots (sb_spec sb)).

Definition normalized_path (sb : Sandbox) (path : text) : text :=
  let absolute := resolve_against sb path in
  if exists_at absolute then canonical_or_lexical absolute else lexically_normalize_path absolute.

(** The loop of [resolved_path_with_existing_parents]: [None] when a component that
    is no name is met *)
Fixpoint climb (fuel : nat) (absolute current : text) (suffix : list text) : option text :=
  if exists_at current then
    Some (foldl path_join (canonical_or_lexical current) suffix)
  else match file_name current with
       | None => None
       | Some name =>
           match fuel, path_parent current with
           | S f, Some parent => climb f absolute parent (name :: suffix)
           | _, _ => Some (lexically_normalize_path absolute)
           end
       end.
(** The function calls itself on the lexically normalized path; the second call
    meets no [..], so [depth] 2 is enough ([resolution_ends]). *)
Fixpoint resolved_go (depth : nat) (sb : Sandbox) (path : text) : text :=
  let absolute := resolve_against sb path in
  if exists_at absolute then normalized_path sb absolute
  else match climb (length absolute) absolute absolute [] with
       | Some resolved => resolved
       | None =>
           match depth with
           | S d => resolved_go d sb (lexically_normalize_path absolute)
           | O => absolute
           end
       end.
Definition resolved_path_with_existing_parents (sb : Sandbox) (path : text) : text :=
  resolved_go 2 sb path.

Definition first_some {A} (a b : option A) : option A := match a with Some _ => a | None => b end.
Fixpoint protected_in (resolved : text) (roots : list text) : option string :=
  match roots with
  | [] => None
  | root :: roots' =>
      let canonical_root := canonical_or_lexical root in
      let normalized_root := lexically_normalize_path root in
      match first_some (strip_path_prefix resolved canonical_root)
                       (strip_path_prefix resolved normalized_root) with
      | None => protected_in resolved roots'
      | Some relative =>
          match first_some (first_some (protected_path_component canonical_root)
                              (protected_path_component normalized_root))
                           (find_protected relative) with
          | Some component => Some component
          | None => protected_in resolved roots'
          end
      end
  end.
Definition protected_subpath_component (sb : Sandbox) (path : text) : option string :=
  protected_in (resolved_path_with_existing_parents sb path) (writable_roots (sb_spec sb)).

Definition ensure_path_not_protected (sb : Sandbox) (path action : text) : Checked unit :=
  match protected_subpath_component sb path with
  | Some component =>
      fail_with (lit "Sandbox backend " ++ backend_name ++ lit " blocks " ++ action ++
        lit " under protected subpath " ++ lit component ++ lit ": " ++ path)
  | None => mret tt
  end.
Definition ensure_path_not_multiply_linked (path action : text) : Checked unit :=
  linked ← existing_regular_file_has_multiple_links path;
  if linked : bool then
    fail_with (lit "Sandbox backend " ++ backend_name ++ lit " blocks " ++ action ++
      lit " via multiply-linked file because hardlink aliases cannot be validated safely: " ++ path)
  else mret tt.
Definition ensure_path_not_read_denied (sb : Sandbox) (path action : text) : Checked unit :=
  let resolved := normalized_path sb path in
  if existsb (λ deny, path_starts_with resolved (canonical_or_lexical deny)
                      || path_starts_with resolved (lexically_normalize_path deny))
       (read_denylist (sb_spec sb))
  then fail_with (lit "Sandbox backend " ++ backend_name ++ lit " blocks " ++ action ++
         lit " under sensitive read-deny path: " ++ path)
  else mret tt.

(** *** The words of a command *)

(** [matches!(capability, Some(ToolCapability::Read))] *)
Definition is_read (capability : option ToolCapability) : bool :=
  bool_decide (capability = Some CapRead).
Definition is_authorized (sb : Sandbox) (capability : option ToolCapability) (path : text) : bool :=
  if is_read capability then is_readable sb path else is_writable sb path.
Definition reference_action : text := lit "process path reference".
Definition home_reference {A} (token : text) : Checked A :=
  fail_with (lit "Command references HOME paths outside host_mount: " ++ token).
Definition outside_reference {A} (token : text) : Checked A :=
  fail_with (lit "Command references path outside host_mount: " ++ token).

Definition validate_command_path_candidate (sb : Sandbox) (token cwd : text)
    (capability : option ToolCapability) : Checked unit :=
  if bool_decide (token = []) || text_starts token "-" then mret tt
  else if text_starts token "~" then home_reference token
  else if text_contains token "://" then mret tt
  else if looks_like_path_token token || looks_like_bare_protected_subpath_token token then
    let candidate := if is_absolute token then token else path_join cwd token in
    if is_absolute candidate && is_allowed_absolute_command_path candidate then mret tt
    else if negb (is_authorized sb capability candidate) then outside_reference token
    else
      ensure_path_not_protected sb candidate reference_action;;
      if is_read capability then ensure_path_not_read_denied sb candidate reference_action
      else ensure_path_not_multiply_linked candidate reference_action
  else mret tt.

Definition validate_redirection_target (sb : Sandbox) (token cwd : text) : Checked unit :=
  if bool_decide (token = []) then fail_with (lit "Command ends with an incomplete redirection")
  else if text_starts token "~" then home_reference token
  else
    let candidate := if is_absolute token then token else path_join cwd token in
    if is_absolute candidate && is_allowed_absolute_command_path candidate then mret tt
    else if negb (is_writable sb candidate) then outside_reference token
    else
      ensure_path_not_protected sb candidate reference_action;;
      ensure_path_not_multiply_linked candidate reference_action.

Definition absolute_path_literal_is_allowed_or_in_host_mount (sb : Sandbox) (literal : text)
    (capability : option ToolCapability) : bool :=
  is_allowed_absolute_command_path literal || is_authorized sb capability literal.
Definition validate_absolute_path_literal (sb : Sandbox) (literal : text)
    (capability : option ToolCapability) : Checked unit :=
  if negb (is_absolute literal) || is_allowed_absolute_command_path literal then mret tt
  else if negb (is_authorized sb capability literal) then
    fail_with (lit "Command contains absolute path outside host_mount: " ++ literal)
  else
    ensure_path_not_protected sb literal reference_action;;
    if is_read capability then ensure_path_not_read_denied sb literal reference_action else mret tt.

(** The body of the loop of [validate_absolute_path_literals] *)
Definition validate_token_literals (sb : Sandbox) (command cwd : text)
    (capability : option ToolCapability) (token : ShellToken) : Checked unit :=
  let role := token_path_role command token in
  if bool_decide (role = RoleData) then mret tt
  else
    let capability := role_capability role capability (is_os_enforced (active_backend sb)) in
    match role with
    | ExecutableData offset =>
        match awk_getline_file_paths (drop offset (decoded token)) with
        | None =>
            fail_with (lit "Sandbox backend " ++ backend_name ++
              lit " rejects AWK getline file paths unless they are simple unescaped string literals; other paths cannot be validated against host_mount")
        | Some paths => for_each (λ p, validate_command_path_candidate sb p cwd capability) paths
        end
    | _ =>
        for_each (λ candidates,
          let literal :=
            match List.find (λ c, absolute_path_literal_is_allowed_or_in_host_mount sb c capability)
                    candidates with
            | Some c => c
            | None => default [] (head candidates)
            end in
          validate_absolute_path_literal sb literal capability)
          (absolute_path_literal_candidates (decoded token))
    end.
Definition validate_absolute_path_literals (sb : Sandbox) (command : text)
    (tokens : list ShellToken) (cwd : text) (capability : option ToolCapability) : Checked unit :=
  for_each (validate_token_literals sb command cwd capability) tokens.

(** The loop over the words; [expects] that the next one is a redirection's target *)
Fixpoint validate_tokens (sb : Sandbox) (command cwd : text) (capability : option ToolCapability)
    (expects : bool) (tokens : list ShellToken) : Checked unit :=
  match tokens with
  | [] => mret tt
  | token :: rest =>
      let role := token_path_role command token in
      if expects then
        validate_redirection_target sb (decoded token) cwd;;
        validate_tokens sb command cwd capability false rest
      else if is_file_redirection_operator (decoded token)
      then validate_tokens sb command cwd capability true rest
      else if bool_decide (role = RoleCheck) || bool_decide (role = RoleRead) then
        let capability' := role_capability role capability (is_os_enforced (active_backend sb)) in
        for_each (λ candidate, validate_command_path_candidate sb candidate cwd capability')
          (path_like_subtokens (decoded token));;
        validate_tokens sb command cwd capability false rest
      else validate_tokens sb command cwd capability false rest
  end.

Inductive PathCheckMode : Set := Full | ProtectedOnly.
Definition protected_only (mode : PathCheckMode) : bool :=
  match mode with ProtectedOnly => true | Full => false end.

(** [validate_command_paths]. It calls itself on the script of a shell wrapper,
    which is shorter than the command, so the length of the command is enough
    ([guard_fuel_enough]). *)
Fixpoint validate_paths_go (fuel : nat) (sb : Sandbox) (cmd cwd : text) (mode : PathCheckMode)
    (capability : option ToolCapability) : Checked unit :=
  let trimmed := text_trim (normalize_shell_line_continuations cmd) in
  (* [if protected_only { Ok(()) } else { Err(err) }] *)
  let tolerate (e : text) : Checked unit := if protected_only mode then mret tt else inl e in
  if bool_decide (trimmed = []) then tolerate (lit "Command cannot be empty")
  else match shell_tokens_with_spans trimmed with
  | inl e => tolerate e
  | inr tokens =>
  match shell_commands trimmed with
  | inl e => tolerate e
  | inr commands =>
      (if protected_only mode then
         for_each (λ words,
           inline ← shell_wrapper_inline_script words;
           match inline, fuel with
           | Some inner, S f => validate_paths_go f sb inner cwd ProtectedOnly capability
           | Some _, O => fail_with []
           | None, _ => mret tt
           end) commands;;
         validate_protected_command_evaluators commands backend_name
       else
         validate_direct_command_shapes commands backend_name;;
         validate_nested_command_evaluators commands backend_name);;
      validate_tokens sb trimmed cwd capability false tokens;;
      validate_absolute_path_literals sb trimmed tokens cwd capability
  end end.
Definition validate_command_paths (sb : Sandbox) (cmd cwd : text) (mode : PathCheckMode)
    (capability : option ToolCapability) : Checked unit :=
  validate_paths_go (length cmd) sb cmd cwd mode capability.

(** *** Preflight *)

Definition validate_bash_command_shape (cmd : text) : Checked unit :=
  let trimmed := text_trim (normalize_shell_line_continuations cmd) in
  if bool_decide (trimmed = []) then fail_with (lit "Command cannot be empty")
  else
    commands ← shell_commands trimmed;
    validate_direct_command_shapes commands backend_name;;
    validate_nested_command_evaluators commands backend_name;;
    validate_shell_features trimmed backend_name.
Definition bash_preflight_reason (cmd : text) : option text :=
  match validate_bash_command_shape cmd with inl e => Some e | inr _ => None end.

Definition command_cwd_is_authorized (sb : Sandbox) (cwd : text)
    (capability : option ToolCapability) : bool :=
  if is_read capability || bool_decide (active_backend sb = LinuxReifiedNamespace)
  then is_readable sb cwd else is_writable sb cwd.
Definition outside_roots (sb : Sandbox) (what path : text) : text :=
  what ++ lit " outside host_mount roots: " ++ path ++ lit " (allowed roots: "
  ++ allowed_roots_label sb ++ lit ")".
Definition bash_path_guard_reason (sb : Sandbox) (cmd cwd : text) : option text :=
  if negb (command_cwd_is_authorized sb cwd None)
  then Some (outside_roots sb (lit "Working directory") cwd)
  else match validate_command_paths sb cmd cwd Full None with
       | inr _ => None
       | inl reason => if is_path_guard_reason reason then Some reason else None
       end.

(** *** Execution: the process a command becomes *)

Inductive ConfinedCommand : Type :=
  | Spawn (program : text) (args : list text)
  | SpawnLandlocked (program : text) (args : list text)
      (roots denylist : list text) (allow_network : bool)
  | RunReified (mounts : list (text * text * ReifiedMountAccess)) (cwd : text) (argv : list text)
      (network : NetworkPosture).

Definition shell_args (cmd : text) : list text := [lit "-p"; lit "-f"; lit "-c"; cmd].
Definition reified_mount_declarations (sb : Sandbox) : list (text * text * ReifiedMountAccess) :=
  (λ g, (host_path g, host_path g, mount_access g)) <$> host_mounts (sb_spec sb).
Definition reified_namespace_input_for_command (sb : Sandbox) (cmd cwd : text)
    (allow_network : bool) : ConfinedCommand :=
  RunReified (reified_mount_declarations sb) (resolve_against sb cwd)
    (lit "/bin/sh" :: shell_args cmd) (if allow_network then NetworkAllow else NetworkDeny).
Definition build_confined_command (sb : Sandbox) (cmd : text) (allow_network : bool)
    (backend : SandboxBackendKind) : Checked ConfinedCommand :=
  match backend with
  | Seatbelt =>
      let profile :=
        seatbelt_profile (writable_roots (sb_spec sb)) (read_denylist (sb_spec sb)) allow_network
        ++ seatbelt_read_only (sb_spec sb)
        ++ seatbelt_host_mount_exclusions (excluded_host_roots sb) (readable_roots (sb_spec sb)) in
      mret (Spawn (lit "/usr/bin/sandbox-exec") ([lit "-p"; profile; lit "/bin/sh"] ++ shell_args cmd))
  | LinuxReifiedNamespace =>
      fail_with (lit "linux_reified_namespace backend is detectable but no runner is installed yet")
  | Landlock =>
      mret (SpawnLandlocked (lit "/bin/sh") (shell_args cmd) (writable_roots (sb_spec sb))
              (read_denylist (sb_spec sb)) allow_network)
  | HostMountPathGuard => mret (Spawn (lit "/bin/sh") (shell_args cmd))
  end.

(** [exec_with_timeout_and_capability] up to the start of the process *)
Definition prepare_exec (sb : Sandbox) (cmd cwd : text) (capability : option ToolCapability) :
    Checked ConfinedCommand :=
  if negb (command_cwd_is_authorized sb cwd capability)
  then fail_with (outside_roots sb (lit "Working directory") cwd)
  else
    ensure_path_not_protected sb cwd (lit "process cwd");;
    validate_shell_features cmd backend_name;;
    validate_command_paths sb cmd cwd
      (if permits_autonomous_bash (active_backend sb) then ProtectedOnly else Full) capability;;
    let allow_network := allows_network (network (sb_spec sb))
                         || bool_decide (capability = Some CapNetwork) in
    let backend := active_backend sb in
    if negb (bool_decide (excluded_host_roots sb = []))
       && negb (match backend with Seatbelt | LinuxReifiedNamespace => true | _ => false end)
    then fail_with (lit "This backend cannot isolate inactive Host Mount reads")
    else match backend with
         | LinuxReifiedNamespace =>
             mret (reified_namespace_input_for_command sb cmd cwd allow_network)
         | _ => build_confined_command sb cmd allow_network backend
         end.

(** *** Files *)

Section files.
Context (fs_read : text → Checked (list Z)) (create_dir_all : text → Checked unit)
  (fs_write : text → list Z → Checked unit) (fs_list : text → Checked (list text)).

Definition sandbox_read (sb : Sandbox) (path : text) : Checked (list Z) :=
  if negb (is_readable sb path) then fail_with (outside_roots sb (lit "Path") path)
  else
    ensure_path_not_read_denied sb path (lit "read");;
    match fs_read path with
    | inl e => fail_with (lit "Failed to read file: " ++ e)
    | inr bytes => mret bytes
    end.
Definition sandbox_write (sb : Sandbox) (path : text) (content : list Z) : Checked unit :=
  if negb (is_writable sb path) then fail_with (outside_roots sb (lit "Path") path)
  else
    ensure_path_not_protected sb path (lit "write");;
    ensure_path_not_multiply_linked path (lit "write");;
    match path_parent path with Some parent => create_dir_all parent | None => mret tt end;;
    match fs_write path content with
    | inl e => fail_with (lit "Failed to write file: " ++ e)
    | inr _ => mret tt
    end.
Definition list_dir (sb : Sandbox) (path : text) : Checked (list text) :=
  if negb (is_readable sb path) then fail_with (outside_roots sb (lit "Path") path)
  else
    ensure_path_not_read_denied sb path (lit "list directory");;
    fs_list path.
End files.
End sandbox.
