(* ===== verification/TextPathFacts.v ===== *)
(** * Facts about paths over text

    How joining, parents and lexical normalization act on the components. *)
From S2P Require Import Prelude RustStd RustChars SandboxSyntax SandboxPaths.

(** A name: one piece of a path that stands for a component of its own *)
Definition is_name (p : text) : Prop :=
  contains_char p "/" = false ∧ piece_component p = Some (Normal p).

Lemma slash_pieces_ne t : slash_pieces t ≠ [].
Proof. destruct t as [|c t]; simpl; [done|]. destruct (is_char c "/"); [done|]. by case_match. Qed.

(** The pieces of two texts put together: the last of the one meets the first of
    the other. *)
Fixpoint glue (ps qs : list text) : list text :=
  match ps with
  | [] => qs
  | [p] => match qs with q :: qs' => (p ++ q) :: qs' | [] => [p] end
  | p :: ps' => p :: glue ps' qs
  end.
Lemma glue_head c p ps qs : ps ≠ [] ∨ qs ≠ [] →
  glue ((c :: p) :: ps) qs = match glue (p :: ps) qs with h :: l => (c :: h) :: l | [] => [[c]] end.
Proof. destruct ps as [|p' ps]; simpl; [|done]. destruct qs; [|done]. by intros [|]. Qed.
Lemma slash_pieces_app a b : slash_pieces (a ++ b) = glue (slash_pieces a) (slash_pieces b).
Proof.
  pose proof (slash_pieces_ne b) as Hb. induction a as [|c a IH].
  { simpl. destruct (slash_pieces b); done. }
  pose proof (slash_pieces_ne a) as Ha.
  change ((c :: a) ++ b) with (c :: (a ++ b)). cbn [slash_pieces]. rewrite IH.
  destruct (slash_pieces a) as [|p ps]; [done|]. destruct (is_char c "/"); [done|].
  by rewrite glue_head by auto.
Qed.
Lemma glue_blank ps qs : ps ≠ [] → glue ps ([] :: qs) = ps ++ qs.
Proof.
  induction ps as [|p [|p' ps] IH]; [done|simpl; by rewrite app_nil_r|].
  intros _. change (p :: glue (p' :: ps) ([] :: qs) = p :: ((p' :: ps) ++ qs)). by rewrite IH.
Qed.
(** A slash and a text after it add the pieces of the text. *)
Lemma slash_pieces_slash a b :
  slash_pieces (a ++ lit "/" ++ b) = slash_pieces a ++ slash_pieces b.
Proof.
  rewrite slash_pieces_app. change (slash_pieces (lit "/" ++ b)) with ([] :: slash_pieces b).
  apply glue_blank, slash_pieces_ne.
Qed.

Lemma is_absolute_head t : is_absolute t = match t with c :: _ => is_char c "/" | [] => false end.
Proof.
  unfold is_absolute, text_starts. destruct t as [|c t]; [done|].
  change (lit "/") with [47]. cbn [text_strip_prefix]. unfold is_char. change (code "/") with 47.
  rewrite Z.eqb_sym. by destruct (c =? 47).
Qed.
Lemma is_absolute_app a b : a ≠ [] → is_absolute (a ++ b) = is_absolute a.
Proof. rewrite !is_absolute_head. by destruct a. Qed.
Lemma starts_cur_app a b :
  starts_cur_dir (a ++ lit "/" ++ b) = starts_cur_dir a.
Proof.
  unfold starts_cur_dir. rewrite slash_pieces_slash.
  pose proof (slash_pieces_ne a). by destruct (slash_pieces a).
Qed.
Lemma components_slash a b :
  a ≠ [] → components (a ++ lit "/" ++ b) = components a ++ omap piece_component (slash_pieces b).
Proof.
  intros Ha. unfold components. rewrite is_absolute_app, starts_cur_app, slash_pieces_slash by done.
  by rewrite omap_app, app_assoc.
Qed.

Lemma name_not_absolute n : is_name n → is_absolute n = false.
Proof.
  intros [Hs _]. rewrite is_absolute_head. destruct n as [|c n]; [done|].
  by apply orb_false_iff in Hs as [? _].
Qed.
Lemma name_pieces n : is_name n → omap piece_component (slash_pieces n) = [Normal n].
Proof. intros [Hs Hp]. rewrite slash_pieces_one by done. simpl. by rewrite Hp. Qed.
Lemma name_components n : is_name n → components n = [Normal n].
Proof.
  intros Hn. unfold components. rewrite name_not_absolute, name_pieces by done.
  unfold starts_cur_dir. destruct Hn as [Hs Hp]. rewrite slash_pieces_one by done.
  unfold piece_component in Hp. destruct (is_lit n "."); [|done].
  by rewrite orb_true_r in Hp.
Qed.
Lemma ends_with_slash_inv t : ends_with_slash t = true → ∃ t', t = t' ++ lit "/".
Proof.
  unfold ends_with_slash. destruct (last t) as [c|] eqn:Hl; [|done]. intros Hc.
  apply last_Some in Hl as [t' ->]. apply Z.eqb_eq in Hc as ->. by exists t'.
Qed.
(** Joining a name adds it as the last component. *)
Lemma components_join t n : is_name n → components (path_join t n) = components t ++ [Normal n].
Proof.
  intros Hn. unfold path_join. rewrite name_not_absolute by done.
  case_bool_decide as Ht; cbn [orb].
  { subst. rewrite app_nil_l. by rewrite name_components. }
  destruct (ends_with_slash t) eqn:He.
  - apply ends_with_slash_inv in He as [t' ->]. rewrite <-app_assoc.
    destruct (decide (t' = [])) as [->|Ht'].
    + change (components ([] ++ lit "/" ++ n)) with (components (lit "/" ++ n)).
      unfold components. change (slash_pieces (lit "/" ++ n)) with ([] :: slash_pieces n).
      rewrite !is_absolute_head. simpl omap. rewrite name_pieces by done. done.
    + rewrite components_slash by done.
      replace (t' ++ lit "/") with (t' ++ lit "/" ++ []) by (by rewrite app_nil_r).
      rewrite components_slash by done. simpl. rewrite name_pieces by done. by rewrite app_nil_r.
  - rewrite components_slash by done. by rewrite name_pieces.
Qed.

(** Every component that is a name came from a piece. *)
Lemma component_is_name t n : Normal n ∈ components t → is_name n.
Proof.
  unfold components. intros [Hin|Hin]%elem_of_app; [repeat case_match; set_solver|].
  apply list_elem_of_omap in Hin as (p & Hp & Hc).
  pose proof (slash_pieces_plain t) as Hs. rewrite Forall_forall in Hs. specialize (Hs p Hp).
  assert (p = n) as ->; [|done]. unfold piece_component in Hc. by repeat case_match; simplify_eq.
Qed.

(** *** Parents *)

Lemma drop_blank_omap r :
  omap piece_component (reverse (drop_blank r)) = omap piece_component (reverse r).
Proof.
  induction r as [|p r IH]; [done|]. simpl.
  destruct (piece_component p) eqn:Hp; simpl; [done|]. rewrite IH, reverse_cons, omap_app.
  simpl. by rewrite Hp, app_nil_r.
Qed.
Lemma drop_blank_cons r p l :
  drop_blank r = p :: l → ∃ c, piece_component p = Some c ∧
  omap piece_component (reverse r) = omap piece_component (reverse l) ++ [c].
Proof.
  induction r as [|q r IH]; simpl; [done|]. destruct (piece_component q) as [c|] eqn:Hq; simpl.
  - intros [= -> ->]. exists c. split; [done|]. rewrite reverse_cons, omap_app. simpl. by rewrite Hq.
  - intros (c & Hc & Ho)%IH. exists c. split; [done|]. rewrite reverse_cons, omap_app. simpl.
    by rewrite Hq, app_nil_r.
Qed.
Lemma slash_pieces_join ps :
  ps ≠ [] → Forall (λ p, contains_char p "/" = false) ps → slash_pieces (join_slash ps) = ps.
Proof.
  intros Hne Hps. induction Hps as [|p ps Hp Hps IH]; [done|].
  destruct ps as [|q ps]; [by apply slash_pieces_one|].
  change (join_slash (p :: q :: ps)) with (p ++ lit "/" ++ join_slash (q :: ps)).
  rewrite slash_pieces_slash, slash_pieces_one, IH by done. done.
Qed.

Lemma drop_blank_suffix r : drop_blank r `suffix_of` r.
Proof.
  induction r as [|p r IH]; simpl; [done|]. destruct (isSome _); [done|]. by apply suffix_cons_r.
Qed.
(** The pieces of a parent: without the last one that is a component, and without
    what is blank after it *)
Lemma parent_pieces t q rest :
  drop_blank (reverse (slash_pieces t)) = q :: rest →
  let ps := reverse (drop_blank rest) in
  (∃ k, slash_pieces t = ps ++ k ∧ q ∈ k) ∧
  ∃ c, omap piece_component (slash_pieces t) = omap piece_component ps ++ [c] ∧
    c ≠ RootDir ∧ q ≠ [].
Proof.
  intros Hq ps. destruct (drop_blank_cons _ _ _ Hq) as (c & Hc & Ho).
  rewrite reverse_involutive in Ho. split.
  - assert (q :: rest `suffix_of` reverse (slash_pieces t)) as [pre Hpre]
      by (rewrite <-Hq; apply drop_blank_suffix).
    destruct (drop_blank_suffix rest) as [pre2 Hpre2].
    exists (reverse pre2 ++ [q] ++ reverse pre).
    apply (f_equal reverse) in Hpre. rewrite reverse_involutive in Hpre. rewrite Hpre.
    split; [|set_solver]. rewrite Hpre2 at 1. rewrite reverse_app, reverse_cons, reverse_app.
    unfold ps. by rewrite <-!app_assoc.
  - exists c. unfold ps. rewrite drop_blank_omap. split; [done|].
    unfold piece_component in Hc. repeat case_match; simplify_eq; split; try done; intros ->; done.
Qed.
Lemma prefix_pieces_join ps t :
  ps `prefix_of` slash_pieces t → ps ≠ [] → slash_pieces (join_slash ps) = ps.
Proof.
  intros [k Hk] Hne. apply slash_pieces_join; [done|].
  pose proof (slash_pieces_plain t) as Hp. rewrite Hk, Forall_app in Hp. by destruct Hp.
Qed.
Lemma omap_join ps t :
  ps `prefix_of` slash_pieces t →
  omap piece_component (slash_pieces (join_slash ps)) = omap piece_component ps.
Proof.
  intros Hp. destruct (decide (ps = [])) as [->|Hne]; [done|]. by erewrite prefix_pieces_join.
Qed.

Lemma components_absolute body :
  components (lit "/" ++ body) = RootDir :: omap piece_component (slash_pieces body).
Proof.
  unfold components. rewrite is_absolute_head. change (is_char (code "/") "/") with true.
  by change (slash_pieces (lit "/" ++ body)) with ([] :: slash_pieces body).
Qed.
Lemma absolute_inv t : is_absolute t = true → ∃ body, t = lit "/" ++ body.
Proof.
  rewrite is_absolute_head. destruct t as [|c t]; [done|]. intros ->%Z.eqb_eq. by exists t.
Qed.

(** The parent of an absolute path has all its components but the last. *)
Lemma parent_absolute t p :
  is_absolute t = true → path_parent t = Some p →
  is_absolute p = true ∧ ∃ c, components t = components p ++ [c] ∧ c ≠ RootDir.
Proof.
  intros [body ->]%absolute_inv. unfold path_parent.
  change (is_absolute (lit "/" ++ body)) with true.
  cbn [orb andb negb]. change (drop 1 (lit "/" ++ body)) with body.
  change (take 1 (lit "/" ++ body)) with (lit "/"). rewrite andb_false_r.
  destruct (drop_blank _) as [|q rest] eqn:Hq; [done|]. intros [= <-].
  apply parent_pieces in Hq as [(k & Hk & _) (c & Ho & Hc & _)].
  assert (reverse (drop_blank rest) `prefix_of` slash_pieces body) as Hpre by (by exists k).
  split; [done|].
  exists c. split; [|done].
  change (code "/" :: join_slash ?x) with (lit "/" ++ join_slash x).
  rewrite !components_absolute, Ho, (omap_join _ _ Hpre). done.
Qed.

Lemma join_slash_length ps :
  ps ≠ [] → (length (join_slash ps) + 1 = sum_list_with length ps + length ps)%nat.
Proof.
  induction ps as [|p [|q ps] IH]; [done|simpl; lia|]. intros _.
  change (join_slash (p :: q :: ps)) with (p ++ lit "/" ++ join_slash (q :: ps)).
  rewrite !length_app. specialize (IH ltac:(done)). simpl in *. lia.
Qed.
Lemma pieces_join t : join_slash (slash_pieces t) = t.
Proof.
  induction t as [|c t IH]; [done|]. simpl. pose proof (slash_pieces_ne t) as Ht.
  destruct (is_char c "/") eqn:Hc.
  - destruct (slash_pieces t) as [|p ps]; [done|].
    change (lit "/" ++ join_slash (p :: ps) = c :: t). rewrite IH. by apply Z.eqb_eq in Hc as ->.
  - destruct (slash_pieces t) as [|p [|q ps]]; [done|simpl in *; by subst|].
    change ((c :: p) ++ lit "/" ++ join_slash (q :: ps) = c :: t). rewrite <-IH. done.
Qed.

Lemma parent_shorter t p :
  is_absolute t = true → path_parent t = Some p → (length p < length t)%nat.
Proof.
  intros [body ->]%absolute_inv. unfold path_parent.
  change (is_absolute (lit "/" ++ body)) with true.
  cbn [orb andb negb]. change (drop 1 (lit "/" ++ body)) with body.
  change (take 1 (lit "/" ++ body)) with (lit "/"). rewrite andb_false_r.
  destruct (drop_blank _) as [|q rest] eqn:Hq; [done|]. intros [= <-].
  apply parent_pieces in Hq as [(k & Hk & Hin) (c & _ & _ & Hq)].
  set (ps := reverse (drop_blank rest)) in *.
  assert (length q ≤ sum_list_with length k)%nat as Hsum.
  { clear -Hin. induction k as [|x k IH]; [set_solver|]. simpl.
    apply elem_of_cons in Hin as [->|Hin]; [lia|]. apply IH in Hin. lia. }
  assert (0 < length q)%nat by (destruct q; [done|simpl; lia]).
  pose proof (join_slash_length (slash_pieces body) (slash_pieces_ne _)) as Hb.
  rewrite pieces_join, Hk, sum_list_with_app, length_app in Hb. simpl.
  destruct (decide (ps = [])) as [->|Hps]; [simpl in *; destruct k; [set_solver|simpl in *; lia]|].
  pose proof (join_slash_length ps Hps). simpl. lia.
Qed.

(** The file name is the last component when that is a name. *)
Lemma omap_pieces (ps : list text) :
  omap piece_component ps =
  (λ p, if is_lit p ".." then ParentDir else Normal p) <$> filter (λ p, p ≠ [] ∧ p ≠ lit ".") ps.
Proof.
  induction ps as [|p ps IH]; [done|]. cbn [omap list_omap].
  destruct (bool_decide (p = []) || is_lit p ".") eqn:Hp.
  - assert (piece_component p = None) as -> by (unfold piece_component; by rewrite Hp).
    rewrite filter_cons_False; [done|]. intros [H1 H2].
    apply orb_true_iff in Hp as [?%bool_decide_eq_true|?%is_lit_spec]; done.
  - assert (piece_component p = Some (if is_lit p ".." then ParentDir else Normal p)) as ->
      by (unfold piece_component; rewrite Hp; by destruct (is_lit p "..")).
    apply orb_false_iff in Hp as [H1%bool_decide_eq_false H2].
    rewrite filter_cons_True by (split; [done|]; intros ->; done).
    rewrite fmap_cons. f_equal. exact IH.
Qed.
Lemma file_name_last t cs n :
  components t = cs ++ [Normal n] → file_name t = Some n.
Proof.
  unfold components, file_name. rewrite omap_pieces. intros Hc.
  revert Hc. generalize (filter (λ p, p ≠ [] ∧ p ≠ lit ".") (slash_pieces t)). intros qs Hc.
  destruct qs as [|q qs _] using rev_ind.
  - simpl in Hc. rewrite app_nil_r in Hc. repeat case_match; destruct cs as [|? []]; done.
  - rewrite fmap_app, app_assoc in Hc. apply app_inj_tail in Hc as [_ Hq].
    rewrite last_snoc. destruct (is_lit q ".."); by simplify_eq.
Qed.
Lemma components_kinds t c :
  is_absolute t = true → c ∈ components t → c = RootDir ∨ c = ParentDir ∨ ∃ n, c = Normal n.
Proof.
  intros [body ->]%absolute_inv. rewrite components_absolute.
  intros [->|Hin]%elem_of_cons; [auto|]. apply list_elem_of_omap in Hin as (p & _ & Hc).
  unfold piece_component in Hc. repeat case_match; simplify_eq; eauto.
Qed.
(** Only the root has no parent. *)
Lemma parent_none t : is_absolute t = true → path_parent t = None → components t = [RootDir].
Proof.
  intros [body ->]%absolute_inv. unfold path_parent.
  change (is_absolute (lit "/" ++ body)) with true.
  cbn [orb andb negb]. change (drop 1 (lit "/" ++ body)) with body. rewrite andb_false_r.
  destruct (drop_blank _) as [|q rest] eqn:Hq; [|done]. intros _.
  rewrite components_absolute. f_equal. rewrite <-(reverse_involutive (slash_pieces body)).
  by rewrite <-drop_blank_omap, Hq.
Qed.
(** A normalized absolute path is absolute and has no [..]. *)
Lemma absolute_join t n : is_absolute t = true → is_absolute (path_join t n) = true.
Proof.
  intros Ht. unfold path_join. destruct (is_absolute n) eqn:Hn; [done|].
  assert (t ≠ []) by (intros ->; by rewrite is_absolute_head in Ht).
  destruct (_ || _); by rewrite is_absolute_app.
Qed.
Lemma lexical_no_dots t :
  is_absolute t = true →
  is_absolute (lexically_normalize_path t) = true ∧ ParentDir ∉ components (lexically_normalize_path t).
Proof.
  intros Habs. unfold lexically_normalize_path.
  assert (∀ n, Normal n ∈ components t → is_name n) as Hnames by (intros; by eapply component_is_name).
  destruct (absolute_inv _ Habs) as [body Hb].
  assert (∃ cs, components t = RootDir :: cs) as [cs Hcs].
  { rewrite Hb, components_absolute. eauto. }
  rewrite Hcs in Hnames |- *. cbn [foldl]. change (path_join [] (lit "/")) with (lit "/").
  assert (∀ n, Normal n ∈ cs → is_name n) as Hn by (intros; apply Hnames; set_solver).
  assert (is_absolute (lit "/") = true ∧ ParentDir ∉ components (lit "/")) as Hinit.
  { split; [done|]. vm_compute. set_solver. }
  revert Hinit. generalize (lit "/") at 1 2 4 6. clear -Hn. revert Hn.
  induction cs as [|c cs IH]; intros Hn t Ht; [done|].
  cbn [foldl]. apply IH; [set_solver|]. destruct Ht as [Ht Hd]. destruct c as [| | |n].
  - split; [done|]. vm_compute. set_solver.
  - done.
  - unfold path_pop. destruct (path_parent t) as [p|] eqn:Hp; [|done]. simpl.
    destruct (parent_absolute _ _ Ht Hp) as (Hpa & c & Hc & _). split; [done|].
    rewrite Hc in Hd. set_solver.
  - split; [by apply absolute_join|]. rewrite components_join by (apply Hn; set_solver). set_solver.
Qed.
