(* ===== verification/SandboxFacts.v ===== *)
(** * Theorems of the sandbox

    The guard always returns; what it checks of a command it lets start; resolving
    a path ends; and what the guard misses. *)
From S2P Require Import Prelude RustStd Policy RustChars BashSyntax BashClassifier BashFacts SandboxSyntax SandboxCommands SandboxPaths Sandbox TextPathFacts.

(** ** The guard returns *)

(** The characters of a command's words *)
Definition words_size (words : list text) : nat := sum_list_with length words.
Definition commands_size (commands : list (list text)) : nat := sum_list_with words_size commands.
Definition no_empty_word (words : list text) : Prop := Forall (λ w, w ≠ []) words.

Lemma end_word_size c w : words_size (end_word c w) = (words_size c + length w)%nat.
Proof.
  unfold end_word, words_size. case_bool_decide; subst; simpl; [lia|].
  rewrite sum_list_with_app. simpl. lia.
Qed.
Lemma end_command_size cs c : commands_size (end_command cs c) = (commands_size cs + words_size c)%nat.
Proof.
  unfold end_command, commands_size. case_bool_decide; subst; simpl; [lia|].
  rewrite sum_list_with_app. simpl. lia.
Qed.
Lemma end_word_ne c w : no_empty_word c → no_empty_word (end_word c w).
Proof. unfold end_word, no_empty_word. case_bool_decide; [done|]. rewrite Forall_app. auto. Qed.
Lemma end_command_ne cs c :
  Forall no_empty_word cs → no_empty_word c → Forall no_empty_word (end_command cs c).
Proof. unfold end_command. case_bool_decide; [done|]. rewrite Forall_app. auto. Qed.
Lemma double_escape_size w c : (length (push_double_quoted_escape w c) ≤ length w + 2)%nat.
Proof.
  unfold push_double_quoted_escape. repeat case_match; rewrite ?length_app; simpl; lia.
Qed.

(** Reading commands makes words of the characters it reads, and no empty ones. *)
Lemma commands_go_size t : ∀ skip s cs c w cs',
  (skip ≤ length t)%nat → Forall no_empty_word cs → no_empty_word c →
  commands_go skip s cs c w t = inr cs' →
  (commands_size cs' ≤ commands_size cs + words_size c + length w + (length t - skip))%nat ∧
  Forall no_empty_word cs'.
Proof.
  induction t as [|x t IH]; intros skip s cs c w cs' Hskip Hcs Hc.
  { simpl. repeat case_match; try done. intros [= <-]. rewrite end_command_size, end_word_size.
    split; [lia|]. apply end_command_ne; [done|]. by apply end_word_ne. }
  cbn [commands_go]. destruct skip as [|skip].
  2:{ intros Hgo. apply IH in Hgo as [? ?]; [|simpl in Hskip; lia|done|done]. split; [|done].
      simpl in *. lia. }
  simpl in Hskip.
  assert (∀ k s' w', (k ≤ length t)%nat → (length w' ≤ length w + S k)%nat →
    commands_go k s' cs c w' t = inr cs' →
    (commands_size cs' ≤ commands_size cs + words_size c + length w + (length (x :: t) - 0))%nat ∧
    Forall no_empty_word cs') as Hword.
  { intros k s' w' Hk Hw Hgo. apply IH in Hgo as [? ?]; [|done..]. split; [simpl; lia|done]. }
  assert (∀ s', commands_go 0 s' cs (end_word c w) [] t = inr cs' →
    (commands_size cs' ≤ commands_size cs + words_size c + length w + (length (x :: t) - 0))%nat ∧
    Forall no_empty_word cs') as Hend.
  { intros s' Hgo. apply IH in Hgo as [Hle ?]; [|lia|done|by apply end_word_ne].
    rewrite end_word_size in Hle. split; [simpl in *; lia|done]. }
  assert (∀ k s', (k ≤ length t)%nat →
    commands_go k s' (end_command cs (end_word c w)) [] [] t = inr cs' →
    (commands_size cs' ≤ commands_size cs + words_size c + length w + (length (x :: t) - 0))%nat ∧
    Forall no_empty_word cs') as Hcut.
  { intros k s' Hk Hgo. apply IH in Hgo as [Hle ?];
      [|done|by apply end_command_ne, end_word_ne|constructor].
    rewrite end_command_size, end_word_size in Hle. split; [simpl in *; lia|done]. }
  assert (length (w ++ [x]) ≤ length w + 1)%nat as Hx by (rewrite length_app; simpl; lia).
  destruct t as [|y t]; cbv zeta;
    repeat (match goal with |- context [if ?b then _ else _] => destruct b end); try done.
  all: try (apply Hword; [simpl; lia|rewrite ?length_app; simpl; lia]).
  all: try (apply Hend). all: try (apply Hcut; simpl; lia).
  all: apply Hword; [simpl; lia|pose proof (double_escape_size w y); lia].
Qed.
Lemma shell_commands_size t cs :
  shell_commands t = inr cs → (commands_size cs ≤ length t)%nat ∧ Forall no_empty_word cs.
Proof.
  intros Hc. apply commands_go_size in Hc as [Hle Hne]; [|simpl; lia|constructor|constructor].
  simpl in *. split; [lia|done].
Qed.

(** The arguments of the command behind wrappers end the words of the command. *)
Lemma next_command_suffix words : next_command words `suffix_of` words.
Proof.
  induction words as [|w ws IH]; [done|]. unfold next_command in *. simpl.
  destruct (_ || _); [|done]. by apply suffix_cons_r.
Qed.
Lemma evaluator_go_suffix fuel display words view :
  evaluator_go fuel display words = Some view →
  ∃ w, w :: ev_args view `suffix_of` words.
Proof.
  revert display words. induction fuel as [|fuel IH]; intros display [|w args]; simpl; try done.
  repeat case_match; intros Hv; simplify_eq; try (by exists w).
  all: match goal with Hd : drop ?n ?a = ?t :: ?l |- _ =>
    apply IH in Hv as [w' Hs]; exists w'; etrans; [exact Hs|]; rewrite <-Hd;
    apply suffix_cons_r; exists (take n a); by rewrite take_drop end.
Qed.
Lemma evaluator_view_suffix words view :
  nested_evaluator_view words = Some view → ∃ w, w :: ev_args view `suffix_of` words.
Proof.
  unfold nested_evaluator_view. destruct (next_command words) as [|w ws] eqn:Hn; [done|].
  intros [w' Hs]%evaluator_go_suffix. exists w'. etrans; [exact Hs|].
  rewrite <-Hn. apply next_command_suffix.
Qed.

Lemma inline_script_elem command args inner :
  inline_script_go command args = inr (Some inner) → inner ∈ args.
Proof.
  assert (∀ n args, (length args ≤ n)%nat →
    inline_script_go command args = inr (Some inner) → inner ∈ args) as H; [|by eapply H].
  clear args. induction n as [|n IH]; intros [|a args] Hn; simpl in *; try done; [lia|].
  repeat case_match; try done; intros Hi; subst; simpl in Hn.
  all: try (apply IH in Hi; [set_solver|lia]).
  all: injection Hi as Hh; apply head_Some_elem_of in Hh; set_solver.
Qed.

Lemma checked_bind_ok {A B} (m : Checked A) (f : A → Checked B) b :
  m ≫= f = inr b → ∃ a, m = inr a ∧ f a = inr b.
Proof. destruct m; [done|]. eauto. Qed.
Lemma for_each_ok {A} (f : A → Checked unit) l u :
  for_each f l = inr u → ∀ x, x ∈ l → f x = inr tt.
Proof.
  induction l as [|y l IH]; simpl; [set_solver|]. intros [[] [Hy Hl]]%checked_bind_ok x.
  intros [->|Hin]%elem_of_cons; [done|]. by apply IH.
Qed.
Lemma for_each_ext {A} (f g : A → Checked unit) l :
  (∀ x, x ∈ l → f x = g x) → for_each f l = for_each g l.
Proof.
  induction l as [|y l IH]; intros H; simpl; [done|].
  rewrite (H y) by set_solver. rewrite IH; [done|]. intros x Hx. apply H. set_solver.
Qed.

Lemma words_size_elem w words : w ∈ words → (length w ≤ words_size words)%nat.
Proof.
  unfold words_size. induction words as [|x ws IH]; [set_solver|]. simpl.
  intros [->|Hin]%elem_of_cons; [lia|]. apply IH in Hin. lia.
Qed.
Lemma commands_size_elem c cs : c ∈ cs → (words_size c ≤ commands_size cs)%nat.
Proof.
  unfold commands_size. induction cs as [|x cs IH]; [set_solver|]. simpl.
  intros [->|Hin]%elem_of_cons; [lia|]. apply IH in Hin. lia.
Qed.

(** The script of a shell wrapper is shorter than its command. *)
Lemma inline_script_shorter words inner :
  no_empty_word words → shell_wrapper_inline_script words = inr (Some inner) →
  (length inner < words_size words)%nat.
Proof.
  intros Hne. unfold shell_wrapper_inline_script.
  destruct (nested_evaluator_view words) as [v|] eqn:Hv.
  2:{ simpl. intros [? [_ ?]]%checked_bind_ok. done. }
  destruct (if is_lit (ev_command v) "printf" then _ else _); [done|].
  intros [? [_ Hs]]%checked_bind_ok.
  assert (inner ∈ ev_args v) as Hin.
  { destruct (isSome _); [done|]. destruct (is_shell_eval_builtin _); [done|].
    destruct (negb (one_of _ shells)); [done|]. destruct (is_lit _ "zsh" && _); [done|].
    by apply inline_script_elem in Hs. }
  clear Hs.
  destruct (evaluator_view_suffix _ _ Hv) as [w [pre ->]].
  unfold no_empty_word in Hne. rewrite Forall_app, Forall_cons in Hne.
  destruct Hne as (_ & Hw & _). unfold words_size. rewrite sum_list_with_app. simpl.
  apply words_size_elem in Hin. unfold words_size in Hin. destruct w; [done|]. simpl. lia.
Qed.

Lemma normalize_outside_le s rs o n t :
  (length t ≤ n)%nat → (length (normalize_outside s rs o t) ≤ length t)%nat.
Proof.
  revert s rs o t. induction n as [|n IH]; intros s rs o [|c t] Hn; simpl in *; try lia.
  destruct (in_range _ _); [simpl; apply le_n_S, IH; lia|].
  destruct (_ && _); [|simpl; apply le_n_S, IH; lia].
  destruct t as [|d t]; [simpl; lia|].
  assert (∀ s' l o', length (c :: normalize_outside s' l o' (d :: t)) ≤ S (length (d :: t)))%nat as Hk
    by (intros; apply le_n_S, IH; lia).
  assert (∀ l o', length (normalize_outside s l o' t) ≤ S (length (d :: t)))%nat as Ht
    by (intros; etrans; [apply IH; simpl in Hn; lia|simpl; lia]).
  repeat case_match; first [apply Ht|apply Hk].
Qed.
Lemma trim_start_le p t : (length (trim_start_matches p t) ≤ length t)%nat.
Proof. induction t as [|c t IH]; simpl; [lia|]. destruct (p c); simpl; lia. Qed.
Lemma text_trim_le t : (length (text_trim t) ≤ length t)%nat.
Proof.
  unfold text_trim, trim_matches. rewrite length_reverse. etrans; [apply trim_start_le|].
  rewrite length_reverse. apply trim_start_le.
Qed.


(** ** A file system to try the guard on *)

(** The files of [nodes], given by their components; a path is followed name by
    name, and [..] leaves a directory that must exist. *)
Fixpoint follow (nodes : list (list text)) (here : list text) (cs : list Component) :
    option (list text) :=
  match cs with
  | [] => Some here
  | c :: cs' =>
      match c with
      | RootDir => follow nodes [] cs'
      | CurDir => follow nodes here cs'
      | ParentDir => follow nodes (take (length here - 1) here) cs'
      | Normal n =>
          if bool_decide (here ++ [n] ∈ nodes) then follow nodes (here ++ [n]) cs' else None
      end
  end.
Definition tree_fs (nodes : list (list text)) : HostFs := {|
  exists_at := λ p, is_absolute p && isSome (follow nodes [] (components p));
  real_path := λ p, if is_absolute p
                    then (λ here, lit "/" ++ join_slash here) <$> follow nodes [] (components p)
                    else None;
  multiply_linked := λ _, Some false;
|}.
(** A project below [/w] with a file; [/w] is not granted. *)
Definition demo_nodes : list (list text) :=
  [[lit "w"]; [lit "w"; lit "p"]; [lit "w"; lit "p"; lit "notes"]].
Definition demo_fs : HostFs := tree_fs demo_nodes.
Definition demo_mount (access : ReifiedMountAccess) : SandboxHostMount :=
  mkHostMount (lit "/mnt/p") (lit "/w/p") access.
Definition demo_sandbox (access : ReifiedMountAccess) : Sandbox :=
  mkSandbox (@from_host_mounts demo_fs None [demo_mount access]) [] None.


(** ** What a started command was checked for *)

Section started.
Context `{HostFs} (tmpdir : option text) (detected : SandboxBackendKind) (sb : Sandbox).

Definition path_of (cwd token : text) : text :=
  if is_absolute token then token else path_join cwd token.
(** The reference is inside a granted directory and outside the protected ones. *)
Definition within_grant (capability : option ToolCapability) (path : text) : Prop :=
  is_authorized sb capability path = true ∧ protected_subpath_component sb path = None ∧
  if is_read capability
  then ∀ deny, deny ∈ read_denylist (sb_spec sb) →
         path_starts_with (normalized_path sb path) (canonical_or_lexical deny) = false
  else multiply_linked path = Some false.
Definition target_allowed (cwd target : text) : Prop :=
  is_allowed_absolute_command_path (path_of cwd target) = true ∨
  within_grant None (path_of cwd target).

(** The targets of redirections among the words, and the other words *)
Fixpoint targets (expects : bool) (tokens : list ShellToken) : list ShellToken :=
  match tokens with
  | [] => []
  | token :: rest =>
      if expects then token :: targets false rest
      else targets (is_file_redirection_operator (decoded token)) rest
  end.
Fixpoint operands (expects : bool) (tokens : list ShellToken) : list ShellToken :=
  match tokens with
  | [] => []
  | token :: rest =>
      if expects then operands false rest
      else if is_file_redirection_operator (decoded token) then operands true rest
      else token :: operands false rest
  end.
(** A part of a word the guard takes for a path *)
Definition is_reference (part : text) : bool :=
  negb (bool_decide (part = [])) && negb (text_starts part "-") && negb (text_contains part "://")
  && (looks_like_path_token part || looks_like_bare_protected_subpath_token part).

(** A command whose program is named directly and evaluates no text *)
Definition direct (words : list text) : Prop :=
  (∀ program args, skip_assignments words = program :: args →
     is_shell_control_prefix program = false ∧
     is_unsupported_shell_wrapper (command_basename program) = false) ∧
  (∀ v, nested_evaluator_view words = Some v →
     opaque_wrapper_display v = None ∧ is_shell_eval_builtin (ev_command v) = false ∧
     opaque_command_dispatcher_display (ev_display v) (ev_command v) (ev_args v) = None ∧
     leading_eval_flag (ev_command v) (ev_args v) = None ∧
     opaque_script_interpreter_display (ev_display v) (ev_command v) (ev_args v) = None).

Lemma ensure_not_protected_ok path action u :
  ensure_path_not_protected sb path action = inr u → protected_subpath_component sb path = None.
Proof. unfold ensure_path_not_protected. by case_match. Qed.
Lemma ensure_not_linked_ok path action u :
  ensure_path_not_multiply_linked path action = inr u → multiply_linked path = Some false.
Proof.
  unfold ensure_path_not_multiply_linked, existing_regular_file_has_multiple_links.
  destruct (multiply_linked path) as [[]|]; done.
Qed.
Lemma ensure_not_denied_ok path action u :
  ensure_path_not_read_denied sb path action = inr u →
  ∀ deny, deny ∈ read_denylist (sb_spec sb) →
    path_starts_with (normalized_path sb path) (canonical_or_lexical deny) = false.
Proof.
  unfold ensure_path_not_read_denied. destruct (existsb _ _) eqn:He; [done|]. intros _ deny Hin.
  destruct (path_starts_with _ _) eqn:Hp; [|done].
  assert (existsb (λ deny, path_starts_with (normalized_path sb path) (canonical_or_lexical deny)
      || path_starts_with (normalized_path sb path) (lexically_normalize_path deny))
    (read_denylist (sb_spec sb)) = true) as Ht; [|congruence].
  apply existsb_exists. exists deny. split; [by apply list_elem_of_In|]. by rewrite Hp.
Qed.

Lemma redirection_target_ok token cwd u :
  validate_redirection_target sb token cwd = inr u → target_allowed cwd token.
Proof.
  unfold validate_redirection_target, target_allowed. fold (path_of cwd token).
  repeat (case_match; try done).
  - intros _. left. by apply andb_true_iff in H2 as [_ ?].
  - intros [? [Hp Hl]]%checked_bind_ok. right. split_and!.
    + unfold is_authorized. simpl. by apply negb_false_iff.
    + by eapply ensure_not_protected_ok.
    + simpl. by eapply ensure_not_linked_ok.
Qed.
Lemma candidate_ok token cwd capability u :
  validate_command_path_candidate sb token cwd capability = inr u → is_reference token = true →
  is_allowed_absolute_command_path (path_of cwd token) = true ∨
  within_grant capability (path_of cwd token).
Proof.
  unfold validate_command_path_candidate, is_reference. fold (path_of cwd token). intros Hv.
  intros [[[H1 H2]%andb_true_iff H3]%andb_true_iff H4]%andb_true_iff.
  apply negb_true_iff in H1, H2, H3. rewrite H1, H2, H3, H4 in Hv. simpl in Hv.
  destruct (text_starts token "~"); [done|].
  destruct (is_absolute _ && _) eqn:Ha; [left; by apply andb_true_iff in Ha as [_ ?]|]. right.
  destruct (negb (is_authorized sb capability _)) eqn:Hauth; [done|]. apply negb_false_iff in Hauth.
  apply checked_bind_ok in Hv as [? [Hp Hl]]. unfold within_grant.
  split_and!; [done|by eapply ensure_not_protected_ok|].
  destruct (is_read capability); [by eapply ensure_not_denied_ok|by eapply ensure_not_linked_ok].
Qed.

Lemma tokens_ok command cwd capability expects tokens u :
  validate_tokens detected sb command cwd capability expects tokens = inr u →
  (∀ t, t ∈ targets expects tokens → target_allowed cwd (decoded t)) ∧
  (∀ t part, t ∈ operands expects tokens →
     (token_path_role command t = RoleCheck ∨ token_path_role command t = RoleRead) →
     part ∈ path_like_subtokens (decoded t) → is_reference part = true →
     is_allowed_absolute_command_path (path_of cwd part) = true ∨
     within_grant (role_capability (token_path_role command t) capability
                     (is_os_enforced (active_backend detected sb))) (path_of cwd part)).
Proof.
  revert expects u. induction tokens as [|t ts IH]; intros expects u; simpl.
  { intros _. split; intros *; by intros ?%elem_of_nil. }
  destruct expects; [|destruct (is_file_redirection_operator (decoded t))].
  - intros [? [Ht Hrest]]%checked_bind_ok. apply IH in Hrest as [H1 H2]. split; [|done].
    intros tk [->|Hx]%elem_of_cons; [by eapply redirection_target_ok|auto].
  - apply IH.
  - destruct (bool_decide _ || bool_decide _) eqn:Hrole.
    + intros [? [Hc Hrest]]%checked_bind_ok. apply IH in Hrest as [H1 H2]. split; [done|].
      intros tk part [->|Hx]%elem_of_cons; [|eauto]. intros _ Hpart Href.
      eapply for_each_ok in Hc; [|done]. by eapply candidate_ok.
    + intros Hrest. apply IH in Hrest as [H1 H2]. split; [done|].
      intros tk part [->|Hx]%elem_of_cons; [|eauto]. intros Hr. exfalso.
      apply orb_false_iff in Hrole as [?%bool_decide_eq_false ?%bool_decide_eq_false].
      by destruct Hr.
Qed.

Lemma shape_ok words u : validate_shape backend_name words = inr u →
  ∀ program args, skip_assignments words = program :: args →
    is_shell_control_prefix program = false ∧
    is_unsupported_shell_wrapper (command_basename program) = false.
Proof.
  unfold validate_shape. intros Hv program args Hs. rewrite Hs in Hv.
  destruct (is_shell_control_prefix program); [done|].
  by destruct (is_unsupported_shell_wrapper _).
Qed.
Lemma evaluator_ok words u : validate_evaluator backend_name false words = inr u →
  ∀ v, nested_evaluator_view words = Some v →
    opaque_wrapper_display v = None ∧ is_shell_eval_builtin (ev_command v) = false ∧
    opaque_command_dispatcher_display (ev_display v) (ev_command v) (ev_args v) = None ∧
    leading_eval_flag (ev_command v) (ev_args v) = None ∧
    opaque_script_interpreter_display (ev_display v) (ev_command v) (ev_args v) = None.
Proof.
  unfold validate_evaluator. intros Hv v Hview. rewrite Hview in Hv.
  destruct (opaque_wrapper_display v); [done|]. destruct (is_shell_eval_builtin _); [done|].
  destruct (opaque_command_dispatcher_display _ _ _); [done|].
  cbv [mbind checked_bind mret checked_ret isSome] in Hv.
  destruct (leading_eval_flag (ev_command v) (ev_args v)),
    (opaque_script_interpreter_display (ev_display v) (ev_command v) (ev_args v)),
    (one_of (ev_command v) awks), (validate_awk_arguments (ev_args v)); done.
Qed.

(** What the guard checks of a command that the sandbox starts on a backend without
    kernel confinement of shells, each point by the guard's own tests: no expansion
    of a variable, command, brace or glob outside quotes; every command names its
    program directly and evaluates no text; the target of every redirection and every
    word it takes for a path passed the tests of authorization. The tests look at the
    file system as it is before the command runs; the examples at the end show what
    they miss. *)
Theorem started_command_checked cmd cwd capability c :
  permits_autonomous_bash (active_backend detected sb) = false →
  prepare_exec detected tmpdir sb cmd cwd capability = inr c →
  let trimmed := text_trim (normalize_shell_line_continuations cmd) in
  let plain_text := strip_shell_comments (normalize_shell_line_continuations cmd) in
  (contains_shell_expansion plain_text = false ∧ contains_shell_brace_expansion plain_text = false ∧
   contains_shell_globbing plain_text = false) ∧
  command_cwd_is_authorized detected sb cwd capability = true ∧
  protected_subpath_component sb cwd = None ∧
  ∃ tokens commands,
    shell_tokens_with_spans trimmed = inr tokens ∧ shell_commands trimmed = inr commands ∧
    (∀ words, words ∈ commands → direct words) ∧
    (∀ t, t ∈ targets false tokens → target_allowed cwd (decoded t)) ∧
    (∀ t part, t ∈ operands false tokens →
       (token_path_role trimmed t = RoleCheck ∨ token_path_role trimmed t = RoleRead) →
       part ∈ path_like_subtokens (decoded t) → is_reference part = true →
       is_allowed_absolute_command_path (path_of cwd part) = true ∨
       within_grant (role_capability (token_path_role trimmed t) capability
                       (is_os_enforced (active_backend detected sb))) (path_of cwd part)).
Proof.
  intros Hb. unfold prepare_exec. rewrite Hb.
  destruct (command_cwd_is_authorized _ _ _ _) eqn:Hcwd; [|done]. simpl.
  intros [? [Hprot Hrest]]%checked_bind_ok. apply checked_bind_ok in Hrest as [? [Hfeat Hrest]].
  apply checked_bind_ok in Hrest as [? [Hpaths _]].
  split; [unfold validate_shell_features in Hfeat; by destruct (contains_shell_expansion _),
      (contains_shell_brace_expansion _), (contains_shell_globbing _)|].
  split; [done|]. split; [by eapply ensure_not_protected_ok|].
  unfold validate_command_paths in Hpaths.
  destruct (length cmd); cbn [validate_paths_go protected_only] in Hpaths;
    (case_bool_decide; [done|]);
    (destruct (shell_tokens_with_spans _) as [|tokens] eqn:Ht; [done|]);
    (destruct (shell_commands _) as [|commands] eqn:Hc; [done|]);
    apply checked_bind_ok in Hpaths as [? [Hshape Hpaths]];
    apply checked_bind_ok in Hshape as [? [Hshape Heval]];
    apply checked_bind_ok in Hpaths as [? [Htok _]]; apply tokens_ok in Htok as [Htarget Hword];
    exists tokens, commands; (split_and!; [done|done| |exact Htarget|exact Hword]);
    intros words Hw; (split; [eapply shape_ok; by eapply (for_each_ok _ _ _ Hshape)|
                              eapply evaluator_ok; by eapply (for_each_ok _ _ _ Heval)]).
Qed.
End started.

Lemma started_command_checked_witness :
  ∃ tokens,
    shell_tokens_with_spans (lit "sort notes > ./out # done") = inr tokens ∧
    ∀ t, t ∈ targets false tokens →
      @target_allowed demo_fs (demo_sandbox MountReadWrite) (lit "/w/p") (decoded t).
Proof.
  destruct (@started_command_checked demo_fs None HostMountPathGuard (demo_sandbox MountReadWrite)
    (lit "sort notes > ./out # done") (lit "/w/p") (Some CapWrite)
    (Spawn (lit "/bin/sh") (shell_args (lit "sort notes > ./out # done"))))
    as (_ & _ & _ & tokens & commands & Ht & _ & _ & Htarget & _); [done|by vm_compute|].
  exists tokens. split; [exact Ht|exact Htarget].
Defined.

(** ** Resolving a path *)

(** What the host's file system is relied on for: every spelling of the root
    exists. *)
Class HostFsLaws `{HostFs} : Prop := {
  root_exists p : components p = [RootDir] → exists_at p = true;
}.
Global Instance demo_fs_laws : @HostFsLaws demo_fs.
Proof.
  constructor. intros p Hp. simpl.
  assert (is_absolute p = true) as ->.
  { unfold components in Hp. destruct (is_absolute p); [done|].
    destruct (starts_cur_dir p); [done|]. simpl in Hp.
    assert (RootDir ∈ omap piece_component (slash_pieces p)) as Hin by (rewrite Hp; set_solver).
    apply list_elem_of_omap in Hin as (x & _ & Hx). unfold piece_component in Hx.
    by repeat case_match. }
  by rewrite Hp.
Qed.

Section resolution.
Context `{HostFsLaws}.

Lemma climb_ancestor n absolute cur suffix ancestor :
  exists_at cur = false → is_absolute cur = true → ParentDir ∉ components cur →
  existing_ancestor n (path_parent cur) = Some ancestor →
  ∃ ns, Forall is_name ns ∧
    climb n absolute cur suffix =
      Some (foldl path_join (canonical_or_lexical ancestor) (ns ++ suffix)).
Proof.
  revert cur suffix. induction n as [|n IH]; intros cur suffix Hex Habs Hdots; [done|].
  destruct (path_parent cur) as [p|] eqn:Hp; [|done].
  destruct (parent_absolute _ _ Habs Hp) as (Hpabs & c & Hc & Hroot).
  assert (∃ name, c = Normal name) as [name ->].
  { destruct (components_kinds cur c Habs) as [?|[?|?]]; [rewrite Hc; set_solver|done| |done].
    subst. rewrite Hc in Hdots. set_solver. }
  assert (is_name name) as Hname by (apply (component_is_name cur); rewrite Hc; set_solver).
  cbn [existing_ancestor climb]. rewrite Hex, (file_name_last _ _ _ Hc), Hp.
  destruct (exists_at p) eqn:Hexp.
  - intros [= <-]. exists [name]. split; [by constructor|]. destruct n; simpl; by rewrite Hexp.
  - intros Hanc. destruct (IH p (name :: suffix)) as (ns & Hns & Hclimb); [done..| |done|].
    + rewrite Hc in Hdots. set_solver.
    + exists (ns ++ [name]). split; [apply Forall_app; auto|]. by rewrite <-app_assoc.
Qed.
Lemma ancestor_found n cur :
  is_absolute cur = true → (length cur ≤ n)%nat → components cur ≠ [RootDir] →
  is_Some (existing_ancestor n (path_parent cur)).
Proof.
  revert cur. induction n as [|n IH]; intros cur Habs Hn Hroot.
  { destruct cur; [done|simpl in Hn; lia]. }
  destruct (path_parent cur) as [p|] eqn:Hp; [|by apply parent_none in Hp].
  destruct (parent_absolute _ _ Habs Hp) as (Hpabs & _).
  pose proof (parent_shorter _ _ Habs Hp). cbn [existing_ancestor].
  destruct (exists_at p) eqn:Hex; [done|]. apply IH; [done|lia|].
  intros Hr. rewrite root_exists in Hex; done.
Qed.
(** Resolving a path ends after at most one call to itself. *)
Lemma resolution_ends sb path d :
  is_absolute (resolve_against sb path) = true →
  resolved_go (S d) sb path = resolved_go 1 sb path.
Proof.
  intros Habs.
  assert (∀ d d' p, is_absolute p = true → ParentDir ∉ components p →
    resolved_go d sb p = resolved_go d' sb p) as Hsame.
  { clear d Habs. intros d d' p Hp Hdots.
    assert (resolve_against sb p = p) as Hr by (unfold resolve_against; by rewrite Hp).
    destruct d, d'; cbn [resolved_go]; rewrite Hr; (destruct (exists_at p) eqn:Hex; [done|]);
      (destruct (ancestor_found (length p) p) as [anc Hanc];
        [done|done|by intros Hr'; rewrite root_exists in Hex|]);
      by destruct (climb_ancestor _ p _ [] _ Hex Hp Hdots Hanc) as (ns & _ & ->). }
  destruct (lexical_no_dots _ Habs) as [H1 H2].
  assert (∀ k, resolved_go (S k) sb path =
    (if exists_at (resolve_against sb path) then normalized_path sb (resolve_against sb path)
     else match climb (length (resolve_against sb path)) (resolve_against sb path)
                  (resolve_against sb path) [] with
          | Some resolved => resolved
          | None => resolved_go k sb (lexically_normalize_path (resolve_against sb path))
          end)) as Hunfold by done.
  rewrite !Hunfold, (Hsame d 0%nat) by done. reflexivity.
Qed.

End resolution.

(** ** What the guard misses *)

(** While [x] does not exist, no path through it does, and the nearest ancestor that
    exists is the granted directory itself, so a path that climbs out of it is accepted. Creating the parent directories first,
    as [write] does, makes the path reach the file outside. *)
Example dots_through_missing_directory_accepted :
  @is_writable demo_fs (demo_sandbox MountReadWrite) (lit "/w/p/x/../../stolen") = true ∧
  @sandbox_write demo_fs (λ _, inr tt) (λ _ _, inr tt) (demo_sandbox MountReadWrite)
    (lit "/w/p/x/../../stolen") [] = inr tt ∧
  lexically_normalize_path (lit "/w/p/x/../../stolen") = lit "/w/stolen" ∧
  @is_writable demo_fs (demo_sandbox MountReadWrite) (lit "/w/stolen") = false ∧
  @prepare_exec demo_fs HostMountPathGuard None (demo_sandbox MountReadWrite)
    (lit "mkdir x && sort notes > x/../../stolen") (lit "/w/p") (Some CapWrite) =
    inr (Spawn (lit "/bin/sh") (shell_args (lit "mkdir x && sort notes > x/../../stolen"))).
Proof. vm_compute. split_and!; reflexivity. Qed.

(** A command that is classified as a read is started in a directory that is
    granted for reading only, although it removes a file: the words after a single
    [&] are arguments for the classifier and a command for the shell. *)
Example read_only_grant_runs_removal :
  classify "ls & rm notes" = CapRead ∧
  @prepare_exec demo_fs HostMountPathGuard None (demo_sandbox MountReadOnly)
    (lit "ls & rm notes") (lit "/w/p") (Some CapRead) =
    inr (Spawn (lit "/bin/sh") (shell_args (lit "ls & rm notes"))).
Proof. vm_compute. split; reflexivity. Qed.
