(* ===== verification/ReifiedPlan.v ===== *)
(** * Plans of a native namespace (agent-engine/src/tools/reified_namespace/plan.rs)

    A command of the Linux backend runs in a view of the host that holds the granted
    directories, a read-only execution substrate and a private scratch. The plan
    checks that these do not cover each other and translates the working directory
    into the view. The host's file system is the class [HostFs]. *)
From stdpp Require Import pretty.
From S2P Require Import Prelude RustStd RustChars SandboxSyntax SandboxPaths Sandbox.

(** ** Data *)

Definition DEFAULT_PRIMARY_MOUNT_NAMESPACE_PATH : text := lit "/mnt/source".
Definition DEFAULT_SCRATCH_TMP_NAMESPACE_PATH : text := lit "/tmp".
Definition LINUX_REIFIED_COMMAND_PATH : text :=
  lit "/usr/local/sbin:/usr/local/bin:/usr/sbin:/usr/bin:/sbin:/bin".

Definition access_as_str (a : ReifiedMountAccess) : text :=
  match a with MountReadOnly => lit "read_only" | MountReadWrite => lit "read_write" end.
Definition access_is_writable (a : ReifiedMountAccess) : bool :=
  match a with MountReadWrite => true | MountReadOnly => false end.

Inductive ReifiedMountSource : Type := HostSource (path : text) | VirtualSource.
Record ReifiedMountDeclaration : Type := mkDeclaration {
  decl_path : text;
  decl_source : ReifiedMountSource;
  decl_access : ReifiedMountAccess;
}.
Definition declare_host (path host : text) (access : ReifiedMountAccess) : ReifiedMountDeclaration :=
  mkDeclaration path (HostSource host) access.
Definition virtual_mount (path : text) : ReifiedMountDeclaration :=
  mkDeclaration path VirtualSource MountReadOnly.

Record ReifiedHostMount : Type := mkReifiedMount {
  rm_path : text;
  rm_host : text;
  rm_access : ReifiedMountAccess;
}.
Record ReifiedExecutionSubstrateMount : Type := mkSubstrate { sub_path : text; sub_host : text }.

Record ReifiedRustCommandProvider : Type := mkProvider {
  executable : text;
  provider_path : text;
  provider_resolved : option (text * text * bool);
  requires_private_proxy_links : bool;
}.
Record ReifiedCargoConfigInput : Type := mkCargoConfig {
  config_path : text;
  config_root : text;
  config_namespace_root : text;
  config_digest : option text;
}.
Record ReifiedRustupEnvironment : Type := mkRustup {
  rustup_settings : text;
  toolchain_override : option text;
  proxy_mounts : list ReifiedExecutionSubstrateMount;
  toolchain_mounts : list ReifiedExecutionSubstrateMount;
  metadata_hashes : list (text * text);
  executable_hashes : list (text * text);
  command_providers : list ReifiedRustCommandProvider;
  cargo_config_files : list ReifiedCargoConfigInput;
}.

Record ReifiedNamespacePlan : Type := mkPlan {
  declared_host_mounts : list ReifiedHostMount;
  plan_substrate : list ReifiedExecutionSubstrateMount;
  plan_cwd : text;
  plan_argv : list text;
  plan_command_path : text;
  plan_rustup : option ReifiedRustupEnvironment;
  plan_scratch : text;
  plan_network : NetworkPosture;
}.
Record ReifiedNamespacePlanInput : Type := mkPlanInput {
  in_declarations : list ReifiedMountDeclaration;
  in_cwd : text;
  in_argv : list text;
  in_command_path : text;
  in_rustup : option ReifiedRustupEnvironment;
  in_network : NetworkPosture;
  in_substrate : list ReifiedExecutionSubstrateMount;
  in_scratch : text;
}.

Inductive ReifiedNamespacePlanError : Type :=
  | RelativePath (kind path : text)
  | ParentPath (kind path : text)
  | RootNamespacePath
  | RootHostSourcePath (kind : text)
  | NamespaceMountOverlap (parent child : text)
  | ReadOnlyHostMountOverlapsWritableMount (read_only writable : text)
  | WritableHostMountOverlapsExecutionSubstrate (writable substrate : text)
  | CwdOutsideView (cwd : text).

Definition Planned (A : Type) : Type := ReifiedNamespacePlanError + A.
Global Instance planned_ret : MRet Planned := λ A a, inr a.
Global Instance planned_bind : MBind Planned := λ A B f r,
  match r with inl e => inl e | inr a => f a end.
(** [for x in l { f(x)?; }] and the loops that build a vector *)
Fixpoint each {A} (f : A → Planned unit) (l : list A) : Planned unit :=
  match l with [] => mret tt | x :: l' => f x;; each f l' end.
Fixpoint map_each {A B} (f : A → Planned B) (l : list A) : Planned (list B) :=
  match l with [] => mret [] | x :: l' => y ← f x; ys ← map_each f l'; mret (y :: ys) end.

(** ** Paths *)

Definition contains_parent_component (path : text) : bool :=
  existsb (λ c, bool_decide (c = ParentDir)) (components path).
Definition paths_overlap (a b : text) : bool :=
  path_eq a b || path_starts_with a b || path_starts_with b a.

Definition component_text (c : Component) : text :=
  match c with
  | RootDir => lit "/"
  | CurDir => lit "."
  | ParentDir => lit ".."
  | Normal n => n
  end.
(** The path of components that a prefix was stripped from *)
Definition suffix_path (cs : list Component) : text := join_slash (component_text <$> cs).

Definition validate_absolute_path (path kind : text) : Planned unit :=
  if negb (is_absolute path) then inl (RelativePath kind path)
  else if contains_parent_component path then inl (ParentPath kind path)
  else mret tt.
Definition validate_namespace_path (path : text) : Planned unit :=
  validate_absolute_path path (lit "namespace");;
  if path_eq path (lit "/") then inl RootNamespacePath else mret tt.

(** [for &b in &paths[index + 1..]] *)
Fixpoint overlap_with (a : text) (rest : list text) : Planned unit :=
  match rest with
  | [] => mret tt
  | b :: rest' =>
      if path_eq a b || path_starts_with b a then inl (NamespaceMountOverlap a b)
      else if path_starts_with a b then inl (NamespaceMountOverlap b a)
      else overlap_with a rest'
  end.
Fixpoint validate_no_overlapping_namespace_paths (paths : list text) : Planned unit :=
  match paths with
  | [] => mret tt
  | a :: rest => overlap_with a rest;; validate_no_overlapping_namespace_paths rest
  end.

Section plan.
Context `{HostFs}.

(** The loop over the ancestors of a path that has no canonical form *)
Fixpoint canonical_ancestor (fuel : nat) (path : text) (ancestor : option text) : text :=
  match fuel, ancestor with
  | S f, Some parent =>
      match real_path parent, strip_path_prefix path parent with
      | Some canonical_parent, Some suffix => path_join canonical_parent (suffix_path suffix)
      | _, _ => canonical_ancestor f path (path_parent parent)
      end
  | _, _ => path
  end.
Definition canonicalize_existing_host_path (path : text) : text :=
  match real_path path with
  | Some canonical => canonical
  | None => canonical_ancestor (length path) path (path_parent path)
  end.
Definition validate_and_normalize_host_source_path (path kind : text) : Planned text :=
  validate_absolute_path path kind;;
  let normalized := canonicalize_existing_host_path path in
  if path_eq normalized (lit "/") then inl (RootHostSourcePath kind) else mret normalized.

(** [filter(..).max_by_key(..)]: the last of the deepest *)
Definition deepest (best : option ReifiedHostMount) (m : ReifiedHostMount) :
    option ReifiedHostMount :=
  match best with
  | Some b => if (length (components (rm_host m)) <? length (components (rm_host b)))%nat
              then Some b else Some m
  | None => Some m
  end.
Definition translate_host_path_with_mounts (mounts : list ReifiedHostMount) (host_path : text) :
    option text :=
  if negb (is_absolute host_path) || contains_parent_component host_path then None
  else match foldl deepest None (filter (λ m, path_starts_with host_path (rm_host m) = true) mounts) with
       | None => None
       | Some m =>
           match strip_path_prefix host_path (rm_host m) with
           | None => None
           | Some [] => Some (rm_path m)
           | Some suffix => Some (path_join (rm_path m) (suffix_path suffix))
           end
       end.

Definition read_only_projection_agrees (mount : ReifiedHostMount)
    (substrate : ReifiedExecutionSubstrateMount) : bool :=
  if access_is_writable (rm_access mount) then false
  else match strip_path_prefix (rm_path mount) (sub_path substrate) with
       | Some suffix =>
           path_eq (canonicalize_existing_host_path (path_join (sub_host substrate) (suffix_path suffix)))
             (rm_host mount)
       | None =>
           match strip_path_prefix (sub_path substrate) (rm_path mount) with
           | Some suffix =>
               path_eq (canonicalize_existing_host_path (path_join (rm_host mount) (suffix_path suffix)))
                 (sub_host substrate)
           | None => false
           end
       end.

Definition validate_scratch_tmp_overlap (scratch : text) (host_mounts : list ReifiedHostMount)
    (virtual_mounts : list text) (substrate : list ReifiedExecutionSubstrateMount) : Planned unit :=
  each (λ path, validate_no_overlapping_namespace_paths [scratch; path])
    (filter (λ path, path_eq path scratch = true ∨ path_starts_with path scratch = false)
       (rm_path <$> host_mounts)
     ++ virtual_mounts ++ (sub_path <$> substrate)).

Fixpoint validate_no_mixed_access_host_mount_overlap (mounts : list ReifiedHostMount) : Planned unit :=
  match mounts with
  | [] => mret tt
  | a :: rest =>
      each (λ b,
        if negb (paths_overlap (rm_host a) (rm_host b)) then mret tt
        else match access_is_writable (rm_access a), access_is_writable (rm_access b) with
             | true, false => inl (ReadOnlyHostMountOverlapsWritableMount (rm_host b) (rm_host a))
             | false, true => inl (ReadOnlyHostMountOverlapsWritableMount (rm_host a) (rm_host b))
             | _, _ => mret tt
             end) rest;;
      validate_no_mixed_access_host_mount_overlap rest
  end.
Definition validate_no_writable_mount_over_execution_substrate (mounts : list ReifiedHostMount)
    (substrate : list ReifiedExecutionSubstrateMount) : Planned unit :=
  each (λ mount,
    each (λ sub,
      if paths_overlap (rm_host mount) (sub_host sub)
      then inl (WritableHostMountOverlapsExecutionSubstrate (rm_host mount) (sub_host sub))
      else mret tt) substrate)
    (filter (λ m, access_is_writable (rm_access m) = true) mounts).

(** ** Deriving a plan *)

(** The loop over the declarations: host mounts and paths of virtual ones *)
Fixpoint split_declarations (ds : list ReifiedMountDeclaration) :
    Planned (list ReifiedHostMount * list text) :=
  match ds with
  | [] => mret ([], [])
  | d :: ds' =>
      validate_namespace_path (decl_path d);;
      match decl_source d with
      | HostSource host =>
          host ← validate_and_normalize_host_source_path host (lit "host mount");
          r ← split_declarations ds';
          mret (mkReifiedMount (decl_path d) host (decl_access d) :: r.1, r.2)
      | VirtualSource =>
          r ← split_declarations ds';
          mret (r.1, decl_path d :: r.2)
      end
  end.
Definition normalize_substrate (m : ReifiedExecutionSubstrateMount) :
    Planned ReifiedExecutionSubstrateMount :=
  validate_namespace_path (sub_path m);;
  host ← validate_and_normalize_host_source_path (sub_host m) (lit "execution substrate");
  mret (mkSubstrate (sub_path m) host).

Definition derive (input : ReifiedNamespacePlanInput) : Planned ReifiedNamespacePlan :=
  split ← split_declarations (in_declarations input);
  let '(mounts, virtuals) := split in
  substrate ← map_each normalize_substrate (in_substrate input);
  validate_namespace_path (in_scratch input);;
  validate_absolute_path (in_cwd input) (lit "cwd");;
  let projected_cwd := canonicalize_existing_host_path (in_cwd input) in
  validate_no_overlapping_namespace_paths ((rm_path <$> mounts) ++ virtuals);;
  validate_no_overlapping_namespace_paths ((sub_path <$> substrate) ++ virtuals);;
  each (λ mount, each (λ sub,
    if read_only_projection_agrees mount sub then mret tt
    else validate_no_overlapping_namespace_paths [rm_path mount; sub_path sub]) substrate) mounts;;
  validate_scratch_tmp_overlap (in_scratch input) mounts virtuals substrate;;
  validate_no_mixed_access_host_mount_overlap mounts;;
  validate_no_writable_mount_over_execution_substrate mounts substrate;;
  match translate_host_path_with_mounts mounts projected_cwd with
  | None => inl (CwdOutsideView (in_cwd input))
  | Some cwd =>
      mret (mkPlan mounts substrate cwd (in_argv input) (in_command_path input) (in_rustup input)
              (in_scratch input) (in_network input))
  end.
Definition translate_projected_host_path (plan : ReifiedNamespacePlan) (host_path : text) : option text :=
  if negb (is_absolute host_path) || contains_parent_component host_path then None
  else translate_host_path_with_mounts (declared_host_mounts plan)
         (canonicalize_existing_host_path host_path).

(** ** The input *)

Definition default_execution_substrate : list ReifiedExecutionSubstrateMount :=
  (λ p, mkSubstrate (lit p) (lit p)) <$>
    ["/bin"; "/sbin"; "/usr/bin"; "/usr/sbin"; "/usr/local/bin"; "/usr/local/sbin"; "/lib"; "/lib64";
     "/usr/lib"; "/usr/libexec"; "/usr/lib64"; "/usr/local/lib"; "/usr/local/lib64"; "/etc/ssl";
     "/etc/alternatives"; "/etc/hosts"; "/etc/resolv.conf"].

(** [format!("..{index}")] for an index of a small range *)
Definition numbered (prefix : string) (index : nat) : text :=
  lit prefix ++ lit (pretty index).
(** [(0..=count).map(..).find(..)] *)
Definition first_free (count : nat) (candidate : nat → text) (taken : list text) : option text :=
  List.find (λ c, forallb (λ path, negb (paths_overlap path c)) taken) (candidate <$> seq 0 (S count)).

(** [ReifiedNamespacePlanInput::new]; [None] is the [expect] that a name is free *)
Definition plan_input_new (declarations : list ReifiedMountDeclaration) (cwd : text)
    (argv : list text) (network : NetworkPosture) : option ReifiedNamespacePlanInput :=
  let substrate := default_execution_substrate in
  let build scratch :=
    mkPlanInput declarations cwd argv LINUX_REIFIED_COMMAND_PATH None network substrate scratch in
  if existsb (λ d, path_eq (decl_path d) DEFAULT_SCRATCH_TMP_NAMESPACE_PATH) declarations then
    build <$> first_free (length declarations + length substrate) (numbered "/.alan-tmp-")
      (filter (λ p, path_eq p (lit "/") = false) ((decl_path <$> declarations) ++ (sub_path <$> substrate)))
  else Some (build DEFAULT_SCRATCH_TMP_NAMESPACE_PATH).
Definition with_command_path (i : ReifiedNamespacePlanInput) (path : text) : ReifiedNamespacePlanInput :=
  mkPlanInput (in_declarations i) (in_cwd i) (in_argv i) path (in_rustup i) (in_network i)
    (in_substrate i) (in_scratch i).
Definition with_execution_substrate (i : ReifiedNamespacePlanInput)
    (substrate : list ReifiedExecutionSubstrateMount) : ReifiedNamespacePlanInput :=
  mkPlanInput (in_declarations i) (in_cwd i) (in_argv i) (in_command_path i) (in_rustup i)
    (in_network i) substrate (in_scratch i).
Definition with_scratch_tmp_namespace_path (i : ReifiedNamespacePlanInput) (path : text) :
    ReifiedNamespacePlanInput :=
  mkPlanInput (in_declarations i) (in_cwd i) (in_argv i) (in_command_path i) (in_rustup i)
    (in_network i) (in_substrate i) path.
Definition primary_mount (host_root cwd : text) (argv : list text) (network : NetworkPosture) :
    option (Planned ReifiedNamespacePlan) :=
  derive <$> plan_input_new
    [declare_host DEFAULT_PRIMARY_MOUNT_NAMESPACE_PATH host_root MountReadWrite] cwd argv network.

(** [private_environment_root]; [None] is its [expect] *)
Definition private_environment_root (plan : ReifiedNamespacePlan) : option text :=
  first_free (length (declared_host_mounts plan))
    (λ index, path_join (plan_scratch plan) (numbered ".alan-env-" index))
    (rm_path <$> declared_host_mounts plan).
End plan.
