(* ===== verification/ReifiedPlanFacts.v ===== *)
(** * Theorems of native namespace plans

    A derived plan keeps its grants apart, translates paths through the deepest
    mount that holds them, and always finds a free private directory. *)
From stdpp Require Import pretty.
From S2P Require Import Prelude RustStd RustChars SandboxSyntax SandboxPaths Sandbox TextPathFacts SandboxFacts ReifiedPlan.

(** ** Overlap *)

Lemma paths_overlap_spec a b :
  paths_overlap a b = true ↔
  components a `prefix_of` components b ∨ components b `prefix_of` components a.
Proof.
  unfold paths_overlap, path_eq. rewrite !orb_true_iff, bool_decide_eq_true, !path_starts_with_spec.
  split; [intros [[->| ?]|?]; auto|intros [?|?]; auto].
Qed.
Lemma paths_overlap_comm a b : paths_overlap a b = paths_overlap b a.
Proof. apply eq_true_iff_eq. rewrite !paths_overlap_spec. tauto. Qed.

Lemma each_ok {A} (f : A → Planned unit) l u :
  each f l = inr u → ∀ x, x ∈ l → f x = inr tt.
Proof.
  induction l as [|y l IH]; [set_solver|]. simpl. destruct (f y) as [|[]] eqn:Hy; simpl; [done|].
  intros Hl x [->|Hx]%elem_of_cons; [done|]. by apply IH.
Qed.
Lemma overlap_with_ok a rest u :
  overlap_with a rest = inr u → ∀ b, b ∈ rest → paths_overlap a b = false.
Proof.
  induction rest as [|b rest IH]; [set_solver|]. simpl. unfold paths_overlap.
  destruct (path_eq a b) eqn:He; [done|]. destruct (path_starts_with b a) eqn:Hb; [done|].
  destruct (path_starts_with a b) eqn:Ha; [done|]. intros Hr x [->|Hx]%elem_of_cons; [|by apply IH].
  by rewrite He, Ha, Hb.
Qed.
(** Accepted paths are pairwise apart. *)
Lemma no_overlap_ok paths u i j a b :
  validate_no_overlapping_namespace_paths paths = inr u →
  paths !! i = Some a → paths !! j = Some b → i ≠ j → paths_overlap a b = false.
Proof.
  revert i j. induction paths as [|p paths IH]; [done|]. intros i j. simpl.
  destruct (overlap_with p paths) as [|[]] eqn:Ho; simpl; [done|]. intros Hr Hi Hj Hij.
  pose proof (overlap_with_ok _ _ _ Ho) as Hp. destruct i as [|i], j as [|j]; simplify_eq/=.
  - eapply Hp, list_elem_of_lookup_2, Hj.
  - rewrite paths_overlap_comm. eapply Hp, list_elem_of_lookup_2, Hi.
  - by eapply (IH i j); auto.
Qed.
Lemma no_overlap_pair_ok a b u :
  validate_no_overlapping_namespace_paths [a; b] = inr u → paths_overlap a b = false.
Proof. intros Hv. by apply (no_overlap_ok _ _ 0 1 _ _ Hv). Qed.
Lemma no_mixed_ok mounts u i j a b :
  validate_no_mixed_access_host_mount_overlap mounts = inr u →
  mounts !! i = Some a → mounts !! j = Some b → i ≠ j →
  access_is_writable (rm_access a) = true → access_is_writable (rm_access b) = false →
  paths_overlap (rm_host a) (rm_host b) = false.
Proof.
  revert i j. induction mounts as [|p mounts IH]; [done|]. intros i j. simpl.
  destruct (each _ mounts) as [|[]] eqn:Ho; simpl; [done|]. intros Hr Hi Hj Hij Ha Hb.
  pose proof (each_ok _ _ _ Ho) as Hp. destruct i as [|i], j as [|j]; simplify_eq/=.
  - specialize (Hp b (list_elem_of_lookup_2 _ _ _ Hj)). simpl in Hp.
    destruct (paths_overlap (rm_host a) _); [|done]. by rewrite Ha, Hb in Hp.
  - specialize (Hp a (list_elem_of_lookup_2 _ _ _ Hi)). simpl in Hp.
    rewrite paths_overlap_comm. destruct (paths_overlap (rm_host b) _); [|done]. by rewrite Ha, Hb in Hp.
  - by eapply (IH i j); auto.
Qed.

(** ** Translation *)

Lemma contains_parent_spec p : contains_parent_component p = false ↔ ParentDir ∉ components p.
Proof.
  unfold contains_parent_component. rewrite <-not_true_iff_false, existsb_exists. split.
  - intros Hn Hin. apply Hn. exists ParentDir. split; [by apply list_elem_of_In|done].
  - intros Hn (c & Hin & ->%bool_decide_eq_true). by apply Hn, list_elem_of_In.
Qed.
(** The components of an absolute path without [..] are its root and names. *)
Lemma plain_components p :
  is_absolute p = true → ParentDir ∉ components p →
  ∃ ns, components p = RootDir :: (Normal <$> ns) ∧ Forall is_name ns.
Proof.
  intros Habs Hdots. pose proof (component_is_name p) as Hn. revert Hdots Hn.
  destruct (absolute_inv _ Habs) as [body ->]. rewrite components_absolute.
  intros Hdots Hn. rewrite omap_pieces in *.
  set (qs := filter _ _) in *. exists qs. clearbody qs.
  assert (∀ q, q ∈ qs → is_lit q ".." = false) as Hq.
  { intros q Hin. destruct (is_lit q "..") eqn:Hq; [|done]. destruct Hdots. right.
    apply list_elem_of_fmap. exists q. by rewrite Hq. }
  assert ((λ p, if is_lit p ".." then ParentDir else Normal p) <$> qs = Normal <$> qs) as Heq.
  { apply list_fmap_ext. intros i q Hi%list_elem_of_lookup_2. by rewrite Hq. }
  rewrite Heq in *. split; [done|]. apply Forall_forall. intros q Hin. apply Hn. right. by apply list_elem_of_fmap_2.
Qed.
Lemma suffix_path_names ns : suffix_path (Normal <$> ns) = join_slash ns.
Proof. unfold suffix_path. rewrite <-list_fmap_compose. by rewrite list_fmap_id. Qed.
Lemma omap_names ns : Forall is_name ns → omap piece_component ns = Normal <$> ns.
Proof.
  induction 1 as [|n ns [_ Hn] _ IH]; [done|]. cbn [omap list_omap]. rewrite Hn. simpl. f_equal. exact IH.
Qed.
Lemma join_names_pieces ns :
  Forall is_name ns → omap piece_component (slash_pieces (join_slash ns)) = Normal <$> ns.
Proof.
  intros Hns. destruct (decide (ns = [])) as [->|Hne]; [done|]. rewrite slash_pieces_join; [by apply omap_names|done|].
  eapply Forall_impl; [exact Hns|]. by intros n [? _].
Qed.
Lemma join_names_relative ns : Forall is_name ns → is_absolute (join_slash ns) = false.
Proof.
  intros Hns. destruct Hns as [|n ns Hn Hns]; [done|].
  assert (n ≠ []) as Hne by (destruct Hn as [_ Hp]; by intros ->).
  destruct ns as [|n' ns]; [by apply name_not_absolute|].
  change (is_absolute (n ++ lit "/" ++ join_slash (n' :: ns)) = false).
  rewrite is_absolute_app by done. by apply name_not_absolute.
Qed.
Lemma components_join_suffix t ns :
  t ≠ [] → Forall is_name ns →
  components (path_join t (suffix_path (Normal <$> ns))) = components t ++ (Normal <$> ns).
Proof.
  intros Ht Hns. rewrite suffix_path_names. unfold path_join.
  rewrite join_names_relative, bool_decide_eq_false_2 by done. cbn [orb].
  destruct (ends_with_slash t) eqn:He; [|by rewrite components_slash, join_names_pieces].
  apply ends_with_slash_inv in He as [b ->]. rewrite <-app_assoc.
  destruct (decide (b = [])) as [->|Hb].
  - change ([] ++ lit "/" ++ join_slash ns) with (lit "/" ++ join_slash ns).
    rewrite components_absolute, join_names_pieces by done. done.
  - rewrite components_slash, join_names_pieces by done.
    pose proof (components_slash b [] Hb) as Hc. rewrite app_nil_r in Hc. rewrite Hc. simpl.
    by rewrite app_nil_r.
Qed.

(** What is left of a plain path below an absolute one is names. *)
Lemma plain_suffix p h suffix :
  is_absolute p = true → ParentDir ∉ components p → is_absolute h = true →
  components p = components h ++ suffix → ∃ ns, suffix = Normal <$> ns ∧ Forall is_name ns.
Proof.
  intros Habs Hdots [body ->]%absolute_inv Hc. destruct (plain_components p) as (ns & Hp & Hns); [done..|].
  rewrite Hp, components_absolute in Hc. injection Hc as Hc.
  apply fmap_app_inv in Hc as (ns1 & ns2 & _ & -> & ->). exists ns2. split; [done|].
  by apply Forall_app in Hns as [_ ?].
Qed.

(** The mount the fold picks holds the path, and none that does is deeper. *)
Definition depth (m : ReifiedHostMount) : nat := length (components (rm_host m)).
Lemma foldl_deepest ms : ∀ best,
  match foldl deepest best ms with
  | Some m => (m ∈ ms ∨ best = Some m) ∧ (∀ m', m' ∈ ms ∨ best = Some m' → (depth m' ≤ depth m)%nat)
  | None => best = None ∧ ms = []
  end.
Proof.
  induction ms as [|x ms IH]; intros best; simpl.
  { destruct best as [b|]; [|done]. split; [by right|]. intros m' [?|[= ->]]; [set_solver|lia]. }
  specialize (IH (deepest best x)). destruct (foldl deepest (deepest best x) ms) as [m|] eqn:Hf.
  2:{ destruct IH as [IH _]. exfalso. unfold deepest in IH. by repeat case_match. }
  destruct IH as [Hin Hmax]. split.
  - destruct Hin as [?|Hin]; [left; by right|]. unfold deepest in Hin.
    repeat case_match; simplify_eq; try (left; by left); by right.
  - assert ((∀ b, best = Some b → depth b ≤ depth m)%nat ∧ (depth x ≤ depth m)%nat) as [Hb Hx].
    { unfold deepest, depth in *. destruct best as [b|].
      - destruct (_ <? _)%nat eqn:Hlt.
        + apply Nat.ltb_lt in Hlt. pose proof (Hmax b (or_intror eq_refl)). split; [|lia].
          intros ? [= <-]. done.
        + apply Nat.ltb_ge in Hlt. pose proof (Hmax x (or_intror eq_refl)). split; [|done].
          intros ? [= <-]. lia.
      - split; [done|]. by apply Hmax; right. }
    intros m' [[->|Hm']%elem_of_cons|Hm']; [done|apply Hmax; by left|by apply Hb].
Qed.

Definition holds_path (m : ReifiedHostMount) (p : text) : Prop :=
  components (rm_host m) `prefix_of` components p.
Definition well_placed (m : ReifiedHostMount) : Prop :=
  is_absolute (rm_path m) = true ∧ is_absolute (rm_host m) = true.

Lemma translate_spec mounts p :
  Forall well_placed mounts → is_absolute p = true → ParentDir ∉ components p →
  match translate_host_path_with_mounts mounts p with
  | Some v => ∃ m suffix, m ∈ mounts ∧ components p = components (rm_host m) ++ suffix ∧
      components v = components (rm_path m) ++ suffix ∧
      ∀ m', m' ∈ mounts → holds_path m' p → (depth m' ≤ depth m)%nat
  | None => ∀ m, m ∈ mounts → ¬ holds_path m p
  end.
Proof.
  intros Hwp Habs Hdots. unfold translate_host_path_with_mounts.
  rewrite Habs. apply contains_parent_spec in Hdots as Hdots'. rewrite Hdots'. cbn [negb orb].
  pose proof (foldl_deepest (filter (λ m, path_starts_with p (rm_host m) = true) mounts) None) as Hd.
  destruct (foldl _ _ _) as [m|].
  2:{ destruct Hd as [_ Hd]. intros m Hm Hp. apply path_starts_with_spec in Hp.
      assert (m ∈ filter (λ m, path_starts_with p (rm_host m) = true) mounts) as Hin
        by by apply list_elem_of_filter.
      rewrite Hd in Hin. set_solver. }
  destruct Hd as [[Hm|?] Hmax]; [|done]. apply list_elem_of_filter in Hm as [Hp Hm].
  apply path_starts_with_spec in Hp as [suffix Hs].
  assert (strip_path_prefix p (rm_host m) = Some suffix) as -> by by apply strip_components_spec.
  assert (∀ m', m' ∈ mounts → holds_path m' p → (depth m' ≤ depth m)%nat) as Hdeep.
  { intros m' Hm' Hh. apply Hmax. left. apply list_elem_of_filter. split; [|done].
    by apply path_starts_with_spec. }
  destruct suffix as [|c suffix].
  { exists m, []. by rewrite !app_nil_r in *. }
  exists m, (c :: suffix). split_and!; [done|done| |done].
  rewrite Forall_forall in Hwp. destruct (Hwp m Hm) as [Hpath Hhost].
  destruct (plain_suffix p (rm_host m) (c :: suffix)) as (ns & Heq & Hns); [done..|].
  rewrite Heq. apply components_join_suffix; [|done]. intros Hnil. by rewrite Hnil in Hpath.
Qed.

(** ** A free name *)

(** Fewer takers than names: some name is free. *)
Lemma free_name {A B} (R : B → A → bool) (names : list A) (takers : list B) :
  NoDup names → (length takers < length names)%nat →
  (∀ b x y, b ∈ takers → x ∈ names → y ∈ names → R b x = true → R b y = true → x = y) →
  ∃ x, x ∈ names ∧ ∀ b, b ∈ takers → R b x = false.
Proof.
  revert names. induction takers as [|b takers IH]; intros names Hnd Hlen Hone.
  { destruct names as [|x names]; simpl in *; [lia|]. exists x. set_solver. }
  destruct (List.existsb (R b) names) eqn:Hb.
  - apply existsb_exists in Hb as (x & Hx%list_elem_of_In & Hbx).
    apply list_elem_of_split in Hx as (l1 & l2 & ->).
    destruct (IH (l1 ++ l2)) as (y & Hy & Hfree).
    + rewrite NoDup_app, NoDup_cons in Hnd. apply NoDup_app. set_solver.
    + rewrite !length_app in *. simpl in *. lia.
    + intros c u v Hc Hu Hv. apply Hone; set_solver.
    + exists y. split; [set_solver|]. intros c [->|Hc]%elem_of_cons; [|by apply Hfree].
      destruct (R b y) eqn:Hby; [|done].
      assert (y = x) as -> by (apply (Hone b); set_solver).
      rewrite NoDup_app, NoDup_cons in Hnd. set_solver.
  - destruct (IH names Hnd) as (y & Hy & Hfree); [simpl in *; lia| |].
    + intros c u v Hc Hu Hv. apply Hone; set_solver.
    + exists y. split; [done|]. intros c [->|Hc]%elem_of_cons; [|by apply Hfree].
      destruct (R b y) eqn:Hby; [|done]. exfalso. rewrite <-not_true_iff_false in Hb.
      apply Hb, existsb_exists. exists y. split; [by apply list_elem_of_In|done].
Qed.
Lemma first_free_some count candidate taken :
  (length taken ≤ count)%nat →
  (∀ p i j, p ∈ taken → paths_overlap p (candidate i) = true →
    paths_overlap p (candidate j) = true → i = j) →
  ∃ i, (i ≤ count)%nat ∧ first_free count candidate taken = Some (candidate i) ∧
    ∀ p, p ∈ taken → paths_overlap p (candidate i) = false.
Proof.
  intros Hlen Hone. unfold first_free.
  destruct (List.find _ _) as [c|] eqn:Hf.
  - apply find_some in Hf as [Hin Hfree]. apply list_elem_of_In, list_elem_of_fmap in Hin as (i & -> & Hi).
    exists i. split; [apply elem_of_seq in Hi; lia|]. split; [done|]. intros p Hp.
    rewrite forallb_forall in Hfree. apply negb_true_iff, Hfree, list_elem_of_In, Hp.
  - destruct (free_name (λ p i, paths_overlap p (candidate i)) (seq 0 (S count)) taken)
      as (i & Hi & Hfree); [apply NoDup_seq|rewrite length_seq; lia|intros; by eapply Hone|].
    eapply find_none in Hf; [|by apply list_elem_of_In, list_elem_of_fmap_2, Hi].
    apply not_true_iff_false in Hf. destruct Hf. apply forallb_forall. intros p Hp%list_elem_of_In.
    by rewrite Hfree.
Qed.

(** Numbered names are names, and different ones. *)
Definition slash_free (s : string) : Prop := contains_char (lit s) "/" = false.
Lemma lit_string c s : lit (String c s) = code c :: lit s.
Proof. done. Qed.
Lemma digits_slash_free x : ∀ s, slash_free s → slash_free (pretty_N_go x s).
Proof.
  induction (N.lt_wf_0 x) as [x _ IH]. intros s Hs. destruct (decide (x = 0%N)) as [->|Hx]; [done|].
  rewrite pretty_N_go_step by lia. apply IH; [apply N.div_lt; lia|].
  unfold slash_free in *. rewrite lit_string. unfold pretty_N_char. by repeat case_match.
Qed.
Lemma pretty_slash_free (n : nat) : slash_free (pretty n).
Proof. unfold pretty, pretty_nat, pretty, pretty_N. case_match; [done|]. by apply digits_slash_free. Qed.
Lemma lit_inj a b : lit a = lit b → a = b.
Proof.
  revert b. induction a as [|c a IH]; intros [|d b]; try done. rewrite !lit_string.
  intros [= Hc Hab]. f_equal; [|by apply IH]. unfold code in Hc.
  apply N2Z.inj, (f_equal ascii_of_N) in Hc.
  by rewrite !ascii_N_embedding in Hc.
Qed.
Lemma numbered_inj prefix i j : numbered prefix i = numbered prefix j → i = j.
Proof. intros ?%(inj (app (lit prefix)))%lit_inj. by apply (inj pretty). Qed.
Lemma numbered_is_name prefix i :
  slash_free prefix → (2 < length (lit prefix))%nat → is_name (numbered prefix i).
Proof.
  intros Hp Hlen. unfold is_name, piece_component, numbered.
  assert (∀ s, (length (lit s) ≤ 2)%nat → lit prefix ++ lit (pretty i) ≠ lit s) as Hne.
  { intros s Hs Heq. apply (f_equal length) in Heq. rewrite length_app in Heq. lia. }
  split; [unfold contains_char; rewrite existsb_app; apply orb_false_iff; split;
    [exact Hp|apply pretty_slash_free]|].
  rewrite bool_decide_eq_false_2 by (apply (Hne ""); simpl; lia).
  unfold is_lit. by rewrite !bool_decide_eq_false_2 by (apply Hne; simpl; lia).
Qed.
(** A path that does not cover the directory overlaps one of its names at most. *)
Lemma numbered_apart dir prefix p i j :
  slash_free prefix → (2 < length (lit prefix))%nat → ¬ components p `prefix_of` components dir →
  paths_overlap p (path_join dir (numbered prefix i)) = true →
  paths_overlap p (path_join dir (numbered prefix j)) = true → i = j.
Proof.
  intros Hs Hl Hcov. rewrite !paths_overlap_spec, !components_join by by apply numbered_is_name.
  assert (∀ n, components p `prefix_of` components dir ++ [Normal n] ∨
    components dir ++ [Normal n] `prefix_of` components p →
    components dir ++ [Normal n] `prefix_of` components p) as Hbelow.
  { intros n [Hp|]; [|done]. destruct Hp as [k Hk].
    destruct k as [|x k _] using rev_ind; [rewrite app_nil_r in Hk; by rewrite Hk|].
    rewrite app_assoc in Hk. apply app_inj_tail in Hk as [Hk _]. destruct Hcov. by exists k. }
  intros [k Hi]%Hbelow [l Hj]%Hbelow. rewrite Hi, <-!app_assoc in Hj.
  apply app_inv_head in Hj. simplify_eq/=. by eapply numbered_inj.
Qed.

(** ** What a derived plan guarantees *)

Ltac planned H :=
  match type of H with
  | context [mbind _ ?m] => let u := fresh "u" in let E := fresh "E" in
      destruct m as [?|u] eqn:E; [done|]; cbn [mbind planned_bind] in H
  end.

Section derived.
Context `{HostFs}.

(** The checks a plan went through, and what it is made of *)
Record Derived (input : ReifiedNamespacePlanInput) (plan : ReifiedNamespacePlan)
    (virtuals : list text) : Prop := mkDerived {
  d_split : split_declarations (in_declarations input) = inr (declared_host_mounts plan, virtuals);
  d_substrate : map_each normalize_substrate (in_substrate input) = inr (plan_substrate plan);
  d_cwd_ok : validate_absolute_path (in_cwd input) (lit "cwd") = inr tt;
  d_scratch_ok : validate_namespace_path (in_scratch input) = inr tt;
  d_paths : validate_no_overlapping_namespace_paths
    ((rm_path <$> declared_host_mounts plan) ++ virtuals) = inr tt;
  d_substrate_paths : validate_no_overlapping_namespace_paths
    ((sub_path <$> plan_substrate plan) ++ virtuals) = inr tt;
  d_projection m s : m ∈ declared_host_mounts plan → s ∈ plan_substrate plan →
    read_only_projection_agrees m s = false → paths_overlap (rm_path m) (sub_path s) = false;
  d_scratch : validate_scratch_tmp_overlap (in_scratch input) (declared_host_mounts plan) virtuals
    (plan_substrate plan) = inr tt;
  d_mixed : validate_no_mixed_access_host_mount_overlap (declared_host_mounts plan) = inr tt;
  d_writable : validate_no_writable_mount_over_execution_substrate (declared_host_mounts plan)
    (plan_substrate plan) = inr tt;
  d_cwd : translate_host_path_with_mounts (declared_host_mounts plan)
    (canonicalize_existing_host_path (in_cwd input)) = Some (plan_cwd plan);
  d_scratch_eq : plan_scratch plan = in_scratch input;
}.

Lemma derive_inv input plan : derive input = inr plan → ∃ virtuals, Derived input plan virtuals.
Proof.
  unfold derive. intros Hd. planned Hd. destruct u as [mounts virtuals].
  do 9 planned Hd.
  destruct (translate_host_path_with_mounts _ _) as [cwd|] eqn:Hcwd; [|done].
  injection Hd as <-. exists virtuals. repeat match goal with u : () |- _ => destruct u end.
  constructor; cbn [declared_host_mounts plan_substrate plan_cwd plan_scratch]; try done.
  intros m s Hm Hs Hag. pose proof (each_ok _ _ _ E5 m Hm) as Hms.
  pose proof (each_ok _ _ _ Hms s Hs) as Hsub. cbn beta in Hsub. rewrite Hag in Hsub.
  by eapply no_overlap_pair_ok.
Qed.
Lemma scratch_ok scratch mounts virtuals substrate u :
  validate_scratch_tmp_overlap scratch mounts virtuals substrate = inr u →
  (∀ m, m ∈ mounts → paths_overlap scratch (rm_path m) = true →
    components scratch `prefix_of` components (rm_path m) ∧
    components (rm_path m) ≠ components scratch) ∧
  (∀ p, p ∈ virtuals ++ (sub_path <$> substrate) → paths_overlap scratch p = false).
Proof.
  unfold validate_scratch_tmp_overlap. intros Hv. pose proof (each_ok _ _ _ Hv) as Hv'.
  assert (∀ p, p ∈ filter (λ path, path_eq path scratch = true ∨ path_starts_with path scratch = false)
    (rm_path <$> mounts) ++ virtuals ++ (sub_path <$> substrate) → paths_overlap scratch p = false) as Ho.
  { intros p Hp. by eapply no_overlap_pair_ok, Hv'. }
  split; [|intros p Hp; apply Ho, elem_of_app; by right].
  intros m Hm Hov. destruct (path_starts_with (rm_path m) scratch) eqn:Hs,
    (path_eq (rm_path m) scratch) eqn:He.
  2:{ apply path_starts_with_spec in Hs. by apply bool_decide_eq_false in He. }
  all: rewrite Ho in Hov; [done|]; apply elem_of_app; left; apply list_elem_of_filter;
    (split; [tauto|by apply list_elem_of_fmap_2]).
Qed.

Lemma writable_ok mounts substrate u m s :
  validate_no_writable_mount_over_execution_substrate mounts substrate = inr u →
  m ∈ mounts → access_is_writable (rm_access m) = true → s ∈ substrate →
  paths_overlap (rm_host m) (sub_host s) = false.
Proof.
  intros Hv Hm Hw Hs. pose proof (each_ok _ _ _ Hv m) as Hm'. cbn beta in Hm'.
  assert (each (λ sub, if paths_overlap (rm_host m) (sub_host sub)
    then inl (WritableHostMountOverlapsExecutionSubstrate (rm_host m) (sub_host sub))
    else mret tt) substrate = inr tt) as He by by apply Hm', list_elem_of_filter.
  pose proof (each_ok _ _ _ He s Hs) as Hs'. cbn beta in Hs'. by destruct (paths_overlap _ _).
Qed.

(** C21: A plan that is derived keeps what it installs apart. Two mounts never share a
    part of the view; the host directory of a writable mount shares nothing with
    that of a read-only mount or of the execution substrate, and no part of the
    view with the substrate; and the private scratch is covered by no mount, apart
    from the substrate, and reaches a mount only where that is strictly below it. *)
Theorem plan_keeps_grants_apart input plan :
  derive input = inr plan →
  (∀ i j a b, declared_host_mounts plan !! i = Some a → declared_host_mounts plan !! j = Some b →
    i ≠ j → paths_overlap (rm_path a) (rm_path b) = false ∧
    (access_is_writable (rm_access a) = true → access_is_writable (rm_access b) = false →
      paths_overlap (rm_host a) (rm_host b) = false)) ∧
  (∀ m s, m ∈ declared_host_mounts plan → access_is_writable (rm_access m) = true →
    s ∈ plan_substrate plan → paths_overlap (rm_host m) (sub_host s) = false ∧
    paths_overlap (rm_path m) (sub_path s) = false) ∧
  (∀ m, m ∈ declared_host_mounts plan → paths_overlap (plan_scratch plan) (rm_path m) = true →
    components (plan_scratch plan) `prefix_of` components (rm_path m) ∧
    components (rm_path m) ≠ components (plan_scratch plan)) ∧
  (∀ s, s ∈ plan_substrate plan → paths_overlap (plan_scratch plan) (sub_path s) = false).
Proof.
  intros (virtuals & D)%derive_inv. rewrite (d_scratch_eq _ _ _ D).
  destruct (scratch_ok _ _ _ _ _ (d_scratch _ _ _ D)) as [Hscratch Hsub]. split_and!.
  - intros i j a b Ha Hb Hij. split; [|intros; by eapply (no_mixed_ok _ _ i j); [apply D|..]].
    eapply (no_overlap_ok _ _ i j); [apply (d_paths _ _ _ D)|..|done];
      apply lookup_app_l_Some; rewrite list_lookup_fmap; by simplify_option_eq.
  - intros m s Hm Hw Hs. split; [by eapply writable_ok; [apply D|..]|].
    apply (d_projection _ _ _ D m s Hm Hs). unfold read_only_projection_agrees. by rewrite Hw.
  - exact Hscratch.
  - intros s Hs. apply Hsub, elem_of_app. right. by apply list_elem_of_fmap_2.
Qed.

(** The private environment directory of a derived plan exists: among the
    numbered names of the scratch there is one no mount covers or is below, so the
    search never runs out, and the directory it returns is directly in the scratch. *)
Theorem private_environment_is_free input plan :
  derive input = inr plan →
  ∃ i root, private_environment_root plan = Some root ∧
    components root = components (plan_scratch plan) ++ [Normal (numbered ".alan-env-" i)] ∧
    ∀ m, m ∈ declared_host_mounts plan → paths_overlap (rm_path m) root = false.
Proof.
  intros (virtuals & D)%derive_inv.
  destruct (scratch_ok _ _ _ _ _ (d_scratch _ _ _ D)) as [Hscratch _].
  rewrite <-(d_scratch_eq _ _ _ D) in Hscratch.
  destruct (first_free_some (length (declared_host_mounts plan))
    (λ index, path_join (plan_scratch plan) (numbered ".alan-env-" index))
    (rm_path <$> declared_host_mounts plan)) as (i & _ & Hi & Hfree).
  - by rewrite length_fmap.
  - intros p x y (m & -> & Hm)%list_elem_of_fmap.
    apply numbered_apart; [done|simpl; lia|]. intros Hcov.
    destruct (Hscratch m Hm) as [Hbelow Hne].
    { apply paths_overlap_spec. by right. }
    apply Hne. by apply prefix_length_eq; [|apply prefix_length].
  - exists i, (path_join (plan_scratch plan) (numbered ".alan-env-" i)). split; [done|].
    split; [apply components_join, numbered_is_name; [done|simpl; lia]|].
    intros m Hm. apply Hfree. by apply list_elem_of_fmap_2.
Qed.
End derived.

(** ** Where paths of the host are found in the view *)

(** What is relied on of [canonicalize]: its result is absolute and has no [..]. *)
Class CanonicalFs `{HostFs} : Prop := {
  canonical_plain p q : real_path p = Some q → is_absolute q = true ∧ ParentDir ∉ components q;
}.

Lemma validate_absolute_ok p kind u :
  validate_absolute_path p kind = inr u → is_absolute p = true ∧ ParentDir ∉ components p.
Proof.
  unfold validate_absolute_path. destruct (is_absolute p); [|done].
  destruct (contains_parent_component p) eqn:Hc; [done|]. by apply contains_parent_spec in Hc.
Qed.

Section translated.
Context `{CanonicalFs}.

Lemma canonical_ancestor_plain fuel p : ∀ ancestor,
  is_absolute p = true → ParentDir ∉ components p →
  (∀ a, ancestor = Some a → is_absolute a = true) →
  is_absolute (canonical_ancestor fuel p ancestor) = true ∧
  ParentDir ∉ components (canonical_ancestor fuel p ancestor).
Proof.
  induction fuel as [|fuel IH]; intros [a|] Habs Hdots Ha; simpl; try done.
  specialize (Ha a eq_refl).
  assert (∀ b, path_parent a = Some b → is_absolute b = true) as Hup.
  { intros b Hb. by destruct (parent_absolute a b Ha Hb). }
  destruct (real_path a) as [q|] eqn:Hq; [|by apply IH].
  destruct (strip_path_prefix p a) as [suffix|] eqn:Hs; [|by apply IH].
  destruct (canonical_plain a q Hq) as [Hqa Hqd]. split; [by apply absolute_join|].
  apply strip_components_spec in Hs.
  destruct (plain_suffix p a suffix) as (ns & -> & Hns); [done..|].
  rewrite components_join_suffix; [|by intros ->|done].
  rewrite elem_of_app, list_elem_of_fmap. intros [?|(? & ? & _)]; done.
Qed.
Lemma canonicalize_plain p :
  is_absolute p = true → ParentDir ∉ components p →
  is_absolute (canonicalize_existing_host_path p) = true ∧
  ParentDir ∉ components (canonicalize_existing_host_path p).
Proof.
  intros Habs Hdots. unfold canonicalize_existing_host_path.
  destruct (real_path p) as [q|] eqn:Hq; [by eapply canonical_plain|].
  apply canonical_ancestor_plain; [done..|]. intros a Ha. by destruct (parent_absolute p a Habs Ha).
Qed.

Lemma split_well_placed ds ms vs : split_declarations ds = inr (ms, vs) → Forall well_placed ms.
Proof.
  revert ms vs. induction ds as [|d ds IH]; intros ms vs; simpl; [by intros [= <- <-]|].
  intros Hd. planned Hd. destruct (decl_source d) as [host|].
  - do 2 planned Hd. destruct u1 as [ms' vs']. injection Hd as <- <-. constructor; [|by eapply IH].
    unfold validate_namespace_path in E. planned E. apply validate_absolute_ok in E2 as [Hp _].
    unfold validate_and_normalize_host_source_path in E0. planned E0.
    apply validate_absolute_ok in E2 as [Hh Hd].
    simpl in E0. destruct (path_eq (canonicalize_existing_host_path host) (lit "/")); [done|].
    injection E0 as <-. split; [done|]. by apply canonicalize_plain.
  - planned Hd. destruct u0 as [ms' vs']. injection Hd as <- <-. by eapply IH.
Qed.

(** A path of the host is found in the view of a derived plan exactly if a
    mount holds its canonical form; it is then that mount's place in the view,
    followed by what the path has below the mount's directory, for the deepest
    such mount. The working directory of the plan is found this way. *)
Theorem translation_is_deepest_mount input plan host :
  derive input = inr plan → is_absolute host = true → ParentDir ∉ components host →
  let real := canonicalize_existing_host_path host in
  match translate_projected_host_path plan host with
  | Some view => ∃ m suffix, m ∈ declared_host_mounts plan ∧
      components real = components (rm_host m) ++ suffix ∧
      components view = components (rm_path m) ++ suffix ∧
      (∀ m', m' ∈ declared_host_mounts plan → holds_path m' real → (depth m' ≤ depth m)%nat)
  | None => ∀ m, m ∈ declared_host_mounts plan → ¬ holds_path m real
  end ∧
  translate_projected_host_path plan (in_cwd input) = Some (plan_cwd plan).
Proof.
  intros (virtuals & D)%derive_inv Habs Hdots. simpl. unfold translate_projected_host_path. split.
  - rewrite Habs. pose proof Hdots as ->%contains_parent_spec. cbn [negb orb].
    destruct (canonicalize_plain host Habs Hdots).
    apply translate_spec; [by eapply split_well_placed, D|done..].
  - destruct (validate_absolute_ok _ _ _ (d_cwd_ok _ _ _ D)) as [-> ->%contains_parent_spec].
    apply D.
Qed.
End translated.

(** ** The input always finds a scratch *)

(** Only the empty path has no components. *)
Lemma components_nil t : components t = [] → t = [].
Proof.
  destruct t as [|c t]; [done|]. unfold components, starts_cur_dir. rewrite is_absolute_head.
  destruct (is_char c "/") eqn:Hc; [done|]. cbn [slash_pieces]. rewrite Hc.
  pose proof (slash_pieces_ne t). destruct (slash_pieces t) as [|p ps]; [done|].
  destruct (is_lit (c :: p) ".") eqn:Hl; [done|]. cbn [omap list_omap app]. unfold piece_component.
  rewrite Hl, bool_decide_eq_false_2 by done. cbn [orb]. by destruct (is_lit (c :: p) "..").
Qed.
Lemma alan_tmp i : numbered "/.alan-tmp-" i = path_join (lit "/") (numbered ".alan-tmp-" i).
Proof. reflexivity. Qed.

(** Unless a declaration's path is empty, a scratch is found, and where it had to be
    renamed it overlaps no declared path but the root. *)
Lemma plan_input_total ds cwd argv network :
  (∀ d, d ∈ ds → decl_path d ≠ []) →
  ∃ input, plan_input_new ds cwd argv network = Some input ∧ in_declarations input = ds ∧
    (in_scratch input = DEFAULT_SCRATCH_TMP_NAMESPACE_PATH ∨
     ∀ d, d ∈ ds → path_eq (decl_path d) (lit "/") = false →
       paths_overlap (decl_path d) (in_scratch input) = false).
Proof.
  intros Hne. unfold plan_input_new.
  destruct (existsb _ ds); [|eexists; split; [done|]; split; [done|by left]].
  set (taken := filter _ _).
  destruct (first_free_some (length ds + length default_execution_substrate)
    (numbered "/.alan-tmp-") taken) as (i & _ & -> & Hfree).
  - unfold taken. etrans; [apply length_filter|]. by rewrite length_app, !length_fmap.
  - intros p x y [Hroot Hp]%list_elem_of_filter. rewrite !alan_tmp.
    apply numbered_apart; [done|simpl; lia|]. change (components (lit "/")) with [RootDir].
    intros [k Hk]. assert (components p = [RootDir] ∨ components p = []) as [Hc|Hc].
    { destruct (components p) as [|c [|]]; simplify_eq/=; auto. }
    + unfold path_eq in Hroot. rewrite Hc in Hroot. done.
    + apply elem_of_app in Hp as [Hp|Hp].
      * apply list_elem_of_fmap in Hp as (d & -> & Hd). by apply (Hne d Hd), components_nil.
      * apply list_elem_of_fmap in Hp as (s & -> & Hs).
        unfold default_execution_substrate in Hs. apply list_elem_of_fmap in Hs as (q & -> & Hq).
        repeat (apply elem_of_cons in Hq as [->|Hq]; [done|]). set_solver.
  - eexists. split; [done|]. split; [done|]. right. intros d Hd Hr. apply Hfree.
    apply list_elem_of_filter. split; [done|]. apply elem_of_app. left. by apply list_elem_of_fmap_2.
Qed.

(** A declaration with the empty path covers every name, so that with one at the
    default scratch the search runs out before the paths are checked. *)
Example empty_path_leaves_no_scratch :
  plan_input_new [virtual_mount (lit "/tmp"); virtual_mount []] (lit "/") [] NetworkDeny = None.
Proof. by vm_compute. Qed.

(** ** On a small host *)

Lemma follow_demo cs : ∀ here r,
  here ∈ [] :: demo_nodes → follow demo_nodes here cs = Some r → r ∈ [] :: demo_nodes.
Proof.
  induction cs as [|c cs IH]; intros here r Hin; cbn [follow]; [by intros [= <-]|].
  destruct c as [| | |n].
  - apply IH. by left.
  - by apply IH.
  - apply IH. revert here Hin. apply Forall_forall. vm_compute. repeat constructor.
  - case_bool_decide as Hn; [|done]. apply IH. by right.
Qed.
Global Instance demo_canonical : @CanonicalFs demo_fs.
Proof.
  constructor. intros p q Hq. simpl in Hq. destruct (is_absolute p); [|done].
  destruct (follow demo_nodes [] (components p)) as [r|] eqn:Hr; [|done]. injection Hq as <-.
  apply follow_demo in Hr; [|by left]. revert r Hr. apply Forall_forall.
  repeat (constructor; [split; [by vm_compute|]; vm_compute; set_solver|]). constructor.
Qed.
(** A writable project, a read-only directory placed where the private environment
    would go first, and a working directory below a file that does not exist *)
Definition demo_plan_input : ReifiedNamespacePlanInput :=
  mkPlanInput
    [declare_host (lit "/mnt/source") (lit "/w/./p") MountReadWrite;
     declare_host (lit "/tmp/.alan-env-0") (lit "/r") MountReadOnly; virtual_mount (lit "/agent")]
    (lit "/w/p/new//dir") [lit "ls"] LINUX_REIFIED_COMMAND_PATH None NetworkDeny
    default_execution_substrate DEFAULT_SCRATCH_TMP_NAMESPACE_PATH.
Definition demo_plan : ReifiedNamespacePlan :=
  mkPlan
    [mkReifiedMount (lit "/mnt/source") (lit "/w/p") MountReadWrite;
     mkReifiedMount (lit "/tmp/.alan-env-0") (lit "/r") MountReadOnly]
    default_execution_substrate (lit "/mnt/source/new/dir") [lit "ls"] LINUX_REIFIED_COMMAND_PATH None
    DEFAULT_SCRATCH_TMP_NAMESPACE_PATH NetworkDeny.
Lemma demo_derived : @derive demo_fs demo_plan_input = inr demo_plan.
Proof. by vm_compute. Qed.

Lemma plan_keeps_grants_apart_witness :
  paths_overlap (lit "/w/p") (lit "/r") = false ∧ paths_overlap (lit "/tmp") (lit "/usr/bin") = false.
Proof.
  destruct (@plan_keeps_grants_apart demo_fs demo_plan_input demo_plan demo_derived)
    as (Hmounts & _ & _ & Hscratch).
  split.
  - by apply (Hmounts 0%nat 1%nat _ _ eq_refl eq_refl).
  - apply (Hscratch (mkSubstrate (lit "/usr/bin") (lit "/usr/bin"))). by vm_compute; repeat constructor.
Defined.
Lemma private_environment_is_free_witness :
  ∃ root, private_environment_root demo_plan = Some root ∧
    paths_overlap (lit "/tmp/.alan-env-0") root = false.
Proof.
  destruct (@private_environment_is_free demo_fs demo_plan_input demo_plan demo_derived)
    as (i & root & Hroot & _ & Hfree).
  exists root. split; [exact Hroot|].
  apply (Hfree (mkReifiedMount (lit "/tmp/.alan-env-0") (lit "/r") MountReadOnly)). by right; left.
Defined.
Lemma translation_is_deepest_mount_witness :
  @translate_projected_host_path demo_fs demo_plan (lit "/w/p/new//dir") = Some (lit "/mnt/source/new/dir").
Proof.
  apply (@translation_is_deepest_mount demo_fs demo_canonical demo_plan_input demo_plan (lit "/w/p") demo_derived);
    [done|by apply contains_parent_spec].
Defined.
