(* ===== verification/BootUnits.v ===== *)
(** * Boot units of the service manager (crates/service-manager/src/boot_unit.rs)

    The description of a system service, its validation, its restart policy and
    backoff, and the manifest of all units with the order they start in. The TOML
    parser is a parameter; the documents of [system/boot] are given as the units
    they describe. *)
From S2P Require Import Prelude RustStd RustText.

Definition MAX_TIMEOUT_MS : Z := 300000.
Definition MAX_RESTART_ATTEMPTS : Z := 32.

Inductive RestartPolicy : Set := RestartNever | RestartOnFailure | RestartAlways.
Record BootDescriptor : Type := mkBootDescriptor { desc_number : Z; desc_path : string }.
Inductive MountAccess : Set := MountForRead | MountForWrite.
Record BootMount : Type := mkBootMount {
  bm_path : string; bm_source : string; bm_access : MountAccess }.

Record BootUnit : Type := mkUnit {
  unit_name : string;
  unit_executable : string;
  unit_descriptors : list BootDescriptor;
  unit_mounts : list BootMount;
  after : list string;
  required : bool;
  timeout_ms : Z;
  restart : RestartPolicy;
  restart_limit : Z;
  initial_backoff_ms : Z;
  max_backoff_ms : Z;
  stable_reset_ms : Z;
  published_handles : list string;
}.

Inductive BootError : Type :=
  | BadDocument
  | InvalidUnitName (name : string)
  | ExecutableNotAbsolute (owner : string)
  | TimeoutOutOfRange (owner : string)
  | RestartBudgetTooLarge (owner : string)
  | InvalidBackoff (owner : string)
  | InvalidStableReset (owner : string)
  | InvalidListedName (owner label name : string)
  | RepeatedListedName (owner label name : string)
  | DependsOnItself (owner : string)
  | InvalidDescriptorPath (owner : string)
  | ReservedDescriptor (owner : string)
  | RepeatedDescriptorNumber (owner : string) (number : Z)
  | RepeatedDescriptorPath (owner path : string)
  | InvalidUnitMount (owner : string)
  | RepeatedMountPath (owner path : string)
  | DuplicateUnit
  | EmptyUnitTree
  | UnknownDependency (owner name : string)
  | DependencyCycle.

(** [Result] of the file; [ensure!(c, e)?] is [boot_ensure c e;;] *)
Definition Boot (A : Type) : Type := BootError + A.
Global Instance boot_ret : MRet Boot := λ A a, inr a.
Global Instance boot_bind : MBind Boot := λ A B f r,
  match r with inl e => inl e | inr a => f a end.
Definition boot_ensure (c : bool) (e : BootError) : Boot unit := if c then inr tt else inl e.

(** ** Names and paths *)

(** [byte.is_ascii_lowercase() || byte.is_ascii_digit() || byte == b'-'] *)
Definition name_byte (b : byte) : bool :=
  let n := Byte.to_N b in
  ((97 <=? n) && (n <=? 122) || (48 <=? n) && (n <=? 57) || (n =? 45))%N.
Definition unit_valid_name (name : string) : bool :=
  negb (bool_decide (name = "")) && forallb name_byte (into_bytes name).
Definition valid_absolute_path (path : string) : bool :=
  starts_with "/" path && negb (bool_decide (path = "/"))
  && negb (existsb (λ c, bool_decide (c = ".") || bool_decide (c = "..")) (split_on "/" path)).

Fixpoint unique_names_go (owner label : string) (seen names : list string) : Boot unit :=
  match names with
  | [] => mret tt
  | name :: rest =>
      boot_ensure (unit_valid_name name) (InvalidListedName owner label name);;
      boot_ensure (negb (bool_decide (name ∈ seen))) (RepeatedListedName owner label name);;
      unique_names_go owner label (name :: seen) rest
  end.
Definition unique_valid_names (owner label : string) (names : list string) : Boot unit :=
  unique_names_go owner label [] names.

(** ** One unit *)

Fixpoint descriptors_ok (owner : string) (numbers : list Z) (paths : list string)
    (ds : list BootDescriptor) : Boot unit :=
  match ds with
  | [] => mret tt
  | d :: ds' =>
      boot_ensure (valid_absolute_path (desc_path d)) (InvalidDescriptorPath owner);;
      boot_ensure (3 <=? desc_number d) (ReservedDescriptor owner);;
      boot_ensure (negb (bool_decide (desc_number d ∈ numbers)))
        (RepeatedDescriptorNumber owner (desc_number d));;
      boot_ensure (negb (bool_decide (desc_path d ∈ paths))) (RepeatedDescriptorPath owner (desc_path d));;
      descriptors_ok owner (desc_number d :: numbers) (desc_path d :: paths) ds'
  end.
Fixpoint unit_mounts_ok (owner : string) (paths : list string) (ms : list BootMount) : Boot unit :=
  match ms with
  | [] => mret tt
  | m :: ms' =>
      boot_ensure (valid_absolute_path (bm_path m) && valid_absolute_path (bm_source m))
        (InvalidUnitMount owner);;
      boot_ensure (negb (bool_decide (bm_path m ∈ paths))) (RepeatedMountPath owner (bm_path m));;
      unit_mounts_ok owner (bm_path m :: paths) ms'
  end.

Definition unit_validate (u : BootUnit) : Boot unit :=
  let owner := unit_name u in
  boot_ensure (unit_valid_name owner) (InvalidUnitName owner);;
  boot_ensure (valid_absolute_path (unit_executable u)) (ExecutableNotAbsolute owner);;
  boot_ensure ((0 <? timeout_ms u) && (timeout_ms u <=? MAX_TIMEOUT_MS)) (TimeoutOutOfRange owner);;
  boot_ensure (restart_limit u <=? MAX_RESTART_ATTEMPTS) (RestartBudgetTooLarge owner);;
  boot_ensure ((0 <? initial_backoff_ms u) && (initial_backoff_ms u <=? max_backoff_ms u)
          && (max_backoff_ms u <=? timeout_ms u)) (InvalidBackoff owner);;
  boot_ensure (initial_backoff_ms u <=? stable_reset_ms u) (InvalidStableReset owner);;
  unique_valid_names owner "dependency" (after u);;
  boot_ensure (negb (bool_decide (owner ∈ after u))) (DependsOnItself owner);;
  unique_valid_names owner "published handle" (published_handles u);;
  descriptors_ok owner [] [] (unit_descriptors u);;
  unit_mounts_ok owner [] (unit_mounts u).

(** [initial.saturating_mul(1 << (failed.saturating_sub(1).min(62))).min(max)] *)
Definition backoff_shift (failed_attempts : Z) : Z := Z.min (Z.max (failed_attempts - 1) 0) 62.
Definition saturating_mul64 (a b : Z) : Z := Z.min (a * b) usize_max.
Definition backoff_ms (u : BootUnit) (failed_attempts : Z) : Z :=
  Z.min (saturating_mul64 (initial_backoff_ms u) (Z.shiftl 1 (backoff_shift failed_attempts)))
    (max_backoff_ms u).

Definition should_restart (u : BootUnit) (exit_code : Z) : bool :=
  match restart u with
  | RestartNever => false
  | RestartOnFailure => negb (exit_code =? 0)
  | RestartAlways => true
  end.

(** ** The manifest *)

Record BootManifest : Type := mkManifest {
  units : gmap string BootUnit;
  order : list string;
}.

(** The loop of [dependency_order]: the first pending name whose dependencies are
    all ready comes next. [pending] is the ordered set. *)
Definition dependencies_ready (us : gmap string BootUnit) (ready : list string) (name : string) : bool :=
  match us !! name with
  | Some u => forallb (λ d, bool_decide (d ∈ ready)) (after u)
  | None => false
  end.
Fixpoint order_go (fuel : nat) (us : gmap string BootUnit) (pending ready : list string) :
    Boot (list string) :=
  match fuel, pending with
  | _, [] => mret []
  | O, _ => inl DependencyCycle
  | S f, _ =>
      match List.find (dependencies_ready us ready) pending with
      | None => inl DependencyCycle
      | Some next =>
          rest ← order_go f us (filter (λ n, n ≠ next) pending) (next :: ready);
          mret (next :: rest)
      end
  end.
Definition dependency_order (us : gmap string BootUnit) : Boot (list string) :=
  order_go (length (sorted_keys us)) us (sorted_keys us) [].

Fixpoint known_dependencies (us : gmap string BootUnit) (owner : string) (ds : list string) : Boot unit :=
  match ds with
  | [] => mret tt
  | d :: ds' => boot_ensure (isSome (us !! d)) (UnknownDependency owner d);; known_dependencies us owner ds'
  end.
Fixpoint all_known (us : gmap string BootUnit) (l : list BootUnit) : Boot unit :=
  match l with
  | [] => mret tt
  | u :: l' => known_dependencies us (unit_name u) (after u);; all_known us l'
  end.

Section parse.
(** [toml::from_str] into a unit, unknown fields refused *)
Context (toml : string → option BootUnit).

Definition unit_parse (document : string) : Boot BootUnit :=
  match toml document with
  | None => inl BadDocument
  | Some u => unit_validate u;; mret u
  end.
Fixpoint collect_units (us : gmap string BootUnit) (documents : list string) :
    Boot (gmap string BootUnit) :=
  match documents with
  | [] => mret us
  | d :: ds =>
      u ← unit_parse d;
      boot_ensure (negb (isSome (us !! unit_name u))) DuplicateUnit;;
      collect_units (<[unit_name u := u]> us) ds
  end.
Definition manifest_parse (documents : list string) : Boot BootManifest :=
  us ← collect_units ∅ documents;
  boot_ensure (negb (bool_decide (us = ∅))) EmptyUnitTree;;
  all_known us (omap (λ n, us !! n) (sorted_keys us));;
  order ← dependency_order us;
  mret (mkManifest us order).
End parse.

(** [ordered()]: indexing a name that is not a unit panics *)
Definition ordered (m : BootManifest) : option (list BootUnit) := mapM (λ n, units m !! n) (order m).
Definition manifest_get (m : BootManifest) (name : string) : option BootUnit := units m !! name.

(** ** The system's units *)

Definition same (path : string) (access : MountAccess) : BootMount := mkBootMount path path access.
Definition system_service (name executable : string) (after_ : list string) (timeout initial : Z)
    (handles : list string) (mounts : list BootMount) : BootUnit :=
  mkUnit name executable [] mounts after_ true timeout RestartOnFailure 5 initial 1000 30000 handles.

Definition route_toml : BootUnit :=
  system_service "route" "/bin/routefs" [] 5000 50 ["route"]
    [same "/proc" MountForWrite; same "/srv" MountForWrite; same "/bin/routefs" MountForRead].
Definition connection_toml : BootUnit :=
  system_service "connection" "/bin/connection-service" [] 10000 100 ["connection"; "llm"]
    [same "/proc" MountForWrite; same "/srv" MountForWrite; same "/bin/connection-service" MountForRead].
Definition package_toml : BootUnit :=
  system_service "package" "/bin/package-service" [] 10000 100 ["package"]
    [same "/proc" MountForWrite; same "/srv" MountForWrite; same "/bin/package-service" MountForRead].
Definition agent_runtime_toml : BootUnit :=
  system_service "agent-runtime" "/bin/agent-runtime-service" ["connection"; "package"; "route"]
    10000 100 ["agent-runtime"]
    [same "/proc" MountForWrite; same "/agent" MountForWrite; same "/srv" MountForWrite;
     same "/bin/agent-runtime-service" MountForRead].
Definition host_mount_toml : BootUnit :=
  system_service "host-mount" "/bin/host-mount-service" [] 5000 50 ["host-mount"]
    [same "/proc" MountForWrite; same "/srv" MountForWrite; same "/bin/host-mount-service" MountForRead].
Definition entry_mounts : list BootMount :=
  [same "/proc" MountForWrite; same "/agent" MountForWrite; same "/srv" MountForRead;
   same "/bin" MountForRead; same "/lib" MountForRead; same "/man" MountForRead; same "/mnt" MountForRead;
   same "/mnt/llm" MountForWrite; same "/mnt/route" MountForWrite; same "/mnt/connections" MountForWrite;
   same "/mnt/service-manager" MountForWrite; same "/mnt/host-mount" MountForWrite;
   same "/mnt/package" MountForWrite].
Definition local_entry_toml : BootUnit :=
  system_service "local-entry" "/bin/local-entry-service"
    ["agent-runtime"; "connection"; "host-mount"; "package"] 5000 50 ["local-entry"] entry_mounts.
Definition root_agent_toml : BootUnit :=
  mkUnit "root-agent" "/bin/alan-agent"
    [mkBootDescriptor 3 "/lib/agents/root"; mkBootDescriptor 4 "/memory"]
    (entry_mounts ++ [same "/memory" MountForWrite])
    ["agent-runtime"; "connection"; "package"; "route"] true 30000 RestartAlways 5 100 1000 30000 [].

(** [documents()]: the files by name, here with the unit each describes *)
Definition documents : list (string * BootUnit) :=
  [("route.toml", route_toml); ("connection.toml", connection_toml); ("package.toml", package_toml);
   ("agent-runtime.toml", agent_runtime_toml); ("host-mount.toml", host_mount_toml);
   ("local-entry.toml", local_entry_toml); ("root-agent.toml", root_agent_toml)].
(** The parser on these files *)
Definition system_toml (name : string) : option BootUnit :=
  snd <$> List.find (λ d, bool_decide (d.1 = name)) documents.
Definition system_manifest : Boot BootManifest := manifest_parse system_toml documents.*1.

Example system_boots_in_order :
  match system_manifest with
  | inr m => order m = ["connection"; "host-mount"; "package"; "route"; "agent-runtime"; "local-entry";
                        "root-agent"]
  | inl _ => False
  end.
Proof. by vm_compute. Qed.

(** ** Theorems of boot units

    The start order puts every unit after its dependencies and exists unless units
    wait for each other; the backoff doubles up to its maximum. *)


(** ** The start order *)

Definition result_of {A} (r : Boot A) : option A := match r with inr a => Some a | inl _ => None end.

(** Every dependency of a listed unit is in [ready] or earlier in the list. *)
Definition after_dependencies (us : gmap string BootUnit) (ready l : list string) : Prop :=
  ∀ i n u d, l !! i = Some n → us !! n = Some u → d ∈ after u →
    d ∈ ready ∨ ∃ j, (j < i)%nat ∧ l !! j = Some d.
(** Units each of which waits for another of them *)
Definition deadlock (us : gmap string BootUnit) (stuck : list string) : Prop :=
  stuck ≠ [] ∧ ∀ n, n ∈ stuck → ∃ u d, us !! n = Some u ∧ d ∈ after u ∧ d ∈ stuck.

Lemma dependencies_ready_spec us ready n u :
  us !! n = Some u → dependencies_ready us ready n = true ↔ ∀ d, d ∈ after u → d ∈ ready.
Proof.
  intros Hu. unfold dependencies_ready. rewrite Hu, forallb_forall. setoid_rewrite <-list_elem_of_In.
  split; intros H d Hd; specialize (H d Hd); by apply bool_decide_eq_true in H || apply bool_decide_eq_true.
Qed.
Lemma filter_out_length {A} `{EqDecision A} (x : A) l :
  x ∈ l → (length (filter (λ y, y ≠ x) l) < length l)%nat.
Proof.
  induction l as [|y l IH]; [set_solver|]. rewrite filter_cons. intros [->|Hx]%elem_of_cons.
  - case_decide; [done|]. pose proof (length_filter (λ z, z ≠ y) l). simpl. lia.
  - specialize (IH Hx). case_decide; simpl; lia.
Qed.
Lemma filter_out_perm {A} `{EqDecision A} (x : A) l :
  NoDup l → x ∈ l → l ≡ₚ x :: filter (λ y, y ≠ x) l.
Proof.
  intros Hnd Hx. apply NoDup_Permutation; [done| |].
  - constructor; [rewrite list_elem_of_filter; by intros [? _]|by apply NoDup_filter].
  - intros y. rewrite elem_of_cons, list_elem_of_filter. split; [|set_solver].
    intros Hy. destruct (decide (y = x)); auto.
Qed.

Lemma order_go_step f us pending ready :
  pending ≠ [] →
  order_go (S f) us pending ready =
  match List.find (dependencies_ready us ready) pending with
  | None => inl DependencyCycle
  | Some next =>
      rest ← order_go f us (filter (λ n, n ≠ next) pending) (next :: ready); mret (next :: rest)
  end.
Proof. by destruct pending. Qed.

(** What the loop returns *)
Lemma order_go_spec us : ∀ fuel pending ready,
  (length pending ≤ fuel)%nat → NoDup pending →
  (∀ n, n ∈ pending ↔ is_Some (us !! n) ∧ n ∉ ready) →
  (∀ n u d, us !! n = Some u → d ∈ after u → is_Some (us !! d)) →
  match order_go fuel us pending ready with
  | inr l => l ≡ₚ pending ∧ after_dependencies us ready l
  | inl e => e = DependencyCycle ∧ ∃ stuck, deadlock us stuck
  end.
Proof.
  induction fuel as [|fuel IH]; intros pending ready Hlen Hnd Hp Hknown.
  { assert (pending = []) as -> by (apply nil_length_inv; lia). simpl. split; [done|]. by intros i. }
  destruct (decide (pending = [])) as [->|Hne]; [split; [done|by intros i]|].
  rewrite order_go_step by done.
  destruct (List.find (dependencies_ready us ready) pending) as [next|] eqn:Hf.
  - apply find_some in Hf as [Hin%list_elem_of_In Hready].
    specialize (IH (filter (λ n, n ≠ next) pending) (next :: ready)).
    destruct (order_go fuel us _ _) as [e|rest]; simpl.
    + apply IH; [pose proof (filter_out_length next pending Hin); lia|by apply NoDup_filter| |done].
      intros n. rewrite list_elem_of_filter, Hp. set_solver.
    + destruct IH as [Hperm Hdeps];
        [pose proof (filter_out_length next pending Hin); lia|by apply NoDup_filter| |done|].
      { intros n. rewrite list_elem_of_filter, Hp. set_solver. }
      split; [rewrite Hperm; symmetry; by apply filter_out_perm|].
      intros [|i] n u d Hn Hu Hd; simpl in Hn.
      * simplify_eq. left. by eapply (dependencies_ready_spec us ready n u Hu).
      * destruct (Hdeps i n u d Hn Hu Hd) as [[->|?]%elem_of_cons|(j & Hj & Hl)];
          [right; exists 0%nat; split; [lia|done]|by left|].
        right. exists (S j). split; [lia|done].
  - split; [done|]. exists pending. split; [done|]. intros n Hn.
    destruct (proj1 (Hp n) Hn) as [[u Hu] _].
    pose proof (find_none _ _ Hf n (proj1 (list_elem_of_In _ _) Hn)) as Hnr.
    assert (¬ Forall (λ d, d ∈ ready) (after u)) as Hbad.
    { intros Hall. rewrite Forall_forall in Hall.
      rewrite (proj2 (dependencies_ready_spec us ready n u Hu) Hall) in Hnr. done. }
    apply not_Forall_Exists, Exists_exists in Hbad as (d & Hd & Hnot); [|intros ?; apply _].
    exists u, d. split_and!; [done|done|]. apply Hp. split; [by eapply Hknown|done].
Qed.

Lemma dependency_order_spec us :
  (∀ n u d, us !! n = Some u → d ∈ after u → is_Some (us !! d)) →
  match dependency_order us with
  | inr l => l ≡ₚ sorted_keys us ∧ after_dependencies us [] l
  | inl e => e = DependencyCycle ∧ ∃ stuck, deadlock us stuck
  end.
Proof.
  intros Hknown. apply order_go_spec; [done| | |done].
  - unfold sorted_keys. rewrite merge_sort_Permutation. apply NoDup_fst_map_to_list.
  - intros n. rewrite elem_of_sorted_keys. set_solver.
Qed.

(** An order is only possible without a deadlock. *)
Lemma ordered_no_deadlock us l stuck :
  l ≡ₚ sorted_keys us → after_dependencies us [] l → ¬ deadlock us stuck.
Proof.
  intros Hperm Hdeps [Hne Hstuck].
  assert (∀ i n, l !! i = Some n → n ∉ stuck) as Hnone.
  { induction i as [i IH] using (well_founded_induction lt_wf). intros n Hn Hin.
    destruct (Hstuck n Hin) as (u & d & Hu & Hd & Hds).
    destruct (Hdeps i n u d Hn Hu Hd) as [?|(j & Hj & Hl)]; [set_solver|]. by apply (IH j Hj d Hl). }
  destruct stuck as [|n stuck]; [done|]. destruct (Hstuck n) as (u & d & Hu & _); [set_solver|].
  assert (n ∈ l) as Hin by (rewrite Hperm, elem_of_sorted_keys; eauto).
  apply list_elem_of_lookup in Hin as [i Hi]. apply (Hnone i n Hi). set_solver.
Qed.

(** C40: When every dependency is a unit, the start order the manager computes is an
    arrangement of all units with each after the units it depends on, and there is
    one exactly if no units wait for each other; otherwise the manifest is refused
    as a dependency cycle. *)
Theorem boot_order_exists_unless_deadlock us :
  (∀ n u d, us !! n = Some u → d ∈ after u → is_Some (us !! d)) →
  (∀ l, dependency_order us = inr l → l ≡ₚ sorted_keys us ∧ after_dependencies us [] l) ∧
  (is_Some (result_of (dependency_order us)) ↔ ∀ stuck, ¬ deadlock us stuck) ∧
  (∀ e, dependency_order us = inl e → e = DependencyCycle).
Proof.
  intros Hknown. pose proof (dependency_order_spec us Hknown) as Ho.
  destruct (dependency_order us) as [e|l]; simpl; split_and!; try done.
  - destruct Ho as (_ & stuck & Hs). split; [by intros [? ?]|]. intros Hno. by destruct (Hno stuck).
  - intros ? [= <-]. by destruct Ho.
  - by intros ? [= <-].
  - destruct Ho as [Hperm Hdeps]. split; [|by eexists]. intros _ stuck. by apply (ordered_no_deadlock us l).
Qed.

Lemma boot_order_exists_unless_deadlock_witness :
  let us : gmap string BootUnit :=
    <["a" := system_service "a" "/bin/a" ["b"] 10 1 [] []]>
      {["b" := system_service "b" "/bin/b" [] 10 1 [] []]} in
  dependency_order us = inr ["b"; "a"] ∧ after_dependencies us [] ["b"; "a"].
Proof.
  intros us. assert (dependency_order us = inr ["b"; "a"]) as Ho by by vm_compute.
  split; [exact Ho|]. apply (boot_order_exists_unless_deadlock us); [|exact Ho].
  intros n u d Hn Hd. subst us. apply lookup_insert_Some in Hn as [[<- <-]|[_ Hn]].
  - apply list_elem_of_singleton in Hd as ->. by eexists.
  - apply lookup_singleton_Some in Hn as [<- <-]. by apply not_elem_of_nil in Hd.
Defined.

(** A parsed manifest: its units are valid and known to each other, and its order
    names only units. *)
Lemma known_ok us owner ds u :
  known_dependencies us owner ds = inr u → ∀ d, d ∈ ds → is_Some (us !! d).
Proof.
  induction ds as [|d ds IH]; [set_solver|]. simpl. unfold boot_ensure.
  destruct (us !! d) eqn:Hd; simpl; [|done]. intros Hr x [->|Hx]%elem_of_cons; [by rewrite Hd|by apply IH].
Qed.
Lemma all_known_ok us l u :
  all_known us l = inr u → ∀ x d, x ∈ l → d ∈ after x → is_Some (us !! d).
Proof.
  induction l as [|y l IH]; [set_solver|]. simpl.
  destruct (known_dependencies us (unit_name y) (after y)) as [|[]] eqn:Hy; simpl; [done|].
  intros Hr x d [->|Hx]%elem_of_cons Hd; [by eapply known_ok|by eapply IH].
Qed.
Lemma collect_valid toml documents : ∀ us us',
  map_Forall (λ n u, unit_name u = n ∧ unit_validate u = inr tt) us →
  collect_units toml us documents = inr us' →
  map_Forall (λ n u, unit_name u = n ∧ unit_validate u = inr tt) us'.
Proof.
  induction documents as [|d ds IH]; intros us us' Hus; simpl; [by intros [= <-]|].
  unfold unit_parse. destruct (toml d) as [u|]; [|done]. simpl.
  destruct (unit_validate u) as [|[]] eqn:Hu; simpl; [done|]. unfold boot_ensure.
  destruct (negb _); simpl; [|done]. apply IH. by apply map_Forall_insert_2.
Qed.
Lemma parsed_manifest toml documents m :
  manifest_parse toml documents = inr m →
  map_Forall (λ n u, unit_name u = n ∧ unit_validate u = inr tt) (units m) ∧
  order m ≡ₚ sorted_keys (units m) ∧ after_dependencies (units m) [] (order m).
Proof.
  unfold manifest_parse. destruct (collect_units toml ∅ documents) as [|us] eqn:Hc; simpl; [done|].
  unfold boot_ensure. destruct (negb _); simpl; [|done].
  destruct (all_known us _) as [|[]] eqn:Hk; simpl; [done|].
  assert (∀ n u d, us !! n = Some u → d ∈ after u → is_Some (us !! d)) as Hknown.
  { intros n u d Hu Hd. eapply all_known_ok; [exact Hk| |exact Hd].
    apply list_elem_of_omap. exists n. split; [rewrite elem_of_sorted_keys; eauto|done]. }
  pose proof (dependency_order_spec us Hknown) as Ho.
  destruct (dependency_order us) as [e|l]; [done|]. intros [= <-]. simpl.
  split; [|done]. eapply collect_valid; [|exact Hc]. apply map_Forall_empty.
Qed.

(** ** Backoff *)

Record unit_bounds (u : BootUnit) : Prop := mkBounds {
  ub_initial : 0 < initial_backoff_ms u;
  ub_max : initial_backoff_ms u ≤ max_backoff_ms u;
  ub_timeout : max_backoff_ms u ≤ timeout_ms u;
  ub_range : timeout_ms u ≤ MAX_TIMEOUT_MS;
  ub_limit : restart_limit u ≤ MAX_RESTART_ATTEMPTS;
  ub_stable : initial_backoff_ms u ≤ stable_reset_ms u;
}.
Lemma validated_bounds u : unit_validate u = inr tt → unit_bounds u.
Proof.
  unfold unit_validate, boot_ensure. intros Hv.
  repeat match type of Hv with
  | context [if ?c then _ else _] => destruct c eqn:?; simpl in Hv; [|done]
  end.
  bool_facts. by constructor.
Qed.

(** The backoff of a valid unit after [n] failed attempts is the first one doubled
    [n - 1] times, at most the maximum: the cap on the shift and the saturating
    product never show. So it is positive and at most the unit's timeout. *)
Theorem backoff_doubles u n :
  unit_validate u = inr tt → 1 ≤ n →
  backoff_ms u n = Z.min (initial_backoff_ms u * 2 ^ (n - 1)) (max_backoff_ms u) ∧
  0 < backoff_ms u n ≤ timeout_ms u.
Proof.
  intros Hv%validated_bounds Hn. destruct Hv as [Hi Hm Ht Hr _ _]. unfold MAX_TIMEOUT_MS in Hr.
  assert (backoff_ms u n = Z.min (initial_backoff_ms u * 2 ^ (n - 1)) (max_backoff_ms u)) as Heq.
  { unfold backoff_ms, saturating_mul64, backoff_shift, usize_max, u64_size.
    rewrite Z.shiftl_1_l. rewrite (Z.max_l (n - 1)) by lia.
    destruct (Z.le_gt_cases (n - 1) 62) as [Hs|Hs].
    - rewrite (Z.min_l (n - 1)) by lia. lia.
    - rewrite (Z.min_r (n - 1)) by lia.
      assert (2 ^ 62 ≤ 2 ^ (n - 1)) by (apply Z.pow_le_mono_r; lia).
      assert (300000 < 2 ^ 62) by done. nia. }
  split; [done|]. rewrite Heq. pose proof (Z.pow_pos_nonneg 2 (n - 1)). nia.
Qed.

Lemma backoff_doubles_witness : backoff_ms root_agent_toml 4 = 800 ∧ 0 < 800 ≤ 30000.
Proof. apply (backoff_doubles root_agent_toml 4); [by vm_compute|lia]. Defined.
