(* ===== verification/ServiceManager.v ===== *)
(** * The service manager's state and supervisor
      (crates/service-manager/src/control_fs.rs, runtime/supervisor.rs)

    Which units run, how often they were started and whether the system is ready;
    the file server that shows this and takes [retry] commands; and the supervisor
    that observes exits, restarts units after their backoff and publishes and
    withdraws their handles. Parameters: the default hasher and, for every launch,
    what the spawned process and the Agent Runtime service answer. *)
From S2P Require Import Prelude RustStd ApTypes ApServer RustText BootUnits.

Definition MAX_CTL_BYTES : Z := 4096.

Inductive UnitStatus : Set :=
  UnitPending | UnitStarting | UnitReady | UnitBackoff | UnitExited | UnitFailed.
Inductive SystemStatus : Set :=
  SystemBooting | SystemReady | SystemDegraded | SystemFailed | SystemStopping.
Global Instance UnitStatus_eq_dec : EqDecision UnitStatus.
Proof. solve_decision. Defined.
Global Instance SystemStatus_eq_dec : EqDecision SystemStatus.
Proof. solve_decision. Defined.

Record UnitSnapshot : Type := mkSnapshot {
  snap_name : string;
  snap_status : UnitStatus;
  snap_pid : option Z;
  snap_attempts : Z;
  snap_error : option string;
  snap_degraded : bool;
}.
Inductive RestartDecision : Set := Stop | RestartAfterMs (ms : Z) | FailBoot | Degrade.
Global Instance RestartDecision_eq_dec : EqDecision RestartDecision.
Proof. solve_decision. Defined.

Record UnitState : Type := mkUnitState {
  us_status : UnitStatus;
  us_pid : option Z;
  us_attempts : Z;
  us_error : option string;
  us_degraded : bool;
  us_ready_once : bool;
}.
Definition unit_initial : UnitState := mkUnitState UnitPending None 0 None false false.

Record ManagerState : Type := mkManager {
  manifest : BootManifest;
  sys_status : SystemStatus;
  unit_states : gmap string UnitState;
  retry_requests : list string;
}.
Definition set_sys_status (x : SystemStatus) (s : ManagerState) : ManagerState :=
  mkManager (manifest s) x (unit_states s) (retry_requests s).
Definition set_unit_states (x : gmap string UnitState) (s : ManagerState) : ManagerState :=
  mkManager (manifest s) (sys_status s) x (retry_requests s).

(** [ManagerState::new]; [None] where [ordered] panics *)
Definition manager_new (m : BootManifest) : option ManagerState :=
  us ← ordered m;
  Some (mkManager m SystemBooting (list_to_map ((λ u, (unit_name u, unit_initial)) <$> us)) []).

(** [u32::saturating_add] *)
Definition saturating_add_u32 (a b : Z) : Z := Z.min (a + b) u32_max.

Section manager.
Abbreviation Mgr := (M ManagerState ErrorCode).

(** [self.units.get_mut(name).ok_or(NotFound)?] and an update of it *)
Definition with_unit (name : string) (f : UnitState → UnitState) : Mgr unit :=
  s ← mget;
  match unit_states s !! name with
  | None => mfail NotFound
  | Some u => mmodify (set_unit_states (<[name := f u]> (unit_states s)))
  end.

Definition start_attempt (name : string) (pid : Z) : Mgr unit :=
  with_unit name (λ u, mkUnitState UnitStarting (Some pid) (saturating_add_u32 (us_attempts u) 1) None
                         (us_degraded u) (us_ready_once u)).
Definition start_failure (name error : string) : Mgr unit :=
  with_unit name (λ u, mkUnitState UnitStarting None (saturating_add_u32 (us_attempts u) 1) (Some error)
                         (us_degraded u) (us_ready_once u)).

(** [self.units.values()] tests *)
Definition all_ready (us : gmap string UnitState) : bool :=
  forallb (λ p, bool_decide (us_status p.2 = UnitReady)) (map_to_list us).
Definition any_degraded (us : gmap string UnitState) : bool :=
  existsb (λ p, us_degraded p.2) (map_to_list us).

Definition mark_ready (name : string) : Mgr unit :=
  with_unit name (λ u, mkUnitState UnitReady (us_pid u) (us_attempts u) None (us_degraded u) true);;
  mmodify (λ s, if all_ready (unit_states s) then set_sys_status SystemReady s else s).
Definition mark_stopping : Mgr unit := mmodify (set_sys_status SystemStopping).
Definition note_error (name error : string) : Mgr unit :=
  with_unit name (λ u, mkUnitState (us_status u) (us_pid u) (us_attempts u) (Some error)
                         (us_degraded u) (us_ready_once u)).

Definition terminal_decision (name : string) (required ready_once : bool) : Mgr RestartDecision :=
  s ← mget;
  if negb required then mret Stop
  else if bool_decide (sys_status s = SystemBooting) && negb ready_once then
    mmodify (set_sys_status SystemFailed);; mret FailBoot
  else
    mmodify (set_sys_status SystemDegraded);;
    mmodify (λ s, set_unit_states
      (alter (λ u, mkUnitState (us_status u) (us_pid u) (us_attempts u) (us_error u) true
                     (us_ready_once u)) name (unit_states s)) s);;
    mret Degrade.

(** The unit's state after an exit and whether that is terminal *)
Definition exited_unit (unit : BootUnit) (exit_code stable_for_ms : Z) (u : UnitState) : UnitState * bool :=
  let attempts := if stable_reset_ms unit <=? stable_for_ms then 1 else us_attempts u in
  let '(status, terminal) :=
    if negb (should_restart unit exit_code) then (UnitExited, true)
    else if restart_limit unit <? attempts then (UnitFailed, true)
    else (UnitBackoff, false) in
  (mkUnitState status None attempts (Some ("exit " +:+ dec_string_Z exit_code)) (us_degraded u)
     (us_ready_once u), terminal).

Definition manager_record_exit (name : string) (exit_code stable_for_ms : Z) : Mgr RestartDecision :=
  s ← mget;
  unit ← mlift (manifest_get (manifest s) name) NotFound;
  u ← mlift (unit_states s !! name) NotFound;
  let '(u', terminal) := exited_unit unit exit_code stable_for_ms u in
  mmodify (set_unit_states (<[name := u']> (unit_states s)));;
  if terminal then terminal_decision name (required unit) (us_ready_once u')
  else mret (RestartAfterMs (backoff_ms unit (us_attempts u'))).

Definition manager_retry (name : string) : Mgr unit :=
  s ← mget;
  match unit_states s !! name with
  | None => mfail NotFound
  | Some u =>
      if negb (bool_decide (us_status u = UnitFailed) || bool_decide (us_status u = UnitExited))
      then mfail BadRequest
      else
        let us' := <[name := mkUnitState UnitPending (us_pid u) 0 None false (us_ready_once u)]>
                     (unit_states s) in
        mmodify (λ s, mkManager (manifest s)
          (if any_degraded us' then SystemDegraded else SystemReady) us' (retry_requests s ++ [name]))
  end.
Definition take_retry_requests : Mgr (list string) :=
  s ← mget;
  mmodify (λ s, mkManager (manifest s) (sys_status s) (unit_states s) []);;
  mret (retry_requests s).

Definition unit_snapshot (name : string) (s : ManagerState) : option UnitSnapshot :=
  u ← unit_states s !! name;
  Some (mkSnapshot name (us_status u) (us_pid u) (us_attempts u) (us_error u) (us_degraded u)).
End manager.

(** ** The control file server *)

Inductive CtlNode : Set :=
  | CRoot | CStatus | CDegraded | CCtl | CUnits | CUnit (unit : string) | CUnitStatus (unit : string)
  | CUnitPid (unit : string) | CUnitAttempts (unit : string) | CUnitError (unit : string).
Global Instance CtlNode_eq_dec : EqDecision CtlNode.
Proof. solve_decision. Defined.

Record CtlFid : Type := mkCtlFid { cf_node : CtlNode; cf_mode : option OpenMode; cf_buf : bytes }.
(** The tree and the manager state it shares *)
Record CtlFs : Type := mkCtlFs { ctl_state : ManagerState; ctl_fids : gmap Fid CtlFid }.
Definition set_ctl_fids (x : gmap Fid CtlFid) (s : CtlFs) : CtlFs := mkCtlFs (ctl_state s) x.

Definition status_name (s : SystemStatus) : string :=
  match s with
  | SystemBooting => "booting" | SystemReady => "ready" | SystemDegraded => "degraded"
  | SystemFailed => "failed" | SystemStopping => "stopping"
  end.
Definition unit_status_name (s : UnitStatus) : string :=
  match s with
  | UnitPending => "pending" | UnitStarting => "starting" | UnitReady => "ready"
  | UnitBackoff => "backoff" | UnitExited => "exited" | UnitFailed => "failed"
  end.

(** [str::str_split_whitespace] on the bytes of a string *)
Definition push_piece (w : bytes) (ws : list string) : list string :=
  if bool_decide (w = []) then ws else of_bytes w :: ws.
Fixpoint split_ws_go (fuel : nat) (w b : bytes) : list string :=
  match fuel, b with
  | S f, x :: b' =>
      match strip_any white_space b with
      | Some rest => push_piece w (split_ws_go f [] rest)
      | None => split_ws_go f (w ++ [x]) b'
      end
  | _, _ => push_piece w []
  end.
Definition str_split_whitespace (s : string) : list string :=
  split_ws_go (length (into_bytes s)) [] (into_bytes s).

Section control.
Context (hash_node : CtlNode → Z).
Abbreviation Ctl := (M CtlFs ErrorCode).

Definition ctl_qid (n : CtlNode) : Qid :=
  mkQid (match n with CRoot | CUnits | CUnit _ => Dir | _ => File end) 0 (hash_node n).
Definition ctl_node_of (fid : Fid) : Ctl CtlNode :=
  s ← mget;
  if bool_decide (fid = ROOT) then mret CRoot else mlift (cf_node <$> ctl_fids s !! fid) NotFound.

Definition ctl_child (s : ManagerState) (n : CtlNode) (name : string) : result ErrorCode CtlNode :=
  match n with
  | CRoot =>
      if bool_decide (name = "status") then Ok CStatus
      else if bool_decide (name = "degraded") then Ok CDegraded
      else if bool_decide (name = "ctl") then Ok CCtl
      else if bool_decide (name = "units") then Ok CUnits
      else Err NotFound
  | CUnits => if isSome (unit_states s !! name) then Ok (CUnit name) else Err NotDirectory
  | CUnit u =>
      if bool_decide (name = "status") then Ok (CUnitStatus u)
      else if bool_decide (name = "pid") then Ok (CUnitPid u)
      else if bool_decide (name = "attempts") then Ok (CUnitAttempts u)
      else if bool_decide (name = "error") then Ok (CUnitError u)
      else Err NotFound
  | _ => Err NotDirectory
  end.
Fixpoint ctl_walk_names (s : ManagerState) (n : CtlNode) (names : list string) : result ErrorCode CtlNode :=
  match names with
  | [] => Ok n
  | name :: names' =>
      match ctl_child s n name with Ok n' => ctl_walk_names s n' names' | r => r end
  end.

(** [format!("{}\n", x)] *)
Definition shown_line (x : string) : bytes := into_bytes x ++ [newline].
Definition ctl_bytes (s : ManagerState) (n : CtlNode) : result ErrorCode bytes :=
  let of_unit name f := match unit_states s !! name with Some u => Ok (f u) | None => Err NotFound end in
  match n with
  | CRoot => Ok (into_bytes (join (String "010" "") ["status"; "degraded"; "ctl"; "units"]))
  | CStatus => Ok (shown_line (status_name (sys_status s)))
  | CDegraded => Ok (shown_line (if bool_decide (sys_status s = SystemDegraded) then "true" else "false"))
  | CCtl => Ok (shown_line "retry <unit>")
  | CUnits => Ok (into_bytes (join (String "010" "") (sorted_keys (unit_states s))))
  | CUnit _ => Ok (into_bytes (join (String "010" "") ["status"; "pid"; "attempts"; "error"]))
  | CUnitStatus name => of_unit name (λ u, shown_line (unit_status_name (us_status u)))
  | CUnitPid name =>
      of_unit name (λ u, shown_line (match us_pid u with Some pid => dec_string_Z pid | None => "" end))
  | CUnitAttempts name => of_unit name (λ u, shown_line (dec_string_Z (us_attempts u)))
  | CUnitError name => of_unit name (λ u, shown_line (default "" (us_error u)))
  end.

(** The manager's state inside the tree's *)
Definition on_manager {A} (m : M ManagerState ErrorCode A) : Ctl A := λ s,
  let '(st, r) := m (ctl_state s) in (mkCtlFs st (ctl_fids s), r).

Definition service_commit_ctl (b : bytes) : Ctl unit :=
  command ← mlift (from_utf8 b) BadRequest;
  match str_split_whitespace command with
  | [verb; unit] => if bool_decide (verb = "retry") then on_manager (manager_retry unit) else mfail BadRequest
  | _ => mfail BadRequest
  end.

Definition ctl_walk (fid newfid : Fid) (names : list string) : Ctl Qid :=
  s ← mget;
  if bool_decide (newfid = ROOT) || isSome (ctl_fids s !! newfid) then mfail BadRequest
  else
    start ← ctl_node_of fid;
    node ← mresult (ctl_walk_names (ctl_state s) start names);
    s ← mget;
    if isSome (ctl_fids s !! newfid) then mfail BadRequest
    else
      mmodify (λ s, set_ctl_fids (<[newfid := mkCtlFid node None []]> (ctl_fids s)) s);;
      mret (ctl_qid node).
Definition ctl_open (fid : Fid) (mode : OpenMode) : Ctl Qid :=
  node ← ctl_node_of fid;
  if (if bool_decide (node = CCtl) then negb (bool_decide (mode = Read) || bool_decide (mode = Write))
      else negb (bool_decide (mode = Read)))
  then mfail NoAccess
  else if bool_decide (fid = ROOT) then mret (ctl_qid node)
  else
    s ← mget;
    f ← mlift (ctl_fids s !! fid) NotFound;
    if isSome (cf_mode f) then mfail BadRequest
    else
      mmodify (set_ctl_fids (<[fid := mkCtlFid (cf_node f) (Some mode) (cf_buf f)]> (ctl_fids s)));;
      mret (ctl_qid node).
Definition ctl_read (fid : Fid) (offset : Offset) (count : Z) : Ctl bytes :=
  s ← mget;
  (if bool_decide (fid = ROOT) then mret tt
   else f ← mlift (ctl_fids s !! fid) NotFound;
        if bool_decide (cf_mode f = Some Read) then mret tt else mfail NoAccess);;
  node ← ctl_node_of fid;
  b ← mresult (ctl_bytes (ctl_state s) node);
  mret (slice b offset count).
Definition ctl_write (fid : Fid) (offset : Offset) (data : bytes) : Ctl Z :=
  s ← mget;
  f ← mlift (ctl_fids s !! fid) NotFound;
  if negb (bool_decide (cf_node f = CCtl)) || negb (bool_decide (cf_mode f = Some Write)) then mfail NoAccess
  else
    start ← mlift (usize_try_from offset) BadRequest;
    end_ ← mlift (checked_add64 start (len data)) BadRequest;
    if MAX_CTL_BYTES <? end_ then mfail BadRequest
    else
      mmodify (set_ctl_fids (<[fid := mkCtlFid (cf_node f) (cf_mode f) (splice (cf_buf f) start data)]>
                               (ctl_fids s)));;
      mret (as_u32 (len data)).
Definition ctl_stat (fid : Fid) : Ctl Stat :=
  node ← ctl_node_of fid;
  s ← mget;
  b ← mresult (ctl_bytes (ctl_state s) node);
  mret (mkStat "" (ctl_qid node) (len b) false (bool_decide (node = CCtl))).
Definition ctl_clunk (fid : Fid) : Ctl unit :=
  if bool_decide (fid = ROOT) then mret tt
  else
    s ← mget;
    f ← mlift (ctl_fids s !! fid) NotFound;
    mmodify (set_ctl_fids (delete fid (ctl_fids s)));;
    if bool_decide (cf_node f = CCtl) && bool_decide (cf_mode f = Some Write)
    then service_commit_ctl (cf_buf f) else mret tt.

Global Instance ControlFileServer : FileServer CtlFs := {
  fs_walk := ctl_walk; fs_open := ctl_open; fs_read := ctl_read; fs_write := ctl_write;
  fs_stat := ctl_stat;
  fs_create := λ _ _ _ _, mfail Unsupported;
  fs_remove := λ _, mfail Unsupported;
  fs_clunk := ctl_clunk;
}.
End control.
