(* ===== verification/Supervisor.v ===== *)
(** * The supervisor of the boot units
      (crates/service-manager/src/runtime/supervisor.rs)

    One tick takes retry requests, records the exits it observes, and launches the
    units whose backoff has passed. What the rest of the system answers to one
    launch or exit (the spawned process, its readiness, the Agent Runtime service's
    release of a root agent) is given with each call, and so is the clock, in
    milliseconds. The supervisor's copy of the manifest is the manager state's. The
    boot loop of [runtime.rs] ([assemble_environment]) builds the same state. *)
From S2P Require Import Prelude RustStd ApTypes ApServer BootUnits ServiceManager.

Definition ROOT_AGENT : string := "root-agent".

(** The answers to one launch: the process or an error, an error before readiness,
    an error of [detach_root] and of [release_process], and the time. *)
Record LaunchAnswers : Type := mkAnswers {
  la_spawn : string + Z;
  la_not_ready : option string;
  la_detach : option string;
  la_release : option string;
  la_now : Z;
}.

Record Supervisor : Type := mkSup {
  sup_state : ManagerState;
  sup_active : gmap string (Z * Z);   (* process and start time *)
  sup_pending : gmap string Z;        (* deadline *)
  sup_posted : gset string;           (* handles in /srv *)
  sup_package_bound : bool;
  sup_entry_pid : option Z;
  sup_root : option Z;
  sup_root_pid : Z;
  sup_resume : bool;
  sup_exits : list (Z * Z);           (* exits recorded in /proc *)
}.
Definition set_sup_state x s := mkSup x (sup_active s) (sup_pending s) (sup_posted s) (sup_package_bound s)
  (sup_entry_pid s) (sup_root s) (sup_root_pid s) (sup_resume s) (sup_exits s).
Definition set_active x s := mkSup (sup_state s) x (sup_pending s) (sup_posted s) (sup_package_bound s)
  (sup_entry_pid s) (sup_root s) (sup_root_pid s) (sup_resume s) (sup_exits s).
Definition set_sup_pending x s := mkSup (sup_state s) (sup_active s) x (sup_posted s) (sup_package_bound s)
  (sup_entry_pid s) (sup_root s) (sup_root_pid s) (sup_resume s) (sup_exits s).
Definition set_handles posted bound s := mkSup (sup_state s) (sup_active s) (sup_pending s) posted bound
  (sup_entry_pid s) (sup_root s) (sup_root_pid s) (sup_resume s) (sup_exits s).
Definition set_entry_pid x s := mkSup (sup_state s) (sup_active s) (sup_pending s) (sup_posted s)
  (sup_package_bound s) x (sup_root s) (sup_root_pid s) (sup_resume s) (sup_exits s).
Definition set_root x pid s := mkSup (sup_state s) (sup_active s) (sup_pending s) (sup_posted s)
  (sup_package_bound s) (sup_entry_pid s) x pid (sup_resume s) (sup_exits s).
Definition set_resume x s := mkSup (sup_state s) (sup_active s) (sup_pending s) (sup_posted s)
  (sup_package_bound s) (sup_entry_pid s) (sup_root s) (sup_root_pid s) x (sup_exits s).
Definition add_exit pid code s := mkSup (sup_state s) (sup_active s) (sup_pending s) (sup_posted s)
  (sup_package_bound s) (sup_entry_pid s) (sup_root s) (sup_root_pid s) (sup_resume s)
  (sup_exits s ++ [(pid, code)]).

Abbreviation Sup := (M Supervisor string).

(** A call of the manager state, an error becoming a message *)
Definition on_state {A} (message : string) (m : M ManagerState ErrorCode A) : Sup A := λ s,
  let '(st, r) := m (sup_state s) in (set_sup_state st s, map_err (λ _, message) r).
(** [result?] of an outcome that is known *)
Definition fail_if (e : option string) : Sup unit :=
  match e with Some e => mfail e | None => mret tt end.
(** A loop that waits for the next event *)
Definition wait {A} : Sup A := λ s, (s, Park).

(** ** Handles *)

Definition known_handles : list string :=
  ["route"; "llm"; "agent-runtime"; "connection"; "package"; "host-mount"; "local-entry"].
Fixpoint publish_handles (owner : string) (handles : list string) : Sup unit :=
  match handles with
  | [] => mret tt
  | h :: hs =>
      s ← mget;
      if bool_decide (h = "local-entry") && negb (isSome (sup_entry_pid s))
      then mfail "Local Entry Service has no Process"
      else if bool_decide (h ∈ known_handles) then
        mmodify (λ s, set_handles ({[h]} ∪ sup_posted s)
                        (if bool_decide (h = "package") then true else sup_package_bound s) s);;
        publish_handles owner hs
      else mfail ("Boot Unit `" +:+ owner +:+ "` publishes unknown handle `" +:+ h +:+ "`")
  end.
Definition publish_unit_handles (u : BootUnit) : Sup unit :=
  publish_handles (unit_name u) (published_handles u).
Definition invalidate_handle (h : string) (s : Supervisor) : Supervisor :=
  set_handles (sup_posted s ∖ {[h]})
    (if bool_decide (h = "package") then false else sup_package_bound s) s.
Definition invalidate_handles (name : string) : Sup unit :=
  mmodify (λ s, match manifest_get (manifest (sup_state s)) name with
                | Some u => foldl (flip invalidate_handle) s (published_handles u)
                | None => s
                end).

(** ** Exits *)

Definition apply_restart_decision (now : Z) (name : string) (d : RestartDecision) : Sup unit :=
  match d with
  | RestartAfterMs delay => mmodify (λ s, set_sup_pending (<[name := now + delay]> (sup_pending s)) s)
  | _ => mret tt
  end.

(** [u64::try_from(started_at.elapsed().as_millis()).unwrap_or(u64::MAX)] *)
Definition elapsed_ms (now started_at : Z) : Z := Z.min (Z.max 0 (now - started_at)) usize_max.

(** [detach_root] records the exit and releases the process *)
Definition detach_root (pid exit_code : Z) (release_error : option string) : Sup unit :=
  mmodify (add_exit pid exit_code);; fail_if release_error.

Definition handle_exit (now : Z) (detach_error : option string) (name : string) (started_at exit_code : Z) :
    Sup unit :=
  mmodify (λ s, set_active (delete name (sup_active s)) s);;
  invalidate_handles name;;
  (if bool_decide (name = ROOT_AGENT) then
     s ← mget;
     r ← mtry (match sup_root s with
               | Some root => mmodify (set_root None (sup_root_pid s));; detach_root root exit_code detach_error
               | None => mret tt
               end);
     mmodify (λ s, set_root (sup_root s) 0 s);;
     mresult r
   else mret tt);;
  decision ← on_state ("record `" +:+ name +:+ "` exit")
               (manager_record_exit name exit_code (elapsed_ms now started_at));
  apply_restart_decision now name decision.

Definition handle_launch_failure (answers : LaunchAnswers) (name error : string) : Sup unit :=
  s ← mget;
  let pid := unit_snapshot name (sup_state s) ≫= snap_pid in
  match pid with
  | Some pid =>
      mmodify (add_exit pid 1);;
      mmodify (λ s, set_active (delete name (sup_active s)) s);;
      if bool_decide (name = ROOT_AGENT) then
        mmodify (λ s, set_root (sup_root s) 0 s);; fail_if (la_release answers)
      else mret tt
  | None => mret tt
  end;;
  invalidate_handles name;;
  match pid with
  | Some _ => mret tt
  | None => on_state ("track `" +:+ name +:+ "` launch failure") (start_failure name error)
  end;;
  decision ← on_state ("record `" +:+ name +:+ "` launch failure") (manager_record_exit name 1 0);
  on_state ("record `" +:+ name +:+ "` launch error") (note_error name error);;
  apply_restart_decision (la_now answers) name decision.

(** ** Launches *)

Definition launch_root (answers : LaunchAnswers) (u : BootUnit) : Sup unit :=
  match la_spawn answers with
  | inl e => mfail e
  | inr pid =>
      r ← mtry (on_state "track Root Agent restart" (start_attempt ROOT_AGENT pid));
      match r with
      | Ok _ =>
          match la_not_ready answers with
          | Some e => detach_root pid 1 (la_detach answers);; mfail e
          | None =>
              mmodify (set_resume true);;
              on_state "mark Root Agent ready" (mark_ready ROOT_AGENT);;
              mmodify (λ s, set_active (<[unit_name u := (pid, la_now answers)]> (sup_active s)) s);;
              mmodify (set_root (Some pid) pid)
          end
      | _ => detach_root pid 1 (la_detach answers);; mfail "track Root Agent restart"
      end
  end.

Definition launch (answers : LaunchAnswers) (name : string) : Sup unit :=
  s ← mget;
  u ← mlift (manifest_get (manifest (sup_state s)) name) ("unknown Boot Unit `" +:+ name +:+ "`");
  if bool_decide (name = ROOT_AGENT) then launch_root answers u
  else
    match la_spawn answers with
    | inl e => mfail e
    | inr pid =>
        on_state ("track `" +:+ name +:+ "` restart") (start_attempt name pid);;
        (if bool_decide (name = "local-entry") then mmodify (set_entry_pid (Some pid)) else mret tt);;
        publish_unit_handles u;;
        fail_if (la_not_ready answers);;
        on_state ("mark `" +:+ name +:+ "` ready") (mark_ready name);;
        mmodify (λ s, set_active (<[name := (pid, la_now answers)]> (sup_active s)) s)
    end.
(** [if let Err(error) = self.launch(&name).await { self.handle_launch_failure(..)? }] *)
Definition launch_or_record (answers : LaunchAnswers) (name : string) : Sup unit :=
  r ← mtry (launch answers name);
  match r with
  | Err e => handle_launch_failure answers name e
  | _ => mret tt
  end.

(** ** Boot *)

Definition SERVICE_HANDLES : list string :=
  ["llm"; "route"; "connection"; "service-manager"; "host-mount"; "package"].
(** [mount_service_handles]: every lookup in [/srv] has to succeed *)
Definition mount_service_handles : Sup unit :=
  s ← mget;
  if forallb (λ h, bool_decide (h ∈ sup_posted s)) SERVICE_HANDLES then mret tt
  else mfail "lookup /srv".

(** The state the boot loop starts from: only the manager's own handle is posted *)
Definition boot_start (st : ManagerState) (resume : bool) : Supervisor :=
  mkSup st ∅ ∅ {["service-manager"]} false None None 0 resume [].

Definition boot_attempt (answers : LaunchAnswers) (u : BootUnit) : Sup (Z * Z) :=
  let name := unit_name u in
  (if bool_decide (name = "local-entry") then mount_service_handles else mret tt);;
  match la_spawn answers with
  | inl e => mfail e
  | inr pid =>
      on_state ("track " +:+ name +:+ " start") (start_attempt name pid);;
      (if bool_decide (name = "local-entry") then mmodify (set_entry_pid (Some pid)) else mret tt);;
      publish_unit_handles u;;
      fail_if (la_not_ready answers);;
      mret (pid, la_now answers)
  end.
Definition boot_failure (u : BootUnit) (error : string) : Sup RestartDecision :=
  let name := unit_name u in
  s ← mget;
  match unit_snapshot name (sup_state s) ≫= snap_pid with
  | Some pid => mmodify (add_exit pid 1)
  | None => on_state ("track " +:+ name +:+ " failure") (start_failure name error)
  end;;
  mmodify (λ s, foldl (λ s h, set_handles (sup_posted s ∖ {[h]}) (sup_package_bound s) s) s
                  (published_handles u));;
  decision ← on_state ("record " +:+ name +:+ " failure") (manager_record_exit name 1 0);
  on_state ("record " +:+ name +:+ " error") (note_error name error);;
  mret decision.
(** The inner [loop]: each pass takes the answers of one launch. *)
Fixpoint boot_unit_go (script : list LaunchAnswers) (u : BootUnit) : Sup unit :=
  match script with
  | [] => wait
  | answers :: script' =>
      r ← mtry (boot_attempt answers u);
      match r with
      | Ok active =>
          on_state ("mark " +:+ unit_name u +:+ " ready") (mark_ready (unit_name u));;
          mmodify (λ s, set_active (<[unit_name u := active]> (sup_active s)) s)
      | Err error =>
          decision ← boot_failure u error;
          match decision with
          | RestartAfterMs _ => boot_unit_go script' u
          | FailBoot => mfail ("required unit `" +:+ unit_name u +:+ "` exhausted boot restart budget")
          | Stop | Degrade => mfail error
          end
      | _ => wait
      end
  end.
Fixpoint boot_units (script : string → list LaunchAnswers) (us : list BootUnit) : Sup unit :=
  match us with
  | [] => mret tt
  | u :: us' => boot_unit_go (script (unit_name u)) u;; boot_units script us'
  end.
(** The units in order, then the root agent, whose readiness is awaited later *)
Definition boot_system (script : string → list LaunchAnswers) (root : LaunchAnswers) : Sup unit :=
  s ← mget;
  us ← mindex (ordered (manifest (sup_state s)));
  boot_units script (filter (λ u, unit_name u ≠ ROOT_AGENT) us);;
  mount_service_handles;;
  s ← mget;
  _ ← mlift (sup_entry_pid s) "Local Entry Boot Unit did not start";
  _ ← mlift (manifest_get (manifest (sup_state s)) ROOT_AGENT) "Root Agent Boot Unit is missing";
  match la_spawn root with
  | inl e => mfail e
  | inr pid =>
      r ← mtry (on_state "track Root Agent start" (start_attempt ROOT_AGENT pid));
      match r with
      | Ok _ =>
          mmodify (λ s, set_active (<[ROOT_AGENT := (pid, la_now root)]> (sup_active s)) s);;
          mmodify (set_root (Some pid) pid)
      | _ => detach_root pid 1 (la_detach root);; mfail "track Root Agent start"
      end
  end.

(** ** The loop *)

(** What the rest of the system shows during one tick: the exit of a process (with
    its code if it is known), an error of detaching the root, the answers to the
    launch of a unit, and the clock *)
Record TickInput : Type := mkTick {
  tick_exited : Z → option (option Z);
  tick_detach : option string;
  tick_launch : string → LaunchAnswers;
  tick_now : Z;
}.

Fixpoint sup_each {A} (f : A → Sup unit) (l : list A) : Sup unit :=
  match l with [] => mret tt | x :: l' => f x;; sup_each f l' end.

Definition queue_retry (now : Z) (name : string) : Sup unit :=
  mmodify (λ s, if isSome (sup_active s !! name) then s
                else set_sup_pending (<[name := now]> (sup_pending s)) s).
Definition check_active (i : TickInput) (x : string * (Z * Z)) : Sup unit :=
  let '(name, (pid, started_at)) := x in
  match tick_exited i pid with
  | Some code => handle_exit (tick_now i) (tick_detach i) name started_at (default 1 code)
  | None => mret tt
  end.
Definition launch_due (i : TickInput) (name : string) : Sup unit :=
  mmodify (λ s, set_sup_pending (delete name (sup_pending s)) s);;
  launch_or_record (tick_launch i name) name.

Definition tick (i : TickInput) : Sup unit :=
  retries ← on_state "retry" take_retry_requests;
  sup_each (queue_retry (tick_now i)) retries;;
  s ← mget;
  sup_each (check_active i)
    (omap (λ n, (n,.) <$> sup_active s !! n) (sorted_keys (sup_active s)));;
  s ← mget;
  sup_each (launch_due i)
    (filter (λ n, default 0 (sup_pending s !! n) ≤ tick_now i) (sorted_keys (sup_pending s))).

(** The retry loop of [settle_initial_root]: each pass takes the answers of one
    launch. [Park] is a loop that still waits for the next launch. *)
Fixpoint settle_go (script : list LaunchAnswers) : Sup unit :=
  s ← mget;
  match sup_pending s !! ROOT_AGENT with
  | None => mfail "Root Agent exhausted boot restart budget"
  | Some _ =>
      match script with
      | [] => wait
      | answers :: script' =>
          mmodify (λ s, set_sup_pending (delete ROOT_AGENT (sup_pending s)) s);;
          r ← mtry (launch answers ROOT_AGENT);
          match r with
          | Ok _ => mret tt
          | Err e => handle_launch_failure answers ROOT_AGENT e;; settle_go script'
          | _ => wait
          end
      end
  end.
Definition settle_initial_root (now : Z) (first : option string) (detach_error : option string)
    (script : list LaunchAnswers) : Sup unit :=
  s ← mget;
  _ ← mlift (sup_root s) "Root Agent launch was not retained";
  match first with
  | None =>
      mmodify (set_resume true);;
      on_state "mark Root Agent ready" (mark_ready ROOT_AGENT)
  | Some error =>
      active ← mlift (sup_active s !! ROOT_AGENT) "Root Agent launch was not tracked";
      mmodify (add_exit active.1 1);;
      handle_exit now detach_error ROOT_AGENT active.2 1;;
      on_state "record Root Agent boot_system error" (note_error ROOT_AGENT error);;
      settle_go script
  end.

(** [stop]: the root is shut down first; an error of that leaves the rest running *)
Definition unpost_handles (name : string) (s : Supervisor) : Supervisor :=
  match manifest_get (manifest (sup_state s)) name with
  | Some u => foldl (λ s h, set_handles (sup_posted s ∖ {[h]}) (sup_package_bound s) s) s (published_handles u)
  | None => s
  end.
Definition stop (shutdown_error : option string) : Sup unit :=
  mmodify (λ s, set_handles (sup_posted s) false s);;
  s ← mget;
  match sup_root s with
  | Some root => mmodify (set_root None (sup_root_pid s));; fail_if shutdown_error
  | None => mret tt
  end;;
  s ← mget;
  sup_each (λ n, match sup_active s !! n with
                 | Some (pid, _) => mmodify (add_exit pid 0);; mmodify (unpost_handles n)
                 | None => mret tt
                 end) (sorted_keys (sup_active s)).

(** ** A handle that follows its service ([SwitchableFileServer]) *)

Section switchable.
Context {S : Type} `{FileServer S}.

(** [None] while the service does not run; binding installs a fresh server. *)
Definition Switchable : Type := option S.
Definition switch_new : Switchable := None.
Definition switch_bind (inner : S) (_ : Switchable) : Switchable := Some inner.
Definition switch_deactivate (_ : Switchable) : Switchable := None.
Definition while_bound {A} (action : result string A) (s : Switchable) : result string A :=
  match s with Some _ => action | None => Err "Package Service is unavailable" end.
Definition switched {A} (m : Op S A) : Op Switchable A := λ s,
  match s with
  | None => (None, Err NoAccess)
  | Some inner => let '(inner', r) := m inner in (Some inner', r)
  end.
Global Instance SwitchableFileServer : FileServer Switchable := {
  fs_walk := λ f n names, switched (fs_walk f n names);
  fs_open := λ f m, switched (fs_open f m);
  fs_read := λ f o c, switched (fs_read f o c);
  fs_write := λ f o d, switched (fs_write f o d);
  fs_stat := λ f, switched (fs_stat f);
  fs_create := λ f n name k, switched (fs_create f n name k);
  fs_remove := λ f, switched (fs_remove f);
  fs_clunk := λ f, switched (fs_clunk f);
}.
End switchable.
