(* ===== verification/SupervisorFacts.v ===== *)
(** * Theorems of the supervisor

    The restart budget of every unit, which units can be active or scheduled, whose
    handles are published, and that booting ends. *)
From S2P Require Import Prelude RustStd ApTypes ApServer BootUnits ServiceManager Supervisor.

(** ** The invariant *)

(** A unit that waits to be started, and one whose process runs or starts *)
Definition startable (st : UnitStatus) : bool :=
  match st with UnitPending | UnitBackoff => true | _ => false end.
Definition running (st : UnitStatus) : bool :=
  match st with UnitStarting | UnitReady => true | _ => false end.
Definition budget (b : BootUnit) : Z := Z.max 0 (restart_limit b).
(** A unit was started at most once more often than its limit, one that waits can
    still be started, and only one that runs has a process. *)
Definition within (b : BootUnit) (u : UnitState) : Prop :=
  0 ≤ us_attempts u ≤ budget b + (if startable (us_status u) then 0 else 1) ∧
  (running (us_status u) = false → us_pid u = None).

Definition ust (s : Supervisor) (n : string) : option UnitState := unit_states (sup_state s) !! n.
Definition bunit (s : Supervisor) (n : string) : option BootUnit := units (manifest (sup_state s)) !! n.

(** [x] is a unit that is being launched: its handles may be published already. *)
Record SInv (x : option string) (s : Supervisor) : Prop := mkSInv {
  inv_units n u : ust s n = Some u → ∃ b, bunit s n = Some b ∧ within b u;
  inv_valid n b : bunit s n = Some b → unit_name b = n ∧ unit_bounds b;
  inv_pending n d : sup_pending s !! n = Some d → ∃ u, ust s n = Some u ∧ startable (us_status u) = true;
  inv_active n p : sup_active s !! n = Some p →
    ∃ u, ust s n = Some u ∧ us_pid u = Some p.1 ∧ running (us_status u) = true;
  inv_retry n : n ∈ retry_requests (sup_state s) →
    (∃ u, ust s n = Some u ∧ startable (us_status u) = true) ∧ sup_pending s !! n = None;
  inv_posted h : h ∈ sup_posted s → h = "service-manager" ∨
    ∃ n b, bunit s n = Some b ∧ h ∈ published_handles b ∧ (is_Some (sup_active s !! n) ∨ x = Some n);
}.

Definition upd (n : string) (u : UnitState) (s : Supervisor) : Supervisor :=
  set_sup_state (set_unit_states (<[n := u]> (unit_states (sup_state s))) (sup_state s)) s.

Lemma ust_upd n u s k : ust (upd n u s) k = if bool_decide (n = k) then Some u else ust s k.
Proof.
  unfold ust, upd. simpl. case_bool_decide as H; [subst; by rewrite lookup_insert_eq|].
  by rewrite lookup_insert_ne.
Qed.

(** Changing the state of one unit *)
Lemma inv_upd x n u u' s :
  SInv x s → ust s n = Some u → (∀ b, bunit s n = Some b → within b u') →
  (is_Some (sup_pending s !! n) ∨ n ∈ retry_requests (sup_state s) → startable (us_status u') = true) →
  (∀ p, sup_active s !! n = Some p → us_pid u' = Some p.1 ∧ running (us_status u') = true) →
  SInv x (upd n u' s).
Proof.
  intros I Hu Hw Hp Ha. constructor.
  - intros k v. rewrite ust_upd. case_bool_decide as Hk; [|apply I]. intros [= <-]. subst k.
    destruct (inv_units x s I n u Hu) as (b & Hb & _). exists b. split; [done|by apply Hw].
  - apply I.
  - intros k d Hd. rewrite ust_upd. case_bool_decide as Hk; [|by eapply (inv_pending x s I)].
    subst k. exists u'. split; [done|]. apply Hp. left. by exists d.
  - intros k p Hd. rewrite ust_upd. case_bool_decide as Hk; [|by eapply (inv_active x s I)].
    subst k. exists u'. destruct (Ha p Hd). done.
  - intros k Hin. destruct (inv_retry x s I k Hin) as [Hv Hn]. split; [|done].
    rewrite ust_upd. case_bool_decide as Hk; [|done]. subst k. exists u'. split; [done|]. apply Hp. by right.
  - intros h Hh. apply (inv_posted x s I h Hh).
Qed.

(** The parts of the state the invariant does not read *)
Definition same_maps (s s' : Supervisor) : Prop :=
  unit_states (sup_state s') = unit_states (sup_state s) ∧ manifest (sup_state s') = manifest (sup_state s) ∧
  retry_requests (sup_state s') = retry_requests (sup_state s) ∧ sup_pending s' = sup_pending s ∧
  sup_active s' = sup_active s ∧ sup_posted s' = sup_posted s.
Lemma sup_inv_core x s s' : same_maps s s' → SInv x s → SInv x s'.
Proof.
  intros (Hu & Hm & Hr & Hp & Ha & Ho) I.
  assert (∀ n, ust s' n = ust s n) as Hust by (intros; unfold ust; by rewrite Hu).
  assert (∀ n, bunit s' n = bunit s n) as Hb by (intros; unfold bunit; by rewrite Hm).
  constructor.
  - intros n u. rewrite Hust, Hb. apply I.
  - intros n b. rewrite Hb. apply I.
  - intros n d. rewrite Hp, Hust. apply I.
  - intros n p. rewrite Ha, Hust. apply I.
  - intros n. rewrite Hr, Hust, Hp. apply I.
  - intros h. rewrite Ho. intros Hh. destruct (inv_posted x s I h Hh) as [?|(n & b & H1 & H2 & H3)]; [by left|].
    right. exists n, b. rewrite Hb, Ha. done.
Qed.

(** ** Changes of pending, active and published *)

Lemma inv_unschedule x n s : SInv x s → SInv x (set_sup_pending (delete n (sup_pending s)) s).
Proof.
  intros I. constructor; try apply I.
  - intros k d Hd. simpl in Hd. apply lookup_delete_Some in Hd as [_ Hd]. by eapply (inv_pending x s I).
  - intros k Hin. destruct (inv_retry x s I k Hin) as [? Hk]. split; [done|]. simpl.
    apply lookup_delete_None. by right.
Qed.
Lemma inv_schedule x n d s u :
  SInv x s → ust s n = Some u → startable (us_status u) = true → n ∉ retry_requests (sup_state s) →
  SInv x (set_sup_pending (<[n := d]> (sup_pending s)) s).
Proof.
  intros I Hu Hs Hr. constructor; try apply I.
  - intros k e He. simpl in He. apply lookup_insert_Some in He as [[<- _]|[_ He]]; [by exists u|].
    by eapply (inv_pending x s I).
  - intros k Hin. destruct (inv_retry x s I k Hin) as [? Hk]. split; [done|]. simpl.
    apply lookup_insert_None. split; [done|]. by intros ->.
Qed.
Lemma inv_deactivate x n s :
  SInv x s → x = None ∨ x = Some n → SInv (Some n) (set_active (delete n (sup_active s)) s).
Proof.
  intros I Hx. constructor; try apply I.
  - intros k p Hp. simpl in Hp. apply lookup_delete_Some in Hp as [_ Hp]. by eapply (inv_active x s I).
  - intros h Hh. destruct (inv_posted x s I h Hh) as [?|(k & b & Hb & Hin & Hk)]; [by left|].
    right. exists k, b. split_and!; [done|done|]. simpl.
    destruct (decide (k = n)) as [->|Hne]; [by right|]. left. rewrite lookup_delete_ne by done.
    destruct Hk as [?|Hk]; [done|]. destruct Hx; simplify_eq.
Qed.
Lemma inv_activate n pid now s u :
  SInv (Some n) s → ust s n = Some u → us_pid u = Some pid → running (us_status u) = true →
  SInv None (set_active (<[n := (pid, now)]> (sup_active s)) s).
Proof.
  intros I Hu Hp Hr. constructor; try apply I.
  - intros k p Hk. simpl in Hk. apply lookup_insert_Some in Hk as [[<- <-]|[_ Hk]]; [by exists u|].
    by eapply (inv_active (Some n) s I).
  - intros h Hh. destruct (inv_posted (Some n) s I h Hh) as [?|(k & b & Hb & Hin & Hk)]; [by left|].
    right. exists k, b. split_and!; [done|done|]. left. simpl.
    destruct (decide (n = k)) as [->|Hne]; [by rewrite lookup_insert_eq|].
    rewrite lookup_insert_ne by done. destruct Hk as [?|Hk]; [done|]. by simplify_eq.
Qed.
Lemma inv_exempt x s n : SInv None s → SInv x s ∧ SInv (Some n) s.
Proof.
  intros I. split; constructor; try apply I; intros h Hh;
    destruct (inv_posted None s I h Hh) as [?|(k & b & Hb & Hin & [Hk|Hk])]; try done; auto;
    right; exists k, b; auto.
Qed.

Lemma posted_invalidated h' hs s :
  h' ∈ sup_posted (foldl (flip invalidate_handle) s hs) → h' ∈ sup_posted s ∧ h' ∉ hs.
Proof.
  revert s. induction hs as [|h hs IH]; intros s; simpl; [set_solver|].
  intros [Hin Hn]%IH. simpl in Hin. set_solver.
Qed.
Lemma core_invalidated hs s :
  let s' := foldl (flip invalidate_handle) s hs in
  sup_state s' = sup_state s ∧ sup_pending s' = sup_pending s ∧ sup_active s' = sup_active s.
Proof. revert s. induction hs as [|h hs IH]; intros s; [done|]. apply (IH (invalidate_handle h s)). Qed.
(** Withdrawing the handles of the unit that is exempt ends the exemption. *)
Lemma inv_withdraw n b s :
  SInv (Some n) s → bunit s n = Some b →
  SInv None (foldl (flip invalidate_handle) s (published_handles b)).
Proof.
  intros I Hb. destruct (core_invalidated (published_handles b) s) as (Hst & Hp & Ha).
  set (s' := foldl _ _ _) in *.
  constructor; unfold ust, bunit; rewrite ?Hst, ?Hp, ?Ha; try apply I.
  intros h Hh. apply posted_invalidated in Hh as [Hh Hnot].
  destruct (inv_posted (Some n) s I h Hh) as [?|(k & c & Hc & Hin & [Hk|Hk])]; [by left| |].
  - right. exists k, c. auto.
  - by simplify_eq.
Qed.

(** ** Calls of the manager state *)

(** What an exit does to a unit *)
Lemma record_exit_run st n code ms b u :
  units (manifest st) !! n = Some b → unit_states st !! n = Some u →
  ∃ st' d u', manager_record_exit n code ms st = (st', Ok d) ∧ manifest st' = manifest st ∧
    retry_requests st' = retry_requests st ∧ unit_states st' = <[n := u']> (unit_states st) ∧
    us_attempts u' = (if stable_reset_ms b <=? ms then 1 else us_attempts u) ∧ us_pid u' = None ∧
    match d with
    | RestartAfterMs delay => us_status u' = UnitBackoff ∧ us_attempts u' ≤ restart_limit b ∧
        delay = backoff_ms b (us_attempts u')
    | _ => us_status u' = UnitExited ∨ us_status u' = UnitFailed
    end.
Proof.
  intros Hb Hu. unfold manager_record_exit, manifest_get. mrun. rewrite Hb, Hu. cbv beta iota.
  unfold exited_unit. set (a := if stable_reset_ms b <=? ms then 1 else us_attempts u).
  destruct (should_restart b code); simpl; [destruct (restart_limit b <? a) eqn:Hl; simpl|].
  2:{ do 3 eexists. split_and!; try done; simpl; try done. by apply Z.ltb_ge in Hl. }
  all: unfold terminal_decision; mrun; destruct (required b); simpl;
    [|by do 3 eexists; split; [reflexivity|]; split_and!; simpl; auto].
  all: destruct (bool_decide _ && _); simpl; [by do 3 eexists; split; [reflexivity|]; split_and!; simpl; auto|].
  all: do 3 eexists; split; [reflexivity|]; split_and!; simpl; rewrite ?alter_insert_eq; simpl; auto.
Qed.

Lemma with_unit_run st n f u :
  unit_states st !! n = Some u →
  with_unit n f st = (set_unit_states (<[n := f u]> (unit_states st)) st, Ok tt).
Proof. intros Hu. unfold with_unit. mrun. by rewrite Hu. Qed.

Lemma on_state_run {A} msg (m : M ManagerState ErrorCode A) s st' r :
  m (sup_state s) = (st', r) → on_state msg m s = (set_sup_state st' s, map_err (λ _, msg) r).
Proof. intros Hm. unfold on_state. by rewrite Hm. Qed.

(** ** Starting a unit *)

(** A unit that waits and is not scheduled *)
Record at_rest (n : string) (b : BootUnit) (a : Z) (s : Supervisor) : Prop := mkAtRest {
  ar_unit : bunit s n = Some b;
  ar_state : ∃ u, ust s n = Some u ∧ startable (us_status u) = true ∧ us_attempts u = a;
  ar_pending : sup_pending s !! n = None;
  ar_retry : n ∉ retry_requests (sup_state s);
}.
(** One whose launch is under way or has failed: if its start was counted it has a
    process, if not it still waits. *)
Record starting (n : string) (b : BootUnit) (a : Z) (s : Supervisor) : Prop := mkStarting {
  sg_unit : bunit s n = Some b;
  sg_state : ∃ u, ust s n = Some u ∧
    (running (us_status u) = true ∧ is_Some (us_pid u) ∧ us_attempts u = a + 1 ∨
     startable (us_status u) = true ∧ us_attempts u = a);
  sg_pending : sup_pending s !! n = None;
  sg_retry : n ∉ retry_requests (sup_state s);
}.
Lemma at_rest_starting n b a s : at_rest n b a s → starting n b a s.
Proof. intros [? (u & ? & ? & ?) ? ?]. constructor; [done| |done..]. exists u. auto. Qed.

Lemma rest_inactive x n b a s : SInv x s → at_rest n b a s → sup_active s !! n = None.
Proof.
  intros I [_ (u & Hu & Hs & _) _ _]. destruct (sup_active s !! n) as [p|] eqn:Hp; [|done].
  destruct (inv_active x s I n p Hp) as (v & Hv & _ & Hr). rewrite Hu in Hv. injection Hv as <-.
  by destruct (us_status u).
Qed.
Lemma bunit_upd n u s k : bunit (upd n u s) k = bunit s k.
Proof. done. Qed.

(** The start of a unit at rest is counted, with or without a process. *)
Lemma start_counts x n b a s u' :
  SInv x s → at_rest n b a s → us_status u' = UnitStarting → us_attempts u' = saturating_add_u32 a 1 →
  SInv x (upd n u' s) ∧ us_attempts u' = a + 1 ∧ 0 ≤ a ≤ budget b.
Proof.
  intros I Hr Hst Hat. pose proof (rest_inactive x n b a s I Hr) as Hina.
  destruct Hr as [Hb (u & Hu & Hs & Ha) Hp Hn].
  destruct (inv_units x s I n u Hu) as (b' & Hb' & [Hw _]). simplify_eq. rewrite Hs in Hw.
  pose proof (ub_limit _ (proj2 (inv_valid x s I n b Hb))) as Hlim. unfold MAX_RESTART_ATTEMPTS in Hlim.
  assert (saturating_add_u32 (us_attempts u) 1 = us_attempts u + 1) as Hadd.
  { unfold saturating_add_u32, u32_max, u32_size, budget in *. lia. }
  split_and!; [|lia|lia..]. eapply inv_upd; [exact I|exact Hu|..].
  - intros c Hc. simplify_eq. split; rewrite Hst; simpl; [lia|done].
  - intros [[? ?]|?]; [congruence|done].
  - intros p Hact. congruence.
Qed.

Lemma run_modify {S E A} (f : S → S) (k : unit → M S E A) s : (mmodify f ≫= k) s = k tt (f s).
Proof. done. Qed.
Lemma run_value {S E A B} (m : M S E A) (k : A → M S E B) s s' a : m s = (s', Ok a) → (m ≫= k) s = k a s'.
Proof. intros Hm. unfold mbind, m_bind. by rewrite Hm. Qed.

(** ** Publishing *)

(** Everything but what is published *)
Definition same_but_posted (s s' : Supervisor) : Prop :=
  sup_state s' = sup_state s ∧ sup_pending s' = sup_pending s ∧ sup_active s' = sup_active s.
Lemma publish_run owner hs : ∀ s,
  match publish_handles owner hs s with
  | (s', r) => same_but_posted s s' ∧ (∀ h, h ∈ sup_posted s' → h ∈ sup_posted s ∨ h ∈ hs) ∧
      sup_posted s ⊆ sup_posted s' ∧
      match r with Ok _ => ∀ h, h ∈ hs → h ∈ sup_posted s' | Err _ => True | _ => False end
  end.
Proof.
  induction hs as [|h hs IH]; intros s; [split_and!; try done; [by auto|set_solver]|].
  cbn [publish_handles]. rewrite run_get. destruct (_ && _); [split_and!; try done; auto|].
  case_bool_decide; [|split_and!; try done; auto].
  rewrite run_modify. match goal with |- context [publish_handles owner hs ?x] => specialize (IH x) end.
  destruct (publish_handles owner hs _) as [s' r]. destruct IH as (Hsame & Hnew & Hold & Hr).
  split_and!; [exact Hsame| |simpl in Hold; set_solver|].
  - intros h' Hh'. apply Hnew in Hh'. simpl in Hh'. set_solver.
  - destruct r; try done. intros h' [->|Hh']%elem_of_cons; [|by apply Hr]. simpl in Hold. set_solver.
Qed.
Lemma starting_same n b a s s' : same_but_posted s s' → starting n b a s → starting n b a s'.
Proof.
  intros (Hst & Hp & _) [Hb Hu Hpe Hr].
  constructor; unfold bunit, ust in *; rewrite ?Hst, ?Hp; done.
Qed.
Lemma inv_published n b (hs : list string) s s' :
  same_but_posted s s' → (∀ h, h ∈ sup_posted s' → h ∈ sup_posted s ∨ h ∈ hs) →
  (∀ h, h ∈ hs → h ∈ published_handles b) → bunit s n = Some b → SInv (Some n) s → SInv (Some n) s'.
Proof.
  intros (Hst & Hp & Ha) Hnew Hsub Hb I.
  constructor; unfold ust, bunit; rewrite ?Hst, ?Hp, ?Ha; try apply I.
  intros h [Hh|Hh]%Hnew; [apply (inv_posted _ s I h Hh)|]. right. exists n, b. auto.
Qed.

(** ** Launching *)

Lemma start_attempt_run msg s n pid u :
  ust s n = Some u →
  on_state msg (start_attempt n pid) s =
  (upd n (mkUnitState UnitStarting (Some pid) (saturating_add_u32 (us_attempts u) 1) None
            (us_degraded u) (us_ready_once u)) s, Ok tt).
Proof. intros Hu. unfold on_state, start_attempt. by rewrite (with_unit_run _ _ _ u). Qed.
Lemma mark_ready_run msg s n u :
  ust s n = Some u →
  ∃ s', on_state msg (mark_ready n) s = (s', Ok tt) ∧
    same_maps (upd n (mkUnitState UnitReady (us_pid u) (us_attempts u) None (us_degraded u) true) s) s' ∧
    sup_entry_pid s' = sup_entry_pid s.
Proof.
  intros Hu. unfold on_state, mark_ready. mrun. rewrite (with_unit_run _ _ _ u) by done. cbv beta iota.
  simpl. eexists. split; [reflexivity|]. by destruct (all_ready _).
Qed.
(** A unit whose process started becomes ready. *)
Lemma ready_inv x n u s s' :
  SInv x s → ust s n = Some u → running (us_status u) = true → is_Some (us_pid u) →
  sup_pending s !! n = None → n ∉ retry_requests (sup_state s) →
  same_maps (upd n (mkUnitState UnitReady (us_pid u) (us_attempts u) None (us_degraded u) true) s) s' →
  SInv x s'.
Proof.
  intros I Hu Hr Hpid Hp Hn Hc. eapply sup_inv_core; [exact Hc|]. eapply inv_upd; [exact I|exact Hu|..]; simpl.
  - intros b Hb. destruct (inv_units x s I n u Hu) as (b' & Hb' & [Hw _]). simplify_eq.
    split; simpl; [|done]. destruct (us_status u); simpl in *; try done; lia.
  - intros [[? ?]|?]; [congruence|done].
  - intros p Hact. split; [|done]. destruct (inv_active x s I n p Hact) as (v & Hv & Hvp & _). by simplify_eq.
Qed.

Section launch.
Context (answers : LaunchAnswers) (n : string) (b : BootUnit) (a : Z) (s : Supervisor).
Context (I : SInv None s) (Hrest : at_rest n b a s).

(** The state after the start is counted *)
Definition started_unit (pid : Z) (u : UnitState) : UnitState :=
  mkUnitState UnitStarting (Some pid) (saturating_add_u32 (us_attempts u) 1) None
    (us_degraded u) (us_ready_once u).
Lemma started msg pid :
  ∃ u', on_state msg (start_attempt n pid) s = (upd n u' s, Ok tt) ∧ us_pid u' = Some pid ∧
    running (us_status u') = true ∧ ust (upd n u' s) n = Some u' ∧
    SInv None (upd n u' s) ∧ starting n b a (upd n u' s).
Proof.
  pose proof Hrest as [Hb (u & Hu & Hs & Ha) Hp Hr]. exists (started_unit pid u).
  assert (ust (upd n (started_unit pid u) s) n = Some (started_unit pid u)) as Hu'
    by by rewrite ust_upd, bool_decide_eq_true_2.
  destruct (start_counts None n b a s (started_unit pid u)) as (Hinv & Hcount & _);
    [done..|by rewrite <-Ha|].
  split_and!; [by apply start_attempt_run|done|done|done|done|].
  constructor; [done| |done..]. exists (started_unit pid u). split; [done|]. left.
  split_and!; [done|by eexists|done].
Qed.

Lemma launch_root_spec :
  n = ROOT_AGENT →
  match launch_root answers b s with
  | (s', Ok _) => SInv None s'
  | (s', Err _) => SInv None s' ∧ starting n b a s'
  | _ => False
  end.
Proof.
  intros Hroot. unfold launch_root. destruct (la_spawn answers) as [e|pid].
  { split; [done|by apply at_rest_starting]. }
  destruct (started "track Root Agent restart" pid) as (u' & Hrun & Hpid & Hr & Hu' & Hinv & Hst).
  rewrite run_try, <-Hroot, Hrun. cbv beta iota. destruct (la_not_ready answers) as [e|].
  - unfold detach_root, fail_if.
    assert (same_maps (upd n u' s) (add_exit pid 1 (upd n u' s))) as Hc by done.
    assert (starting n b a (add_exit pid 1 (upd n u' s))) by (destruct Hst; by constructor).
    mrun. destruct (la_detach answers); cbv beta iota; (split; [by eapply sup_inv_core|done]).
  - rewrite run_modify.
    destruct (mark_ready_run "mark Root Agent ready" (set_resume true (upd n u' s)) n u' Hu')
      as (s1 & Hready & Hcore & _).
    rewrite (run_value _ _ _ _ _ Hready), run_modify. unfold mmodify.
    assert (SInv None s1) as I1.
    { eapply (ready_inv None n u' (set_resume true (upd n u' s)));
        [by eapply sup_inv_core; [|exact Hinv]|done|done|by eexists|apply Hst|apply Hst|done]. }
    destruct (proj1 (inv_valid None s I n b (ar_unit _ _ _ _ Hrest))).
    apply (sup_inv_core None (set_active (<[unit_name b := (pid, la_now answers)]> (sup_active s1)) s1)); [done|].
    destruct Hcore as (Hus & _).
    eapply (inv_activate (unit_name b) pid); [by apply (inv_exempt None)|..].
    + unfold ust. rewrite Hus. simpl. by rewrite lookup_insert_eq.
    + done.
    + done.
Qed.

Lemma launch_unit_spec :
  n ≠ ROOT_AGENT →
  match launch answers n s with
  | (s', Ok _) => SInv None s'
  | (s', Err _) => SInv (Some n) s' ∧ starting n b a s'
  | _ => False
  end.
Proof.
  intros Hroot. pose proof (inv_exempt None s n I) as [_ I'].
  pose proof Hrest as [Hb _ _ _]. unfold launch. rewrite run_get.
  rewrite (run_value _ _ s s b) by (unfold mlift; by replace (manifest_get _ n) with (Some b)).
  rewrite bool_decide_eq_false_2 by done. destruct (la_spawn answers) as [e|pid].
  { split; [done|by apply at_rest_starting]. }
  destruct (started ("track `" +:+ n +:+ "` restart") pid) as (u' & Hrun & Hpid & Hr & Hu' & Hinv & Hst).
  rewrite (run_value _ _ _ _ _ Hrun).
  set (s0 := if bool_decide (n = "local-entry") then set_entry_pid (Some pid) (upd n u' s) else upd n u' s).
  rewrite (run_value _ _ _ s0 tt) by (unfold s0; by case_bool_decide).
  assert (same_maps (upd n u' s) s0 ∧ same_but_posted (upd n u' s) s0) as [Hc0 Hsame0]
    by (unfold s0; by case_bool_decide).
  assert (SInv (Some n) s0) as I0.
  { eapply sup_inv_core; [exact Hc0|]. by apply (inv_exempt None). }
  assert (starting n b a s0) as Hst0 by by eapply starting_same.
  pose proof (publish_run (unit_name b) (published_handles b) s0) as Hpub.
  unfold publish_unit_handles. unfold mbind at 1, m_bind at 1.
  destruct (publish_handles (unit_name b) (published_handles b) s0) as [s1 r].
  destruct Hpub as (Hsame & Hnew & _ & Hr1).
  assert (SInv (Some n) s1) as I1 by (eapply (inv_published n b); [exact Hsame|exact Hnew|done|apply Hst0|done]).
  assert (starting n b a s1) as Hst1 by by eapply starting_same.
  destruct r as [[]|e| |]; [|done..]. unfold fail_if. destruct (la_not_ready answers) as [e|]; [done|].
  rewrite (run_value _ _ s1 s1 tt) by done.
  assert (ust s1 n = Some u') as Hu1.
  { destruct Hsame as [Hsame _], Hsame0 as [Hsame0 _]. unfold ust. by rewrite Hsame, Hsame0. }
  destruct (mark_ready_run ("mark `" +:+ n +:+ "` ready") s1 n u' Hu1) as (s2 & Hready & Hcore & _).
  rewrite (run_value _ _ _ _ _ Hready). unfold mmodify. eapply (inv_activate n pid _ s2).
  - eapply (ready_inv (Some n) n u' s1); [done..|by eexists|apply Hst1|apply Hst1|done].
  - destruct Hcore as (Hus & _). unfold ust. rewrite Hus. simpl. by rewrite lookup_insert_eq.
  - done.
  - done.
Qed.
End launch.

Lemma launch_spec answers n b a s :
  SInv None s → at_rest n b a s →
  match launch answers n s with
  | (s', Ok _) => SInv None s'
  | (s', Err _) => SInv (Some n) s' ∧ starting n b a s'
  | _ => False
  end.
Proof.
  intros I Hrest. destruct (decide (n = ROOT_AGENT)) as [Hroot|Hroot]; [|by apply launch_unit_spec].
  pose proof (launch_root_spec answers n b a s I Hrest Hroot) as Hl. unfold launch. rewrite run_get.
  rewrite (run_value _ _ s s b)
    by (unfold mlift; replace (manifest_get _ n) with (Some b); [done|symmetry; apply Hrest]).
  rewrite bool_decide_eq_true_2 by done. destruct (launch_root answers b s) as [s' [|e| |]]; try done.
  destruct Hl as [I' ?]. split; [|done]. by apply (inv_exempt None).
Qed.

(** ** Exits *)

(** Recording the exit of a unit that is neither active nor scheduled *)
Lemma exit_recorded msg x n b u s code ms :
  SInv x s → bunit s n = Some b → ust s n = Some u → sup_active s !! n = None →
  sup_pending s !! n = None → n ∉ retry_requests (sup_state s) →
  ∃ s' d u', on_state msg (manager_record_exit n code ms) s = (s', Ok d) ∧ same_maps (upd n u' s) s' ∧ SInv x s' ∧
    us_attempts u' = (if stable_reset_ms b <=? ms then 1 else us_attempts u) ∧
    match d with
    | RestartAfterMs _ => startable (us_status u') = true ∧ us_attempts u' ≤ restart_limit b
    | _ => startable (us_status u') = false
    end.
Proof.
  intros I Hb Hu Ha Hp Hn. destruct (record_exit_run (sup_state s) n code ms b u Hb Hu)
    as (st' & d & u' & Hrun & Hm & Hr & Hus & Hat & Hpid & Hd).
  exists (set_sup_state st' s), d, u'. split; [by rewrite (on_state_run _ _ _ _ _ Hrun)|].
  assert (same_maps (upd n u' s) (set_sup_state st' s)) as Hc.
  { split_and!; simpl; congruence || done. }
  assert (match d with
    | RestartAfterMs _ => startable (us_status u') = true ∧ us_attempts u' ≤ restart_limit b
    | _ => startable (us_status u') = false
    end) as Hst.
  { destruct d; [destruct Hd as [-> | ->]|destruct Hd as (-> & ? & _)|destruct Hd as [-> | ->]..]; done. }
  split_and!; [done| |done|done].
  eapply sup_inv_core; [exact Hc|]. eapply inv_upd; [exact I|exact Hu|..].
  - intros b' Hb'. simplify_eq. destruct (inv_units x s I n u Hu) as (b' & Hb' & [Hw _]). simplify_eq.
    split; [|done].
    assert (0 ≤ us_attempts u' ≤ budget b + 1) as Hle.
    { rewrite Hat. unfold budget in *. destruct (_ <=? _), (startable (us_status u)); lia. }
    unfold budget in *. destruct d; [rewrite Hst|destruct Hst as [-> Hst]|rewrite Hst..]; lia.
  - intros [[? ?]|?]; [congruence|done].
  - intros p Hact. congruence.
Qed.
Lemma note_error_core msg s n error u :
  ust s n = Some u →
  on_state msg (note_error n error) s =
  (upd n (mkUnitState (us_status u) (us_pid u) (us_attempts u) (Some error) (us_degraded u)
            (us_ready_once u)) s, Ok tt).
Proof. intros Hu. unfold on_state, note_error. by rewrite (with_unit_run _ _ _ u). Qed.
Lemma note_error_inv x s n error u :
  SInv x s → ust s n = Some u →
  SInv x (upd n (mkUnitState (us_status u) (us_pid u) (us_attempts u) (Some error) (us_degraded u)
            (us_ready_once u)) s).
Proof.
  intros I Hu. eapply inv_upd; [exact I|exact Hu|..]; simpl.
  - intros b Hb. destruct (inv_units x s I n u Hu) as (b' & Hb' & Hw). by simplify_eq.
  - intros [[d Hd]|Hn].
    + destruct (inv_pending x s I n d Hd) as (v & Hv & ?). by simplify_eq.
    + destruct (inv_retry x s I n Hn) as [(v & Hv & ?) _]. by simplify_eq.
  - intros p Hp. destruct (inv_active x s I n p Hp) as (v & Hv & ? & ?). by simplify_eq.
Qed.

(** A unit that was counted once more and is scheduled only within its budget *)
Definition counted (n : string) (b : BootUnit) (a : Z) (s : Supervisor) : Prop :=
  bunit s n = Some b ∧ n ∉ retry_requests (sup_state s) ∧
  ∃ u, ust s n = Some u ∧ us_attempts u = a ∧
    (is_Some (sup_pending s !! n) → startable (us_status u) = true ∧ a ≤ restart_limit b).

Lemma inactive_deactivated n s : sup_active (set_active (delete n (sup_active s)) s) !! n = None.
Proof. simpl. by rewrite lookup_delete_eq. Qed.
Lemma invalidate_run n b s :
  bunit s n = Some b → SInv (Some n) s →
  ∃ s', invalidate_handles n s = (s', Ok tt) ∧ SInv None s' ∧ same_but_posted s s'.
Proof.
  intros Hb I. exists (foldl (flip invalidate_handle) s (published_handles b)). unfold invalidate_handles, mmodify.
  change (manifest_get (manifest (sup_state s)) n) with (bunit s n). rewrite Hb.
  split; [done|]. split; [by eapply inv_withdraw|]. apply core_invalidated.
Qed.

(** The outcome is a value, or possibly an error; the loop never waits *)
Definition succeeds {A} (r : Supervisor * result string A) (Q : Supervisor → Prop) : Prop :=
  match r with (s', Ok _) => Q s' | _ => False end.
Definition completes {A} (r : Supervisor * result string A) (Q : Supervisor → Prop) : Prop :=
  match r with (s', Ok _) => Q s' | (_, Err _) => True | _ => False end.
Lemma succeeds_completes {A} (r : Supervisor * result string A) Q : succeeds r Q → completes r Q.
Proof. destruct r as [s' []]; done. Qed.

Lemma completes_weaken {A} (r : Supervisor * result string A) (P Q : Supervisor → Prop) :
  (∀ s, P s → Q s) → completes r P → completes r Q.
Proof. destruct r as [s' []]; simpl; auto. Qed.

(** From a unit whose exit is recorded to the schedule *)
Lemma recorded_schedule now x n b u s code ms error1 msg1 msg2 :
  SInv x s → bunit s n = Some b → ust s n = Some u → sup_active s !! n = None →
  sup_pending s !! n = None → n ∉ retry_requests (sup_state s) →
  let a := if stable_reset_ms b <=? ms then 1 else us_attempts u in
  succeeds ((decision ← on_state msg1 (manager_record_exit n code ms);
             match error1 with Some e => on_state msg2 (note_error n e) | None => mret tt end;;
             apply_restart_decision now n decision) s)
    (λ s', SInv x s' ∧ counted n b a s').
Proof.
  intros I Hb Hu Ha Hp Hn a.
  destruct (exit_recorded msg1 x n b u s code ms I Hb Hu Ha Hp Hn)
    as (s1 & d & u1 & Hrun & Hc & I1 & Hat & Hd).
  rewrite (run_value _ _ _ _ _ Hrun). cbv beta.
  assert (ust s1 n = Some u1) as Hu1.
  { destruct Hc as (Hus & _). unfold ust. rewrite Hus. simpl. by rewrite lookup_insert_eq. }
  assert (∃ s2 u2, (match error1 with Some e => on_state msg2 (note_error n e) | None => mret tt end) s1 =
    (s2, Ok tt) ∧ SInv x s2 ∧ ust s2 n = Some u2 ∧ us_status u2 = us_status u1 ∧
    us_attempts u2 = us_attempts u1 ∧ bunit s2 n = Some b ∧ sup_pending s2 = sup_pending s ∧
    retry_requests (sup_state s2) = retry_requests (sup_state s)) as (s2 & u2 & Hrun2 & I2 & Hu2 & Hst & Hat2 & Hb2 & Hp2 & Hr2).
  { destruct Hc as (_ & Hm & Hr & Hpe & _).
    destruct error1 as [e|].
    - rewrite (note_error_core _ _ _ _ u1 Hu1). do 2 eexists. split; [done|].
      split; [by apply note_error_inv|]. rewrite ust_upd, bool_decide_eq_true_2 by done.
      split_and!; [done..| | |]; unfold bunit; simpl; rewrite ?Hm; done.
    - exists s1, u1. split_and!; [done..| | |]; unfold bunit; rewrite ?Hm; done. }
  rewrite (run_value _ _ _ _ _ Hrun2). cbv beta.
  assert (us_attempts u2 = a) as Ha2 by by rewrite Hat2, Hat.
  destruct d as [|delay| |]; unfold apply_restart_decision.
  2:{ unfold mmodify. rewrite <-Hst in Hd. destruct Hd as [Hd1 Hd2]. split.
      - eapply inv_schedule; [done|exact Hu2|done|by rewrite Hr2].
      - split_and!; [done|by simpl; rewrite Hr2|]. exists u2. split_and!; [done|done|]. intros _. split; [done|]. lia. }
  all: split; [done|]; split_and!; [done|by rewrite Hr2|]; exists u2; split_and!; [done|done|];
    rewrite Hp2, Hp; by intros [? ?].
Qed.

(** A failed launch withdraws the unit's handles, counts the start once and
    schedules the unit again within its budget. *)
Lemma failure_spec answers n b a s e :
  SInv (Some n) s → starting n b a s →
  completes (handle_launch_failure answers n e s) (λ s', SInv None s' ∧ counted n b (a + 1) s').
Proof.
  intros I [Hb (u & Hu & Hcase) Hp Hn]. unfold handle_launch_failure. rewrite run_get. cbv zeta.
  assert (unit_snapshot n (sup_state s) ≫= snap_pid = us_pid u) as ->.
  { unfold unit_snapshot. change (unit_states (sup_state s) !! n) with (ust s n). by rewrite Hu. }
  pose proof (ub_stable _ (proj2 (inv_valid _ s I n b Hb))) as Hst.
  pose proof (ub_initial _ (proj2 (inv_valid _ s I n b Hb))) as Hin.
  assert ((stable_reset_ms b <=? 0) = false) as Hzero by (apply Z.leb_gt; lia).
  destruct Hcase as [(Hr & [pid Hpid] & Ha)|(Hs & Ha)].
  - rewrite Hpid. pose proof (inv_deactivate (Some n) n s I (or_intror eq_refl)) as I1.
    set (s1 := set_active (delete n (sup_active s)) (add_exit pid 1 s)).
    assert (SInv (Some n) s1) as I1' by by eapply sup_inv_core; [|exact I1].
    assert (∀ s2, same_maps s1 s2 →
      completes ((invalidate_handles n;; mret tt;;
        decision ← on_state ("record `" +:+ n +:+ "` launch failure") (manager_record_exit n 1 0);
        on_state ("record `" +:+ n +:+ "` launch error") (note_error n e);;
        apply_restart_decision (la_now answers) n decision) s2)
        (λ s', SInv None s' ∧ counted n b (a + 1) s')) as Hrest.
    { intros s2 Hc. assert (SInv (Some n) s2) as I2 by by eapply sup_inv_core.
      destruct Hc as (Hus & Hm & Hrt & Hpe & Hac & _).
      destruct (invalidate_run n b s2) as (s3 & Hinv & I3 & Hst3 & Hp3 & Ha3);
        [unfold bunit; by rewrite Hm|done|].
      rewrite (run_value _ _ _ _ _ Hinv), (run_value _ _ s3 s3 tt) by done.
      pose proof (recorded_schedule (la_now answers) None n b u s3 1 0 (Some e)
        ("record `" +:+ n +:+ "` launch failure") ("record `" +:+ n +:+ "` launch error")) as Hrec.
      unfold ust, bunit in Hrec. rewrite Hst3, Hus, Hm, Hrt, Hp3, Hpe, Ha3, Hac, Hzero, Ha in Hrec.
      apply succeeds_completes. apply Hrec; [done|done|done|by apply lookup_delete_eq|done|done]. }
    case_bool_decide as Hroot.
    + unfold fail_if. destruct (la_release answers); [done|].
      apply (Hrest (set_root (sup_root s1) 0 s1)). done.
    + apply (Hrest s1). done.
  - destruct (us_pid u) as [pid|] eqn:Hpid.
    { exfalso. destruct (inv_units _ s I n u Hu) as (b' & _ & [_ Hnone]).
      rewrite Hnone in Hpid; [done|]. by destruct (us_status u). }
    rewrite (run_value _ _ s s tt) by done.
    destruct (invalidate_run n b s Hb I) as (s3 & Hinv & I3 & Hst3 & Hp3 & Ha3).
    rewrite (run_value _ _ _ _ _ Hinv).
    set (u' := mkUnitState UnitStarting None (saturating_add_u32 (us_attempts u) 1) (Some e)
                 (us_degraded u) (us_ready_once u)).
    assert (ust s3 n = Some u) as Hu3 by (unfold ust; by rewrite Hst3).
    assert (at_rest n b a s3) as Hrest.
    { constructor; unfold bunit; rewrite ?Hst3, ?Hp3; [done|by exists u|done..]. }
    destruct (start_counts None n b a s3 u' I3 Hrest) as (I4 & Hcount & _); [done|by rewrite <-Ha|].
    rewrite (run_value _ _ s3 (upd n u' s3) tt)
      by (unfold on_state, start_failure; by rewrite (with_unit_run _ _ _ u)).
    pose proof (recorded_schedule (la_now answers) None n b u' (upd n u' s3) 1 0 (Some e)
      ("record `" +:+ n +:+ "` launch failure") ("record `" +:+ n +:+ "` launch error")) as Hrec.
    rewrite Hzero, Hcount in Hrec. apply succeeds_completes, Hrec; [done|apply Hrest| | |apply Hrest..].
    + by rewrite ust_upd, bool_decide_eq_true_2.
    + by apply (rest_inactive None n b a s3).
Qed.

(** ** Scheduled and active units *)

(** An active unit is neither scheduled nor asked to be retried. *)
Lemma active_alone x n p s :
  SInv x s → sup_active s !! n = Some p → sup_pending s !! n = None ∧ n ∉ retry_requests (sup_state s).
Proof.
  intros I Hp. destruct (inv_active x s I n p Hp) as (u & Hu & _ & Hr). split.
  - destruct (sup_pending s !! n) as [d|] eqn:Hd; [|done].
    destruct (inv_pending x s I n d Hd) as (v & Hv & Hs). simplify_eq. by destruct (us_status u).
  - intros Hn. destruct (inv_retry x s I n Hn) as [(v & Hv & Hs) _]. simplify_eq. by destruct (us_status u).
Qed.

Lemma launched_spec answers n b a s :
  SInv None s → at_rest n b a s →
  completes (launch_or_record answers n s) (SInv None).
Proof.
  intros I Hrest. unfold launch_or_record. rewrite run_try.
  pose proof (launch_spec answers n b a s I Hrest) as Hl.
  destruct (launch answers n s) as [s' [|e| |]]; try done. destruct Hl as [I' Hst].
  pose proof (failure_spec answers n b a s' e I' Hst) as Hf.
  destruct (handle_launch_failure answers n e s') as [s2 []]; try done. by destruct Hf.
Qed.

Lemma exit_spec now detach n p s code :
  SInv None s → sup_active s !! n = Some p →
  completes (handle_exit now detach n p.2 code s) (SInv None).
Proof.
  intros I Hp. destruct (inv_active None s I n p Hp) as (u & Hu & _ & Hr).
  destruct (inv_units None s I n u Hu) as (b & Hb & _).
  destruct (active_alone None n p s I Hp) as [Hpe Hn].
  unfold handle_exit. rewrite run_modify. set (s1 := set_active _ s).
  assert (SInv (Some n) s1) as I1 by (apply (inv_deactivate None); auto).
  destruct (invalidate_run n b s1) as (s2 & Hinv & I2 & Hst & Hp2 & Ha2); [done..|].
  rewrite (run_value _ _ _ _ _ Hinv).
  assert (∀ s3, same_maps s2 s3 → completes ((
    decision ← on_state ("record `" +:+ n +:+ "` exit") (manager_record_exit n code (elapsed_ms now p.2));
    apply_restart_decision now n decision) s3) (SInv None)) as Hrest.
  { intros s3 Hc. assert (SInv None s3) as I3 by by eapply sup_inv_core.
    destruct Hc as (Hus & Hm & Hrt & Hpe3 & Hac & _).
    pose proof (recorded_schedule now None n b u s3 code (elapsed_ms now p.2) None
      ("record `" +:+ n +:+ "` exit") "") as Hrec.
    unfold ust, bunit in Hrec. rewrite Hus, Hm, Hrt, Hpe3, Hac, Hst, Hp2, Ha2 in Hrec.
    specialize (Hrec I3 Hb Hu (lookup_delete_eq _ _) Hpe Hn). apply succeeds_completes in Hrec.
    eapply completes_weaken; [|exact Hrec]. by intros s' [? _]. }
  case_bool_decide as Hroot; [|by apply (Hrest s2)].
  unfold mbind at 1, m_bind at 1. rewrite run_get, run_try. destruct (sup_root s2) as [root|].
  - unfold detach_root, fail_if. destruct detach as [e|]; [done|].
    by apply (Hrest (set_root None 0 (add_exit root code (set_root None (sup_root_pid s2) s2)))).
  - by apply (Hrest (set_root (sup_root s2) 0 s2)).
Qed.

(** ** What one unit's operations leave alone *)

Definition others_kept (n : string) (s s' : Supervisor) : Prop :=
  manifest (sup_state s') = manifest (sup_state s) ∧
  retry_requests (sup_state s') = retry_requests (sup_state s) ∧
  ∀ k, k ≠ n → ust s' k = ust s k ∧ sup_pending s' !! k = sup_pending s !! k ∧
    sup_active s' !! k = sup_active s !! k.
Global Instance others_kept_preorder n : PreOrder (others_kept n).
Proof.
  split; [done|]. intros s1 s2 s3 (Hm & Hr & Hk) (Hm' & Hr' & Hk').
  split_and!; [congruence..|]. intros k Hne. destruct (Hk k Hne) as (? & ? & ?), (Hk' k Hne) as (? & ? & ?).
  split_and!; congruence.
Qed.
Abbreviation keeps_others n m := (step_rel (E := string) (others_kept n) m).

(** Manager calls that change one unit *)
Definition one_unit (n : string) (st st' : ManagerState) : Prop :=
  manifest st' = manifest st ∧ retry_requests st' = retry_requests st ∧
  ∀ k, k ≠ n → unit_states st' !! k = unit_states st !! k.
Global Instance one_unit_preorder n : PreOrder (one_unit n).
Proof.
  split; [done|]. intros s1 s2 s3 (Hm & Hr & Hk) (Hm' & Hr' & Hk'). split_and!; [congruence..|].
  intros k Hne. by rewrite Hk', Hk.
Qed.
Lemma with_unit_one n f : step_rel (one_unit n) (with_unit n f).
Proof.
  intros st. unfold with_unit. mrun. destruct (unit_states st !! n); [|done]. simpl.
  split_and!; [done..|]. intros k Hne. simpl. by rewrite lookup_insert_ne.
Qed.
Lemma mark_ready_one n : step_rel (one_unit n) (mark_ready n).
Proof.
  apply step_bind; [apply _|apply with_unit_one|]. intros _. apply step_modify. intros st.
  by destruct (all_ready _).
Qed.
Lemma record_exit_one n code ms : step_rel (one_unit n) (manager_record_exit n code ms).
Proof.
  intros st. unfold manager_record_exit. mrun. destruct (manifest_get _ n) as [b|] eqn:Hb; [|done].
  destruct (unit_states st !! n) as [u|] eqn:Hu; [|done].
  destruct (record_exit_run st n code ms b u Hb Hu) as (st' & d & u' & Hrun & Hm & Hr & Hus & _).
  unfold manager_record_exit in Hrun. munfold. rewrite Hb, Hu in Hrun. simpl in Hrun. rewrite Hrun. simpl.
  split_and!; [done..|]. intros k Hne. by rewrite Hus, lookup_insert_ne.
Qed.
Lemma on_state_others {A} n msg (m : M ManagerState ErrorCode A) :
  step_rel (one_unit n) m → keeps_others n (on_state msg m).
Proof.
  intros Hm s. unfold on_state. specialize (Hm (sup_state s)). destruct (m (sup_state s)) as [st r]. simpl in *.
  destruct Hm as (H1 & H2 & H3). split_and!; [done..|]. intros k Hne. split_and!; [|done..]. by apply H3.
Qed.
Lemma modify_others n f : (∀ s, others_kept n s (f s)) → keeps_others n (mmodify f).
Proof. apply step_modify. Qed.
Lemma fail_if_others n e : keeps_others n (fail_if e).
Proof. by destruct e. Qed.
Lemma posted_others n s s' : same_but_posted s s' → others_kept n s s'.
Proof. intros (Hs & Hp & Ha). unfold others_kept, ust. rewrite Hs, Hp, Ha. done. Qed.
Lemma invalidate_others n k : keeps_others n (invalidate_handles k).
Proof.
  apply step_modify. intros s. destruct (manifest_get _ k) as [b|]; [|done].
  apply posted_others, core_invalidated.
Qed.
Lemma publish_others n owner hs : keeps_others n (publish_handles owner hs).
Proof.
  intros s. pose proof (publish_run owner hs s) as Hp. destruct (publish_handles owner hs s) as [s' r].
  destruct Hp as [Hp _]. by apply posted_others.
Qed.
Global Hint Resolve on_state_others with_unit_one mark_ready_one record_exit_one fail_if_others
  invalidate_others publish_others : alan.

(** An update of the supervisor at [n] or outside the maps *)
Ltac others_update :=
  apply step_modify; intros ?; split_and!; [done..|]; intros ? ?; split_and!; simpl;
  repeat (case_match; simpl); rewrite ?lookup_insert_ne, ?lookup_delete_ne by done; done.
Ltac others :=
  repeat first
    [ solve [eauto 6 with alan typeclass_instances]
    | solve [others_update]
    | apply step_bind; [by apply _| |intros ?]
    | apply step_try
    | match goal with
      | |- step_rel _ (match ?x with _ => _ end) => destruct x
      end ].

Lemma start_others n msg pid : keeps_others n (on_state msg (start_attempt n pid)).
Proof. apply on_state_others, with_unit_one. Qed.
Lemma start_failure_others n msg e : keeps_others n (on_state msg (start_failure n e)).
Proof. apply on_state_others, with_unit_one. Qed.
Lemma note_error_others n msg e : keeps_others n (on_state msg (note_error n e)).
Proof. apply on_state_others, with_unit_one. Qed.
Global Hint Resolve start_others start_failure_others note_error_others : alan.

Lemma decision_others now n d : keeps_others n (apply_restart_decision now n d).
Proof. unfold apply_restart_decision. others. Qed.
Lemma detach_others n pid code e : keeps_others n (detach_root pid code e).
Proof. unfold detach_root. others. Qed.
Global Hint Resolve decision_others detach_others : alan.
Lemma exit_others now detach n started code : keeps_others n (handle_exit now detach n started code).
Proof. unfold handle_exit. others. Qed.
Lemma failure_others answers n e : keeps_others n (handle_launch_failure answers n e).
Proof. unfold handle_launch_failure. others. Qed.
Lemma launch_root_others answers u : unit_name u = ROOT_AGENT → keeps_others ROOT_AGENT (launch_root answers u).
Proof. intros Hu. unfold launch_root. rewrite Hu. others. Qed.
Lemma launch_others answers n s b :
  bunit s n = Some b → unit_name b = n → others_kept n s (launch answers n s).1.
Proof.
  intros Hb Hname. unfold launch. rewrite run_get.
  rewrite (run_value _ _ s s b) by (unfold mlift; by replace (manifest_get _ n) with (Some b)).
  case_bool_decide as Hroot; [rewrite Hroot in *; by apply launch_root_others|].
  match goal with |- others_kept _ _ (?m s).1 => enough (keeps_others n m) as Hm by apply Hm end.
  unfold publish_unit_handles. others.
Qed.

(** ** Ticks *)

Lemma completes_bind {A B} (m : Sup A) (k : A → Sup B) s P Q :
  completes (m s) P → (∀ a s', m s = (s', Ok a) → P s' → completes (k a s') Q) → completes ((m ≫= k) s) Q.
Proof.
  unfold mbind, m_bind. destruct (m s) as [s' [a|e| |]]; simpl; [|done..]. intros HP Hk. by apply Hk.
Qed.
Lemma each_completes {A} (f : A → Sup unit) (P : list A → Supervisor → Prop) :
  (∀ x l s, P (x :: l) s → completes (f x s) (P l)) →
  ∀ l s, P l s → completes (sup_each f l s) (P []).
Proof.
  intros Hf. induction l as [|x l IH]; intros s HP; [done|]. cbn [sup_each].
  eapply completes_bind; [by apply Hf|]. intros [] s' _ HP'. by apply IH.
Qed.

Lemma take_retries_inv s :
  SInv None s →
  let s' := set_sup_state (mkManager (manifest (sup_state s)) (sys_status (sup_state s))
                             (unit_states (sup_state s)) []) s in
  on_state "retry" take_retry_requests s = (s', Ok (retry_requests (sup_state s))) ∧ SInv None s'.
Proof.
  intros I. split; [done|]. constructor; try apply I. intros n Hn. simpl in Hn. set_solver.
Qed.
(** Retries: each waits, and no request is left *)
Definition retries_left (l : list string) (s : Supervisor) : Prop :=
  SInv None s ∧ retry_requests (sup_state s) = [] ∧
  ∀ n, n ∈ l → ∃ u, ust s n = Some u ∧ startable (us_status u) = true.
Lemma queue_retry_spec now n l s :
  retries_left (n :: l) s → completes (queue_retry now n s) (retries_left l).
Proof.
  intros (I & Hr & Hl). unfold queue_retry, mmodify. simpl. destruct (isSome _).
  - split_and!; [done..|]. set_solver.
  - destruct (Hl n) as (u & Hu & Hs); [set_solver|]. split_and!; [|done|].
    + eapply inv_schedule; [done|exact Hu|done|]. rewrite Hr. set_solver.
    + intros k Hk. apply Hl. set_solver.
Qed.
(** Active units that are still to be looked at *)
Definition actives_left (l : list (string * (Z * Z))) (s : Supervisor) : Prop :=
  SInv None s ∧ NoDup l.*1 ∧ ∀ n p, (n, p) ∈ l → sup_active s !! n = Some p.
Lemma check_active_spec i x l s :
  actives_left (x :: l) s → completes (check_active i x s) (actives_left l).
Proof.
  destruct x as [n [pid started]]. intros (I & Hnd & Hl). simpl in Hnd. apply NoDup_cons in Hnd as [Hn Hnd].
  unfold check_active. destruct (tick_exited i pid) as [code|].
  2:{ split_and!; [done..|]. intros k p Hk. apply Hl. by right. }
  pose proof (exit_spec (tick_now i) (tick_detach i) n (pid, started) s (default 1 code) I) as He.
  pose proof (exit_others (tick_now i) (tick_detach i) n started (default 1 code) s) as (_ & _ & Ho).
  specialize (He (Hl _ _ (list_elem_of_here _ _))). simpl in He.
  destruct (handle_exit _ _ _ _ _ _) as [s' []]; try done. simpl in *.
  split_and!; [done..|]. intros k p Hk. destruct (Ho k) as (_ & _ & ->); [|apply Hl; by right].
  intros ->. apply Hn. apply list_elem_of_fmap. by exists (n, p).
Qed.
(** Scheduled units that are still to be launched *)
Definition due_left (l : list string) (s : Supervisor) : Prop :=
  SInv None s ∧ NoDup l ∧ ∀ n, n ∈ l → is_Some (sup_pending s !! n).
Lemma pending_at_rest n d s :
  SInv None s → sup_pending s !! n = Some d →
  ∃ b a, at_rest n b a (set_sup_pending (delete n (sup_pending s)) s).
Proof.
  intros I Hd. destruct (inv_pending None s I n d Hd) as (u & Hu & Hs).
  destruct (inv_units None s I n u Hu) as (b & Hb & _). exists b, (us_attempts u).
  constructor; [done|by exists u|simpl; by rewrite lookup_delete_eq|].
  intros Hn. destruct (inv_retry None s I n Hn) as [_ ?]. congruence.
Qed.
Lemma launch_due_spec i n l s : due_left (n :: l) s → completes (launch_due i n s) (due_left l).
Proof.
  intros (I & Hnd & Hl). apply NoDup_cons in Hnd as [Hn Hnd].
  destruct (Hl n (list_elem_of_here _ _)) as [d Hd].
  destruct (pending_at_rest n d s I Hd) as (b & a & Hrest).
  unfold launch_due. rewrite run_modify. set (s1 := set_sup_pending _ s) in *.
  assert (SInv None s1) as I1 by by apply inv_unschedule.
  pose proof (launched_spec (tick_launch i n) n b a s1 I1 Hrest) as Hs.
  pose proof (launch_others (tick_launch i n) n s1 b (ar_unit _ _ _ _ Hrest)
    (proj1 (inv_valid None s1 I1 n b (ar_unit _ _ _ _ Hrest)))) as Ho.
  unfold launch_or_record in *. rewrite run_try in *.
  destruct (launch (tick_launch i n) n s1) as [s2 [|e| |]] eqn:Hlaunch; try done; simpl in *.
  - split_and!; [done..|]. intros k Hk. destruct Ho as (_ & _ & Ho).
    destruct (Ho k) as (_ & -> & _); [by intros ->|]. simpl. rewrite lookup_delete_ne by (by intros ->).
    apply Hl. by right.
  - pose proof (failure_others (tick_launch i n) n e s2) as Ho2.
    destruct (handle_launch_failure _ n e s2) as [s3 []]; try done. simpl in *.
    split_and!; [done..|]. intros k Hk. destruct Ho as (_ & _ & Ho), Ho2 as (_ & _ & Ho2).
    assert (k ≠ n) as Hne by by intros ->.
    destruct (Ho2 k Hne) as (_ & -> & _), (Ho k Hne) as (_ & -> & _). simpl.
    rewrite lookup_delete_ne by done. apply Hl. by right.
Qed.

Lemma sorted_keys_nodup {V} (m : gmap string V) : NoDup (sorted_keys m).
Proof. unfold sorted_keys. rewrite merge_sort_Permutation. apply NoDup_fst_map_to_list. Qed.
Lemma omap_fst_filter {V} (m : gmap string V) (l : list string) :
  (omap (λ n, (n,.) <$> m !! n) l).*1 = filter (λ n, is_Some (m !! n)) l.
Proof.
  induction l as [|n l IH]; [done|]. cbn [omap list_omap]. destruct (m !! n) as [v|] eqn:Hn.
  - rewrite filter_cons_True by (rewrite Hn; by eexists). simpl. f_equal. exact IH.
  - rewrite filter_cons_False by (rewrite Hn; by intros [? ?]). exact IH.
Qed.

Lemma tick_spec i s : SInv None s → completes (tick i s) (SInv None).
Proof.
  intros I. unfold tick. destruct (take_retries_inv s I) as [Htake I1].
  rewrite (run_value _ _ _ _ _ Htake).
  eapply completes_bind; [apply (each_completes _ retries_left (queue_retry_spec (tick_now i)))|].
  { split_and!; [done..|]. intros n Hn. destruct (inv_retry None s I n Hn) as [? _]. done. }
  intros [] s2 _ (I2 & _). rewrite run_get.
  eapply completes_bind; [apply (each_completes _ actives_left (check_active_spec i))|].
  { split_and!; [done| |].
    - rewrite omap_fst_filter. apply NoDup_filter, sorted_keys_nodup.
    - intros n p (k & _ & Hk)%list_elem_of_omap. apply fmap_Some in Hk as (q & Hq & Heq). by simplify_eq. }
  intros [] s3 _ (I3 & _). rewrite run_get.
  eapply completes_weaken; [|apply (each_completes _ due_left (launch_due_spec i))].
  - by intros s' [? _].
  - split_and!; [done|apply NoDup_filter, sorted_keys_nodup|].
    intros n [_ Hn]%list_elem_of_filter. by apply elem_of_sorted_keys.
Qed.
