(* ===== verification/BootRun.v ===== *)
(** * Theorems of booting

    The boot loop starts each unit when its dependencies are ready and always ends;
    the invariant of the supervisor holds from boot on, over ticks and retries. *)
From S2P Require Import Prelude RustStd ApTypes ApServer BootUnits ServiceManager Supervisor SupervisorFacts.

(** ** One unit of the boot loop *)

Lemma inv_withdrawn n b s s' :
  SInv (Some n) s → bunit s n = Some b → same_but_posted s s' →
  (∀ h, h ∈ sup_posted s' → h ∈ sup_posted s ∧ h ∉ published_handles b) → SInv None s'.
Proof.
  intros I Hb (Hst & Hp & Ha) Hw.
  constructor; unfold ust, bunit; rewrite ?Hst, ?Hp, ?Ha; try apply I.
  intros h [Hh Hnot]%Hw. destruct (inv_posted (Some n) s I h Hh) as [?|(k & c & Hc & Hin & [Hk|Hk])]; [by left| |].
  - right. exists k, c. auto.
  - by simplify_eq.
Qed.
Lemma unposted hs : ∀ s,
  let s' := foldl (λ s h, set_handles (sup_posted s ∖ {[h]}) (sup_package_bound s) s) s hs in
  same_but_posted s s' ∧ ∀ h, h ∈ sup_posted s' → h ∈ sup_posted s ∧ h ∉ hs.
Proof.
  induction hs as [|h hs IH]; intros s; simpl; [split; [done|set_solver]|].
  destruct (IH (set_handles (sup_posted s ∖ {[h]}) (sup_package_bound s) s)) as [Hsame Hin].
  split; [done|]. intros h' [Hh' Hn]%Hin. simpl in Hh'. set_solver.
Qed.

(** A started unit: its process runs and its handles are published *)
Definition up (n : string) (b : BootUnit) (p : Z * Z) (s : Supervisor) : Prop :=
  bunit s n = Some b ∧ sup_pending s !! n = None ∧ n ∉ retry_requests (sup_state s) ∧
  ∃ u, ust s n = Some u ∧ us_pid u = Some p.1 ∧ running (us_status u) = true.

Lemma boot_attempt_spec answers n b a s :
  SInv None s → at_rest n b a s →
  match boot_attempt answers b s with
  | (s', Ok p) => SInv (Some n) s' ∧ up n b p s'
  | (s', Err _) => SInv (Some n) s' ∧ starting n b a s'
  | _ => False
  end.
Proof.
  intros I Hrest. pose proof (inv_exempt None s n I) as [_ I'].
  pose proof (proj1 (inv_valid None s I n b (ar_unit _ _ _ _ Hrest))) as Hname.
  assert (SInv (Some n) s ∧ starting n b a s) as Hfail by (split; [done|by apply at_rest_starting]).
  unfold boot_attempt. rewrite Hname. cbv zeta.
  assert ((if bool_decide (n = "local-entry") then mount_service_handles else mret tt) s = (s, Ok tt) ∨
    ∃ e, (if bool_decide (n = "local-entry") then mount_service_handles else mret tt) s = (s, Err e))
    as [Hm|[e Hm]].
  { case_bool_decide; [|by left]. unfold mount_service_handles. rewrite run_get.
    destruct (forallb _ _); [by left|right; by eexists]. }
  2:{ unfold mbind, m_bind. by rewrite Hm. }
  rewrite (run_value _ _ _ _ _ Hm). destruct (la_spawn answers) as [e|pid]; [done|].
  destruct (started n b a s I Hrest ("track " +:+ n +:+ " start") pid)
    as (u' & Hrun & Hpid & Hr & Hu' & Hinv & Hst).
  rewrite (run_value _ _ _ _ _ Hrun).
  set (s0 := if bool_decide (n = "local-entry") then set_entry_pid (Some pid) (upd n u' s) else upd n u' s).
  rewrite (run_value _ _ _ s0 tt) by (unfold s0; by case_bool_decide).
  assert (same_maps (upd n u' s) s0 ∧ same_but_posted (upd n u' s) s0) as [Hc0 Hsame0]
    by (unfold s0; by case_bool_decide).
  assert (SInv (Some n) s0) as I0 by (eapply sup_inv_core; [exact Hc0|]; by apply (inv_exempt None)).
  assert (starting n b a s0) as Hst0 by by eapply starting_same.
  pose proof (publish_run (unit_name b) (published_handles b) s0) as Hpub.
  unfold publish_unit_handles. unfold mbind at 1, m_bind at 1.
  destruct (publish_handles (unit_name b) (published_handles b) s0) as [s1 r].
  destruct Hpub as (Hsame & Hnew & _ & Hr1).
  assert (SInv (Some n) s1) as I1 by (eapply (inv_published n b); [exact Hsame|exact Hnew|done|apply Hst0|done]).
  assert (starting n b a s1) as Hst1 by by eapply starting_same.
  destruct r as [[]|e| |]; [|done..]. unfold fail_if. destruct (la_not_ready answers) as [e|]; [done|].
  split; [done|]. split_and!; [apply Hst1..|]. exists u'. split_and!; [|done..].
  destruct Hsame as [Hsame _], Hsame0 as [Hsame0 _]. unfold ust. by rewrite Hsame, Hsame0.
Qed.

(** An attempt does not touch the active units. *)
Definition active_same (s s' : Supervisor) : Prop := sup_active s' = sup_active s.
Global Instance active_same_preorder : PreOrder active_same.
Proof. split; [done|]. unfold active_same. congruence. Qed.
Lemma on_state_active {A} msg (m : M ManagerState ErrorCode A) : step_rel active_same (on_state msg m).
Proof. intros s. unfold on_state. by destruct (m (sup_state s)). Qed.
Lemma publish_active owner hs : step_rel active_same (publish_handles owner hs).
Proof.
  intros s. pose proof (publish_run owner hs s) as Hp. destruct (publish_handles owner hs s) as [s' r].
  by destruct Hp as [(_ & _ & ?) _].
Qed.
Lemma boot_attempt_active answers b : step_rel active_same (boot_attempt answers b).
Proof.
  unfold boot_attempt, publish_unit_handles, mount_service_handles, fail_if. cbv zeta.
  repeat first
    [ apply on_state_active | apply publish_active | apply step_modify; by intros ?
    | solve [eauto with alan typeclass_instances]
    | apply step_bind; [by apply _| |intros ?]
    | match goal with |- step_rel _ (match ?x with _ => _ end) => destruct x end ].
Qed.

(** A failed attempt is counted; the unit waits again within its budget. *)
Lemma boot_failure_spec n b a s e :
  SInv (Some n) s → starting n b a s → sup_active s !! n = None →
  match boot_failure b e s with
  | (s', Ok (RestartAfterMs _)) => SInv None s' ∧ at_rest n b (a + 1) s' ∧ a + 1 ≤ restart_limit b
  | (_, Ok _) | (_, Err _) => True
  | _ => False
  end.
Proof.
  intros I [Hb (u & Hu & Hcase) Hp Hn] Hact. pose proof (proj1 (inv_valid _ s I n b Hb)) as Hname.
  pose proof (ub_stable _ (proj2 (inv_valid _ s I n b Hb))) as Hstable.
  pose proof (ub_initial _ (proj2 (inv_valid _ s I n b Hb))) as Hinit.
  unfold boot_failure. rewrite Hname. cbv zeta. rewrite run_get.
  assert (unit_snapshot n (sup_state s) ≫= snap_pid = us_pid u) as ->.
  { unfold unit_snapshot. change (unit_states (sup_state s) !! n) with (ust s n). by rewrite Hu. }
  assert (∃ s1 u1, (match us_pid u with
    | Some pid => mmodify (add_exit pid 1)
    | None => on_state ("track " +:+ n +:+ " failure") (start_failure n e)
    end) s = (s1, Ok tt) ∧ SInv (Some n) s1 ∧ ust s1 n = Some u1 ∧ us_attempts u1 = a + 1 ∧
    bunit s1 n = Some b ∧ sup_active s1 = sup_active s ∧ sup_pending s1 = sup_pending s ∧
    retry_requests (sup_state s1) = retry_requests (sup_state s))
    as (s1 & u1 & Hpre & I1 & Hu1 & Ha1 & Hb1 & Hac1 & Hp1 & Hr1).
  { destruct Hcase as [(_ & [pid ->] & Ha)|(Hs & Ha)].
    - exists (add_exit pid 1 s), u. split_and!; try done. by eapply sup_inv_core; [|exact I].
    - destruct (us_pid u) as [pid|] eqn:Hpid.
      { exfalso. destruct (inv_units _ s I n u Hu) as (b' & _ & [_ Hnone]).
        rewrite Hnone in Hpid; [done|]. by destruct (us_status u). }
      set (u' := mkUnitState UnitStarting None (saturating_add_u32 (us_attempts u) 1) (Some e)
                   (us_degraded u) (us_ready_once u)).
      destruct (start_counts (Some n) n b a s u' I) as (I4 & Hcount & _);
        [by constructor; [|exists u| |]|done|by rewrite <-Ha|].
      exists (upd n u' s), u'. split_and!; try done.
      + unfold on_state, start_failure. by rewrite (with_unit_run _ _ _ u).
      + by rewrite ust_upd, bool_decide_eq_true_2. }
  rewrite (run_value _ _ _ _ _ Hpre), run_modify. destruct (unposted (published_handles b) s1) as [Hsame Hgone].
  set (s2 := foldl _ s1 (published_handles b)) in *.
  assert (SInv None s2) as I2 by by eapply inv_withdrawn.
  destruct Hsame as (Hst2 & Hp2 & Hac2).
  destruct (exit_recorded ("record " +:+ n +:+ " failure") None n b u1 s2 1 0)
    as (s3 & d & u3 & Hrun & Hc & I3 & Hat & Hd);
    [done|unfold bunit; by rewrite Hst2|unfold ust; by rewrite Hst2|congruence|congruence|by rewrite Hst2, Hr1|].
  rewrite (run_value _ _ _ _ _ Hrun).
  assert (ust s3 n = Some u3) as Hu3.
  { destruct Hc as (Hus & _). unfold ust. rewrite Hus. simpl. by rewrite lookup_insert_eq. }
  rewrite (run_value _ _ _ _ _ (note_error_core _ _ _ _ u3 Hu3)). cbn [mret m_ret].
  rewrite (proj2 (Z.leb_gt (stable_reset_ms b) 0)), Ha1 in Hat by lia.
  destruct d as [|delay| |]; try done. destruct Hd as [Hd1 Hd2]. destruct Hc as (_ & Hm & Hr & Hpe & _).
  split; [by apply note_error_inv|]. split; [|lia]. constructor.
  - unfold bunit. simpl. rewrite Hm. simpl. by rewrite Hst2.
  - eexists. rewrite ust_upd, bool_decide_eq_true_2 by done. split_and!; [done..|]. simpl. lia.
  - simpl. rewrite Hpe. simpl. congruence.
  - simpl. rewrite Hr. simpl. by rewrite Hst2, Hr1.
Qed.

(** ** The loop over the units *)

(** What a unit is after the loop left it *)
Definition ready_unit (n : string) (s : Supervisor) : Prop :=
  ∃ u, ust s n = Some u ∧ us_status u = UnitReady.

Lemma boot_unit_go_spec n b : ∀ script a s,
  SInv None s → at_rest n b a s →
  match boot_unit_go script b s with
  | (s', Ok _) => SInv None s' ∧ ready_unit n s'
  | (_, Err _) => True
  | (_, Park) => Z.of_nat (length script) < budget b + 1 - a
  | (_, Panic) => False
  end.
Proof.
  induction script as [|answers script IH]; intros a s I Hrest.
  { simpl. pose proof Hrest as [Hb (u & Hu & Hs & <-) _ _].
    destruct (inv_units None s I n u Hu) as (b' & Hb' & [Hw _]). simplify_eq. rewrite Hs in Hw. lia. }
  cbn [boot_unit_go]. rewrite run_try.
  pose proof (boot_attempt_spec answers n b a s I Hrest) as Ha.
  pose proof (boot_attempt_active answers b s) as Hact.
  pose proof (rest_inactive None n b a s I Hrest) as Hina.
  pose proof (proj1 (inv_valid None s I n b (ar_unit _ _ _ _ Hrest))) as Hname.
  destruct (boot_attempt answers b s) as [s1 [p|e| |]]; [| |done..]; simpl in Hact.
  - destruct Ha as (I1 & Hb1 & Hp1 & Hr1 & u & Hu & Hpid & Hrun). rewrite Hname.
    destruct (mark_ready_run ("mark " +:+ n +:+ " ready") s1 n u Hu) as (s2 & Hready & Hcore & _).
    rewrite (run_value _ _ _ _ _ Hready). unfold mmodify.
    assert (SInv (Some n) s2) as I2.
    { eapply (ready_inv (Some n) n u s1); done. }
    destruct Hcore as (Hus & _).
    assert (ust s2 n = Some (mkUnitState UnitReady (us_pid u) (us_attempts u) None (us_degraded u) true)) as Hu2.
    { unfold ust. rewrite Hus. simpl. by rewrite lookup_insert_eq. }
    destruct p as [pid now]. split; [by eapply inv_activate|]. by eexists.
  - destruct Ha as [I1 Hst1].
    pose proof (boot_failure_spec n b a s1 e I1 Hst1) as Hf. rewrite Hact in Hf. specialize (Hf Hina).
    unfold mbind, m_bind. destruct (boot_failure b e s1) as [s2 [d|e'| |]]; try done.
    destruct d as [|delay| |]; try done. destruct Hf as (I2 & Hrest2 & Hlim).
    specialize (IH (a + 1) s2 I2 Hrest2). destruct (boot_unit_go script b s2) as [s3 []]; try done.
    simpl. lia.
Qed.

Lemma mount_others n : keeps_others n mount_service_handles.
Proof. unfold mount_service_handles. others. Qed.
Lemma unposted_others n hs :
  keeps_others n (mmodify (λ s, foldl (λ s h, set_handles (sup_posted s ∖ {[h]}) (sup_package_bound s) s) s hs)).
Proof. apply step_modify. intros s. apply posted_others, unposted. Qed.
Global Hint Resolve mount_others unposted_others : alan.
Lemma wait_others {A} n : keeps_others n (@wait A).
Proof. done. Qed.
Global Hint Resolve wait_others : alan.
Lemma boot_attempt_others answers b : keeps_others (unit_name b) (boot_attempt answers b).
Proof. unfold boot_attempt, publish_unit_handles. others. Qed.
Lemma boot_failure_others b e : keeps_others (unit_name b) (boot_failure b e).
Proof. unfold boot_failure. others. Qed.
Global Hint Resolve boot_attempt_others boot_failure_others : alan.
Lemma boot_unit_go_others b script : keeps_others (unit_name b) (boot_unit_go script b).
Proof.
  induction script as [|answers script IH]; [done|]. cbn [boot_unit_go]. others.
Qed.

(** Units at rest whose turn is still to come, and those that are ready *)
Definition units_left (l : list BootUnit) (done_ : list string) (s : Supervisor) : Prop :=
  SInv None s ∧ NoDup ((unit_name <$> l) ++ done_) ∧
  (∀ b, b ∈ l → at_rest (unit_name b) b 0 s) ∧ (∀ n, n ∈ done_ → ready_unit n s).
Definition scripts_suffice (script : string → list LaunchAnswers) (l : list BootUnit) : Prop :=
  ∀ b, b ∈ l → budget b + 1 ≤ Z.of_nat (length (script (unit_name b))).

Lemma at_rest_kept n k b a s s' : k ≠ n → others_kept n s s' → at_rest k b a s → at_rest k b a s'.
Proof.
  intros Hne (Hm & Hr & Ho) [Hb Hu Hp Hrt]. destruct (Ho k Hne) as (Hust & Hpe & _).
  constructor; unfold bunit; rewrite ?Hm, ?Hust, ?Hpe, ?Hr; done.
Qed.

Lemma boot_units_spec script : ∀ l done_ s,
  units_left l done_ s →
  match boot_units script l s with
  | (s', Ok _) => units_left [] (reverse (unit_name <$> l) ++ done_) s'
  | (_, Err _) => True
  | (_, Park) => ¬ scripts_suffice script l
  | (_, Panic) => False
  end.
Proof.
  induction l as [|b l IH]; intros done_ s Hl; [done|]. cbn [boot_units].
  destruct Hl as (I & Hnd & Hrest & Hdone).
  pose proof (boot_unit_go_spec (unit_name b) b (script (unit_name b)) 0 s I (Hrest b (list_elem_of_here _ _))) as Hgo.
  pose proof (boot_unit_go_others b (script (unit_name b)) s) as Ho.
  unfold mbind, m_bind. destruct (boot_unit_go (script (unit_name b)) b s) as [s1 [x|e| |]]; [|done| |done]; simpl in Ho.
  2:{ intros Hs. specialize (Hs b (list_elem_of_here _ _)). lia. }
  destruct Hgo as [I1 Hready]. simpl in Hnd. apply NoDup_cons in Hnd as [Hnot Hnd].
  assert (units_left l (unit_name b :: done_) s1) as Hnext.
  { split_and!; [done| | |].
    - apply NoDup_app in Hnd as (H1 & H2 & H3). apply NoDup_app. split_and!; [done| |].
      + intros y Hy [->|Hd]%elem_of_cons; [set_solver|]. by apply (H2 y).
      + constructor; [set_solver|done].
    - intros c Hc. assert (unit_name c ≠ unit_name b) as Hne.
      { intros Heq. apply Hnot, elem_of_app. left. rewrite <-Heq. by apply list_elem_of_fmap_2. }
      eapply at_rest_kept; [exact Hne|exact Ho|]. apply Hrest. by right.
    - intros k [->|Hk]%elem_of_cons; [done|]. destruct (Hdone k Hk) as (u & Hu & Hst). exists u.
      destruct Ho as (_ & _ & Ho). destruct (Ho k) as (-> & _); [|done]. intros ->. apply Hnot. set_solver. }
  specialize (IH _ _ Hnext). destruct (boot_units script l s1) as [s2 [y|e| |]]; try done.
  - rewrite fmap_cons, reverse_cons, <-app_assoc. done.
  - intros Hs. apply IH. intros c Hc. apply Hs. by right.
Qed.

Lemma filter_split {A} (P : A → Prop) `{!∀ x, Decision (P x)} us l1 b l2 :
  filter P us = l1 ++ b :: l2 → ∃ u1 u2, us = u1 ++ b :: u2 ∧ filter P u1 = l1.
Proof.
  revert l1. induction us as [|u us IH]; intros l1; [by destruct l1|]. rewrite filter_cons. case_decide as Hu.
  - destruct l1 as [|x l1]; simpl; intros [= -> Hl].
    + by exists [], us.
    + destruct (IH l1 Hl) as (u1 & u2 & -> & Hf). exists (x :: u1), u2. split; [done|].
      rewrite filter_cons, decide_True by done. by f_equal.
  - intros Hl. destruct (IH l1 Hl) as (u1 & u2 & -> & Hf). exists (u :: u1), u2. split; [done|].
    by rewrite filter_cons, decide_False.
Qed.

Lemma boot_units_manifest script l : ∀ s s' r m,
  boot_units script l s = (s', r) → manifest (sup_state s) = m → manifest (sup_state s') = m.
Proof.
  induction l as [|b l IH]; intros s s' r m; cbn [boot_units]; [by intros [= <- _]|].
  pose proof (boot_unit_go_others b (script (unit_name b)) s) as (Hm & _). unfold mbind, m_bind.
  destruct (boot_unit_go (script (unit_name b)) b s) as [s1 [x|e| |]]; simpl in Hm;
    [|by intros [= <- _] <-..]. intros Hrun <-. by eapply IH.
Qed.

(** ** From the manifest on *)

Section booted.
Context (toml : string → option BootUnit) (docs : list string) (m : BootManifest) (st : ManagerState).
Context (Hparse : manifest_parse toml docs = inr m) (Hnew : manager_new m = Some st).

Lemma ordered_units us :
  ordered m = Some us →
  unit_name <$> us = order m ∧ Forall (λ u, units m !! unit_name u = Some u) us.
Proof.
  destruct (parsed_manifest _ _ _ Hparse) as (Hvalid & _). unfold ordered.
  generalize (order m). intros l. revert us. induction l as [|n l IH]; intros us; simpl.
  { intros [= <-]. done. }
  destruct (units m !! n) as [u|] eqn:Hu; simpl; [|done].
  destruct (mapM _ l) as [us'|] eqn:Hm; simpl; [|done]. intros [= <-].
  destruct (IH us' eq_refl) as [Hn Hf]. destruct (Hvalid n u Hu) as [Hname _].
  split; [rewrite fmap_cons, Hname; by f_equal|]. constructor; [by rewrite Hname|done].
Qed.
Lemma new_state :
  ∃ us, ordered m = Some us ∧ manifest st = m ∧ retry_requests st = [] ∧
    ∀ n u, unit_states st !! n = Some u ↔ u = unit_initial ∧ n ∈ order m.
Proof.
  unfold manager_new in Hnew. destruct (ordered m) as [us|] eqn:Hus; [|done]. injection Hnew as <-.
  exists us. split_and!; [done..|]. intros n u. simpl. destruct (ordered_units us Hus) as [<- _].
  clear. induction us as [|b us IH]; simpl; [split; [done|intros [_ ?]; set_solver]|].
  rewrite lookup_insert_Some, IH, elem_of_cons. destruct (decide (unit_name b = n)) as [Heq|Hne].
  - split; [intros [[_ <-]|[? _]]; [by auto|done]|]. intros [-> _]. by left.
  - split; [intros [[? _]|(_ & -> & ?)]; [done|by auto]|]. intros [-> [?|?]]; [congruence|by right].
Qed.
Lemma start_inv resume : SInv None (boot_start st resume).
Proof.
  destruct new_state as (us & Hus & Hm & Hr & Hst). destruct (ordered_units us Hus) as [Hn Hf].
  destruct (parsed_manifest _ _ _ Hparse) as (Hvalid & Hperm & _).
  assert (∀ n, n ∈ order m → ∃ b, units m !! n = Some b) as Hin.
  { intros n Hin. rewrite Hperm, elem_of_sorted_keys in Hin. exact Hin. }
  constructor; unfold ust, bunit; simpl; rewrite ?Hm, ?Hr.
  - intros n u [-> (b & Hb)%Hin]%Hst. exists b. split; [done|]. split; simpl; [|done].
    unfold budget. lia.
  - intros n b Hb. destruct (Hvalid n b Hb) as [? ?%validated_bounds]. done.
  - intros n d. by rewrite lookup_empty.
  - intros n d. by rewrite lookup_empty.
  - set_solver.
  - intros h Hh. left. set_solver.
Qed.
Lemma start_rest resume b : units m !! unit_name b = Some b → at_rest (unit_name b) b 0 (boot_start st resume).
Proof.
  intros Hb. destruct new_state as (us & Hus & Hm & Hr & Hst).
  destruct (parsed_manifest _ _ _ Hparse) as (_ & Hperm & _).
  constructor; unfold ust, bunit; simpl; rewrite ?Hm, ?Hr; [done| |done|set_solver].
  exists unit_initial. split_and!; [|done..]. apply Hst. split; [done|].
  rewrite Hperm, elem_of_sorted_keys. by eexists.
Qed.
Lemma start_left resume us l1 l2 :
  ordered m = Some us → filter (λ u, unit_name u ≠ ROOT_AGENT) us = l1 ++ l2 →
  units_left l1 [] (boot_start st resume).
Proof.
  intros Hus Hl. destruct (ordered_units us Hus) as [Hn Hf].
  destruct (parsed_manifest _ _ _ Hparse) as (_ & Hperm & _).
  split_and!; [apply start_inv| | |set_solver].
  - rewrite app_nil_r. assert (NoDup (unit_name <$> filter (λ u, unit_name u ≠ ROOT_AGENT) us)) as Hnd.
    { apply NoDup_fmap_filter. rewrite Hn, Hperm. apply sorted_keys_nodup. }
    rewrite Hl, fmap_app, NoDup_app in Hnd. by destruct Hnd.
  - intros b Hb. apply start_rest. rewrite Forall_forall in Hf. apply Hf.
    assert (b ∈ filter (λ u, unit_name u ≠ ROOT_AGENT) us) as Hin by (rewrite Hl; set_solver).
    by apply list_elem_of_filter in Hin as [_ ?].
Qed.

(** When the boot loop comes to a unit, every unit it depends on (the root agent
    apart, which is launched last) is ready: the units before it in the start order
    were started and waited for. *)
Theorem boot_starts_after_dependencies resume script us l1 b l2 s1 :
  ordered m = Some us → filter (λ u, unit_name u ≠ ROOT_AGENT) us = l1 ++ b :: l2 →
  boot_units script l1 (boot_start st resume) = (s1, Ok tt) →
  ∀ d, d ∈ after b → d ≠ ROOT_AGENT → ready_unit d s1.
Proof.
  intros Hus Hl Hrun d Hd Hroot.
  pose proof (boot_units_spec script l1 [] (boot_start st resume) (start_left resume us l1 _ Hus Hl)) as Hspec.
  rewrite Hrun in Hspec. destruct Hspec as (_ & _ & _ & Hready). apply Hready.
  rewrite app_nil_r, elem_of_reverse. destruct (ordered_units us Hus) as [Hn Hf].
  destruct (parsed_manifest _ _ _ Hparse) as (_ & _ & Hdeps).
  apply filter_split in Hl as (u1 & u2 & Hsplit & Hf1). rewrite Forall_forall in Hf.
  destruct (Hdeps (length u1) (unit_name b) b d) as [?|(j & Hj & Hd')]; [| |done|set_solver|].
  - by rewrite <-Hn, Hsplit, fmap_app, lookup_app_r, length_fmap, Nat.sub_diag by by rewrite length_fmap.
  - apply Hf. rewrite Hsplit. set_solver.
  - rewrite <-Hn, Hsplit, fmap_app, lookup_app_l, list_lookup_fmap in Hd' by by rewrite length_fmap.
    apply fmap_Some in Hd' as (c & Hc & ->). apply list_elem_of_fmap_2. rewrite <-Hf1.
    apply list_elem_of_filter. split; [done|]. by eapply list_elem_of_lookup_2.
Qed.

(** ** The root agent *)

Lemma boot_units_rest script k b a : ∀ l s,
  k ∉ unit_name <$> l → at_rest k b a s → at_rest k b a (boot_units script l s).1.
Proof.
  induction l as [|c l IH]; intros s Hk Hrest; [done|]. cbn [boot_units]. unfold mbind, m_bind.
  pose proof (boot_unit_go_others c (script (unit_name c)) s) as Ho.
  assert (k ≠ unit_name c ∧ k ∉ unit_name <$> l) as [Hne Hl] by set_solver.
  destruct (boot_unit_go (script (unit_name c)) c s) as [s1 [x|e| |]]; simpl in *;
    [|by eapply at_rest_kept..]. apply IH; [done|by eapply at_rest_kept].
Qed.

(** A finished boot: the invariant holds, and the root agent's start was counted. *)
Lemma boot_spec resume script root us :
  ordered m = Some us →
  match boot_system script root (boot_start st resume) with
  | (s', Ok _) => SInv None s' ∧ manifest (sup_state s') = m ∧ ∃ p b u, sup_active s' !! ROOT_AGENT = Some p ∧
      bunit s' ROOT_AGENT = Some b ∧ ust s' ROOT_AGENT = Some u ∧ us_attempts u = 1
  | (_, Err _) => True
  | (_, Park) => ¬ scripts_suffice script (filter (λ u, unit_name u ≠ ROOT_AGENT) us)
  | (_, Panic) => False
  end.
Proof.
  intros Hus. unfold boot_system. rewrite run_get.
  assert (manifest (sup_state (boot_start st resume)) = m) as ->.
  { destruct new_state as (? & _ & Hm & _). exact Hm. }
  rewrite Hus. rewrite (run_value _ _ _ (boot_start st resume) us) by done.
  set (l := filter _ us).
  pose proof (boot_units_spec script l [] (boot_start st resume)) as Hspec.
  specialize (Hspec (start_left resume us l [] Hus ltac:(by rewrite app_nil_r))).
  pose proof (boot_units_rest script ROOT_AGENT) as Hroot.
  unfold mbind at 1, m_bind at 1.
  destruct (boot_units script l (boot_start st resume)) as [s1 [x|e| |]] eqn:Hb; try done.
  destruct Hspec as (I1 & _). unfold mount_service_handles. unfold mbind at 1, m_bind at 1. rewrite run_get.
  destruct (forallb _ SERVICE_HANDLES); [|done]. cbn [mret m_ret]. rewrite run_get.
  destruct (sup_entry_pid s1) as [entry|]; [|done]. rewrite (run_value _ _ s1 s1 entry) by done.
  assert (manifest (sup_state s1) = m) as Hm1.
  { eapply boot_units_manifest; [exact Hb|]. destruct new_state as (? & _ & Hm & _). exact Hm. }
  destruct (manifest_get (manifest (sup_state s1)) ROOT_AGENT) as [rb|] eqn:Hrb; [|done].
  rewrite (run_value _ _ s1 s1 rb) by done. destruct (la_spawn root) as [e|pid]; [done|].
  assert (bunit s1 ROOT_AGENT = Some rb) as Hbu by exact Hrb.
  pose proof (proj1 (inv_valid None s1 I1 ROOT_AGENT rb Hbu)) as Hname.
  assert (at_rest ROOT_AGENT rb 0 s1) as Hrest.
  { specialize (Hroot rb 0 l (boot_start st resume)). rewrite Hb in Hroot. apply Hroot.
    - intros (c & Hc & Hin)%list_elem_of_fmap. unfold l in Hin. apply list_elem_of_filter in Hin as [? _]. done.
    - rewrite <-Hname. apply start_rest. rewrite Hname, <-Hm1. exact Hrb. }
  destruct (started ROOT_AGENT rb 0 s1 I1 Hrest "track Root Agent start" pid)
    as (u' & Hrun & Hpid & Hr & Hu' & Hinv & Hst).
  rewrite run_try, Hrun. cbv beta iota. rewrite run_modify. unfold mmodify.
  destruct Hst as [_ (v & Hv & Hcase) _ _]. rewrite Hu' in Hv. injection Hv as <-.
  split; [|split; [done|exists (pid, la_now root), rb, u'; split_and!; simpl; try done]].
  - apply (sup_inv_core None (set_active (<[ROOT_AGENT := (pid, la_now root)]> (sup_active (upd ROOT_AGENT u' s1)))
      (upd ROOT_AGENT u' s1))); [done|]. eapply inv_activate; [by apply (inv_exempt None)|done..].
  - by rewrite lookup_insert_eq.
  - destruct Hcase as [(_ & _ & ->)|(Hs & _)]; [done|]. by destruct (us_status u').
Qed.
End booted.

(** ** Waiting for the first root agent *)

Definition settle_outcome (script : list LaunchAnswers) (s : Supervisor) (r : Supervisor * result string unit) : Prop :=
  match r with
  | (s', Ok _) => SInv None s'
  | (_, Err _) => True
  | (_, Park) => ∃ b u, bunit s ROOT_AGENT = Some b ∧ ust s ROOT_AGENT = Some u ∧
      Z.of_nat (length script) < budget b + 1 - us_attempts u
  | (_, Panic) => False
  end.
Lemma settle_go_spec : ∀ script s, SInv None s → settle_outcome script s (settle_go script s).
Proof.
  induction script as [|answers script IH]; intros s I; cbn [settle_go]; rewrite run_get;
    destruct (sup_pending s !! ROOT_AGENT) as [d|] eqn:Hd; try done.
  - destruct (inv_pending None s I _ d Hd) as (u & Hu & Hs).
    destruct (inv_units None s I _ u Hu) as (b & Hb & [Hw _]). rewrite Hs in Hw.
    exists b, u. split_and!; [done..|]. simpl. lia.
  - destruct (pending_at_rest _ d s I Hd) as (b & a & Hrest). rewrite run_modify.
    set (s1 := set_sup_pending _ s) in *.
    assert (SInv None s1) as I1 by by apply inv_unschedule.
    pose proof (launch_spec answers ROOT_AGENT b a s1 I1 Hrest) as Hl. rewrite run_try.
    destruct (launch answers ROOT_AGENT s1) as [s2 [|e| |]]; [done| |done..].
    destruct Hl as [I2 Hst2]. pose proof (failure_spec answers ROOT_AGENT b a s2 e I2 Hst2) as Hf.
    unfold mbind, m_bind. destruct (handle_launch_failure answers ROOT_AGENT e s2) as [s3 [[]|e'| |]]; try done.
    destruct Hf as (I3 & Hb3 & _ & u3 & Hu3 & Ha3 & _). specialize (IH s3 I3).
    destruct (settle_go script s3) as [s4 []]; try done. simpl in *.
    destruct IH as (b' & u' & Hb' & Hu' & Hlen). rewrite Hb3 in Hb'. injection Hb' as <-.
    rewrite Hu3 in Hu'. injection Hu' as <-.
    destruct Hrest as [Hb (u & Hu & _ & Ha) _ _]. exists b, u. split_and!; [done..|]. lia.
Qed.
Lemma settle_spec now first detach script s p u b :
  SInv None s → sup_active s !! ROOT_AGENT = Some p → ust s ROOT_AGENT = Some u →
  bunit s ROOT_AGENT = Some b →
  match settle_initial_root now first detach script s with
  | (s', Ok _) => SInv None s'
  | (_, Err _) => True
  | (_, Park) => Z.of_nat (length script) < budget b + 1
  | (_, Panic) => False
  end.
Proof.
  intros I Hact Hu Hb. unfold settle_initial_root. rewrite run_get.
  destruct (sup_root s) as [root|]; [|done]. rewrite (run_value _ _ s s root) by done.
  destruct (inv_active None s I _ p Hact) as (u' & Hu' & Hpid & Hrun). rewrite Hu in Hu'. injection Hu' as <-.
  destruct (active_alone None _ p s I Hact) as [Hpe Hn].
  destruct first as [error|].
  - rewrite Hact, (run_value _ _ s s p) by done. rewrite run_modify.
    assert (SInv None (add_exit p.1 1 s)) as I1 by by eapply sup_inv_core; [|exact I].
    pose proof (exit_spec now detach ROOT_AGENT p (add_exit p.1 1 s) 1 I1 Hact) as He.
    pose proof (exit_others now detach ROOT_AGENT p.2 1 (add_exit p.1 1 s)) as (Hm & _).
    unfold mbind at 1, m_bind at 1.
    destruct (handle_exit now detach ROOT_AGENT p.2 1 (add_exit p.1 1 s)) as [s2 [[]|e| |]]; try done.
    simpl in He, Hm.
    assert (bunit s2 ROOT_AGENT = Some b) as Hb2 by (unfold bunit; by rewrite Hm).
    destruct (ust s2 ROOT_AGENT) as [u2|] eqn:Hu2.
    2:{ unfold mbind, m_bind, on_state, note_error, with_unit. mrun.
        change (unit_states (sup_state s2) !! ROOT_AGENT) with (ust s2 ROOT_AGENT). by rewrite Hu2. }
    rewrite (run_value _ _ _ _ _ (note_error_core _ _ _ error u2 Hu2)).
    set (s3 := upd ROOT_AGENT _ s2).
    assert (SInv None s3) as I3 by by apply note_error_inv.
    pose proof (settle_go_spec script s3 I3) as Hs. destruct (settle_go script s3) as [s4 []]; try done.
    destruct Hs as (b3 & u3 & Hb3 & Hu3 & Hlen).
    destruct (inv_units None s3 I3 _ u3 Hu3) as (b4 & Hb4 & [Hw _]).
    assert (b3 = b) as -> by (unfold s3 in Hb3; rewrite bunit_upd in Hb3; congruence). lia.
  - rewrite run_modify.
    destruct (mark_ready_run "mark Root Agent ready" (set_resume true s) ROOT_AGENT u Hu) as (s1 & -> & Hcore & _).
    eapply (ready_inv None ROOT_AGENT u (set_resume true s)); try done. by eapply sup_inv_core; [|exact I].
Qed.

(** ** Everything the supervisor does *)

Section runs.
Context (toml : string → option BootUnit) (docs : list string) (m : BootManifest).
Context (Hparse : manifest_parse toml docs = inr m).

(** The states of a system that booted: ticks, documents written to the control
    file, and the shutdown notice *)
Inductive supervised : Supervisor → Prop :=
  | sup_booted st resume script root s now first detach script' s' :
      manager_new m = Some st →
      boot_system script root (boot_start st resume) = (s, Ok tt) →
      settle_initial_root now first detach script' s = (s', Ok tt) → supervised s'
  | sup_tick i s s' : supervised s → tick i s = (s', Ok tt) → supervised s'
  | sup_ctl b fids c r s :
      supervised s → service_commit_ctl b (mkCtlFs (sup_state s) fids) = (c, r) →
      supervised (set_sup_state (ctl_state c) s)
  | sup_stopping s : supervised s → supervised (set_sup_state (mark_stopping (sup_state s)).1 s).

Lemma retry_inv name s st' r :
  SInv None s → manager_retry name (sup_state s) = (st', r) → SInv None (set_sup_state st' s).
Proof.
  intros I. unfold manager_retry. rewrite run_get.
  destruct (unit_states (sup_state s) !! name) as [u|] eqn:Hu; [|intros [= <- _]; by eapply sup_inv_core; [|exact I]].
  destruct (negb _) eqn:Hst; [intros [= <- _]; by eapply sup_inv_core; [|exact I]|]. unfold mmodify. intros [= <- _].
  set (u' := mkUnitState UnitPending (us_pid u) 0 None false (us_ready_once u)).
  assert (startable (us_status u) = false ∧ running (us_status u) = false) as [Hs Hr].
  { destruct (us_status u); done. }
  assert (sup_pending s !! name = None) as Hp.
  { destruct (sup_pending s !! name) as [d|] eqn:Hd; [|done].
    destruct (inv_pending None s I name d Hd) as (v & Hv & ?). unfold ust in Hv. congruence. }
  assert (SInv None (upd name u' s)) as I'.
  { eapply inv_upd; [exact I|exact Hu|..].
    - intros b Hb. destruct (inv_units None s I name u Hu) as (b' & Hb' & [_ Hpid]).
      split; simpl; [unfold budget; lia|]. intros _. by apply Hpid.
    - done.
    - intros p Hact. destruct (inv_active None s I name p Hact) as (v & Hv & _ & ?). unfold ust in Hv. congruence. }
  constructor; try apply I'.
  intros n Hn. simpl in Hn. apply elem_of_app in Hn as [Hn|Hn]; [apply (inv_retry None _ I' n Hn)|].
  apply list_elem_of_singleton in Hn as ->. split; [|done]. exists u'. split; [|done].
  unfold ust. simpl. by rewrite lookup_insert_eq.
Qed.
Lemma ctl_inv b fids c r s :
  SInv None s → service_commit_ctl b (mkCtlFs (sup_state s) fids) = (c, r) → SInv None (set_sup_state (ctl_state c) s).
Proof.
  intros I. assert (∀ r' : result ErrorCode (), (mkCtlFs (sup_state s) fids, r') = (c, r) →
    SInv None (set_sup_state (ctl_state c) s)) as Hsame by (intros r' [= <- _]; by eapply sup_inv_core; [|exact I]).
  unfold service_commit_ctl. destruct (from_utf8 b) as [command|]; [|by apply Hsame].
  rewrite (run_value _ _ _ (mkCtlFs (sup_state s) fids) command) by done.
  destruct (str_split_whitespace command) as [|verb [|unit []]]; try by apply Hsame.
  case_bool_decide; [|by apply Hsame]. unfold on_manager. simpl.
  destruct (manager_retry unit (sup_state s)) as [st' r'] eqn:Hr. intros [= <- _]. simpl. by eapply retry_inv.
Qed.

Lemma supervised_inv s : supervised s → SInv None s.
Proof.
  induction 1 as [st resume script root s now first detach script' s' Hnew Hboot Hsettle|i s s' _ I Ht|
    b fids c r s _ I Hc|s _ I].
  - destruct (new_state toml docs m st Hparse Hnew) as (us & Hus & _).
    pose proof (boot_spec toml docs m st Hparse Hnew resume script root us Hus) as Hb. rewrite Hboot in Hb.
    destruct Hb as (I & _ & p & b & u & Hact & Hbu & Hu & _).
    pose proof (settle_spec now first detach script' s p u b I Hact Hu Hbu) as Hs. by rewrite Hsettle in Hs.
  - pose proof (tick_spec i s I) as Hs. by rewrite Ht in Hs.
  - by eapply ctl_inv.
  - by eapply sup_inv_core; [|exact I].
Qed.

(** C20: Supervision keeps every service within its restart budget, whatever fails, exits
    or is retried: a unit is started at most once more than its limit since it was
    last stable or retried, and waits for another start only while it is within the
    limit; no unit runs and is scheduled at once; the process of a running unit is
    the one its status shows; and a handle in [/srv] belongs to the manager or to a
    unit that runs. *)
Theorem supervision_within_budget s :
  supervised s →
  (∀ n u, unit_states (sup_state s) !! n = Some u →
    ∃ b, units (manifest (sup_state s)) !! n = Some b ∧ 0 ≤ us_attempts u ≤ Z.max 0 (restart_limit b) + 1 ∧
    (us_status u = UnitPending ∨ us_status u = UnitBackoff → us_attempts u ≤ Z.max 0 (restart_limit b))) ∧
  (∀ n p, sup_active s !! n = Some p → sup_pending s !! n = None ∧
    ∃ u, unit_states (sup_state s) !! n = Some u ∧ us_pid u = Some p.1) ∧
  (∀ h, h ∈ sup_posted s → h = "service-manager" ∨
    ∃ n b, units (manifest (sup_state s)) !! n = Some b ∧ h ∈ published_handles b ∧ is_Some (sup_active s !! n)).
Proof.
  intros I%supervised_inv. split_and!.
  - intros n u Hu. destruct (inv_units None s I n u Hu) as (b & Hb & [Hw _]). exists b. split; [done|].
    unfold budget in Hw. destruct (startable (us_status u)) eqn:Hs; split; try lia.
    intros [Heq|Heq]; by rewrite Heq in Hs.
  - intros n p Hp. destruct (active_alone None n p s I Hp) as [? _]. split; [done|].
    destruct (inv_active None s I n p Hp) as (u & Hu & Hpid & _). by exists u.
  - intros h Hh. destruct (inv_posted None s I h Hh) as [?|(n & b & Hb & Hin & [Hn|Hn])]; [by left| |done].
    right. by exists n, b.
Qed.

(** C24: Booting ends. If for every unit the loop is given one launch more than the
    unit's restart limit, the boot returns with a system or an error and does not
    wait for another launch, and so does waiting for the root agent after it. *)
Theorem boot_ends st resume script root us now first detach script' :
  manager_new m = Some st → ordered m = Some us →
  scripts_suffice script (filter (λ u, unit_name u ≠ ROOT_AGENT) us) →
  (∀ b, units m !! ROOT_AGENT = Some b → budget b + 1 ≤ Z.of_nat (length script')) →
  match boot_system script root (boot_start st resume) with
  | (s, Ok _) =>
      match settle_initial_root now first detach script' s with
      | (_, Ok _) | (_, Err _) => True
      | _ => False
      end
  | (_, Err _) => True
  | _ => False
  end.
Proof.
  intros Hnew Hus Hscript Hscript'.
  pose proof (boot_spec toml docs m st Hparse Hnew resume script root us Hus) as Hb.
  destruct (boot_system script root (boot_start st resume)) as [s [[]|e| |]] eqn:Hrun; try done.
  destruct Hb as (I & Hm & p & b & u & Hact & Hbu & Hu & _).
  pose proof (settle_spec now first detach script' s p u b I Hact Hu Hbu) as Hs.
  destruct (settle_initial_root now first detach script' s) as [s' []]; try done.
  unfold bunit in Hbu. rewrite Hm in Hbu. specialize (Hscript' b Hbu). lia.
Qed.
End runs.

(** ** The system's manifest *)

Definition launched (pid now : Z) : LaunchAnswers := mkAnswers (inr pid) None None None now.
Definition not_ready (pid now : Z) : LaunchAnswers := mkAnswers (inr pid) (Some "timed out") None None now.
Definition no_process : LaunchAnswers := mkAnswers (inl "no process") None None None 0.

(** The first launch of the package service times out; the others succeed. *)
Definition demo_script (name : string) : list LaunchAnswers :=
  if bool_decide (name = "package") then [not_ready 3 0; launched 4 100; no_process; no_process; no_process; no_process]
  else replicate 6 (launched 2 0).
Definition system_boot_manifest : BootManifest :=
  match system_manifest with inr m => m | inl _ => mkManifest ∅ [] end.
Definition demo_manager : ManagerState :=
  default (mkManager system_boot_manifest SystemBooting ∅ []) (manager_new system_boot_manifest).
Definition demo_boot : Supervisor := (boot_system demo_script (launched 9 200) (boot_start demo_manager false)).1.
Definition demo_running : Supervisor := (settle_initial_root 300 None None [] demo_boot).1.

Lemma demo_parse : manifest_parse system_toml documents.*1 = inr system_boot_manifest.
Proof. by vm_compute. Qed.
Lemma demo_boots :
  boot_system demo_script (launched 9 200) (boot_start demo_manager false) = (demo_boot, Ok tt) ∧
  settle_initial_root 300 None None [] demo_boot = (demo_running, Ok tt).
Proof.
  unfold demo_running, demo_boot. split.
  - destruct (boot_system _ _ _) as [s r] eqn:H. by vm_compute in H; simplify_eq.
  - destruct (settle_initial_root _ _ _ _ _) as [s r] eqn:H. by vm_compute in H; simplify_eq.
Qed.
Lemma demo_new : manager_new system_boot_manifest = Some demo_manager.
Proof. unfold demo_manager. destruct (manager_new system_boot_manifest) eqn:H; [done|by vm_compute in H]. Qed.
Lemma demo_supervised : supervised system_boot_manifest demo_running.
Proof.
  destruct demo_boots as [Hb Hs].
  by apply (sup_booted _ demo_manager false demo_script (launched 9 200) demo_boot 300 None None [] demo_running demo_new).
Qed.

Lemma supervision_within_budget_witness :
  ∃ b, units (manifest (sup_state demo_running)) !! "package" = Some b ∧
    0 ≤ 2 ≤ Z.max 0 (restart_limit b) + 1.
Proof.
  destruct (supervision_within_budget system_toml documents.*1 system_boot_manifest demo_parse demo_running
    demo_supervised) as (Hbudget & _).
  destruct (Hbudget "package" (default unit_initial (unit_states (sup_state demo_running) !! "package")))
    as (b & Hb & Hle & _); [by vm_compute|].
  exists b. split; [exact Hb|]. by vm_compute in Hle |- *.
Defined.

Definition demo_units : list BootUnit := default [] (ordered system_boot_manifest).
Lemma boot_ends_witness :
  match boot_system demo_script no_process (boot_start demo_manager false) with
  | (_, Err _) | (_, Ok _) => True
  | _ => False
  end.
Proof.
  assert (scripts_suffice demo_script (filter (λ u, unit_name u ≠ ROOT_AGENT) demo_units)) as Hs.
  { unfold scripts_suffice. apply Forall_forall. vm_compute. repeat constructor; by intros. }
  pose proof (boot_ends system_toml documents.*1 system_boot_manifest demo_parse demo_manager false demo_script
    no_process demo_units 0 None None (replicate 6 no_process) demo_new ltac:(by vm_compute) Hs) as He.
  destruct (boot_system demo_script no_process (boot_start demo_manager false)) as [s [[]|e| |]]; try done;
    apply He; intros b Hb; vm_compute in Hb; simplify_eq; vm_compute; done.
Defined.

(** The boot loop before the agent runtime is started *)
Definition demo_split : list BootUnit * list BootUnit :=
  (take 4 (filter (λ u, unit_name u ≠ ROOT_AGENT) demo_units),
   drop 5 (filter (λ u, unit_name u ≠ ROOT_AGENT) demo_units)).
Lemma boot_starts_after_dependencies_witness :
  ready_unit "package" (boot_units demo_script demo_split.1 (boot_start demo_manager false)).1.
Proof.
  apply (boot_starts_after_dependencies system_toml documents.*1 system_boot_manifest demo_manager demo_parse
    demo_new false demo_script demo_units demo_split.1 agent_runtime_toml demo_split.2);
    [by vm_compute|by vm_compute| |vm_compute; set_solver|done].
  destruct (boot_units demo_script demo_split.1 (boot_start demo_manager false)) as [s r] eqn:H.
  by vm_compute in H; simplify_eq.
Defined.

(** ** Status that does not tell the state of the units *)

Definition exits (name : string) : nat → ManagerState → ManagerState :=
  fix go n s := match n with
                | O => s
                | S n' => go n' (manager_record_exit name 1 0 (start_attempt name 2 s).1).1
                end.
(** A unit that used up its budget makes the system degraded; a retry command calls the
    system ready at once, before the unit runs again. A retry also turns a system that
    is stopping into a ready one. *)
Example retry_reports_ready :
  let s := exits "route" 5 (sup_state demo_running) in
  let retried := (manager_retry "route" s).1 in
  sys_status s = SystemDegraded ∧ sys_status retried = SystemReady ∧
  (us_status <$> unit_states retried !! "route") = Some UnitPending ∧
  sys_status (manager_retry "route" (mark_stopping s).1).1 = SystemReady.
Proof. vm_compute. done. Qed.
(** An unknown name below [units] is not a directory, elsewhere it is not found. *)
Example unknown_unit_not_directory :
  ctl_child (sup_state demo_running) CUnits "nothing" = Err NotDirectory ∧
  ctl_child (sup_state demo_running) CRoot "nothing" = Err NotFound.
Proof. vm_compute. done. Qed.
(** An error of finishing the root agent's recorder ends the tick with that error
    before the exit is recorded: the unit is still shown as ready. *)
Example detach_error_ends_supervision :
  let i := mkTick (λ p, if p =? 9 then Some (Some 1) else None) (Some "recorder") (λ _, no_process) 400 in
  let '(s, r) := tick i demo_running in
  r = Err "recorder" ∧ (us_status <$> unit_states (sup_state s) !! ROOT_AGENT) = Some UnitReady ∧
  sup_active s !! ROOT_AGENT = None ∧ sup_pending s !! ROOT_AGENT = None.
Proof. vm_compute. done. Qed.
