(* ===== verification/HostMounts.v ===== *)
(** * The Host Mount service (crates/service-manager/src/host_mount.rs,
      host_mount/delegation.rs)

    Processes ask for directories of the host; a native adapter approves a request
    with an opaque export, and the service mounts the export's tree in the
    requester's namespace, passes grants on to children and revokes them.

    [HmState] is the service: what its mutex guards, its generation, its event
    streams, and the live namespaces it changes as a shared store indexed by
    handle. Every definition that reads and writes the state in one step is what
    runs under one hold of the mutex; an operation that takes it several times is
    composed of such definitions. Parameters: the exports and the adapter (code of
    the host), the clock, and serde_json's texts. The identifier counter is not
    wrapped at 64 bits. *)
From S2P Require Import Prelude RustStd ApTypes Namespace RustText.

Definition RESERVED_MOUNT_NAMESPACE_ROOTS : list string :=
  ["connections"; "host-mount"; "llm"; "mem"; "package"; "route"; "service-manager"].

Inductive HostMountAccess : Set := HostReadOnly | HostReadWrite.
Global Instance HostMountAccess_eq_dec : EqDecision HostMountAccess.
Proof. solve_decision. Defined.
Definition access_kernel (a : HostMountAccess) : Access :=
  match a with HostReadOnly => AccessReadOnly | HostReadWrite => AccessReadWrite end.

Record HostMountRequest : Type := mkHostRequest {
  hr_id : string;
  hr_label : string;
  hr_path : string;
  hr_access : HostMountAccess;
  hr_reason : string;
  hr_pid : Z;
}.
Record HostMountRequestDocument : Type := mkHostDocument {
  hd_path : string;
  hd_access : HostMountAccess;
  hd_reason : string;
  hd_label : option string;
}.

Inductive HostMountStatus : Set :=
  HmPending | HmApproved | HmRejected | HmCancelled | HmFailed.
Global Instance HostMountStatus_eq_dec : EqDecision HostMountStatus.
Proof. solve_decision. Defined.
Definition mount_status_name (s : HostMountStatus) : string :=
  match s with
  | HmPending => "pending" | HmApproved => "approved" | HmRejected => "rejected"
  | HmCancelled => "cancelled" | HmFailed => "failed"
  end.
Definition mount_is_terminal (s : HostMountStatus) : bool := negb (bool_decide (s = HmPending)).

Record HostMountGrantRecord : Type := mkGrantRecord {
  gr_id : string;
  gr_label : string;
  gr_path : string;
  gr_access : HostMountAccess;
  gr_provenance : string;
  gr_active : bool;
}.
Record AuditRecord : Type := mkAudit {
  au_action : string;
  au_grant : string;
  au_actor : string;
  au_timestamp : Z;
  au_affected : list Z;
}.
(** [Projection]: the namespace is a handle into the store *)
Record Projection : Type := mkProjection {
  pj_pid : Z;
  pj_namespace : Z;
  pj_path : string;
  pj_access : HostMountAccess;
}.
Record RequestState : Type := mkRequestState {
  rs_request : HostMountRequest;
  rs_status : HostMountStatus;
  rs_in_progress : bool;
  rs_grant : option string;
  rs_error : option string;
}.
(** What [append_request_event] and [append_service_event] serialize *)
Inductive HostMountEvent : Type :=
  | RequestStatusEvent (request_id : string) (status : HostMountStatus) (grant error : option string)
  | GrantRevokedEvent (grant_id : string).

(** [SpawnHostMount], [SpawnMountAccess] *)
Inductive SpawnMountAccess : Set := SpawnReadOnly | SpawnReadWrite.
Record SpawnHostMount : Type := mkSpawnMount {
  sm_grant : string;
  sm_target : string;
  sm_access : SpawnMountAccess;
}.

(** The errors the service gives, by message *)
Inductive HmError : Type :=
  | AlreadyRegistered | AmbientProjections (paths : list string)
  | UnknownRequest | AlreadySettled | TerminalRequired
  | UnknownProcess | UnknownGrant | GrantRevoked | OtherOwner | PathOverlaps
  | DuplicateId | RootNotActive
  | EmptyLabel | NotNormalized | NotBelowMnt | ReservedRoot | BadPid | EmptyReason
  | EmptyGrantReference | DelegatedTwice | TargetNotUtf8 | TargetOverlaps
  | NotHeld | AmplifiesParent | AmplifiesGrant
  | AdapterError | CwdGrantChanged.

(** ** Validation *)

Abbreviation Check := (result HmError).
Definition hm_ensure (b : bool) (e : HmError) : Check unit := if b then Ok tt else Err e.
Definition check_then {A} (r : Check unit) (k : Check A) : Check A :=
  match r with Ok _ => k | Err e => Err e | Park => Park | Panic => Panic end.

Definition validate_mount_namespace_path (path : string) : Check unit :=
  if negb (bool_decide (path = trim path)) then Err NotNormalized
  else match strip_prefix "/mnt/" path with
  | None => Err NotBelowMnt
  | Some suffix =>
      let components := split_on "/" suffix in
      if negb (forallb (λ c, negb (bool_decide (c = "")) &&
                             negb (bool_decide (c = ".") || bool_decide (c = ".."))) components)
      then Err NotNormalized
      else match components with
      | [] => Err NotNormalized
      | c :: _ =>
          if bool_decide (c ∈ RESERVED_MOUNT_NAMESPACE_ROOTS) then Err ReservedRoot else Ok tt
      end
  end.
Definition validate_request (r : HostMountRequest) : Check unit :=
  check_then (hm_ensure (negb (bool_decide (trim (hr_label r) = ""))) EmptyLabel)
  (check_then (validate_mount_namespace_path (hr_path r))
  (check_then (hm_ensure (0 <? hr_pid r) BadPid)
              (hm_ensure (negb (bool_decide (trim (hr_reason r) = ""))) EmptyReason))).

Definition namespace_paths_strictly_overlap (l r : string) : bool :=
  negb (bool_decide (l = r)) && (path_starts_with l r || path_starts_with r l).
Definition namespace_paths_overlap (l r : string) : bool :=
  bool_decide (l = r) || namespace_paths_strictly_overlap l r.

Definition default_label (namespace_path : string) : string :=
  default "Host Mount" (head (filter (λ c, c ≠ "") (reverse (split_on "/" namespace_path)))).

(** [s.chars().take(n)] on the encoded text: a continuation byte stays with the
    character before it *)
Definition continuation_byte (x : byte) : bool :=
  (128 <=? Z.of_N (Byte.to_N x)) && (Z.of_N (Byte.to_N x) <? 192).
Fixpoint take_chars (n : nat) (b : bytes) : bytes :=
  match b with
  | [] => []
  | x :: b' =>
      if continuation_byte x then x :: take_chars n b'
      else match n with O => [] | S n' => x :: take_chars n' b' end
  end.
Definition concise_terminal_reason (reason : string) : string :=
  let trimmed := trim reason in
  let concise := if bool_decide (trimmed = "") then "Host Mount request was not approved" else trimmed in
  of_bytes (take_chars 512 (into_bytes concise)).

(** ** Event streams (file_server.rs): the retained bytes of each stream *)

Record HostMountEventStreams : Type := mkHmStreams { es_all : bytes; es_by_process : gmap Z bytes }.
Definition event_streams_new : HostMountEventStreams := mkHmStreams [] ∅.
(** [stream(Some(pid))] makes the stream when it is missing *)
Definition process_stream (pid : Z) (s : HostMountEventStreams) : HostMountEventStreams * bytes :=
  match es_by_process s !! pid with
  | Some b => (s, b)
  | None => (mkHmStreams (es_all s) (<[pid := []]> (es_by_process s)), [])
  end.
Definition append_process (b : bytes) (pid : Z) (s : HostMountEventStreams) : HostMountEventStreams :=
  let '(s, old) := process_stream pid s in
  mkHmStreams (es_all s) (<[pid := old ++ b]> (es_by_process s)).
Definition append_for (pid : Z) (b : bytes) (s : HostMountEventStreams) : HostMountEventStreams :=
  append_process b pid (mkHmStreams (es_all s ++ b) (es_by_process s)).
Definition append_for_many (pids : list Z) (b : bytes) (s : HostMountEventStreams) : HostMountEventStreams :=
  foldl (λ s pid, append_process b pid s) (mkHmStreams (es_all s ++ b) (es_by_process s))
        (merge_sort Z.le (remove_dups pids)).
(** [HostMountEventStream::read]: a read at or past the end waits *)
Definition event_stream_read {E} (b : bytes) (offset count : Z) : result E bytes :=
  if count =? 0 then Ok []
  else if offset <? len b then Ok (slice b offset count) else Park.

(** ** State *)

Section service.
Context {Tree Export : Type} (file_tree : Export → Tree).
(** The clock read for the n-th audit record *)
Context (now : nat → Z).
(** The line serde_json writes for an event, without its newline *)
Context (event_json : HostMountEvent → bytes).
(** [serde_json::from_slice] *)
Context (parse_document : bytes → option HostMountRequestDocument).

Record Grant : Type := mkGrant {
  g_public : HostMountGrantRecord;
  g_owner : Z;
  g_export : Export;
  g_projections : list Projection;
}.
Record HmState : Type := mkHm {
  hm_requests : gmap string RequestState;
  hm_grants : gmap string Grant;
  hm_processes : gmap Z Z;
  hm_audit : list AuditRecord;
  hm_next_id : Z;
  hm_generation : Z;
  hm_request_events : HostMountEventStreams;
  hm_events : HostMountEventStreams;
  (** the live namespaces with their generations, and the exports told to revoke *)
  hm_lives : gmap Z (Namespace Tree * Z);
  hm_revoked : list Export;
}.
Definition host_mount_new (lives : gmap Z (Namespace Tree * Z)) : HmState :=
  mkHm ∅ ∅ ∅ [] 0 0 event_streams_new event_streams_new lives [].

Definition on_requests f (s : HmState) : HmState :=
  mkHm (f (hm_requests s)) (hm_grants s) (hm_processes s) (hm_audit s) (hm_next_id s) (hm_generation s)
    (hm_request_events s) (hm_events s) (hm_lives s) (hm_revoked s).
Definition on_grants f (s : HmState) : HmState :=
  mkHm (hm_requests s) (f (hm_grants s)) (hm_processes s) (hm_audit s) (hm_next_id s) (hm_generation s)
    (hm_request_events s) (hm_events s) (hm_lives s) (hm_revoked s).
Definition on_processes f (s : HmState) : HmState :=
  mkHm (hm_requests s) (hm_grants s) (f (hm_processes s)) (hm_audit s) (hm_next_id s) (hm_generation s)
    (hm_request_events s) (hm_events s) (hm_lives s) (hm_revoked s).
Definition on_audit f (s : HmState) : HmState :=
  mkHm (hm_requests s) (hm_grants s) (hm_processes s) (f (hm_audit s)) (hm_next_id s) (hm_generation s)
    (hm_request_events s) (hm_events s) (hm_lives s) (hm_revoked s).
Definition on_next_id f (s : HmState) : HmState :=
  mkHm (hm_requests s) (hm_grants s) (hm_processes s) (hm_audit s) (f (hm_next_id s)) (hm_generation s)
    (hm_request_events s) (hm_events s) (hm_lives s) (hm_revoked s).
Definition on_streams f g (s : HmState) : HmState :=
  mkHm (hm_requests s) (hm_grants s) (hm_processes s) (hm_audit s) (hm_next_id s) (hm_generation s)
    (f (hm_request_events s)) (g (hm_events s)) (hm_lives s) (hm_revoked s).
Definition on_hm_lives f (s : HmState) : HmState :=
  mkHm (hm_requests s) (hm_grants s) (hm_processes s) (hm_audit s) (hm_next_id s) (hm_generation s)
    (hm_request_events s) (hm_events s) (f (hm_lives s)) (hm_revoked s).
Definition hm_bump_generation (s : HmState) : HmState :=
  mkHm (hm_requests s) (hm_grants s) (hm_processes s) (hm_audit s) (hm_next_id s)
    (wrapping_add32 (hm_generation s) 1)
    (hm_request_events s) (hm_events s) (hm_lives s) (hm_revoked s).
Definition export_revoke (e : Export) (s : HmState) : HmState :=
  mkHm (hm_requests s) (hm_grants s) (hm_processes s) (hm_audit s) (hm_next_id s) (hm_generation s)
    (hm_request_events s) (hm_events s) (hm_lives s) (hm_revoked s ++ [e]).

Abbreviation Hm := (M HmState HmError).

(** [LiveNamespace] on handle [h]; a handle that was never registered here is empty *)
Definition hm_live (h : Z) (s : HmState) : Namespace Tree * Z := default (ns_new, 0) (hm_lives s !! h).
Definition hm_live_change (h : Z) (f : Namespace Tree → Namespace Tree) (s : HmState) : HmState :=
  on_hm_lives (insert h (f (hm_live h s).1, wrapping_add32 (hm_live h s).2 1)) s.
Definition hm_replace_mount (h : Z) (at_ : string) (t : Tree) (a : Access) : HmState → HmState :=
  hm_live_change h (λ n, mount at_ t a (unmount at_ n)).
Definition hm_unmount (h : Z) (at_ : string) : HmState → HmState := hm_live_change h (unmount at_).

Definition audit (action grant_id actor : string) (affected : list Z) (s : HmState) : HmState :=
  on_audit (λ l, l ++ [mkAudit action grant_id actor (now (length l)) affected]) s.

(** The grants as [BTreeMap] iterates them *)
Definition grants_in_order (s : HmState) : list (string * Grant) :=
  omap (λ k, (λ g, (k, g)) <$> hm_grants s !! k) (sorted_keys (hm_grants s)).

(** ** Events *)

Definition mount_event_line (e : HostMountEvent) : bytes := event_json e ++ [newline].
Definition append_request_event (id : string) (st : HostMountStatus) (grant error : option string) :
    Hm unit :=
  s ← mget;
  r ← mindex (hm_requests s !! id);
  let pid := hr_pid (rs_request r) in
  let b := mount_event_line (RequestStatusEvent id st grant error) in
  mmodify (on_streams (append_for pid b) (append_for pid b)).
Definition append_service_event (e : HostMountEvent) (affected : list Z) : Hm unit :=
  mmodify (on_streams id (append_for_many affected (mount_event_line e))).
Definition hm_bump : Hm unit := mmodify hm_bump_generation.

(** ** Processes and delegation *)

Definition register_process (pid h : Z) : Hm unit := mmodify (on_processes (insert pid h)).

Record DelegatedProjection : Type := mkDelegated {
  dp_grant : string; dp_target : string; dp_access : HostMountAccess; dp_export : Export }.

Definition ambient_projections (s : HmState) (parent : Z) (n : Namespace Tree) : list string :=
  let inherited := fst <$> describe n in
  pj_path <$> filter (λ p, pj_pid p = parent ∧ pj_path p ∈ inherited)
    (mjoin ((λ x, g_projections x.2) <$> grants_in_order s)).
Definition ensure_no_ambient_child_projections (s : HmState) (parent : Z) (n : Namespace Tree) :
    Check unit :=
  let ambient := ambient_projections s parent n in
  hm_ensure (bool_decide (ambient = [])) (AmbientProjections ambient).

Definition spawn_mount_access (a : SpawnMountAccess) : HostMountAccess :=
  match a with SpawnReadOnly => HostReadOnly | SpawnReadWrite => HostReadWrite end.

(** The loop of [validate_child_mount_requests] *)
Fixpoint validate_child_go (ids targets : list string) (requested : list SpawnHostMount) : Check unit :=
  match requested with
  | [] => Ok tt
  | sel :: rest =>
      check_then (hm_ensure (negb (bool_decide (trim (sm_grant sel) = ""))) EmptyGrantReference)
      (check_then (hm_ensure (negb (bool_decide (sm_grant sel ∈ ids))) DelegatedTwice)
      (match from_utf8 (into_bytes (sm_target sel)) with
       | None => Err TargetNotUtf8
       | Some target =>
           check_then (validate_mount_namespace_path target)
           (check_then (hm_ensure (negb (existsb (namespace_paths_overlap target) targets)) TargetOverlaps)
           (validate_child_go (ids ++ [sm_grant sel]) (targets ++ [target]) rest))
       end))
  end.
Definition validate_child_mount_requests : list SpawnHostMount → Check unit := validate_child_go [] [].

(** [a == ReadWrite || requested == ReadOnly] *)
Definition covers_access (a requested : HostMountAccess) : bool :=
  bool_decide (a = HostReadWrite) || bool_decide (requested = HostReadOnly).
Definition resolve_selection (s : HmState) (parent : Z) (sel : SpawnHostMount) : Check DelegatedProjection :=
  match hm_grants s !! sm_grant sel with
  | None => Err UnknownGrant
  | Some g =>
      if negb (gr_active (g_public g)) then Err GrantRevoked
      else match list_find (λ p, pj_pid p = parent) (g_projections g) with
      | None => Err NotHeld
      | Some (_, held) =>
          let requested := spawn_mount_access (sm_access sel) in
          if negb (covers_access (pj_access held) requested) then Err AmplifiesParent
          else if negb (covers_access (gr_access (g_public g)) requested) then Err AmplifiesGrant
          else Ok (mkDelegated (sm_grant sel) (from_utf8_lossy (into_bytes (sm_target sel))) requested
                     (g_export g))
      end
  end.
(** [iter().map(f).collect::<Result<Vec<_>>>()] *)
Fixpoint collect_checks {A B} (f : A → Check B) (l : list A) : Check (list B) :=
  match l with
  | [] => Ok []
  | x :: l' =>
      match f x with
      | Ok y => match collect_checks f l' with Ok ys => Ok (y :: ys) | Err e => Err e | Park => Park | Panic => Panic end
      | Err e => Err e | Park => Park | Panic => Panic
      end
  end.
Definition resolve_child_delegations (s : HmState) (parent : Z) (requested : list SpawnHostMount) :
    Check (list DelegatedProjection) :=
  check_then (validate_child_mount_requests requested)
    (collect_checks (resolve_selection s parent) requested).

Definition push_projection (p : Projection) (g : Grant) : Grant :=
  mkGrant (g_public g) (g_owner g) (g_export g) (g_projections g ++ [p]).
(** One pass of the loop of [register_child_process] *)
Definition project_delegated (pid h : Z) (d : DelegatedProjection) : Hm unit :=
  mmodify (hm_replace_mount h (dp_target d) (file_tree (dp_export d)) (access_kernel (dp_access d)));;
  s ← mget;
  g ← mindex (hm_grants s !! dp_grant d);
  mmodify (on_grants (insert (dp_grant d)
    (push_projection (mkProjection pid h (dp_target d) (dp_access d)) g)));;
  mmodify (audit "pass" (dp_grant d) "service-manager" [pid]).
Fixpoint project_all (pid h : Z) (ds : list DelegatedProjection) : Hm unit :=
  match ds with
  | [] => mret tt
  | d :: ds' => project_delegated pid h d;; project_all pid h ds'
  end.
Definition register_child_process (parent pid h : Z) (requested : list SpawnHostMount) : Hm unit :=
  s ← mget;
  mresult (hm_ensure (negb (isSome (hm_processes s !! pid))) AlreadyRegistered);;
  mresult (ensure_no_ambient_child_projections s parent (hm_live h s).1);;
  delegated ← mresult (resolve_child_delegations s parent requested);
  mmodify (on_processes (insert pid h));;
  project_all pid h delegated.

Definition retain_projections (keep : Projection → bool) (g : Grant) : Grant :=
  mkGrant (g_public g) (g_owner g) (g_export g) (filter (λ p, keep p = true) (g_projections g)).
Definition unregister_process (pid : Z) : Hm unit :=
  mmodify (λ s, on_grants (fmap (retain_projections (λ p, negb (pj_pid p =? pid))))
                  (on_processes (delete pid) s)).

(** ** Requests *)

Definition undecided (r : RequestState) : bool :=
  bool_decide (rs_status r = HmPending) && negb (rs_in_progress r).
Definition pending_request (id : string) (s : HmState) : option HostMountRequest :=
  r ← hm_requests s !! id; if undecided r then Some (rs_request r) else None.

(** What [enqueue] does under the mutex: the id of the request it queued *)
Definition enqueue_locked (request : HostMountRequest) : Hm string :=
  s ← mget;
  (if bool_decide (hr_id request = "") then mmodify (on_next_id (λ n, n + 1)) else mret tt);;
  s ← mget;
  let id := if bool_decide (hr_id request = "") then "grant-" +:+ dec_string_Z (hm_next_id s)
            else hr_id request in
  let request := mkHostRequest id (hr_label request) (hr_path request) (hr_access request)
                   (hr_reason request) (hr_pid request) in
  if isSome (hm_requests s !! id) || isSome (hm_grants s !! id) then mfail DuplicateId
  else
    mmodify (on_requests (insert id (mkRequestState request HmPending false None None)));;
    mmodify (audit "request" id "process" []);;
    mret id.
Definition enqueue (request : HostMountRequest) : Hm string :=
  mresult (validate_request request);;
  id ← enqueue_locked request;
  hm_bump;;
  append_request_event id HmPending None None;;
  mret id.

Definition allocate_request_id : Hm string :=
  mmodify (on_next_id (λ n, n + 1));;
  s ← mget;
  mret ("request-" +:+ dec_string_Z (hm_next_id s)).
Definition request_project_mount (pid : Z) (access : HostMountAccess) : Hm string :=
  s ← mget;
  mresult (hm_ensure (isSome (hm_processes s !! pid)) RootNotActive);;
  id ← allocate_request_id;
  enqueue (mkHostRequest id "Project" ("/mnt/project-" +:+ id) access
             "User selected a project directory" pid);;
  mret id.

Definition document_label (d : HostMountRequestDocument) : result ErrorCode string :=
  match hd_label d with
  | Some label => if bool_decide (trim label = "") then Err BadRequest else Ok (trim label)
  | None => Ok (default_label (hd_path d))
  end.
(** [r.map_err(f)] for an operation *)
Definition mmap_err {S E E' A} (f : E → E') (m : M S E A) : M S E' A := λ s,
  let '(s', r) := m s in (s', map_err f r).
Definition commit_mount_request (pid : Z) (id : string) (b : bytes) : M HmState ErrorCode unit :=
  document ← mlift (parse_document b) BadRequest;
  label ← mresult (document_label document);
  mmap_err (λ _, BadRequest)
    (enqueue (mkHostRequest id label (hd_path document) (hd_access document)
                (trim (hd_reason document)) pid));;
  mret tt.

Definition set_in_progress (r : RequestState) : RequestState :=
  mkRequestState (rs_request r) (rs_status r) true (rs_grant r) (rs_error r).
Definition claim_pending_request (id : string) : Hm HostMountRequest :=
  s ← mget;
  r ← mlift (hm_requests s !! id) UnknownRequest;
  mresult (hm_ensure (undecided r) AlreadySettled);;
  mmodify (on_requests (insert id (set_in_progress r)));;
  mret (rs_request r).

(** The part of [set_terminal_request] under the mutex *)
Definition settle_request (id : string) (st : HostMountStatus) (reason actor : string) : Hm unit :=
  s ← mget;
  r ← mlift (hm_requests s !! id) UnknownRequest;
  mresult (hm_ensure (undecided r) AlreadySettled);;
  mmodify (on_requests (insert id (mkRequestState (rs_request r) st true (rs_grant r) (Some reason))));;
  mmodify (audit (mount_status_name st) id actor []).
Definition set_terminal_request (id : string) (st : HostMountStatus) (reason actor : string) : Hm unit :=
  mresult (hm_ensure (mount_is_terminal st) TerminalRequired);;
  let reason := concise_terminal_reason reason in
  settle_request id st reason actor;;
  hm_bump;;
  append_request_event id st None (Some reason).
Definition reject_request (id reason actor : string) : Hm unit :=
  set_terminal_request id HmRejected reason actor.
Definition cancel_mount_request (id reason actor : string) : Hm unit :=
  set_terminal_request id HmCancelled reason actor.
Definition fail_request (id reason actor : string) : Hm unit :=
  set_terminal_request id HmFailed reason actor.

(** ** Grants *)

(** The grants other than [grant_id] drop their projections of [pid] at [path] *)
Definition drop_replaced (grant_id : string) (pid : Z) (path : string) (gs : gmap string Grant) :
    gmap string Grant :=
  map_imap (λ id g, Some (if bool_decide (id = grant_id) then g
    else retain_projections (λ p, negb (pj_pid p =? pid) || negb (bool_decide (pj_path p = path))) g)) gs.
Definition overlaps_active (grant_id : string) (pid : Z) (path : string) (s : HmState) : bool :=
  existsb (λ x, negb (bool_decide (x.1 = grant_id)) && gr_active (g_public x.2) &&
    existsb (λ p, (pj_pid p =? pid) && namespace_paths_strictly_overlap path (pj_path p))
            (g_projections x.2)) (grants_in_order s).
Definition project (grant_id : string) (pid : Z) : Hm unit :=
  s ← mget;
  h ← mlift (hm_processes s !! pid) UnknownProcess;
  g ← mlift (hm_grants s !! grant_id) UnknownGrant;
  mresult (hm_ensure (gr_active (g_public g)) GrantRevoked);;
  mresult (hm_ensure (g_owner g =? pid) OtherOwner);;
  let path := gr_path (g_public g) in
  let access := gr_access (g_public g) in
  mresult (hm_ensure (negb (overlaps_active grant_id pid path s)) PathOverlaps);;
  mmodify (on_grants (drop_replaced grant_id pid path));;
  mmodify (hm_replace_mount h path (file_tree (g_export g)) (access_kernel access));;
  s ← mget;
  g ← mindex (hm_grants s !! grant_id);
  if existsb (λ p, pj_pid p =? pid) (g_projections g) then mret tt
  else
    mmodify (on_grants (insert grant_id (push_projection (mkProjection pid h path access) g)));;
    mmodify (audit "project" grant_id "service-manager" [pid]).

(** The sections of [approve_export] after the claim *)
Definition grant_record_of (r : HostMountRequest) (provenance : string) : HostMountGrantRecord :=
  mkGrantRecord (hr_id r) (hr_label r) (hr_path r) (hr_access r) provenance true.
Definition insert_grant (r : HostMountRequest) (record : HostMountGrantRecord) (e : Export) : Hm unit :=
  mmodify (on_grants (insert (gr_id record) (mkGrant record (hr_pid r) e []))).
Definition projection_failed : string := "Host Mount namespace projection failed".
Definition fail_approval (id : string) : Hm unit :=
  mmodify (on_grants (delete id));;
  mmodify (on_requests (alter (λ r, mkRequestState (rs_request r) HmFailed (rs_in_progress r) (rs_grant r)
                                      (Some projection_failed)) id));;
  mmodify (audit "approval_failed" id "service-manager" []).
Definition settle_approval (id actor : string) : Hm unit :=
  s ← mget;
  r ← mindex (hm_requests s !! id);
  mmodify (on_requests (insert id (mkRequestState (rs_request r) HmApproved (rs_in_progress r) (Some id)
                                     (rs_error r))));;
  mmodify (audit "approve" id actor []).
Definition approve_export (id : string) (e : Export) (provenance actor : string) : Hm HostMountGrantRecord :=
  r ← claim_pending_request id;
  let record := grant_record_of r provenance in
  insert_grant r record e;;
  projected ← mtry (project (gr_id record) (hr_pid r));
  match projected with
  | Err error =>
      fail_approval (gr_id record);;
      hm_bump;;
      append_request_event (gr_id record) HmFailed None (Some projection_failed);;
      mfail error
  | _ =>
      settle_approval (gr_id record) actor;;
      hm_bump;;
      append_request_event (gr_id record) HmApproved (Some (gr_id record)) None;;
      mret record
  end.

Definition deactivate (g : Grant) : Grant :=
  let r := g_public g in
  mkGrant (mkGrantRecord (gr_id r) (gr_label r) (gr_path r) (gr_access r) (gr_provenance r) false)
    (g_owner g) (g_export g) (g_projections g).
Definition unmount_all (ps : list Projection) (s : HmState) : HmState :=
  foldl (λ s p, hm_unmount (pj_namespace p) (pj_path p) s) s ps.
(** The part of [revoke] under the mutex: the processes it took the grant from, or
    nothing for a grant that was revoked already *)
Definition revoke_locked (grant_id actor : string) : Hm (option (list Z)) :=
  s ← mget;
  g ← mlift (hm_grants s !! grant_id) UnknownGrant;
  if negb (gr_active (g_public g)) then mret None
  else
    mmodify (export_revoke (g_export g));;
    mmodify (on_grants (insert grant_id (deactivate g)));;
    mmodify (unmount_all (g_projections g));;
    let affected := pj_pid <$> g_projections g in
    mmodify (audit "revoke" grant_id actor affected);;
    mret (Some affected).
Definition revoke (grant_id actor : string) : Hm unit :=
  o ← revoke_locked grant_id actor;
  match o with
  | None => mret tt
  | Some affected => hm_bump;; append_service_event (GrantRevokedEvent grant_id) affected
  end.

(** ** What a process may see *)

Definition owns_request (pid : option Z) (r : RequestState) : bool :=
  match pid with None => true | Some p => hr_pid (rs_request r) =? p end.
Definition request_is_visible_to (id : string) (pid : option Z) (s : HmState) : bool :=
  match hm_requests s !! id with Some r => owns_request pid r | None => false end.
Definition request_ids_visible_to (pid : option Z) (s : HmState) : list string :=
  filter (λ id, request_is_visible_to id pid s = true) (sorted_keys (hm_requests s)).
Definition holds_grant (pid : option Z) (g : Grant) : bool :=
  match pid with
  | None => true
  | Some p => (g_owner g =? p) || existsb (λ x, pj_pid x =? p) (g_projections g)
  end.
Definition grant_is_visible_to (id : string) (pid : option Z) (s : HmState) : bool :=
  match hm_grants s !! id with Some g => holds_grant pid g | None => false end.
Definition grant_ids_visible_to (pid : option Z) (s : HmState) : list string :=
  filter (λ id, grant_is_visible_to id pid s = true) (sorted_keys (hm_grants s)).
Definition hm_grant_record (id : string) (s : HmState) : option HostMountGrantRecord :=
  g_public <$> hm_grants s !! id.

(** ** Tool authority *)

Context {Adapter : Type}.
(** The native host's adapter: the projections (path, access, export) and the
    working directory asked for *)
Context (tool_execution_adapter : list (string * HostMountAccess * Export) → string → option Adapter).
Context (adapter_namespace_cwd : Adapter → string).
(** [serde_json::to_string] of the generation and the grants *)
Context (scope_json : Z → list (string * string * HostMountAccess) → option string).

Definition presentation_scope (pid : Z) (s : HmState) : option string :=
  let grants := mjoin ((λ x, (λ p, (x.1, pj_path p, pj_access p)) <$>
      filter (λ p, gr_active (g_public x.2) = true ∧ pj_pid p = pid) (g_projections x.2))
    <$> grants_in_order s) in
  if bool_decide (grants = []) then None else scope_json (hm_generation s) grants.

Record ToolExecutionBinding : Type := mkBinding {
  tb_cwd : string; tb_grant : option string; tb_scratch : string; tb_adapter : option Adapter }.
Definition set_adapter (a : Adapter) (b : ToolExecutionBinding) : ToolExecutionBinding :=
  mkBinding (adapter_namespace_cwd a) (tb_grant b) (tb_scratch b) (Some a).
Definition clear_adapter (b : ToolExecutionBinding) : ToolExecutionBinding :=
  mkBinding (tb_cwd b) (tb_grant b) (tb_scratch b) None.

(** The projection of [pid] an active grant has, with the grant's id *)
Definition active_projection (pid : Z) (x : string * Grant) : option (string * Projection * Export) :=
  if negb (gr_active (g_public x.2)) then None
  else (λ f, (gr_id (g_public x.2), f.2, g_export x.2)) <$>
       list_find (λ p, pj_pid p = pid) (g_projections x.2).
Definition active_projections (pid : Z) (s : HmState) : list (string * Projection * Export) :=
  omap (active_projection pid) (grants_in_order s).
(** [max_by_key]: the last of the largest *)
Definition max_by_key {A} (key : A → nat) (l : list A) : option A :=
  foldl (λ best x, match best with
    | None => Some x
    | Some b => if (key b <=? key x)%nat then Some x else Some b
    end) None l.
Definition selected_grant (cwd : string) (ps : list (string * Projection * Export)) : option string :=
  (λ x, x.1.1) <$> max_by_key (λ x, length (components (pj_path x.1.2)))
    (filter (λ x, path_starts_with cwd (pj_path x.1.2) = true) ps).
Definition reconcile (pid : Z) (binding : ToolExecutionBinding) (s : HmState) : Check ToolExecutionBinding :=
  let requested := tb_cwd binding in
  let ps := active_projections pid s in
  let binding := clear_adapter binding in
  let bound :=
    if bool_decide (length ps = 0%nat) then Ok binding
    else match tool_execution_adapter ((λ x, (pj_path x.1.2, pj_access x.1.2, x.2)) <$> ps) requested with
         | Some a => Ok (set_adapter a binding)
         | None => Err AdapterError
         end in
  match bound with
  | Ok binding =>
      let selected := selected_grant (tb_cwd binding) ps in
      if (match tb_grant binding with None => true | Some id => bool_decide (Some id = selected) end)
      then Ok (mkBinding (tb_cwd binding) selected (tb_scratch binding) (tb_adapter binding))
      else Err CwdGrantChanged
  | r => r
  end.
End service.
Arguments Grant : clear implicits.
Arguments HmState : clear implicits.
Arguments ToolExecutionBinding : clear implicits.
Arguments DelegatedProjection : clear implicits.

(** ** Paths the Host Mount service accepts

    A validated path is the printed form of its components, so overlap of paths is
    the prefix order of components that namespaces resolve by. *)


Lemma join_split_on c s : join (String c "") (split_on c s) = s.
Proof.
  induction s as [|a s IH]; [done|]. simpl. case_bool_decide as E.
  - subst a. destruct (split_on c s) as [|w ws] eqn:Es; [by destruct s; simpl in Es; repeat case_match|].
    cbn [join]. rewrite <- IH. done.
  - destruct (split_on c s) as [|w ws] eqn:Es; [by destruct s; simpl in Es; repeat case_match|].
    rewrite <- IH. destruct ws as [|w' ws]; done.
Qed.

Lemma strip_prefix_some p s r : strip_prefix p s = Some r → s = p +:+ r.
Proof.
  revert s. induction p as [|a p IH]; intros s; simpl; [by intros [= ->]|].
  destruct s as [|b s]; [done|]. case_bool_decide as E; [|done]. intros H. subst b. rewrite string_app_cons. by rewrite <- (IH s).
Qed.

(** A component a mount path may have *)
Definition plain_component (c : string) : Prop := c ≠ "" ∧ c ≠ "." ∧ c ≠ "..".

Lemma valid_mount_path p :
  validate_mount_namespace_path p = Ok tt →
  ∃ c cs, p = "/mnt/" +:+ join "/" (c :: cs) ∧ Forall plain_component (c :: cs) ∧
    Forall (λ w, str_contains "/" w = false) (c :: cs) ∧ c ∉ RESERVED_MOUNT_NAMESPACE_ROOTS.
Proof.
  unfold validate_mount_namespace_path. destruct (bool_decide (p = trim p)); [|done]. simpl negb. cbv iota.
  destruct (strip_prefix "/mnt/" p) as [suffix|] eqn:Es; [|done]. apply strip_prefix_some in Es.
  destruct (forallb _ _) eqn:Ef; [|done]. simpl.
  destruct (split_on "/" suffix) as [|c cs] eqn:Ep; [done|]. case_bool_decide as Er; [done|]. intros _.
  pose proof (split_on_no_sep "/" suffix) as Hns. pose proof (join_split_on "/" suffix) as Hj. rewrite Ep in Hns, Hj.
  exists c, cs. split_and!; [by rewrite Es, <- Hj| |done|done].
  apply Forall_forall. intros x Hx. rewrite forallb_forall in Ef.
  apply list_elem_of_In in Hx. apply Ef in Hx. bool_facts. unfold plain_component. by bool_facts.
Qed.

Lemma valid_mount_split p :
  validate_mount_namespace_path p = Ok tt →
  join_path (split_path p) = p ∧ Forall plain_component (split_path p) ∧ split_path p ≠ [] ∧ split_on "/" p = "" :: split_path p.
Proof.
  intros (c & cs & Hp & Hpl & Hns & _)%valid_mount_path.
  assert (p = join_path ("mnt" :: c :: cs)) as Hj by (by rewrite Hp).
  assert (Forall (λ w, valid_component w = true) ("mnt" :: c :: cs)) as Hv.
  { constructor; [done|]. apply Forall_forall. intros x Hx. rewrite Forall_forall in Hpl, Hns.
    destruct (Hpl x Hx) as (Hne & _). unfold valid_component. by rewrite (Hns x Hx), bool_decide_false. }
  assert (split_path p = "mnt" :: c :: cs) as Hs by (rewrite Hj; by apply split_join_path).
  rewrite Hs. split_and!; [done| |done|].
  - constructor; [done|done].
  - rewrite Hj. change (join_path ("mnt" :: c :: cs)) with (String "/" (join "/" ("mnt" :: c :: cs))).
    rewrite split_on_sep. f_equal. apply split_on_join; [done|]. by constructor.
Qed.

Lemma omap_plain l : Forall plain_component l → omap component_of l = Normal <$> l.
Proof.
  induction 1 as [|x l (H1 & H2 & H3) _ IH]; [done|]. rewrite fmap_cons, <- IH.
  assert (component_of x = Some (Normal x)) as Hx by (unfold component_of; by rewrite !bool_decide_false).
  simpl. by rewrite Hx.
Qed.
Lemma valid_components p :
  validate_mount_namespace_path p = Ok tt → components p = RootDir :: (Normal <$> split_path p).
Proof.
  intros Hv. destruct (valid_mount_split p Hv) as (_ & Hpl & _ & Hs).
  apply valid_mount_path in Hv as (c & cs & Hp & _).
  unfold components. assert (is_absolute p = true) as -> by (by rewrite Hp). f_equal.
  rewrite Hs. simpl. by apply omap_plain.
Qed.

Lemma starts_with_normal l l' :
  components_start_with (Normal <$> l) (Normal <$> l') = true ↔ l' `prefix_of` l.
Proof.
  revert l'. induction l as [|x l IH]; intros [|y l']; simpl.
  - split; [intros _; apply prefix_nil|done].
  - split; [done|]. intros H. by apply prefix_nil_not in H.
  - split; [intros _; apply prefix_nil|done].
  - rewrite andb_true_iff, bool_decide_eq_true, IH. split.
    + intros [[= ->] H]. by apply prefix_cons.
    + intros H. split; [by apply prefix_cons_inv_1 in H as ->|by apply prefix_cons_inv_2 in H].
Qed.
(** [Path::starts_with] on validated paths *)
Lemma valid_starts_with p q :
  validate_mount_namespace_path p = Ok tt → validate_mount_namespace_path q = Ok tt →
  path_starts_with p q = true ↔ split_path q `prefix_of` split_path p.
Proof.
  intros Hp Hq. unfold path_starts_with. rewrite (valid_components p Hp), (valid_components q Hq).
  simpl. apply starts_with_normal.
Qed.
Lemma valid_path_inj p q :
  validate_mount_namespace_path p = Ok tt → validate_mount_namespace_path q = Ok tt →
  split_path p = split_path q → p = q.
Proof.
  intros Hp Hq H. destruct (valid_mount_split p Hp) as (<- & _), (valid_mount_split q Hq) as (<- & _).
  by rewrite H.
Qed.
Lemma disjoint_paths p q :
  validate_mount_namespace_path p = Ok tt → validate_mount_namespace_path q = Ok tt →
  namespace_paths_overlap p q = false ↔
  ¬ (split_path q `prefix_of` split_path p) ∧ ¬ (split_path p `prefix_of` split_path q).
Proof.
  intros Hp Hq. rewrite <- (valid_starts_with p q), <- (valid_starts_with q p) by done.
  unfold namespace_paths_overlap, namespace_paths_strictly_overlap. case_bool_decide as E; simpl.
  - subst q. split; [done|]. intros [H _]. exfalso. apply H.
    by apply valid_starts_with.
  - rewrite orb_false_iff, !not_true_iff_false. done.
Qed.
