(* ===== verification/HostMountFs.v ===== *)
(** * The Host Mount file server (crates/service-manager/src/host_mount/file_server.rs)

    A view of the service for one process, or for the host when it has no process:
    requests are made by opening [requests/clone], writing a document and closing;
    a process cancels its request by writing [cancelled] to its [status].
    Parameters: the default hasher and serde_json's texts. *)
From S2P Require Import Prelude RustStd ApTypes ApServer Namespace RustText HostMounts.

Definition MAX_REQUEST_BYTES : Z := 64 * 1024.
Definition MAX_STATUS_COMMAND_BYTES : Z := 64.

Inductive RequestField : Set := FieldRequest | FieldStatus | FieldGrant | FieldError.
Inductive HmNode : Set :=
  | HmRoot | HmRequests | HmRequestsClone | HmRequestsEvents | HmRequest (id : string)
  | HmRequestField (id : string) (field : RequestField)
  | HmGrants | HmGrant (id : string) | HmGrantRecord (id : string) | HmEvents.
Global Instance RequestField_eq_dec : EqDecision RequestField.
Proof. solve_decision. Defined.
Global Instance HmNode_eq_dec : EqDecision HmNode.
Proof. solve_decision. Defined.

Record HmFid : Type := mkHmFid {
  hf_node : HmNode;
  hf_mode : option OpenMode;
  hf_clone : option string;
  hf_buf : bytes;
  hf_wrote : bool;
}.
Definition hm_fid_at (n : HmNode) : HmFid := mkHmFid n None None [] false.

Definition request_field_name (f : RequestField) : string :=
  match f with
  | FieldRequest => "request" | FieldStatus => "status" | FieldGrant => "grant" | FieldError => "error"
  end.

(** [slice] *)
Definition hm_slice (b : bytes) (offset count : Z) : bytes :=
  let start := Z.min offset (len b) in
  sub_range b start (Z.min (len b) (saturating_add64 start count)).
Definition lines_of (names : list string) : bytes := into_bytes (join (String "010" "") names).

Section view.
Context {Tree Export : Type} (file_tree : Export → Tree).
Context (now : nat → Z) (event_json : HostMountEvent → bytes).
Context (parse_document : bytes → option HostMountRequestDocument).
(** [serde_json::to_vec] of a request and of a grant's record *)
Context (request_json : HostMountRequest → bytes) (record_json : HostMountGrantRecord → bytes).
(** The default hasher on a stable key *)
Context (hash_key : string → Z).
(** The process the view is mounted for *)
Context (requesting_pid : option Z).

Record HmView : Type := mkHmView {
  view_service : HmState Tree Export;
  view_fids : gmap Fid HmFid;
}.
Definition set_view_fids (x : gmap Fid HmFid) (s : HmView) : HmView := mkHmView (view_service s) x.
Abbreviation View := (M HmView ErrorCode).
Definition on_service {A} (m : M (HmState Tree Export) ErrorCode A) : View A := λ s,
  let '(st, r) := m (view_service s) in (mkHmView st (view_fids s), r).

Definition hm_stable_key (n : HmNode) : FileKind * string * bool :=
  match n with
  | HmRoot => (Dir, "/", true)
  | HmRequests => (Dir, "requests", true)
  | HmRequestsClone => (Clone, "requests/clone", false)
  | HmRequestsEvents => (StreamKind, "requests/events", false)
  | HmRequest id => (Dir, "requests/" +:+ id, false)
  | HmRequestField id f => (File, "requests/" +:+ id +:+ "/" +:+ request_field_name f, true)
  | HmGrants => (Dir, "grants", true)
  | HmGrant id => (Dir, "grants/" +:+ id, false)
  | HmGrantRecord id => (File, "grants/" +:+ id +:+ "/record", true)
  | HmEvents => (StreamKind, "events", false)
  end.
Definition hm_qid (n : HmNode) (generation : Z) : Qid :=
  let '(k, key, mutable) := hm_stable_key n in
  mkQid k (if (mutable : bool) then generation else 0) (hash_key key).

Definition hm_node_of (fid : Fid) : View HmNode :=
  s ← mget;
  if bool_decide (fid = ROOT) then mret HmRoot else mlift (hf_node <$> view_fids s !! fid) NotFound.

Definition hm_child (s : HmState Tree Export) (parent : HmNode) (name : string) : result ErrorCode HmNode :=
  match parent with
  | HmRoot =>
      if bool_decide (name = "requests") then Ok HmRequests
      else if bool_decide (name = "grants") then Ok HmGrants
      else if bool_decide (name = "events") then Ok HmEvents
      else Err NotFound
  | HmRequests =>
      if bool_decide (name = "clone") then Ok HmRequestsClone
      else if bool_decide (name = "events") then Ok HmRequestsEvents
      else if request_is_visible_to name requesting_pid s then Ok (HmRequest name)
      else Err NotFound
  | HmRequest id =>
      if bool_decide (name = "request") then Ok (HmRequestField id FieldRequest)
      else if bool_decide (name = "status") then Ok (HmRequestField id FieldStatus)
      else if bool_decide (name = "grant") then Ok (HmRequestField id FieldGrant)
      else if bool_decide (name = "error") then Ok (HmRequestField id FieldError)
      else Err NotFound
  | HmGrants => if grant_is_visible_to name requesting_pid s then Ok (HmGrant name) else Err NotDirectory
  | HmGrant id => if bool_decide (name = "record") then Ok (HmGrantRecord id) else Err NotDirectory
  | HmRequestsClone | HmRequestsEvents | HmRequestField _ _ | HmGrantRecord _ | HmEvents =>
      Err NotDirectory
  end.
Fixpoint hm_walk_names (s : HmState Tree Export) (n : HmNode) (names : list string) :
    result ErrorCode HmNode :=
  match names with
  | [] => Ok n
  | name :: names' =>
      match hm_child s n name with Ok n' => hm_walk_names s n' names' | r => r end
  end.

Definition optional_line (o : option string) : bytes :=
  match o with Some x => into_bytes x ++ [newline] | None => [] end.
Definition field_bytes (r : RequestState) (f : RequestField) : bytes :=
  match f with
  | FieldRequest => request_json (rs_request r)
  | FieldStatus => into_bytes (mount_status_name (rs_status r)) ++ [newline]
  | FieldGrant => optional_line (rs_grant r)
  | FieldError => optional_line (rs_error r)
  end.
Definition hm_computed_bytes (s : HmState Tree Export) (n : HmNode) : result ErrorCode bytes :=
  match n with
  | HmRoot => Ok (lines_of ["requests"; "grants"; "events"])
  | HmRequests => Ok (lines_of ("clone" :: "events" :: request_ids_visible_to requesting_pid s))
  | HmRequest _ => Ok (lines_of ["request"; "status"; "grant"; "error"])
  | HmRequestField id f =>
      match hm_requests s !! id with Some r => Ok (field_bytes r f) | None => Err NotFound end
  | HmGrants => Ok (lines_of (grant_ids_visible_to requesting_pid s))
  | HmGrant _ => Ok (lines_of ["record"])
  | HmGrantRecord id =>
      match hm_grant_record id s with Some r => Ok (record_json r) | None => Err NotFound end
  | HmRequestsClone | HmRequestsEvents | HmEvents => Ok []
  end.

Definition hm_walk (fid newfid : Fid) (names : list string) : View Qid :=
  if bool_decide (newfid = ROOT) then mfail BadRequest
  else
    s ← mget;
    if isSome (view_fids s !! newfid) then mfail BadRequest
    else
      start ← hm_node_of fid;
      node ← mresult (hm_walk_names (view_service s) start names);
      mmodify (λ s, set_view_fids (<[newfid := hm_fid_at node]> (view_fids s)) s);;
      mret (hm_qid node (hm_generation (view_service s))).

Definition hm_openable (n : HmNode) (mode : OpenMode) : bool :=
  match n with
  | HmRequestsClone => bool_decide (mode = ReadWrite) && isSome requesting_pid
  | HmRequestField _ FieldStatus =>
      bool_decide (mode = Read) || (bool_decide (mode = Write) && isSome requesting_pid)
  | _ => bool_decide (mode = Read)
  end.
Definition hm_open (fid : Fid) (mode : OpenMode) : View Qid :=
  s ← mget;
  if bool_decide (fid = ROOT) then
    if bool_decide (mode = Read) then mret (hm_qid HmRoot (hm_generation (view_service s)))
    else mfail NoAccess
  else
    f ← mlift (view_fids s !! fid) NotFound;
    if isSome (hf_mode f) then mfail BadRequest
    else if negb (hm_openable (hf_node f) mode) then mfail NoAccess
    else
      clone ← (if bool_decide (hf_node f = HmRequestsClone)
               then id ← on_service (mmap_err (λ _, Io) allocate_request_id); mret (Some id)
               else mret (hf_clone f));
      mmodify (λ s, set_view_fids
        (<[fid := mkHmFid (hf_node f) (Some mode) clone (hf_buf f) (hf_wrote f)]> (view_fids s)) s);;
      s ← mget;
      mret (hm_qid (hf_node f) (hm_generation (view_service s))).

(** The stream a view reads: making a process's stream is a change *)
Definition view_stream (s : HostMountEventStreams) : HostMountEventStreams * bytes :=
  match requesting_pid with None => (s, es_all s) | Some pid => process_stream pid s end.
Definition open_request_events : View bytes := λ s,
  let '(es, b) := view_stream (hm_request_events (view_service s)) in
  (mkHmView (on_streams (λ _, es) id (view_service s)) (view_fids s), Ok b).
Definition open_events : View bytes := λ s,
  let '(es, b) := view_stream (hm_events (view_service s)) in
  (mkHmView (on_streams id (λ _, es) (view_service s)) (view_fids s), Ok b).

Definition hm_read_fid (fid : Fid) (s : HmView) : option HmFid :=
  if bool_decide (fid = ROOT) then Some (mkHmFid HmRoot (Some Read) None [] false)
  else view_fids s !! fid.
Definition hm_read (fid : Fid) (offset : Offset) (count : Z) : View bytes :=
  s ← mget;
  f ← mlift (hm_read_fid fid s) NotFound;
  if negb (opened_for_read (hf_mode f)) then mfail NoAccess
  else match hf_clone f with
  | Some id => mret (hm_slice (into_bytes id) offset count)
  | None =>
      match hf_node f with
      | HmRequestsEvents => b ← open_request_events; mresult (event_stream_read b offset count)
      | HmEvents => b ← open_events; mresult (event_stream_read b offset count)
      | other =>
          b ← mresult (hm_computed_bytes (view_service s) other);
          mret (hm_slice b offset count)
      end
  end.

Definition write_limit (n : HmNode) : option Z :=
  match n with
  | HmRequestsClone => Some MAX_REQUEST_BYTES
  | HmRequestField _ FieldStatus => Some MAX_STATUS_COMMAND_BYTES
  | _ => None
  end.
Definition hm_write (fid : Fid) (offset : Offset) (data : bytes) : View Z :=
  s ← mget;
  f ← mlift (view_fids s !! fid) NotFound;
  if negb (opened_for_write (hf_mode f)) then mfail NoAccess
  else
    start ← mlift (usize_try_from offset) BadRequest;
    end_ ← mlift (checked_add64 start (len data)) BadRequest;
    max ← mlift (write_limit (hf_node f)) Unsupported;
    if max <? end_ then mfail BadRequest
    else
      mmodify (set_view_fids (<[fid := mkHmFid (hf_node f) (hf_mode f) (hf_clone f)
                                         (splice (hf_buf f) start data) true]> (view_fids s)));;
      mret (as_u32 (len data)).

Definition hm_writable (n : HmNode) : bool :=
  isSome requesting_pid &&
  match n with HmRequestsClone | HmRequestField _ FieldStatus => true | _ => false end.
Definition hm_stat (fid : Fid) : View Stat :=
  node ← hm_node_of fid;
  s ← mget;
  length ← match node with
    | HmRequestsEvents => b ← open_request_events; mret (len b)
    | HmEvents => b ← open_events; mret (len b)
    | _ => b ← mresult (hm_computed_bytes (view_service s) node); mret (len b)
    end;
  mret (mkStat "" (hm_qid node (hm_generation (view_service s))) length false (hm_writable node)).

(** What closing a written fid does *)
Definition commit_fid (f : HmFid) : View unit :=
  match hf_node f with
  | HmRequestsClone =>
      pid ← mlift requesting_pid NoAccess;
      id ← mlift (hf_clone f) BadRequest;
      on_service (commit_mount_request now event_json parse_document pid id (hf_buf f))
  | HmRequestField id FieldStatus =>
      pid ← mlift requesting_pid NoAccess;
      command ← mlift (from_utf8 (hf_buf f)) BadRequest;
      if negb (bool_decide (trim command = "cancelled")) then mfail BadRequest
      else
        on_service (mmap_err (λ _, BadRequest)
          (cancel_mount_request now event_json id "cancelled by requesting Process"
             ("process:" +:+ dec_string_Z pid)))
  | _ => mfail Unsupported
  end.
Definition hm_clunk (fid : Fid) : View unit :=
  if bool_decide (fid = ROOT) then mret tt
  else
    s ← mget;
    f ← mlift (view_fids s !! fid) NotFound;
    mmodify (set_view_fids (delete fid (view_fids s)));;
    if hf_wrote f then commit_fid f else mret tt.

Definition HostMountFileServer : FileServer HmView := {|
  fs_walk := hm_walk; fs_open := hm_open; fs_read := hm_read; fs_write := hm_write;
  fs_stat := hm_stat;
  fs_create := λ _ _ _ _, mfail Unsupported;
  fs_remove := λ _, mfail Unsupported;
  fs_clunk := hm_clunk;
|}.
End view.
Arguments HmView : clear implicits.
