(* ===== verification/HostMountSteps.v ===== *)
(** * Callers of the Host Mount service, interleaved

    [HmCall] is what a caller starts, [Task] what is left of a call that has released
    the mutex. [hm_step] runs one section of one caller at a time, so the sections of
    an approval interleave with every other call; [Environment] is a change somebody
    else makes to a live namespace. *)
From S2P Require Import Prelude RustStd ApTypes Namespace RustText HostMounts.

(** Which of [reject_request], [cancel_mount_request] and [fail_request] is called *)
Inductive Refusal : Set := Reject | Cancel | FailRequest.
Definition refusal_status (k : Refusal) : HostMountStatus :=
  match k with Reject => HmRejected | Cancel => HmCancelled | FailRequest => HmFailed end.

(** The event a call ends with *)
Inductive Notice : Type :=
  | NEvent (id : string) (st : HostMountStatus) (grant error : option string)
  | NService (e : HostMountEvent) (affected : list Z).

Section steps.
Context {Tree Export : Type} (file_tree : Export → Tree).
Context (now : nat → Z) (event_json : HostMountEvent → bytes).
Abbreviation St := (HmState Tree Export).
Abbreviation Hm := (M St HmError).

Inductive Task : Type :=
  | TInsert (r : HostMountRequest) (record : HostMountGrantRecord) (e : Export) (actor : string)
  | TProject (r : HostMountRequest) (record : HostMountGrantRecord) (actor : string)
  | TFail (id : string)
  | TSettle (id actor : string)
  | TBump (n : Notice)
  | TNotify (n : Notice).

Inductive HmCall : Type :=
  | Register (pid h : Z)
  | RegisterChild (parent pid h : Z) (requested : list SpawnHostMount)
  | Unregister (pid : Z)
  | Enqueue (r : HostMountRequest)
  | Allocate
  | Approve (id : string) (e : Export) (provenance actor : string)
  | Refuse (k : Refusal) (id reason actor : string)
  | Project (grant_id : string) (pid : Z)
  | Revoke (grant_id actor : string)
  | Environment (h : Z) (n : Namespace Tree).

(** One section of a call that is under way, with what is left of it *)
Definition task_step (t : Task) : Hm (list Task) :=
  match t with
  | TInsert r record e actor => insert_grant r record e;; mret [TProject r record actor]
  | TProject r record actor =>
      projected ← mtry (project file_tree now (gr_id record) (hr_pid r));
      mret [match projected with Err _ => TFail (gr_id record) | _ => TSettle (gr_id record) actor end]
  | TFail id =>
      fail_approval now id;; mret [TBump (NEvent id HmFailed None (Some projection_failed))]
  | TSettle id actor =>
      settle_approval now id actor;; mret [TBump (NEvent id HmApproved (Some id) None)]
  | TBump n => hm_bump;; mret [TNotify n]
  | TNotify (NEvent id st grant error) => append_request_event event_json id st grant error;; mret []
  | TNotify (NService e affected) => append_service_event event_json e affected;; mret []
  end.

(** The first section of a call *)
Definition call_step (c : HmCall) : Hm (list Task) :=
  match c with
  | Register pid h => register_process pid h;; mret []
  | RegisterChild parent pid h requested =>
      register_child_process file_tree now parent pid h requested;; mret []
  | Unregister pid => unregister_process pid;; mret []
  | Enqueue r =>
      mresult (validate_request r);;
      id ← enqueue_locked now r;
      mret [TBump (NEvent id HmPending None None)]
  | Allocate => allocate_request_id;; mret []
  | Approve id e provenance actor =>
      r ← claim_pending_request id;
      mret [TInsert r (grant_record_of r provenance) e actor]
  | Refuse k id reason actor =>
      mresult (hm_ensure (mount_is_terminal (refusal_status k)) TerminalRequired);;
      settle_request now id (refusal_status k) (concise_terminal_reason reason) actor;;
      mret [TBump (NEvent id (refusal_status k) None (Some (concise_terminal_reason reason)))]
  | Project grant_id pid => project file_tree now grant_id pid;; mret []
  | Revoke grant_id actor =>
      o ← revoke_locked now grant_id actor;
      mret (match o with
            | None => []
            | Some affected => [TBump (NService (GrantRevokedEvent grant_id) affected)]
            end)
  | Environment h n => mmodify (hm_live_change h (λ _, n));; mret []
  end.

Definition left_over (r : result HmError (list Task)) : list Task := match r with Ok ts => ts | _ => [] end.

(** [ok] says which calls the callers may start in which state. *)
Inductive hm_step (ok : HmCall → St → list Task → Prop) : St * list Task → St * list Task → Prop :=
  | step_call c s ts :
      ok c s ts →
      hm_step ok (s, ts) ((call_step c s).1, ts ++ left_over (call_step c s).2)
  | step_task t s ts1 ts2 :
      hm_step ok (s, ts1 ++ t :: ts2) ((task_step t s).1, ts1 ++ ts2 ++ left_over (task_step t s).2).
Definition any_call (c : HmCall) (s : St) (ts : list Task) : Prop := True.
Definition hm_reachable (ok : HmCall → St → list Task → Prop) (lives : gmap Z (Namespace Tree * Z))
    (x : St * list Task) : Prop :=
  rtc (hm_step ok) (host_mount_new lives, []) x.

(** A schedule: which call starts or which task goes on, in order *)
Fixpoint hm_run (acts : list (HmCall + nat)) (x : St * list Task) : St * list Task :=
  match acts with
  | [] => x
  | inl c :: acts' => hm_run acts' ((call_step c x.1).1, x.2 ++ left_over (call_step c x.1).2)
  | inr i :: acts' =>
      match x.2 !! i with
      | None => hm_run acts' x
      | Some t => hm_run acts' ((task_step t x.1).1, take i x.2 ++ drop (S i) x.2 ++ left_over (task_step t x.1).2)
      end
  end.
Fixpoint schedule_ok (ok : HmCall → St → list Task → Prop) (acts : list (HmCall + nat)) (x : St * list Task) : Prop :=
  match acts with
  | [] => True
  | inl c :: acts' =>
      ok c x.1 x.2 ∧ schedule_ok ok acts' ((call_step c x.1).1, x.2 ++ left_over (call_step c x.1).2)
  | inr i :: acts' =>
      match x.2 !! i with
      | None => schedule_ok ok acts' x
      | Some t => schedule_ok ok acts' ((task_step t x.1).1, take i x.2 ++ drop (S i) x.2 ++ left_over (task_step t x.1).2)
      end
  end.
Lemma run_steps ok acts x : schedule_ok ok acts x → rtc (hm_step ok) x (hm_run acts x).
Proof.
  revert x. induction acts as [|[c|i] acts IH]; intros [s ts]; simpl; [done| |].
  - intros [Hok Hr]. eapply rtc_l; [by apply step_call|by apply IH].
  - destruct (ts !! i) as [t|] eqn:E; [|apply IH]. intros Hr. eapply rtc_l; [|by apply IH].
    rewrite <- (take_drop_middle ts i t E) at 1. apply step_task.
Qed.
Lemma run_ok_calls ok acts x :
  (∀ n c, acts !! n = Some (inl c) → ok c (hm_run (take n acts) x).1 (hm_run (take n acts) x).2) → schedule_ok ok acts x.
Proof.
  revert x. induction acts as [|[c|i] acts IH]; intros [s ts] H; simpl; [done| |].
  - split; [apply (H 0%nat c eq_refl)|]. apply IH. intros n c' Hn. apply (H (S n) c' Hn).
  - destruct (ts !! i) as [t|] eqn:E; apply IH; intros n c' Hn; specialize (H (S n) c' Hn); simpl in H;
      by rewrite E in H.
Qed.
End steps.
