(* ===== verification/HostMountGrants.v ===== *)
(** * The projections of the Host Mount service

    The invariant of the grant table: who may have a projection, that a process's
    projections are apart and that none exceeds its grant; and that every section of
    every call keeps it. *)
From S2P Require Import Prelude RustStd ApTypes Namespace RustText HostMounts HostMountSteps.

(** ** Paths *)

Lemma strict_overlap_sym a b :
  namespace_paths_strictly_overlap a b = namespace_paths_strictly_overlap b a.
Proof.
  unfold namespace_paths_strictly_overlap.
  rewrite (bool_decide_ext (a = b) (b = a)) by naive_solver. by rewrite (orb_comm (path_starts_with a b)).
Qed.
Lemma overlap_sym a b : namespace_paths_overlap a b = namespace_paths_overlap b a.
Proof.
  unfold namespace_paths_overlap. rewrite strict_overlap_sym.
  by rewrite (bool_decide_ext (a = b) (b = a)) by naive_solver.
Qed.

Lemma utf8_text s t : from_utf8 (into_bytes s) = Some t → t = s ∧ from_utf8_lossy (into_bytes s) = s.
Proof.
  intros H. rewrite (from_utf8_lossy_valid _ _ H). unfold from_utf8 in H.
  case_match; [|done]. injection H as <-. by rewrite of_into_bytes.
Qed.

Section grants.
Context {Tree Export : Type} (file_tree : Export → Tree).
Context (now : nat → Z) (event_json : HostMountEvent → bytes).
Abbreviation St := (HmState Tree Export).
Abbreviation Gr := (Grant Export).
Implicit Types (gs : gmap string Gr) (ps : gmap Z Z) (g : Gr) (s : St).

(** ** The invariant *)

Record GInv gs ps : Prop := mkGInv {
  gi_registered id g p : gs !! id = Some g → p ∈ g_projections g → is_Some (ps !! pj_pid p);
  gi_single id g : gs !! id = Some g → NoDup (pj_pid <$> g_projections g);
  gi_apart id1 g1 p1 id2 g2 p2 :
    gs !! id1 = Some g1 → gs !! id2 = Some g2 → id1 ≠ id2 →
    gr_active (g_public g1) = true → gr_active (g_public g2) = true →
    p1 ∈ g_projections g1 → p2 ∈ g_projections g2 → pj_pid p1 = pj_pid p2 →
    namespace_paths_overlap (pj_path p1) (pj_path p2) = false;
  gi_access id g p : gs !! id = Some g → p ∈ g_projections g →
    covers_access (gr_access (g_public g)) (pj_access p) = true;
}.

Lemma ginv_empty : GInv ∅ ∅.
Proof. constructor; intros *; by rewrite lookup_empty. Qed.

Lemma ginv_register gs ps pid h : GInv gs ps → GInv gs (<[pid := h]> ps).
Proof.
  intros I. constructor; try apply I. intros id g p Hg Hp.
  destruct (gi_registered _ _ I id g p Hg Hp) as [x Hx].
  destruct (decide (pid = pj_pid p)) as [->|Hne]; [rewrite lookup_insert_eq|rewrite lookup_insert_ne by done];
    eauto.
Qed.

(** Fewer projections, fewer active grants, fewer grants *)
Definition weaker_grant (g' g : Gr) : Prop :=
  gr_access (g_public g') = gr_access (g_public g) ∧
  (gr_active (g_public g') = true → gr_active (g_public g) = true) ∧
  sublist (g_projections g') (g_projections g).
Definition weaker_grants gs' gs : Prop :=
  ∀ id g', gs' !! id = Some g' → ∃ g, gs !! id = Some g ∧ weaker_grant g' g.

Lemma ginv_weaker gs gs' ps ps' :
  weaker_grants gs' gs →
  (∀ id g' p, gs' !! id = Some g' → p ∈ g_projections g' → is_Some (ps !! pj_pid p) → is_Some (ps' !! pj_pid p)) →
  GInv gs ps → GInv gs' ps'.
Proof.
  intros Hw Hr I. constructor.
  - intros id g' p Hg' Hp. destruct (Hw _ _ Hg') as (g & Hg & _ & _ & Hs). eapply Hr; [done..|].
    eapply (gi_registered _ _ I); [exact Hg|]. by eapply elem_of_sublist.
  - intros id g' Hg'. destruct (Hw _ _ Hg') as (g & Hg & _ & _ & Hs).
    eapply sublist_NoDup; [by eapply (gi_single _ _ I)|by apply fmap_sublist].
  - intros id1 g1 p1 id2 g2 p2 H1 H2 Hne A1 A2 P1 P2 Hp.
    destruct (Hw _ _ H1) as (k1 & K1 & _ & B1 & S1), (Hw _ _ H2) as (k2 & K2 & _ & B2 & S2).
    eapply (gi_apart _ _ I id1 k1 p1 id2 k2 p2); eauto using elem_of_sublist.
  - intros id g' p Hg' Hp. destruct (Hw _ _ Hg') as (g & Hg & -> & _ & Hs).
    eapply (gi_access _ _ I); [done|]. by eapply elem_of_sublist.
Qed.

Lemma retain_weaker keep g : weaker_grant (retain_projections keep g) g.
Proof. repeat split; simpl; auto using sublist_filter. Qed.

Lemma weaker_refl gs : weaker_grants gs gs.
Proof. intros id g Hg. exists g. repeat split; auto. Qed.
Lemma weaker_fmap_retain keep gs : weaker_grants (retain_projections keep <$> gs) gs.
Proof.
  intros id g' Hg. rewrite lookup_fmap in Hg. apply fmap_Some in Hg as (g & Hg & ->).
  eauto using retain_weaker.
Qed.
Lemma weaker_delete id gs : weaker_grants (delete id gs) gs.
Proof. intros k g [_ Hg]%lookup_delete_Some. exists g. repeat split; auto. Qed.
Lemma drop_replaced_lookup grant_id pid path gs id :
  drop_replaced grant_id pid path gs !! id =
  (λ g, if bool_decide (id = grant_id) then g
        else retain_projections (λ p, negb (pj_pid p =? pid) || negb (bool_decide (pj_path p = path))) g)
  <$> gs !! id.
Proof. unfold drop_replaced. rewrite map_lookup_imap. by destruct (gs !! id). Qed.
Lemma weaker_drop_replaced grant_id pid path gs : weaker_grants (drop_replaced grant_id pid path gs) gs.
Proof.
  intros id g' Hg. rewrite drop_replaced_lookup in Hg. apply fmap_Some in Hg as (g & Hg & ->).
  exists g. split; [done|]. case_bool_decide; [repeat split; auto|apply retain_weaker].
Qed.
Lemma weaker_deactivate id g gs : gs !! id = Some g → weaker_grants (<[id := deactivate g]> gs) gs.
Proof.
  intros Hg k g' Hk. apply lookup_insert_Some in Hk as [[<- <-]|[_ Hk]]; [|exists g'; repeat split; auto].
  exists g. repeat split; simpl; auto; done.
Qed.

Lemma ginv_insert_new gs ps id record owner e : GInv gs ps → GInv (<[id := mkGrant record owner e []]> gs) ps.
Proof.
  intros I. constructor.
  - intros k g p Hk Hp. apply lookup_insert_Some in Hk as [[<- <-]|[_ Hk]]; [|by eapply (gi_registered _ _ I)].
    by apply elem_of_nil in Hp.
  - intros k g Hk. apply lookup_insert_Some in Hk as [[<- <-]|[_ Hk]]; [constructor|by eapply (gi_single _ _ I)].
  - intros k1 g1 p1 k2 g2 p2 H1 H2 Hne A1 A2 P1 P2.
    apply lookup_insert_Some in H1 as [[<- <-]|[_ H1]]; [by apply elem_of_nil in P1|].
    apply lookup_insert_Some in H2 as [[<- <-]|[_ H2]]; [by apply elem_of_nil in P2|].
    intros Hp. by apply (gi_apart _ _ I k1 g1 p1 k2 g2 p2).
  - intros k g p Hk Hp. apply lookup_insert_Some in Hk as [[<- <-]|[_ Hk]]; [|by eapply (gi_access _ _ I)].
    by apply elem_of_nil in Hp.
Qed.

(** [q] can be added to the projections of [id]. *)
Record may_push gs ps (id : string) g (q : Projection) : Prop := mkMayPush {
  mp_registered : is_Some (ps !! pj_pid q);
  mp_new : pj_pid q ∉ (pj_pid <$> g_projections g);
  mp_access : covers_access (gr_access (g_public g)) (pj_access q) = true;
  mp_apart k g2 p : gs !! k = Some g2 → k ≠ id → gr_active (g_public g2) = true → p ∈ g_projections g2 →
    pj_pid p = pj_pid q → namespace_paths_overlap (pj_path p) (pj_path q) = false;
}.
Lemma push_elem q g p : p ∈ g_projections (push_projection q g) ↔ p ∈ g_projections g ∨ p = q.
Proof. simpl. rewrite elem_of_app, list_elem_of_singleton. done. Qed.

Lemma ginv_push gs ps id g q :
  gs !! id = Some g → may_push gs ps id g q → GInv gs ps → GInv (<[id := push_projection q g]> gs) ps.
Proof.
  intros Hg Hq I. constructor.
  - intros k g' p Hk Hp. apply lookup_insert_Some in Hk as [[<- <-]|[_ Hk]]; [|by eapply (gi_registered _ _ I)].
    apply push_elem in Hp as [Hp| ->]; [by eapply (gi_registered _ _ I)|apply Hq].
  - intros k g' Hk. apply lookup_insert_Some in Hk as [[<- <-]|[_ Hk]]; [|by eapply (gi_single _ _ I)].
    simpl. rewrite fmap_app. apply NoDup_app. split; [by eapply (gi_single _ _ I)|].
    split; [|apply NoDup_singleton]. intros x Hx ->%list_elem_of_singleton. by apply (mp_new _ _ _ _ _ Hq).
  - intros k1 g1 p1 k2 g2 p2 H1 H2 Hne A1 A2 P1 P2 Hp.
    apply lookup_insert_Some in H1 as [[<- <-]|[N1 H1]]; apply lookup_insert_Some in H2 as [[<- <-]|[N2 H2]]; [done|..].
    + apply push_elem in P1 as [P1| ->]; [by apply (gi_apart _ _ I id g p1 k2 g2 p2)|].
      rewrite overlap_sym. by apply (mp_apart _ _ _ _ _ Hq k2 g2 p2).
    + apply push_elem in P2 as [P2| ->]; [by apply (gi_apart _ _ I k1 g1 p1 id g p2)|].
      by apply (mp_apart _ _ _ _ _ Hq k1 g1 p1).
    + by apply (gi_apart _ _ I k1 g1 p1 k2 g2 p2).
  - intros k g' p Hk Hp. apply lookup_insert_Some in Hk as [[<- <-]|[_ Hk]]; [|by eapply (gi_access _ _ I)].
    apply push_elem in Hp as [Hp| ->]; [by apply (gi_access _ _ I id g p)|apply Hq].
Qed.

Lemma in_order s id g : (id, g) ∈ grants_in_order s ↔ hm_grants s !! id = Some g.
Proof.
  unfold grants_in_order. rewrite list_elem_of_omap. split.
  - intros (k & _ & H). apply fmap_Some in H as (g' & Hg & [= -> ->]). done.
  - intros H. exists id. rewrite elem_of_sorted_keys, H. eauto.
Qed.

(** ** The sections *)

Definition gcore (s : St) : gmap string Gr * gmap Z Z := (hm_grants s, hm_processes s).
Definition GI (s : St) : Prop := GInv (hm_grants s) (hm_processes s).
Lemma gi_core s s' : gcore s' = gcore s → GI s → GI s'.
Proof. intros [= Hg Hp]. unfold GI. by rewrite Hg, Hp. Qed.

Lemma overlaps_active_spec grant_id pid path s id g p :
  overlaps_active grant_id pid path s = false → hm_grants s !! id = Some g → id ≠ grant_id →
  gr_active (g_public g) = true → p ∈ g_projections g → pj_pid p = pid →
  namespace_paths_strictly_overlap path (pj_path p) = false.
Proof.
  intros Ho Hg Hne Ha Hp Hpid. apply in_order in Hg.
  destruct (namespace_paths_strictly_overlap path (pj_path p)) eqn:E; [|done].
  exfalso. enough (overlaps_active grant_id pid path s = true) by congruence.
  apply existsb_exists. exists (id, g). rewrite <- list_elem_of_In. split; [done|]. simpl.
  rewrite bool_decide_false, Ha by done. simpl. apply existsb_exists. exists p.
  rewrite <- list_elem_of_In. split; [done|]. by rewrite E, Hpid, Z.eqb_refl.
Qed.

(** What [project] does when it goes through *)
Lemma project_effect grant_id pid s s' r :
  project file_tree now grant_id pid s = (s', r) →
  (s' = s ∧ (∃ e, r = Err e)) ∨
  ∃ h g, hm_processes s !! pid = Some h ∧ hm_grants s !! grant_id = Some g ∧
    gr_active (g_public g) = true ∧ g_owner g = pid ∧ r = Ok tt ∧
    let path := gr_path (g_public g) in
    let q := mkProjection pid h path (gr_access (g_public g)) in
    overlaps_active grant_id pid path s = false ∧
    let s1 := hm_replace_mount h path (file_tree (g_export g)) (access_kernel (gr_access (g_public g)))
                (on_grants (drop_replaced grant_id pid path) s) in
    if existsb (λ p, pj_pid p =? pid) (g_projections g) then s' = s1
    else s' = audit now "project" grant_id "service-manager" [pid]
                (on_grants (insert grant_id (push_projection q g)) s1).
Proof.
  unfold project. mrun.
  destruct (hm_processes s !! pid) as [h|] eqn:Eh; [|intros [= <- <-]; left; eauto].
  destruct (hm_grants s !! grant_id) as [g|] eqn:Eg; [|intros [= <- <-]; left; eauto].
  unfold hm_ensure. destruct (gr_active (g_public g)) eqn:Ea; [|intros [= <- <-]; left; eauto].
  destruct (g_owner g =? pid) eqn:Eo; [|intros [= <- <-]; left; eauto].
  destruct (overlaps_active grant_id pid (gr_path (g_public g)) s) eqn:El; simpl; [intros [= <- <-]; left; eauto|].
  rewrite drop_replaced_lookup, Eg. simpl. rewrite bool_decide_true by done.
  bool_facts. intros H. right. exists h, g.
  destruct (existsb (λ p, pj_pid p =? pid) (g_projections g)) eqn:Ee; injection H as <- <-; done.
Qed.

Lemma project_keeps grant_id pid s : GI s → GI (project file_tree now grant_id pid s).1.
Proof.
  intros I. destruct (project file_tree now grant_id pid s) as [s' r] eqn:E. simpl.
  destruct (project_effect _ _ _ _ _ E) as [[-> _]|(h & g & Hh & Hg & Ha & Ho & _ & Hov & Hs)]; [done|].
  set (path := gr_path (g_public g)) in *.
  assert (GInv (drop_replaced grant_id pid path (hm_grants s)) (hm_processes s)) as I1
    by (eapply ginv_weaker; [apply weaker_drop_replaced|by auto|done]).
  cbv zeta in Hs. destruct (existsb _ _) eqn:Ee; subst s'; [done|]. unfold GI. simpl. apply ginv_push.
  - rewrite drop_replaced_lookup, Hg. simpl. by rewrite bool_decide_true.
  - constructor; simpl.
    + eauto.
    + intros (p & Hp & Hin)%list_elem_of_fmap. enough (existsb (λ p, pj_pid p =? pid) (g_projections g) = true) by congruence.
      apply existsb_exists. exists p. rewrite <- list_elem_of_In. split; [done|]. by rewrite <- Hp, Z.eqb_refl.
    + by destruct (gr_access (g_public g)).
    + intros k g2 p Hk Hne A2 P2 Hpid. rewrite drop_replaced_lookup in Hk.
      apply fmap_Some in Hk as (g2' & Hk & ->). rewrite bool_decide_false in A2, P2 by done.
      simpl in A2, P2. apply list_elem_of_filter in P2 as [Hkeep P2].
      rewrite Hpid, Z.eqb_refl in Hkeep. simpl in Hkeep. bool_facts.
      unfold namespace_paths_overlap. rewrite bool_decide_false, strict_overlap_sym by done. simpl.
      by eapply overlaps_active_spec.
  - done.
Qed.

(** ** Delegation *)

(** What [validate_child_mount_requests] checked of the targets and grants *)
Fixpoint fresh_delegations (ids targets : list string) (ds : list (DelegatedProjection Export)) : Prop :=
  match ds with
  | [] => True
  | d :: ds' =>
      dp_grant d ∉ ids ∧ existsb (namespace_paths_overlap (dp_target d)) targets = false ∧
      validate_mount_namespace_path (dp_target d) = Ok tt ∧
      fresh_delegations (ids ++ [dp_grant d]) (targets ++ [dp_target d]) ds'
  end.
(** What the parent must hold for a delegation *)
Definition held_by gs (parent : Z) (d : DelegatedProjection Export) : Prop :=
  ∃ g held, gs !! dp_grant d = Some g ∧ gr_active (g_public g) = true ∧
    held ∈ g_projections g ∧ pj_pid held = parent ∧ dp_export d = g_export g ∧
    covers_access (pj_access held) (dp_access d) = true ∧
    covers_access (gr_access (g_public g)) (dp_access d) = true.
Definition selects (sel : SpawnHostMount) (d : DelegatedProjection Export) : Prop :=
  dp_grant d = sm_grant sel ∧ dp_target d = sm_target sel ∧ dp_access d = spawn_mount_access (sm_access sel).

Lemma check_then_ok {A} r (k : result HmError A) a : check_then r k = Ok a → r = Ok tt ∧ k = Ok a.
Proof. by destruct r as [[]| | |]. Qed.
Lemma ensure_ok b e : hm_ensure b e = Ok tt → b = true.
Proof. by destruct b. Qed.

Lemma collect_checks_ok {A B} (f : A → result HmError B) l ys :
  collect_checks f l = Ok ys → Forall2 (λ x y, f x = Ok y) l ys.
Proof.
  revert ys. induction l as [|x l IH]; simpl; intros ys H; [by simplify_eq|].
  destruct (f x) eqn:E; try done. destruct (collect_checks f l); simplify_eq. constructor; auto.
Qed.

Lemma resolve_selection_ok s parent sel d :
  resolve_selection s parent sel = Ok d →
  dp_grant d = sm_grant sel ∧ dp_target d = from_utf8_lossy (into_bytes (sm_target sel)) ∧
  dp_access d = spawn_mount_access (sm_access sel) ∧ held_by (hm_grants s) parent d.
Proof.
  unfold resolve_selection. destruct (hm_grants s !! sm_grant sel) as [g|] eqn:Eg; [|done].
  destruct (gr_active (g_public g)) eqn:Ea; [|done]. simpl.
  destruct (list_find _ _) as [[i held]|] eqn:Ef; [|done].
  destruct (covers_access (pj_access held) _) eqn:E1; [|done].
  destruct (covers_access (gr_access _) _) eqn:E2; [|done].
  intros [= <-]. simpl. repeat split. exists g, held. simpl.
  apply list_find_Some in Ef as (Hi & Hpid & _). apply list_elem_of_lookup_2 in Hi. done.
Qed.

Lemma validate_child_fresh s parent ids targets requested ds :
  validate_child_go ids targets requested = Ok tt →
  Forall2 (λ sel d, resolve_selection s parent sel = Ok d) requested ds →
  fresh_delegations ids targets ds ∧ Forall2 selects requested ds.
Proof.
  intros Hv Hr. revert ids targets Hv. induction Hr as [|sel d rest ds Hd Hr IH]; intros ids targets Hv; [done|].
  cbn [validate_child_go] in Hv.
  apply check_then_ok in Hv as [_ Hv]. apply check_then_ok in Hv as [Hn Hv]. apply ensure_ok in Hn.
  destruct (from_utf8 (into_bytes (sm_target sel))) as [t|] eqn:Et; [|done].
  destruct (utf8_text _ _ Et) as [-> Hl].
  apply check_then_ok in Hv as [Hp Hv]. apply check_then_ok in Hv as [Ho Hv]. apply ensure_ok in Ho.
  destruct (resolve_selection_ok _ _ _ _ Hd) as (Hg & Ht & Ha & _). rewrite Hl in Ht.
  bool_facts. apply IH in Hv as [Hf Hs]. simpl. rewrite Hg, Ht. split; [done|]. constructor; [done|done].
Qed.

Lemma resolve_child_ok s parent requested ds :
  resolve_child_delegations s parent requested = Ok ds →
  fresh_delegations [] [] ds ∧ Forall2 selects requested ds ∧ Forall (held_by (hm_grants s) parent) ds.
Proof.
  intros (Hv & Hc)%check_then_ok. apply collect_checks_ok in Hc.
  destruct (validate_child_fresh _ _ _ _ _ _ Hv Hc) as [Hf Hs]. split_and!; [done..|].
  clear -Hc. induction Hc; constructor; [|done]. by eapply resolve_selection_ok.
Qed.

(** One delegated projection *)
Lemma project_delegated_effect pid h d s g :
  hm_grants s !! dp_grant d = Some g →
  project_delegated file_tree now pid h d s =
    (audit now "pass" (dp_grant d) "service-manager" [pid]
       (on_grants (insert (dp_grant d) (push_projection (mkProjection pid h (dp_target d) (dp_access d)) g))
          (hm_replace_mount h (dp_target d) (file_tree (dp_export d)) (access_kernel (dp_access d)) s)), Ok tt).
Proof. intros Hg. unfold project_delegated. mrun. simpl. by rewrite Hg. Qed.

(** The projections of [pid] so far are those of the delegations done. *)
Definition only_delegated gs (pid : Z) (ids targets : list string) : Prop :=
  ∀ id g p, gs !! id = Some g → p ∈ g_projections g → pj_pid p = pid → id ∈ ids ∧ pj_path p ∈ targets.
(** The grants a delegation needs are there *)
Definition grantable gs (d : DelegatedProjection Export) : Prop :=
  ∃ g, gs !! dp_grant d = Some g ∧ covers_access (gr_access (g_public g)) (dp_access d) = true.

Lemma grantable_push gs k g q d :
  gs !! k = Some g → grantable gs d → grantable (<[k := push_projection q g]> gs) d.
Proof.
  intros Hk (g' & Hg & Hc). destruct (decide (k = dp_grant d)) as [->|Hne].
  - rewrite Hg in Hk. simplify_eq. exists (push_projection q g). by rewrite lookup_insert_eq.
  - exists g'. by rewrite lookup_insert_ne.
Qed.

Lemma project_all_keeps pid h ds ids targets s :
  GI s → is_Some (hm_processes s !! pid) → only_delegated (hm_grants s) pid ids targets →
  fresh_delegations ids targets ds → Forall (grantable (hm_grants s)) ds →
  GI (project_all file_tree now pid h ds s).1 ∧ (project_all file_tree now pid h ds s).2 = Ok tt.
Proof.
  revert ids targets s. induction ds as [|d ds IH]; intros ids targets s I Hp Ho Hf Hg; [done|].
  destruct Hf as (Hid & Htg & _ & Hf). inversion_clear Hg as [|?? Hd Hds]. destruct Hd as (g & Hg & Hc).
  cbn [project_all]. unfold mbind, m_bind. rewrite (project_delegated_effect _ _ _ _ _ Hg).
  eapply IH; [|done| |exact Hf|].
  - unfold GI. simpl. apply ginv_push; [done| |done]. constructor; simpl; [done| |done|].
    + intros (p & Hpp & Hin)%list_elem_of_fmap. by destruct (Ho _ _ _ Hg Hin (eq_sym Hpp)).
    + intros k g2 p Hk Hne _ P2 Hpp. destruct (Ho _ _ _ Hk P2 Hpp) as [_ Ht].
      destruct (namespace_paths_overlap _ _) eqn:E; [|done]. rewrite overlap_sym in E.
      enough (existsb (namespace_paths_overlap (dp_target d)) targets = true) by congruence.
      apply existsb_exists. exists (pj_path p). by rewrite <- list_elem_of_In.
  - simpl. intros k g' p Hk P2 Hpp. rewrite !elem_of_app, !list_elem_of_singleton.
    apply lookup_insert_Some in Hk as [[<- <-]|[_ Hk]].
    + apply push_elem in P2 as [P2| ->]; [|by simpl; auto]. destruct (Ho _ _ _ Hg P2 Hpp). auto.
    + destruct (Ho _ _ _ Hk P2 Hpp). auto.
  - simpl. eapply Forall_impl; [exact Hds|]. intros d' Hd'. by apply grantable_push.
Qed.

(** A check answers: it neither waits nor panics. *)
Definition answers {A} (r : result HmError A) : Prop := match r with Park | Panic => False | _ => True end.
Lemma answers_then {A} r (k : result HmError A) : answers r → answers k → answers (check_then r k).
Proof. by destruct r. Qed.
Lemma answers_ensure b e : answers (hm_ensure b e).
Proof. by destruct b. Qed.
Lemma answers_path p : answers (validate_mount_namespace_path p).
Proof. unfold validate_mount_namespace_path. by repeat case_match. Qed.
Lemma answers_child ids targets requested : answers (validate_child_go ids targets requested).
Proof.
  revert ids targets. induction requested as [|sel rest IH]; intros ids targets; [done|].
  cbn [validate_child_go]. repeat (apply answers_then; [apply answers_ensure|]).
  destruct (from_utf8 _); [|done]. apply answers_then; [apply answers_path|].
  by apply answers_then; [apply answers_ensure|].
Qed.
Lemma answers_collect {A B} (f : A → result HmError B) l :
  (∀ x, answers (f x)) → answers (collect_checks f l).
Proof.
  intros Hf. induction l as [|x l IH]; [done|]. simpl. specialize (Hf x).
  destruct (f x); try done. by destruct (collect_checks f l).
Qed.
Lemma answers_resolve s parent requested : answers (resolve_child_delegations s parent requested).
Proof.
  apply answers_then; [apply answers_child|]. apply answers_collect. intros sel.
  unfold resolve_selection. by repeat case_match.
Qed.

(** What [register_child_process] does when it goes through *)
Lemma register_child_effect parent pid h requested s s' r :
  register_child_process file_tree now parent pid h requested s = (s', r) →
  (s' = s ∧ ∃ e, r = Err e) ∨
  ∃ ds, hm_processes s !! pid = None ∧ ambient_projections s parent (hm_live h s).1 = [] ∧
    resolve_child_delegations s parent requested = Ok ds ∧
    project_all file_tree now pid h ds (on_processes (insert pid h) s) = (s', r).
Proof.
  unfold register_child_process, ensure_no_ambient_child_projections, hm_ensure. mrun.
  destruct (hm_processes s !! pid) eqn:Ep; simpl; [intros [= <- <-]; left; eauto|].
  case_bool_decide as Ea; [|intros [= <- <-]; left; eauto].
  pose proof (answers_resolve s parent requested) as Ha.
  destruct (resolve_child_delegations s parent requested) as [ds|e| |] eqn:Er; intros H; try done.
  - right. exists ds. done.
  - injection H as <- <-. left; eauto.
Qed.

Lemma held_grantable gs parent d : held_by gs parent d → grantable gs d.
Proof. intros (g & held & Hg & _ & _ & _ & _ & _ & Hc). by exists g. Qed.

Lemma register_child_keeps parent pid h requested s :
  GI s → GI (register_child_process file_tree now parent pid h requested s).1 ∧
         answers (register_child_process file_tree now parent pid h requested s).2.
Proof.
  intros I. destruct (register_child_process file_tree now parent pid h requested s) as [s' r] eqn:E.
  destruct (register_child_effect _ _ _ _ _ _ _ E) as [[-> [e ->]]|(ds & Hn & _ & Hr & Hp)]; [done|].
  destruct (resolve_child_ok _ _ _ _ Hr) as (Hf & _ & Hh).
  destruct (project_all_keeps pid h ds [] [] (on_processes (insert pid h) s)) as [I' Hok].
  - by apply ginv_register.
  - simpl. rewrite lookup_insert_eq. eauto.
  - intros id g p Hg Hin Hpid. destruct (gi_registered _ _ I _ _ _ Hg Hin) as [x Hx].
    rewrite Hpid, Hn in Hx. done.
  - done.
  - eapply Forall_impl; [exact Hh|]. intros d. apply held_grantable.
  - rewrite Hp in I', Hok. simpl in *. by subst r.
Qed.

Lemma unregister_keeps pid s : GI s → GI (unregister_process pid s).1.
Proof.
  intros I. unfold GI. simpl. eapply ginv_weaker; [apply weaker_fmap_retain| |exact I].
  intros id g' p Hg Hin [x Hx]. rewrite lookup_fmap in Hg. apply fmap_Some in Hg as (g & _ & ->).
  simpl in Hin. apply list_elem_of_filter in Hin as [Hk _]. bool_facts. rewrite lookup_delete_ne by congruence. eauto.
Qed.

Lemma unmount_all_core l s : gcore (unmount_all l s) = gcore s.
Proof.
  revert s. induction l as [|p l IH]; intros s; [done|].
  change (gcore (unmount_all l (hm_unmount (pj_namespace p) (pj_path p) s)) = gcore s). by rewrite IH.
Qed.

Lemma revoke_keeps grant_id actor s : GI s → GI (revoke_locked now grant_id actor s).1.
Proof.
  intros I. unfold revoke_locked. mrun. destruct (hm_grants s !! grant_id) as [g|] eqn:Eg; [|done].
  destruct (gr_active (g_public g)); [|done]. simpl.
  eapply (gi_core (on_grants (insert grant_id (deactivate g)) s)).
  - unfold gcore. simpl. by pose proof (unmount_all_core (g_projections g)
      (on_grants (insert grant_id (deactivate g)) (export_revoke (g_export g) s))) as [= -> ->].
  - unfold GI. simpl. eapply ginv_weaker; [by apply weaker_deactivate|by auto|done].
Qed.

Lemma insert_grant_keeps r record e s : GI s → GI (insert_grant r record e s).1.
Proof. intros I. unfold GI. simpl. by apply ginv_insert_new. Qed.
Lemma fail_approval_keeps id s : GI s → GI (fail_approval now id s).1.
Proof. intros I. unfold GI. simpl. eapply ginv_weaker; [apply weaker_delete|by auto|done]. Qed.

(** The sections that leave grants and processes alone *)
Lemma core_keeps {A} (m : M St HmError A) s : gcore (m s).1 = gcore s → GI s → GI (m s).1.
Proof. apply gi_core. Qed.

Lemma task_keeps_grants t s : GI s → GI (task_step file_tree now event_json t s).1.
Proof.
  intros I. destruct t; simpl.
  - by apply insert_grant_keeps.
  - pose proof (project_keeps (gr_id record) (hr_pid r) s I) as H. unfold mbind, m_bind, mtry.
    by destruct (project file_tree now (gr_id record) (hr_pid r) s) as [s' []].
  - by apply fail_approval_keeps.
  - apply (gi_core s); [|done]. unfold settle_approval. munfold. by destruct (hm_requests s !! id).
  - done.
  - destruct n; [|done]. apply (gi_core s); [|done]. unfold append_request_event. munfold. by destruct (hm_requests s !! id).
Qed.

Lemma call_keeps_grants c s : GI s → GI (call_step file_tree now c s).1.
Proof.
  intros I. destruct c; simpl.
  - by apply ginv_register.
  - destruct (register_child_keeps parent pid h requested s I) as [H _]. unfold mbind, m_bind.
    by destruct (register_child_process file_tree now parent pid h requested s) as [s' []].
  - by apply unregister_keeps.
  - apply (gi_core s); [|done]. unfold enqueue_locked. munfold.
    destruct (validate_request r); try done. by repeat (case_match; simplify_eq/=).
  - done.
  - apply (gi_core s); [|done]. unfold claim_pending_request, hm_ensure. munfold. by repeat (case_match; simplify_eq/=).
  - apply (gi_core s); [|done]. unfold settle_request, hm_ensure. munfold. by repeat (case_match; simplify_eq/=).
  - pose proof (project_keeps grant_id pid s I) as H. unfold mbind, m_bind.
    by destruct (project file_tree now grant_id pid s) as [s' []].
  - pose proof (revoke_keeps grant_id actor s I) as H. unfold mbind, m_bind.
    by destruct (revoke_locked now grant_id actor s) as [s' []].
  - done.
Qed.

Lemma reachable_grants ok lives x : hm_reachable file_tree now event_json ok lives x → GI x.1.
Proof.
  intros H. apply (rtc_ind_r (λ x, GI x.1)) with (host_mount_new lives, []) x in H; [done|apply ginv_empty|].
  intros y z _ Hs I. inversion Hs; subst; simpl in *; [by apply call_keeps_grants|by apply task_keeps_grants].
Qed.
End grants.
