(* ===== verification/HostMountRequests.v ===== *)
(** * The requests of the Host Mount service

    A request is decided once, whatever callers do at the same time; the grants are
    those of the approved requests; no section panics. *)
From S2P Require Import Prelude RustStd ApTypes Namespace RustText HostMounts HostMountSteps HostMountGrants.

Section requests.
Context {Tree Export : Type} (file_tree : Export → Tree).
Context (now : nat → Z) (event_json : HostMountEvent → bytes).
Abbreviation St := (HmState Tree Export).
Abbreviation Tk := (Task (Export := Export)).
Implicit Types (s : St) (t : Tk) (ts : list Tk) (R : gmap string RequestState).

(** What a grant was given for: its owner, id, path and access *)
Definition Deed : Type := Z * string * string * HostMountAccess.
Definition grant_deed (g : Grant Export) : Deed :=
  (g_owner g, gr_id (g_public g), gr_path (g_public g), gr_access (g_public g)).
Definition request_deed (r : HostMountRequest) : Deed := (hr_pid r, hr_id r, hr_path r, hr_access r).
Definition deeds s (id : string) : option Deed := grant_deed <$> hm_grants s !! id.

(** A request somebody is deciding *)
Definition claimed (r : RequestState) : Prop := rs_status r = HmPending ∧ rs_in_progress r = true.
Definition claim_of t : option string :=
  match t with
  | TInsert r _ _ _ | TProject r _ _ => Some (hr_id r)
  | TFail id | TSettle id _ => Some id
  | _ => None
  end.
Definition notice_ok R (n : Notice) : Prop :=
  match n with NEvent id _ _ _ => is_Some (R !! id) | NService _ _ => True end.
Definition task_ok R (G : string → option Deed) t : Prop :=
  match t with
  | TInsert r record _ _ => (∃ p, record = grant_record_of r p) ∧
      ∃ rs, R !! hr_id r = Some rs ∧ rs_request rs = r ∧ claimed rs
  | TProject r record _ => (∃ p, record = grant_record_of r p) ∧ G (hr_id r) = Some (request_deed r) ∧
      ∃ rs, R !! hr_id r = Some rs ∧ rs_request rs = r ∧ claimed rs
  | TFail id => ∃ rs, R !! id = Some rs ∧ claimed rs
  | TSettle id _ => ∃ rs, R !! id = Some rs ∧ claimed rs ∧ G id = Some (request_deed (rs_request rs))
  | TBump n | TNotify n => notice_ok R n
  end.

Record RInv R (G : string → option Deed) ts : Prop := mkRInv {
  ri_id id r : R !! id = Some r → hr_id (rs_request r) = id;
  ri_task t : t ∈ ts → task_ok R G t;
  ri_once : NoDup (omap claim_of ts);
  ri_claimed id r : R !! id = Some r → claimed r → id ∈ omap claim_of ts;
  ri_approved id r : R !! id = Some r → rs_status r = HmApproved →
    rs_grant r = Some id ∧ G id = Some (request_deed (rs_request r));
  ri_grant id d : G id = Some d →
    ∃ r, R !! id = Some r ∧ d = request_deed (rs_request r) ∧ (rs_status r = HmApproved ∨ claimed r);
}.
Definition RI s ts : Prop := RInv (hm_requests s) (deeds s) ts.

Lemma rinv_perm R G ts ts' : ts ≡ₚ ts' → RInv R G ts → RInv R G ts'.
Proof.
  intros Hp I. constructor; try apply I.
  - intros t Ht. apply (ri_task _ _ _ I). by rewrite Hp.
  - rewrite <- Hp. apply I.
  - intros id r Hr Hc. rewrite <- Hp. by eapply (ri_claimed _ _ _ I).
Qed.

(** A step that keeps the requests and the deeds, and ends or adds events *)
Lemma rinv_quiet R G G' ts new :
  (∀ id, G' id = G id) → Forall (task_ok R G) new → omap claim_of new = [] →
  RInv R G ts → RInv R G' (new ++ ts).
Proof.
  intros HG Hn Hc I.
  assert (∀ t, task_ok R G t → task_ok R G' t) as Ht by (intros []; simpl; rewrite ?HG; naive_solver (rewrite ?HG; auto)).
  constructor; try apply I.
  - intros t [Hin|Hin]%elem_of_app; apply Ht; [by eapply Forall_forall in Hn|by apply (ri_task _ _ _ I)].
  - rewrite omap_app, Hc. apply I.
  - intros id r Hr Hcl. rewrite omap_app, Hc. by eapply (ri_claimed _ _ _ I).
  - intros id r Hr Ha. rewrite HG. by apply (ri_approved _ _ _ I).
  - intros id d. rewrite HG. apply I.
Qed.

Lemma rinv_drop R G t ts : claim_of t = None → RInv R G (t :: ts) → RInv R G ts.
Proof.
  intros Hc I. constructor; try apply I.
  - intros t' Ht. apply (ri_task _ _ _ I). by right.
  - pose proof (ri_once _ _ _ I) as H. simpl in H. by rewrite Hc in H.
  - intros id r Hr Hcl. pose proof (ri_claimed _ _ _ I id r Hr Hcl) as H. simpl in H. by rewrite Hc in H.
Qed.

(** ** One request changes *)

Lemma task_ok_other R R' G G' id t :
  (∀ k, k ≠ id → R' !! k = R !! k ∧ G' k = G k) → (is_Some (R !! id) → is_Some (R' !! id)) →
  claim_of t ≠ Some id → task_ok R G t → task_ok R' G' t.
Proof.
  intros Hk Hid Hc.
  assert (∀ x, notice_ok R x → notice_ok R' x) as He.
  { intros []; simpl; auto. intros H. destruct (decide (id0 = id)) as [->|Hne]; [auto|].
    by destruct (Hk _ Hne) as [-> _]. }
  destruct t; simpl in *; auto.
  - destruct (Hk (hr_id r)) as [-> _]; naive_solver.
  - destruct (Hk (hr_id r)) as [-> ->]; naive_solver.
  - destruct (Hk id0) as [-> _]; naive_solver.
  - destruct (Hk id0) as [-> ->]; naive_solver.
Qed.

Lemma rinv_update R R' G G' id r' old new ts :
  RInv R G (old ++ ts) →
  (∀ k, k ≠ id → R' !! k = R !! k ∧ G' k = G k) → R' !! id = Some r' → hr_id (rs_request r') = id →
  id ∉ omap claim_of ts → (∀ k, k ∈ omap claim_of old → k = id) →
  Forall (task_ok R' G') new →
  (omap claim_of new = [] ∧ ¬ claimed r' ∨ omap claim_of new = [id]) →
  (rs_status r' = HmApproved → rs_grant r' = Some id ∧ G' id = Some (request_deed (rs_request r'))) →
  (∀ d, G' id = Some d → d = request_deed (rs_request r') ∧ (rs_status r' = HmApproved ∨ claimed r')) →
  RInv R' G' (new ++ ts).
Proof.
  intros I Hk Hr' Hid Hts Hold Hnew Hcl Hap Hg.
  assert (NoDup (omap claim_of ts)) as Hnd.
  { pose proof (ri_once _ _ _ I) as H. rewrite omap_app in H. by apply NoDup_app in H as (_ & _ & H). }
  constructor.
  - intros k r Hr. destruct (decide (k = id)) as [->|Hne]; [by simplify_eq|].
    destruct (Hk _ Hne) as [Hk' _]. rewrite Hk' in Hr. by apply (ri_id _ _ _ I).
  - intros t [Ht|Ht]%elem_of_app; [by eapply Forall_forall in Hnew|].
    eapply task_ok_other; [exact Hk|by rewrite Hr'; eauto| |].
    + intros Hc. apply Hts. apply list_elem_of_omap. eauto.
    + apply (ri_task _ _ _ I). apply elem_of_app. by right.
  - rewrite omap_app. destruct Hcl as [[-> _]| ->]; [done|]. by apply NoDup_cons.
  - intros k r Hr Hc. rewrite omap_app, elem_of_app. destruct (decide (k = id)) as [->|Hne].
    + simplify_eq. left. destruct Hcl as [[_ H]| ->]; [done|by apply list_elem_of_singleton].
    + right. destruct (Hk _ Hne) as [Hk' _]. rewrite Hk' in Hr.
      pose proof (ri_claimed _ _ _ I k r Hr Hc) as H. rewrite omap_app, elem_of_app in H.
      destruct H as [H|H]; [by apply Hold in H|done].
  - intros k r Hr Ha. destruct (decide (k = id)) as [->|Hne]; [simplify_eq; by apply Hap|].
    destruct (Hk _ Hne) as [Hk' Hg']. rewrite Hk' in Hr. rewrite Hg'. by apply (ri_approved _ _ _ I).
  - intros k d Hd. destruct (decide (k = id)) as [->|Hne]; [exists r'; split; [done|by apply Hg]|].
    destruct (Hk _ Hne) as [Hk' Hg']. rewrite Hg' in Hd. rewrite Hk'. by apply (ri_grant _ _ _ I).
Qed.

(** A request nobody has claimed has no task. *)
Lemma unclaimed_no_task R G ts id :
  RInv R G ts → (∀ r, R !! id = Some r → ¬ claimed r) → id ∉ omap claim_of ts.
Proof.
  intros I Hu (t & Ht & Hc)%list_elem_of_omap. pose proof (ri_task _ _ _ I t Ht) as Hok.
  destruct t; simpl in *; simplify_eq; naive_solver.
Qed.
Lemma claim_head R G t id ts : RInv R G (t :: ts) → claim_of t = Some id → id ∉ omap claim_of ts.
Proof.
  intros I Hc. pose proof (ri_once _ _ _ I) as H. simpl in H. rewrite Hc in H. by inversion_clear H.
Qed.
Lemma undecided_pending r : undecided r = true → rs_status r = HmPending ∧ rs_in_progress r = false.
Proof. unfold undecided. intros H. by bool_facts. Qed.

(** ** The calls *)

(** What a step leaves alone *)
Definition same_deeds s s' : Prop := hm_requests s' = hm_requests s ∧ ∀ id, deeds s' id = deeds s id.
Lemma same_deeds_refl s : same_deeds s s.
Proof. done. Qed.
Lemma ri_quiet s s' ts new :
  same_deeds s s' → Forall (task_ok (hm_requests s) (deeds s)) new → omap claim_of new = [] →
  RI s ts → RI s' (new ++ ts).
Proof. intros [Hr Hd] Hn Hc I. unfold RI. rewrite Hr. by eapply rinv_quiet. Qed.
Lemma ri_same s s' ts : same_deeds s s' → RI s ts → RI s' ts.
Proof. intros H. by apply (ri_quiet s s' ts []). Qed.

Lemma deed_insert (gs : gmap string (Grant Export)) k g g' id :
  gs !! k = Some g → grant_deed g' = grant_deed g →
  grant_deed <$> <[k := g']> gs !! id = grant_deed <$> gs !! id.
Proof.
  intros Hg Hd. destruct (decide (k = id)) as [->|Hne]; [|by rewrite lookup_insert_ne].
  rewrite lookup_insert_eq, Hg. simpl. by rewrite Hd.
Qed.
Lemma deed_drop grant_id pid path (gs : gmap string (Grant Export)) id :
  grant_deed <$> drop_replaced grant_id pid path gs !! id = grant_deed <$> gs !! id.
Proof. rewrite drop_replaced_lookup. destruct (gs !! id); [|done]. simpl. by case_bool_decide. Qed.

Lemma project_same grant_id pid s : same_deeds s (project file_tree now grant_id pid s).1.
Proof.
  destruct (project file_tree now grant_id pid s) as [s' r] eqn:E. simpl.
  destruct (project_effect _ _ _ _ _ _ _ E) as [[-> _]|(h & g & _ & Hg & _ & _ & _ & _ & Hs)]; [done|].
  cbv zeta in Hs. destruct (existsb _ _); subst s'; (split; [done|]); intros k; unfold deeds; simpl; [apply deed_drop|].
  erewrite deed_insert; [apply deed_drop| |]; [rewrite drop_replaced_lookup, Hg; simpl; by rewrite bool_decide_true|done].
Qed.

Lemma project_all_same pid h ds s : same_deeds s (project_all file_tree now pid h ds s).1.
Proof.
  revert s. induction ds as [|d ds IH]; intros s; [done|]. cbn [project_all]. unfold mbind, m_bind.
  destruct (hm_grants s !! dp_grant d) as [g|] eqn:Eg.
  - rewrite (project_delegated_effect _ _ _ _ _ _ _ Eg). destruct (IH (audit now "pass" (dp_grant d) "service-manager" [pid]
      (on_grants (insert (dp_grant d) (push_projection (mkProjection pid h (dp_target d) (dp_access d)) g))
        (hm_replace_mount h (dp_target d) (file_tree (dp_export d)) (access_kernel (dp_access d)) s)))) as [Hr Hd].
    split; [by rewrite Hr|]. intros k. rewrite Hd. unfold deeds. simpl. by eapply deed_insert.
  - unfold project_delegated. mrun. simpl. by rewrite Eg.
Qed.

Lemma unmount_all_same l s : same_deeds s (unmount_all l s).
Proof.
  revert s. induction l as [|p l IH]; intros s; [done|].
  destruct (IH (hm_unmount (pj_namespace p) (pj_path p) s)) as [Hr Hd]. split; [done|]. intros id. by rewrite Hd.
Qed.

(** Calls that decide nothing *)
Definition decides (c : HmCall (Tree := Tree) (Export := Export)) : bool :=
  match c with Enqueue _ | Approve _ _ _ _ | Refuse _ _ _ _ => true | _ => false end.
Lemma quiet_call c s : decides c = false → same_deeds s (call_step file_tree now c s).1.
Proof.
  intros Hc. destruct c; try done; simpl; unfold mbind, m_bind.
  - destruct (register_child_process file_tree now parent pid h requested s) as [s' r] eqn:E.
    destruct (register_child_effect _ _ _ _ _ _ _ _ _ E) as [[-> [e ->]]|(ds & _ & _ & _ & Hp)]; [done|].
    pose proof (project_all_same pid h ds (on_processes (insert pid h) s)) as H. rewrite Hp in H. by destruct r.
  - split; [done|]. intros id. unfold deeds. simpl. rewrite lookup_fmap. by destruct (hm_grants s !! id).
  - pose proof (project_same grant_id pid s) as H. by destruct (project file_tree now grant_id pid s) as [s' []].
  - unfold revoke_locked. mrun. destruct (hm_grants s !! grant_id) as [g|] eqn:Eg; [|done].
    destruct (gr_active (g_public g)); [|done]. simpl.
    destruct (unmount_all_same (g_projections g)
      (on_grants (insert grant_id (deactivate g)) (export_revoke (g_export g) s))) as [Hr Hd].
    split; [done|]. intros id. trans (deeds (on_grants (insert grant_id (deactivate g)) (export_revoke (g_export g) s)) id);
      [apply Hd|]. unfold deeds. simpl. by eapply deed_insert.
Qed.
Lemma quiet_call_tasks c s : decides c = false →
  Forall (task_ok (hm_requests s) (deeds s)) (left_over (call_step file_tree now c s).2) ∧
  omap claim_of (left_over (call_step file_tree now c s).2) = [].
Proof.
  intros Hc. destruct c; try done; simpl; unfold mbind, m_bind.
  - by destruct (register_child_process file_tree now parent pid h requested s) as [s' []].
  - by destruct (project file_tree now grant_id pid s) as [s' []].
  - destruct (revoke_locked now grant_id actor s) as [s' [[aff|]| | |]]; try done. simpl. split; [|done].
    by repeat constructor.
Qed.

Lemma enqueue_keeps r s ts : RI s ts →
  RI (call_step file_tree now (Enqueue r) s).1 (left_over (call_step file_tree now (Enqueue r) s).2 ++ ts).
Proof.
  intros I. simpl. unfold enqueue_locked. mrun.
  destruct (validate_request r); [|by simpl..].
  set (s1 := if bool_decide (hr_id r = "") then on_next_id (λ n, n + 1) s else s).
  replace ((if bool_decide (hr_id r = "") then λ s0 : St, (on_next_id (λ n, n + 1) s0, Ok tt)
            else λ s0 : St, (s0, Ok tt)) s) with (s1, Ok (E := HmError) tt) by (unfold s1; by case_bool_decide).
  simpl. set (id := if bool_decide (hr_id r = "") then _ else _).
  assert (hm_requests s1 = hm_requests s ∧ hm_grants s1 = hm_grants s) as [Hr Hg]
    by (unfold s1; by case_bool_decide).
  assert (RI s1 ts) as I1 by (unfold RI, deeds; by rewrite Hr, Hg).
  destruct (hm_requests s1 !! id) eqn:Er; [done|]. destruct (hm_grants s1 !! id) eqn:Eg; [done|]. simpl.
  unfold RI. simpl. eapply (rinv_update _ _ _ _ id _ [] [_] ts); [exact I1| |by apply lookup_insert_eq|done|..].
  - intros k Hne. by rewrite lookup_insert_ne.
  - eapply unclaimed_no_task; [exact I1|]. intros x. by rewrite Er.
  - intros k Hk. by apply elem_of_nil in Hk.
  - constructor; [|constructor]. simpl. rewrite lookup_insert_eq. eauto.
  - left. split; [done|]. by intros [_ ?].
  - done.
  - intros d. unfold deeds. simpl. by rewrite Eg.
Qed.

Lemma claim_keeps id e provenance actor s ts : RI s ts →
  RI (call_step file_tree now (Approve id e provenance actor) s).1
     (left_over (call_step file_tree now (Approve id e provenance actor) s).2 ++ ts).
Proof.
  intros I. simpl. unfold claim_pending_request. mrun.
  destruct (hm_requests s !! id) as [r|] eqn:Er; [|done]. unfold hm_ensure.
  destruct (undecided r) eqn:Eu; [|done]. simpl. apply undecided_pending in Eu as [Hp Hn].
  pose proof (ri_id _ _ _ I id r Er) as Hid. unfold RI. simpl.
  eapply (rinv_update _ _ _ _ id _ [] [_] ts); [exact I| |by apply lookup_insert_eq|done|..].
  - intros k Hne. by rewrite lookup_insert_ne.
  - eapply unclaimed_no_task; [exact I|]. intros x Hx. simplify_eq. intros [_ ?]. congruence.
  - intros k Hk. by apply elem_of_nil in Hk.
  - constructor; [|constructor]. simpl. split; [by exists provenance|]. rewrite Hid, lookup_insert_eq.
    eexists; split; [done|]. by repeat split.
  - right. simpl. by rewrite Hid.
  - simpl. congruence.
  - intros d Hd. destruct (ri_grant _ _ _ I id d Hd) as (x & Hx & -> & _). simplify_eq. simpl.
    split; [done|]. by right.
Qed.

Lemma refuse_keeps k id reason actor s ts : RI s ts →
  RI (call_step file_tree now (Refuse k id reason actor) s).1
     (left_over (call_step file_tree now (Refuse k id reason actor) s).2 ++ ts).
Proof.
  intros I. simpl. unfold settle_request. mrun. unfold hm_ensure.
  replace (mount_is_terminal (refusal_status k)) with true by (by destruct k). simpl.
  destruct (hm_requests s !! id) as [r|] eqn:Er; [|done].
  destruct (undecided r) eqn:Eu; [|done]. simpl. apply undecided_pending in Eu as [Hp Hn].
  pose proof (ri_id _ _ _ I id r Er) as Hid. unfold RI. simpl.
  eapply (rinv_update _ _ _ _ id _ [] [_] ts); [exact I| |by apply lookup_insert_eq|done|..].
  - intros x Hne. by rewrite lookup_insert_ne.
  - eapply unclaimed_no_task; [exact I|]. intros x Hx. simplify_eq. intros [_ ?]. congruence.
  - intros x Hk. by apply elem_of_nil in Hk.
  - constructor; [|constructor]. simpl. rewrite lookup_insert_eq. eauto.
  - left. split; [done|]. intros [? _]. by destruct k.
  - simpl. by destruct k.
  - intros d Hd. change (deeds s id = Some d) in Hd. destruct (ri_grant _ _ _ I id d Hd) as (x & Hx & _ & H).
    simplify_eq. destruct H as [?|[_ ?]]; congruence.
Qed.

Lemma call_keeps c s ts : RI s ts →
  RI (call_step file_tree now c s).1 (ts ++ left_over (call_step file_tree now c s).2).
Proof.
  intros I. eapply rinv_perm; [apply Permutation_app_comm|]. destruct (decides c) eqn:Ed.
  - destruct c; try done; [by apply enqueue_keeps|by apply claim_keeps|by apply refuse_keeps].
  - destruct (quiet_call_tasks c s Ed) as [Ht Hc]. eapply ri_quiet; eauto using quiet_call.
Qed.

(** ** The tasks *)

(** A task that settles the request it had claimed *)
Lemma settle_task t s s' id r r' ts n :
  RI s (t :: ts) → claim_of t = Some id → hm_requests s !! id = Some r → rs_request r' = rs_request r →
  hm_requests s' = <[id := r']> (hm_requests s) → (∀ k, k ≠ id → deeds s' k = deeds s k) →
  (rs_status r' = HmApproved ∧ rs_grant r' = Some id ∧ deeds s' id = Some (request_deed (rs_request r)) ∨
   rs_status r' = HmFailed ∧ deeds s' id = None) →
  notice_ok (hm_requests s') n → RI s' ([TBump n] ++ ts).
Proof.
  intros I Hc Hr Hq HR HG Hst He. unfold RI. rewrite HR in *.
  pose proof (ri_id _ _ _ I id r Hr) as Hid. rewrite <- Hq in Hid.
  eapply (rinv_update _ _ _ _ id r' [t] [_] ts); [exact I| |by apply lookup_insert_eq|done|..].
  - intros k Hne. by rewrite lookup_insert_ne, HG.
  - by eapply claim_head.
  - intros k. simpl. rewrite Hc. by intros ?%list_elem_of_singleton.
  - by constructor.
  - left. split; [done|]. intros [? _]. destruct Hst as [[? _]|[? _]]; congruence.
  - rewrite Hq. intros ?. destruct Hst as [(_ & ? & ?)|[? _]]; [done|congruence].
  - rewrite Hq. intros d Hd. destruct Hst as [(? & _ & H)|[_ H]]; [|congruence]. split; [congruence|by left].
Qed.

(** A task that goes on with its claim *)
Lemma advance_task t t' s s' id r ts :
  RI s (t :: ts) → claim_of t = Some id → claim_of t' = Some id → hm_requests s !! id = Some r → claimed r →
  hm_requests s' = hm_requests s → (∀ k, k ≠ id → deeds s' k = deeds s k) →
  (∀ d, deeds s' id = Some d → d = request_deed (rs_request r)) →
  task_ok (hm_requests s') (deeds s') t' → RI s' ([t'] ++ ts).
Proof.
  intros I Hc Hc' Hr Hcl HR HG Hd Hok. unfold RI. rewrite HR in *.
  pose proof (ri_id _ _ _ I id r Hr) as Hid. destruct Hcl as [Hp Hi].
  eapply (rinv_update _ _ _ _ id r [t] [_] ts); [exact I| |done|done|..].
  - intros k Hne. by rewrite HG.
  - by eapply claim_head.
  - intros k. simpl. rewrite Hc. by intros ?%list_elem_of_singleton.
  - by constructor.
  - right. simpl. by rewrite Hc'.
  - congruence.
  - intros d Hds. split; [by apply Hd|by right].
Qed.

Lemma task_keeps t s ts : RI s (t :: ts) →
  RI (task_step file_tree now event_json t s).1 (left_over (task_step file_tree now event_json t s).2 ++ ts) ∧
  ∃ new, (task_step file_tree now event_json t s).2 = Ok new.
Proof.
  intros I. pose proof (ri_task _ _ _ I t ltac:(by left)) as Hok.
  assert (claim_of t = None → RI s ts) as Hdrop by (intros Hc; by eapply rinv_drop).
  destruct t as [r record e actor|r record actor|id|id actor|n|n]; simpl in Hok.
  - destruct Hok as ([p ->] & rs & Hr & Hq & Hcl). split; [|simpl; eauto]. simpl.
    eapply (advance_task _ _ s); [exact I|done|done|exact Hr|done|done|..].
    + intros k Hne. unfold deeds. simpl. by rewrite lookup_insert_ne.
    + unfold deeds. simpl. rewrite lookup_insert_eq, Hq. simpl. by intros d [= <-].
    + simpl. split; [eauto|]. split; [|eauto]. unfold deeds. simpl. by rewrite lookup_insert_eq.
  - destruct Hok as ([p ->] & Hg & rs & Hr & Hq & Hcl). simpl. unfold mbind, m_bind, mtry.
    pose proof (project_same (hr_id r) (hr_pid r) s) as Hsame.
    destruct (project file_tree now (hr_id r) (hr_pid r) s) as [s' res] eqn:E. destruct Hsame as [HR HD].
    simpl in HR, HD. assert (res = Ok tt ∨ ∃ e, res = Err e) as Hres.
    { destruct (project_effect _ _ _ _ _ _ _ E) as [[_ [e ->]]|(?&?&?&?&?&?& -> &_)]; eauto. }
    destruct Hres as [->|[e ->]]; (split; [|simpl; eauto]);
      (eapply (advance_task _ _ s); [exact I|done|done|exact Hr|done|done|by intros; apply HD|..]).
    + intros d. rewrite HD, Hg, Hq. by intros [= <-].
    + simpl. rewrite HR, HD. exists rs. by rewrite Hg, Hq.
    + intros d. rewrite HD, Hg, Hq. by intros [= <-].
    + simpl. rewrite HR. eauto.
  - destruct Hok as (rs & Hr & Hcl). split; [|simpl; eauto].
    eapply (settle_task _ s _ id rs (mkRequestState (rs_request rs) HmFailed (rs_in_progress rs) (rs_grant rs)
      (Some projection_failed))); [exact I|done|exact Hr|done|..].
    + apply map_eq. intros k. simpl. destruct (decide (id = k)) as [<-|Hne];
        [by rewrite lookup_alter_eq, lookup_insert_eq, Hr|by rewrite lookup_alter_ne, lookup_insert_ne].
    + intros k Hne. unfold deeds. simpl. by rewrite lookup_delete_ne.
    + right. split; [done|]. unfold deeds. simpl. by rewrite lookup_delete_eq.
    + simpl. rewrite lookup_alter_eq, Hr. simpl. eauto.
  - destruct Hok as (rs & Hr & Hcl & Hg). simpl. unfold settle_approval. mrun. rewrite Hr. simpl. split; [|eauto].
    eapply (settle_task _ s); [exact I|done|exact Hr| |done|done| |]; [done|by left|].
    simpl. rewrite lookup_insert_eq. eauto.
  - split; [|simpl; eauto]. simpl. eapply (ri_quiet s _ ts [TNotify n]); [done| |done|by apply Hdrop].
    by constructor.
  - destruct n as [id st grant error|ev affected].
    + simpl. unfold append_request_event. mrun. destruct Hok as [rs Hr]. rewrite Hr. simpl. split; [|eauto].
      eapply (ri_same s); [done|by apply Hdrop].
    + split; [|simpl; eauto]. simpl. eapply (ri_same s); [done|by apply Hdrop].
Qed.

(** ** Runs *)

Lemma step_keeps_requests ok x y :
  hm_step file_tree now event_json ok x y → RI x.1 x.2 → RI y.1 y.2.
Proof.
  intros Hs I. inversion Hs; subst; simpl in *; [by apply call_keeps|].
  eapply rinv_perm; [|eapply (task_keeps t s (ts1 ++ ts2)); eapply rinv_perm; [|exact I]].
  - rewrite (app_assoc ts1). apply Permutation_app_comm.
  - by rewrite Permutation_middle.
Qed.
Lemma ri_new lives : RI (host_mount_new lives) [].
Proof. constructor; simpl; try (intros *; by rewrite lookup_empty); [by intros ? ?%elem_of_nil|constructor]. Qed.
Lemma reachable_requests ok lives x : hm_reachable file_tree now event_json ok lives x → RI x.1 x.2.
Proof.
  intros H. apply (rtc_ind_r (λ x, RI x.1 x.2)) with (host_mount_new lives, []) x in H; [done|apply ri_new|].
  intros y z _ Hs I. by eapply step_keeps_requests.
Qed.

(** Requests stay, with what was asked; a decided one does not change. *)
Definition mount_requests_kept R R' : Prop :=
  ∀ id r, R !! id = Some r →
    ∃ r', R' !! id = Some r' ∧ rs_request r' = rs_request r ∧ (rs_status r ≠ HmPending → r' = r).
Global Instance mount_requests_kept_preorder : PreOrder mount_requests_kept.
Proof.
  split; [intros R id r Hr; eauto|]. intros R1 R2 R3 H12 H23 id r Hr.
  destruct (H12 id r Hr) as (r2 & Hr2 & Hq2 & Hs2), (H23 id r2 Hr2) as (r3 & Hr3 & Hq3 & Hs3).
  exists r3. split_and!; [done|congruence|]. intros Hd. pose proof (Hs2 Hd). subst r2. auto.
Qed.
Lemma kept_update R id r r' :
  R !! id = Some r → rs_status r = HmPending → rs_request r' = rs_request r → mount_requests_kept R (<[id := r']> R).
Proof.
  intros Hr Hp Hq k x Hk. destruct (decide (id = k)) as [<-|Hne]; [|rewrite lookup_insert_ne by done; eauto].
  rewrite lookup_insert_eq. simplify_eq. exists r'. split_and!; [done..|]. congruence.
Qed.
Lemma kept_new R id r' : R !! id = None → mount_requests_kept R (<[id := r']> R).
Proof.
  intros Hr k x Hk. destruct (decide (id = k)) as [<-|Hne]; [congruence|]. rewrite lookup_insert_ne by done. eauto.
Qed.

Lemma call_kept c s : mount_requests_kept (hm_requests s) (hm_requests (call_step file_tree now c s).1).
Proof.
  destruct (decides c) eqn:Ed; [|destruct (quiet_call c s Ed) as [-> _]; reflexivity].
  destruct c; try done; simpl.
  - unfold enqueue_locked. mrun. destruct (validate_request r); [|by simpl..].
    destruct (bool_decide (hr_id r = "")); simpl;
      (destruct (isSome (hm_requests s !! _)) eqn:E; [done|]); simpl;
      (destruct (isSome (hm_grants s !! _)); [done|]); simpl; bool_facts; by apply kept_new.
  - unfold claim_pending_request. mrun. destruct (hm_requests s !! id) as [r|] eqn:Er; [|done]. unfold hm_ensure.
    destruct (undecided r) eqn:Eu; [|done]. simpl. apply undecided_pending in Eu as [Hp Hn].
    by eapply kept_update.
  - unfold settle_request, hm_ensure. mrun. destruct (mount_is_terminal (refusal_status k)); [|done].
    destruct (hm_requests s !! id) as [r|] eqn:Er; [|done].
    destruct (undecided r) eqn:Eu; [|done]. simpl. apply undecided_pending in Eu as [Hp Hn].
    by eapply kept_update.
Qed.

Lemma task_kept t s ts : RI s ts → t ∈ ts →
  mount_requests_kept (hm_requests s) (hm_requests (task_step file_tree now event_json t s).1).
Proof.
  intros I Ht. pose proof (ri_task _ _ _ I t Ht) as Hok.
  destruct t as [r record e actor|r record actor|id|id actor|n|n]; simpl in *.
  - done.
  - unfold mbind, m_bind, mtry. destruct (project_same (gr_id record) (hr_pid r) s) as [H _].
    destruct (project file_tree now (gr_id record) (hr_pid r) s) as [s' []]; simpl in *; by rewrite H.
  - destruct Hok as (rs & Hr & [Hp _]). intros k x Hk. destruct (decide (id = k)) as [<-|Hne].
    + rewrite lookup_alter_eq, Hr. simplify_eq. eexists; split_and!; [done..|]. congruence.
    + rewrite lookup_alter_ne by done. eauto.
  - destruct Hok as (rs & Hr & [Hp _] & _). unfold settle_approval. mrun. rewrite Hr. simpl. by eapply kept_update.
  - done.
  - destruct n; [|done]. unfold append_request_event. mrun. by destruct (hm_requests s !! id).
Qed.

Lemma run_kept ok x y :
  rtc (hm_step file_tree now event_json ok) x y → RI x.1 x.2 → mount_requests_kept (hm_requests x.1) (hm_requests y.1).
Proof.
  induction 1 as [x|x y z Hs Hr IH]; intros I; [done|]. trans (hm_requests y.1).
  - inversion Hs; subst; simpl in *; [apply call_kept|]. eapply task_kept; [exact I|].
    apply elem_of_app. right. by left.
  - apply IH. by eapply step_keeps_requests.
Qed.
End requests.
