(* ===== verification/HostMountReach.v ===== *)
(** * What a process reaches through its Host Mounts

    Every mount of a grant's tree in the namespace of a registered process is one the
    service recorded for that process, at the recorded path and access, and belongs to
    an active grant. [callers_ok] is what the rest of the system does: a pid and a
    namespace are registered once, an export is granted once, a namespace prepared for
    a process may copy the mounts of any other, and other code mounts no exports in
    the namespace of a registered process. A child may be registered when its parent
    is gone already, with mounts it copied before: such processes, and those that copy
    from them, are [late], and the invariant says nothing of them. *)
From S2P Require Import Prelude RustStd ApTypes Namespace RustText HostMounts HostMountSteps HostMountGrants.

Section reach.
Context {Tree Export : Type} (file_tree : Export → Tree).
Context (now : nat → Z) (event_json : HostMountEvent → bytes).
Context (late : Z → Prop).
Abbreviation St := (HmState Tree Export).
Abbreviation Gr := (Grant Export).
Abbreviation Tk := (Task (Export := Export)).
Abbreviation Mt := (Mount Tree).
Implicit Types (s : St) (ts : list Tk) (gs : gmap string Gr) (ps : gmap Z Z) (L : Z → list Mt) (g : Gr).

Definition live_mounts s (h : Z) : list Mt := mounts (hm_live h s).1.
Definition grant_tree g : Tree := file_tree (g_export g).
Definition foreign (m : Mt) : Prop := ∀ e, m_tree m ≠ file_tree e.
Definition valid_path (p : string) : Prop := validate_mount_namespace_path p = Ok tt.

(** ** What callers do *)

Definition insert_tree (t : Tk) : option Tree :=
  match t with TInsert _ _ e _ => Some (file_tree e) | _ => None end.
(** A mount the parent has, or had at a path where it holds a projection *)
Definition inherited s (parent : Z) (m : Mt) : Prop :=
  (¬ late parent ∧ ∃ hp m', hm_processes s !! parent = Some hp ∧ m' ∈ live_mounts s hp ∧
     m_prefix m' = m_prefix m ∧ m_tree m' = m_tree m) ∨
  ∃ id g p, hm_grants s !! id = Some g ∧ p ∈ g_projections g ∧ pj_pid p = parent ∧
     split_path (pj_path p) = m_prefix m.
Definition callers_ok (c : HmCall (Tree := Tree) (Export := Export)) s ts : Prop :=
  match c with
  | Register pid h =>
      hm_processes s !! pid = None ∧ (∀ q, hm_processes s !! q ≠ Some h) ∧ Forall foreign (live_mounts s h)
  | RegisterChild parent pid h _ =>
      (∀ q, hm_processes s !! q ≠ Some h) ∧ (∀ id g, hm_grants s !! id = Some g → g_owner g ≠ pid) ∧
      (late pid ∨ ∀ m, m ∈ live_mounts s h → foreign m ∨ inherited s parent m)
  | Approve _ e _ _ =>
      (∀ h m, m ∈ live_mounts s h → m_tree m ≠ file_tree e) ∧
      (∀ id g, hm_grants s !! id = Some g → grant_tree g ≠ file_tree e) ∧
      file_tree e ∉ omap insert_tree ts
  | Environment h n => ∀ m, m ∈ mounts n → m ∈ live_mounts s h ∨ foreign m ∨
      (∀ q, hm_processes s !! q ≠ Some h) ∧ ∃ k, m ∈ live_mounts s k
  | _ => True
  end.

(** ** The invariant *)

Record XInv gs ps L : Prop := mkXInv {
  xi_covered id g pid h m :
    ¬ late pid → gs !! id = Some g → ps !! pid = Some h → m ∈ L h → m_tree m = grant_tree g →
    gr_active (g_public g) = true ∧ ∃ p, p ∈ g_projections g ∧ pj_pid p = pid ∧
      split_path (pj_path p) = m_prefix m ∧ m_access m = access_kernel (pj_access p);
  xi_trees id1 g1 id2 g2 :
    gs !! id1 = Some g1 → gs !! id2 = Some g2 → grant_tree g1 = grant_tree g2 → id1 = id2;
  xi_handles pid1 pid2 h : ps !! pid1 = Some h → ps !! pid2 = Some h → pid1 = pid2;
  xi_namespace id g p : gs !! id = Some g → p ∈ g_projections g → ps !! pj_pid p = Some (pj_namespace p);
  xi_owner id g p : gs !! id = Some g → p ∈ g_projections g → pj_pid p = g_owner g →
    pj_path p = gr_path (g_public g) ∧ pj_access p = gr_access (g_public g);
  xi_valid id g : gs !! id = Some g → valid_path (gr_path (g_public g)) ∧
    Forall (λ p, valid_path (pj_path p)) (g_projections g);
}.
(** Exports that wait for their grant are not used yet. *)
Record FInv gs L ts : Prop := mkFInv {
  fi_unused r record e actor : TInsert r record e actor ∈ ts →
    (∀ h m, m ∈ L h → m_tree m ≠ file_tree e) ∧ (∀ id g, gs !! id = Some g → grant_tree g ≠ file_tree e) ∧
    valid_path (gr_path record);
  fi_once : NoDup (omap insert_tree ts);
}.
Definition requests_valid s : Prop :=
  ∀ id r, hm_requests s !! id = Some r → valid_path (hr_path (rs_request r)).

(** Grants of a later state that came from an earlier one *)
Definition from_grant (g' g : Gr) : Prop :=
  g_export g' = g_export g ∧ g_owner g' = g_owner g ∧ gr_path (g_public g') = gr_path (g_public g) ∧
  gr_access (g_public g') = gr_access (g_public g) ∧ g_projections g' ⊆ g_projections g.

Lemma xinv_weaken gs gs' ps ps' L L' :
  XInv gs ps L →
  (∀ id g', gs' !! id = Some g' → ∃ g, gs !! id = Some g ∧ from_grant g' g) →
  ps' ⊆ ps →
  (∀ id g' p, gs' !! id = Some g' → p ∈ g_projections g' → is_Some (ps' !! pj_pid p)) →
  (∀ q h m, ps' !! q = Some h → m ∈ L' h → m ∈ L h ∨ foreign m) →
  (∀ id g g' pid h m p, gs !! id = Some g → gs' !! id = Some g' → ps' !! pid = Some h → m ∈ L' h →
     m_tree m = grant_tree g → p ∈ g_projections g → pj_pid p = pid → split_path (pj_path p) = m_prefix m →
     p ∈ g_projections g' ∧ (gr_active (g_public g) = true → gr_active (g_public g') = true)) →
  XInv gs' ps' L'.
Proof.
  intros I Hg Hps Hreg HL Hc.
  assert (∀ q h, ps' !! q = Some h → ps !! q = Some h) as Hps'
    by (intros q h H; by eapply lookup_weaken).
  constructor.
  - intros id g' pid h m Hlate Hg' Hp Hm Ht. destruct (Hg _ _ Hg') as (g & Hgg & Hf).
    assert (m_tree m = grant_tree g) as Ht' by (unfold grant_tree in *; by rewrite Ht, (proj1 Hf)).
    destruct (HL pid h m Hp Hm) as [Hm'|Hm']; [|by destruct (Hm' (g_export g))].
    destruct (xi_covered _ _ _ I id g pid h m Hlate Hgg (Hps' _ _ Hp) Hm' Ht') as (Ha & p & Hin & Hpid & Hpre & Hacc).
    destruct (Hc id g g' pid h m p Hgg Hg' Hp Hm Ht' Hin Hpid Hpre) as [Hin' Hact].
    split; [by apply Hact|]. by exists p.
  - intros id1 g1 id2 g2 H1 H2 Ht. destruct (Hg _ _ H1) as (k1 & K1 & E1 & _), (Hg _ _ H2) as (k2 & K2 & E2 & _).
    eapply (xi_trees _ _ _ I); [exact K1|exact K2|]. unfold grant_tree in *. by rewrite <- E1, <- E2.
  - intros pid1 pid2 h H1 H2. eapply (xi_handles _ _ _ I); eauto.
  - intros id g' p Hg' Hin. destruct (Hg _ _ Hg') as (g & Hgg & _ & _ & _ & _ & Hsub).
    destruct (Hreg _ _ _ Hg' Hin) as [h Hh]. rewrite Hh. apply Hps' in Hh.
    rewrite <- (xi_namespace _ _ _ I id g p Hgg (Hsub _ Hin)). done.
  - intros id g' p Hg' Hin Ho. destruct (Hg _ _ Hg') as (g & Hgg & _ & Eo & Ep & Ea & Hsub).
    rewrite Ep, Ea. eapply (xi_owner _ _ _ I); [exact Hgg|by apply Hsub|congruence].
  - intros id g' Hg'. destruct (Hg _ _ Hg') as (g & Hgg & _ & _ & Ep & _ & Hsub).
    destruct (xi_valid _ _ _ I id g Hgg) as [Hv Hvs]. rewrite Ep. split; [done|].
    apply Forall_forall. intros p Hp. rewrite Forall_forall in Hvs. by apply Hvs, Hsub.
Qed.

(** A mount of an active grant's tree, with its projection *)
Lemma xinv_add gs ps L L' id g g' h m q :
  XInv gs ps L → gs !! id = Some g → g_export g' = g_export g → g_owner g' = g_owner g →
  g_public g' = g_public g → gr_active (g_public g) = true →
  g_projections g ⊆ g_projections g' → (∀ p, p ∈ g_projections g' → p ∈ g_projections g ∨ p = q) →
  q ∈ g_projections g' → ps !! pj_pid q = Some h → pj_namespace q = h → valid_path (pj_path q) →
  (pj_pid q = g_owner g → pj_path q = gr_path (g_public g) ∧ pj_access q = gr_access (g_public g)) →
  m = mkMount (split_path (pj_path q)) (grant_tree g) (access_kernel (pj_access q)) →
  (∀ k x, x ∈ L' k → x ∈ L k ∨ k = h ∧ x = m) →
  XInv (<[id := g']> gs) ps L'.
Proof.
  intros I Hg He Ho Hpub Ha Hsub Hnew Hq Hps Hns Hv Hown Hm HL.
  assert (∀ k g2, <[id := g']> gs !! k = Some g2 → ∃ g1, gs !! k = Some g1 ∧ g_export g2 = g_export g1 ∧
    g_public g2 = g_public g1 ∧ g_owner g2 = g_owner g1 ∧ g_projections g1 ⊆ g_projections g2 ∧
    (∀ p, p ∈ g_projections g2 → p ∈ g_projections g1 ∨ k = id ∧ p = q)) as Hold.
  { intros k g2 Hk. apply lookup_insert_Some in Hk as [[<- <-]|[_ Hk]]; [|exists g2; naive_solver].
    exists g. split_and!; try done. intros p Hp. apply Hnew in Hp. naive_solver. }
  constructor.
  - intros k g2 pid k' x Hlate Hk Hp Hx Ht. destruct (Hold _ _ Hk) as (g1 & Hk1 & E1 & Ep1 & _ & Hs1 & _).
    assert (m_tree x = grant_tree g1) as Ht1 by (unfold grant_tree in *; congruence). rewrite Ep1.
    destruct (HL k' x Hx) as [Hx'|[-> ->]].
    + destruct (xi_covered _ _ _ I k g1 pid k' x Hlate Hk1 Hp Hx' Ht1) as (Hact & p & Hin & Hrest).
      split; [done|]. exists p. split; [by apply Hs1|done].
    + assert (k = id) as -> by (eapply (xi_trees _ _ _ I); [exact Hk1|exact Hg|]; subst m; done).
      assert (g2 = g') as -> by (rewrite lookup_insert_eq in Hk; congruence).
      assert (g1 = g) as -> by congruence. split; [done|]. exists q.
      assert (pid = pj_pid q) as -> by (eapply (xi_handles _ _ _ I); eauto). by subst m.
  - intros id1 g1 id2 g2 H1 H2 Ht. destruct (Hold _ _ H1) as (k1 & K1 & E1 & _), (Hold _ _ H2) as (k2 & K2 & E2 & _).
    eapply (xi_trees _ _ _ I); [exact K1|exact K2|]. unfold grant_tree in *. congruence.
  - apply I.
  - intros k g2 p Hk Hin. destruct (Hold _ _ Hk) as (g1 & Hk1 & _ & _ & _ & _ & Hn).
    destruct (Hn p Hin) as [Hin'|[_ ->]]; [by apply (xi_namespace _ _ _ I k g1)|congruence].
  - intros k g2 p Hk Hin Hpo. destruct (Hold _ _ Hk) as (g1 & Hk1 & _ & Ep1 & Eo1 & _ & Hn). rewrite Ep1.
    destruct (Hn p Hin) as [Hin'|[-> ->]]; [apply (xi_owner _ _ _ I k g1); congruence|].
    assert (g1 = g) as -> by congruence. apply Hown. congruence.
  - intros k g2 Hk. destruct (Hold _ _ Hk) as (g1 & Hk1 & _ & Ep1 & _ & _ & Hn). rewrite Ep1.
    destruct (xi_valid _ _ _ I k g1 Hk1) as [Hv1 Hvs]. split; [done|]. apply Forall_forall. intros p Hp.
    rewrite Forall_forall in Hvs. destruct (Hn p Hp) as [Hin|[_ ->]]; [by apply Hvs|done].
Qed.

(** A new process *)
Lemma xinv_register gs ps L pid h :
  XInv gs ps L → ps !! pid = None → (∀ q, ps !! q ≠ Some h) →
  (late pid ∨ ∀ m id g, m ∈ L h → gs !! id = Some g → m_tree m ≠ grant_tree g) →
  XInv gs (<[pid := h]> ps) L.
Proof.
  intros I Hn Hu Hm. constructor; try apply I.
  - intros id g q k m Hlate Hg Hq Hin Ht. apply lookup_insert_Some in Hq as [[<- <-]|[_ Hq]].
    + destruct Hm as [?|Hm]; [done|]. by destruct (Hm m id g Hin Hg).
    + by apply (xi_covered _ _ _ I id g q k m).
  - intros q1 q2 k H1 H2. apply lookup_insert_Some in H1 as [[<- <-]|[_ H1]];
      apply lookup_insert_Some in H2 as [[<- E]|[_ H2]]; try done; [by destruct (Hu q2)|subst k; by destruct (Hu q1)|].
    by eapply (xi_handles _ _ _ I).
  - intros id g p Hg Hin. pose proof (xi_namespace _ _ _ I id g p Hg Hin) as H.
    destruct (decide (pid = pj_pid p)) as [E|Hne]; [congruence|]. by rewrite lookup_insert_ne.
Qed.

(** A new grant *)
Lemma xinv_insert gs ps L id record owner e :
  XInv gs ps L → valid_path (gr_path record) →
  (∀ h m, m ∈ L h → m_tree m ≠ file_tree e) → (∀ k g, gs !! k = Some g → grant_tree g ≠ file_tree e) →
  XInv (<[id := mkGrant record owner e []]> gs) ps L.
Proof.
  intros I Hv Hm Hg. constructor.
  - intros k g pid h m Hlate Hk Hp Hin Ht. apply lookup_insert_Some in Hk as [[<- <-]|[_ Hk]].
    + by destruct (Hm h m Hin).
    + by apply (xi_covered _ _ _ I k g pid h m).
  - intros k1 g1 k2 g2 H1 H2 Ht. apply lookup_insert_Some in H1 as [[<- <-]|[_ H1]];
      apply lookup_insert_Some in H2 as [[<- <-]|[_ H2]]; try done.
    + by destruct (Hg k2 g2 H2). + by destruct (Hg k1 g1 H1). + by eapply (xi_trees _ _ _ I).
  - apply I.
  - intros k g p Hk Hin. apply lookup_insert_Some in Hk as [[<- <-]|[_ Hk]]; [by apply elem_of_nil in Hin|].
    by apply (xi_namespace _ _ _ I k g).
  - intros k g p Hk Hin Ho. apply lookup_insert_Some in Hk as [[<- <-]|[_ Hk]]; [by apply elem_of_nil in Hin|].
    by apply (xi_owner _ _ _ I k g).
  - intros k g Hk. apply lookup_insert_Some in Hk as [[<- <-]|[_ Hk]]; [by split|]. by apply (xi_valid _ _ _ I k g).
Qed.

(** ** The exports that wait *)

Lemma finv_state gs gs' L L' ts :
  FInv gs L ts →
  (∀ id g', gs' !! id = Some g' → ∃ k g, gs !! k = Some g ∧ g_export g = g_export g') →
  (∀ h m, m ∈ L' h → (∃ h0 m0, m0 ∈ L h0 ∧ m_tree m0 = m_tree m) ∨
     (∃ k g, gs !! k = Some g ∧ m_tree m = grant_tree g) ∨ foreign m) →
  FInv gs' L' ts.
Proof.
  intros I Hg HL. constructor; [|apply I]. intros r record e actor Hin.
  destruct (fi_unused _ _ _ I r record e actor Hin) as (Hm & Hgs & Hv). split_and!; [| |done].
  - intros h m Hin'. destruct (HL h m Hin') as [(h0 & m0 & H0 & <-)|[(k & g & Hk & ->)|Hf]].
    + by apply (Hm h0). + by apply (Hgs k). + apply Hf.
  - intros id g' Hg'. destruct (Hg id g' Hg') as (k & g & Hk & He). unfold grant_tree. rewrite <- He. by apply (Hgs k g).
Qed.
Lemma finv_tasks gs L ts ts' :
  FInv gs L ts → NoDup (omap insert_tree ts') →
  (∀ r record e actor, TInsert r record e actor ∈ ts' → TInsert r record e actor ∈ ts) → FInv gs L ts'.
Proof. intros I Hn Hin. constructor; [|done]. intros r record e actor H. by eapply (fi_unused _ _ _ I), Hin. Qed.

(** ** Changes of a live namespace *)

Lemma live_change_mounts h f s k :
  live_mounts (hm_live_change h f s) k = if bool_decide (k = h) then mounts (f (hm_live h s).1) else live_mounts s k.
Proof.
  unfold live_mounts, hm_live, hm_live_change. simpl. case_bool_decide as E.
  - subst k. by rewrite lookup_insert_eq.
  - by rewrite lookup_insert_ne.
Qed.
Lemma unmount_mounts h at_ s k x :
  x ∈ live_mounts (hm_unmount h at_ s) k ↔ x ∈ live_mounts s k ∧ (k = h → m_prefix x ≠ split_path at_).
Proof.
  unfold hm_unmount. rewrite live_change_mounts. case_bool_decide as E; [|naive_solver]. subst k. simpl.
  rewrite list_elem_of_filter. unfold live_mounts. naive_solver.
Qed.
Lemma replace_mounts h at_ t a s k x :
  x ∈ live_mounts (hm_replace_mount h at_ t a s) k ↔
  x ∈ live_mounts (hm_unmount h at_ s) k ∨ k = h ∧ x = mkMount (split_path at_) t a.
Proof.
  unfold hm_replace_mount, hm_unmount. rewrite !live_change_mounts. case_bool_decide as E; [|naive_solver].
  simpl. rewrite elem_of_app, list_elem_of_singleton. naive_solver.
Qed.

Definition XI s : Prop := XInv (hm_grants s) (hm_processes s) (live_mounts s).

(** A mount goes in with its projection: one step of [project] and of delegation *)
Lemma xinv_project s gs1 id g g' h q :
  XInv gs1 (hm_processes s) (live_mounts (hm_unmount h (pj_path q) s)) →
  gs1 !! id = Some g → g' = g ∧ q ∈ g_projections g ∨ g' = push_projection q g →
  gr_active (g_public g) = true → hm_processes s !! pj_pid q = Some h → pj_namespace q = h → valid_path (pj_path q) →
  (pj_pid q = g_owner g → pj_path q = gr_path (g_public g) ∧ pj_access q = gr_access (g_public g)) →
  XInv (<[id := g']> gs1) (hm_processes s)
    (live_mounts (hm_replace_mount h (pj_path q) (grant_tree g) (access_kernel (pj_access q)) s)).
Proof.
  intros I Hg Hg' Ha Hp Hns Hv Ho.
  eapply (xinv_add _ _ _ _ id g g' h _ q I Hg); try done.
  - by destruct Hg' as [[-> _]| ->]. - by destruct Hg' as [[-> _]| ->]. - by destruct Hg' as [[-> _]| ->].
  - destruct Hg' as [[-> _]| ->]; [done|]. intros p Hin. apply push_elem. by left.
  - destruct Hg' as [[-> _]| ->]; [by left|]. intros p. by rewrite push_elem.
  - destruct Hg' as [[-> Hq]| ->]; [done|]. apply push_elem. by right.
  - intros k x. by rewrite replace_mounts.
Qed.

Lemma project_reach grant_id pid s : XI s → XI (project file_tree now grant_id pid s).1.
Proof.
  intros I. destruct (project file_tree now grant_id pid s) as [s' r] eqn:E. simpl.
  destruct (project_effect _ _ _ _ _ _ _ E) as [[-> _]|(h & g & Hh & Hg & Ha & Ho & _ & _ & Hs)]; [done|].
  cbv zeta in Hs. set (path := gr_path (g_public g)) in *.
  set (q := mkProjection pid h path (gr_access (g_public g))) in *.
  set (gs1 := drop_replaced grant_id pid path (hm_grants s)).
  assert (gs1 !! grant_id = Some g) as Hg1
    by (unfold gs1; rewrite drop_replaced_lookup, Hg; simpl; by rewrite bool_decide_true).
  assert (XInv gs1 (hm_processes s) (live_mounts (hm_unmount h (pj_path q) s))) as I1.
  { eapply xinv_weaken; [exact I| |done|..].
    - intros id g' Hg'. destruct (weaker_drop_replaced _ _ _ _ _ _ Hg') as (g0 & Hg0 & _).
      exists g0. split; [done|]. unfold gs1 in Hg'. rewrite drop_replaced_lookup, Hg0 in Hg'. simpl in Hg'.
      injection Hg' as <-. case_bool_decide; [done|]. repeat split; try done. simpl.
      intros p Hp. by apply list_elem_of_filter in Hp as [_ Hp].
    - intros id g' p Hg' Hin. destruct (weaker_drop_replaced _ _ _ _ _ _ Hg') as (g0 & Hg0 & _ & _ & Hsub).
      rewrite (xi_namespace _ _ _ I id g0 p Hg0); [eauto|]. by eapply elem_of_sublist.
    - intros q' k x _ Hx. left. by apply unmount_mounts in Hx as [Hx _].
    - intros id g0 g' k k' m p Hg0 Hg' Hk Hm Ht Hin Hpid Hpre. unfold gs1 in Hg'.
      rewrite drop_replaced_lookup, Hg0 in Hg'. simpl in Hg'. injection Hg' as <-.
      case_bool_decide; [done|]. split; [|done]. simpl. apply list_elem_of_filter. split; [|done].
      destruct (pj_pid p =? pid) eqn:Epid; [|done]. simpl. apply negb_true_iff, bool_decide_eq_false. bool_facts.
      intros Hpath. apply unmount_mounts in Hm as [_ Hm]. apply Hm; [congruence|]. by rewrite <- Hpre, Hpath. }
  assert (valid_path (pj_path q)) as Hv by (by destruct (xi_valid _ _ _ I grant_id g Hg)).
  destruct (existsb _ _) eqn:Ee.
  - subst s'. apply existsb_exists in Ee as (p & Hin & Hp). apply list_elem_of_In in Hin. bool_facts.
    assert (p = q) as ->.
    { destruct (xi_owner _ _ _ I grant_id g p Hg Hin ltac:(congruence)) as [E1 E2].
      pose proof (xi_namespace _ _ _ I grant_id g p Hg Hin) as E3. rewrite Hp in E3.
      destruct p. simpl in *. unfold q, path. subst. f_equal. congruence. }
    pose proof (xinv_project (on_grants (λ _, gs1) s) gs1 grant_id g g h q I1 Hg1) as H.
    rewrite insert_id in H by done. apply H; auto.
  - subst s'. apply (xinv_project (on_grants (λ _, gs1) s) gs1 grant_id g _ h q I1 Hg1); auto.
Qed.

(** ** Delegation *)

Definition deliverable gs (pid : Z) (d : DelegatedProjection Export) : Prop :=
  ∃ g, gs !! dp_grant d = Some g ∧ gr_active (g_public g) = true ∧ dp_export d = g_export g ∧ g_owner g ≠ pid.
Lemma deliverable_push gs pid k g q d :
  gs !! k = Some g → deliverable gs pid d → deliverable (<[k := push_projection q g]> gs) pid d.
Proof.
  intros Hk (g' & Hg & Hrest). destruct (decide (k = dp_grant d)) as [->|Hne].
  - rewrite Hg in Hk. simplify_eq. exists (push_projection q g). by rewrite lookup_insert_eq.
  - exists g'. by rewrite lookup_insert_ne.
Qed.

(** Unmounting keeps the invariant. *)
Lemma xinv_unmount s h at_ : XI s → XInv (hm_grants s) (hm_processes s) (live_mounts (hm_unmount h at_ s)).
Proof.
  intros I. eapply xinv_weaken; [exact I| |done|..].
  - intros id g' Hg'. exists g'. by repeat split.
  - intros id g' p Hg' Hin. rewrite (xi_namespace _ _ _ I id g' p Hg' Hin). eauto.
  - intros q k x _ Hx. left. by apply unmount_mounts in Hx as [Hx _].
  - intros * Hg Hg' _ _ _ Hin _ _. simplify_eq. done.
Qed.

Lemma project_all_reach pid h ids targets ds s :
  XI s → hm_processes s !! pid = Some h → fresh_delegations ids targets ds →
  Forall (deliverable (hm_grants s) pid) ds → XI (project_all file_tree now pid h ds s).1.
Proof.
  revert ids targets s. induction ds as [|d ds IH]; intros ids targets s I Hp Hf Hd; [done|].
  destruct Hf as (_ & _ & Hv & Hf). inversion_clear Hd as [|?? Hd0 Hds].
  destruct Hd0 as (g & Hg & Ha & He & Ho). cbn [project_all]. unfold mbind, m_bind.
  rewrite (project_delegated_effect _ _ _ _ _ _ _ Hg). eapply IH; [|done|exact Hf|].
  - unfold XI. simpl. rewrite He.
    apply (xinv_project s (hm_grants s) (dp_grant d) g _ h (mkProjection pid h (dp_target d) (dp_access d)));
      auto; [by apply xinv_unmount|]. simpl. intros E. by destruct Ho.
  - simpl. eapply Forall_impl; [exact Hds|]. intros d' Hd'. by apply deliverable_push.
Qed.

(** What the ambient check keeps out of a child's namespace *)
Lemma no_ambient_exports parent h s :
  XI s → ambient_projections s parent (hm_live h s).1 = [] →
  (∀ m, m ∈ live_mounts s h → foreign m ∨ inherited s parent m) →
  ∀ m id g, m ∈ live_mounts s h → hm_grants s !! id = Some g → m_tree m ≠ grant_tree g.
Proof.
  intros I Hamb Hin m id g Hm Hg Ht. destruct (Hin m Hm) as [Hf|Hinh]; [by destruct (Hf (g_export g))|].
  assert (∃ id g p, hm_grants s !! id = Some g ∧ p ∈ g_projections g ∧ pj_pid p = parent ∧
     split_path (pj_path p) = m_prefix m) as (id' & g' & p & Hg' & Hpin & Hpid & Hsp).
  { destruct Hinh as [(Hl & hp & m' & Hp & Hm' & Hpre & Htr)|?]; [|done].
    destruct (xi_covered _ _ _ I id g parent hp m' Hl Hg Hp Hm' ltac:(congruence)) as (_ & p & Hpin & Hpid & Hsp & _).
    exists id, g, p. split_and!; [done..|congruence]. }
  clear id g Hg Ht Hinh. rename id' into id, g' into g, Hg' into Hg.
  enough (pj_path p ∈ ambient_projections s parent (hm_live h s).1) as H by (rewrite Hamb in H; by apply elem_of_nil in H).
  apply list_elem_of_fmap. exists p. split; [done|]. apply list_elem_of_filter. split.
  - split; [done|]. apply list_elem_of_fmap. unfold describe.
    destruct (xi_valid _ _ _ I id g Hg) as [_ Hv]. rewrite Forall_forall in Hv.
    destruct (valid_mount_split _ (Hv p Hpin)) as (Hj & _). exists (pj_path p, m_access m). split; [done|].
    apply list_elem_of_fmap. exists m. split; [|done]. by rewrite <- Hsp, Hj.
  - apply list_elem_of_join. exists (g_projections g). split; [done|]. apply list_elem_of_fmap. exists (id, g).
    by rewrite in_order.
Qed.

Lemma register_child_reach parent pid h requested s ts :
  XI s → callers_ok (RegisterChild parent pid h requested) s ts →
  XI (register_child_process file_tree now parent pid h requested s).1.
Proof.
  intros I (Hu & Ho & Hin). destruct (register_child_process file_tree now parent pid h requested s) as [s' r] eqn:E.
  destruct (register_child_effect _ _ _ _ _ _ _ _ _ E) as [[-> _]|(ds & Hn & Hamb & Hr & Hp)]; [done|].
  destruct (resolve_child_ok _ _ _ _ Hr) as (Hf & _ & Hh). change (s', r).1 with s'.
  assert (s' = (s', r).1) as -> by done. rewrite <- Hp.
  eapply project_all_reach; [|simpl; by rewrite lookup_insert_eq|exact Hf|].
  - change (XInv (hm_grants s) (<[pid := h]> (hm_processes s)) (live_mounts s)).
    apply xinv_register; [done..|]. destruct Hin as [?|Hin]; [by left|right]. by eapply no_ambient_exports.
  - simpl. eapply Forall_impl; [exact Hh|]. intros d (g & held & Hg & Ha & _ & _ & He & _). exists g. eauto.
Qed.

(** ** Taking grants away *)

Lemma unregister_reach pid s : XI s → XI (unregister_process pid s).1.
Proof.
  intros I. change (XInv (retain_projections (λ p, negb (pj_pid p =? pid)) <$> hm_grants s)
    (delete pid (hm_processes s)) (live_mounts s)).
  eapply xinv_weaken; [exact I| |apply delete_subseteq|..].
  - intros id g' Hg'. rewrite lookup_fmap in Hg'. apply fmap_Some in Hg' as (g & Hg & ->). exists g.
    split; [done|]. repeat split. intros p Hp. by apply list_elem_of_filter in Hp as [_ Hp].
  - intros id g' p Hg' Hin. rewrite lookup_fmap in Hg'. apply fmap_Some in Hg' as (g & Hg & ->).
    apply list_elem_of_filter in Hin as [Hk Hin]. bool_facts. rewrite lookup_delete_ne by congruence.
    rewrite (xi_namespace _ _ _ I id g p Hg Hin). eauto.
  - intros q k m _ Hm. by left.
  - intros id g g' q k m p Hg Hg' Hq _ _ Hin Hpid _. rewrite lookup_fmap, Hg in Hg'. injection Hg' as <-.
    split; [|done]. apply list_elem_of_filter. split; [|done]. apply lookup_delete_Some in Hq as [Hne _].
    apply negb_true_iff, Z.eqb_neq. congruence.
Qed.

Lemma unmount_all_mounts l s k x :
  x ∈ live_mounts (unmount_all l s) k →
  x ∈ live_mounts s k ∧ Forall (λ p, k = pj_namespace p → m_prefix x ≠ split_path (pj_path p)) l.
Proof.
  revert s. induction l as [|p l IH]; intros s Hx; [done|].
  destruct (IH (hm_unmount (pj_namespace p) (pj_path p) s) Hx) as [H1 H2].
  apply unmount_mounts in H1 as [H1 H3]. split; [done|]. by constructor.
Qed.

Lemma revoke_reach grant_id actor s : XI s → XI (revoke_locked now grant_id actor s).1.
Proof.
  intros I. unfold revoke_locked. mrun. destruct (hm_grants s !! grant_id) as [g|] eqn:Eg; [|done].
  destruct (gr_active (g_public g)); [|done]. simpl.
  set (s1 := on_grants (insert grant_id (deactivate g)) (export_revoke (g_export g) s)).
  unfold XI. simpl. pose proof (unmount_all_core (g_projections g) s1) as [= -> ->].
  change (live_mounts (audit now _ _ _ _ ?x)) with (live_mounts x).
  eapply xinv_weaken; [exact I| |done|..].
  - intros id g' Hg'. simpl in Hg'. apply lookup_insert_Some in Hg' as [[<- <-]|[_ Hg']]; [exists g|exists g'];
      (split; [done|]); by repeat split.
  - intros id g' p Hg' Hin. simpl in *. apply lookup_insert_Some in Hg' as [[<- <-]|[_ Hg']].
    + rewrite (xi_namespace _ _ _ I grant_id g p Eg Hin). eauto.
    + rewrite (xi_namespace _ _ _ I id g' p Hg' Hin). eauto.
  - intros q k m _ Hm. left. by apply unmount_all_mounts in Hm as [Hm _].
  - intros id g0 g' q k m p Hg0 Hg' Hq Hm Ht Hin Hpid Hpre. simpl in *.
    apply lookup_insert_Some in Hg' as [[<- <-]|[_ Hg']]; [|by simplify_eq].
    simplify_eq. apply unmount_all_mounts in Hm as [_ Hm]. rewrite Forall_forall in Hm. destruct (Hm p Hin); [|done].
    pose proof (xi_namespace _ _ _ I grant_id g p Eg Hin). congruence.
Qed.

Lemma fail_approval_reach id s : XI s → XI (fail_approval now id s).1.
Proof.
  intros I. change (XInv (delete id (hm_grants s)) (hm_processes s) (live_mounts s)).
  eapply xinv_weaken; [exact I| |done|..].
  - intros k g' [_ Hg']%lookup_delete_Some. exists g'. by repeat split.
  - intros k g' p [_ Hg']%lookup_delete_Some Hin. rewrite (xi_namespace _ _ _ I k g' p Hg' Hin). eauto.
  - intros q k m _ Hm. by left.
  - intros k g0 g' q h m p Hg0 [_ Hg']%lookup_delete_Some _ _ _ Hin _ _. by simplify_eq.
Qed.
Lemma environment_reach h n s ts : XI s → callers_ok (Environment h n) s ts → XI (hm_live_change h (λ _, n) s).
Proof.
  intros I Hok. change (XInv (hm_grants s) (hm_processes s) (live_mounts (hm_live_change h (λ _, n) s))).
  eapply xinv_weaken; [exact I| |done|..].
  - intros k g' Hg'. exists g'. by repeat split.
  - intros k g' p Hg' Hin. rewrite (xi_namespace _ _ _ I k g' p Hg' Hin). eauto.
  - intros q k m Hq. rewrite live_change_mounts. case_bool_decide; [|by left]. subst k. intros Hm.
    destruct (Hok m Hm) as [?|[?|[Hu _]]]; [by left|by right|]. by destruct (Hu q).
  - intros * Hg Hg' _ _ _ Hin _ _. simpl in Hg'. by simplify_eq.
Qed.

(** ** No step uses an export that waits *)

Definition tame s s' : Prop :=
  (∀ id g', hm_grants s' !! id = Some g' → ∃ k g, hm_grants s !! k = Some g ∧ g_export g = g_export g') ∧
  (∀ h m, m ∈ live_mounts s' h → (∃ h0 m0, m0 ∈ live_mounts s h0 ∧ m_tree m0 = m_tree m) ∨
     (∃ k g, hm_grants s !! k = Some g ∧ m_tree m = grant_tree g) ∨ foreign m).
Global Instance tame_preorder : PreOrder tame.
Proof.
  split.
  - intros s. split; [eauto|]. intros h m Hm. left. eauto.
  - intros s1 s2 s3 [G1 L1] [G2 L2]. split.
    + intros id g' Hg'. destruct (G2 _ _ Hg') as (k & g & Hg & <-). apply (G1 _ _ Hg).
    + intros h m Hm. destruct (L2 h m Hm) as [(h0 & m0 & H0 & Ht)|[(k & g & Hg & Ht)|Hf]]; [| |by auto].
      * destruct (L1 h0 m0 H0) as [(h1 & m1 & H1 & Ht1)|[(k & g & Hg & Ht1)|Hf]].
        -- left. exists h1, m1. split; [done|congruence]. -- right. left. exists k, g. split; [done|congruence].
        -- right. right. intros e. rewrite <- Ht. apply Hf.
      * destruct (G1 _ _ Hg) as (k' & g' & Hg' & He). right. left. exists k', g'. split; [done|].
        unfold grant_tree in *. congruence.
Qed.
Lemma tame_same s s' : hm_grants s' = hm_grants s → hm_lives s' = hm_lives s → tame s s'.
Proof.
  intros Hg Hl. split; [rewrite Hg; eauto|]. intros h m. unfold live_mounts, hm_live. rewrite Hl. left. eauto.
Qed.
(** Grants with the exports they had, and a namespace that gained a grant's tree *)
Lemma tame_grants s f : (∀ id g', f (hm_grants s) !! id = Some g' →
    ∃ g, hm_grants s !! id = Some g ∧ g_export g = g_export g') → tame s (on_grants f s).
Proof. intros Hf. split; [intros id g' Hg'; destruct (Hf id g' Hg'); eauto|]. intros h m Hm. left. eauto. Qed.
Lemma tame_push s k g q : hm_grants s !! k = Some g → tame s (on_grants (insert k (push_projection q g)) s).
Proof.
  intros Hg. apply tame_grants. intros id g' Hg'. apply lookup_insert_Some in Hg' as [[<- <-]|[_ Hg']]; eauto.
Qed.
Lemma tame_unmount s h at_ : tame s (hm_unmount h at_ s).
Proof. split; [eauto|]. intros k m Hm. apply unmount_mounts in Hm as [Hm _]. left. eauto. Qed.
Lemma tame_replace s h at_ k g a :
  hm_grants s !! k = Some g → tame s (hm_replace_mount h at_ (grant_tree g) a s).
Proof.
  intros Hg. split; [eauto|]. intros j m Hm. apply replace_mounts in Hm as [Hm|[-> ->]]; [|right; left; eauto].
  apply unmount_mounts in Hm as [Hm _]. left. eauto.
Qed.
Lemma drop_exports k pid path gs id g' :
  drop_replaced k pid path gs !! id = Some g' → ∃ g, gs !! id = Some g ∧ g_export g = g_export g'.
Proof.
  rewrite drop_replaced_lookup. intros (g & Hg & ->)%fmap_Some. exists g. split; [done|]. by case_bool_decide.
Qed.

Lemma project_tame grant_id pid s : tame s (project file_tree now grant_id pid s).1.
Proof.
  destruct (project file_tree now grant_id pid s) as [s' r] eqn:E. simpl.
  destruct (project_effect _ _ _ _ _ _ _ E) as [[-> _]|(h & g & Hh & Hg & _ & _ & _ & _ & Hs)]; [done|].
  cbv zeta in Hs. set (path := gr_path (g_public g)) in *.
  set (s0 := on_grants (drop_replaced grant_id pid path) s) in *.
  assert (hm_grants s0 !! grant_id = Some g) as Hg0
    by (simpl; rewrite drop_replaced_lookup, Hg; simpl; by rewrite bool_decide_true).
  assert (tame s (hm_replace_mount h path (file_tree (g_export g)) (access_kernel (gr_access (g_public g))) s0)) as H1.
  { trans s0; [apply tame_grants; apply drop_exports|]. by apply (tame_replace s0 h path grant_id g). }
  destruct (existsb _ _); subst s'; [done|]. etrans; [exact H1|]. etrans; [|by apply tame_same].
  by apply tame_push.
Qed.
Lemma project_all_tame pid h ds s :
  Forall (deliverable (hm_grants s) pid) ds → tame s (project_all file_tree now pid h ds s).1.
Proof.
  revert s. induction ds as [|d ds IH]; intros s Hd; [done|]. inversion_clear Hd as [|?? Hd0 Hds].
  destruct Hd0 as (g & Hg & _ & He & _). cbn [project_all]. unfold mbind, m_bind.
  rewrite (project_delegated_effect _ _ _ _ _ _ _ Hg). rewrite He. etrans; [|apply IH].
  - etrans; [by apply (tame_replace s h (dp_target d) (dp_grant d) g (access_kernel (dp_access d)))|].
    etrans; [|by apply tame_same]. by apply tame_push.
  - simpl. eapply Forall_impl; [exact Hds|]. intros d' Hd'. by apply deliverable_push.
Qed.
Lemma register_child_tame parent pid h requested s ts :
  callers_ok (RegisterChild parent pid h requested) s ts →
  tame s (register_child_process file_tree now parent pid h requested s).1.
Proof.
  intros (_ & Ho & _). destruct (register_child_process file_tree now parent pid h requested s) as [s' r] eqn:E.
  destruct (register_child_effect _ _ _ _ _ _ _ _ _ E) as [[-> _]|(ds & _ & _ & Hr & Hp)]; [done|].
  destruct (resolve_child_ok _ _ _ _ Hr) as (_ & _ & Hh).
  assert ((s', r).1 = (project_all file_tree now pid h ds (on_processes (insert pid h) s)).1) as -> by (by rewrite Hp).
  etrans; [by apply (tame_same s (on_processes (insert pid h) s))|]. apply project_all_tame.
  simpl. eapply Forall_impl; [exact Hh|]. intros d (g & held & Hg & Ha & _ & _ & He & _). exists g. eauto.
Qed.
Lemma unmount_all_tame l s : tame s (unmount_all l s).
Proof.
  revert s. induction l as [|p l IH]; intros s; [done|].
  trans (hm_unmount (pj_namespace p) (pj_path p) s); [apply tame_unmount|apply IH].
Qed.
Lemma revoke_tame grant_id actor s : tame s (revoke_locked now grant_id actor s).1.
Proof.
  unfold revoke_locked. mrun. destruct (hm_grants s !! grant_id) as [g|] eqn:Eg; [|done].
  destruct (gr_active (g_public g)); [|done]. simpl.
  trans (export_revoke (g_export g) s); [by apply tame_same|].
  trans (on_grants (insert grant_id (deactivate g)) (export_revoke (g_export g) s)).
  { apply tame_grants. intros id g' Hg'. apply lookup_insert_Some in Hg' as [[<- <-]|[_ Hg']]; eauto. }
  etrans; [apply unmount_all_tame|by apply tame_same].
Qed.

Lemma call_tame c s ts : callers_ok c s ts → tame s (call_step file_tree now c s).1.
Proof.
  intros Hok. destruct c; simpl.
  - by apply tame_same.
  - pose proof (register_child_tame _ _ _ _ _ _ Hok) as H. unfold mbind, m_bind.
    by destruct (register_child_process file_tree now parent pid h requested s) as [s' []].
  - trans (on_processes (delete pid) s); [by apply tame_same|]. apply tame_grants. intros id g' Hg'.
    rewrite lookup_fmap in Hg'. apply fmap_Some in Hg' as (g & Hg & ->). eauto.
  - apply tame_same; unfold enqueue_locked; munfold; by repeat (case_match; simplify_eq/=).
  - by apply tame_same.
  - apply tame_same; unfold claim_pending_request, hm_ensure; munfold; by repeat (case_match; simplify_eq/=).
  - apply tame_same; unfold settle_request, hm_ensure; munfold; by repeat (case_match; simplify_eq/=).
  - pose proof (project_tame grant_id pid s) as H. unfold mbind, m_bind.
    by destruct (project file_tree now grant_id pid s) as [s' []].
  - pose proof (revoke_tame grant_id actor s) as H. unfold mbind, m_bind.
    by destruct (revoke_locked now grant_id actor s) as [s' []].
  - split; [eauto|]. intros k m. rewrite live_change_mounts. case_bool_decide as E; [|left; eauto].
    intros Hm. destruct (Hok m Hm) as [H|[H|[_ [j Hj]]]]; [left; eauto|by right; right|left; eauto].
Qed.

(** ** Runs *)

Record Reach s ts : Prop := mkReach {
  re_x : XI s;
  re_f : FInv (hm_grants s) (live_mounts s) ts;
  re_v : requests_valid s;
}.

Lemma finv_perm gs L ts ts' : ts ≡ₚ ts' → FInv gs L ts → FInv gs L ts'.
Proof.
  intros Hp I. eapply finv_tasks; [exact I|rewrite <- Hp; apply I|]. intros * H. by rewrite Hp.
Qed.
Lemma finv_tame s s' ts : tame s s' → FInv (hm_grants s) (live_mounts s) ts → FInv (hm_grants s') (live_mounts s') ts.
Proof. intros [Hg Hl] I. by eapply finv_state. Qed.
(** Tasks that wait for no export come and go. *)
Lemma finv_new gs L new ts : omap insert_tree new = [] → FInv gs L ts → FInv gs L (new ++ ts).
Proof.
  intros Hn I. eapply finv_tasks; [exact I|rewrite omap_app, Hn; apply I|].
  intros * [H|H]%elem_of_app; [|done]. exfalso.
  assert (file_tree e ∈ omap insert_tree new) as He by (apply list_elem_of_omap; eauto).
  rewrite Hn in He. by apply elem_of_nil in He.
Qed.
Lemma finv_drop gs L t ts : FInv gs L (t :: ts) → FInv gs L ts.
Proof.
  intros I. eapply finv_tasks; [exact I| |by right].
  pose proof (fi_once _ _ _ I) as H. simpl in H. destruct (insert_tree t); [by inversion_clear H|done].
Qed.

Lemma validate_request_path r : validate_request r = Ok tt → valid_path (hr_path r).
Proof. intros [_ H]%check_then_ok. by apply check_then_ok in H as [H _]. Qed.
(** Requests that were there keep what they ask for; new ones were validated. *)
Definition requests_from (R R' : gmap string RequestState) : Prop :=
  ∀ id r', R' !! id = Some r' → (∃ r, R !! id = Some r ∧ rs_request r = rs_request r') ∨
    valid_path (hr_path (rs_request r')).
Lemma from_update R id r r' :
  R !! id = Some r → rs_request r' = rs_request r → requests_from R (<[id := r']> R).
Proof. intros Hr Hq k x Hk. apply lookup_insert_Some in Hk as [[<- <-]|[_ Hk]]; eauto. Qed.
Lemma from_same (R : gmap string RequestState) : requests_from R R.
Proof. intros k x Hk. eauto. Qed.
Lemma valid_from s s' : requests_from (hm_requests s) (hm_requests s') → requests_valid s → requests_valid s'.
Proof. intros Hf Hv id r' Hr'. destruct (Hf id r' Hr') as [(r & Hr & <-)|H]; [by eapply Hv|done]. Qed.

Lemma project_requests grant_id pid s : hm_requests (project file_tree now grant_id pid s).1 = hm_requests s.
Proof.
  destruct (project file_tree now grant_id pid s) as [s' r] eqn:E. simpl.
  destruct (project_effect _ _ _ _ _ _ _ E) as [[-> _]|(h & g & _ & _ & _ & _ & _ & _ & Hs)]; [done|].
  cbv zeta in Hs. destruct (existsb _ _); by subst s'.
Qed.
Lemma project_all_requests pid h ds s : hm_requests (project_all file_tree now pid h ds s).1 = hm_requests s.
Proof.
  revert s. induction ds as [|d ds IH]; intros s; [done|]. cbn [project_all]. unfold mbind, m_bind.
  destruct (hm_grants s !! dp_grant d) as [g|] eqn:Eg.
  - rewrite (project_delegated_effect _ _ _ _ _ _ _ Eg). by rewrite IH.
  - unfold project_delegated. mrun. simpl. by rewrite Eg.
Qed.
Lemma unmount_all_requests l s : hm_requests (unmount_all l s) = hm_requests s.
Proof.
  revert s. induction l as [|p l IH]; intros s; [done|].
  change (hm_requests (unmount_all l (hm_unmount (pj_namespace p) (pj_path p) s)) = hm_requests s). by rewrite IH.
Qed.

Lemma call_requests c s :
  requests_from (hm_requests s) (hm_requests (call_step file_tree now c s).1).
Proof.
  destruct c; try apply from_same; simpl.
  - unfold mbind, m_bind. destruct (register_child_process file_tree now parent pid h requested s) as [s' r] eqn:E.
    destruct (register_child_effect _ _ _ _ _ _ _ _ _ E) as [[-> [e ->]]|(ds & _ & _ & _ & Hp)]; [apply from_same|].
    pose proof (project_all_requests pid h ds (on_processes (insert pid h) s)) as H. rewrite Hp in H. simpl in H.
    destruct r; simpl; rewrite H; apply from_same.
  - unfold enqueue_locked. mrun. destruct (validate_request r) as [[]| | |] eqn:Ev; try apply from_same.
    apply validate_request_path in Ev.
    destruct (bool_decide (hr_id r = "")); simpl; (destruct (isSome (hm_requests s !! _)); [apply from_same|]); simpl;
      (destruct (isSome (hm_grants s !! _)); [apply from_same|]); simpl;
      intros k x Hk; apply lookup_insert_Some in Hk as [[<- <-]|[_ Hk]]; eauto.
  - unfold claim_pending_request. mrun. destruct (hm_requests s !! id) as [r|] eqn:Er; [|apply from_same].
    unfold hm_ensure. destruct (undecided r); [|apply from_same]. by eapply from_update.
  - unfold settle_request, hm_ensure. mrun. destruct (mount_is_terminal _); [|apply from_same].
    destruct (hm_requests s !! id) as [r|] eqn:Er; [|apply from_same].
    destruct (undecided r); [|apply from_same]. by eapply from_update.
  - unfold mbind, m_bind. pose proof (project_requests grant_id pid s) as H.
    destruct (project file_tree now grant_id pid s) as [s' []]; simpl in *; rewrite H; apply from_same.
  - unfold revoke_locked. mrun. destruct (hm_grants s !! grant_id) as [g|]; [|apply from_same].
    destruct (gr_active (g_public g)); [|apply from_same]. simpl. rewrite unmount_all_requests. apply from_same.
Qed.
Lemma task_requests t s :
  requests_from (hm_requests s) (hm_requests (task_step file_tree now event_json t s).1).
Proof.
  destruct t; try apply from_same; simpl.
  - unfold mbind, m_bind, mtry. pose proof (project_requests (gr_id record) (hr_pid r) s) as H.
    destruct (project file_tree now (gr_id record) (hr_pid r) s) as [s' []]; simpl in *; rewrite H; apply from_same.
  - intros k x Hk. left. apply lookup_alter_Some in Hk as [(<- & r & Hr & ->)|[_ Hk]]; eauto.
  - unfold settle_approval. mrun. destruct (hm_requests s !! id) as [r|] eqn:Er; [|apply from_same]. by eapply from_update.
  - destruct n; [|apply from_same]. unfold append_request_event. mrun. destruct (hm_requests s !! id); apply from_same.
Qed.

Lemma xi_same s s' :
  gcore s' = gcore s → hm_lives s' = hm_lives s → XI s → XI s'.
Proof.
  intros [= Hg Hp] Hl I. unfold XI. rewrite Hg, Hp. eapply xinv_weaken; [exact I| |done|..].
  - intros k g' Hg'. exists g'. by repeat split.
  - intros k g' p Hg' Hin. rewrite (xi_namespace _ _ _ I k g' p Hg' Hin). eauto.
  - intros q k m _. unfold live_mounts, hm_live. rewrite Hl. by left.
  - intros * H H' _ _ _ Hin _ _. by simplify_eq.
Qed.

Lemma call_reach c s ts : XI s → callers_ok c s ts → XI (call_step file_tree now c s).1.
Proof.
  intros I Hok. destruct c; simpl.
  - destruct Hok as (Hn & Hu & Hf). change (XInv (hm_grants s) (<[pid := h]> (hm_processes s)) (live_mounts s)).
    apply xinv_register; [done..|]. right. intros m id g Hm Hg. rewrite Forall_forall in Hf. by apply (Hf m).
  - pose proof (register_child_reach _ _ _ _ _ _ I Hok) as H. unfold mbind, m_bind.
    by destruct (register_child_process file_tree now parent pid h requested s) as [s' []].
  - by apply unregister_reach.
  - eapply xi_same; [| |exact I]; unfold enqueue_locked; munfold; by repeat (case_match; simplify_eq/=).
  - by eapply xi_same; [| |exact I].
  - eapply xi_same; [| |exact I]; unfold claim_pending_request, hm_ensure; munfold; by repeat (case_match; simplify_eq/=).
  - eapply xi_same; [| |exact I]; unfold settle_request, hm_ensure; munfold; by repeat (case_match; simplify_eq/=).
  - pose proof (project_reach grant_id pid s I) as H. unfold mbind, m_bind.
    by destruct (project file_tree now grant_id pid s) as [s' []].
  - pose proof (revoke_reach grant_id actor s I) as H. unfold mbind, m_bind.
    by destruct (revoke_locked now grant_id actor s) as [s' []].
  - by eapply environment_reach.
Qed.

Lemma call_waits c s ts :
  Reach s ts → callers_ok c s ts →
  FInv (hm_grants s) (live_mounts s) (left_over (call_step file_tree now c s).2 ++ ts).
Proof.
  intros [I F V] Hok.
  assert (omap insert_tree (left_over (call_step file_tree now c s).2) = [] →
    FInv (hm_grants s) (live_mounts s) (left_over (call_step file_tree now c s).2 ++ ts)) as Hnew by (intros H; by apply finv_new).
  destruct c; try (apply Hnew; simpl; munfold; by repeat (case_match; simplify_eq/=)).
  simpl. unfold claim_pending_request. mrun. destruct (hm_requests s !! id) as [r|] eqn:Er; [|done].
  unfold hm_ensure. destruct (undecided r); [|done]. simpl. destruct Hok as (Hm & Hg & Hw). constructor.
  - intros r0 record e0 actor0 [[= -> -> -> ->]|Hin]%elem_of_cons; [|by apply (fi_unused _ _ _ F r0 record e0 actor0)].
    split_and!; [done..|]. simpl. by apply (V id).
  - simpl. by apply NoDup_cons; split; [|apply F].
Qed.

Lemma task_waits t s : omap insert_tree (left_over (task_step file_tree now event_json t s).2) = [].
Proof.
  destruct t; simpl; try (unfold mbind, m_bind, mtry; simpl; done).
  - unfold mbind, m_bind, mtry. destruct (project file_tree now (gr_id record) (hr_pid r) s) as [s' []]; done.
  - unfold settle_approval. munfold. by destruct (hm_requests s !! id).
  - destruct n; [|done]. unfold append_request_event. munfold. by destruct (hm_requests s !! id).
Qed.
Lemma task_finv t s ts :
  FInv (hm_grants s) (live_mounts s) (t :: ts) →
  FInv (hm_grants (task_step file_tree now event_json t s).1) (live_mounts (task_step file_tree now event_json t s).1) ts.
Proof.
  intros F. pose proof (finv_drop _ _ _ _ F) as Fd.
  destruct t as [r record e actor|r record actor|id|id actor|n|n]; [|eapply finv_tame; [|exact Fd]; simpl..].
  - change (FInv (<[gr_id record := mkGrant record (hr_pid r) e []]> (hm_grants s)) (live_mounts s) ts).
    constructor; [|apply Fd]. intros r0 record0 e0 actor0 Hin.
    destruct (fi_unused _ _ _ Fd r0 record0 e0 actor0 Hin) as (Hm & Hg & Hv). split_and!; [done| |done].
    intros k g Hk. apply lookup_insert_Some in Hk as [[<- <-]|[_ Hk]]; [|by eapply Hg].
    unfold grant_tree. simpl. intros Heq. pose proof (fi_once _ _ _ F) as Hn. simpl in Hn. inversion_clear Hn as [|?? Hni _].
    apply Hni. apply list_elem_of_omap. exists (TInsert r0 record0 e0 actor0). by rewrite Heq.
  - pose proof (project_tame (gr_id record) (hr_pid r) s) as H. unfold mbind, m_bind, mtry.
    by destruct (project file_tree now (gr_id record) (hr_pid r) s) as [s' []].
  - trans (on_grants (delete id) s); [|by apply tame_same]. apply tame_grants. intros k g' [_ Hg']%lookup_delete_Some. eauto.
  - apply tame_same; unfold settle_approval; munfold; by repeat (case_match; simplify_eq/=).
  - by apply tame_same.
  - destruct n; [|by apply tame_same]. apply tame_same; unfold append_request_event; munfold; by repeat (case_match; simplify_eq/=).
Qed.

Lemma step_reach x y :
  hm_step file_tree now event_json callers_ok x y → Reach x.1 x.2 → Reach y.1 y.2.
Proof.
  intros Hs [I F V]. inversion Hs as [c s ts Hok|t s ts1 ts2]; subst; simpl in *.
  - constructor; [by eapply call_reach| |eapply valid_from; [apply call_requests|done]].
    eapply finv_tame; [by eapply call_tame|]. eapply finv_perm; [apply Permutation_app_comm|]. by apply call_waits.
  - assert (FInv (hm_grants s) (live_mounts s) (t :: ts1 ++ ts2)) as F'
      by (eapply finv_perm; [|exact F]; by rewrite Permutation_middle).
    constructor; [| |eapply valid_from; [apply task_requests|done]].
    + destruct t as [r record e actor|r record actor|id|id actor|n|n]; simpl.
      * destruct (fi_unused _ _ _ F' r record e actor ltac:(by left)) as (Hm & Hg & Hv).
        change (XInv (<[gr_id record := mkGrant record (hr_pid r) e []]> (hm_grants s)) (hm_processes s) (live_mounts s)).
        by apply xinv_insert.
      * pose proof (project_reach (gr_id record) (hr_pid r) s I) as H. unfold mbind, m_bind, mtry.
        by destruct (project file_tree now (gr_id record) (hr_pid r) s) as [s' []].
      * by apply fail_approval_reach.
      * eapply xi_same; [| |exact I]; unfold settle_approval; munfold; by repeat (case_match; simplify_eq/=).
      * by eapply xi_same; [| |exact I].
      * destruct n; [|by eapply xi_same; [| |exact I]].
        eapply xi_same; [| |exact I]; unfold append_request_event; munfold; by repeat (case_match; simplify_eq/=).
    + eapply (finv_perm _ _ (left_over (task_step file_tree now event_json t s).2 ++ ts1 ++ ts2)).
      { rewrite (app_assoc ts1). apply Permutation_app_comm. }
      apply finv_new; [by apply task_waits|]. by apply (task_finv t s).
Qed.

Lemma reach_new lives : Reach (host_mount_new lives) [].
Proof.
  constructor.
  - constructor; simpl; intros *; try (by rewrite lookup_empty).
  - constructor; [by intros * ?%elem_of_nil|constructor].
  - intros id r. simpl. by rewrite lookup_empty.
Qed.
Lemma reachable_reach lives x : hm_reachable file_tree now event_json callers_ok lives x → Reach x.1 x.2.
Proof.
  intros H. apply (rtc_ind_r (λ x, Reach x.1 x.2)) with (host_mount_new lives, []) x in H; [done|apply reach_new|].
  intros y z _ Hs I. by eapply step_reach.
Qed.

(** A resolved tree is a mounted tree. *)
Lemma resolve_mounted path (n : Namespace Tree) r :
  resolve path n = Some r → ∃ m, m ∈ mounts n ∧ r_tree r = m_tree m ∧ r_access r = m_access m.
Proof.
  unfold resolve. intros (m & Hm & ->)%fmap_Some. exists m. split; [|done].
  assert (∀ l best, foldl (better (split_path path)) best l = Some m → best = Some m ∨ m ∈ l) as H.
  { intros l. induction l as [|x l IH]; intros best; simpl; [by left|].
    intros [H|H]%IH; [|right; by right]. unfold better in H. repeat case_match; simplify_eq; auto; right; by left. }
  by destruct (H _ _ Hm).
Qed.
End reach.
