(* ===== verification/HostMountChild.v ===== *)
(** * Delegated mounts of a child process

    What [register_child_process] leaves in the child's namespace: each selected grant
    at its target with the selected access, everything else as it was. *)
From S2P Require Import Prelude RustStd ApTypes Namespace NamespaceFacts RustText HostMounts HostMountSteps HostMountGrants HostMountReach.

Section resolve.
Context {Tree : Type}.
Implicit Types (n : Namespace Tree) (m : Mount Tree) (l : list (Mount Tree)).

(** Nothing mounted after [m] covers its path. *)
Definition tops m n : Prop :=
  ∃ l1 l2, mounts n = l1 ++ m :: l2 ∧ Forall (λ x, ¬ m_prefix x `prefix_of` m_prefix m) l2.

Lemma better_skip comps best l :
  Forall (λ x, ¬ m_prefix x `prefix_of` comps) l → foldl (better comps) best l = best.
Proof.
  intros H. revert best. induction H as [|x l Hx _ IH]; intros best; [done|]. simpl. rewrite <- is_prefix_spec in Hx.
  unfold better at 2. by rewrite (not_true_is_false _ Hx).
Qed.
Lemma resolve_top path m n :
  tops m n → split_path path = m_prefix m → resolve path n = Some (mkResolved (m_tree m) [] (m_access m)).
Proof.
  intros (l1 & l2 & Hn & Hl) Hp. unfold resolve. rewrite Hn, Hp, foldl_app. simpl. rewrite better_skip by done.
  assert (∀ b, foldl (better (m_prefix m)) None l1 = Some b → m_prefix b `prefix_of` m_prefix m) as Hb.
  { intros b. assert (∀ l best, (∀ x, best = Some x → m_prefix x `prefix_of` m_prefix m) →
      foldl (better (m_prefix m)) best l = Some b → m_prefix b `prefix_of` m_prefix m) as H.
    { intros l. induction l as [|x l IH]; intros best Hbest; simpl; [by auto|]. apply IH.
      intros y. unfold better. destruct (is_prefix (m_prefix x) (m_prefix m)) eqn:E; [|by apply Hbest].
      apply is_prefix_spec in E. destruct best as [b'|]; [|by intros [= ->]].
      case_match; [by intros [= ->]|by apply Hbest]. }
    by apply H. }
  assert (better (m_prefix m) (foldl (better (m_prefix m)) None l1) m = Some m) as ->.
  { unfold better at 1. assert (is_prefix (m_prefix m) (m_prefix m) = true) as -> by (by apply is_prefix_spec).
    destruct (foldl _ None l1) as [b|]; [|done]. pose proof (Hb b eq_refl) as H. apply prefix_length in H.
    by rewrite (proj2 (Nat.leb_le _ _) H). }
  simpl. unfold resolved_at. by rewrite drop_all.
Qed.
Lemma tops_mount at_ t a n : tops (mkMount (split_path at_) t a) (mount at_ t a n).
Proof. exists (mounts n), []. by split. Qed.
Lemma tops_unmount at_ m n : m_prefix m ≠ split_path at_ → tops m n → tops m (unmount at_ n).
Proof.
  intros Hne (l1 & l2 & Hn & Hl). exists (filter (λ x, m_prefix x ≠ split_path at_) l1),
    (filter (λ x, m_prefix x ≠ split_path at_) l2). split.
  - simpl. by rewrite Hn, filter_app, filter_cons_True.
  - apply Forall_forall. intros x [_ Hx]%list_elem_of_filter. rewrite Forall_forall in Hl. by apply Hl.
Qed.
Lemma tops_other at_ t a m n :
  ¬ split_path at_ `prefix_of` m_prefix m → tops m n → tops m (mount at_ t a n).
Proof.
  intros Hne (l1 & l2 & Hn & Hl). exists l1, (l2 ++ [mkMount (split_path at_) t a]). split.
  - simpl. by rewrite Hn, <- app_assoc.
  - apply Forall_app. split; [done|]. by repeat constructor.
Qed.

(** A change at a path that does not cover another *)
Lemma resolve_replaced path at_ t a n :
  ¬ split_path at_ `prefix_of` split_path path → resolve path (mount at_ t a (unmount at_ n)) = resolve path n.
Proof.
  intros Hne. unfold resolve. simpl. rewrite foldl_app. simpl. unfold better at 1. simpl.
  rewrite <- is_prefix_spec in Hne. rewrite (not_true_is_false _ Hne). f_equal.
  generalize (None (A := Mount Tree)) as best. induction (mounts n) as [|x l IH]; intros best; [done|].
  rewrite filter_cons. case_decide as E; simpl; [apply IH|]. rewrite IH. f_equal.
  unfold better. by rewrite E, (not_true_is_false _ Hne).
Qed.
End resolve.

Section child.
Context {Tree Export : Type} (file_tree : Export → Tree) (now : nat → Z).
Abbreviation St := (HmState Tree Export).
Implicit Types (s : St).

Lemma fresh_apart ids targets (ds : list (DelegatedProjection Export)) d t :
  fresh_delegations ids targets ds → d ∈ ds → t ∈ targets →
  namespace_paths_overlap (dp_target d) t = false ∧ validate_mount_namespace_path (dp_target d) = Ok tt.
Proof.
  revert ids targets. induction ds as [|x ds IH]; intros ids targets Hf Hd Ht; [by apply elem_of_nil in Hd|].
  destruct Hf as (_ & Ho & Hv & Hf). apply elem_of_cons in Hd as [->|Hd].
  - split; [|done]. destruct (namespace_paths_overlap (dp_target x) t) eqn:E; [|done].
    enough (existsb (namespace_paths_overlap (dp_target x)) targets = true) by congruence.
    apply existsb_exists. exists t. by rewrite <- list_elem_of_In.
  - eapply IH; [exact Hf|done|]. apply elem_of_app. by left.
Qed.
Lemma fresh_valid ids targets (ds : list (DelegatedProjection Export)) d :
  fresh_delegations ids targets ds → d ∈ ds → validate_mount_namespace_path (dp_target d) = Ok tt.
Proof.
  revert ids targets. induction ds as [|x ds IH]; intros ids targets Hf Hd; [by apply elem_of_nil in Hd|].
  destruct Hf as (_ & _ & Hv & Hf). apply elem_of_cons in Hd as [->|Hd]; [done|]. by eapply IH.
Qed.

(** The mount a delegation makes *)
Definition delegated_mount (d : DelegatedProjection Export) : Mount Tree :=
  mkMount (split_path (dp_target d)) (file_tree (dp_export d)) (access_kernel (dp_access d)).

Lemma live_replaced h at_ t a s : (hm_live h (hm_replace_mount h at_ t a s)).1 = mount at_ t a (unmount at_ (hm_live h s).1).
Proof. unfold hm_live, hm_replace_mount, hm_live_change. simpl. by rewrite lookup_insert_eq. Qed.

Lemma project_all_tops pid h m ds s :
  tops m (hm_live h s).1 → Forall (grantable (hm_grants s)) ds →
  (∀ d, d ∈ ds → ¬ split_path (dp_target d) `prefix_of` m_prefix m) →
  tops m (hm_live h (project_all file_tree now pid h ds s).1).1.
Proof.
  revert s. induction ds as [|d ds IH]; intros s Ht Hg Hd; [done|]. inversion_clear Hg as [|?? Hg0 Hgs].
  destruct Hg0 as (g & Hg & _). cbn [project_all]. unfold mbind, m_bind.
  rewrite (project_delegated_effect _ _ _ _ _ _ _ Hg). apply IH.
  - pose proof (Hd d ltac:(by left)) as Hnp.
    change (tops m (hm_live h (hm_replace_mount h (dp_target d) (file_tree (dp_export d)) (access_kernel (dp_access d)) s)).1).
    rewrite live_replaced. apply tops_other; [done|]. apply tops_unmount; [|done]. intros E. apply Hnp. by rewrite E.
  - simpl. eapply Forall_impl; [exact Hgs|]. intros d' Hd'. by apply grantable_push.
  - intros d' Hd'. apply Hd. by right.
Qed.

Lemma project_all_resolves pid h ids targets ds s d :
  fresh_delegations ids targets ds → Forall (grantable (hm_grants s)) ds → d ∈ ds →
  tops (delegated_mount d) (hm_live h (project_all file_tree now pid h ds s).1).1.
Proof.
  revert ids targets s. induction ds as [|x ds IH]; intros ids targets s Hf Hg Hd; [by apply elem_of_nil in Hd|].
  destruct Hf as (_ & _ & Hv & Hf). inversion_clear Hg as [|?? Hg0 Hgs]. destruct Hg0 as (g & Hg & _).
  cbn [project_all]. unfold mbind, m_bind. rewrite (project_delegated_effect _ _ _ _ _ _ _ Hg).
  assert (Forall (grantable (<[dp_grant x := push_projection (mkProjection pid h (dp_target x) (dp_access x)) g]>
    (hm_grants s))) ds) as Hgs' by (eapply Forall_impl; [exact Hgs|]; intros d' Hd'; by apply grantable_push).
  apply elem_of_cons in Hd as [->|Hd]; [|by eapply IH].
  apply project_all_tops; [|done|].
  - change (tops (delegated_mount x) (hm_live h
      (hm_replace_mount h (dp_target x) (file_tree (dp_export x)) (access_kernel (dp_access x)) s)).1).
    rewrite live_replaced. apply tops_mount.
  - intros d' Hd'. destruct (fresh_apart _ _ _ d' (dp_target x) Hf Hd') as [Ho Hv'];
      [apply elem_of_app; right; by apply list_elem_of_singleton|].
    by apply disjoint_paths in Ho as [_ Ho].
Qed.

Lemma project_all_elsewhere pid h path ds s :
  Forall (grantable (hm_grants s)) ds → (∀ d, d ∈ ds → ¬ split_path (dp_target d) `prefix_of` split_path path) →
  resolve path (hm_live h (project_all file_tree now pid h ds s).1).1 = resolve path (hm_live h s).1.
Proof.
  revert s. induction ds as [|d ds IH]; intros s Hg Hd; [done|]. inversion_clear Hg as [|?? Hg0 Hgs].
  destruct Hg0 as (g & Hg & _). cbn [project_all]. unfold mbind, m_bind.
  rewrite (project_delegated_effect _ _ _ _ _ _ _ Hg), IH.
  - change (resolve path (hm_live h (hm_replace_mount h (dp_target d) (file_tree (dp_export d))
      (access_kernel (dp_access d)) s)).1 = resolve path (hm_live h s).1).
    rewrite live_replaced. apply resolve_replaced. apply Hd. by left.
  - simpl. eapply Forall_impl; [exact Hgs|]. intros d' Hd'. by apply grantable_push.
  - intros d' Hd'. apply Hd. by right.
Qed.

(** C22: A child process gets exactly what its parent may pass on: when
    [register_child_process] succeeds, the child was not registered before, every
    selected grant is active and held by the parent, with an access that covers the
    selected one in the parent's projection and in the grant, the child's namespace
    resolves the target to the root of the grant's tree with the selected access, and
    a path below no target resolves as it did before. *)
Theorem child_gets_what_was_delegated parent pid h requested s s' :
  register_child_process file_tree now parent pid h requested s = (s', Ok tt) →
  hm_processes s !! pid = None ∧
  (∀ sel, sel ∈ requested →
     ∃ g held, hm_grants s !! sm_grant sel = Some g ∧ gr_active (g_public g) = true ∧
       held ∈ g_projections g ∧ pj_pid held = parent ∧
       covers_access (pj_access held) (spawn_mount_access (sm_access sel)) = true ∧
       covers_access (gr_access (g_public g)) (spawn_mount_access (sm_access sel)) = true ∧
       resolve (sm_target sel) (hm_live h s').1 =
         Some (mkResolved (file_tree (g_export g)) [] (access_kernel (spawn_mount_access (sm_access sel))))) ∧
  (∀ path, (∀ sel, sel ∈ requested → ¬ split_path (sm_target sel) `prefix_of` split_path path) →
     resolve path (hm_live h s').1 = resolve path (hm_live h s).1).
Proof.
  intros H. destruct (register_child_effect _ _ _ _ _ _ _ _ _ H) as [[_ [e ?]]|(ds & Hn & _ & Hr & Hp)]; [done|].
  destruct (resolve_child_ok _ _ _ _ Hr) as (Hf & Hs & Hh).
  assert (Forall (grantable (hm_grants (on_processes (insert pid h) s))) ds) as Hg
    by (eapply Forall_impl; [exact Hh|]; intros d; apply held_grantable).
  assert (s' = (project_all file_tree now pid h ds (on_processes (insert pid h) s)).1) as -> by (by rewrite Hp).
  split_and!; [done| |].
  - intros sel Hsel. apply list_elem_of_lookup in Hsel as [i Hi].
    destruct (Forall2_lookup_l _ _ _ _ _ Hs Hi) as (d & Hd & Eg & Et & Ea). apply list_elem_of_lookup_2 in Hd.
    rewrite Forall_forall in Hh. destruct (Hh d Hd) as (g & held & Hgg & Hact & Hin & Hpar & He & Hc1 & Hc2).
    rewrite <- Eg, <- Et, <- Ea. exists g, held. split_and!; try done. rewrite <- He.
    apply (resolve_top _ (delegated_mount d)); [|done]. by eapply project_all_resolves.
  - intros path Hpath. rewrite project_all_elsewhere; [done..|]. intros d Hd.
    apply list_elem_of_lookup in Hd as [i Hi]. destruct (Forall2_lookup_r _ _ _ _ _ Hs Hi) as (sel & Hsel & _ & -> & _).
    apply Hpath. by eapply list_elem_of_lookup_2.
Qed.
End child.
