(* ===== verification/HostMountTheorems.v ===== *)
(** * Theorems of the Host Mount service

    Requests are decided once, what a process reaches belongs to active grants it
    holds, its projections are apart, and tools get the authority of the grant their
    working directory lies in. *)
From S2P Require Import Prelude RustStd ApTypes Namespace RustText HostMounts HostMountSteps HostMountGrants HostMountRequests HostMountReach.

Section theorems.
Context {Tree Export : Type} (file_tree : Export → Tree).
Context (now : nat → Z) (event_json : HostMountEvent → bytes).
Abbreviation St := (HmState Tree Export).
Implicit Types (s : St).

(** C7: A request is decided once, whatever callers do at the same time: along any
    interleaving of calls and of the sections of approvals under way, a request that
    was settled keeps its status, grant and error for ever; no section of a call that
    is under way panics or fails; an approved request has the grant of its own id,
    with the owner, path and access it asked for; and when no call is under way every
    grant belongs to an approved request. *)
Theorem requests_are_decided_once ok lives s ts s' ts' :
  hm_reachable file_tree now event_json ok lives (s, ts) →
  rtc (hm_step file_tree now event_json ok) (s, ts) (s', ts') →
  (∀ id r, hm_requests s !! id = Some r → rs_status r ≠ HmPending → hm_requests s' !! id = Some r) ∧
  (∀ t, t ∈ ts → ∃ new, (task_step file_tree now event_json t s).2 = Ok new) ∧
  (∀ id r, hm_requests s !! id = Some r → rs_status r = HmApproved →
     rs_grant r = Some id ∧ ∃ g, hm_grants s !! id = Some g ∧ grant_deed g = request_deed (rs_request r)) ∧
  (ts = [] → ∀ id g, hm_grants s !! id = Some g → ∃ r, hm_requests s !! id = Some r ∧ rs_status r = HmApproved).
Proof.
  intros Hr Hrun. apply reachable_requests in Hr as I. simpl in I. split_and!.
  - intros id r Hid Hst. destruct (run_kept _ _ _ _ _ _ Hrun I id r Hid) as (r' & Hr' & _ & Heq).
    by rewrite <- (Heq Hst).
  - intros t Ht. apply elem_of_Permutation in Ht as [ts0 Hp].
    by destruct (task_keeps file_tree now event_json t s ts0 (rinv_perm _ _ _ _ Hp I)).
  - intros id r Hid Hst. destruct (ri_approved _ _ _ I id r Hid Hst) as [Hg Hd]. split; [done|].
    by apply fmap_Some in Hd as (g & Hg' & ->); exists g.
  - intros -> id g Hg. destruct (ri_grant _ _ _ I id (grant_deed g)) as (r & Hid & _ & [Ha|Hc]).
    + unfold deeds. by rewrite Hg.
    + eauto.
    + pose proof (ri_claimed _ _ _ I id r Hid Hc) as H. by apply elem_of_nil in H.
Qed.


(** The projections of one process are apart: in every state the service can
    reach, a grant has at most one projection for a process, every process with a
    projection is registered, and the paths of two projections a process has under
    different active grants are neither equal nor nested. *)
Theorem projections_stay_apart ok lives s ts :
  hm_reachable file_tree now event_json ok lives (s, ts) →
  (∀ id g, hm_grants s !! id = Some g →
     NoDup (pj_pid <$> g_projections g) ∧
     Forall (λ p, is_Some (hm_processes s !! pj_pid p)) (g_projections g)) ∧
  (∀ id1 g1 p1 id2 g2 p2,
     hm_grants s !! id1 = Some g1 → hm_grants s !! id2 = Some g2 → id1 ≠ id2 →
     gr_active (g_public g1) = true → gr_active (g_public g2) = true →
     p1 ∈ g_projections g1 → p2 ∈ g_projections g2 → pj_pid p1 = pj_pid p2 →
     pj_path p1 ≠ pj_path p2 ∧ path_starts_with (pj_path p1) (pj_path p2) = false ∧
     path_starts_with (pj_path p2) (pj_path p1) = false).
Proof.
  intros Hr. apply reachable_grants in Hr as I. split.
  - intros id g Hg. split; [by apply (gi_single _ _ I id)|]. apply Forall_forall. intros p Hp.
    by apply (gi_registered _ _ I id g).
  - intros * H1 H2 Hne A1 A2 P1 P2 Hp. pose proof (gi_apart _ _ I _ _ _ _ _ _ H1 H2 Hne A1 A2 P1 P2 Hp) as Ho.
    unfold namespace_paths_overlap, namespace_paths_strictly_overlap in Ho.
    destruct (bool_decide (pj_path p1 = pj_path p2)) eqn:E; [done|]. simpl in Ho. by bool_facts.
Qed.

(** ** Operations as runs *)

(** The schedule of a call whose caller is alone *)
Definition tail (n : nat) : list (HmCall (Tree := Tree) (Export := Export) + nat) := replicate n (inr 0%nat).
#[local] Arguments tail : simpl never.
Definition alone (c : HmCall (Tree := Tree) (Export := Export)) s : St :=
  (hm_run file_tree now event_json (inl c :: tail 5) (s, [])).1.

Lemma run_none n s : hm_run file_tree now event_json (tail n) (s, []) = (s, []).
Proof. by induction n. Qed.
Lemma run_task n t s s' r : task_step file_tree now event_json t s = (s', r) →
  hm_run file_tree now event_json (tail (S n)) (s, [t]) = hm_run file_tree now event_json (tail n) (s', left_over r).
Proof. intros H. unfold tail. cbn [replicate hm_run]. simpl. by rewrite H. Qed.
Lemma run_call c s s' r : call_step file_tree now c s = (s', r) →
  alone c s = (hm_run file_tree now event_json (tail 5) (s', left_over r)).1.
Proof. intros H. unfold alone. cbn [hm_run fst snd app]. by rewrite H. Qed.

(** The end of a call: the generation and the event *)
Lemma run_notice n nt s :
  (hm_run file_tree now event_json (tail (S (S n))) (s, [TBump nt])).1 =
  ((hm_bump;; match nt with
           | NEvent id st grant error => append_request_event event_json id st grant error
           | NService e affected => append_service_event event_json e affected
           end) s).1.
Proof.
  rewrite (run_task _ _ _ (hm_bump_generation s) (Ok [TNotify nt])) by done. cbn [left_over].
  destruct nt as [id st grant error|e affected].
  - destruct (append_request_event event_json id st grant error (hm_bump_generation s)) as [s' r] eqn:E.
    rewrite (run_task _ _ _ s' (match r with Ok _ => Ok [] | Err x => Err x | Park => Park | Panic => Panic end)).
    + unfold mbind, m_bind. change (hm_bump s) with (hm_bump_generation s, Ok (E := HmError) tt). cbv iota beta. rewrite E.
      destruct r; cbn [left_over]; by rewrite run_none.
    + cbn [task_step]. unfold mbind, m_bind. rewrite E. by destruct r.
  - erewrite run_task by done. cbn [left_over]. by rewrite run_none.
Qed.

Lemma approve_alone id e provenance actor s :
  alone (Approve id e provenance actor) s =
  (approve_export file_tree now event_json id e provenance actor s).1.
Proof.
  unfold approve_export. unfold mbind, m_bind, mtry.
  destruct (claim_pending_request id s) as [s1 res] eqn:E1.
  destruct res as [r|err| |]; (erewrite run_call by (cbn [call_step]; unfold mbind, m_bind; by rewrite E1));
    cbn [left_over]; [|by rewrite run_none..].
  erewrite run_task by done. cbn [left_over].
  set (s2 := on_grants _ s1). change (insert_grant r (grant_record_of r provenance) e s1) with (s2, Ok (E := HmError) tt).
  cbv iota beta. change (gr_id (grant_record_of r provenance)) with (hr_id r).
  destruct (project file_tree now (hr_id r) (hr_pid r) s2) as [s3 res] eqn:E3.
  assert (res = Ok tt ∨ ∃ err, res = Err err) as Hres
    by (destruct (project_effect _ _ _ _ _ _ _ E3) as [[_ [err ->]]|(?&?&?&?&?&?& -> &_)]; eauto).
  rewrite (run_task 3 _ s2 s3 (Ok [match res with Err _ => TFail (hr_id r) | _ => TSettle (hr_id r) actor end]))
    by (simpl; unfold mbind, m_bind, mtry; rewrite E3; by destruct Hres as [->|[err ->]]).
  cbn [left_over]. destruct Hres as [->|[err ->]].
  - destruct (settle_approval now (hr_id r) actor s3) as [s4 r4] eqn:E4.
    destruct r4 as [[]| | |]; (erewrite run_task by (cbn [task_step]; unfold mbind, m_bind; by rewrite E4));
      cbn [left_over]; [|by rewrite run_none..]. rewrite run_notice. unfold mbind, m_bind.
    simpl. by destruct (append_request_event _ _ _ _ _ _) as [s5 []].
  - destruct (fail_approval now (hr_id r) s3) as [s4 r4] eqn:E4.
    destruct r4 as [[]| | |]; (erewrite run_task by (cbn [task_step]; unfold mbind, m_bind; by rewrite E4));
      cbn [left_over]; [|by rewrite run_none..]. rewrite run_notice. unfold mbind, m_bind.
    simpl. by destruct (append_request_event _ _ _ _ _ _) as [s5 []].
Qed.
Lemma enqueue_alone r s : alone (Enqueue r) s = (enqueue now event_json r s).1.
Proof.
  unfold enqueue. unfold mbind, m_bind, mresult. destruct (validate_request r) as [[]| | |] eqn:Ev;
    try (erewrite run_call by (cbn [call_step]; unfold mbind, m_bind, mresult; by rewrite Ev); cbn [left_over]; by rewrite run_none).
  destruct (enqueue_locked now r s) as [s1 res] eqn:E1.
  destruct res as [id| | |]; (erewrite run_call by (cbn [call_step]; unfold mbind, m_bind, mresult; by rewrite Ev, E1));
    cbn [left_over]; [|by rewrite run_none..]. rewrite run_notice. unfold mbind, m_bind.
  simpl. by destruct (append_request_event _ _ _ _ _ _) as [s5 []].
Qed.
Lemma refuse_alone k id reason actor s :
  alone (Refuse k id reason actor) s =
  (match k with
   | Reject => reject_request now event_json id reason actor
   | Cancel => cancel_mount_request now event_json id reason actor
   | FailRequest => fail_request now event_json id reason actor
   end s).1.
Proof.
  assert (alone (Refuse k id reason actor) s =
    (set_terminal_request now event_json id (refusal_status k) reason actor s).1) as ->; [|by destruct k].
  unfold set_terminal_request, hm_ensure. replace (mount_is_terminal (refusal_status k)) with true by (by destruct k).
  unfold mbind, m_bind, mresult. destruct (settle_request now id _ _ _ s) as [s1 res] eqn:E1.
  destruct res as [[]| | |]; (erewrite run_call by (cbn [call_step]; unfold mbind, m_bind, mresult, hm_ensure;
    replace (mount_is_terminal (refusal_status k)) with true by (by destruct k); by rewrite E1));
    cbn [left_over]; [|by rewrite run_none..]. by rewrite run_notice.
Qed.
Lemma revoke_alone grant_id actor s : alone (Revoke grant_id actor) s = (revoke now event_json grant_id actor s).1.
Proof.
  unfold revoke. unfold mbind, m_bind. destruct (revoke_locked now grant_id actor s) as [s1 res] eqn:E1.
  destruct res as [[affected|]| | |]; (erewrite run_call by (cbn [call_step]; unfold mbind, m_bind; by rewrite E1));
    cbn [left_over]; [|by rewrite run_none..]. by rewrite run_notice.
Qed.

Lemma tail_ok n x : schedule_ok file_tree now event_json any_call (tail n) x.
Proof.
  revert x. induction n as [|n IH]; intros x; [done|]. change (tail (S n)) with (inr 0%nat :: tail n).
  cbn [schedule_ok]. destruct (x.2 !! 0%nat); apply IH.
Qed.
Lemma alone_runs c s : ∃ ts, rtc (hm_step file_tree now event_json any_call) (s, []) (alone c s, ts).
Proof.
  exists (hm_run file_tree now event_json (inl c :: tail 5) (s, [])).2.
  unfold alone. rewrite <- surjective_pairing. apply run_steps.
  split; [done|]. apply tail_ok.
Qed.

(** The operations, composed as the code composes them, are runs of the step
    relation: what holds of every interleaving holds of them. *)
Theorem operations_are_runs s s' :
  ((∃ id e provenance actor, s' = (approve_export file_tree now event_json id e provenance actor s).1) ∨
   (∃ r, s' = (enqueue now event_json r s).1) ∨
   (∃ id reason actor, s' = (reject_request now event_json id reason actor s).1 ∨
      s' = (cancel_mount_request now event_json id reason actor s).1 ∨ s' = (fail_request now event_json id reason actor s).1) ∨
   (∃ grant_id actor, s' = (revoke now event_json grant_id actor s).1)) →
  ∃ ts, rtc (hm_step file_tree now event_json any_call) (s, []) (s', ts).
Proof.
  intros [(id & e & pr & ac & ->)|[(r & ->)|[(id & re & ac & [->|[->| ->]])|(g & ac & ->)]]].
  - rewrite <- approve_alone. apply alone_runs.
  - rewrite <- enqueue_alone. apply alone_runs.
  - rewrite <- (refuse_alone Reject). apply alone_runs.
  - rewrite <- (refuse_alone Cancel). apply alone_runs.
  - rewrite <- (refuse_alone FailRequest). apply alone_runs.
  - rewrite <- revoke_alone. apply alone_runs.
Qed.

(** ** Tool authority *)

Context {Adapter : Type}.
Context (tool_execution_adapter : list (string * HostMountAccess * Export) → string → option Adapter).
Context (adapter_namespace_cwd : Adapter → string).

Lemma starts_with_chain c p q :
  components_start_with c p = true → components_start_with c q = true →
  components_start_with p q = true ∨ components_start_with q p = true.
Proof.
  revert p q. induction c as [|x c IH]; intros [|a p] [|b q]; simpl; auto; try done.
  intros H1 H2. bool_facts. subst. rewrite !bool_decide_true by done. simpl. auto.
Qed.

Lemma active_projections_spec pid s x :
  x ∈ active_projections pid s ↔
  ∃ id g p i, hm_grants s !! id = Some g ∧ gr_active (g_public g) = true ∧
    list_find (λ p, pj_pid p = pid) (g_projections g) = Some (i, p) ∧ x = (gr_id (g_public g), p, g_export g).
Proof.
  unfold active_projections. rewrite list_elem_of_omap. split.
  - intros ([id g] & Hin & Hx). apply in_order in Hin. unfold active_projection in Hx. simpl in Hx.
    destruct (gr_active (g_public g)) eqn:Ea; [|done]. simpl in Hx. apply fmap_Some in Hx as ([i p] & Hf & ->).
    by exists id, g, p, i.
  - intros (id & g & p & i & Hg & Ha & Hf & ->). exists (id, g). rewrite in_order. split; [done|].
    unfold active_projection. simpl. by rewrite Ha, Hf.
Qed.

Lemma max_by_key_elem {A} (key : A → nat) l x : max_by_key key l = Some x → x ∈ l.
Proof.
  unfold max_by_key. set (f := λ best y, _).
  assert (∀ l best, foldl f best l = Some x → best = Some x ∨ x ∈ l) as H.
  { intros l'. induction l' as [|y l' IH]; intros best; simpl; [by left|].
    intros [H|H]%IH; [|right; by right]. unfold f in H. repeat case_match; simplify_eq; auto; right; by left. }
  intros Hx. by destruct (H l None Hx).
Qed.
Lemma max_by_key_some {A} (key : A → nat) l : l ≠ [] → is_Some (max_by_key key l).
Proof.
  destruct l as [|x l]; [done|]. intros _. unfold max_by_key. simpl. set (f := λ best y, _).
  assert (∀ l b, is_Some (foldl f (Some b) l)) as H by
    (intros l'; induction l' as [|y l' IH]; intros b; simpl; [eauto|]; case_match; apply IH).
  apply H.
Qed.

(** [pid] has the projection [p] of the active grant [id]. *)
Definition holds_active (pid : Z) s (id : string) (p : Projection) : Prop :=
  ∃ g, hm_grants s !! id = Some g ∧ gr_active (g_public g) = true ∧ p ∈ g_projections g ∧ pj_pid p = pid.

Lemma grant_key s ts id g : RI s ts → hm_grants s !! id = Some g → gr_id (g_public g) = id.
Proof.
  intros I Hg. destruct (ri_grant _ _ _ I id (grant_deed g)) as (r & Hr & Hd & _).
  - unfold deeds. by rewrite Hg.
  - pose proof (ri_id _ _ _ I id r Hr). unfold grant_deed, request_deed in Hd. congruence.
Qed.
Lemma same_projection gs ps id (g : Grant Export) p q :
  GInv gs ps → gs !! id = Some g → p ∈ g_projections g → q ∈ g_projections g → pj_pid p = pj_pid q → p = q.
Proof.
  intros I Hg Hp Hq He. pose proof (gi_single _ _ I id g Hg) as Hnd.
  apply list_elem_of_lookup in Hp as [j Hj], Hq as [k Hk].
  assert (j = k) as ->.
  { apply (NoDup_lookup _ _ _ (pj_pid p) Hnd); rewrite list_lookup_fmap, ?Hj, ?Hk; simpl; congruence. }
  congruence.
Qed.
Lemma holds_active_listed pid s ts id p : GI s → RI s ts →
  holds_active pid s id p ↔ ∃ e, (id, p, e) ∈ active_projections pid s.
Proof.
  intros I R. split.
  - intros (g & Hg & Ha & Hp & Hpid). exists (g_export g). apply active_projections_spec.
    destruct (list_find_elem_of (λ p, pj_pid p = pid) (g_projections g) p Hp Hpid) as [[i q] Hf].
    exists id, g, q, i. rewrite (grant_key _ _ _ _ R Hg). split_and!; [done..|]. do 2 f_equal.
    apply list_find_Some in Hf as (Hi & Hq & _). apply list_elem_of_lookup_2 in Hi.
    eapply same_projection; [exact I|exact Hg|done..|congruence].
  - intros (e & (k & g & q & i & Hg & Ha & Hf & [= -> -> ->])%active_projections_spec).
    rewrite (grant_key _ _ _ _ R Hg). exists g. apply list_find_Some in Hf as (Hi & Hq & _).
    apply list_elem_of_lookup_2 in Hi. done.
Qed.

(** At most one projection of a process contains a directory. *)
Lemma containing_unique pid s cwd id1 p1 id2 p2 :
  GI s → holds_active pid s id1 p1 → holds_active pid s id2 p2 →
  path_starts_with cwd (pj_path p1) = true → path_starts_with cwd (pj_path p2) = true → id1 = id2.
Proof.
  intros I (g1 & G1 & A1 & P1 & E1) (g2 & G2 & A2 & P2 & E2) S1 S2.
  destruct (decide (id1 = id2)) as [|Hne]; [done|].
  pose proof (gi_apart _ _ I id1 g1 p1 id2 g2 p2 G1 G2 Hne A1 A2 P1 P2 ltac:(congruence)) as Ho.
  unfold namespace_paths_overlap, namespace_paths_strictly_overlap in Ho.
  destruct (bool_decide (pj_path p1 = pj_path p2)); [done|]. simpl in Ho. bool_facts.
  destruct (starts_with_chain _ _ _ S1 S2); unfold path_starts_with in *; congruence.
Qed.

Lemma selected_grant_spec pid s ts cwd id : GI s → RI s ts →
  selected_grant cwd (active_projections pid s) = Some id ↔
  ∃ p, holds_active pid s id p ∧ path_starts_with cwd (pj_path p) = true.
Proof.
  intros I R. unfold selected_grant. set (l := filter _ _).
  set (key := λ x : string * Projection * Export, length (components (pj_path x.1.2))).
  assert (∀ x, x ∈ l → holds_active pid s x.1.1 x.1.2 ∧ path_starts_with cwd (pj_path x.1.2) = true) as Hl.
  { intros [[k p] e] [Hc Hin]%list_elem_of_filter. split; [|done]. apply (holds_active_listed _ _ ts); eauto. }
  split.
  - intros (x & Hx & ->)%fmap_Some. apply max_by_key_elem, Hl in Hx. eauto.
  - intros (p & Hh & Hc). pose proof Hh as [e He]%(holds_active_listed _ _ ts); [|done..].
    assert ((id, p, e) ∈ l) as Hin by (by apply list_elem_of_filter).
    destruct (max_by_key_some key l) as [x Hx]; [by intros ->; apply elem_of_nil in Hin|].
    rewrite Hx. simpl. f_equal. apply max_by_key_elem, Hl in Hx as [Hhx Hcx].
    by apply (containing_unique pid s cwd _ x.1.2 _ p).
Qed.

(** C12: A tool runs with the authority of the grants its process holds now: when
    [reconcile] succeeds, the binding has an adapter exactly when the process has a
    projection of an active grant; its grant is exactly the active grant of which the
    process has a projection that contains the working directory; and a binding that
    named a grant before still names that one. *)
Theorem reconcile_follows_active_grants ok lives s ts pid b b' :
  hm_reachable file_tree now event_json ok lives (s, ts) →
  reconcile tool_execution_adapter adapter_namespace_cwd pid b s = Ok b' →
  (is_Some (tb_adapter b') ↔ ∃ id p, holds_active pid s id p) ∧
  (∀ id, tb_grant b' = Some id ↔ ∃ p, holds_active pid s id p ∧ path_starts_with (tb_cwd b') (pj_path p) = true) ∧
  (tb_grant b = None ∨ tb_grant b = tb_grant b').
Proof.
  intros Hr Hrec. pose proof (reachable_grants _ _ _ _ _ _ Hr) as I.
  pose proof (reachable_requests _ _ _ _ _ _ Hr) as R. simpl in I, R. unfold reconcile in Hrec.
  set (ps := active_projections pid s) in *.
  assert ((∃ id p, holds_active pid s id p) ↔ ps ≠ []) as Hps.
  { split.
    - intros (id & p & [e He]%(holds_active_listed _ _ ts)); [|done..]. intros E. unfold ps in E.
      rewrite E in He. by apply elem_of_nil in He.
    - destruct ps as [|[[id p] e] l] eqn:E; [done|]. intros _. exists id, p. apply (holds_active_listed _ _ ts); [done..|].
      exists e. fold ps. rewrite E. by left. }
  assert (∃ c, tb_cwd b' = tb_cwd c ∧ tb_grant c = tb_grant b ∧ tb_adapter b' = tb_adapter c ∧
    (is_Some (tb_adapter c) ↔ ps ≠ []) ∧ tb_grant b' = selected_grant (tb_cwd c) ps ∧
    (tb_grant c = None ∨ tb_grant c = tb_grant b')) as (c & Hcwd & Hgc & Hac & Hadp & Hsel & Hold).
  { destruct ps as [|x l] eqn:Eps; simpl in Hrec.
    - case_match eqn:Eg; [|done]. injection Hrec as <-. exists (clear_adapter b). simpl. split_and!; try done.
      destruct (tb_grant b); [right|by left]. by bool_facts.
    - destruct (tool_execution_adapter _ _) as [a|]; [|done]. simpl in Hrec.
      case_match eqn:Eg; [|done]. injection Hrec as <-.
      exists (set_adapter adapter_namespace_cwd a (clear_adapter b)). simpl. split_and!; try done.
      destruct (tb_grant b); [right|by left]. by bool_facts. }
  rewrite Hcwd, Hac, Hsel, <- Hgc. split_and!; [by rewrite Hps| |by rewrite <- Hsel].
  intros id. by apply selected_grant_spec with ts.
Qed.
End theorems.
