(* ===== verification/HostMountView.v ===== *)
(** * The Host Mount view of one process

    Through its view a process sees its own requests and cannot change another's. *)
From S2P Require Import Prelude RustStd ApTypes ApServer Namespace RustText HostMounts HostMountFs HostMountSteps HostMountGrants HostMountRequests HostMountReach HostMountChild HostMountTheorems.

Section view.
Context {Tree Export : Type}.
Context (now : nat → Z) (event_json : HostMountEvent → bytes).
Context (parse_document : bytes → option HostMountRequestDocument).
Context (request_json : HostMountRequest → bytes) (record_json : HostMountGrantRecord → bytes).
Context (hash_key : string → Z) (pid : Z).
Abbreviation V := (HmView Tree Export).
Abbreviation St := (HmState Tree Export).
Implicit Types (v : V) (s : St).

Definition request_of (n : HmNode) : option string :=
  match n with HmRequest id | HmRequestField id _ => Some id | _ => None end.
Definition own_request s (id : string) : Prop :=
  ∃ r, hm_requests s !! id = Some r ∧ hr_pid (rs_request r) = pid.
(** Every fid that is at a request is at one of the process. *)
Definition view_ok v : Prop :=
  ∀ fid f id, view_fids v !! fid = Some f → request_of (hf_node f) = Some id → own_request (view_service v) id.

(** What a request through the view may change *)
Record own_change s s' : Prop := mkOwnChange {
  oc_kept : mount_requests_kept (hm_requests s) (hm_requests s');
  oc_others id r : hm_requests s !! id = Some r → hr_pid (rs_request r) ≠ pid → hm_requests s' !! id = Some r;
  oc_new id r : hm_requests s' !! id = Some r → hm_requests s !! id = None → hr_pid (rs_request r) = pid;
  oc_grants : hm_grants s' = hm_grants s;
  oc_processes : hm_processes s' = hm_processes s;
  oc_lives : hm_lives s' = hm_lives s;
}.
Global Instance own_change_preorder : PreOrder own_change.
Proof.
  split.
  - intros s. constructor; try done. intros id r. congruence.
  - intros s1 s2 s3 [K1 O1 N1 G1 P1 L1] [K2 O2 N2 G2 P2 L2]. constructor; try congruence.
    + by trans (hm_requests s2).
    + intros id r Hr Hp. by apply O2, Hp; apply O1.
    + intros id r Hr Hn. destruct (hm_requests s2 !! id) as [r2|] eqn:E2; [|by apply (N2 id)].
      destruct (K2 id r2 E2) as (r3 & Hr3 & Hq & _). simplify_eq. rewrite Hq. by apply (N1 id).
Qed.
Lemma own_same s s' :
  hm_requests s' = hm_requests s → hm_grants s' = hm_grants s → hm_processes s' = hm_processes s →
  hm_lives s' = hm_lives s → own_change s s'.
Proof. intros Hr. constructor; rewrite ?Hr; try done. intros id r. congruence. Qed.

Definition step_own {A} (m : M St HmError A) : Prop := step_rel own_change m.
Lemma own_modify f : (∀ s, own_change s (f s)) → step_own (mmodify f).
Proof. intros H s. apply H. Qed.

Lemma enqueue_own r : hr_pid r = pid → step_own (enqueue now event_json r).
Proof.
  intros Hp s. unfold enqueue. mrun. destruct (validate_request r); try reflexivity.
  unfold enqueue_locked. mrun.
  set (s1 := if bool_decide (hr_id r = "") then on_next_id (λ n, n + 1) s else s).
  replace ((if bool_decide (hr_id r = "") then λ s0 : St, (on_next_id (λ n, n + 1) s0, Ok tt)
            else λ s0 : St, (s0, Ok tt)) s) with (s1, Ok (E := HmError) tt) by (unfold s1; by case_bool_decide).
  assert (own_change s s1) as H1 by (unfold s1; case_bool_decide; by apply own_same).
  cbv iota beta. set (id := if bool_decide (hr_id r = "") then _ else _).
  destruct (hm_requests s1 !! id) eqn:Er; [done|]. destruct (hm_grants s1 !! id) eqn:Eg; [done|]. simpl.
  trans s1; [done|]. unfold append_request_event. munfold. rewrite lookup_insert_eq. simpl.
  constructor; try done; simpl.
  - by apply kept_new.
  - intros k x Hk _. rewrite lookup_insert_ne; [done|]. congruence.
  - intros k x Hk Hn. apply lookup_insert_Some in Hk as [[<- <-]|[_ Hk]]; [done|congruence].
Qed.
Lemma cancel_own id reason actor s :
  own_request s id → own_change s (cancel_mount_request now event_json id reason actor s).1.
Proof.
  intros (r & Hr & Hp). unfold cancel_mount_request, set_terminal_request, settle_request. mrun. simpl. rewrite Hr.
  unfold hm_ensure. destruct (undecided r) eqn:Eu; [|by simpl; reflexivity]. simpl.
  apply undecided_pending in Eu as [Hs _]. unfold append_request_event. munfold. rewrite lookup_insert_eq. simpl.
  constructor; try done; simpl.
  - by eapply kept_update.
  - intros k x Hk Hne. rewrite lookup_insert_ne; [done|]. intros ->. congruence.
  - intros k x Hk Hn. apply lookup_insert_Some in Hk as [[<- <-]|[_ Hk]]; congruence.
Qed.

(** ** The requests of the protocol *)

Abbreviation server := (HostMountFileServer now event_json parse_document request_json record_json hash_key (Some pid)).
Definition view_rel v v' : Prop := view_ok v → view_ok v' ∧ own_change (view_service v) (view_service v').
Global Instance view_rel_preorder : PreOrder view_rel.
Proof.
  split.
  - intros v Hv. split; [done|reflexivity].
  - intros v1 v2 v3 H12 H23 H1. destruct (H12 H1) as [H2 O1]. destruct (H23 H2) as [H3 O2].
    split; [done|]. by trans (view_service v2).
Qed.

Lemma own_stable s s' id : mount_requests_kept (hm_requests s) (hm_requests s') → own_request s id → own_request s' id.
Proof. intros K (r & Hr & Hp). destruct (K id r Hr) as (r' & Hr' & Hq & _). exists r'. by rewrite Hq. Qed.
Lemma view_ok_service v s' :
  mount_requests_kept (hm_requests (view_service v)) (hm_requests s') → view_ok v → view_ok (mkHmView s' (view_fids v)).
Proof. intros K Hv fid f id Hf Hid. eapply own_stable; [exact K|]. by eapply Hv. Qed.

Lemma child_own s n name n' :
  (∀ id, request_of n = Some id → own_request s id) → hm_child (Some pid) s n name = Ok n' →
  ∀ id, request_of n' = Some id → own_request s id.
Proof.
  intros Hn Hc id Hid. destruct n; simpl in *; repeat (case_match; simplify_eq/=); try (by apply Hn).
  unfold request_is_visible_to in *. destruct (hm_requests s !! id) as [r|] eqn:Er; [|done].
  exists r. split; [done|]. simpl in *. by bool_facts.
Qed.
Lemma walk_names_own s names : ∀ n n',
  (∀ id, request_of n = Some id → own_request s id) → hm_walk_names (Some pid) s n names = Ok n' →
  ∀ id, request_of n' = Some id → own_request s id.
Proof.
  induction names as [|name names IH]; intros n n' Hn; simpl; [by intros [= <-]|].
  destruct (hm_child (Some pid) s n name) as [n1| | |] eqn:Ec; try done.
  apply IH. by apply (child_own _ _ _ _ Hn Ec).
Qed.

(** A change of the fid table that keeps nodes, or adds an own one *)
Lemma view_fids_rel v fids :
  (∀ fid f id, fids !! fid = Some f → request_of (hf_node f) = Some id → view_ok v → own_request (view_service v) id) →
  view_rel v (set_view_fids fids v).
Proof. intros H Hv. split; [|reflexivity]. intros fid f id Hf Hid. by eapply H. Qed.
Lemma view_same_node v fid f f' :
  view_fids v !! fid = Some f → hf_node f' = hf_node f → view_rel v (set_view_fids (<[fid := f']> (view_fids v)) v).
Proof.
  intros Hf Hn. apply view_fids_rel. intros k x id Hk Hid Hv.
  apply lookup_insert_Some in Hk as [[<- <-]|[_ Hk]]; [|by eapply Hv]. rewrite Hn in Hid. by eapply Hv.
Qed.

Lemma walk_view fid newfid names v : view_rel v (hm_walk hash_key (Some pid) fid newfid names v).1.
Proof.
  unfold hm_walk, hm_node_of. mrun. destruct (bool_decide (newfid = ROOT)); [reflexivity|].
  destruct (isSome (view_fids v !! newfid)); [reflexivity|].
  assert (∀ n, (∀ id, request_of n = Some id → view_ok v → own_request (view_service v) id) →
    view_rel v (match hm_walk_names (Some pid) (view_service v) n names with
      | Ok node => set_view_fids (<[newfid := hm_fid_at node]> (view_fids v)) v | _ => v end)) as Hw.
  { intros n Hn. destruct (hm_walk_names (Some pid) (view_service v) n names) as [n'| | |] eqn:Ew; try reflexivity.
    apply view_fids_rel. intros k x id Hk Hid Hv. apply lookup_insert_Some in Hk as [[<- <-]|[_ Hk]]; [|by eapply Hv].
    eapply walk_names_own; [|exact Ew|exact Hid]. intros id' Hid'. by apply Hn. }
  destruct (bool_decide (fid = ROOT)).
  - specialize (Hw HmRoot). destruct (hm_walk_names _ _ _ _); simpl; apply Hw; by intros id.
  - destruct (view_fids v !! fid) as [f|] eqn:Ef; [|reflexivity]. simpl. specialize (Hw (hf_node f)).
    destruct (hm_walk_names _ _ _ _); simpl; apply Hw; intros id Hid Hv; by eapply Hv.
Qed.

Lemma open_view fid mode v : view_rel v (hm_open hash_key (Some pid) fid mode v).1.
Proof.
  unfold hm_open. mrun. destruct (bool_decide (fid = ROOT)); [by destruct (bool_decide (mode = Read))|].
  destruct (view_fids v !! fid) as [f|] eqn:Ef; [|reflexivity]. destruct (isSome (hf_mode f)); [reflexivity|].
  destruct (hm_openable (Some pid) (hf_node f) mode); [|reflexivity]. simpl.
  destruct (bool_decide (hf_node f = HmRequestsClone)); simpl; [|by eapply view_same_node].
  trans (mkHmView (on_next_id (λ n, n + 1) (view_service v)) (view_fids v)).
  - intros Hv. split; [by eapply view_ok_service|by apply own_same].
  - by eapply (view_same_node (mkHmView (on_next_id (λ n, n + 1) (view_service v)) (view_fids v))).
Qed.

Lemma streams_view f g v : view_rel v (mkHmView (on_streams f g (view_service v)) (view_fids v)).
Proof. intros Hv. split; [by eapply view_ok_service|by apply own_same]. Qed.
Lemma request_events_view : step_rel view_rel (open_request_events (Tree := Tree) (Export := Export) (Some pid)).
Proof. intros v. unfold open_request_events. destruct (view_stream _ _) as [es b]. apply streams_view. Qed.
Lemma events_view : step_rel view_rel (open_events (Tree := Tree) (Export := Export) (Some pid)).
Proof. intros v. unfold open_events. destruct (view_stream _ _) as [es b]. apply streams_view. Qed.
Local Hint Resolve request_events_view events_view : alan.

Lemma read_view fid offset count :
  step_rel view_rel (hm_read (Tree := Tree) (Export := Export) request_json record_json (Some pid) fid offset count).
Proof. unfold hm_read. msteps. Qed.
Lemma stat_view fid :
  step_rel view_rel (hm_stat (Tree := Tree) (Export := Export) request_json record_json hash_key (Some pid) fid).
Proof. unfold hm_stat, hm_node_of. msteps. Qed.
Lemma write_view fid offset data v : view_rel v (hm_write fid offset data v).1.
Proof.
  unfold hm_write. mrun. destruct (view_fids v !! fid) as [f|] eqn:Ef; [|reflexivity].
  destruct (opened_for_write (hf_mode f)); [|reflexivity]. simpl.
  destruct (usize_try_from offset) as [start|]; [|reflexivity].
  destruct (checked_add64 start (len data)) as [end_|]; [|reflexivity].
  destruct (write_limit (hf_node f)) as [max|]; [|reflexivity].
  destruct (max <? end_); [reflexivity|]. simpl. by eapply view_same_node.
Qed.

Lemma on_service_own {A} (m : M St ErrorCode A) v :
  own_change (view_service v) (m (view_service v)).1 → view_rel v (on_service m v).1.
Proof.
  intros H Hv. unfold on_service. destruct (m (view_service v)) as [s' r] eqn:E. simpl in *. split; [|done].
  apply view_ok_service; [apply H|done].
Qed.
Lemma commit_view f v :
  (∀ id, request_of (hf_node f) = Some id → own_request (view_service v) id) →
  view_rel v (commit_fid now event_json parse_document (Some pid) f v).1.
Proof.
  intros Hf. unfold commit_fid. destruct (hf_node f) as [| | | |id|id field| |id|id|]; try reflexivity.
  - mrun. destruct (hf_clone f) as [id|]; [|reflexivity]. apply on_service_own.
    unfold commit_mount_request, mmap_err. mrun. destruct (parse_document (hf_buf f)) as [d|]; [|reflexivity].
    destruct (document_label d); try reflexivity.
    set (r := mkHostRequest _ _ _ _ _ _). pose proof (enqueue_own r eq_refl (view_service v)) as H.
    destruct (enqueue now event_json r (view_service v)) as [s' []]; done.
  - destruct field; try reflexivity. mrun. destruct (from_utf8 (hf_buf f)) as [c|]; [|reflexivity].
    destruct (negb _); [reflexivity|]. apply on_service_own. unfold mmap_err.
    pose proof (cancel_own id "cancelled by requesting Process" ("process:" +:+ dec_string_Z pid) (view_service v)
      (Hf id eq_refl)) as H.
    by destruct (cancel_mount_request now event_json id _ _ (view_service v)) as [s' r].
Qed.
Lemma clunk_view fid v : view_rel v (hm_clunk now event_json parse_document (Some pid) fid v).1.
Proof.
  unfold hm_clunk. mrun. destruct (bool_decide (fid = ROOT)); [reflexivity|].
  destruct (view_fids v !! fid) as [f|] eqn:Ef; [|reflexivity].
  set (v1 := set_view_fids (delete fid (view_fids v)) v). intros Hv.
  assert (view_rel v v1) as H1 by (apply view_fids_rel; intros k x id [_ Hk]%lookup_delete_Some Hid _; by eapply Hv).
  destruct (hf_wrote f); [|by apply H1].
  destruct (H1 Hv) as [Hv1 O1]. destruct (commit_view f v1) as [Hv2 O2]; [intros id Hid; by eapply Hv|done|].
  split; [done|]. by trans (view_service v1).
Qed.

Lemma answer_state {A B} (m : M V ErrorCode A) (k : A → B) v : ((m ≫= (λ a, mret (k a))) v).1 = (m v).1.
Proof. unfold mbind, m_bind. by destruct (m v) as [v' []]. Qed.
Lemma request_view req v : view_rel v (transport_call (H := server) req v).1.
Proof.
  destruct req; unfold transport_call; simpl; try rewrite answer_state.
  - apply walk_view. - apply open_view. - apply read_view. - apply write_view. - apply stat_view.
  - reflexivity. - reflexivity. - apply clunk_view.
Qed.

(** The view's requests, between changes others make to the service *)
Inductive view_step : V → V → Prop :=
  | view_request req v : view_step v (transport_call (H := server) req v).1
  | view_others v s' : mount_requests_kept (hm_requests (view_service v)) (hm_requests s') →
      view_step v (mkHmView s' (view_fids v)).

(** C23: Through its view a process sees and changes its own requests only: after any
    requests through the view, interleaved with any changes of the service that keep
    the requests, every fid at a request is at one the process made; and whatever is
    asked next leaves the requests of other processes, the grants, the registered
    processes and the live namespaces as they are, and every request it adds is the
    process's own. *)
Theorem process_view_is_isolated s v req :
  rtc view_step (mkHmView s ∅) v →
  view_ok v ∧ own_change (view_service v) (view_service (transport_call (H := server) req v).1).
Proof.
  intros Hr. assert (view_ok v) as Hv; [|split; [done|by apply (request_view req v)]].
  apply (rtc_ind_r view_ok) with (mkHmView s ∅) v in Hr; [done| |].
  - intros fid f id Hf. simpl in Hf. by rewrite lookup_empty in Hf.
  - intros x y _ Hs Hx. destruct Hs as [req' x|x s' K]; [by apply request_view|by apply view_ok_service].
Qed.
End view.

(** ** A run of the Host Mount service

    One process asks for a directory, it is approved while another request is made,
    the process passes the grant on to a child, and the grant is revoked. The theorems
    are applied to its states. *)


Definition demo_tree (e : nat) : nat := e.
Definition demo_now (_ : nat) : Z := 0.
Definition demo_json (_ : HostMountEvent) : bytes := [].
Abbreviation DemoCall := (HmCall (Tree := nat) (Export := nat)).

Definition demo_request (id path : string) : HostMountRequest :=
  mkHostRequest id "Project" path HostReadWrite "to build" 7.
Definition demo_acts : list (DemoCall + nat) :=
  [inl (Register 7 1); inl (Enqueue (demo_request "request-1" "/mnt/p"));
   inl (Approve "request-1" 5%nat "picker" "user"); inl (Enqueue (demo_request "request-2" "/mnt/q"));
   inr 1%nat; inr 2%nat; inr 2%nat; inr 0%nat; inr 0%nat; inr 0%nat; inr 0%nat; inr 0%nat; inr 0%nat; inr 0%nat].
Definition demo : HmState nat nat * list (Task (Export := nat)) :=
  hm_run demo_tree demo_now demo_json demo_acts (host_mount_new ∅, []).
Definition demo_grant : Grant nat :=
  mkGrant (mkGrantRecord "request-1" "Project" "/mnt/p" HostReadWrite "picker" true) 7 5%nat
    [mkProjection 7 1 "/mnt/p" HostReadWrite].

Lemma demo_any : hm_reachable demo_tree demo_now demo_json any_call ∅ (demo.1, demo.2).
Proof. rewrite <- surjective_pairing. apply run_steps, run_ok_calls. done. Qed.
Lemma demo_reachable : hm_reachable demo_tree demo_now demo_json (callers_ok demo_tree (λ _, False)) ∅ (demo.1, demo.2).
Proof.
  rewrite <- surjective_pairing. apply run_steps, run_ok_calls. intros n c Hn.
  destruct n as [|[|[|[|n]]]]; cbn in Hn; [injection Hn as <-..|].
  - by repeat split.
  - done.
  - split_and!.
    + intros h m Hm. vm_compute in Hm. inversion Hm.
    + intros id g Hg. vm_compute in Hg. discriminate.
    + intros H. vm_compute in H. inversion H.
  - done.
  - apply list_elem_of_lookup_2 in Hn. repeat (apply elem_of_cons in Hn as [?|Hn]; [done|]). by apply elem_of_nil in Hn.
Qed.


(** A child prepares its namespace from its parent's, the parent exits, the child is
    registered: the check for ambient projections finds none of the parent's, so the
    child reaches the grant without a projection, and goes on after it is revoked. *)
Definition demo_orphan : HmState nat nat * list (Task (Export := nat)) :=
  hm_run demo_tree demo_now demo_json
    [inl (Environment 2 (hm_live 1 demo.1).1); inl (Unregister 7); inl (RegisterChild 7 8 2 []);
     inl (Revoke "request-1" "user")] demo.
Example orphan_keeps_revoked_grant :
  hm_processes demo_orphan.1 !! 8 = Some 2 ∧
  resolve "/mnt/p/src" (hm_live 2 demo_orphan.1).1 = Some (mkResolved 5%nat ["src"] AccessReadWrite) ∧
  (λ g, (gr_active (g_public g), g_projections g)) <$> hm_grants demo_orphan.1 !! "request-1" = Some (false, []).
Proof. vm_compute. done. Qed.

(** The first request is refused and revoked after it was approved. *)
Definition demo_after : list (DemoCall + nat) :=
  [inl (Refuse Cancel "request-1" "too late" "user"); inl (Revoke "request-1" "user")].
Definition demo_late : HmState nat nat * list (Task (Export := nat)) :=
  hm_run demo_tree demo_now demo_json demo_after demo.
Definition demo_decided : RequestState :=
  mkRequestState (demo_request "request-1" "/mnt/p") HmApproved true (Some "request-1") None.
Lemma requests_are_decided_once_witness :
  hm_requests demo_late.1 !! "request-1" = Some demo_decided ∧
  (∀ t, t ∈ demo.2 → ∃ new, (task_step demo_tree demo_now demo_json t demo.1).2 = Ok new) ∧
  (∃ g, hm_grants demo.1 !! "request-1" = Some g ∧
        grant_deed g = request_deed (demo_request "request-1" "/mnt/p")).
Proof.
  destruct (requests_are_decided_once demo_tree demo_now demo_json any_call ∅ demo.1 demo.2 demo_late.1 demo_late.2)
    as (H1 & H2 & H3 & _).
  - apply demo_any.
  - rewrite <- !surjective_pairing. apply run_steps, run_ok_calls. intros. exact I.
  - split; [|split].
    + apply H1; [vm_compute; reflexivity|discriminate].
    + exact H2.
    + apply (H3 "request-1" demo_decided); [vm_compute; reflexivity|reflexivity].
Defined.

(** Both requests approved: two projections of one process *)
Definition demo_both : HmState nat nat * list (Task (Export := nat)) :=
  hm_run demo_tree demo_now demo_json
    (demo_acts ++ [inl (Approve "request-2" 6%nat "picker" "user"); inr 0%nat; inr 0%nat; inr 0%nat; inr 0%nat; inr 0%nat])
    (host_mount_new ∅, []).
Definition demo_grant_q : Grant nat :=
  mkGrant (mkGrantRecord "request-2" "Project" "/mnt/q" HostReadWrite "picker" true) 7 6%nat
    [mkProjection 7 1 "/mnt/q" HostReadWrite].
Lemma demo_both_any : hm_reachable demo_tree demo_now demo_json any_call ∅ (demo_both.1, demo_both.2).
Proof. rewrite <- surjective_pairing. apply run_steps, run_ok_calls. done. Qed.
Lemma projections_stay_apart_witness :
  NoDup (pj_pid <$> g_projections demo_grant) ∧ "/mnt/p" ≠ "/mnt/q" ∧ path_starts_with "/mnt/p" "/mnt/q" = false.
Proof.
  destruct (projections_stay_apart demo_tree demo_now demo_json any_call ∅ demo_both.1 demo_both.2 demo_both_any)
    as [H1 H2].
  destruct (H2 "request-1" demo_grant (mkProjection 7 1 "/mnt/p" HostReadWrite)
               "request-2" demo_grant_q (mkProjection 7 1 "/mnt/q" HostReadWrite)) as (H3 & H4 & _);
    try (vm_compute; reflexivity); try discriminate; try (apply list_elem_of_singleton; reflexivity).
  split; [|exact (conj H3 H4)].
  destruct (H1 "request-1" demo_grant) as [H5 _]; [vm_compute; reflexivity|exact H5].
Defined.

Definition demo_binding : ToolExecutionBinding string := mkBinding "/mnt/p/src" None "/tmp" None.
Definition demo_bound : ToolExecutionBinding string :=
  mkBinding "/mnt/p/src" (Some "request-1") "/tmp" (Some "/mnt/p/src").
Lemma reconcile_follows_active_grants_witness :
  (∃ id p, holds_active 7 demo_both.1 id p) ∧
  ∃ p, holds_active 7 demo_both.1 "request-1" p ∧ path_starts_with "/mnt/p/src" (pj_path p) = true.
Proof.
  destruct (reconcile_follows_active_grants demo_tree demo_now demo_json (λ _ cwd, Some cwd) id any_call ∅
    demo_both.1 demo_both.2 7 demo_binding demo_bound demo_both_any) as (H1 & H2 & _); [vm_compute; reflexivity|].
  split; [apply H1; eexists; reflexivity|apply (H2 "request-1"); reflexivity].
Defined.

Definition demo_select : SpawnHostMount := mkSpawnMount "request-1" "/mnt/in" SpawnReadOnly.
Lemma child_gets_what_was_delegated_witness :
  resolve "/mnt/in"
    (hm_live 2 (register_child_process demo_tree demo_now 7 9 2 [demo_select] demo.1).1).1 =
  Some (mkResolved 5%nat [] AccessReadOnly).
Proof.
  destruct (child_gets_what_was_delegated demo_tree demo_now 7 9 2 [demo_select] demo.1
    (register_child_process demo_tree demo_now 7 9 2 [demo_select] demo.1).1) as (_ & H & _).
  - vm_compute. reflexivity.
  - destruct (H demo_select) as (g & held & Hg & _ & _ & _ & _ & _ & Hr); [apply list_elem_of_singleton; reflexivity|].
    assert (g = demo_grant) as -> by (vm_compute in Hg; injection Hg as <-; reflexivity). exact Hr.
Defined.

(** ** The view of process 7 *)

Definition demo_hash (_ : string) : Z := 0.
Definition demo_text (_ : HostMountRequest) : bytes := [].
Definition demo_record (_ : HostMountGrantRecord) : bytes := [].
Definition demo_parse (b : bytes) : option HostMountRequestDocument :=
  Some (mkHostDocument "/mnt/r" HostReadOnly (of_bytes b) None).
Abbreviation demo_server :=
  (HostMountFileServer (Tree := nat) (Export := nat) demo_now demo_json demo_parse demo_text demo_record demo_hash (Some 7)).
Definition demo_view : HmView nat nat :=
  (transport_call (H := demo_server) (WalkReq ROOT 3 ["requests"; "request-2"; "status"]) (mkHmView demo.1 ∅)).1.
Lemma process_view_is_isolated_witness :
  view_ok 7 demo_view ∧
  own_change 7 (view_service demo_view)
    (view_service (transport_call (H := demo_server) (OpenReq 3 Write) demo_view).1).
Proof.
  apply (process_view_is_isolated demo_now demo_json demo_parse demo_text demo_record demo_hash 7 demo.1 demo_view
    (OpenReq 3 Write)).
  apply rtc_once. apply view_request.
Defined.

(** ** Behaviour worth knowing *)

(** A name that is no visible grant falls through to the arm for files. *)
Example unknown_grant_not_directory :
  hm_child (Some 7) demo.1 HmGrants "nothing" = Err NotDirectory ∧
  hm_child (Some 7) demo.1 HmRequests "nothing" = Err NotFound.
Proof. vm_compute. done. Qed.
(** The path is used up by a pending mount only at approval: two pending requests of a
    process for nested paths are both queued, and the second approval fails. *)
Example nested_request_fails_at_approval :
  let s1 := (enqueue demo_now demo_json (demo_request "request-3" "/mnt/p/sub") demo.1).1 in
  let '(s2, r) := approve_export demo_tree demo_now demo_json "request-3" 8%nat "picker" "user" s1 in
  r = Err PathOverlaps ∧ rs_status <$> hm_requests s2 !! "request-3" = Some HmFailed ∧
  hm_grants s2 !! "request-3" = None.
Proof. vm_compute. done. Qed.
