(* ===== verification/LlmProviders.v ===== *)
(** * Providers, requests and documents of the model server
      (crates/llmfs/src/provider_catalog.rs, request_wire.rs and the values of
      crates/llm they work on)

    What is known of each provider, the documents that describe providers and
    connections, and the request documents callers write. The derived parser of
    request documents is a parameter of the server; an [f32] is its bits. *)
From S2P Require Import Prelude RustStd RustText Tape Protocol.

(** ** JSON documents *)

(** [json!] objects: a [serde_json::Map] keeps its keys in order. *)
Definition key_le (a b : string * Json) : Prop := String.le a.1 b.1.
Global Instance key_le_dec : RelDecision key_le := λ a b, decide (String.le a.1 b.1).
Definition json_map (fields : list (string * Json)) : Json := JObject (merge_sort key_le fields).
Definition json_int (z : Z) : Json := JNumber (dec_string_Z z).
Definition json_opt {A} (f : A → Json) (o : option A) : Json := from_option f JNull o.

(** [serde_json::to_string] and the documents made with it *)
Class JsonText : Type := json_text : Json → string.
Definition render_json_doc `{JsonText} (value : Json) : string := json_text value +:+ String "010" "".

(** ** Capabilities (llm/src/model.rs, factory.rs) *)

Inductive CompatibilityTier : Set :=
  TierAFullFidelityStateful | TierBFullFidelityStateless | TierCBestEffortCompatible.
Inductive InstructionRole : Set :=
  ResponsesInstructions | DeveloperRole | SystemRole | AnthropicSystem.

Record ProviderCapabilities : Set := mkCapabilities {
  supports_streaming_text : bool;
  supports_streaming_tool_calls : bool;
  supports_provider_response_id : bool;
  supports_provider_response_status : bool;
  supports_reasoning_text : bool;
  supports_reasoning_signature : bool;
  supports_reasoning_effort_control : bool;
  supports_redacted_thinking : bool;
  supports_multimodal_input : bool;
  supports_document_input : bool;
  supports_cached_token_usage : bool;
  supports_server_managed_continuation : bool;
  supports_background_execution : bool;
  supports_retrieve_cancel : bool;
  supports_provider_compaction : bool;
  instruction_role : InstructionRole;
  compatibility_tier : CompatibilityTier;
}.

Definition tier_name (t : CompatibilityTier) : string :=
  match t with
  | TierAFullFidelityStateful => "TierAFullFidelityStateful"
  | TierBFullFidelityStateless => "TierBFullFidelityStateless"
  | TierCBestEffortCompatible => "TierCBestEffortCompatible"
  end.
Definition instruction_role_name (r : InstructionRole) : string :=
  match r with
  | ResponsesInstructions => "ResponsesInstructions" | DeveloperRole => "Developer"
  | SystemRole => "System" | AnthropicSystem => "AnthropicSystem"
  end.
Definition capabilities_json (c : ProviderCapabilities) : Json :=
  json_map
    [("supports_streaming_text", JBool (supports_streaming_text c));
     ("supports_streaming_tool_calls", JBool (supports_streaming_tool_calls c));
     ("supports_provider_response_id", JBool (supports_provider_response_id c));
     ("supports_provider_response_status", JBool (supports_provider_response_status c));
     ("supports_reasoning_text", JBool (supports_reasoning_text c));
     ("supports_reasoning_signature", JBool (supports_reasoning_signature c));
     ("supports_reasoning_effort_control", JBool (supports_reasoning_effort_control c));
     ("supports_redacted_thinking", JBool (supports_redacted_thinking c));
     ("supports_multimodal_input", JBool (supports_multimodal_input c));
     ("supports_document_input", JBool (supports_document_input c));
     ("supports_cached_token_usage", JBool (supports_cached_token_usage c));
     ("supports_server_managed_continuation", JBool (supports_server_managed_continuation c));
     ("supports_background_execution", JBool (supports_background_execution c));
     ("supports_retrieve_cancel", JBool (supports_retrieve_cancel c));
     ("supports_provider_compaction", JBool (supports_provider_compaction c));
     ("instruction_role", JString (instruction_role_name (instruction_role c)));
     ("compatibility_tier", JString (tier_name (compatibility_tier c)))].

Inductive ProviderType : Set :=
  | GoogleGeminiGenerateContent | ChatgptResponses | OpenAiResponses | OpenAiChatCompletions
  | OpenAiChatCompletionsCompatible | OpenRouter | AnthropicMessages | TypesafeEvaluation.

(** [ProviderType::capabilities] *)
Definition type_capabilities (t : ProviderType) : ProviderCapabilities :=
  match t with
  | GoogleGeminiGenerateContent =>
      mkCapabilities true false false false false false true false false false false false
        false false false SystemRole TierCBestEffortCompatible
  | ChatgptResponses =>
      mkCapabilities true true true true true true true false false false true false
        false false false ResponsesInstructions TierCBestEffortCompatible
  | OpenAiResponses =>
      mkCapabilities true true true true true true true false true true true true
        true true true ResponsesInstructions TierAFullFidelityStateful
  | OpenAiChatCompletions =>
      mkCapabilities true true true false true false true false true true true false
        false false false DeveloperRole TierBFullFidelityStateless
  | OpenAiChatCompletionsCompatible =>
      mkCapabilities true true false false false false true false false false false false
        false false false SystemRole TierCBestEffortCompatible
  | OpenRouter =>
      mkCapabilities true true true false true true true false false false false false
        false false false SystemRole TierCBestEffortCompatible
  | TypesafeEvaluation =>
      mkCapabilities false false false false false false false false false false false false
        false false false SystemRole TierCBestEffortCompatible
  | AnthropicMessages =>
      mkCapabilities true true true false true true true true true true true false
        false false false AnthropicSystem TierBFullFidelityStateless
  end.

(** ** provider_catalog.rs *)

Definition known_provider_names : list string :=
  merge_sort String.le
    ["anthropic_messages"; "chatgpt"; "google_gemini_generate_content";
     "openai_chat_completions"; "openai_chat_completions_compatible"; "openai_responses";
     "openrouter"; "typesafe"].

Definition provider_type_for_name (name : string) : option ProviderType :=
  if bool_decide (name = "google_gemini_generate_content") then Some GoogleGeminiGenerateContent
  else if bool_decide (name = "chatgpt") then Some ChatgptResponses
  else if bool_decide (name = "mock") then Some OpenAiResponses
  else if bool_decide (name = "openai_responses") then Some OpenAiResponses
  else if bool_decide (name = "openai_chat_completions") then Some OpenAiChatCompletions
  else if bool_decide (name = "openai_chat_completions_compatible") then
    Some OpenAiChatCompletionsCompatible
  else if bool_decide (name = "openrouter") then Some OpenRouter
  else if bool_decide (name = "typesafe") then Some TypesafeEvaluation
  else if bool_decide (name = "anthropic_messages") then Some AnthropicMessages
  else None.
Definition is_known_provider (name : string) : bool := isSome (provider_type_for_name name).

Definition unknown_provider_capabilities : ProviderCapabilities :=
  mkCapabilities true false false false false false false false false false false false
    false false false SystemRole TierCBestEffortCompatible.
Definition provider_capabilities_for_name (name : string) : ProviderCapabilities :=
  match provider_type_for_name name with
  | Some t => type_capabilities t
  | None => unknown_provider_capabilities
  end.

Record ProviderModel : Set := mkProviderModel {
  pm_slug : string; pm_family : string; pm_context_window_tokens : Z; pm_supports_reasoning : bool;
}.
Record ProviderModelCatalog : Set := mkCatalog {
  pc_default_model : string; pc_source : string; pc_models : list ProviderModel;
}.

Definition OPENAI_GPT_MODELS : list ProviderModel :=
  [mkProviderModel "gpt-5.4" "gpt-5" 1050000 true;
   mkProviderModel "gpt-5.4-pro" "gpt-5" 1050000 true;
   mkProviderModel "gpt-5.2" "gpt-5" 400000 true;
   mkProviderModel "gpt-5.2-pro" "gpt-5" 400000 true;
   mkProviderModel "gpt-5.1" "gpt-5" 400000 true;
   mkProviderModel "gpt-5-mini" "gpt-5" 400000 true;
   mkProviderModel "gpt-5-nano" "gpt-5" 400000 true;
   mkProviderModel "gpt-oss-120b" "gpt-oss" 131072 true;
   mkProviderModel "gpt-oss-20b" "gpt-oss" 131072 true].
Definition OPENAI_COMPATIBLE_MODELS : list ProviderModel :=
  [mkProviderModel "qwen3.5-plus" "qwen3.5" 1000000 true;
   mkProviderModel "minimax-m2.5" "minimax-m2.5" 204800 true;
   mkProviderModel "minimax-m2.5-highspeed" "minimax-m2.5" 204800 true;
   mkProviderModel "glm-5" "glm-5" 200000 true;
   mkProviderModel "kimi-k2.5" "kimi-k2.5" 250000 true;
   mkProviderModel "deepseek-chat" "deepseek-v3" 128000 false;
   mkProviderModel "deepseek-reasoner" "deepseek-r1" 128000 true].
Definition CHATGPT_MODELS : list ProviderModel :=
  [mkProviderModel "gpt-5.3-codex" "gpt-5-codex" 400000 true].
Definition GEMINI_MODELS : list ProviderModel :=
  [mkProviderModel "gemini-2.0-flash" "gemini-2.0" 1048576 false].
Definition ANTHROPIC_MODELS : list ProviderModel :=
  [mkProviderModel "claude-3-5-sonnet-latest" "claude-3.5-sonnet" 200000 false].
Definition OPENROUTER_MODELS : list ProviderModel :=
  [mkProviderModel "moonshotai/kimi-k2.6" "kimi-k2.6" 256000 true].

Definition provider_model_catalog (provider : string) : option ProviderModelCatalog :=
  if bool_decide (provider = "openai_responses") then
    Some (mkCatalog "gpt-5.4" "bundled-openai-responses" OPENAI_GPT_MODELS)
  else if bool_decide (provider = "openai_chat_completions") then
    Some (mkCatalog "gpt-5.4" "bundled-openai-chat-completions" OPENAI_GPT_MODELS)
  else if bool_decide (provider = "openai_chat_completions_compatible") then
    Some (mkCatalog "qwen3.5-plus" "bundled-openai-compatible" OPENAI_COMPATIBLE_MODELS)
  else if bool_decide (provider = "chatgpt") then
    Some (mkCatalog "gpt-5.3-codex" "bundled-chatgpt" CHATGPT_MODELS)
  else if bool_decide (provider = "google_gemini_generate_content") then
    Some (mkCatalog "gemini-2.0-flash" "bundled-gemini" GEMINI_MODELS)
  else if bool_decide (provider = "anthropic_messages") then
    Some (mkCatalog "claude-3-5-sonnet-latest" "bundled-anthropic" ANTHROPIC_MODELS)
  else if bool_decide (provider = "openrouter") then
    Some (mkCatalog "moonshotai/kimi-k2.6" "bundled-openrouter" OPENROUTER_MODELS)
  else None.

Section docs.
Context `{JsonText}.

Definition provider_capabilities_doc (provider : string) (capabilities : ProviderCapabilities) : string :=
  let generation := negb (bool_decide (provider = "typesafe")) in
  render_json_doc (json_map
    [("version", json_int 1);
     ("provider", JString provider);
     ("capabilities", if generation then capabilities_json capabilities else JNull);
     ("generation", JBool generation);
     ("evaluation", json_map [("choice_v1", JBool (bool_decide (provider = "typesafe")))])]).

Definition connection_capabilities_doc (connection provider : string)
    (capabilities : ProviderCapabilities) (choice_evaluation generation : bool) : string :=
  render_json_doc (json_map
    [("version", json_int 1);
     ("connection", JString connection);
     ("provider", JString provider);
     ("capabilities", if generation then capabilities_json capabilities else JNull);
     ("evaluation", json_map [("choice_v1", JBool choice_evaluation)]);
     ("generation", JBool generation)]).

Definition connection_profile_doc (connection provider : string)
    (model credential_ref : option string) : string :=
  render_json_doc (json_map
    [("version", json_int 1);
     ("connection", JString connection);
     ("provider", JString provider);
     ("model", json_opt JString model);
     ("credential_ref", json_opt JString credential_ref)]).

Definition model_json (m : ProviderModel) : Json :=
  json_map
    [("slug", JString (pm_slug m));
     ("family", JString (pm_family m));
     ("context_window_tokens", json_int (pm_context_window_tokens m));
     ("supports_reasoning", JBool (pm_supports_reasoning m))].
Definition provider_models_doc (provider : string) : string :=
  let catalog := provider_model_catalog provider in
  render_json_doc (json_map
    [("version", json_int 1);
     ("provider", JString provider);
     ("source", JString (from_option pc_source "unknown" catalog));
     ("default_model", json_opt JString (pc_default_model <$> catalog));
     ("models", JArray (from_option (λ c, model_json <$> pc_models c) [] catalog))]).

Definition provider_status_doc (provider : string) : string :=
  render_json_doc (json_map
    [("version", json_int 1);
     ("provider", JString provider);
     ("status", JString "available");
     ("callable", JBool false);
     ("has_model_catalog", JBool (isSome (provider_model_catalog provider)))]).
End docs.

(** ** Messages and requests (llm/src/message.rs, model.rs) *)

Inductive LlmRole : Set := LSystem | LUser | LAssistant | LTool | LContext.
Inductive MessageContentPart : Type :=
  | MText (text : string)
  | MAttachment (hash mime_type : string) (metadata : Json)
  | MStructured (data : Json).
Record LlmToolDefinition : Type := mkToolDefinition {
  td_name : string; td_description : string; td_parameters : Json;
}.
Record LlmToolCall : Type := mkToolCall {
  tc_id : option string; tc_name : string; tc_arguments : Json;
}.
Record LlmMessage : Type := mkLlmMessage {
  lm_role : LlmRole;
  lm_content : string;
  lm_content_parts : list MessageContentPart;
  lm_thinking : option string;
  lm_thinking_signature : option string;
  lm_redacted_thinking : option (list string);
  lm_tool_calls : option (list LlmToolCall);
  lm_tool_call_id : option string;
}.
Record GenerationRequest : Type := mkGenerationRequest {
  gr_system_prompt : option string;
  gr_messages : list LlmMessage;
  gr_tools : list LlmToolDefinition;
  gr_temperature : option Z;
  gr_max_tokens : option Z;
  gr_reasoning_effort : option ReasoningEffort;
  gr_extra_params : gmap string Json;
}.

(** ** request_wire.rs *)

Inductive WireMessageRole : Set := WSystem | WUser | WAssistant | WTool | WContext.
Inductive WireMessageContentPart : Type :=
  | WText (text : string)
  | WAttachment (hash mime_type : string) (metadata : Json)
  | WStructured (data : Json).
Record WireToolDefinition : Type := mkWireToolDefinition {
  wd_name : string; wd_description : string; wd_parameters : Json;
}.
Record WireToolCall : Type := mkWireToolCall {
  wt_id : option string; wt_name : string; wt_arguments : Json;
}.
Record WireMessage : Type := mkWireMessage {
  wm_role : WireMessageRole;
  wm_content : string;
  wm_content_parts : list WireMessageContentPart;
  wm_thinking : option string;
  wm_thinking_signature : option string;
  wm_redacted_thinking : option (list string);
  wm_tool_calls : option (list WireToolCall);
  wm_tool_call_id : option string;
}.
Record WireReasoningControls : Type := mkWireReasoning { wr_effort : option ReasoningEffort }.
Record WireRequestDocV2 : Type := mkWireRequest {
  wq_version : Z;
  wq_system : option string;
  wq_messages : list WireMessage;
  wq_tools : list WireToolDefinition;
  wq_temperature : option Z;
  wq_max_tokens : option Z;
  wq_reasoning : WireReasoningControls;
  wq_extra_params : gmap string Json;
}.

Definition content_part_from (p : WireMessageContentPart) : MessageContentPart :=
  match p with
  | WText text => MText text
  | WAttachment hash mime_type metadata => MAttachment hash mime_type metadata
  | WStructured data => MStructured data
  end.
Definition role_from (r : WireMessageRole) : LlmRole :=
  match r with
  | WSystem => LSystem | WUser => LUser | WAssistant => LAssistant | WTool => LTool
  | WContext => LContext
  end.
Definition tool_definition_from (d : WireToolDefinition) : LlmToolDefinition :=
  mkToolDefinition (wd_name d) (wd_description d) (wd_parameters d).
Definition tool_call_from (c : WireToolCall) : LlmToolCall :=
  mkToolCall (wt_id c) (wt_name c) (wt_arguments c).
Definition message_from (m : WireMessage) : LlmMessage :=
  mkLlmMessage (role_from (wm_role m)) (wm_content m) (content_part_from <$> wm_content_parts m)
    (wm_thinking m) (wm_thinking_signature m) (wm_redacted_thinking m)
    (option_map (map tool_call_from) (wm_tool_calls m)) (wm_tool_call_id m).

Definition part_supported (capabilities : ProviderCapabilities) (p : MessageContentPart) : bool :=
  match p with
  | MAttachment _ mime_type _ =>
      if starts_with "image/" mime_type then supports_multimodal_input capabilities
      else supports_document_input capabilities
  | MText _ | MStructured _ => true
  end.
(** The loop over the parts stops at the first one that is not supported. *)
Definition validate_rich_content (request : GenerationRequest) (capabilities : ProviderCapabilities) : bool :=
  forallb (part_supported capabilities) (gr_messages request ≫= lm_content_parts).

Definition into_generation_request (doc : WireRequestDocV2) (capabilities : ProviderCapabilities) :
    option GenerationRequest :=
  if negb (wq_version doc =? 2) || bool_decide (length (wq_messages doc) = 0%nat) then None
  else
    let request := mkGenerationRequest (wq_system doc) (message_from <$> wq_messages doc)
      (tool_definition_from <$> wq_tools doc) (wq_temperature doc) (wq_max_tokens doc)
      (wr_effort (wq_reasoning doc)) (wq_extra_params doc) in
    if validate_rich_content request capabilities then Some request else None.

(** ** Finite choices (llm/src/evaluation.rs, llmfs/src/generation/evaluation.rs) *)

Record EvaluationCandidate : Set := mkCandidate { ec_id : string; ec_description : string }.
Record ChoiceEvaluationRequest : Type := mkChoiceRequest {
  cr_input : string; cr_candidates : list EvaluationCandidate;
}.
Inductive EvaluationSelection : Set := Selected (id : string) | NoMatch.

Definition str_len (s : string) : Z := len (into_bytes s).
Definition candidate_id_byte (b : byte) : bool :=
  let n := Z.of_N (Byte.to_N b) in
  (((48 <=? n) && (n <=? 57)) || ((65 <=? n) && (n <=? 90)) || ((97 <=? n) && (n <=? 122)))
  || bool_decide (b ∈ into_bytes "._-").
(** The loop of [validate]: the identifiers seen and the bytes counted *)
Fixpoint validate_candidates (ids : gset string) (count : Z) (l : list EvaluationCandidate) : option Z :=
  match l with
  | [] => Some count
  | c :: l' =>
      if bool_decide (ec_id c = "") || (128 <? str_len (ec_id c))
         || negb (forallb candidate_id_byte (into_bytes (ec_id c))) || bool_decide (ec_id c ∈ ids)
      then None
      else validate_candidates ({[ec_id c]} ∪ ids)
             (saturating_add64 (saturating_add64 count (str_len (ec_id c))) (str_len (ec_description c))) l'
  end.
Definition choice_request_valid (r : ChoiceEvaluationRequest) : bool :=
  if bool_decide (cr_candidates r = []) || (64 <? Z.of_nat (length (cr_candidates r))) then false
  else match validate_candidates ∅ (str_len (cr_input r)) (cr_candidates r) with
       | Some count => negb (Z.shiftl 1 20 <? count)
       | None => false
       end.
Definition validate_selection (r : ChoiceEvaluationRequest) (s : EvaluationSelection) : bool :=
  choice_request_valid r &&
  match s with
  | Selected id => existsb (λ c, bool_decide (ec_id c = id)) (cr_candidates r)
  | NoMatch => true
  end.

(** [Request] of evaluation.rs *)
Record ChoiceDoc : Type := mkChoiceDoc {
  cd_version : Z; cd_schema : string; cd_input : string;
  cd_candidates : list EvaluationCandidate; cd_deadline_ms : Z;
}.
Definition choice_doc_validate (d : ChoiceDoc) : option (ChoiceEvaluationRequest * Z) :=
  if negb (cd_version d =? 1) || negb (bool_decide (cd_schema d = "choice.v1"))
     || negb ((1 <=? cd_deadline_ms d) && (cd_deadline_ms d <=? 30000))
  then None
  else
    let request := mkChoiceRequest (cd_input d) (cd_candidates d) in
    if choice_request_valid request then Some (request, cd_deadline_ms d) else None.

(** ** Finish reasons (llm/src/failure.rs) *)

Definition safe_reasons : list string :=
  ["stop"; "end_turn"; "tool_calls"; "tool_use"; "length"; "max_tokens"; "stop_sequence";
   "completed"; "content_filter"; "STOP"; "MAX_TOKENS"; "stream_error:authentication";
   "stream_error:rate_limit"; "stream_error:unavailable"; "stream_error:timeout";
   "stream_error:connect"; "stream_error:body"; "stream_error:parse"; "stream_error:http"].
Definition safe_finish_reason (reason : string) : string :=
  if bool_decide (reason ∈ safe_reasons) then reason
  else if bool_decide (reason ∈ ["refusal"; "stream_error:safety"; "stream_error:prompt_blocked:safety"]) then
    "stream_error:safety"
  else if bool_decide (reason ∈ ["stream_error:recitation"; "stream_error:prompt_blocked:recitation"]) then
    "stream_error:recitation"
  else if bool_decide (reason ∈ ["stream_error:closed"; "stream_closed"]) then "stream_error:closed"
  else if bool_decide (reason = "stream_error") then "stream_error"
  else "stream_error:unknown".
