(* ===== verification/LlmGen.v ===== *)
(** * Connections and generations of the model server
      (crates/llmfs/src/generation.rs, generation/evaluation.rs)

    A generation is shared by the calls that commit and abort it and by the task
    that drains its provider. Each of them is a [LlmTask]; [llm_task_step] is what one of
    them does between two points where another can run: the sections under the
    status mutex, an append to the stream, a poll of a [select!], waiting for and
    releasing the [finalize] lock. What the provider does is the [Input] of a step. *)
From S2P Require Import Prelude RustStd ApTypes RustText Tape Protocol LlmProviders.

(** ** Stream values (llm/src/model.rs) *)

Record TokenUsage : Set := mkUsage {
  tu_prompt_tokens : Z;
  tu_cached_prompt_tokens : option Z;
  tu_completion_tokens : Z;
  tu_total_tokens : Z;
  tu_reasoning_tokens : option Z;
}.
Record ToolCallDelta : Set := mkToolCallDelta {
  tcd_index : Z;
  tcd_id : option string;
  tcd_name : option string;
  tcd_arguments_delta : option string;
  tcd_arguments : option string;
}.
Record StreamChunk : Set := mkChunk {
  ck_text : option string;
  ck_thinking : option string;
  ck_thinking_signature : option string;
  ck_redacted_thinking : option string;
  ck_usage : option TokenUsage;
  ck_provider_response_id : option string;
  ck_provider_response_status : option string;
  ck_sequence_number : option Z;
  ck_tool_call_delta : option ToolCallDelta;
  ck_is_finished : bool;
  ck_finish_reason : option string;
}.

(** ** The records of the event stream *)

Record WireStreamEventV1 : Set := mkEvent {
  ev_version : Z;
  ev_done : option bool;
  ev_error : option string;
  ev_rejected : option bool;
  ev_aborted : option bool;
  ev_text : option string;
  ev_thinking : option string;
  ev_thinking_signature : option string;
  ev_redacted_thinking : option string;
  ev_finish_reason : option string;
  ev_provider_response_id : option string;
  ev_provider_response_status : option string;
  ev_sequence_number : option Z;
  ev_usage : option TokenUsage;
  ev_tool_call : option ToolCallDelta;
}.
Definition outcome_event (done : option bool) (error : option string) (rejected aborted : option bool) :
    WireStreamEventV1 :=
  mkEvent 1 done error rejected aborted None None None None None None None None None None.
Definition event_empty : WireStreamEventV1 := outcome_event None None None None.
Definition event_done : WireStreamEventV1 := outcome_event (Some true) None None None.
Definition event_error (message : string) : WireStreamEventV1 := outcome_event None (Some message) None None.
Definition event_rejected : WireStreamEventV1 := outcome_event None None (Some true) None.
Definition event_aborted : WireStreamEventV1 := outcome_event None None None (Some true).
Definition has_payload (e : WireStreamEventV1) : bool :=
  isSome (ev_done e) || isSome (ev_error e) || isSome (ev_rejected e) || isSome (ev_aborted e)
  || isSome (ev_text e) || isSome (ev_thinking e) || isSome (ev_thinking_signature e)
  || isSome (ev_redacted_thinking e) || isSome (ev_finish_reason e)
  || isSome (ev_provider_response_id e) || isSome (ev_provider_response_status e)
  || isSome (ev_sequence_number e) || isSome (ev_usage e) || isSome (ev_tool_call e).

(** A field that is skipped when it is [None] *)
Definition optional_field {A} (key : string) (f : A → Json) (o : option A) : list (string * Json) :=
  match o with Some a => [(key, f a)] | None => [] end.
(** The serialised structs: the fields in the order they are declared *)
Definition usage_fields (u : TokenUsage) : list (string * Json) :=
  [("prompt_tokens", json_int (tu_prompt_tokens u))]
  ++ optional_field "cached_prompt_tokens" json_int (tu_cached_prompt_tokens u)
  ++ [("completion_tokens", json_int (tu_completion_tokens u));
      ("total_tokens", json_int (tu_total_tokens u))]
  ++ optional_field "reasoning_tokens" json_int (tu_reasoning_tokens u).
Definition tool_call_fields (d : ToolCallDelta) : list (string * Json) :=
  [("index", json_int (tcd_index d))]
  ++ optional_field "id" JString (tcd_id d)
  ++ optional_field "name" JString (tcd_name d)
  ++ optional_field "arguments_delta" JString (tcd_arguments_delta d)
  ++ optional_field "arguments" JString (tcd_arguments d).
Definition wire_event_json (e : WireStreamEventV1) : Json :=
  JObject ([("version", json_int (ev_version e))]
    ++ optional_field "done" JBool (ev_done e)
    ++ optional_field "error" JString (ev_error e)
    ++ optional_field "rejected" JBool (ev_rejected e)
    ++ optional_field "aborted" JBool (ev_aborted e)
    ++ optional_field "text" JString (ev_text e)
    ++ optional_field "thinking" JString (ev_thinking e)
    ++ optional_field "thinking_signature" JString (ev_thinking_signature e)
    ++ optional_field "redacted_thinking" JString (ev_redacted_thinking e)
    ++ optional_field "finish_reason" JString (ev_finish_reason e)
    ++ optional_field "provider_response_id" JString (ev_provider_response_id e)
    ++ optional_field "provider_response_status" JString (ev_provider_response_status e)
    ++ optional_field "sequence_number" json_int (ev_sequence_number e)
    ++ optional_field "usage" (λ u, JObject (usage_fields u)) (ev_usage e)
    ++ optional_field "tool_call" (λ d, JObject (tool_call_fields d)) (ev_tool_call e)).

(** [chunk_record] before it is printed *)
Definition chunk_event (c : StreamChunk) : WireStreamEventV1 :=
  mkEvent 1 None None None None (ck_text c) (ck_thinking c) (ck_thinking_signature c)
    (ck_redacted_thinking c) (ck_finish_reason c) (ck_provider_response_id c)
    (ck_provider_response_status c) (ck_sequence_number c) (ck_usage c) (ck_tool_call_delta c).
Definition chunk_record (c : StreamChunk) : option WireStreamEventV1 :=
  let event := chunk_event c in
  if negb (has_payload event) then None else Some event.

(** ** Failures (llm/src/failure.rs) *)

(** The types the code tells apart along an error's chain *)
Inductive ErrorSource : Set :=
  | SrcStreamClosed | SrcJson
  | SrcAuth (has_kind : bool)
  | SrcHttp (timeout connect body decode : bool) (status : option Z)
  | SrcMalformedEvaluation | SrcOther.
Definition status_reason (status : Z) : string :=
  if (status =? 401) || (status =? 403) then "stream_error:authentication"
  else if status =? 408 then "stream_error:timeout"
  else if status =? 429 then "stream_error:rate_limit"
  else if (500 <=? status) && (status <=? 599) then "stream_error:unavailable"
  else "stream_error:http".
Definition source_reason (s : ErrorSource) : option string :=
  match s with
  | SrcStreamClosed => Some "stream_error:closed"
  | SrcJson => Some "stream_error:parse"
  | SrcAuth true => Some "stream_error:authentication"
  | SrcHttp timeout connect body decode status =>
      if timeout then Some "stream_error:timeout"
      else if connect then Some "stream_error:connect"
      else if body || decode then Some "stream_error:body"
      else status_reason <$> status
  | SrcAuth false | SrcMalformedEvaluation | SrcOther => None
  end.
Fixpoint safe_failure_reason (chain : list ErrorSource) : string :=
  match chain with
  | [] => "stream_error:unknown"
  | s :: chain' => match source_reason s with Some r => r | None => safe_failure_reason chain' end
  end.
(** [error.is::<MalformedEvaluationResponse>()] *)
Definition is_malformed_evaluation (chain : list ErrorSource) : bool :=
  match chain with SrcMalformedEvaluation :: _ => true | _ => false end.

(** ** Connections *)

Record ConnectionLimits : Set := mkLimits {
  max_generations : option Z; max_evaluations : option Z;
}.
Record Connection : Set := mkConnection {
  (** the generation that holds the provider's lock *)
  cn_busy : option nat;
  cn_provider_name : string;
  cn_model : option string;
  cn_credential_ref : option string;
  cn_capabilities : ProviderCapabilities;
  cn_choice_evaluation : bool;
  cn_generation_supported : bool;
  cn_limits : ConnectionLimits;
  cn_evaluation_starts : Z;
  cn_generation_starts : Z;
  cn_total_tokens : Z;
  cn_meter_version : Z;
}.
(** [Connection::new]; what the provider supports is asked once *)
Definition connection_new (provider_name : string) (model credential_ref : option string)
    (capabilities : ProviderCapabilities) (limits : ConnectionLimits)
    (supports_choice_evaluation supports_generation : bool) : Connection :=
  mkConnection None provider_name model credential_ref capabilities supports_choice_evaluation
    supports_generation limits 0 0 0 0.
Definition cn_set_busy (b : option nat) (c : Connection) : Connection :=
  mkConnection b (cn_provider_name c) (cn_model c) (cn_credential_ref c) (cn_capabilities c)
    (cn_choice_evaluation c) (cn_generation_supported c) (cn_limits c) (cn_evaluation_starts c)
    (cn_generation_starts c) (cn_total_tokens c) (cn_meter_version c).
Definition cn_set_meter (evaluations generations tokens version : Z) (c : Connection) : Connection :=
  mkConnection (cn_busy c) (cn_provider_name c) (cn_model c) (cn_credential_ref c)
    (cn_capabilities c) (cn_choice_evaluation c) (cn_generation_supported c) (cn_limits c)
    evaluations generations tokens version.

(** One operation of [fetch_update]: the new count, if there is one *)
Definition next_start (max : option Z) (current : Z) : option Z :=
  if from_option (λ m, m <=? current) false max then None else checked_add64 current 1.
Definition try_reserve (evaluation : bool) (c : Connection) : result ErrorCode Connection :=
  if (evaluation && negb (cn_choice_evaluation c)) || (negb evaluation && negb (cn_generation_supported c))
  then Err Unsupported
  else
    let '(starts, max) :=
      if evaluation then (cn_evaluation_starts c, max_evaluations (cn_limits c))
      else (cn_generation_starts c, max_generations (cn_limits c)) in
    match next_start max starts with
    | None => Err NoAccess
    | Some n =>
        Ok (cn_set_meter (if evaluation then n else cn_evaluation_starts c)
              (if evaluation then cn_generation_starts c else n) (cn_total_tokens c)
              (wrapping_add32 (cn_meter_version c) 1) c)
    end.
Definition record_token_delta (delta : Z) (c : Connection) : Connection :=
  if delta =? 0 then c
  else cn_set_meter (cn_evaluation_starts c) (cn_generation_starts c)
         (wrapping_add64 (cn_total_tokens c) delta) (wrapping_add32 (cn_meter_version c) 1) c.
Definition meter_doc `{JsonText} (connection : string) (c : Connection) : string :=
  render_json_doc (json_map
    [("version", json_int 1);
     ("connection", JString connection);
     ("limits", json_map [("max_generations", json_opt json_int (max_generations (cn_limits c)));
                          ("max_evaluations", json_opt json_int (max_evaluations (cn_limits c)))]);
     ("meter", json_map [("generation_starts", json_int (cn_generation_starts c));
                         ("evaluation_starts", json_int (cn_evaluation_starts c));
                         ("total_tokens", json_int (cn_total_tokens c));
                         ("total_cost_microusd", JNull);
                         ("currency", JString "USD")])]).

(** ** Generations *)

Inductive GenStatus : Set := GOpen | GRunning | GDone | GError | GRejected | GAborted.
Global Instance GenStatus_eq_dec : EqDecision GenStatus.
Proof. solve_decision. Defined.
Definition gen_status_str (s : GenStatus) : string :=
  match s with
  | GOpen => "open" | GRunning => "running" | GDone => "done" | GError => "error"
  | GRejected => "rejected" | GAborted => "aborted"
  end.
Definition gen_is_terminal (s : GenStatus) : bool :=
  match s with GDone | GError | GRejected | GAborted => true | GOpen | GRunning => false end.

Record Generation : Type := mkGeneration {
  (** the connection captured when it was allocated *)
  gn_connection : nat;
  gn_connection_name : string;
  gn_sequence : Z;
  gn_evaluation : bool;
  gn_events : Stream.t;
  gn_status : GenStatus;
  gn_token_usage : option TokenUsage;
  gn_version : Z;
  (** the permit of the [abort] notification *)
  gn_abort : bool;
  (** the task that holds [finalize] *)
  gn_finalize : option nat;
}.
Definition generation_new (connection : nat) (connection_name : string) (sequence : Z)
    (evaluation : bool) : Generation :=
  mkGeneration connection connection_name sequence evaluation Stream.new GOpen None 0 false None.
Definition gn_set_status (s : GenStatus) (v : Z) (g : Generation) : Generation :=
  mkGeneration (gn_connection g) (gn_connection_name g) (gn_sequence g) (gn_evaluation g)
    (gn_events g) s (gn_token_usage g) v (gn_abort g) (gn_finalize g).
Definition gn_append (line : bytes) (g : Generation) : Generation :=
  mkGeneration (gn_connection g) (gn_connection_name g) (gn_sequence g) (gn_evaluation g)
    (Stream.append (gn_events g) line) (gn_status g) (gn_token_usage g) (gn_version g) (gn_abort g)
    (gn_finalize g).
Definition gn_set_usage (u : option TokenUsage) (v : Z) (g : Generation) : Generation :=
  mkGeneration (gn_connection g) (gn_connection_name g) (gn_sequence g) (gn_evaluation g)
    (gn_events g) (gn_status g) u v (gn_abort g) (gn_finalize g).
Definition gn_set_abort (permit : bool) (g : Generation) : Generation :=
  mkGeneration (gn_connection g) (gn_connection_name g) (gn_sequence g) (gn_evaluation g)
    (gn_events g) (gn_status g) (gn_token_usage g) (gn_version g) permit (gn_finalize g).
Definition gn_set_finalize (holder : option nat) (g : Generation) : Generation :=
  mkGeneration (gn_connection g) (gn_connection_name g) (gn_sequence g) (gn_evaluation g)
    (gn_events g) (gn_status g) (gn_token_usage g) (gn_version g) (gn_abort g) holder.

Definition positive_total (u : TokenUsage) : Z := Z.max (tu_total_tokens u) 0.
(** [record_usage]: the generation and the tokens to add to its connection *)
Definition record_usage (u : TokenUsage) (g : Generation) : Generation * Z :=
  let previous_total := from_option positive_total 0 (gn_token_usage g) in
  (gn_set_usage (Some u) (wrapping_add32 (gn_version g) 1) g,
   Z.max 0 (positive_total u - previous_total)).

Definition gen_advance (to : GenStatus) (g : Generation) : option Generation :=
  if gen_is_terminal (gn_status g) then None
  else Some (gn_set_status to (wrapping_add32 (gn_version g) 1) g).
Definition gen_claim (to : GenStatus) (g : Generation) : option Generation :=
  if bool_decide (gn_status g = GOpen)
  then Some (gn_set_status to (wrapping_add32 (gn_version g) 1) g)
  else None.

Definition tokens_json (usage : option TokenUsage) : Json :=
  match usage with
  | Some u => json_map [("available", JBool true);
      ("prompt_tokens", json_int (tu_prompt_tokens u));
      ("cached_prompt_tokens", json_opt json_int (tu_cached_prompt_tokens u));
      ("completion_tokens", json_int (tu_completion_tokens u));
      ("total_tokens", json_int (tu_total_tokens u));
      ("reasoning_tokens", json_opt json_int (tu_reasoning_tokens u))]
  | None => json_map [("available", JBool false);
      ("prompt_tokens", json_int 0); ("cached_prompt_tokens", JNull);
      ("completion_tokens", json_int 0); ("total_tokens", json_int 0);
      ("reasoning_tokens", JNull)]
  end.
Definition generation_status_doc `{JsonText} (id : string) (g : Generation) : string :=
  let status := gen_status_str (gn_status g) in
  render_json_doc (json_map
    [("version", json_int 1);
     ("generation", JString id);
     ("operation", JString (if gn_evaluation g then "choice.v1" else "generation"));
     ("connection", JString (gn_connection_name g));
     ("status", JString status);
     ("progress", json_map [("phase", JString status); ("terminal", JBool (gen_is_terminal (gn_status g)))]);
     ("tokens", tokens_json (gn_token_usage g));
     ("cost", json_map [("currency", JString "USD"); ("amount_microusd", JNull); ("metered", JBool false)])]).

(** ** Records and their bytes *)

(** What is appended to [events]: an event line, or the result of an evaluation *)
Inductive LogRecord : Type :=
  | LEvent (e : WireStreamEventV1)
  | LEvaluation (selection : EvaluationSelection) (provider : string) (model : option string)
      (usage : option TokenUsage).
Definition selection_json (s : EvaluationSelection) : Json :=
  match s with
  | Selected id => json_map [("kind", JString "selected"); ("id", JString id)]
  | NoMatch => json_map [("kind", JString "no_match")]
  end.
Definition record_line `{JsonText} (r : LogRecord) : bytes :=
  match r with
  | LEvent e => into_bytes (json_text (wire_event_json e)) ++ [newline]
  | LEvaluation selection provider model usage =>
      into_bytes (render_json_doc (json_map
        [("version", json_int 1); ("done", JBool true);
         ("evaluation", json_map
            [("schema", JString "choice.v1"); ("selection", selection_json selection);
             ("provider", JString provider); ("model", json_opt JString model);
             ("usage", json_opt (λ u, json_map (usage_fields u)) usage);
             ("cost_microusd", JNull)])]))
  end.

(** [fail_generation]'s record for its tag *)
Definition fail_event (tag : string) : WireStreamEventV1 :=
  if bool_decide (tag = "rejected") then event_rejected
  else if bool_decide (tag = "error") then event_error "error"
  else event_error tag.

(** ** Tasks *)

(** What a task that failed its generation does next *)
Inductive After : Set := ReturnIo | EndTask.

Inductive LlmTask : Type :=
  (* commit_request, evaluation::commit *)
  | TCommit (buf : bytes)
  | TRejectLock | TReject | TRejectAppend
  (* starting the provider: polling [abort], then the future, which holds the
     provider's lock once it is in the call *)
  | TStart (called : bool) (r : GenerationRequest)
  | TStartPolled (called : bool) (r : GenerationRequest)
  | TCalling (r : GenerationRequest)
  | TStarted
  (* the drain task *)
  | TDrain | TDrainPolled
  | TChunkLock (c : StreamChunk) | TChunk (c : StreamChunk) | TChunkUsage (c : StreamChunk)
  | TChunkAppend (c : StreamChunk)
  | TTerminal (e : WireStreamEventV1) (s : GenStatus)
  | TAdvance (s : GenStatus)
  | TClosedLock | TClosed | TClosedAppend
  (* the evaluation task *)
  | TEvaluate (called : bool) (r : ChoiceEvaluationRequest)
  | TEvaluatePolled (called : bool) (r : ChoiceEvaluationRequest)
  | TEvaluating (r : ChoiceEvaluationRequest)
  | TPublish (r : ChoiceEvaluationRequest) (s : EvaluationSelection) (u : option TokenUsage)
  | TPublishLock (s : EvaluationSelection) (u : option TokenUsage)
  | TPublishCheck (s : EvaluationSelection) (u : option TokenUsage)
  | TPublishUsage (s : EvaluationSelection) (u : option TokenUsage)
  | TPublishAppend (s : EvaluationSelection) (u : option TokenUsage)
  (* fail_generation *)
  | TFailLock (s : GenStatus) (tag : string) (k : After)
  | TFail (s : GenStatus) (tag : string) (k : After)
  | TFailAppend (tag : string) (k : After)
  (* abort_generation *)
  | TAbortLock | TAbort | TAbortAppend | TAbortAdvance | TAbortNotify
  (* a call that has returned; a spawned task that has ended, a call that was dropped *)
  | TReturned (r : result ErrorCode unit)
  | TEnded.

Inductive ProviderCall : Type :=
  | CallGenerate (r : GenerationRequest) | CallEvaluate (r : ChoiceEvaluationRequest).

(** What a step learns: nothing, that the future it polls is not ready, the answer
    of [generate_stream], what the receiver yields, the answer of [evaluate_choice],
    that its deadline has passed, or that its caller has gone away *)
Inductive Input : Type :=
  | ITick | IPending
  | IStarted (failure : option (list ErrorSource))
  | IChunk (c : option StreamChunk)
  | IEvaluated (answer : list ErrorSource + EvaluationSelection * option TokenUsage)
  | ITimeout
  | IDrop.

(** A generation, the tasks that work on it, and the calls its provider got *)
Record Cell : Type := mkCell {
  cl_gen : Generation;
  cl_tasks : list LlmTask;
  cl_calls : list ProviderCall;
}.
Definition on_gen (f : Generation → Generation) (c : Cell) : Cell :=
  mkCell (f (cl_gen c)) (cl_tasks c) (cl_calls c).
Definition set_task (tid : nat) (t : LlmTask) (c : Cell) : Cell :=
  mkCell (cl_gen c) (<[tid := t]> (cl_tasks c)) (cl_calls c).
(** A call starts, [tokio::spawn] *)
Definition spawn_task (t : LlmTask) (c : Cell) : Cell :=
  mkCell (cl_gen c) (cl_tasks c ++ [t]) (cl_calls c).
Definition log_call (p : ProviderCall) (c : Cell) : Cell :=
  mkCell (cl_gen c) (cl_tasks c) (cl_calls c ++ [p]).

(** [finalize.lock().await]: no step while another task holds it *)
Definition acquire (tid : nat) (t : LlmTask) (c : Cell) : option Cell :=
  match gn_finalize (cl_gen c) with
  | Some _ => None
  | None => Some (set_task tid t (on_gen (gn_set_finalize (Some tid)) c))
  end.
(** The guard is dropped and the task goes on *)
Definition release (tid : nat) (t : LlmTask) (c : Cell) : Cell :=
  set_task tid t (on_gen (gn_set_finalize None) c).

Section step.
Context `{JsonText}.
(** The derived parsers of the two request documents *)
Context (parse_request : bytes → option WireRequestDocV2).
Context (parse_choice : bytes → option ChoiceDoc).

Definition append_record (r : LogRecord) (c : Cell) : Cell := on_gen (gn_append (record_line r)) c.
Definition after_task (k : After) : LlmTask :=
  match k with ReturnIo => TReturned (Err Io) | EndTask => TEnded end.

(** [commit_request] and [evaluation::commit] up to where they wait *)
Definition commit_section (tid : nat) (buf : bytes) (capabilities : ProviderCapabilities) (c : Cell) : Cell :=
  if gn_evaluation (cl_gen c) then
    match parse_choice buf ≫= choice_doc_validate with
    | None => set_task tid TRejectLock c
    | Some (request, _) =>
        match gen_claim GRunning (cl_gen c) with
        | None => set_task tid (TReturned (Err BadRequest)) c
        | Some g => spawn_task (TEvaluate false request) (set_task tid (TReturned (Ok tt)) (on_gen (λ _, g) c))
        end
    end
  else
    match (if bool_decide (buf = []) then None else parse_request buf) with
    | None => set_task tid TRejectLock c
    | Some doc =>
        match into_generation_request doc capabilities with
        | None => set_task tid TRejectLock c
        | Some request =>
            match gen_claim GRunning (cl_gen c) with
            | None => set_task tid (TReturned (Err BadRequest)) c
            | Some g => set_task tid (TStart false request) (on_gen (λ _, g) c)
            end
        end
    end.

(** [safe_finish_reason] on the reason of a chunk *)
Definition safe_chunk (c : StreamChunk) : StreamChunk :=
  mkChunk (ck_text c) (ck_thinking c) (ck_thinking_signature c) (ck_redacted_thinking c) (ck_usage c)
    (ck_provider_response_id c) (ck_provider_response_status c) (ck_sequence_number c)
    (ck_tool_call_delta c) (ck_is_finished c) (safe_finish_reason <$> ck_finish_reason c).
Definition chunk_errored (c : StreamChunk) : bool :=
  from_option (starts_with "stream_error") false (ck_finish_reason c).
(** The last record of a finished chunk and the status it stands for *)
Definition finish_of (c : StreamChunk) : LlmTask :=
  if chunk_errored c then TTerminal (event_error (default "" (ck_finish_reason c))) GError
  else TTerminal event_done GDone.

Definition use_usage (u : option TokenUsage) (c : Cell) (conn : Connection) : Cell * Connection :=
  match u with
  | None => (c, conn)
  | Some u =>
      let '(g, delta) := record_usage u (cl_gen c) in
      (on_gen (λ _, g) c, record_token_delta delta conn)
  end.
Definition evaluation_tag (chain : list ErrorSource) : string :=
  if is_malformed_evaluation chain then "malformed_evaluation_response" else safe_failure_reason chain.

(** [select! { biased; _ = abort.notified() => .. }]: the permit is taken first *)
Definition poll_abort (tid : nat) (stopped polled : LlmTask) (c : Cell) : Cell :=
  if gn_abort (cl_gen c) then set_task tid stopped (on_gen (gn_set_abort false) c)
  else set_task tid polled c.
(** The provider's lock goes with the future that is dropped or has ended *)
Definition drop_call (called : bool) (conn : Connection) : Connection :=
  if called then cn_set_busy None conn else conn.

(** One step of the commit path of a generation *)
Definition start_step (gh tid : nat) (t : LlmTask) (i : Input) (c : Cell) (conn : Connection) :
    option (Cell * Connection) :=
  match t, i with
  | TCommit buf, ITick => Some (commit_section tid buf (cn_capabilities conn) c, conn)
  | TRejectLock, ITick => (λ c, (c, conn)) <$> acquire tid TReject c
  | TReject, ITick =>
      match gen_claim GRejected (cl_gen c) with
      | Some g => Some (set_task tid TRejectAppend (on_gen (λ _, g) c), conn)
      | None => Some (release tid (TReturned (Err BadRequest)) c, conn)
      end
  | TRejectAppend, ITick =>
      Some (release tid (TReturned (Err BadRequest)) (append_record (LEvent event_rejected) c), conn)
  | TStart called r, ITick =>
      Some (poll_abort tid (TReturned (Ok tt)) (TStartPolled called r) c,
            if gn_abort (cl_gen c) then drop_call called conn else conn)
  | TStartPolled false r, ITick =>
      match cn_busy conn with
      | Some _ => None
      | None => Some (log_call (CallGenerate r) (set_task tid (TCalling r) c), cn_set_busy (Some gh) conn)
      end
  | TStartPolled true r, ITick => Some (set_task tid (TCalling r) c, conn)
  | TStartPolled called r, IPending => Some (set_task tid (TStart called r) c, conn)
  | TCalling r, IPending => Some (set_task tid (TStart true r) c, conn)
  | TCalling r, IStarted None => Some (set_task tid TStarted c, cn_set_busy None conn)
  | TCalling r, IStarted (Some chain) =>
      Some (set_task tid (TFailLock GError (safe_failure_reason chain) ReturnIo) c, cn_set_busy None conn)
  | TStarted, ITick =>
      if bool_decide (gn_status (cl_gen c) = GAborted) then Some (set_task tid (TReturned (Ok tt)) c, conn)
      else Some (spawn_task TDrain (set_task tid (TReturned (Ok tt)) c), conn)
  | _, _ => None
  end.

(** One step of the drain task *)
Definition drain_step (tid : nat) (t : LlmTask) (i : Input) (c : Cell) (conn : Connection) :
    option (Cell * Connection) :=
  match t, i with
  | TDrain, ITick => Some (poll_abort tid TEnded TDrainPolled c, conn)
  | TDrainPolled, IPending => Some (set_task tid TDrain c, conn)
  | TDrainPolled, IChunk (Some chunk) => Some (set_task tid (TChunkLock chunk) c, conn)
  | TDrainPolled, IChunk None => Some (set_task tid TClosedLock c, conn)
  | TChunkLock chunk, ITick => (λ c, (c, conn)) <$> acquire tid (TChunk chunk) c
  | TChunk chunk, ITick =>
      if gen_is_terminal (gn_status (cl_gen c)) then Some (release tid TEnded c, conn)
      else Some (set_task tid (TChunkUsage (safe_chunk chunk)) c, conn)
  | TChunkUsage chunk, ITick => Some (use_usage (ck_usage chunk) (set_task tid (TChunkAppend chunk) c) conn)
  | TChunkAppend chunk, ITick =>
      let c := match chunk_record chunk with Some e => append_record (LEvent e) c | None => c end in
      if ck_is_finished chunk then Some (set_task tid (finish_of chunk) c, conn)
      else Some (release tid TDrain c, conn)
  | TTerminal e s, ITick => Some (set_task tid (TAdvance s) (append_record (LEvent e) c), conn)
  | TAdvance s, ITick =>
      Some (release tid TEnded (on_gen (λ g, default g (gen_advance s g)) c), conn)
  | TClosedLock, ITick => (λ c, (c, conn)) <$> acquire tid TClosed c
  | TClosed, ITick =>
      match gen_advance GError (cl_gen c) with
      | Some g => Some (set_task tid TClosedAppend (on_gen (λ _, g) c), conn)
      | None => Some (release tid TEnded c, conn)
      end
  | TClosedAppend, ITick =>
      Some (release tid TEnded (append_record (LEvent (event_error "stream_error:closed")) c), conn)
  | _, _ => None
  end.

(** One step of an evaluation *)
Definition evaluate_step (gh tid : nat) (t : LlmTask) (i : Input) (c : Cell) (conn : Connection) :
    option (Cell * Connection) :=
  match t, i with
  | TEvaluate called r, ITick =>
      Some (poll_abort tid TEnded (TEvaluatePolled called r) c,
            if gn_abort (cl_gen c) then drop_call called conn else conn)
  | TEvaluatePolled false r, ITick =>
      match cn_busy conn with
      | Some _ => None
      | None => Some (log_call (CallEvaluate r) (set_task tid (TEvaluating r) c), cn_set_busy (Some gh) conn)
      end
  | TEvaluatePolled true r, ITick => Some (set_task tid (TEvaluating r) c, conn)
  | TEvaluatePolled called r, IPending => Some (set_task tid (TEvaluate called r) c, conn)
  | TEvaluatePolled called r, ITimeout =>
      Some (set_task tid (TFailLock GError "evaluation_timeout" EndTask) c, drop_call called conn)
  | TEvaluating r, IPending => Some (set_task tid (TEvaluate true r) c, conn)
  | TEvaluating r, ITimeout =>
      Some (set_task tid (TFailLock GError "evaluation_timeout" EndTask) c, cn_set_busy None conn)
  | TEvaluating r, IEvaluated (inl chain) =>
      Some (set_task tid (TFailLock GError (evaluation_tag chain) EndTask) c, cn_set_busy None conn)
  | TEvaluating r, IEvaluated (inr (selection, usage)) =>
      Some (set_task tid (TPublish r selection usage) c, cn_set_busy None conn)
  | TPublish r selection usage, ITick =>
      if validate_selection r selection then Some (set_task tid (TPublishLock selection usage) c, conn)
      else Some (set_task tid (TFailLock GError "invalid_evaluation_selection" EndTask) c, conn)
  | TPublishLock selection usage, ITick => (λ c, (c, conn)) <$> acquire tid (TPublishCheck selection usage) c
  | TPublishCheck selection usage, ITick =>
      if gen_is_terminal (gn_status (cl_gen c)) then Some (release tid TEnded c, conn)
      else Some (set_task tid (TPublishUsage selection usage) c, conn)
  | TPublishUsage selection usage, ITick =>
      Some (use_usage usage (set_task tid (TPublishAppend selection usage) c) conn)
  | TPublishAppend selection usage, ITick =>
      Some (set_task tid (TAdvance GDone)
              (append_record (LEvaluation selection (cn_provider_name conn) (cn_model conn) usage) c), conn)
  | _, _ => None
  end.

(** [fail_generation] and [abort_generation] *)
Definition settle_step (tid : nat) (t : LlmTask) (i : Input) (c : Cell) : option Cell :=
  match t, i with
  | TFailLock s tag k, ITick => acquire tid (TFail s tag k) c
  | TFail s tag k, ITick =>
      match gen_advance s (cl_gen c) with
      | Some g => Some (set_task tid (TFailAppend tag k) (on_gen (λ _, g) c))
      | None => Some (release tid (after_task k) c)
      end
  | TFailAppend tag k, ITick =>
      Some (release tid (after_task k) (append_record (LEvent (fail_event tag)) c))
  | TAbortLock, ITick => acquire tid TAbort c
  | TAbort, ITick =>
      if gen_is_terminal (gn_status (cl_gen c)) then Some (release tid (TReturned (Err BadRequest)) c)
      else Some (set_task tid TAbortAppend c)
  | TAbortAppend, ITick => Some (set_task tid TAbortAdvance (append_record (LEvent event_aborted) c))
  | TAbortAdvance, ITick =>
      Some (release tid TAbortNotify (on_gen (λ g, default g (gen_advance GAborted g)) c))
  | TAbortNotify, ITick => Some (set_task tid (TReturned (Ok tt)) (on_gen (gn_set_abort true) c))
  | _, _ => None
  end.

(** A caller that goes away drops its call where it waits: for [finalize], for the
    provider's lock or for its answer. Spawned tasks have no caller. *)
Definition drops (t : LlmTask) : bool :=
  match t with
  | TRejectLock | TStart _ _ | TStartPolled _ _ | TCalling _ | TFailLock _ _ ReturnIo | TAbortLock => true
  | _ => false
  end.
Definition in_call (t : LlmTask) : bool :=
  match t with TStart called _ | TStartPolled called _ => called | TCalling _ => true | _ => false end.
Definition drop_step (tid : nat) (t : LlmTask) (i : Input) (c : Cell) (conn : Connection) :
    option (Cell * Connection) :=
  match i with
  | IDrop => if drops t then Some (set_task tid TEnded c, drop_call (in_call t) conn) else None
  | _ => None
  end.

Definition llm_task_step (gh tid : nat) (i : Input) (c : Cell) (conn : Connection) : option (Cell * Connection) :=
  match cl_tasks c !! tid with
  | None => None
  | Some t =>
      match start_step gh tid t i c conn with
      | Some r => Some r
      | None =>
          match drain_step tid t i c conn with
          | Some r => Some r
          | None =>
              match evaluate_step gh tid t i c conn with
              | Some r => Some r
              | None =>
                  match settle_step tid t i c with
                  | Some c' => Some (c', conn)
                  | None => drop_step tid t i c conn
                  end
              end
          end
      end
  end.
End step.
