(* ===== verification/LlmFs.v ===== *)
(** * The model file server (crates/llmfs/src/lib.rs)

    Connections are called by opening [connections/<name>/clone] or [evaluate],
    which allocates a generation; writing its [data] and closing it commits the
    request, [events] streams the answer, [ctl] aborts.

    Connections and generations are shared by reference: views of a server share
    its state, a snapshot has a state of its own that shares the connection. [World]
    holds them by handle, and the callers that unregister a connection. A call that
    goes on outside the server's lock is a task of its generation; until the task
    returns, the call is parked. *)
From S2P Require Import Prelude RustStd ApTypes ApServer RustText Tape Protocol LlmProviders LlmGen.

Definition LLM_MAX_DOC_BYTES : Z := Z.shiftl 1 20.
Definition RETAIN_TERMINAL_GENERATIONS_PER_CONNECTION : nat := 16.

Inductive LlmNode : Set :=
  | LnRoot | LnProvidersDir
  | LnProvider (provider : string) | LnProviderModels (provider : string)
  | LnProviderCapabilities (provider : string) | LnProviderStatus (provider : string)
  | LnConnectionsDir
  | LnConnection (conn : string) | LnConnectionProvider (conn : string)
  | LnConnectionProfile (conn : string) | LnConnectionMeter (conn : string)
  | LnConnectionCapabilities (conn : string)
  | LnClone (conn : string) | LnEvaluate (conn : string)
  | LnGen (id : string) | LnGenData (id : string) | LnGenEvents (id : string)
  | LnGenCtl (id : string) | LnGenStatus (id : string).

Record LlmFid : Type := mkLlmFid {
  lf_node : LlmNode;
  lf_mode : option OpenMode;
  (** the generation whose stream an opened [events] fid keeps *)
  lf_events : option nat;
  lf_clone_gen : option string;
  lf_write_buf : bytes;
}.
Definition llm_fid_at (n : LlmNode) : LlmFid := mkLlmFid n None None None [].

(** What the mutex of a server guards *)
Record LlmState : Type := mkLlmState {
  ls_connections : gmap string nat;
  ls_gens : gmap string nat;
  ls_fids : gmap (Z * Fid) LlmFid;
  ls_next_gen : Z;
  ls_next_view : Z;
  ls_listing_version : Z;
}.
Definition llm_state_new : LlmState := mkLlmState ∅ ∅ ∅ 0 1 0.
Definition ls_set_connections (x : gmap string nat) (s : LlmState) : LlmState :=
  mkLlmState x (ls_gens s) (ls_fids s) (ls_next_gen s) (ls_next_view s) (ls_listing_version s).
Definition ls_set_gens (x : gmap string nat) (s : LlmState) : LlmState :=
  mkLlmState (ls_connections s) x (ls_fids s) (ls_next_gen s) (ls_next_view s) (ls_listing_version s).
Definition ls_set_fids (x : gmap (Z * Fid) LlmFid) (s : LlmState) : LlmState :=
  mkLlmState (ls_connections s) (ls_gens s) x (ls_next_gen s) (ls_next_view s) (ls_listing_version s).
Definition ls_bump (n : nat) (s : LlmState) : LlmState :=
  mkLlmState (ls_connections s) (ls_gens s) (ls_fids s) (ls_next_gen s) (ls_next_view s)
    (wrapping_add32 (ls_listing_version s) (Z.of_nat n)).

(** [LlmFs]: a server or a view of one *)
Record LlmFs : Type := mkLlmFs {
  sv_state : nat;
  sv_allowed : option (gset string);
  sv_view : Z;
}.
(** A caller inside [unregister_connection], past its first section: the generations
    still to abort, the abort it waits for, and those to remove at the end *)
Record Unregister : Type := mkUnregister {
  un_state : nat;
  un_pending : list nat;
  un_waiting : option (nat * nat);
  un_active : list string;
}.
Record LlmWorld : Type := mkLlmWorld {
  lw_conns : list Connection;
  lw_cells : list Cell;
  lw_states : list LlmState;
  lw_servers : list LlmFs;
  lw_unregs : list Unregister;
}.
(** [LlmFs::new] *)
Definition llm_world_new : LlmWorld := mkLlmWorld [] [] [llm_state_new] [mkLlmFs 0 None 0] [].

Definition lw_set_conns (x : list Connection) (w : LlmWorld) : LlmWorld :=
  mkLlmWorld x (lw_cells w) (lw_states w) (lw_servers w) (lw_unregs w).
Definition lw_set_cells (x : list Cell) (w : LlmWorld) : LlmWorld :=
  mkLlmWorld (lw_conns w) x (lw_states w) (lw_servers w) (lw_unregs w).
Definition lw_set_states (x : list LlmState) (w : LlmWorld) : LlmWorld :=
  mkLlmWorld (lw_conns w) (lw_cells w) x (lw_servers w) (lw_unregs w).
Definition lw_set_servers (x : list LlmFs) (w : LlmWorld) : LlmWorld :=
  mkLlmWorld (lw_conns w) (lw_cells w) (lw_states w) x (lw_unregs w).
Definition lw_set_unregs (x : list Unregister) (w : LlmWorld) : LlmWorld :=
  mkLlmWorld (lw_conns w) (lw_cells w) (lw_states w) (lw_servers w) x.
Definition on_llm_state (k : nat) (f : LlmState → LlmState) (w : LlmWorld) : LlmWorld :=
  lw_set_states (alter f k (lw_states w)) w.
Definition on_cell (gh : nat) (f : Cell → Cell) (w : LlmWorld) : LlmWorld :=
  lw_set_cells (alter f gh (lw_cells w)) w.

(** The generation an identifier of a state stands for *)
Definition gen_at (w : LlmWorld) (s : LlmState) (id : string) : option Generation :=
  gh ← ls_gens s !! id; cl_gen <$> lw_cells w !! gh.
Definition conn_at (w : LlmWorld) (s : LlmState) (name : string) : option Connection :=
  k ← ls_connections s !! name; lw_conns w !! k.

(** ** Names and access *)

Definition llm_node_identity (n : LlmNode) : FileKind * string :=
  match n with
  | LnRoot => (Dir, "/")
  | LnProvidersDir => (Dir, "providers")
  | LnProvider p => (Dir, "providers/" +:+ p)
  | LnProviderModels p => (File, "providers/" +:+ p +:+ "/models")
  | LnProviderCapabilities p => (File, "providers/" +:+ p +:+ "/capabilities")
  | LnProviderStatus p => (File, "providers/" +:+ p +:+ "/status")
  | LnConnectionsDir => (Dir, "connections")
  | LnConnection c => (Dir, "connections/" +:+ c)
  | LnConnectionProvider c => (File, "connections/" +:+ c +:+ "/provider")
  | LnConnectionProfile c => (File, "connections/" +:+ c +:+ "/profile")
  | LnConnectionMeter c => (File, "connections/" +:+ c +:+ "/meter")
  | LnConnectionCapabilities c => (File, "connections/" +:+ c +:+ "/capabilities")
  | LnClone c => (Clone, "connections/" +:+ c +:+ "/clone")
  | LnEvaluate c => (Clone, "connections/" +:+ c +:+ "/evaluate")
  | LnGen id => (Dir, "gen/" +:+ id)
  | LnGenData id => (File, "gen/" +:+ id +:+ "/data")
  | LnGenEvents id => (StreamKind, "gen/" +:+ id +:+ "/events")
  | LnGenCtl id => (File, "gen/" +:+ id +:+ "/ctl")
  | LnGenStatus id => (File, "gen/" +:+ id +:+ "/status")
  end.
Definition llm_is_writable (n : LlmNode) : bool :=
  match n with LnClone _ | LnEvaluate _ | LnGenData _ | LnGenCtl _ => true | _ => false end.
Definition llm_is_readable (n : LlmNode) : bool :=
  match n with LnGenData _ | LnGenCtl _ => false | _ => true end.

Definition connection_visible (sv : LlmFs) (name : string) : bool :=
  match sv_allowed sv with None => true | Some allowed => bool_decide (name ∈ allowed) end.

Definition llm_child (w : LlmWorld) (s : LlmState) (sv : LlmFs) (n : LlmNode) (name : string) :
    result ErrorCode LlmNode :=
  match n with
  | LnRoot =>
      if bool_decide (name = "connections") then Ok LnConnectionsDir
      else if bool_decide (name = "providers") then Ok LnProvidersDir
      else Err NotDirectory
  | LnProvidersDir => if is_known_provider name then Ok (LnProvider name) else Err NotDirectory
  | LnProvider p =>
      if bool_decide (name = "models") then Ok (LnProviderModels p)
      else if bool_decide (name = "capabilities") then Ok (LnProviderCapabilities p)
      else if bool_decide (name = "status") then Ok (LnProviderStatus p)
      else Err NotFound
  | LnConnectionsDir =>
      if connection_visible sv name && isSome (ls_connections s !! name) then Ok (LnConnection name)
      else Err NotFound
  | LnConnection conn =>
      if bool_decide (name = "clone") then Ok (LnClone conn)
      else if bool_decide (name = "evaluate") then Ok (LnEvaluate conn)
      else if bool_decide (name = "provider") then Ok (LnConnectionProvider conn)
      else if bool_decide (name = "profile") then Ok (LnConnectionProfile conn)
      else if bool_decide (name = "meter") then Ok (LnConnectionMeter conn)
      else if bool_decide (name = "capabilities") then Ok (LnConnectionCapabilities conn)
      else if from_option (λ g, bool_decide (gn_connection_name g = conn)) false (gen_at w s name)
      then Ok (LnGen name)
      else Err NotFound
  | LnGen id =>
      if bool_decide (name = "data") then Ok (LnGenData id)
      else if bool_decide (name = "events") then Ok (LnGenEvents id)
      else if bool_decide (name = "ctl") then Ok (LnGenCtl id)
      else if bool_decide (name = "status") then Ok (LnGenStatus id)
      else Err NotFound
  | _ => Err NotDirectory
  end.
Fixpoint llm_walk_names (w : LlmWorld) (s : LlmState) (sv : LlmFs) (n : LlmNode) (names : list string) :
    result ErrorCode LlmNode :=
  match names with
  | [] => Ok n
  | name :: names' =>
      match llm_child w s sv n name with Ok n' => llm_walk_names w s sv n' names' | r => r end
  end.

Section server.
Context `{JsonText}.
(** The default hasher on a node's key *)
Context (hash_path : string → Z).
Abbreviation Llm := (M LlmWorld ErrorCode).

Definition llm_version (w : LlmWorld) (s : LlmState) (n : LlmNode) : Z :=
  match n with
  | LnGen id | LnGenData id | LnGenEvents id | LnGenCtl id | LnGenStatus id =>
      from_option gn_version 0 (gen_at w s id)
  | LnConnectionsDir | LnConnection _ | LnConnectionProvider _ | LnConnectionProfile _
  | LnConnectionCapabilities _ => ls_listing_version s
  | LnConnectionMeter conn => from_option cn_meter_version (ls_listing_version s) (conn_at w s conn)
  | LnRoot | LnProvidersDir | LnProvider _ | LnProviderModels _ | LnProviderCapabilities _
  | LnProviderStatus _ | LnClone _ | LnEvaluate _ => 0
  end.
Definition llm_qid (w : LlmWorld) (s : LlmState) (n : LlmNode) : Qid :=
  let '(k, key) := llm_node_identity n in mkQid k (llm_version w s n) (hash_path key).

Definition llm_lines (names : list string) : bytes := into_bytes (join (String "010" "") names).
(** The generations listed under a connection *)
Definition connection_gens (w : LlmWorld) (s : LlmState) (conn : string) : list string :=
  filter (λ id, gn_connection_name <$> gen_at w s id = Some conn)
    (sorted_keys (ls_gens s)).
Definition llm_computed_bytes (w : LlmWorld) (s : LlmState) (sv : LlmFs) (n : LlmNode) :
    result ErrorCode bytes :=
  match n with
  | LnRoot => Ok (llm_lines ["connections"; "providers"])
  | LnProvidersDir => Ok (llm_lines known_provider_names)
  | LnProvider _ => Ok (llm_lines ["models"; "capabilities"; "status"])
  | LnProviderModels p => Ok (into_bytes (provider_models_doc p))
  | LnProviderCapabilities p =>
      Ok (into_bytes (provider_capabilities_doc p (provider_capabilities_for_name p)))
  | LnProviderStatus p => Ok (into_bytes (provider_status_doc p))
  | LnConnectionsDir =>
      Ok (llm_lines (filter (λ name, connection_visible sv name = true) (sorted_keys (ls_connections s))))
  | LnConnection conn =>
      Ok (llm_lines (["clone"; "evaluate"; "provider"; "profile"; "meter"; "capabilities"]
                     ++ connection_gens w s conn))
  | LnConnectionProvider conn =>
      match conn_at w s conn with
      | Some c => Ok (into_bytes (cn_provider_name c) ++ [newline])
      | None => Err NotFound
      end
  | LnConnectionProfile conn =>
      match conn_at w s conn with
      | Some c => Ok (into_bytes (connection_profile_doc conn (cn_provider_name c) (cn_model c)
                                    (cn_credential_ref c)))
      | None => Err NotFound
      end
  | LnConnectionMeter conn =>
      match conn_at w s conn with Some c => Ok (into_bytes (meter_doc conn c)) | None => Err NotFound end
  | LnConnectionCapabilities conn =>
      match conn_at w s conn with
      | Some c => Ok (into_bytes (connection_capabilities_doc conn (cn_provider_name c)
                        (cn_capabilities c) (cn_choice_evaluation c) (cn_generation_supported c)))
      | None => Err NotFound
      end
  | LnGen _ => Ok (llm_lines ["data"; "events"; "ctl"; "status"])
  | LnGenStatus id =>
      match gen_at w s id with Some g => Ok (into_bytes (generation_status_doc id g)) | None => Err NotFound end
  | LnClone _ | LnEvaluate _ | LnGenData _ | LnGenCtl _ | LnGenEvents _ => Err Unsupported
  end.

(** ** The file operations *)

(** The state of the server; handles are never dangling. *)
Definition the_state (sv : LlmFs) : Llm LlmState := w ← mget; mindex (lw_states w !! sv_state sv).
Definition on_fid (sv : LlmFs) (fid : Fid) (f : LlmFid → LlmFid) : Llm unit :=
  mmodify (on_llm_state (sv_state sv) (λ s, ls_set_fids (alter f (sv_view sv, fid) (ls_fids s)) s)).

Definition llm_node_of (sv : LlmFs) (fid : Fid) : Llm LlmNode :=
  if bool_decide (fid = ROOT) then mret LnRoot
  else s ← the_state sv; mlift (lf_node <$> ls_fids s !! (sv_view sv, fid)) NotFound.

Definition llm_walk (sv : LlmFs) (fid newfid : Fid) (names : list string) : Llm Qid :=
  if bool_decide (newfid = ROOT) then mfail BadRequest
  else
    start ← llm_node_of sv fid;
    w ← mget;
    s ← the_state sv;
    node ← mresult (llm_walk_names w s sv start names);
    if isSome (ls_fids s !! (sv_view sv, newfid)) then mfail BadRequest
    else
      mmodify (on_llm_state (sv_state sv)
        (λ s, ls_set_fids (<[(sv_view sv, newfid) := llm_fid_at node]> (ls_fids s)) s));;
      mret (llm_qid w s node).

(** The terminal generations of a connection, oldest first *)
Definition sequence_le (a b : string * Z) : Prop := a.2 ≤ b.2.
Global Instance sequence_le_dec : RelDecision sequence_le := λ a b, decide (a.2 ≤ b.2).
Definition terminal_generations (w : LlmWorld) (s : LlmState) (connection : string) : list (string * Z) :=
  merge_sort sequence_le
    (omap (λ id, g ← gen_at w s id;
                 if bool_decide (gn_connection_name g = connection) && gen_is_terminal (gn_status g)
                 then Some (id, gn_sequence g) else None)
       (map_to_list (ls_gens s)).*1).
Definition reap_terminal_generations (w : LlmWorld) (connection : string) (s : LlmState) : LlmState :=
  let terminal := terminal_generations w s connection in
  let removed := take (length terminal - RETAIN_TERMINAL_GENERATIONS_PER_CONNECTION) terminal in
  ls_bump (length removed) (ls_set_gens (foldl (λ m p, delete p.1 m) (ls_gens s) removed) s).

(** Opening [clone] or [evaluate] *)
Definition allocate_generation (sv : LlmFs) (fid : Fid) (mode : OpenMode) (conn : string)
    (evaluation : bool) : Llm unit :=
  if negb (bool_decide (mode = ReadWrite)) then mfail NoAccess
  else
    s ← the_state sv;
    k ← mlift (ls_connections s !! conn) NotFound;
    w ← mget;
    connection ← mindex (lw_conns w !! k);
    reserved ← mresult (try_reserve evaluation connection);
    let id := "g" +:+ dec_string_Z (ls_next_gen s) in
    let gh := length (lw_cells w) in
    mmodify (λ w, lw_set_conns (<[k := reserved]> (lw_conns w)) w);;
    mmodify (λ w, lw_set_cells (lw_cells w ++
      [mkCell (generation_new k conn (ls_next_gen s) evaluation) [] []]) w);;
    mmodify (on_llm_state (sv_state sv) (λ s,
      mkLlmState (ls_connections s) (<[id := gh]> (ls_gens s)) (ls_fids s) (ls_next_gen s + 1)
        (ls_next_view s) (wrapping_add32 (ls_listing_version s) 1)));;
    on_fid sv fid (λ f, mkLlmFid (lf_node f) (lf_mode f) (lf_events f) (Some id) (lf_write_buf f));;
    w ← mget;
    mmodify (on_llm_state (sv_state sv) (reap_terminal_generations w conn)).

Definition llm_open (sv : LlmFs) (fid : Fid) (mode : OpenMode) : Llm Qid :=
  s ← the_state sv;
  if from_option (λ f, isSome (lf_mode f)) false (ls_fids s !! (sv_view sv, fid)) then mfail BadRequest
  else
    node ← (if bool_decide (fid = ROOT) then mret LnRoot
            else mlift (lf_node <$> ls_fids s !! (sv_view sv, fid)) NotFound);
    if mode_writes mode && negb (llm_is_writable node) then mfail NoAccess
    else if mode_reads mode && negb (llm_is_readable node) then mfail NoAccess
    else
      match node with
      | LnClone conn => allocate_generation sv fid mode conn false
      | LnEvaluate conn => allocate_generation sv fid mode conn true
      | _ => mret tt
      end;;
      s ← the_state sv;
      opened ← match node with
        | LnGenEvents id => gh ← mlift (ls_gens s !! id) NotFound; mret (Some gh)
        | _ => mret None
        end;
      w ← mget;
      on_fid sv fid (λ f, mkLlmFid (lf_node f) (Some mode) opened (lf_clone_gen f) (lf_write_buf f));;
      mret (llm_qid w s node).

Definition events_of (w : LlmWorld) (gh : nat) : result ErrorCode Stream.t :=
  match lw_cells w !! gh with Some c => Ok (gn_events (cl_gen c)) | None => Panic end.
Definition llm_read (sv : LlmFs) (fid : Fid) (offset : Offset) (count : Z) : Llm bytes :=
  s ← the_state sv;
  f ← (if bool_decide (fid = ROOT) then mret (mkLlmFid LnRoot (Some Read) None None [])
       else mlift (ls_fids s !! (sv_view sv, fid)) NotFound);
  if negb (opened_for_read (lf_mode f)) then mfail NoAccess
  else match lf_clone_gen f with
  | Some id => mret (slice (into_bytes id) offset count)
  | None =>
      w ← mget;
      match lf_node f with
      | LnGenEvents id =>
          gh ← match lf_events f with Some gh => mret gh | None => mlift (ls_gens s !! id) NotFound end;
          events ← mresult (events_of w gh);
          mresult (Stream.read events offset count)
      | node => b ← mresult (llm_computed_bytes w s sv node); mret (slice b offset count)
      end
  end.

(** A call that continues as a task of the generation: its answer is what the task
    returns *)
Definition continue_as (gh : nat) (t : LlmTask) {A} : Llm A :=
  mmodify (on_cell gh (spawn_task t));; mresult Park.

Definition llm_write (sv : LlmFs) (fid : Fid) (offset : Offset) (data : bytes) : Llm Z :=
  s ← the_state sv;
  f ← mlift (ls_fids s !! (sv_view sv, fid)) NotFound;
  if negb (opened_for_write (lf_mode f)) then mfail NoAccess
  else match lf_node f with
  | LnGenData _ =>
      start ← mlift (usize_try_from offset) BadRequest;
      end_ ← mlift (checked_add64 start (len data)) BadRequest;
      if LLM_MAX_DOC_BYTES <? end_ then mfail BadRequest
      else
        on_fid sv fid (λ f, mkLlmFid (lf_node f) (lf_mode f) (lf_events f) (lf_clone_gen f)
                              (splice (lf_write_buf f) start data));;
        mret (as_u32 (len data))
  | LnGenCtl id =>
      if negb (bool_decide (trim (from_utf8_lossy data) = "abort")) then mfail BadRequest
      else gh ← mlift (ls_gens s !! id) NotFound; continue_as gh TAbortLock
  | _ => mfail Unsupported
  end.

Definition llm_stat (sv : LlmFs) (fid : Fid) : Llm Stat :=
  s ← the_state sv;
  f ← (if bool_decide (fid = ROOT) then mret (llm_fid_at LnRoot)
       else mlift (ls_fids s !! (sv_view sv, fid)) NotFound);
  w ← mget;
  length ← match lf_node f with
    | LnGenEvents id =>
        match match lf_events f with Some gh => Some gh | None => ls_gens s !! id end with
        | Some gh => events ← mresult (events_of w gh); mret (Stream.length events)
        | None => mret 0
        end
    | node => mret (from_option len 0 (result_ok (llm_computed_bytes w s sv node)))
    end;
  mret (mkStat "" (llm_qid w s (lf_node f)) length false (llm_is_writable (lf_node f))).

Definition llm_clunk (sv : LlmFs) (fid : Fid) : Llm unit :=
  if bool_decide (fid = ROOT) then mret tt
  else
    s ← the_state sv;
    f ← mlift (ls_fids s !! (sv_view sv, fid)) NotFound;
    mmodify (on_llm_state (sv_state sv) (λ s, ls_set_fids (delete (sv_view sv, fid) (ls_fids s)) s));;
    match lf_node f with
    | LnGenData id =>
        if opened_for_write (lf_mode f) then
          gh ← mlift (ls_gens s !! id) BadRequest; continue_as gh (TCommit (lf_write_buf f))
        else mret tt
    | _ => mret tt
    end.

Definition LlmFileServer (sv : LlmFs) : FileServer LlmWorld := {|
  fs_walk := llm_walk sv; fs_open := llm_open sv; fs_read := llm_read sv; fs_write := llm_write sv;
  fs_stat := llm_stat sv;
  fs_create := λ _ _ _ _, mfail Unsupported;
  fs_remove := λ _, mfail Unsupported;
  fs_clunk := llm_clunk sv;
|}.

(** ** Connections of a server *)

(** [register_connection_inner] *)
Definition register_connection (k : nat) (name provider_name : string) (model credential_ref : option string)
    (limits : ConnectionLimits) (choice_evaluation generation : bool) (w : LlmWorld) : LlmWorld :=
  on_llm_state k (λ s, ls_bump 1 (ls_set_connections (<[name := length (lw_conns w)]> (ls_connections s)) s))
    (lw_set_conns (lw_conns w ++
       [connection_new provider_name model credential_ref (provider_capabilities_for_name provider_name)
          limits choice_evaluation generation]) w).
Definition register_connection_alias (k : nat) (alias target : string) : Llm unit :=
  w ← mget;
  s ← mindex (lw_states w !! k);
  c ← mlift (ls_connections s !! target) NotFound;
  mmodify (on_llm_state k (λ s, ls_bump 1 (ls_set_connections (<[alias := c]> (ls_connections s)) s))).

(** [connection_view]: the view gets an identifier of its own *)
Definition connection_view (sv : LlmFs) (name : string) : Llm LlmFs :=
  s ← the_state sv;
  let view := mkLlmFs (sv_state sv)
    (Some (if connection_visible sv name then {[name]} else ∅)) (ls_next_view s) in
  mmodify (on_llm_state (sv_state sv) (λ s,
    mkLlmState (ls_connections s) (ls_gens s) (ls_fids s) (ls_next_gen s) (ls_next_view s + 1)
      (ls_listing_version s)));;
  mmodify (λ w, lw_set_servers (lw_servers w ++ [view]) w);;
  mret view.

(** [connection_snapshot]: a server with a state of its own *)
Definition connection_snapshot (sv : LlmFs) (name : string) : Llm LlmFs :=
  s ← the_state sv;
  w ← mget;
  let connections : gmap string nat :=
    if connection_visible sv name then
      match ls_connections s !! name with Some k => {[name := k]} | None => ∅ end
    else ∅ in
  let snapshot := mkLlmFs (length (lw_states w)) None 0 in
  mmodify (λ w, lw_set_states (lw_states w ++ [ls_set_connections connections llm_state_new]) w);;
  mmodify (λ w, lw_set_servers (lw_servers w ++ [snapshot]) w);;
  mret snapshot.

Definition supports_choice_evaluation (sv : LlmFs) (name : string) (w : LlmWorld) : bool :=
  connection_visible sv name &&
  from_option cn_choice_evaluation false
    (s ← lw_states w !! sv_state sv; conn_at w s name).

(** [unregister_connection]: the first section, *)
Definition named_gens (w : LlmWorld) (s : LlmState) (name : string) (terminal : bool) : list (string * nat) :=
  filter (λ p, (λ g, (gn_connection_name g, gen_is_terminal (gn_status g))) <$>
                 (cl_gen <$> lw_cells w !! p.2) = Some (name, terminal))
    (map_to_list (ls_gens s)).
Definition remove_ids (ids : list string) (s : LlmState) : LlmState :=
  ls_set_gens (foldl (λ m id, delete id m) (ls_gens s) ids) s.
Definition unregister_start (k : nat) (name : string) : Llm unit :=
  w ← mget;
  s ← mindex (lw_states w !! k);
  if negb (isSome (ls_connections s !! name)) then mret tt
  else
    let active := named_gens w s name false in
    mmodify (on_llm_state k (λ s, ls_bump 1 (remove_ids (named_gens w s name true).*1
      (ls_set_connections (delete name (ls_connections s)) s))));;
    mmodify (λ w, lw_set_unregs (lw_unregs w ++ [mkUnregister k active.*2 None active.*1]) w).
(** and then a step at a time: abort the next generation, wait for that, and at the
    end remove them all. *)
Definition unregister_step (n : nat) (w : LlmWorld) : option LlmWorld :=
  u ← lw_unregs w !! n;
  match un_waiting u with
  | Some (gh, tid) =>
      match (cl_tasks <$> lw_cells w !! gh) ≫= (.!! tid) with
      | Some (TReturned _) =>
          Some (lw_set_unregs (<[n := mkUnregister (un_state u) (un_pending u) None (un_active u)]>
                  (lw_unregs w)) w)
      | _ => None
      end
  | None =>
      match un_pending u with
      | gh :: pending =>
          c ← lw_cells w !! gh;
          Some (lw_set_unregs (<[n := mkUnregister (un_state u) pending
                                        (Some (gh, length (cl_tasks c))) (un_active u)]> (lw_unregs w))
                  (on_cell gh (spawn_task TAbortLock) w))
      | [] =>
          if bool_decide (un_active u = []) then None
          else Some (lw_set_unregs (<[n := mkUnregister (un_state u) [] None []]> (lw_unregs w))
                       (on_llm_state (un_state u) (λ s, ls_bump 1 (remove_ids (un_active u) s)) w))
      end
  end.
End server.

(** ** The system *)

Section system.
Context `{JsonText} (hash_path : string → Z).
Context (parse_request : bytes → option WireRequestDocV2) (parse_choice : bytes → option ChoiceDoc).

(** What can happen next: a call through a server, a registration of the host, or a
    step of a task or of a caller inside [unregister_connection] *)
Inductive LlmLabel : Type :=
  | LlmCall (server : nat) (r : Request)
  | LlmRegister (k : nat) (name provider_name : string) (model credential_ref : option string)
      (limits : ConnectionLimits) (choice_evaluation generation : bool)
  | LlmAlias (k : nat) (alias target : string)
  | LlmView (server : nat) (name : string)
  | LlmSnapshot (server : nat) (name : string)
  | LlmUnregister (k : nat) (name : string)
  | LlmUnregisterStep (n : nat)
  | LlmTaskStep (gh tid : nat) (i : Input).

Definition cell_step (gh tid : nat) (i : Input) (w : LlmWorld) : option LlmWorld :=
  c ← lw_cells w !! gh;
  conn ← lw_conns w !! gn_connection (cl_gen c);
  '(c', conn') ← llm_task_step parse_request parse_choice gh tid i c conn;
  Some (lw_set_conns (<[gn_connection (cl_gen c) := conn']> (lw_conns w))
          (lw_set_cells (<[gh := c']> (lw_cells w)) w)).

Definition llm_step (l : LlmLabel) (w : LlmWorld) : option LlmWorld :=
  match l with
  | LlmCall server r =>
      sv ← lw_servers w !! server;
      Some (transport_call (H := LlmFileServer hash_path sv) r w).1
  | LlmRegister k name provider_name model credential_ref limits choice generation =>
      Some (register_connection k name provider_name model credential_ref limits choice generation w)
  | LlmAlias k alias target => Some (register_connection_alias k alias target w).1
  | LlmView server name => sv ← lw_servers w !! server; Some (connection_view sv name w).1
  | LlmSnapshot server name => sv ← lw_servers w !! server; Some (connection_snapshot sv name w).1
  | LlmUnregister k name => Some (unregister_start k name w).1
  | LlmUnregisterStep n => unregister_step n w
  | LlmTaskStep gh tid i => cell_step gh tid i w
  end.

Fixpoint llm_run (ls : list LlmLabel) (w : LlmWorld) : option LlmWorld :=
  match ls with
  | [] => Some w
  | l :: ls' => llm_step l w ≫= llm_run ls'
  end.
Definition llm_reachable (w : LlmWorld) : Prop := ∃ ls, llm_run ls llm_world_new = Some w.
End system.
