(* ===== verification/LlmGenFacts.v ===== *)
(** * The life of a generation

    The invariants of a generation under every interleaving of its tasks: one task
    holds [finalize]; outside it the stream is the payload, with the one terminal
    record of the status at its end exactly if the status is terminal; one driver at
    most, one call of the provider; and an abort goes through without the provider. *)
From S2P Require Import Prelude RustStd ApTypes RustText Tape Protocol LlmProviders LlmGen.

(** ** Kinds of tasks *)

Definition holds_finalize (t : LlmTask) : bool :=
  match t with
  | TReject | TRejectAppend | TChunk _ | TChunkUsage _ | TChunkAppend _ | TTerminal _ _ | TAdvance _
  | TClosed | TClosedAppend | TPublishCheck _ _ | TPublishUsage _ _ | TPublishAppend _ _
  | TFail _ _ _ | TFailAppend _ _ | TAbort | TAbortAppend | TAbortAdvance => true
  | _ => false
  end.
(** The tasks that poll the abort notification between two answers of the provider *)
Definition looping (t : LlmTask) : bool :=
  match t with
  | TStart _ _ | TStartPolled _ _ | TCalling _ | TStarted | TDrain | TDrainPolled
  | TEvaluate _ _ | TEvaluatePolled _ _ | TEvaluating _ => true
  | _ => false
  end.
(** Those that have an answer and bring it to the stream *)
Definition settling (t : LlmTask) : bool :=
  match t with
  | TChunkLock _ | TChunk _ | TChunkUsage _ | TChunkAppend _ | TTerminal _ _ | TAdvance _
  | TClosedLock | TClosed | TClosedAppend
  | TPublish _ _ _ | TPublishLock _ _ | TPublishCheck _ _ | TPublishUsage _ _ | TPublishAppend _ _
  | TFailLock _ _ _ | TFail _ _ _ | TFailAppend _ _ => true
  | _ => false
  end.
(** The tasks that work on the request of a generation *)
Definition driver (t : LlmTask) : bool := looping t || settling t.
Definition before_call (t : LlmTask) : bool :=
  match t with
  | TStart false _ | TStartPolled false _ | TEvaluate false _ | TEvaluatePolled false _ => true
  | _ => false
  end.
Definition notifying (t : LlmTask) : bool := match t with TAbortNotify => true | _ => false end.
Definition finished (t : LlmTask) : bool := match t with TReturned _ | TEnded => true | _ => false end.

(** How many tasks are of a kind *)
Fixpoint count (f : LlmTask → bool) (l : list LlmTask) : nat :=
  match l with [] => 0 | t :: l' => Nat.b2n (f t) + count f l' end.

Lemma count_insert f (l : list LlmTask) i t t' :
  l !! i = Some t → (count f (<[i := t']> l) + Nat.b2n (f t) = count f l + Nat.b2n (f t'))%nat.
Proof.
  revert i. induction l as [|x l IH]; intros [|i]; simpl; intros Hi; simplify_eq/=; [lia|].
  specialize (IH _ Hi). lia.
Qed.
Lemma count_at f (l : list LlmTask) i t : l !! i = Some t → (Nat.b2n (f t) ≤ count f l)%nat.
Proof.
  revert i. induction l as [|x l IH]; intros [|i] Hi; simplify_eq/=; [lia|]. specialize (IH i Hi). lia.
Qed.
Lemma count_app f l l' : count f (l ++ l') = (count f l + count f l')%nat.
Proof. induction l as [|x l IH]; simpl; lia. Qed.
Lemma count_pos f (l : list LlmTask) : (0 < count f l)%nat ↔ ∃ i t, l !! i = Some t ∧ f t = true.
Proof.
  induction l as [|x l IH]; simpl.
  - split; [lia|]. by intros (i & t & Hi & _).
  - destruct (f x) eqn:Ex; simpl.
    + split; [|lia]. intros _. by exists 0%nat, x.
    + rewrite IH. split.
      * intros (i & t & Hi & Ht). by exists (S i), t.
      * intros ([|i] & t & Hi & Ht); simplify_eq/=; [congruence|eauto].
Qed.

Section life.
Context `{JsonText}.
Context (parse_request : bytes → option WireRequestDocV2) (parse_choice : bytes → option ChoiceDoc).
Implicit Types (c : Cell) (g : Generation) (t : LlmTask) (conn : Connection).

(** ** The stream of a generation *)

(** The terminal record of a status *)
Definition record_of_status (s : GenStatus) (r : LogRecord) : Prop :=
  match s, r with
  | GDone, LEvent e => e = event_done
  | GDone, LEvaluation _ _ _ _ => True
  | GError, LEvent e => ∃ message, e = event_error message
  | GRejected, LEvent e => e = event_rejected
  | GAborted, LEvent e => e = event_aborted
  | _, _ => False
  end.
Definition payload (r : LogRecord) : Prop :=
  match r with
  | LEvent e => ev_done e = None ∧ ev_error e = None ∧ ev_rejected e = None ∧ ev_aborted e = None
  | LEvaluation _ _ _ _ => False
  end.
Definition log_is (g : Generation) (tail : list LogRecord) : Prop :=
  ∃ ps, Forall payload ps ∧ Stream.buf (gn_events g) = concat (record_line <$> ps ++ tail).
Definition log_settled (g : Generation) : Prop :=
  if gen_is_terminal (gn_status g)
  then ∃ r, record_of_status (gn_status g) r ∧ log_is g [r]
  else log_is g [].
(** What the task that holds [finalize] has done so far *)
Definition held_ok (t : LlmTask) (g : Generation) : Prop :=
  match t with
  | TReject | TFail _ _ _ | TChunk _ | TClosed | TAbort | TPublishCheck _ _ => log_settled g
  | TRejectAppend => gn_status g = GRejected ∧ log_is g []
  | TFailAppend _ _ | TClosedAppend => gn_status g = GError ∧ log_is g []
  | TChunkUsage _ | TChunkAppend _ | TTerminal _ _ | TAbortAppend | TPublishUsage _ _
  | TPublishAppend _ _ => gen_is_terminal (gn_status g) = false ∧ log_is g []
  | TAdvance s =>
      gen_is_terminal (gn_status g) = false ∧ ∃ r, record_of_status s r ∧ log_is g [r]
  | TAbortAdvance => gen_is_terminal (gn_status g) = false ∧ log_is g [LEvent event_aborted]
  | _ => False
  end.
(** What a task carries *)
Definition llm_task_ok (t : LlmTask) : Prop :=
  match t with
  | TFailLock s tag _ | TFail s tag _ => s = GError ∧ tag ≠ "rejected"
  | TFailAppend tag _ => tag ≠ "rejected"
  | TTerminal e s => gen_is_terminal s = true ∧ record_of_status s (LEvent e)
  | TAdvance s => gen_is_terminal s = true
  | _ => True
  end.

Definition finalize_ok (c : Cell) : Prop :=
  (∀ tid t, cl_tasks c !! tid = Some t → holds_finalize t = true → gn_finalize (cl_gen c) = Some tid) ∧
  match gn_finalize (cl_gen c) with
  | None => log_settled (cl_gen c)
  | Some tid => ∃ t, cl_tasks c !! tid = Some t ∧ holds_finalize t = true ∧ held_ok t (cl_gen c)
  end.
(** The driver, the calls of the provider, and what is left of an abort: a task that
    polls for one after it will find its permit. *)
Definition count_ok (c : Cell) : Prop :=
  let drivers := count driver (cl_tasks c) in
  let loops := count looping (cl_tasks c) in
  let calls := length (cl_calls c) in
  let waiting := (Nat.b2n (gn_abort (cl_gen c)) + count notifying (cl_tasks c))%nat in
  (calls + count before_call (cl_tasks c) ≤ 1)%nat ∧
  match gn_status (cl_gen c) with
  | GOpen => drivers = 0%nat ∧ calls = 0%nat ∧ waiting = 0%nat
  | GRunning => (drivers ≤ 1)%nat ∧ waiting = 0%nat
  | GAborted => (drivers ≤ 1 ∧ loops ≤ waiting)%nat
  | GDone | GError | GRejected => (drivers ≤ 1)%nat ∧ loops = 0%nat ∧ waiting = 0%nat
  end.
Record gen_inv (c : Cell) : Prop := {
  gi_tasks : Forall llm_task_ok (cl_tasks c);
  gi_lock : finalize_ok c;
  gi_count : count_ok c;
}.

(** ** Moves of the lock *)

(** Two generations whose stream reads the same to the holder of the lock: a claim
    of the request is the one change made without it. *)
Definition same_log g g' : Prop :=
  Stream.buf (gn_events g') = Stream.buf (gn_events g) ∧
  (gn_status g' = gn_status g ∨ gn_status g = GOpen ∧ gn_status g' = GRunning).
Lemma same_log_is g g' tail : same_log g g' → log_is g tail → log_is g' tail.
Proof. intros [Hb _] (ps & Hps & E). exists ps. by rewrite Hb. Qed.
Lemma same_settled g g' : same_log g g' → log_settled g → log_settled g'.
Proof.
  intros Hs. pose proof (λ tail, same_log_is g g' tail Hs) as Hl. unfold log_settled.
  destruct Hs as [_ [->|[-> ->]]]; simpl; [|apply Hl].
  case_match; [|apply Hl]. intros (r & Hr & Hlog). eauto.
Qed.
Lemma same_held t g g' : same_log g g' → held_ok t g → held_ok t g'.
Proof.
  intros Hs. pose proof (λ tail, same_log_is g g' tail Hs) as Hl.
  pose proof (same_settled g g' Hs). destruct Hs as [_ [Es|[Es Es']]].
  - destruct t; simpl; try done; rewrite ?Es; naive_solver.
  - destruct t; simpl; try done; rewrite ?Es, ?Es'; try (intros [? ?]; done);
      intros [_ Hr]; (split; [done|]); first [by apply Hl | naive_solver].
Qed.
Local Hint Resolve same_log_is same_settled same_held : alan.

Lemma finalize_move c c' tid t t' :
  finalize_ok c → cl_tasks c !! tid = Some t → cl_tasks c' = <[tid := t']> (cl_tasks c) →
  same_log (cl_gen c) (cl_gen c') → gn_finalize (cl_gen c') = gn_finalize (cl_gen c) →
  holds_finalize t = false → holds_finalize t' = false → finalize_ok c'.
Proof.
  intros [Hu Hl] Ht Hts Hs Hf Hh Hh'. unfold finalize_ok. rewrite Hts, Hf. split.
  - intros i x Hi Hx. destruct (decide (i = tid)) as [->|Hne].
    + rewrite list_lookup_insert_eq in Hi by (by eapply lookup_lt_Some). congruence.
    + rewrite list_lookup_insert_ne in Hi by done. by eapply Hu.
  - destruct (gn_finalize (cl_gen c)) as [h|] eqn:Eh; [|by eapply same_settled].
    destruct Hl as (x & Hx & Hxh & Hok). exists x.
    rewrite list_lookup_insert_ne by (intros ->; congruence). eauto using same_held.
Qed.
Lemma finalize_hold c c' tid t t' :
  finalize_ok c → cl_tasks c !! tid = Some t → cl_tasks c' = <[tid := t']> (cl_tasks c) →
  gn_finalize (cl_gen c') = Some tid →
  (gn_finalize (cl_gen c) = None ∨ holds_finalize t = true) →
  holds_finalize t' = true → held_ok t' (cl_gen c') → finalize_ok c'.
Proof.
  intros [Hu Hl] Ht Hts Hf Hh Hh' Hok. pose proof (lookup_lt_Some _ _ _ Ht).
  unfold finalize_ok. rewrite Hts, Hf. split.
  - intros i x Hi Hx. destruct (decide (i = tid)) as [->|Hne]; [done|].
    rewrite list_lookup_insert_ne in Hi by done. pose proof (Hu _ _ Hi Hx).
    destruct Hh as [Hh|Hh]; [congruence|]. pose proof (Hu _ _ Ht Hh). congruence.
  - exists t'. by rewrite list_lookup_insert_eq.
Qed.
Lemma finalize_release c c' tid t t' :
  finalize_ok c → cl_tasks c !! tid = Some t → cl_tasks c' = <[tid := t']> (cl_tasks c) →
  gn_finalize (cl_gen c') = None → holds_finalize t = true → holds_finalize t' = false →
  log_settled (cl_gen c') → finalize_ok c'.
Proof.
  intros [Hu Hl] Ht Hts Hf Hh Hh' Hok. unfold finalize_ok. rewrite Hts, Hf. split; [|done].
  intros i x Hi Hx. exfalso. destruct (decide (i = tid)) as [->|Hne].
  - rewrite list_lookup_insert_eq in Hi by (by eapply lookup_lt_Some). congruence.
  - rewrite list_lookup_insert_ne in Hi by done. pose proof (Hu _ _ Hi Hx).
    pose proof (Hu _ _ Ht Hh). congruence.
Qed.
Lemma finalize_spawn c t : finalize_ok c → holds_finalize t = false → finalize_ok (spawn_task t c).
Proof.
  intros [Hu Hl] Ht. split; simpl.
  - intros i x [Hi|[_ Hi]]%lookup_app_Some Hx; [by eapply Hu|].
    destruct (i - _)%nat eqn:?; simplify_eq/=; congruence.
  - destruct (gn_finalize (cl_gen c)); [|done]. destruct Hl as (x & Hx & Hr).
    exists x. split; [by apply lookup_app_l_Some|done].
Qed.
(** What holds of the generation while a task of its has the lock *)
Lemma finalize_held c tid t :
  finalize_ok c → cl_tasks c !! tid = Some t → holds_finalize t = true →
  gn_finalize (cl_gen c) = Some tid ∧ held_ok t (cl_gen c).
Proof.
  intros [Hu Hl] Ht Hh. pose proof (Hu _ _ Ht Hh) as Hf. rewrite Hf in Hl.
  destruct Hl as (x & Hx & _ & Hok). split; [done|]. by simplify_eq.
Qed.

(** ** Every step keeps the invariant *)

Lemma count_driver l : count driver l = (count looping l + count settling l)%nat.
Proof. induction l as [|t l IH]; [done|]. simpl. rewrite IH. destruct t; simpl; lia. Qed.

Lemma before_call_loops l : (count before_call l ≤ count looping l)%nat.
Proof.
  induction l as [|t l IH]; simpl; [lia|].
  enough (Nat.b2n (before_call t) ≤ Nat.b2n (looping t))%nat by lia.
  destruct t; simpl; try lia; by destruct called; simpl; lia.
Qed.

(** What replacing the task [tid] does to the counts, and their arithmetic *)
Ltac counts Ht t' :=
  rewrite !count_driver in *;
  pose proof (count_insert settling _ _ _ t' Ht); pose proof (count_insert looping _ _ _ t' Ht);
  pose proof (count_insert before_call _ _ _ t' Ht); pose proof (count_insert notifying _ _ _ t' Ht);
  pose proof (count_at settling _ _ _ Ht); pose proof (count_at looping _ _ _ Ht);
  pose proof (count_at notifying _ _ _ Ht);
  match type of Ht with ?l !! _ = _ => pose proof (before_call_loops l) end.
Ltac count_solve Hc Ht t' :=
  unfold count_ok in *; counts Ht t'; simpl in *; rewrite ?length_app, ?count_app in *; simpl in *;
  repeat match goal with
  | H : gn_status _ = _ |- _ => rewrite H in *
  | H : gn_abort _ = _ |- _ => rewrite H in *
  end; simpl in *;
  first [lia | destruct (gn_status _) eqn:?; simpl in *; first [done | lia]].

Lemma after_not_rejected chain : safe_failure_reason chain ≠ "rejected" ∧ evaluation_tag chain ≠ "rejected".
Proof.
  assert (safe_failure_reason chain ≠ "rejected") as Hs.
  { induction chain as [|s chain IH]; [done|]. simpl.
    destruct s as [| |[]| [] [] [] [] [st|]| |]; simpl; try done.
    unfold status_reason. by repeat case_match. }
  split; [done|]. unfold evaluation_tag. by case_match.
Qed.

Lemma task_keep c tid t t' :
  Forall llm_task_ok (cl_tasks c) → cl_tasks c !! tid = Some t → llm_task_ok t' →
  Forall llm_task_ok (<[tid := t']> (cl_tasks c)).
Proof. intros. by apply Forall_insert. Qed.

Lemma log_appends g ps r tail :
  Forall payload ps → Stream.buf (gn_events g) = concat (record_line <$> ps ++ []) →
  tail = [r] → Stream.buf (gn_events (gn_append (record_line r) g)) = concat (record_line <$> ps ++ tail).
Proof.
  intros _ E ->. simpl. rewrite E, !fmap_app, app_nil_r, concat_app. simpl. by rewrite app_nil_r.
Qed.
Lemma log_append g r : log_is g [] → log_is (gn_append (record_line r) g) [r].
Proof. intros (ps & Hps & E). exists ps. split; [done|]. by eapply log_appends. Qed.
Lemma log_append_payload g r : payload r → log_is g [] → log_is (gn_append (record_line r) g) [].
Proof.
  intros Hr (ps & Hps & E). exists (ps ++ [r]). split; [by apply Forall_app; auto|].
  rewrite app_nil_r. by eapply log_appends.
Qed.
Lemma log_status g s v tail : log_is (gn_set_status s v g) tail ↔ log_is g tail.
Proof. done. Qed.

(** A step that does not touch the lock *)
Lemma cell_move c c' tid t t' :
  gen_inv c → cl_tasks c !! tid = Some t → cl_tasks c' = <[tid := t']> (cl_tasks c) →
  same_log (cl_gen c) (cl_gen c') → gn_finalize (cl_gen c') = gn_finalize (cl_gen c) →
  holds_finalize t = false → holds_finalize t' = false → llm_task_ok t' → count_ok c' → gen_inv c'.
Proof.
  intros [Ht Hl Hc] ? E **. constructor; [|by eapply finalize_move|done].
  rewrite E. by eapply task_keep.
Qed.
Lemma cell_hold c c' tid t t' :
  gen_inv c → cl_tasks c !! tid = Some t → cl_tasks c' = <[tid := t']> (cl_tasks c) →
  gn_finalize (cl_gen c') = Some tid →
  (gn_finalize (cl_gen c) = None ∨ holds_finalize t = true) →
  holds_finalize t' = true → held_ok t' (cl_gen c') → llm_task_ok t' → count_ok c' → gen_inv c'.
Proof.
  intros [Ht Hl Hc] ? E **. constructor; [|by eapply finalize_hold|done].
  rewrite E. by eapply task_keep.
Qed.
Lemma cell_release c c' tid t t' :
  gen_inv c → cl_tasks c !! tid = Some t → cl_tasks c' = <[tid := t']> (cl_tasks c) →
  gn_finalize (cl_gen c') = None → holds_finalize t = true → holds_finalize t' = false →
  log_settled (cl_gen c') → llm_task_ok t' → count_ok c' → gen_inv c'.
Proof.
  intros [Ht Hl Hc] ? E **. constructor; [|by eapply finalize_release|done].
  rewrite E. by eapply task_keep.
Qed.
(** Calls that start work on a generation *)
Lemma cell_spawn c t :
  gen_inv c → llm_task_ok t → holds_finalize t = false → count_ok (spawn_task t c) → gen_inv (spawn_task t c).
Proof.
  intros [Ht Hl Hc] ???. constructor; [|by apply finalize_spawn|done]. by apply Forall_app; auto.
Qed.

(** Taking the lock: the tasks that look at the status first *)
Lemma cell_acquire c c' tid t t' :
  gen_inv c → cl_tasks c !! tid = Some t → acquire tid t' c = Some c' →
  holds_finalize t' = true → (∀ g, log_settled g → held_ok t' g) → llm_task_ok t' →
  count_ok (set_task tid t' c) → gen_inv c'.
Proof.
  intros Hi Ht Ha Hh Hok Hk Hc. unfold acquire in Ha.
  destruct (gn_finalize (cl_gen c)) eqn:Ef; [done|]. simplify_eq.
  eapply cell_hold; [exact Hi|exact Ht|done|done|by left|done| |done|by destruct Hc].
  apply Hok. destruct (gi_lock _ Hi) as [_ Hl]. rewrite Ef in Hl. by eapply same_settled; [|exact Hl]; split; [|left].
Qed.

(** The terminal record is on the stream, or comes to it *)
Lemma settled_with g r :
  record_of_status (gn_status g) r → log_is g [r] → log_settled g.
Proof. unfold log_settled. destruct (gn_status g); simpl; eauto; by intros. Qed.
Lemma settled_append g r :
  record_of_status (gn_status g) r → log_is g [] →
  log_settled (gn_set_finalize None (gn_append (record_line r) g)).
Proof. intros Hr Hl. eapply settled_with; [exact Hr|]. by apply log_append. Qed.
Lemma settled_release g : log_settled g → log_settled (gn_set_finalize None g).
Proof. done. Qed.
Lemma fail_event_error tag : tag ≠ "rejected" → record_of_status GError (LEvent (fail_event tag)).
Proof. intros Ht. unfold fail_event. rewrite bool_decide_eq_false_2 by done. case_bool_decide; simpl; eauto. Qed.
Lemma advance_settles g s r :
  gen_is_terminal (gn_status g) = false → gen_is_terminal s = true → record_of_status s r → log_is g [r] →
  log_settled (gn_set_finalize None (default g (gen_advance s g))) ∧
  gn_status (default g (gen_advance s g)) = s.
Proof.
  intros Hg Hs Hr Hl. unfold gen_advance. rewrite Hg. simpl. split; [|done]. by eapply settled_with.
Qed.
Lemma nonterminal_settled g : log_settled g → gen_is_terminal (gn_status g) = false → log_is g [].
Proof. unfold log_settled. intros Hl E. by rewrite E in Hl. Qed.
Local Hint Resolve settled_append settled_release fail_event_error nonterminal_settled : alan.

(** What the invariant says of the task that moves *)
Ltac the_task Hi Ht :=
  let Hc := fresh "Hc" in let Hok := fresh "Hok" in let Hh := fresh "Hh" in
  pose proof (gi_count _ Hi) as Hc;
  pose proof (Forall_lookup_1 _ _ _ _ (gi_tasks _ Hi) Ht) as Hok;
  pose proof (finalize_held _ _ _ (gi_lock _ Hi) Ht) as Hh.
Ltac holder Hh := specialize (Hh eq_refl); destruct Hh as [Hf Hh].

Lemma settle_step_inv tid t i c c' :
  gen_inv c → cl_tasks c !! tid = Some t → settle_step tid t i c = Some c' → gen_inv c'.
Proof.
  intros Hi Ht. the_task Hi Ht.
  destruct t, i; simpl; intros Hs; try discriminate; simpl in Hok, Hh; try holder Hh.
  - eapply cell_acquire; [exact Hi|exact Ht|exact Hs|done|done|done|]. count_solve Hc Ht (TFail s tag k).
  - destruct Hok as [-> Hok]. unfold gen_advance in Hs.
    destruct (gen_is_terminal (gn_status (cl_gen c))) eqn:Es; simplify_eq.
    + eapply cell_release; [exact Hi|exact Ht|done|done|done|by destruct k|done|by destruct k|].
      destruct k; [count_solve Hc Ht (after_task ReturnIo)|count_solve Hc Ht (after_task EndTask)].
    + eapply cell_hold; [exact Hi|exact Ht|done|done|by right|done| |done|].
      * split; [done|]. exact (nonterminal_settled _ Hh Es).
      * count_solve Hc Ht (TFailAppend tag k).
  - destruct Hh as [Hst Hl]. simplify_eq.
    eapply cell_release; [exact Hi|exact Ht|done|done|done|by destruct k| |by destruct k|].
    + apply settled_append; [|done]. rewrite Hst. by apply fail_event_error.
    + destruct k; [count_solve Hc Ht (after_task ReturnIo)|count_solve Hc Ht (after_task EndTask)].
  - eapply cell_acquire; [exact Hi|exact Ht|exact Hs|done|done|done|]. count_solve Hc Ht TAbort.
  - destruct (gen_is_terminal (gn_status (cl_gen c))) eqn:Es; simplify_eq.
    + eapply cell_release; [exact Hi|exact Ht|done|done|done|done|done|done|].
      count_solve Hc Ht (TReturned (Err BadRequest)).
    + eapply cell_hold; [exact Hi|exact Ht|done|done|by right|done| |done|].
      * split; [done|]. exact (nonterminal_settled _ Hh Es).
      * count_solve Hc Ht TAbortAppend.
  - destruct Hh as [Es Hl]. simplify_eq.
    eapply cell_hold; [exact Hi|exact Ht|done|done|by right|done| |done|].
    + split; [done|]. by apply log_append.
    + count_solve Hc Ht TAbortAdvance.
  - destruct Hh as [Es Hl]. simplify_eq.
    destruct (advance_settles (cl_gen c) GAborted (LEvent event_aborted) Es eq_refl eq_refl Hl) as [Hset Hst].
    eapply cell_release; [exact Hi|exact Ht|done|done|done|done|exact Hset|done|].
    unfold gen_advance in *. rewrite Es in *. count_solve Hc Ht TAbortNotify.
  - simplify_eq. eapply cell_move; [exact Hi|exact Ht|done|by split; [|left]|done|done|done|done|].
    count_solve Hc Ht (TReturned (Ok tt)).
Qed.

(** A status claimed without the lock leaves the stream as it reads *)
Lemma claim_same g g' : gen_claim GRunning g = Some g' → same_log g g' ∧ gn_finalize g' = gn_finalize g ∧
  gn_status g = GOpen ∧ gn_status g' = GRunning ∧ gn_abort g' = gn_abort g.
Proof.
  unfold gen_claim. case_bool_decide as Es; [|done]. intros [= <-]. simpl. unfold same_log. simpl. auto.
Qed.
Lemma poll_abort_inv c tid t stopped polled :
  gen_inv c → cl_tasks c !! tid = Some t → looping t = true → settling t = false →
  finished stopped = true → looping polled = true → before_call polled = before_call t →
  gen_inv (poll_abort tid stopped polled c).
Proof.
  intros Hi Ht Hl Hs Hst Hp Hb. pose proof (gi_count _ Hi) as Hc. unfold poll_abort.
  assert (holds_finalize t = false ∧ notifying t = false) as [Hh Hn] by (by destruct t).
  assert (holds_finalize polled = false ∧ settling polled = false ∧ notifying polled = false ∧
          llm_task_ok polled) as (Hph & Hps & Hpn & Hpo) by (by destruct polled).
  assert (holds_finalize stopped = false ∧ settling stopped = false ∧ notifying stopped = false ∧
    looping stopped = false ∧ before_call stopped = false ∧ llm_task_ok stopped)
    as (Hsh & Hss & Hsn & Hsl & Hsb & Hso) by (by destruct stopped).
  destruct (gn_abort (cl_gen c)) eqn:Ea.
  - eapply cell_move; [exact Hi|exact Ht|done|by split; [|left]|done|done|done|done|].
    unfold count_ok in *. counts Ht stopped. rewrite ?Hl, ?Hs, ?Hn, ?Hss, ?Hsn, ?Hsl, ?Hsb, ?Ea in *. simpl in *. rewrite ?Ea.
    destruct (gn_status _); simpl; lia.
  - eapply cell_move; [exact Hi|exact Ht|done|by split; [|left]|done|done|done|done|].
    unfold count_ok in *. counts Ht polled. rewrite ?Hl, ?Hs, ?Hn, ?Hps, ?Hpn, ?Hp, ?Hb, ?Ea in *. simpl in *. rewrite ?Ea.
    destruct (gn_status _); simpl; lia.
Qed.

(** A task that goes on to another step on its own *)
Ltac moves Hi Ht Hc t' :=
  eapply cell_move; [exact Hi|exact Ht|done|by split; [|left]|done|done|done|try done|count_solve Hc Ht t'].

Lemma cell_move_spawn c c' tid t t' t'' :
  gen_inv c → cl_tasks c !! tid = Some t → cl_tasks c' = <[tid := t']> (cl_tasks c) →
  same_log (cl_gen c) (cl_gen c') → gn_finalize (cl_gen c') = gn_finalize (cl_gen c) →
  holds_finalize t = false → holds_finalize t' = false → llm_task_ok t' →
  holds_finalize t'' = false → llm_task_ok t'' → count_ok (spawn_task t'' c') → gen_inv (spawn_task t'' c').
Proof.
  intros [Hts Hl Hc] Ht E **. constructor; [|apply finalize_spawn; [by eapply finalize_move|done]|done].
  simpl. rewrite E. apply Forall_app. split; [by eapply task_keep|by apply Forall_singleton].
Qed.

Lemma commit_section_inv tid buf capabilities c :
  gen_inv c → cl_tasks c !! tid = Some (TCommit buf) →
  gen_inv (commit_section parse_request parse_choice tid buf capabilities c).
Proof.
  intros Hi Ht. pose proof (gi_count _ Hi) as Hc. unfold commit_section.
  repeat case_match; try (moves Hi Ht Hc TRejectLock);
    try (moves Hi Ht Hc (TReturned (Err BadRequest)));
    match goal with H : gen_claim _ _ = Some ?x |- _ => destruct (claim_same _ _ H) as (Hs & Hf & Eo & Er & Ea) end.
  - eapply cell_move_spawn; [exact Hi|exact Ht|done|done|done|done|done|done|done|done|].
    simpl in *. unfold count_ok in *. counts Ht (TReturned (Ok tt)). simpl in *. rewrite !count_app.
    rewrite Er, Ea, Eo in *. simpl in *. lia.
  - eapply cell_move; [exact Hi|exact Ht|done|done|done|done|done|done|].
    unfold count_ok in *. simpl in *.
    match goal with |- context [TStart false ?r] => counts Ht (TStart false r) end.
    simpl in *. rewrite Er, Ea, Eo in *. simpl in *. lia.
Qed.

Lemma start_step_inv gh tid t i c conn c' conn' :
  gen_inv c → cl_tasks c !! tid = Some t →
  start_step parse_request parse_choice gh tid t i c conn = Some (c', conn') → gen_inv c'.
Proof.
  intros Hi Ht. the_task Hi Ht.
  destruct t, i; simpl; try discriminate; simpl in Hok, Hh; try holder Hh; intros Hs;
    try (destruct called; discriminate).
  - simplify_eq. by apply commit_section_inv.
  - destruct (acquire _ _ _) eqn:Ha; simplify_eq/=.
    eapply cell_acquire; [exact Hi|exact Ht|exact Ha|done|done|done|]. count_solve Hc Ht TReject.
  - unfold gen_claim in Hs. case_bool_decide as Es; simplify_eq.
    + eapply cell_hold; [exact Hi|exact Ht|done|done|by right|done| |done|].
      * split; [done|]. apply (nonterminal_settled _ Hh). by rewrite Es.
      * count_solve Hc Ht TRejectAppend.
    + eapply cell_release; [exact Hi|exact Ht|done|done|done|done|done|done|].
      count_solve Hc Ht (TReturned (Err BadRequest)).
  - destruct Hh as [Es Hl]. simplify_eq.
    eapply cell_release; [exact Hi|exact Ht|done|done|done|done| |done|].
    + apply settled_append; [|done]. by rewrite Es.
    + count_solve Hc Ht (TReturned (Err BadRequest)).
  - simplify_eq. by eapply poll_abort_inv.
  - destruct called; [|destruct (cn_busy conn); [done|]]; simplify_eq.
    + moves Hi Ht Hc (TCalling r).
    + moves Hi Ht Hc (TCalling r).
  - destruct called; simplify_eq; [moves Hi Ht Hc (TStart true r)|moves Hi Ht Hc (TStart false r)].
  - simplify_eq. moves Hi Ht Hc (TStart true r).
  - destruct failure as [chain|]; simplify_eq.
    + eapply cell_move; [exact Hi|exact Ht|done|by split; [|left]|done|done|done| |].
      * split; [done|]. apply after_not_rejected.
      * count_solve Hc Ht (TFailLock GError (safe_failure_reason chain) ReturnIo).
    + moves Hi Ht Hc TStarted.
  - case_bool_decide as Es; simplify_eq; [moves Hi Ht Hc (TReturned (Ok tt))|].
    eapply cell_move_spawn; [exact Hi|exact Ht|done|by split; [|left]|done|done|done|done|done|done|].
    count_solve Hc Ht (TReturned (Ok tt)).
Qed.

Lemma chunk_payload ck e : chunk_record ck = Some e → payload (LEvent e).
Proof. unfold chunk_record. case_match; [done|]. by intros [= <-]. Qed.
Lemma finish_ok ck : llm_task_ok (finish_of ck).
Proof. unfold finish_of. case_match; simpl; eauto. Qed.
(** Recording usage changes neither the stream nor the status *)
Lemma use_usage_same u c conn :
  cl_tasks (use_usage u c conn).1 = cl_tasks c ∧ cl_calls (use_usage u c conn).1 = cl_calls c ∧
  gn_events (cl_gen (use_usage u c conn).1) = gn_events (cl_gen c) ∧
  gn_status (cl_gen (use_usage u c conn).1) = gn_status (cl_gen c) ∧
  gn_abort (cl_gen (use_usage u c conn).1) = gn_abort (cl_gen c) ∧
  gn_finalize (cl_gen (use_usage u c conn).1) = gn_finalize (cl_gen c).
Proof. by destruct u. Qed.
Lemma use_usage_inv tid t t' u c conn c' conn' :
  gen_inv c → cl_tasks c !! tid = Some t → use_usage u (set_task tid t' c) conn = (c', conn') →
  gn_finalize (cl_gen c) = Some tid → holds_finalize t = true → holds_finalize t' = true →
  held_ok t' (cl_gen c) → llm_task_ok t' → count_ok (set_task tid t' c) → gen_inv c'.
Proof.
  intros Hi Ht Hu Hf Hh Hh' Hok Htk Hc.
  destruct (use_usage_same u (set_task tid t' c) conn) as (E1 & E2 & E3 & E4 & E5 & E6).
  rewrite Hu in *. simpl in *.
  eapply cell_hold; [exact Hi|exact Ht|done|congruence|by right|done| |done|].
  - eapply same_held; [|exact Hok]. split; [by rewrite E3|by left].
  - unfold count_ok in *. by rewrite E1, E2, E4, E5.
Qed.

Lemma append_payload_inv tid ck c :
  gen_inv c → cl_tasks c !! tid = Some (TChunkAppend ck) →
  let c1 := match chunk_record ck with Some e => append_record (LEvent e) c | None => c end in
  gen_inv c1 ∧ cl_tasks c1 !! tid = Some (TChunkAppend ck).
Proof.
  intros Hi Ht. simpl. destruct (chunk_record ck) as [e|] eqn:Er; [|done]. split; [|done].
  destruct (finalize_held _ _ _ (gi_lock _ Hi) Ht eq_refl) as [Hf [Es Hl]].
  eapply (cell_hold c _ tid _ (TChunkAppend ck)); [exact Hi|exact Ht| |done|by right|done| |done|exact (gi_count _ Hi)].
  - simpl. by rewrite list_insert_id.
  - split; [done|]. apply (log_append_payload _ (LEvent e)); [by eapply chunk_payload|done].
Qed.

Lemma drain_step_inv tid t i c conn c' conn' :
  gen_inv c → cl_tasks c !! tid = Some t → drain_step tid t i c conn = Some (c', conn') → gen_inv c'.
Proof.
  intros Hi Ht. the_task Hi Ht.
  destruct t, i; simpl; try discriminate; simpl in Hok, Hh; try holder Hh; intros Hs.
  - simplify_eq. by eapply poll_abort_inv.
  - simplify_eq. moves Hi Ht Hc TDrain.
  - destruct c0 as [chunk|]; simplify_eq; [moves Hi Ht Hc (TChunkLock chunk)|moves Hi Ht Hc TClosedLock].
  - destruct (acquire _ _ _) eqn:Ha; simplify_eq/=.
    eapply cell_acquire; [exact Hi|exact Ht|exact Ha|done|done|done|]. count_solve Hc Ht (TChunk c0).
  - destruct (gen_is_terminal (gn_status (cl_gen c))) eqn:Es; simplify_eq.
    + eapply cell_release; [exact Hi|exact Ht|done|done|done|done|done|done|]. count_solve Hc Ht TEnded.
    + eapply cell_hold; [exact Hi|exact Ht|done|done|by right|done| |done|].
      * split; [done|]. exact (nonterminal_settled _ Hh Es).
      * count_solve Hc Ht (TChunkUsage (safe_chunk c0)).
  - simplify_eq. eapply (use_usage_inv tid _ (TChunkAppend c0)); [exact Hi|exact Ht|eassumption|done..|].
    count_solve Hc Ht (TChunkAppend c0).
  - destruct (append_payload_inv _ _ _ Hi Ht) as (Hi1 & Ht1).
    set (c1 := match chunk_record c0 with Some e => append_record (LEvent e) c | None => c end) in *.
    clearbody c1. clear Hc Hf Hh. destruct (finalize_held _ _ _ (gi_lock _ Hi1) Ht1 eq_refl) as [Hf [Es Hl]].
    pose proof (gi_count _ Hi1) as Hc.
    destruct (ck_is_finished c0); simplify_eq.
    + eapply cell_hold; [exact Hi1|exact Ht1|done|done|by right| | |apply finish_ok|];
        unfold finish_of; destruct (chunk_errored c0); try done.
      * count_solve Hc Ht1 (TTerminal (event_error (default "" (ck_finish_reason c0))) GError).
      * count_solve Hc Ht1 (TTerminal event_done GDone).
    + eapply cell_release; [exact Hi1|exact Ht1|done|done|done|done| |done|].
      * unfold log_settled. simpl. by rewrite Es.
      * count_solve Hc Ht1 TDrain.
  - destruct Hh as [Es Hl], Hok as [Hs' Hr]. simplify_eq.
    eapply cell_hold; [exact Hi|exact Ht|done|done|by right|done| |done|].
    + split; [done|]. exists (LEvent e). split; [done|]. by apply log_append.
    + count_solve Hc Ht (TAdvance s).
  - destruct Hh as (Es & r & Hr & Hl). simplify_eq.
    destruct (advance_settles (cl_gen c) s r Es Hok Hr Hl) as [Hset Hst].
    eapply cell_release; [exact Hi|exact Ht|done|done|done|done|exact Hset|done|].
    unfold gen_advance in *. rewrite Es in *. destruct s; try done; count_solve Hc Ht TEnded.
  - destruct (acquire _ _ _) eqn:Ha; simplify_eq/=.
    eapply cell_acquire; [exact Hi|exact Ht|exact Ha|done|done|done|]. count_solve Hc Ht TClosed.
  - unfold gen_advance in Hs. destruct (gen_is_terminal (gn_status (cl_gen c))) eqn:Es; simplify_eq.
    + eapply cell_release; [exact Hi|exact Ht|done|done|done|done|done|done|]. count_solve Hc Ht TEnded.
    + eapply cell_hold; [exact Hi|exact Ht|done|done|by right|done| |done|].
      * split; [done|]. exact (nonterminal_settled _ Hh Es).
      * count_solve Hc Ht TClosedAppend.
  - destruct Hh as [Es Hl]. simplify_eq.
    eapply cell_release; [exact Hi|exact Ht|done|done|done|done| |done|].
    + apply settled_append; [|done]. rewrite Es. simpl. eauto.
    + count_solve Hc Ht TEnded.
Qed.

Lemma evaluate_step_inv gh tid t i c conn c' conn' :
  gen_inv c → cl_tasks c !! tid = Some t → evaluate_step gh tid t i c conn = Some (c', conn') → gen_inv c'.
Proof.
  intros Hi Ht. the_task Hi Ht.
  destruct t, i; simpl; try discriminate; simpl in Hok, Hh; try holder Hh; intros Hs;
    try (destruct called; discriminate).
  - simplify_eq. by eapply poll_abort_inv.
  - destruct called; [|destruct (cn_busy conn); [done|]]; simplify_eq; moves Hi Ht Hc (TEvaluating r).
  - destruct called; simplify_eq; [moves Hi Ht Hc (TEvaluate true r)|moves Hi Ht Hc (TEvaluate false r)].
  - destruct called; simplify_eq; moves Hi Ht Hc (TFailLock GError "evaluation_timeout" EndTask).
  - simplify_eq. moves Hi Ht Hc (TEvaluate true r).
  - destruct answer as [chain|[selection usage]]; simplify_eq.
    + eapply cell_move; [exact Hi|exact Ht|done|by split; [|left]|done|done|done| |].
      * split; [done|]. apply after_not_rejected.
      * count_solve Hc Ht (TFailLock GError (evaluation_tag chain) EndTask).
    + moves Hi Ht Hc (TPublish r selection usage).
  - simplify_eq. moves Hi Ht Hc (TFailLock GError "evaluation_timeout" EndTask).
  - destruct (validate_selection r s); simplify_eq; [moves Hi Ht Hc (TPublishLock s u)|].
    moves Hi Ht Hc (TFailLock GError "invalid_evaluation_selection" EndTask).
  - destruct (acquire _ _ _) eqn:Ha; simplify_eq/=.
    eapply cell_acquire; [exact Hi|exact Ht|exact Ha|done|done|done|]. count_solve Hc Ht (TPublishCheck s u).
  - destruct (gen_is_terminal (gn_status (cl_gen c))) eqn:Es; simplify_eq.
    + eapply cell_release; [exact Hi|exact Ht|done|done|done|done|done|done|]. count_solve Hc Ht TEnded.
    + eapply cell_hold; [exact Hi|exact Ht|done|done|by right|done| |done|].
      * split; [done|]. exact (nonterminal_settled _ Hh Es).
      * count_solve Hc Ht (TPublishUsage s u).
  - simplify_eq. eapply (use_usage_inv tid _ (TPublishAppend s u)); [exact Hi|exact Ht|eassumption|done..|].
    count_solve Hc Ht (TPublishAppend s u).
  - destruct Hh as [Es Hl]. simplify_eq.
    eapply cell_hold; [exact Hi|exact Ht|done|done|by right|done| |done|].
    + split; [done|]. eexists. split; [|by apply log_append]. done.
    + count_solve Hc Ht (TAdvance GDone).
Qed.

(** The kinds of steps *)
Lemma task_step_cases gh tid i c conn c' conn' :
  llm_task_step parse_request parse_choice gh tid i c conn = Some (c', conn') →
  ∃ t, cl_tasks c !! tid = Some t ∧
    (start_step parse_request parse_choice gh tid t i c conn = Some (c', conn') ∨
     drain_step tid t i c conn = Some (c', conn') ∨
     evaluate_step gh tid t i c conn = Some (c', conn') ∨
     (settle_step tid t i c = Some c' ∧ conn' = conn) ∨
     drop_step tid t i c conn = Some (c', conn')).
Proof.
  unfold llm_task_step. destruct (cl_tasks c !! tid) as [t|]; [|done]. exists t. split; [done|].
  repeat case_match; simplify_eq; auto 6.
Qed.
Lemma drop_step_inv tid t i c conn c' conn' :
  gen_inv c → cl_tasks c !! tid = Some t → drop_step tid t i c conn = Some (c', conn') → gen_inv c'.
Proof.
  intros Hi Ht. pose proof (gi_count _ Hi) as Hc. destruct i; try done. simpl.
  destruct t; simpl; try done;
    try (match goal with k : After |- _ => destruct k end; [|done]);
    intros [= <- <-]; moves Hi Ht Hc TEnded.
Qed.
Lemma task_step_inv gh tid i c conn c' conn' :
  llm_task_step parse_request parse_choice gh tid i c conn = Some (c', conn') → gen_inv c → gen_inv c'.
Proof.
  intros Hs Hi. destruct (task_step_cases _ _ _ _ _ _ _ Hs) as (t & Ht & [H1|[H1|[H1|[[H1 _]|H1]]]]);
    eauto using start_step_inv, drain_step_inv, evaluate_step_inv, settle_step_inv, drop_step_inv.
Qed.

(** Calls that come to a generation *)
Lemma spawn_call_inv c t :
  gen_inv c → holds_finalize t = false → driver t = false → before_call t = false →
  notifying t = false → llm_task_ok t → gen_inv (spawn_task t c).
Proof.
  intros Hi Hh Hd Hb Hn Hok. pose proof (gi_count _ Hi) as Hc. apply cell_spawn; [done..|].
  unfold count_ok in *. simpl. rewrite !count_app, !count_driver in *. simpl.
  unfold driver in Hd. apply orb_false_iff in Hd as [Hl Hs]. rewrite Hl, Hs, Hb, Hn. simpl.
  rewrite !Nat.add_0_r. exact Hc.
Qed.
Lemma gen_inv_new k name seq ev : gen_inv (mkCell (generation_new k name seq ev) [] []).
Proof.
  constructor; [constructor| |by vm_compute; lia]. split; [done|]. by exists [].
Qed.

(** ** A terminal generation is final *)

Definition appending (t : LlmTask) : bool :=
  match t with TRejectAppend | TFailAppend _ _ | TClosedAppend => true | _ => false end.
(** The status is terminal and its record is on the stream *)
Definition closed (c : Cell) : Prop :=
  gen_is_terminal (gn_status (cl_gen c)) = true ∧ count appending (cl_tasks c) = 0%nat.
Definition same_end c c' : Prop :=
  gn_status (cl_gen c') = gn_status (cl_gen c) ∧ gn_events (cl_gen c') = gn_events (cl_gen c).

Lemma closed_unlocked c :
  gen_inv c → gen_is_terminal (gn_status (cl_gen c)) = true → gn_finalize (cl_gen c) = None → closed c.
Proof.
  intros Hi Hs Hf. split; [done|]. destruct (decide (count appending (cl_tasks c) = 0%nat)) as [|Hn]; [done|].
  destruct (proj1 (count_pos appending (cl_tasks c))) as (i & t & Ht & Ha); [lia|].
  pose proof (proj1 (gi_lock _ Hi) _ _ Ht) as Hu. rewrite Hf in Hu. by destruct t; try done; specialize (Hu eq_refl).
Qed.
Lemma closed_settled c : gen_inv c → closed c → log_settled (cl_gen c).
Proof.
  intros Hi [Hs Ha]. destruct (gi_lock _ Hi) as [_ Hl].
  destruct (gn_finalize (cl_gen c)) as [tid|]; [|done]. destruct Hl as (t & Ht & _ & Hok).
  pose proof (count_at appending _ _ _ Ht). destruct t; simpl in *; try done; try lia; naive_solver congruence.
Qed.

(** The rest of a step of a closed generation: another task in the place of [t] *)
Lemma closed_task c c' tid t t' :
  closed c → cl_tasks c !! tid = Some t → cl_tasks c' = <[tid := t']> (cl_tasks c) →
  gn_status (cl_gen c') = gn_status (cl_gen c) → gn_events (cl_gen c') = gn_events (cl_gen c) →
  appending t' = false → closed c' ∧ same_end c c'.
Proof.
  intros [Hs Ha] Ht E Es Ev Hn. pose proof (count_insert appending _ _ _ t' Ht) as Hi.
  rewrite Hn in Hi. split; [|by split]. split; [by rewrite Es|]. rewrite E. simpl in Hi. lia.
Qed.
Lemma closed_spawn c c' t : closed c' ∧ same_end c c' → appending t = false →
  closed (spawn_task t c') ∧ same_end c (spawn_task t c').
Proof.
  intros [[Hs Ha] He] Ht. split; [|done]. split; [done|]. simpl. rewrite count_app, Ha. simpl. by rewrite Ht.
Qed.
Lemma claim_terminal s g : gen_is_terminal (gn_status g) = true → gen_claim s g = None.
Proof. unfold gen_claim. intros Hs. by destruct (gn_status g). Qed.
Lemma advance_terminal s g : gen_is_terminal (gn_status g) = true → gen_advance s g = None.
Proof. unfold gen_advance. by intros ->. Qed.
Lemma closed_acquire c c' tid t t' :
  closed c → cl_tasks c !! tid = Some t → acquire tid t' c = Some c' → appending t' = false →
  closed c' ∧ same_end c c'.
Proof.
  intros Hc Ht Ha Hn. unfold acquire in Ha. destruct (gn_finalize (cl_gen c)); [done|]. simplify_eq.
  by eapply closed_task.
Qed.
Lemma closed_poll c tid t stopped polled :
  closed c → cl_tasks c !! tid = Some t → appending stopped = false → appending polled = false →
  closed (poll_abort tid stopped polled c) ∧ same_end c (poll_abort tid stopped polled c).
Proof. intros Hc Ht ??. unfold poll_abort. case_match; by eapply closed_task. Qed.

(** A step of a closed generation: what it can no longer do is refuted *)
Ltac closed_case Hc Ht :=
  first
  [ discriminate
  | match goal with H : held_ok _ _ |- _ => simpl in H; destruct H; congruence end
  | by eapply closed_task; [exact Hc|exact Ht|..]
  | by eapply closed_poll; [exact Hc|exact Ht|..]
  | by eapply closed_acquire; [exact Hc|exact Ht|eassumption|..] ].

Lemma task_step_closed gh tid i c conn c' conn' :
  llm_task_step parse_request parse_choice gh tid i c conn = Some (c', conn') →
  gen_inv c → closed c → closed c' ∧ same_end c c'.
Proof.
  intros Hs Hi Hc. destruct (task_step_cases _ _ _ _ _ _ _ Hs) as (t & Ht & Hstep).
  pose proof (proj1 Hc) as Hterm. pose proof (count_at appending _ _ _ Ht) as Ha. rewrite (proj2 Hc) in Ha.
  pose proof (finalize_held _ _ _ (gi_lock _ Hi) Ht) as Hh.
  destruct Hstep as [Hs1|[Hs1|[Hs1|[[Hs1 _]|Hs1]]]]; destruct t, i; simpl in Hs1; try discriminate;
    simpl in Ha; try lia; try (specialize (Hh eq_refl); destruct Hh as [Hf Hh]);
    rewrite ?claim_terminal, ?advance_terminal, ?Hterm in Hs1 by done; try (destruct called; discriminate);
    try (simpl in Hh; destruct Hh; congruence).
  all: try (unfold commit_section in Hs1; rewrite ?claim_terminal in Hs1 by done).
  all: repeat match goal with H : context [match ?x with _ => _ end] |- _ => destruct x eqn:? end; simplify_eq/=.
  all: try closed_case Hc Ht.
  all: try (destruct (acquire _ _ _) eqn:?; simplify_eq/=; closed_case Hc Ht).
  - apply closed_spawn; [by eapply closed_task|done].
  - eapply closed_task; [exact Hc|exact Ht|done..|]. by destruct k.
Qed.

(** ** An abort goes through without the provider *)

(** Inputs that are no answer of the provider *)
Definition no_answer (i : Input) : bool := match i with ITick | IPending => true | _ => false end.
(** The steps a task has left if the provider says nothing more *)
Definition steps_left (t : LlmTask) : nat :=
  match t with
  | TCommit _ => 6 | TRejectLock => 3 | TReject => 2 | TRejectAppend => 1
  | TStart _ _ => 1 | TStartPolled _ _ => 2 | TCalling _ => 2 | TStarted => 3
  | TDrain => 1 | TDrainPolled => 2
  | TChunkLock _ => 8 | TChunk _ => 7 | TChunkUsage _ => 6 | TChunkAppend _ => 5
  | TTerminal _ _ => 4 | TAdvance _ => 3
  | TClosedLock => 3 | TClosed => 2 | TClosedAppend => 1
  | TEvaluate _ _ => 1 | TEvaluatePolled _ _ => 2 | TEvaluating _ => 2
  | TPublish _ _ _ => 9 | TPublishLock _ _ => 8 | TPublishCheck _ _ => 7 | TPublishUsage _ _ => 6
  | TPublishAppend _ _ => 5
  | TFailLock _ _ _ => 3 | TFail _ _ _ => 2 | TFailAppend _ _ => 1
  | TAbortLock => 6 | TAbort => 5 | TAbortAppend => 4 | TAbortAdvance => 3 | TAbortNotify => 1
  | TReturned _ | TEnded => 0
  end.
Fixpoint work (l : list LlmTask) : nat :=
  match l with [] => 0 | t :: l' => steps_left t + work l' end.
Lemma work_less (l : list LlmTask) tid t t' :
  l !! tid = Some t → (steps_left t' < steps_left t)%nat → (work (<[tid := t']> l) < work l)%nat.
Proof.
  revert tid. induction l as [|x l IH]; intros [|tid] Hi Hr; simplify_eq/=; [lia|].
  specialize (IH _ Hi Hr). lia.
Qed.
Lemma work_done (l : list LlmTask) tid t : work l = 0%nat → l !! tid = Some t → finished t = true.
Proof.
  revert tid. induction l as [|x l IH]; intros [|tid] Hw Hi; simplify_eq/=; [|apply (IH tid); [lia|done]].
  destruct t; simpl in Hw; try done; lia.
Qed.
Lemma work_left (l : list LlmTask) : (0 < work l)%nat → ∃ tid t, l !! tid = Some t ∧ (0 < steps_left t)%nat.
Proof.
  induction l as [|x l IH]; simpl; [lia|]. intros Hw. destruct (steps_left x) eqn:Er.
  - destruct IH as (tid & t & Hi & Hr); [lia|]. by exists (S tid), t.
  - exists 0%nat, x. split; [done|lia].
Qed.

Definition steps_down (gh tid : nat) (i : Input) c conn : Prop :=
  ∃ c' conn', llm_task_step parse_request parse_choice gh tid i c conn = Some (c', conn') ∧
    (work (cl_tasks c') < work (cl_tasks c))%nat.
Ltac step_down Ht :=
  eexists _, _; split; [reflexivity|]; simpl; eapply work_less; [exact Ht|];
  unfold finish_of, after_task; repeat case_match; simpl; lia.

(** Whoever holds the lock goes on. *)
Lemma holder_steps_down gh tid t c conn :
  cl_tasks c !! tid = Some t → holds_finalize t = true → steps_down gh tid ITick c conn.
Proof.
  intros Ht Hh. unfold steps_down, llm_task_step. rewrite Ht.
  destruct t; try done; simpl; repeat case_match; simplify_eq; try (step_down Ht).
  all: eexists _, _; split; [apply f_equal, surjective_pairing|];
    rewrite (proj1 (use_usage_same _ _ _)); simpl; eapply work_less; [exact Ht|]; simpl; lia.
Qed.

(** The generation is terminal or is about to be aborted. *)
Definition aborting (t : LlmTask) : bool :=
  match t with TAbortLock | TAbort | TAbortAppend | TAbortAdvance => true | _ => false end.
Definition ending c : Prop :=
  gen_is_terminal (gn_status (cl_gen c)) = true ∨ (0 < count aborting (cl_tasks c))%nat.

(** A task waiting for the lock gets it when it is free. *)
Lemma waiting_steps_down gh tid t c conn :
  cl_tasks c !! tid = Some t → gn_finalize (cl_gen c) = None → holds_finalize t = false →
  looping t = false → (0 < steps_left t)%nat → (∀ buf, t ≠ TCommit buf) → steps_down gh tid ITick c conn.
Proof.
  intros Ht Hf Hh Hl Hr Hb. unfold steps_down, llm_task_step, acquire. rewrite Ht.
  destruct t; try done; simpl in *; try lia; unfold acquire; rewrite ?Hf; try (by destruct (Hb buf)); simpl;
    try (step_down Ht).
  destruct (validate_selection r s); step_down Ht.
Qed.
Lemma commit_steps_down gh tid buf c conn :
  cl_tasks c !! tid = Some (TCommit buf) → gen_is_terminal (gn_status (cl_gen c)) = true →
  steps_down gh tid ITick c conn.
Proof.
  intros Ht Hs. unfold steps_down, llm_task_step. rewrite Ht. simpl. unfold commit_section.
  rewrite !claim_terminal by done. repeat case_match; step_down Ht.
Qed.
Lemma loop_steps_down gh tid t c conn :
  cl_tasks c !! tid = Some t → looping t = true → gn_abort (cl_gen c) = true →
  gn_status (cl_gen c) = GAborted → ∃ i, no_answer i = true ∧ steps_down gh tid i c conn.
Proof.
  intros Ht Hl Ha Hs. unfold steps_down, llm_task_step, poll_abort. rewrite Ht.
  destruct t; try done; simpl; unfold poll_abort; rewrite ?Ha, ?Hs;
    [exists ITick|exists IPending|exists IPending|exists ITick|exists ITick|exists IPending|exists ITick
    |exists IPending|exists IPending]; (split; [done|]); simpl; repeat case_match; simplify_eq; try (step_down Ht).
Qed.

(** An ending generation always has a step that needs no answer and leaves less to do. *)
Lemma ending_progress gh c conn :
  gen_inv c → ending c → (0 < work (cl_tasks c))%nat →
  ∃ tid i, no_answer i = true ∧ steps_down gh tid i c conn.
Proof.
  intros Hi He Hw. destruct (gi_lock _ Hi) as [Hu Hl]. pose proof (gi_count _ Hi) as Hc.
  destruct (gn_finalize (cl_gen c)) as [h|] eqn:Ef.
  { destruct Hl as (t & Ht & Hh & _). exists h, ITick. split; [done|]. by eapply holder_steps_down. }
  assert (∀ tid t, cl_tasks c !! tid = Some t → holds_finalize t = false) as Hno.
  { intros tid t Ht. destruct (holds_finalize t) eqn:Eh; [|done]. by specialize (Hu _ _ Ht Eh). }
  destruct (gen_is_terminal (gn_status (cl_gen c))) eqn:Es.
  2:{ destruct He as [|He]; [congruence|]. apply count_pos in He as (tid & t & Ht & Ha).
      exists tid, ITick. split; [done|]. pose proof (Hno _ _ Ht).
      eapply waiting_steps_down; [exact Ht|done..| | |]; destruct t; simpl in *; try done; lia. }
  destruct (decide (0 < count notifying (cl_tasks c))%nat) as [Hn|Hn].
  { apply count_pos in Hn as (tid & t & Ht & Ha). exists tid, ITick. split; [done|].
    eapply waiting_steps_down; [exact Ht|done|by eapply Hno| | |]; destruct t; simpl in *; try done; lia. }
  destruct (work_left _ Hw) as (tid & t & Ht & Hr). exists tid. pose proof (Hno _ _ Ht).
  destruct (looping t) eqn:Elo.
  - pose proof (count_at looping _ _ _ Ht) as Hlo. rewrite Elo in Hlo. simpl in Hlo.
    assert (gn_status (cl_gen c) = GAborted ∧ gn_abort (cl_gen c) = true) as [Hst Hp].
    { unfold count_ok in Hc. destruct (gn_status _), (gn_abort _); simpl in *; try done; lia. }
    by eapply loop_steps_down.
  - exists ITick. split; [done|]. destruct t; try (by eapply waiting_steps_down; [exact Ht|..]).
    by eapply commit_steps_down.
Qed.

(** ** What a step does not change *)

Definition same_birth g g' : Prop :=
  gn_connection g' = gn_connection g ∧ gn_connection_name g' = gn_connection_name g ∧
  gn_sequence g' = gn_sequence g ∧ gn_evaluation g' = gn_evaluation g.
Definition same_limits conn conn' : Prop :=
  cn_limits conn' = cn_limits conn ∧ cn_generation_starts conn' = cn_generation_starts conn ∧
  cn_evaluation_starts conn' = cn_evaluation_starts conn ∧
  cn_generation_supported conn' = cn_generation_supported conn ∧
  cn_choice_evaluation conn' = cn_choice_evaluation conn.
Lemma claim_birth s g g' : gen_claim s g = Some g' → same_birth g g'.
Proof. unfold gen_claim. case_match; [|done]. by intros [= <-]. Qed.
Lemma advance_birth s g : same_birth g (default g (gen_advance s g)).
Proof. unfold gen_advance. by case_match. Qed.
Lemma use_usage_frame u c conn c' conn' :
  use_usage u c conn = (c', conn') → same_birth (cl_gen c) (cl_gen c') ∧ same_limits conn conn'.
Proof.
  unfold use_usage. destruct u as [u|]; simpl; [|by intros [= <- <-]]. unfold record_token_delta.
  case_match; by intros [= <- <-].
Qed.
Lemma acquire_birth tid t c c' : acquire tid t c = Some c' → same_birth (cl_gen c) (cl_gen c').
Proof. unfold acquire. case_match; [done|]. by intros [= <-]. Qed.
Lemma commit_birth tid buf cap c :
  same_birth (cl_gen c) (cl_gen (commit_section parse_request parse_choice tid buf cap c)).
Proof.
  unfold commit_section. repeat case_match; try done; simpl; by eapply claim_birth.
Qed.

(** Split the cases of a step *)
Ltac step_cases Hs Ht i :=
  let Hs1 := fresh "Hs" in let t := fresh "t" in
  destruct (task_step_cases _ _ _ _ _ _ _ Hs) as (t & Ht & [Hs1|[Hs1|[Hs1|[[Hs1 ?]|Hs1]]]]); clear Hs;
  destruct t, i; simpl in Hs1; try discriminate;
  try (match goal with b : bool |- _ => destruct b; discriminate end);
  repeat match type of Hs1 with
  | context [fmap _ (acquire ?a ?b ?c)] => destruct (acquire a b c) eqn:?
  | context [match ?x with _ => _ end] => destruct x eqn:?
  end; simplify_eq/=.

Lemma task_step_frame gh tid i c conn c' conn' :
  llm_task_step parse_request parse_choice gh tid i c conn = Some (c', conn') →
  same_birth (cl_gen c) (cl_gen c') ∧ same_limits conn conn'.
Proof.
  intros Hs. step_cases Hs Ht i;
    try match goal with H : use_usage _ _ _ = _ |- _ => exact (use_usage_frame _ _ _ _ _ H) end; split;
    try done; simpl; try (by eapply claim_birth); try (by eapply advance_birth);
    try (by eapply acquire_birth); try (by apply commit_birth);
    try (unfold gen_advance in *; by repeat case_match; simplify_eq);
    try (unfold drop_call; by repeat case_match).
  all: unfold poll_abort; by repeat case_match.
Qed.

Lemma terminal_step gh tid i c conn c' conn' :
  llm_task_step parse_request parse_choice gh tid i c conn = Some (c', conn') →
  gen_is_terminal (gn_status (cl_gen c)) = true → gn_status (cl_gen c') = gn_status (cl_gen c).
Proof.
  intros Hs Hterm. step_cases Hs Ht i; rewrite ?advance_terminal, ?claim_terminal in * by done;
    simplify_eq; try done.
  all: try (unfold commit_section; rewrite ?claim_terminal by done; by repeat case_match).
  all: try (unfold poll_abort; by repeat case_match).
  all: try (unfold acquire in *; repeat case_match; by simplify_eq).
  all: match goal with H : use_usage ?u ?c ?conn = _ |- _ =>
    pose proof (use_usage_same u c conn) as (_ & _ & _ & E & _); rewrite H in E; exact E end.
Qed.

Lemma count_kept f (l : list LlmTask) tid t t' :
  l !! tid = Some t → f t = false → (count f l ≤ count f (<[tid := t']> l))%nat.
Proof. intros Ht Hf. pose proof (count_insert f _ _ _ t' Ht) as E. rewrite Hf in E. simpl in E. lia. Qed.
(** A step replaces its task and may spawn another. *)
Ltac replaced Ht :=
  solve [ eexists _, _, []; split; [exact Ht|]; split; [simpl; rewrite app_nil_r; reflexivity|]; by auto
        | eexists _, _, [_]; split; [exact Ht|]; split; [reflexivity|]; by auto ].
(** An abort on its way that is not dropped stays on its way until the generation is
    terminal. *)
Lemma task_replaced gh tid i c conn c' conn' :
  llm_task_step parse_request parse_choice gh tid i c conn = Some (c', conn') →
  ∃ t t' ts, cl_tasks c !! tid = Some t ∧ cl_tasks c' = <[tid := t']> (cl_tasks c) ++ ts ∧
    (aborting t = true → i ≠ IDrop → aborting t' = true ∨ gen_is_terminal (gn_status (cl_gen c')) = true).
Proof.
  intros Hs. step_cases Hs Ht i; try (replaced Ht).
  all: try (unfold commit_section; repeat case_match; replaced Ht).
  all: try (unfold poll_abort; repeat case_match; replaced Ht).
  all: try (unfold acquire in *; repeat case_match; simplify_eq; replaced Ht).
  all: try match goal with H : use_usage ?u ?c ?conn = _ |- _ =>
    pose proof (use_usage_same u c conn) as (E & _); rewrite H in E; simpl in E;
    eexists _, _, []; split; [exact Ht|]; split; [rewrite app_nil_r; exact E|done] end.
  eexists _, _, []. split; [exact Ht|]. split; [simpl; rewrite app_nil_r; reflexivity|]. intros _ _. right.
  unfold gen_advance. by case_match.
Qed.
Lemma ending_step gh tid i c conn c' conn' :
  llm_task_step parse_request parse_choice gh tid i c conn = Some (c', conn') → no_answer i = true → ending c → ending c'.
Proof.
  intros Hs Hn [Ht|Ha].
  - left. by rewrite (terminal_step _ _ _ _ _ _ _ Hs Ht).
  - destruct (task_replaced _ _ _ _ _ _ _ Hs) as (t & t' & ts & Ht & E & Hab).
    destruct (aborting t) eqn:Et; [destruct (Hab eq_refl) as [Et'|]; [by intros ->|idtac|by left]|];
      right; rewrite E, count_app.
    + pose proof (count_insert aborting _ _ _ t' Ht) as En. rewrite Et, Et' in En. simpl in En. lia.
    + pose proof (count_kept aborting _ _ _ t' Ht Et). lia.
Qed.

Fixpoint local_run (gh : nat) (sched : list (nat * Input)) c conn : option (Cell * Connection) :=
  match sched with
  | [] => Some (c, conn)
  | (tid, i) :: sched' =>
      '(c', conn') ← llm_task_step parse_request parse_choice gh tid i c conn; local_run gh sched' c' conn'
  end.

(** Once a generation is terminal or an abort of it has come in, its tasks all end
    without another answer of the provider. *)
Lemma ending_ends gh c conn :
  gen_inv c → ending c →
  ∃ sched c' conn', Forall (λ p, no_answer p.2 = true) sched ∧
    local_run gh sched c conn = Some (c', conn') ∧ gen_inv c' ∧
    gen_is_terminal (gn_status (cl_gen c')) = true ∧ Forall (λ t, finished t = true) (cl_tasks c').
Proof.
  remember (work (cl_tasks c)) as n eqn:En. revert c conn En.
  induction n as [n IH] using lt_wf_ind. intros c conn -> Hi He.
  destruct (decide (work (cl_tasks c) = 0%nat)) as [Hw|Hw].
  - exists [], c, conn. split_and!; [done|done|done| |].
    + destruct He as [|Ha]; [done|]. apply count_pos in Ha as (tid & t & Ht & Ha).
      pose proof (work_done _ _ _ Hw Ht). by destruct t.
    + apply Forall_lookup. intros tid t. by apply work_done.
  - destruct (ending_progress gh c conn Hi He) as (tid & i & Hn & c1 & conn1 & Hs & Hlt); [lia|].
    destruct (IH _ Hlt c1 conn1 eq_refl (task_step_inv _ _ _ _ _ _ _ Hs Hi) (ending_step _ _ _ _ _ _ _ Hs Hn He))
      as (sched & c' & conn' & Hq & Hr & Hrest).
    exists ((tid, i) :: sched), c', conn'. split; [by constructor|]. split; [|done]. simpl. by rewrite Hs.
Qed.
End life.
