(* ===== verification/LlmFacts.v ===== *)
(** * Theorems of the model server

    Every reachable world keeps the invariant of its generations; generations are
    allocated within the limits of their connection; a narrowed view stays at the
    connections it was made for. *)
From S2P Require Import Prelude RustStd ApTypes ApServer RustText Tape Protocol LlmProviders LlmGen LlmFs LlmGenFacts.

Lemma from_lookup_alter {A} (f : A → A) (l : list A) i j x :
  alter f i l !! j = Some x → ∃ y, l !! j = Some y ∧ (i ≠ j ∧ x = y ∨ i = j ∧ x = f y).
Proof.
  destruct (decide (i = j)) as [->|Hne].
  - rewrite list_lookup_alter_eq. destruct (l !! j) as [y|]; simpl; [|done]. intros [= <-]. eauto.
  - rewrite list_lookup_alter_ne by done. eauto.
Qed.

Lemma alter_found {A} (f : A → A) (l : list A) i x : l !! i = Some x → alter f i l = <[i := f x]> l.
Proof.
  intros Hx. rewrite (list_alter_ext f (λ _, f x) l l i); [by rewrite <- list_insert_alter| |done].
  by intros; simplify_eq.
Qed.
Lemma alter_inserted {A} (f : A → A) (l : list A) i x :
  (i < length l)%nat → alter f i (<[i := x]> l) = <[i := f x]> l.
Proof. intros Hl. rewrite (alter_found f _ i x); [by rewrite list_insert_insert_eq|by apply list_lookup_insert_eq]. Qed.

Section facts.
Context `{JsonText} (hash_path : string → Z).
Context (parse_request : bytes → option WireRequestDocV2) (parse_choice : bytes → option ChoiceDoc).
Implicit Types (w : LlmWorld) (s : LlmState) (sv : LlmFs) (c : Cell) (conn : Connection).
Abbreviation step := (llm_step hash_path parse_request parse_choice).
Abbreviation run := (llm_run hash_path parse_request parse_choice).
Abbreviation reachable := (llm_reachable hash_path parse_request parse_choice).

(** ** Generations and limits *)

(** How many generations of a kind a connection has started *)
Definition started_gens (k : nat) (evaluation : bool) (cells : list Cell) : Z :=
  Z.of_nat (length (filter (λ c, gn_connection (cl_gen c) = k ∧ gn_evaluation (cl_gen c) = evaluation) cells)).
Definition within_max (max : option Z) (n : Z) : Prop := from_option (λ m, 0 ≤ m → n ≤ m) True max.
Record conn_ok (w : LlmWorld) (k : nat) (conn : Connection) : Prop := {
  cs_generations : cn_generation_starts conn = started_gens k false (lw_cells w);
  cs_evaluations : cn_evaluation_starts conn = started_gens k true (lw_cells w);
  cs_max_generations : within_max (max_generations (cn_limits conn)) (cn_generation_starts conn);
  cs_max_evaluations : within_max (max_evaluations (cn_limits conn)) (cn_evaluation_starts conn);
}.
Record world_ok (w : LlmWorld) : Prop := {
  wo_cells : ∀ gh c, lw_cells w !! gh = Some c → gen_inv c;
  wo_conn : ∀ gh c, lw_cells w !! gh = Some c → (gn_connection (cl_gen c) < length (lw_conns w))%nat;
  wo_meter : ∀ k conn, lw_conns w !! k = Some conn → conn_ok w k conn;
  wo_names : ∀ j s name k, lw_states w !! j = Some s → ls_connections s !! name = Some k →
    (k < length (lw_conns w))%nat;
}.

Lemma started_insert k ev gh cells c c' :
  cells !! gh = Some c → same_birth (cl_gen c) (cl_gen c') → started_gens k ev (<[gh := c']> cells) = started_gens k ev cells.
Proof.
  intros Hc (E1 & _ & _ & E2). unfold started_gens. f_equal. revert gh Hc.
  induction cells as [|x cells IH]; intros [|gh] Hg; simplify_eq/=; rewrite !filter_cons.
  - rewrite E1, E2. by case_decide.
  - case_decide; simpl; by rewrite (IH _ Hg).
Qed.
Lemma started_alter k ev f gh cells :
  (∀ c, same_birth (cl_gen c) (cl_gen (f c))) → started_gens k ev (alter f gh cells) = started_gens k ev cells.
Proof.
  intros Hf. destruct (cells !! gh) as [c|] eqn:Hc.
  - rewrite (alter_found f _ _ _ Hc). by eapply started_insert.
  - rewrite (list_alter_ext f id cells cells gh), list_alter_id; [done|done|by intros; simplify_eq|done].
Qed.
Lemma started_app k ev cells c :
  started_gens k ev (cells ++ [c]) =
  started_gens k ev cells + if bool_decide (gn_connection (cl_gen c) = k ∧ gn_evaluation (cl_gen c) = ev) then 1 else 0.
Proof.
  unfold started_gens. rewrite filter_app, length_app, filter_cons. case_decide; case_bool_decide; try done; simpl; lia.
Qed.
Lemma started_none k ev cells :
  (∀ gh c, cells !! gh = Some c → (gn_connection (cl_gen c) < k)%nat) → started_gens k ev cells = 0.
Proof.
  intros Hc. unfold started_gens. destruct (filter _ cells) as [|c l] eqn:E; [done|]. exfalso.
  assert (c ∈ filter (λ c, gn_connection (cl_gen c) = k ∧ gn_evaluation (cl_gen c) = ev) cells) as Hin
    by (rewrite E; apply list_elem_of_here).
  apply list_elem_of_filter in Hin as [[Hk _] Hin]. apply list_elem_of_lookup in Hin as [gh Hgh].
  pose proof (Hc _ _ Hgh). lia.
Qed.

(** Changes of a world that its generations and connections do not notice *)
Lemma world_ok_states w w' :
  lw_conns w' = lw_conns w → lw_cells w' = lw_cells w →
  (∀ j s' name k, lw_states w' !! j = Some s' → ls_connections s' !! name = Some k →
     (k < length (lw_conns w))%nat) →
  world_ok w → world_ok w'.
Proof.
  intros E1 E2 Hn [H1 H2 H3 H4]. constructor; rewrite ?E1, ?E2; try done.
  intros k conn Hk. destruct (H3 k conn Hk) as [M1 M2 M3 M4]. by constructor; rewrite ?E2.
Qed.
Lemma world_ok_on_state k f w :
  (∀ s, lw_states w !! k = Some s → ∀ name i, ls_connections (f s) !! name = Some i →
     (i < length (lw_conns w))%nat) →
  world_ok w → world_ok (on_llm_state k f w).
Proof.
  intros Hf Hw. apply (world_ok_states w); [done|done| |done]. simpl.
  intros j s' name i (s & Hs & [[_ ->]|[-> ->]])%from_lookup_alter Hi;
    [by eapply (wo_names _ Hw)|by eapply Hf].
Qed.
Lemma world_ok_same_names k f w :
  (∀ s, ls_connections (f s) = ls_connections s) → world_ok w → world_ok (on_llm_state k f w).
Proof.
  intros Hf Hw. apply world_ok_on_state; [|done]. intros s Hs name i. rewrite Hf. by apply (wo_names _ Hw k).
Qed.
(** A call that comes to a generation *)
Lemma world_ok_spawn gh t w :
  holds_finalize t = false → driver t = false → before_call t = false → notifying t = false →
  llm_task_ok t → world_ok w → world_ok (on_cell gh (spawn_task t) w).
Proof.
  intros Hh Hd Hb Hn Hok [H1 H2 H3 H4]. constructor; simpl; [| | |done].
  - intros j c (c0 & Hc & [[_ ->]|[-> ->]])%from_lookup_alter; [by eapply H1|].
    apply spawn_call_inv; try done. by eapply H1.
  - intros j c (c0 & Hc & [[_ ->]|[-> ->]])%from_lookup_alter; exact (H2 _ _ Hc).
  - intros k conn Hk. destruct (H3 k conn Hk) as [M1 M2 M3 M4].
    constructor; try done; simpl; by rewrite started_alter.
Qed.
Definition keeps_ok w w' : Prop := world_ok w → world_ok w'.
Global Instance keeps_ok_preorder : PreOrder keeps_ok.
Proof. split; [intros w Hw; exact Hw|]. intros w1 w2 w3 H1 H2 Hw. by apply H2, H1. Qed.

(** ** Allocation *)

Definition gen_id (n : Z) : string := "g" +:+ dec_string_Z n.
(** The world [allocate_generation] leaves *)
Definition allocated sv (fid : Fid) (conn : string) (evaluation : bool) s (k : nat)
    (reserved : Connection) w : LlmWorld :=
  let gh := length (lw_cells w) in
  let w1 := lw_set_cells (lw_cells w ++ [mkCell (generation_new k conn (ls_next_gen s) evaluation) [] []])
              (lw_set_conns (<[k := reserved]> (lw_conns w)) w) in
  let w2 := on_llm_state (sv_state sv) (λ st,
      mkLlmState (ls_connections st) (<[gen_id (ls_next_gen s) := gh]> (ls_gens st)) (ls_fids st)
        (ls_next_gen st + 1) (ls_next_view st) (wrapping_add32 (ls_listing_version st) 1)) w1 in
  let w3 := on_llm_state (sv_state sv) (λ st, ls_set_fids (alter (λ f,
      mkLlmFid (lf_node f) (lf_mode f) (lf_events f) (Some (gen_id (ls_next_gen s))) (lf_write_buf f))
        (sv_view sv, fid) (ls_fids st)) st) w2 in
  on_llm_state (sv_state sv) (reap_terminal_generations w3 conn) w3.

Lemma allocate_cases sv fid mode name ev w :
  let r := allocate_generation sv fid mode name ev w in
  (r.1 = w ∧ ∀ u, r.2 ≠ Ok u) ∨
  ∃ s k conn reserved, lw_states w !! sv_state sv = Some s ∧ ls_connections s !! name = Some k ∧
    lw_conns w !! k = Some conn ∧ try_reserve ev conn = Ok reserved ∧
    r = (allocated sv fid name ev s k reserved w, Ok tt).
Proof.
  cbv zeta. unfold allocate_generation. case_bool_decide; simpl; [|by left].
  unfold the_state. munfold. destruct (lw_states w !! sv_state sv) as [s|] eqn:Es; [|by left].
  destruct (ls_connections s !! name) as [k|] eqn:Ek; [|by left].
  destruct (lw_conns w !! k) as [conn|] eqn:Ec; [|by left].
  destruct (try_reserve ev conn) as [reserved| | |] eqn:Er; [|by left..].
  right. by exists s, k, conn, reserved.
Qed.

Lemma reserve_spec ev conn reserved :
  try_reserve ev conn = Ok reserved →
  cn_limits reserved = cn_limits conn ∧
  (if ev then cn_evaluation_starts reserved = cn_evaluation_starts conn + 1 ∧
              cn_generation_starts reserved = cn_generation_starts conn
   else cn_generation_starts reserved = cn_generation_starts conn + 1 ∧
        cn_evaluation_starts reserved = cn_evaluation_starts conn) ∧
  from_option (λ m, (if ev then cn_evaluation_starts conn else cn_generation_starts conn) < m) True
    (if ev then max_evaluations (cn_limits conn) else max_generations (cn_limits conn)).
Proof.
  unfold try_reserve, next_start. case_match; [done|]. intros Hr. destruct ev.
  all: repeat case_match; simplify_eq; unfold checked_add64 in *; repeat case_match; simplify_eq; simpl.
  all: split_and!; try done; repeat match goal with H : max_evaluations _ = _ |- _ => rewrite H in * | H : max_generations _ = _ |- _ => rewrite H in * end; simpl in *.
  all: destruct (max_evaluations (cn_limits conn)) eqn:?, (max_generations (cn_limits conn)) eqn:?; simpl in *; bool_facts; try done; lia.
Qed.

Lemma conn_ok_app w k name seq ev conn cell k' w' :
  lw_cells w' = lw_cells w ++ [cell] → cell = mkCell (generation_new k' name seq ev) [] [] → k ≠ k' →
  conn_ok w k conn → conn_ok w' k conn.
Proof.
  intros E -> Hk [M1 M2 M3 M4]. constructor; rewrite ?E, ?started_app; simpl; try done;
    rewrite bool_decide_eq_false_2 by naive_solver; lia.
Qed.
Lemma world_ok_allocated sv fid name ev s k conn reserved w :
  lw_states w !! sv_state sv = Some s → ls_connections s !! name = Some k →
  lw_conns w !! k = Some conn → try_reserve ev conn = Ok reserved →
  world_ok w → world_ok (allocated sv fid name ev s k reserved w).
Proof.
  intros Hs Hk Hc Hr [H1 H2 H3 H4]. pose proof (lookup_lt_Some _ _ _ Hc) as Hlt.
  assert (world_ok (lw_set_cells (lw_cells w ++ [mkCell (generation_new k name (ls_next_gen s) ev) [] []])
                      (lw_set_conns (<[k := reserved]> (lw_conns w)) w))) as Hw1.
  { constructor; simpl; rewrite ?length_insert.
    - intros gh c [Hg|[_ Hg]]%lookup_app_Some; [by eapply H1|].
      apply list_lookup_singleton_Some in Hg as [_ <-]. apply gen_inv_new.
    - intros gh c [Hg|[_ Hg]]%lookup_app_Some; [by eapply H2|].
      apply list_lookup_singleton_Some in Hg as [_ <-]. done.
    - intros j conn' Hj. destruct (decide (j = k)) as [->|Hne].
      + rewrite list_lookup_insert_eq in Hj by done. simplify_eq.
        destruct (reserve_spec _ _ _ Hr) as (El & Est & Em). destruct (H3 _ _ Hc) as [M1 M2 M3 M4].
        constructor; simpl; rewrite ?started_app, ?El; simpl; unfold within_max in *;
          destruct ev; destruct Est as [E1 E2]; rewrite ?E1, ?E2;
          repeat case_bool_decide; try lia; try naive_solver; try done.
        * destruct (max_generations (cn_limits conn)); simpl in *; [lia|done].
        * destruct (max_evaluations (cn_limits conn)); simpl in *; [lia|done].
      + rewrite list_lookup_insert_ne in Hj by done. by eapply conn_ok_app; [| | |by eapply H3].
    - done. }
  unfold allocated. cbv zeta.
  by repeat (apply world_ok_same_names; [done|]).
Qed.

(** ** Every step keeps the worlds *)

(** The calls of a server change its fids, give work to a generation, or allocate one. *)
Section calls.
Context (R : relation LlmWorld) `{!PreOrder R} (sv : LlmFs).
Hypothesis R_fid : ∀ fid f, step_rel R (on_fid sv fid f).
Hypothesis R_insert : ∀ fid f, step_rel R (E := ErrorCode) (mmodify (on_llm_state (sv_state sv)
  (λ s, ls_set_fids (<[(sv_view sv, fid) := f]> (ls_fids s)) s))).
Hypothesis R_delete : ∀ fid, step_rel R (E := ErrorCode) (mmodify (on_llm_state (sv_state sv)
  (λ s, ls_set_fids (delete (sv_view sv, fid) (ls_fids s)) s))).
Hypothesis R_abort : ∀ gh, step_rel R (E := ErrorCode) (mmodify (on_cell gh (spawn_task TAbortLock))).
Hypothesis R_commit : ∀ gh buf, step_rel R (E := ErrorCode) (mmodify (on_cell gh (spawn_task (TCommit buf)))).
Hypothesis R_allocate : ∀ fid mode name ev, step_rel R (allocate_generation sv fid mode name ev).

Lemma the_state_rel : step_rel R (the_state sv).
Proof. unfold the_state. msteps. Qed.
Local Hint Resolve the_state_rel R_fid R_insert R_delete R_abort R_commit R_allocate : alan.
Lemma transport_rel r : step_rel R (transport_call (H := LlmFileServer hash_path sv) r).
Proof.
  destruct r; simpl; (apply step_bind; [by apply _| |by intros ?; apply step_ret, _]).
  - unfold llm_walk, llm_node_of. msteps.
  - unfold llm_open. msteps.
  - unfold llm_read. msteps.
  - unfold llm_write. msteps.
  - unfold llm_stat. msteps.
  - apply step_fail, _.
  - apply step_fail, _.
  - unfold llm_clunk. msteps.
Qed.
End calls.

Lemma allocate_ok sv fid mode name ev : step_rel keeps_ok (allocate_generation sv fid mode name ev).
Proof.
  intros w Hw.
  destruct (allocate_cases sv fid mode name ev w) as [[-> _]|(s & k & conn & reserved & Hs & Hk & Hc & Hr & ->)];
    [done|]. by eapply world_ok_allocated.
Qed.
Lemma transport_ok sv r : step_rel keeps_ok (transport_call (H := LlmFileServer hash_path sv) r).
Proof.
  apply transport_rel; try (by apply _); [..|apply allocate_ok]; intros; apply step_modify; intros w Hw;
    first [by apply world_ok_same_names|by apply world_ok_spawn].
Qed.

Lemma cell_step_ok gh tid i w w' :
  cell_step parse_request parse_choice gh tid i w = Some w' → world_ok w → world_ok w'.
Proof.
  unfold cell_step. intros Hs [H1 H2 H3 H4].
  destruct (lw_cells w !! gh) as [c|] eqn:Hc; simpl in Hs; [|done].
  destruct (lw_conns w !! gn_connection (cl_gen c)) as [conn|] eqn:Hk; simpl in Hs; [|done].
  destruct (llm_task_step _ _ _ _ _ _ _) as [[c' conn']|] eqn:Ht; simpl in Hs; [|done]. simplify_eq.
  destruct (task_step_frame _ _ _ _ _ _ _ _ _ Ht) as [Hb Hl].
  pose proof (λ k ev, started_insert k ev gh (lw_cells w) c c' Hc Hb) as Hst.
  constructor; simpl; rewrite ?length_insert; [| | |done].
  - intros j x Hj. destruct (decide (j = gh)) as [->|Hne].
    + rewrite list_lookup_insert_eq in Hj by (by eapply lookup_lt_Some). simplify_eq.
      eapply task_step_inv; [exact Ht|by eapply H1].
    + rewrite list_lookup_insert_ne in Hj by done. by eapply H1.
  - intros j x Hj. destruct (decide (j = gh)) as [->|Hne].
    + rewrite list_lookup_insert_eq in Hj by (by eapply lookup_lt_Some). simplify_eq.
      destruct Hb as (-> & _). by eapply H2.
    + rewrite list_lookup_insert_ne in Hj by done. by eapply H2.
  - intros k x Hx. assert (∃ y, lw_conns w !! k = Some y ∧ same_limits y x) as (y & Hy & E1 & E2 & E3 & _).
    { destruct (decide (k = gn_connection (cl_gen c))) as [->|Hne].
      - rewrite list_lookup_insert_eq in Hx by (by eapply lookup_lt_Some). simplify_eq. eauto.
      - rewrite list_lookup_insert_ne in Hx by done. by exists x. }
    destruct (H3 _ _ Hy) as [M1 M2 M3 M4]. constructor; simpl; by rewrite ?Hst, ?E1, ?E2, ?E3.
Qed.

Lemma register_ok k name provider_name model credential_ref limits choice generation w :
  world_ok w → world_ok (register_connection k name provider_name model credential_ref limits choice generation w).
Proof.
  intros [H1 H2 H3 H4]. unfold register_connection.
  set (new := connection_new _ _ _ _ _ _ _).
  assert (world_ok (lw_set_conns (lw_conns w ++ [new]) w)) as Hw.
  { constructor; simpl; try done.
    - intros gh c Hc. rewrite length_app. pose proof (H2 _ _ Hc). simpl. lia.
    - intros j conn [Hj|[Hj Hn]]%lookup_app_Some; [by destruct (H3 _ _ Hj)|].
      apply list_lookup_singleton_Some in Hn as [Hz <-].
      assert (∀ ev, started_gens j ev (lw_cells w) = 0) as Hno.
      { intros ev. apply started_none. intros gh c Hc. pose proof (H2 _ _ Hc). lia. }
      constructor; simpl; rewrite ?Hno; try done; unfold within_max;
        [destruct (max_generations limits)|destruct (max_evaluations limits)]; simpl; [lia|done|lia|done].
    - intros j s nm i Hs Hi. rewrite length_app. pose proof (H4 _ _ _ _ Hs Hi). simpl. lia. }
  apply world_ok_on_state; [|done]. simpl. intros s Hs nm i [[<- <-]|[_ Hi]]%lookup_insert_Some.
  - rewrite length_app. simpl. lia.
  - rewrite length_app. pose proof (H4 _ _ _ _ Hs Hi). simpl. lia.
Qed.
Lemma alias_ok k alias target : step_rel keeps_ok (register_connection_alias k alias target).
Proof.
  intros w Hw. unfold register_connection_alias. munfold.
  destruct (lw_states w !! k) as [s|] eqn:Hs; [|done].
  destruct (ls_connections s !! target) as [c|] eqn:Hc; [|done]. simpl.
  apply world_ok_on_state; [|done]. intros s' Hs' nm i. simplify_eq. simpl.
  intros [[<- <-]|[_ Hi]]%lookup_insert_Some; by eapply (wo_names _ Hw).
Qed.
Lemma llm_view_ok sv name : step_rel keeps_ok (connection_view sv name).
Proof.
  unfold connection_view, the_state. msteps.
  - apply step_modify. intros w Hw. by apply world_ok_same_names.
  - apply step_modify. intros w Hw. by apply (world_ok_states w); [| |apply Hw|].
Qed.
Lemma snapshot_ok sv name : step_rel keeps_ok (connection_snapshot sv name).
Proof.
  intros w Hw. unfold connection_snapshot, the_state. munfold.
  destruct (lw_states w !! sv_state sv) as [s|] eqn:Hs; [|done]. simpl.
  apply (world_ok_states w); [done|done| |done]. simpl.
  intros j s' nm k [Hj|[_ Hj]]%lookup_app_Some Hk; [by eapply (wo_names _ Hw)|].
  apply list_lookup_singleton_Some in Hj as [_ <-]. simpl in Hk. repeat case_match; try done.
  apply lookup_singleton_Some in Hk as [_ <-]. by eapply (wo_names _ Hw).
Qed.
Lemma unregister_ok k name : step_rel keeps_ok (unregister_start k name).
Proof.
  intros w Hw. unfold unregister_start. munfold.
  destruct (lw_states w !! k) as [s|] eqn:Hs; [|done]. destruct (isSome _); simpl; [|done].
  apply (world_ok_states (on_llm_state k (λ s, ls_bump 1 (remove_ids (named_gens w s name true).*1
    (ls_set_connections (delete name (ls_connections s)) s))) w)); try done.
  - intros j s' nm i Hj Hi. simpl in *. apply from_lookup_alter in Hj as (s0 & Hs0 & [[_ ->]|[-> ->]]).
    + by eapply (wo_names _ Hw).
    + simpl in Hi. apply lookup_delete_Some in Hi as [_ Hi]. by eapply (wo_names _ Hw).
  - apply world_ok_on_state; [|done]. intros s' Hs' nm i Hi. simpl in Hi.
    apply lookup_delete_Some in Hi as [_ Hi]. by eapply (wo_names _ Hw).
Qed.
Lemma unregister_step_ok n w w' : unregister_step n w = Some w' → world_ok w → world_ok w'.
Proof.
  unfold unregister_step. intros Hs Hw. destruct (lw_unregs w !! n) as [u|]; simpl in Hs; [|done].
  destruct (un_waiting u) as [[gh tid]|].
  - repeat case_match; simplify_eq. by apply (world_ok_states w); [| |apply Hw|].
  - destruct (un_pending u) as [|gh pending].
    + case_bool_decide; simplify_eq.
      apply (world_ok_states (on_llm_state (un_state u) (λ s, ls_bump 1 (remove_ids (un_active u) s)) w)); try done;
        [apply world_ok_same_names; [done|exact Hw]|by apply world_ok_same_names].
    + destruct (lw_cells w !! gh) as [c|]; simplify_eq/=.
      assert (world_ok (on_cell gh (spawn_task TAbortLock) w)) as Hw1 by (by apply world_ok_spawn).
      by apply (world_ok_states (on_cell gh (spawn_task TAbortLock) w)); [| |apply Hw1|].
Qed.

Lemma step_ok l w w' : step l w = Some w' → world_ok w → world_ok w'.
Proof.
  destruct l; simpl; intros Hs Hw.
  - destruct (lw_servers w !! server) as [sv|]; simplify_eq/=. by apply (transport_ok sv r w).
  - simplify_eq. by apply register_ok.
  - simplify_eq. by apply alias_ok.
  - destruct (lw_servers w !! server) as [sv|]; simplify_eq/=. by apply llm_view_ok.
  - destruct (lw_servers w !! server) as [sv|]; simplify_eq/=. by apply snapshot_ok.
  - simplify_eq. by apply unregister_ok.
  - by eapply unregister_step_ok.
  - by eapply cell_step_ok.
Qed.
Lemma llm_run_ok ls w w' : run ls w = Some w' → world_ok w → world_ok w'.
Proof.
  revert w. induction ls as [|l ls IH]; intros w; simpl; [by intros [= ->]|].
  destruct (step l w) as [w1|] eqn:Hs; simpl; [|done]. intros Hr Hw. eapply IH; [done|]. by eapply step_ok.
Qed.
Lemma reachable_ok w : reachable w → world_ok w.
Proof.
  intros [ls Hr]. eapply llm_run_ok; [exact Hr|]. constructor; simpl; try done.
  intros j s name k. rewrite list_lookup_singleton_Some. intros [_ <-]. done.
Qed.

(** ** Generations over time *)

Definition cell_goes c c' : Prop :=
  same_birth (cl_gen c) (cl_gen c') ∧
  (gen_inv c → gen_inv c' ∧ (closed c → closed c' ∧ same_end c c')).
Definition cells_go w w' : Prop :=
  ∀ gh c, lw_cells w !! gh = Some c → ∃ c', lw_cells w' !! gh = Some c' ∧ cell_goes c c'.
Lemma cell_goes_refl c : cell_goes c c.
Proof. by split. Qed.
Lemma cell_goes_trans c1 c2 c3 : cell_goes c1 c2 → cell_goes c2 c3 → cell_goes c1 c3.
Proof.
  intros [(B1 & B2 & B3 & B4) H1] [(C1 & C2 & C3 & C4) H2]. split; [by split_and!; etrans|].
  intros Hi. destruct (H1 Hi) as [Hi2 Hc1]. destruct (H2 Hi2) as [Hi3 Hc2]. split; [done|].
  intros Hc. destruct (Hc1 Hc) as [Hc' [E1 E2]]. destruct (Hc2 Hc') as [Hc'' [E3 E4]].
  split; [done|]. by split; etrans.
Qed.
Global Instance cells_go_preorder : PreOrder cells_go.
Proof.
  split; [intros w gh c Hc; exists c; by split; [|apply cell_goes_refl]|].
  intros w1 w2 w3 H1 H2 gh c Hc. destruct (H1 _ _ Hc) as (c2 & Hc2 & G1).
  destruct (H2 _ _ Hc2) as (c3 & Hc3 & G2). exists c3. split; [done|]. by eapply cell_goes_trans.
Qed.
Lemma cells_go_same w w' : lw_cells w' = lw_cells w → cells_go w w'.
Proof. intros E gh c Hc. exists c. rewrite E. by split; [|apply cell_goes_refl]. Qed.
Lemma spawn_goes c t :
  holds_finalize t = false → driver t = false → before_call t = false → notifying t = false →
  llm_task_ok t → appending t = false → cell_goes c (spawn_task t c).
Proof.
  intros. split; [done|]. intros Hi. split; [by apply spawn_call_inv|]. intros Hc. by apply closed_spawn.
Qed.
Lemma cells_go_alter gh f w : (∀ c, cell_goes c (f c)) → cells_go w (on_cell gh f w).
Proof.
  intros Hf j c Hc. simpl. destruct (decide (gh = j)) as [->|Hne].
  - rewrite list_lookup_alter_eq, Hc. simpl. eauto.
  - rewrite list_lookup_alter_ne by done. exists c. by split; [|apply cell_goes_refl].
Qed.
Lemma allocated_cells sv fid name ev s k reserved w :
  lw_cells (allocated sv fid name ev s k reserved w) =
  lw_cells w ++ [mkCell (generation_new k name (ls_next_gen s) ev) [] []].
Proof. done. Qed.
Lemma allocate_goes sv fid mode name ev : step_rel cells_go (allocate_generation sv fid mode name ev).
Proof.
  intros w. destruct (allocate_cases sv fid mode name ev w) as [[-> _]|(s & k & conn & reserved & _ & _ & _ & _ & ->)];
    [reflexivity|]. intros gh c Hc. exists c. split; [|apply cell_goes_refl].
  simpl fst. rewrite allocated_cells. by apply lookup_app_l_Some.
Qed.
Lemma transport_goes sv r : step_rel cells_go (transport_call (H := LlmFileServer hash_path sv) r).
Proof.
  apply transport_rel; try (by apply _); [..|apply allocate_goes]; intros; apply step_modify; intros w;
    first [by apply cells_go_same|by apply cells_go_alter; intros c; apply spawn_goes].
Qed.
Lemma cell_step_goes gh tid i w w' :
  cell_step parse_request parse_choice gh tid i w = Some w' → cells_go w w'.
Proof.
  unfold cell_step. intros Hs.
  destruct (lw_cells w !! gh) as [c|] eqn:Hc; simpl in Hs; [|done].
  destruct (lw_conns w !! gn_connection (cl_gen c)) as [conn|] eqn:Hk; simpl in Hs; [|done].
  destruct (llm_task_step _ _ _ _ _ _ _) as [[c' conn']|] eqn:Ht; simpl in Hs; [|done]. simplify_eq.
  intros j x Hx. simpl. destruct (decide (j = gh)) as [->|Hne].
  - simplify_eq. exists c'. split; [apply list_lookup_insert_eq; by eapply lookup_lt_Some|].
    split; [by eapply task_step_frame|]. intros Hi.
    split; [by eapply task_step_inv|]. intros Hcl. by eapply task_step_closed.
  - exists x. rewrite list_lookup_insert_ne by done. by split; [|apply cell_goes_refl].
Qed.
Lemma step_goes l w w' : step l w = Some w' → cells_go w w'.
Proof.
  destruct l; simpl; intros Hs.
  - destruct (lw_servers w !! server) as [sv|]; simplify_eq/=. apply (transport_goes sv r w).
  - simplify_eq. by apply cells_go_same.
  - simplify_eq. apply cells_go_same. unfold register_connection_alias. by mcases.
  - destruct (lw_servers w !! server) as [sv|]; simplify_eq/=. apply cells_go_same.
    unfold connection_view, the_state. by mcases.
  - destruct (lw_servers w !! server) as [sv|]; simplify_eq/=. apply cells_go_same.
    unfold connection_snapshot, the_state. by mcases.
  - simplify_eq. apply cells_go_same. unfold unregister_start. by mcases.
  - unfold unregister_step in Hs. destruct (lw_unregs w !! n) as [u|]; simpl in Hs; [|done].
    repeat case_match; simplify_eq/=; try (by apply cells_go_same).
    destruct (lw_cells w !! _) eqn:?; simplify_eq/=.
    etrans; [apply cells_go_alter; intros x; by apply (spawn_goes x TAbortLock)|by apply cells_go_same].
  - by eapply cell_step_goes.
Qed.
Lemma run_goes ls w w' : run ls w = Some w' → cells_go w w'.
Proof.
  revert w. induction ls as [|l ls IH]; intros w; simpl; [intros [= ->]; reflexivity|].
  destruct (step l w) as [w1|] eqn:Hs; simpl; [|done]. intros Hr. etrans; [by eapply step_goes|by eapply IH].
Qed.

(** Steps of the tasks of one generation, in the world *)
Lemma run_local gh sched c conn c' conn' w :
  lw_cells w !! gh = Some c → lw_conns w !! gn_connection (cl_gen c) = Some conn →
  local_run parse_request parse_choice gh sched c conn = Some (c', conn') →
  ∃ w', run ((λ p, LlmTaskStep gh p.1 p.2) <$> sched) w = Some w' ∧ lw_cells w' !! gh = Some c'.
Proof.
  revert c conn w. induction sched as [|[tid i] sched IH]; intros c conn w Hc Hk Hr.
  { simpl in Hr. simplify_eq. by exists w. }
  simpl in Hr. destruct (llm_task_step _ _ _ _ _ _ _) as [[c1 conn1]|] eqn:Ht; simpl in Hr; [|done].
  set (w1 := lw_set_conns (<[gn_connection (cl_gen c) := conn1]> (lw_conns w))
               (lw_set_cells (<[gh := c1]> (lw_cells w)) w)).
  destruct (task_step_frame _ _ _ _ _ _ _ _ _ Ht) as [(Eb & _) _].
  destruct (IH c1 conn1 w1) as (w' & Hw' & Hc'); [| |done|].
  - simpl. apply list_lookup_insert_eq. by eapply lookup_lt_Some.
  - simpl. rewrite Eb. apply list_lookup_insert_eq. by eapply lookup_lt_Some.
  - exists w'. split; [|done]. rewrite fmap_cons. simpl. unfold cell_step.
    rewrite Hc. simpl. rewrite Hk. simpl. rewrite Ht. simpl. exact Hw'.
Qed.

(** C5: Whatever calls and tasks interleave, whenever no task is in the middle of
    settling a generation its event stream is payload records only while the status
    is [open] or [running], and payload records followed by the one terminal record
    of its status once it is terminal; from then on neither changes. *)
Theorem generation_ends_once w gh c :
  reachable w → lw_cells w !! gh = Some c → gn_finalize (cl_gen c) = None →
  log_settled (cl_gen c) ∧
  (gen_is_terminal (gn_status (cl_gen c)) = true → ∀ ls w', run ls w = Some w' →
     ∃ c', lw_cells w' !! gh = Some c' ∧ gn_status (cl_gen c') = gn_status (cl_gen c) ∧
       gn_events (cl_gen c') = gn_events (cl_gen c)).
Proof.
  intros Hw%reachable_ok Hc Hf. pose proof (wo_cells _ Hw _ _ Hc) as Hi. split.
  - destruct (gi_lock _ Hi) as [_ Hl]. by rewrite Hf in Hl.
  - intros Ht ls w' Hr. destruct (run_goes _ _ _ Hr _ _ Hc) as (c' & Hc' & _ & Hg).
    destruct (Hg Hi) as [_ Hcl]. destruct (Hcl (closed_unlocked _ Hi Ht Hf)) as [_ He]. by exists c'.
Qed.

(** C8: Whatever calls, tasks, answers of providers and callers that go away
    interleave, a generation calls its provider at most once and at most one task
    works on its request; while it is [open] its provider has not been called and no
    task works on it. *)
Theorem provider_called_once w gh c :
  reachable w → lw_cells w !! gh = Some c →
  (length (cl_calls c) ≤ 1)%nat ∧ (count driver (cl_tasks c) ≤ 1)%nat ∧
  (gn_status (cl_gen c) = GOpen → cl_calls c = [] ∧ count driver (cl_tasks c) = 0%nat).
Proof.
  intros Hw%reachable_ok Hc. destruct (gi_count _ (wo_cells _ Hw _ _ Hc)) as [Hcalls Hs].
  destruct (gn_status (cl_gen c)); split_and!; try done; try lia; intros _.
  split; [|lia]. apply nil_length_inv. lia.
Qed.

(** C11: An abort that comes to a generation goes through whatever it is doing: there is
    a continuation of its tasks in which the provider answers nothing more, and at the
    end of which the generation is terminal and all its tasks have ended. *)
Theorem abort_needs_no_provider w gh c :
  reachable w → lw_cells w !! gh = Some c →
  ∃ sched w' c', Forall (λ p, no_answer p.2 = true) sched ∧
    run ((λ p, LlmTaskStep gh p.1 p.2) <$> sched) (on_cell gh (spawn_task TAbortLock) w) = Some w' ∧
    lw_cells w' !! gh = Some c' ∧ gen_is_terminal (gn_status (cl_gen c')) = true ∧
    Forall (λ t, finished t = true) (cl_tasks c').
Proof.
  intros Hw%reachable_ok Hc. set (c1 := spawn_task TAbortLock c).
  destruct (lookup_lt_is_Some_2 (lw_conns w) (gn_connection (cl_gen c))) as [conn Hk]; [by eapply wo_conn|].
  destruct (ending_ends parse_request parse_choice gh c1 conn) as (sched & c' & conn' & Hq & Hr & _ & Ht & Hf).
  { apply spawn_call_inv; try done. by eapply wo_cells. }
  { right. unfold c1. simpl. rewrite count_app. simpl. lia. }
  destruct (run_local gh sched c1 conn c' conn' (on_cell gh (spawn_task TAbortLock) w)) as (w' & Hw' & Hc'); [|done|done|].
  { simpl. by rewrite list_lookup_alter_eq, Hc. }
  by exists sched, w', c'.
Qed.

(** C10: The meter of a connection counts exactly the generations and evaluations that
    were allocated on it, through whatever names, views and snapshots, and the counts
    are within its limits. *)
Theorem starts_within_limits w k conn :
  reachable w → lw_conns w !! k = Some conn →
  cn_generation_starts conn = started_gens k false (lw_cells w) ∧
  cn_evaluation_starts conn = started_gens k true (lw_cells w) ∧
  within_max (max_generations (cn_limits conn)) (cn_generation_starts conn) ∧
  within_max (max_evaluations (cn_limits conn)) (cn_evaluation_starts conn).
Proof. intros Hw%reachable_ok Hk. by destruct (wo_meter _ Hw _ _ Hk). Qed.
End facts.

(** ** Reaping *)

Section reaping.
Implicit Types (w : LlmWorld) (s : LlmState).

(** A terminal generation of a connection *)
Definition terminal_of w s (name id : string) (seq : Z) : Prop :=
  ∃ g, gen_at w s id = Some g ∧ gn_connection_name g = name ∧
    gen_is_terminal (gn_status g) = true ∧ gn_sequence g = seq.
Lemma elem_terminal w s name id seq :
  (id, seq) ∈ terminal_generations w s name ↔ terminal_of w s name id seq.
Proof.
  unfold terminal_generations, terminal_of. rewrite merge_sort_Permutation, list_elem_of_omap. split.
  - intros (id' & _ & E). destruct (gen_at w s id') as [g|] eqn:Hg; simpl in E; [|done].
    repeat case_match; simplify_eq. bool_facts. eauto 6.
  - intros (g & Hg & Hn & Ht & <-). exists id. split.
    + unfold gen_at in Hg. destruct (ls_gens s !! id) as [gh|] eqn:E; [|done].
      apply list_elem_of_fmap. exists (id, gh). split; [done|]. by apply elem_of_map_to_list.
    + rewrite Hg. simpl. by rewrite bool_decide_eq_true_2, Ht by done.
Qed.
Lemma terminal_ids_nodup w s name : NoDup (terminal_generations w s name).*1.
Proof.
  unfold terminal_generations. rewrite merge_sort_Permutation.
  pose proof (NoDup_fst_map_to_list (ls_gens s)) as Hnd. revert Hnd. generalize ((map_to_list (ls_gens s)).*1).
  intros l. induction l as [|id l IH]; [constructor|]. intros [Hn Hnd]%NoDup_cons. simpl.
  destruct (gen_at w s id) as [g|]; simpl; [|by apply IH].
  case_match; [|by apply IH]. rewrite fmap_cons. apply NoDup_cons. split; [|by apply IH].
  intros ([id' seq] & E & Hin)%list_elem_of_fmap. simpl in E. subst id'.
  apply list_elem_of_omap in Hin as (x & Hx & E). destruct (gen_at w s x); simpl in E; [|done].
  repeat case_match; by simplify_eq.
Qed.
Lemma delete_all_lookup {A} (l : list (string * Z)) (m : gmap string A) id x :
  foldl (λ m p, delete p.1 m) m l !! id = Some x ↔ id ∉ l.*1 ∧ m !! id = Some x.
Proof.
  revert m. induction l as [|[k n] l IH]; intros m; simpl.
  - split; [|by intros []]. intros Hm. split; [|done]. apply not_elem_of_nil.
  - rewrite IH, lookup_delete_Some, not_elem_of_cons. naive_solver.
Qed.

Global Instance sequence_le_trans : Transitive sequence_le.
Proof. intros a b c. unfold sequence_le. lia. Qed.
Global Instance sequence_le_total : Total sequence_le.
Proof. intros a b. unfold sequence_le. lia. Qed.

Definition reaped w s name : list (string * Z) :=
  let L := terminal_generations w s name in
  take (length L - RETAIN_TERMINAL_GENERATIONS_PER_CONNECTION) L.
Definition retained w s name : list (string * Z) :=
  let L := terminal_generations w s name in
  drop (length L - RETAIN_TERMINAL_GENERATIONS_PER_CONNECTION) L.
Lemma reaped_retained w s name : reaped w s name ++ retained w s name = terminal_generations w s name.
Proof. apply take_drop. Qed.
Lemma reap_lookup w s name id gh :
  ls_gens (reap_terminal_generations w name s) !! id = Some gh ↔
  id ∉ (reaped w s name).*1 ∧ ls_gens s !! id = Some gh.
Proof. apply delete_all_lookup. Qed.
Lemma reap_gen_at w s name id g :
  gen_at w (reap_terminal_generations w name s) id = Some g ↔
  id ∉ (reaped w s name).*1 ∧ gen_at w s id = Some g.
Proof.
  unfold gen_at. destruct (ls_gens (reap_terminal_generations w name s) !! id) as [gh|] eqn:E.
  - apply reap_lookup in E as [Hn ->]. naive_solver.
  - split; [done|]. intros [Hn Hg]. destruct (ls_gens s !! id) as [gh|] eqn:E'; [|done].
    by rewrite (proj2 (reap_lookup w s name id gh)) in E.
Qed.
Lemma terminal_retained w s name id seq :
  terminal_of w (reap_terminal_generations w name s) name id seq ↔ (id, seq) ∈ retained w s name.
Proof.
  trans (id ∉ (reaped w s name).*1 ∧ (id, seq) ∈ terminal_generations w s name).
  { rewrite elem_terminal. unfold terminal_of. setoid_rewrite reap_gen_at. naive_solver. }
  pose proof (terminal_ids_nodup w s name) as Hnd. rewrite <- reaped_retained in Hnd |- *.
  rewrite fmap_app in Hnd. apply NoDup_app in Hnd as (_ & Hd & _). rewrite elem_of_app. split.
  - intros [Hn [Hin|Hin]]; [|done]. destruct Hn. by apply (list_elem_of_fmap_2 fst) in Hin.
  - intros Hin. split; [|by right]. intros Hr. apply (Hd _ Hr). by apply (list_elem_of_fmap_2 fst) in Hin.
Qed.

(** Reaping removes from a connection's listing only terminal generations of that
    connection, the oldest first, and only until the retained number is left. *)
Theorem reaping_keeps_newest w s name :
  let s' := reap_terminal_generations w name s in
  let keep := RETAIN_TERMINAL_GENERATIONS_PER_CONNECTION in
  ls_gens s' ⊆ ls_gens s ∧
  (∀ id gh, ls_gens s !! id = Some gh → ls_gens s' !! id = None → ∃ seq, terminal_of w s name id seq ∧
     ∀ id' seq', terminal_of w s' name id' seq' → seq ≤ seq') ∧
  length (terminal_generations w s' name) = Nat.min keep (length (terminal_generations w s name)).
Proof.
  cbv zeta. split_and!.
  - apply map_subseteq_spec. intros id x. rewrite reap_lookup. by intros [].
  - intros id gh Hg Hn. destruct (decide (id ∈ (reaped w s name).*1)) as [Hin|Hin].
    2:{ by rewrite (proj2 (reap_lookup w s name id gh)) in Hn. }
    apply list_elem_of_fmap in Hin as ([id0 seq] & -> & Hin). exists seq. split.
    + apply elem_terminal. rewrite <- reaped_retained. apply elem_of_app. by left.
    + intros id' seq' Hk%terminal_retained.
      assert (StronglySorted sequence_le (reaped w s name ++ retained w s name)) as Hs
        by (rewrite reaped_retained; apply StronglySorted_merge_sort; apply _).
      apply StronglySorted_app in Hs as (Hle & _ & _). exact (Hle _ _ Hin Hk).
  - assert (terminal_generations w (reap_terminal_generations w name s) name ≡ₚ retained w s name) as Hp.
    { apply NoDup_Permutation.
      - eapply NoDup_fmap_1, terminal_ids_nodup.
      - pose proof (NoDup_fmap_1 _ _ (terminal_ids_nodup w s name)) as Hnd.
        rewrite <- reaped_retained in Hnd. by apply NoDup_app in Hnd as (_ & _ & Hnd).
      - intros [id seq]. by rewrite elem_terminal, terminal_retained. }
    rewrite Hp. unfold retained. rewrite length_drop. lia.
Qed.
End reaping.
