(* ===== verification/LlmViews.v ===== *)
(** * Views of the model server

    A view narrowed to one connection stays at it: every fid of the view is at that
    connection or at a generation of it, and a call through the view changes no other
    generation and no fid of another view. Generation identifiers are never used
    again, so a fid of a removed generation does not come to another. A run of the
    server, to which the theorems are applied, is at the end. *)
From S2P Require Import Prelude RustStd ApTypes ApServer RustText Tape Protocol LlmProviders LlmGen LlmFs LlmGenFacts LlmFacts.

Lemma gen_id_inj a b : 0 ≤ a → 0 ≤ b → gen_id a = gen_id b → a = b.
Proof. unfold gen_id. intros Ha Hb E. apply dec_string_Z_inj; [done|done|]. by injection E. Qed.

Section views.
Context `{JsonText} (hash_path : string → Z).
Context (parse_request : bytes → option WireRequestDocV2) (parse_choice : bytes → option ChoiceDoc).
Implicit Types (w : LlmWorld) (s : LlmState) (sv : LlmFs) (c : Cell).
Abbreviation step := (llm_step hash_path parse_request parse_choice).
Abbreviation run := (llm_run hash_path parse_request parse_choice).
Abbreviation reachable := (llm_reachable hash_path parse_request parse_choice).

(** ** Where a view may be *)

Definition cell_visible w sv (gh : nat) : Prop :=
  ∃ c, lw_cells w !! gh = Some c ∧ connection_visible sv (gn_connection_name (cl_gen c)) = true.
(** An identifier that was handed out, for a generation the view may see *)
Definition id_visible w s sv (id : string) : Prop :=
  (∃ n, 0 ≤ n < ls_next_gen s ∧ id = gen_id n) ∧
  ∀ gh, ls_gens s !! id = Some gh → cell_visible w sv gh.
Definition node_visible w s sv (n : LlmNode) : Prop :=
  match n with
  | LnConnection conn | LnConnectionProvider conn | LnConnectionProfile conn | LnConnectionMeter conn
  | LnConnectionCapabilities conn | LnClone conn | LnEvaluate conn => connection_visible sv conn = true
  | LnGen id | LnGenData id | LnGenEvents id | LnGenCtl id | LnGenStatus id => id_visible w s sv id
  | LnRoot | LnProvidersDir | LnProvider _ | LnProviderModels _ | LnProviderCapabilities _
  | LnProviderStatus _ | LnConnectionsDir => True
  end.
Record fid_visible w s sv (f : LlmFid) : Prop := {
  fv_node : node_visible w s sv (lf_node f);
  fv_events : ∀ gh, lf_events f = Some gh → cell_visible w sv gh;
  fv_clone : ∀ id, lf_clone_gen f = Some id → id_visible w s sv id;
}.
Record state_views w (k : nat) s : Prop := {
  sw_next : 0 ≤ ls_next_gen s;
  sw_gens : ∀ id gh, ls_gens s !! id = Some gh →
    (gh < length (lw_cells w))%nat ∧ ∃ n, 0 ≤ n < ls_next_gen s ∧ id = gen_id n;
  sw_keys : ∀ key f, ls_fids s !! key = Some f → key.1 < ls_next_view s;
  sw_server : ∀ sv, sv ∈ lw_servers w → sv_state sv = k → sv_view sv < ls_next_view s;
  sw_fids : ∀ sv fid f, sv ∈ lw_servers w → sv_state sv = k →
    ls_fids s !! (sv_view sv, fid) = Some f → fid_visible w s sv f;
}.
Record view_inv w : Prop := {
  vi_states : ∀ k s, lw_states w !! k = Some s → state_views w k s;
  vi_servers : ∀ sv, sv ∈ lw_servers w → (sv_state sv < length (lw_states w))%nat;
  vi_unique : ∀ sv sv', sv ∈ lw_servers w → sv' ∈ lw_servers w → sv_state sv = sv_state sv' →
    sv_view sv = sv_view sv' → sv = sv';
}.

(** ** Frames *)

Definition same_place (f f' : LlmFid) : Prop :=
  lf_node f' = lf_node f ∧ lf_events f' = lf_events f ∧ lf_clone_gen f' = lf_clone_gen f.
Record gens_frame w' s s' : Prop := {
  gf_next : ls_next_gen s ≤ ls_next_gen s';
  gf_gens : ∀ id gh, ls_gens s' !! id = Some gh → ls_gens s !! id = Some gh ∨
    (gh < length (lw_cells w'))%nat ∧ ∃ n, ls_next_gen s ≤ n < ls_next_gen s' ∧ id = gen_id n;
}.
Record state_frame w w' (k : nat) s s' : Prop := {
  sf_gens : gens_frame w' s s';
  sf_view : ls_next_view s' = ls_next_view s;
  sf_fids : ∀ key f', ls_fids s' !! key = Some f' →
    (∃ f, ls_fids s !! key = Some f ∧ same_place f f') ∨
    key.1 < ls_next_view s ∧
    ∀ sv, sv ∈ lw_servers w → sv_state sv = k → sv_view sv = key.1 → fid_visible w' s' sv f';
}.
Lemma cell_visible_goes w w' sv gh : cells_go w w' → cell_visible w sv gh → cell_visible w' sv gh.
Proof.
  intros Hg (c & Hc & Hv). destruct (Hg _ _ Hc) as (c' & Hc' & (_ & E & _) & _). exists c'. by rewrite E.
Qed.
Lemma cells_go_length w w' : cells_go w w' → (length (lw_cells w) ≤ length (lw_cells w'))%nat.
Proof.
  intros Hg. destruct (decide (length (lw_cells w) = 0%nat)) as [|Hn]; [lia|].
  destruct (lookup_lt_is_Some_2 (lw_cells w) (length (lw_cells w) - 1)%nat) as [c Hc]; [lia|].
  destruct (Hg _ _ Hc) as (c' & Hc' & _). apply lookup_lt_Some in Hc'. lia.
Qed.
Lemma id_visible_frame w w' s s' sv id :
  cells_go w w' → 0 ≤ ls_next_gen s → gens_frame w' s s' → id_visible w s sv id → id_visible w' s' sv id.
Proof.
  intros Hg H0 [Hnx Hgs] [(n & Hn & ->) Hv]. split; [exists n; split; [lia|done]|].
  intros gh Hgh. destruct (Hgs _ _ Hgh) as [Ho|(_ & m & Hm & E)].
  - eapply cell_visible_goes; [done|]. by apply Hv.
  - apply gen_id_inj in E; lia.
Qed.
Lemma node_visible_frame w w' s s' sv n :
  cells_go w w' → 0 ≤ ls_next_gen s → gens_frame w' s s' → node_visible w s sv n → node_visible w' s' sv n.
Proof. intros. destruct n; simpl in *; eauto using id_visible_frame. Qed.
Lemma fid_visible_frame w w' s s' sv f f' :
  cells_go w w' → 0 ≤ ls_next_gen s → gens_frame w' s s' → same_place f f' →
  fid_visible w s sv f → fid_visible w' s' sv f'.
Proof.
  intros Hg H0 Hf (E1 & E2 & E3) [Hn He Hc]. constructor.
  - rewrite E1. by eapply node_visible_frame.
  - intros gh. rewrite E2. intros Hgh. eapply cell_visible_goes; [done|]. by apply He.
  - intros id. rewrite E3. intros Hid. eapply id_visible_frame; [done|done|done|]. by apply Hc.
Qed.
Lemma view_frame w w' :
  cells_go w w' → lw_servers w' = lw_servers w → length (lw_states w') = length (lw_states w) →
  (∀ k s', lw_states w' !! k = Some s' → ∃ s, lw_states w !! k = Some s ∧ state_frame w w' k s s') →
  view_inv w → view_inv w'.
Proof.
  intros Hg Es El Hst [V1 V2 V3]. pose proof (cells_go_length _ _ Hg) as Hlen.
  constructor; rewrite ?Es, ?El; try done. intros k s' Hs'.
  destruct (Hst _ _ Hs') as (s & Hs & Hf). destruct (V1 _ _ Hs) as [W1 W2 W3 W4 W5].
  destruct (sf_gens _ _ _ _ _ Hf) as [Hnx Hgs]. constructor; rewrite ?Es, ?(sf_view _ _ _ _ _ Hf).
  - lia.
  - intros id gh Hgh. destruct (Hgs _ _ Hgh) as [Ho|(Hl & n & Hn & ->)].
    + destruct (W2 _ _ Ho) as (Hl & n & Hn & ->). split; [lia|]. exists n. split; [lia|done].
    + split; [done|]. exists n. split; [lia|done].
  - intros key f' Hf'. destruct (sf_fids _ _ _ _ _ Hf _ _ Hf') as [(f & Hff & _)|[? _]]; [by eapply W3|done].
  - done.
  - intros sv fid f' Hsv Hk Hf'. destruct (sf_fids _ _ _ _ _ Hf _ _ Hf') as [(f & Hff & Hp)|[_ Hnew]].
    + eapply fid_visible_frame; [done|done|by apply Hf|done|]. by eapply W5.
    + by apply Hnew.
Qed.
Lemma gens_frame_sub w' s s' :
  ls_next_gen s' = ls_next_gen s → ls_gens s' ⊆ ls_gens s → gens_frame w' s s'.
Proof. intros E Hs. constructor; [lia|]. intros id gh Hg. left. by eapply lookup_weaken. Qed.
Lemma state_frame_same w w' k s : state_frame w w' k s s.
Proof. constructor; [by apply gens_frame_sub|done|]. intros key f Hf. left. by exists f. Qed.
(** Removing fids and identifiers *)
Lemma state_frame_less w w' k s s' :
  ls_next_gen s' = ls_next_gen s → ls_next_view s' = ls_next_view s →
  ls_gens s' ⊆ ls_gens s → ls_fids s' ⊆ ls_fids s → state_frame w w' k s s'.
Proof.
  intros E1 E2 Hg Hf. constructor; [by apply gens_frame_sub|done|].
  intros key f Hk. left. exists f. split; [by eapply lookup_weaken|done].
Qed.
(** Worlds that differ elsewhere *)
Lemma view_same_states w w' :
  cells_go w w' → lw_servers w' = lw_servers w → lw_states w' = lw_states w → view_inv w → view_inv w'.
Proof.
  intros Hg Es E. apply view_frame; [done|done|by rewrite E|]. intros k s. rewrite E. intros Hs.
  exists s. split; [done|apply state_frame_same].
Qed.
Lemma view_on_cell gh f w : (∀ c, cell_goes c (f c)) → view_inv w → view_inv (on_cell gh f w).
Proof. intros Hf. apply view_same_states; [by apply cells_go_alter|done|done]. Qed.
(** A change of one state *)
Lemma view_on_state k f w :
  (∀ s, lw_states w !! k = Some s → state_frame w (on_llm_state k f w) k s (f s)) →
  view_inv w → view_inv (on_llm_state k f w).
Proof.
  intros Hf. apply view_frame; [by apply cells_go_same|done|by apply length_alter|]. simpl.
  intros j s' (s & Hs & [[_ ->]|[-> ->]])%from_lookup_alter; exists s; (split; [done|]);
    [apply state_frame_same|by apply Hf].
Qed.

(** ** The calls *)

Lemma child_visible w k s sv n name n' :
  state_views w k s → llm_child w s sv n name = Ok n' → node_visible w s sv n → node_visible w s sv n'.
Proof.
  intros Hs Hc Hn. destruct n; simpl in *; repeat case_match; simplify_eq; bool_facts; simpl; try done.
  destruct (gen_at w s name) as [g|] eqn:Hg; simpl in *; [|done]. bool_facts. subst.
  unfold gen_at in Hg. destruct (ls_gens s !! name) as [gh|] eqn:Hgh; simpl in Hg; [|done].
  destruct (lw_cells w !! gh) as [c|] eqn:Hcell; simplify_eq/=.
  destruct (sw_gens _ _ _ Hs _ _ Hgh) as (_ & m & Hm & Em). split; [eauto|].
  intros gh' Hgh'. simplify_eq. by exists c.
Qed.
Lemma walk_visible w k s sv names n n' :
  state_views w k s → llm_walk_names w s sv n names = Ok n' → node_visible w s sv n → node_visible w s sv n'.
Proof.
  intros Hs. revert n. induction names as [|name names IH]; simpl; intros n Hw Hn; [by simplify_eq|].
  destruct (llm_child w s sv n name) as [n1| | |] eqn:Hc; simplify_eq. eapply IH; [done|].
  by eapply child_visible.
Qed.
Lemma fid_node_visible w s sv fid n :
  view_inv w → sv ∈ lw_servers w → lw_states w !! sv_state sv = Some s →
  lf_node <$> ls_fids s !! (sv_view sv, fid) = Some n → node_visible w s sv n.
Proof.
  intros Hi Hsv Hs Hn. destruct (ls_fids s !! _) as [f|] eqn:Hf; simplify_eq/=.
  by eapply fv_node, (sw_fids _ _ _ (vi_states _ Hi _ _ Hs)).
Qed.
(** A fid that is put or changed at its place *)
Lemma view_put k s sv fid f' w F :
  view_inv w → sv ∈ lw_servers w → sv_state sv = k → lw_states w !! k = Some s →
  fid_visible w s sv f' →
  (∀ key f, F (ls_fids s) !! key = Some f → ls_fids s !! key = Some f ∨ key = (sv_view sv, fid) ∧ f = f') →
  view_inv (on_llm_state k (λ s, ls_set_fids (F (ls_fids s)) s) w).
Proof.
  intros Hi Hsv Hk Hs Hv HF. apply view_on_state; [|done]. intros s0 Hs0. simplify_eq.
  constructor; [by apply gens_frame_sub|done|]. intros key f Hf. simpl in Hf.
  destruct (HF _ _ Hf) as [Ho|[-> ->]]; [left; by exists f|right]. simpl.
  split; [by eapply (sw_server _ _ _ (vi_states _ Hi _ _ Hs))|].
  intros sv' Hsv' Hk' Ev. rewrite (vi_unique _ Hi sv' sv Hsv' Hsv Hk' Ev).
  destruct Hv as [V1 V2 V3]. constructor; [|exact V2|exact V3]. destruct (lf_node f'); exact V1.
Qed.

Lemma node_of_world sv w fid : (llm_node_of sv fid w).1 = w.
Proof. unfold llm_node_of, the_state. by case_bool_decide; mcases. Qed.
Lemma read_world sv w fid offset count : (llm_read sv fid offset count w).1 = w.
Proof. unfold llm_read, the_state. by mcases. Qed.
Lemma stat_world sv w fid : (llm_stat hash_path sv fid w).1 = w.
Proof. unfold llm_stat, the_state. by mcases. Qed.

Section calls.
Context (sv : LlmFs) (w : LlmWorld).
Hypothesis Hi : view_inv w.
Hypothesis Hsv : sv ∈ lw_servers w.

Lemma node_of_visible fid s n w1 :
  lw_states w !! sv_state sv = Some s → llm_node_of sv fid w = (w1, Ok n) → w1 = w ∧ node_visible w s sv n.
Proof.
  intros Hs. unfold llm_node_of, the_state. case_bool_decide; munfold; [by intros [= <- <-]|].
  rewrite Hs. destruct (lf_node <$> _) eqn:Hn; [|done]. intros [= <- <-]. split; [done|].
  by eapply fid_node_visible.
Qed.

Lemma walk_views fid newfid names : view_inv (llm_walk hash_path sv fid newfid names w).1.
Proof.
  destruct (lookup_lt_is_Some_2 _ _ (vi_servers _ Hi _ Hsv)) as [s Hs].
  unfold llm_walk. case_bool_decide; [done|]. unfold mbind at 1, m_bind at 1.
  pose proof (node_of_world sv w fid) as Hw1. destruct (llm_node_of sv fid w) as [w1 [n| | |]] eqn:Hn; simpl in Hw1; subst w1; try done.
  destruct (node_of_visible _ _ _ _ Hs Hn) as [_ Hvis]. unfold the_state. munfold. rewrite Hs.
  destruct (llm_walk_names w s sv n names) as [node| | |] eqn:Hwalk; [|done..].
  destruct (isSome _); [done|]. simpl.
  eapply (view_put _ s sv newfid (llm_fid_at node) w (<[(sv_view sv, newfid) := llm_fid_at node]>)); try done.
  - constructor; [|done|done]. eapply walk_visible; [|done|done]. by eapply (vi_states _ Hi).
  - intros key f [[<- <-]|[_ Hf]]%lookup_insert_Some; [by right|by left].
Qed.
Lemma clunk_views fid : view_inv (llm_clunk sv fid w).1.
Proof.
  destruct (lookup_lt_is_Some_2 _ _ (vi_servers _ Hi _ Hsv)) as [s Hs].
  unfold llm_clunk. case_bool_decide; [done|]. unfold the_state. munfold. rewrite Hs.
  destruct (ls_fids s !! _) as [f|] eqn:Hf; [|done].
  assert (view_inv (on_llm_state (sv_state sv) (λ s, ls_set_fids (delete (sv_view sv, fid) (ls_fids s)) s) w)) as Hd.
  { apply view_on_state; [|done]. intros s0 _. apply state_frame_less; try done. simpl. apply delete_subseteq. }
  destruct (lf_node f); simpl; try done. destruct (opened_for_write _); simpl; [|done].
  destruct (ls_gens s !! id) as [gh|]; simpl; [|done].
  apply view_on_cell; [|exact Hd]. intros c. by apply spawn_goes.
Qed.
Lemma write_views fid offset data : view_inv (llm_write sv fid offset data w).1.
Proof.
  destruct (lookup_lt_is_Some_2 _ _ (vi_servers _ Hi _ Hsv)) as [s Hs].
  unfold llm_write, the_state. munfold. rewrite Hs.
  destruct (ls_fids s !! _) as [f|] eqn:Hf; [|done]. destruct (opened_for_write _); simpl; [|done].
  destruct (lf_node f) eqn:Hnode; simpl; try done.
  - destruct (usize_try_from offset) as [start|]; [|done]. destruct (checked_add64 _ _); [|done].
    case_match; [done|]. simpl.
    set (g := λ f, mkLlmFid (lf_node f) (lf_mode f) (lf_events f) (lf_clone_gen f) (splice (lf_write_buf f) start data)).
    eapply (view_put _ s sv fid (g f) w (alter g (sv_view sv, fid))); try done.
    + pose proof (sw_fids _ _ _ (vi_states _ Hi _ _ Hs) _ _ _ Hsv eq_refl Hf) as [V1 V2 V3]. by constructor.
    + intros key f0 [(<- & f1 & Hf1 & ->)|[? ?]]%lookup_alter_Some; [right|by left]. by rewrite Hf in Hf1; injection Hf1 as <-.
  - case_bool_decide; simpl; [|done]. destruct (ls_gens s !! id) as [gh|]; simpl; [|done].
    apply view_on_cell; [|exact Hi]. intros c. by apply spawn_goes.
Qed.
End calls.

(** ** Opening *)

Lemma allocated_state sv fid name ev s k reserved w :
  lw_states w !! sv_state sv = Some s →
  let id := gen_id (ls_next_gen s) in
  ∃ s', lw_states (allocated sv fid name ev s k reserved w) = <[sv_state sv := s']> (lw_states w) ∧
    ls_next_gen s' = ls_next_gen s + 1 ∧ ls_next_view s' = ls_next_view s ∧
    (∀ i gh, ls_gens s' !! i = Some gh → <[id := length (lw_cells w)]> (ls_gens s) !! i = Some gh) ∧
    ls_fids s' = alter (λ f, mkLlmFid (lf_node f) (lf_mode f) (lf_events f) (Some id) (lf_write_buf f))
                   (sv_view sv, fid) (ls_fids s).
Proof.
  intros Hs id. pose proof (lookup_lt_Some _ _ _ Hs) as Hl. unfold allocated. cbv zeta. simpl.
  rewrite (alter_found _ (lw_states w) _ _ Hs), !alter_inserted by done.
  eexists. split; [reflexivity|]. simpl. split_and!; try done.
  intros i gh Hg. by apply delete_all_lookup in Hg as [_ Hg].
Qed.
Lemma allocated_views sv fid name ev s k reserved w :
  view_inv w → sv ∈ lw_servers w → lw_states w !! sv_state sv = Some s →
  connection_visible sv name = true → view_inv (allocated sv fid name ev s k reserved w).
Proof.
  intros Hi Hsv Hs Hv. destruct (allocated_state sv fid name ev s k reserved w Hs) as (s' & Est & En & Ev & Egs & Efs).
  pose proof (allocated_cells sv fid name ev s k reserved w) as Ecells.
  set (id := gen_id (ls_next_gen s)) in *.
  assert (lw_servers (allocated sv fid name ev s k reserved w) = lw_servers w) as Esv by done.
  revert Est Ecells Esv. generalize (allocated sv fid name ev s k reserved w). intros w' Est Ecells Esv.
  assert (cells_go w w') as Hg.
  { intros gh c Hc. exists c. split; [|apply cell_goes_refl]. rewrite Ecells. by apply lookup_app_l_Some. }
  pose proof (vi_states _ Hi _ _ Hs) as Hsw. pose proof (sw_next _ _ _ Hsw) as Hnx.
  assert (gens_frame w' s s') as Hgf.
  { constructor; [lia|]. intros i gh Hgh. apply Egs, lookup_insert_Some in Hgh as [[<- <-]|[_ ?]]; [right|by left].
    rewrite Ecells, length_app. simpl. split; [lia|]. exists (ls_next_gen s). split; [lia|done]. }
  apply (view_frame w); try done; [by rewrite Est, length_insert|].
  intros j x. rewrite Est. destruct (decide (j = sv_state sv)) as [->|Hne].
  2:{ rewrite list_lookup_insert_ne by done. intros Hx. exists x. split; [done|apply state_frame_same]. }
  rewrite list_lookup_insert_eq by (by eapply lookup_lt_Some). intros [= <-]. exists s. split; [done|].
  constructor; [done|done|]. rewrite Efs. intros key f'.
  intros [(<- & f & Hf & ->)|[_ Hf]]%lookup_alter_Some; [right|left; by exists f']. simpl.
  split; [by apply (sw_server _ _ _ Hsw)|]. intros sv' Hsv' Hk' Evw.
  rewrite (vi_unique _ Hi sv' sv Hsv' Hsv Hk' Evw).
  destruct (sw_fids _ _ _ Hsw _ _ _ Hsv eq_refl Hf) as [V1 V2 V3]. constructor; simpl.
  - by eapply node_visible_frame.
  - intros gh Hgh. eapply cell_visible_goes; [done|]. by apply V2.
  - intros i [= <-]. split; [exists (ls_next_gen s); split; [lia|done]|].
    intros gh Hgh. apply Egs in Hgh. rewrite lookup_insert_eq in Hgh. simplify_eq.
    exists (mkCell (generation_new k name (ls_next_gen s) ev) [] []). split; [|done].
    rewrite Ecells. by apply list_lookup_middle.
Qed.

(** The fid is opened, with the stream of a generation the view may see *)
Lemma opened_views sv fid mode opened w :
  view_inv w → sv ∈ lw_servers w → (∀ gh, opened = Some gh → cell_visible w sv gh) →
  view_inv (on_fid sv fid (λ f, mkLlmFid (lf_node f) (Some mode) opened (lf_clone_gen f) (lf_write_buf f)) w).1.
Proof.
  intros Hi Hsv Ho. apply view_on_state; [|done]. intros s Hs. pose proof (vi_states _ Hi _ _ Hs) as Hsw.
  constructor; [by apply gens_frame_sub|done|]. simpl. intros key f'.
  intros [(<- & f & Hf & ->)|[_ Hf]]%lookup_alter_Some; [right|left; by exists f']. simpl.
  split; [by apply (sw_server _ _ _ Hsw)|]. intros sv' Hsv' Hk' Evw.
  rewrite (vi_unique _ Hi sv' sv Hsv' Hsv Hk' Evw).
  destruct (sw_fids _ _ _ Hsw _ _ _ Hsv eq_refl Hf) as [V1 V2 V3].
  constructor; simpl; [destruct (lf_node f); exact V1|exact Ho|exact V3].
Qed.
Lemma allocate_views sv fid mode name ev w :
  view_inv w → sv ∈ lw_servers w → connection_visible sv name = true →
  let w' := (allocate_generation sv fid mode name ev w).1 in view_inv w' ∧ lw_servers w' = lw_servers w.
Proof.
  intros Hi Hsv Hv. cbv zeta.
  destruct (allocate_cases sv fid mode name ev w) as [[-> _]|(s & k & conn & reserved & Hs & Hk & Hc & Hr & ->)];
    [done|]. simpl. split; [by apply allocated_views|done].
Qed.
(** The end of [open], from the state the allocation left *)
Definition open_tail sv (fid : Fid) (mode : OpenMode) (node : LlmNode) : M LlmWorld ErrorCode Qid :=
  s ← the_state sv;
  opened ← match node with
    | LnGenEvents id => gh ← mlift (ls_gens s !! id) NotFound; mret (Some gh)
    | _ => mret None
    end;
  w ← mget;
  on_fid sv fid (λ f, mkLlmFid (lf_node f) (Some mode) opened (lf_clone_gen f) (lf_write_buf f));;
  mret (llm_qid hash_path w s node).
Lemma open_tail_views sv fid mode node w :
  view_inv w → sv ∈ lw_servers w →
  (∀ s, lw_states w !! sv_state sv = Some s → node_visible w s sv node) → view_inv (open_tail sv fid mode node w).1.
Proof.
  intros Hi Hsv Hn. unfold open_tail, the_state. munfold.
  destruct (lw_states w !! sv_state sv) as [s|] eqn:Hs; [|done]. specialize (Hn s eq_refl).
  destruct node; simpl in *; try (by apply (opened_views sv fid mode None)).
  destruct (ls_gens s !! id) as [gh|] eqn:Hg; simpl; [|done].
  apply (opened_views sv fid mode (Some gh)); [done|done|]. intros x [= <-]. by apply Hn.
Qed.
Lemma run_state {A} sv w s (f : LlmState → M LlmWorld ErrorCode A) :
  lw_states w !! sv_state sv = Some s → (the_state sv ≫= f) w = f s w.
Proof. intros Hs. unfold the_state. munfold. by rewrite Hs. Qed.
Lemma open_views sv fid mode w :
  view_inv w → sv ∈ lw_servers w → view_inv (llm_open hash_path sv fid mode w).1.
Proof.
  intros Hi Hsv. destruct (lookup_lt_is_Some_2 _ _ (vi_servers _ Hi _ Hsv)) as [s Hs].
  assert (∀ node, node_visible w s sv node → view_inv
    ((match node with
      | LnClone conn => allocate_generation sv fid mode conn false
      | LnEvaluate conn => allocate_generation sv fid mode conn true
      | _ => mret tt
      end;; open_tail sv fid mode node) w).1) as Hrest.
  { intros node Hn. destruct node; try (apply open_tail_views; [done|done|]; intros s0 Hs0; by simplify_eq).
    - unfold mbind, m_bind. destruct (allocate_views sv fid mode conn false w Hi Hsv Hn) as [Hi' Esv].
      destruct (allocate_generation sv fid mode conn false w) as [w' [u| | |]]; simpl in *; try done.
      apply open_tail_views; [done|by rewrite Esv|done].
    - unfold mbind, m_bind. destruct (allocate_views sv fid mode conn true w Hi Hsv Hn) as [Hi' Esv].
      destruct (allocate_generation sv fid mode conn true w) as [w' [u| | |]]; simpl in *; try done.
      apply open_tail_views; [done|by rewrite Esv|done]. }
  unfold llm_open. rewrite (run_state sv w s _ Hs). destruct (from_option _ _ _); [done|].
  unfold mbind at 1, m_bind at 1. case_bool_decide as Hroot.
  - unfold mret at 1, m_ret at 1. destruct (_ && _); [done|]. destruct (_ && _); [done|]. by apply (Hrest LnRoot).
  - unfold mlift at 1. destruct (lf_node <$> _) as [node|] eqn:Hn; [|done].
    destruct (_ && _); [done|]. destruct (_ && _); [done|]. apply (Hrest node). by eapply fid_node_visible.
Qed.

Lemma call_views sv r w :
  view_inv w → sv ∈ lw_servers w → view_inv (transport_call (H := LlmFileServer hash_path sv) r w).1.
Proof.
  intros Hi Hsv.
  assert (∀ A B (m : M LlmWorld ErrorCode A) (f : A → B), view_inv (m w).1 → view_inv ((a ← m; mret (f a)) w).1) as Hret.
  { intros A B m f Hm. unfold mbind, m_bind. by destruct (m w) as [w' [a| | |]]. }
  destruct r; simpl; try done; apply Hret.
  - by apply walk_views.
  - by apply open_views.
  - by rewrite read_world.
  - by apply write_views.
  - by rewrite stat_world.
  - by apply clunk_views.
Qed.

(** ** The other steps *)

Lemma view_less k f w :
  (∀ s, ls_next_gen (f s) = ls_next_gen s ∧ ls_next_view (f s) = ls_next_view s ∧
        ls_gens (f s) ⊆ ls_gens s ∧ ls_fids (f s) ⊆ ls_fids s) →
  view_inv w → view_inv (on_llm_state k f w).
Proof.
  intros Hf. apply view_on_state. intros s _. destruct (Hf s) as (? & ? & ? & ?). by apply state_frame_less.
Qed.
Lemma remove_ids_gens ids s : ls_gens (remove_ids ids s) ⊆ ls_gens s.
Proof.
  unfold remove_ids. simpl. generalize (ls_gens s). induction ids as [|i ids IH]; intros m; simpl; [done|].
  etrans; [apply IH|apply delete_subseteq].
Qed.
Lemma connection_view_views sv name w :
  view_inv w → sv ∈ lw_servers w → view_inv (connection_view sv name w).1.
Proof.
  intros Hi Hsv. destruct (lookup_lt_is_Some_2 _ _ (vi_servers _ Hi _ Hsv)) as [s Hs].
  unfold connection_view. rewrite (run_state sv w s _ Hs). munfold.
  set (view := mkLlmFs _ _ _). destruct Hi as [V1 V2 V3]. constructor; simpl; rewrite ?length_alter.
  - intros k s' (s0 & Hs0 & Hcase)%from_lookup_alter. destruct (V1 _ _ Hs0) as [W1 W2 W3 W4 W5].
    assert (ls_next_gen s' = ls_next_gen s0 ∧ ls_gens s' = ls_gens s0 ∧ ls_fids s' = ls_fids s0 ∧
      ls_next_view s0 ≤ ls_next_view s' ∧
      (k = sv_state sv → s0 = s ∧ ls_next_view s < ls_next_view s')) as (E1 & E2 & E3 & E4 & E5).
    { destruct Hcase as [[Hne ->]|[<- ->]]; simpl; split_and!; try done; try lia; intros _.
      rewrite Hs in Hs0. injection Hs0 as <-. split; [done|lia]. }
    constructor; rewrite ?E1, ?E2, ?E3; simpl; try done.
    + intros key f Hf. pose proof (W3 _ _ Hf). lia.
    + intros sv0 [Hsv0|Hsv0]%elem_of_app Hk; [pose proof (W4 _ Hsv0 Hk); lia|].
      apply list_elem_of_singleton in Hsv0 as ->. simpl in *. by apply E5.
    + intros sv0 fid f [Hsv0|Hsv0]%elem_of_app Hk Hf.
      * destruct (W5 _ _ _ Hsv0 Hk Hf) as [F1 F2 F3]. constructor.
        -- destruct (lf_node f); simpl in *; try done; unfold id_visible in *; by rewrite E1, E2.
        -- exact F2.
        -- intros id Hid. specialize (F3 _ Hid). unfold id_visible in *. by rewrite E1, E2.
      * apply list_elem_of_singleton in Hsv0 as ->. simpl in Hk, Hf. subst k. destruct (E5 eq_refl) as [-> _]. apply W3 in Hf. simpl in Hf. lia.
  - intros sv0 [Hsv0|Hsv0]%elem_of_app; [by apply V2|]. apply list_elem_of_singleton in Hsv0 as ->. by apply (V2 sv).
  - intros sv1 sv2 [H1|H1]%elem_of_app [H2|H2]%elem_of_app Hk Ev;
      try apply list_elem_of_singleton in H1 as ->; try apply list_elem_of_singleton in H2 as ->; try done.
    + by apply V3.
    + simpl in *. pose proof (sw_server _ _ _ (V1 _ _ Hs) _ H1 Hk). lia.
    + simpl in *. symmetry in Hk. pose proof (sw_server _ _ _ (V1 _ _ Hs) _ H2 Hk). lia.
Qed.
Lemma snapshot_views sv name w : view_inv w → sv ∈ lw_servers w → view_inv (connection_snapshot sv name w).1.
Proof.
  intros Hi Hsv. destruct (lookup_lt_is_Some_2 _ _ (vi_servers _ Hi _ Hsv)) as [s Hs].
  unfold connection_snapshot. rewrite (run_state sv w s _ Hs). munfold.
  set (conns := if connection_visible sv name then _ else _). destruct Hi as [V1 V2 V3].
  constructor; simpl; rewrite ?length_app; simpl.
  - intros k s' [Hs'|[Hk Hs']]%lookup_app_Some.
    + pose proof (lookup_lt_Some _ _ _ Hs') as Hlt. destruct (V1 _ _ Hs') as [W1 W2 W3 W4 W5].
      constructor; simpl; try done.
      * intros sv0 [Hsv0|Hsv0]%elem_of_app Hk; [by apply W4|].
        apply list_elem_of_singleton in Hsv0 as ->. simpl in Hk. lia.
      * intros sv0 fid f [Hsv0|Hsv0]%elem_of_app Hk Hf.
        -- destruct (W5 _ _ _ Hsv0 Hk Hf) as [F1 F2 F3]. constructor; [destruct (lf_node f)| |]; done.
        -- apply list_elem_of_singleton in Hsv0 as ->. simpl in Hk. lia.
    + apply list_lookup_singleton_Some in Hs' as [Hz <-].
      constructor; simpl; try done. intros sv0 [Hsv0|Hsv0]%elem_of_app Hk0.
      * pose proof (V2 _ Hsv0). lia.
      * apply list_elem_of_singleton in Hsv0 as ->. simpl. lia.
  - intros sv0 [Hsv0|Hsv0]%elem_of_app; [pose proof (V2 _ Hsv0); lia|].
    apply list_elem_of_singleton in Hsv0 as ->. simpl. lia.
  - intros sv1 sv2 [H1|H1]%elem_of_app [H2|H2]%elem_of_app Hk Ev;
      try apply list_elem_of_singleton in H1 as ->; try apply list_elem_of_singleton in H2 as ->; try done;
      simpl in *; [by apply V3|pose proof (V2 _ H1); lia|pose proof (V2 _ H2); lia].
Qed.
Lemma unregister_step_views n w w' : unregister_step n w = Some w' → view_inv w → view_inv w'.
Proof.
  unfold unregister_step. intros Hs Hi. destruct (lw_unregs w !! n) as [u|]; simpl in Hs; [|done].
  destruct (un_waiting u) as [[gh tid]|].
  - repeat case_match; simplify_eq. by apply (view_same_states w); [apply cells_go_same| | |].
  - destruct (un_pending u) as [|gh pending].
    + case_bool_decide; simplify_eq.
      eapply (view_same_states (on_llm_state (un_state u) (λ s, ls_bump 1 (remove_ids (un_active u) s)) w));
        [by apply cells_go_same|done|done|].
      apply view_less; [|done]. intros s. split_and!; try done. apply remove_ids_gens.
    + destruct (lw_cells w !! gh) as [c|]; simplify_eq/=.
      eapply (view_same_states (on_cell gh (spawn_task TAbortLock) w)); [by apply cells_go_same|done|done|].
      apply view_on_cell; [|done]. intros x. by apply spawn_goes.
Qed.
Lemma step_views l w w' : step l w = Some w' → view_inv w → view_inv w'.
Proof.
  intros Hs Hi. pose proof (step_goes _ _ _ _ _ _ Hs) as Hg. destruct l; simpl in Hs.
  - destruct (lw_servers w !! server) as [sv|] eqn:E; simplify_eq/=. apply call_views; [done|].
    by apply list_elem_of_lookup_2 in E.
  - simplify_eq. apply view_less; [done|].
    eapply (view_same_states w); [by apply cells_go_same|done|done|done].
  - simplify_eq. unfold register_connection_alias. munfold.
    destruct (lw_states w !! k) as [s|]; [|done]. destruct (ls_connections s !! target); [|done].
    by apply view_less.
  - destruct (lw_servers w !! server) as [sv|] eqn:E; simplify_eq/=. apply connection_view_views; [done|].
    by apply list_elem_of_lookup_2 in E.
  - destruct (lw_servers w !! server) as [sv|] eqn:E; simplify_eq/=. apply snapshot_views; [done|].
    by apply list_elem_of_lookup_2 in E.
  - simplify_eq. unfold unregister_start. munfold.
    destruct (lw_states w !! k) as [s|]; [|done]. destruct (isSome _); simpl; [|done].
    eapply (view_same_states (on_llm_state k (λ s, ls_bump 1 (remove_ids (named_gens w s name true).*1
      (ls_set_connections (delete name (ls_connections s)) s))) w)); [by apply cells_go_same|done|done|].
    apply view_less; [|done]. intros s0. split_and!; try done.
    exact (remove_ids_gens _ (ls_set_connections (delete name (ls_connections s0)) s0)).
  - by eapply unregister_step_views.
  - unfold cell_step in Hs.
    destruct (lw_cells w !! gh) as [c|] eqn:Hc; simpl in Hs; [|done].
    destruct (lw_conns w !! gn_connection (cl_gen c)) as [conn|] eqn:Hk; simpl in Hs; [|done].
    destruct (llm_task_step _ _ _ _ _ _ _) as [[c' conn']|] eqn:Ht; simpl in Hs; [|done]. simplify_eq.
    by eapply (view_same_states w).
Qed.
Lemma reachable_views w : reachable w → view_inv w.
Proof.
  intros [ls Hr].
  assert (∀ w0, view_inv w0 → run ls w0 = Some w → view_inv w) as Hall.
  { clear Hr. induction ls as [|l ls IH]; intros w0 Hi; simpl; [by intros [= <-]|].
    destruct (step l w0) as [w1|] eqn:Hs; simpl; [|done]. apply IH. by eapply step_views. }
  eapply Hall; [|exact Hr]. constructor; simpl.
  - intros k s [-> <-]%list_lookup_singleton_Some. constructor; simpl; try done.
    intros sv ->%list_elem_of_singleton _. done.
  - intros sv ->%list_elem_of_singleton. simpl. lia.
  - by intros sv sv' ->%list_elem_of_singleton ->%list_elem_of_singleton.
Qed.

(** ** What a call through a view leaves alone *)

Definition hidden_kept sv w w' : Prop :=
  ∀ gh c, lw_cells w !! gh = Some c → connection_visible sv (gn_connection_name (cl_gen c)) = false →
    lw_cells w' !! gh = Some c.
Definition other_views_kept sv w w' : Prop :=
  ∀ k s, lw_states w !! k = Some s → ∃ s', lw_states w' !! k = Some s' ∧
    ∀ key, k ≠ sv_state sv ∨ key.1 ≠ sv_view sv → ls_fids s' !! key = ls_fids s !! key.

Lemma hidden_same sv w w' : lw_cells w' = lw_cells w → hidden_kept sv w w'.
Proof. intros E gh c Hc _. by rewrite E. Qed.
Lemma hidden_on_cell sv gh f w w' :
  lw_cells w' = lw_cells w → cell_visible w sv gh → hidden_kept sv w (on_cell gh f w').
Proof.
  intros E (c0 & Hc0 & Hv) j c Hc Hn. simpl. rewrite E, list_lookup_alter_ne; [done|].
  intros ->. simplify_eq. congruence.
Qed.
Lemma write_hidden sv fid offset data w :
  view_inv w → sv ∈ lw_servers w → hidden_kept sv w (llm_write sv fid offset data w).1.
Proof.
  intros Hi Hsv. destruct (lookup_lt_is_Some_2 _ _ (vi_servers _ Hi _ Hsv)) as [s Hs].
  unfold llm_write. rewrite (run_state sv w s _ Hs). munfold.
  destruct (ls_fids s !! _) as [f|] eqn:Hf; [|by apply hidden_same]. destruct (opened_for_write _); simpl; [|by apply hidden_same].
  pose proof (fv_node _ _ _ _ (sw_fids _ _ _ (vi_states _ Hi _ _ Hs) _ _ _ Hsv eq_refl Hf)) as Hn.
  destruct (lf_node f); simpl in *; try (by apply hidden_same).
  - repeat (case_match; simplify_eq/=); by apply hidden_same.
  - case_bool_decide; simpl; [|by apply hidden_same]. destruct (ls_gens s !! id) as [gh|] eqn:Hg; simpl; [|by apply hidden_same].
    apply hidden_on_cell; [done|]. by apply Hn.
Qed.
Lemma clunk_hidden sv fid w :
  view_inv w → sv ∈ lw_servers w → hidden_kept sv w (llm_clunk sv fid w).1.
Proof.
  intros Hi Hsv. destruct (lookup_lt_is_Some_2 _ _ (vi_servers _ Hi _ Hsv)) as [s Hs].
  unfold llm_clunk. case_bool_decide; [by apply hidden_same|]. rewrite (run_state sv w s _ Hs). munfold.
  destruct (ls_fids s !! _) as [f|] eqn:Hf; [|by apply hidden_same].
  pose proof (fv_node _ _ _ _ (sw_fids _ _ _ (vi_states _ Hi _ _ Hs) _ _ _ Hsv eq_refl Hf)) as Hn.
  destruct (lf_node f); simpl in *; try (by apply hidden_same). destruct (opened_for_write _); simpl; [|by apply hidden_same].
  destruct (ls_gens s !! id) as [gh|] eqn:Hg; simpl; [|by apply hidden_same]. apply hidden_on_cell; [done|]. by apply Hn.
Qed.
(** Opening only adds generations. *)
Definition cells_kept w w' : Prop := lw_cells w `prefix_of` lw_cells w'.
Global Instance cells_kept_preorder : PreOrder cells_kept.
Proof. unfold cells_kept. split; [by intros w|intros w1 w2 w3; by etrans]. Qed.
Lemma allocate_kept sv fid mode name ev : step_rel cells_kept (allocate_generation sv fid mode name ev).
Proof.
  intros w. destruct (allocate_cases sv fid mode name ev w) as [[-> _]|(s & k & conn & reserved & _ & _ & _ & _ & ->)];
    [done|]. eexists. apply allocated_cells.
Qed.
Lemma open_hidden sv fid mode w : hidden_kept sv w (llm_open hash_path sv fid mode w).1.
Proof.
  assert (step_rel cells_kept (llm_open hash_path sv fid mode)) as Hk.
  { assert (∀ fid f, step_rel cells_kept (on_fid sv fid f)) as Hf by (intros; apply step_modify; intros ?; unfold cells_kept; done).
    pose proof (allocate_kept sv) as Ha. unfold llm_open, the_state. msteps. }
  intros gh c Hc _. by eapply prefix_lookup_Some; [|apply Hk].
Qed.
Lemma call_hidden sv r w :
  view_inv w → sv ∈ lw_servers w → hidden_kept sv w (transport_call (H := LlmFileServer hash_path sv) r w).1.
Proof.
  intros Hi Hsv.
  assert (∀ A B (m : M LlmWorld ErrorCode A) (f : A → B), hidden_kept sv w (m w).1 →
    hidden_kept sv w ((a ← m; mret (f a)) w).1) as Hret.
  { intros A B m f Hm. unfold mbind, m_bind. by destruct (m w) as [w' [a| | |]]. }
  destruct r; simpl; try (by apply hidden_same); apply Hret.
  - apply hidden_same. unfold llm_walk, llm_node_of, the_state. by mcases.
  - apply open_hidden.
  - rewrite read_world; by apply hidden_same.
  - by apply write_hidden.
  - rewrite stat_world; by apply hidden_same.
  - by apply clunk_hidden.
Qed.

Global Instance other_views_kept_preorder sv : PreOrder (other_views_kept sv).
Proof.
  split; [intros w k s Hs; by exists s|]. intros w1 w2 w3 H1 H2 k s Hs.
  destruct (H1 _ _ Hs) as (s2 & Hs2 & E2). destruct (H2 _ _ Hs2) as (s3 & Hs3 & E3).
  exists s3. split; [done|]. intros key Hk. by rewrite E3, E2.
Qed.
Lemma others_on_state sv F w :
  (∀ s key, key.1 ≠ sv_view sv → ls_fids (F s) !! key = ls_fids s !! key) →
  other_views_kept sv w (on_llm_state (sv_state sv) F w).
Proof.
  intros HF k s Hs. simpl. destruct (decide (k = sv_state sv)) as [->|Hne].
  - rewrite list_lookup_alter_eq, Hs. simpl. exists (F s). split; [done|]. intros key [?|?]; [done|]. by apply HF.
  - rewrite list_lookup_alter_ne by done. by exists s.
Qed.
Lemma others_states sv w w' : lw_states w' = lw_states w → other_views_kept sv w w'.
Proof. intros E k s Hs. exists s. by rewrite E. Qed.
Lemma call_others sv r : step_rel (other_views_kept sv) (transport_call (H := LlmFileServer hash_path sv) r).
Proof.
  apply transport_rel; try (by apply _).
  - intros fid f. apply step_modify. intros w. apply others_on_state. intros s key Hk. simpl.
    apply lookup_alter_ne. intros <-. done.
  - intros fid f. apply step_modify. intros w. apply others_on_state. intros s key Hk. simpl.
    apply lookup_insert_ne. intros <-. done.
  - intros fid. apply step_modify. intros w. apply others_on_state. intros s key Hk. simpl.
    apply lookup_delete_ne. intros <-. done.
  - intros gh. apply step_modify. intros w. by apply others_states.
  - intros gh buf. apply step_modify. intros w. by apply others_states.
  - intros fid mode name ev w.
    destruct (allocate_cases sv fid mode name ev w) as [[-> _]|(s & k & conn & reserved & Hs & _ & _ & _ & ->)];
      [reflexivity|]. simpl. destruct (allocated_state sv fid name ev s k reserved w Hs) as (s' & Est & _ & _ & _ & Ef).
    intros j x Hx. rewrite Est. destruct (decide (j = sv_state sv)) as [->|Hne].
    + simplify_eq. rewrite list_lookup_insert_eq by (by eapply lookup_lt_Some). exists s'. split; [done|].
      intros key [?|Hk]; [done|]. rewrite Ef. apply lookup_alter_ne. intros <-. done.
    + rewrite list_lookup_insert_ne by done. by exists x.
Qed.

(** C9: Through a view narrowed to some connections a process is only at those: the
    connection of every fid of the view is one of them, the generation of every fid
    belongs to one of them, and whatever it calls changes no generation of another
    connection and no fid of another view or server. *)
Theorem narrowed_view_is_confined w sv s allowed :
  reachable w → sv ∈ lw_servers w → lw_states w !! sv_state sv = Some s → sv_allowed sv = Some allowed →
  (∀ fid f, ls_fids s !! (sv_view sv, fid) = Some f →
     match lf_node f with
     | LnConnection name | LnConnectionProvider name | LnConnectionProfile name | LnConnectionMeter name
     | LnConnectionCapabilities name | LnClone name | LnEvaluate name => name ∈ allowed
     | LnGen id | LnGenData id | LnGenEvents id | LnGenCtl id | LnGenStatus id =>
         ∀ g, gen_at w s id = Some g → gn_connection_name g ∈ allowed
     | _ => True
     end) ∧
  ∀ r, let w' := (transport_call (H := LlmFileServer hash_path sv) r w).1 in
    (∀ gh c, lw_cells w !! gh = Some c → gn_connection_name (cl_gen c) ∉ allowed → lw_cells w' !! gh = Some c) ∧
    other_views_kept sv w w'.
Proof.
  intros Hi%reachable_views Hsv Hs Ha.
  assert (∀ name, connection_visible sv name = true ↔ name ∈ allowed) as Hvis
    by (intros name; unfold connection_visible; rewrite Ha; apply bool_decide_eq_true).
  split.
  - intros fid f Hf. pose proof (fv_node _ _ _ _ (sw_fids _ _ _ (vi_states _ Hi _ _ Hs) _ _ _ Hsv eq_refl Hf)) as Hn.
    assert (∀ id, id_visible w s sv id → ∀ g, gen_at w s id = Some g → gn_connection_name g ∈ allowed) as Hid.
    { intros id [_ Hv] g Hg. unfold gen_at in Hg. destruct (ls_gens s !! id) as [gh|]; simpl in Hg; [|done].
      destruct (Hv gh eq_refl) as (c & Hc & Hcv). rewrite Hc in Hg. simplify_eq/=. by apply Hvis. }
    destruct (lf_node f); simpl in Hn; try done; first [by apply Hvis|by apply Hid].
  - intros r. cbv zeta. split; [|apply call_others]. intros gh c Hc Hn.
    apply (call_hidden sv r w Hi Hsv gh c Hc). apply not_true_iff_false. by rewrite Hvis.
Qed.
End views.

(** ** A run of the server *)

(** A printer, a hash and a parser to run it with: the document [01] is a request. *)
Definition llm_demo_json_text : JsonText := λ j,
  match j with JObject ((key, _) :: _) => "{" +:+ key +:+ "}" | _ => "{}" end.
Definition llm_demo_hash (key : string) : Z := str_len key.
Definition llm_demo_document : WireRequestDocV2 :=
  mkWireRequest 2 None [mkWireMessage WUser "hello" [] None None None None None] [] None None
    (mkWireReasoning None) ∅.
Definition llm_demo_parse (b : bytes) : option WireRequestDocV2 :=
  if bool_decide (b = [x01]) then Some llm_demo_document else None.
Definition llm_demo_choice (_ : bytes) : option ChoiceDoc := None.
Definition llm_demo_chunk (finished : bool) : StreamChunk :=
  mkChunk (Some "hi") None None None (Some (mkUsage 1 None 2 3 None)) None None None None finished
    (if finished then Some "stop" else None).

(** A connection with two generations at most, a view of it, and a request written
    through the view *)
Definition llm_demo_requests : list LlmLabel :=
  [LlmRegister 0 "main" "mock" None None (mkLimits (Some 2) None) false true;
   LlmRegister 0 "other" "mock" None None (mkLimits None None) false true;
   LlmView 0 "main";
   LlmCall 1 (WalkReq 0 5 ["connections"; "main"; "clone"]); LlmCall 1 (OpenReq 5 ReadWrite);
   LlmCall 1 (WalkReq 0 6 ["connections"; "main"; "g0"; "data"]); LlmCall 1 (OpenReq 6 Write);
   LlmCall 1 (WriteReq 6 0 [x01]); LlmCall 1 (ClunkReq 6)].
(** The request is committed and the provider called, *)
Definition llm_demo_calling : list LlmLabel :=
  llm_demo_requests ++ (LlmTaskStep 0 0 <$> [ITick; ITick; ITick]).
(** it answers, *)
Definition llm_demo_done : list LlmLabel :=
  llm_demo_calling ++ (LlmTaskStep 0 0 <$> [IStarted None; ITick])
  ++ (LlmTaskStep 0 1 <$> [ITick; IChunk (Some (llm_demo_chunk false)); ITick; ITick; ITick; ITick;
                           ITick; IChunk (Some (llm_demo_chunk true)); ITick; ITick; ITick; ITick; ITick; ITick]).
Definition llm_demo_run (ls : list LlmLabel) : option LlmWorld :=
  llm_run (H := llm_demo_json_text) llm_demo_hash llm_demo_parse llm_demo_choice ls llm_world_new.
Definition llm_demo_world (ls : list LlmLabel) : LlmWorld := default llm_world_new (llm_demo_run ls).
Definition llm_demo_cell (ls : list LlmLabel) : Cell :=
  default (mkCell (generation_new 0 "" 0 false) [] []) (lw_cells (llm_demo_world ls) !! 0%nat).
Example llm_demo_ends :
  gn_status (cl_gen (llm_demo_cell llm_demo_done)) = GDone ∧ cl_tasks (llm_demo_cell llm_demo_done) = [TReturned (Ok tt); TEnded] ∧
  Stream.buf (gn_events (cl_gen (llm_demo_cell llm_demo_done))) =
    into_bytes (join (String "010" "") ["{version}"; "{version}"; "{version}"; ""]).
Proof. by vm_compute. Qed.
(** A caller that goes away while it waits for the provider leaves its generation
    running: no task works on it any more and no terminal record will come. *)
Definition llm_demo_dropped : list LlmLabel := llm_demo_calling ++ [LlmTaskStep 0 0 IDrop].
Example dropped_commit_stays_running :
  isSome (llm_demo_run llm_demo_dropped) = true ∧
  gn_status (cl_gen (llm_demo_cell llm_demo_dropped)) = GRunning ∧
  cl_tasks (llm_demo_cell llm_demo_dropped) = [TEnded] ∧
  Stream.buf (gn_events (cl_gen (llm_demo_cell llm_demo_dropped))) = [].
Proof. by vm_compute. Qed.
(** A name that is no entry of the root or of [providers] is reported as a file that
    is no directory; one that is no connection is reported as missing. *)
Example unknown_root_name_not_directory :
  (λ n, llm_child llm_world_new llm_state_new (mkLlmFs 0 None 0) n "absent") <$>
    [LnRoot; LnProvidersDir; LnConnectionsDir] = [Err NotDirectory; Err NotDirectory; Err NotFound].
Proof. by vm_compute. Qed.
Lemma llm_demo_reachable ls :
  isSome (llm_demo_run ls) = true → llm_reachable (H := llm_demo_json_text) llm_demo_hash llm_demo_parse llm_demo_choice (llm_demo_world ls).
Proof.
  intros Hr. exists ls. unfold llm_demo_world, llm_demo_run in *.
  by destruct (llm_run llm_demo_hash llm_demo_parse llm_demo_choice ls llm_world_new).
Qed.

Lemma generation_ends_once_witness :
  log_settled (H := llm_demo_json_text) (cl_gen (llm_demo_cell llm_demo_done)) ∧
  gen_is_terminal (gn_status (cl_gen (llm_demo_cell llm_demo_done))) = true.
Proof.
  split; [|by vm_compute].
  apply (generation_ends_once (H := llm_demo_json_text) llm_demo_hash llm_demo_parse llm_demo_choice (llm_demo_world llm_demo_done) 0).
  - apply llm_demo_reachable. by vm_compute.
  - by vm_compute.
  - by vm_compute.
Defined.
Lemma provider_called_once_witness :
  gn_status (cl_gen (llm_demo_cell llm_demo_calling)) = GRunning ∧ length (cl_calls (llm_demo_cell llm_demo_calling)) = 1%nat ∧
  (count driver (cl_tasks (llm_demo_cell llm_demo_calling)) ≤ 1)%nat.
Proof.
  split; [by vm_compute|]. split; [by vm_compute|].
  apply (provider_called_once (H := llm_demo_json_text) llm_demo_hash llm_demo_parse llm_demo_choice (llm_demo_world llm_demo_calling) 0).
  - apply llm_demo_reachable. by vm_compute.
  - by vm_compute.
Defined.
(** The provider has been called and does not answer. *)
Lemma abort_needs_no_provider_witness :
  gn_status (cl_gen (llm_demo_cell llm_demo_calling)) = GRunning ∧
  ∃ sched w' c', Forall (λ p, no_answer p.2 = true) sched ∧
    llm_run (H := llm_demo_json_text) llm_demo_hash llm_demo_parse llm_demo_choice
      ((λ p, LlmTaskStep 0 p.1 p.2) <$> sched)
      (on_cell 0 (spawn_task TAbortLock) (llm_demo_world llm_demo_calling)) = Some w' ∧
    lw_cells w' !! 0%nat = Some c' ∧ gen_is_terminal (gn_status (cl_gen c')) = true ∧
    Forall (λ t, finished t = true) (cl_tasks c').
Proof.
  split; [by vm_compute|].
  apply (abort_needs_no_provider (H := llm_demo_json_text) llm_demo_hash llm_demo_parse llm_demo_choice
    (llm_demo_world llm_demo_calling) 0 (llm_demo_cell llm_demo_calling)).
  - apply llm_demo_reachable. by vm_compute.
  - by vm_compute.
Defined.
Lemma starts_within_limits_witness :
  ∃ conn, lw_conns (llm_demo_world llm_demo_done) !! 0%nat = Some conn ∧
    cn_generation_starts conn = 1 ∧ started_gens 0 false (lw_cells (llm_demo_world llm_demo_done)) = 1 ∧
    within_max (max_generations (cn_limits conn)) (cn_generation_starts conn).
Proof.
  set (w := llm_demo_world llm_demo_done).
  set (conn := default (connection_new "" None None unknown_provider_capabilities (mkLimits None None) false false)
                 (lw_conns w !! 0%nat)).
  exists conn. split; [by vm_compute|].
  destruct (starts_within_limits (H := llm_demo_json_text) llm_demo_hash llm_demo_parse llm_demo_choice w 0 conn)
    as (_ & _ & Hm & _).
  - apply llm_demo_reachable. by vm_compute.
  - by vm_compute.
  - split; [by vm_compute|]. split; [by vm_compute|exact Hm].
Defined.
Lemma narrowed_view_is_confined_witness :
  let w := llm_demo_world llm_demo_calling in
  let sv := mkLlmFs 0 (Some {["main"]}) 1 in
  lf_node <$> (ls_fids (default llm_state_new (lw_states w !! 0%nat)) !! (1, 5)) = Some (LnClone "main") ∧
  "main" ∈ ({["main"]} : gset string) ∧
  other_views_kept sv w (transport_call (H := LlmFileServer (H := llm_demo_json_text) llm_demo_hash sv) (ClunkReq 5) w).1.
Proof.
  cbv zeta. set (w := llm_demo_world llm_demo_calling). set (sv := mkLlmFs 0 (Some {["main"]}) 1).
  set (s := default llm_state_new (lw_states w !! 0%nat)).
  destruct (narrowed_view_is_confined (H := llm_demo_json_text) llm_demo_hash llm_demo_parse llm_demo_choice
    w sv s {["main"]}) as [Hn Hc].
  - apply llm_demo_reachable. by vm_compute.
  - apply list_elem_of_lookup_2 with 1%nat. by vm_compute.
  - by vm_compute.
  - done.
  - split; [by vm_compute|]. split; [|apply Hc].
    apply (Hn 5 (mkLlmFid (LnClone "main") (Some ReadWrite) None (Some "g0") [])). by vm_compute.
Defined.
